(* ===== verification/_CoqProject ===== *)
-Q . S2P
Prelude.v
Bytes.v
ByteOrder.v
BTreeMap.v
Strings.v
Float64.v
StorageJsonb.v
StorageJsonText.v
StorageError.v
StoragePage.v
StorageReplacer.v
StorageDisk.v
StorageBufferPool.v
StoragePins.v
StorageWal.v
StorageHeap.v
StorageBTree.v
StorageBTreeNode.v
StorageBTreeOps.v
StorageBTreeMap.v
StorageBTreeIndex.v
StorageGin.v
StorageTxn.v
StorageRecovery.v
StorageCrash.v
StorageVacuum.v
StorageLock.v
StorageColumnar.v
StorageColumnarSpec.v
StorageHnsw.v
StorageHnswSpec.v
StorageHnswIndex.v
RaftLog.v
RaftNode.v
RaftElection.v
RaftTransport.v
StateMachine.v
RaftCluster.v
RaftClusterSpec.v
RaftSolo.v
TwoPhase.v
Shard.v
SqlAst.v
SqlValue.v
SqlToken.v
SqlCodec.v
SqlLike.v
SqlGraph.v
SqlExpr.v
SqlTyping.v
SqlSpill.v
SqlJoin.v
SqlJoinOrder.v
SqlGroup.v
SqlVectorized.v
SqlVectorizedSpec.v
SqlCatalog.v
SqlPlan.v
SqlWindow.v
SqlLexer.v
SqlTokenText.v
SqlParser.v
SqlParserTotal.v
SqlPrint.v
SqlRoundTrip.v
SqlEngine.v
SqlEngineSpec.v
SqlSession.v
SqlEngineFlaws.v
ServerMd5.v
ServerProto.v
ServerSession.v
ServerConnection.v
ServerEngine.v
ServerServing.v
