(* ===== verification/Prelude.v ===== *)
(** * Oigrap: a verification development

    Oigrap ([src/]) is a relational database in four crates.  [storage] keeps
    tables in pages: slotted pages, a disk manager, a buffer pool with LRU
    replacement, a write-ahead log, heap files, B+ trees, multi-version
    transactions with crash recovery, vacuum, a lock manager, binary JSON with
    an inverted index, columnar tables and a nearest-neighbour index.  [raft]
    replicates a log among nodes and has two-phase commit and sharding.  [sql]
    has the lexer, the parser and the executor.  [server] speaks the PostgreSQL
    wire protocol and runs the statements of its clients on one database.

    ** How the code is translated

    A Rust function is a function on the values it reads and changes.  Unsigned
    integers are [N] and signed ones [Z]; where the source computes at a width,
    so does the model ([wrap], [wadd], [wsub], [to_signed] of this file).  Bytes
    are [list N], strings their UTF-8 bytes, [f64] is the Standard Library's
    [spec_float] at binary64 ([Float64]).  A function that can fail returns an
    [outcome]: [Ok], [Err] with the source's error, or [Panic] for an index out
    of range, an [unwrap] of nothing or an overflow trap.  Code that threads
    state (pool, log, connection) is written in a state monad over [outcome]
    that keeps what was changed before an error.  A hash map whose order does
    not matter is a [gmap]; one whose order is observable is a list.

    Loops that are not structural take fuel.  Their callers compute a bound from
    the data (bytes of the input, entries of the log, nodes of the graph), and a
    lemma shows it is never used up; running out of it is [Panic], so a theorem
    that says [Ok] says that the loop ended.  The bounds are stated where the
    fuel is given ([SqlEngine] takes the one of the B+ tree): [SqlParser] (tokens; [parse_terminates]), [SqlLexer] (bytes),
    [StorageBTree] (height of the tree), [StorageHnsw] (nodes), [SqlGraph]
    (edges), [StorageRecovery] and [StorageWal] (bytes of the log).

    What is not under [src/] is a parameter: the CRC32 and the clock are
    arguments, upper and lower case beyond ASCII the class [UnicodeCase], Rust's
    [Debug] output of floats [DebugFormat], the standard [BinaryHeap] a class
    with its documented laws, the order a [HashMap] is iterated in the class
    [TableOrder], the natural logarithm an argument.  The sort of slices is the
    class [SliceSort] of this file with what its documentation promises: the
    result is a rearrangement, and the stable sorted one where the comparison is
    a total order on the elements; elsewhere it may panic or leave any order.

    ** Files and theorems

    This file has outcomes, machine integers, the hint databases and lemmas on
    lists; [Bytes], [ByteOrder], [BTreeMap], [Strings] and [Float64] model what
    the sources use of the standard library.

    Storage, bottom up.
    - [StorageError], [StoragePage] ([error.rs], [page.rs]): any sequence of page
      operations acts as on a list of optional tuples with byte accounting.
    - [StorageReplacer], [StorageDisk], [StorageBufferPool], [StoragePins]
      ([replacer.rs], [disk.rs], [buffer_pool.rs]): the replacer evicts the least
      recently used evictable frame; over any disk that keeps pages (the class
      [PageStore], discharged by the disk manager) the pool is a map of pages;
      a flush makes it durable.
    - [StorageWal] ([wal.rs]): the log manager refines a list of records split
      in a durable and a pending part, across reopening.
    - [StorageHeap] ([heap.rs]): the free space map finds the leftmost page with
      room; heap operations refine a table of tuples.
    - [StorageBTree], [StorageBTreeNode], [StorageBTreeOps], [StorageBTreeMap],
      [StorageBTreeIndex] ([btree.rs]): insertions with distinct keys, lookups
      and range scans answer as an ordered map does, through every split.
    - [StorageTxn], [StorageRecovery], [StorageCrash] ([mvcc.rs]): snapshots see
      exactly what had committed when they were taken; of two transactions that
      conflict both ways at most one commits; recovery keeps what was committed
      and redo is idempotent; crash schedules that lose data.
    - [StorageVacuum], [StorageLock] ([vacuum.rs], [lock.rs]): vacuum removes
      exactly the tuples whose deleter has ended and keeps what a new snapshot
      sees, unless its deleter has aborted; exclusive locks exclude, in every
      interleaving.
    - [StorageJsonb], [StorageJsonText], [StorageGin] ([jsonb.rs], [gin.rs]): text
      and binary round trips, of floats for whole numbers below 10^15; an index scan finds every document that contains
      the query.
    - [StorageColumnar], [StorageColumnarSpec] ([columnar.rs]): encodings and
      files give back the rows; pruning drops none that matches.
    - [StorageHnsw], [StorageHnswSpec], [StorageHnswIndex] ([hnsw.rs]): insertion
      keeps the graph well formed; a search ends and returns distinct items
      with true distances, the first a local minimum.

    Replication.
    - [RaftLog], [RaftNode], [RaftElection], [RaftTransport], [StateMachine]
      ([log.rs], [rpc.rs], [node.rs], [cluster.rs], [transport.rs],
      [state_machine.rs]): entries are delivered once and in order; append
      entries replicates; a term has at most one leader in every schedule of
      timeouts, losses and delays; the serving loop answers encoded requests;
      a snapshot replaces the prefix it covers.
    - [RaftCluster], [RaftClusterSpec], [RaftSolo] ([cluster.rs]): members with
      their threads under arbitrary schedules refine the election protocol; a
      state machine is the initial one after the delivered entries; a solo
      member that is scheduled commits and applies; replicas can diverge.
    - [TwoPhase], [Shard] ([twopc.rs], [shard.rs]): commit exactly if all voted
      yes, complete exactly if all acknowledged; routing finds the one owner.

    SQL.
    - [SqlToken], [SqlLexer], [SqlTokenText], [SqlAst], [SqlParser],
      [SqlParserTotal], [SqlPrint], [SqlRoundTrip] ([error.rs], [lexer.rs],
      [ast.rs], [parser.rs]): lexer and parser end on every input and read back
      what a printer writes, tokens, expressions and statements.
    - [SqlValue], [SqlCodec] ([value.rs], [catalog.rs], [codec.rs]): key encoding
      keeps the order; rows decode to what was encoded.
    - [SqlExpr], [SqlTyping], [SqlLike], [SqlGraph] ([executor.rs], expressions):
      typed expressions evaluate to values of their type; LIKE and shortest
      paths meet their specifications.
    - [SqlSpill], [SqlJoin], [SqlJoinOrder], [SqlGroup] ([spill.rs],
      [executor.rs]): hash joins and partitioned hash joins are the nested loop;
      join order is a permutation; groups partition the rows.
    - [SqlVectorized], [SqlVectorizedSpec] ([vectorized.rs]): the vectorised
      path with pruned zones computes what the row path computes.
    - [SqlCatalog], [SqlPlan], [SqlWindow] ([catalog.rs], [executor.rs]): the
      catalog and its views, statistics and the choice of an access path, window
      functions and PageRank; a client finds the columns of every table in both
      sets of views; ROW_NUMBER numbers every partition in the order of the
      window, if it is one.
    - [SqlEngine], [SqlEngineSpec], [SqlSession], [SqlEngineFlaws]
      ([executor.rs], statements): every statement over catalog, buffer pool,
      log and transactions; sessions on tables without indexes, from the SQL
      text to the pages, answer as tables of rows do; an UPDATE that fails loses
      the rows it has reached; sessions that read deleted rows or undo nothing
      are computed.

    Server.
    - [ServerMd5], [ServerProto], [ServerSession], [ServerConnection],
      [ServerEngine], [ServerServing] ([md5.rs], [proto.rs], [session.rs],
      [connection.rs]): MD5 follows RFC 1321; messages are read back; a
      parameter becomes one literal token; every query and every Sync is
      answered by one ReadyForQuery until a statement panics, which poisons the
      database's mutex; portals hand out each row once.  [ServerEngine] puts the
      engine of [SqlEngine] behind the connections.

    Each file with theorems of correctness also has the closed counterexamples
    that mark their limits: inputs for which the code does not do what a comment
    or its purpose says.  They are theorems too, proved by computation.

    ** Not modelled

    Failures of the operating system (full disk, broken sockets) and the
    durability of [fsync]; temporary files and directories; [save] and [load] of
    the index files, which write the bytes [to_bytes] gives; the cache of TCP
    connections in [TcpTransport] and the sleeping and random seeding of threads
    (a step may be taken at any time instead); TLS ([rustls]); [main.rs];
    [tpch.rs] and [fuzz.rs], which are tests.
    The theorem on sessions is about tables without
    primary key, column store, GIN or vector index, and about queries of one
    table; the other paths are modelled and run, with theorems about the
    structures below them. *)

From Stdlib Require Export NArith ZArith Lia Sorted.
From stdpp Require Export base tactics option numbers.
From stdpp Require Export list.

#[global] Open Scope N_scope.

(** ** Outcomes

    A Rust function that returns a [Result] either returns [Ok], returns
    [Err], or panics (a slice index out of range, an [unwrap] of nothing).
    The three cases are kept apart. *)
Inductive outcome (E A : Type) : Type :=
  | Ok (a : A)
  | Err (e : E)
  | Panic.
Arguments Ok {E A} a.
Arguments Err {E A} e.
Arguments Panic {E A}.

#[global] Instance outcome_ret E : MRet (outcome E) := fun A a => Ok a.

#[global] Instance outcome_bind E : MBind (outcome E) := fun A B k m =>
  match m with
  | Ok a => k a
  | Err e => Err e
  | Panic => Panic
  end.

(** Rust's [slice.get(i)] turned into the indexing expression [slice[i]]. *)
Definition or_panic {E A} (o : option A) : outcome E A :=
  match o with
  | Some a => Ok a
  | None => Panic
  end.

(** Rust's [Option::ok_or]. *)
Definition ok_or {E A} (o : option A) (e : E) : outcome E A :=
  match o with
  | Some a => Ok a
  | None => Err e
  end.

Definition is_ok {E A} (m : outcome E A) : bool :=
  match m with
  | Ok _ => true
  | _ => false
  end.

Definition is_panic {E A} (m : outcome E A) : bool :=
  match m with
  | Panic => true
  | _ => false
  end.

(** ** Machine integers

    Unsigned integers are values of [N], signed ones of [Z].  A cast to a
    narrower type keeps the low bits; arithmetic wraps (the release profile of
    the build). *)
Definition wrap (w : N) (v : N) : N := v mod 2 ^ w.

Definition u8 (v : N) : N := wrap 8 v.
Definition u16 (v : N) : N := wrap 16 v.
Definition u32 (v : N) : N := wrap 32 v.
Definition u64 (v : N) : N := wrap 64 v.

Definition wadd (w a b : N) : N := wrap w (a + b).

(** [a - b] on [w]-bit operands. *)
Definition wsub (w a b : N) : N := wrap w (a + 2 ^ w - b).

Definition u64_max : N := 2 ^ 64 - 1.

(** The signed reading of a [w]-bit pattern, and back. *)
Definition to_signed (w : N) (v : N) : Z :=
  if v <? 2 ^ (w - 1) then Z.of_N v else (Z.of_N v - 2 ^ Z.of_N w)%Z.

Definition of_signed (w : N) (z : Z) : N := Z.to_N (z mod 2 ^ Z.of_N w)%Z.

(** ** Stable sorting

    [sort_by_key], and [slice::sort_by] with a comparison that is a total order, are
    stable: the elements end up in the order of [le], those the order does not tell
    apart in the order they had. *)
Fixpoint sort_insert {A} (le : A -> A -> bool) (x : A) (l : list A) : list A :=
  match l with
  | [] => [x]
  | y :: r => if le x y then x :: l else y :: sort_insert le x r
  end.

Definition sort_by {A} (le : A -> A -> bool) (l : list A) : list A := foldr (sort_insert le) [] l.

(** [slice::sort_by] with any comparison, one that can panic included.  The standard
    library promises the stable order when the comparison is a total order of the
    elements; otherwise the elements are left in an unspecified order, or the sort
    panics. *)
Definition not_gt (c : comparison) : bool := match c with Gt => false | _ => true end.

Record total_order {A} (c : A -> A -> comparison) (l : list A) : Prop := {
  to_opp : forall a b, a ∈ l -> b ∈ l -> c b a = CompOpp (c a b);
  to_trans : forall a b d, a ∈ l -> b ∈ l -> d ∈ l -> not_gt (c a b) = true -> not_gt (c b d) = true -> not_gt (c a d) = true
}.

Class SliceSort : Type := {
  slice_sort : forall {E A : Type}, (A -> A -> outcome E comparison) -> list A -> outcome E (list A);
  slice_sort_perm : forall E A (cmp : A -> A -> outcome E comparison) l l', slice_sort cmp l = Ok l' -> l' ≡ₚ l;
  slice_sort_total : forall E A (cmp : A -> A -> outcome E comparison) c l,
    (forall a b, a ∈ l -> b ∈ l -> cmp a b = Ok (c a b)) -> total_order c l ->
    slice_sort cmp l = Ok (sort_by (fun a b => not_gt (c a b)) l)
}.

(** ** Automation *)

Create HintDb bytes.
Create HintDb byte_order.
Create Rewrite HintDb width.
Create Rewrite HintDb lens.

(** Case analysis on the boolean comparisons of a goal. *)
Ltac case_cmp :=
  repeat match goal with
  | |- context [?a <? ?b] => destruct (N.ltb_spec a b)
  | |- context [?a <=? ?b] => destruct (N.leb_spec a b)
  | |- context [?a =? ?b] => destruct (N.eqb_spec a b)
  end.

Ltac case_cmp_in H :=
  repeat match type of H with
  | context [?a <? ?b] => destruct (N.ltb_spec a b)
  | context [?a <=? ?b] => destruct (N.leb_spec a b)
  | context [?a =? ?b] => destruct (N.eqb_spec a b)
  end.

(** Splits a monadic computation that is known to end in [Ok]. *)
Ltac inv_outcome :=
  repeat match goal with
  | H : Ok _ = Ok _ |- _ => injection H as H; subst
  | H : Err _ = Ok _ |- _ => discriminate H
  | H : Panic = Ok _ |- _ => discriminate H
  | H : mbind _ ?m = Ok _ |- _ =>
      let E := fresh "E" in destruct m eqn:E; cbn in H; try discriminate H
  end.

(** ** Lemmas: outcomes *)

Lemma bind_ok {E A B} (k : A -> outcome E B) (a : A) : (Ok a ≫= k) = k a.
Proof. reflexivity. Qed.

Lemma bind_ok_inv {E A B} (m : outcome E A) (k : A -> outcome E B) (b : B) :
  (m ≫= k) = Ok b -> exists a, m = Ok a /\ k a = Ok b.
Proof. destruct m; cbn; intros; try discriminate; eauto. Qed.

(** ** Lemmas: machine integers *)

Lemma wrap_small (w v : N) : v < 2 ^ w -> wrap w v = v.
Proof. apply N.mod_small. Qed.

Lemma wrap_lt (w v : N) : wrap w v < 2 ^ w.
Proof. apply N.mod_lt. apply N.pow_nonzero. lia. Qed.

Lemma u8_small (v : N) : v < 256 -> u8 v = v.
Proof. apply (wrap_small 8). Qed.

Lemma u16_small (v : N) : v < 65536 -> u16 v = v.
Proof. apply (wrap_small 16). Qed.

Lemma u32_small (v : N) : v < 4294967296 -> u32 v = v.
Proof. apply (wrap_small 32). Qed.

Lemma u64_small (v : N) : v < 2 ^ 64 -> u64 v = v.
Proof. apply (wrap_small 64). Qed.

Lemma wadd_small (w a b : N) : a + b < 2 ^ w -> wadd w a b = a + b.
Proof. apply wrap_small. Qed.

Lemma wsub_small (w a b : N) : b <= a -> a < 2 ^ w -> wsub w a b = a - b.
Proof.
  intros ? ?. unfold wsub, wrap.
  replace (a + 2 ^ w - b) with (a - b + 1 * 2 ^ w) by lia.
  rewrite N.Div0.mod_add. apply N.mod_small. lia.
Qed.

#[export] Hint Rewrite u8_small u16_small u32_small u64_small using lia : width.

Lemma of_to_signed (w v : N) : 0 < w -> v < 2 ^ w -> of_signed w (to_signed w v) = v.
Proof.
  intros Hw Hv. unfold of_signed, to_signed.
  assert (Hz : (Z.of_N v < 2 ^ Z.of_N w)%Z) by (rewrite <- N2Z.inj_pow with (n := 2); lia).
  case_cmp.
  - rewrite Z.mod_small; lia.
  - replace (Z.of_N v - 2 ^ Z.of_N w)%Z with (Z.of_N v + (-1) * 2 ^ Z.of_N w)%Z by lia.
    rewrite Z.mod_add by lia. rewrite Z.mod_small; lia.
Qed.

Lemma of_signed_lt (w : N) (z : Z) : of_signed w z < 2 ^ w.
Proof.
  unfold of_signed. assert (0 < 2 ^ Z.of_N w)%Z by (apply Z.pow_pos_nonneg; lia).
  pose proof (Z.mod_pos_bound z (2 ^ Z.of_N w) ltac:(done)).
  rewrite <- (N2Z.id (2 ^ w)), N2Z.inj_pow. change (Z.of_N 2) with 2%Z. lia.
Qed.

Lemma to_of_signed (w : N) (z : Z) : 0 < w ->
  (- 2 ^ Z.of_N (w - 1) <= z < 2 ^ Z.of_N (w - 1))%Z ->
  to_signed w (of_signed w z) = z.
Proof.
  intros Hw Hz. unfold of_signed, to_signed.
  assert (Hp : (2 ^ Z.of_N w = 2 * 2 ^ Z.of_N (w - 1))%Z).
  { rewrite <- Z.pow_succ_r by lia. f_equal. lia. }
  assert (Hq : Z.of_N (2 ^ (w - 1)) = (2 ^ Z.of_N (w - 1))%Z) by (rewrite N2Z.inj_pow; lia).
  pose proof (Z.mod_pos_bound z (2 ^ Z.of_N w) ltac:(lia)) as Hb.
  destruct (Z.neg_nonneg_cases z) as [Hn | Hn].
  - assert (Hm : (z mod 2 ^ Z.of_N w = z + 2 ^ Z.of_N w)%Z).
    { rewrite <- (Z.mod_add z 1) by lia. rewrite Z.mod_small; lia. }
    rewrite Hm. case_cmp; lia.
  - rewrite Z.mod_small by lia. case_cmp; lia.
Qed.

(** ** Lemmas: sorting *)

Lemma sort_insert_perm {A} (le : A -> A -> bool) x l : sort_insert le x l ≡ₚ x :: l.
Proof.
  induction l as [|y l IH]; cbn; [done|]. destruct (le x y); [done|]. rewrite IH. constructor.
Qed.

Lemma sort_by_perm {A} (le : A -> A -> bool) l : sort_by le l ≡ₚ l.
Proof. unfold sort_by. induction l as [|x l IH]; cbn; [done|]. by rewrite sort_insert_perm, IH. Qed.

Lemma sort_insert_sorted {A} (c : A -> A -> comparison) (R : A -> A -> Prop) x l :
  (forall y, y ∈ l -> if not_gt (c x y) then R x y /\ forall z, z ∈ l -> R y z -> R x z else R y x) ->
  StronglySorted R l -> StronglySorted R (sort_insert (fun a b => not_gt (c a b)) x l).
Proof.
  intros Hx Hs. induction Hs as [|y l Hs IH Hy]; cbn [sort_insert]; [by repeat constructor|].
  pose proof (Hx y ltac:(left)) as Hxy. destruct (not_gt (c x y)).
  - destruct Hxy as [Hxy Ht]. constructor; [by constructor|]. constructor; [done|]. apply Forall_forall. intros z Hz.
    apply Ht; [by right|]. by apply (proj1 (Forall_forall _ _) Hy).
  - constructor; [|by rewrite sort_insert_perm; constructor]. apply IH. intros z Hz. specialize (Hx z ltac:(by right)).
    destruct (not_gt (c x z)); [|done]. destruct Hx as [Hxz Ht]. split; [done|]. intros u Hu. apply Ht. by right.
Qed.

(** A list sorted by a total order is in the order; elements that compare equal are in the
    order [before] in which the list had them. *)
Lemma sort_by_stable {A} (c : A -> A -> comparison) (before : A -> A -> Prop) l : total_order c l -> StronglySorted before l ->
  StronglySorted (fun a b => c a b = Lt \/ c a b = Eq /\ before a b) (sort_by (fun a b => not_gt (c a b)) l).
Proof.
  intros Ht Hb. induction Hb as [|x l Hb IH Hx]; [constructor|]. cbn [sort_by foldr].
  change (foldr (sort_insert (fun a b => not_gt (c a b))) [] l) with (sort_by (fun a b => not_gt (c a b)) l).
  assert (Hl : total_order c l) by (destruct Ht as [H1 H2]; split; intros; [apply H1|eapply H2; [..|done|done]]; by right).
  apply sort_insert_sorted; [|by apply IH]. intros y Hy. rewrite sort_by_perm in Hy. rewrite Forall_forall in Hx.
  pose proof (to_opp _ _ Ht x y ltac:(left) ltac:(by right)) as Hop.
  destruct (c x y) eqn:Exy; cbn [not_gt CompOpp] in *; [| |by left].
  - split; [right; split; [done|by apply Hx]|]. intros z Hz Hyz. rewrite sort_by_perm in Hz.
    pose proof (to_trans _ _ Ht x y z ltac:(left) ltac:(by right) ltac:(by right) ltac:(by rewrite Exy)) as Hxz.
    destruct Hyz as [E|[E ?]]; rewrite E in *; destruct (c x z); cbn in *; auto; try (by specialize (Hxz eq_refl)).
  - split; [by left|]. intros z Hz Hyz. rewrite sort_by_perm in Hz. left.
    pose proof (to_trans _ _ Ht x y z ltac:(left) ltac:(by right) ltac:(by right) ltac:(by rewrite Exy)) as Hxz.
    pose proof (to_trans _ _ Ht y z x ltac:(by right) ltac:(by right) ltac:(left)) as Hyzx.
    pose proof (to_opp _ _ Ht x z ltac:(left) ltac:(by right)) as Hzx. rewrite Hzx, Hop in *.
    destruct Hyz as [E|[E ?]]; rewrite E in *; destruct (c x z); cbn in *; try done; [by specialize (Hyzx eq_refl eq_refl)|by specialize (Hxz eq_refl)|
      by specialize (Hyzx eq_refl eq_refl)|by specialize (Hxz eq_refl)].
Qed.

(** A sort the laws hold of: insertion from the right. *)
Section InsertionSort.
Context {E A : Type} (cmp : A -> A -> outcome E comparison).

Fixpoint insert_with (x : A) (l : list A) : outcome E (list A) :=
  match l with
  | [] => Ok [x]
  | y :: r =>
      match cmp x y with
      | Ok c => if not_gt c then Ok (x :: l) else match insert_with x r with Ok r => Ok (y :: r) | e => e end
      | Err e => Err e
      | Panic => Panic
      end
  end.

Fixpoint insertion_sort (l : list A) : outcome E (list A) :=
  match l with
  | [] => Ok []
  | x :: l => match insertion_sort l with Ok l => insert_with x l | e => e end
  end.

Lemma insert_with_perm x l l' : insert_with x l = Ok l' -> l' ≡ₚ x :: l.
Proof.
  revert l'. induction l as [|y r IH]; intros l'; cbn [insert_with]; [by intros [= <-]|].
  destruct (cmp x y) as [c| |]; [|done..]. destruct (not_gt c); [by intros [= <-]|].
  destruct (insert_with x r) as [r'| |]; [|done..]. intros [= <-]. rewrite (IH r' eq_refl). constructor.
Qed.

Lemma insertion_sort_perm l l' : insertion_sort l = Ok l' -> l' ≡ₚ l.
Proof.
  revert l'. induction l as [|x l IH]; intros l'; cbn [insertion_sort]; [by intros [= <-]|].
  destruct (insertion_sort l) as [l1| |]; [|done..]. intros ->%insert_with_perm. by rewrite (IH l1 eq_refl).
Qed.

Lemma insertion_sort_pure c l : (forall a b, a ∈ l -> b ∈ l -> cmp a b = Ok (c a b)) ->
  insertion_sort l = Ok (sort_by (fun a b => not_gt (c a b)) l).
Proof.
  induction l as [|x l IH]; intros Hc; [done|]. cbn [insertion_sort sort_by foldr]. rewrite IH by (intros; apply Hc; by right).
  change (foldr (sort_insert (fun a b => not_gt (c a b))) [] l) with (sort_by (fun a b => not_gt (c a b)) l).
  assert (Hl : forall y, y ∈ sort_by (fun a b => not_gt (c a b)) l -> cmp x y = Ok (c x y)).
  { intros y Hy. rewrite sort_by_perm in Hy. apply Hc; [left|by right]. }
  revert Hl. clear. induction (sort_by _ l) as [|y r IH]; intros Hl; [done|]. cbn. rewrite Hl by left.
  destruct (not_gt (c x y)); [done|]. rewrite IH by (intros; apply Hl; by right). done.
Qed.
End InsertionSort.

Definition list_slice_sort : SliceSort := {|
  slice_sort := fun E A => @insertion_sort E A;
  slice_sort_perm := fun E A => @insertion_sort_perm E A;
  slice_sort_total := fun E A cmp c l H _ => @insertion_sort_pure E A cmp c l H
|}.
