(* ===== verification/Bytes.v ===== *)
(** * Byte buffers

    Slices, in-place writes and the little- and big-endian integer codecs that
    [to_le_bytes], [from_le_bytes], [to_be_bytes] and [copy_from_slice] give the
    Rust sources, with the laws every component of the storage format uses:
    what a read sees after a write, and that decoding inverts encoding. *)

From S2P Require Import Prelude.

(** Length of a slice, a [usize]. *)
Definition len {A} (l : list A) : N := N.of_nat (length l).

(** [l[off .. off + n]], cut at the end of [l]. *)
Definition read_at {A} (l : list A) (off n : N) : list A :=
  take (N.to_nat n) (drop (N.to_nat off) l).

(** [l[off .. off + len bs].copy_from_slice(bs)] on a range that fits. *)
Definition write_at {A} (l : list A) (off : N) (bs : list A) : list A :=
  take (N.to_nat off) l ++ bs ++ drop (N.to_nat off + length bs) l.

(** [&l[a..b]]: panics when [a > b] or [b > l.len()]. *)
Definition slice {E A} (l : list A) (a b : N) : outcome E (list A) :=
  if (a <=? b) && (b <=? len l) then Ok (read_at l a (b - a)) else Panic.

(** [l[off..off + bs.len()].copy_from_slice(bs)]: panics out of range. *)
Definition copy_from_slice {E A} (l : list A) (off : N) (bs : list A)
    : outcome E (list A) :=
  if off + len bs <=? len l then Ok (write_at l off bs) else Panic.

Definition is_byte (b : N) : Prop := b < 256.
Abbreviation bytes_ok l := (Forall is_byte l).

(** [v.to_le_bytes()] for an integer of [n] bytes. *)
Fixpoint le_bytes (n : nat) (v : N) : list N :=
  match n with
  | O => []
  | S k => v mod 256 :: le_bytes k (v / 256)
  end.

(** [uN::from_le_bytes]. *)
Fixpoint le_value (bs : list N) : N :=
  match bs with
  | [] => 0
  | b :: r => b + 256 * le_value r
  end.

(** [v.to_be_bytes()] and [uN::from_be_bytes]. *)
Definition be_bytes (n : nat) (v : N) : list N := reverse (le_bytes n v).
Definition be_value (bs : list N) : N := le_value (reverse bs).

Declare Scope buffer_scope.
Delimit Scope buffer_scope with buf.
Notation "l .[ off ; n ]" := (read_at l off n)
  (at level 1, left associativity, format "l .[ off ;  n ]") : buffer_scope.
Notation "l .[ off <- bs ]" := (write_at l off bs)
  (at level 1, left associativity, format "l .[ off  <-  bs ]") : buffer_scope.
#[global] Open Scope buffer_scope.

(** ** Lemmas: lengths *)

Lemma len_nil {A} : len (@nil A) = 0.
Proof. reflexivity. Qed.

Lemma len_cons {A} (x : A) l : len (x :: l) = 1 + len l.
Proof. unfold len. cbn [length]. lia. Qed.

Lemma len_app {A} (l1 l2 : list A) : len (l1 ++ l2) = len l1 + len l2.
Proof. unfold len. rewrite length_app. lia. Qed.

Lemma len_replicate {A} n (x : A) : len (replicate n x) = N.of_nat n.
Proof. unfold len. rewrite length_replicate. reflexivity. Qed.

Lemma len_length {A} (l : list A) : N.to_nat (len l) = length l.
Proof. unfold len. lia. Qed.

Lemma len_le_bytes n v : len (le_bytes n v) = N.of_nat n.
Proof.
  unfold len. f_equal. revert v. induction n; intros; cbn; [reflexivity|].
  f_equal. auto.
Qed.

Lemma len_be_bytes n v : len (be_bytes n v) = N.of_nat n.
Proof. unfold be_bytes, len. rewrite length_reverse. apply len_le_bytes. Qed.

Lemma len_read_at {A} (l : list A) off n :
  len (read_at l off n) = N.min n (len l - off).
Proof. unfold read_at, len. rewrite length_take, length_drop. lia. Qed.

Lemma len_write_at {A} (l : list A) off bs :
  off + len bs <= len l -> len (write_at l off bs) = len l.
Proof.
  unfold write_at, len. intros.
  rewrite !length_app, length_take, length_drop. lia.
Qed.

#[export] Hint Rewrite @len_nil @len_cons @len_app @len_replicate len_le_bytes
  len_be_bytes @len_read_at : lens.

(** ** Lemmas: reads after writes *)

Lemma lookup_read_at {A} (l : list A) off n i :
  read_at l off n !! i = if decide (i < N.to_nat n)%nat then l !! (N.to_nat off + i)%nat else None.
Proof.
  unfold read_at. case_decide.
  - rewrite lookup_take_lt by lia. apply lookup_drop.
  - apply lookup_take_ge. lia.
Qed.

Lemma lookup_write_at {A} (l : list A) off bs i : off + len bs <= len l ->
  write_at l off bs !! i =
    if decide (N.to_nat off <= i < N.to_nat off + length bs)%nat
    then bs !! (i - N.to_nat off)%nat else l !! i.
Proof.
  unfold write_at, len. intros Hb. case_decide as Hd.
  - rewrite lookup_app_r; rewrite length_take; [|lia].
    rewrite lookup_app_l by lia. f_equal. lia.
  - destruct (decide (i < N.to_nat off)%nat).
    + rewrite lookup_app_l by (rewrite length_take; lia).
      apply lookup_take_lt. lia.
    + rewrite lookup_app_r; rewrite length_take; [|lia].
      rewrite lookup_app_r by lia. rewrite lookup_drop. f_equal. lia.
Qed.

Lemma read_write_same {A} (l : list A) off bs n :
  off + len bs <= len l -> n = len bs -> read_at (write_at l off bs) off n = bs.
Proof.
  intros Hb ->. apply list_eq. intros i. rewrite lookup_read_at. unfold len in *.
  case_decide.
  - rewrite lookup_write_at by (unfold len; lia).
    rewrite decide_True by lia. f_equal. lia.
  - symmetry. apply lookup_ge_None. lia.
Qed.

Lemma read_write_disjoint {A} (l : list A) off bs off' n :
  off + len bs <= len l -> off' + n <= off \/ off + len bs <= off' ->
  read_at (write_at l off bs) off' n = read_at l off' n.
Proof.
  intros Hb Hd. apply list_eq. intros i. rewrite !lookup_read_at.
  case_decide; [|reflexivity]. rewrite lookup_write_at by done.
  rewrite decide_False; [done|]. unfold len in *. lia.
Qed.

(** A read inside the range that was written. *)
Lemma read_write_inside {A} (l : list A) off bs off' n :
  off + len bs <= len l -> off <= off' -> off' + n <= off + len bs ->
  read_at (write_at l off bs) off' n = read_at bs (off' - off) n.
Proof.
  intros Hb Hl Hr. apply list_eq. intros i. rewrite !lookup_read_at.
  case_decide; [|reflexivity]. rewrite lookup_write_at by done.
  unfold len in *. rewrite decide_True by lia. f_equal. lia.
Qed.

Lemma write_at_nil {A} (l : list A) off : write_at l off [] = l.
Proof. unfold write_at. cbn. rewrite Nat.add_0_r. apply take_drop. Qed.

Lemma read_at_0 {A} (l : list A) off : read_at l off 0 = [].
Proof. reflexivity. Qed.

Lemma read_at_within {A} (l : list A) a b off n :
  off + n <= b -> read_at (read_at l a b) off n = read_at l (a + off) n.
Proof.
  intros. apply list_eq. intros i. rewrite !lookup_read_at.
  case_decide; [|reflexivity]. rewrite decide_True by lia. f_equal. lia.
Qed.

Lemma read_at_app_l {A} (l1 l2 : list A) off n :
  off + n <= len l1 -> read_at (l1 ++ l2) off n = read_at l1 off n.
Proof.
  unfold len. intros. apply list_eq. intros i. rewrite !lookup_read_at.
  case_decide; [|reflexivity]. apply lookup_app_l. lia.
Qed.

Lemma read_at_app_r {A} (l1 l2 : list A) off n :
  len l1 <= off -> read_at (l1 ++ l2) off n = read_at l2 (off - len l1) n.
Proof.
  unfold len. intros. apply list_eq. intros i. rewrite !lookup_read_at.
  case_decide; [|reflexivity]. rewrite lookup_app_r by lia. f_equal. lia.
Qed.

Lemma read_at_cons {A} (l : list A) off n x :
  l !! N.to_nat off = Some x -> 0 < n -> read_at l off n = x :: read_at l (off + 1) (n - 1).
Proof.
  intros Hx Hn. unfold read_at. rewrite (drop_S l x) by done.
  replace (N.to_nat n) with (S (N.to_nat (n - 1))) by lia. cbn [take].
  do 2 f_equal. f_equal. lia.
Qed.

Lemma read_at_all {A} (l : list A) n : len l <= n -> read_at l 0 n = l.
Proof. unfold len, read_at. intros. apply take_ge. cbn. lia. Qed.

Lemma read_at_prefix {A} (l1 l2 : list A) n :
  n = len l1 -> read_at (l1 ++ l2) 0 n = l1.
Proof. intros ->. rewrite read_at_app_l by lia. apply read_at_all. lia. Qed.

Lemma read_at_bytes_ok l off n : bytes_ok l -> bytes_ok (read_at l off n).
Proof. intros. apply Forall_take, Forall_drop. done. Qed.

Lemma write_at_bytes_ok l off bs :
  bytes_ok l -> bytes_ok bs -> bytes_ok (write_at l off bs).
Proof.
  intros. unfold write_at. rewrite !Forall_app.
  auto using Forall_take, Forall_drop.
Qed.

(** ** Lemmas: slices that are in range *)

Lemma slice_ok {E A} (l : list A) a b :
  a <= b -> b <= len l -> slice l a b = (Ok (read_at l a (b - a)) : outcome E _).
Proof. intros. unfold slice. case_cmp; try lia. reflexivity. Qed.

Lemma copy_from_slice_ok {E A} (l : list A) off bs :
  off + len bs <= len l -> copy_from_slice l off bs = (Ok (write_at l off bs) : outcome E _).
Proof. intros. unfold copy_from_slice. case_cmp; [reflexivity|lia]. Qed.

(** ** Lemmas: the integer codecs *)

Lemma le_bytes_ok n v : bytes_ok (le_bytes n v).
Proof.
  revert v. induction n; intros; cbn [le_bytes]; constructor; auto.
  apply N.mod_lt. lia.
Qed.

Lemma pow256_succ n : 256 ^ N.of_nat (S n) = 256 * 256 ^ N.of_nat n.
Proof. rewrite Nat2N.inj_succ, N.pow_succ_r'. reflexivity. Qed.

Lemma le_value_le_bytes n v : le_value (le_bytes n v) = v mod 256 ^ N.of_nat n.
Proof.
  revert v. induction n as [|n IH]; intros v; cbn [le_bytes le_value].
  - rewrite N.mod_1_r. reflexivity.
  - rewrite IH, pow256_succ.
    rewrite N.Div0.mod_mul_r. reflexivity.
Qed.

Lemma le_value_bound bs : bytes_ok bs -> le_value bs < 256 ^ len bs.
Proof.
  induction 1 as [|b bs Hb _ IH]; cbn [le_value]; [reflexivity|].
  unfold len in *. cbn [length]. rewrite pow256_succ. unfold is_byte in Hb. lia.
Qed.

Lemma le_bytes_le_value bs n :
  bytes_ok bs -> n = length bs -> le_bytes n (le_value bs) = bs.
Proof.
  intros Hbs ->. induction Hbs as [|b bs Hb _ IH]; cbn [length le_bytes le_value]; [done|].
  unfold is_byte in Hb. f_equal.
  - rewrite N.mul_comm, N.Div0.mod_add. apply N.mod_small. done.
  - rewrite N.mul_comm, N.div_add, N.div_small by lia. done.
Qed.

Lemma le_value_le_bytes_small n v :
  v < 256 ^ N.of_nat n -> le_value (le_bytes n v) = v.
Proof. intros. rewrite le_value_le_bytes. apply N.mod_small. done. Qed.

Lemma be_value_be_bytes_small n v :
  v < 256 ^ N.of_nat n -> be_value (be_bytes n v) = v.
Proof.
  unfold be_value, be_bytes. rewrite reverse_involutive.
  apply le_value_le_bytes_small.
Qed.

#[export] Hint Resolve le_bytes_ok read_at_bytes_ok write_at_bytes_ok : bytes.

(** ** Lemmas: reading at a cursor *)

(** The bytes from the cursor on are [rest]. *)
Definition at_pos (d : list N) (pos : N) (rest : list N) : Prop :=
  pos <= len d /\ drop (N.to_nat pos) d = rest.

Lemma at_start d : at_pos d 0 d.
Proof. split; [lia|done]. Qed.

Lemma at_chunk d pos c rest : at_pos d pos (c ++ rest) ->
  d.[pos; len c] = c /\ pos + len c <= len d /\ at_pos d (pos + len c) rest.
Proof.
  intros [Hl Hd].
  assert (Hlen : len d - pos = len c + len rest).
  { rewrite <- len_app, <- Hd. unfold len in *. rewrite length_drop. lia. }
  split_and!; [|lia|split; [lia|]].
  - unfold read_at. rewrite Hd, len_length, take_app_length. done.
  - replace (N.to_nat (pos + len c)) with (N.to_nat pos + length c)%nat by (unfold len; lia).
    rewrite <- drop_drop, Hd, drop_app_length. done.
Qed.
