(* ===== verification/ByteOrder.v ===== *)
(** * The order on byte strings

    The lexicographic order of [Ord for [u8]], which the shard router and the
    B+ tree compare keys with, as boolean functions and as a strict total
    order, and the standard library's [partition_point]. *)

From S2P Require Import Prelude Bytes.

Fixpoint bytes_lt (a b : list N) : bool :=
  match a, b with
  | _, [] => false
  | [], _ :: _ => true
  | x :: a, y :: b => (x <? y) || ((x =? y) && bytes_lt a b)
  end.

Definition bytes_le (a b : list N) : bool := negb (bytes_lt b a).

(** [slice::partition_point]: the number of leading elements that satisfy the
    predicate.  The library asks for a slice the predicate partitions, which a
    sorted slice is; then this is where the binary search ends. *)
Fixpoint partition_point {A} (pred : A -> bool) (l : list A) : nat :=
  match l with
  | [] => O
  | x :: l => if pred x then S (partition_point pred l) else O
  end.

(** ** The order *)

Lemma bytes_lt_irrefl a : bytes_lt a a = false.
Proof. induction a as [|x a IH]; cbn; [done|]. by rewrite N.ltb_irrefl, N.eqb_refl. Qed.

Lemma bytes_lt_trans a b c : bytes_lt a b = true -> bytes_lt b c = true -> bytes_lt a c = true.
Proof.
  revert b c. induction a as [|x a IH]; intros [|y b] [|z c]; cbn; try done.
  destruct (N.ltb_spec x y), (N.ltb_spec y z), (N.eqb_spec x y), (N.eqb_spec y z);
    cbn; try done; subst; intros; case_cmp; cbn; try done; try lia; eauto.
Qed.

Lemma bytes_lt_total a b : bytes_lt a b = true \/ a = b \/ bytes_lt b a = true.
Proof.
  revert b. induction a as [|x a IH]; intros [|y b]; cbn; auto.
  destruct (N.lt_trichotomy x y) as [Hlt|[->|Hlt]].
  - left. by rewrite (proj2 (N.ltb_lt x y)).
  - rewrite N.ltb_irrefl, N.eqb_refl. cbn. destruct (IH b) as [-> | [-> | ->]]; auto.
  - right. right. by rewrite (proj2 (N.ltb_lt y x)).
Qed.

Lemma bytes_lt_nil_r a : bytes_lt a [] = false.
Proof. by destruct a. Qed.

Lemma bytes_le_lt a b : bytes_le a b = true <-> bytes_lt b a = false.
Proof. unfold bytes_le. by rewrite negb_true_iff. Qed.

Lemma bytes_le_alt a b : bytes_le a b = true <-> bytes_lt a b = true \/ a = b.
Proof.
  rewrite bytes_le_lt. split.
  - intros H. destruct (bytes_lt_total a b) as [?|[?|?]]; auto; congruence.
  - intros [H| ->]; [|apply bytes_lt_irrefl]. apply not_true_iff_false. intros H'.
    pose proof (bytes_lt_trans _ _ _ H H'). by rewrite bytes_lt_irrefl in *.
Qed.

Lemma bytes_le_refl a : bytes_le a a = true.
Proof. apply bytes_le_alt. auto. Qed.

Lemma bytes_lt_le a b : bytes_lt a b = true -> bytes_le a b = true.
Proof. intros. apply bytes_le_alt. auto. Qed.

Lemma bytes_le_trans a b c : bytes_le a b = true -> bytes_le b c = true -> bytes_le a c = true.
Proof. rewrite !bytes_le_alt. intros [?| ->] [?| ->]; eauto using bytes_lt_trans. Qed.

Lemma bytes_lt_le_trans a b c : bytes_lt a b = true -> bytes_le b c = true -> bytes_lt a c = true.
Proof. rewrite bytes_le_alt. intros ? [?| ->]; eauto using bytes_lt_trans. Qed.

Lemma bytes_le_lt_trans a b c : bytes_le a b = true -> bytes_lt b c = true -> bytes_lt a c = true.
Proof. rewrite bytes_le_alt. intros [?| ->] ?; eauto using bytes_lt_trans. Qed.

Lemma bytes_le_antisym a b : bytes_le a b = true -> bytes_le b a = true -> a = b.
Proof. rewrite bytes_le_alt, bytes_le_lt. intros [?|?]; congruence. Qed.

Lemma bytes_lt_false_le a b : bytes_lt a b = false <-> bytes_le b a = true.
Proof. by rewrite bytes_le_lt. Qed.

#[export] Hint Resolve bytes_le_refl bytes_lt_le bytes_le_trans bytes_lt_trans
  bytes_lt_le_trans bytes_le_lt_trans : byte_order.

(** ** Big-endian integers *)

Lemma bytes_lt_app a b x y : length a = length b ->
  bytes_lt (a ++ x) (b ++ y) = bytes_lt a b || (bool_decide (a = b) && bytes_lt x y).
Proof.
  revert b. induction a as [|c a IH]; intros [|d b]; cbn [length app]; try discriminate; intros Hl.
  { by rewrite bool_decide_true. }
  cbn [bytes_lt]. rewrite IH by lia. destruct (N.ltb_spec c d); [done|].
  destruct (N.eqb_spec c d) as [->|Hne]; cbn [orb andb].
  - by rewrite (bool_decide_ext (d :: a = d :: b) (a = b)) by (split; congruence).
  - by rewrite bool_decide_false by congruence.
Qed.

(** Big-endian encodings of one length compare as the numbers do. *)
Lemma be_bytes_lt n a b : a < 256 ^ N.of_nat n -> b < 256 ^ N.of_nat n ->
  bytes_lt (be_bytes n a) (be_bytes n b) = (a <? b).
Proof.
  revert a b. induction n as [|n IH]; intros a b Ha Hb.
  { cbn in *. case_cmp; [lia|done]. }
  assert (Hd : forall v, v < 256 ^ N.of_nat (S n) -> v / 256 < 256 ^ N.of_nat n).
  { intros v Hv. apply N.Div0.div_lt_upper_bound. by rewrite <- N.pow_succ_r', <- Nat2N.inj_succ. }
  assert (Hs : forall v, be_bytes (S n) v = be_bytes n (v / 256) ++ [v mod 256]).
  { intros v. unfold be_bytes. cbn [le_bytes]. by rewrite reverse_cons. }
  rewrite !Hs, bytes_lt_app, IH by (auto; apply Nat2N.inj; by rewrite <- !len_length, !N2Nat.id, !len_be_bytes).
  rewrite (bool_decide_ext _ (a / 256 = b / 256)).
  2:{ split; [|congruence]. intros He.
      rewrite <- (be_value_be_bytes_small n (a / 256)), <- (be_value_be_bytes_small n (b / 256)) by auto. congruence. }
  cbn [bytes_lt].
  pose proof (N.div_mod' a 256). pose proof (N.div_mod' b 256).
  pose proof (N.mod_lt a 256 ltac:(lia)). pose proof (N.mod_lt b 256 ltac:(lia)).
  generalize dependent (a / 256). generalize dependent (b / 256).
  generalize dependent (a mod 256). generalize dependent (b mod 256).
  intros. case_cmp; cbn; try lia; try done; case_bool_decide; cbn; try lia; try done.
Qed.

(** ** Partition points *)

Lemma partition_point_app {A} (pred : A -> bool) l1 l2 :
  Forall (fun x => pred x = true) l1 -> Forall (fun x => pred x = false) l2 ->
  partition_point pred (l1 ++ l2) = length l1.
Proof.
  intros H1 H2. induction H1 as [|x l1 Hx _ IH]; cbn.
  - destruct H2 as [|y l2 Hy _]; cbn; [done|]. by rewrite Hy.
  - by rewrite Hx, IH.
Qed.

(** Splits a list at its partition point. *)
Lemma partition_point_split {A} (pred : A -> bool) l :
  exists l1 l2, l = l1 ++ l2 /\ partition_point pred l = length l1 /\
    Forall (fun x => pred x = true) l1 /\
    match l2 with [] => True | x :: _ => pred x = false end.
Proof.
  induction l as [|x l (l1 & l2 & -> & Hp & H1 & H2)]; cbn.
  - by exists [], [].
  - destruct (pred x) eqn:Hx.
    + exists (x :: l1), l2. cbn. rewrite Hp. auto.
    + by exists [], (x :: l1 ++ l2).
Qed.
