(* ===== verification/BTreeMap.v ===== *)
(** * Ordered maps

    [std::collections::BTreeMap] as an association list in ascending key order,
    with the operations the sources use: [insert], [remove], [get] and iteration
    in key order, over any key type with a strict boolean order. *)

From S2P Require Import Prelude Bytes ByteOrder.

(** What a map asks of its key type ([Ord]). *)
Class KeyOrder {K : Type} (ltb : K -> K -> bool) : Prop := {
  key_irrefl : forall a, ltb a a = false;
  key_trans : forall a b c, ltb a b = true -> ltb b c = true -> ltb a c = true;
  key_total : forall a b, ltb a b = false -> ltb b a = false -> a = b
}.

#[global] Instance N_KeyOrder : KeyOrder N.ltb.
Proof.
  split; [apply N.ltb_irrefl|..]; intros *; rewrite ?N.ltb_lt, ?N.ltb_ge; lia.
Qed.

#[global] Instance bytes_KeyOrder : KeyOrder bytes_lt.
Proof.
  split; [apply bytes_lt_irrefl|apply bytes_lt_trans|].
  intros a b H1 H2. destruct (bytes_lt_total a b) as [?|[?|?]]; congruence.
Qed.

Section BTreeMap.
Context {K V : Type} (ltb : K -> K -> bool).
Implicit Types l : list (K * V).

Fixpoint bt_insert (k : K) (v : V) l : list (K * V) :=
  match l with
  | [] => [(k, v)]
  | (k', v') :: r =>
      if ltb k k' then (k, v) :: l
      else if ltb k' k then (k', v') :: bt_insert k v r
      else (k, v) :: r
  end.

Fixpoint bt_remove (k : K) l : list (K * V) :=
  match l with
  | [] => []
  | (k', v') :: r =>
      if ltb k k' then l
      else if ltb k' k then (k', v') :: bt_remove k r
      else r
  end.

Fixpoint bt_get (k : K) l : option V :=
  match l with
  | [] => None
  | (k', v') :: r =>
      if ltb k k' then None
      else if ltb k' k then bt_get k r
      else Some v'
  end.

(** Keys are strictly ascending. *)
Definition bt_lt (a b : K * V) : Prop := ltb a.1 b.1 = true.
Definition bt_sorted l : Prop := StronglySorted bt_lt l.

Context `{Ho : !KeyOrder ltb}.

(** ** Lemmas *)

Lemma bt_sorted_cons a l : bt_sorted (a :: l) <-> bt_sorted l /\ Forall (bt_lt a) l.
Proof. split; [by inversion 1|intros []; by constructor]. Qed.

Lemma bt_sorted_app l1 l2 :
  bt_sorted (l1 ++ l2) <-> bt_sorted l1 /\ bt_sorted l2 /\ forall x y, x ∈ l1 -> y ∈ l2 -> bt_lt x y.
Proof.
  induction l1 as [|a l1 IH]; cbn [app].
  - split; [intros ?; split_and!; [constructor|done|by intros ? ? ?%elem_of_nil]|tauto].
  - rewrite !bt_sorted_cons, IH, Forall_app, !Forall_forall. split.
    + intros ((Hs1 & Hs2 & Hx) & Ha1 & Ha2). split_and!; try done. intros x y [->|Hx1]%elem_of_cons Hy; auto.
    + intros ((Hs1 & Ha1) & Hs2 & Hx). split_and!; try done.
      * intros x y Hx1 Hy. apply Hx; [by right|done].
      * intros y Hy. apply Hx; [left|done].
Qed.

Lemma elem_of_bt_insert k v l x : x ∈ bt_insert k v l -> x = (k, v) \/ x ∈ l.
Proof.
  induction l as [|[k' v'] l IH]; cbn; [by rewrite list_elem_of_singleton; auto|].
  repeat case_match; rewrite !elem_of_cons; naive_solver.
Qed.

Lemma elem_of_bt_remove k l x : x ∈ bt_remove k l -> x ∈ l.
Proof.
  induction l as [|[k' v'] l IH]; cbn; [done|].
  repeat case_match; rewrite ?elem_of_cons; naive_solver.
Qed.

Lemma bt_insert_sorted k v l : bt_sorted l -> bt_sorted (bt_insert k v l).
Proof.
  induction l as [|[k' v'] l IH]; intros Hs; cbn; [by repeat constructor|].
  pose proof Hs as [Hs' Hf]%bt_sorted_cons.
  destruct (ltb k k') eqn:E1; [|destruct (ltb k' k) eqn:E2].
  - apply bt_sorted_cons. split; [done|]. constructor; [done|].
    eapply Forall_impl; [exact Hf|]. intros x Hx. unfold bt_lt in *. cbn in *. eapply key_trans; eauto.
  - apply bt_sorted_cons. split; [auto|]. apply Forall_forall. intros x [->|Hx]%elem_of_bt_insert; [done|].
    rewrite Forall_forall in Hf. auto.
  - assert (k = k') as -> by (by apply key_total). by apply bt_sorted_cons.
Qed.

Lemma bt_remove_sorted k l : bt_sorted l -> bt_sorted (bt_remove k l).
Proof.
  induction l as [|[k' v'] l IH]; intros Hs; cbn; [done|].
  pose proof Hs as [Hs' Hf]%bt_sorted_cons. repeat case_match; try done.
  apply bt_sorted_cons. split; [auto|]. apply Forall_forall. intros x Hx%elem_of_bt_remove.
  rewrite Forall_forall in Hf. auto.
Qed.

Lemma bt_get_elem_of k v l : bt_sorted l -> bt_get k l = Some v <-> (k, v) ∈ l.
Proof.
  induction l as [|[k' v'] l IH]; intros Hs; cbn; [by rewrite elem_of_nil|].
  apply bt_sorted_cons in Hs as [Hs Hf]. rewrite elem_of_cons.
  rewrite Forall_forall in Hf. unfold bt_lt in Hf. cbn in Hf.
  destruct (ltb k k') eqn:E1; [|destruct (ltb k' k) eqn:E2].
  - split; [done|]. intros [[= -> ->]|Hin]; [by rewrite key_irrefl in E1|].
    apply Hf in Hin. cbn in Hin. pose proof (key_trans _ _ _ E1 Hin) as H. by rewrite key_irrefl in H.
  - rewrite IH by done. split; [auto|]. intros [[= -> ->]|?]; [by rewrite key_irrefl in E2|done].
  - assert (k = k') as -> by (by apply key_total). split.
    + intros [= ->]. auto.
    + intros [[= ->]|Hin]; [done|]. apply Hf in Hin. cbn in Hin. by rewrite key_irrefl in Hin.
Qed.

Lemma bt_get_insert k v l j : bt_sorted l ->
  bt_get j (bt_insert k v l) = if ltb j k then bt_get j l else if ltb k j then bt_get j l else Some v.
Proof.
  induction l as [|[k' v'] l IH]; intros Hs; cbn; [done|].
  apply bt_sorted_cons in Hs as [Hs Hf].
  destruct (ltb k k') eqn:E1; [|destruct (ltb k' k) eqn:E2].
  - cbn. destruct (ltb j k) eqn:E3; [|done]. by rewrite (key_trans _ _ _ E3 E1).
  - cbn. destruct (ltb j k') eqn:E3.
    { by rewrite (key_trans _ _ _ E3 E2). }
    destruct (ltb k' j) eqn:E4; [by rewrite IH|].
    assert (j = k') as -> by (by apply key_total). by rewrite E2.
  - assert (k = k') as -> by (by apply key_total). cbn. by destruct (ltb j k'), (ltb k' j).
Qed.

(** The entries a removal keeps. *)
Lemma bt_remove_filter k l : bt_sorted l ->
  bt_remove k l = List.filter (fun a => ltb a.1 k || ltb k a.1) l.
Proof.
  induction l as [|[k' v'] l IH]; intros Hs; cbn; [done|].
  apply bt_sorted_cons in Hs as [Hs Hf]. rewrite Forall_forall in Hf. unfold bt_lt in Hf. cbn in Hf.
  assert (Hid : forall m, (forall a, a ∈ m -> ltb k a.1 = true) ->
    List.filter (fun a : K * V => ltb a.1 k || ltb k a.1) m = m).
  { clear -Ho. induction m as [|a m IHm]; cbn; intros Hm; [done|].
    rewrite (Hm a) by left. rewrite orb_true_r. f_equal. apply IHm. intros b Hb. apply Hm. by right. }
  destruct (ltb k k') eqn:E1; [|destruct (ltb k' k) eqn:E2]; cbn.
  - rewrite orb_true_r. f_equal. symmetry. apply Hid. intros a Ha.
    eapply key_trans; [exact E1|]. by apply Hf.
  - by rewrite IH.
  - assert (k = k') as -> by (by apply key_total). symmetry. apply Hid. intros a Ha. by apply Hf.
Qed.

(** A key above all others goes to the end. *)
Lemma bt_insert_last k v l : Forall (fun a => ltb a.1 k = true) l -> bt_insert k v l = l ++ [(k, v)].
Proof.
  induction 1 as [|[k' v'] l Hk _ IH]; cbn; [done|]. cbn in Hk. rewrite Hk.
  destruct (ltb k k') eqn:E; [|by rewrite IH].
  pose proof (key_trans _ _ _ E Hk) as H. by rewrite key_irrefl in H.
Qed.

(** An operation on a key between two parts of a map is one on the part between. *)
Lemma bt_get_between k l m r : Forall (fun a => ltb a.1 k = true) l -> Forall (fun a => ltb k a.1 = true) r ->
  bt_get k (l ++ m ++ r) = bt_get k m.
Proof.
  intros Hl Hr. induction Hl as [|[k' v'] l Hk _ IH]; cbn [app bt_get].
  - induction m as [|[k' v'] m IH]; cbn [app bt_get]; [|by rewrite IH].
    destruct Hr as [|[k' v'] r Hk _]; cbn; [done|]. cbn in Hk. by rewrite Hk.
  - cbn in Hk. rewrite Hk. destruct (ltb k k') eqn:E; [|done].
    pose proof (key_trans _ _ _ E Hk) as H. by rewrite key_irrefl in H.
Qed.

Lemma bt_insert_between k v l m r : Forall (fun a => ltb a.1 k = true) l -> Forall (fun a => ltb k a.1 = true) r ->
  bt_insert k v (l ++ m ++ r) = l ++ bt_insert k v m ++ r.
Proof.
  intros Hl Hr. induction Hl as [|[k' v'] l Hk _ IH]; cbn [app bt_insert].
  - induction m as [|[k' v'] m IH]; cbn [app bt_insert].
    + destruct Hr as [|[k' v'] r Hk _]; cbn; [done|]. cbn in Hk. by rewrite Hk.
    + rewrite IH. by destruct (ltb k k'), (ltb k' k).
  - cbn in Hk. rewrite Hk, IH. destruct (ltb k k') eqn:E; [|done].
    pose proof (key_trans _ _ _ E Hk) as H. by rewrite key_irrefl in H.
Qed.

(** A map is determined by what its keys are bound to. *)
Lemma bt_ext l1 l2 : bt_sorted l1 -> bt_sorted l2 -> (forall k, bt_get k l1 = bt_get k l2) -> l1 = l2.
Proof.
  revert l2. induction l1 as [|[k1 v1] l1 IH]; intros [|[k2 v2] l2] H1 H2 Hg.
  - done.
  - specialize (Hg k2). cbn in Hg. by rewrite key_irrefl in Hg.
  - specialize (Hg k1). cbn in Hg. by rewrite key_irrefl in Hg.
  - pose proof H1 as [Hs1 Hf1]%bt_sorted_cons. pose proof H2 as [Hs2 Hf2]%bt_sorted_cons.
    rewrite Forall_forall in Hf1, Hf2. unfold bt_lt in *. cbn in Hf1, Hf2.
    assert (Hin1 : (k1, v1) ∈ (k2, v2) :: l2).
    { apply bt_get_elem_of; [done|]. rewrite <- Hg. apply bt_get_elem_of; [done|left]. }
    assert (Hin2 : (k2, v2) ∈ (k1, v1) :: l1).
    { apply bt_get_elem_of; [done|]. rewrite Hg. apply bt_get_elem_of; [done|left]. }
    assert (Heq : (k1, v1) = (k2, v2)).
    { apply elem_of_cons in Hin1 as [?|Hin1]; [done|]. apply elem_of_cons in Hin2 as [?|Hin2]; [done|].
      apply Hf2 in Hin1. apply Hf1 in Hin2. cbn in *. pose proof (key_trans _ _ _ Hin1 Hin2) as H.
      by rewrite key_irrefl in H. }
    injection Heq as -> ->. f_equal. apply IH; [done|done|]. intros k.
    specialize (Hg k). cbn in Hg. destruct (ltb k k2) eqn:E1.
    + assert (Hn : forall l, Forall (bt_lt (k2, v2)) l -> bt_get k l = None).
      { intros [|[k' v'] l] Hl; [done|]. apply Forall_inv in Hl. unfold bt_lt in Hl. cbn in *.
        by rewrite (key_trans _ _ _ E1 Hl). }
      rewrite !Hn; [done|by apply Forall_forall..].
    + destruct (ltb k2 k) eqn:E2; [done|]. assert (k = k2) as -> by (by apply key_total).
      assert (Hn : forall l, Forall (bt_lt (k2, v2)) l -> bt_get k2 l = None).
      { intros [|[k' v'] l] Hl; [done|]. apply Forall_inv in Hl. unfold bt_lt in Hl. cbn in *. by rewrite Hl. }
      rewrite !Hn; [done|by apply Forall_forall..].
Qed.
End BTreeMap.
