(* ===== verification/Strings.v ===== *)
(** * Rust strings

    A [String] or [&str] is the list of its UTF-8 bytes.  This file has what the
    sources use of [core::str]: the validity check of [from_utf8], [find] of an
    ASCII character, [strip_prefix] and [lines]. *)

From Stdlib Require Import Ascii String.
From S2P Require Import Prelude Bytes.

(** The bytes of a literal of the source. *)
Definition text (s : string) : list N := N_of_ascii <$> list_ascii_of_string s.

(** A literal with double quotes, written with single ones. *)
Definition dq (s : string) : list N := (fun b => if b =? 39 then 34 else b) <$> text s.

(** ** UTF-8 *)

Definition in_rng (lo hi b : N) : bool := (lo <=? b) && (b <=? hi).
Definition cont (b : N) : bool := in_rng 128 191 b.

(** Well-formed byte sequences, by the table of the Unicode standard. *)
Definition seq2 (b0 b1 : N) : bool := in_rng 194 223 b0 && cont b1.
Definition seq3 (b0 b1 b2 : N) : bool :=
  cont b2 &&
  (((b0 =? 224) && in_rng 160 191 b1) || (in_rng 225 236 b0 && cont b1) ||
   ((b0 =? 237) && in_rng 128 159 b1) || (in_rng 238 239 b0 && cont b1)).
Definition seq4 (b0 b1 b2 b3 : N) : bool :=
  cont b2 && cont b3 &&
  (((b0 =? 240) && in_rng 144 191 b1) || (in_rng 241 243 b0 && cont b1) ||
   ((b0 =? 244) && in_rng 128 143 b1)).

(** [std::str::from_utf8(l).is_ok()]. *)
Fixpoint utf8_valid (l : list N) : bool :=
  match l with
  | [] => true
  | b0 :: r0 =>
      if b0 <? 128 then utf8_valid r0
      else
        match r0 with
        | [] => false
        | b1 :: r1 =>
            if seq2 b0 b1 then utf8_valid r1
            else
              match r1 with
              | [] => false
              | b2 :: r2 =>
                  if seq3 b0 b1 b2 then utf8_valid r2
                  else
                    match r2 with
                    | [] => false
                    | b3 :: r3 => if seq4 b0 b1 b2 b3 then utf8_valid r3 else false
                    end
              end
        end
  end.

(** [String::from_utf8_lossy]: every maximal part of the bytes that starts a
    character but is none is replaced by U+FFFD. *)
Definition replacement : list N := [239; 191; 189].
Definition second3 (b0 b1 : N) : bool :=
  ((b0 =? 224) && in_rng 160 191 b1) || (in_rng 225 236 b0 && cont b1) ||
  ((b0 =? 237) && in_rng 128 159 b1) || (in_rng 238 239 b0 && cont b1).
Definition second4 (b0 b1 : N) : bool :=
  ((b0 =? 240) && in_rng 144 191 b1) || (in_rng 241 243 b0 && cont b1) ||
  ((b0 =? 244) && in_rng 128 143 b1).

Fixpoint from_utf8_lossy (l : list N) : list N :=
  match l with
  | [] => []
  | b0 :: r0 =>
      if b0 <? 128 then b0 :: from_utf8_lossy r0
      else
        match r0 with
        | [] => replacement
        | b1 :: r1 =>
            if seq2 b0 b1 then b0 :: b1 :: from_utf8_lossy r1
            else if second3 b0 b1 then
              match r1 with
              | [] => replacement
              | b2 :: r2 =>
                  if cont b2 then b0 :: b1 :: b2 :: from_utf8_lossy r2
                  else replacement ++ from_utf8_lossy r1
              end
            else if second4 b0 b1 then
              match r1 with
              | [] => replacement
              | b2 :: r2 =>
                  if cont b2 then
                    match r2 with
                    | [] => replacement
                    | b3 :: r3 =>
                        if cont b3 then b0 :: b1 :: b2 :: b3 :: from_utf8_lossy r3
                        else replacement ++ from_utf8_lossy r2
                    end
                  else replacement ++ from_utf8_lossy r1
              end
            else replacement ++ from_utf8_lossy r0
        end
  end.

(** [s.chars()], each character as its UTF-8 bytes; the first byte tells how
    many there are. *)
Fixpoint chars (l : list N) : list (list N) :=
  match l with
  | [] => []
  | b0 :: r0 =>
      if b0 <? 128 then [b0] :: chars r0
      else
        match r0 with
        | [] => [[b0]]
        | b1 :: r1 =>
            if b0 <? 224 then [b0; b1] :: chars r1
            else
              match r1 with
              | [] => [[b0; b1]]
              | b2 :: r2 =>
                  if b0 <? 240 then [b0; b1; b2] :: chars r2
                  else
                    match r2 with
                    | [] => [[b0; b1; b2]]
                    | b3 :: r3 => [b0; b1; b2; b3] :: chars r3
                    end
              end
        end
  end.

(** [&s[a..b]] on text: the bounds have to be in range and on characters. *)
Definition is_char_boundary (s : list N) (i : N) : bool :=
  (i =? len s) || match s !! N.to_nat i with Some b => negb (cont b) | None => false end.
Definition str_slice {E} (s : list N) (a b : N) : outcome E (list N) :=
  if (a <=? b) && is_char_boundary s a && is_char_boundary s b then Ok (read_at s a (b - a)) else Panic.

(** [s.push(b as char)]: the character with the code of one byte is one byte
    long below 128 and two bytes long from there on. *)
Definition latin1 (b : N) : list N := if b <? 128 then [b] else [192 + b / 64; 128 + b mod 64].

(** ** Characters and case *)

Definition is_upper (b : N) : bool := in_rng 65 90 b.
Definition is_lower (b : N) : bool := in_rng 97 122 b.
Definition is_digit (b : N) : bool := in_rng 48 57 b.
Definition is_letter (b : N) : bool := is_upper b || is_lower b.
Definition is_ascii (l : list N) : bool := forallb (fun b => b <? 128) l.

(** [(b as char).is_ascii_whitespace()]. *)
Definition is_space (b : N) : bool := (b =? 32) || (b =? 9) || (b =? 10) || (b =? 12) || (b =? 13).

(** [(b as char).is_alphanumeric()]: from 128 on the letters and numbers of the
    Latin-1 block. *)
Definition is_alphanumeric (b : N) : bool :=
  is_letter b || is_digit b || (b =? 170) || (b =? 181) || (b =? 186) ||
  (b =? 178) || (b =? 179) || (b =? 185) || in_rng 188 190 b ||
  in_rng 192 214 b || in_rng 216 246 b || in_rng 248 255 b.

Definition upper_byte (b : N) : N := if is_lower b then b - 32 else b.
Definition lower_byte (b : N) : N := if is_upper b then b + 32 else b.

(** [a.eq_ignore_ascii_case(b)]. *)
Definition eq_ignore_ascii_case (a b : list N) : bool :=
  bool_decide (lower_byte <$> a = lower_byte <$> b).

(** The Unicode tables of the standard library, used on text that is not ASCII:
    the case of a text, whether a character is alphanumeric, and the first
    character of its lower case. *)
Class UnicodeCase := {
  unicode_upper : list N -> list N;
  unicode_lower : list N -> list N;
  unicode_alphanumeric : list N -> bool;
  unicode_lower_char : list N -> list N;
}.

(** Tables that know of no letters but those of ASCII. *)
Definition ascii_unicode : UnicodeCase := {|
  unicode_upper := id; unicode_lower := id; unicode_alphanumeric := fun _ => false; unicode_lower_char := id;
|}.

(** [c.is_alphanumeric()] and [c.to_lowercase().next()] on one character. *)
Definition char_alphanumeric `{UnicodeCase} (c : list N) : bool :=
  match c with
  | [b] => is_letter b || is_digit b
  | _ => unicode_alphanumeric c
  end.
Definition char_lower `{UnicodeCase} (c : list N) : list N :=
  match c with
  | [b] => [lower_byte b]
  | _ => unicode_lower_char c
  end.

(** [s.to_uppercase()] and [s.to_lowercase()]. *)
Definition to_uppercase `{UnicodeCase} (s : list N) : list N :=
  if is_ascii s then upper_byte <$> s else unicode_upper s.
Definition to_lowercase `{UnicodeCase} (s : list N) : list N :=
  if is_ascii s then lower_byte <$> s else unicode_lower s.

(** ** Decimal numbers *)

(** The value of a string of ASCII digits. *)
Definition digits_value (ds : list N) : N := foldl (fun v d => 10 * v + (d - 48)) 0 ds.

(** [n.to_string()], least significant digit first. *)
Fixpoint digits_rev (fuel : nat) (n : N) : list N :=
  match fuel with
  | O => []
  | S fuel => (48 + n mod 10) :: if n / 10 =? 0 then [] else digits_rev fuel (n / 10)
  end.
Definition N_to_string (n : N) : list N := reverse (digits_rev (S (N.to_nat (N.log2 n))) n).
Definition Z_to_string (z : Z) : list N :=
  if (z <? 0)%Z then 45 :: N_to_string (Z.to_N (- z)) else N_to_string (Z.to_N z).

(** ** Searching and splitting *)

(** [s.find(c)] for an ASCII character, as the text before and after it. *)
Fixpoint split_first (c : N) (l : list N) : option (list N * list N) :=
  match l with
  | [] => None
  | x :: l => if x =? c then Some ([], l) else '(a, b) ← split_first c l; Some (x :: a, b)
  end.

(** [while p(byte) { pos += 1 }]: the bytes skipped and what follows them. *)
Fixpoint span (p : N -> bool) (l : list N) : list N * list N :=
  match l with
  | [] => ([], [])
  | b :: r => if p b then let '(a, r') := span p r in (b :: a, r') else ([], l)
  end.

(** The characters with the Unicode property [White_Space], which [str::trim]
    removes, as their UTF-8 bytes. *)
Definition is_ws1 (a : N) : bool := in_rng 9 13 a || (a =? 32).
Definition is_ws2 (a b : N) : bool := (a =? 194) && ((b =? 133) || (b =? 160)).
Definition is_ws3 (a b c : N) : bool :=
  ((a =? 225) && (b =? 154) && (c =? 128)) ||
  ((a =? 226) && (b =? 128) && (in_rng 128 138 c || (c =? 168) || (c =? 169) || (c =? 175))) ||
  ((a =? 226) && (b =? 129) && (c =? 159)) ||
  ((a =? 227) && (b =? 128) && (c =? 128)).

(** [s.trim_start()], [s.trim_end()] and [s.trim()]. *)
Fixpoint trim_start (l : list N) : list N :=
  match l with
  | [] => []
  | a :: r1 =>
      if is_ws1 a then trim_start r1
      else
        match r1 with
        | [] => l
        | b :: r2 =>
            if is_ws2 a b then trim_start r2
            else match r2 with [] => l | c :: r3 => if is_ws3 a b c then trim_start r3 else l end
        end
  end.

(** The same on the reversed text. *)
Fixpoint trim_rev (l : list N) : list N :=
  match l with
  | [] => []
  | a :: r1 =>
      if is_ws1 a then trim_rev r1
      else
        match r1 with
        | [] => l
        | b :: r2 =>
            if is_ws2 b a then trim_rev r2
            else match r2 with [] => l | c :: r3 => if is_ws3 c b a then trim_rev r3 else l end
        end
  end.
Definition trim_end (l : list N) : list N := reverse (trim_rev (reverse l)).
Definition trim (l : list N) : list N := trim_end (trim_start l).

(** [s.trim_matches(c)] for an ASCII character. *)
Definition trim_matches (c : N) (l : list N) : list N :=
  let strip := fun l => (span (N.eqb c) l).2 in
  reverse (strip (reverse (strip l))).

(** [s.split(c)] for an ASCII character. *)
Fixpoint split_on (c : N) (cur l : list N) : list (list N) :=
  match l with
  | [] => [cur]
  | x :: l => if x =? c then cur :: split_on c [] l else split_on c (cur ++ [x]) l
  end.
Definition split (c : N) (l : list N) : list (list N) := split_on c [] l.

(** [s.ends_with(t)]. *)
Definition ends_with (s t : list N) : bool := bool_decide (drop (length s - length t) s = t).

(** [s.strip_prefix(p)]. *)
Fixpoint strip_prefix (p l : list N) : option (list N) :=
  match p, l with
  | [], l => Some l
  | x :: p, y :: l => if x =? y then strip_prefix p l else None
  | _ :: _, [] => None
  end.

(** [s.strip_suffix('\r')], if there is one. *)
Definition strip_cr (l : list N) : list N :=
  match reverse l with
  | 13 :: r => reverse r
  | _ => l
  end.

(** [s.lines()]: a line ends at a line feed, which a carriage return may
    precede; text after the last line feed is a line if it is not empty. *)
Fixpoint lines_from (cur l : list N) : list (list N) :=
  match l with
  | [] => match cur with [] => [] | _ => [reverse cur] end
  | x :: l => if x =? 10 then strip_cr (reverse cur) :: lines_from [] l else lines_from (x :: cur) l
  end.
Definition lines (l : list N) : list (list N) := lines_from [] l.

(** ** Lemmas *)

Lemma utf8_valid_app a b : utf8_valid a = true -> utf8_valid b = true -> utf8_valid (a ++ b) = true.
Proof.
  intros Ha Hb. revert Ha. induction a as [a IH] using (induction_ltof1 _ (@length N)).
  unfold ltof in IH.
  destruct a as [|b0 a]; cbn; [done|]. case_match; [apply IH; cbn; lia|].
  destruct a as [|b1 a]; cbn; [done|]. case_match; [apply IH; cbn; lia|].
  destruct a as [|b2 a]; cbn; [done|]. case_match; [apply IH; cbn; lia|].
  destruct a as [|b3 a]; cbn; [done|]. case_match; [apply IH; cbn; lia|done].
Qed.

Lemma span_app p l : (span p l).1 ++ (span p l).2 = l.
Proof.
  induction l as [|b l IH]; cbn; [done|]. destruct (p b); [|done].
  destruct (span p l) as [a r]. cbn in *. by rewrite IH.
Qed.

Lemma span_suffix p l : (span p l).2 `suffix_of` l.
Proof. exists (span p l).1. symmetry. apply span_app. Qed.

Lemma span_forall p l : forallb p (span p l).1 = true.
Proof.
  induction l as [|b l IH]; cbn; [done|]. destruct (p b) eqn:E; [|done].
  destruct (span p l) as [a r]. cbn in *. by rewrite E.
Qed.

(** A span that starts inside its class takes its first byte. *)
Lemma span_cons_suffix p b l : p b = true -> (span p (b :: l)).2 `suffix_of` l.
Proof. intros Hb. cbn. rewrite Hb. pose proof (span_suffix p l). by destruct (span p l). Qed.

(** A printable ASCII character at an end of a text stops [trim] there. *)
Definition is_graphic (b : N) : bool := in_rng 33 126 b.

Lemma is_graphic_not_ws a : is_graphic a = true ->
  is_ws1 a = false /\ (forall b, is_ws2 a b = false) /\ (forall b, is_ws2 b a = false) /\
  (forall b c, is_ws3 a b c = false) /\ (forall b c, is_ws3 c b a = false).
Proof.
  unfold is_graphic, is_ws1, is_ws2, is_ws3, in_rng. rewrite andb_true_iff, !N.leb_le. intros [Hl Hh].
  repeat split; intros; apply not_true_iff_false;
    rewrite ?orb_true_iff, ?andb_true_iff, ?orb_true_iff, ?andb_true_iff, ?N.leb_le, ?N.eqb_eq; lia.
Qed.

Lemma trim_start_id a l : is_graphic a = true -> trim_start (a :: l) = a :: l.
Proof.
  intros (H1 & H2 & _ & H3 & _)%is_graphic_not_ws. cbn [trim_start]. rewrite H1.
  destruct l as [|b [|c l]]; [done|by rewrite H2|by rewrite H2, H3].
Qed.

Lemma trim_rev_id a l : is_graphic a = true -> trim_rev (a :: l) = a :: l.
Proof.
  intros (H1 & _ & H2 & _ & H3)%is_graphic_not_ws. cbn [trim_rev]. rewrite H1.
  destruct l as [|b [|c l]]; [done|by rewrite H2|by rewrite H2, H3].
Qed.

Lemma trim_id l a b : head l = Some a -> last l = Some b -> is_graphic a = true -> is_graphic b = true ->
  trim l = l.
Proof.
  intros Hh Hl Ha Hb. unfold trim, trim_end.
  destruct l as [|x l]; [done|]. injection Hh as ->. rewrite trim_start_id by done.
  rewrite <- head_reverse in Hl. destruct (reverse (a :: l)) as [|y r] eqn:E; [done|]. injection Hl as ->.
  rewrite trim_rev_id, <- E by done. apply reverse_involutive.
Qed.

Lemma seq3_second b0 b1 b2 : seq3 b0 b1 b2 = cont b2 && second3 b0 b1.
Proof. done. Qed.

Lemma seq4_second b0 b1 b2 b3 : seq4 b0 b1 b2 b3 = cont b2 && cont b3 && second4 b0 b1.
Proof. done. Qed.

Lemma from_utf8_lossy_valid l : utf8_valid l = true -> from_utf8_lossy l = l.
Proof.
  induction l as [l IH] using (induction_ltof1 _ (@length N)). unfold ltof in IH.
  destruct l as [|b0 r0]; [done|]. cbn [utf8_valid from_utf8_lossy].
  destruct (b0 <? 128); [intros; f_equal; apply IH; cbn; auto; lia|].
  destruct r0 as [|b1 r1]; [done|].
  destruct (seq2 b0 b1); [intros; do 2 f_equal; apply IH; cbn; auto; lia|].
  destruct r1 as [|b2 r2]; [done|]. rewrite seq3_second.
  destruct (second3 b0 b1) eqn:E3.
  - destruct (cont b2) eqn:C2; cbn [andb]; [intros; do 3 f_equal; apply IH; cbn; auto; lia|].
    destruct r2 as [|b3 r3]; [done|]. rewrite seq4_second, C2. done.
  - rewrite andb_false_r. destruct r2 as [|b3 r3]; [done|]. rewrite seq4_second.
    destruct (second4 b0 b1); [|by rewrite andb_false_r].
    destruct (cont b2), (cont b3); try done. intros; do 4 f_equal; apply IH; cbn; auto; lia.
Qed.

Lemma split_first_app c a b : c ∉ a -> split_first c (a ++ c :: b) = Some (a, b).
Proof.
  induction a as [|x a IH]; cbn; intros Hc; [by rewrite N.eqb_refl|].
  apply not_elem_of_cons in Hc as [Hx Hc]. destruct (N.eqb_spec x c); [congruence|].
  by rewrite IH.
Qed.

Lemma split_first_Some c l a b : split_first c l = Some (a, b) -> l = a ++ c :: b /\ c ∉ a.
Proof.
  revert a b. induction l as [|x l IH]; cbn; intros a b H; [done|].
  destruct (N.eqb_spec x c) as [->|Hne].
  - injection H as <- <-. split; [done|apply not_elem_of_nil].
  - destruct (split_first c l) as [[a' b']|] eqn:E; [|done]. injection H as <- <-.
    destruct (IH _ _ eq_refl) as [-> Hc]. split; [done|]. apply not_elem_of_cons; auto.
Qed.

Lemma strip_prefix_Some p l r : strip_prefix p l = Some r -> l = p ++ r.
Proof.
  revert l. induction p as [|x p IH]; intros [|y l]; cbn; try congruence.
  case_cmp; [|done]. subst. intros H. f_equal. auto.
Qed.

Lemma strip_cr_id l : last l <> Some 13 -> strip_cr l = l.
Proof.
  intros H. unfold strip_cr. rewrite <- head_reverse in H.
  destruct (reverse l) as [|x r]; [done|]. cbn in H.
  by repeat case_match.
Qed.

Lemma lines_from_app cur a l : 10 ∉ a ->
  lines_from cur (a ++ 10 :: l) = strip_cr (reverse cur ++ a) :: lines_from [] l.
Proof.
  revert cur. induction a as [|x a IH]; cbn; intros cur Ha; [by rewrite app_nil_r|].
  apply not_elem_of_cons in Ha as [Hx Ha]. destruct (N.eqb_spec x 10); [congruence|].
  rewrite IH by done. by rewrite reverse_cons, <- app_assoc.
Qed.

Lemma utf8_ascii l : is_ascii l = true -> utf8_valid l = true.
Proof.
  induction l as [|b l IH]; cbn; [done|]. intros [Hb Hl]%andb_prop. rewrite Hb. auto.
Qed.

Lemma is_ascii_app a b : is_ascii (a ++ b) = is_ascii a && is_ascii b.
Proof. apply forallb_app. Qed.

Lemma is_ascii_suffix a b : a `suffix_of` b -> is_ascii b = true -> is_ascii a = true.
Proof. intros [k ->]. rewrite is_ascii_app. by intros [_ ?]%andb_prop. Qed.

(** ** Decimal texts *)

Lemma is_digit_of m : m < 10 -> is_digit (48 + m) = true.
Proof. intros Hm. unfold is_digit, in_rng. apply andb_true_intro. split; apply N.leb_le; lia. Qed.

Lemma digit_of_byte m : 48 + m - 48 = m.
Proof. lia. Qed.

Lemma digits_rev_value n fuel : n < 2 ^ N.of_nat (S fuel) ->
  digits_value (reverse (digits_rev (S fuel) n)) = n /\
  Forall (fun d => is_digit d = true) (digits_rev (S fuel) n) /\ digits_rev (S fuel) n <> [].
Proof.
  revert n. induction fuel as [|fuel IH]; intros n Hn; rewrite Nat2N.inj_succ, N.pow_succ_r' in Hn.
  all: remember (S fuel) as f || idtac; cbn [digits_rev].
  all: pose proof (N.mod_lt n 10 ltac:(lia)) as Hm.
  all: pose proof (is_digit_of (n mod 10) Hm) as Hd.
  all: destruct (N.eqb_spec (n / 10) 0) as [Hz|Hz].
  1, 3: split_and!; [|by repeat constructor|done];
    rewrite reverse_singleton; unfold digits_value; cbn [foldl]; apply N.div_small_iff in Hz; [|lia];
    rewrite digit_of_byte, N.mod_small by done; lia.
  - cbn in Hn. exfalso. apply Hz, N.div_small. lia.
  - subst f. destruct (IH (n / 10)) as (Hv & Hf & Hne); [apply N.Div0.div_lt_upper_bound; lia|].
    split_and!; [|by constructor|done]. rewrite reverse_cons. unfold digits_value in *.
    rewrite foldl_app, Hv. cbn [foldl]. rewrite digit_of_byte. symmetry. apply N.div_mod'.
Qed.

Lemma N_to_string_spec n : digits_value (N_to_string n) = n /\
  Forall (fun d => is_digit d = true) (N_to_string n) /\ N_to_string n <> [].
Proof.
  unfold N_to_string. destruct (digits_rev_value n (N.to_nat (N.log2 n))) as (Hv & Hd & Hne).
  - replace (N.of_nat (S (N.to_nat (N.log2 n)))) with (N.succ (N.log2 n)) by lia. destruct (N.eq_dec n 0) as [->|Hn]; [done|]. apply N.log2_spec. lia.
  - split_and!; [done|by apply Forall_reverse|]. intros He. apply (f_equal reverse) in He.
    rewrite reverse_involutive in He. done.
Qed.
