(* ===== verification/Float64.v ===== *)
(** * Binary floating point

    [f64] is the type [spec_float] of the Standard Library's executable model of
    IEEE 754, at the precision and exponent range of binary64. *)

From Stdlib Require Import Ascii String SpecFloat.
From S2P Require Import Prelude Bytes Strings.

Abbreviation f64 := spec_float.
Definition prec64 : Z := 53.
Definition emax64 : Z := 1024.

(** [m * 10 ^ e], correctly rounded: what [str::parse::<f64>] returns for a
    decimal literal. *)
Definition f64_of_decimal (m : N) (e : Z) : f64 :=
  match m with
  | 0 => S754_zero false
  | Npos m =>
      if (0 <=? e)%Z then binary_normalize prec64 emax64 (Z.pos m * 10 ^ e) 0 false
      else
        let '(q, e', l) := SFdiv_core_binary prec64 emax64 (Z.pos m) 0 (10 ^ (- e)) 0 in
        binary_round_aux prec64 emax64 false q e' l
  end.

Definition f64_zero : f64 := S754_zero false.

(** [z as f64]. *)
Definition f64_of_Z (z : Z) : f64 := binary_normalize prec64 emax64 z 0 false.

Definition f64_add : f64 -> f64 -> f64 := SFadd prec64 emax64.
Definition f64_sub : f64 -> f64 -> f64 := SFsub prec64 emax64.
Definition f64_mul : f64 -> f64 -> f64 := SFmul prec64 emax64.
Definition f64_div : f64 -> f64 -> f64 := SFdiv prec64 emax64.
Definition f64_opp : f64 -> f64 := SFopp.

Definition f64_sqrt : f64 -> f64 := SFsqrt prec64 emax64.

(** [x % y]: the remainder of the division that rounds to zero, which is exact and
    has the sign of [x]. *)
Definition f64_rem (x y : f64) : f64 :=
  match x, y with
  | S754_nan, _ | _, S754_nan | S754_infinity _, _ | _, S754_zero _ => S754_nan
  | S754_zero s, _ => S754_zero s
  | S754_finite _ _ _, S754_infinity _ => x
  | S754_finite sx mx ex, S754_finite _ my ey =>
      let e := Z.min ex ey in
      let r := ((Z.pos mx * 2 ^ (ex - e)) mod (Z.pos my * 2 ^ (ey - e)))%Z in
      binary_normalize prec64 emax64 (if sx then - r else r)%Z e sx
  end.

(** [partial_cmp]. *)
Definition f64_compare : f64 -> f64 -> option comparison := SFcompare.

#[global] Instance f64_eq_dec : EqDecision f64.
Proof. solve_decision. Defined.

(** ** Numbers in text *)

(** [s.parse::<i64>()] on at least one digit. *)
Definition parse_i64 (ds : list N) : option Z :=
  if digits_value ds <? 2 ^ 63 then Some (Z.of_N (digits_value ds)) else None.

(** [s.parse::<f64>()] on [int.frac], which has a digit, with an
    exponent: [None] stands for no
    exponent part, a part without digits is an error. *)
Definition parse_f64 (int frac : list N) (exp : option (bool * list N)) : option f64 :=
  let m := digits_value (int ++ frac) in
  let shift := Z.of_nat (length frac) in
  match exp with
  | None => Some (f64_of_decimal m (- shift))
  | Some (_, []) => None
  | Some (neg, ds) =>
      let e := Z.of_N (digits_value ds) in
      Some (f64_of_decimal m ((if neg then - e else e) - shift))
  end.

(** The exponent of a number: the letter, an optional sign and digits. *)
Definition scan_exponent (r : list N) : option (bool * list N) * list N * list N :=
  match r with
  | c :: r1 =>
      if (c =? 101) || (c =? 69) then
        let '(sign, r2) := match r1 with
                           | s :: r2 => if (s =? 43) || (s =? 45) then ([s], r2) else ([], r1)
                           | [] => ([], r1)
                           end in
        let '(ds, r3) := span is_digit r2 in
        (Some (bool_decide (sign = [45]), ds), c :: sign ++ ds, r3)
      else (None, [], r)
  | [] => (None, [], r)
  end.

(** [s.parse::<f64>()]. *)
Definition f64_from_str (s : list N) : option f64 :=
  let '(neg, t) := match s with
                   | c :: r => if c =? 45 then (true, r) else if c =? 43 then (false, r) else (false, s)
                   | [] => (false, s)
                   end in
  let sign f := if (neg : bool) then f64_opp f else f in
  let word := lower_byte <$> t in
  if bool_decide (word = text "inf") || bool_decide (word = text "infinity") then Some (S754_infinity neg)
  else if bool_decide (word = text "nan") then Some S754_nan
  else
    let '(int, t) := span is_digit t in
    let '(frac, t) := match t with
                      | c :: r => if c =? 46 then span is_digit r else ([], t)
                      | [] => ([], t)
                      end in
    let '(exp, _, t) := scan_exponent t in
    match int ++ frac, t with
    | _ :: _, [] => sign <$> parse_f64 int frac exp
    | _, _ => None
    end.

(** The numerator and denominator of [m * 2 ^ e]. *)
Definition ratio (m : positive) (e : Z) : Z * Z :=
  if (0 <=? e)%Z then (Z.pos m * 2 ^ e, 1)%Z else (Z.pos m, 2 ^ (- e))%Z.

(** The least [k] at least [k0] with [p / q < 10 ^ k]; a float is below [10 ^ 309]
    and at least [10 ^ -324]. *)
Fixpoint decimal_point (fuel : nat) (k : Z) (p q : Z) : Z :=
  match fuel with
  | O => k
  | S fuel =>
      if (if 0 <=? k then p <? q * 10 ^ k else p * 10 ^ (- k) <? q)%Z then k
      else decimal_point fuel (k + 1) p q
  end.

(** The shortest decimal [d * 10 ^ (k - n)] that reads back as the float, the
    closest to it of that length: the digits [d], their number and the position of
    the decimal point. *)
Fixpoint shortest (fuel n : nat) (m : positive) (e k : Z) : N * nat :=
  let '(p, q) := ratio m e in
  let s := (Z.of_nat n - k)%Z in
  let '(p, q) := if (0 <=? s)%Z then (p * 10 ^ s, q)%Z else (p, q * 10 ^ (- s))%Z in
  let d := (p / q)%Z in
  let reads c := bool_decide (f64_of_decimal (Z.to_N c) (- s) = S754_finite false m e) in
  let closer := (2 * (p - d * q) <? q)%Z in
  match fuel with
  | O => (Z.to_N d, n)
  | S fuel =>
      if reads d && (closer || negb (reads (d + 1)%Z)) then (Z.to_N d, n)
      else if reads (d + 1)%Z then (Z.to_N (d + 1)%Z, n)
      else shortest fuel (S n) m e k
  end.

(** [f.to_string()]: the digits without an exponent. *)
Definition f64_to_string (f : f64) : list N :=
  let sign (s : bool) := if s then [45] else [] in
  match f with
  | S754_nan => text "NaN"
  | S754_infinity s => sign s ++ text "inf"
  | S754_zero s => sign s ++ text "0"
  | S754_finite s m e =>
      let '(p, q) := ratio m e in
      let k := decimal_point 640 (-324) p q in
      let '(d, n) := shortest 17 1 m e k in
      let ds := N_to_string d in
      (* a carry out of the first digit moves the point *)
      let k := (k + Z.of_nat (length ds) - Z.of_nat n)%Z in
      let n := length ds in
      sign s ++
      (if (k <=? 0)%Z then text "0." ++ replicate (Z.to_nat (- k)) 48 ++ ds
       else if (Z.of_nat n <=? k)%Z then ds ++ replicate (Z.to_nat k - n) 48
       else take (Z.to_nat k) ds ++ text "." ++ drop (Z.to_nat k) ds)
  end.

(** [f.fract() == 0.0]. *)
Definition f64_is_integral (f : f64) : bool :=
  match f with
  | S754_zero _ => true
  | S754_finite _ m e => let '(p, q) := ratio m e in (p mod q =? 0)%Z
  | _ => false
  end.

(** [f.abs() < 10 ^ k]. *)
Definition f64_abs_lt_pow10 (f : f64) (k : Z) : bool :=
  match f with
  | S754_zero _ => true
  | S754_finite _ m e => let '(p, q) := ratio m e in (p <? q * 10 ^ k)%Z
  | _ => false
  end.

(** [format!("{:.1}", f)] on a float without a fraction. *)
Definition f64_to_string_1 (f : f64) : list N :=
  match f with
  | S754_zero s => (if s then [45] else []) ++ text "0.0"
  | S754_finite s m e =>
      let '(p, q) := ratio m e in
      (if s then [45] else []) ++ N_to_string (Z.to_N (p / q)) ++ text ".0"
  | _ => f64_to_string f
  end.

(** ** Interchange format

    [to_bits] and [from_bits].  The model has one NaN, the quiet one with a clear
    sign. *)
Definition sign_bit (s : bool) : N := if s then 2 ^ 63 else 0.

Definition f64_to_bits (f : f64) : N :=
  match f with
  | S754_zero s => sign_bit s
  | S754_infinity s => sign_bit s + 2047 * 2 ^ 52
  | S754_nan => 2047 * 2 ^ 52 + 2 ^ 51
  | S754_finite s m e =>
      if N.pos m <? 2 ^ 52 then sign_bit s + N.pos m
      else sign_bit s + Z.to_N (e + 1075) * 2 ^ 52 + (N.pos m - 2 ^ 52)
  end.

Definition f64_of_bits (bits : N) : f64 :=
  let s := 2 ^ 63 <=? bits in
  let ex := (bits / 2 ^ 52) mod 2048 in
  let fr := bits mod 2 ^ 52 in
  if ex =? 2047 then if fr =? 0 then S754_infinity s else S754_nan
  else if ex =? 0 then match fr with N0 => S754_zero s | N.pos m => S754_finite s m (-1074) end
  else match 2 ^ 52 + fr with N0 => S754_nan | N.pos m => S754_finite s m (Z.of_N ex - 1075) end.

(** The values of the format: mantissa and exponent within their ranges. *)
Definition f64_ok (f : f64) : bool := valid_binary prec64 emax64 f.

Lemma digits2_pos_log2 p : Z.pos (digits2_pos p) = (Z.log2 (Z.pos p) + 1)%Z.
Proof.
  induction p as [p IH|p IH|]; cbn [digits2_pos]; [| |done].
  - rewrite Pos2Z.inj_succ, IH, (Pos2Z.inj_xI p), Z.log2_succ_double by lia. lia.
  - rewrite Pos2Z.inj_succ, IH, (Pos2Z.inj_xO p), Z.log2_double by lia. lia.
Qed.

(** A finite value is subnormal, or its mantissa has 53 bits. *)
Lemma f64_ok_finite s m e : f64_ok (S754_finite s m e) = true ->
  (Z.pos m < 2 ^ 52 /\ e = -1074)%Z \/ (2 ^ 52 <= Z.pos m < 2 ^ 53 /\ -1074 <= e <= 971)%Z.
Proof.
  unfold f64_ok, valid_binary, bounded, canonical_mantissa, fexp, SpecFloat.emin, prec64, emax64.
  rewrite andb_true_iff. intros [Hm He]. apply Z.eqb_eq in Hm. apply Z.leb_le in He.
  rewrite digits2_pos_log2 in Hm.
  pose proof (Z.log2_spec (Z.pos m) ltac:(lia)) as [Hl Hu].
  pose proof (Z.log2_nonneg (Z.pos m)) as H0.
  assert (Hcase : (Z.log2 (Z.pos m) = 52 \/ (Z.log2 (Z.pos m) < 52 /\ e = -1074))%Z) by lia.
  destruct Hcase as [H52|[Hlt ->]].
  - rewrite H52 in Hl, Hu. right. change (Z.succ 52) with 53%Z in Hu. lia.
  - left. split; [|done]. eapply Z.lt_le_trans; [exact Hu|]. apply Z.pow_le_mono_r; lia.
Qed.

Lemma f64_of_to_bits f : f64_ok f = true -> f64_of_bits (f64_to_bits f) = f.
Proof.
  destruct f as [s|s| |s m e]; intros Hok; [by destruct s..| |]; [by vm_compute|].
  apply f64_ok_finite in Hok. unfold f64_to_bits.
  assert (Hs : forall ex fr, ex < 2048 -> fr < 2 ^ 52 -> let bits := sign_bit s + ex * 2 ^ 52 + fr in
    (2 ^ 63 <=? bits) = s /\ (bits / 2 ^ 52) mod 2048 = ex /\ bits mod 2 ^ 52 = fr).
  { intros ex fr Hex Hfr bits. subst bits. repeat split.
    - destruct s; cbn [sign_bit]; case_cmp; lia.
    - replace (sign_bit s + ex * 2 ^ 52 + fr) with (fr + (ex + (if s then 1 else 0) * 2048) * 2 ^ 52)
        by (destruct s; cbn [sign_bit]; lia).
      rewrite N.div_add, N.div_small by lia. rewrite N.add_0_l, N.Div0.mod_add. by apply N.mod_small.
    - replace (sign_bit s + ex * 2 ^ 52 + fr) with (fr + (ex + (if s then 1 else 0) * 2048) * 2 ^ 52)
        by (destruct s; cbn [sign_bit]; lia).
      rewrite N.Div0.mod_add. by apply N.mod_small. }
  unfold f64_of_bits. destruct (N.ltb_spec (N.pos m) (2 ^ 52)) as [Hlt|Hge].
  - destruct (Hs 0 (N.pos m) ltac:(lia) Hlt) as (Hb & He & Hf).
    rewrite N.mul_0_l, N.add_0_r in Hb, He, Hf. rewrite Hb, He, Hf. cbn [N.eqb]. f_equal. lia.
  - destruct (Hs (Z.to_N (e + 1075)) (N.pos m - 2 ^ 52) ltac:(lia) ltac:(lia)) as (Hb & He & Hf).
    rewrite Hb, He, Hf. case_cmp; try lia.
    replace (2 ^ 52 + (N.pos m - 2 ^ 52)) with (N.pos m) by lia. f_equal. lia.
Qed.

Lemma f64_to_bits_lt f : f64_ok f = true -> f64_to_bits f < 2 ^ 64.
Proof.
  destruct f as [s|s| |s m e]; intros Hok; [by destruct s..| |]; [by vm_compute|].
  apply f64_ok_finite in Hok. unfold f64_to_bits. destruct s; cbn [sign_bit]; case_cmp; lia.
Qed.

(** ** Comparison *)

Lemma f64_compare_refl f : f <> S754_nan -> f64_compare f f = Some Eq.
Proof.
  destruct f as [[]|[]| |[] m e]; try done; intros _; cbn.
  all: by rewrite Z.compare_refl, Pos.compare_cont_refl.
Qed.

Lemma f64_compare_opp a b : f64_compare b a = CompOpp <$> f64_compare a b.
Proof.
  destruct a as [[]|[]| |[] m e], b as [[]|[]| |[] n d]; try done; cbn; rewrite (Z.compare_antisym e d);
    change (PosDef.Pos.compare_cont Eq n m) with (n ?= m)%positive; change (PosDef.Pos.compare_cont Eq m n) with (m ?= n)%positive;
    rewrite (Pos.compare_antisym m n); by destruct (e ?= d)%Z, (m ?= n)%positive.
Qed.

Lemma f64_compare_eq_trans x y z :
  f64_compare x y = Some Eq -> f64_compare y z = Some Eq -> f64_compare x z = Some Eq.
Proof.
  assert (Hfin : forall s m e t n d, f64_compare (S754_finite s m e) (S754_finite t n d) = Some Eq ->
    s = t /\ m = n /\ e = d).
  { intros s m e t n d. cbn. destruct s, t; try discriminate; destruct (Z.compare_spec e d); try discriminate;
      subst; change (Pos.compare_cont Eq m n) with (m ?= n)%positive;
      destruct (Pos.compare_spec m n); try discriminate; by subst. }
  intros H1 H2. destruct x as [| | |s m e], y as [| | |t n d];
    try (apply Hfin in H1 as (-> & -> & ->); exact H2).
  all: cbn in H1; repeat case_match; try discriminate; destruct z; cbn in *; repeat case_match; done.
Qed.

Lemma f64_compare_eq a b : f64_compare a b = Some Eq ->
  a = b \/ exists s t, a = S754_zero s /\ b = S754_zero t.
Proof.
  destruct a as [s|s| |s m e], b as [t|t| |t n d]; cbn; try (destruct s; discriminate);
    try (destruct t; discriminate); try discriminate.
  - right. eauto.
  - destruct s, t; try discriminate; auto.
  - destruct s, t; try discriminate; destruct (Z.compare_spec e d); try discriminate; subst;
      change (Pos.compare_cont Eq m n) with (m ?= n)%positive;
      destruct (Pos.compare_spec m n); try discriminate; subst; auto.
Qed.

(** ** Exact decimals

    A decimal that is the value of a float reads as that float. *)

Lemma iter_pos_nat {A} (f : A -> A) p x : SpecFloat.iter_pos f p x = Nat.iter (Pos.to_nat p) f x.
Proof.
  revert x. induction p as [p IH|p IH|]; intros x; cbn [SpecFloat.iter_pos]; [| |done]; rewrite !IH.
  - rewrite Pos2Nat.inj_xI. replace (S (2 * Pos.to_nat p))%nat with (Pos.to_nat p + (Pos.to_nat p + 1))%nat by lia.
    by rewrite !Nat.iter_add.
  - rewrite Pos2Nat.inj_xO. replace (2 * Pos.to_nat p)%nat with (Pos.to_nat p + Pos.to_nat p)%nat by lia. by rewrite Nat.iter_add.
Qed.

Lemma shr_exact m t e : (0 <= t)%Z ->
  shr (Build_shr_record (Z.pos m * 2 ^ t) false false) e t = (Build_shr_record (Z.pos m) false false, e + t)%Z.
Proof.
  intros Ht. destruct t as [|p|p]; [by rewrite Z.mul_1_r, Z.add_0_r| |lia]. cbn [shr]. f_equal.
  rewrite iter_pos_nat, <- (positive_nat_Z p). induction (Pos.to_nat p) as [|n IH]; [cbn [Nat.iter nat_rect]; f_equal; lia|].
  rewrite Nat.iter_succ_r, <- IH. f_equal. rewrite Nat2Z.inj_succ, Z.pow_succ_r by lia.
  destruct (Z.pos m * 2 ^ Z.of_nat n)%Z as [|q|q] eqn:Eq; [nia| |nia].
  replace (Z.pos m * (2 * 2 ^ Z.of_nat n))%Z with (Z.pos q~0) by lia. done.
Qed.

Lemma Zdigits2_log2 z : (0 < z)%Z -> Zdigits2 z = (Z.log2 z + 1)%Z.
Proof. destruct z as [|p|p]; [lia| |lia]. intros _. apply digits2_pos_log2. Qed.

(** A value with an exponent of at most the float's own rounds to the float. *)
Lemma round_exact s m e t : f64_ok (S754_finite s m e) = true -> (0 <= t)%Z ->
  binary_round_aux prec64 emax64 false (Z.pos m * 2 ^ t) (e - t) loc_Exact = S754_finite false m e.
Proof.
  intros Hok Ht. unfold f64_ok, valid_binary, bounded, canonical_mantissa in Hok. apply andb_true_iff in Hok as [Hc%Z.eqb_eq He].
  unfold binary_round_aux, shr_fexp. cbn [shr_record_of_loc].
  assert (0 < Z.pos m * 2 ^ t)%Z by nia. rewrite Zdigits2_log2, Z.log2_mul_pow2 by lia. rewrite digits2_pos_log2 in Hc.
  replace (t + Z.log2 (Z.pos m) + 1 + (e - t))%Z with (Z.log2 (Z.pos m) + 1 + e)%Z by lia. rewrite Hc.
  replace (e - (e - t))%Z with t by lia. rewrite shr_exact by done. cbn [shr_m loc_of_shr_record round_nearest_even].
  replace (e - t + t)%Z with e by lia. cbn [shr_record_of_loc]. rewrite Zdigits2_log2 by lia. rewrite Hc, Z.sub_diag. cbn [shr shr_m].
  by rewrite He.
Qed.

(** [n.0] reads as the float whose value is the whole number [n]. *)
Lemma decimal_tenths s m e n : f64_ok (S754_finite s m e) = true -> ratio m e = (n * (ratio m e).2, (ratio m e).2)%Z ->
  f64_of_decimal (10 * Z.to_N n) (-1) = S754_finite false m e.
Proof.
  intros Hok Hn. assert (Hpos : (0 < n)%Z).
  { unfold ratio in Hn. destruct (Z.leb_spec 0 e); injection Hn as Hn; [nia|]. assert (0 < 2 ^ (- e))%Z by lia. nia. }
  unfold f64_of_decimal. destruct (10 * Z.to_N n) as [|p] eqn:Ep; [lia|]. change (0 <=? -1)%Z with false. cbv iota.
  replace (Z.pos p) with (10 * n)%Z by lia. change (10 ^ (- -1))%Z with 10%Z.
  unfold SFdiv_core_binary. rewrite !Z.add_0_r, Z.sub_0_r. rewrite (Zdigits2_log2 (10 * n)) by lia. change (Zdigits2 10) with 4%Z.
  pose proof Hok as Hc. unfold f64_ok, valid_binary, bounded, canonical_mantissa in Hc. apply andb_true_iff in Hc as [Hc%Z.eqb_eq _].
  rewrite digits2_pos_log2 in Hc.
  assert (Hlog : (Z.log2 n = Z.log2 (Z.pos m) + e)%Z).
  { unfold ratio in Hn. destruct (Z.leb_spec 0 e) as [He|He]; injection Hn as Hn.
    - pose proof (Z.log2_mul_pow2 (Z.pos m) e) as Hl. rewrite Z.add_comm, <- Hl by lia. f_equal. lia.
    - rewrite Hn, Z.log2_mul_pow2 by lia. lia. }
  set (e' := Z.min _ _).
  assert (He' : (e' <= e /\ e' <= 0)%Z).
  { subst e'. split; [|lia]. rewrite <- Hc. etransitivity; [apply Z.le_min_l|].
    pose proof (Z.log2_mul_above 10 n ltac:(lia) ltac:(lia)) as Hu. pose proof (Z.log2_mul_below 10 n). change (Z.log2 10) with 3%Z in *.
    unfold fexp. lia. }
  replace (match (0 - e')%Z with 0%Z => (10 * n)%Z | Z.pos _ => Z.shiftl (10 * n) (0 - e') | Z.neg _ => 0%Z end) with (n * 2 ^ (- e') * 10)%Z.
  2:{ destruct (0 - e')%Z eqn:E; [replace e' with 0%Z by lia; lia| |lia]. rewrite Z.shiftl_mul_pow2 by lia. replace (- e')%Z with (Z.pos p0) by lia. lia. }
  pose proof (Z_div_mod (n * 2 ^ (- e') * 10) 10 ltac:(lia)) as Hd. destruct (Z.div_eucl _ _) as [q r]. destruct Hd as [Hd Hr].
  assert (r = 0%Z /\ q = (n * 2 ^ (- e'))%Z) as [-> ->] by lia. change (new_location 10 0) with loc_Exact.
  rewrite <- (round_exact s m e (e - e') Hok) by lia. f_equal; [|lia].
  unfold ratio in Hn. destruct (Z.leb_spec 0 e) as [He|He]; injection Hn as Hn.
  - replace (e - e')%Z with (e + - e')%Z by lia. rewrite Z.pow_add_r by lia. lia.
  - rewrite Hn. replace (- e')%Z with (- e + (e - e'))%Z at 1 by lia. rewrite Z.pow_add_r by lia. lia.
Qed.
