(* ===== verification/StorageJsonb.v ===== *)
(** * Binary JSON

    Models [crates/storage/src/jsonb.rs]: the binary encoding of JSON values, the
    parser and printer of JSON text, access by key and index, and containment.
    A position in a byte slice is the suffix that starts there.  A byte string is
    read as text the way the parser reads it, one character per byte. *)

From Stdlib Require Import Ascii String.
From S2P Require Import Prelude Bytes Strings Float64.

Module Jsonb.

(** [JsonVal]. *)
Inductive JsonVal : Type :=
  | Null
  | Bool (b : bool)
  | Int (n : Z)
  | Float (f : f64)
  | Str (s : list N)
  | Array (items : list JsonVal)
  | Object (pairs : list (list N * JsonVal)).

(** The messages of the module, as the values their format strings take. *)
Inductive JsonError : Type :=
  | UnexpectedEnd
  | TruncatedInt64 | TruncatedFloat64
  | TruncatedStringLength | TruncatedStringData
  | TruncatedArrayCount | TruncatedObjectCount
  | InvalidUtf8
  | KeyNotString
  | UnknownTag (tag : N)
  | UnexpectedCharacter (c : option N)
  | ExpectedChar (expected : N) (got : option N)
  | ExpectedCommaOr (close : N) (got : option N)
  | UnterminatedString
  | TruncatedUnicode
  | InvalidUnicodeEscape (hex : list N)
  | InvalidCodepoint (code : N)
  | InvalidEscape (c : option N)
  | InvalidNumber (s : list N)
  | TrailingGarbage.

Abbreviation json_result := (outcome JsonError).

(** ** Encoding *)

Definition TAG_NULL : N := 1.
Definition TAG_BOOL_FALSE : N := 2.
Definition TAG_BOOL_TRUE : N := 3.
Definition TAG_INT64 : N := 4.
Definition TAG_FLOAT64 : N := 5.
Definition TAG_STRING : N := 6.
Definition TAG_ARRAY : N := 7.
Definition TAG_OBJECT : N := 8.

Definition encode_str (s : list N) : list N := TAG_STRING :: le_bytes 4 (u32 (len s)) ++ s.

Fixpoint encode_val (v : JsonVal) : list N :=
  match v with
  | Null => [TAG_NULL]
  | Bool false => [TAG_BOOL_FALSE]
  | Bool true => [TAG_BOOL_TRUE]
  | Int n => TAG_INT64 :: le_bytes 8 (of_signed 64 n)
  | Float f => TAG_FLOAT64 :: le_bytes 8 (f64_to_bits f)
  | Str s => encode_str s
  | Array items => TAG_ARRAY :: le_bytes 4 (u32 (len items)) ++ concat (map encode_val items)
  | Object pairs =>
      TAG_OBJECT :: le_bytes 4 (u32 (len pairs)) ++
        concat (map (fun kv => encode_str kv.1 ++ encode_val kv.2) pairs)
  end.

(** ** Decoding *)

(** [n] bytes and what follows them, or the error of a truncated read. *)
Definition read (n : N) (e : JsonError) (bytes : list N) : json_result (list N * list N) :=
  if len bytes <? n then Err e else Ok (take (N.to_nat n) bytes, drop (N.to_nat n) bytes).

Definition read_str (bytes : list N) : json_result (list N * list N) :=
  '(n, bytes) ← read 4 TruncatedStringLength bytes;
  '(s, bytes) ← read (le_value n) TruncatedStringData bytes;
  if utf8_valid s then Ok (s, bytes) else Err InvalidUtf8.

Section Decode.
Context (dec : list N -> json_result (JsonVal * list N)).

(** The loops over [count] elements.  Every element has a tag, so that [n] need
    only be the number of bytes: with none left the next element is an error. *)
Fixpoint decode_items (n : nat) (count : N) (bytes : list N) : json_result (list JsonVal * list N) :=
  if count =? 0 then Ok ([], bytes)
  else
    match n with
    | O => Err UnexpectedEnd
    | S n =>
        '(v, bytes) ← dec bytes;
        '(vs, bytes) ← decode_items n (count - 1) bytes;
        Ok (v :: vs, bytes)
    end.

Fixpoint decode_pairs (n : nat) (count : N) (bytes : list N)
    : json_result (list (list N * JsonVal) * list N) :=
  if count =? 0 then Ok ([], bytes)
  else
    match n with
    | O => Err UnexpectedEnd
    | S n =>
        '(key, bytes) ← dec bytes;
        match key with
        | Str k =>
            '(v, bytes) ← dec bytes;
            '(kvs, bytes) ← decode_pairs n (count - 1) bytes;
            Ok ((k, v) :: kvs, bytes)
        | _ => Err KeyNotString
        end
    end.

(** The body of [decode_val] behind the tag. *)
Definition decode_tag (tag : N) (bytes : list N) : json_result (JsonVal * list N) :=
  if tag =? TAG_NULL then Ok (Null, bytes)
  else if tag =? TAG_BOOL_FALSE then Ok (Bool false, bytes)
  else if tag =? TAG_BOOL_TRUE then Ok (Bool true, bytes)
  else if tag =? TAG_INT64 then
    '(b, bytes) ← read 8 TruncatedInt64 bytes; Ok (Int (to_signed 64 (le_value b)), bytes)
  else if tag =? TAG_FLOAT64 then
    '(b, bytes) ← read 8 TruncatedFloat64 bytes; Ok (Float (f64_of_bits (le_value b)), bytes)
  else if tag =? TAG_STRING then
    '(s, bytes) ← read_str bytes; Ok (Str s, bytes)
  else if tag =? TAG_ARRAY then
    '(n, bytes) ← read 4 TruncatedArrayCount bytes;
    '(items, bytes) ← decode_items (length bytes) (le_value n) bytes;
    Ok (Array items, bytes)
  else if tag =? TAG_OBJECT then
    '(n, bytes) ← read 4 TruncatedObjectCount bytes;
    '(pairs, bytes) ← decode_pairs (length bytes) (le_value n) bytes;
    Ok (Object pairs, bytes)
  else Err (UnknownTag tag).

End Decode.

(** [decode_val]: the value and the bytes behind it.  Each nested call has a
    shorter input, so that the length of the input is fuel enough; no fuel and no
    input have the same result. *)
Fixpoint decode_val (fuel : nat) (bytes : list N) : json_result (JsonVal * list N) :=
  match fuel, bytes with
  | S fuel, tag :: bytes => decode_tag (decode_val fuel) tag bytes
  | _, _ => Err UnexpectedEnd
  end.

Definition decode (bytes : list N) : json_result JsonVal :=
  '(v, _) ← decode_val (length bytes) bytes; Ok v.

(** ** Text *)

Definition escape_char (c : N) : list N :=
  if c =? 34 then [92; 34]
  else if c =? 92 then [92; 92]
  else if c =? 10 then [92; 110]
  else if c =? 13 then [92; 114]
  else if c =? 9 then [92; 116]
  else [c].

(** [escape_json_str]: the characters it escapes are ASCII, so that it may go by
    bytes. *)
Definition escape_json_str (s : list N) : list N := concat (map escape_char s).

(** [v.join(sep)]. *)
Fixpoint join (sep : list N) (l : list (list N)) : list N :=
  match l with
  | [] => []
  | [x] => x
  | x :: l => x ++ sep ++ join sep l
  end.

Definition quote (s : list N) : list N := 34 :: escape_json_str s ++ [34].

Definition format_float (f : f64) : list N :=
  if f64_is_integral f && f64_abs_lt_pow10 f 15 then f64_to_string_1 f else f64_to_string f.

Fixpoint format_json (v : JsonVal) : list N :=
  match v with
  | Null => text "null"
  | Bool b => if b then text "true" else text "false"
  | Int n => Z_to_string n
  | Float f => format_float f
  | Str s => quote s
  | Array items => 91 :: join [44] (map format_json items) ++ [93]
  | Object pairs => 123 :: join [44] (map (fun kv => quote kv.1 ++ [58] ++ format_json kv.2) pairs) ++ [125]
  end.

Definition decode_jsonb (bytes : list N) : json_result (list N) :=
  v ← decode bytes; Ok (format_json v).

(** ** The parser of JSON text *)

Fixpoint skip_ws (s : list N) : list N :=
  match s with
  | c :: r => if is_space c then skip_ws r else s
  | [] => []
  end.

(** [advance]: the next character and what follows it. *)
Definition advance (s : list N) : option N * list N :=
  match s with
  | c :: r => (Some c, r)
  | [] => (None, [])
  end.

Fixpoint expect_literal (lit s : list N) : json_result (list N) :=
  match lit with
  | [] => Ok s
  | b :: lit =>
      let '(c, s) := advance s in
      if bool_decide (c = Some b) then expect_literal lit s else Err (ExpectedChar b c)
  end.

(** A hexadecimal digit. *)
Definition hex_digit (c : N) : option N :=
  if is_digit c then Some (c - 48)
  else if in_rng 97 102 c then Some (c - 87)
  else if in_rng 65 70 c then Some (c - 55)
  else None.

Fixpoint hex_value (v : N) (ds : list N) : option N :=
  match ds with
  | [] => Some v
  | d :: ds => x ← hex_digit d; hex_value (16 * v + x) ds
  end.

(** [u32::from_str_radix(hex, 16)] on four characters: a plus sign is accepted in
    front of the digits. *)
Definition from_str_radix_16 (hex : list N) : option N :=
  match hex with
  | c :: ds => if c =? 43 then hex_value 0 ds else hex_value 0 hex
  | [] => None
  end.

(** [char::from_u32] on a code of at most four hexadecimal digits, and
    [String::push]. *)
Definition encode_utf8 (code : N) : option (list N) :=
  if code <? 128 then Some [code]
  else if code <? 2048 then Some [192 + code / 64; 128 + code mod 64]
  else if (code <? 55296) || (57344 <=? code) then
    Some [224 + code / 4096; 128 + code / 64 mod 64; 128 + code mod 64]
  else None.

(** The characters of the escapes of one letter. *)
Definition escape_code (c : N) : option N :=
  if c =? 34 then Some 34
  else if c =? 92 then Some 92
  else if c =? 47 then Some 47
  else if c =? 110 then Some 10
  else if c =? 114 then Some 13
  else if c =? 116 then Some 9
  else if c =? 98 then Some 8
  else if c =? 102 then Some 12
  else None.

(** The loop of [parse_string]; a byte is pushed as the character of its code. *)
Fixpoint parse_chars (acc s : list N) : json_result (list N * list N) :=
  match s with
  | [] => Err UnterminatedString
  | c :: s =>
      if c =? 34 then Ok (acc, s)
      else if c =? 92 then
        match s with
        | [] => Err (InvalidEscape None)
        | e :: s =>
            match escape_code e with
            | Some x => parse_chars (acc ++ [x]) s
            | None =>
                if e =? 117 then
                  match s with
                  | h0 :: h1 :: h2 :: h3 :: s =>
                      match from_str_radix_16 [h0; h1; h2; h3] with
                      | None => Err (InvalidUnicodeEscape [h0; h1; h2; h3])
                      | Some code =>
                          match encode_utf8 code with
                          | None => Err (InvalidCodepoint code)
                          | Some ch => parse_chars (acc ++ ch) s
                          end
                      end
                  | _ => Err TruncatedUnicode
                  end
                else Err (InvalidEscape (Some e))
            end
        end
      else parse_chars (acc ++ latin1 c) s
  end.

(** [parse_string]: the first character is taken for the opening quote. *)
Definition parse_string (s : list N) : json_result (list N * list N) := parse_chars [] (advance s).2.

(** [str::parse::<i64>] on an optional minus sign and digits. *)
Definition parse_signed (neg : bool) (ds : list N) : option Z :=
  let n := Z.of_N (digits_value ds) in
  match ds with
  | [] => None
  | _ => if neg then if (n <=? 2 ^ 63)%Z then Some (- n)%Z else None
         else if (n <? 2 ^ 63)%Z then Some n else None
  end.

Definition parse_float (neg : bool) (int frac : list N) (exp : option (bool * list N)) : option f64 :=
  match int ++ frac with
  | [] => None
  | _ => f ← parse_f64 int frac exp; Some (if neg then f64_opp f else f)
  end.

(** The sign and the fraction of a number: the characters read and what follows. *)
Definition scan_sign (s : list N) : list N * list N :=
  match s with
  | c :: r => if c =? 45 then ([45], r) else ([], s)
  | [] => ([], s)
  end.

Definition scan_fraction (s : list N) : list N * list N * list N :=
  match s with
  | c :: r => if c =? 46 then let '(frac, r) := span is_digit r in ([46], frac, r) else ([], [], s)
  | [] => ([], [], s)
  end.

Definition parse_number (s : list N) : json_result (JsonVal * list N) :=
  let '(sign, s) := scan_sign s in
  let neg := bool_decide (sign = [45]) in
  let '(int, s) := span is_digit s in
  let '(dot, frac, s) := scan_fraction s in
  let '(exp, exp_text, s) := scan_exponent s in
  let t := sign ++ int ++ dot ++ frac ++ exp_text in
  if bool_decide (dot = []) && bool_decide (exp = None) then
    match parse_signed neg int with
    | Some n => Ok (Int n, s)
    | None => Err (InvalidNumber t)
    end
  else
    match parse_float neg int frac exp with
    | Some f => Ok (Float f, s)
    | None => Err (InvalidNumber t)
    end.

Section Parse.
Context (value : list N -> json_result (JsonVal * list N)).

(** The loops of [parse_object] and [parse_array]; every round takes a character,
    and at the end of the input it fails as it does with no fuel. *)
Fixpoint object_loop (n : nat) (s : list N) : json_result (list (list N * JsonVal) * list N) :=
  match n with
  | O => Err UnterminatedString
  | S n =>
      '(key, s) ← parse_string (skip_ws s);
      let '(c, s) := advance (skip_ws s) in
      if bool_decide (c = Some 58) then
        '(v, s) ← value (skip_ws s);
        let s := skip_ws s in
        match s with
        | c :: r =>
            if c =? 44 then '(kvs, s) ← object_loop n r; Ok ((key, v) :: kvs, s)
            else if c =? 125 then Ok ([(key, v)], r)
            else Err (ExpectedCommaOr 125 (Some c))
        | [] => Err (ExpectedCommaOr 125 None)
        end
      else Err (ExpectedChar 58 c)
  end.

Definition parse_object (s : list N) : json_result (JsonVal * list N) :=
  let s := skip_ws (advance s).2 in
  if bool_decide (head s = Some 125) then Ok (Object [], (advance s).2)
  else '(pairs, s) ← object_loop (length s) s; Ok (Object pairs, s).

Fixpoint array_loop (n : nat) (s : list N) : json_result (list JsonVal * list N) :=
  match n with
  | O => Err (UnexpectedCharacter None)
  | S n =>
      '(v, s) ← value (skip_ws s);
      let s := skip_ws s in
      match s with
      | c :: r =>
          if c =? 44 then '(vs, s) ← array_loop n r; Ok (v :: vs, s)
          else if c =? 93 then Ok ([v], r)
          else Err (ExpectedCommaOr 93 (Some c))
      | [] => Err (ExpectedCommaOr 93 None)
      end
  end.

Definition parse_array (s : list N) : json_result (JsonVal * list N) :=
  let s := skip_ws (advance s).2 in
  if bool_decide (head s = Some 93) then Ok (Array [], (advance s).2)
  else '(items, s) ← array_loop (length s) s; Ok (Array items, s).

(** The body of [parse_value] behind [skip_ws]. *)
Definition parse_at (c : N) (s : list N) : json_result (JsonVal * list N) :=
  if c =? 34 then '(t, s) ← parse_string s; Ok (Str t, s)
  else if c =? 123 then parse_object s
  else if c =? 91 then parse_array s
  else if c =? 116 then s ← expect_literal (text "true") s; Ok (Bool true, s)
  else if c =? 102 then s ← expect_literal (text "false") s; Ok (Bool false, s)
  else if c =? 110 then s ← expect_literal (text "null") s; Ok (Null, s)
  else if (c =? 45) || is_digit c then parse_number s
  else Err (UnexpectedCharacter (Some c)).

End Parse.

Fixpoint parse_value (fuel : nat) (s : list N) : json_result (JsonVal * list N) :=
  match fuel, skip_ws s with
  | S fuel, c :: r => parse_at (parse_value fuel) c (c :: r)
  | _, _ => Err (UnexpectedCharacter None)
  end.

Definition parse_json (s : list N) : json_result JsonVal :=
  '(v, r) ← parse_value (length s) s;
  match skip_ws r with
  | [] => Ok v
  | _ => Err TrailingGarbage
  end.

Definition encode_jsonb (json_str : list N) : json_result (list N) :=
  v ← parse_json (trim json_str); Ok (encode_val v).

(** ** Access *)

Definition find_key (key : list N) (pairs : list (list N * JsonVal)) : option JsonVal :=
  snd <$> List.find (fun kv => bool_decide (kv.1 = key)) pairs.

Definition jsonb_get_key (bytes key : list N) : option (list N) :=
  match decode bytes with
  | Ok (Object pairs) => encode_val <$> find_key key pairs
  | _ => None
  end.

Definition jsonb_get_idx (bytes : list N) (idx : N) : option (list N) :=
  match decode bytes with
  | Ok (Array items) => encode_val <$> items !! N.to_nat idx
  | _ => None
  end.

(** The derived [PartialEq]. *)
Fixpoint json_eq (a b : JsonVal) : bool :=
  match a, b with
  | Null, Null => true
  | Bool x, Bool y => eqb x y
  | Int x, Int y => (x =? y)%Z
  | Float x, Float y => match f64_compare x y with Some Eq => true | _ => false end
  | Str x, Str y => bool_decide (x = y)
  | Array xs, Array ys =>
      (fix go xs ys := match xs, ys with
                       | [], [] => true
                       | x :: xs, y :: ys => json_eq x y && go xs ys
                       | _, _ => false
                       end) xs ys
  | Object xs, Object ys =>
      (fix go xs ys := match xs, ys with
                       | [], [] => true
                       | (k, x) :: xs, (l, y) :: ys => bool_decide (k = l) && json_eq x y && go xs ys
                       | _, _ => false
                       end) xs ys
  | _, _ => false
  end.

(** [json_contains_val]; the recursion is on the outer value, whose elements are
    tried against the whole of the inner one. *)
Fixpoint json_contains_val (outer inner : JsonVal) : bool :=
  match outer with
  | Object o_pairs =>
      match inner with
      | Object i_pairs =>
          forallb (fun ikv => existsb (fun okv => bool_decide (okv.1 = ikv.1) && json_contains_val okv.2 ikv.2) o_pairs)
            i_pairs
      | _ => json_eq outer inner
      end
  | Array o_items =>
      match inner with
      | Array i_items => forallb (fun iv => existsb (fun ov => json_contains_val ov iv) o_items) i_items
      | _ => existsb (fun ov => json_contains_val ov inner) o_items
      end
  | _ => json_eq outer inner
  end.

Definition jsonb_contains (outer inner : list N) : bool :=
  match decode outer, decode inner with
  | Ok o, Ok i => json_contains_val o i
  | _, _ => false
  end.

Definition jsonb_to_text (bytes : list N) : list N :=
  match decode bytes with
  | Ok (Str s) => s
  | Ok v => format_json v
  | _ => []
  end.

(** ** Induction *)

Section Induction.
Context (P : JsonVal -> Prop).
Hypothesis HNull : P Null.
Hypothesis HBool : forall b, P (Bool b).
Hypothesis HInt : forall n, P (Int n).
Hypothesis HFloat : forall f, P (Float f).
Hypothesis HStr : forall s, P (Str s).
Hypothesis HArray : forall items, Forall P items -> P (Array items).
Hypothesis HObject : forall pairs, Forall (fun kv => P kv.2) pairs -> P (Object pairs).

Fixpoint JsonVal_ind' (v : JsonVal) : P v :=
  match v with
  | Null => HNull
  | Bool b => HBool b
  | Int n => HInt n
  | Float f => HFloat f
  | Str s => HStr s
  | Array items =>
      HArray items ((fix go l : Forall P l :=
        match l with
        | [] => @List.Forall_nil _ P
        | x :: l => @List.Forall_cons _ P x l (JsonVal_ind' x) (go l)
        end) items)
  | Object pairs =>
      HObject pairs ((fix go l : Forall (fun kv => P kv.2) l :=
        match l with
        | [] => @List.Forall_nil _ _
        | kv :: l => @List.Forall_cons _ (fun kv => P kv.2) kv l (JsonVal_ind' kv.2) (go l)
        end) pairs)
  end.
End Induction.

(** ** The binary round trip *)

Definition str_ok (s : list N) : bool := utf8_valid s && (len s <? 2 ^ 32).

(** Values the Rust type has, with texts and collections a length field holds. *)
Fixpoint json_ok (v : JsonVal) : bool :=
  match v with
  | Int n => ((- 2 ^ 63 <=? n) && (n <? 2 ^ 63))%Z
  | Float f => f64_ok f
  | Str s => str_ok s
  | Array items => (len items <? 2 ^ 32) && forallb json_ok items
  | Object pairs => (len pairs <? 2 ^ 32) && forallb (fun kv => str_ok kv.1 && json_ok kv.2) pairs
  | _ => true
  end.

Lemma read_app n e a b : n = len a -> read n e (a ++ b) = Ok (a, b).
Proof.
  intros ->. unfold read. rewrite len_app. destruct (N.ltb_spec (len a + len b) (len a)); [lia|].
  by rewrite len_length, take_app_length, drop_app_length.
Qed.

Lemma read_str_eq s rest : str_ok s = true ->
  read_str (le_bytes 4 (u32 (len s)) ++ s ++ rest) = Ok (s, rest).
Proof.
  unfold str_ok. rewrite andb_true_iff, N.ltb_lt. intros [Hu Hl]. unfold read_str.
  rewrite read_app, bind_ok by (by rewrite len_le_bytes).
  rewrite le_value_le_bytes_small by apply wrap_lt. rewrite read_app, bind_ok by (by apply u32_small).
  by rewrite Hu.
Qed.

Lemma encode_val_length v : (1 <= length (encode_val v))%nat.
Proof. destruct v as [|[]| | | | |]; cbn; lia. Qed.

Lemma decode_items_eq dec items n rest :
  Forall (fun v => forall rest, dec (encode_val v ++ rest) = Ok (v, rest)) items -> (length items <= n)%nat ->
  decode_items dec n (len items) (concat (map encode_val items) ++ rest) = Ok (items, rest).
Proof.
  intros Hdec. revert n. induction Hdec as [|v items Hv _ IH]; intros n Hn; [by destruct n|].
  destruct n as [|n]; cbn in Hn; [lia|]. cbn [decode_items map concat].
  rewrite len_cons. destruct (N.eqb_spec (1 + len items) 0); [lia|].
  rewrite <- app_assoc, Hv, bind_ok. replace (1 + len items - 1) with (len items) by lia.
  by rewrite IH by lia.
Qed.

Lemma decode_pairs_eq dec pairs n rest :
  Forall (fun kv => forall rest, dec (encode_str kv.1 ++ rest) = Ok (Str kv.1, rest) /\
                                 dec (encode_val kv.2 ++ rest) = Ok (kv.2, rest)) pairs ->
  (length pairs <= n)%nat ->
  decode_pairs dec n (len pairs) (concat (map (fun kv => encode_str kv.1 ++ encode_val kv.2) pairs) ++ rest) =
    Ok (pairs, rest).
Proof.
  intros Hdec. revert n. induction Hdec as [|[k v] pairs Hv _ IH]; intros n Hn; [by destruct n|].
  destruct n as [|n]; cbn in Hn; [lia|]. cbn [decode_pairs map concat fst snd] in *.
  rewrite len_cons. destruct (N.eqb_spec (1 + len pairs) 0); [lia|].
  rewrite <- !app_assoc, (proj1 (Hv _)), bind_ok, (proj2 (Hv _)), bind_ok.
  replace (1 + len pairs - 1) with (len pairs) by lia. by rewrite IH by lia.
Qed.

(** The elements of a concatenation are no longer than it, and it is no shorter
    than their number. *)
Lemma concat_map_length {A} (f : A -> list N) l :
  Forall (fun x => (length (f x) <= length (concat (map f l)))%nat) l.
Proof.
  induction l as [|x l IH]; cbn; [constructor|]. rewrite length_app. constructor; [lia|].
  eapply Forall_impl; [exact IH|]. cbn. lia.
Qed.

Lemma concat_map_count {A} (f : A -> list N) l :
  (forall x, (1 <= length (f x))%nat) -> (length l <= length (concat (map f l)))%nat.
Proof. intros Hf. induction l as [|x l IH]; cbn; [lia|]. rewrite length_app. specialize (Hf x). lia. Qed.

(** [decode_tag] at each tag. *)
Section Tags.
Context (dec : list N -> json_result (JsonVal * list N)) (bytes : list N).

Lemma decode_tag_int : decode_tag dec TAG_INT64 bytes =
  ('(b, bytes) ← read 8 TruncatedInt64 bytes; Ok (Int (to_signed 64 (le_value b)), bytes)).
Proof. done. Qed.

Lemma decode_tag_float : decode_tag dec TAG_FLOAT64 bytes =
  ('(b, bytes) ← read 8 TruncatedFloat64 bytes; Ok (Float (f64_of_bits (le_value b)), bytes)).
Proof. done. Qed.

Lemma decode_tag_str : decode_tag dec TAG_STRING bytes = ('(s, bytes) ← read_str bytes; Ok (Str s, bytes)).
Proof. done. Qed.

Lemma decode_tag_array : decode_tag dec TAG_ARRAY bytes =
  ('(n, bytes) ← read 4 TruncatedArrayCount bytes;
   '(items, bytes) ← decode_items dec (length bytes) (le_value n) bytes;
   Ok (Array items, bytes)).
Proof. done. Qed.

Lemma decode_tag_object : decode_tag dec TAG_OBJECT bytes =
  ('(n, bytes) ← read 4 TruncatedObjectCount bytes;
   '(pairs, bytes) ← decode_pairs dec (length bytes) (le_value n) bytes;
   Ok (Object pairs, bytes)).
Proof. done. Qed.
End Tags.

Lemma decode_encode_str fuel s rest : str_ok s = true -> (1 <= fuel)%nat ->
  decode_val fuel (encode_str s ++ rest) = Ok (Str s, rest).
Proof.
  intros Hs Hf. destruct fuel as [|fuel]; [lia|]. unfold encode_str. cbn [app decode_val].
  rewrite decode_tag_str, <- app_assoc. by rewrite read_str_eq.
Qed.

Lemma decode_val_encode v fuel rest : json_ok v = true -> (length (encode_val v) <= fuel)%nat ->
  decode_val fuel (encode_val v ++ rest) = Ok (v, rest).
Proof.
  revert fuel rest.
  induction v as [|b|n|f|s|items IH|pairs IH] using JsonVal_ind'; intros fuel rest Hok Hf.
  5: { apply decode_encode_str; [done|]. cbn in Hf. lia. }
  all: destruct fuel as [|fuel];
    [match type of Hf with (length (encode_val ?v) <= _)%nat => pose proof (encode_val_length v); lia end|].
  all: cbn [encode_val app decode_val json_ok length] in *; rewrite <- ?app_assoc.
  - done.
  - by destruct b.
  - rewrite decode_tag_int, read_app, bind_ok by (by rewrite len_le_bytes).
    rewrite andb_true_iff, Z.leb_le, Z.ltb_lt in Hok.
    by rewrite le_value_le_bytes_small, to_of_signed by (done || apply of_signed_lt).
  - rewrite decode_tag_float, read_app, bind_ok by (by rewrite len_le_bytes).
    by rewrite le_value_le_bytes_small, f64_of_to_bits by (done || by apply f64_to_bits_lt).
  - rewrite andb_true_iff, N.ltb_lt in Hok. destruct Hok as [Hn Hok]. rewrite length_app in Hf.
    rewrite decode_tag_array, read_app, bind_ok by (by rewrite len_le_bytes).
    rewrite le_value_le_bytes_small, u32_small by (done || apply wrap_lt).
    rewrite decode_items_eq; [done| |].
    + pose proof (concat_map_length encode_val items) as Hlen. rewrite forallb_forall in Hok.
      rewrite Forall_forall in *. intros v Hin r.
      apply IH; [done|by apply Hok, list_elem_of_In|]. specialize (Hlen v Hin). lia.
    + rewrite length_app. pose proof (concat_map_count encode_val items encode_val_length). lia.
  - rewrite andb_true_iff, N.ltb_lt in Hok. destruct Hok as [Hn Hok]. rewrite length_app in Hf.
    rewrite decode_tag_object, read_app, bind_ok by (by rewrite len_le_bytes).
    rewrite le_value_le_bytes_small, u32_small by (done || apply wrap_lt).
    rewrite decode_pairs_eq; [done| |].
    + pose proof (concat_map_length (fun kv => encode_str kv.1 ++ encode_val kv.2) pairs) as Hlen.
      rewrite forallb_forall in Hok. rewrite Forall_forall in *. intros kv Hin r.
      specialize (Hok kv ltac:(by apply list_elem_of_In)). apply andb_prop in Hok as [Hk Hv].
      specialize (Hlen kv Hin). cbn beta in Hlen. rewrite length_app in Hlen. split.
      * apply decode_encode_str; [done|]. pose proof (encode_val_length kv.2). lia.
      * apply IH; [done|done|lia].
    + rewrite length_app.
      pose proof (concat_map_count (fun kv => encode_str kv.1 ++ encode_val kv.2) pairs) as Hc.
      etransitivity; [apply Hc|lia]. intros kv. rewrite length_app. cbn. lia.
Qed.

Lemma decode_encode_val v rest : json_ok v = true -> decode (encode_val v ++ rest) = Ok v.
Proof.
  intros Hok. unfold decode. rewrite decode_val_encode; [done|done|]. rewrite length_app. lia.
Qed.

End Jsonb.
