(* ===== verification/StorageJsonText.v ===== *)
(** * JSON text

    The printer and the parser of [crates/storage/src/jsonb.rs] are inverse to each
    other on values with ASCII texts, and containment is a preorder. *)

From Stdlib Require Import Ascii String.
From S2P Require Import Prelude Bytes Strings Float64 StorageJsonb.

Module JsonText.
Import Jsonb.

(** ** Strings *)

Lemma parse_chars_escape acc s rest : is_ascii s = true ->
  parse_chars acc (escape_json_str s ++ 34 :: rest) = Ok (acc ++ s, rest).
Proof.
  revert acc. induction s as [|c s IH]; intros acc Ha; [by rewrite app_nil_r|].
  cbn [is_ascii forallb] in Ha. apply andb_prop in Ha as [Hc Ha].
  unfold escape_json_str in *. cbn [map concat]. rewrite <- app_assoc.
  replace (acc ++ c :: s) with ((acc ++ [c]) ++ s) by (by rewrite <- app_assoc).
  rewrite <- IH by done. unfold escape_char.
  repeat match goal with |- context [c =? ?x] => destruct (N.eqb_spec c x); [by subst|] end.
  cbn [app parse_chars]. do 2 (rewrite (proj2 (N.eqb_neq c _)) by done).
  unfold latin1. by rewrite Hc.
Qed.

Lemma parse_string_quote s rest : is_ascii s = true -> parse_string (quote s ++ rest) = Ok (s, rest).
Proof.
  intros Ha. unfold parse_string, quote. cbn [app advance snd]. rewrite <- app_assoc. by apply parse_chars_escape.
Qed.

(** ** Numbers *)

(** The text behind a value: it does not go on with a number. *)
Definition stops (rest : list N) : bool :=
  match rest with
  | [] => true
  | c :: _ => negb (is_digit c || (c =? 46) || (c =? 101) || (c =? 69) || (c =? 43) || (c =? 45))
  end.

Lemma span_stop p a r : match r with c :: _ => p c = false | [] => True end ->
  span p (a ++ r) = ((span p a).1, (span p a).2 ++ r).
Proof.
  intros Hr. induction a as [|c a IH]; cbn [app span].
  - destruct r as [|c r]; [done|]. cbn. by rewrite Hr.
  - destruct (p c); [|done]. rewrite IH. by destruct (span p a).
Qed.

Lemma parse_number_app t rest : t <> [] -> stops rest = true ->
  parse_number (t ++ rest) =
    match parse_number t with
    | Ok (v, r) => Ok (v, r ++ rest)
    | Err e => Err e
    | Panic => Panic
    end.
Proof.
  intros Ht Hs.
  assert (Hc : match rest with
               | c :: _ => is_digit c = false /\ (c =? 46) = false /\ ((c =? 101) || (c =? 69)) = false /\
                           ((c =? 43) || (c =? 45)) = false
               | [] => True
               end).
  { destruct rest as [|c r]; [done|]. cbn [stops] in Hs.
    by destruct (is_digit c), (c =? 46), (c =? 101), (c =? 69), (c =? 43), (c =? 45). }
  assert (Hspan : forall s, span is_digit (s ++ rest) = ((span is_digit s).1, (span is_digit s).2 ++ rest)).
  { intros s. apply span_stop. by destruct rest; [|destruct Hc]. }
  assert (Hsign : scan_sign (t ++ rest) = ((scan_sign t).1, (scan_sign t).2 ++ rest)).
  { destruct t as [|c t]; [done|]. cbn [app scan_sign]. by destruct (c =? 45). }
  assert (Hfrac : forall s, scan_fraction (s ++ rest) = ((scan_fraction s).1, (scan_fraction s).2 ++ rest)).
  { intros [|c s]; cbn [app scan_fraction fst snd].
    - destruct rest as [|c r]; [done|]. destruct Hc as (_ & Hc & _). cbn [scan_fraction]. by rewrite Hc.
    - destruct (c =? 46); [|done]. rewrite Hspan. by destruct (span is_digit s). }
  assert (Hexp : forall s, scan_exponent (s ++ rest) = ((scan_exponent s).1, (scan_exponent s).2 ++ rest)).
  { intros [|c s]; cbn [app scan_exponent fst snd].
    - destruct rest as [|c r]; [done|]. destruct Hc as (_ & _ & Hc & _). cbn [scan_exponent]. by rewrite Hc.
    - destruct ((c =? 101) || (c =? 69)); [|done]. destruct s as [|d s]; cbn [app].
      + specialize (Hspan []). cbn [app span fst snd] in *.
        destruct rest as [|d r]; [done|]. destruct Hc as (_ & _ & _ & Hc). rewrite Hc. by rewrite Hspan.
      + destruct ((d =? 43) || (d =? 45)); [|change (d :: s ++ rest) with ((d :: s) ++ rest)];
          rewrite Hspan; by destruct (span is_digit _). }
  unfold parse_number. rewrite Hsign. destruct (scan_sign t) as [sign s1]. cbn [fst snd].
  rewrite Hspan. destruct (span is_digit s1) as [int s2]. cbn [fst snd].
  rewrite Hfrac. destruct (scan_fraction s2) as [[dot frac] s3]. cbn [fst snd].
  rewrite Hexp. destruct (scan_exponent s3) as [[exp et] s4]. cbn [fst snd].
  by repeat case_match.
Qed.

Lemma parse_number_int n : (- 2 ^ 63 <= n < 2 ^ 63)%Z -> parse_number (Z_to_string n) = Ok (Int n, []).
Proof.
  intros Hn.
  assert (Hspan : forall m, span is_digit (N_to_string m) = (N_to_string m, [])).
  { intros m. destruct (N_to_string_spec m) as (_ & Hd & _).
    induction (N_to_string m) as [|c s IH]; [done|]. inversion_clear Hd as [|? ? Hc Hs]. cbn. by rewrite Hc, IH. }
  assert (Hsign : forall m, scan_sign (N_to_string m) = ([], N_to_string m)).
  { intros m. destruct (N_to_string_spec m) as (_ & Hd & _). destruct (N_to_string m) as [|c s]; [done|].
    inversion_clear Hd as [|? ? Hc _]. cbn. destruct (N.eqb_spec c 45) as [->|]; [discriminate|done]. }
  assert (Hps : forall neg m, parse_signed neg (N_to_string m) =
    if neg then if (Z.of_N m <=? 2 ^ 63)%Z then Some (- Z.of_N m)%Z else None
    else if (Z.of_N m <? 2 ^ 63)%Z then Some (Z.of_N m) else None).
  { intros neg m. unfold parse_signed. destruct (N_to_string_spec m) as (-> & _ & Hne).
    by destruct (N_to_string m). }
  unfold parse_number, Z_to_string. destruct (Z.ltb_spec n 0).
  - cbn [scan_sign N.eqb Pos.eqb]. rewrite Hspan. cbn [scan_fraction scan_exponent].
    rewrite !bool_decide_true, Hps by done. cbn [andb].
    destruct (Z.leb_spec (Z.of_N (Z.to_N (- n))) (2 ^ 63)); [|lia]. do 3 f_equal. lia.
  - rewrite Hsign, Hspan. cbn [scan_fraction scan_exponent].
    rewrite !(bool_decide_true (_ = _)), bool_decide_false, Hps by done. cbn [andb].
    destruct (Z.ltb_spec (Z.of_N (Z.to_N n)) (2 ^ 63)); [|lia]. do 3 f_equal. lia.
Qed.

(** ** Values *)

(** The text starts a number. *)
Definition starts_number (t : list N) : bool :=
  match t with
  | c :: _ => (c =? 45) || is_digit c
  | [] => false
  end.

(** A whole number below [10 ^ 15]: the floats the printer writes with one decimal. *)
Definition whole_float (f : f64) : bool := f64_ok f && f64_is_integral f && f64_abs_lt_pow10 f 15.

Lemma span_digits n r : match r with c :: _ => is_digit c = false | [] => True end ->
  span is_digit (N_to_string n ++ r) = (N_to_string n, r).
Proof.
  intros Hr. rewrite span_stop by done. destruct (N_to_string_spec n) as (_ & Hd & _).
  assert (span is_digit (N_to_string n) = (N_to_string n, [])) as ->; [|done].
  induction (N_to_string n) as [|c s IH]; [done|]. inversion_clear Hd as [|? ? Hc Hs]. cbn. by rewrite Hc, IH.
Qed.

(** Its text: a sign, digits, and [.0]. *)
Lemma whole_float_text f : whole_float f = true ->
  exists (s : bool) n, format_float f = (if s then [45] else []) ++ N_to_string n ++ text ".0" /\
    (if s then f64_opp (f64_of_decimal (10 * n) (-1)) else f64_of_decimal (10 * n) (-1)) = f.
Proof.
  unfold whole_float, format_float. intros [[Hok Hi]%andb_true_iff Hlt]%andb_true_iff. rewrite Hi, Hlt. cbn [andb].
  destruct f as [s|s| |s m e]; try done; [exists s, 0; by destruct s|].
  cbn [f64_to_string_1 f64_is_integral] in *. destruct (ratio m e) as [p q] eqn:Er. apply Z.eqb_eq in Hi.
  assert (Hq : (0 < q)%Z) by (unfold ratio in Er; destruct (Z.leb_spec 0 e); injection Er as <- <-; lia).
  exists s, (Z.to_N (p / q)). split; [done|].
  rewrite (decimal_tenths s m e (p / q) Hok); [by destruct s|]. rewrite Er. cbn [snd]. f_equal.
  rewrite (Z.div_mod p q) at 1 by lia. lia.
Qed.

Lemma parse_number_float f : whole_float f = true -> parse_number (format_float f) = Ok (Float f, []).
Proof.
  intros Hf. destruct (whole_float_text f Hf) as (s & n & -> & Hv).
  assert (Hs : scan_sign ((if s then [45] else []) ++ N_to_string n ++ text ".0") = ((if s then [45] else []), N_to_string n ++ text ".0")).
  { destruct s; [done|]. cbn [app]. destruct (N_to_string_spec n) as (_ & Hd & Hne). destruct (N_to_string n) as [|c t]; [done|].
    inversion_clear Hd as [|? ? Hc _]. cbn. destruct (N.eqb_spec c 45) as [->|]; [discriminate|done]. }
  unfold parse_number. rewrite Hs, span_digits by done. change (scan_fraction (text ".0")) with (([46] : list N), ([48] : list N), ([] : list N)).
  cbn [scan_exponent]. rewrite (bool_decide_false ([46] = [])) by done. cbn [andb].
  destruct (N_to_string_spec n) as (Hval & _ & Hne). unfold parse_float, parse_f64.
  assert (Hd : digits_value (N_to_string n ++ [48]) = 10 * n).
  { unfold digits_value in *. rewrite foldl_app, Hval. cbn. lia. }
  rewrite Hd. destruct (N_to_string n ++ [48]) eqn:E; [by destruct (N_to_string n)|]. cbn -[f64_of_decimal f64_opp].
  rewrite <- Hv. by destruct s.
Qed.

Lemma float_starts_number f : whole_float f = true -> starts_number (format_float f) = true.
Proof.
  intros Hf. destruct (whole_float_text f Hf) as (s & n & -> & _). destruct s; [done|]. destruct (N_to_string_spec n) as (_ & Hd & Hne).
  destruct (N_to_string n) as [|c r]; [done|]. inversion_clear Hd as [|? ? Hc _]. cbn. rewrite Hc. apply orb_true_r.
Qed.

(** Values with ASCII texts and 64-bit integers, whose floats are whole numbers below
    [10 ^ 15]. *)
Fixpoint text_ok (v : JsonVal) : bool :=
  match v with
  | Int n => ((- 2 ^ 63 <=? n) && (n <? 2 ^ 63))%Z
  | Float f => whole_float f
  | Str s => is_ascii s
  | Array items => forallb text_ok items
  | Object pairs => forallb (fun kv => is_ascii kv.1 && text_ok kv.2) pairs
  | _ => true
  end.

Lemma parse_at_number value c s : (c =? 45) || is_digit c = true -> parse_at value c s = parse_number s.
Proof.
  intros Hc. assert (Hr : c = 45 \/ 48 <= c <= 57).
  { unfold is_digit, in_rng in Hc. rewrite orb_true_iff, andb_true_iff, N.eqb_eq, !N.leb_le in Hc. lia. }
  unfold parse_at. repeat (rewrite (proj2 (N.eqb_neq c _)) by lia).
  by rewrite Hc.
Qed.

Lemma skip_ws_id c s : is_graphic c = true -> skip_ws (c :: s) = c :: s.
Proof.
  unfold is_graphic, in_rng. rewrite andb_true_iff, !N.leb_le. intros Hc. cbn [skip_ws]. unfold is_space.
  by repeat (rewrite (proj2 (N.eqb_neq c _)) by lia).
Qed.

Lemma starts_number_graphic t : starts_number t = true -> exists c r, t = c :: r /\
  (c =? 45) || is_digit c = true /\ is_graphic c = true /\ c <> 93 /\ c <> 125.
Proof.
  destruct t as [|c r]; [done|]. cbn [starts_number]. intros Hc. exists c, r. split_and!; try done.
  all: unfold is_digit, is_graphic, in_rng in *; rewrite orb_true_iff, andb_true_iff, N.eqb_eq, !N.leb_le in Hc.
  - rewrite andb_true_iff, !N.leb_le. lia.
  - lia.
  - lia.
Qed.

Lemma starts_number_int n : starts_number (Z_to_string n) = true.
Proof.
  unfold Z_to_string. destruct (Z.ltb_spec n 0); [done|].
  destruct (N_to_string_spec (Z.to_N n)) as (_ & Hd & Hne). destruct (N_to_string (Z.to_N n)) as [|c r]; [done|].
  inversion_clear Hd as [|? ? Hc _]. cbn. rewrite Hc. apply orb_true_r.
Qed.

(** The first character of the text of a value. *)
Lemma format_head v : text_ok v = true -> exists c r, format_json v = c :: r /\
  is_graphic c = true /\ c <> 93 /\ c <> 125.
Proof.
  destruct v as [|b|n|f|s|items|pairs]; intros Hok; cbn [format_json].
  - by do 2 eexists.
  - destruct b; by do 2 eexists.
  - destruct (starts_number_graphic _ (starts_number_int n)) as (c & r & -> & _ & Hc). eauto.
  - destruct (starts_number_graphic _ (float_starts_number f Hok)) as (c & r & -> & _ & Hc). eauto.
  - by do 2 eexists.
  - by do 2 eexists.
  - by do 2 eexists.
Qed.

Lemma skip_comma s : skip_ws ([44] ++ s) = 44 :: s.
Proof. by apply skip_ws_id. Qed.

Lemma join_length sep l : Forall (fun x => (length x <= length (join sep l))%nat) l.
Proof.
  induction l as [|x [|y l] IH]; [constructor|by repeat constructor|].
  change (join sep (x :: y :: l)) with (x ++ sep ++ join sep (y :: l)). rewrite !length_app. constructor; [lia|].
  eapply Forall_impl; [exact IH|]. cbn beta. lia.
Qed.

Lemma join_count sep l : Forall (fun x => (1 <= length x)%nat) l -> (length l <= length (join sep l))%nat.
Proof.
  induction 1 as [|x l Hx Hl IH]; [done|]. destruct l as [|y l]; [done|].
  change (join sep (x :: y :: l)) with (x ++ sep ++ join sep (y :: l)). rewrite !length_app. cbn [length] in *. lia.
Qed.

Section Loops.
Context (value : list N -> json_result (JsonVal * list N)).

(** [value] reads the text of [v]. *)
Definition reads (v : JsonVal) : Prop :=
  text_ok v = true /\ forall rest, stops rest = true -> value (format_json v ++ rest) = Ok (v, rest).

Lemma value_skip v rest : reads v -> stops rest = true -> value (skip_ws (format_json v ++ rest)) = Ok (v, rest).
Proof.
  intros [Hok Hv] Hs. rewrite <- Hv by done. f_equal.
  destruct (format_head v Hok) as (c & r & -> & Hc & _). by apply skip_ws_id.
Qed.

Lemma array_loop_eq items n rest : items <> [] -> Forall reads items -> (length items <= n)%nat ->
  array_loop value n (join [44] (map format_json items) ++ 93 :: rest) = Ok (items, rest).
Proof.
  intros Hne Hr. revert n. induction Hr as [|v items Hv Hr IH]; intros n Hn; [done|].
  destruct n as [|n]; [cbn in Hn; lia|]. cbn [array_loop map]. destruct items as [|w items].
  - cbn [map join]. by rewrite value_skip.
  - cbn [map join]. rewrite <- !app_assoc, value_skip, bind_ok by done. cbn [app skip_ws].
    change (is_space 44) with false. cbn [N.eqb Pos.eqb].
    rewrite IH by (done || (cbn in *; lia)). done.
Qed.

Lemma object_loop_eq pairs n rest : pairs <> [] ->
  Forall (fun kv => is_ascii kv.1 = true /\ reads kv.2) pairs -> (length pairs <= n)%nat ->
  object_loop value n (join [44] (map (fun kv => quote kv.1 ++ [58] ++ format_json kv.2) pairs) ++ 125 :: rest) =
    Ok (pairs, rest).
Proof.
  intros Hne Hr. revert n. induction Hr as [|[k v] pairs [Hk Hv] Hr IH]; intros n Hn; [done|].
  cbn [fst snd] in *. destruct n as [|n]; [cbn in Hn; lia|].
  assert (Hround : forall r, stops r = true ->
    object_loop value (S n) (quote k ++ [58] ++ format_json v ++ r) =
      match skip_ws r with
      | c :: r =>
          if c =? 44 then '(kvs, s) ← object_loop value n r; Ok ((k, v) :: kvs, s)
          else if c =? 125 then Ok ([(k, v)], r)
          else Err (ExpectedCommaOr 125 (Some c))
      | [] => Err (ExpectedCommaOr 125 None)
      end).
  { intros r Hs. cbn [object_loop]. unfold quote at 1. rewrite <- app_comm_cons. rewrite skip_ws_id by done.
    rewrite app_comm_cons. fold (quote k). rewrite parse_string_quote, bind_ok by done.
    cbn [app]. rewrite skip_ws_id by done. cbn [advance]. rewrite bool_decide_true by done.
    by rewrite value_skip. }
  cbn [map]. destruct pairs as [|kv pairs].
  - cbn [map join fst snd]. rewrite <- !app_assoc. rewrite Hround by done. done.
  - change (join [44] (?x :: map ?f (kv :: pairs))) with (x ++ [44] ++ join [44] (map f (kv :: pairs))).
    cbn [fst snd]. rewrite <- !app_assoc, Hround, skip_comma by done. cbn [N.eqb Pos.eqb].
    rewrite IH by (done || (cbn in *; lia)). done.
Qed.

Lemma parse_array_eq items rest : Forall reads items ->
  parse_array value (91 :: join [44] (map format_json items) ++ 93 :: rest) = Ok (Array items, rest).
Proof.
  intros Hr. unfold parse_array. cbn [advance snd]. destruct items as [|v items]; [done|].
  assert (Hb : exists c r, join [44] (map format_json (v :: items)) ++ 93 :: rest = c :: r /\
    is_graphic c = true /\ c <> 93).
  { apply Forall_inv in Hr as [Hok _]. destruct (format_head v Hok) as (c & r & Hv & Hc & Hne & _).
    cbn [map join]. rewrite Hv. destruct (map format_json items); by do 2 eexists. }
  destruct Hb as (c & r & Hb & Hc & Hne). rewrite Hb, skip_ws_id, <- Hb by done.
  rewrite bool_decide_false by (rewrite Hb; cbn; congruence).
  rewrite array_loop_eq; [done|done|done|].
  rewrite length_app. pose proof (join_count [44] (map format_json (v :: items))) as Hcnt.
  rewrite length_map in Hcnt. etransitivity; [apply Hcnt|lia].
  apply Forall_fmap. eapply Forall_impl; [exact Hr|]. intros w [Hw _].
  destruct (format_head w Hw) as (d & r' & He & _). cbn. rewrite He. cbn. lia.
Qed.

Lemma parse_object_eq pairs rest : Forall (fun kv => is_ascii kv.1 = true /\ reads kv.2) pairs ->
  parse_object value
    (123 :: join [44] (map (fun kv => quote kv.1 ++ [58] ++ format_json kv.2) pairs) ++ 125 :: rest) =
    Ok (Object pairs, rest).
Proof.
  intros Hr. unfold parse_object. cbn [advance snd]. destruct pairs as [|kv pairs]; [done|].
  assert (Hb : exists r, join [44] (map (fun kv => quote kv.1 ++ [58] ++ format_json kv.2) (kv :: pairs)) ++
    125 :: rest = 34 :: r).
  { cbn [map join]. destruct (map _ pairs); by eexists. }
  destruct Hb as (r & Hb). rewrite Hb, skip_ws_id, <- Hb by done.
  rewrite bool_decide_false by (rewrite Hb; done).
  rewrite object_loop_eq; [done|done|done|].
  rewrite length_app.
  pose proof (join_count [44] (map (fun kv => quote kv.1 ++ [58] ++ format_json kv.2) (kv :: pairs))) as Hcnt.
  rewrite length_map in Hcnt. etransitivity; [apply Hcnt|lia].
  apply Forall_fmap, Forall_forall. intros w _. cbn. lia.
Qed.
End Loops.

Lemma parse_value_format v fuel rest : text_ok v = true -> (length (format_json v) <= fuel)%nat ->
  stops rest = true -> parse_value fuel (format_json v ++ rest) = Ok (v, rest).
Proof.
  revert fuel rest. induction v as [|b|n|f|s|items IH|pairs IH] using JsonVal_ind'; intros fuel rest Hok Hf Hs.
  all: destruct (format_head _ Hok) as (c & r & He & Hg & _).
  all: destruct fuel as [|fuel]; [rewrite He in Hf; cbn in Hf; lia|].
  all: cbn [parse_value]; rewrite He; rewrite <- app_comm_cons; rewrite skip_ws_id by done;
    rewrite app_comm_cons; rewrite <- He; cbn [format_json text_ok] in *.
  - injection He as <- <-. done.
  - destruct b; injection He as <- <-; done.
  - assert (Hn : (- 2 ^ 63 <= n < 2 ^ 63)%Z) by (rewrite andb_true_iff, Z.leb_le, Z.ltb_lt in Hok; lia).
    pose proof (starts_number_int n) as Hstart. rewrite He in Hstart.
    rewrite parse_at_number, parse_number_app, parse_number_int by (done || by rewrite He). done.
  - pose proof (float_starts_number f Hok) as Hstart. rewrite He in Hstart.
    rewrite parse_at_number, parse_number_app, parse_number_float by (done || by rewrite He). done.
  - injection He as <- <-. unfold parse_at. cbn [N.eqb Pos.eqb]. by rewrite parse_string_quote.
  - injection He as <- <-. change (parse_at ?v 91 ?s) with (parse_array v s).
    cbn [app length] in *. rewrite length_app in Hf. rewrite <- app_assoc. apply parse_array_eq.
    pose proof (join_length [44] (map format_json items)) as Hl. rewrite Forall_fmap in Hl.
    rewrite forallb_forall in Hok. rewrite Forall_forall in *. intros w Hin.
    assert (text_ok w = true) by (by apply Hok, list_elem_of_In). split; [done|]. intros rr Hrr.
    specialize (Hl w Hin). cbn in Hl. apply IH; try done. lia.
  - injection He as <- <-. change (parse_at ?v 123 ?s) with (parse_object v s).
    cbn [app length] in *. rewrite length_app in Hf. rewrite <- app_assoc. apply parse_object_eq.
    pose proof (join_length [44] (map (fun kv => quote kv.1 ++ 58 :: format_json kv.2) pairs)) as Hl.
    rewrite Forall_fmap in Hl. rewrite forallb_forall in Hok. rewrite Forall_forall in *. intros w Hin.
    specialize (Hok w ltac:(by apply list_elem_of_In)). apply andb_prop in Hok as [Hk Hv].
    split; [done|]. split; [done|]. intros rr Hrr. specialize (Hl w Hin). cbn beta in Hl. unfold compose in Hl. rewrite length_app in Hl.
    apply IH; try done. cbn [length] in Hl. lia.
Qed.

Lemma format_last v : text_ok v = true -> exists c, last (format_json v) = Some c /\ is_graphic c = true.
Proof.
  destruct v as [|b|n|f|s|items|pairs]; intros Hok; cbn [format_json].
  - by eexists.
  - destruct b; by eexists.
  - assert (Hd : forall m, exists c, last (N_to_string m) = Some c /\ is_graphic c = true).
    { intros m. destruct (N_to_string_spec m) as (_ & Hd & Hne).
      destruct (last (N_to_string m)) as [c|] eqn:E; [|by apply last_None in E].
      exists c. split; [done|]. apply last_Some in E as [l' E]. rewrite E in Hd.
      apply Forall_app in Hd as [_ Hd]. apply Forall_inv in Hd. unfold is_digit, is_graphic, in_rng in *.
      rewrite andb_true_iff, !N.leb_le in *. lia. }
    unfold Z_to_string. destruct (n <? 0)%Z; [|done]. destruct (Hd (Z.to_N (- n))) as (c & Hc & ?).
    exists c. rewrite last_cons, Hc. done.
  - destruct (whole_float_text f Hok) as (s & n & -> & _). exists 48. split; [|done].
    change (text ".0") with ([46] ++ [48] : list N). by rewrite !app_assoc, last_snoc.
  - exists 34. unfold quote. rewrite app_comm_cons, last_snoc. done.
  - exists 93. rewrite app_comm_cons, last_snoc. done.
  - exists 125. rewrite app_comm_cons, last_snoc. done.
Qed.

(** C27: The text of a value is read back as the value, through the binary format
    too: encoding the text gives the encoding of the value, and decoding that gives
    the text.  The values are those whose strings and keys are ASCII text, whose
    integers fit 64 bits, whose floats are whole numbers below [10 ^ 15] (the ones
    the printer writes with the decimal [.0]), and whose texts and collections are
    shorter than [2 ^ 32], the length fields of the binary format.  Other floats and
    texts are outside: a whole float from [10 ^ 15] on is printed without a decimal
    point and read back as an integer, or refused. *)
Theorem jsonb_text_roundtrip v : json_ok v = true -> text_ok v = true ->
  parse_json (format_json v) = Ok v /\
  encode_jsonb (format_json v) = Ok (encode_val v) /\
  decode_jsonb (encode_val v) = Ok (format_json v).
Proof.
  intros Hj Ht. assert (Hp : parse_json (format_json v) = Ok v).
  { unfold parse_json. rewrite <- (app_nil_r (format_json v)) at 2. by rewrite parse_value_format. }
  split; [done|]. split.
  - unfold encode_jsonb. destruct (format_head v Ht) as (c & r & He & Hc & _).
    destruct (format_last v Ht) as (d & Hd & Hd'). rewrite (trim_id _ c d), Hp by (done || by rewrite He). done.
  - unfold decode_jsonb. rewrite <- (app_nil_r (encode_val v)). by rewrite decode_encode_val.
Qed.

(** A document with every kind of value. *)
Definition sample : JsonVal :=
  Object [(text "a", Array [Int (-1); Float (f64_of_decimal 25 0); Float (f64_opp f64_zero); Null]);
          (text "b", Object [(text "quote", Str [34; 92; 10])]); (text "c", Bool true)].

Lemma jsonb_text_roundtrip_witness :
  parse_json (format_json sample) = Ok sample /\
  encode_jsonb (format_json sample) = Ok (encode_val sample) /\
  decode_jsonb (encode_val sample) = Ok (format_json sample).
Proof. apply (jsonb_text_roundtrip sample); vm_compute; reflexivity. Defined.

(** The float [10 ^ 15] comes back as an integer. *)
Lemma large_float_becomes_int :
  parse_json (format_json (Float (f64_of_decimal 1 15))) = Ok (Int (10 ^ 15)).
Proof. vm_compute. reflexivity. Qed.

(** ** Containment *)

Fixpoint no_nan (v : JsonVal) : bool :=
  match v with
  | Float SpecFloat.S754_nan => false
  | Array items => forallb no_nan items
  | Object pairs => forallb (fun kv => no_nan kv.2) pairs
  | _ => true
  end.

Lemma json_contains_refl v : no_nan v = true -> json_contains_val v v = true.
Proof.
  induction v as [|b|n|f|s|items IH|pairs IH] using JsonVal_ind'; intros Hn; cbn [no_nan json_contains_val json_eq] in *.
  - done.
  - by destruct b.
  - apply Z.eqb_refl.
  - rewrite f64_compare_refl; [done|]. by destruct f.
  - by apply bool_decide_true.
  - rewrite forallb_forall in *. intros x Hx. apply existsb_exists. exists x. split; [done|].
    rewrite Forall_forall in IH. apply IH; [by apply list_elem_of_In|auto].
  - rewrite forallb_forall in *. intros x Hx. apply existsb_exists. exists x. split; [done|].
    rewrite bool_decide_true by done. rewrite Forall_forall in IH. apply IH; [by apply list_elem_of_In|].
    by apply Hn.
Qed.

(** A value that is no collection contains what it is equal to. *)
Lemma json_eq_trans a b c : (forall l, a <> Array l) -> (forall l, a <> Object l) ->
  json_eq a b = true -> json_contains_val b c = true -> json_eq a c = true.
Proof.
  intros Ha Ho. destruct a as [|x|x|x|x|x|x]; try (by edestruct Ha); try (by edestruct Ho);
    destruct b as [|y|y|y|y|y|y]; try discriminate; cbn [json_eq json_contains_val]; try done.
  - by intros ->%eqb_prop.
  - by intros ->%Z.eqb_eq.
  - destruct c as [|z|z|z|z|z|z]; try done. destruct (f64_compare x y) as [[]|] eqn:E; try discriminate.
    intros _. destruct (f64_compare y z) as [[]|] eqn:E'; try discriminate. intros _.
    by rewrite (f64_compare_eq_trans _ _ _ E E').
  - by intros ->%bool_decide_eq_true.
Qed.

Lemma json_contains_trans a b c :
  json_contains_val a b = true -> json_contains_val b c = true -> json_contains_val a c = true.
Proof.
  revert b c. induction a as [|x|x|x|x|items IH|pairs IH] using JsonVal_ind'; intros b c Hab Hbc.
  1-5: eapply json_eq_trans; [..|exact Hab|exact Hbc]; done.
  - rewrite Forall_forall in IH.
    assert (Hone : forall w d, existsb (fun v => json_contains_val v w) items = true ->
      json_contains_val w d = true -> existsb (fun v => json_contains_val v d) items = true).
    { intros w d (v & Hin & Hv)%existsb_exists Hw. apply existsb_exists. exists v. split; [done|].
      eapply IH; [by apply list_elem_of_In|exact Hv|exact Hw]. }
    destruct b as [|y|y|y|y|bs|bs]; destruct c as [|z|z|z|z|cs|cs]; cbn [json_contains_val json_eq] in Hab, Hbc |- *;
      try discriminate Hbc; try (by eapply Hone; [exact Hab|]).
    1-5,7: apply existsb_exists in Hbc as (w & Hw & Hc); rewrite forallb_forall in Hab;
      (eapply Hone; [by apply Hab|exact Hc]).
    rewrite forallb_forall in *. intros d Hd. apply Hbc, existsb_exists in Hd as (w & Hw & Hd).
    eapply Hone; [by apply Hab|exact Hd].
  - rewrite Forall_forall in IH.
    destruct b as [|y|y|y|y|bs|bs]; try discriminate Hab.
    destruct c as [|z|z|z|z|cs|cs]; try discriminate Hbc. cbn [json_contains_val] in *.
    rewrite forallb_forall in *. intros d Hd.
    apply Hbc, existsb_exists in Hd as (w & Hw & [Hk%bool_decide_eq_true Hwd]%andb_prop).
    apply Hab, existsb_exists in Hw as (v & Hv & [Hk'%bool_decide_eq_true Hvw]%andb_prop).
    apply existsb_exists. exists v. split; [done|]. rewrite bool_decide_true by congruence.
    eapply IH; [by apply list_elem_of_In|exact Hvw|exact Hwd].
Qed.

(** On encoded documents without NaNs, [jsonb_contains] is a preorder. *)
Theorem jsonb_contains_preorder a b c :
  json_ok a = true -> json_ok b = true -> json_ok c = true -> no_nan a = true ->
  jsonb_contains (encode_val a) (encode_val a) = true /\
  (jsonb_contains (encode_val a) (encode_val b) = true -> jsonb_contains (encode_val b) (encode_val c) = true ->
   jsonb_contains (encode_val a) (encode_val c) = true).
Proof.
  intros Ha Hb Hc Hn. unfold jsonb_contains.
  assert (Hd : forall v, json_ok v = true -> decode (encode_val v) = Ok v).
  { intros v Hv. rewrite <- (app_nil_r (encode_val v)). by apply decode_encode_val. }
  rewrite !Hd by done. split; [by apply json_contains_refl|]. apply json_contains_trans.
Qed.

Lemma jsonb_contains_preorder_witness :
  jsonb_contains (encode_val sample) (encode_val (Object [(text "c", Bool true)])) = true.
Proof.
  apply (jsonb_contains_preorder sample (Object [(text "a", Array [Null]); (text "c", Bool true)])
           (Object [(text "c", Bool true)])); vm_compute; reflexivity.
Defined.

End JsonText.
