(* ===== verification/StorageError.v ===== *)
(** * Errors of the storage crate

    Models [crates/storage/src/error.rs]: the error type and the result type
    every storage operation returns. *)

From S2P Require Import Prelude.

(** [StorageError], [crates/storage/src/error.rs].  [Io] and
    [Corruption] carry no payload: the operating system's error code and the
    message text are not inspected anywhere. *)
Inductive StorageError : Type :=
  | Io
  | BufferFull
  | PageNotFound (id : N)
  | PageNotPinned (id : N)
  | InsufficientSpace (needed available : N)
  | InvalidChecksum (page_id : N)
  | SlotOutOfRange (slot : N)
  | Corruption.

Abbreviation result := (outcome StorageError).

