(* ===== verification/StoragePage.v ===== *)
(** * Slotted pages

    Models [crates/storage/src/page.rs]: the 8 KB page, its little-endian
    header, the slot array that grows up from the header and the tuple data
    that grows down from the special space.  A page is its byte array.  The
    well-formedness invariant [page_wf] says where the three regions lie, and
    [tuples] reads a page as the list of its slots, so that every operation
    is specified on that list. *)

From S2P Require Import Prelude Bytes StorageError.

Module Page.

(** ** Constants *)

Definition PAGE_SIZE : N := 8192.
Definition PAGE_HEADER_SIZE : N := 48.
Definition SLOT_SIZE : N := 4.
Definition INVALID_PAGE_ID : N := u64_max.
Definition FLAG_HAS_FREE_LINES : N := 1.
Definition TUPLE_HEADER_SIZE : N := 24.
Definition BTREE_SPECIAL_SIZE : N := 28.
Definition BTREE_FLAG_IS_ROOT : N := 1.
Definition BTREE_FLAG_IS_LEAF : N := 2.
Definition BTREE_FLAG_IS_RIGHTMOST : N := 4.
Definition BT_FLAGS : N := 0.
Definition BT_LEVEL : N := 2.
Definition BT_PREV : N := 4.
Definition BT_NEXT : N := 12.
Definition BT_LEFTMOST : N := 20.
Definition HDR_PAGE_ID : N := 0.
Definition HDR_LSN : N := 8.
Definition HDR_CHECKSUM : N := 16.
Definition HDR_FLAGS : N := 20.
Definition HDR_LOWER : N := 22.
Definition HDR_UPPER : N := 24.
Definition HDR_SPECIAL : N := 26.
Definition HDR_XID_BASE : N := 28.
Definition HDR_PRUNE_XID : N := 36.

(** ** Byte-level helpers

    [get_*] and [put_*] are the accesses at the constant header offsets, which
    are inside the 8192-byte array; [read_*] and [write_*] keep the bound check
    of the slice index for the offsets that depend on page contents. *)

Definition get_u16 (data : list N) (offset : N) : N := le_value data.[offset; 2].
Definition get_u32 (data : list N) (offset : N) : N := le_value data.[offset; 4].
Definition get_u64 (data : list N) (offset : N) : N := le_value data.[offset; 8].

Definition put_u16 (data : list N) (offset v : N) : list N := data.[offset <- le_bytes 2 v].
Definition put_u32 (data : list N) (offset v : N) : list N := data.[offset <- le_bytes 4 v].
Definition put_u64 (data : list N) (offset v : N) : list N := data.[offset <- le_bytes 8 v].

Definition read_u16 (data : list N) (offset : N) : result N :=
  bs ← slice data offset (offset + 2); Ok (le_value bs).
Definition read_u64 (data : list N) (offset : N) : result N :=
  bs ← slice data offset (offset + 8); Ok (le_value bs).
Definition write_u16 (data : list N) (offset v : N) : result (list N) :=
  copy_from_slice data offset (le_bytes 2 v).
Definition write_u64 (data : list N) (offset v : N) : result (list N) :=
  copy_from_slice data offset (le_bytes 8 v).

(** ** The page *)

Record Page : Type := mkPage { data : list N }.

Definition from_bytes (bytes : list N) : Page := mkPage bytes.
Definition as_bytes (p : Page) : list N := data p.

Definition page_id (p : Page) : N := get_u64 (data p) HDR_PAGE_ID.
Definition set_page_id (p : Page) (id : N) : Page := mkPage (put_u64 (data p) HDR_PAGE_ID id).
Definition lsn (p : Page) : N := get_u64 (data p) HDR_LSN.
Definition set_lsn (p : Page) (l : N) : Page := mkPage (put_u64 (data p) HDR_LSN l).
Definition checksum (p : Page) : N := get_u32 (data p) HDR_CHECKSUM.
Definition flags (p : Page) : N := get_u16 (data p) HDR_FLAGS.
Definition set_flags (p : Page) (f : N) : Page := mkPage (put_u16 (data p) HDR_FLAGS f).
Definition lower (p : Page) : N := get_u16 (data p) HDR_LOWER.
Definition set_lower (p : Page) (v : N) : Page := mkPage (put_u16 (data p) HDR_LOWER v).
Definition upper (p : Page) : N := get_u16 (data p) HDR_UPPER.
Definition set_upper (p : Page) (v : N) : Page := mkPage (put_u16 (data p) HDR_UPPER v).
Definition special (p : Page) : N := get_u16 (data p) HDR_SPECIAL.
Definition set_special (p : Page) (v : N) : Page := mkPage (put_u16 (data p) HDR_SPECIAL v).
Definition xid_base (p : Page) : N := get_u64 (data p) HDR_XID_BASE.
Definition set_xid_base (p : Page) (v : N) : Page := mkPage (put_u64 (data p) HDR_XID_BASE v).
Definition prune_xid (p : Page) : N := get_u32 (data p) HDR_PRUNE_XID.
Definition set_prune_xid (p : Page) (v : N) : Page := mkPage (put_u32 (data p) HDR_PRUNE_XID v).

(** [Page::new]. *)
Definition new (id : N) : Page :=
  let p := mkPage (replicate (N.to_nat PAGE_SIZE) 0) in
  let p := set_page_id p id in
  let p := set_lower p (u16 PAGE_HEADER_SIZE) in
  let p := set_upper p (u16 PAGE_SIZE) in
  set_special p (u16 PAGE_SIZE).

Definition free_space (p : Page) : N := upper p - lower p.

(** The subtraction is on [usize]; it wraps on a page whose [lower] lies
    inside the header. *)
Definition slot_count (p : Page) : N :=
  u16 (wsub 64 (lower p) PAGE_HEADER_SIZE / SLOT_SIZE).

Definition slot_base (slot_id : N) : N := PAGE_HEADER_SIZE + slot_id * SLOT_SIZE.

Definition read_slot (p : Page) (slot_id : N) : result (N * N) :=
  offset ← read_u16 (data p) (slot_base slot_id);
  length ← read_u16 (data p) (slot_base slot_id + 2);
  Ok (offset, length).

Definition write_slot (p : Page) (slot_id offset length : N) : result Page :=
  d ← write_u16 (data p) (slot_base slot_id) offset;
  d ← write_u16 d (slot_base slot_id + 2) length;
  Ok (mkPage d).

Definition is_slot_used (p : Page) (slot_id : N) : result bool :=
  if slot_count p <=? slot_id then Ok false
  else
    s ← read_slot p slot_id;
    Ok (negb (s.1 =? 0) || negb (s.2 =? 0)).

Definition insert_tuple (p : Page) (tuple : list N) : result (Page * N) :=
  let needed := SLOT_SIZE + len tuple in
  let available := free_space p in
  if available <? needed then Err (InsufficientSpace needed available)
  else
    let new_upper := upper p - len tuple in
    d ← copy_from_slice (data p) new_upper tuple;
    let p := mkPage d in
    let slot_id := slot_count p in
    p ← write_slot p slot_id (u16 new_upper) (u16 (len tuple));
    let p := set_upper p (u16 new_upper) in
    let p := set_lower p (wadd 16 (lower p) (u16 SLOT_SIZE)) in
    Ok (p, slot_id).

Definition get_tuple (p : Page) (slot_id : N) : result (list N) :=
  if slot_count p <=? slot_id then Err (SlotOutOfRange slot_id)
  else
    s ← read_slot p slot_id;
    if (s.1 =? 0) && (s.2 =? 0) then Err (SlotOutOfRange slot_id)
    else slice (data p) s.1 (s.1 + s.2).

Definition delete_tuple (p : Page) (slot_id : N) : result Page :=
  if slot_count p <=? slot_id then Err (SlotOutOfRange slot_id)
  else
    p ← write_slot p slot_id 0 0;
    Ok (set_flags p (N.lor (flags p) FLAG_HAS_FREE_LINES)).

(** [self.data.copy_within(a..b, dest)]. *)
Definition copy_within (d : list N) (a b dest : N) : result (list N) :=
  bs ← slice d a b; copy_from_slice d dest bs.

Definition insert_tuple_at (p : Page) (pos : N) (tuple : list N) : result (Page * N) :=
  let needed := SLOT_SIZE + len tuple in
  let available := free_space p in
  if available <? needed then Err (InsufficientSpace needed available)
  else
    let count := slot_count p in
    if count <? pos then Err (SlotOutOfRange pos)
    else
      let new_upper := upper p - len tuple in
      d ← copy_from_slice (data p) new_upper tuple;
      d ← (if pos <? count
           then copy_within d (slot_base pos) (slot_base count) (slot_base pos + SLOT_SIZE)
           else Ok d);
      d ← write_u16 d (slot_base pos) (u16 new_upper);
      d ← write_u16 d (slot_base pos + 2) (u16 (len tuple));
      let p := set_upper (mkPage d) (u16 new_upper) in
      let p := set_lower p (wadd 16 (lower p) (u16 SLOT_SIZE)) in
      Ok (p, pos).

Definition clear_tuples (p : Page) : result Page :=
  let sp := special p in
  old ← slice (data p) PAGE_HEADER_SIZE sp;
  let p := mkPage (data p).[PAGE_HEADER_SIZE <- replicate (length old) 0] in
  let p := set_lower p (u16 PAGE_HEADER_SIZE) in
  Ok (set_upper p (special p)).

(** ** B+ tree nodes: the special space at the end of the page *)

Definition init_btree_page (p : Page) (is_leaf is_root : bool) : Page :=
  let sp := u16 (PAGE_SIZE - BTREE_SPECIAL_SIZE) in
  let p := set_special p sp in
  let p := set_upper p sp in
  let p := set_lower p (u16 PAGE_HEADER_SIZE) in
  let flags := N.lor (N.lor (if is_root then BTREE_FLAG_IS_ROOT else 0)
                            (if is_leaf then BTREE_FLAG_IS_LEAF else 0))
                     BTREE_FLAG_IS_RIGHTMOST in
  let d := put_u16 (data p) (sp + BT_FLAGS) flags in
  let d := put_u16 d (sp + BT_LEVEL) 0 in
  let d := put_u64 d (sp + BT_PREV) INVALID_PAGE_ID in
  let d := put_u64 d (sp + BT_NEXT) INVALID_PAGE_ID in
  mkPage (put_u64 d (sp + BT_LEFTMOST) INVALID_PAGE_ID).

Definition set_bt16 (field : N) (p : Page) (v : N) : result Page :=
  d ← write_u16 (data p) (special p + field) v; Ok (mkPage d).
Definition set_bt64 (field : N) (p : Page) (v : N) : result Page :=
  d ← write_u64 (data p) (special p + field) v; Ok (mkPage d).

Definition btree_flags (p : Page) : result N := read_u16 (data p) (special p + BT_FLAGS).
Definition set_btree_flags : Page -> N -> result Page := set_bt16 BT_FLAGS.
Definition btree_level (p : Page) : result N := read_u16 (data p) (special p + BT_LEVEL).
Definition set_btree_level : Page -> N -> result Page := set_bt16 BT_LEVEL.
Definition btree_prev_page (p : Page) : result N := read_u64 (data p) (special p + BT_PREV).
Definition set_btree_prev_page : Page -> N -> result Page := set_bt64 BT_PREV.
Definition btree_next_page (p : Page) : result N := read_u64 (data p) (special p + BT_NEXT).
Definition set_btree_next_page : Page -> N -> result Page := set_bt64 BT_NEXT.
Definition btree_leftmost_child (p : Page) : result N := read_u64 (data p) (special p + BT_LEFTMOST).
Definition set_btree_leftmost_child : Page -> N -> result Page := set_bt64 BT_LEFTMOST.

(** ** Checksum

    [crc32fast::hash] is a third-party function: a parameter. *)
Section Checksum.
Variable crc32 : list N -> N.

Definition compute_checksum (p : Page) : N := crc32 (put_u32 (data p) HDR_CHECKSUM 0).
Definition verify_checksum (p : Page) : bool := compute_checksum p =? checksum p.
Definition update_checksum (p : Page) : Page :=
  mkPage (put_u32 (data p) HDR_CHECKSUM (compute_checksum p)).
End Checksum.

(** ** Well-formed pages and their contents *)

Definition slot (p : Page) (i : N) : N * N :=
  (get_u16 (data p) (slot_base i), get_u16 (data p) (slot_base i + 2)).

(** A slot is dead, or its tuple lies between [upper] and [special]. *)
Definition slot_wf (p : Page) (s : N * N) : Prop :=
  s = (0, 0) \/ (upper p <= s.1 /\ s.1 + s.2 <= special p).

Record page_wf (p : Page) : Prop := {
  wf_size : len (data p) = PAGE_SIZE;
  wf_bytes : bytes_ok (data p);
  wf_lower : lower p = slot_base (slot_count p);
  wf_upper : lower p <= upper p;
  wf_special : upper p <= special p;
  wf_end : special p <= PAGE_SIZE;
  wf_slots : forall i, i < slot_count p -> slot_wf p (slot p i)
}.

(** The tuple a slot points to; [None] for a dead slot. *)
Definition slot_tuple (p : Page) (i : N) : option (list N) :=
  let s := slot p i in
  if (s.1 =? 0) && (s.2 =? 0) then None else Some (data p).[s.1; s.2].

(** The abstract contents of a page: its slots in order. *)
Definition tuples (p : Page) : list (option (list N)) :=
  (fun i => slot_tuple p (N.of_nat i)) <$> seq 0 (N.to_nat (slot_count p)).

(** ** The abstract page

    What a page promises to its clients: a list of slots, some of them dead,
    and an amount of free space.  Offsets do not appear. *)

Record abs_page : Type := mkAbs {
  slots : list (option (list N));
  space : N;
  capacity : N
}.

Definition abs (p : Page) : abs_page :=
  mkAbs (tuples p) (free_space p) (special p - PAGE_HEADER_SIZE).

Inductive op : Type :=
  | OpInsert (t : list N)
  | OpInsertAt (pos : N) (t : list N)
  | OpGet (i : N)
  | OpUsed (i : N)
  | OpDelete (i : N)
  | OpClear.

Inductive reply : Type :=
  | RSlot (i : N)
  | RTuple (t : list N)
  | RBool (b : bool)
  | RUnit.

Definition abs_insert (a : abs_page) (pos : N) (t : list N) : result (abs_page * reply) :=
  if space a <? SLOT_SIZE + len t then Err (InsufficientSpace (SLOT_SIZE + len t) (space a))
  else if len (slots a) <? pos then Err (SlotOutOfRange pos)
  else Ok (mkAbs (take (N.to_nat pos) (slots a) ++ [Some t] ++ drop (N.to_nat pos) (slots a))
                 (space a - (SLOT_SIZE + len t)) (capacity a), RSlot pos).

Definition abs_step (o : op) (a : abs_page) : result (abs_page * reply) :=
  match o with
  | OpInsert t => abs_insert a (len (slots a)) t
  | OpInsertAt pos t => abs_insert a pos t
  | OpGet i =>
      match slots a !! N.to_nat i with
      | Some (Some t) => Ok (a, RTuple t)
      | _ => Err (SlotOutOfRange i)
      end
  | OpUsed i =>
      Ok (a, RBool match slots a !! N.to_nat i with Some (Some _) => true | _ => false end)
  | OpDelete i =>
      if len (slots a) <=? i then Err (SlotOutOfRange i)
      else Ok (mkAbs (<[N.to_nat i := None]> (slots a)) (space a) (capacity a), RUnit)
  | OpClear => Ok (mkAbs [] (capacity a) (capacity a), RUnit)
  end.

Definition page_step (o : op) (p : Page) : result (Page * reply) :=
  match o with
  | OpInsert t => r ← insert_tuple p t; Ok (r.1, RSlot r.2)
  | OpInsertAt pos t => r ← insert_tuple_at p pos t; Ok (r.1, RSlot r.2)
  | OpGet i => t ← get_tuple p i; Ok (p, RTuple t)
  | OpUsed i => b ← is_slot_used p i; Ok (p, RBool b)
  | OpDelete i => p ← delete_tuple p i; Ok (p, RUnit)
  | OpClear => p ← clear_tuples p; Ok (p, RUnit)
  end.

(** Runs operations in order; one that fails leaves the state as it was. *)
Fixpoint run {S} (step : op -> S -> result (S * reply)) (ops : list op) (s : S)
    : S * list (result reply) :=
  match ops with
  | [] => (s, [])
  | o :: ops =>
      match step o s with
      | Ok (s', r) => let '(s'', rs) := run step ops s' in (s'', Ok r :: rs)
      | Err e => let '(s'', rs) := run step ops s in (s'', Err e :: rs)
      | Panic => (s, [Panic])
      end
  end.

Definition op_ok (o : op) : Prop :=
  match o with
  | OpInsert t | OpInsertAt _ t => bytes_ok t
  | _ => True
  end.

(** ** Automation for field accesses *)

Ltac page_unfold :=
  unfold lower, upper, special, flags, page_id, lsn, checksum, xid_base, prune_xid,
    set_lower, set_upper, set_special, set_flags, set_page_id, set_lsn,
    set_xid_base, set_prune_xid, slot_base,
    put_u16, put_u32, put_u64, get_u16, get_u32, get_u64,
    HDR_PAGE_ID, HDR_LSN, HDR_CHECKSUM, HDR_FLAGS, HDR_LOWER, HDR_UPPER,
    HDR_SPECIAL, HDR_XID_BASE, HDR_PRUNE_XID,
    PAGE_HEADER_SIZE, SLOT_SIZE, PAGE_SIZE in *; cbn [data] in *.

(** Lengths of nested writes. *)
Ltac solve_len :=
  autorewrite with lens; repeat (rewrite len_write_at by solve_len);
  autorewrite with lens; lia.

(** Resolves a read through the writes that precede it. *)
Ltac read_through :=
  repeat first
    [ rewrite read_write_same by solve_len
    | rewrite read_write_disjoint by solve_len ].

Lemma from_as (pg : Page) : from_bytes (as_bytes pg) = pg.
Proof. by destruct pg. Qed.

Lemma as_from bs : as_bytes (from_bytes bs) = bs.
Proof. done. Qed.

Lemma slot_base_eq i : slot_base i = 48 + i * 4.
Proof. reflexivity. Qed.

Lemma slot_count_intro p n : n < 2048 -> lower p = slot_base n -> slot_count p = n.
Proof.
  intros Hn Hl. unfold slot_count. rewrite Hl, slot_base_eq.
  change PAGE_HEADER_SIZE with 48. change SLOT_SIZE with 4.
  rewrite wsub_small by lia. replace (48 + n * 4 - 48) with (n * 4) by lia.
  rewrite N.div_mul by lia. apply u16_small. lia.
Qed.

Lemma slot_count_bound p : page_wf p -> slot_count p <= 2036.
Proof.
  intros Hp. pose proof (wf_lower p Hp) as H. rewrite slot_base_eq in H.
  pose proof (wf_upper p Hp). pose proof (wf_special p Hp). pose proof (wf_end p Hp).
  unfold PAGE_SIZE in *. lia.
Qed.

Lemma read_u16_ok d off : off + 2 <= len d -> read_u16 d off = Ok (get_u16 d off).
Proof.
  intros. unfold read_u16. rewrite slice_ok by lia. cbn. unfold get_u16.
  do 3 f_equal. lia.
Qed.

Lemma write_u16_ok d off v : off + 2 <= len d -> write_u16 d off v = Ok (put_u16 d off v).
Proof. intros. apply copy_from_slice_ok. autorewrite with lens. lia. Qed.

Lemma read_slot_ok p i : slot_base i + 4 <= len (data p) -> read_slot p i = Ok (slot p i).
Proof.
  intros. unfold read_slot. rewrite !read_u16_ok by lia. reflexivity.
Qed.

Lemma length_tuples p : length (tuples p) = N.to_nat (slot_count p).
Proof. unfold tuples. rewrite length_fmap, length_seq. reflexivity. Qed.

Lemma lookup_tuples p i : i < slot_count p -> tuples p !! N.to_nat i = Some (slot_tuple p i).
Proof.
  intros. unfold tuples. rewrite list_lookup_fmap, lookup_seq_lt by lia. cbn.
  rewrite N2Nat.id. reflexivity.
Qed.

Lemma lookup_tuples_ge p i : slot_count p <= i -> tuples p !! N.to_nat i = None.
Proof. intros. apply lookup_ge_None. rewrite length_tuples. lia. Qed.

Lemma tuples_intro p (l : list (option (list N))) :
  len l = slot_count p ->
  (forall i, i < slot_count p -> l !! N.to_nat i = Some (slot_tuple p i)) ->
  tuples p = l.
Proof.
  intros Hl H. apply list_eq. intros i. destruct (decide (N.of_nat i < slot_count p)) as [Hi|Hi].
  - specialize (H _ Hi). rewrite Nat2N.id in H. rewrite H.
    rewrite <- (Nat2N.id i) at 1. apply lookup_tuples. done.
  - rewrite !lookup_ge_None_2; [done| |]; rewrite ?length_tuples; unfold len in Hl; lia.
Qed.

(** A slot keeps its tuple when its entry and the bytes it points to are kept. *)
Lemma slot_tuple_frame p p' i :
  slot p' i = slot p i ->
  (forall o n, slot p i = (o, n) -> (o, n) <> (0, 0) -> (data p').[o; n] = (data p).[o; n]) ->
  slot_tuple p' i = slot_tuple p i.
Proof.
  intros Hs Hr. unfold slot_tuple. rewrite Hs. destruct (slot p i) as [o n]. cbn.
  destruct (N.eqb_spec o 0), (N.eqb_spec n 0); cbn; try reflexivity;
    rewrite (Hr o n eq_refl); congruence.
Qed.

Lemma get_u16_bound d off : bytes_ok d -> get_u16 d off < 65536.
Proof.
  intros Hd. unfold get_u16.
  pose proof (le_value_bound _ (read_at_bytes_ok d off 2 Hd)) as H.
  eapply N.lt_le_trans; [exact H|]. rewrite len_read_at.
  change 65536 with (256 ^ 2). apply N.pow_le_mono_r; lia.
Qed.

Lemma le_value_u16 v : v < 65536 -> le_value (le_bytes 2 v) = v.
Proof. intros. apply le_value_le_bytes_small. exact H. Qed.

(** The facts of a well-formed page, with the constants as numerals. *)
Ltac page_facts Hp :=
  let H1 := fresh "Hsize" in let H2 := fresh "Hlow" in
  pose proof (wf_size _ Hp) as H1; pose proof (wf_lower _ Hp) as H2;
  pose proof (wf_upper _ Hp); pose proof (wf_special _ Hp); pose proof (wf_end _ Hp);
  pose proof (slot_count_bound _ Hp);
  change PAGE_SIZE with 8192 in *; change PAGE_HEADER_SIZE with 48 in *;
  change SLOT_SIZE with 4 in *; rewrite slot_base_eq in H2.

(** [get_tuple] and [is_slot_used] read the abstract contents. *)
Lemma get_tuple_spec p i : page_wf p ->
  get_tuple p i = match tuples p !! N.to_nat i with
                  | Some (Some t) => Ok t
                  | _ => Err (SlotOutOfRange i)
                  end.
Proof.
  intros Hp. page_facts Hp. unfold get_tuple. case_cmp.
  - rewrite lookup_tuples_ge by done. done.
  - rewrite lookup_tuples, read_slot_ok by (rewrite ?slot_base_eq; lia).
    cbn [mbind outcome_bind]. unfold slot_tuple.
    pose proof (wf_slots p Hp i ltac:(done)) as Hs. unfold slot_wf in Hs.
    destruct (slot p i) as [o n]. cbn [fst snd] in *.
    destruct (N.eqb_spec o 0), (N.eqb_spec n 0); cbn [andb]; try done;
      (destruct Hs as [Hs|[? ?]]; [congruence|]);
      rewrite slice_ok by lia; do 2 f_equal; lia.
Qed.

Lemma is_slot_used_spec p i : page_wf p ->
  is_slot_used p i = Ok match tuples p !! N.to_nat i with
                        | Some (Some _) => true
                        | _ => false
                        end.
Proof.
  intros Hp. page_facts Hp. unfold is_slot_used. case_cmp.
  - rewrite lookup_tuples_ge by done. done.
  - rewrite lookup_tuples, read_slot_ok by (rewrite ?slot_base_eq; lia).
    cbn [mbind outcome_bind]. unfold slot_tuple.
    destruct (slot p i) as [o n]. cbn [fst snd].
    destruct (N.eqb_spec o 0), (N.eqb_spec n 0); done.
Qed.

(** ** Inserting a tuple

    Both insertions write the tuple below [upper], put its slot at [pos] and
    move [upper] and [lower]; [insert_tuple] is the case [pos = slot_count]. *)

(** The slot entries from [pos] on, moved up by one. *)
Definition shifted (p : Page) (pos : N) (t : list N) : list N :=
  let d := (data p).[upper p - len t <- t] in
  d.[slot_base pos + 4 <- d.[slot_base pos; (slot_count p - pos) * 4]].

Definition inserted (p : Page) (pos : N) (t : list N) : Page :=
  let u := upper p - len t in
  mkPage (((((shifted p pos t).[slot_base pos <- le_bytes 2 u])
     .[slot_base pos + 2 <- le_bytes 2 (len t)]).[24 <- le_bytes 2 u])
     .[22 <- le_bytes 2 (lower p + 4)]).

(** Names the page's bounds and opens its fields down to buffer reads. *)
Ltac open_fields p Hp Hfit :=
  page_facts Hp; pose proof Hfit as Hf; unfold free_space in Hf;
  unfold inserted, shifted, slot;
  set (n := slot_count p) in *; set (l := lower p) in *; set (ub := upper p) in *;
  page_unfold.

Section Inserted.
Variables (p : Page) (pos : N) (t : list N).
Hypothesis Hp : page_wf p.
Hypothesis Hpos : pos <= slot_count p.
Hypothesis Hfit : 4 + len t <= free_space p.

Lemma shifted_lower : lower (mkPage (shifted p pos t)) = lower p.
Proof. open_fields p Hp Hfit. read_through. done. Qed.

Lemma shifted_size : len (shifted p pos t) = 8192.
Proof. open_fields p Hp Hfit. solve_len. Qed.

Lemma inserted_fields :
  lower (inserted p pos t) = lower p + 4 /\ upper (inserted p pos t) = upper p - len t /\
  special (inserted p pos t) = special p /\ page_id (inserted p pos t) = page_id p /\
  lsn (inserted p pos t) = lsn p /\ flags (inserted p pos t) = flags p.
Proof.
  open_fields p Hp Hfit. repeat split; read_through; rewrite ?le_value_u16 by lia; done.
Qed.

Lemma inserted_count : slot_count (inserted p pos t) = slot_count p + 1.
Proof.
  page_facts Hp. apply slot_count_intro; [lia|].
  destruct inserted_fields as [-> _]. rewrite slot_base_eq. lia.
Qed.

Lemma inserted_slot_below i : i < pos -> slot (inserted p pos t) i = slot p i.
Proof. intros Hi. open_fields p Hp Hfit. f_equal; read_through; done. Qed.

Lemma inserted_slot_above i : pos < i -> i <= slot_count p ->
  slot (inserted p pos t) i = slot p (i - 1).
Proof.
  intros Hi Hn. open_fields p Hp Hfit.
  f_equal; read_through; rewrite read_write_inside by solve_len;
    rewrite read_at_within by lia; read_through; do 2 f_equal; lia.
Qed.

Lemma inserted_slot_new : slot (inserted p pos t) pos = (upper p - len t, len t).
Proof. open_fields p Hp Hfit. f_equal; read_through; apply le_value_u16; lia. Qed.

Lemma inserted_read o k : upper p <= o -> (data (inserted p pos t)).[o; k] = (data p).[o; k].
Proof. intros Ho. open_fields p Hp Hfit. read_through. done. Qed.

Lemma inserted_read_new : (data (inserted p pos t)).[upper p - len t; len t] = t.
Proof. open_fields p Hp Hfit. read_through. done. Qed.

Lemma inserted_size : len (data (inserted p pos t)) = PAGE_SIZE.
Proof. open_fields p Hp Hfit. solve_len. Qed.

Lemma inserted_slot_wf i : i < slot_count p ->
  slot_wf (inserted p pos t) (slot p i).
Proof.
  intros Hi. destruct inserted_fields as (_ & Hu & Hs & _). unfold slot_wf. rewrite Hu, Hs.
  destruct (wf_slots p Hp i Hi) as [|[? ?]]; [by left | right; lia].
Qed.

Lemma inserted_wf : bytes_ok t -> page_wf (inserted p pos t).
Proof.
  intros Ht. page_facts Hp. pose proof Hfit as Hf. unfold free_space in Hf.
  destruct inserted_fields as (Hl & Hu & Hs & _).
  constructor; rewrite ?Hl, ?Hu, ?Hs, ?inserted_count, ?slot_base_eq;
    try (change PAGE_SIZE with 8192; lia).
  - apply inserted_size.
  - unfold inserted, shifted. cbn [data]. pose proof (wf_bytes _ Hp). auto 10 with bytes.
  - intros i Hi. destruct (N.lt_trichotomy i pos) as [?|[->|?]].
    + rewrite inserted_slot_below by lia. apply inserted_slot_wf. lia.
    + rewrite inserted_slot_new. unfold slot_wf. rewrite Hu, Hs. right. cbn. lia.
    + rewrite inserted_slot_above by lia. apply inserted_slot_wf. lia.
Qed.

Lemma inserted_tuple_old i j : j < slot_count p -> slot (inserted p pos t) i = slot p j ->
  slot_tuple (inserted p pos t) i = slot_tuple p j.
Proof.
  intros Hj Hs. unfold slot_tuple. rewrite Hs.
  pose proof (wf_slots p Hp j Hj) as Hw. unfold slot_wf in Hw.
  destruct (slot p j) as [o k]. cbn [fst snd] in *.
  destruct Hw as [[= -> ->]|[? ?]]; [done|]. rewrite inserted_read by done. done.
Qed.

Lemma inserted_tuples :
  tuples (inserted p pos t) = take (N.to_nat pos) (tuples p) ++ [Some t] ++ drop (N.to_nat pos) (tuples p).
Proof.
  pose proof inserted_count as Hc. page_facts Hp. pose proof Hfit as Hf.
  unfold free_space in Hf. pose proof (length_tuples p) as Hlen. apply tuples_intro.
  - rewrite !len_app, Hc. unfold len. rewrite length_take, length_drop, Hlen. cbn. lia.
  - intros i Hi. destruct (N.lt_trichotomy i pos) as [?|[->|?]].
    + rewrite lookup_app_l, lookup_take_lt by (rewrite ?length_take; lia).
      rewrite lookup_tuples by lia. f_equal. symmetry.
      apply inserted_tuple_old; [lia | apply inserted_slot_below; lia].
    + rewrite lookup_app_r by (rewrite length_take; lia).
      rewrite length_take, Hlen, Nat.min_l, Nat.sub_diag by lia. cbn. f_equal.
      unfold slot_tuple. rewrite inserted_slot_new. cbn [fst snd].
      rewrite inserted_read_new. case_cmp; cbn; done || lia.
    + rewrite lookup_app_r, length_take, lookup_app_r, lookup_drop by (rewrite ?length_take; cbn; lia).
      replace (_ + _)%nat with (N.to_nat (i - 1)) by (cbn; lia).
      rewrite lookup_tuples by lia. f_equal. symmetry.
      apply inserted_tuple_old; [lia | apply inserted_slot_above; lia].
Qed.

Lemma insert_tuple_at_eq : insert_tuple_at p pos t = Ok (inserted p pos t, pos).
Proof.
  page_facts Hp. pose proof Hfit as Hf. unfold free_space in Hf.
  pose proof shifted_size as Hss. pose proof shifted_lower as Hsl.
  unfold insert_tuple_at. unfold free_space. change SLOT_SIZE with 4.
  destruct (N.ltb_spec (upper p - lower p) (4 + len t)); [lia|].
  destruct (N.ltb_spec (slot_count p) pos); [lia|].
  rewrite copy_from_slice_ok by lia. rewrite bind_ok. rewrite !u16_small by lia.
  assert (Hsh : (if pos <? slot_count p
     then copy_within (data p).[upper p - len t <- t] (slot_base pos) (slot_base (slot_count p)) (slot_base pos + 4)
     else Ok (data p).[upper p - len t <- t]) = Ok (shifted p pos t)).
  { unfold copy_within, shifted. rewrite !slot_base_eq. case_cmp.
    - rewrite slice_ok, bind_ok by solve_len. rewrite copy_from_slice_ok by solve_len.
      do 4 f_equal. lia.
    - replace (slot_count p - pos) with 0 by lia. rewrite read_at_0, write_at_nil. done. }
  rewrite Hsh, bind_ok. rewrite slot_base_eq in *.
  rewrite write_u16_ok by lia. rewrite bind_ok. unfold put_u16 at 1.
  rewrite write_u16_ok by solve_len. rewrite !bind_ok. unfold put_u16 at 1.
  unfold inserted. rewrite slot_base_eq. do 3 f_equal.
  unfold set_lower, set_upper, lower at 1. cbn [data].
  change HDR_LOWER with 22. change HDR_UPPER with 24. unfold put_u16, get_u16.
  read_through. change (le_value (shifted p pos t).[22; 2]) with (lower (mkPage (shifted p pos t))).
  rewrite Hsl, wadd_small by lia. done.
Qed.
End Inserted.

Lemma insert_tuple_eq p t : page_wf p -> 4 + len t <= free_space p ->
  insert_tuple p t = Ok (inserted p (slot_count p) t, slot_count p).
Proof.
  intros Hp Hfit. page_facts Hp. pose proof Hfit as Hf. unfold free_space in Hf.
  assert (Hsh : shifted p (slot_count p) t = (data p).[upper p - len t <- t]).
  { unfold shifted. rewrite N.sub_diag. rewrite read_at_0, write_at_nil. done. }
  pose proof (shifted_size p (slot_count p) t Hp (N.le_refl _) Hfit) as Hss.
  pose proof (shifted_lower p (slot_count p) t Hp (N.le_refl _) Hfit) as Hsl.
  unfold insert_tuple, free_space. change SLOT_SIZE with 4.
  destruct (N.ltb_spec (upper p - lower p) (4 + len t)); [lia|].
  rewrite copy_from_slice_ok, bind_ok by lia. rewrite <- Hsh.
  rewrite !u16_small by lia.
  assert (slot_count (mkPage (shifted p (slot_count p) t)) = slot_count p) as ->.
  { unfold slot_count at 1. rewrite Hsl. done. }
  unfold write_slot. rewrite slot_base_eq. cbn [data].
  rewrite write_u16_ok by lia. rewrite bind_ok. unfold put_u16 at 1.
  rewrite write_u16_ok by solve_len. rewrite !bind_ok. unfold put_u16 at 1.
  unfold inserted. rewrite slot_base_eq. do 3 f_equal.
  unfold set_lower, set_upper, lower at 1. cbn [data].
  change HDR_LOWER with 22. change HDR_UPPER with 24. unfold put_u16, get_u16.
  read_through.
  change (le_value (shifted p (slot_count p) t).[22; 2]) with (lower (mkPage (shifted p (slot_count p) t))).
  rewrite Hsl, wadd_small by lia. done.
Qed.

(** ** Deleting a tuple *)

Definition deleted (p : Page) (i : N) : Page :=
  mkPage ((((data p).[slot_base i <- le_bytes 2 0]).[slot_base i + 2 <- le_bytes 2 0])
     .[20 <- le_bytes 2 (N.lor (flags p) 1)]).

Section Deleted.
Variables (p : Page) (i : N).
Hypothesis Hp : page_wf p.
Hypothesis Hi : i < slot_count p.

Ltac open_deleted :=
  page_facts Hp; pose proof Hi as Hi'; unfold deleted, slot; set (f := N.lor (flags p) 1);
  set (n := slot_count p) in *; set (l := lower p) in *; set (ub := upper p) in *; page_unfold.

Lemma delete_tuple_eq : delete_tuple p i = Ok (deleted p i).
Proof.
  page_facts Hp. pose proof Hi as Hi'. unfold delete_tuple, write_slot, deleted.
  rewrite !slot_base_eq. case_cmp; [lia|].
  rewrite write_u16_ok, bind_ok by lia. unfold put_u16 at 1.
  rewrite write_u16_ok, !bind_ok by solve_len. unfold put_u16 at 1. do 2 f_equal.
  unfold set_flags, flags, put_u16, get_u16. cbn [data].
  change HDR_FLAGS with 20. change FLAG_HAS_FREE_LINES with 1.
  read_through. done.
Qed.

Lemma deleted_fields :
  lower (deleted p i) = lower p /\ upper (deleted p i) = upper p /\
  special (deleted p i) = special p /\ page_id (deleted p i) = page_id p /\
  lsn (deleted p i) = lsn p.
Proof. open_deleted. repeat split; read_through; done. Qed.

Lemma deleted_slot j : j < slot_count p ->
  slot (deleted p i) j = if decide (j = i) then (0, 0) else slot p j.
Proof.
  intros Hj. case_decide as Hd; [subst j|]; open_deleted; f_equal; read_through; done.
Qed.

Lemma deleted_read o k : upper p <= o -> o + k <= special p ->
  (data (deleted p i)).[o; k] = (data p).[o; k].
Proof. intros Ho Hk. open_deleted. read_through. done. Qed.

Lemma deleted_count : slot_count (deleted p i) = slot_count p.
Proof. unfold slot_count. destruct deleted_fields as [-> _]. done. Qed.

Lemma deleted_wf : page_wf (deleted p i).
Proof.
  page_facts Hp. destruct deleted_fields as (Hl & Hu & Hs & _).
  constructor; rewrite ?Hl, ?Hu, ?Hs, ?deleted_count; try apply Hp.
  - open_deleted. solve_len.
  - unfold deleted. cbn [data]. pose proof (wf_bytes _ Hp). auto 10 with bytes.
  - intros j Hj. rewrite deleted_slot by done. unfold slot_wf. rewrite Hu, Hs.
    case_decide; [by left|]. apply Hp. done.
Qed.

Lemma deleted_tuples : tuples (deleted p i) = <[N.to_nat i := None]> (tuples p).
Proof.
  apply tuples_intro.
  - unfold len. rewrite length_insert, length_tuples, deleted_count. lia.
  - rewrite deleted_count. intros j Hj. pose proof Hi as Hi'.
    unfold slot_tuple. rewrite deleted_slot by done. case_decide as Hd.
    + subst. apply list_lookup_insert_eq. rewrite length_tuples. lia.
    + rewrite list_lookup_insert_ne, lookup_tuples by lia. f_equal.
      pose proof (wf_slots p Hp j Hj) as Hw. unfold slot_wf in Hw. unfold slot_tuple.
      destruct (slot p j) as [o k]. cbn [fst snd] in *.
      destruct Hw as [[= -> ->]|[? ?]]; [done|]. rewrite deleted_read by done. done.
Qed.
End Deleted.

(** ** Empty pages: [new], [clear_tuples], [init_btree_page] *)

(** A page whose header says it has no slot. *)
Lemma empty_page_wf p sp : len (data p) = PAGE_SIZE -> bytes_ok (data p) ->
  lower p = 48 -> upper p = sp -> special p = sp -> 48 <= sp <= PAGE_SIZE ->
  page_wf p /\ tuples p = [].
Proof.
  intros Hsz Hb Hl Hu Hs Hsp.
  assert (Hc : slot_count p = 0) by (apply slot_count_intro; [lia|exact Hl]).
  split; [constructor|]; rewrite ?Hl, ?Hu, ?Hs, ?Hc, ?slot_base_eq; try done; try lia.
  unfold tuples. rewrite Hc. done.
Qed.

Lemma bytes_ok_replicate n b : is_byte b -> bytes_ok (replicate n b).
Proof. intros. by apply Forall_replicate. Qed.

Lemma new_spec id : page_wf (new id) /\ tuples (new id) = [] /\
  free_space (new id) = 8144 /\ page_id (new id) = u64 id.
Proof.
  unfold new. set (d := replicate (N.to_nat PAGE_SIZE) 0).
  assert (Hd : len d = 8192) by (unfold d; apply len_replicate).
  assert (Hb : bytes_ok d) by (apply bytes_ok_replicate; done).
  clearbody d. change (u16 PAGE_HEADER_SIZE) with 48. change (u16 PAGE_SIZE) with 8192.
  rewrite (and_assoc (page_wf _)). split; [|split].
  - apply empty_page_wf with (sp := 8192); page_unfold; [solve_len|auto 10 with bytes|..|lia];
      read_through; apply le_value_u16; lia.
  - unfold free_space. page_unfold. read_through. done.
  - page_unfold. read_through. rewrite le_value_le_bytes. done.
Qed.

Lemma clear_tuples_spec p : page_wf p -> exists p', clear_tuples p = Ok p' /\
  page_wf p' /\ tuples p' = [] /\ free_space p' = special p - 48 /\
  special p' = special p /\ page_id p' = page_id p /\ lsn p' = lsn p /\
  forall o k, special p <= o -> (data p').[o; k] = (data p).[o; k].
Proof.
  intros Hp. page_facts Hp. pose proof (wf_bytes _ Hp) as Hb.
  unfold clear_tuples. change PAGE_HEADER_SIZE with 48.
  rewrite slice_ok, bind_ok by lia. eexists. split; [done|].
  set (z := replicate _ 0).
  assert (Hz : len z = special p - 48).
  { unfold z. rewrite len_replicate. fold (len (data p).[48; special p - 48]). solve_len. }
  assert (Hzb : bytes_ok z) by (by apply bytes_ok_replicate).
  clearbody z. change (u16 48) with 48.
  assert (Hsp : special (set_lower (mkPage (data p).[48 <- z]) 48) = special p).
  { set (sp := special p) in *. page_unfold. read_through. done. }
  rewrite Hsp. set (sp := special p) in *.
  rewrite (and_assoc (page_wf _)). split; [|unfold free_space; page_unfold; repeat split].
  - apply empty_page_wf with (sp := sp); page_unfold; [solve_len|auto 10 with bytes|..|lia];
      read_through; rewrite ?le_value_u16 by lia; done.
  - read_through. rewrite !le_value_u16 by lia. done.
  - read_through. done.
  - read_through. done.
  - read_through. done.
  - intros o k Ho. read_through. done.
Qed.

Lemma init_btree_page_spec p leaf root : len (data p) = PAGE_SIZE -> bytes_ok (data p) ->
  let p' := init_btree_page p leaf root in
  page_wf p' /\ tuples p' = [] /\ free_space p' = 8116 /\ special p' = 8164.
Proof.
  intros Hsz Hb. change PAGE_SIZE with 8192 in Hsz.
  unfold init_btree_page. change (u16 (PAGE_SIZE - BTREE_SPECIAL_SIZE)) with 8164.
  change (u16 PAGE_HEADER_SIZE) with 48. set (f := N.lor _ _). cbn zeta.
  unfold BT_FLAGS, BT_LEVEL, BT_PREV, BT_NEXT, BT_LEFTMOST.
  rewrite (and_assoc (page_wf _)). split; [|split].
  - apply empty_page_wf with (sp := 8164); page_unfold; [solve_len|auto 20 with bytes|..|lia];
      read_through; rewrite ?le_value_u16 by lia; done.
  - unfold free_space. page_unfold. read_through. done.
  - page_unfold. read_through. done.
Qed.

(** ** Refinement *)

Lemma len_tuples p : len (tuples p) = slot_count p.
Proof. unfold len. rewrite length_tuples. lia. Qed.

(** The LSN is a field of the header; the tuples do not depend on it. *)
Lemma set_lsn_spec p v : page_wf p -> v < 2 ^ 64 ->
  page_wf (set_lsn p v) /\ tuples (set_lsn p v) = tuples p /\ free_space (set_lsn p v) = free_space p /\
  lsn (set_lsn p v) = v.
Proof.
  intros Hp Hv. page_facts Hp. pose proof (wf_bytes _ Hp) as Hb.
  assert (Hfar : forall o n, 16 <= o -> (data (set_lsn p v)).[o; n] = (data p).[o; n]).
  { intros o n Ho. unfold set_lsn, put_u64. cbn [data]. change HDR_LSN with 8. by read_through. }
  assert (Hc : lower (set_lsn p v) = lower p /\ upper (set_lsn p v) = upper p /\ special (set_lsn p v) = special p).
  { unfold lower, upper, special, get_u16, HDR_LOWER, HDR_UPPER, HDR_SPECIAL. by rewrite !Hfar by lia. }
  destruct Hc as (Hl & Hu & Hs).
  assert (Hn : slot_count (set_lsn p v) = slot_count p) by (unfold slot_count; by rewrite Hl).
  assert (Hsl : forall i, slot (set_lsn p v) i = slot p i).
  { intros i. unfold slot, get_u16. by rewrite !Hfar by (rewrite slot_base_eq; lia). }
  split_and!.
  - constructor; rewrite ?Hl, ?Hu, ?Hs, ?Hn; try apply Hp.
    + unfold set_lsn, put_u64. cbn [data]. change HDR_LSN with 8. change PAGE_SIZE with 8192. solve_len.
    + unfold set_lsn, put_u64. cbn [data]. auto 10 with bytes.
    + intros i Hi. rewrite Hsl. unfold slot_wf. rewrite Hu, Hs. by apply Hp.
  - unfold tuples. rewrite Hn. apply list_fmap_ext. intros k i [Hk Hi]%lookup_seq.
    apply slot_tuple_frame; [apply Hsl|]. intros o n Ho Hne.
    assert (Hw : slot_wf p (slot p (N.of_nat i))) by (apply Hp; lia).
    rewrite Ho in Hw. destruct Hw as [?|[? _]]; [done|]. cbn in *. apply Hfar. lia.
  - unfold free_space. by rewrite Hl, Hu.
  - unfold lsn, set_lsn, put_u64, get_u64. cbn [data]. change HDR_LSN with 8. read_through.
    by apply le_value_le_bytes_small.
Qed.

Lemma abs_inserted p pos t : page_wf p -> pos <= slot_count p -> 4 + len t <= free_space p ->
  abs (inserted p pos t) =
    mkAbs (take (N.to_nat pos) (tuples p) ++ [Some t] ++ drop (N.to_nat pos) (tuples p))
          (free_space p - (4 + len t)) (special p - 48).
Proof.
  intros Hp Hpos Hfit. unfold abs. rewrite inserted_tuples by done.
  destruct (inserted_fields p pos t Hp Hpos Hfit) as (Hl & Hu & Hs & _).
  unfold free_space. rewrite Hl, Hu, Hs. f_equal. lia.
Qed.

Lemma insert_tuple_err p t : free_space p < 4 + len t ->
  insert_tuple p t = Err (InsufficientSpace (4 + len t) (free_space p)).
Proof. intros. unfold insert_tuple. change SLOT_SIZE with 4. case_cmp; [done|lia]. Qed.

Lemma insert_tuple_at_err p pos t :
  free_space p < 4 + len t \/ slot_count p < pos ->
  insert_tuple_at p pos t =
    if free_space p <? 4 + len t then Err (InsufficientSpace (4 + len t) (free_space p))
    else Err (SlotOutOfRange pos).
Proof. intros. unfold insert_tuple_at. change SLOT_SIZE with 4. case_cmp; done || lia. Qed.

(** One operation: the page stays well formed and answers as the abstract page. *)
Lemma page_step_refines o p : page_wf p -> op_ok o ->
  match page_step o p with
  | Ok (p', r) => page_wf p' /\ abs_step o (abs p) = Ok (abs p', r)
  | Err e => abs_step o (abs p) = Err e
  | Panic => False
  end.
Proof.
  intros Hp Ho. destruct o as [t|pos t|i|i|i|]; cbn [page_step abs_step op_ok] in *;
    unfold abs_insert; change (slots (abs p)) with (tuples p);
    change (space (abs p)) with (free_space p); change (capacity (abs p)) with (special p - 48);
    rewrite ?len_tuples; change SLOT_SIZE with 4.
  - destruct (N.ltb_spec (free_space p) (4 + len t)).
    + rewrite insert_tuple_err by done. done.
    + rewrite insert_tuple_eq by done. cbn. rewrite N.ltb_irrefl.
      rewrite abs_inserted by (done || lia). auto using inserted_wf, N.le_refl.
  - destruct (N.ltb_spec (free_space p) (4 + len t)) as [Hlt|Hge].
    + rewrite insert_tuple_at_err by auto. case_cmp; done || lia.
    + destruct (N.ltb_spec (slot_count p) pos).
      * rewrite insert_tuple_at_err by auto. case_cmp; done || lia.
      * rewrite insert_tuple_at_eq by done. cbn.
        rewrite abs_inserted by done. auto using inserted_wf.
  - rewrite get_tuple_spec by done. destruct (tuples p !! N.to_nat i) as [[t|]|]; done.
  - rewrite is_slot_used_spec by done. done.
  - destruct (N.leb_spec (slot_count p) i).
    + unfold delete_tuple. case_cmp; done || lia.
    + rewrite delete_tuple_eq by done. cbn. split; [by apply deleted_wf|].
      unfold abs. rewrite deleted_tuples by done.
      destruct (deleted_fields p i Hp ltac:(done)) as (Hl & Hu & Hs & _).
      unfold free_space. rewrite Hl, Hu, Hs. done.
  - destruct (clear_tuples_spec p Hp) as (p' & -> & Hw & Ht & Hf & Hs & _). cbn.
    split; [done|]. unfold abs. rewrite Ht, Hf, Hs. done.
Qed.

(** C1: A page refines the abstract slot list: starting from a well-formed
    page, any sequence of insertions (at the end or at a position), reads,
    liveness tests, deletions and clears never panics, keeps the page well
    formed, and returns exactly the results the abstract page returns. *)
Theorem page_refines_abs_page ops p : page_wf p -> Forall op_ok ops ->
  let '(p', rs) := run page_step ops p in
  page_wf p' /\ run abs_step ops (abs p) = (abs p', rs) /\
  Forall (fun r => is_panic r = false) rs.
Proof.
  intros Hp Hops. revert p Hp. induction Hops as [|o ops Ho _ IH]; intros p Hp; [done|].
  cbn [run]. pose proof (page_step_refines o p Hp Ho) as Hstep.
  destruct (page_step o p) as [[p1 r]|e|]; [| |done].
  - destruct Hstep as [Hw1 ->]. specialize (IH p1 Hw1).
    destruct (run page_step ops p1) as [p' rs]. destruct IH as (? & -> & ?). auto.
  - rewrite Hstep. specialize (IH p Hp).
    destruct (run page_step ops p) as [p' rs]. destruct IH as (? & -> & ?). auto.
Qed.

Lemma page_refines_abs_page_witness :
  let ops := [OpInsert [1; 2; 3]; OpInsertAt 0 [9]; OpDelete 1; OpGet 0; OpGet 1] in
  let '(p', rs) := run page_step ops (new 7) in
  page_wf p' /\ run abs_step ops (abs (new 7)) = (abs p', rs) /\
  Forall (fun r => is_panic r = false) rs.
Proof.
  apply page_refines_abs_page.
  - apply new_spec.
  - repeat constructor.
Defined.

End Page.
