(* ===== verification/StorageReplacer.v ===== *)
(** * LRU replacement

    Models [crates/storage/src/replacer.rs].  The abstract state is the list of
    tracked frames, least recently accessed first; the theorems say how each
    operation changes it, and that [evict] takes the first evictable frame. *)

From stdpp Require Import gmap.
From S2P Require Import Prelude Bytes ByteOrder BTreeMap.

Module Lru.

Record LruReplacer : Type := mkReplacer {
  evictable : gset N;
  access_order : list (N * N);
  frame_timestamp : gmap N N;
  clock : N
}.

Definition new (_capacity : N) : LruReplacer := mkReplacer ∅ [] ∅ 0.

Definition record_access (r : LruReplacer) (f : N) : LruReplacer :=
  let order :=
    match frame_timestamp r !! f with
    | Some old_ts => bt_remove N.ltb old_ts (access_order r)
    | None => access_order r
    end in
  let ts := wadd 64 (clock r) 1 in
  mkReplacer (evictable r) (bt_insert N.ltb ts f order) (<[f := ts]> (frame_timestamp r)) ts.

Definition set_evictable (r : LruReplacer) (f : N) (e : bool) : LruReplacer :=
  mkReplacer (if e then {[f]} ∪ evictable r else evictable r ∖ {[f]})
    (access_order r) (frame_timestamp r) (clock r).

Definition evict (r : LruReplacer) : LruReplacer * option N :=
  match list_find (fun e => e.2 ∈ evictable r) (access_order r) with
  | None => (r, None)
  | Some (_, (ts, f)) =>
      (mkReplacer (evictable r ∖ {[f]}) (bt_remove N.ltb ts (access_order r))
         (delete f (frame_timestamp r)) (clock r), Some f)
  end.

Definition remove (r : LruReplacer) (f : N) : LruReplacer :=
  mkReplacer (evictable r ∖ {[f]})
    (match frame_timestamp r !! f with
     | Some ts => bt_remove N.ltb ts (access_order r)
     | None => access_order r
     end)
    (delete f (frame_timestamp r)) (clock r).

Definition evictable_count (r : LruReplacer) : N := N.of_nat (size (evictable r)).

(** ** Invariant and abstract state *)

(** The frames in access order, oldest first. *)
Definition order (r : LruReplacer) : list N := (access_order r).*2.

Record replacer_wf (r : LruReplacer) : Prop := {
  wf_sorted : bt_sorted N.ltb (access_order r);
  wf_clock : Forall (fun e => e.1 <= clock r) (access_order r);
  wf_stamps : forall f ts, frame_timestamp r !! f = Some ts <-> (ts, f) ∈ access_order r
}.

Lemma replacer_new_wf c : replacer_wf (new c).
Proof.
  split; cbn; [constructor|constructor|]. intros f ts. rewrite lookup_empty, elem_of_nil. naive_solver.
Qed.

(** Dropping a frame's entry from the order. *)
Definition drop_frame (r : LruReplacer) (f : N) : list (N * N) :=
  match frame_timestamp r !! f with
  | Some ts => bt_remove N.ltb ts (access_order r)
  | None => access_order r
  end.

Section Wf.
Variable r : LruReplacer.
Hypothesis Hr : replacer_wf r.

Lemma stamp_unique ts ts' f : (ts, f) ∈ access_order r -> (ts', f) ∈ access_order r -> ts = ts'.
Proof. rewrite <- !(wf_stamps r Hr). congruence. Qed.

Lemma frame_unique ts f f' : (ts, f) ∈ access_order r -> (ts, f') ∈ access_order r -> f = f'.
Proof.
  rewrite <- !(bt_get_elem_of N.ltb) by apply Hr. congruence.
Qed.

Lemma drop_frame_filter f : drop_frame r f = List.filter (fun e => negb (e.2 =? f)) (access_order r).
Proof.
  unfold drop_frame. destruct (frame_timestamp r !! f) as [ts|] eqn:E.
  - rewrite (bt_remove_filter N.ltb) by apply Hr. apply (wf_stamps r Hr) in E.
    apply List.filter_ext_in. intros [ts' f'] Hin%list_elem_of_In. cbn.
    destruct (N.eqb_spec f' f) as [->|Hne]; cbn.
    + rewrite (stamp_unique ts' ts f) by done. by rewrite N.ltb_irrefl.
    + destruct (N.ltb_spec ts' ts), (N.ltb_spec ts ts'); cbn; try done.
      assert (ts' = ts) as -> by lia. by rewrite (frame_unique ts f' f) in Hne.
  - symmetry. rewrite List.forallb_filter_id; [done|]. apply List.forallb_forall.
    intros [ts' f'] Hin%list_elem_of_In. cbn. destruct (N.eqb_spec f' f) as [->|]; [|done].
    apply (wf_stamps r Hr) in Hin. congruence.
Qed.

Lemma elem_of_drop_frame f e : e ∈ drop_frame r f <-> e ∈ access_order r /\ e.2 <> f.
Proof.
  rewrite drop_frame_filter, list_elem_of_In, List.filter_In, <- list_elem_of_In.
  by rewrite negb_true_iff, N.eqb_neq.
Qed.

Lemma drop_frame_sorted f : bt_sorted N.ltb (drop_frame r f).
Proof. unfold drop_frame. case_match; [apply bt_remove_sorted|]; apply Hr. Qed.

Lemma drop_frame_order f : (drop_frame r f).*2 = List.filter (fun g => negb (g =? f)) (order r).
Proof.
  rewrite drop_frame_filter. unfold order.
  induction (access_order r) as [|[ts g] l IH]; cbn; [done|]. case_cmp; cbn; [done|]. by rewrite <- IH.
Qed.

Lemma record_access_wf f : clock r < 2 ^ 64 - 1 ->
  replacer_wf (record_access r f) /\
  order (record_access r f) = List.filter (fun g => negb (g =? f)) (order r) ++ [f].
Proof.
  intros Hc. unfold record_access. fold (drop_frame r f). rewrite wadd_small by lia.
  assert (Hlt : Forall (fun e => (e.1 <? clock r + 1) = true) (drop_frame r f)).
  { apply Forall_forall. intros e [He _]%elem_of_drop_frame. apply N.ltb_lt.
    pose proof (wf_clock r Hr) as Hcl. rewrite Forall_forall in Hcl. specialize (Hcl e He). lia. }
  rewrite (bt_insert_last N.ltb) by done. split.
  - split; cbn.
    + rewrite <- (bt_insert_last N.ltb) by done. apply bt_insert_sorted; [apply _|apply drop_frame_sorted].
    + apply Forall_app. split; [|repeat constructor; cbn; lia].
      eapply Forall_impl; [exact Hlt|]. intros e He%N.ltb_lt. cbn in *. lia.
    + intros g ts. rewrite lookup_insert_Some, elem_of_app, list_elem_of_singleton, elem_of_drop_frame.
      rewrite (wf_stamps r Hr). cbn. naive_solver.
  - unfold order. cbn. rewrite fmap_app. cbn. f_equal. apply drop_frame_order.
Qed.

Lemma remove_wf f :
  replacer_wf (remove r f) /\ order (remove r f) = List.filter (fun g => negb (g =? f)) (order r).
Proof.
  unfold remove. fold (drop_frame r f). split; [|apply drop_frame_order]. split; cbn.
  - apply drop_frame_sorted.
  - apply Forall_forall. intros e [He _]%elem_of_drop_frame.
    pose proof (wf_clock r Hr) as Hc. rewrite Forall_forall in Hc. auto.
  - intros g ts. rewrite lookup_delete_Some, elem_of_drop_frame, (wf_stamps r Hr). cbn. naive_solver.
Qed.

Lemma set_evictable_wf f e : replacer_wf (set_evictable r f e) /\ order (set_evictable r f e) = order r.
Proof. split; [|done]. destruct Hr. by split. Qed.

(** [evict] removes the frame it returns as [remove] does. *)
Lemma evict_remove f i ts : list_find (fun e => e.2 ∈ evictable r) (access_order r) = Some (i, (ts, f)) ->
  evict r = (remove r f, Some f).
Proof.
  intros Hf. unfold evict. rewrite Hf. f_equal. unfold remove.
  apply list_find_Some in Hf as (Hi & _ & _). apply list_elem_of_lookup_2 in Hi.
  apply (wf_stamps r Hr) in Hi. by rewrite Hi.
Qed.

Lemma evict_wf : replacer_wf (evict r).1.
Proof.
  destruct (list_find (fun e => e.2 ∈ evictable r) (access_order r)) as [[i [ts f]]|] eqn:E.
  - rewrite (evict_remove _ _ _ E). apply remove_wf.
  - unfold evict. by rewrite E.
Qed.

(** The frame [evict] returns: everything accessed before it is pinned. *)
Lemma evict_spec :
  match evict r with
  | (r', Some f) =>
      r' = remove r f /\ f ∈ evictable r /\
      exists older newer, order r = older ++ f :: newer /\ Forall (fun g => g ∉ evictable r) older
  | (r', None) => r' = r /\ Forall (fun g => g ∉ evictable r) (order r)
  end.
Proof.
  destruct (list_find (fun e => e.2 ∈ evictable r) (access_order r)) as [[i [ts f]]|] eqn:E.
  - rewrite (evict_remove _ _ _ E). split; [done|].
    apply list_find_Some in E as (Hi & He & Hlt). split; [done|].
    exists (take i (access_order r)).*2, (drop (S i) (access_order r)).*2. split.
    + unfold order. rewrite <- (take_drop_middle _ _ _ Hi) at 1. by rewrite fmap_app.
    + apply Forall_fmap, Forall_lookup. intros j e [Hj Hji]%lookup_take_Some. cbn. eauto.
  - unfold evict. rewrite E. split; [done|]. apply list_find_None in E. by apply Forall_fmap.
Qed.
End Wf.

(** ** Runs *)

Inductive op : Type :=
  | Access (f : N)
  | SetEvictable (f : N) (e : bool)
  | Remove (f : N)
  | Evict.

(** The specification: frames oldest first, and the set that may be evicted. *)
Definition spec_step (s : list N * gset N) (o : op) : list N * gset N * option N :=
  let '(l, ev) := s in
  let without f := List.filter (fun g => negb (g =? f)) l in
  match o with
  | Access f => (without f ++ [f], ev, None)
  | SetEvictable f e => (l, if e then {[f]} ∪ ev else ev ∖ {[f]}, None)
  | Remove f => (without f, ev ∖ {[f]}, None)
  | Evict =>
      match list_find (fun g => g ∈ ev) l with
      | Some (_, f) => (without f, ev ∖ {[f]}, Some f)
      | None => (l, ev, None)
      end
  end.

Definition lru_step (r : LruReplacer) (o : op) : LruReplacer * option N :=
  match o with
  | Access f => (record_access r f, None)
  | SetEvictable f e => (set_evictable r f e, None)
  | Remove f => (remove r f, None)
  | Evict => evict r
  end.

Fixpoint lru_run (r : LruReplacer) (ops : list op) : LruReplacer * list (option N) :=
  match ops with
  | [] => (r, [])
  | o :: ops =>
      let '(r, a) := lru_step r o in
      let '(r, l) := lru_run r ops in (r, a :: l)
  end.

Fixpoint spec_run (s : list N * gset N) (ops : list op) : list (option N) :=
  match ops with
  | [] => []
  | o :: ops => let '(s, a) := spec_step s o in a :: spec_run s ops
  end.

Lemma find_order r : list_find (fun g => g ∈ evictable r) (order r) =
  (fun p => (p.1, p.2.2)) <$> list_find (fun e => e.2 ∈ evictable r) (access_order r).
Proof. unfold order. by rewrite list_find_fmap. Qed.

Lemma lru_step_spec r o : replacer_wf r -> clock r < 2 ^ 64 - 1 ->
  let '(r', a) := lru_step r o in
  replacer_wf r' /\ clock r' <= clock r + 1 /\
  spec_step (order r, evictable r) o = (order r', evictable r', a).
Proof.
  intros Hr Hc. destruct o as [f|f e|f|]; cbn [lru_step spec_step].
  - destruct (record_access_wf r Hr f Hc) as [Hw Ho]. split_and!; [done| |by rewrite Ho].
    cbn. rewrite wadd_small by lia. lia.
  - destruct (set_evictable_wf r Hr f e) as [Hw Ho]. split_and!; [done|cbn; lia|done].
  - destruct (remove_wf r Hr f) as [Hw Ho]. split_and!; [done|cbn; lia|by rewrite Ho].
  - rewrite find_order.
    destruct (list_find (fun e => e.2 ∈ evictable r) (access_order r)) as [[i [ts f]]|] eqn:E; cbn.
    + rewrite (evict_remove r Hr _ _ _ E). destruct (remove_wf r Hr f) as [Hw Ho].
      split_and!; [done|cbn; lia|by rewrite Ho].
    + unfold evict. rewrite E. split_and!; [done|lia|done].
Qed.

(** The replacer is LRU: over any sequence of accesses, pin changes,
    removals and evictions it answers exactly as the specification that keeps
    the frames in access order and evicts the oldest evictable one. *)
Theorem replacer_is_lru ops capacity : len ops < 2 ^ 64 ->
  (lru_run (new capacity) ops).2 = spec_run ([], ∅) ops.
Proof.
  assert (Hgen : forall r, replacer_wf r -> clock r + len ops < 2 ^ 64 ->
    (lru_run r ops).2 = spec_run (order r, evictable r) ops).
  { induction ops as [|o ops IH]; intros r Hr Hc; cbn [lru_run spec_run]; [done|]. rewrite len_cons in Hc.
    pose proof (lru_step_spec r o Hr ltac:(lia)) as Hs. destruct (lru_step r o) as [r' a].
    destruct Hs as (Hr' & Hc' & ->). specialize (IH r' Hr' ltac:(lia)).
    destruct (lru_run r' ops) as [r'' l]. cbn in *. by rewrite IH. }
  intros Hl. apply (Hgen (new capacity)); [apply replacer_new_wf|cbn; lia].
Qed.

Lemma replacer_is_lru_witness :
  let ops := [Access 0; Access 1; Access 2; Access 0; SetEvictable 0 true;
              SetEvictable 2 true; Evict; Evict; Evict] in
  (lru_run (new 3) ops).2 = spec_run ([], ∅) ops.
Proof. apply replacer_is_lru. by vm_compute. Defined.

End Lru.
