(* ===== verification/StorageDisk.v ===== *)
(** * Page I/O

    Models [crates/storage/src/disk.rs].  The database file is a list of bytes:
    [read_exact_at] fails when the range is not in the file, [write_all_at]
    extends it.  The operating system's own failures (no space, bad device) are
    not modelled.  The class [PageStore] is what the buffer pool uses of a disk,
    and [PageStoreLaws] what it relies on; [DiskManager] satisfies both. *)

From S2P Require Import Prelude Bytes StorageError StoragePage.

(** ** The interface the buffer pool uses *)

Class PageStore (D : Type) : Type := {
  read_page : D -> N -> result (list N);
  write_page : D -> N -> list N -> result D;
  allocate_page : D -> result (D * N)
}.

Class PageStoreLaws (D : Type) `{PageStore D} : Type := {
  store_ok : D -> Prop;
  (** the page ids that have been handed out *)
  allocated : D -> N -> Prop;
  (** at least [n] more pages can be allocated *)
  room : D -> N -> Prop;
  (** page ids address a file of less than 2^63 bytes *)
  allocated_bound : forall d p, store_ok d -> allocated d p -> p < 2 ^ 50;
  room_le : forall d m n, m <= n -> room d n -> room d m;
  read_ok : forall d p, store_ok d -> allocated d p ->
    exists b, read_page d p = Ok b /\ len b = Page.PAGE_SIZE;
  write_ok : forall d p b, store_ok d -> allocated d p -> len b = Page.PAGE_SIZE ->
    exists d', write_page d p b = Ok d' /\ store_ok d' /\
      (forall q, allocated d' q <-> allocated d q) /\ (forall n, room d n -> room d' n) /\
      read_page d' p = Ok b /\
      forall q, allocated d q -> q <> p -> read_page d' q = read_page d q;
  allocate_ok : forall d n, store_ok d -> room d (n + 1) ->
    exists d' p, allocate_page d = Ok (d', p) /\ store_ok d' /\ room d' n /\ (forall q, allocated d q -> q < p) /\
      (forall q, allocated d' q <-> q = p \/ allocated d q) /\
      read_page d' p = Ok (replicate (N.to_nat Page.PAGE_SIZE) 0) /\
      forall q, allocated d q -> read_page d' q = read_page d q
}.

(** ** The disk manager *)

Module Disk.
Import Page.

Definition MAGIC : list N := [79; 73; 71; 82; 65; 80; 0; 0].
Definition FORMAT_VERSION : N := 1.

Record DiskManager : Type := mkDisk {
  file : list N;
  next_page_id : N
}.

(** [FileExt::read_exact_at] and [FileExt::write_all_at]. *)
Definition file_read (f : list N) (off n : N) : result (list N) :=
  if off + n <=? len f then Ok f.[off; n] else Err Io.

Definition file_write (f : list N) (off : N) (bs : list N) : list N :=
  let f := f ++ replicate (N.to_nat (off + len bs) - length f) 0 in
  f.[off <- bs].

Definition page_offset (p : N) : N := wrap 64 (p * PAGE_SIZE).

Definition write_header_page (d : DiskManager) (next : N) : DiskManager :=
  let header := replicate (N.to_nat PAGE_SIZE) 0 in
  let header := header.[0 <- MAGIC] in
  let header := header.[8 <- le_bytes 8 next] in
  let header := header.[16 <- le_bytes 4 FORMAT_VERSION] in
  mkDisk (file_write (file d) 0 header) (next_page_id d).

Definition create : DiskManager := write_header_page (mkDisk [] 1) 1.

Definition open (f : list N) : result DiskManager :=
  header ← file_read f 0 PAGE_SIZE;
  if bool_decide (header.[0; 8] <> MAGIC) then Err Corruption
  else Ok (mkDisk f (le_value header.[8; 8])).

Definition disk_read_page (d : DiskManager) (p : N) : result (list N) :=
  file_read (file d) (page_offset p) PAGE_SIZE.

Definition disk_write_page (d : DiskManager) (p : N) (bs : list N) : result DiskManager :=
  Ok (mkDisk (file_write (file d) (page_offset p) bs) (next_page_id d)).

Definition disk_allocate_page (d : DiskManager) : result (DiskManager * N) :=
  let p := next_page_id d in
  let d := mkDisk (file d) (wadd 64 p 1) in
  d ← disk_write_page d p (replicate (N.to_nat PAGE_SIZE) 0);
  Ok (write_header_page d (wadd 64 p 1), p).

Definition page_count (d : DiskManager) : N := next_page_id d.

#[global] Instance disk_store : PageStore DiskManager :=
  {| read_page := disk_read_page; write_page := disk_write_page; allocate_page := disk_allocate_page |}.

(** ** Files *)

Lemma len_file_write f off bs : len (file_write f off bs) = N.max (len f) (off + len bs).
Proof.
  unfold file_write. rewrite len_write_at; rewrite len_app, len_replicate; unfold len; lia.
Qed.

Lemma file_write_read f off bs off' n : off' + n <= off \/ off + len bs <= off' -> off' + n <= len f ->
  (file_write f off bs).[off'; n] = f.[off'; n].
Proof.
  intros Hd Hl. unfold file_write. rewrite read_write_disjoint.
  - by apply read_at_app_l.
  - rewrite len_app, len_replicate. unfold len. lia.
  - done.
Qed.

Lemma file_write_read_same f off bs : (file_write f off bs).[off; len bs] = bs.
Proof.
  unfold file_write. apply read_write_same; [|done].
  rewrite len_app, len_replicate. unfold len. lia.
Qed.

(** ** The invariant *)

Definition header_ok (d : DiskManager) : Prop :=
  (file d).[0; 8] = MAGIC /\ le_value (file d).[8; 8] = next_page_id d.

Record disk_ok (d : DiskManager) : Prop := {
  ok_next : 1 <= next_page_id d;
  ok_size : next_page_id d * PAGE_SIZE <= len (file d);
  ok_width : next_page_id d * PAGE_SIZE < 2 ^ 63;
  ok_header : header_ok d
}.

Definition disk_allocated (d : DiskManager) (p : N) : Prop := 1 <= p < next_page_id d.
Definition disk_room (d : DiskManager) (n : N) : Prop := (next_page_id d + n) * PAGE_SIZE < 2 ^ 63.

Lemma page_offset_small p : p * PAGE_SIZE < 2 ^ 63 -> page_offset p = p * PAGE_SIZE.
Proof. intros. apply wrap_small. lia. Qed.

Lemma disk_read_ok d p : disk_ok d -> p < next_page_id d ->
  disk_read_page d p = Ok (file d).[p * PAGE_SIZE; PAGE_SIZE].
Proof.
  intros [] Hp. unfold disk_read_page, file_read, PAGE_SIZE in *.
  rewrite page_offset_small by (unfold PAGE_SIZE; lia). unfold PAGE_SIZE. case_cmp; [done|lia].
Qed.

(** Writing a page other than the header page. *)
Lemma disk_write_ok d p bs : disk_ok d -> 1 <= p -> p * PAGE_SIZE < 2 ^ 63 -> len bs = PAGE_SIZE ->
  exists d', disk_write_page d p bs = Ok d' /\ next_page_id d' = next_page_id d /\ disk_ok d' /\
    (p + 1) * PAGE_SIZE <= len (file d') /\ (file d').[p * PAGE_SIZE; PAGE_SIZE] = bs /\
    forall q, q < next_page_id d -> q <> p -> 
      (file d').[q * PAGE_SIZE; PAGE_SIZE] = (file d).[q * PAGE_SIZE; PAGE_SIZE].
Proof.
  intros Hd Hp Hw Hb. destruct Hd as [Hn Hs Hwd [Hm Hnx]]. unfold PAGE_SIZE in *.
  eexists. split; [done|]. cbn. rewrite page_offset_small by (unfold PAGE_SIZE; lia).
  change PAGE_SIZE with 8192. split_and!; [done| | | |].
  - split; cbn; [done| |done|split; cbn].
    + unfold PAGE_SIZE. rewrite len_file_write. lia.
    + rewrite file_write_read by lia. done.
    + rewrite file_write_read by lia. done.
  - rewrite len_file_write. lia.
  - rewrite <- Hb. apply file_write_read_same.
  - intros q Hq Hne. apply file_write_read; lia.
Qed.

Lemma write_header_ok f next : 1 <= next -> next * PAGE_SIZE <= len f -> next * PAGE_SIZE < 2 ^ 63 ->
  let d' := write_header_page (mkDisk f next) next in
  disk_ok d' /\ next_page_id d' = next /\
  forall q, 1 <= q < next -> (file d').[q * PAGE_SIZE; PAGE_SIZE] = f.[q * PAGE_SIZE; PAGE_SIZE].
Proof.
  intros H1 Hs Hw d'. unfold PAGE_SIZE in *. unfold d', write_header_page. cbn [next_page_id file].
  set (h := write_at _ 16 _). assert (Hm : len MAGIC = 8) by done.
  assert (Hlen : len h = 8192) by (unfold h, PAGE_SIZE; solve_len).
  assert (Hr0 : h.[0; 8] = MAGIC) by (unfold h, PAGE_SIZE; read_through; done).
  assert (Hr8 : h.[8; 8] = le_bytes 8 next) by (unfold h, PAGE_SIZE; read_through; done).
  clearbody h.
  assert (Hin : forall o, o + 8 <= 8192 -> (file_write f 0 h).[o; 8] = h.[o; 8]).
  { intros o Ho. rewrite <- (file_write_read_same f 0 h) at 2. rewrite Hlen, read_at_within by lia.
    by rewrite N.add_0_l. }
  split_and!; [split; cbn; [done| |done|split; cbn]|done|].
  - unfold PAGE_SIZE. rewrite len_file_write. lia.
  - by rewrite Hin.
  - rewrite Hin, Hr8 by lia. apply le_value_le_bytes_small.
    apply N.lt_trans with (2 ^ 63); [lia|done].
  - intros q Hq. cbn. apply file_write_read; lia.
Qed.

#[global, refine] Instance disk_laws : PageStoreLaws DiskManager :=
  {| store_ok := disk_ok; allocated := disk_allocated; room := disk_room |}.
Proof.
  - intros d p [_ _ Hw _] [_ Hp]. unfold PAGE_SIZE in Hw. lia.
  - unfold disk_room. intros d m n Hmn Hr. eapply N.le_lt_trans; [|exact Hr]. apply N.mul_le_mono_r. lia.
  - intros d p Hd [H1 H2]. eexists. split; [by apply disk_read_ok|].
    destruct Hd as [_ Hs _ _]. rewrite len_read_at. unfold PAGE_SIZE in *. lia.
  - intros d p b Hd Hp Hb. pose proof (ok_width _ Hd) as Hw. destruct Hp as [Hp1 Hp2].
    destruct (disk_write_ok d p b) as (d' & He & Hn & Hd' & _ & Hrp & Hrq); [done|done| |done|].
    { unfold PAGE_SIZE in *. lia. }
    exists d'. unfold disk_allocated, disk_room. rewrite Hn. split_and!; [exact He|exact Hd'|done|done| |].
    + cbn. rewrite disk_read_ok by (assumption || lia). by rewrite Hrp.
    + intros q [Hq1 Hq2] Hne. cbn. rewrite !disk_read_ok by (assumption || lia). by rewrite Hrq.
  - intros d n Hd Hr. unfold disk_room in Hr. pose proof (ok_next _ Hd). pose proof (ok_size _ Hd).
    set (p := next_page_id d) in *. cbn [allocate_page disk_store]. unfold disk_allocate_page. fold p.
    rewrite wadd_small by (unfold PAGE_SIZE in *; lia).
    set (z := replicate (N.to_nat PAGE_SIZE) 0).
    assert (Hz : len z = PAGE_SIZE) by apply len_replicate.
    destruct (disk_write_ok d p z) as (d1 & He & Hn & Hd1 & Hsz & Hrp & Hrq); [done|done| |done|].
    { unfold PAGE_SIZE in *. lia. }
    unfold disk_write_page in *. injection He as He. cbn [file] in *. rewrite <- He in Hsz, Hrp, Hrq.
    cbn [file] in *. set (f := file_write (file d) (page_offset p) z) in *.
    destruct (write_header_ok f (p + 1)) as (Hd2 & Hn2 & Hr2); [lia|done|unfold PAGE_SIZE in *; lia|].
    exists (write_header_page (mkDisk f (p + 1)) (p + 1)), p. split; [done|].
    unfold disk_room, disk_allocated. rewrite Hn2. split_and!.
    + done.
    + eapply N.le_lt_trans; [|exact Hr]. apply N.mul_le_mono_r. lia.
    + intros q. lia.
    + intros q. lia.
    + cbn. rewrite disk_read_ok by (assumption || lia). rewrite Hr2 by lia. by rewrite Hrp.
    + intros q Hq. cbn. rewrite !disk_read_ok by (assumption || lia). rewrite Hr2 by lia. by rewrite Hrq by lia.
Defined.

(** ** Reopening *)

Inductive disk_run : DiskManager -> Prop :=
  | run_create : disk_run create
  | run_write d p bs d' : disk_run d -> disk_allocated d p -> len bs = PAGE_SIZE ->
      write_page d p bs = Ok d' -> disk_run d'
  | run_allocate d d' p : disk_run d -> disk_room d 1 -> allocate_page d = Ok (d', p) -> disk_run d'.

Lemma create_ok : disk_ok create.
Proof. split; [done|by vm_compute|done|]. split; by vm_compute. Qed.

Lemma disk_run_ok d : disk_run d -> disk_ok d.
Proof.
  induction 1 as [|d p bs d' _ IH Hp Hb Hw|d d' p _ IH Hr Ha]; [apply create_ok|..].
  - destruct (@write_ok _ _ disk_laws d p bs IH Hp Hb) as (d2 & Hw2 & Hok & _).
    replace d' with d2 by congruence. exact Hok.
  - destruct (@allocate_ok _ _ disk_laws d 0 IH Hr) as (d2 & p2 & Ha2 & Hok & _).
    replace d' with d2 by congruence. exact Hok.
Qed.

(** The page file survives a restart: after creation and any further
    allocations and page writes, reopening the file restores exactly the
    manager, so no page id is handed out twice. *)
Theorem open_restores_manager d : disk_run d -> open (file d) = Ok d.
Proof.
  intros [Hn Hs Hw [Hm Hx]]%disk_run_ok. unfold open, file_read, PAGE_SIZE in *.
  destruct (N.leb_spec (0 + 8192) (len (file d))); [|lia]. cbn [mbind outcome_bind].
  rewrite !read_at_within by lia. rewrite !N.add_0_l, Hm, Hx. by destruct d.
Qed.

Lemma open_restores_manager_witness :
  exists d p, allocate_page create = Ok (d, p) /\ open (file d) = Ok d.
Proof.
  destruct (allocate_page create) as [[d p]| |] eqn:E; [|discriminate E..].
  exists d, p. split; [done|].
  apply open_restores_manager. eapply run_allocate; [apply run_create|by vm_compute|exact E].
Defined.

End Disk.
