(* ===== verification/StorageBufferPool.v ===== *)
(** * The buffer pool

    Models [crates/storage/src/buffer_pool.rs] over any disk with the
    [PageStore] interface.  An operation returns the new pool and an outcome:
    on an error the pool keeps what had been changed before the error.
    The invariant [pool_wf] ties the page table, the frames, the free list and
    the replacer together; the refinement theorem says that clients of the pool
    see a plain map from page ids to page contents. *)

From stdpp Require Import gmap.
From S2P Require Import Prelude Bytes ByteOrder BTreeMap StorageError StoragePage StorageReplacer StorageDisk.

Module Pool.

Record Frame : Type := mkFrame {
  page : Page.Page;
  page_id : option N;
  pin_count : N;
  is_dirty : bool
}.

Definition empty_frame (f : N) : Frame := mkFrame (Page.new f) None 0 false.

Section PoolOps.
Context {D : Type} `{PageStore D}.

Record BufferPool : Type := mkPool {
  frames : list Frame;
  page_table : gmap N N;
  free_list : list N;
  replacer : Lru.LruReplacer;
  disk : D
}.

(** A pool operation: it may fail, and the pool it leaves is kept either way. *)
Definition pool_op (A : Type) : Type := BufferPool -> BufferPool * result A.

#[global] Instance pool_ret : MRet pool_op := fun A a b => (b, Ok a).
#[global] Instance pool_bind : MBind pool_op := fun A B k m b =>
  let '(b, r) := m b in
  match r with
  | Ok a => k a b
  | Err e => (b, Err e)
  | Panic => (b, Panic)
  end.

(** [self.frames[f]]: panics out of range. *)
Definition frame (f : N) : pool_op Frame := fun b => (b, or_panic (frames b !! N.to_nat f)).
Definition set_frame (f : N) (fr : Frame) : pool_op () := fun b =>
  (mkPool (<[N.to_nat f := fr]> (frames b)) (page_table b) (free_list b) (replacer b) (disk b), Ok ()).
Definition set_table (t : gmap N N) : pool_op () := fun b =>
  (mkPool (frames b) t (free_list b) (replacer b) (disk b), Ok ()).
Definition set_free (l : list N) : pool_op () := fun b =>
  (mkPool (frames b) (page_table b) l (replacer b) (disk b), Ok ()).
Definition set_replacer (r : Lru.LruReplacer) : pool_op () := fun b =>
  (mkPool (frames b) (page_table b) (free_list b) r (disk b), Ok ()).
Definition set_disk (d : D) : pool_op () := fun b =>
  (mkPool (frames b) (page_table b) (free_list b) (replacer b) d, Ok ()).
Definition get_pool : pool_op BufferPool := fun b => (b, Ok b).
Definition fail {A} (e : StorageError) : pool_op A := fun b => (b, Err e).
Definition lift {A} (r : result A) : pool_op A := fun b => (b, r).

Definition new (pool_size : N) (d : D) : BufferPool :=
  mkPool ((fun i => empty_frame (N.of_nat i)) <$> seq 0 (N.to_nat pool_size)) ∅
    (N.of_nat <$> seq 0 (N.to_nat pool_size)) (Lru.new pool_size) d.

Definition write_frame (p : N) (fr : Frame) : pool_op () :=
  b ← get_pool;
  d ← lift (write_page (disk b) p (Page.as_bytes (page fr)));
  set_disk d.

Definition find_free_frame : pool_op N :=
  b ← get_pool;
  match free_list b with
  | f :: rest => _ ← set_free rest; mret f
  | [] =>
      match Lru.evict (replacer b) with
      | (r, None) => fail BufferFull
      | (r, Some f) =>
          _ ← set_replacer r;
          fr ← frame f;
          fr ← (if is_dirty fr then
                  p ← lift (or_panic (page_id fr));
                  _ ← write_frame p fr;
                  mret (mkFrame (page fr) (page_id fr) (pin_count fr) false)
                else mret fr);
          b ← get_pool;
          _ ← set_table (match page_id fr with
                         | Some p => delete p (page_table b)
                         | None => page_table b
                         end);
          _ ← set_frame f (mkFrame (page fr) None (pin_count fr) (is_dirty fr));
          mret f
      end
  end.

(** Puts a page into a frame that [find_free_frame] returned, pinned once. *)
Definition install (f p : N) (pg : Page.Page) (dirty : bool) : pool_op () :=
  _ ← frame f;
  _ ← set_frame f (mkFrame pg (Some p) 1 dirty);
  b ← get_pool;
  _ ← set_table (<[p := f]> (page_table b));
  set_replacer (Lru.set_evictable (Lru.record_access (replacer b) f) f false).

Definition fetch_page (p : N) : pool_op N :=
  b ← get_pool;
  match page_table b !! p with
  | Some f =>
      fr ← frame f;
      _ ← set_frame f (mkFrame (page fr) (page_id fr) (wadd 32 (pin_count fr) 1) (is_dirty fr));
      _ ← set_replacer (Lru.record_access (Lru.set_evictable (replacer b) f false) f);
      mret f
  | None =>
      f ← find_free_frame;
      b ← get_pool;
      buf ← lift (read_page (disk b) p);
      _ ← install f p (Page.from_bytes buf) false;
      mret f
  end.

Definition new_page : pool_op (N * N) :=
  f ← find_free_frame;
  b ← get_pool;
  '(d, p) ← lift (allocate_page (disk b));
  _ ← set_disk d;
  _ ← install f p (Page.new p) true;
  mret (p, f).

(** [page] and an assignment through [page_mut]. *)
Definition page_of (f : N) : pool_op Page.Page := fr ← frame f; mret (page fr).
Definition put_page (f : N) (pg : Page.Page) : pool_op () :=
  fr ← frame f; set_frame f (mkFrame pg (page_id fr) (pin_count fr) (is_dirty fr)).

Definition unpin_page (p : N) (dirty : bool) : pool_op () :=
  b ← get_pool;
  f ← lift (ok_or (page_table b !! p) (PageNotFound p));
  fr ← frame f;
  if pin_count fr =? 0 then fail (PageNotPinned p)
  else
    let fr := mkFrame (page fr) (page_id fr) (pin_count fr - 1) (is_dirty fr || dirty) in
    _ ← set_frame f fr;
    if pin_count fr =? 0 then set_replacer (Lru.set_evictable (replacer b) f true) else mret ().

Definition flush_page (p : N) : pool_op () :=
  b ← get_pool;
  f ← lift (ok_or (page_table b !! p) (PageNotFound p));
  fr ← frame f;
  if is_dirty fr then
    _ ← write_frame p fr;
    set_frame f (mkFrame (page fr) (page_id fr) (pin_count fr) false)
  else mret ().

Fixpoint flush_pages (ps : list N) : pool_op () :=
  match ps with
  | [] => mret ()
  | p :: ps => _ ← flush_page p; flush_pages ps
  end.

Definition flush_all : pool_op () :=
  b ← get_pool;
  flush_pages (omap (fun fr => if is_dirty fr then page_id fr else None) (frames b)).

Definition delete_page (p : N) : pool_op () :=
  b ← get_pool;
  match page_table b !! p with
  | Some f =>
      fr ← frame f;
      if 0 <? pin_count fr then fail Corruption
      else
        _ ← set_table (delete p (page_table b));
        _ ← set_replacer (Lru.remove (replacer b) f);
        _ ← set_frame f (mkFrame (page fr) None 0 false);
        set_free (free_list b ++ [f])
  | None => mret ()
  end.

Definition pool_size (b : BufferPool) : N := len (frames b).
Definition free_frames (b : BufferPool) : N := len (free_list b).
Definition contains_page (b : BufferPool) (p : N) : bool := bool_decide (is_Some (page_table b !! p)).
End PoolOps.

Arguments BufferPool D : clear implicits.

(** ** The invariant *)

Section Invariant.
Context {D : Type} `{PageStoreLaws D}.
Implicit Types b : BufferPool D.

Abbreviation frame_at b f := (frames b !! N.to_nat f).

(** A frame that holds a page. *)
Definition loaded b (f : N) : Prop := exists fr, frame_at b f = Some fr /\ page_id fr <> None.

Record pool_wf b : Prop := {
  wf_table : forall p f, page_table b !! p = Some f <->
    exists fr, frame_at b f = Some fr /\ page_id fr = Some p;
  wf_free : forall f, f ∈ free_list b -> exists fr, frame_at b f = Some fr /\ page_id fr = None;
  wf_free_nodup : NoDup (free_list b);
  wf_replacer : Lru.replacer_wf (replacer b);
  wf_tracked : forall f, f ∈ Lru.order (replacer b) <-> loaded b f;
  wf_evictable : forall f, f ∈ Lru.evictable (replacer b) <->
    exists fr, frame_at b f = Some fr /\ page_id fr <> None /\ pin_count fr = 0;
  wf_store : store_ok (disk b);
  wf_alloc : forall p f, page_table b !! p = Some f -> allocated (disk b) p;
  wf_size : forall f fr, frame_at b f = Some fr -> page_id fr <> None ->
    len (Page.as_bytes (page fr)) = Page.PAGE_SIZE;
  wf_dirty : forall f fr, frame_at b f = Some fr -> page_id fr = None -> is_dirty fr = false;
  wf_clean : forall f fr p, frame_at b f = Some fr -> page_id fr = Some p ->
    pin_count fr = 0 -> is_dirty fr = false -> read_page (disk b) p = Ok (Page.as_bytes (page fr))
}.

(** No frame is lost: it is free or holds a page. *)
Definition no_leak b : Prop := forall f fr, frame_at b f = Some fr -> f ∈ free_list b \/ page_id fr <> None.

Definition unpinned b : Prop := forall f fr, frame_at b f = Some fr -> page_id fr <> None -> pin_count fr = 0.

(** What a client sees: the cached page, or the page on disk. *)
Definition content b (p : N) : result (list N) :=
  match page_table b !! p with
  | Some f => fr ← or_panic (frame_at b f); Ok (Page.as_bytes (page fr))
  | None => read_page (disk b) p
  end.

(** [b'] presents the same pages as [b]. *)
Definition same_content b b' : Prop :=
  (forall p, allocated (disk b') p <-> allocated (disk b) p) /\
  (forall p, allocated (disk b) p -> content b' p = content b p) /\
  (forall n, room (disk b) n -> room (disk b') n).

(** [f] is out of the pool's books, ready to take a page. *)
Definition spare b (f : N) : Prop :=
  (f ∉ free_list b) /\ exists fr, frame_at b f = Some fr /\ page_id fr = None.

Lemma frame_lt b f fr : frame_at b f = Some fr -> (N.to_nat f < length (frames b))%nat.
Proof. apply lookup_lt_Some. Qed.

Lemma frame_insert (l : list Frame) (f g : N) fr : (N.to_nat f < length l)%nat ->
  <[N.to_nat f := fr]> l !! N.to_nat g = if decide (g = f) then Some fr else l !! N.to_nat g.
Proof.
  intros Hl. case_decide as E; [subst; by apply list_lookup_insert_eq|].
  apply list_lookup_insert_ne. lia.
Qed.

Lemma table_inj b p q f : pool_wf b -> page_table b !! p = Some f -> page_table b !! q = Some f -> p = q.
Proof.
  intros Hb Hp Hq. apply (wf_table b Hb) in Hp as (fr & Hf & Hp), Hq as (fr' & Hf' & Hq). congruence.
Qed.

Lemma content_cached b p f fr : pool_wf b -> frame_at b f = Some fr -> page_id fr = Some p ->
  content b p = Ok (Page.as_bytes (page fr)).
Proof.
  intros Hb Hf Hp. unfold content.
  assert (page_table b !! p = Some f) as -> by (apply wf_table; eauto). by rewrite Hf.
Qed.

(** *** Changing one frame

    Every operation changes one frame and the books about it; these are the
    conditions under which the invariant survives. *)

Record frame_ok (d : D) (fr : Frame) : Prop := {
  fo_size : page_id fr <> None -> len (Page.as_bytes (page fr)) = Page.PAGE_SIZE;
  fo_dirty : page_id fr = None -> is_dirty fr = false;
  fo_alloc : forall p, page_id fr = Some p -> allocated d p;
  fo_clean : forall p, page_id fr = Some p -> pin_count fr = 0 -> is_dirty fr = false ->
    read_page d p = Ok (Page.as_bytes (page fr))
}.

Record one_frame b b' (f : N) (fr : Frame) : Prop := {
  of_frames : frames b' = <[N.to_nat f := fr]> (frames b);
  of_lt : (N.to_nat f < length (frames b))%nat;
  of_table : forall p g, page_table b' !! p = Some g <->
    if decide (g = f) then page_id fr = Some p else page_table b !! p = Some g;
  of_free : forall g, g ∈ free_list b' -> if decide (g = f) then page_id fr = None else g ∈ free_list b;
  of_free_nodup : NoDup (free_list b');
  of_replacer : Lru.replacer_wf (replacer b');
  of_order : forall g, g ∈ Lru.order (replacer b') <->
    if decide (g = f) then page_id fr <> None else g ∈ Lru.order (replacer b);
  of_evictable : forall g, g ∈ Lru.evictable (replacer b') <->
    if decide (g = f) then page_id fr <> None /\ pin_count fr = 0 else g ∈ Lru.evictable (replacer b);
  of_store : store_ok (disk b');
  of_alloc : forall p, allocated (disk b) p -> allocated (disk b') p;
  of_disk : forall p g, page_table b !! p = Some g -> g <> f ->
    read_page (disk b') p = read_page (disk b) p;
  of_frame : frame_ok (disk b') fr
}.

Lemma one_frame_at b b' f fr g : one_frame b b' f fr ->
  frame_at b' g = if decide (g = f) then Some fr else frame_at b g.
Proof. intros [-> Hlt]. by apply frame_insert. Qed.

Lemma one_frame_len b b' f fr : one_frame b b' f fr -> length (frames b') = length (frames b).
Proof. intros [-> _]. apply length_insert. Qed.

Lemma one_frame_wf b b' f fr : pool_wf b -> one_frame b b' f fr -> pool_wf b'.
Proof.
  intros Hb Ho. pose proof (one_frame_at b b' f fr) as Hat. pose proof (of_frame _ _ _ _ Ho) as Hfr.
  assert (Hself : frame_at b' f = Some fr) by (rewrite Hat, decide_True; done).
  assert (Hother : forall g, g <> f -> frame_at b' g = frame_at b g)
    by (intros; rewrite Hat, decide_False; done).
  split; try apply Ho.
  - intros p g. rewrite (of_table _ _ _ _ Ho). case_decide as E; [subst|].
    + rewrite Hself. naive_solver.
    + rewrite Hother by done. apply Hb.
  - intros g Hg%(of_free _ _ _ _ Ho). case_decide as E; [subst; rewrite Hself; eauto|].
    rewrite Hother by done. by apply Hb.
  - intros g. rewrite (of_order _ _ _ _ Ho). unfold loaded. case_decide as E; [subst|].
    + rewrite Hself. naive_solver.
    + rewrite Hother by done. apply Hb.
  - intros g. rewrite (of_evictable _ _ _ _ Ho). case_decide as E; [subst|].
    + rewrite Hself. naive_solver.
    + rewrite Hother by done. apply Hb.
  - intros p g. rewrite (of_table _ _ _ _ Ho). case_decide; intros Hp; [by apply Hfr|].
    apply Ho. by eapply Hb.
  - intros g fr'. destruct (decide (g = f)) as [->|Hg]; [rewrite Hself; intros [= <-]; apply Hfr|].
    rewrite Hother by done. by apply Hb.
  - intros g fr'. destruct (decide (g = f)) as [->|Hg]; [rewrite Hself; intros [= <-]; apply Hfr|].
    rewrite Hother by done. by apply Hb.
  - intros g fr' p. destruct (decide (g = f)) as [->|Hg]; [rewrite Hself; intros [= <-]; apply Hfr|].
    rewrite Hother by done. intros Hg' Hp ? ?.
    rewrite (of_disk _ _ _ _ Ho p g); [by eapply Hb|apply wf_table; eauto|done].
Qed.

(** The pages other than the frame's are presented as before. *)
Lemma one_frame_content b b' f fr p : pool_wf b -> one_frame b b' f fr ->
  (forall q, allocated (disk b) q -> page_table b !! q = None -> page_id fr <> Some q ->
     read_page (disk b') q = read_page (disk b) q) ->
  allocated (disk b) p -> page_id fr <> Some p -> page_table b !! p <> Some f ->
  content b' p = content b p.
Proof.
  intros Hb Ho Hrd Ha Hne Hnf. unfold content.
  destruct (page_table b !! p) as [g|] eqn:Hg.
  - assert (g <> f) by congruence.
    assert (page_table b' !! p = Some g) as -> by (apply (of_table _ _ _ _ Ho); by rewrite decide_False).
    rewrite (one_frame_at b b' f fr), decide_False by done. done.
  - destruct (page_table b' !! p) as [g|] eqn:Hg'; [|by apply Hrd].
    apply (of_table _ _ _ _ Ho) in Hg'. case_decide; congruence.
Qed.

(** *** Taking a frame *)

Lemma take_free b f rest : pool_wf b -> free_list b = f :: rest ->
  let b' := mkPool (frames b) (page_table b) rest (replacer b) (disk b) in
  pool_wf b' /\ spare b' f /\ same_content b b'.
Proof.
  intros Hb Hf b'. pose proof (wf_free_nodup b Hb) as Hnd. rewrite Hf in Hnd.
  apply NoDup_cons in Hnd as [Hn Hnd]. destruct Hb. split_and!; try done.
  - split; try done. intros g Hg. apply wf_free0. rewrite Hf. by right.
  - split; [done|]. apply wf_free0. rewrite Hf. by left.
Qed.

(** The pool after the frame [f] of page [p] was written back and emptied. *)
Definition evicted b (f p : N) (fr : Frame) (d : D) : BufferPool D :=
  mkPool (<[N.to_nat f := mkFrame (page fr) None (pin_count fr) false]> (frames b))
    (delete p (page_table b)) (free_list b) (Lru.remove (replacer b) f) d.

(** [d] is the disk of [b] with page [p] brought up to date. *)
Record synced b (p : N) (bs : list N) (d : D) : Prop := {
  sy_store : store_ok d;
  sy_alloc : forall q, allocated d q <-> allocated (disk b) q;
  sy_room : forall n, room (disk b) n -> room d n;
  sy_page : read_page d p = Ok bs;
  sy_other : forall q, allocated (disk b) q -> q <> p -> read_page d q = read_page (disk b) q
}.

Lemma evicted_one_frame b f p fr d : pool_wf b -> frame_at b f = Some fr -> page_id fr = Some p ->
  synced b p (Page.as_bytes (page fr)) d ->
  one_frame b (evicted b f p fr d) f (mkFrame (page fr) None (pin_count fr) false).
Proof.
  intros Hb Hf Hp Hs. destruct (Lru.remove_wf (replacer b) (wf_replacer b Hb) f) as [Hr Ho].
  assert (Htp : page_table b !! p = Some f) by (apply wf_table; eauto).
  split; cbn [frames page_table free_list replacer disk evicted page_id pin_count]; try done.
  - by eapply frame_lt.
  - intros q g. rewrite lookup_delete_Some. case_decide as E; [subst|].
    + split; [|done]. intros [Hne Hq]. destruct Hne. by eapply table_inj.
    + split; [naive_solver|]. intros Hq. split; [|done]. congruence.
  - intros g Hg. case_decide; done.
  - apply Hb.
  - intros g. rewrite Ho, list_elem_of_In, List.filter_In, <- list_elem_of_In, negb_true_iff, N.eqb_neq.
    case_decide; naive_solver.
  - intros g. cbn. rewrite elem_of_difference, elem_of_singleton. case_decide; naive_solver.
  - apply Hs.
  - intros q. apply Hs.
  - intros q g Hq Hg. apply Hs; [by eapply Hb|]. congruence.
Qed.

Lemma evicted_spec b f p fr d : pool_wf b -> frame_at b f = Some fr -> page_id fr = Some p ->
  synced b p (Page.as_bytes (page fr)) d ->
  pool_wf (evicted b f p fr d) /\ spare (evicted b f p fr d) f /\ same_content b (evicted b f p fr d).
Proof.
  intros Hb Hf Hp Hs. pose proof (evicted_one_frame b f p fr d Hb Hf Hp Hs) as Ho.
  assert (Htp : page_table b !! p = Some f) by (apply wf_table; eauto).
  split_and!; [by eapply one_frame_wf|split|split_and!].
  - cbn. intros Hin. destruct (wf_free b Hb f Hin) as (fr' & ? & ?). congruence.
  - rewrite (one_frame_at _ _ _ _ _ Ho), decide_True by done. by eexists.
  - apply Hs.
  - intros q Hq. destruct (decide (q = p)) as [->|Hne].
    + rewrite (content_cached b p f fr) by done. unfold content. cbn. rewrite lookup_delete_eq. apply Hs.
    + eapply one_frame_content; [done|exact Ho| |done|done|].
      * intros q' Hq' Hnone _. apply Hs; [done|]. congruence.
      * intros Hq'. apply Hne. by eapply table_inj.
  - apply Hs.
Qed.

(** What [find_free_frame] leaves behind. *)
Record took b b' (f : N) : Prop := {
  tk_wf : pool_wf b';
  tk_spare : spare b' f;
  tk_content : same_content b b';
  tk_clock : Lru.clock (replacer b') = Lru.clock (replacer b);
  tk_len : length (frames b') = length (frames b);
  tk_pinned : forall g fr, frame_at b g = Some fr -> page_id fr <> None -> pin_count fr <> 0 ->
    frame_at b' g = Some fr;
  tk_loaded : forall g fr, frame_at b' g = Some fr -> page_id fr <> None -> frame_at b g = Some fr;
  tk_books : no_leak b -> forall g fr, frame_at b' g = Some fr ->
    g = f \/ g ∈ free_list b' \/ page_id fr <> None
}.

Lemma took_free b f rest : pool_wf b -> free_list b = f :: rest ->
  took b (mkPool (frames b) (page_table b) rest (replacer b) (disk b)) f.
Proof.
  intros Hb Hf. destruct (take_free b f rest Hb Hf) as (Hw & Hs & Hc). split; try done.
  intros Hl g fr Hg. destruct (Hl g fr Hg) as [Hin|?]; [|auto]. rewrite Hf in Hin.
  apply elem_of_cons in Hin. naive_solver.
Qed.

Lemma took_evicted b f p fr d : pool_wf b -> frame_at b f = Some fr -> page_id fr = Some p ->
  pin_count fr = 0 -> synced b p (Page.as_bytes (page fr)) d -> took b (evicted b f p fr d) f.
Proof.
  intros Hb Hf Hp Hpin Hs. destruct (evicted_spec b f p fr d Hb Hf Hp Hs) as (Hw & Hsp & Hc).
  pose proof (fun g => one_frame_at _ _ _ _ g (evicted_one_frame b f p fr d Hb Hf Hp Hs)) as Hat.
  split; try done; [cbn; by rewrite length_insert|..]; setoid_rewrite Hat.
  - intros g fr' Hg Hl Hne. case_decide; [|done]. subst. congruence.
  - intros g fr'. case_decide; [|done]. by intros [= <-].
  - intros Hl g fr'. case_decide; [auto|]. intros Hg. right. by apply (Hl g).
Qed.

Lemma write_back b f p fr : pool_wf b -> frame_at b f = Some fr -> page_id fr = Some p ->
  exists d, write_page (disk b) p (Page.as_bytes (page fr)) = Ok d /\
    synced b p (Page.as_bytes (page fr)) d.
Proof.
  intros Hb Hf Hp. assert (Ht : page_table b !! p = Some f) by (apply wf_table; eauto).
  destruct (write_ok (disk b) p (Page.as_bytes (page fr))) as (d & Hw & Hd & Ha & Hr & Hrp & Hrq).
  - apply Hb.
  - by eapply Hb.
  - eapply wf_size; [done..|congruence].
  - exists d. split; [done|]. by split.
Qed.

Lemma find_free_frame_spec b : pool_wf b ->
  match find_free_frame b with
  | (b', Ok f) => took b b' f
  | (b', Err e) => b' = b /\ e = BufferFull /\ free_list b = [] /\
      forall f fr, frame_at b f = Some fr -> page_id fr <> None -> pin_count fr <> 0
  | (_, Panic) => False
  end.
Proof.
  intros Hb. unfold find_free_frame, mbind, pool_bind, get_pool.
  destruct (free_list b) as [|f rest] eqn:Hfree; [|by apply took_free].
  pose proof (Lru.evict_spec (replacer b) (wf_replacer b Hb)) as Hev.
  destruct (Lru.evict (replacer b)) as [r [f|]].
  - destruct Hev as (-> & Hin & _). apply (wf_evictable b Hb) in Hin as (fr & Hf & Hl & Hpin).
    destruct (page_id fr) as [p|] eqn:Hp; [|done]. cbn [set_replacer].
    unfold frame. cbn [frames]. rewrite Hf. cbn [or_panic].
    destruct (is_dirty fr) eqn:Hd; [unfold lift; rewrite Hp; cbn [or_panic]|].
    + unfold write_frame, mbind, pool_bind, get_pool, lift. cbn [disk].
      destruct (write_back b f p fr Hb Hf Hp) as (d & -> & Hs). cbn [set_disk mret pool_ret].
      unfold set_table, set_frame. cbn. rewrite ?Hp. by apply took_evicted.
    + cbn [mret pool_ret]. unfold set_table, set_frame. cbn. rewrite ?Hp, ?Hd.
      apply took_evicted; [done..|]. split; try done; [apply Hb|]. by eapply Hb.
  - destruct Hev as [_ Hall]. split_and!; try done. intros f fr Hf Hl Hpin.
    rewrite Forall_forall in Hall. apply (Hall f).
    + apply (wf_tracked b Hb). by exists fr.
    + apply (wf_evictable b Hb). eauto.
Qed.

(** *** Installing a page *)

Lemma install_spec b f p pg dirty : pool_wf b -> spare b f -> allocated (disk b) p ->
  page_table b !! p = None -> len (Page.as_bytes pg) = Page.PAGE_SIZE ->
  Lru.clock (replacer b) < 2 ^ 64 - 1 ->
  exists b', install f p pg dirty b = (b', Ok ()) /\
    one_frame b b' f (mkFrame pg (Some p) 1 dirty) /\ disk b' = disk b /\
    free_list b' = free_list b /\ Lru.clock (replacer b') = Lru.clock (replacer b) + 1.
Proof.
  intros Hb [Hnf (fr & Hf & Hnone)] Ha Ht Hlen Hclk.
  unfold install, mbind, pool_bind, frame. rewrite Hf. cbn [or_panic set_frame get_pool].
  eexists. split; [done|]. cbn [disk free_list replacer].
  destruct (Lru.record_access_wf (replacer b) (wf_replacer b Hb) f Hclk) as [Hr1 Ho1].
  destruct (Lru.set_evictable_wf _ Hr1 f false) as [Hr2 Ho2].
  split_and!; [|done|done|cbn; by rewrite wadd_small by lia].
  split; cbn [frames page_table free_list replacer disk page_id pin_count]; try done.
  - by eapply frame_lt.
  - intros q g. rewrite lookup_insert_Some. case_decide as E; [subst|].
    + split; [|naive_solver]. intros [[-> _]|[Hne Hq]]; [done|].
      apply (wf_table b Hb) in Hq as (fr' & ? & ?). congruence.
    + split; [naive_solver|]. intros Hq. right. split; [congruence|done].
  - intros g Hg. case_decide; [by subst|done].
  - apply Hb.
  - intros g. rewrite Ho2, Ho1, elem_of_app, list_elem_of_singleton, list_elem_of_In,
      List.filter_In, <- list_elem_of_In, negb_true_iff, N.eqb_neq. case_decide; naive_solver.
  - intros g. cbn. rewrite elem_of_difference, elem_of_singleton. case_decide; naive_solver.
  - apply Hb.
  - split; cbn; try done; naive_solver.
Qed.

(** *** Pins *)

Definition pins b (p : N) : N :=
  match page_table b !! p with
  | Some f => default 0 (pin_count <$> frame_at b f)
  | None => 0
  end.

Lemma pins_frame b f fr p : pool_wf b -> frame_at b f = Some fr -> page_id fr = Some p ->
  pins b p = pin_count fr.
Proof.
  intros Hb Hf Hp. unfold pins.
  assert (page_table b !! p = Some f) as -> by (apply wf_table; eauto). by rewrite Hf.
Qed.

(** A frame that serves page [p]: pinned, and written back or marked unless it
    was pinned before. *)
Record serves b' (p f : N) (fr : Frame) : Prop := {
  sv_frame : frame_at b' f = Some fr;
  sv_page : page_id fr = Some p;
  sv_pinned : pin_count fr <> 0
}.

Definition fresh_or_dirty b (p : N) (fr : Frame) : Prop :=
  is_dirty fr = true \/ read_page (disk b) p = Ok (Page.as_bytes (page fr)).

Record fetched b b' (p f : N) (fr : Frame) : Prop := {
  ft_wf : pool_wf b';
  ft_content : same_content b b';
  ft_serves : serves b' p f fr;
  ft_pins : forall q, pins b' q = if decide (q = p) then pins b p + 1 else pins b q;
  ft_fresh : pins b p = 0 -> fresh_or_dirty b' p fr;
  ft_clock : Lru.clock (replacer b') = Lru.clock (replacer b) + 1;
  ft_len : length (frames b') = length (frames b);
  ft_books : no_leak b -> no_leak b'
}.

(** The other pages keep their pins when one frame changes. *)
Lemma one_frame_pins b b' f fr q : pool_wf b -> pool_wf b' -> one_frame b b' f fr ->
  page_id fr <> Some q -> (page_table b !! q = Some f -> pins b q = 0) -> pins b' q = pins b q.
Proof.
  intros Hb Hb' Ho Hne Hf. unfold pins at 1. destruct (page_table b' !! q) as [g|] eqn:Hg.
  - apply (of_table _ _ _ _ Ho) in Hg. case_decide; [congruence|].
    rewrite (one_frame_at _ _ _ _ _ Ho), decide_False by done. unfold pins. by rewrite Hg.
  - unfold pins in *. destruct (page_table b !! q) as [g|] eqn:Hg'; [|done].
    destruct (decide (g = f)) as [->|Hgf]; [symmetry; auto|].
    assert (page_table b' !! q = Some g) by (apply (of_table _ _ _ _ Ho); by rewrite decide_False).
    congruence.
Qed.

Lemma same_content_trans b1 b2 b3 : same_content b1 b2 -> same_content b2 b3 -> same_content b1 b3.
Proof.
  intros (Ha & Hc & Hr) (Ha' & Hc' & Hr'). split_and!.
  - intros p. by rewrite Ha'.
  - intros p Hp. rewrite Hc' by (by apply Ha). by apply Hc.
  - auto.
Qed.

(** A hit pins the cached frame once more. *)
Lemma fetch_hit b p f fr : pool_wf b -> frame_at b f = Some fr -> page_id fr = Some p ->
  Lru.clock (replacer b) < 2 ^ 64 - 1 -> pin_count fr < 2 ^ 32 - 1 ->
  exists b', fetch_page p b = (b', Ok f) /\
    fetched b b' p f (mkFrame (page fr) (Some p) (pin_count fr + 1) (is_dirty fr)).
Proof.
  intros Hb Hf Hp Hclk Hpin. assert (Ht : page_table b !! p = Some f) by (apply wf_table; eauto).
  unfold fetch_page, mbind, pool_bind, get_pool. rewrite Ht. unfold frame. rewrite Hf.
  cbn [or_panic set_frame]. rewrite wadd_small by lia. rewrite Hp.
  set (fr' := mkFrame _ _ _ _). eexists. split; [done|].
  destruct (Lru.set_evictable_wf _ (wf_replacer b Hb) f false) as [Hr1 Ho1].
  destruct (Lru.record_access_wf _ Hr1 f Hclk) as [Hr2 Ho2].
  match goal with |- fetched _ ?b' _ _ _ => set (b1 := b') end.
  assert (Ho : one_frame b b1 f fr').
  { split; cbn [frames page_table free_list replacer disk b1 page_id pin_count fr']; try done.
    - by eapply frame_lt.
    - intros q g. case_decide as E; [subst|done]. split; [|naive_solver].
      intros Hq. f_equal. by eapply table_inj.
    - intros g Hg. case_decide as E; [subst|done]. apply (wf_free b Hb) in Hg as (? & ? & ?). congruence.
    - apply Hb.
    - intros g. rewrite Ho2, Ho1, elem_of_app, list_elem_of_singleton, list_elem_of_In,
        List.filter_In, <- list_elem_of_In, negb_true_iff, N.eqb_neq. case_decide; naive_solver.
    - intros g. cbn. rewrite elem_of_difference, elem_of_singleton. case_decide; [|naive_solver].
      split; [naive_solver|]. intros [_ ?]. lia.
    - apply Hb.
    - split; cbn; try done; [intros _; by eapply Hb; [|congruence]|intros q [= <-]; by eapply Hb|lia]. }
  assert (Hb1 : pool_wf b1) by (by eapply one_frame_wf).
  assert (Hf1 : frame_at b1 f = Some fr') by (rewrite (one_frame_at _ _ _ _ _ Ho), decide_True; done).
  split; try done.
  - split_and!; [done| |done]. intros q Hq. destruct (decide (q = p)) as [->|Hne].
    + rewrite (content_cached b1 p f fr'), (content_cached b p f fr) by done. done.
    + eapply one_frame_content; [done|exact Ho|done|done|cbn; congruence|].
      intros Hq'. apply Hne. by eapply table_inj.
  - split; cbn; [done..|lia].
  - intros q. case_decide as E; [subst|].
    + rewrite (pins_frame b1 f fr' p), (pins_frame b f fr p) by done. done.
    + eapply one_frame_pins; [done|done|exact Ho|cbn; congruence|].
      intros Hq. destruct E. by eapply table_inj.
  - rewrite (pins_frame b f fr p) by done. intros Hz. destruct (is_dirty fr) eqn:Hd; [by left|].
    right. cbn. by eapply Hb.
  - cbn. rewrite wadd_small by lia. done.
  - by eapply one_frame_len.
  - intros Hl g fr2. rewrite (one_frame_at _ _ _ _ _ Ho). case_decide; [intros [= <-]; by right|]. apply Hl.
Qed.

Lemma took_pins b b' f q : pool_wf b -> took b b' f -> pins b' q = pins b q.
Proof.
  intros Hb Ht. pose proof (tk_wf _ _ _ Ht) as Hb'. unfold pins at 1.
  destruct (page_table b' !! q) as [g|] eqn:Hg.
  - apply (wf_table b' Hb') in Hg as (fr & Hg & Hq). rewrite Hg. cbn. symmetry.
    eapply pins_frame; [done| |exact Hq]. eapply tk_loaded; [done..|congruence].
  - destruct (page_table b !! q) as [g|] eqn:Hg'; [|unfold pins; by rewrite Hg'].
    apply (wf_table b Hb) in Hg' as (fr & Hg' & Hq). rewrite (pins_frame b g fr q) by done.
    destruct (decide (pin_count fr = 0)) as [->|Hne]; [done|].
    pose proof (tk_pinned _ _ _ Ht g fr Hg' ltac:(congruence) Hne) as Hk.
    assert (page_table b' !! q = Some g) by (apply wf_table; eauto). congruence.
Qed.

(** The facts after [install], from the state [find_free_frame] left. *)
Lemma installed b b1 b2 p f pg dirty : pool_wf b -> took b b1 f -> page_table b !! p = None ->
  one_frame b1 b2 f (mkFrame pg (Some p) 1 dirty) -> free_list b2 = free_list b1 ->
  pool_wf b2 /\ serves b2 p f (mkFrame pg (Some p) 1 dirty) /\
  (forall q, pins b2 q = if decide (q = p) then pins b p + 1 else pins b q) /\
  (no_leak b -> no_leak b2).
Proof.
  intros Hb Ht Hp Ho Hfl. pose proof (tk_wf _ _ _ Ht) as Hb1.
  assert (Hb2 : pool_wf b2) by (by eapply one_frame_wf).
  assert (Hf2 : frame_at b2 f = Some (mkFrame pg (Some p) 1 dirty))
    by (rewrite (one_frame_at _ _ _ _ _ Ho), decide_True; done).
  split_and!; [done|by split| |].
  - intros q. case_decide as E; [subst|].
    + rewrite (pins_frame b2 f _ p Hb2 Hf2) by done. unfold pins. rewrite Hp. done.
    + rewrite (one_frame_pins b1 b2 f _ q Hb1 Hb2 Ho); [by eapply took_pins|cbn; congruence|].
      intros Hq. destruct (tk_spare _ _ _ Ht) as [_ (fr & Hf & Hn)].
      apply (wf_table b1 Hb1) in Hq as (fr' & ? & ?). congruence.
  - intros Hl g fr. rewrite (one_frame_at _ _ _ _ _ Ho). case_decide; [intros [= <-]; by right|].
    intros Hg. rewrite Hfl. destruct (tk_books _ _ _ Ht Hl g fr Hg) as [?|?]; done.
Qed.

Lemma took_uncached b b1 f p : pool_wf b -> took b b1 f -> page_table b !! p = None ->
  page_table b1 !! p = None.
Proof.
  intros Hb Ht Hp. apply eq_None_not_Some. intros [g Hg].
  apply (wf_table b1 (tk_wf _ _ _ Ht)) in Hg as (fr & Hg & Hq).
  apply (tk_loaded _ _ _ Ht) in Hg; [|congruence].
  assert (page_table b !! p = Some g) by (apply wf_table; eauto). congruence.
Qed.

(** A miss takes a frame and reads the page into it. *)
Lemma fetch_miss b b1 p f : pool_wf b -> allocated (disk b) p -> page_table b !! p = None ->
  find_free_frame b = (b1, Ok f) -> took b b1 f -> Lru.clock (replacer b) < 2 ^ 64 - 1 ->
  exists b' fr, fetch_page p b = (b', Ok f) /\ fetched b b' p f fr.
Proof.
  intros Hb Ha Hp He Ht Hclk. pose proof (tk_wf _ _ _ Ht) as Hb1.
  destruct (tk_content _ _ _ Ht) as (Hal & Hco & Hro).
  assert (Ha1 : allocated (disk b1) p) by (by apply Hal).
  destruct (read_ok (disk b1) p (wf_store b1 Hb1) Ha1) as (buf & Hbuf & Hlen).
  assert (Hp1 : page_table b1 !! p = None) by exact (took_uncached b b1 f p Hb Ht Hp).
  destruct (install_spec b1 f p (Page.from_bytes buf) false Hb1 (tk_spare _ _ _ Ht) Ha1 Hp1 Hlen)
    as (b2 & Hi & Ho & Hd & Hfl & Hck); [by rewrite (tk_clock _ _ _ Ht)|].
  exists b2, (mkFrame (Page.from_bytes buf) (Some p) 1 false). split.
  { unfold fetch_page, mbind, pool_bind, get_pool. rewrite Hp, He. unfold lift. by rewrite Hbuf, Hi. }
  destruct (installed b b1 b2 p f _ _ Hb Ht Hp Ho Hfl) as (Hb2 & Hsv & Hpins & Hbooks).
  split; try done.
  - apply same_content_trans with b1; [by apply Ht|]. split_and!; rewrite ?Hd; [done| |done].
    intros q Hq. destruct (decide (q = p)) as [->|Hne].
    + rewrite (content_cached b2 p f _ Hb2 (sv_frame _ _ _ _ Hsv)) by done.
      unfold content. by rewrite Hp1, Hbuf.
    + eapply one_frame_content; [done|exact Ho| |done|cbn; congruence|].
      * intros q' _ _ _. by rewrite Hd.
      * destruct (tk_spare _ _ _ Ht) as [_ (fr & Hf & Hn)]. intros Hq'.
        apply (wf_table b1 Hb1) in Hq' as (fr' & ? & ?). congruence.
  - intros _. right. by rewrite Hd.
  - by rewrite Hck, (tk_clock _ _ _ Ht).
  - by rewrite (one_frame_len _ _ _ _ Ho), (tk_len _ _ _ Ht).
Qed.

(** [fetch_page] fails only when every frame is pinned, and then changes nothing. *)
Lemma fetch_page_spec b p : pool_wf b -> allocated (disk b) p ->
  Lru.clock (replacer b) < 2 ^ 64 - 1 -> pins b p < 2 ^ 32 - 1 ->
  match fetch_page p b with
  | (b', Ok f) => exists fr, fetched b b' p f fr
  | (b', Err e) => b' = b /\ e = BufferFull /\ free_list b = [] /\
      forall f fr, frame_at b f = Some fr -> page_id fr <> None -> pin_count fr <> 0
  | (_, Panic) => False
  end.
Proof.
  intros Hb Ha Hclk Hpin. destruct (page_table b !! p) as [f|] eqn:Hp.
  - apply (wf_table b Hb) in Hp as (fr & Hf & Hp). rewrite (pins_frame b f fr p) in Hpin by done.
    destruct (fetch_hit b p f fr Hb Hf Hp Hclk Hpin) as (b' & -> & Hft). by eexists.
  - pose proof (find_free_frame_spec b Hb) as Hff.
    destruct (find_free_frame b) as [b1 [f|e|]] eqn:He; [|..|done].
    + destruct (fetch_miss b b1 p f Hb Ha Hp He Hff Hclk) as (b' & fr & -> & Hft). by exists fr.
    + unfold fetch_page, mbind, pool_bind, get_pool. by rewrite Hp, He.
Qed.

(** *** Changes to a frame that stays in place *)

(** The pool with frame [f] replaced and the replacer's view of it adjusted. *)
Definition reframed b (f : N) (fr : Frame) (r : Lru.LruReplacer) (d : D) : BufferPool D :=
  mkPool (<[N.to_nat f := fr]> (frames b)) (page_table b) (free_list b) r d.

Lemma reframed_one_frame b f fr0 fr p r d : pool_wf b -> frame_at b f = Some fr0 ->
  page_id fr0 = Some p -> page_id fr = Some p -> Lru.replacer_wf r ->
  Lru.order r = Lru.order (replacer b) ->
  (forall g, g ∈ Lru.evictable r <->
     if decide (g = f) then pin_count fr = 0 else g ∈ Lru.evictable (replacer b)) ->
  store_ok d -> (forall q, allocated (disk b) q -> allocated d q) ->
  (forall q, allocated (disk b) q -> q <> p -> read_page d q = read_page (disk b) q) ->
  frame_ok d fr -> one_frame b (reframed b f fr r d) f fr.
Proof.
  intros Hb Hf Hp0 Hp Hr Ho Hev Hd Ha Hrd Hok.
  assert (Ht : page_table b !! p = Some f) by (apply wf_table; eauto).
  split; cbn [frames page_table free_list replacer disk reframed]; try done.
  - by eapply frame_lt.
  - intros q g. case_decide as E; [subst|done]. rewrite Hp.
    split; [|naive_solver]. intros Hq. f_equal. by eapply table_inj.
  - intros g Hg. case_decide as E; [subst|done]. apply (wf_free b Hb) in Hg as (? & ? & ?). congruence.
  - apply Hb.
  - intros g. rewrite Ho. case_decide as E; [subst|done]. rewrite (wf_tracked b Hb).
    split; [congruence|]. intros _. exists fr0. split; [done|congruence].
  - intros g. rewrite Hev. case_decide; [|done]. split; [|naive_solver]. split; [congruence|done].
  - intros q g Hq Hg. apply Hrd; [by eapply Hb|]. intros ->. congruence.
Qed.

Lemma reframed_pins b f fr0 fr p r d : pool_wf b -> pool_wf (reframed b f fr r d) ->
  one_frame b (reframed b f fr r d) f fr -> frame_at b f = Some fr0 -> page_id fr0 = Some p ->
  page_id fr = Some p ->
  forall q, pins (reframed b f fr r d) q = if decide (q = p) then pin_count fr else pins b q.
Proof.
  intros Hb Hb' Ho Hf Hp0 Hp q. assert (Ht : page_table b !! p = Some f) by (apply wf_table; eauto).
  case_decide as E; [subst|].
  - eapply pins_frame; [done| |done]. by rewrite (one_frame_at _ _ _ _ _ Ho), decide_True.
  - eapply one_frame_pins; [done|done|exact Ho|congruence|]. intros Hq. destruct E. by eapply table_inj.
Qed.

Lemma reframed_content b f fr0 fr p r d : pool_wf b -> pool_wf (reframed b f fr r d) ->
  one_frame b (reframed b f fr r d) f fr -> frame_at b f = Some fr0 -> page_id fr0 = Some p ->
  page_id fr = Some p ->
  (forall q, allocated (disk b) q -> q <> p -> read_page d q = read_page (disk b) q) ->
  content (reframed b f fr r d) p = Ok (Page.as_bytes (page fr)) /\
  forall q, allocated (disk b) q -> q <> p -> content (reframed b f fr r d) q = content b q.
Proof.
  intros Hb Hb' Ho Hf Hp0 Hp Hrd. assert (Ht : page_table b !! p = Some f) by (apply wf_table; eauto).
  split.
  - apply (content_cached _ p f fr); [done| |done]. by rewrite (one_frame_at _ _ _ _ _ Ho), decide_True.
  - intros q Hq Hne. eapply one_frame_content; [done|exact Ho| |done|congruence|].
    + intros q' Hq' _ Hp'. apply Hrd; [done|congruence].
    + intros Hq'. destruct Hne. by eapply table_inj.
Qed.

Lemma reframed_books b f fr r d : one_frame b (reframed b f fr r d) f fr -> page_id fr <> None ->
  no_leak b -> no_leak (reframed b f fr r d).
Proof.
  intros Ho Hne Hl g fr'. rewrite (one_frame_at _ _ _ _ _ Ho). case_decide; [intros [= <-]; by right|]. apply Hl.
Qed.

Lemma unpin_page_spec b p f fr dirty : pool_wf b -> serves b p f fr ->
  (pin_count fr = 1 -> dirty = true \/ fresh_or_dirty b p fr) ->
  exists b', unpin_page p dirty b = (b', Ok ()) /\ pool_wf b' /\ same_content b b' /\
    (forall q, pins b' q = if decide (q = p) then pins b p - 1 else pins b q) /\
    Lru.clock (replacer b') = Lru.clock (replacer b) /\
    length (frames b') = length (frames b) /\ (no_leak b -> no_leak b').
Proof.
  intros Hb [Hf Hp Hpin] Hfresh. assert (Ht : page_table b !! p = Some f) by (apply wf_table; eauto).
  set (fr' := mkFrame (page fr) (Some p) (pin_count fr - 1) (is_dirty fr || dirty)).
  set (r' := if pin_count fr - 1 =? 0 then Lru.set_evictable (replacer b) f true else replacer b).
  assert (He : unpin_page p dirty b = (reframed b f fr' r' (disk b), Ok ())).
  { unfold unpin_page, mbind, pool_bind, get_pool, lift. rewrite Ht. cbn [ok_or].
    unfold frame. rewrite Hf. cbn [or_panic]. rewrite (proj2 (N.eqb_neq _ _) Hpin), Hp.
    cbn [set_frame pin_count]. unfold r'. by destruct (pin_count fr - 1 =? 0). }
  assert (Ho : one_frame b (reframed b f fr' r' (disk b)) f fr').
  { eapply reframed_one_frame; try done.
    - unfold r'. case_match; [apply (Lru.set_evictable_wf _ (wf_replacer b Hb))|apply Hb].
    - unfold r'. by case_match.
    - intros g. unfold r'. cbn [pin_count fr']. destruct (N.eqb_spec (pin_count fr - 1) 0) as [Hz|Hz]; cbn.
      + rewrite elem_of_union, elem_of_singleton. case_decide; naive_solver.
      + case_decide as E; [subst|done]. rewrite (wf_evictable b Hb). split; [|done].
        intros (fr2 & ? & ? & ?). assert (fr2 = fr) by congruence. subst. lia.
    - apply Hb.
    - split; cbn; [intros _; eapply Hb; [done|congruence]|done|intros q [= <-]; by eapply Hb|].
      intros q [= <-] Hz [Hd1 Hd2]%orb_false_iff.
      destruct Hfresh as [?|[?|?]]; [lia|congruence|congruence|done]. }
  assert (Hb' : pool_wf (reframed b f fr' r' (disk b))) by (by eapply one_frame_wf).
  eexists. split; [exact He|].
  destruct (reframed_content b f fr fr' p r' (disk b)) as [Hcp Hcq]; try done.
  split_and!; [done|split_and!; [done| |done]| | | |].
  - intros q Hq. destruct (decide (q = p)) as [->|]; [|by apply Hcq].
    rewrite Hcp. symmetry. by apply (content_cached b p f fr).
  - intros q. rewrite (reframed_pins b f fr fr' p) by done. by rewrite (pins_frame b f fr p).
  - unfold r'. cbn. by case_match.
  - by eapply one_frame_len.
  - by apply reframed_books.
Qed.

Lemma put_page_spec b p f fr pg : pool_wf b -> serves b p f fr ->
  len (Page.as_bytes pg) = Page.PAGE_SIZE ->
  exists b', put_page f pg b = (b', Ok ()) /\ pool_wf b' /\
    serves b' p f (mkFrame pg (Some p) (pin_count fr) (is_dirty fr)) /\
    content b' p = Ok (Page.as_bytes pg) /\
    (forall q, allocated (disk b) q -> q <> p -> content b' q = content b q) /\
    (forall q, pins b' q = pins b q) /\ disk b' = disk b /\ replacer b' = replacer b /\
    length (frames b') = length (frames b) /\ (no_leak b -> no_leak b').
Proof.
  intros Hb [Hf Hp Hpin] Hlen. set (fr' := mkFrame pg (Some p) (pin_count fr) (is_dirty fr)).
  assert (Ht : page_table b !! p = Some f) by (apply wf_table; eauto).
  assert (He : put_page f pg b = (reframed b f fr' (replacer b) (disk b), Ok ())).
  { unfold put_page, mbind, pool_bind, frame. rewrite Hf. cbn. by rewrite Hp. }
  assert (Ho : one_frame b (reframed b f fr' (replacer b) (disk b)) f fr').
  { eapply reframed_one_frame; try done.
    - apply Hb.
    - intros g. case_decide as E; [subst|done]. rewrite (wf_evictable b Hb). cbn.
      split; [|lia]. intros (fr2 & ? & ? & ?). congruence.
    - apply Hb.
    - split; cbn; [done|done|intros q [= <-]; by eapply Hb|lia]. }
  assert (Hb' : pool_wf (reframed b f fr' (replacer b) (disk b))) by (by eapply one_frame_wf).
  eexists. split; [exact He|].
  destruct (reframed_content b f fr fr' p (replacer b) (disk b)) as [Hcp Hcq]; try done.
  split_and!; try done.
  - split; try done. by rewrite (one_frame_at _ _ _ _ _ Ho), decide_True.
  - intros q. rewrite (reframed_pins b f fr fr' p) by done. case_decide; [subst|done].
    by rewrite (pins_frame b f fr p).
  - by eapply one_frame_len.
  - by apply reframed_books.
Qed.

(** *** Flushing *)

Lemma flush_page_spec b p f fr : pool_wf b -> frame_at b f = Some fr -> page_id fr = Some p ->
  exists b', flush_page p b = (b', Ok ()) /\ pool_wf b' /\ same_content b b' /\
    (forall q, pins b' q = pins b q) /\ page_table b' = page_table b /\
    frames b' = <[N.to_nat f := mkFrame (page fr) (Some p) (pin_count fr) false]> (frames b) /\
    Lru.clock (replacer b') = Lru.clock (replacer b) /\ length (frames b') = length (frames b) /\
    (no_leak b -> no_leak b') /\ (pin_count fr = 0 -> read_page (disk b') p = content b p).
Proof.
  intros Hb Hf Hp. assert (Ht : page_table b !! p = Some f) by (apply wf_table; eauto).
  unfold flush_page, mbind, pool_bind, get_pool, lift. rewrite Ht. cbn [ok_or].
  unfold frame. rewrite Hf. cbn [or_panic]. destruct (is_dirty fr) eqn:Hd.
  - unfold write_frame, mbind, pool_bind, get_pool, lift.
    destruct (write_back b f p fr Hb Hf Hp) as (d & -> & Hs). rewrite Hp.
    set (fr' := mkFrame (page fr) (Some p) (pin_count fr) false).
    exists (reframed b f fr' (replacer b) d). split; [done|].
    assert (Ho : one_frame b (reframed b f fr' (replacer b) d) f fr').
    { eapply reframed_one_frame; try done; try apply Hb; try apply Hs.
      - intros g. case_decide as E; [subst|done]. rewrite (wf_evictable b Hb). cbn.
        split; [|intros; exists fr; split_and!; [done|congruence|done]].
        intros (fr2 & ? & ? & ?). congruence.
      - split; cbn; [intros _; eapply Hb; [done|congruence]|done| |].
        + intros q [= <-]. apply Hs. by eapply Hb.
        + intros q [= <-] _ _. apply Hs. }
    assert (Hb' : pool_wf (reframed b f fr' (replacer b) d)) by (by eapply one_frame_wf).
    destruct (reframed_content b f fr fr' p (replacer b) d) as [Hcp Hcq]; try done; [apply Hs|].
    split_and!; try done.
    + split_and!; [apply Hs| |apply Hs]. intros q Hq. destruct (decide (q = p)) as [->|]; [|by apply Hcq].
      rewrite Hcp. symmetry. by apply (content_cached b p f fr).
    + intros q. rewrite (reframed_pins b f fr fr' p) by done. case_decide; [subst|done].
      by rewrite (pins_frame b f fr p).
    + by eapply one_frame_len.
    + by apply reframed_books.
    + intros _. cbn. rewrite (content_cached b p f fr) by done. apply Hs.
  - exists b. split_and!; try done.
    + rewrite list_insert_id; [done|]. rewrite Hf. rewrite <- Hp, <- Hd. by destruct fr.
    + intros Hz. rewrite (content_cached b p f fr) by done. by eapply Hb.
Qed.

(** Flushing a list of cached pages: those pages' frames become clean. *)
Lemma flush_pages_spec ps b : pool_wf b -> Forall (fun p => is_Some (page_table b !! p)) ps ->
  exists b', flush_pages ps b = (b', Ok ()) /\ pool_wf b' /\ same_content b b' /\
    (forall q, pins b' q = pins b q) /\ page_table b' = page_table b /\
    Lru.clock (replacer b') = Lru.clock (replacer b) /\ length (frames b') = length (frames b) /\
    (no_leak b -> no_leak b') /\
    forall f fr', frame_at b' f = Some fr' -> exists fr, frame_at b f = Some fr /\
      page_id fr' = page_id fr /\ pin_count fr' = pin_count fr /\
      (is_dirty fr' = true -> is_dirty fr = true /\ forall p, page_id fr = Some p -> p ∉ ps).
Proof.
  revert b. induction ps as [|p ps IH]; intros b Hb Hps.
  - exists b. cbn. split_and!; try done. intros f fr Hf. exists fr. split_and!; try done.
    intros Hd. split; [done|]. intros q _. apply not_elem_of_nil.
  - apply Forall_cons in Hps as [[f Hf] Hps]. apply (wf_table b Hb) in Hf as (fr & Hf & Hp).
    destruct (flush_page_spec b p f fr Hb Hf Hp)
      as (b1 & He1 & Hb1 & Hc1 & Hpin1 & Ht1 & Hfr1 & Hk1 & Hl1 & Hbk1 & _).
    destruct (IH b1 Hb1) as (b2 & He2 & Hb2 & Hc2 & Hpin2 & Ht2 & Hk2 & Hl2 & Hbk2 & Hd2); [by rewrite Ht1|].
    exists b2. split; [cbn; unfold mbind, pool_bind; by rewrite He1|].
    split_and!; [done|by eapply same_content_trans|congruence|congruence|congruence|congruence|auto|].
    intros g fr2 Hg. destruct (Hd2 g fr2 Hg) as (fr1 & Hg1 & Hid & Hpc & Hdd).
    rewrite Hfr1, frame_insert in Hg1 by (by eapply frame_lt). case_decide as E.
    + subst g. injection Hg1 as <-. exists fr. cbn in *. split_and!; [done|congruence|done|].
      intros Hd. by destruct (Hdd Hd).
    + exists fr1. split_and!; [done..|]. intros Hd. destruct (Hdd Hd) as [? Hn]. split; [done|].
      intros q Hq. apply not_elem_of_cons. split; [|auto]. intros ->. apply E.
      assert (page_table b !! p = Some g) by (apply wf_table; eauto).
      assert (page_table b !! p = Some f) by (apply wf_table; eauto). congruence.
Qed.

(** After [flush_all], with no page pinned, the disk holds what clients see. *)
Lemma flush_all_spec b : pool_wf b ->
  exists b', flush_all b = (b', Ok ()) /\ pool_wf b' /\ same_content b b' /\
    (forall q, pins b' q = pins b q) /\ Lru.clock (replacer b') = Lru.clock (replacer b) /\
    length (frames b') = length (frames b) /\ (no_leak b -> no_leak b') /\
    ((forall q, pins b q = 0) ->
       forall p, allocated (disk b) p -> read_page (disk b') p = content b p).
Proof.
  intros Hb. set (ps := omap (fun fr => if is_dirty fr then page_id fr else None) (frames b)).
  destruct (flush_pages_spec ps b Hb) as (b' & He & Hb' & Hc & Hpin & Ht & Hk & Hl & Hbk & Hd).
  { apply Forall_forall. intros p (fr & Hfr & Hp)%list_elem_of_omap.
    apply list_elem_of_lookup in Hfr as [i Hi]. destruct (is_dirty fr); [|done].
    exists (N.of_nat i). apply (wf_table b Hb). exists fr. by rewrite Nat2N.id. }
  exists b'. split_and!; try done. intros Hun p Ha. destruct Hc as (Hal & Hco & _).
  rewrite <- Hco by done. unfold content. destruct (page_table b' !! p) as [f|] eqn:Hf; [|done].
  apply (wf_table b' Hb') in Hf as (fr' & Hf & Hp). rewrite Hf. cbn.
  destruct (Hd f fr' Hf) as (fr & Hfr & Hid & Hpc & Hdd).
  apply (wf_clean b' Hb' f fr' p Hf Hp).
  - rewrite <- (pins_frame b' f fr' p), Hpin by done. apply Hun.
  - apply not_true_iff_false. intros Hdirty. destruct (Hdd Hdirty) as [Hd1 Hn].
    apply (Hn p); [congruence|]. apply list_elem_of_omap. exists fr.
    split; [by eapply list_elem_of_lookup_2|]. rewrite Hd1. congruence.
Qed.

(** *** Allocating *)

(** The disk of the pool grows by page [p]. *)
Lemma grow_wf b d p : pool_wf b -> store_ok d -> ~ allocated (disk b) p ->
  (forall q, allocated d q <-> q = p \/ allocated (disk b) q) ->
  (forall q, allocated (disk b) q -> read_page d q = read_page (disk b) q) ->
  let b' := mkPool (frames b) (page_table b) (free_list b) (replacer b) d in
  pool_wf b' /\ page_table b' !! p = None /\
  forall q, allocated (disk b) q -> content b' q = content b q.
Proof.
  intros Hb Hd Hn Ha Hr b'. split_and!.
  - destruct Hb. split; try done; cbn.
    + intros q f Hq. apply Ha. eauto.
    + intros f fr q Hf Hq Hpin Hcl. rewrite Hr; [eauto|]. eapply wf_alloc0, wf_table0. eauto.
  - apply eq_None_not_Some. intros [f Hf]. apply Hn. by eapply Hb.
  - intros q Hq. unfold content. cbn. case_match; [done|]. by apply Hr.
Qed.

Lemma new_page_spec b n : pool_wf b -> room (disk b) (n + 1) ->
  Lru.clock (replacer b) < 2 ^ 64 - 1 ->
  match new_page b with
  | (b', Ok (p, f)) =>
      pool_wf b' /\ (forall q, allocated (disk b) q -> q < p) /\ room (disk b') n /\
      (forall q, allocated (disk b') q <-> q = p \/ allocated (disk b) q) /\
      content b' p = Ok (Page.as_bytes (Page.new p)) /\
      (forall q, allocated (disk b) q -> content b' q = content b q) /\
      serves b' p f (mkFrame (Page.new p) (Some p) 1 true) /\
      (forall q, pins b' q = if decide (q = p) then 1 else pins b q) /\
      Lru.clock (replacer b') = Lru.clock (replacer b) + 1 /\
      length (frames b') = length (frames b) /\ (no_leak b -> no_leak b')
  | (b', Err e) => b' = b /\ e = BufferFull /\ free_list b = [] /\
      forall f fr, frame_at b f = Some fr -> page_id fr <> None -> pin_count fr <> 0
  | (_, Panic) => False
  end.
Proof.
  intros Hb Hroom Hclk. unfold new_page, mbind, pool_bind, get_pool, lift.
  pose proof (find_free_frame_spec b Hb) as Hff.
  destruct (find_free_frame b) as [b1 [f|e|]] eqn:He; [|done|done].
  pose proof (tk_wf _ _ _ Hff) as Hb1. destruct (tk_content _ _ _ Hff) as (Hal & Hco & Hro).
  destruct (allocate_ok (disk b1) n (wf_store b1 Hb1) (Hro _ Hroom))
    as (d & p & -> & Hd & Hroom' & Habove & Ha & _ & Hrq).
  assert (Hnew : ~ allocated (disk b1) p) by (intros Hp%Habove; lia).
  destruct (grow_wf b1 d p Hb1 Hd Hnew Ha Hrq) as (Hb2 & Hp2 & Hc2).
  cbn [set_disk]. set (b2 := mkPool _ _ _ _ d) in *.
  assert (Hlen : len (Page.as_bytes (Page.new p)) = Page.PAGE_SIZE) by apply Page.new_spec.
  destruct (install_spec b2 f p (Page.new p) true Hb2) as (b3 & Hi & Ho & Hd3 & Hfl & Hck);
    [exact (tk_spare _ _ _ Hff)|apply Ha; by left|done|done|cbn; by rewrite (tk_clock _ _ _ Hff)|].
  rewrite Hi. cbn [mret pool_ret]. set (pg := Page.new p) in *. clearbody pg.
  assert (Hpn : page_table b !! p = None).
  { apply eq_None_not_Some. intros [g Hg]. apply Hnew, Hal. by eapply Hb. }
  assert (Hb3 : pool_wf b3) by (by eapply one_frame_wf).
  assert (Hf3 : frame_at b3 f = Some (mkFrame pg (Some p) 1 true))
    by (rewrite (one_frame_at _ _ _ _ _ Ho), decide_True; done).
  assert (Hnf : forall q, page_table b2 !! q <> Some f).
  { intros q Hq. destruct (tk_spare _ _ _ Hff) as [_ (fr & Hf & Hn)].
    apply (wf_table b2 Hb2) in Hq as (fr' & Hf' & ?). cbn in Hf'. congruence. }
  rewrite Hd3. split_and!; try done.
  - intros q Hq. by apply Habove, Hal.
  - intros q. cbn. by rewrite Ha, Hal.
  - by apply (content_cached b3 p f _ Hb3 Hf3).
  - intros q Hq. rewrite <- Hco, <- Hc2 by (try done; by apply Hal).
    eapply one_frame_content; [done|exact Ho| |cbn; apply Ha; right; by apply Hal| |done].
    + intros q' _ _ _. by rewrite Hd3.
    + cbn. intros [= ->]. by apply Hnew, Hal.
  - intros q. case_decide as E; [subst; by apply (pins_frame b3 f _ p Hb3 Hf3)|].
    rewrite (one_frame_pins b2 b3 f _ q Hb2 Hb3 Ho); [|cbn; congruence|intros Hq; by destruct (Hnf q)].
    transitivity (pins b1 q); [done|]. by eapply took_pins.
  - rewrite Hck. cbn. by rewrite (tk_clock _ _ _ Hff).
  - rewrite (one_frame_len _ _ _ _ Ho). cbn. by rewrite (tk_len _ _ _ Hff).
  - intros Hl g fr. rewrite (one_frame_at _ _ _ _ _ Ho). case_decide; [intros [= <-]; by right|].
    intros Hg. rewrite Hfl. destruct (tk_books _ _ _ Hff Hl g fr Hg) as [?|?]; done.
Qed.

(** *** A new pool *)

Lemma new_frame k (d : D) f fr : frame_at (new k d) f = Some fr -> f ∈ free_list (new k d) /\ fr = empty_frame f.
Proof.
  cbn [frames free_list new]. rewrite list_lookup_fmap, fmap_Some. intros (i & Hi & ->).
  apply lookup_seq in Hi as [-> Hi]. rewrite Nat.add_0_l, N2Nat.id in *. split; [|done].
  apply list_elem_of_fmap. exists (N.to_nat f). rewrite N2Nat.id. split; [done|]. apply elem_of_seq. lia.
Qed.

Lemma pool_new_wf k (d : D) : store_ok d -> pool_wf (new k d) /\ no_leak (new k d).
Proof.
  intros Hd. pose proof (new_frame k d) as Hnf. split; [|intros f fr Hf; left; by eapply Hnf].
  split; try done.
  - intros p f. cbn [page_table new]. rewrite lookup_empty. split; [done|].
    intros (fr & [_ ->]%Hnf & Hp). done.
  - intros f (i & -> & Hi)%list_elem_of_fmap. exists (empty_frame (N.of_nat i)). split; [|done].
    cbn [frames new]. apply elem_of_seq in Hi. rewrite Nat2N.id, list_lookup_fmap, lookup_seq_lt by lia.
    done.
  - cbn [free_list new]. apply NoDup_fmap; [apply _|apply NoDup_seq].
  - apply Lru.replacer_new_wf.
  - intros f. split; [intros []%not_elem_of_nil|]. intros (fr & [_ ->]%Hnf & Hp). done.
  - intros f. cbn [replacer new Lru.new Lru.evictable]. split; [set_solver|].
    intros (fr & [_ ->]%Hnf & Hp & _). done.
  - intros f fr [_ ->]%Hnf Hp. done.
  - by intros f fr [_ ->]%Hnf.
  - by intros f fr p [_ ->]%Hnf.
Qed.

(** ** What clients see

    The pool presents a finite map from page ids to page contents.  [represents]
    holds between two client operations, when nothing is pinned. *)

Record represents b (m : gmap N (list N)) : Prop := {
  rp_wf : pool_wf b;
  rp_books : no_leak b;
  rp_idle : forall q, pins b q = 0;
  rp_some : (0 < length (frames b))%nat;
  rp_dom : forall p, allocated (disk b) p <-> is_Some (m !! p);
  rp_content : forall p bs, m !! p = Some bs -> content b p = Ok bs
}.

Lemma represents_frame b m : represents b m ->
  free_list b <> [] \/ exists f fr, frame_at b f = Some fr /\ page_id fr <> None /\ pin_count fr = 0.
Proof.
  intros Hr. destruct (lookup_lt_is_Some_2 (frames b) 0 (rp_some b m Hr)) as [fr Hf].
  destruct (rp_books b m Hr 0 fr Hf) as [Hin|Hp]; [left; intros E; rewrite E in Hin; by apply elem_of_nil in Hin|].
  right. exists 0, fr. split_and!; [done..|]. destruct (page_id fr) as [p|] eqn:E; [|done].
  rewrite <- (pins_frame b 0 fr p); [apply (rp_idle b m Hr)|apply Hr|done|done].
Qed.

(** The ways clients use the pool: fetch a page, look at it or write it, unpin it. *)
Definition read_op (p : N) : pool_op (D := D) (list N) :=
  f ← fetch_page p; pg ← page_of f; _ ← unpin_page p false; mret (Page.as_bytes pg).
Definition write_op (p : N) (bs : list N) : pool_op (D := D) () :=
  f ← fetch_page p; _ ← put_page f (Page.from_bytes bs); unpin_page p true.
Definition alloc_op : pool_op (D := D) N :=
  '(p, f) ← new_page; _ ← unpin_page p true; mret p.

(** After one client operation: the map, the clock and the room left. *)
Record served b b' (m' : gmap N (list N)) : Prop := {
  sd_represents : represents b' m';
  sd_clock : Lru.clock (replacer b') <= Lru.clock (replacer b) + 1;
  sd_room : forall n, room (disk b) n -> room (disk b') n
}.

Lemma same_represents b b' m : represents b m -> pool_wf b' -> same_content b b' ->
  (forall q, pins b' q = 0) -> length (frames b') = length (frames b) -> no_leak b' -> represents b' m.
Proof.
  intros Hr Hb' (Ha & Hc & _) Hp Hl Hk. split; try done.
  - rewrite Hl. apply Hr.
  - intros p. rewrite Ha. apply Hr.
  - intros p bs Hm. rewrite Hc; [by apply Hr|]. by apply (rp_dom b m Hr).
Qed.

(** With nothing pinned a fetch finds a frame. *)
Lemma idle_fetch b m p : represents b m -> is_Some (m !! p) -> Lru.clock (replacer b) < 2 ^ 64 - 1 ->
  exists b' f fr, fetch_page p b = (b', Ok f) /\ fetched b b' p f fr.
Proof.
  intros Hr Hp Hclk. pose proof (fetch_page_spec b p (rp_wf b m Hr)) as Hs.
  rewrite (rp_dom b m Hr), (rp_idle b m Hr) in Hs. specialize (Hs Hp Hclk ltac:(done)).
  destruct (fetch_page p b) as [b' [f|e|]]; [destruct Hs as [fr Hs]; eauto|exfalso|done].
  destruct Hs as (_ & _ & Hfree & Hall). destruct (represents_frame b m Hr) as [?|(f & fr & ? & ? & ?)]; [done|].
  by destruct (Hall f fr).
Qed.

(** A fetched page, before it is unpinned: it shows the page's bytes, it can be
    released as it is, and it can be overwritten and released. *)
Record visiting b m (p : N) (bs : list N) b1 (f : N) : Prop := {
  vi_page : page_of f b1 = (b1, Ok (Page.from_bytes bs));
  vi_release : exists b2, unpin_page p false b1 = (b2, Ok ()) /\ served b b2 m;
  vi_store : forall bs', len bs' = Page.PAGE_SIZE -> exists b2 b3,
    put_page f (Page.from_bytes bs') b1 = (b2, Ok ()) /\ unpin_page p true b2 = (b3, Ok ()) /\
    served b b3 (<[p := bs']> m)
}.

Lemma visit_release b m p b1 f fr : represents b m -> fetched b b1 p f fr ->
  exists b2, unpin_page p false b1 = (b2, Ok ()) /\ served b b2 m.
Proof.
  intros Hr Hf. pose proof (rp_idle b m Hr) as Hidle. pose proof (ft_pins _ _ _ _ _ Hf) as Hpf.
  destruct (unpin_page_spec b1 p f fr false (ft_wf _ _ _ _ _ Hf) (ft_serves _ _ _ _ _ Hf))
    as (b2 & He2 & Hb2 & Hc & Hpin & Hk & Hl & Hbk).
  { intros _. right. apply Hf. apply Hidle. }
  exists b2. split; [done|]. split.
  - eapply same_represents; [done|done|eapply same_content_trans; [apply Hf|done]| |by rewrite Hl, (ft_len _ _ _ _ _ Hf)|].
    + intros q. rewrite Hpin, !Hpf, !Hidle. repeat case_decide; done.
    + apply Hbk, Hf, Hr.
  - rewrite Hk, (ft_clock _ _ _ _ _ Hf). lia.
  - intros n Hn. apply Hc. by apply Hf.
Qed.

Lemma visit_store b m p b1 f fr bs : represents b m -> is_Some (m !! p) -> fetched b b1 p f fr ->
  len bs = Page.PAGE_SIZE -> exists b2 b3,
    put_page f (Page.from_bytes bs) b1 = (b2, Ok ()) /\ unpin_page p true b2 = (b3, Ok ()) /\
    served b b3 (<[p := bs]> m).
Proof.
  intros Hr Hp Hf Hlen. pose proof (rp_idle b m Hr) as Hidle. pose proof (ft_pins _ _ _ _ _ Hf) as Hpf.
  destruct (ft_content _ _ _ _ _ Hf) as (Ha1 & Hc1 & Hr1).
  destruct (put_page_spec b1 p f fr (Page.from_bytes bs) (ft_wf _ _ _ _ _ Hf) (ft_serves _ _ _ _ _ Hf) Hlen)
    as (b2 & He2 & Hb2 & Hsv & Hcp & Hcq & Hpin2 & Hd2 & Hk2 & Hl2 & Hbk2).
  destruct (unpin_page_spec b2 p f _ true Hb2 Hsv) as (b3 & He3 & Hb3 & (Ha3 & Hc3 & Hr3) & Hpin3 & Hk3 & Hl3 & Hbk3);
    [by intros _; left|].
  exists b2, b3. split_and!; [done..|]. rewrite Hd2 in Ha3, Hc3, Hr3. split.
  - split; [done| | | | |].
    + apply Hbk3, Hbk2, Hf, Hr.
    + intros q. rewrite Hpin3, !Hpin2, !Hpf, !Hidle. repeat case_decide; done.
    + rewrite Hl3, Hl2, (ft_len _ _ _ _ _ Hf). apply Hr.
    + intros q. rewrite Ha3, Ha1, (rp_dom b m Hr), lookup_insert_is_Some.
      destruct (decide (p = q)); naive_solver.
    + intros q bs'. rewrite lookup_insert_Some. intros [[<- <-]|[Hne Hq]].
      * rewrite Hc3; [done|]. apply Ha1, (rp_dom b m Hr), Hp.
      * assert (allocated (disk b) q) by (apply (rp_dom b m Hr); by eexists).
        rewrite Hc3, Hcq, Hc1; [by apply Hr|done| |done|]; by apply Ha1.
  - rewrite Hk3, Hk2, (ft_clock _ _ _ _ _ Hf). lia.
  - auto.
Qed.

(** With nothing pinned, fetching an existing page succeeds. *)
Lemma visit b m p bs : represents b m -> m !! p = Some bs -> Lru.clock (replacer b) < 2 ^ 64 - 1 ->
  exists b1 f, fetch_page p b = (b1, Ok f) /\ visiting b m p bs b1 f.
Proof.
  intros Hr Hp Hclk. assert (Hs : is_Some (m !! p)) by (by eexists).
  destruct (idle_fetch b m p Hr Hs Hclk) as (b1 & f & fr & He & Hf).
  pose proof (ft_serves _ _ _ _ _ Hf) as Hsv. exists b1, f. split; [done|]. split.
  - destruct (ft_content _ _ _ _ _ Hf) as (_ & Hco & _).
    assert (content b1 p = Ok bs) as Hbs by (rewrite Hco by (by apply (rp_dom b m Hr)); by apply Hr).
    rewrite (content_cached b1 p f fr) in Hbs; [|apply Hf|apply Hsv|apply Hsv].
    unfold page_of, frame, mbind, pool_bind. rewrite (sv_frame _ _ _ _ Hsv). cbn.
    injection Hbs as <-. by destruct (page fr).
  - by eapply visit_release.
  - intros bs' Hlen. by eapply visit_store.
Qed.

Lemma read_op_spec b m p bs : represents b m -> m !! p = Some bs -> Lru.clock (replacer b) < 2 ^ 64 - 1 ->
  exists b', read_op p b = (b', Ok bs) /\ served b b' m.
Proof.
  intros Hr Hp Hclk. destruct (visit b m p bs Hr Hp Hclk) as (b1 & f & He & [Hpg (b2 & Hu & Hs) _]).
  exists b2. unfold read_op, mbind, pool_bind. by rewrite He, Hpg, Hu.
Qed.

Lemma write_op_spec b m p bs : represents b m -> is_Some (m !! p) -> len bs = Page.PAGE_SIZE ->
  Lru.clock (replacer b) < 2 ^ 64 - 1 ->
  exists b', write_op p bs b = (b', Ok ()) /\ served b b' (<[p := bs]> m).
Proof.
  intros Hr [bs0 Hp] Hlen Hclk. destruct (visit b m p bs0 Hr Hp Hclk) as (b1 & f & He & [_ _ Hst]).
  destruct (Hst bs Hlen) as (b2 & b3 & Hw & Hu & Hs). exists b3. unfold write_op, mbind, pool_bind. by rewrite He, Hw, Hu.
Qed.

Lemma alloc_op_spec b m n : represents b m -> room (disk b) (n + 1) -> Lru.clock (replacer b) < 2 ^ 64 - 1 ->
  exists b' p, alloc_op b = (b', Ok p) /\ (forall q, is_Some (m !! q) -> q < p) /\
    represents b' (<[p := Page.as_bytes (Page.new p)]> m) /\ room (disk b') n /\
    Lru.clock (replacer b') <= Lru.clock (replacer b) + 1.
Proof.
  intros Hr Hroom Hclk. pose proof (rp_idle b m Hr) as Hidle.
  pose proof (new_page_spec b n (rp_wf b m Hr) Hroom Hclk) as Hs.
  destruct (new_page b) as [b1 [[p f]|e|]] eqn:He; [|exfalso|done].
  2: { destruct Hs as (_ & _ & Hfree & Hall).
       destruct (represents_frame b m Hr) as [?|(f & fr & ? & ? & ?)]; [done|]. by destruct (Hall f fr). }
  destruct Hs as (Hb1 & Hn & Hroom1 & Ha1 & Hcp & Hcq & Hsv & Hpin1 & Hk1 & Hl1 & Hbk1).
  destruct (unpin_page_spec b1 p f _ true Hb1 Hsv) as (b2 & He2 & Hb2 & (Ha2 & Hc2 & Hr2) & Hpin2 & Hk2 & Hl2 & Hbk2);
    [by intros _; left|].
  exists b2, p. split_and!; [|by intros q Hq%(rp_dom b m Hr); apply Hn| |auto|rewrite Hk2, Hk1; lia].
  { unfold alloc_op, mbind, pool_bind. by rewrite He, He2. }
  set (pg := Page.as_bytes (Page.new p)) in *. clearbody pg. split; [done|apply Hbk2, Hbk1, Hr| | | |].
  - intros q. rewrite Hpin2, !Hpin1, !Hidle. repeat case_decide; done.
  - rewrite Hl2, Hl1. apply Hr.
  - intros q. rewrite Ha2, Ha1, (rp_dom b m Hr), lookup_insert_is_Some.
    destruct (decide (p = q)); naive_solver.
  - intros q bs. rewrite lookup_insert_Some. intros [[<- <-]|[Hne Hq]].
    + rewrite Hc2; [done|]. apply Ha1. by left.
    + assert (allocated (disk b) q) by (apply (rp_dom b m Hr); by eexists).
      rewrite Hc2, Hcq; [by apply Hr|done|]. apply Ha1. by right.
Qed.

(** *** Client programs

    A client performs page operations one after the other and may choose the
    next one from what the earlier ones returned. *)

Inductive client (A : Type) : Type :=
| Return (a : A)
| Read (p : N) (k : list N -> client A)
| Store (p : N) (bs : list N) (k : client A)
| Alloc (k : N -> client A)
| Flush (k : client A).
#[global] Arguments Return {_} a.
#[global] Arguments Read {_} p k.
#[global] Arguments Store {_} p bs k.
#[global] Arguments Alloc {_} k.
#[global] Arguments Flush {_} k.

(** Running it against the pool. *)
Fixpoint run {A} (c : client A) : pool_op (D := D) A :=
  match c with
  | Return a => mret a
  | Read p k => bs ← read_op p; run (k bs)
  | Store p bs k => _ ← write_op p bs; run k
  | Alloc k => p ← alloc_op; run (k p)
  | Flush k => _ ← flush_all; run k
  end.

(** Running it against a map of pages: an allocation picks an unused id. *)
Inductive abs_run {A} : gmap N (list N) -> client A -> A -> gmap N (list N) -> Prop :=
| AbsReturn m a : abs_run m (Return a) a m
| AbsRead m p bs k a m' : m !! p = Some bs -> abs_run m (k bs) a m' -> abs_run m (Read p k) a m'
| AbsStore m p bs k a m' : abs_run (<[p := bs]> m) k a m' -> abs_run m (Store p bs k) a m'
| AbsAlloc m p k a m' : m !! p = None -> abs_run (<[p := Page.as_bytes (Page.new p)]> m) (k p) a m' ->
    abs_run m (Alloc k) a m'
| AbsFlush m k a m' : abs_run m k a m' -> abs_run m (Flush k) a m'.

(** The client touches only pages that exist, stores whole pages, and stops
    within [n] operations. *)
Inductive well_behaved {A} : nat -> gmap N (list N) -> client A -> Prop :=
| WbReturn n m a : well_behaved n m (Return a)
| WbRead n m p bs k : m !! p = Some bs -> well_behaved n m (k bs) -> well_behaved (S n) m (Read p k)
| WbStore n m p bs k : is_Some (m !! p) -> len bs = Page.PAGE_SIZE ->
    well_behaved n (<[p := bs]> m) k -> well_behaved (S n) m (Store p bs k)
| WbAlloc n m k :
    (forall p, m !! p = None -> well_behaved n (<[p := Page.as_bytes (Page.new p)]> m) (k p)) ->
    well_behaved (S n) m (Alloc k)
| WbFlush n m k : well_behaved n m k -> well_behaved (S n) m (Flush k).

Lemma flush_op_spec b m : represents b m ->
  exists b', flush_all b = (b', Ok ()) /\ served b b' m /\
    forall p bs, m !! p = Some bs -> read_page (disk b') p = Ok bs.
Proof.
  intros Hr. destruct (flush_all_spec b (rp_wf b m Hr)) as (b' & He & Hb' & Hc & Hp & Hk & Hl & Hbk & Hd).
  pose proof (rp_idle b m Hr) as Hidle. exists b'. split; [done|]. split; [split|].
  - eapply same_represents; [done..| |done|by apply Hbk, Hr]. intros q. by rewrite Hp.
  - rewrite Hk. lia.
  - apply Hc.
  - intros p bs Hm. rewrite Hd; [by apply Hr|done|]. apply (rp_dom b m Hr). by eexists.
Qed.

Lemma served_budget b b' m' n : served b b' m' -> room (disk b) (N.of_nat (S n)) ->
  Lru.clock (replacer b) + N.of_nat (S n) < 2 ^ 64 ->
  room (disk b') (N.of_nat n) /\ Lru.clock (replacer b') + N.of_nat n < 2 ^ 64.
Proof.
  intros [_ Hk Hr] Hroom Hclk. split; [|lia]. apply Hr. eapply room_le; [|exact Hroom]. lia.
Qed.

(** C2: every client that touches only existing pages runs to completion on
    the buffer pool, whatever the number of frames: no operation fails, pages
    are evicted and written back underneath it, and what it computes is what it
    would compute on a plain map of pages; the pool again represents that map
    at the end. *)
Theorem pool_implements_page_map {A} n m (c : client A) b :
  represents b m -> well_behaved n m c -> room (disk b) (N.of_nat n) ->
  Lru.clock (replacer b) + N.of_nat n < 2 ^ 64 ->
  exists b' a m', run c b = (b', Ok a) /\ abs_run m c a m' /\ represents b' m'.
Proof.
  intros Hr Hwb. revert b Hr.
  induction Hwb as [n m a|n m p bs k Hm _ IH|n m p bs k Hm Hlen _ IH|n m k _ IH|n m k _ IH];
    intros b Hr Hroom Hclk.
  - exists b, a, m. split_and!; [done|constructor|done].
  - destruct (read_op_spec b m p bs) as (b1 & He & Hs); [done|done|lia|].
    destruct (served_budget b b1 m n Hs Hroom Hclk).
    destruct (IH b1) as (b2 & a & m' & He2 & Ha & Hr2); [apply Hs|done..|].
    exists b2, a, m'. cbn. unfold mbind, pool_bind. rewrite He. split_and!; [done|by econstructor|done].
  - destruct (write_op_spec b m p bs) as (b1 & He & Hs); [done|done|done|lia|].
    destruct (served_budget b b1 _ n Hs Hroom Hclk).
    destruct (IH b1) as (b2 & a & m' & He2 & Ha & Hr2); [apply Hs|done..|].
    exists b2, a, m'. cbn. unfold mbind, pool_bind. rewrite He. split_and!; [done|by econstructor|done].
  - destruct (alloc_op_spec b m (N.of_nat n)) as (b1 & p & He & Hm & Hr1 & Hroom1 & Hk1);
      [done|by rewrite Nat2N.inj_succ, <- N.add_1_r in Hroom|lia|].
    assert (Hmp : m !! p = None) by (apply eq_None_not_Some; intros Hp%Hm; lia).
    destruct (IH p Hmp b1) as (b2 & a & m' & He2 & Ha & Hr2); [done|done|lia|].
    exists b2, a, m'. cbn [run]. unfold mbind, pool_bind. rewrite He. split_and!; [done|by econstructor|done].
  - destruct (flush_op_spec b m) as (b1 & He & Hs & _); [done|].
    destruct (served_budget b b1 m n Hs Hroom Hclk).
    destruct (IH b1) as (b2 & a & m' & He2 & Ha & Hr2); [apply Hs|done..|].
    exists b2, a, m'. cbn. unfold mbind, pool_bind. rewrite He. split_and!; [done|by econstructor|done].
Qed.

(** [flush_all] makes the pages durable: throw the pool away and open a
    new one, of any size, over the disk it left, and clients see the same
    pages. *)
Theorem flush_all_durable b m k : represents b m -> 0 < k ->
  exists b', flush_all b = (b', Ok ()) /\ represents b' m /\ represents (new k (disk b')) m.
Proof.
  intros Hr Hk. destruct (flush_op_spec b m Hr) as (b' & He & [Hr' _ _] & Hd). exists b'. split_and!; [done..|].
  destruct (pool_new_wf k (disk b')) as [Hw Hl]; [apply Hr'|]. split; [done|done|done| |apply Hr'|].
  - cbn [frames new]. rewrite length_fmap, length_seq. lia.
  - intros p bs Hm. unfold content. cbn [page_table new]. rewrite lookup_empty. by apply Hd.
Qed.

(** [n] fetches of the same page, keeping the pool each one leaves. *)
Definition fetches (n : nat) (p : N) b : BufferPool D := Nat.iter n (fun b => fst (fetch_page p b)) b.

Lemma failed_fetch_leaks b p e f rest : page_table b !! p = None -> free_list b = f :: rest ->
  read_page (disk b) p = Err e ->
  fetch_page p b = (mkPool (frames b) (page_table b) rest (replacer b) (disk b), Err e).
Proof.
  intros Hp Hf Hr. unfold fetch_page, find_free_frame, mbind, pool_bind, get_pool, lift.
  by rewrite Hp, Hf; cbn; rewrite Hr.
Qed.

(** A fetch whose disk read fails leaks the frame it took: after as many
    such fetches as the pool has frames, [new_page] answers [BufferFull] although
    no page is cached and none is pinned. *)
Theorem failed_fetches_exhaust_pool (d : D) p e k : read_page d p = Err e ->
  exists b, fetches (N.to_nat k) p (new k d) = b /\ page_table b = ∅ /\ new_page b = (b, Err BufferFull).
Proof.
  intros Hr. eexists. split; [done|].
  assert (Hgen : forall n, (n <= N.to_nat k)%nat -> fetches n p (new k d) =
    mkPool (frames (new k d)) ∅ (drop n (free_list (new k d))) (Lru.new k) d).
  { induction n as [|n IH]; intros Hn; [done|]. change (fetches (S n) p (new k d)) with (fst (fetch_page p (fetches n p (new k d)))).
    rewrite IH by lia. pose proof (length_seq (N.to_nat k) 0) as Hl.
    destruct (lookup_lt_is_Some_2 (free_list (new k d)) n) as [f Hf].
    { cbn [free_list new]. rewrite length_fmap. lia. }
    match goal with |- fst (fetch_page p ?b) = _ => rewrite (failed_fetch_leaks b p e f
      (drop (S n) (free_list (new k d))) (lookup_empty _) (drop_S _ _ _ Hf) Hr) end. done. }
  rewrite Hgen, drop_ge by (cbn [free_list new]; rewrite ?length_fmap, ?length_seq; lia). done.
Qed.
End Invariant.

(** ** The pool over the disk manager *)

Lemma pool_over_new_file k : 0 < k -> represents (new k Disk.create) ∅.
Proof.
  intros Hk. destruct (@pool_new_wf _ _ Disk.disk_laws k Disk.create Disk.create_ok) as [Hw Hl].
  split; [done|done|done| | |done].
  - cbn [frames new]. rewrite length_fmap, length_seq. lia.
  - intros p. rewrite lookup_empty. split; [|by intros []].
    intros [H1 H2]. change (Disk.next_page_id _) with 1 in H2. lia.
Qed.

(** Two pages through a single frame: each operation evicts the other page. *)
Definition ping_pong (bs : list N) : client (list N) :=
  Alloc (fun p => Alloc (fun q => Store p bs (Flush (Read q (fun _ => Read p Return))))).

Lemma pool_implements_page_map_witness :
  exists b' a m', run (ping_pong (replicate (N.to_nat Page.PAGE_SIZE) 7)) (new 1 Disk.create) = (b', Ok a) /\
    abs_run ∅ (ping_pong (replicate (N.to_nat Page.PAGE_SIZE) 7)) a m' /\ represents b' m'.
Proof.
  apply (pool_implements_page_map 6); [by apply pool_over_new_file| |by vm_compute|by vm_compute].
  set (bs := replicate (N.to_nat Page.PAGE_SIZE) 7). assert (Hbs : len bs = Page.PAGE_SIZE) by by vm_compute. clearbody bs.
  constructor. intros p Hp. set (new_p := Page.as_bytes (Page.new p)). clearbody new_p.
  constructor. intros q Hq. set (new_q := Page.as_bytes (Page.new q)). clearbody new_q.
  assert (p <> q) by (intros ->; by rewrite lookup_insert_eq in Hq).
  constructor; [rewrite lookup_insert_ne, lookup_insert_eq by done; by eexists|done|].
  constructor. apply (WbRead _ _ _ new_q); [by rewrite lookup_insert_ne, lookup_insert_eq|].
  apply (WbRead _ _ _ bs); [by rewrite lookup_insert_eq|]. constructor.
Defined.

Lemma flush_all_durable_witness :
  exists b', flush_all (new 2 Disk.create) = (b', Ok ()) /\ represents b' ∅ /\
    represents (new 3 (disk b')) ∅.
Proof. apply (flush_all_durable (new 2 Disk.create) ∅ 3); [by apply pool_over_new_file|done]. Defined.

Lemma failed_fetches_exhaust_pool_witness :
  exists b, fetches 2 9 (new 2 Disk.create) = b /\ page_table b = ∅ /\ new_page b = (b, Err BufferFull).
Proof. apply (failed_fetches_exhaust_pool Disk.create 9 Io 2). by vm_compute. Defined.

End Pool.
