(* ===== verification/StoragePins.v ===== *)
(** * Holding pages of the buffer pool

    [StorageBufferPool.v] shows what a client that pins one page at a time sees.
    The B+ tree keeps several pages pinned at once, and its creation leaves its
    meta page pinned for good.  Here the pool is seen by a client that holds a list
    of pages: [holding b m hs] says that the pool presents the map [m] and that the
    pins are those of [hs]. *)

From stdpp Require Import gmap.
From S2P Require Import Prelude Bytes StorageError StoragePage StorageReplacer StorageDisk StorageBufferPool.

Module Pins.
Import Pool.

Abbreviation clock b := (Lru.clock (replacer b)).

Section Pins.
Context {D : Type} `{PageStoreLaws D}.
Implicit Types b : BufferPool D.
Implicit Types m : gmap N (list N).
Implicit Types hs : list N.

(** The pins a client that holds [hs] has on page [q]. *)
Fixpoint held hs (q : N) : N :=
  match hs with
  | [] => 0
  | h :: hs => (if decide (q = h) then 1 else 0) + held hs q
  end.

Record holding b m hs : Prop := {
  hd_wf : pool_wf b;
  hd_books : no_leak b;
  hd_pins : forall q, pins b q = held hs q;
  hd_dom : forall p, allocated (disk b) p <-> is_Some (m !! p);
  hd_content : forall p bs, m !! p = Some bs -> content b p = Ok bs
}.

(** What an operation leaves of the rest: it takes at most [k] ticks of the clock,
    and the held pages stay in their frames. *)
Record after b b' hs (k : N) : Prop := {
  af_clock : clock b' <= clock b + k;
  af_frames : length (frames b') = length (frames b);
  af_room : forall n, room (disk b) n -> room (disk b') n;
  af_stay : forall q f, q ∈ hs -> page_table b !! q = Some f -> page_table b' !! q = Some f
}.

Lemma after_refl b hs : after b b hs 0.
Proof. split; [lia|done..]. Qed.

Lemma after_trans b1 b2 b3 hs k l : after b1 b2 hs k -> after b2 b3 hs l -> after b1 b3 hs (k + l).
Proof. intros [] []. split; [lia|congruence|auto|auto]. Qed.

Lemma after_weaken b b' hs k l : after b b' hs k -> k <= l -> after b b' hs l.
Proof. intros [] ?. split; [lia|done..]. Qed.

Lemma held_pos hs q : held hs q <> 0 <-> q ∈ hs.
Proof.
  induction hs as [|h hs IH]; cbn; [split; [done|by intros ?%elem_of_nil]|].
  rewrite elem_of_cons, <- IH. case_decide; naive_solver lia.
Qed.

Lemma held_le hs q : held hs q <= len hs.
Proof. induction hs as [|h hs IH]; cbn; [done|]. rewrite len_cons. case_decide; lia. Qed.

Lemma idle_holding b m : represents b m -> holding b m [].
Proof. intros []. by split. Qed.

Lemma holding_idle b m : holding b m [] -> (0 < length (frames b))%nat -> represents b m.
Proof. intros [] ?. by split. Qed.

(** A client that holds fewer pages than there are frames finds a frame. *)
Lemma not_full b m hs : holding b m hs -> (length hs < length (frames b))%nat -> free_list b = [] ->
  ~ (forall f fr, frames b !! N.to_nat f = Some fr -> page_id fr <> None -> pin_count fr <> 0).
Proof.
  intros Hh Hlt Hfree Hall. pose proof (hd_wf _ _ _ Hh) as Hb.
  assert (Hload : forall f fr, frames b !! N.to_nat f = Some fr -> exists p, page_id fr = Some p /\ p ∈ hs).
  { intros f fr Hf. destruct (hd_books _ _ _ Hh f fr Hf) as [Hin|Hne]; [rewrite Hfree in Hin; by apply elem_of_nil in Hin|].
    destruct (page_id fr) as [p|] eqn:Hp; [|done]. exists p. split; [done|]. apply held_pos.
    rewrite <- (hd_pins _ _ _ Hh), (pins_frame b f fr p) by done. eapply Hall; [done|congruence]. }
  set (ids := (fun fr => default 0 (page_id fr)) <$> frames b).
  assert (Hid : forall i fr, frames b !! i = Some fr -> exists p, page_id fr = Some p /\ p ∈ hs).
  { intros i fr Hi. apply (Hload (N.of_nat i)). by rewrite Nat2N.id. }
  assert (length ids <= length hs)%nat; [|unfold ids in *; rewrite length_fmap in *; lia].
  apply submseteq_length, NoDup_submseteq.
  - apply NoDup_alt. intros i j p Hi Hj. unfold ids in Hi, Hj. rewrite list_lookup_fmap in Hi, Hj.
    apply fmap_Some in Hi as (fr & Hi & Hpi), Hj as (fr' & Hj & Hpj).
    destruct (Hid i fr Hi) as (p1 & Hp1 & _), (Hid j fr' Hj) as (p2 & Hp2 & _).
    rewrite Hp1, Hp2 in *. cbn in *. subst.
    assert (page_table b !! p2 = Some (N.of_nat i)) by (apply (wf_table b Hb); rewrite Nat2N.id; eauto).
    assert (page_table b !! p2 = Some (N.of_nat j)) by (apply (wf_table b Hb); rewrite Nat2N.id; eauto). simplify_eq.
    by apply Nat2N.inj.
  - intros p (fr & -> & Hfr)%list_elem_of_fmap. apply list_elem_of_lookup in Hfr as [i Hi].
    destruct (Hid i fr Hi) as (p1 & -> & Hin). done.
Qed.

(** *** Tables *)

Lemma put_page_table f pg b : page_table (put_page f pg b).1 = page_table b.
Proof. unfold put_page, mbind, pool_bind, frame. by destruct (frames b !! _). Qed.

Lemma unpin_page_table p d b : page_table (unpin_page p d b).1 = page_table b.
Proof.
  unfold unpin_page, mbind, pool_bind, get_pool, lift, frame. destruct (page_table b !! p); [|done]. cbn.
  destruct (frames b !! _); [|done]. cbn. repeat case_match; done.
Qed.

(** A pinned page stays in its frame. *)
Lemma took_stays b b1 f q g : pool_wf b -> took b b1 f -> page_table b !! q = Some g -> pins b q <> 0 ->
  page_table b1 !! q = Some g.
Proof.
  intros Hb Ht Hq Hp. pose proof Hq as Hq'. apply (wf_table b Hb) in Hq as (fr & Hg & Hid).
  apply (wf_table b1 (tk_wf _ _ _ Ht)). exists fr. split; [|done].
  eapply tk_pinned; [done|done|congruence|]. by rewrite <- (pins_frame b g fr q).
Qed.

Lemma fetch_page_stays b b1 p f q g : pool_wf b -> fetch_page p b = (b1, Ok f) -> page_table b !! q = Some g ->
  pins b q <> 0 -> page_table b1 !! q = Some g.
Proof.
  intros Hb He Hq Hp. unfold fetch_page, mbind, pool_bind, get_pool in He.
  destruct (page_table b !! p) as [f0|] eqn:Hpt.
  { unfold frame in He. destruct (frames b !! _); cbn in He; [|done]. by injection He as <- _. }
  pose proof (find_free_frame_spec b Hb) as Hff. destruct (find_free_frame b) as [b0 [f0| |]]; [|done..].
  pose proof (took_stays b b0 f0 q g Hb Hff Hq Hp) as Hs. unfold lift in He.
  destruct (read_page (disk b0) p); [|done..]. unfold install, mbind, pool_bind, frame in He.
  destruct (frames b0 !! _); [|done]. cbn in He. injection He as <- _. cbn.
  rewrite lookup_insert_ne; [done|congruence].
Qed.

Lemma new_page_stays b b1 p f q g : pool_wf b -> new_page b = (b1, Ok (p, f)) -> page_table b !! q = Some g ->
  pins b q <> 0 -> q <> p -> page_table b1 !! q = Some g.
Proof.
  intros Hb He Hq Hp Hne. unfold new_page, mbind, pool_bind, get_pool in He.
  pose proof (find_free_frame_spec b Hb) as Hff. destruct (find_free_frame b) as [b0 [f0| |]]; [|done..].
  pose proof (took_stays b b0 f0 q g Hb Hff Hq Hp) as Hs. unfold lift in He.
  destruct (allocate_page (disk b0)) as [[d p']| |]; [|done..].
  cbn [set_disk] in He. unfold install, mbind, pool_bind, frame in He. cbn [frames] in He.
  destruct (frames b0 !! _); [|done]. cbn in He. injection He as <- -> _. cbn.
  by rewrite lookup_insert_ne.
Qed.

(** *** The operations of a client that holds pages *)

Lemma held_serves b m hs p f : holding b m hs -> p ∈ hs -> page_table b !! p = Some f ->
  exists fr, serves b p f fr.
Proof.
  intros Hh Hp Ht. pose proof (hd_wf _ _ _ Hh) as Hb. apply (wf_table b Hb) in Ht as (fr & Hf & Hid).
  exists fr. split; [done|done|]. rewrite <- (pins_frame b f fr p), (hd_pins _ _ _ Hh) by done. by apply held_pos.
Qed.

Lemma held_page_of b m hs p f bs : holding b m hs -> p ∈ hs -> page_table b !! p = Some f -> m !! p = Some bs ->
  page_of f b = (b, Ok (Page.from_bytes bs)).
Proof.
  intros Hh Hp Ht Hm. destruct (held_serves b m hs p f Hh Hp Ht) as [fr [Hf Hid _]].
  pose proof (hd_content _ _ _ Hh p bs Hm) as Hc. rewrite (content_cached b p f fr) in Hc by (try done; apply Hh).
  unfold page_of, frame, mbind, pool_bind. rewrite Hf. cbn. injection Hc as <-. by rewrite Page.from_as.
Qed.

Lemma fetch_held b m hs p bs : holding b m hs -> m !! p = Some bs -> (length hs < length (frames b))%nat ->
  len hs < 2 ^ 31 -> clock b < 2 ^ 64 - 1 ->
  exists b1 f, fetch_page p b = (b1, Ok f) /\ holding b1 m (p :: hs) /\ page_table b1 !! p = Some f /\
    after b b1 hs 1 /\
    (p ∉ hs -> exists b2, unpin_page p false b1 = (b2, Ok ()) /\ holding b2 m hs /\ after b1 b2 hs 0).
Proof.
  intros Hh Hm Hlt Hsm Hclk. pose proof (hd_wf _ _ _ Hh) as Hb.
  assert (Ha : allocated (disk b) p) by (apply (hd_dom _ _ _ Hh); by eexists).
  pose proof (held_le hs p) as Hle. pose proof (fetch_page_spec b p Hb Ha Hclk) as Hs.
  rewrite (hd_pins _ _ _ Hh) in Hs. specialize (Hs ltac:(lia)).
  destruct (fetch_page p b) as [b1 [f|e|]] eqn:He; [|exfalso|done].
  2: { destruct Hs as (_ & _ & Hfree & Hall). by apply (not_full b m hs Hh Hlt Hfree). }
  destruct Hs as [fr Hf]. destruct (ft_content _ _ _ _ _ Hf) as (Hal & Hco & Hro).
  pose proof (ft_serves _ _ _ _ _ Hf) as Hsv. pose proof (ft_wf _ _ _ _ _ Hf) as Hb1.
  assert (Hst : forall q g, q ∈ hs -> page_table b !! q = Some g -> page_table b1 !! q = Some g).
  { intros q g Hq Hg. eapply (fetch_page_stays b b1 p f q g Hb He Hg). rewrite (hd_pins _ _ _ Hh). by apply held_pos. }
  assert (Hh1 : holding b1 m (p :: hs)).
  { split; [done|by apply Hf, Hh| | |].
    - intros q. rewrite (ft_pins _ _ _ _ _ Hf), !(hd_pins _ _ _ Hh). cbn [held]. case_decide; [subst; lia|done].
    - intros q. rewrite Hal. apply (hd_dom _ _ _ Hh).
    - intros q bs' Hq. rewrite Hco; [by apply (hd_content _ _ _ Hh)|]. apply (hd_dom _ _ _ Hh). by eexists. }
  exists b1, f. split; [done|]. split; [done|]. split; [|split].
  - apply (wf_table b1 Hb1). exists fr. split; apply Hsv.
  - split; [rewrite (ft_clock _ _ _ _ _ Hf); lia|apply (ft_len _ _ _ _ _ Hf)|done|done].
  - intros Hnin. destruct (unpin_page_spec b1 p f fr false Hb1 Hsv) as (b2 & He2 & Hb2 & (Ha2 & Hc2 & Hr2) & Hpin & Hk & Hl & Hbk).
    { intros _. right. apply (ft_fresh _ _ _ _ _ Hf). rewrite (hd_pins _ _ _ Hh).
      destruct (N.eq_dec (held hs p) 0) as [->|Hne]; [done|]. by apply held_pos in Hne. }
    exists b2. split; [done|]. pose proof (unpin_page_table p false b1) as Ht. rewrite He2 in Ht. cbn in Ht. split.
    + split; [done|by apply Hbk, Hh1| | |].
      * intros q. rewrite Hpin, !(hd_pins _ _ _ Hh1). cbn [held]. rewrite (decide_True (P := p = p)) by done.
        case_decide; [subst; lia|done].
      * intros q. rewrite Ha2. apply (hd_dom _ _ _ Hh1).
      * intros q bs' Hq. rewrite Hc2; [by apply (hd_content _ _ _ Hh1)|]. apply (hd_dom _ _ _ Hh1). by eexists.
    + split; [lia|done|done|]. intros q g _. by rewrite Ht.
Qed.

Lemma put_held b m hs p f pg : holding b m hs -> p ∈ hs -> page_table b !! p = Some f -> is_Some (m !! p) ->
  len (Page.as_bytes pg) = Page.PAGE_SIZE ->
  exists b', put_page f pg b = (b', Ok ()) /\ holding b' (<[p := Page.as_bytes pg]> m) hs /\
    page_table b' = page_table b /\ after b b' hs 0.
Proof.
  intros Hh Hp Ht Hm Hlen. destruct (held_serves b m hs p f Hh Hp Ht) as [fr Hsv].
  destruct (put_page_spec b p f fr pg (hd_wf _ _ _ Hh) Hsv Hlen)
    as (b1 & He & Hb1 & _ & Hcp & Hcq & Hpin & Hd & Hr & Hl & Hbk).
  pose proof (put_page_table f pg b) as Htab. rewrite He in Htab. cbn in Htab.
  exists b1. split; [done|]. split; [split; [done|by apply Hbk, Hh| | |]|split; [done|]].
  - intros q. rewrite Hpin. apply (hd_pins _ _ _ Hh).
  - intros q. rewrite Hd, (hd_dom _ _ _ Hh), lookup_insert_is_Some. destruct (decide (p = q)); naive_solver.
  - intros q bs. rewrite lookup_insert_Some. intros [[<- <-]|[Hne Hq]]; [done|].
    rewrite Hcq; [by apply (hd_content _ _ _ Hh)| |done]. apply (hd_dom _ _ _ Hh). by eexists.
  - split; [rewrite Hr; lia|done|by rewrite Hd|]. intros q g _. by rewrite Htab.
Qed.

Lemma unpin_held b m hs p : holding b m (p :: hs) ->
  exists b', unpin_page p true b = (b', Ok ()) /\ holding b' m hs /\ after b b' hs 0.
Proof.
  intros Hh. pose proof (hd_wf _ _ _ Hh) as Hb. pose proof (hd_pins _ _ _ Hh p) as Hpp. cbn [held] in Hpp.
  rewrite decide_True in Hpp by done. unfold pins in Hpp. destruct (page_table b !! p) as [f|] eqn:Ht; [|lia].
  destruct (held_serves b m (p :: hs) p f Hh ltac:(left) Ht) as [fr Hsv].
  destruct (unpin_page_spec b p f fr true Hb Hsv) as (b2 & He2 & Hb2 & (Ha2 & Hc2 & Hr2) & Hpin & Hk & Hl & Hbk).
  { by left. }
  exists b2. split; [done|]. pose proof (unpin_page_table p true b) as Htab. rewrite He2 in Htab. cbn in Htab. split.
  - split; [done|by apply Hbk, Hh| | |].
    + intros q. rewrite Hpin, !(hd_pins _ _ _ Hh). cbn [held]. rewrite (decide_True (P := p = p)) by done.
      case_decide; [subst; lia|done].
    + intros q. rewrite Ha2. apply (hd_dom _ _ _ Hh).
    + intros q bs' Hq. rewrite Hc2; [by apply (hd_content _ _ _ Hh)|]. apply (hd_dom _ _ _ Hh). by eexists.
  - split; [lia|done|done|]. intros q g _. by rewrite Htab.
Qed.

Lemma new_page_held b m hs n : holding b m hs -> (length hs < length (frames b))%nat -> room (disk b) (n + 1) ->
  clock b < 2 ^ 64 - 1 ->
  exists b1 p f, new_page b = (b1, Ok (p, f)) /\ holding b1 (<[p := Page.as_bytes (Page.new p)]> m) (p :: hs) /\
    page_table b1 !! p = Some f /\ (forall q, is_Some (m !! q) -> q < p) /\ p < 2 ^ 50 /\
    clock b1 <= clock b + 1 /\ length (frames b1) = length (frames b) /\ room (disk b1) n /\
    (forall q g, q ∈ hs -> page_table b !! q = Some g -> page_table b1 !! q = Some g).
Proof.
  intros Hh Hlt Hroom Hclk. pose proof (hd_wf _ _ _ Hh) as Hb. pose proof (new_page_spec b n Hb Hroom Hclk) as Hs.
  destruct (new_page b) as [b1 [[p f]|e|]] eqn:He; [|exfalso|done].
  2: { destruct Hs as (_ & _ & Hfree & Hall). by apply (not_full b m hs Hh Hlt Hfree). }
  destruct Hs as (Hb1 & Hn & Hroom1 & Ha1 & Hcp & Hcq & Hsv & Hpin1 & Hk1 & Hl1 & Hbk1).
  assert (Hnew : forall q, is_Some (m !! q) -> q < p) by (by intros q Hq%(hd_dom _ _ _ Hh); apply Hn).
  assert (Hnh : held hs p = 0).
  { destruct (N.eq_dec (held hs p) 0) as [|Hne]; [done|]. rewrite <- (hd_pins _ _ _ Hh) in Hne. unfold pins in Hne.
    destruct (page_table b !! p) as [g|] eqn:Hg; [|lia]. apply (wf_alloc b Hb), Hn in Hg. lia. }
  exists b1, p, f. split; [done|]. generalize dependent (Page.new p). intros pg Hcp Hsv.
  split; [|split_and!; try done].
  - split; [done|by apply Hbk1, Hh| | |].
    + intros q. rewrite Hpin1. cbn [held]. case_decide; [subst; lia|apply (hd_pins _ _ _ Hh)].
    + intros q. rewrite Ha1, (hd_dom _ _ _ Hh), lookup_insert_is_Some. destruct (decide (p = q)); naive_solver.
    + intros q bs. rewrite lookup_insert_Some. intros [[<- <-]|[Hne Hq]]; [exact Hcp|].
      rewrite Hcq; [by apply (hd_content _ _ _ Hh)|]. apply (hd_dom _ _ _ Hh). by eexists.
  - apply (wf_table b1 Hb1). eexists. split; apply Hsv.
  - apply (allocated_bound (disk b1)); [apply Hb1|]. apply Ha1. by left.
  - lia.
  - intros q g Hq Hg. apply (new_page_stays b b1 p f q g Hb He Hg).
    + rewrite (hd_pins _ _ _ Hh). by apply held_pos.
    + intros ->. by apply held_pos in Hq.
Qed.

(** *** Editing a page in its frame *)

(** [op] applied through [page_mut]. *)
Definition on_page (f : N) (op : Page.Page -> result Page.Page) : pool_op (D := D) () :=
  pg ← page_of f; pg ← lift (op pg); put_page f pg.

Lemma on_page_held b m hs p f bs op pg : holding b m hs -> p ∈ hs -> page_table b !! p = Some f ->
  m !! p = Some bs -> op (Page.from_bytes bs) = Ok pg -> len (Page.as_bytes pg) = Page.PAGE_SIZE ->
  exists b', on_page f op b = (b', Ok ()) /\ holding b' (<[p := Page.as_bytes pg]> m) hs /\
    page_table b' = page_table b /\ after b b' hs 0.
Proof.
  intros Hh Hp Ht Hm Ho Hl. destruct (put_held b m hs p f pg Hh Hp Ht ltac:(by eexists) Hl) as (b' & He & Hh' & Ht' & Ha).
  exists b'. split; [|done]. unfold on_page, mbind, pool_bind, lift.
  by rewrite (held_page_of b m hs p f bs Hh Hp Ht Hm), Ho, He.
Qed.

End Pins.
End Pins.
