(* ===== verification/StorageWal.v ===== *)
(** * The write-ahead log

    Models [crates/storage/src/wal.rs]: the records, their serialisation, the
    log manager with its in-memory buffer, and the reader.  The file is its
    bytes; writes and reads of it succeed when they are in range.  The checksum
    [crc32fast] computes is a parameter.  The refinement theorem relates the
    manager to a list of records split into a durable and a pending part. *)

From S2P Require Import Prelude Bytes StorageError StoragePage StorageDisk.

Module Wal.

Definition INVALID_LSN : N := 0.
Definition RMGR_HEAP : N := 0.
Definition RMGR_XACT : N := 1.
Definition HEAP_INSERT : N := 0.
Definition HEAP_UPDATE : N := 1.
Definition HEAP_DELETE : N := 2.
Definition XACT_COMMIT : N := 0.
Definition XACT_ABORT : N := 1.
Definition XACT_CHECKPOINT : N := 2.
Definition WAL_HEADER_SIZE : N := 34.
Definition BUFFER_SIZE : N := 4 * 1024 * 1024.

Inductive WalRecord : Type :=
  | HeapInsert (table_id page_id slot_id : N) (tuple_data : list N)
  | HeapUpdate (table_id old_page old_slot new_page new_slot old_xmax : N) (new_tuple : list N)
  | HeapDelete (table_id page_id slot_id old_xmax : N)
  | XactCommit (timestamp : N)
  | XactAbort (timestamp : N)
  | Checkpoint (redo_lsn next_xid oldest_xid : N) (active_xids : list N).

Record DecodedRecord : Type := mkDecoded {
  lsn : N;
  prev_lsn : N;
  xid : N;
  record : WalRecord
}.

Record WalManager : Type := mkWal {
  file : list N;
  buffer : list N;
  next_lsn : N;
  flushed_lsn : N;
  last_lsn : N (* the field [prev_lsn] *)
}.

(** ** Serialisation *)

Definition rmgr_and_type (r : WalRecord) : N * N :=
  match r with
  | HeapInsert _ _ _ _ => (RMGR_HEAP, HEAP_INSERT)
  | HeapUpdate _ _ _ _ _ _ _ => (RMGR_HEAP, HEAP_UPDATE)
  | HeapDelete _ _ _ _ => (RMGR_HEAP, HEAP_DELETE)
  | XactCommit _ => (RMGR_XACT, XACT_COMMIT)
  | XactAbort _ => (RMGR_XACT, XACT_ABORT)
  | Checkpoint _ _ _ _ => (RMGR_XACT, XACT_CHECKPOINT)
  end.

Definition serialize_body (r : WalRecord) : list N :=
  match r with
  | HeapInsert table_id page_id slot_id tuple_data =>
      le_bytes 4 table_id ++ le_bytes 8 page_id ++ le_bytes 2 slot_id ++
      le_bytes 2 (u16 (len tuple_data)) ++ tuple_data
  | HeapUpdate table_id old_page old_slot new_page new_slot old_xmax new_tuple =>
      le_bytes 4 table_id ++ le_bytes 8 old_page ++ le_bytes 2 old_slot ++
      le_bytes 8 new_page ++ le_bytes 2 new_slot ++ le_bytes 8 old_xmax ++
      le_bytes 2 (u16 (len new_tuple)) ++ new_tuple
  | HeapDelete table_id page_id slot_id old_xmax =>
      le_bytes 4 table_id ++ le_bytes 8 page_id ++ le_bytes 2 slot_id ++ le_bytes 8 old_xmax
  | XactCommit timestamp | XactAbort timestamp => le_bytes 8 timestamp
  | Checkpoint redo_lsn next_xid oldest_xid active_xids =>
      le_bytes 8 redo_lsn ++ le_bytes 8 next_xid ++ le_bytes 8 oldest_xid ++
      le_bytes 4 (u32 (len active_xids)) ++ concat (le_bytes 8 <$> active_xids)
  end.

(** [u64::from_le_bytes(data[a..b])] and its narrower versions. *)
Definition get_le (d : list N) (a b : N) : result N := s ← slice d a b; Ok (le_value s).

Fixpoint decode_xids (body : list N) (n : nat) (i : N) : result (list N) :=
  match n with
  | O => Ok []
  | S n =>
      x ← get_le body (28 + i * 8) (36 + i * 8);
      xs ← decode_xids body n (i + 1);
      Ok (x :: xs)
  end.

Definition decode_body (rmgr_id record_type : N) (body : list N) : result WalRecord :=
  if (rmgr_id =? RMGR_HEAP) && (record_type =? HEAP_INSERT) then
    if len body <? 16 then Err Corruption
    else
      table_id ← get_le body 0 4;
      page_id ← get_le body 4 12;
      slot_id ← get_le body 12 14;
      tuple_len ← get_le body 14 16;
      tuple_data ← slice body 16 (16 + tuple_len);
      Ok (HeapInsert table_id page_id slot_id tuple_data)
  else if (rmgr_id =? RMGR_HEAP) && (record_type =? HEAP_DELETE) then
    if len body <? 18 then Err Corruption
    else
      table_id ← get_le body 0 4;
      page_id ← get_le body 4 12;
      slot_id ← get_le body 12 14;
      old_xmax ← get_le body 14 22;
      Ok (HeapDelete table_id page_id slot_id old_xmax)
  else if (rmgr_id =? RMGR_XACT) && (record_type =? XACT_COMMIT) then
    timestamp ← get_le body 0 8; Ok (XactCommit timestamp)
  else if (rmgr_id =? RMGR_XACT) && (record_type =? XACT_ABORT) then
    timestamp ← get_le body 0 8; Ok (XactAbort timestamp)
  else if (rmgr_id =? RMGR_XACT) && (record_type =? XACT_CHECKPOINT) then
    redo_lsn ← get_le body 0 8;
    next_xid ← get_le body 8 16;
    oldest_xid ← get_le body 16 24;
    n ← get_le body 24 28;
    active_xids ← decode_xids body (N.to_nat n) 0;
    Ok (Checkpoint redo_lsn next_xid oldest_xid active_xids)
  else Err Corruption.

Definition decode_record (data : list N) (at_lsn : N) : result (DecodedRecord * N) :=
  if len data <? WAL_HEADER_SIZE then Err Corruption
  else
    stored_lsn ← get_le data 0 8;
    prev ← get_le data 8 16;
    x ← get_le data 16 24;
    rmgr_id ← or_panic (data !! 24%nat);
    record_type ← or_panic (data !! 25%nat);
    total_len ← get_le data 26 30;
    if negb (stored_lsn =? at_lsn) then Err Corruption
    else if (total_len <? WAL_HEADER_SIZE) || (len data <? total_len) then Err Corruption
    else
      body ← slice data WAL_HEADER_SIZE total_len;
      r ← decode_body rmgr_id record_type body;
      Ok (mkDecoded at_lsn prev x r, total_len).

(** ** The reader *)

Record WalReader : Type := mkReader {
  data : list N;
  pos : N;
  base_lsn : N
}.

Definition reader_new (f : list N) (start_lsn end_lsn : N) : result WalReader :=
  if end_lsn <=? start_lsn then Ok (mkReader [] 0 start_lsn)
  else
    d ← Disk.file_read f start_lsn (end_lsn - start_lsn);
    Ok (mkReader d 0 start_lsn).

Definition next_record (rd : WalReader) : WalReader * option (result DecodedRecord) :=
  if len (data rd) <? pos rd + WAL_HEADER_SIZE then (rd, None)
  else
    match (d ← slice (data rd) (pos rd) (len (data rd)); decode_record d (wadd 64 (base_lsn rd) (pos rd))) with
    | Ok (rec, consumed) => (mkReader (data rd) (pos rd + consumed) (base_lsn rd), Some (Ok rec))
    | Err e => (rd, Some (Err e))
    | Panic => (rd, Some Panic)
    end.

Definition read_from (w : WalManager) (start_lsn : N) : result WalReader :=
  reader_new (file w) start_lsn (flushed_lsn w).

(** The loops [while let Some(res) = reader.next_record() { let rec = res?; ... }]
    of recovery: the records, or the first error.  A record takes at least a
    header, so as many rounds as the data has bytes are enough. *)
Fixpoint drain (fuel : nat) (rd : WalReader) : result (list DecodedRecord) :=
  match fuel with
  | O => Ok []
  | S fuel =>
      match next_record rd with
      | (_, None) => Ok []
      | (rd, Some res) => rec ← res; recs ← drain fuel rd; Ok (rec :: recs)
      end
  end.

Definition read_log (w : WalManager) (start_lsn : N) : result (list DecodedRecord) :=
  rd ← read_from w start_lsn; drain (S (length (data rd))) rd.

(** ** The manager *)

Definition create : WalManager := mkWal [] [] 0 INVALID_LSN INVALID_LSN.

(** [scan_wal_end]: the length of the file. *)
Definition scan_wal_end (f : list N) : N := len f.

Definition open (f : list N) : WalManager :=
  let end_lsn := scan_wal_end f in mkWal f [] end_lsn end_lsn INVALID_LSN.

Definition flush (w : WalManager) : WalManager * result N :=
  match buffer w with
  | [] => (w, Ok (flushed_lsn w))
  | _ =>
      let f := Disk.file_write (file w) (flushed_lsn w) (buffer w) in
      let new_flushed := wadd 64 (flushed_lsn w) (len (buffer w)) in
      (mkWal f [] (next_lsn w) new_flushed (last_lsn w), Ok new_flushed)
  end.

Section Checksum.
Variable crc32 : list N -> N.

Definition build_header (at_lsn prev x : N) (r : WalRecord) (total_len : N) (body : list N) : list N :=
  let '(rmgr_id, record_type) := rmgr_and_type r in
  let h := replicate (N.to_nat WAL_HEADER_SIZE) 0 in
  let h := h.[0 <- le_bytes 8 at_lsn] in
  let h := h.[8 <- le_bytes 8 prev] in
  let h := h.[16 <- le_bytes 8 x] in
  let h := h.[24 <- [rmgr_id]] in
  let h := h.[25 <- [record_type]] in
  let h := h.[26 <- le_bytes 4 total_len] in
  h.[30 <- le_bytes 4 (crc32 (h ++ body))].

Definition write_record (w : WalManager) (x : N) (r : WalRecord) : WalManager * result N :=
  let body := serialize_body r in
  let total_len := WAL_HEADER_SIZE + len body in
  let at_lsn := next_lsn w in
  let header := build_header at_lsn (last_lsn w) x r (u32 total_len) body in
  let w := mkWal (file w) (buffer w ++ header ++ body) (wadd 64 at_lsn total_len) (flushed_lsn w) at_lsn in
  if BUFFER_SIZE / 2 <=? len (buffer w) then
    let '(w, res) := flush w in (w, _ ← res; Ok at_lsn)
  else (w, Ok at_lsn).

End Checksum.

(** ** Reading back what was written *)

Lemma slice_skip {E A} (x l : list A) a b : len x <= a -> a <= b ->
  slice (E := E) (x ++ l) a b = slice l (a - len x) (b - len x).
Proof.
  intros Ha Hb. unfold slice. rewrite len_app. rewrite read_at_app_r by lia.
  replace (b - len x - (a - len x)) with (b - a) by lia.
  case_cmp; cbn; try done; exfalso; lia.
Qed.

Lemma slice_here {E A} (x l : list A) b : b = len x -> slice (E := E) (x ++ l) 0 b = Ok x.
Proof.
  intros ->. rewrite slice_ok by (rewrite ?len_app; lia).
  f_equal. rewrite N.sub_0_r. by apply read_at_prefix.
Qed.

Lemma get_le_skip n v l a b : N.of_nat n <= a -> a <= b ->
  get_le (le_bytes n v ++ l) a b = get_le l (a - N.of_nat n) (b - N.of_nat n).
Proof. intros Ha Hb. unfold get_le. by rewrite slice_skip, !len_le_bytes by (rewrite ?len_le_bytes; done). Qed.

Lemma get_le_here n v l b : b = N.of_nat n -> v < 256 ^ N.of_nat n -> get_le (le_bytes n v ++ l) 0 b = Ok v.
Proof.
  intros -> Hv. unfold get_le. rewrite slice_here by (by rewrite len_le_bytes). cbn.
  by rewrite le_value_le_bytes_small.
Qed.

Lemma get_le_all n v b : b = N.of_nat n -> v < 256 ^ N.of_nat n -> get_le (le_bytes n v) 0 b = Ok v.
Proof. intros. rewrite <- (app_nil_r (le_bytes n v)). by apply get_le_here. Qed.

(** Reads one field of a serialised record. *)
Ltac get_field :=
  match goal with |- mbind ?k (get_le ?d ?a ?b) = _ =>
    let E := fresh "E" in
    eassert (E : get_le d a b = Ok _);
    [repeat (rewrite get_le_skip by (cbn; lia));
     first [apply get_le_here; [reflexivity|cbn in *; lia] | apply get_le_all; [reflexivity|cbn in *; lia]]
    |rewrite E; clear E; cbn [mbind outcome_bind]]
  end.

(** The records whose fields fit their widths and that the reader knows. *)
Definition record_ok (r : WalRecord) : Prop :=
  match r with
  | HeapInsert t p s d => t < 2 ^ 32 /\ p < 2 ^ 64 /\ s < 2 ^ 16 /\ len d < 2 ^ 16
  | HeapUpdate _ _ _ _ _ _ _ => False
  | HeapDelete t p s x => t < 2 ^ 32 /\ p < 2 ^ 64 /\ s < 2 ^ 16 /\ x < 2 ^ 64
  | XactCommit t | XactAbort t => t < 2 ^ 64
  | Checkpoint r n o xs => r < 2 ^ 64 /\ n < 2 ^ 64 /\ o < 2 ^ 64 /\ len xs < 2 ^ 28 /\ Forall (fun x => x < 2 ^ 64) xs
  end.

Lemma decode_xids_ok pre xs i : len pre = 28 + i * 8 -> Forall (fun x => x < 2 ^ 64) xs ->
  decode_xids (pre ++ concat (le_bytes 8 <$> xs)) (length xs) i = Ok xs.
Proof.
  revert pre i. induction xs as [|x xs IH]; intros pre i Hp Hx; [done|].
  apply Forall_cons in Hx as [Hx Hxs]. cbn [length decode_xids fmap list_fmap concat].
  unfold get_le at 1. rewrite slice_skip by lia. replace (28 + i * 8 - len pre) with 0 by lia.
  rewrite slice_here by (rewrite len_le_bytes; lia). cbn [mbind outcome_bind].
  rewrite le_value_le_bytes_small by done. rewrite app_assoc, IH; [done| |done].
  rewrite len_app, len_le_bytes. lia.
Qed.

Lemma decode_serialized r : record_ok r ->
  decode_body (rmgr_and_type r).1 (rmgr_and_type r).2 (serialize_body r) = Ok r.
Proof.
  destruct r as [t p s d| |t p s x|t|t|rd nx ox xs]; cbn [record_ok]; intros Hr; [| | | | |];
    unfold decode_body, rmgr_and_type, serialize_body; cbn [fst snd];
    repeat match goal with |- context [?a =? ?b] =>
      let v := eval vm_compute in (a =? b) in change (a =? b) with v end; cbn [andb].
  - destruct Hr as (? & ? & ? & Hd).
    rewrite (proj2 (N.ltb_ge _ _)) by (rewrite !len_app, !len_le_bytes; lia).
    unfold u16. rewrite wrap_small by done. do 4 get_field.
    rewrite !app_assoc, slice_skip by (rewrite ?len_app, ?len_le_bytes; cbn; lia).
    rewrite !len_app, !len_le_bytes. rewrite <- (app_nil_r d) at 1. rewrite slice_here; [done|cbn; lia].
  - done.
  - destruct Hr as (? & ? & ? & ?).
    rewrite (proj2 (N.ltb_ge _ _)) by (rewrite !len_app, !len_le_bytes; lia). by do 4 get_field.
  - by get_field.
  - by get_field.
  - destruct Hr as (? & ? & ? & Hl & Hxs). unfold u32. rewrite wrap_small by lia. do 4 get_field.
    rewrite !app_assoc, len_length, decode_xids_ok; [done| |done]. by rewrite !len_app, !len_le_bytes.
Qed.

(** ** The log as a list of records *)

Section Refinement.
Variable crc32 : list N -> N.

(** The bytes of one record in the log. *)
Definition entry (d : DecodedRecord) : list N :=
  let body := serialize_body (record d) in
  build_header crc32 (lsn d) (prev_lsn d) (xid d) (record d) (u32 (WAL_HEADER_SIZE + len body)) body ++ body.

Definition entries (ds : list DecodedRecord) : list N := concat (entry <$> ds).

Definition entry_ok (d : DecodedRecord) : Prop :=
  lsn d < 2 ^ 64 /\ prev_lsn d < 2 ^ 64 /\ xid d < 2 ^ 64 /\ record_ok (record d).

(** The records lie one after the other from offset [base] on. *)
Fixpoint placed (base : N) (ds : list DecodedRecord) : Prop :=
  match ds with
  | [] => True
  | d :: ds => lsn d = base /\ placed (base + len (entry d)) ds
  end.

Lemma build_header_layout at_lsn prev x r total body :
  exists crc, build_header crc32 at_lsn prev x r total body =
    le_bytes 8 at_lsn ++ le_bytes 8 prev ++ le_bytes 8 x ++
    [(rmgr_and_type r).1; (rmgr_and_type r).2] ++ le_bytes 4 total ++ le_bytes 4 crc.
Proof. unfold build_header. destruct (rmgr_and_type r). eexists. reflexivity. Qed.

Lemma build_header_layout_bytes at_lsn prev x r total body :
  exists c0 c1 c2 c3, build_header crc32 at_lsn prev x r total body =
    le_bytes 8 at_lsn ++ le_bytes 8 prev ++ le_bytes 8 x ++
    [(rmgr_and_type r).1; (rmgr_and_type r).2] ++ le_bytes 4 total ++ [c0; c1; c2; c3].
Proof. destruct (build_header_layout at_lsn prev x r total body) as [crc ->]. by repeat eexists. Qed.

Lemma len_entry d : len (entry d) = WAL_HEADER_SIZE + len (serialize_body (record d)).
Proof.
  unfold entry. rewrite len_app. f_equal.
  destruct (build_header_layout (lsn d) (prev_lsn d) (xid d) (record d)
    (u32 (WAL_HEADER_SIZE + len (serialize_body (record d)))) (serialize_body (record d))) as [crc ->].
  by rewrite !len_app, !len_le_bytes.
Qed.

Lemma len_concat_le8 xs : len (concat (le_bytes 8 <$> xs)) = 8 * len xs.
Proof. induction xs as [|x xs IH]; [done|]. cbn [fmap list_fmap concat]. rewrite len_app, len_cons, IH, len_le_bytes. lia. Qed.

Lemma len_body r : record_ok r -> len (serialize_body r) < 2 ^ 31 + 2 ^ 30.
Proof.
  destruct r; cbn [record_ok serialize_body]; intros; [|done|..];
    rewrite ?len_app, ?len_le_bytes, ?len_concat_le8; lia.
Qed.

Lemma entry_layout d : entry_ok d ->
  exists crc hd, length hd = 2%nat /\ bytes_ok hd /\ hd !! 0%nat = Some (rmgr_and_type (record d)).1 /\
    hd !! 1%nat = Some (rmgr_and_type (record d)).2 /\ len (entry d) < 2 ^ 32 /\
    entry d = (le_bytes 8 (lsn d) ++ le_bytes 8 (prev_lsn d) ++ le_bytes 8 (xid d) ++ hd ++
      le_bytes 4 (len (entry d)) ++ le_bytes 4 crc) ++ serialize_body (record d).
Proof.
  intros (Hl & Hp & Hx & Hr). pose proof (len_body _ Hr) as Hb. pose proof (len_entry d) as Hlen.
  rewrite Hlen. unfold entry, WAL_HEADER_SIZE in *. set (body := serialize_body (record d)) in *.
  rewrite u32_small by lia.
  destruct (build_header_layout (lsn d) (prev_lsn d) (xid d) (record d) (34 + len body) body) as [crc ->].
  eexists crc, _. split_and!; [| | | | |reflexivity]; [done| |done|done|lia].
  by destruct (record d); repeat constructor.
Qed.

Lemma decode_entry d rest : entry_ok d -> decode_record (entry d ++ rest) (lsn d) = Ok (d, len (entry d)).
Proof.
  intros Hok. pose proof (len_entry d) as Hlen.
  destruct (entry_layout d Hok) as (crc & hd & Hn & Hbs & H0 & H1 & Htl & He). destruct Hok as (Hl & Hp & Hx & Hr).
  unfold decode_record. rewrite len_app. rewrite (proj2 (N.ltb_ge _ _)) by lia.
  set (total := len (entry d)) in *. clearbody total. rewrite He. clear He.
  assert (Hhd : hd = le_bytes 2 (le_value hd)) by (symmetry; by apply le_bytes_le_value).
  rewrite <- (app_assoc _ (serialize_body _)). set (tl := serialize_body (record d) ++ rest).
  match goal with |- context [get_le ?e 0 8] => set (l := e) end.
  assert (H24 : l !! 24%nat = Some (rmgr_and_type (record d)).1).
  { rewrite <- H0. destruct hd as [|? [|? [|]]]; done. }
  assert (H25 : l !! 25%nat = Some (rmgr_and_type (record d)).2).
  { rewrite <- H1. destruct hd as [|? [|? [|]]]; done. }
  rewrite H24, H25. unfold l. rewrite <- !app_assoc. do 3 get_field. cbn [or_panic mbind outcome_bind].
  rewrite Hhd. get_field. rewrite N.eqb_refl. cbn [negb].
  rewrite (proj2 (N.ltb_ge _ _)) by lia. rewrite (proj2 (N.ltb_ge _ _)) by lia. cbn [orb].
  assert (Hl34 : len hd = 2) by (unfold len; by rewrite Hn).
  rewrite <- Hhd, !(app_assoc _ _ tl).
  rewrite slice_skip by (rewrite ?len_app, ?len_le_bytes, ?Hl34; unfold WAL_HEADER_SIZE in *; cbn; lia).
  rewrite !len_app, !len_le_bytes, Hl34. unfold tl.
  rewrite slice_here by (unfold WAL_HEADER_SIZE in *; cbn; lia).
  cbn [mbind outcome_bind]. rewrite decode_serialized by done. by destruct d.
Qed.

Lemma entries_app ds es : entries (ds ++ es) = entries ds ++ entries es.
Proof. unfold entries. by rewrite fmap_app, concat_app. Qed.

Lemma entries_cons d ds : entries (d :: ds) = entry d ++ entries ds.
Proof. done. Qed.

Lemma placed_app base ds es :
  placed base (ds ++ es) <-> placed base ds /\ placed (base + len (entries ds)) es.
Proof.
  revert base. induction ds as [|d ds IH]; intros base; cbn [app placed].
  - change (len (entries [])) with 0. rewrite N.add_0_r. tauto.
  - rewrite IH, entries_cons, len_app, N.add_assoc. tauto.
Qed.

Lemma length_entries ds : (length ds <= length (entries ds))%nat.
Proof.
  induction ds as [|d ds IH]; [done|]. rewrite entries_cons, length_app. cbn [length].
  pose proof (len_entry d). unfold len, WAL_HEADER_SIZE in *. lia.
Qed.

(** The reader returns the records it stands before, and then stops. *)
Lemma drain_entries ds pre base fuel : Forall entry_ok ds -> placed (base + len pre) ds ->
  base + len pre + len (entries ds) < 2 ^ 64 -> (length ds < fuel)%nat ->
  drain fuel (mkReader (pre ++ entries ds) (len pre) base) = Ok ds.
Proof.
  revert pre fuel. induction ds as [|d ds IH]; intros pre fuel Hok Hpl Hw Hf;
    (destruct fuel as [|fuel]; [cbn in Hf; lia|]); cbn [drain]; unfold next_record; cbn [data pos base_lsn].
  - rewrite (proj2 (N.ltb_lt _ _)); [done|]. rewrite len_app. change (len (entries [])) with 0. unfold WAL_HEADER_SIZE. lia.
  - apply Forall_cons in Hok as [Hd Hok]. destruct Hpl as [Hl Hpl]. rewrite entries_cons in *.
    pose proof (len_entry d) as Hlen. rewrite !len_app in *.
    rewrite (proj2 (N.ltb_ge _ _)) by lia. rewrite slice_skip by lia. rewrite N.sub_diag.
    rewrite slice_ok by (rewrite ?len_app; lia).
    rewrite read_at_all by (rewrite ?len_app; lia). cbn [mbind outcome_bind].
    rewrite wadd_small by lia. rewrite <- Hl, decode_entry by done. cbn [mbind outcome_bind].
    replace (len pre + len (entry d)) with (len (pre ++ entry d)) by (rewrite len_app; lia).
    rewrite app_assoc, IH; [done|done| | |].
    + rewrite len_app, N.add_assoc. exact Hpl.
    + rewrite len_app. lia.
    + cbn in Hf. lia.
Qed.

(** *** The specification: durable records, then pending ones *)

Record abs_log : Type := mkAbs {
  durable : list DecodedRecord;
  pending : list DecodedRecord;
  chain : N (* the LSN of the last record of this session *)
}.

Inductive wal_op : Type :=
  | Append (x : N) (r : WalRecord)
  | Flush
  | Restart. (* the process stops and the log file is opened again *)

Definition size (ds : list DecodedRecord) : N := len (entries ds).

Definition abs_flush (s : abs_log) : abs_log := mkAbs (durable s ++ pending s) [] (chain s).

Definition abs_step (s : abs_log) (op : wal_op) : abs_log * N :=
  match op with
  | Append x r =>
      let at_lsn := size (durable s ++ pending s) in
      let s := mkAbs (durable s) (pending s ++ [mkDecoded at_lsn (chain s) x r]) at_lsn in
      ((if BUFFER_SIZE / 2 <=? size (pending s) then abs_flush s else s), at_lsn)
  | Flush => (abs_flush s, size (durable s ++ pending s))
  | Restart => (mkAbs (durable s) [] INVALID_LSN, size (durable s))
  end.

Definition wal_step (w : WalManager) (op : wal_op) : WalManager * result N :=
  match op with
  | Append x r => write_record crc32 w x r
  | Flush => flush w
  | Restart => let w := open (file w) in (w, Ok (next_lsn w))
  end.

Fixpoint wal_run (w : WalManager) (ops : list wal_op) : WalManager * list (result N) :=
  match ops with
  | [] => (w, [])
  | op :: ops => let '(w, r) := wal_step w op in let '(w, rs) := wal_run w ops in (w, r :: rs)
  end.

Fixpoint abs_run (s : abs_log) (ops : list wal_op) : abs_log * list N :=
  match ops with
  | [] => (s, [])
  | op :: ops => let '(s, r) := abs_step s op in let '(s, rs) := abs_run s ops in (s, r :: rs)
  end.

Definition op_ok (op : wal_op) : Prop :=
  match op with
  | Append x r => x < 2 ^ 64 /\ record_ok r
  | _ => True
  end.

(** The bytes an operation adds to the log. *)
Definition op_size (op : wal_op) : N :=
  match op with
  | Append _ r => WAL_HEADER_SIZE + len (serialize_body r)
  | _ => 0
  end.

Definition ops_size (ops : list wal_op) : N := foldr (fun op n => op_size op + n) 0 ops.

Record refines (w : WalManager) (s : abs_log) : Prop := {
  rf_file : file w = entries (durable s);
  rf_buffer : buffer w = entries (pending s);
  rf_flushed : flushed_lsn w = size (durable s);
  rf_next : next_lsn w = size (durable s ++ pending s);
  rf_chain : last_lsn w = chain s /\ chain s < 2 ^ 64;
  rf_placed : placed 0 (durable s ++ pending s);
  rf_ok : Forall entry_ok (durable s ++ pending s)
}.

Lemma file_write_append (f bs : list N) : Disk.file_write f (len f) bs = f ++ bs.
Proof.
  unfold Disk.file_write, write_at. rewrite len_length, take_app_length.
  rewrite drop_ge, app_nil_r; [done|]. rewrite length_app, length_replicate. unfold len. lia.
Qed.

Lemma size_app ds es : size (ds ++ es) = size ds + size es.
Proof. unfold size. by rewrite entries_app, len_app. Qed.

Lemma flush_refines w s : refines w s -> size (durable s ++ pending s) < 2 ^ 64 ->
  refines (fst (flush w)) (abs_flush s) /\ snd (flush w) = Ok (size (durable s ++ pending s)).
Proof.
  intros [Hf Hb Hfl Hn Hc Hp Hok] Hw. rewrite size_app in *. unfold flush, abs_flush.
  destruct (buffer w) as [|c b] eqn:E.
  - assert (Hpe : pending s = []).
    { destruct (pending s) as [|d ds]; [done|]. rewrite entries_cons in Hb. symmetry in Hb.
      apply app_nil in Hb as [Hb _]. pose proof (len_entry d). rewrite Hb in *. unfold WAL_HEADER_SIZE in *.
      rewrite len_nil in *. lia. }
    rewrite Hpe, !app_nil_r in *. change (size []) with 0 in *. rewrite !N.add_0_r in *.
    cbn [fst snd]. split; [|by rewrite Hfl]. by split; cbn; rewrite ?app_nil_r.
  - cbn [fst snd]. rewrite Hfl, Hb, wadd_small by (unfold size in *; lia).
    split; [|done]. split; cbn [file buffer next_lsn flushed_lsn last_lsn durable pending chain];
      rewrite ?app_nil_r, ?size_app; try done.
    rewrite Hf, entries_app. apply file_write_append.
Qed.

Lemma append_refines w s x r : refines w s -> x < 2 ^ 64 -> record_ok r ->
  size (durable s ++ pending s) + op_size (Append x r) < 2 ^ 64 ->
  refines (fst (write_record crc32 w x r)) (fst (abs_step s (Append x r))) /\
  snd (write_record crc32 w x r) = Ok (snd (abs_step s (Append x r))).
Proof.
  intros [Hf Hb Hfl Hn [Hc Hcw] Hp Hok] Hx Hr Hw. cbn [op_size] in Hw.
  unfold write_record. cbn [abs_step durable pending chain]. rewrite Hn, Hc, Hb.
  set (at_lsn := size (durable s ++ pending s)) in *. set (d := mkDecoded at_lsn (chain s) x r).
  change (build_header _ _ _ _ _ _ _ ++ _) with (entry d).
  assert (Hent : entries (pending s) ++ entry d = entries (pending s ++ [d])).
  { rewrite entries_app. unfold entries at 3. cbn. by rewrite app_nil_r. }
  rewrite Hent. cbn [buffer file]. fold (size (pending s ++ [d])).
  assert (Hld : size [d] = WAL_HEADER_SIZE + len (serialize_body r)).
  { unfold size, entries. cbn. rewrite app_nil_r. apply len_entry. }
  rewrite wadd_small by lia.
  set (w' := mkWal _ _ _ _ _). set (s' := mkAbs (durable s) (pending s ++ [d]) at_lsn).
  assert (Hr' : refines w' s').
  { split; cbn [durable pending chain w' s' file buffer flushed_lsn next_lsn last_lsn]; try done.
    - rewrite app_assoc, size_app, Hld. done.
    - split; [done|]. unfold WAL_HEADER_SIZE in *. lia.
    - rewrite app_assoc. apply placed_app. split; [done|]. split; [cbn|done]. unfold at_lsn, size. lia.
    - rewrite app_assoc. apply Forall_app. split; [done|]. repeat constructor; cbn; [|done|done|done].
      unfold WAL_HEADER_SIZE in *. lia. }
  assert (Hsz : size (durable s' ++ pending s') < 2 ^ 64).
  { cbn. rewrite app_assoc, size_app, Hld. lia. }
  destruct (flush_refines w' s' Hr' Hsz) as [Hfr Hfo].
  destruct (_ <=? _); cbn [fst snd]; [|done]. destruct (flush w') as [w2 res]. cbn in *. by rewrite Hfo.
Qed.

Lemma restart_refines w s : refines w s -> refines (open (file w)) (fst (abs_step s Restart)) /\
  next_lsn (open (file w)) = size (durable s).
Proof.
  intros [Hf Hb Hfl Hn _ Hp Hok]. cbn. unfold scan_wal_end. rewrite Hf. split; [|done].
  apply placed_app in Hp as [Hp _]. apply Forall_app in Hok as [Hok _].
  split; cbn; rewrite ?app_nil_r; done.
Qed.

Lemma wal_run_refines ops w s : refines w s -> Forall op_ok ops ->
  size (durable s ++ pending s) + ops_size ops < 2 ^ 64 ->
  refines (fst (wal_run w ops)) (fst (abs_run s ops)) /\
  snd (wal_run w ops) = Ok <$> snd (abs_run s ops) /\
  size (durable (fst (abs_run s ops)) ++ pending (fst (abs_run s ops))) < 2 ^ 64.
Proof.
  revert w s. induction ops as [|op ops IH]; intros w s Hr Hok Hw; cbn [wal_run abs_run].
  { cbn in *. split_and!; [done..|lia]. }
  apply Forall_cons in Hok as [Ho Hok]. cbn [ops_size foldr] in Hw. fold (ops_size ops) in Hw.
  assert (Hstep : refines (fst (wal_step w op)) (fst (abs_step s op)) /\
    snd (wal_step w op) = Ok (snd (abs_step s op)) /\
    size (durable (fst (abs_step s op)) ++ pending (fst (abs_step s op))) <=
      size (durable s ++ pending s) + op_size op).
  { destruct op as [x r| |]; cbn [wal_step].
    - destruct Ho. destruct (append_refines w s x r) as [? ?]; [done|done|done|lia|]. split_and!; [done..|].
      cbn [abs_step fst op_size].
      assert (forall d, record d = r -> size [d] = WAL_HEADER_SIZE + len (serialize_body r)) as Hd.
      { intros d <-. unfold size, entries. cbn. rewrite app_nil_r. apply len_entry. }
      destruct (_ <=? _); cbn [durable pending abs_flush]; rewrite ?app_nil_r, !size_app, Hd by done; lia.
    - destruct (flush_refines w s) as [? ?]; [done|lia|]. split_and!; [done..|].
      cbn [abs_step fst abs_flush durable pending op_size]. rewrite app_nil_r. lia.
    - destruct (restart_refines w s Hr) as [? Hn]. cbn [fst snd]. rewrite Hn. split_and!; [done..|].
      cbn [abs_step fst durable pending op_size]. rewrite app_nil_r, size_app. lia. }
  destruct Hstep as (Hr' & Hres & Hsz).
  destruct (wal_step w op) as [w1 r1], (abs_step s op) as [s1 l1]. cbn [fst snd] in *.
  specialize (IH w1 s1 Hr' Hok ltac:(lia)).
  destruct (wal_run w1 ops) as [w2 rs], (abs_run s1 ops) as [s2 ls]. cbn [fst snd] in *.
  destruct IH as (? & -> & ?). by rewrite Hres.
Qed.

Lemma read_log_durable w s before after : refines w s -> size (durable s ++ pending s) < 2 ^ 64 ->
  durable s = before ++ after -> read_log w (size before) = Ok after.
Proof.
  intros [Hf Hb Hfl Hn Hc Hp Hok] Hw Hd. rewrite size_app in Hw. rewrite Hd in *.
  apply placed_app in Hp as [Hp _]. apply placed_app in Hp as [_ Hp]. rewrite N.add_0_l in Hp.
  apply Forall_app in Hok as [Hok _]. apply Forall_app in Hok as [_ Hok].
  unfold read_log, read_from, reader_new. rewrite Hfl, Hf. rewrite size_app in *.
  destruct (N.leb_spec (size before + size after) (size before)) as [Hz|Hz].
  - assert (after = []) as ->; [|done]. destruct after as [|d ds]; [done|].
    pose proof (len_entry d). unfold size, WAL_HEADER_SIZE in *. rewrite entries_cons, len_app in *. lia.
  - unfold Disk.file_read. rewrite entries_app, len_app. fold (size before) (size after).
    rewrite (proj2 (N.leb_le _ _)) by lia. cbn [mbind outcome_bind].
    rewrite read_at_app_r, N.sub_diag, read_at_all by (unfold size; lia).
    apply (drain_entries after [] (size before)); [done|by rewrite N.add_0_r|unfold size in *; rewrite len_nil; lia|].
    cbn [data app]. pose proof (length_entries after). lia.
Qed.

(** C5: the log manager implements a list of records split into a durable and a
    pending part.  After any sequence of appends, flushes and restarts every
    call succeeded with the LSN the specification assigns, and reading the log
    from the start of any durable record returns exactly the durable records
    from there on, with their transaction ids, back links and contents.  The records
    are heap inserts with a tuple of fewer than [2 ^ 16] bytes, heap deletes, commits,
    aborts and checkpoints of fewer than [2 ^ 28] transactions, their fields within
    the widths of the format, in a log of fewer than [2 ^ 64] bytes.  Heap updates are excluded: they can
    be written, but the reader has no case for them. *)
Theorem wal_implements_log ops w rs s lsns :
  Forall op_ok ops -> ops_size ops < 2 ^ 64 ->
  wal_run create ops = (w, rs) -> abs_run (mkAbs [] [] INVALID_LSN) ops = (s, lsns) ->
  rs = Ok <$> lsns /\
  forall before after, durable s = before ++ after -> read_log w (size before) = Ok after.
Proof.
  intros Hok Hw Hr Ha. destruct (wal_run_refines ops create (mkAbs [] [] INVALID_LSN)) as (H1 & H2 & H3);
    [by repeat split|done|exact Hw|].
  rewrite Hr, Ha in *. cbn [fst snd] in *. split; [done|]. intros. by eapply read_log_durable.
Qed.

(** A record that was cut off by a crash is read as if it were valid.
    [open] takes the length of the file for the end of the log, and the reader
    does not check the checksum: an insert of which 60 of its 90 bytes reached the
    disk swallows the commit record that is appended after the restart.  The
    log then consists of the insert, with bytes of the commit record in its
    tuple, and the durable commit is not found. *)
Theorem torn_record_hides_commit :
  let torn := take 60 (entry (mkDecoded 0 0 7 (HeapInsert 1 2 0 (replicate 40 5)))) in
  let '(w, rs) := wal_run (open torn) [Append 9 (XactCommit 3); Flush] in
  rs = [Ok 60; Ok 102] /\
  exists tuple, read_log w 0 = Ok [mkDecoded 0 0 7 (HeapInsert 1 2 0 tuple)] /\
    tuple <> replicate 40 5.
Proof.
  cbv zeta. cbn [wal_run wal_step]. unfold write_record, entry. cbv zeta. cbn [open next_lsn last_lsn lsn prev_lsn xid record].
  match goal with |- context [build_header crc32 0 0 7 ?r ?t ?b] =>
    destruct (build_header_layout_bytes 0 0 7 r t b) as (c0 & c1 & c2 & c3 & ->) end.
  match goal with |- context [build_header crc32 ?l ?p 9 ?r ?t ?b] =>
    destruct (build_header_layout_bytes l p 9 r t b) as (d0 & d1 & d2 & d3 & ->) end.
  vm_compute. split; [done|]. eexists. split; [done|]. done.
Qed.

End Refinement.

(** Two inserts, a commit and a crash: the first insert and the commit are
    durable, the last record is lost. *)
Definition session : list wal_op :=
  [Append 1 (HeapInsert 1 2 0 [7; 8]); Append 1 (XactCommit 5); Flush; Append 2 (HeapDelete 1 2 0 0); Restart].

Lemma wal_implements_log_witness :
  exists w rs s lsns, wal_run (fun _ => 0) create session = (w, rs) /\ rs = Ok <$> lsns /\
    length (durable s) = 2%nat /\ read_log w 0 = Ok (durable s).
Proof.
  destruct (wal_run (fun _ => 0) create session) as [w rs] eqn:Hw.
  destruct (abs_run (fun _ => 0) (mkAbs [] [] INVALID_LSN) session) as [s lsns] eqn:Hs.
  assert (Hok : Forall op_ok session) by (by repeat constructor).
  destruct (wal_implements_log (fun _ => 0) session w rs s lsns Hok (ltac:(by vm_compute)) Hw Hs) as [Hrs Hrd].
  exists w, rs, s, lsns. split_and!; [done|done|by vm_compute in Hs; injection Hs as <- <-|].
  exact (Hrd [] (durable s) eq_refl).
Defined.

End Wal.
