(* ===== verification/StorageHeap.v ===== *)
(** * Heap files

    Models [crates/storage/src/heap.rs]: the free space map, a complete binary
    tree of maxima over the pages' free space, and the heap file that stores a
    table's tuples in pages of the buffer pool and logs its changes.  A heap
    operation works on the heap file, the pool and the log together and keeps
    what it has changed when it fails. *)

From stdpp Require Import gmap.
From S2P Require Import Prelude Bytes ByteOrder BTreeMap StorageError StoragePage StorageReplacer StorageDisk.
From S2P Require Import StorageBufferPool StorageWal.

Module Fsm.

Record FreeSpaceMap : Type := mkFsm {
  tree : list N;
  capacity : N;
  first_page_id : N
}.

(** [usize::next_power_of_two]. *)
Definition next_power_of_two (n : N) : N := if n <=? 1 then 1 else 2 ^ N.log2_up n.

Definition encode_free (free_bytes : N) : N := u8 (N.min (free_bytes / 32) 255).

Definition new (cap first : N) : FreeSpaceMap :=
  let cap := N.max (next_power_of_two cap) 1 in
  mkFsm (replicate (N.to_nat (cap * 2)) 0) cap first.

Definition leaf_index (f : FreeSpaceMap) (page_id : N) : N :=
  wadd 64 (capacity f) (wsub 64 page_id (first_page_id f)).

(** [tree[i]]: panics out of range. *)
Definition node (t : list N) (i : N) : result N := or_panic (t !! N.to_nat i).

(** The loop of [propagate_up]: [i] is the node to recompute.  Every round halves
    [i], so as many rounds as the tree has nodes are enough. *)
Fixpoint propagate (fuel : nat) (t : list N) (i : N) : result (list N) :=
  match fuel with
  | O => Ok t
  | S fuel =>
      if i <? 1 then Ok t
      else
        l ← node t (2 * i);
        r ← node t (2 * i + 1);
        propagate fuel (<[N.to_nat i := N.max l r]> t) (i / 2)
  end.

Definition propagate_up (t : list N) (idx : N) : result (list N) := propagate (length t) t (idx / 2).

Definition update (f : FreeSpaceMap) (page_id free_bytes : N) : result FreeSpaceMap :=
  let idx := leaf_index f page_id in
  if capacity f * 2 <=? idx then Ok f
  else
    _ ← node (tree f) idx;
    t ← propagate_up (<[N.to_nat idx := encode_free free_bytes]> (tree f)) idx;
    Ok (mkFsm t (capacity f) (first_page_id f)).

(** The descent of [find_page]; [idx] doubles in every round. *)
Fixpoint descend (fuel : nat) (t : list N) (cap needed idx : N) : result N :=
  match fuel with
  | O => Ok idx
  | S fuel =>
      if idx <? cap then
        l ← node t (2 * idx);
        descend fuel t cap needed (if needed <=? l then 2 * idx else 2 * idx + 1)
      else Ok idx
  end.

Definition find_page (f : FreeSpaceMap) (needed_bytes : N) : result (option N) :=
  let needed := encode_free needed_bytes in
  root ← node (tree f) 1;
  if root <? needed then Ok None
  else
    idx ← descend (length (tree f)) (tree f) (capacity f) needed 1;
    Ok (Some (wadd 64 (first_page_id f) (idx - capacity f))).

(** ** The tree of maxima *)

Definition val (t : list N) (i : N) : N := default 0 (t !! N.to_nat i).

Definition balanced (t : list N) (i : N) : Prop := val t i = N.max (val t (2 * i)) (val t (2 * i + 1)).

Record fsm_wf (f : FreeSpaceMap) : Prop := {
  wf_cap : exists k, capacity f = 2 ^ k;
  wf_len : len (tree f) = capacity f * 2;
  wf_width : first_page_id f + capacity f * 2 < 2 ^ 64;
  wf_balanced : forall i, 1 <= i < capacity f -> balanced (tree f) i
}.

(** The free space recorded for the page [first_page_id + n]. *)
Definition leaf (f : FreeSpaceMap) (n : N) : N := val (tree f) (capacity f + n).

Lemma node_ok t i : i < len t -> node t i = Ok (val t i).
Proof.
  intros Hi. unfold node, val. destruct (lookup_lt_is_Some_2 t (N.to_nat i)) as [x ->]; [unfold len in Hi; lia|]. done.
Qed.

Lemma val_insert t i j v : i < len t -> val (<[N.to_nat i := v]> t) j = if decide (j = i) then v else val t j.
Proof.
  intros Hi. unfold val. case_decide as E; [subst; by rewrite list_lookup_insert_eq by (unfold len in Hi; lia)|].
  rewrite list_lookup_insert_ne by lia. done.
Qed.

Lemma len_insert (t : list N) i v : len (<[i := v]> t) = len t.
Proof. unfold len. by rewrite length_insert. Qed.

(** [j] is [i] or one of its ancestors. *)
Definition ancestor (j i : N) : Prop := exists n, j = i / 2 ^ n.

Lemma ancestor_parent j i : ancestor j i -> j <> i -> ancestor j (i / 2).
Proof.
  intros [n Hn] Hne. destruct (N.eq_dec n 0) as [->|Hn0]; [by rewrite N.pow_0_r, N.div_1_r in Hn|].
  exists (n - 1). rewrite N.Div0.div_div. rewrite Hn. f_equal.
  rewrite <- N.pow_succ_r' with (a := 2). f_equal. lia.
Qed.

(** Recomputing the ancestors restores the balance. *)
Lemma propagate_spec fuel t cap i : len t = cap * 2 -> i < cap -> i < 2 ^ N.of_nat fuel ->
  (forall j, 1 <= j < cap -> balanced t j \/ ancestor j i) ->
  exists t', propagate fuel t i = Ok t' /\ len t' = len t /\ (forall j, 1 <= j < cap -> balanced t' j) /\
    forall j, cap <= j -> val t' j = val t j.
Proof.
  revert t i. induction fuel as [|fuel IH]; intros t i Hl Hi Hf Hb.
  - assert (i = 0) as -> by (cbn in Hf; lia). exists t. split_and!; try done. intros j Hj.
    destruct (Hb j Hj) as [?|[n Hn]]; [done|]. rewrite N.Div0.div_0_l in Hn. lia.
  - cbn [propagate]. destruct (N.ltb_spec i 1) as [Hz|Hz].
    + exists t. split_and!; try done. intros j Hj. destruct (Hb j Hj) as [?|[n Hn]]; [done|].
      assert (i = 0) as -> by lia. rewrite N.Div0.div_0_l in Hn. lia.
    + rewrite !node_ok by lia. cbn [mbind outcome_bind]. set (t1 := <[_ := _]> t).
      assert (Hv : forall j, val t1 j = if decide (j = i) then N.max (val t (2 * i)) (val t (2 * i + 1)) else val t j).
      { intros j. apply val_insert. lia. }
      assert (Hd : i / 2 < i) by (apply N.div_lt; lia).
      destruct (IH t1 (i / 2)) as (t2 & He & Hl2 & Hb2 & Hv2).
      * unfold t1. by rewrite len_insert.
      * lia.
      * apply N.Div0.div_lt_upper_bound. rewrite Nat2N.inj_succ, N.pow_succ_r' in Hf. lia.
      * intros j Hj. destruct (decide (j = i)) as [->|Hne].
        { left. unfold balanced. rewrite !Hv. rewrite decide_True, !decide_False by lia. done. }
        destruct (Hb j Hj) as [Hbj|Ha]; [|right; by apply ancestor_parent].
        destruct (decide (2 * j = i \/ 2 * j + 1 = i)) as [Hc|Hc].
        { right. exists 0. rewrite N.pow_0_r, N.div_1_r. apply N.div_unique with (r := i - 2 * j); lia. }
        left. unfold balanced in *. rewrite !Hv, !decide_False by lia. done.
      * exists t2. split_and!; [done| |done|].
        { unfold t1 in Hl2. by rewrite len_insert in Hl2. }
        intros j Hj. rewrite Hv2, Hv, decide_False by lia. done.
Qed.

Lemma update_spec f p free : fsm_wf f -> first_page_id f <= p < first_page_id f + capacity f ->
  exists f', update f p free = Ok f' /\ fsm_wf f' /\ capacity f' = capacity f /\
    first_page_id f' = first_page_id f /\
    forall n, n < capacity f -> leaf f' n = if decide (n = p - first_page_id f) then encode_free free else leaf f n.
Proof.
  intros [[k Hk] Hl Hw Hb] [Hp1 Hp2]. unfold update.
  assert (Hi : leaf_index f p = capacity f + (p - first_page_id f)).
  { unfold leaf_index. rewrite wsub_small, wadd_small by lia. done. }
  rewrite Hi. set (i := capacity f + (p - first_page_id f)) in *.
  rewrite (proj2 (N.leb_gt _ _)) by lia. rewrite node_ok by lia. cbn [mbind outcome_bind]. unfold propagate_up.
  set (t1 := <[_ := _]> (tree f)).
  assert (Hv : forall j, val t1 j = if decide (j = i) then encode_free free else val (tree f) j).
  { intros j. apply val_insert. lia. }
  assert (Hl1 : len t1 = capacity f * 2) by (unfold t1; by rewrite len_insert).
  assert (Hi2 : i / 2 < capacity f) by (apply N.Div0.div_lt_upper_bound; lia).
  destruct (propagate_spec (length t1) t1 (capacity f) (i / 2)) as (t' & He & Hl' & Hb' & Hv').
  - done.
  - done.
  - apply N.lt_trans with (capacity f); [done|]. apply N.le_lt_trans with (N.of_nat (length t1)).
    { fold (len t1). lia. } apply N.pow_gt_lin_r. lia.
  - intros j Hj. destruct (decide (2 * j = i \/ 2 * j + 1 = i)) as [Hc|Hc].
    + right. exists 0. rewrite N.pow_0_r, N.div_1_r. apply N.div_unique with (r := i - 2 * j); lia.
    + left. unfold balanced. rewrite !Hv, !decide_False by lia. by apply Hb.
  - rewrite He. cbn [mbind outcome_bind]. eexists. split; [done|]. split_and!; [|done|done|].
    + split; cbn; [by exists k|by rewrite Hl', Hl1|done|done].
    + intros n Hn. unfold leaf. cbn [tree capacity]. rewrite Hv', Hv by lia.
      destruct (decide (capacity f + n = i)), (decide (n = p - first_page_id f)); done || lia.
Qed.

(** A page beyond the map is ignored. *)
Lemma update_above f p free : fsm_wf f -> first_page_id f <= p < 2 ^ 62 ->
  exists f', update f p free = Ok f' /\ fsm_wf f' /\ capacity f' = capacity f /\
    first_page_id f' = first_page_id f /\
    forall n, n < capacity f -> leaf f' n = if decide (first_page_id f + n = p) then encode_free free else leaf f n.
Proof.
  intros Hf Hp. destruct (N.lt_ge_cases p (first_page_id f + capacity f)) as [Hlt|Hge].
  - destruct (update_spec f p free Hf) as (f' & He & Hf' & Hc & Hfi & Hl); [lia|]. exists f'. split_and!; try done.
    intros n Hn. rewrite Hl by done. repeat case_decide; done || lia.
  - exists f. split_and!; try done.
    + unfold update, leaf_index. pose proof (wf_width f Hf). rewrite wsub_small, wadd_small by lia.
      rewrite (proj2 (N.leb_le _ _)) by lia. done.
    + intros n Hn. rewrite decide_False by lia. done.
Qed.

Lemma npot_pow n : exists k, next_power_of_two n = 2 ^ k.
Proof. unfold next_power_of_two. destruct (n <=? 1); [by exists 0|by eexists]. Qed.

Lemma npot_bound n b : n <= 2 ^ b -> next_power_of_two n <= 2 ^ b.
Proof.
  intros Hn. unfold next_power_of_two. destruct (N.leb_spec n 1).
  - pose proof (N.pow_nonzero 2 b ltac:(lia)). lia.
  - apply N.pow_le_mono_r; [lia|]. rewrite <- (N.log2_up_pow2 b) by lia. by apply N.log2_up_le_mono.
Qed.

Lemma new_fsm_wf cap first : cap <= 2 ^ 60 -> first < 2 ^ 60 -> fsm_wf (new cap first) /\ first_page_id (new cap first) = first /\
  forall n, leaf (new cap first) n = 0.
Proof.
  intros Hc Hf. unfold new. destruct (npot_pow cap) as [k Hk]. pose proof (npot_bound cap 60 Hc) as Hb.
  pose proof (N.pow_nonzero 2 k ltac:(lia)). rewrite N.max_l by lia. rewrite Hk in *.
  assert (Hz : forall t i, val (replicate t 0) i = 0).
  { intros t i. unfold val. destruct (replicate t 0 !! N.to_nat i) as [x|] eqn:E; [|done].
    by apply lookup_replicate in E as [-> _]. }
  split_and!; [split; cbn|done|].
  - by exists k.
  - rewrite len_replicate. lia.
  - lia.
  - intros i Hi. unfold balanced. by rewrite !Hz.
  - intros n. apply Hz.
Qed.

(** A node bounds the leaves below it. *)
Lemma subtree_max t cap d i j : (forall i, 1 <= i < cap -> balanced t i) -> 1 <= cap ->
  cap <= i * 2 ^ d -> (i + 1) * 2 ^ d <= cap * 2 -> i * 2 ^ d <= j < (i + 1) * 2 ^ d -> val t j <= val t i.
Proof.
  intros Hb Hc. revert i j. induction d as [|d IH] using N.peano_ind; intros i j Hr1 Hr2 Hj.
  { rewrite N.pow_0_r in *. assert (j = i) as -> by lia. done. }
  rewrite N.pow_succ_r' in *. pose proof (N.pow_nonzero 2 d ltac:(lia)).
  assert (Hi : 1 <= i < cap) by (split; nia).
  rewrite (Hb i Hi). destruct (N.lt_ge_cases j ((2 * i + 1) * 2 ^ d)) as [Hlt|Hge].
  - transitivity (val t (2 * i)); [|lia]. apply IH; nia.
  - transitivity (val t (2 * i + 1)); [|lia]. apply IH; nia.
Qed.

(** The descent ends at the leftmost leaf that is large enough. *)
Lemma descend_spec fuel t cap needed d i : (forall i, 1 <= i < cap -> balanced t i) -> 1 <= cap ->
  len t = cap * 2 -> cap <= i * 2 ^ d -> (i + 1) * 2 ^ d <= cap * 2 -> d <= N.of_nat fuel ->
  needed <= val t i -> (forall j, cap <= j < i * 2 ^ d -> val t j < needed) ->
  exists idx, descend fuel t cap needed i = Ok idx /\ cap <= idx < cap * 2 /\ needed <= val t idx /\
    forall j, cap <= j < idx -> val t j < needed.
Proof.
  intros Hb Hc Hl. revert d i. induction fuel as [|fuel IH]; intros d i Hr1 Hr2 Hf Hn Hlow.
  { assert (d = 0) as -> by lia. rewrite N.pow_0_r in *. exists i. split_and!; [done|lia|lia|done|].
    intros j Hj. apply Hlow. lia. }
  cbn [descend]. destruct (N.eq_dec d 0) as [->|Hd].
  { rewrite N.pow_0_r in *. rewrite (proj2 (N.ltb_ge _ _)) by lia. exists i. split_and!; [done|lia|lia|done|].
    intros j Hj. apply Hlow. lia. }
  replace d with (N.succ (d - 1)) in * by lia. set (d' := d - 1) in *. rewrite N.pow_succ_r' in *.
  pose proof (N.pow_nonzero 2 d' ltac:(lia)). assert (Hi : 1 <= i < cap) by (split; nia).
  rewrite (proj2 (N.ltb_lt _ _)) by lia. rewrite node_ok by lia. cbn [mbind outcome_bind].
  pose proof (Hb i Hi) as Hbi. unfold balanced in Hbi.
  destruct (N.leb_spec needed (val t (2 * i))) as [Hle|Hgt].
  - apply (IH d'); [nia|nia|lia|done|]. intros j Hj. apply Hlow. nia.
  - apply (IH d'); [nia|nia|lia|lia|]. intros j Hj.
    destruct (N.lt_ge_cases j (i * (2 * 2 ^ d'))) as [?|Hge]; [apply Hlow; lia|].
    apply N.le_lt_trans with (val t (2 * i)); [|done]. apply (subtree_max t cap d'); [done|done|nia..].
Qed.

Lemma find_page_spec f needed : fsm_wf f ->
  match find_page f needed with
  | Ok (Some p) => exists n, p = first_page_id f + n /\ n < capacity f /\ encode_free needed <= leaf f n /\
      forall k, k < n -> leaf f k < encode_free needed
  | Ok None => forall n, n < capacity f -> leaf f n < encode_free needed
  | _ => False
  end.
Proof.
  intros [[k Hk] Hl Hw Hb]. unfold find_page, leaf. pose proof (N.pow_nonzero 2 k ltac:(lia)) as Hnz.
  rewrite node_ok by lia. cbn [mbind outcome_bind]. destruct (N.ltb_spec (val (tree f) 1) (encode_free needed)) as [Hlt|Hge].
  - intros n Hn. eapply N.le_lt_trans; [|exact Hlt]. apply (subtree_max _ (capacity f) k); [done|lia|lia|lia|lia].
  - destruct (descend_spec (length (tree f)) (tree f) (capacity f) (encode_free needed) k 1)
      as (idx & -> & Hr & Hv & Hlow); [done|lia|done|lia|lia| |done|lia|].
    { assert (k < 2 ^ k) by (apply N.pow_gt_lin_r; lia). fold (len (tree f)). lia. }
    cbn [mbind outcome_bind]. exists (idx - capacity f). rewrite wadd_small by lia. split_and!; [done|lia| |].
    + by replace (capacity f + (idx - capacity f)) with idx by lia.
    + intros j Hj. apply Hlow. lia.
Qed.

(** The free space map finds the first page that is recorded as large
    enough, and answers [None] exactly when there is none: the descent through
    the tree of maxima agrees with a linear search of the leaves. *)
Theorem find_page_is_leftmost f needed : fsm_wf f ->
  match find_page f needed with
  | Ok (Some p) => exists n, p = first_page_id f + n /\ n < capacity f /\ encode_free needed <= leaf f n /\
      forall k, k < n -> leaf f k < encode_free needed
  | Ok None => forall n, n < capacity f -> leaf f n < encode_free needed
  | _ => False
  end.
Proof. apply find_page_spec. Qed.

(** A map of four pages in which only the third has room. *)
Lemma find_page_is_leftmost_witness :
  match update (new 4 10) 12 4000 with
  | Ok f => fsm_wf f /\ find_page f 3000 = Ok (Some 12) /\ forall k, k < 2 -> leaf f k < encode_free 3000
  | _ => False
  end.
Proof.
  destruct (new_fsm_wf 4 10) as (Hw & _); [done|done|].
  destruct (update_spec (new 4 10) 12 4000 Hw) as (f & Hu & Hf & _ & Hp & _); [done|].
  rewrite Hu. assert (Hr : find_page f 3000 = Ok (Some 12)) by (vm_compute in Hu; by simplify_eq).
  pose proof (find_page_is_leftmost f 3000 Hf) as H. rewrite Hr in H.
  destruct H as (n & Hn & _ & _ & Hlow). change (first_page_id (new 4 10)) with 10 in Hp.
  split_and!; [done|done|]. intros k Hk. apply Hlow. lia.
Defined.

End Fsm.

Module Heap.

Record TupleId : Type := mkTid { page_id : N; slot_id : N }.

Record HeapFile : Type := mkHeap {
  table_id : N;
  fsm : Fsm.FreeSpaceMap;
  pages : list N
}.

Definition new (table : N) : HeapFile := mkHeap table (Fsm.new 64 0) [].

Section HeapOps.
Context {D : Type} `{PageStore D}.
Variable crc32 : list N -> N.

(** What a heap operation works on. *)
Record env : Type := mkEnv {
  heap : HeapFile;
  pool : Pool.BufferPool D;
  wal : Wal.WalManager
}.

Definition heap_op (A : Type) : Type := env -> env * result A.

#[global] Instance heap_ret : MRet heap_op := fun A a e => (e, Ok a).
#[global] Instance heap_bind : MBind heap_op := fun A B k m e =>
  let '(e, r) := m e in
  match r with
  | Ok a => k a e
  | Err x => (e, Err x)
  | Panic => (e, Panic)
  end.

Definition with_pool {A} (m : Pool.pool_op (D := D) A) : heap_op A := fun e =>
  let '(b, r) := m (pool e) in (mkEnv (heap e) b (wal e), r).
Definition get_heap : heap_op HeapFile := fun e => (e, Ok (heap e)).
Definition set_heap (h : HeapFile) : heap_op () := fun e => (mkEnv h (pool e) (wal e), Ok ()).
Definition log_record (xid : N) (r : Wal.WalRecord) : heap_op N := fun e =>
  let '(w, res) := Wal.write_record crc32 (wal e) xid r in (mkEnv (heap e) (pool e) w, res).
Definition get_flushed_lsn : heap_op N := fun e => (e, Ok (Wal.flushed_lsn (wal e))).
Definition lift {A} (r : result A) : heap_op A := fun e => (e, r).

Definition update_fsm (p free_bytes : N) : heap_op () :=
  h ← get_heap;
  f ← lift (Fsm.update (fsm h) p free_bytes);
  set_heap (mkHeap (table_id h) f (pages h)).

Fixpoint refresh_fsm (ps : list N) : heap_op () :=
  match ps with
  | [] => mret ()
  | p :: ps =>
      f ← with_pool (Pool.fetch_page p);
      pg ← with_pool (Pool.page_of f);
      _ ← with_pool (Pool.unpin_page p false);
      _ ← update_fsm p (Page.free_space pg);
      refresh_fsm ps
  end.

(** The part of [find_or_alloc_page] after the lookup. *)
Definition alloc_page : heap_op N :=
  '(p, _) ← with_pool Pool.new_page;
  _ ← with_pool (Pool.unpin_page p true);
  h ← get_heap;
  let ps := pages h ++ [p] in
  first ← lift (or_panic (ps !! 0%nat));
  _ ← set_heap (mkHeap (table_id h) (Fsm.new (Fsm.next_power_of_two (len ps)) first) ps);
  _ ← refresh_fsm ps;
  mret p.

Definition find_or_alloc_page (needed : N) : heap_op N :=
  h ← get_heap;
  found ← lift (Fsm.find_page (fsm h) needed);
  match found with
  | Some p => if bool_decide (p ∈ pages h) then mret p else alloc_page
  | None => alloc_page
  end.

Definition insert_tuple (xid : N) (tuple_data : list N) : heap_op TupleId :=
  let needed := Page.SLOT_SIZE + len tuple_data in
  p ← find_or_alloc_page needed;
  f ← with_pool (Pool.fetch_page p);
  pg ← with_pool (Pool.page_of f);
  '(pg, slot) ← lift (Page.insert_tuple pg tuple_data);
  _ ← with_pool (Pool.put_page f pg);
  let new_free := Page.free_space pg in
  h ← get_heap;
  _ ← log_record xid (Wal.HeapInsert (table_id h) p slot tuple_data);
  l ← get_flushed_lsn;
  _ ← with_pool (Pool.put_page f (Page.set_lsn pg l));
  _ ← with_pool (Pool.unpin_page p true);
  _ ← update_fsm p new_free;
  mret (mkTid p slot).

Definition get_tuple (tid : TupleId) : heap_op (list N) :=
  f ← with_pool (Pool.fetch_page (page_id tid));
  pg ← with_pool (Pool.page_of f);
  data ← lift (Page.get_tuple pg (slot_id tid));
  _ ← with_pool (Pool.unpin_page (page_id tid) false);
  mret data.

Definition delete_tuple (xid : N) (tid : TupleId) (old_xmax : N) : heap_op () :=
  f ← with_pool (Pool.fetch_page (page_id tid));
  pg ← with_pool (Pool.page_of f);
  pg ← lift (Page.delete_tuple pg (slot_id tid));
  _ ← with_pool (Pool.put_page f pg);
  h ← get_heap;
  _ ← log_record xid (Wal.HeapDelete (table_id h) (page_id tid) (slot_id tid) old_xmax);
  l ← get_flushed_lsn;
  _ ← with_pool (Pool.put_page f (Page.set_lsn pg l));
  with_pool (Pool.unpin_page (page_id tid) true).

(** The used slots of a page from slot [i] on. *)
Fixpoint scan_slots (n : nat) (pg : Page.Page) (p i : N) : result (list (TupleId * list N)) :=
  match n with
  | O => Ok []
  | S n =>
      used ← Page.is_slot_used pg i;
      if negb used then scan_slots n pg p (i + 1)
      else
        data ← Page.get_tuple pg i;
        rest ← scan_slots n pg p (i + 1);
        Ok ((mkTid p i, data) :: rest)
  end.

Definition scan_page (pg : Page.Page) (p : N) : result (list (TupleId * list N)) :=
  scan_slots (N.to_nat (Page.slot_count pg)) pg p 0.

Fixpoint scan_pages (ps : list N) : heap_op (list (TupleId * list N)) :=
  match ps with
  | [] => mret []
  | p :: ps =>
      f ← with_pool (Pool.fetch_page p);
      pg ← with_pool (Pool.page_of f);
      found ← lift (scan_page pg p);
      _ ← with_pool (Pool.unpin_page p false);
      rest ← scan_pages ps;
      mret (found ++ rest)
  end.

Definition scan : heap_op (list (TupleId * list N)) := h ← get_heap; scan_pages (pages h).

Definition page_ids : heap_op (list N) := h ← get_heap; mret (pages h).

End HeapOps.

Arguments env D : clear implicits.

(** ** The heap over the page map *)

Section HeapSpec.
Context {D : Type} `{PageStoreLaws D}.
Variable crc32 : list N -> N.
Implicit Types e : env D.
Implicit Types m : gmap N (list N).

Definition page_at m (p : N) : Page.Page := Page.from_bytes (default [] (m !! p)).

Record heap_ok (h : HeapFile) m : Prop := {
  ho_sorted : StronglySorted N.lt (pages h);
  ho_pages : Forall (fun p => is_Some (m !! p) /\ Page.page_wf (page_at m p)) (pages h);
  ho_bound : Forall (fun p => p < 2 ^ 50) (pages h);
  ho_fsm : Fsm.fsm_wf (fsm h);
  ho_first : Forall (fun p => Fsm.first_page_id (fsm h) <= p) (pages h);
  ho_leaf : Forall (fun p => p < Fsm.first_page_id (fsm h) + Fsm.capacity (fsm h) ->
    Fsm.leaf (fsm h) (p - Fsm.first_page_id (fsm h)) = Fsm.encode_free (Page.free_space (page_at m p))) (pages h)
}.

Record stored e m : Prop := {
  st_pool : Pool.represents (pool e) m;
  st_heap : heap_ok (heap e) m;
  st_lsn : Wal.flushed_lsn (wal e) < 2 ^ 64
}.

Abbreviation clock e := (Lru.clock (Pool.replacer (pool e))).
Abbreviation disk_of e := (Pool.disk (pool e)).

Lemma with_pool_ok {A} (o : Pool.pool_op (D := D) A) e b a : o (pool e) = (b, Ok a) ->
  with_pool o e = (mkEnv (heap e) b (wal e), Ok a).
Proof. intros E. unfold with_pool. by rewrite E. Qed.

Lemma log_record_ok x r e : exists w n, log_record crc32 x r e = (mkEnv (heap e) (pool e) w, Ok n) /\
  Wal.write_record crc32 (wal e) x r = (w, Ok n).
Proof.
  unfold log_record, Wal.write_record, Wal.flush. destruct (_ <=? _); cbn [Wal.buffer]; [|by repeat eexists].
  destruct (_ ++ _); by repeat eexists.
Qed.

Lemma write_record_lsn w x r : Wal.flushed_lsn w < 2 ^ 64 -> Wal.flushed_lsn (Wal.write_record crc32 w x r).1 < 2 ^ 64.
Proof.
  intros Hw. unfold Wal.write_record, Wal.flush. destruct (_ <=? _); cbn [Wal.buffer Wal.flushed_lsn]; [|done].
  destruct (_ ++ _); [done|]. apply wrap_lt.
Qed.

Lemma page_at_some m p bs : m !! p = Some bs -> page_at m p = Page.from_bytes bs.
Proof. unfold page_at. by intros ->. Qed.

Lemma page_at_insert m p q pg : page_at (<[p := Page.as_bytes pg]> m) q = if decide (q = p) then pg else page_at m q.
Proof.
  unfold page_at. case_decide as E; [subst; rewrite lookup_insert_eq; apply Page.from_as|by rewrite lookup_insert_ne].
Qed.

Lemma update_fsm_ok e p free : Fsm.fsm_wf (fsm (heap e)) ->
  Fsm.first_page_id (fsm (heap e)) <= p < 2 ^ 62 ->
  exists f', update_fsm p free e = (mkEnv (mkHeap (table_id (heap e)) f' (pages (heap e))) (pool e) (wal e), Ok ()) /\
    Fsm.fsm_wf f' /\ Fsm.capacity f' = Fsm.capacity (fsm (heap e)) /\
    Fsm.first_page_id f' = Fsm.first_page_id (fsm (heap e)) /\
    forall n, n < Fsm.capacity (fsm (heap e)) -> Fsm.leaf f' n =
      if decide (Fsm.first_page_id (fsm (heap e)) + n = p) then Fsm.encode_free free else Fsm.leaf (fsm (heap e)) n.
Proof.
  intros Hf Hp. destruct (Fsm.update_above (fsm (heap e)) p free Hf Hp) as (f' & He & Hf' & Hc & Hfi & Hl).
  exists f'. split_and!; try done. unfold update_fsm, mbind, heap_bind, get_heap, lift. by rewrite He.
Qed.

(** Recomputing the map from the pages. *)
Lemma refresh_fsm_ok ps e m : Pool.represents (pool e) m -> Fsm.fsm_wf (fsm (heap e)) ->
  Forall (fun p => is_Some (m !! p)) ps -> Forall (fun p => Fsm.first_page_id (fsm (heap e)) <= p < 2 ^ 62) ps ->
  clock e + len ps < 2 ^ 64 ->
  exists b f', refresh_fsm ps e = (mkEnv (mkHeap (table_id (heap e)) f' (pages (heap e))) b (wal e), Ok ()) /\
    Pool.represents b m /\ Lru.clock (Pool.replacer b) <= clock e + len ps /\
    (forall n, room (disk_of e) n -> room (Pool.disk b) n) /\
    Fsm.fsm_wf f' /\ Fsm.capacity f' = Fsm.capacity (fsm (heap e)) /\
    Fsm.first_page_id f' = Fsm.first_page_id (fsm (heap e)) /\
    forall n, n < Fsm.capacity (fsm (heap e)) -> Fsm.leaf f' n =
      if decide (Fsm.first_page_id (fsm (heap e)) + n ∈ ps)
      then Fsm.encode_free (Page.free_space (page_at m (Fsm.first_page_id (fsm (heap e)) + n)))
      else Fsm.leaf (fsm (heap e)) n.
Proof.
  revert e. induction ps as [|p ps IH]; intros e Hr Hf Hm Hp Hk.
  { exists (pool e), (fsm (heap e)). split_and!; try done; [by destruct e as [[] ? ?]|lia].  }
  apply Forall_cons in Hm as [[bs Hbs] Hm], Hp as [Hp Hps]. rewrite len_cons in Hk. cbn [refresh_fsm].
  destruct (Pool.visit (pool e) m p bs Hr Hbs) as (b1 & f & He & [Hpg (b2 & Hu & Hs) _]); [lia|].
  unfold mbind, heap_bind. rewrite (with_pool_ok _ e _ _ He).
  rewrite (with_pool_ok _ (mkEnv _ b1 _) _ _ Hpg). rewrite (with_pool_ok _ (mkEnv _ b1 _) _ _ Hu). cbn [heap wal].
  destruct (update_fsm_ok (mkEnv (heap e) b2 (wal e)) p (Page.free_space (Page.from_bytes bs)) Hf Hp)
    as (f1 & -> & Hf1 & Hc1 & Hfi1 & Hl1). cbn [heap pool wal] in *.
  set (e1 := mkEnv _ b2 _). destruct Hs as [Hr2 Hk2 Hroom2].
  destruct (IH e1) as (b3 & f3 & He3 & Hr3 & Hk3 & Hroom3 & Hf3 & Hc3 & Hfi3 & Hl3); cbn [heap pool e1 fsm]; try done.
  { by rewrite Hfi1. }
  { lia. }
  exists b3, f3. cbn [e1 heap pool wal table_id pages fsm] in *. rewrite He3.
  split_and!; [done|done|rewrite len_cons; lia|auto|done|congruence|congruence|].
  intros n Hn. rewrite Hl3, Hfi1, Hl1 by lia. set (q := _ + n).
  destruct (decide (q ∈ ps)); [by rewrite decide_True by set_solver|].
  destruct (decide (q = p)) as [E|E]; [|by rewrite decide_False by set_solver].
  rewrite decide_True by set_solver. by rewrite E, (page_at_some m p bs Hbs).
Qed.

Lemma sorted_len (l : list N) a b : StronglySorted N.lt l -> Forall (fun x => a <= x < b) l -> len l <= b - a.
Proof.
  revert a. induction l as [|x l IH]; intros a Hs Hf; [rewrite len_nil; lia|].
  apply StronglySorted_inv in Hs as [Hs Hlt]. apply Forall_cons in Hf as [Hx Hf]. rewrite len_cons.
  enough (len l <= b - (x + 1)) by lia. apply IH; [done|]. rewrite Forall_forall in *.
  intros y Hy. specialize (Hlt y Hy). specialize (Hf y Hy). lia.
Qed.

Lemma heap_len h m : heap_ok h m -> len (pages h) <= 2 ^ 50.
Proof.
  intros Hh. pose proof (sorted_len (pages h) 0 (2 ^ 50) (ho_sorted h m Hh)) as Hl.
  rewrite N.sub_0_r in Hl. apply Hl. eapply Forall_impl; [apply (ho_bound h m Hh)|]. cbv beta. lia.
Qed.

Lemma sorted_snoc (l : list N) p : StronglySorted N.lt l -> Forall (fun q => q < p) l -> StronglySorted N.lt (l ++ [p]).
Proof.
  induction l as [|x l IH]; intros Hs Hf; cbn; [by repeat constructor|].
  apply StronglySorted_inv in Hs as [Hs Hlt]. apply Forall_cons in Hf as [Hx Hf].
  constructor; [by apply IH|]. apply Forall_app. split; [done|by constructor].
Qed.

Lemma alloc_op_inv (b b' : Pool.BufferPool D) p : Pool.alloc_op b = (b', Ok p) ->
  exists b1 f, Pool.new_page b = (b1, Ok (p, f)) /\ Pool.unpin_page p true b1 = (b', Ok ()).
Proof.
  unfold Pool.alloc_op, mbind, Pool.pool_bind. destruct (Pool.new_page b) as [b1 [[q f]| |]]; [|done..].
  destruct (Pool.unpin_page q true b1) as [b2 [[]| |]] eqn:E; [|done..]. intros [= -> ->]. eauto.
Qed.

Lemma alloc_page_ok e m n : stored e m -> room (disk_of e) (n + 1) -> clock e + len (pages (heap e)) + 2 < 2 ^ 64 ->
  exists b p f, alloc_page e = (mkEnv (mkHeap (table_id (heap e)) f (pages (heap e) ++ [p])) b (wal e), Ok p) /\
    (forall q, is_Some (m !! q) -> q < p) /\
    stored (mkEnv (mkHeap (table_id (heap e)) f (pages (heap e) ++ [p])) b (wal e))
      (<[p := Page.as_bytes (Page.new p)]> m) /\
    room (Pool.disk b) n /\ Lru.clock (Pool.replacer b) <= clock e + len (pages (heap e)) + 2.
Proof.
  intros [Hr Hh Hlsn] Hroom Hk. destruct (Pool.alloc_op_spec (pool e) m n Hr Hroom) as (b1 & p & Ha & Hnew & Hr1 & Hroom1 & Hk1); [lia|].
  destruct (alloc_op_inv _ _ _ Ha) as (b0 & f & Hnp & Hun).
  set (m1 := <[p := Page.as_bytes (Page.new p)]> m) in *. set (ps := pages (heap e) ++ [p]) in *.
  assert (Hpb : p < 2 ^ 50).
  { apply (allocated_bound (Pool.disk b1)); [apply Hr1|]. apply (Pool.rp_dom b1 m1 Hr1). unfold m1.
    rewrite lookup_insert_eq. by eexists. }
  assert (Hold : Forall (fun q => q < p) (pages (heap e))).
  { eapply Forall_impl; [apply (ho_pages _ _ Hh)|]. intros q [Hq _]. by apply Hnew. }
  assert (Hsort : StronglySorted N.lt ps) by (apply sorted_snoc; [apply Hh|done]).
  assert (Hbnd : Forall (fun q => q < 2 ^ 50) ps) by (apply Forall_app; split; [apply (ho_bound _ _ Hh)|by constructor]).
  assert (Hdom : Forall (fun q => is_Some (m1 !! q) /\ Page.page_wf (page_at m1 q)) ps).
  { apply Forall_app. split; [|constructor; [|done]].
    - rewrite Forall_forall in Hold. apply Forall_forall. intros q Hq. unfold m1. rewrite page_at_insert.
      specialize (Hold q Hq). rewrite decide_False, lookup_insert_ne by lia.
      by apply (proj1 (Forall_forall _ _) (ho_pages _ _ Hh)).
    - unfold m1. rewrite page_at_insert, decide_True, lookup_insert_eq by done. split; [by eexists|apply Page.new_spec]. }
  assert (exists p0, ps !! 0%nat = Some p0 /\ Forall (fun q => p0 <= q) ps) as (p0 & Hp0 & Hge).
  { destruct ps as [|p0 ps'] eqn:E; [unfold ps in E; by destruct (pages (heap e))|]. exists p0. split; [done|].
    apply StronglySorted_inv in Hsort as [_ Hlt]. constructor; [lia|]. eapply Forall_impl; [exact Hlt|]. cbv beta. lia. }
  assert (Hp0b : p0 < 2 ^ 50).
  { eapply (proj1 (Forall_forall _ _) Hbnd). by eapply list_elem_of_lookup_2. }
  assert (Hlen : len ps <= 2 ^ 50).
  { pose proof (sorted_len ps 0 (2 ^ 50) Hsort) as Hl. rewrite N.sub_0_r in Hl. apply Hl.
    eapply Forall_impl; [exact Hbnd|]. cbv beta. lia. }
  destruct (Fsm.new_fsm_wf (Fsm.next_power_of_two (len ps)) p0) as (Hf0 & Hfi0 & Hl0).
  { transitivity (2 ^ 50); [by apply Fsm.npot_bound|done]. }
  { lia. }
  set (f0 := Fsm.new _ p0) in *.
  destruct (refresh_fsm_ok ps (mkEnv (mkHeap (table_id (heap e)) f0 ps) b1 (wal e)) m1)
    as (b2 & f2 & He2 & Hr2 & Hk2 & Hroom2 & Hf2 & Hc2 & Hfi2 & Hl2); cbn [heap pool wal fsm table_id pages] in *; try done.
  { eapply Forall_impl; [exact Hdom|]. by intros q [? _]. }
  { rewrite Hfi0. apply Forall_forall. intros q Hq. rewrite Forall_forall in Hge, Hbnd.
    specialize (Hge q Hq). specialize (Hbnd q Hq). lia. }
  { unfold ps. rewrite len_app, len_cons, len_nil. lia. }
  exists b2, p, f2. split_and!.
  - unfold alloc_page, mbind, heap_bind. rewrite (with_pool_ok _ e _ _ Hnp).
    rewrite (with_pool_ok _ (mkEnv _ b0 _) _ _ Hun). cbn [get_heap heap]. fold ps. unfold lift. rewrite Hp0.
    cbn [or_panic set_heap heap pool wal]. fold f0. by rewrite He2.
  - done.
  - split; [done| |done]. split; cbn [heap pages fsm]; try done.
    + by rewrite Hfi2, Hfi0.
    + rewrite Hfi2, Hfi0, Hc2. apply Forall_forall. intros q Hq Hlt. rewrite Forall_forall in Hge.
      specialize (Hge q Hq). rewrite Hl2 by lia. rewrite Hfi0. replace (p0 + (q - p0)) with q by lia.
      by rewrite decide_True.
  - by apply Hroom2.
  - unfold ps in Hk2. rewrite len_app, len_cons, len_nil in Hk2. lia.
Qed.

(** ** The table a heap file stores *)

(** The tuple at a page and slot. *)
Definition holds (h : HeapFile) m (tid : N * N) : option (list N) :=
  if bool_decide (tid.1 ∈ pages h) then mjoin (Page.tuples (page_at m tid.1) !! N.to_nat tid.2) else None.

Definition presents e (t : gmap (N * N) (list N)) : Prop :=
  exists m, stored e m /\ forall tid, t !! tid = holds (heap e) m tid.

(** An operation adds new pages only, and changes no page of another heap file. *)
Record framed (h : HeapFile) m (h' : HeapFile) m' : Prop := {
  fr_pages : forall q, q ∈ pages h' -> q ∈ pages h \/ m !! q = None;
  fr_keep : forall q, q ∉ pages h' -> m' !! q = m !! q
}.

(** A heap file depends on its own pages only. *)
Lemma heap_ok_ext h m m' : (forall p, p ∈ pages h -> m' !! p = m !! p) -> heap_ok h m ->
  heap_ok h m' /\ forall tid, holds h m' tid = holds h m tid.
Proof.
  intros Hm [Hs Hp Hb Hf Hfi Hl].
  assert (Hpg : forall p, p ∈ pages h -> page_at m' p = page_at m p) by (intros p Hin; unfold page_at; by rewrite Hm).
  split; [split; try done; apply Forall_forall|].
  - intros p Hin. rewrite Hm, Hpg by done. by apply (proj1 (Forall_forall _ _) Hp).
  - intros p Hin Hlt. rewrite Hpg by done. by apply (proj1 (Forall_forall _ _) Hl).
  - intros [p s]. unfold holds. cbn [fst snd]. case_bool_decide; [by rewrite Hpg|done].
Qed.

(** A page for [needed] bytes was found or allocated. *)
Record found e m (needed n : N) e' m' (p : N) : Prop := {
  fd_stored : stored e' m';
  fd_wal : wal e' = wal e;
  fd_page : p ∈ pages (heap e');
  fd_table : table_id (heap e') = table_id (heap e);
  fd_space : Fsm.encode_free needed <= Fsm.encode_free (Page.free_space (page_at m' p));
  fd_holds : forall tid, holds (heap e') m' tid = holds (heap e) m tid;
  fd_room : room (disk_of e') n;
  fd_clock : clock e' <= clock e + len (pages (heap e)) + 2;
  fd_len : len (pages (heap e')) <= len (pages (heap e)) + 1;
  fd_framed : framed (heap e) m (heap e') m'
}.

Lemma alloc_found e m needed n : stored e m -> room (disk_of e) (n + 1) -> needed <= 8144 ->
  clock e + len (pages (heap e)) + 2 < 2 ^ 64 ->
  exists e' m' p, alloc_page e = (e', Ok p) /\ found e m needed n e' m' p.
Proof.
  intros Hs Hroom Hn Hk. pose proof (ho_pages _ _ (st_heap e m Hs)) as Hps. rewrite Forall_forall in Hps.
  destruct (alloc_page_ok e m n Hs Hroom Hk) as (b & p & f & He & Hnew & Hs' & Hroom' & Hk').
  destruct (Page.new_spec p) as (_ & Htup & Hfree & _). set (pg := Page.new p) in *. clearbody pg.
  eexists _, _, p. split; [exact He|]. split; cbn [wal heap pages table_id pool]; try done.
  - set_solver.
  - rewrite page_at_insert, decide_True, Hfree by done. unfold Fsm.encode_free, u8, wrap.
    rewrite !N.mod_small by (change (2 ^ 8) with 256; lia). apply N.min_le_compat_r, N.Div0.div_le_mono. done.
  - intros [q i]. unfold holds. cbn [fst snd pages]. rewrite page_at_insert.
    destruct (decide (q = p)) as [->|Hne].
    + rewrite Htup. cbn. rewrite bool_decide_eq_true_2, bool_decide_eq_false_2; [done| |set_solver].
      intros Hin. destruct (Hps p Hin) as [Hp _]. specialize (Hnew p Hp). lia.
    + by rewrite (bool_decide_ext _ (q ∈ pages (heap e))) by set_solver.
  - rewrite len_app, len_cons, len_nil. lia.
  - split; cbn [pages]; intros q Hq; [|rewrite lookup_insert_ne by set_solver; done].
    apply elem_of_app in Hq as [Hq|Hq]; [by left|]. apply list_elem_of_singleton in Hq as ->. right.
    destruct (m !! p) eqn:E; [|done]. specialize (Hnew p ltac:(by eexists)). lia.
Qed.

Lemma find_or_alloc_ok e m needed n : stored e m -> room (disk_of e) (n + 1) -> needed <= 8144 ->
  clock e + len (pages (heap e)) + 2 < 2 ^ 64 ->
  exists e' m' p, find_or_alloc_page needed e = (e', Ok p) /\ found e m needed n e' m' p.
Proof.
  intros Hs Hroom Hn Hk. pose proof (alloc_found e m needed n Hs Hroom Hn Hk) as Halloc.
  pose proof (st_heap e m Hs) as Hh. pose proof (Fsm.find_page_spec (fsm (heap e)) needed (ho_fsm _ _ Hh)) as Hfp.
  unfold find_or_alloc_page, mbind, heap_bind, get_heap, lift.
  destruct (Fsm.find_page (fsm (heap e)) needed) as [[p|]| |]; [|done|done|done].
  case_bool_decide as Hin; [|done]. exists e, m, p. split; [done|].
  destruct Hfp as (k & -> & Hk' & Hle & _).
  pose proof (proj1 (Forall_forall _ _) (ho_leaf _ _ Hh) _ Hin ltac:(lia)) as Hleaf.
  replace (Fsm.first_page_id (fsm (heap e)) + k - Fsm.first_page_id (fsm (heap e))) with k in Hleaf by lia.
  split; try done; [by rewrite <- Hleaf|by eapply room_le; [|exact Hroom]; lia|lia|lia|].
  split; [by left|done].
Qed.

(** A page of the heap is rewritten and the map brought up to date. *)
Lemma heap_ok_put h m p pg f : heap_ok h m -> p ∈ pages h -> Page.page_wf pg ->
  Fsm.fsm_wf f -> Fsm.capacity f = Fsm.capacity (fsm h) -> Fsm.first_page_id f = Fsm.first_page_id (fsm h) ->
  (forall n, n < Fsm.capacity (fsm h) -> Fsm.leaf f n =
    if decide (Fsm.first_page_id (fsm h) + n = p) then Fsm.encode_free (Page.free_space pg) else Fsm.leaf (fsm h) n) ->
  heap_ok (mkHeap (table_id h) f (pages h)) (<[p := Page.as_bytes pg]> m).
Proof.
  intros [Hs Hp Hb Hf Hfi Hl] Hin Hpg Hf' Hc' Hfi' Hl'. split; cbn [pages fsm]; try done.
  - eapply Forall_impl; [exact Hp|]. intros q [[bs Hq] Hw]. rewrite page_at_insert.
    split; [|by case_decide]. destruct (decide (q = p)) as [->|?]; [rewrite lookup_insert_eq|rewrite lookup_insert_ne by done]; by eexists.
  - by rewrite Hfi'.
  - rewrite Forall_forall in *. intros q Hq Hlt. rewrite Hfi', Hc' in *. specialize (Hfi q Hq).
    rewrite Hl', page_at_insert by lia. replace (Fsm.first_page_id (fsm h) + (q - Fsm.first_page_id (fsm h))) with q by lia.
    case_decide; [done|]. by apply Hl.
Qed.

Lemma holds_put h m p pg f tid : p ∈ pages h ->
  holds (mkHeap (table_id h) f (pages h)) (<[p := Page.as_bytes pg]> m) tid =
    if decide (tid.1 = p) then mjoin (Page.tuples pg !! N.to_nat tid.2) else holds h m tid.
Proof.
  intros Hp. unfold holds. cbn [pages]. rewrite page_at_insert. case_decide as E; [|done].
  by rewrite E, bool_decide_eq_true_2.
Qed.

(** The second of two assignments to a page counts. *)
Lemma put_put (b b' : Pool.BufferPool D) f x y : Pool.put_page f x b = (b', Ok ()) -> Pool.put_page f y b' = Pool.put_page f y b.
Proof.
  unfold Pool.put_page, Pool.frame, mbind, Pool.pool_bind.
  destruct (Pool.frames b !! N.to_nat f) as [fr|] eqn:Hf; cbn [or_panic]; [|done].
  unfold Pool.set_frame. intros [= <-]. cbn [Pool.frames Pool.page_table Pool.free_list Pool.replacer Pool.disk].
  rewrite list_lookup_insert_eq by (by eapply lookup_lt_Some). cbn [or_panic Pool.page_id Pool.pin_count Pool.is_dirty].
  by rewrite list_insert_insert_eq.
Qed.

(** Rewriting a fetched page, logging, stamping and unpinning it. *)
Lemma store_logged e m p bs b1 f pg x r : Pool.visiting (pool e) m p bs b1 f -> Page.page_wf pg ->
  Wal.flushed_lsn (wal e) < 2 ^ 64 ->
  exists b2 b3 b4 w l n, with_pool (Pool.put_page f pg) (mkEnv (heap e) b1 (wal e)) = (mkEnv (heap e) b2 (wal e), Ok ()) /\
    log_record crc32 x r (mkEnv (heap e) b2 (wal e)) = (mkEnv (heap e) b2 w, Ok n) /\
    Wal.write_record crc32 (wal e) x r = (w, Ok n) /\ l = Wal.flushed_lsn w /\ l < 2 ^ 64 /\
    with_pool (Pool.put_page f (Page.set_lsn pg l)) (mkEnv (heap e) b2 w) = (mkEnv (heap e) b3 w, Ok ()) /\
    with_pool (Pool.unpin_page p true) (mkEnv (heap e) b3 w) = (mkEnv (heap e) b4 w, Ok ()) /\
    Pool.served (pool e) b4 (<[p := Page.as_bytes (Page.set_lsn pg l)]> m).
Proof.
  intros [Hpg _ Hst] Hw Hl0. pose proof (write_record_lsn (wal e) x r Hl0) as Hl. destruct (Hst (Page.as_bytes pg) (Page.wf_size pg Hw)) as (b2 & _ & Hp2 & _).
  rewrite Page.from_as in Hp2. destruct (log_record_ok x r (mkEnv (heap e) b2 (wal e))) as (w & n & Hlog & Hwr).
  cbn [heap pool wal] in *. rewrite Hwr in Hl. cbn [fst] in Hl.
  destruct (Page.set_lsn_spec pg (Wal.flushed_lsn w) Hw Hl) as (Hw' & _).
  destruct (Hst (Page.as_bytes (Page.set_lsn pg (Wal.flushed_lsn w))) (Page.wf_size _ Hw')) as (b3 & b4 & Hp3 & Hu3 & Hs3).
  rewrite Page.from_as, <- (put_put b1 b2 f pg _ Hp2) in Hp3.
  exists b2, b3, b4, w, (Wal.flushed_lsn w), n. split_and!; [|done|done|done|done| | |done].
  - by apply (with_pool_ok (Pool.put_page f pg) (mkEnv (heap e) b1 (wal e))).
  - exact (with_pool_ok _ (mkEnv (heap e) b2 w) b3 () Hp3).
  - exact (with_pool_ok _ (mkEnv (heap e) b3 w) b4 () Hu3).
Qed.

(** What an operation leaves of the clock and the disk. *)
Record spent e e' (n : N) : Prop := {
  sp_room : room (disk_of e') n;
  sp_clock : clock e' <= clock e + len (pages (heap e)) + 3;
  sp_len : len (pages (heap e')) <= len (pages (heap e)) + 1
}.

(** An insert either stores the tuple in an unused slot, or fails because the
    free space map rounds free space and demand to the same 32-byte class. *)
Lemma insert_tuple_ok e m xid data n : stored e m -> bytes_ok data -> 4 + len data <= 8144 ->
  room (disk_of e) (n + 1) -> clock e + len (pages (heap e)) + 3 < 2 ^ 64 ->
  (exists e' m' p s, insert_tuple crc32 xid data e = (e', Ok (mkTid p s)) /\ stored e' m' /\
     holds (heap e) m (p, s) = None /\
     (forall tid, holds (heap e') m' tid = if decide (tid = (p, s)) then Some data else holds (heap e) m tid) /\
     (exists lsn, Wal.write_record crc32 (wal e) xid (Wal.HeapInsert (table_id (heap e)) p s data) = (wal e', Ok lsn)) /\
     table_id (heap e') = table_id (heap e) /\
     spent e e' n /\ framed (heap e) m (heap e') m') \/
  (exists e' a, insert_tuple crc32 xid data e = (e', Err (InsufficientSpace (4 + len data) a)) /\
     a < 4 + len data /\ (4 + len data) / 32 = a / 32).
Proof.
  intros Hs Hb Hlen Hroom Hk. destruct (find_or_alloc_ok e m (4 + len data) n Hs Hroom Hlen) as (e1 & m1 & p & He1 & Hf1); [lia|].
  destruct Hf1 as [[Hr1 Hh1 Hlsn1] Hw1 Hp1 Ht1 Hsp1 Hho1 Hroom1 Hk1 Hlen1 [Hfp1 Hfk1]].
  unfold insert_tuple, mbind, heap_bind. change Page.SLOT_SIZE with 4. rewrite He1.
  pose proof (proj1 (Forall_forall _ _) (ho_pages _ _ Hh1) p Hp1) as [[bs Hbs] Hwf].
  rewrite (page_at_some _ _ _ Hbs) in Hwf, Hsp1.
  destruct (Pool.visit (pool e1) m1 p bs Hr1 Hbs) as (b2 & f & Hfe & Hvi); [lia|].
  rewrite (with_pool_ok _ e1 _ _ Hfe). rewrite (with_pool_ok _ (mkEnv _ b2 _) _ _ (Pool.vi_page _ _ _ _ _ _ Hvi)).
  destruct (N.le_gt_cases (4 + len data) (Page.free_space (Page.from_bytes bs))) as [Hfit|Hno].
  - left. set (pg := Page.from_bytes bs) in *. set (i := Page.slot_count pg). unfold lift.
    rewrite Page.insert_tuple_eq by done. fold i. set (pg' := Page.inserted pg i data).
    assert (Hw' : Page.page_wf pg') by (apply Page.inserted_wf; done).
    assert (Htup : Page.tuples pg' = Page.tuples pg ++ [Some data]).
    { unfold pg', i. rewrite Page.inserted_tuples by done. by rewrite <- Page.length_tuples, firstn_all, drop_all. }
    destruct (store_logged e1 m1 p bs b2 f pg' xid (Wal.HeapInsert (table_id (heap e1)) p i data) Hvi Hw' Hlsn1)
      as (b3 & b4 & b5 & w & l & k & H1 & H2 & H3 & Hl & Hlb & H4 & H5 & H6).
    cbn [heap wal]. rewrite H1. cbn [get_heap heap]. rewrite H2. cbn [get_flushed_lsn wal]. rewrite <- Hl, H4, H5.
    destruct (Page.set_lsn_spec pg' l Hw' Hlb) as (Hw2 & Ht2 & Hf2 & _).
    pose proof (proj1 (Forall_forall _ _) (ho_first _ _ Hh1) p Hp1) as Hge.
    pose proof (proj1 (Forall_forall _ _) (ho_bound _ _ Hh1) p Hp1) as Hpb. cbv beta in Hge, Hpb.
    destruct (update_fsm_ok (mkEnv (heap e1) b5 w) p (Page.free_space pg') (ho_fsm _ _ Hh1)) as (f' & -> & Hf' & Hc' & Hfi' & Hl');
      [cbn [heap]; lia|]. cbn [heap pool wal] in *. rewrite <- Hf2 in Hl'.
    eexists _, (<[p := Page.as_bytes (Page.set_lsn pg' l)]> m1), p, i. split; [done|].
    assert (Hlt : len (Page.tuples pg) = i) by apply Page.len_tuples.
    split_and!; cbn [heap pool wal pages table_id]; try done.
    + split; cbn [heap pool wal]; [apply H6|by apply heap_ok_put|by rewrite <- Hl].
    + rewrite <- Hho1. unfold holds. cbn [fst snd]. rewrite (page_at_some _ _ _ Hbs), Page.lookup_tuples_ge by done. by case_bool_decide.
    + intros [q j]. rewrite holds_put by done. cbn [fst snd]. rewrite Ht2, Htup, <- Hho1.
      destruct (decide (q = p)) as [->|Hne]; [|rewrite decide_False; congruence].
      unfold holds. cbn [fst snd]. rewrite (bool_decide_eq_true_2 _ Hp1), (page_at_some _ _ _ Hbs). fold pg.
      destruct (decide ((p, j) = (p, i))) as [[= ->]|Hne].
      * rewrite <- Hlt, len_length, list_lookup_middle by done. done.
      * assert (N.to_nat j <> length (Page.tuples pg)) by (rewrite <- len_length, Hlt; intros E; apply Hne; f_equal; lia).
        destruct (decide (N.to_nat j < length (Page.tuples pg))%nat); [by rewrite lookup_app_l|].
        rewrite (lookup_ge_None_2 (Page.tuples pg)) by lia. rewrite lookup_ge_None_2; [done|rewrite length_app; cbn; lia].
    + exists k. rewrite <- Hw1, <- Ht1. done.
    + pose proof (Pool.sd_clock _ _ _ H6). split; cbn [pool heap pages]; [by apply H6|lia|done].
    + split; cbn [pages]; [done|]. intros q Hq. rewrite lookup_insert_ne by (intros ->; done). by apply Hfk1.
  - right. unfold lift. rewrite Page.insert_tuple_err by done. eexists _, _. split; [done|]. split; [done|].
    unfold Fsm.encode_free, u8, wrap in Hsp1. rewrite !N.mod_small in Hsp1 by (change (2 ^ 8) with 256; lia).
    assert ((4 + len data) / 32 < 255) by (apply N.Div0.div_lt_upper_bound; lia).
    pose proof (N.Div0.div_le_mono (Page.free_space (Page.from_bytes bs)) (4 + len data) 32 ltac:(lia)). lia.
Qed.

Lemma holds_page h m p s d : heap_ok h m -> holds h m (p, s) = Some d ->
  p ∈ pages h /\ Page.page_wf (page_at m p) /\ is_Some (m !! p) /\
  Page.tuples (page_at m p) !! N.to_nat s = Some (Some d).
Proof.
  intros Hh. unfold holds. cbn [fst snd]. case_bool_decide as Hp; [|done]. intros Hd.
  pose proof (proj1 (Forall_forall _ _) (ho_pages _ _ Hh) p Hp) as [? ?]. split_and!; try done.
  destruct (Page.tuples (page_at m p) !! N.to_nat s) as [[?|]|]; cbn in Hd; congruence.
Qed.

Lemma get_tuple_ok e m p s d n : stored e m -> holds (heap e) m (p, s) = Some d ->
  room (disk_of e) (n + 1) -> clock e + 1 < 2 ^ 64 ->
  exists e', get_tuple (mkTid p s) e = (e', Ok d) /\ stored e' m /\ heap e' = heap e /\ spent e e' n.
Proof.
  intros [Hr Hh Hl] Hd Hroom Hk. destruct (holds_page _ _ _ _ _ Hh Hd) as (Hp & Hw & [bs Hbs] & Ht).
  destruct (Pool.visit (pool e) m p bs Hr Hbs) as (b1 & f & Hfe & [Hpg (b2 & Hu & [Hr2 Hk2 Hroom2]) _]); [lia|].
  exists (mkEnv (heap e) b2 (wal e)). rewrite (page_at_some _ _ _ Hbs) in *. split_and!; [|by split|done|].
  - unfold get_tuple, mbind, heap_bind. cbn [page_id slot_id]. rewrite (with_pool_ok _ e _ _ Hfe).
    rewrite (with_pool_ok _ (mkEnv _ b1 _) _ _ Hpg). unfold lift. rewrite Page.get_tuple_spec, Ht by done.
    by rewrite (with_pool_ok _ (mkEnv _ b1 _) _ _ Hu).
  - split; cbn [pool heap]; [apply Hroom2; eapply room_le; [|exact Hroom]; lia|lia|lia].
Qed.

Lemma delete_tuple_ok e m x p s d old n : stored e m -> holds (heap e) m (p, s) = Some d ->
  room (disk_of e) (n + 1) -> clock e + 1 < 2 ^ 64 ->
  exists e' m' lsn, delete_tuple crc32 x (mkTid p s) old e = (e', Ok ()) /\ stored e' m' /\
    (forall tid, holds (heap e') m' tid = if decide (tid = (p, s)) then None else holds (heap e) m tid) /\
    Wal.write_record crc32 (wal e) x (Wal.HeapDelete (table_id (heap e)) p s old) = (wal e', Ok lsn) /\
    heap e' = heap e /\ spent e e' n /\ framed (heap e) m (heap e') m'.
Proof.
  intros [Hr Hh Hl] Hd Hroom Hk. destruct (holds_page _ _ _ _ _ Hh Hd) as (Hp & Hw & [bs Hbs] & Ht).
  destruct (Pool.visit (pool e) m p bs Hr Hbs) as (b1 & f & Hfe & Hvi); [lia|].
  rewrite (page_at_some _ _ _ Hbs) in *. set (pg := Page.from_bytes bs) in *.
  assert (Hs : s < Page.slot_count pg).
  { destruct (N.lt_ge_cases s (Page.slot_count pg)) as [|Hge]; [done|]. by rewrite Page.lookup_tuples_ge in Ht. }
  pose proof (Page.deleted_wf pg s Hw Hs) as Hw'.
  destruct (store_logged e m p bs b1 f _ x (Wal.HeapDelete (table_id (heap e)) p s old) Hvi Hw' Hl)
    as (b3 & b4 & b5 & w & l & k & H1 & H2 & H3 & Hlw & Hlb & H4 & H5 & [Hr5 Hk5 Hroom5]).
  destruct (Page.set_lsn_spec _ l Hw' Hlb) as (Hw2 & Ht2 & Hf2 & _).
  exists (mkEnv (heap e) b5 w), (<[p := Page.as_bytes (Page.set_lsn (Page.deleted pg s) l)]> m), k.
  assert (Hfree : Page.free_space (Page.set_lsn (Page.deleted pg s) l) = Page.free_space pg).
  { rewrite Hf2. unfold Page.free_space. by destruct (Page.deleted_fields pg s Hw Hs) as (-> & -> & _). }
  assert (Heq : heap e = mkHeap (table_id (heap e)) (fsm (heap e)) (pages (heap e))) by (by destruct (heap e)).
  split_and!; [| | |done|done| |].
  - unfold delete_tuple, mbind, heap_bind. cbn [page_id slot_id]. rewrite (with_pool_ok _ e _ _ Hfe).
    rewrite (with_pool_ok _ (mkEnv _ b1 _) _ _ (Pool.vi_page _ _ _ _ _ _ Hvi)). unfold lift.
    fold pg. rewrite Page.delete_tuple_eq by done. cbn [heap wal]. rewrite H1. cbn [get_heap heap].
    rewrite H2. cbn [get_flushed_lsn wal]. by rewrite <- Hlw, H4.
  - split; cbn [heap pool wal]; [done| |by rewrite <- Hlw]. rewrite Heq. apply heap_ok_put; try done; [apply Hh|].
    intros j Hj. case_decide as E; [|done]. rewrite Hfree. subst p.
    pose proof (proj1 (Forall_forall _ _) (ho_leaf _ _ Hh) _ Hp ltac:(lia)) as Hleaf.
    replace (Fsm.first_page_id (fsm (heap e)) + j - Fsm.first_page_id (fsm (heap e))) with j in Hleaf by lia.
    by rewrite Hleaf, (page_at_some _ _ _ Hbs).
  - intros [q j]. cbn [heap]. rewrite Heq at 1. rewrite holds_put by done. cbn [fst snd]. rewrite Ht2, Page.deleted_tuples by done.
    destruct (decide (q = p)) as [->|Hne]; [|rewrite decide_False; congruence].
    unfold holds. cbn [fst snd]. rewrite (bool_decide_eq_true_2 _ Hp), (page_at_some _ _ _ Hbs). fold pg.
    destruct (decide ((p, j) = (p, s))) as [[= ->]|Hne].
    + rewrite list_lookup_insert_eq; [done|]. by eapply lookup_lt_Some.
    + rewrite list_lookup_insert_ne; [done|]. intros E. apply Hne. f_equal. lia.
  - split; cbn [pool heap]; [apply Hroom5; eapply room_le; [|exact Hroom]; lia|lia|lia].
  - split; cbn [heap]; [by left|]. intros q Hq. rewrite lookup_insert_ne by (intros ->; done). done.
Qed.

(** *** Scans *)

Lemma scan_slots_ok n pg p i : Page.page_wf pg -> i + N.of_nat n = Page.slot_count pg ->
  exists l, scan_slots n pg p i = Ok l /\ NoDup (fst <$> l) /\
    forall tid d, (tid, d) ∈ l <-> page_id tid = p /\ i <= slot_id tid /\
      Page.tuples pg !! N.to_nat (slot_id tid) = Some (Some d).
Proof.
  intros Hw. revert i. induction n as [|n IH]; intros i Hi.
  { exists []. split_and!; [done|constructor|]. intros tid d. split; [by intros ?%elem_of_nil|].
    intros (_ & Hle & Ht). rewrite Page.lookup_tuples_ge in Ht by lia. done. }
  destruct (IH (i + 1)) as (l & He & Hnd & Hl); [lia|]. cbn [scan_slots].
  rewrite Page.is_slot_used_spec by done.
  assert (Hsplit : forall tid d, page_id tid = p /\ i <= slot_id tid /\
      Page.tuples pg !! N.to_nat (slot_id tid) = Some (Some d) <->
    (tid = mkTid p i /\ Page.tuples pg !! N.to_nat i = Some (Some d)) \/ (tid, d) ∈ l).
  { intros [q j] d. rewrite Hl. cbn [page_id slot_id]. split.
    - intros (-> & Hle & Ht). destruct (decide (j = i)) as [->|]; [by left|]. right. split_and!; [done|lia|done].
    - intros [[[= -> ->] Ht]|(-> & Hle & Ht)]; split_and!; try done; lia. }
  destruct (Page.tuples pg !! N.to_nat i) as [[t|]|] eqn:Et; cbn [mbind outcome_bind negb].
  - rewrite Page.get_tuple_spec, Et by done. cbn [mbind outcome_bind]. rewrite He. cbn [mbind outcome_bind].
    eexists. split; [done|]. split.
    + rewrite fmap_cons. apply NoDup_cons. split; [|done]. cbn. intros ([tid d] & Hin & Htl)%list_elem_of_fmap.
      cbn in Hin. subst tid. apply Hl in Htl as (_ & Hle & _). cbn in Hle. lia.
    + intros tid d. rewrite Hsplit, elem_of_cons. naive_solver.
  - rewrite He. exists l. split_and!; [done..|]. intros tid d. rewrite Hsplit. naive_solver.
  - rewrite He. exists l. split_and!; [done..|]. intros tid d. rewrite Hsplit. naive_solver.
Qed.

Lemma scan_pages_ok ps e m : Pool.represents (pool e) m -> NoDup ps ->
  Forall (fun p => is_Some (m !! p) /\ Page.page_wf (page_at m p)) ps -> clock e + len ps < 2 ^ 64 ->
  exists b l, scan_pages ps e = (mkEnv (heap e) b (wal e), Ok l) /\ Pool.represents b m /\
    Lru.clock (Pool.replacer b) <= clock e + len ps /\ (forall n, room (disk_of e) n -> room (Pool.disk b) n) /\
    NoDup (fst <$> l) /\
    forall tid d, (tid, d) ∈ l <-> page_id tid ∈ ps /\
      Page.tuples (page_at m (page_id tid)) !! N.to_nat (slot_id tid) = Some (Some d).
Proof.
  revert e. induction ps as [|p ps IH]; intros e Hr Hnd Hps Hk.
  { exists (pool e), []. split_and!; try done; [by destruct e|lia|constructor|].
    intros tid d. rewrite !elem_of_nil. naive_solver. }
  apply NoDup_cons in Hnd as [Hp Hnd]. apply Forall_cons in Hps as [[[bs Hbs] Hw] Hps]. rewrite len_cons in *.
  destruct (Pool.visit (pool e) m p bs Hr Hbs) as (b1 & f & Hfe & [Hpg (b2 & Hu & [Hr2 Hk2 Hroom2]) _]); [lia|].
  rewrite (page_at_some _ _ _ Hbs) in Hw.
  destruct (scan_slots_ok (N.to_nat (Page.slot_count (Page.from_bytes bs))) (Page.from_bytes bs) p 0 Hw) as (l1 & Hs1 & Hnd1 & Hl1); [lia|].
  destruct (IH (mkEnv (heap e) b2 (wal e))) as (b3 & l2 & He2 & Hr3 & Hk3 & Hroom3 & Hnd2 & Hl2); cbn [pool] in *; [done|done|done|lia|].
  exists b3, (l1 ++ l2). split_and!; [|done|lia|auto| |].
  - cbn [scan_pages]. unfold mbind, heap_bind. rewrite (with_pool_ok _ e _ _ Hfe).
    rewrite (with_pool_ok _ (mkEnv _ b1 _) _ _ Hpg). unfold lift, scan_page. rewrite Hs1.
    rewrite (with_pool_ok _ (mkEnv _ b1 _) _ _ Hu). cbn [heap wal]. by rewrite He2.
  - rewrite fmap_app. apply NoDup_app. split_and!; [done| |done].
    intros tid ([? d1] & -> & H1)%list_elem_of_fmap ([? d2] & Heq & H2)%list_elem_of_fmap.
    apply Hl1 in H1 as [H1 _]. cbn in Heq. subst. apply Hl2 in H2 as [H2 _]. done.
  - intros [q j] d. rewrite elem_of_app, Hl1, Hl2, elem_of_cons. cbn [page_id slot_id]. split.
    + intros [(-> & _ & Ht)|[Hq Ht]]; [|auto]. split; [by left|]. by rewrite (page_at_some _ _ _ Hbs).
    + intros [[->|Hq] Ht]; [|auto]. left. rewrite (page_at_some _ _ _ Hbs) in Ht. split_and!; [done|lia|done].
Qed.

Lemma sorted_nodup (l : list N) : StronglySorted N.lt l -> NoDup l.
Proof.
  induction 1 as [|x l _ IH Hx]; constructor; [|done]. intros Hin. rewrite Forall_forall in Hx. specialize (Hx x Hin). lia.
Qed.

(** A scan returns every stored tuple once. *)
Lemma scan_ok e m n : stored e m -> room (disk_of e) (n + 1) -> clock e + len (pages (heap e)) < 2 ^ 64 ->
  exists e' l, scan e = (e', Ok l) /\ stored e' m /\ heap e' = heap e /\ spent e e' n /\ NoDup (fst <$> l) /\
    forall p s d, (mkTid p s, d) ∈ l <-> holds (heap e) m (p, s) = Some d.
Proof.
  intros [Hr Hh Hl] Hroom Hk.
  destruct (scan_pages_ok (pages (heap e)) e m Hr) as (b & l & He & Hr' & Hk' & Hroom' & Hnd & Hin);
    [apply sorted_nodup, Hh|apply (ho_pages _ _ Hh)|done|].
  exists (mkEnv (heap e) b (wal e)), l. split_and!; [exact He|by split|done| |done|].
  - split; cbn [pool heap]; [apply Hroom'; eapply room_le; [|exact Hroom]; lia|lia|lia].
  - intros p s d. rewrite Hin. unfold holds. cbn [fst snd page_id slot_id]. case_bool_decide as Hp; [|naive_solver].
    destruct (Page.tuples (page_at m p) !! N.to_nat s) as [[?|]|]; cbn; naive_solver.
Qed.

(** ** Clients of a heap file *)

Inductive client (A : Type) : Type :=
| Return (a : A)
| Insert (xid : N) (data : list N) (k : TupleId -> client A)
| Get (tid : TupleId) (k : list N -> client A)
| Delete (xid : N) (tid : TupleId) (old_xmax : N) (k : client A)
| Scan (k : list (TupleId * list N) -> client A).
#[global] Arguments Return {_} a.
#[global] Arguments Insert {_} xid data k.
#[global] Arguments Get {_} tid k.
#[global] Arguments Delete {_} xid tid old_xmax k.
#[global] Arguments Scan {_} k.

(** Against the heap file; the first error ends the run. *)
Fixpoint run {A} (c : client A) : heap_op (D := D) A :=
  match c with
  | Return a => mret a
  | Insert xid data k => tid ← insert_tuple crc32 xid data; run (k tid)
  | Get tid k => d ← get_tuple tid; run (k d)
  | Delete xid tid old k => _ ← delete_tuple crc32 xid tid old; run k
  | Scan k => l ← scan; run (k l)
  end.

Abbreviation table := (gmap (N * N) (list N)).
Definition key (tid : TupleId) : N * N := (page_id tid, slot_id tid).

(** [l] lists the table, every tuple once. *)
Definition lists (t : table) (l : list (TupleId * list N)) : Prop :=
  NoDup (fst <$> l) /\ forall tid d, (tid, d) ∈ l <-> t !! key tid = Some d.

(** Against a table: an insert picks an unused tuple id. *)
Inductive table_run {A} : table -> client A -> A -> table -> Prop :=
| TReturn t a : table_run t (Return a) a t
| TInsert t xid data tid k a t' : t !! key tid = None -> table_run (<[key tid := data]> t) (k tid) a t' ->
    table_run t (Insert xid data k) a t'
| TGet t tid d k a t' : t !! key tid = Some d -> table_run t (k d) a t' -> table_run t (Get tid k) a t'
| TDelete t xid tid old k a t' : table_run (delete (key tid) t) k a t' -> table_run t (Delete xid tid old k) a t'
| TScan t l k a t' : lists t l -> table_run t (k l) a t' -> table_run t (Scan k) a t'.

(** The client reads and deletes tuples that exist, inserts tuples that fit a
    page, and stops within [n] operations. *)
Inductive well_behaved {A} : nat -> table -> client A -> Prop :=
| WReturn n t a : well_behaved n t (Return a)
| WInsert n t xid data k : bytes_ok data -> 4 + len data <= 8144 ->
    (forall tid, t !! key tid = None -> well_behaved n (<[key tid := data]> t) (k tid)) ->
    well_behaved (S n) t (Insert xid data k)
| WGet n t tid d k : t !! key tid = Some d -> well_behaved n t (k d) -> well_behaved (S n) t (Get tid k)
| WDelete n t xid tid old k : is_Some (t !! key tid) -> well_behaved n (delete (key tid) t) k ->
    well_behaved (S n) t (Delete xid tid old k)
| WScan n t k : (forall l, lists t l -> well_behaved n t (k l)) -> well_behaved (S n) t (Scan k).

Definition budget e (n : N) : Prop :=
  room (disk_of e) n /\ clock e + n * (len (pages (heap e)) + n + 3) < 2 ^ 64.

Lemma budget_step e e' n : budget e (N.of_nat (S n)) ->
  room (disk_of e) (N.of_nat n + 1) /\ clock e + len (pages (heap e)) + 3 < 2 ^ 64 /\
  (spent e e' (N.of_nat n) -> budget e' (N.of_nat n)).
Proof.
  rewrite Nat2N.inj_succ, <- N.add_1_r. intros [Hr Hk]. split_and!; [done|nia|]. intros [Hr' Hk' Hl'].
  split; [done|]. eapply N.le_lt_trans; [|exact Hk]. nia.
Qed.

(** Lifts the result of the rest of a run over its first operation. *)
Lemma run_step {A} t t1 (c c1 : client A) (r : env D * result A) :
  (forall a t', table_run t1 c1 a t' -> table_run t c a t') ->
  match r with
  | (e', Ok a) => exists t', table_run t1 c1 a t' /\ presents e' t'
  | (_, Err x) => exists k a, x = InsufficientSpace k a /\ a < k /\ k / 32 = a / 32
  | (_, Panic) => False
  end ->
  match r with
  | (e', Ok a) => exists t', table_run t c a t' /\ presents e' t'
  | (_, Err x) => exists k a, x = InsufficientSpace k a /\ a < k /\ k / 32 = a / 32
  | (_, Panic) => False
  end.
Proof. intros Hr. destruct r as [e' [a|x|]]; naive_solver. Qed.

(** C4: a heap file implements a table.  A client that reads and deletes tuples
    which exist, and inserts tuples of bytes that fit an empty page, with
    [4 + len data <= 8144], sees what it would see on a finite map from tuple ids to
    tuples, through page allocation, eviction and logging, as long as the disk has
    room for one page per call and the clock of the pool does not run over 64 bits.
    Only an insert can then fail, and only when the page the free space map chose has
    less room than needed although both fall into the same 32-byte class.  A larger
    tuple fits no page and is refused; it is outside the statement. *)
Theorem heap_implements_table {A} n t (c : client A) e :
  presents e t -> well_behaved n t c -> budget e (N.of_nat n) ->
  match run c e with
  | (e', Ok a) => exists t', table_run t c a t' /\ presents e' t'
  | (_, Err x) => exists k a, x = InsufficientSpace k a /\ a < k /\ k / 32 = a / 32
  | (_, Panic) => False
  end.
Proof.
  intros Hp Hwb. revert e Hp.
  induction Hwb as [n t a|n t xid data k Hb Hlen _ IH|n t tid d k Hd _ IH|n t xid tid old k [d Hd] _ IH|n t k _ IH];
    intros e (m & Hs & Ht) Hbud; cbn [run]; unfold mbind, heap_bind;
    [|destruct (budget_step e e n Hbud) as (Hroom & Hk & _); pose proof (fun e' => proj2 (proj2 (budget_step e e' n Hbud))) as Hnext..].
  - exists t. split; [constructor|]. by exists m.
  - destruct (insert_tuple_ok e m xid data (N.of_nat n) Hs Hb Hlen Hroom Hk)
      as [(e' & m' & p & s & -> & Hs' & Hnone & Hho & _ & _ & Hsp & _)|(e' & a & -> & Ha & Hdiv)]; [|by eexists _, _].
    assert (Hfresh : t !! key (mkTid p s) = None) by (by rewrite Ht).
    eapply run_step; [|apply (IH (mkTid p s) Hfresh e'); [|by apply Hnext]]; [by econstructor|].
    exists m'. split; [done|]. intros tid. rewrite Hho, <- Ht. destruct (decide (tid = (p, s))) as [->|Hne].
    + by rewrite lookup_insert_eq.
    + by rewrite lookup_insert_ne.
  - destruct tid as [p s]. unfold key in Hd. cbn in Hd. rewrite Ht in Hd.
    destruct (get_tuple_ok e m p s d (N.of_nat n) Hs Hd Hroom) as (e' & -> & Hs' & Hh & Hsp); [lia|].
    eapply run_step; [|apply (IH e'); [|by apply Hnext]]; [intros a t'; apply TGet; unfold key; cbn; by rewrite Ht|].
    exists m. split; [done|]. by rewrite Hh.
  - destruct tid as [p s]. unfold key in Hd. cbn in Hd. rewrite Ht in Hd.
    destruct (delete_tuple_ok e m xid p s d old (N.of_nat n) Hs Hd Hroom) as (e' & m' & l & -> & Hs' & Hho & _ & _ & Hsp & _); [lia|].
    eapply run_step; [|apply (IH e'); [|by apply Hnext]]; [by econstructor|].
    exists m'. split; [done|]. intros tid. rewrite Hho, <- Ht. unfold key. cbn. destruct (decide (tid = (p, s))) as [->|Hne].
    + by rewrite lookup_delete_eq.
    + by rewrite lookup_delete_ne.
  - destruct (scan_ok e m (N.of_nat n) Hs Hroom) as (e' & l & -> & Hs' & Hh & Hsp & Hnd & Hin); [lia|].
    assert (Hl : lists t l) by (split; [done|]; intros [p s] d; by rewrite Hin, <- Ht).
    eapply run_step; [|apply (IH l Hl e'); [|by apply Hnext]]; [by econstructor|].
    exists m. split; [done|]. by rewrite Hh.
Qed.

End HeapSpec.

(** ** Over the disk manager *)

Definition fresh_env (frames : N) : env Disk.DiskManager := mkEnv (new 1) (Pool.new frames Disk.create) Wal.create.

Lemma fresh_stored frames : 0 < frames -> stored (fresh_env frames) ∅.
Proof.
  intros Hf.
  destruct (Fsm.new_fsm_wf 64 0) as (Hw & Hfi & _); [done|done|].
  split; cbn [fresh_env heap pool wal]; [by apply Pool.pool_over_new_file| |done]. split; cbn [new pages fsm]; done || constructor.
Qed.

Lemma fresh_presents frames : 0 < frames -> presents (fresh_env frames) ∅.
Proof. intros Hf. exists ∅. split; [by apply fresh_stored|]. intros tid. by rewrite lookup_empty. Qed.

(** Insert two tuples, delete the first, scan. *)
Definition sample_client : client (list (TupleId * list N)) :=
  Insert 1 (replicate 40 7) (fun t1 => Insert 1 (replicate 60 8) (fun t2 => Delete 1 t1 0 (Get t2 (fun _ => Scan Return)))).

Lemma heap_implements_table_witness :
  match run (fun _ => 0) sample_client (fresh_env 2) with
  | (e', Ok a) => exists t', table_run ∅ sample_client a t' /\ presents e' t'
  | (_, Err x) => exists k a, x = InsufficientSpace k a /\ a < k /\ k / 32 = a / 32
  | (_, Panic) => False
  end.
Proof.
  apply (heap_implements_table (fun _ => 0) 5); [by apply fresh_presents| |by vm_compute].
  assert (Hb : forall n x, x < 256 -> bytes_ok (replicate n x)) by (intros; by apply Forall_replicate).
  constructor; [by apply Hb|done|]. intros t1 H1. constructor; [by apply Hb|done|]. intros t2 H2.
  assert (key t1 <> key t2) by (intros E; by rewrite E, lookup_insert_eq in H2).
  constructor; [rewrite lookup_insert_ne, lookup_insert_eq by done; by eexists|].
  econstructor; [by rewrite lookup_delete_ne, lookup_insert_eq|]. constructor. constructor.
Defined.

(** A small tuple is refused although a new page could be allocated.  A
    demand below 32 bytes rounds to class 0, which every page satisfies, so the
    free space map always answers with the first page; when that page is full
    the insert fails, and the page stays pinned. *)
Theorem small_insert_refused crc32 :
  let '(e1, r1) := insert_tuple crc32 1 (replicate (N.to_nat 8130) 7) (fresh_env 4) in
  let '(e2, r2) := insert_tuple crc32 1 (replicate 20 8) e1 in
  r1 = Ok (mkTid 1 0) /\ r2 = Err (InsufficientSpace 24 10) /\ Pool.pins (pool e2) 1 = 1.
Proof. vm_compute. done. Qed.

End Heap.
