(* ===== verification/StorageBTree.v ===== *)
(** * The B+ tree

    Models [crates/storage/src/btree.rs]: the tree of byte-string keys whose nodes
    are pages of the buffer pool.  The operations are written as the source writes
    them, page by page, with the pins they take and release; a pointer that is
    followed without end ([lookup], [range_scan], [insert_recursive]) is followed
    for [fuel] steps, and running out of fuel counts as a panic, so that an [Ok]
    result is a completed loop.  [StorageBTreeNode.v] shows what the nodes hold and
    [StorageBTreeMap.v] that the tree implements an ordered map. *)

From stdpp Require Import gmap.
From S2P Require Import Prelude Bytes ByteOrder StorageError StoragePage StorageDisk StorageBufferPool StoragePins StorageHeap.

Module BTree.
Import Page Pool Pins.

Abbreviation TupleId := Heap.TupleId.
Abbreviation key := (list N).

Definition META_MAGIC : N := 0x454D5442.
Definition META_OFF_MAGIC : N := 0.
Definition META_OFF_ROOT : N := 4.
Definition META_OFF_HEIGHT : N := 12.
Definition META_OFF_NENTRIES : N := 16.

Record BTree : Type := mkBTree { meta_page_id : N; root_page_id : N }.

(** ** Entries *)

Definition encode_leaf_entry (k : key) (tid : TupleId) : list N :=
  le_bytes 2 (len k) ++ k ++ le_bytes 8 (Heap.page_id tid) ++ le_bytes 2 (Heap.slot_id tid).

Definition decode_leaf_entry (d : list N) : result (key * TupleId) :=
  if len d <? 12 then Err Corruption
  else
    kl ← slice d 0 2;
    let key_len := le_value kl in
    if len d <? 2 + key_len + 10 then Err Corruption
    else
      k ← slice d 2 (2 + key_len);
      page_id ← slice d (2 + key_len) (2 + key_len + 8);
      slot_id ← slice d (2 + key_len + 8) (2 + key_len + 10);
      Ok (k, Heap.mkTid (le_value page_id) (le_value slot_id)).

Definition encode_internal_entry (k : key) (child : N) : list N :=
  le_bytes 2 (len k) ++ k ++ le_bytes 8 child.

Definition decode_internal_entry (d : list N) : result (key * N) :=
  if len d <? 10 then Err Corruption
  else
    kl ← slice d 0 2;
    let key_len := le_value kl in
    if len d <? 2 + key_len + 8 then Err Corruption
    else
      k ← slice d 2 (2 + key_len);
      child ← slice d (2 + key_len) (2 + key_len + 8);
      Ok (k, le_value child).

(** ** Inside a node *)

(** [Result::unwrap]. *)
Definition unwrap {A} (r : result A) : result A := match r with Ok a => Ok a | _ => Panic end.

(** The key of an entry, [&entry[2..2 + kl]]. *)
Definition entry_key (entry : list N) : result key :=
  kl ← slice entry 0 2;
  slice entry 2 (2 + le_value kl).

(** The binary search of [descend]: the first slot whose separator is above the
    key.  The interval shrinks at every step, so its length is enough fuel. *)
Fixpoint descend_loop (fuel : nat) (pg : Page) (k : key) (lo hi : N) : result N :=
  match fuel with
  | O => Ok lo
  | S fuel =>
      if lo <? hi then
        let mid := lo + (hi - lo) / 2 in
        used ← is_slot_used pg mid;
        if negb used then descend_loop fuel pg k lo mid
        else
          entry ← unwrap (get_tuple pg mid);
          sep ← entry_key entry;
          if bytes_le sep k then descend_loop fuel pg k (mid + 1) hi
          else descend_loop fuel pg k lo mid
      else Ok lo
  end.

Definition descend (pg : Page) (k : key) : result N :=
  let slot_count := slot_count pg in
  if slot_count =? 0 then btree_leftmost_child pg
  else
    lo ← descend_loop (N.to_nat slot_count) pg k 0 slot_count;
    if lo =? 0 then btree_leftmost_child pg
    else
      entry ← unwrap (get_tuple pg (lo - 1));
      kl ← slice entry 0 2;
      child ← slice entry (2 + le_value kl) (2 + le_value kl + 8);
      Ok (le_value child).

Fixpoint find_loop (n : nat) (pg : Page) (k : key) (i : N) : result (option TupleId) :=
  match n with
  | O => Ok None
  | S n =>
      used ← is_slot_used pg i;
      if negb used then find_loop n pg k (i + 1)
      else
        entry ← unwrap (get_tuple pg i);
        existing ← entry_key entry;
        if bool_decide (existing = k) then
          let kl := len existing in
          pid ← slice entry (2 + kl) (2 + kl + 8);
          sid ← slice entry (2 + kl + 8) (2 + kl + 10);
          Ok (Some (Heap.mkTid (le_value pid) (le_value sid)))
        else if bytes_lt k existing then Ok None
        else find_loop n pg k (i + 1)
  end.

Definition find_in_leaf (pg : Page) (k : key) : result (option TupleId) :=
  find_loop (N.to_nat (slot_count pg)) pg k 0.

(** [leaf_insert_pos] and [internal_insert_pos] are one function twice. *)
Fixpoint pos_loop (n : nat) (pg : Page) (k : key) (i : N) : result N :=
  match n with
  | O => Ok (slot_count pg)
  | S n =>
      used ← is_slot_used pg i;
      if negb used then pos_loop n pg k (i + 1)
      else
        entry ← unwrap (get_tuple pg i);
        existing ← entry_key entry;
        if bytes_lt k existing then Ok i else pos_loop n pg k (i + 1)
  end.

Definition leaf_insert_pos (pg : Page) (k : key) : result N := pos_loop (N.to_nat (slot_count pg)) pg k 0.
Definition internal_insert_pos (pg : Page) (k : key) : result N := pos_loop (N.to_nat (slot_count pg)) pg k 0.

Fixpoint collect_loop {A} (decode : list N -> result A) (n : nat) (pg : Page) (i : N) : result (list A) :=
  match n with
  | O => Ok []
  | S n =>
      used ← is_slot_used pg i;
      if negb used then collect_loop decode n pg (i + 1)
      else
        entry ← unwrap (get_tuple pg i);
        a ← unwrap (decode entry);
        rest ← collect_loop decode n pg (i + 1);
        Ok (a :: rest)
  end.

Definition collect_leaf_entries (pg : Page) : result (list (key * TupleId)) :=
  collect_loop decode_leaf_entry (N.to_nat (slot_count pg)) pg 0.
Definition collect_internal_entries (pg : Page) : result (list (key * N)) :=
  collect_loop decode_internal_entry (N.to_nat (slot_count pg)) pg 0.

(** ** Over the pool *)

Section Ops.
Context {D : Type} `{PageStore D}.

Abbreviation op := (pool_op (D := D)).

(** [pool.page_mut(f).insert_tuple_at(pos, &entry)?]. *)
Definition insert_at (f pos : N) (entry : list N) : op () :=
  on_page f (fun pg => r ← insert_tuple_at pg pos entry; Ok r.1).

(** The loops that fill a page: every entry goes behind the last slot. *)
Fixpoint append_all (f : N) (entries : list (list N)) : op () :=
  match entries with
  | [] => mret ()
  | e :: entries =>
      _ ← on_page f (fun pg => r ← insert_tuple_at pg (slot_count pg) e; Ok r.1);
      append_all f entries
  end.

Definition is_leaf (pg : Page) : result bool :=
  flags ← btree_flags pg; Ok (negb (N.land flags BTREE_FLAG_IS_LEAF =? 0)).

(** [flags & !bit] on [u16]. *)
Definition clear_bit (flags bit : N) : N := N.land flags (N.lxor 65535 bit).

Definition create : op BTree :=
  '(meta, _) ← new_page;
  '(root, root_fid) ← new_page;
  _ ← on_page root_fid (fun pg => Ok (init_btree_page pg true true));
  _ ← unpin_page root true;
  meta_fid ← fetch_page meta;
  _ ← on_page meta_fid (fun pg =>
        let d := put_u32 (as_bytes pg) META_OFF_MAGIC META_MAGIC in
        let d := put_u64 d META_OFF_ROOT root in
        let d := put_u32 d META_OFF_HEIGHT 0 in
        Ok (from_bytes (put_u64 d META_OFF_NENTRIES 0)));
  _ ← unpin_page meta true;
  mret (mkBTree meta root).

Definition open (meta : N) : op BTree :=
  fid ← fetch_page meta;
  pg ← page_of fid;
  let d := as_bytes pg in
  if negb (get_u32 d META_OFF_MAGIC =? META_MAGIC) then
    _ ← unpin_page meta false;
    fail Corruption
  else
    let root := get_u64 d META_OFF_ROOT in
    _ ← unpin_page meta false;
    mret (mkBTree meta root).

Definition leaf_insert (p : N) (k : key) (tid : TupleId) : op (option (key * N)) :=
  let entry := encode_leaf_entry k tid in
  let needed := SLOT_SIZE + len entry in
  fid ← fetch_page p;
  pg ← page_of fid;
  pos ← lift (leaf_insert_pos pg k);
  if needed <=? free_space pg then
    _ ← insert_at fid pos entry;
    _ ← unpin_page p true;
    mret None
  else
    existing ← lift (collect_leaf_entries pg);
    _ ← unpin_page p false;
    let ins := partition_point (fun e => bytes_le e.1 k) existing in
    let all := take ins existing ++ (k, tid) :: drop ins existing in
    let mid := (length all / 2)%nat in
    separator ← lift (or_panic (all !! mid));
    '(new_id, new_fid) ← new_page;
    fid ← fetch_page p;
    pg ← page_of fid;
    old_next ← lift (btree_next_page pg);
    old_flags ← lift (btree_flags pg);
    _ ← on_page fid clear_tuples;
    _ ← on_page fid (fun pg => set_btree_flags pg (clear_bit old_flags BTREE_FLAG_IS_RIGHTMOST));
    _ ← on_page fid (fun pg => set_btree_next_page pg new_id);
    _ ← append_all fid (map (fun e => encode_leaf_entry e.1 e.2) (take mid all));
    _ ← unpin_page p true;
    _ ← on_page new_fid (fun pg => Ok (init_btree_page pg true false));
    _ ← on_page new_fid (fun pg => set_btree_prev_page pg p);
    _ ← on_page new_fid (fun pg => set_btree_next_page pg old_next);
    _ ← append_all new_fid (map (fun e => encode_leaf_entry e.1 e.2) (drop mid all));
    _ ← unpin_page new_id true;
    _ ← (if negb (old_next =? INVALID_PAGE_ID) then
           on_fid ← fetch_page old_next;
           _ ← on_page on_fid (fun pg => set_btree_prev_page pg new_id);
           unpin_page old_next true
         else mret ());
    mret (Some (separator.1, new_id)).

Definition internal_insert (p : N) (sep_key : key) (new_child : N) : op (option (key * N)) :=
  let entry := encode_internal_entry sep_key new_child in
  let needed := SLOT_SIZE + len entry in
  fid ← fetch_page p;
  pg ← page_of fid;
  pos ← lift (internal_insert_pos pg sep_key);
  if needed <=? free_space pg then
    _ ← insert_at fid pos entry;
    _ ← unpin_page p true;
    mret None
  else
    leftmost ← lift (btree_leftmost_child pg);
    level ← lift (btree_level pg);
    existing ← lift (collect_internal_entries pg);
    _ ← unpin_page p false;
    let ins := partition_point (fun e => bytes_le e.1 sep_key) existing in
    let all := take ins existing ++ (sep_key, new_child) :: drop ins existing in
    let mid := (length all / 2)%nat in
    up ← lift (or_panic (all !! mid));
    fid ← fetch_page p;
    _ ← on_page fid clear_tuples;
    _ ← on_page fid (fun pg => set_btree_leftmost_child pg leftmost);
    _ ← append_all fid (map (fun e => encode_internal_entry e.1 e.2) (take mid all));
    _ ← unpin_page p true;
    '(new_id, new_fid) ← new_page;
    _ ← on_page new_fid (fun pg => Ok (init_btree_page pg false false));
    _ ← on_page new_fid (fun pg => set_btree_level pg level);
    _ ← on_page new_fid (fun pg => set_btree_leftmost_child pg up.2);
    _ ← append_all new_fid (map (fun e => encode_internal_entry e.1 e.2) (drop (S mid) all));
    _ ← unpin_page new_id true;
    mret (Some (up.1, new_id)).

Fixpoint insert_recursive (fuel : nat) (p : N) (k : key) (tid : TupleId) : op (option (key * N)) :=
  match fuel with
  | O => lift Panic
  | S fuel =>
      fid ← fetch_page p;
      pg ← page_of fid;
      leaf ← lift (is_leaf pg);
      _ ← unpin_page p false;
      if leaf : bool then leaf_insert p k tid
      else
        fid ← fetch_page p;
        pg ← page_of fid;
        child ← lift (descend pg k);
        _ ← unpin_page p false;
        split ← insert_recursive fuel child k tid;
        match split with
        | Some (sep_key, new_child) => internal_insert p sep_key new_child
        | None => mret None
        end
  end.

Definition persist_root (t : BTree) : op () :=
  fid ← fetch_page (meta_page_id t);
  _ ← on_page fid (fun pg => Ok (from_bytes (put_u64 (as_bytes pg) META_OFF_ROOT (root_page_id t))));
  unpin_page (meta_page_id t) true.

(** The new root above the two halves of the old one; its id. *)
Definition grow_root (root : N) (sep_key : key) (new_page_id : N) : op N :=
  fid ← fetch_page root;
  pg ← page_of fid;
  level ← lift (btree_level pg);
  _ ← unpin_page root false;
  fid ← fetch_page root;
  pg ← page_of fid;
  flags ← lift (btree_flags pg);
  _ ← on_page fid (fun pg => set_btree_flags pg (clear_bit flags BTREE_FLAG_IS_ROOT));
  _ ← unpin_page root true;
  '(new_root, new_fid) ← new_page;
  _ ← on_page new_fid (fun pg => Ok (init_btree_page pg false true));
  _ ← on_page new_fid (fun pg => set_btree_level pg (wadd 16 level 1));
  _ ← on_page new_fid (fun pg => set_btree_leftmost_child pg root);
  _ ← insert_at new_fid 0 (encode_internal_entry sep_key new_page_id);
  _ ← unpin_page new_root true;
  mret new_root.

(** [insert]: the handle keeps its new root also when [persist_root] fails. *)
Definition insert (fuel : nat) (t : BTree) (k : key) (tid : TupleId) (b : BufferPool D) : BufferPool D * (BTree * result ()) :=
  match insert_recursive fuel (root_page_id t) k tid b with
  | (b, Ok None) => (b, (t, Ok ()))
  | (b, Ok (Some (sep_key, new_page_id))) =>
      match grow_root (root_page_id t) sep_key new_page_id b with
      | (b, Ok new_root) =>
          let t := mkBTree (meta_page_id t) new_root in
          let '(b, r) := persist_root t b in (b, (t, r))
      | (b, Err e) => (b, (t, Err e))
      | (b, Panic) => (b, (t, Panic))
      end
  | (b, Err e) => (b, (t, Err e))
  | (b, Panic) => (b, (t, Panic))
  end.

Fixpoint lookup_from (fuel : nat) (p : N) (k : key) : op (option TupleId) :=
  match fuel with
  | O => lift Panic
  | S fuel =>
      fid ← fetch_page p;
      pg ← page_of fid;
      leaf ← lift (is_leaf pg);
      if leaf : bool then
        r ← lift (find_in_leaf pg k);
        _ ← unpin_page p false;
        mret r
      else
        child ← lift (descend pg k);
        _ ← unpin_page p false;
        lookup_from fuel child k
  end.

Definition lookup (fuel : nat) (t : BTree) (k : key) : op (option TupleId) := lookup_from fuel (root_page_id t) k.

(** The descent of [range_scan] to the leaf that would hold [start]. *)
Fixpoint find_leaf (fuel : nat) (p : N) (k : key) : op N :=
  match fuel with
  | O => lift Panic
  | S fuel =>
      fid ← fetch_page p;
      pg ← page_of fid;
      leaf ← lift (is_leaf pg);
      if leaf : bool then
        _ ← unpin_page p false;
        mret p
      else
        child ← lift (descend pg k);
        _ ← unpin_page p false;
        find_leaf fuel child k
  end.

(** One leaf of the scan: its entries in range, and whether the end was met. *)
Fixpoint scan_leaf (n : nat) (pg : Page) (start : key) (stop : option key) (i : N)
    : result (list (key * TupleId) * bool) :=
  match n with
  | O => Ok ([], false)
  | S n =>
      used ← is_slot_used pg i;
      if negb used then scan_leaf n pg start stop (i + 1)
      else
        bytes ← get_tuple pg i;
        e ← decode_leaf_entry bytes;
        if bytes_lt e.1 start then scan_leaf n pg start stop (i + 1)
        else if match stop with Some s => bytes_le s e.1 | None => false end then Ok ([], true)
        else
          rest ← scan_leaf n pg start stop (i + 1);
          Ok (e :: rest.1, rest.2)
  end.

Fixpoint scan_from (fuel : nat) (p : N) (start : key) (stop : option key) : op (list (key * TupleId)) :=
  match fuel with
  | O => lift Panic
  | S fuel =>
      fid ← fetch_page p;
      pg ← page_of fid;
      next ← lift (btree_next_page pg);
      '(es, ended) ← lift (scan_leaf (N.to_nat (slot_count pg)) pg start stop 0);
      _ ← unpin_page p false;
      if (ended : bool) || (next =? INVALID_PAGE_ID) then mret es
      else
        rest ← scan_from fuel next start stop;
        mret (es ++ rest)
  end.

Definition range_scan (fuel : nat) (t : BTree) (start : key) (stop : option key) : op (list (key * TupleId)) :=
  p ← find_leaf fuel (root_page_id t) start;
  scan_from fuel p start stop.

End Ops.

Definition encode_u64_key (v : N) : list N := be_bytes 8 v.
Definition decode_u64_key (b : list N) : result N := bs ← slice b 0 8; Ok (be_value bs).

End BTree.
