(* ===== verification/StorageBTreeNode.v ===== *)
(** * The nodes of the B+ tree

    What the pages of [StorageBTree.v] hold: [node] reads a page as its list of
    entries and the fields of its special space, every edit the tree makes is
    specified on that, and the searches inside a node are those of the list. *)

From stdpp Require Import gmap.
From S2P Require Import Prelude Bytes ByteOrder BTreeMap StorageError StoragePage StorageDisk StorageBufferPool StoragePins StorageHeap.
From S2P Require Import StorageBTree.

Module BTreeNode.
Import Page BTree.

(** The bytes a list of entries takes, slots included. *)
Fixpoint total (es : list (list N)) : N :=
  match es with
  | [] => 0
  | e :: es => 4 + len e + total es
  end.

Record node (pg : Page) (es : list (list N)) (flags next leftmost : N) : Prop := {
  nd_wf : page_wf pg;
  nd_special : special pg = 8164;
  nd_tuples : tuples pg = Some <$> es;
  nd_space : free_space pg + total es = 8116;
  nd_flags : get_u16 (data pg) 8164 = flags;
  nd_next : get_u64 (data pg) 8176 = next;
  nd_leftmost : get_u64 (data pg) 8184 = leftmost
}.

Lemma total_app es fs : total (es ++ fs) = total es + total fs.
Proof. induction es as [|e es IH]; cbn; [done|]. lia. Qed.

Lemma node_len pg es fl nx lm : node pg es fl nx lm -> len (as_bytes pg) = PAGE_SIZE.
Proof. intros [Hw _]. apply Hw. Qed.

Lemma node_count pg es fl nx lm : node pg es fl nx lm -> slot_count pg = len es.
Proof. intros [Hw _ Ht _ _ _ _]. rewrite <- len_tuples, Ht. unfold len. by rewrite length_fmap. Qed.

Lemma node_used pg es fl nx lm i : node pg es fl nx lm -> i < len es -> is_slot_used pg i = Ok true.
Proof.
  intros Hn Hi. rewrite is_slot_used_spec, (nd_tuples _ _ _ _ _ Hn), list_lookup_fmap by apply Hn.
  destruct (lookup_lt_is_Some_2 es (N.to_nat i)) as [e ->]; [unfold len in Hi; lia|done].
Qed.

Lemma node_tuple pg es fl nx lm i e : node pg es fl nx lm -> es !! N.to_nat i = Some e -> get_tuple pg i = Ok e.
Proof.
  intros Hn Hi. rewrite get_tuple_spec, (nd_tuples _ _ _ _ _ Hn), list_lookup_fmap by apply Hn. by rewrite Hi.
Qed.

(** ** The fields of the special space *)

Lemma read_u64_ok d off : off + 8 <= len d -> read_u64 d off = Ok (get_u64 d off).
Proof. intros. unfold read_u64. rewrite slice_ok by lia. cbn. unfold get_u64. do 3 f_equal. lia. Qed.

Lemma write_u64_ok d off v : off + 8 <= len d -> write_u64 d off v = Ok (put_u64 d off v).
Proof. intros. apply copy_from_slice_ok. autorewrite with lens. lia. Qed.

(** Opens a read or a write of a field of the special space. *)
Ltac open_special Hn Hsz :=
  pose proof (wf_size _ (nd_wf _ _ _ _ _ Hn)) as Hsz; change PAGE_SIZE with 8192 in Hsz;
  unfold btree_flags, btree_next_page, btree_leftmost_child, btree_level, set_btree_flags, set_btree_next_page,
    set_btree_leftmost_child, set_btree_prev_page, set_btree_level, set_bt16, set_bt64;
  rewrite (nd_special _ _ _ _ _ Hn);
  change (8164 + BT_FLAGS) with 8164; change (8164 + BT_LEVEL) with 8166; change (8164 + BT_PREV) with 8168;
  change (8164 + BT_NEXT) with 8176; change (8164 + BT_LEFTMOST) with 8184.

Lemma node_read_flags pg es fl nx lm : node pg es fl nx lm -> btree_flags pg = Ok fl.
Proof. intros Hn. open_special Hn Hsz. rewrite read_u16_ok by (rewrite Hsz; done). by rewrite (nd_flags _ _ _ _ _ Hn). Qed.

Lemma node_read_next pg es fl nx lm : node pg es fl nx lm -> btree_next_page pg = Ok nx.
Proof. intros Hn. open_special Hn Hsz. rewrite read_u64_ok by (rewrite Hsz; done). by rewrite (nd_next _ _ _ _ _ Hn). Qed.

Lemma node_read_leftmost pg es fl nx lm : node pg es fl nx lm -> btree_leftmost_child pg = Ok lm.
Proof. intros Hn. open_special Hn Hsz. rewrite read_u64_ok by (rewrite Hsz; done). by rewrite (nd_leftmost _ _ _ _ _ Hn). Qed.

Lemma node_read_level pg es fl nx lm : node pg es fl nx lm -> exists l, btree_level pg = Ok l.
Proof. intros Hn. open_special Hn Hsz. rewrite read_u16_ok by (rewrite Hsz; done). by eexists. Qed.

(** A write into the special space leaves the slots and their tuples. *)
Lemma special_write pg off bs : page_wf pg -> special pg = 8164 -> 8164 <= off -> off + len bs <= 8192 -> bytes_ok bs ->
  let pg' := mkPage (data pg).[off <- bs] in
  page_wf pg' /\ special pg' = 8164 /\ tuples pg' = tuples pg /\ free_space pg' = free_space pg.
Proof.
  intros Hp Hs Ho Hl Hb pg'. page_facts Hp. pose proof (wf_bytes _ Hp) as Hok.
  assert (Hfar : forall o n, o + n <= 8164 -> (data pg').[o; n] = (data pg).[o; n]).
  { intros o n Hon. cbn. apply read_write_disjoint; lia. }
  assert (Hh : forall o, o + 2 <= 8164 -> get_u16 (data pg') o = get_u16 (data pg) o).
  { intros o Ho'. unfold get_u16. by rewrite Hfar. }
  assert (lower pg' = lower pg) as Elo by (by apply Hh).
  assert (upper pg' = upper pg) as Eup by (by apply Hh).
  assert (special pg' = special pg) as Esp by (by apply Hh).
  assert (slot_count pg' = slot_count pg) as Ec by (unfold slot_count; by rewrite Elo).
  assert (Hslot : forall i, i < slot_count pg -> slot pg' i = slot pg i).
  { intros i Hi. unfold slot. rewrite !slot_base_eq, !Hh by lia. done. }
  split_and!; [constructor; rewrite ?Elo, ?Eup, ?Esp, ?Ec; try apply Hp| |..].
  - cbn. rewrite len_write_at; [apply Hp|lia].
  - cbn. by apply write_at_bytes_ok.
  - intros i Hi. rewrite Hslot by done. unfold slot_wf. rewrite Eup, Esp. by apply Hp.
  - congruence.
  - apply tuples_intro; [by rewrite len_tuples, Ec|]. rewrite Ec. intros i Hi. rewrite lookup_tuples by done. f_equal.
    symmetry. apply slot_tuple_frame; [by apply Hslot|]. intros o n Hsl Hne. apply Hfar.
    destruct (wf_slots pg Hp i Hi) as [E|[_ E]]; [congruence|]. rewrite Hsl in E. cbn in E. lia.
  - unfold free_space. by rewrite Eup, Elo.
Qed.

Lemma special_write_node pg es fl nx lm off bs : node pg es fl nx lm -> 8164 <= off -> off + len bs <= 8192 -> bytes_ok bs ->
  let pg' := mkPage (data pg).[off <- bs] in
  node pg' es (get_u16 (data pg') 8164) (get_u64 (data pg') 8176) (get_u64 (data pg') 8184).
Proof.
  intros Hn Ho Hl Hb pg'.
  destruct (special_write pg off bs (nd_wf _ _ _ _ _ Hn) (nd_special _ _ _ _ _ Hn) Ho Hl Hb) as (Hw & Hs & Ht & Hf).
  split; try done.
  - unfold pg'. rewrite Ht. apply Hn.
  - unfold pg'. rewrite Hf. apply Hn.
Qed.

(** A field written: the entries stay and so do the other fields. *)
Ltac write_special Hn off bs :=
  let Hsz := fresh in open_special Hn Hsz; rewrite ?write_u16_ok, ?write_u64_ok by (rewrite Hsz; done); eexists; split; [done|];
  unfold put_u16, put_u64;
  let H := fresh in
  pose proof (special_write_node _ _ _ _ _ off bs Hn ltac:(done) ltac:(rewrite len_le_bytes; done) (le_bytes_ok _ _)) as H;
  cbv zeta in H; revert H; unfold get_u16, get_u64; cbn [data]; read_through; rewrite ?le_value_le_bytes_small by done;
  rewrite <- ?(nd_flags _ _ _ _ _ Hn), <- ?(nd_next _ _ _ _ _ Hn), <- ?(nd_leftmost _ _ _ _ _ Hn); exact (fun H => H).

Lemma node_set_flags pg es fl nx lm v : node pg es fl nx lm -> v < 65536 ->
  exists pg', set_btree_flags pg v = Ok pg' /\ node pg' es v nx lm.
Proof. intros Hn Hv. write_special Hn 8164 (le_bytes 2 v). Qed.

Lemma node_set_next pg es fl nx lm v : node pg es fl nx lm -> v < 2 ^ 64 ->
  exists pg', set_btree_next_page pg v = Ok pg' /\ node pg' es fl v lm.
Proof. intros Hn Hv. write_special Hn 8176 (le_bytes 8 v). Qed.

Lemma node_set_leftmost pg es fl nx lm v : node pg es fl nx lm -> v < 2 ^ 64 ->
  exists pg', set_btree_leftmost_child pg v = Ok pg' /\ node pg' es fl nx v.
Proof. intros Hn Hv. write_special Hn 8184 (le_bytes 8 v). Qed.

Lemma node_set_prev pg es fl nx lm v : node pg es fl nx lm ->
  exists pg', set_btree_prev_page pg v = Ok pg' /\ node pg' es fl nx lm.
Proof. intros Hn. write_special Hn 8168 (le_bytes 8 v). Qed.

Lemma node_set_level pg es fl nx lm v : node pg es fl nx lm ->
  exists pg', set_btree_level pg v = Ok pg' /\ node pg' es fl nx lm.
Proof. intros Hn. write_special Hn 8166 (le_bytes 2 v). Qed.

(** ** Edits of the entries *)

Definition init_flags (leaf root : bool) : N :=
  N.lor (N.lor (if root then BTREE_FLAG_IS_ROOT else 0) (if leaf then BTREE_FLAG_IS_LEAF else 0))
    BTREE_FLAG_IS_RIGHTMOST.

Lemma node_init pg leaf root : len (data pg) = PAGE_SIZE -> bytes_ok (data pg) ->
  node (init_btree_page pg leaf root) [] (init_flags leaf root) INVALID_PAGE_ID INVALID_PAGE_ID.
Proof.
  intros Hsz Hb. destruct (init_btree_page_spec pg leaf root Hsz Hb) as (Hw & Ht & Hf & Hs).
  change PAGE_SIZE with 8192 in Hsz. split; try done; [by rewrite Hf|..]; unfold init_btree_page;
    change (u16 (PAGE_SIZE - BTREE_SPECIAL_SIZE)) with 8164; change (u16 PAGE_HEADER_SIZE) with 48;
    fold (init_flags leaf root); unfold BT_FLAGS, BT_LEVEL, BT_PREV, BT_NEXT, BT_LEFTMOST; page_unfold; read_through;
    apply le_value_le_bytes_small; by destruct leaf, root.
Qed.

Lemma node_clear pg es fl nx lm : node pg es fl nx lm -> exists pg', clear_tuples pg = Ok pg' /\ node pg' [] fl nx lm.
Proof.
  intros Hn. destruct (clear_tuples_spec pg (nd_wf _ _ _ _ _ Hn)) as (pg' & He & Hw & Ht & Hf & Hs & _ & _ & Hfar).
  rewrite (nd_special _ _ _ _ _ Hn) in *. exists pg'. split; [done|].
  split; try done; [by rewrite Hf|unfold get_u16, get_u64; rewrite Hfar by done; apply Hn..].
Qed.

Lemma node_insert pg es fl nx lm pos t : node pg es fl nx lm -> pos <= len es -> 4 + len t <= free_space pg ->
  bytes_ok t -> exists pg', insert_tuple_at pg pos t = Ok (pg', pos) /\
    node pg' (take (N.to_nat pos) es ++ t :: drop (N.to_nat pos) es) fl nx lm.
Proof.
  intros Hn Hpos Hfit Ht. pose proof (nd_wf _ _ _ _ _ Hn) as Hw. pose proof (node_count _ _ _ _ _ Hn) as Hc.
  rewrite <- Hc in Hpos. exists (inserted pg pos t). split; [by apply insert_tuple_at_eq|].
  destruct (inserted_fields pg pos t Hw Hpos Hfit) as (Hlo & Hup & Hsp & _).
  assert (Hu : upper pg <= 8164) by (rewrite <- (nd_special _ _ _ _ _ Hn); apply Hw).
  split.
  - by apply inserted_wf.
  - rewrite Hsp. apply Hn.
  - rewrite inserted_tuples, (nd_tuples _ _ _ _ _ Hn) by done. by rewrite <- fmap_take, <- fmap_drop, fmap_app.
  - pose proof (nd_space _ _ _ _ _ Hn) as Hs. unfold free_space in *. rewrite Hlo, Hup, total_app. cbn [total].
    rewrite <- (take_drop (N.to_nat pos) es), total_app in Hs. lia.
  - unfold get_u16. rewrite inserted_read by (done || lia). apply Hn.
  - unfold get_u64. rewrite inserted_read by (done || lia). apply Hn.
  - unfold get_u64. rewrite inserted_read by (done || lia). apply Hn.
Qed.

Lemma node_append pg es fl nx lm t : node pg es fl nx lm -> total es + (4 + len t) <= 8116 -> bytes_ok t ->
  exists pg', insert_tuple_at pg (slot_count pg) t = Ok (pg', slot_count pg) /\ node pg' (es ++ [t]) fl nx lm.
Proof.
  intros Hn Hfit Ht. pose proof (nd_space _ _ _ _ _ Hn). pose proof (node_count _ _ _ _ _ Hn) as Hc.
  destruct (node_insert pg es fl nx lm (slot_count pg) t Hn) as (pg' & He & Hn'); [lia|lia|done|].
  exists pg'. split; [done|]. rewrite Hc in Hn'. unfold len in Hn'. rewrite Nat2N.id, firstn_all, drop_all in Hn'. done.
Qed.

(** ** Entries *)

Definition key_ok (k : key) : Prop := bytes_ok k /\ len k < 65536.
Definition tid_ok (t : TupleId) : Prop := Heap.page_id t < 2 ^ 64 /\ Heap.slot_id t < 65536.

Abbreviation leaf_raw es := (map (fun e : key * TupleId => encode_leaf_entry e.1 e.2) es).
Abbreviation internal_raw es := (map (fun e : key * N => encode_internal_entry e.1 e.2) es).

Ltac read_entry :=
  repeat first
    [ rewrite read_at_prefix by (autorewrite with lens; lia)
    | rewrite read_at_app_r by (autorewrite with lens; lia)
    | rewrite read_at_all by (autorewrite with lens; lia)
    | progress autorewrite with lens ].

Lemma entry_key_encode k rest : len k < 65536 -> entry_key (le_bytes 2 (len k) ++ k ++ rest) = Ok k.
Proof.
  intros Hk. unfold entry_key. rewrite slice_ok by (autorewrite with lens; lia). rewrite bind_ok.
  read_entry. rewrite le_value_le_bytes_small by done. rewrite slice_ok by (autorewrite with lens; lia).
  f_equal. rewrite read_at_app_r by (autorewrite with lens; lia). rewrite len_le_bytes.
  replace (2 - N.of_nat 2) with 0 by lia. apply read_at_prefix. lia.
Qed.

(** The bytes behind the key of an entry. *)
Lemma slice_behind_key k a rest : len k < 65536 ->
  slice (E := StorageError) (le_bytes 2 (len k) ++ k ++ a ++ rest) (2 + len k) (2 + len k + len a) = Ok a.
Proof.
  intros Hk. rewrite slice_ok by (autorewrite with lens; lia). f_equal.
  rewrite !read_at_app_r by (autorewrite with lens; lia). autorewrite with lens.
  replace (2 + len k - N.of_nat 2 - len k) with 0 by lia. apply read_at_prefix. lia.
Qed.

Lemma slice_key_len k rest : slice (E := StorageError) (le_bytes 2 (len k) ++ k ++ rest) 0 2 = Ok (le_bytes 2 (len k)).
Proof. rewrite slice_ok by (autorewrite with lens; lia). f_equal. Qed.

Lemma slice_key k rest : slice (E := StorageError) (le_bytes 2 (len k) ++ k ++ rest) 2 (2 + len k) = Ok k.
Proof.
  rewrite slice_ok by (autorewrite with lens; lia). f_equal.
  rewrite read_at_app_r by (autorewrite with lens; lia). autorewrite with lens.
  replace (2 - N.of_nat 2) with 0 by lia. apply read_at_prefix. lia.
Qed.

Lemma slice_slot k a b : len a = 8 -> len b = 2 ->
  slice (E := StorageError) (le_bytes 2 (len k) ++ k ++ a ++ b) (2 + len k + 8) (2 + len k + 10) = Ok b.
Proof.
  intros Ha Hb. rewrite slice_ok by (autorewrite with lens; lia). f_equal.
  rewrite !read_at_app_r by (autorewrite with lens; lia). autorewrite with lens.
  replace (2 + len k + 8 - N.of_nat 2 - len k - len a) with 0 by lia. apply read_at_all. lia.
Qed.

Lemma decode_leaf k t : len k < 65536 -> tid_ok t -> decode_leaf_entry (encode_leaf_entry k t) = Ok (k, t).
Proof.
  intros Hk [Hp Hs]. unfold decode_leaf_entry, encode_leaf_entry.
  destruct (N.ltb_spec (len (le_bytes 2 (len k) ++ k ++ le_bytes 8 (Heap.page_id t) ++ le_bytes 2 (Heap.slot_id t))) 12) as [Hl|_].
  { autorewrite with lens in Hl. lia. }
  rewrite slice_key_len, bind_ok, le_value_le_bytes_small by done.
  destruct (N.ltb_spec (len (le_bytes 2 (len k) ++ k ++ le_bytes 8 (Heap.page_id t) ++ le_bytes 2 (Heap.slot_id t)))
    (2 + len k + 10)) as [Hl|_].
  { autorewrite with lens in Hl. lia. }
  rewrite slice_key, bind_ok. pose proof (slice_behind_key k (le_bytes 8 (Heap.page_id t)) (le_bytes 2 (Heap.slot_id t)) Hk) as H.
  rewrite len_le_bytes in H. change (N.of_nat 8) with 8 in H. rewrite H, bind_ok.
  rewrite slice_slot, bind_ok by (by rewrite len_le_bytes). rewrite !le_value_le_bytes_small by done. by destruct t.
Qed.

Lemma child_slice k c : len k < 65536 ->
  slice (E := StorageError) (encode_internal_entry k c) (2 + len k) (2 + len k + 8) = Ok (le_bytes 8 c).
Proof.
  intros Hk. pose proof (slice_behind_key k (le_bytes 8 c) [] Hk) as H.
  by rewrite len_le_bytes, app_nil_r in H.
Qed.

Lemma decode_internal k c : len k < 65536 -> c < 2 ^ 64 -> decode_internal_entry (encode_internal_entry k c) = Ok (k, c).
Proof.
  intros Hk Hc. pose proof (child_slice k c Hk) as Hch. unfold decode_internal_entry, encode_internal_entry in *.
  destruct (N.ltb_spec (len (le_bytes 2 (len k) ++ k ++ le_bytes 8 c)) 10) as [Hl|_].
  { autorewrite with lens in Hl. lia. }
  rewrite slice_key_len, bind_ok, le_value_le_bytes_small by done.
  destruct (N.ltb_spec (len (le_bytes 2 (len k) ++ k ++ le_bytes 8 c)) (2 + len k + 8)) as [Hl|_].
  { autorewrite with lens in Hl. lia. }
  rewrite slice_key, bind_ok, Hch, bind_ok. by rewrite le_value_le_bytes_small.
Qed.

(** ** Searches *)

Definition leaf_ok (e : key * TupleId) : Prop := key_ok e.1 /\ tid_ok e.2.
Definition child_ok (e : key * N) : Prop := key_ok e.1 /\ e.2 < 2 ^ 64.

Lemma node_entry pg raw fl nx lm i e : node pg raw fl nx lm -> raw !! i = Some e ->
  is_slot_used pg (N.of_nat i) = Ok true /\ get_tuple pg (N.of_nat i) = Ok e.
Proof.
  intros Hn Hi. split.
  - eapply node_used; [done|]. apply lookup_lt_Some in Hi. unfold len. lia.
  - eapply node_tuple; [done|]. by rewrite Nat2N.id.
Qed.

(** The entry at an index, read by one step of a loop over the slots. *)
Lemma leaf_entry pg es fl nx lm i e : node pg (leaf_raw es) fl nx lm -> es !! i = Some e ->
  is_slot_used pg (N.of_nat i) = Ok true /\ get_tuple pg (N.of_nat i) = Ok (encode_leaf_entry e.1 e.2).
Proof. intros Hn Hi. eapply node_entry; [done|]. rewrite list_lookup_fmap. by rewrite Hi. Qed.

Lemma internal_entry pg es fl nx lm i e : node pg (internal_raw es) fl nx lm -> es !! i = Some e ->
  is_slot_used pg (N.of_nat i) = Ok true /\ get_tuple pg (N.of_nat i) = Ok (encode_internal_entry e.1 e.2).
Proof. intros Hn Hi. eapply node_entry; [done|]. rewrite list_lookup_fmap. by rewrite Hi. Qed.

Lemma of_nat_succ i : N.of_nat i + 1 = N.of_nat (S i).
Proof. lia. Qed.

Lemma leaf_count pg es fl nx lm : node pg (leaf_raw es) fl nx lm -> N.to_nat (slot_count pg) = length es.
Proof. intros Hn. rewrite (node_count _ _ _ _ _ Hn), len_length. apply length_map. Qed.

Lemma internal_count pg es fl nx lm : node pg (internal_raw es) fl nx lm -> N.to_nat (slot_count pg) = length es.
Proof. intros Hn. rewrite (node_count _ _ _ _ _ Hn), len_length. apply length_map. Qed.

(** Goes to the next entry of the list and reads it. *)
Ltac next_entry lem Hn Hok i e Hi He :=
  match goal with |- context [drop i ?es] =>
    destruct (lookup_lt_is_Some_2 es i) as [e Hi]; [lia|];
    destruct (lem _ _ _ _ _ _ _ Hn Hi) as [Hi1 Hi2]; rewrite Hi1, bind_ok; cbn [negb];
    rewrite Hi2; cbn [unwrap]; rewrite ?bind_ok; clear Hi1 Hi2;
    pose proof (proj1 (Forall_lookup _ _) Hok i e Hi) as He; rewrite (drop_S es e i Hi)
  end.

Lemma find_loop_spec pg es fl nx lm k n i : node pg (leaf_raw es) fl nx lm -> Forall leaf_ok es ->
  (n + i = length es)%nat -> find_loop n pg k (N.of_nat i) = Ok (bt_get bytes_lt k (drop i es)).
Proof.
  intros Hn Hok. revert i. induction n as [|n IH]; intros i Hi; cbn [find_loop].
  { rewrite drop_ge by lia. done. }
  next_entry leaf_entry Hn Hok i e Hl He. destruct e as [k' t], He as [[_ Hk] [Hp Hs]]. cbn [fst snd] in *.
  unfold encode_leaf_entry. rewrite entry_key_encode, bind_ok by done. cbn [bt_get].
  case_bool_decide as E.
  - subst k'. rewrite bytes_lt_irrefl. pose proof (slice_behind_key k (le_bytes 8 (Heap.page_id t)) (le_bytes 2 (Heap.slot_id t)) Hk) as H.
    rewrite len_le_bytes in H. change (N.of_nat 8) with 8 in H. rewrite H, bind_ok.
    rewrite slice_slot, bind_ok by (by rewrite len_le_bytes). rewrite !le_value_le_bytes_small by done. by destruct t.
  - destruct (bytes_lt k k') eqn:E1; [done|]. rewrite of_nat_succ, IH by lia.
    destruct (bytes_lt_total k k') as [?|[?|E2]]; [congruence|congruence|by rewrite E2].
Qed.

Lemma find_in_leaf_spec pg es fl nx lm k : node pg (leaf_raw es) fl nx lm -> Forall leaf_ok es ->
  find_in_leaf pg k = Ok (bt_get bytes_lt k es).
Proof.
  intros Hn Hok. unfold find_in_leaf. rewrite (leaf_count _ _ _ _ _ Hn).
  apply (find_loop_spec pg es fl nx lm k (length es) 0 Hn Hok). lia.
Qed.

(** The keys up to [k], counted from the start. *)
Abbreviation below k es := (partition_point (fun e => bytes_le (fst e) k) es).

Lemma leaf_pos_loop pg es fl nx lm k n i : node pg (leaf_raw es) fl nx lm -> Forall leaf_ok es ->
  (n + i = length es)%nat -> pos_loop n pg k (N.of_nat i) = Ok (N.of_nat (i + below k (drop i es))).
Proof.
  intros Hn Hok. revert i. induction n as [|n IH]; intros i Hi; cbn [pos_loop].
  { rewrite drop_ge by lia. pose proof (leaf_count _ _ _ _ _ Hn). cbn. f_equal. lia. }
  next_entry leaf_entry Hn Hok i e Hl He. destruct e as [k' t], He as [[_ Hk] _]. cbn [fst snd] in *.
  unfold encode_leaf_entry. rewrite entry_key_encode, bind_ok by done. cbn [partition_point fst]. unfold bytes_le at 1.
  destruct (bytes_lt k k'); cbn [negb]; [do 2 f_equal; lia|]. rewrite of_nat_succ, IH by lia. do 2 f_equal. lia.
Qed.

Lemma internal_pos_loop pg es fl nx lm k n i : node pg (internal_raw es) fl nx lm -> Forall child_ok es ->
  (n + i = length es)%nat -> pos_loop n pg k (N.of_nat i) = Ok (N.of_nat (i + below k (drop i es))).
Proof.
  intros Hn Hok. revert i. induction n as [|n IH]; intros i Hi; cbn [pos_loop].
  { rewrite drop_ge by lia. pose proof (internal_count _ _ _ _ _ Hn). cbn. f_equal. lia. }
  next_entry internal_entry Hn Hok i e Hl He. destruct e as [k' c], He as [[_ Hk] _]. cbn [fst snd] in *.
  unfold encode_internal_entry. rewrite entry_key_encode, bind_ok by done. cbn [partition_point fst]. unfold bytes_le at 1.
  destruct (bytes_lt k k'); cbn [negb]; [do 2 f_equal; lia|]. rewrite of_nat_succ, IH by lia. do 2 f_equal. lia.
Qed.

Lemma leaf_insert_pos_spec pg es fl nx lm k : node pg (leaf_raw es) fl nx lm -> Forall leaf_ok es ->
  leaf_insert_pos pg k = Ok (N.of_nat (below k es)).
Proof.
  intros Hn Hok. unfold leaf_insert_pos. rewrite (leaf_count _ _ _ _ _ Hn).
  apply (leaf_pos_loop pg es fl nx lm k (length es) 0 Hn Hok). lia.
Qed.

Lemma internal_insert_pos_spec pg es fl nx lm k : node pg (internal_raw es) fl nx lm -> Forall child_ok es ->
  internal_insert_pos pg k = Ok (N.of_nat (below k es)).
Proof.
  intros Hn Hok. unfold internal_insert_pos. rewrite (internal_count _ _ _ _ _ Hn).
  apply (internal_pos_loop pg es fl nx lm k (length es) 0 Hn Hok). lia.
Qed.

Lemma collect_leaf_loop pg es fl nx lm n i : node pg (leaf_raw es) fl nx lm -> Forall leaf_ok es ->
  (n + i = length es)%nat -> collect_loop decode_leaf_entry n pg (N.of_nat i) = Ok (drop i es).
Proof.
  intros Hn Hok. revert i. induction n as [|n IH]; intros i Hi; cbn [collect_loop].
  { by rewrite drop_ge by lia. }
  next_entry leaf_entry Hn Hok i e Hl He. destruct e as [k' t], He as [[_ Hk] Ht]. cbn [fst snd] in *.
  rewrite decode_leaf by done. cbn [unwrap]. rewrite bind_ok, of_nat_succ, IH by lia. done.
Qed.

Lemma collect_internal_loop pg es fl nx lm n i : node pg (internal_raw es) fl nx lm -> Forall child_ok es ->
  (n + i = length es)%nat -> collect_loop decode_internal_entry n pg (N.of_nat i) = Ok (drop i es).
Proof.
  intros Hn Hok. revert i. induction n as [|n IH]; intros i Hi; cbn [collect_loop].
  { by rewrite drop_ge by lia. }
  next_entry internal_entry Hn Hok i e Hl He. destruct e as [k' c], He as [[_ Hk] Hc]. cbn [fst snd] in *.
  rewrite decode_internal by done. cbn [unwrap]. rewrite bind_ok, of_nat_succ, IH by lia. done.
Qed.

Lemma collect_leaf_spec pg es fl nx lm : node pg (leaf_raw es) fl nx lm -> Forall leaf_ok es ->
  collect_leaf_entries pg = Ok es.
Proof.
  intros Hn Hok. unfold collect_leaf_entries. rewrite (leaf_count _ _ _ _ _ Hn).
  apply (collect_leaf_loop pg es fl nx lm (length es) 0 Hn Hok). lia.
Qed.

Lemma collect_internal_spec pg es fl nx lm : node pg (internal_raw es) fl nx lm -> Forall child_ok es ->
  collect_internal_entries pg = Ok es.
Proof.
  intros Hn Hok. unfold collect_internal_entries. rewrite (internal_count _ _ _ _ _ Hn).
  apply (collect_internal_loop pg es fl nx lm (length es) 0 Hn Hok). lia.
Qed.

(** ** The descent *)

Lemma below_iff {A} (es : list (key * A)) k i e : bt_sorted bytes_lt es -> es !! i = Some e ->
  bytes_le e.1 k = true <-> (i < below k es)%nat.
Proof.
  revert i. induction es as [|e' es IH]; intros i Hs Hi; [done|]. apply bt_sorted_cons in Hs as [Hs Hf].
  cbn [partition_point]. destruct i as [|i]; cbn in Hi.
  { injection Hi as ->. destruct (bytes_le e.1 k); split; (done || lia). }
  destruct (bytes_le e'.1 k) eqn:E.
  - rewrite IH by done. lia.
  - split; [|lia]. intros Hle. assert (Hlt : bytes_lt e'.1 e.1 = true).
    { apply (proj1 (Forall_lookup _ _) Hf i e Hi). }
    rewrite (bytes_le_trans e'.1 e.1 k) in E; [done|by apply bytes_lt_le|done].
Qed.

Lemma below_le {A} (es : list (key * A)) k : (below k es <= length es)%nat.
Proof. induction es as [|e es IH]; cbn; [lia|]. case_match; lia. Qed.

Lemma descend_loop_spec fuel pg es fl nx lm k lo hi : node pg (internal_raw es) fl nx lm -> Forall child_ok es ->
  bt_sorted bytes_lt es -> (lo <= below k es <= hi)%nat -> (hi <= length es)%nat -> (hi - lo <= fuel)%nat ->
  descend_loop fuel pg k (N.of_nat lo) (N.of_nat hi) = Ok (N.of_nat (below k es)).
Proof.
  intros Hn Hok Hs. revert lo hi. induction fuel as [|fuel IH]; intros lo hi Hb Hhi Hf; cbn [descend_loop].
  { do 2 f_equal. lia. }
  destruct (N.ltb_spec (N.of_nat lo) (N.of_nat hi)); [|do 2 f_equal; lia].
  set (mid := (lo + (hi - lo) / 2)%nat).
  assert (Hmid : N.of_nat lo + (N.of_nat hi - N.of_nat lo) / 2 = N.of_nat mid) by (unfold mid; by rewrite Nat2N.inj_add, Nat2N.inj_div, Nat2N.inj_sub). rewrite Hmid.
  assert (lo <= mid < hi)%nat by (pose proof (Nat.div_lt (hi - lo) 2); unfold mid; lia). clearbody mid.
  destruct (lookup_lt_is_Some_2 es mid) as [[k' c] Hi]; [lia|].
  destruct (internal_entry _ _ _ _ _ _ _ Hn Hi) as [-> ->]. rewrite !bind_ok. cbn [negb unwrap fst snd]. rewrite bind_ok.
  pose proof (proj1 (Forall_lookup _ _) Hok mid _ Hi) as [[_ Hk] _]. cbn in Hk.
  unfold encode_internal_entry. rewrite entry_key_encode, bind_ok by done.
  pose proof (below_iff es k mid _ Hs Hi) as Hiff. cbn in Hiff. destruct (bytes_le k' k).
  - rewrite of_nat_succ. apply IH; [|lia..]. split; [apply Hiff; done|lia].
  - apply IH; [|lia..]. split; [lia|]. apply Nat.le_ngt. intros Hlt. by apply Hiff in Hlt.
Qed.

(** The child a search for [k] goes to. *)
Definition pick {A} (c0 : A) (cs : list (key * A)) (k : key) : A :=
  match below k cs with
  | O => c0
  | S j => default c0 (snd <$> cs !! j)
  end.

Lemma descend_node_spec pg es fl nx lm k : node pg (internal_raw es) fl nx lm -> Forall child_ok es ->
  bt_sorted bytes_lt es -> descend pg k = Ok (pick lm es k).
Proof.
  intros Hn Hok Hs. pose proof (internal_count _ _ _ _ _ Hn) as Hc. unfold descend.
  destruct (N.eqb_spec (slot_count pg) 0) as [E|E].
  { assert (es = []) as -> by (destruct es; [done|cbn in Hc; lia]). cbn. by eapply node_read_leftmost. }
  pose proof (below_le es k) as Hle.
  assert (Hd : descend_loop (N.to_nat (slot_count pg)) pg k 0 (slot_count pg) = Ok (N.of_nat (below k es))).
  { rewrite Hc. replace (slot_count pg) with (N.of_nat (length es)) by lia.
    apply (descend_loop_spec _ pg es fl nx lm k 0 (length es) Hn Hok Hs); lia. }
  rewrite Hd, bind_ok. unfold pick. destruct (below k es) as [|j] eqn:Eb; [by eapply node_read_leftmost|].
  destruct (N.eqb_spec (N.of_nat (S j)) 0); [lia|]. replace (N.of_nat (S j) - 1) with (N.of_nat j) by lia.
  destruct (lookup_lt_is_Some_2 es j) as [[k' c] Hi]; [lia|]. rewrite Hi. cbn [fmap option_fmap option_map default snd].
  destruct (internal_entry _ _ _ _ _ _ _ Hn Hi) as [_ ->]. cbn [unwrap fst snd]. rewrite bind_ok.
  pose proof (proj1 (Forall_lookup _ _) Hok j _ Hi) as [[_ Hk] Hv]. cbn in Hk, Hv.
  pose proof (child_slice k' c Hk) as Hch. unfold encode_internal_entry in *.
  rewrite slice_key_len, bind_ok, le_value_le_bytes_small, Hch, bind_ok by done. by rewrite le_value_le_bytes_small.
Qed.

(** ** The scan of a leaf *)

Definition past (stop : option key) (k : key) : bool := match stop with Some s => bytes_le s k | None => false end.

Fixpoint scan_list (start : key) (stop : option key) (es : list (key * TupleId)) : list (key * TupleId) * bool :=
  match es with
  | [] => ([], false)
  | e :: es =>
      if bytes_lt e.1 start then scan_list start stop es
      else if past stop e.1 then ([], true)
      else (e :: (scan_list start stop es).1, (scan_list start stop es).2)
  end.

Lemma scan_leaf_loop pg es fl nx lm start stop n i : node pg (leaf_raw es) fl nx lm -> Forall leaf_ok es ->
  (n + i = length es)%nat -> scan_leaf n pg start stop (N.of_nat i) = Ok (scan_list start stop (drop i es)).
Proof.
  intros Hn Hok. revert i. induction n as [|n IH]; intros i Hi; cbn [scan_leaf].
  { by rewrite drop_ge by lia. }
  next_entry leaf_entry Hn Hok i e Hl He. destruct e as [k' t], He as [[_ Hk] Ht]. cbn [fst snd] in *.
  rewrite decode_leaf, bind_ok by done. cbn [fst scan_list]. fold (past stop k').
  destruct (bytes_lt k' start); [rewrite of_nat_succ; by apply IH; lia|].
  destruct (past stop k'); [done|]. rewrite of_nat_succ, IH by lia. done.
Qed.

Lemma scan_leaf_spec pg es fl nx lm start stop : node pg (leaf_raw es) fl nx lm -> Forall leaf_ok es ->
  scan_leaf (N.to_nat (slot_count pg)) pg start stop 0 = Ok (scan_list start stop es).
Proof.
  intros Hn Hok. rewrite (leaf_count _ _ _ _ _ Hn).
  apply (scan_leaf_loop pg es fl nx lm start stop (length es) 0 Hn Hok). lia.
Qed.

End BTreeNode.
