(* ===== verification/StorageBTreeOps.v ===== *)
(** * The B+ tree's operations on its pages

    [leaf_insert], [internal_insert] and [grow_root] of [StorageBTree.v] as changes
    of the map of pages that the buffer pool presents.  Splitting a page moves half
    of its entries by count; with keys of at most [MAX_KEY] bytes each half fits. *)

From stdpp Require Import gmap.
From S2P Require Import Prelude Bytes ByteOrder BTreeMap StorageError StoragePage StorageReplacer StorageDisk.
From S2P Require Import StorageBufferPool StoragePins StorageHeap StorageBTree StorageBTreeNode.

Module BTreeOps.
Import Page Pool Pins BTree BTreeNode.

Definition MAX_KEY : N := 200.

Definition short (k : key) : Prop := bytes_ok k /\ len k <= MAX_KEY.

(** What a page of the tree shows to a reader. *)
Inductive view : Type :=
| VLeaf (es : list (key * TupleId)) (next : N)
| VNode (leftmost : N) (cs : list (key * N)).

Inductive shows (bs : list N) : view -> Prop :=
| shows_leaf es fl nx lm : node (from_bytes bs) (leaf_raw es) fl nx lm -> N.land fl BTREE_FLAG_IS_LEAF <> 0 ->
    Forall (fun e => short e.1 /\ tid_ok e.2) es -> shows bs (VLeaf es nx)
| shows_node cs fl nx lm : node (from_bytes bs) (internal_raw cs) fl nx lm -> N.land fl BTREE_FLAG_IS_LEAF = 0 ->
    Forall (fun e => short e.1 /\ e.2 < 2 ^ 64) cs -> shows bs (VNode lm cs).

Definition shows_at (m : gmap N (list N)) (p : N) (v : view) : Prop := exists bs, m !! p = Some bs /\ shows bs v.

Lemma short_key k : short k -> key_ok k.
Proof. unfold MAX_KEY. intros [Hb Hl]. split; [done|unfold MAX_KEY in *; lia]. Qed.

Lemma leaf_entries_ok es : Forall (fun e : key * TupleId => short e.1 /\ tid_ok e.2) es -> Forall leaf_ok es.
Proof. intros H. eapply Forall_impl; [exact H|]. intros e [Hk Ht]. split; [by apply short_key|done]. Qed.

Lemma child_entries_ok cs : Forall (fun e : key * N => short e.1 /\ e.2 < 2 ^ 64) cs -> Forall child_ok cs.
Proof. intros H. eapply Forall_impl; [exact H|]. intros e [Hk Ht]. split; [by apply short_key|done]. Qed.

Lemma get_u64_bound d off : bytes_ok d -> get_u64 d off < 2 ^ 64.
Proof.
  intros Hd. unfold get_u64. pose proof (le_value_bound _ (read_at_bytes_ok d off 8 Hd)) as H.
  eapply N.lt_le_trans; [exact H|]. rewrite len_read_at. change (2 ^ 64) with (256 ^ 8). apply N.pow_le_mono_r; lia.
Qed.

Lemma node_bounds pg es fl nx lm : node pg es fl nx lm -> fl < 65536 /\ nx < 2 ^ 64 /\ lm < 2 ^ 64.
Proof.
  intros [Hw _ _ _ <- <- <-]. pose proof (wf_bytes _ Hw). split_and!; [by apply get_u16_bound|by apply get_u64_bound..].
Qed.

Lemma shows_next es nx bs : shows bs (VLeaf es nx) -> nx < 2 ^ 64.
Proof. inversion_clear 1 as [? ? ? ? Hn|]. apply (node_bounds _ _ _ _ _ Hn). Qed.

(** ** Sizes *)

Lemma leaf_size k t : len (encode_leaf_entry k t) = 12 + len k.
Proof. unfold encode_leaf_entry. autorewrite with lens. lia. Qed.

Lemma internal_size k c : len (encode_internal_entry k c) = 10 + len k.
Proof. unfold encode_internal_entry. autorewrite with lens. lia. Qed.

Lemma total_bounds raw lo hi : Forall (fun e => lo <= len e <= hi) raw ->
  (4 + lo) * len raw <= total raw <= (4 + hi) * len raw.
Proof. induction 1 as [|e raw He _ IH]; [cbn; rewrite len_nil; lia|]. cbn [total]. rewrite len_cons. lia. Qed.

(** Half of the entries of a page that overflows by one entry. *)
Lemma halves_fit raw lo : Forall (fun e => lo <= len e <= lo + MAX_KEY) raw -> 10 <= lo <= 12 ->
  8116 < total raw <= 8116 + (4 + lo + MAX_KEY) ->
  let mid := (length raw / 2)%nat in total (take mid raw) <= 8116 /\ total (drop mid raw) <= 8116.
Proof.
  intros Hf Hlo Ht. set (mid := (length raw / 2)%nat). cbv zeta. unfold MAX_KEY in *. pose proof (total_bounds raw lo (lo + 200) Hf) as Hb.
  assert (Hm : (length raw = 2 * mid \/ length raw = 2 * mid + 1)%nat).
  { pose proof (Nat.div_mod_eq (length raw) 2). pose proof (Nat.mod_upper_bound (length raw) 2). unfold mid. lia. }
  clearbody mid.
  pose proof (total_bounds (take mid raw) lo (lo + 200) (Forall_take _ _ _ Hf)) as H1.
  pose proof (total_bounds (drop mid raw) lo (lo + 200) (Forall_drop _ _ _ Hf)) as H2.
  rewrite <- (take_drop mid raw), total_app in Ht.
  unfold len in *. rewrite length_take in H1. rewrite length_drop in H2.
  assert (38 <= length raw)%nat by nia. nia.
Qed.

Lemma leaf_raw_bytes es : Forall (fun e => short e.1 /\ tid_ok e.2) es -> Forall (fun r => bytes_ok r) (leaf_raw es).
Proof.
  intros Hf. apply Forall_fmap. eapply Forall_impl; [exact Hf|]. intros e [[Hb _] _]. unfold compose.
  unfold encode_leaf_entry. rewrite !Forall_app. auto using le_bytes_ok.
Qed.

Lemma internal_raw_bytes cs : Forall (fun e => short e.1 /\ e.2 < 2 ^ 64) cs -> Forall (fun r => bytes_ok r) (internal_raw cs).
Proof.
  intros Hf. apply Forall_fmap. eapply Forall_impl; [exact Hf|]. intros e [[Hb _] _]. unfold compose.
  unfold encode_internal_entry. rewrite !Forall_app. auto using le_bytes_ok.
Qed.

Lemma leaf_raw_sizes es : Forall (fun e => short e.1 /\ tid_ok e.2) es -> Forall (fun r => 12 <= len r <= 12 + MAX_KEY) (leaf_raw es).
Proof.
  intros Hf. apply Forall_fmap. eapply Forall_impl; [exact Hf|]. intros e [[_ Hl] _]. unfold compose. rewrite leaf_size. lia.
Qed.

Lemma internal_raw_sizes cs : Forall (fun e => short e.1 /\ e.2 < 2 ^ 64) cs -> Forall (fun r => 10 <= len r <= 10 + MAX_KEY) (internal_raw cs).
Proof.
  intros Hf. apply Forall_fmap. eapply Forall_impl; [exact Hf|]. intros e [[_ Hl] _]. unfold compose. rewrite internal_size. lia.
Qed.

(** ** Pages through the pool *)

Section Ops.
Context {D : Type} `{PageStoreLaws D}.
Implicit Types b : BufferPool D.
Implicit Types m : gmap N (list N).
Implicit Types hs : list N.

Lemma bind_pool {A B} (o : pool_op (D := D) A) (k : A -> pool_op (D := D) B) b b' a :
  o b = (b', Ok a) -> (o ≫= k) b = k a b'.
Proof. intros E. unfold mbind, pool_bind. by rewrite E. Qed.

Lemma bind_lift {A B} (r : result A) (k : A -> pool_op (D := D) B) b a :
  r = Ok a -> (lift r ≫= k) b = k a b.
Proof. intros ->. done. Qed.

(** The pool can take [n] more pins, and its clock [k] more ticks. *)
Definition slack b hs (n : nat) (k : N) : Prop :=
  (length hs + n <= length (frames b))%nat /\ len hs < 2 ^ 30 /\ clock b + k < 2 ^ 64.

Lemma slack_after b b' hs n k l : slack b hs n (l + k) -> after b b' hs l -> slack b' hs n k.
Proof. intros (Hf & Hl & Hk) [Hc Hfr _ _]. split_and!; [lia|done|lia]. Qed.

Lemma slack_le b hs n k l : slack b hs n k -> l <= k -> slack b hs n l.
Proof. intros (? & ? & ?) Hl. split_and!; [done|done|lia]. Qed.

(** A page is looked at. *)
Lemma visit_held b m hs p bs n k : holding b m hs -> m !! p = Some bs -> p ∉ hs -> slack b hs (S n) (1 + k) ->
  exists b1 b2 f, fetch_page p b = (b1, Ok f) /\ page_of f b1 = (b1, Ok (from_bytes bs)) /\
    unpin_page p false b1 = (b2, Ok ()) /\ holding b2 m hs /\ after b b2 hs 1.
Proof.
  intros Hh Hm Hn (Hf & Hl & Hk). destruct (fetch_held b m hs p bs Hh Hm) as (b1 & f & He & Hh1 & Ht & Ha & Hu); [lia..|].
  destruct (Hu Hn) as (b2 & Hu2 & Hh2 & Ha2). exists b1, b2, f. split_and!; [done| |done|done|].
  - eapply held_page_of; [done|left|done|done].
  - replace 1 with (1 + 0) by lia. by eapply after_trans.
Qed.

(** A page that is held is edited into a node. *)
Lemma edit_node b m hs p f bs op es fl nx lm : holding b m hs -> p ∈ hs -> page_table b !! p = Some f -> m !! p = Some bs ->
  (exists pg, op (from_bytes bs) = Ok pg /\ node pg es fl nx lm) ->
  exists b' bs', on_page f op b = (b', Ok ()) /\ holding b' (<[p := bs']> m) hs /\ page_table b' = page_table b /\
    after b b' hs 0 /\ node (from_bytes bs') es fl nx lm.
Proof.
  intros Hh Hp Ht Hm (pg & Ho & Hn).
  destruct (on_page_held b m hs p f bs op pg Hh Hp Ht Hm Ho (node_len _ _ _ _ _ Hn)) as (b' & He & Hh' & Ht' & Ha).
  exists b', (as_bytes pg). rewrite from_as. done.
Qed.

Lemma append_all_ok raw b m hs p f bs es fl nx lm : holding b m hs -> p ∈ hs -> page_table b !! p = Some f ->
  m !! p = Some bs -> node (from_bytes bs) es fl nx lm -> total es + total raw <= 8116 -> Forall (fun r => bytes_ok r) raw ->
  exists b' bs', append_all f raw b = (b', Ok ()) /\ holding b' (<[p := bs']> m) hs /\ page_table b' = page_table b /\
    after b b' hs 0 /\ node (from_bytes bs') (es ++ raw) fl nx lm.
Proof.
  intros Hh Hp Ht Hm Hn Hfit Hok. revert b m bs es Hh Ht Hm Hn Hfit.
  induction Hok as [|r raw Hr Hok IH]; intros b m bs es Hh Ht Hm Hn Hfit; cbn [append_all].
  { exists b, bs. rewrite app_nil_r, insert_id by done. split_and!; try done. apply after_refl. }
  cbn [total] in Hfit. destruct (node_append _ _ _ _ _ r Hn) as (pg & Ha & Hn'); [lia|done|].
  edestruct (edit_node b m hs p f bs (fun pg => x ← insert_tuple_at pg (slot_count pg) r; Ok x.1)) as (b1 & bs1 & He1 & Hh1 & Ht1 & Ha1 & Hn1); [done..|eexists; split; [|exact Hn']|].
  { cbv beta. by rewrite Ha, bind_ok. }
  rewrite (bind_pool _ _ _ _ _ He1).
  destruct (IH b1 _ bs1 (es ++ [r]) Hh1) as (b2 & bs2 & He2 & Hh2 & Ht2 & Ha2 & Hn2).
  { by rewrite Ht1. }
  { apply lookup_insert_eq. }
  { done. }
  { rewrite total_app. cbn [total]. lia. }
  exists b2, bs2. rewrite insert_insert_eq in Hh2. rewrite <- app_assoc in Hn2. split_and!; try done.
  - congruence.
  - replace 0 with (0 + 0) by lia. by eapply after_trans.
Qed.

(** What is spent: [k] ticks of the clock and [n] new pages. *)
Record spent b b' hs (k n : N) : Prop := {
  sp_clock : clock b' <= clock b + k;
  sp_frames : length (frames b') = length (frames b);
  sp_room : forall j, room (disk b) (j + n) -> room (disk b') j;
  sp_stay : forall q f, q ∈ hs -> page_table b !! q = Some f -> page_table b' !! q = Some f
}.

Lemma spent_after b b' hs hs' k : after b b' hs' k -> hs ⊆ hs' -> spent b b' hs k 0.
Proof. intros [] Hs. split; [done|done|intros j; rewrite N.add_0_r; auto|auto]. Qed.

Lemma spent_trans b1 b2 b3 hs k l n j : spent b1 b2 hs k n -> spent b2 b3 hs l j -> spent b1 b3 hs (k + l) (n + j).
Proof.
  intros [] []. split; [lia|congruence| |auto]. intros x Hx. apply sp_room1, sp_room0.
  by replace (x + j + n) with (x + (n + j)) by lia.
Qed.

Lemma spent_le b b' hs k l n j : spent b b' hs k n -> k <= l -> n <= j -> spent b b' hs l j.
Proof.
  intros [] Hk Hn. split; [lia|done| |done]. intros x Hx. apply sp_room0. eapply room_le; [|exact Hx]. lia.
Qed.

Lemma slack_spent b b' hs c n k l : slack b hs c (l + k) -> spent b b' hs l n -> slack b' hs c k.
Proof. intros (Hf & Hl & Hk) [Hc Hfr _ _]. split_and!; [lia|done|lia]. Qed.

(** The first half of a split leaf: the page keeps the entries [l] and points to [next]. *)
Lemma refill_leaf b m hs p f bs es fl nx lm l next : holding b m hs -> p ∈ hs -> page_table b !! p = Some f ->
  m !! p = Some bs -> node (from_bytes bs) es fl nx lm -> N.land fl BTREE_FLAG_IS_LEAF <> 0 -> next < 2 ^ 64 ->
  Forall (fun e => short e.1 /\ tid_ok e.2) l -> total (leaf_raw l) <= 8116 ->
  exists b' bs', holding b' (<[p := bs']> m) hs /\ page_table b' = page_table b /\ after b b' hs 0 /\
    shows bs' (VLeaf l next) /\
    forall B (K : pool_op (D := D) B),
      (_ ← on_page f clear_tuples;
       _ ← on_page f (fun pg => set_btree_flags pg (clear_bit fl BTREE_FLAG_IS_RIGHTMOST));
       _ ← on_page f (fun pg => set_btree_next_page pg next);
       _ ← append_all f (leaf_raw l); K) b = K b'.
Proof.
  intros Hh Hp Ht Hm Hn Hfl Hnext Hl Hfit. destruct (node_bounds _ _ _ _ _ Hn) as (Hflb & _).
  assert (Hfl' : N.land (clear_bit fl BTREE_FLAG_IS_RIGHTMOST) BTREE_FLAG_IS_LEAF <> 0).
  { unfold clear_bit. rewrite <- N.land_assoc. exact Hfl. }
  assert (Hflb' : clear_bit fl BTREE_FLAG_IS_RIGHTMOST < 65536).
  { unfold clear_bit. eapply N.le_lt_trans; [apply N.land_le_l|done]. }
  destruct (edit_node b m hs p f bs clear_tuples [] fl nx lm Hh Hp Ht Hm (node_clear _ _ _ _ _ Hn))
    as (b1 & bs1 & He1 & Hh1 & Ht1 & Ha1 & Hn1).
  destruct (edit_node b1 _ hs p f bs1 (fun pg => set_btree_flags pg (clear_bit fl BTREE_FLAG_IS_RIGHTMOST)) [] _ nx lm Hh1 Hp ltac:(by rewrite Ht1) (lookup_insert_eq _ _ _)
    (node_set_flags _ _ _ _ _ _ Hn1 Hflb')) as (b2 & bs2 & He2 & Hh2 & Ht2 & Ha2 & Hn2).
  destruct (edit_node b2 _ hs p f bs2 (fun pg => set_btree_next_page pg next) [] _ next lm Hh2 Hp ltac:(by rewrite Ht2, Ht1) (lookup_insert_eq _ _ _)
    (node_set_next _ _ _ _ _ _ Hn2 Hnext)) as (b3 & bs3 & He3 & Hh3 & Ht3 & Ha3 & Hn3).
  destruct (append_all_ok (leaf_raw l) b3 _ hs p f bs3 [] _ next lm Hh3 Hp ltac:(by rewrite Ht3, Ht2, Ht1)
    (lookup_insert_eq _ _ _) Hn3 Hfit (leaf_raw_bytes l Hl)) as (b4 & bs4 & He4 & Hh4 & Ht4 & Ha4 & Hn4).
  rewrite !insert_insert_eq in Hh4. exists b4, bs4. split_and!; [done|congruence| | |].
  - replace 0 with (0 + (0 + (0 + 0))) by lia. eauto using after_trans.
  - by eapply shows_leaf.
  - intros B K. by rewrite (bind_pool _ _ _ _ _ He1), (bind_pool _ _ _ _ _ He2), (bind_pool _ _ _ _ _ He3), (bind_pool _ _ _ _ _ He4).
Qed.

(** The second half: a page that was just allocated. *)
Lemma fill_leaf b m hs p f bs old l next : holding b m hs -> p ∈ hs -> page_table b !! p = Some f ->
  m !! p = Some bs -> len bs = PAGE_SIZE -> bytes_ok bs -> next < 2 ^ 64 ->
  Forall (fun e => short e.1 /\ tid_ok e.2) l -> total (leaf_raw l) <= 8116 ->
  exists b' bs', holding b' (<[p := bs']> m) hs /\ page_table b' = page_table b /\ after b b' hs 0 /\
    shows bs' (VLeaf l next) /\
    forall B (K : pool_op (D := D) B),
      (_ ← on_page f (fun pg => Ok (init_btree_page pg true false));
       _ ← on_page f (fun pg => set_btree_prev_page pg old);
       _ ← on_page f (fun pg => set_btree_next_page pg next);
       _ ← append_all f (leaf_raw l); K) b = K b'.
Proof.
  intros Hh Hp Ht Hm Hsz Hb Hnext Hl Hfit.
  destruct (edit_node b m hs p f bs (fun pg => Ok (init_btree_page pg true false)) [] (init_flags true false) INVALID_PAGE_ID INVALID_PAGE_ID Hh Hp Ht Hm)
    as (b1 & bs1 & He1 & Hh1 & Ht1 & Ha1 & Hn1).
  { eexists. split; [done|]. by apply node_init. }
  destruct (edit_node b1 _ hs p f bs1 (fun pg => set_btree_prev_page pg old) [] _ _ _ Hh1 Hp ltac:(by rewrite Ht1) (lookup_insert_eq _ _ _)
    (node_set_prev _ _ _ _ _ old Hn1)) as (b2 & bs2 & He2 & Hh2 & Ht2 & Ha2 & Hn2).
  destruct (edit_node b2 _ hs p f bs2 (fun pg => set_btree_next_page pg next) [] _ next _ Hh2 Hp ltac:(by rewrite Ht2, Ht1) (lookup_insert_eq _ _ _)
    (node_set_next _ _ _ _ _ _ Hn2 Hnext)) as (b3 & bs3 & He3 & Hh3 & Ht3 & Ha3 & Hn3).
  destruct (append_all_ok (leaf_raw l) b3 _ hs p f bs3 [] _ next _ Hh3 Hp ltac:(by rewrite Ht3, Ht2, Ht1)
    (lookup_insert_eq _ _ _) Hn3 Hfit (leaf_raw_bytes l Hl)) as (b4 & bs4 & He4 & Hh4 & Ht4 & Ha4 & Hn4).
  rewrite !insert_insert_eq in Hh4. exists b4, bs4. split_and!; [done|congruence| | |].
  - replace 0 with (0 + (0 + (0 + 0))) by lia. eauto using after_trans.
  - by eapply shows_leaf.
  - intros B K. by rewrite (bind_pool _ _ _ _ _ He1), (bind_pool _ _ _ _ _ He2), (bind_pool _ _ _ _ _ He3), (bind_pool _ _ _ _ _ He4).
Qed.

(** The page behind the new leaf: there is none, or it is a leaf nobody holds. *)
Definition next_ok m hs (p nx : N) : Prop :=
  nx = INVALID_PAGE_ID \/ (nx <> p /\ (nx ∉ hs) /\ exists es nx', shows_at m nx (VLeaf es nx')).

(** [m'] shows at [q] whatever [m] shows there. *)
Definition still m m' (q : N) : Prop :=
  forall bs, m !! q = Some bs -> exists bs', m' !! q = Some bs' /\ forall v, shows bs v -> shows bs' v.

Lemma still_same m m' q : m' !! q = m !! q -> still m m' q.
Proof. intros E bs Hb. exists bs. by rewrite E. Qed.

Lemma set_prev_shows bs es nx v : shows bs (VLeaf es nx) -> exists pg, set_btree_prev_page (from_bytes bs) v = Ok pg /\
  (exists fl lm, node pg (leaf_raw es) fl nx lm) /\ forall w, shows bs w -> shows (as_bytes pg) w.
Proof.
  inversion_clear 1 as [? fl ? lm Hn Hfl He|]. destruct (node_set_prev _ _ _ _ _ v Hn) as (pg & Hs & Hn').
  exists pg. split; [done|]. split; [eauto|]. intros w Hw.
  inversion_clear Hw as [? ? ? ? Hn2 Hfl2 He2|? ? ? ? Hn2 Hfl2 He2];
    destruct (node_set_prev _ _ _ _ _ v Hn2) as (pg2 & Hs2 & Hn2'); rewrite Hs in Hs2; injection Hs2 as <-;
    rewrite <- (from_as pg) in Hn2'; econstructor; eauto.
Qed.

Lemma fix_prev b m hs p nx v : holding b m hs -> next_ok m hs p nx -> slack b hs 1 2 ->
  exists b' m', (if negb (nx =? INVALID_PAGE_ID) then
      on_fid ← fetch_page nx;
      _ ← on_page on_fid (fun pg => set_btree_prev_page pg v);
      unpin_page nx true
    else mret ()) b = (b', Ok ()) /\ holding b' m' hs /\ after b b' hs 1 /\ (forall q, q <> nx -> m' !! q = m !! q) /\ still m m' nx.
Proof.
  intros Hh Hnx (Hf & Hl & Hk). destruct (N.eqb_spec nx INVALID_PAGE_ID) as [E|E]; cbn [negb].
  { exists b, m. split_and!; try done; [by apply (after_weaken _ _ _ 0); [apply after_refl|]|by apply still_same]. }
  destruct Hnx as [?|(Hne & Hnh & es & nx' & bs & Hm & Hs)]; [done|].
  destruct (fetch_held b m hs nx bs Hh Hm) as (b1 & f & He1 & Hh1 & Ht1 & Ha1 & _); [lia..|].
  destruct (set_prev_shows bs es nx' v Hs) as (pg & Ho & (fl & lm & Hn) & Hsh).
  destruct (on_page_held b1 m (nx :: hs) nx f bs (fun pg => set_btree_prev_page pg v) pg Hh1 ltac:(left) Ht1 Hm Ho)
    as (b2 & He2 & Hh2 & Ht2 & Ha2); [by eapply node_len|].
  destruct (unpin_held b2 _ hs nx Hh2) as (b3 & He3 & Hh3 & Ha3).
  exists b3, (<[nx := as_bytes pg]> m). split_and!; [|done| | |].
  - by rewrite (bind_pool _ _ _ _ _ He1), (bind_pool _ _ _ _ _ He2).
  - destruct Ha1, Ha2, Ha3. split; [lia|congruence|auto|]. intros q g Hq Hg. apply af_stay2; [done|].
    apply af_stay1; [by right|]. auto.
  - intros q Hq. by rewrite lookup_insert_ne.
  - intros bs0 Hb0. rewrite Hm in Hb0. injection Hb0 as <-. exists (as_bytes pg). by rewrite lookup_insert_eq.
Qed.

(** An entry put into its place in a leaf. *)
Definition put {A} (k : key) (v : A) (es : list (key * A)) : list (key * A) :=
  take (below k es) es ++ (k, v) :: drop (below k es) es.

Lemma put_Forall {A} (P : key * A -> Prop) k v es : Forall P es -> P (k, v) -> Forall P (put k v es).
Proof. intros Hf Hp. unfold put. rewrite Forall_app, Forall_cons. auto using Forall_take, Forall_drop. Qed.

Lemma total_put_leaf k t es : total (leaf_raw (put k t es)) = total (leaf_raw es) + (16 + len k).
Proof.
  rewrite <- (take_drop (below k es) es) at 2. unfold put. rewrite !map_app, !total_app. cbn [map total fst snd].
  rewrite leaf_size. lia.
Qed.

Lemma length_put {A} k (v : A) es : length (put k v es) = S (length es).
Proof. rewrite <- (take_drop (below k es) es) at 2. unfold put. rewrite !length_app. cbn. lia. Qed.

(** The result of an insertion into the leaf [p]: the new entry is in the page, or
    the page keeps the first half and a new page takes the second. *)
Definition leaf_split m m' (p nx : N) (all : list (key * TupleId)) (r : option (key * N)) : Prop :=
  match r with
  | None => shows_at m' p (VLeaf all nx) /\ forall q, q <> p -> m' !! q = m !! q
  | Some (s, p2) => m !! p2 = None /\ p2 < 2 ^ 50 /\ still m m' nx /\
      (forall q, q <> p -> q <> p2 -> q <> nx -> m' !! q = m !! q) /\
      exists l e r, all = l ++ e :: r /\ s = e.1 /\ l <> [] /\ shows_at m' p (VLeaf l p2) /\ shows_at m' p2 (VLeaf (e :: r) nx)
  end.

Lemma leaf_insert_in_place b m hs p bs k tid es fl nx lm : holding b m hs -> p ∉ hs -> m !! p = Some bs ->
  node (from_bytes bs) (leaf_raw es) fl nx lm -> N.land fl BTREE_FLAG_IS_LEAF <> 0 ->
  Forall (fun e => short e.1 /\ tid_ok e.2) es -> short k -> tid_ok tid -> slack b hs 2 5 ->
  SLOT_SIZE + len (encode_leaf_entry k tid) <= free_space (from_bytes bs) ->
  exists b' m', leaf_insert p k tid b = (b', Ok None) /\ holding b' m' hs /\ spent b b' hs 1 0 /\
    leaf_split m m' p nx (put k tid es) None.
Proof.
  intros Hh Hp Hm Hn Hfl He Hk Ht (Hf & Hl & Hck) Hfit.
  destruct (fetch_held b m hs p bs Hh Hm) as (b1 & f & He1 & Hh1 & Ht1 & Ha1 & _); [lia..|].
  unfold leaf_insert. rewrite (bind_pool _ _ _ _ _ He1).
  rewrite (bind_pool _ _ _ _ _ (held_page_of b1 m (p :: hs) p f bs Hh1 ltac:(left) Ht1 Hm)).
  rewrite (bind_lift _ _ _ _ (leaf_insert_pos_spec _ es _ _ _ k Hn (leaf_entries_ok es He))).
  rewrite (proj2 (N.leb_le _ _) Hfit).
  destruct (node_insert (from_bytes bs) (leaf_raw es) fl nx lm (N.of_nat (below k es)) (encode_leaf_entry k tid) Hn)
    as (pg & Hi & Hn').
  { pose proof (below_le es k). unfold len. rewrite length_map. lia. }
  { exact Hfit. }
  { apply (proj1 (Forall_singleton (fun r => bytes_ok r) _)). apply (leaf_raw_bytes [(k, tid)]). by constructor. }
  destruct (edit_node b1 m (p :: hs) p f bs (fun pg => r ← insert_tuple_at pg (N.of_nat (below k es)) (encode_leaf_entry k tid); Ok r.1)
    (leaf_raw (put k tid es)) fl nx lm Hh1 ltac:(left) Ht1 Hm) as (b2 & bs2 & He2 & Hh2 & Ht2 & Ha2 & Hn2).
  { exists pg. rewrite Hi. split; [done|]. rewrite Nat2N.id in Hn'. unfold put. rewrite map_app. cbn [map fst snd].
    by rewrite firstn_map, skipn_map in Hn'. }
  unfold insert_at. rewrite (bind_pool _ _ _ _ _ He2). destruct (unpin_held b2 _ hs p Hh2) as (b3 & He3 & Hh3 & Ha3).
  rewrite (bind_pool _ _ _ _ _ He3). exists b3, (<[p := bs2]> m). split_and!; [done|done| |].
  - apply (spent_le _ _ _ (1 + (0 + 0)) _ (0 + (0 + 0))); [|lia..]. eapply spent_trans; [by eapply spent_after|].
    eapply spent_trans; eapply spent_after; [done|set_solver|done|set_solver].
  - split; [|intros q Hq; by rewrite lookup_insert_ne]. exists bs2. rewrite lookup_insert_eq. split; [done|].
    eapply shows_leaf; [done|done|]. by apply put_Forall.
Qed.

(** A new page is taken. *)
Lemma take_page b m hs n k : holding b m hs -> slack b hs 1 (1 + k) -> room (disk b) (n + 1) ->
  exists b' p f bs, new_page b = (b', Ok (p, f)) /\ len bs = PAGE_SIZE /\ bytes_ok bs /\ holding b' (<[p := bs]> m) (p :: hs) /\
    page_table b' !! p = Some f /\ m !! p = None /\ p < 2 ^ 50 /\ (p ∉ hs) /\ spent b b' hs 1 1.
Proof.
  intros Hh (Hf & Hl & Hk) Hroom.
  destruct (new_page_held b m hs n Hh) as (b' & p & f & He & Hh' & Ht & Hnew & Hb & Hc & Hfr & Hr & Hst); [lia|done|lia|].
  assert (Hm : m !! p = None) by (apply eq_None_not_Some; intros Hq%Hnew; lia).
  destruct (Page.new_spec p) as (Hw & _). generalize dependent (Page.new p). intros pg Hh' Hw.
  exists b', p, f, (as_bytes pg). split_and!; try done; try apply Hw.
  - intros Hin%held_pos. rewrite <- (hd_pins _ _ _ Hh) in Hin. unfold pins in Hin.
    destruct (page_table b !! p) as [g|] eqn:Hg; [|lia]. apply (wf_alloc b (hd_wf _ _ _ Hh)) in Hg.
    apply (hd_dom _ _ _ Hh) in Hg. rewrite Hm in Hg. by destruct Hg.
  - split; [done|done| |done]. intros j Hj.
    destruct (new_page_held b m hs j Hh ltac:(lia) Hj ltac:(lia)) as (b2 & p2 & f2 & He2 & _ & _ & _ & _ & _ & _ & Hr2 & _).
    congruence.
Qed.

(** The pages of a split leaf: the page is looked at and let go, a new page is
    taken, and the page is fetched again. *)
Lemma split_pages b m hs p bs n : holding b m hs -> p ∉ hs -> m !! p = Some bs -> slack b hs 2 5 -> room (disk b) (n + 1) ->
  exists b1 b2 b3 b4 f0 f p2 f2 nb, fetch_page p b = (b1, Ok f0) /\ page_of f0 b1 = (b1, Ok (from_bytes bs)) /\
    unpin_page p false b1 = (b2, Ok ()) /\ new_page b2 = (b3, Ok (p2, f2)) /\ fetch_page p b3 = (b4, Ok f) /\
    page_of f b4 = (b4, Ok (from_bytes bs)) /\
    len nb = PAGE_SIZE /\ bytes_ok nb /\ holding b4 (<[p2 := nb]> m) (p :: p2 :: hs) /\ page_table b4 !! p = Some f /\
    page_table b4 !! p2 = Some f2 /\ m !! p2 = None /\ p2 < 2 ^ 50 /\ (p2 ∉ hs) /\ spent b b4 hs 3 1.
Proof.
  intros Hh Hp Hm Hs Hroom.
  destruct (visit_held b m hs p bs 1 4 Hh Hm Hp) as (b1 & b2 & f0 & He1 & Hpg1 & Hu1 & Hh2 & Ha2); [by destruct Hs|].
  pose proof (slack_after b b2 hs 2 4 1 Hs Ha2) as (Hf2 & Hl2 & Hk2).
  destruct (take_page b2 m hs n 3 Hh2) as (b3 & p2 & f2 & nb & He3 & Hnb & Hnbb & Hh3 & Ht3 & Hm2 & Hb2 & Hnh & Hsp3);
    [split_and!; [lia|done|lia]|by apply (af_room _ _ _ _ Ha2)|].
  assert (Hne : p2 <> p) by congruence. pose proof (sp_clock _ _ _ _ _ Hsp3). pose proof (sp_frames _ _ _ _ _ Hsp3).
  destruct (fetch_held b3 (<[p2 := nb]> m) (p2 :: hs) p bs Hh3) as (b4 & f & He4 & Hh4 & Ht4 & Ha4 & _).
  { by rewrite lookup_insert_ne. }
  { cbn [length]. lia. }
  { rewrite len_cons. lia. }
  { lia. }
  exists b1, b2, b3, b4, f0, f, p2, f2, nb. split_and!; try done.
  - eapply held_page_of; [done|left|done|]. by rewrite lookup_insert_ne.
  - apply (af_stay _ _ _ _ Ha4); [left|done].
  - apply (spent_le _ _ _ (1 + (1 + 1)) _ (0 + (1 + 0))); [|lia..]. eapply spent_trans; [by eapply spent_after|].
    eapply spent_trans; [exact Hsp3|]. eapply spent_after; [exact Ha4|set_solver].
Qed.

(** The next leaf is another page than the two of the split. *)
Lemma next_apart b m hs p nx p2 bs : holding b m hs -> m !! p = Some bs -> next_ok m hs p nx -> m !! p2 = None -> p2 < 2 ^ 50 ->
  p <> nx /\ p2 <> nx.
Proof.
  intros Hh Hm Hnx Hm2 Hb2. destruct Hnx as [->|(H1 & H2 & es & nx' & bs' & Hb' & _)]; [|split; congruence].
  assert (Ha : allocated (disk b) p) by (apply (hd_dom _ _ _ Hh); by eexists).
  apply (allocated_bound (disk b)) in Ha; [|apply Hh]. unfold INVALID_PAGE_ID, u64_max. lia.
Qed.

Lemma leaf_insert_split b m hs p bs k tid es fl nx lm n : holding b m hs -> p ∉ hs -> m !! p = Some bs ->
  node (from_bytes bs) (leaf_raw es) fl nx lm -> N.land fl BTREE_FLAG_IS_LEAF <> 0 ->
  Forall (fun e => short e.1 /\ tid_ok e.2) es -> short k -> tid_ok tid -> slack b hs 2 5 ->
  free_space (from_bytes bs) < SLOT_SIZE + len (encode_leaf_entry k tid) -> room (disk b) (n + 1) -> next_ok m hs p nx ->
  exists b' m' r, leaf_insert p k tid b = (b', Ok (Some r)) /\ holding b' m' hs /\ spent b b' hs 4 1 /\
    leaf_split m m' p nx (put k tid es) (Some r).
Proof.
  intros Hh Hp Hm Hn Hfl He Hk Ht Hs Hfull Hroom Hnx.
  destruct (split_pages b m hs p bs n Hh Hp Hm Hs Hroom) as (b1 & b2 & b3 & b4 & f0 & f & p2 & f2 & nb & He1 & Hpg1 & Hu1 & He3 & He4 & Hpg4 & Hnb & Hnbb & Hh4 & Ht4 & Ht42 & Hm2 & Hb2 & Hnh & Hsp).
  pose proof (nd_space _ _ _ _ _ Hn) as Hspace. rewrite leaf_size in Hfull. change SLOT_SIZE with 4 in Hfull.
  set (all := put k tid es). assert (Hall : Forall (fun e => short e.1 /\ tid_ok e.2) all) by (by apply put_Forall).
  assert (Htot : total (leaf_raw all) = total (leaf_raw es) + (16 + len k)) by apply total_put_leaf.
  destruct (halves_fit (leaf_raw all) 12) as [Hfit1 Hfit2]; [by apply leaf_raw_sizes|done| |].
  { destruct Hk as [_ Hk]. unfold MAX_KEY in *. lia. }
  rewrite length_map in Hfit1, Hfit2. set (mid := (length all / 2)%nat) in *.
  assert (Hmid : (0 < mid < length all)%nat).
  { assert (37 <= length all)%nat.
    { pose proof (total_bounds (leaf_raw all) 12 (12 + MAX_KEY) (leaf_raw_sizes all Hall)) as Hb. unfold MAX_KEY, len in Hb.
      rewrite length_map in Hb. lia. }
    pose proof (Nat.div_lt (length all) 2). pose proof (Nat.div_str_pos (length all) 2). unfold mid. lia. }
  destruct (lookup_lt_is_Some_2 all mid) as [e Hmide]; [lia|].
  rewrite firstn_map in Hfit1. rewrite skipn_map in Hfit2.
  set (m1 := <[p2 := nb]> m) in *. assert (Hne : p2 <> p) by congruence.
  destruct (next_apart b m hs p nx p2 bs Hh Hm Hnx Hm2 Hb2) as [Hpnx Hp2nx].
  assert (Hm1 : m1 !! p = Some bs) by (unfold m1; by rewrite lookup_insert_ne).
  destruct (refill_leaf b4 m1 (p :: p2 :: hs) p f bs (leaf_raw es) fl nx lm (take mid all) p2 Hh4 ltac:(left) Ht4 Hm1 Hn Hfl)
    as (b5 & bs5 & Hh5 & Ht5 & Ha5 & Hs5 & Hrun5); [lia|by apply Forall_take|done|].
  destruct (unpin_held b5 _ (p2 :: hs) p Hh5) as (b6 & He6 & Hh6 & Ha6).
  assert (Ht6 : page_table b6 !! p2 = Some f2) by (apply (af_stay _ _ _ _ Ha6); [left|by rewrite Ht5]).
  destruct (fill_leaf b6 _ (p2 :: hs) p2 f2 nb p (drop mid all) nx Hh6 ltac:(left) Ht6) as (b7 & bs7 & Hh7 & Ht7 & Ha7 & Hs7 & Hrun7).
  { rewrite lookup_insert_ne by done. apply lookup_insert_eq. }
  { done. }
  { done. }
  { apply (node_bounds _ _ _ _ _ Hn). }
  { by apply Forall_drop. }
  { done. }
  destruct (unpin_held b7 _ hs p2 Hh7) as (b8 & He8 & Hh8 & Ha8).
  unfold m1 in *. set (m3 := <[p2 := bs7]> (<[p := bs5]> (<[p2 := nb]> m))) in *.
  assert (Hm3 : forall q, q <> p -> q <> p2 -> m3 !! q = m !! q) by (intros q H1 H2; unfold m3; by rewrite !lookup_insert_ne).
  assert (Hsp8 : spent b b8 hs 3 1).
  { apply (spent_le _ _ _ (3 + (0 + (0 + (0 + 0)))) _ (1 + (0 + (0 + (0 + 0))))); [|lia..]. eapply spent_trans; [exact Hsp|].
    eapply spent_trans; [eapply spent_after; [exact Ha5|set_solver]|].
    eapply spent_trans; [eapply spent_after; [exact Ha6|set_solver]|].
    eapply spent_trans; eapply spent_after; [exact Ha7|set_solver|exact Ha8|set_solver]. }
  assert (Hnx3 : next_ok m3 hs p nx).
  { destruct Hnx as [?|(H1 & H2 & es' & nx' & bs' & Hb' & Hs')]; [by left|right]. split_and!; [done|done|].
    exists es', nx', bs'. rewrite Hm3; [done|done|congruence]. }
  destruct (fix_prev b8 m3 hs p nx p2 Hh8 Hnx3) as (b9 & m9 & He9 & Hh9 & Ha9 & Hm9 & Hst9).
  { destruct (slack_spent b b8 hs 2 1 2 3 Hs Hsp8) as (? & ? & ?). split_and!; [lia|done|done]. }
  exists b9, m9, (e.1, p2). split_and!; [|done| |].
  - unfold leaf_insert. rewrite (bind_pool _ _ _ _ _ He1), (bind_pool _ _ _ _ _ Hpg1).
    rewrite (bind_lift _ _ _ _ (leaf_insert_pos_spec _ es _ _ _ k Hn (leaf_entries_ok es He))).
    rewrite leaf_size. change SLOT_SIZE with 4. rewrite (proj2 (N.leb_gt _ _) Hfull).
    rewrite (bind_lift _ _ _ _ (collect_leaf_spec _ es _ _ _ Hn (leaf_entries_ok es He))).
    rewrite (bind_pool _ _ _ _ _ Hu1). cbv zeta. fold (put k tid es). fold all. fold mid. rewrite Hmide.
    rewrite (bind_lift (or_panic (Some e)) _ _ e eq_refl).
    rewrite (bind_pool _ _ _ _ _ He3), (bind_pool _ _ _ _ _ He4), (bind_pool _ _ _ _ _ Hpg4).
    rewrite (bind_lift _ _ _ _ (node_read_next _ _ _ _ _ Hn)), (bind_lift _ _ _ _ (node_read_flags _ _ _ _ _ Hn)).
    rewrite Hrun5, (bind_pool _ _ _ _ _ He6), Hrun7, (bind_pool _ _ _ _ _ He8), (bind_pool _ _ _ _ _ He9). done.
  - eapply spent_le; [eapply spent_trans; [exact Hsp8|by eapply spent_after]|lia..].
  - split_and!; [done|done| | |].
    + intros bs0 Hb0. apply Hst9. by rewrite Hm3.
    + intros q H1 H2 H3. rewrite Hm9 by done. by apply Hm3.
    + exists (take mid all), e, (drop (S mid) all). rewrite <- (drop_S all e mid Hmide), take_drop. split_and!; [done|done| | |].
      * intros E. apply (f_equal length) in E. rewrite length_take in E. change (@length (key * TupleId) []) with 0%nat in E. lia.
      * exists bs5. rewrite Hm9 by done. unfold m3. by rewrite lookup_insert_ne, lookup_insert_eq.
      * exists bs7. rewrite Hm9 by done. unfold m3. by rewrite lookup_insert_eq.
Qed.

(** ** Inner pages *)

Lemma total_put_internal k (c : N) es : total (internal_raw (put k c es)) = total (internal_raw es) + (14 + len k).
Proof.
  rewrite <- (take_drop (below k es) es) at 2. unfold put. rewrite !map_app, !total_app. cbn [map total fst snd].
  rewrite internal_size. lia.
Qed.

(** The first half of a split inner page. *)
Lemma refill_node b m hs p f bs es fl nx lm l : holding b m hs -> p ∈ hs -> page_table b !! p = Some f ->
  m !! p = Some bs -> node (from_bytes bs) es fl nx lm -> N.land fl BTREE_FLAG_IS_LEAF = 0 ->
  Forall (fun e => short e.1 /\ e.2 < 2 ^ 64) l -> total (internal_raw l) <= 8116 ->
  exists b' bs', holding b' (<[p := bs']> m) hs /\ after b b' hs 0 /\ shows bs' (VNode lm l) /\
    forall B (K : pool_op (D := D) B),
      (_ ← on_page f clear_tuples;
       _ ← on_page f (fun pg => set_btree_leftmost_child pg lm);
       _ ← append_all f (internal_raw l); K) b = K b'.
Proof.
  intros Hh Hp Ht Hm Hn Hfl Hl Hfit. destruct (node_bounds _ _ _ _ _ Hn) as (_ & _ & Hlm).
  destruct (edit_node b m hs p f bs clear_tuples [] fl nx lm Hh Hp Ht Hm (node_clear _ _ _ _ _ Hn))
    as (b1 & bs1 & He1 & Hh1 & Ht1 & Ha1 & Hn1).
  destruct (edit_node b1 _ hs p f bs1 (fun pg => set_btree_leftmost_child pg lm) [] _ nx lm Hh1 Hp ltac:(by rewrite Ht1)
    (lookup_insert_eq _ _ _) (node_set_leftmost _ _ _ _ _ _ Hn1 Hlm)) as (b2 & bs2 & He2 & Hh2 & Ht2 & Ha2 & Hn2).
  destruct (append_all_ok (internal_raw l) b2 _ hs p f bs2 [] _ nx lm Hh2 Hp ltac:(by rewrite Ht2, Ht1)
    (lookup_insert_eq _ _ _) Hn2 Hfit (internal_raw_bytes l Hl)) as (b4 & bs4 & He4 & Hh4 & Ht4 & Ha4 & Hn4).
  rewrite !insert_insert_eq in Hh4. exists b4, bs4. split_and!; [done| | |].
  - replace 0 with (0 + (0 + 0)) by lia. eauto using after_trans.
  - by eapply shows_node.
  - intros B K. by rewrite (bind_pool _ _ _ _ _ He1), (bind_pool _ _ _ _ _ He2), (bind_pool _ _ _ _ _ He4).
Qed.

(** A page that was just allocated becomes an inner page. *)
Lemma fill_node b m hs p f bs root level lm l : holding b m hs -> p ∈ hs -> page_table b !! p = Some f ->
  m !! p = Some bs -> len bs = PAGE_SIZE -> bytes_ok bs -> lm < 2 ^ 64 ->
  Forall (fun e => short e.1 /\ e.2 < 2 ^ 64) l -> total (internal_raw l) <= 8116 ->
  exists b' bs', holding b' (<[p := bs']> m) hs /\ page_table b' = page_table b /\ after b b' hs 0 /\ shows bs' (VNode lm l) /\
    forall B (K : pool_op (D := D) B),
      (_ ← on_page f (fun pg => Ok (init_btree_page pg false root));
       _ ← on_page f (fun pg => set_btree_level pg level);
       _ ← on_page f (fun pg => set_btree_leftmost_child pg lm);
       _ ← append_all f (internal_raw l); K) b = K b'.
Proof.
  intros Hh Hp Ht Hm Hsz Hb Hlm Hl Hfit.
  destruct (edit_node b m hs p f bs (fun pg => Ok (init_btree_page pg false root)) [] (init_flags false root) INVALID_PAGE_ID
    INVALID_PAGE_ID Hh Hp Ht Hm) as (b1 & bs1 & He1 & Hh1 & Ht1 & Ha1 & Hn1).
  { eexists. split; [done|]. by apply node_init. }
  destruct (edit_node b1 _ hs p f bs1 (fun pg => set_btree_level pg level) [] _ _ _ Hh1 Hp ltac:(by rewrite Ht1) (lookup_insert_eq _ _ _)
    (node_set_level _ _ _ _ _ level Hn1)) as (b2 & bs2 & He2 & Hh2 & Ht2 & Ha2 & Hn2).
  destruct (edit_node b2 _ hs p f bs2 (fun pg => set_btree_leftmost_child pg lm) [] _ _ lm Hh2 Hp ltac:(by rewrite Ht2, Ht1)
    (lookup_insert_eq _ _ _) (node_set_leftmost _ _ _ _ _ _ Hn2 Hlm)) as (b3 & bs3 & He3 & Hh3 & Ht3 & Ha3 & Hn3).
  destruct (append_all_ok (internal_raw l) b3 _ hs p f bs3 [] _ _ lm Hh3 Hp ltac:(by rewrite Ht3, Ht2, Ht1)
    (lookup_insert_eq _ _ _) Hn3 Hfit (internal_raw_bytes l Hl)) as (b4 & bs4 & He4 & Hh4 & Ht4 & Ha4 & Hn4).
  rewrite !insert_insert_eq in Hh4. exists b4, bs4. split_and!; [done|congruence| | |].
  - replace 0 with (0 + (0 + (0 + 0))) by lia. eauto using after_trans.
  - eapply shows_node; [exact Hn4| |done]. by destruct root.
  - intros B K. by rewrite (bind_pool _ _ _ _ _ He1), (bind_pool _ _ _ _ _ He2), (bind_pool _ _ _ _ _ He3), (bind_pool _ _ _ _ _ He4).
Qed.

Definition node_split m m' (p lm : N) (all : list (key * N)) (r : option (key * N)) : Prop :=
  match r with
  | None => shows_at m' p (VNode lm all) /\ forall q, q <> p -> m' !! q = m !! q
  | Some (s, p2) => m !! p2 = None /\ p2 < 2 ^ 50 /\ (forall q, q <> p -> q <> p2 -> m' !! q = m !! q) /\
      exists l c r, all = l ++ (s, c) :: r /\ shows_at m' p (VNode lm l) /\ shows_at m' p2 (VNode c r)
  end.

Lemma internal_insert_in_place b m hs p bs k c es fl nx lm : holding b m hs -> p ∉ hs -> m !! p = Some bs ->
  node (from_bytes bs) (internal_raw es) fl nx lm -> N.land fl BTREE_FLAG_IS_LEAF = 0 ->
  Forall (fun e => short e.1 /\ e.2 < 2 ^ 64) es -> short k -> c < 2 ^ 64 -> slack b hs 2 4 ->
  SLOT_SIZE + len (encode_internal_entry k c) <= free_space (from_bytes bs) ->
  exists b' m', internal_insert p k c b = (b', Ok None) /\ holding b' m' hs /\ spent b b' hs 1 0 /\
    node_split m m' p lm (put k c es) None.
Proof.
  intros Hh Hp Hm Hn Hfl He Hk Ht (Hf & Hl & Hck) Hfit.
  destruct (fetch_held b m hs p bs Hh Hm) as (b1 & f & He1 & Hh1 & Ht1 & Ha1 & _); [lia..|].
  unfold internal_insert. rewrite (bind_pool _ _ _ _ _ He1).
  rewrite (bind_pool _ _ _ _ _ (held_page_of b1 m (p :: hs) p f bs Hh1 ltac:(left) Ht1 Hm)).
  rewrite (bind_lift _ _ _ _ (internal_insert_pos_spec _ es _ _ _ k Hn (child_entries_ok es He))).
  rewrite (proj2 (N.leb_le _ _) Hfit).
  destruct (node_insert (from_bytes bs) (internal_raw es) fl nx lm (N.of_nat (below k es)) (encode_internal_entry k c) Hn)
    as (pg & Hi & Hn').
  { pose proof (below_le es k). unfold len. rewrite length_map. lia. }
  { exact Hfit. }
  { apply (proj1 (Forall_singleton (fun r => bytes_ok r) _)). apply (internal_raw_bytes [(k, c)]). by constructor. }
  destruct (edit_node b1 m (p :: hs) p f bs (fun pg => r ← insert_tuple_at pg (N.of_nat (below k es)) (encode_internal_entry k c); Ok r.1)
    (internal_raw (put k c es)) fl nx lm Hh1 ltac:(left) Ht1 Hm) as (b2 & bs2 & He2 & Hh2 & Ht2 & Ha2 & Hn2).
  { exists pg. rewrite Hi. split; [done|]. rewrite Nat2N.id in Hn'. unfold put. rewrite map_app. cbn [map fst snd].
    by rewrite firstn_map, skipn_map in Hn'. }
  unfold insert_at. rewrite (bind_pool _ _ _ _ _ He2). destruct (unpin_held b2 _ hs p Hh2) as (b3 & He3 & Hh3 & Ha3).
  rewrite (bind_pool _ _ _ _ _ He3). exists b3, (<[p := bs2]> m). split_and!; [done|done| |].
  - apply (spent_le _ _ _ (1 + (0 + 0)) _ (0 + (0 + 0))); [|lia..]. eapply spent_trans; [by eapply spent_after|].
    eapply spent_trans; eapply spent_after; [done|set_solver|done|set_solver].
  - split; [|intros q Hq; by rewrite lookup_insert_ne]. exists bs2. rewrite lookup_insert_eq. split; [done|].
    eapply shows_node; [done|done|]. by apply put_Forall.
Qed.

Lemma internal_insert_split b m hs p bs k c es fl nx lm n : holding b m hs -> p ∉ hs -> m !! p = Some bs ->
  node (from_bytes bs) (internal_raw es) fl nx lm -> N.land fl BTREE_FLAG_IS_LEAF = 0 ->
  Forall (fun e => short e.1 /\ e.2 < 2 ^ 64) es -> short k -> c < 2 ^ 64 -> slack b hs 2 4 ->
  free_space (from_bytes bs) < SLOT_SIZE + len (encode_internal_entry k c) -> room (disk b) (n + 1) ->
  exists b' m' r, internal_insert p k c b = (b', Ok (Some r)) /\ holding b' m' hs /\ spent b b' hs 3 1 /\
    node_split m m' p lm (put k c es) (Some r).
Proof.
  intros Hh Hp Hm Hn Hfl He Hk Hc Hs Hfull Hroom.
  pose proof (nd_space _ _ _ _ _ Hn) as Hspace. rewrite internal_size in Hfull. change SLOT_SIZE with 4 in Hfull.
  set (all := put k c es). assert (Hall : Forall (fun e => short e.1 /\ e.2 < 2 ^ 64) all) by (by apply put_Forall).
  assert (Htot : total (internal_raw all) = total (internal_raw es) + (14 + len k)) by apply total_put_internal.
  destruct (halves_fit (internal_raw all) 10) as [Hfit1 Hfit2]; [by apply internal_raw_sizes|done| |].
  { destruct Hk as [_ Hk]. unfold MAX_KEY in *. lia. }
  rewrite length_map in Hfit1, Hfit2. set (mid := (length all / 2)%nat) in *.
  assert (Hmid : (mid < length all)%nat).
  { apply Nat.div_lt; [|lia]. unfold all. rewrite length_put. lia. }
  destruct (lookup_lt_is_Some_2 all mid) as [[s c'] Hmide]; [lia|].
  rewrite firstn_map in Hfit1. rewrite skipn_map, (drop_S all _ mid Hmide) in Hfit2. cbn [map total] in Hfit2.
  pose proof (proj1 (Forall_lookup _ _) Hall mid _ Hmide) as [_ Hc']. cbn in Hc'.
  destruct (node_read_level _ _ _ _ _ Hn) as [level Hlev].
  destruct (visit_held b m hs p bs 1 3 Hh Hm Hp) as (b1 & b2 & f0 & He1 & Hpg1 & Hu1 & Hh2 & Ha2); [by destruct Hs|].
  pose proof (slack_after b b2 hs 2 3 1 Hs Ha2) as (Hf2 & Hl2 & Hk2).
  destruct (fetch_held b2 m hs p bs Hh2 Hm) as (b3 & f & He3 & Hh3 & Ht3 & Ha3 & _); [lia..|].
  destruct (refill_node b3 m (p :: hs) p f bs _ fl nx lm (take mid all) Hh3 ltac:(left) Ht3 Hm Hn Hfl)
    as (b4 & bs4 & Hh4 & Ha4 & Hs4 & Hrun4); [by apply Forall_take|done|].
  destruct (unpin_held b4 _ hs p Hh4) as (b5 & He5 & Hh5 & Ha5).
  assert (Hsp5 : spent b b5 hs (1 + (1 + (0 + 0))) (0 + (0 + (0 + 0)))).
  { eapply spent_trans; [by eapply spent_after|]. eapply spent_trans; [by eapply spent_after|].
    eapply spent_trans; eapply spent_after; [exact Ha4|set_solver|exact Ha5|set_solver]. }
  destruct (take_page b5 _ hs n 1 Hh5) as (b6 & p2 & f2 & nb & He6 & Hnb & Hnbb & Hh6 & Ht6 & Hm6 & Hb2 & Hnh & Hsp6).
  { destruct (slack_spent b b5 hs 2 _ 2 2 Hs Hsp5) as (? & ? & ?). split_and!; [lia|done|done]. }
  { apply (sp_room _ _ _ _ _ Hsp5). eapply room_le; [|exact Hroom]. lia. }
  assert (Hne : p2 <> p) by (intros ->; by rewrite lookup_insert_eq in Hm6). rewrite lookup_insert_ne in Hm6 by done.
  destruct (fill_node b6 _ (p2 :: hs) p2 f2 nb false level c' (drop (S mid) all) Hh6 ltac:(left) Ht6 (lookup_insert_eq _ _ _) Hnb Hnbb Hc')
    as (b7 & bs7 & Hh7 & _ & Ha7 & Hs7 & Hrun7); [by apply Forall_drop|lia|].
  destruct (unpin_held b7 _ hs p2 Hh7) as (b8 & He8 & Hh8 & Ha8). rewrite insert_insert_eq in Hh8.
  exists b8, (<[p2 := bs7]> (<[p := bs4]> m)), (s, p2). split_and!; [|done| |].
  - unfold internal_insert. rewrite (bind_pool _ _ _ _ _ He1), (bind_pool _ _ _ _ _ Hpg1).
    rewrite (bind_lift _ _ _ _ (internal_insert_pos_spec _ es _ _ _ k Hn (child_entries_ok es He))).
    rewrite internal_size. change SLOT_SIZE with 4. rewrite (proj2 (N.leb_gt _ _) Hfull).
    rewrite (bind_lift _ _ _ _ (node_read_leftmost _ _ _ _ _ Hn)), (bind_lift _ _ _ _ Hlev).
    rewrite (bind_lift _ _ _ _ (collect_internal_spec _ es _ _ _ Hn (child_entries_ok es He))).
    rewrite (bind_pool _ _ _ _ _ Hu1). cbv zeta. fold (put k c es). fold all. fold mid. rewrite Hmide.
    rewrite (bind_lift (or_panic (Some (s, c'))) _ _ (s, c') eq_refl). cbn [fst snd].
    rewrite (bind_pool _ _ _ _ _ He3), Hrun4, (bind_pool _ _ _ _ _ He5), (bind_pool _ _ _ _ _ He6).
    rewrite Hrun7, (bind_pool _ _ _ _ _ He8). done.
  - apply (spent_le _ _ _ (1 + (1 + (0 + 0)) + (1 + (0 + 0))) _ (0 + (0 + (0 + 0)) + (1 + (0 + 0)))); [|lia..].
    eapply spent_trans; [exact Hsp5|]. eapply spent_trans; [exact Hsp6|].
    eapply spent_trans; eapply spent_after; [exact Ha7|set_solver|exact Ha8|set_solver].
  - split_and!; [done|done|intros q H1 H2; by rewrite !lookup_insert_ne|].
    exists (take mid all), c', (drop (S mid) all). rewrite <- (drop_S all _ mid Hmide), take_drop. split_and!; [done| |].
    + exists bs4. by rewrite lookup_insert_ne, lookup_insert_eq.
    + exists bs7. by rewrite lookup_insert_eq.
Qed.

(** ** The operations in one statement each *)

Lemma leaf_insert_ok b m hs p k tid es nx n : holding b m hs -> p ∉ hs -> shows_at m p (VLeaf es nx) ->
  short k -> tid_ok tid -> slack b hs 2 5 -> room (disk b) (n + 1) -> next_ok m hs p nx ->
  exists b' m' r, leaf_insert p k tid b = (b', Ok r) /\ holding b' m' hs /\ spent b b' hs 4 1 /\
    leaf_split m m' p nx (put k tid es) r.
Proof.
  intros Hh Hp (bs & Hm & Hsh) Hk Ht Hs Hroom Hnx. inversion_clear Hsh as [? fl ? lm Hn Hfl He|].
  destruct (N.le_gt_cases (SLOT_SIZE + len (encode_leaf_entry k tid)) (free_space (from_bytes bs))) as [Hfit|Hfull].
  - destruct (leaf_insert_in_place b m hs p bs k tid es fl nx lm) as (b' & m' & Hr & Hh' & Hsp & Hl); try done.
    exists b', m', None. split_and!; try done. by apply (spent_le _ _ _ 1 _ 0).
  - destruct (leaf_insert_split b m hs p bs k tid es fl nx lm n) as (b' & m' & r & Hr & Hh' & Hsp & Hl); try done.
    by exists b', m', (Some r).
Qed.

Lemma internal_insert_ok b m hs p k c es lm n : holding b m hs -> p ∉ hs -> shows_at m p (VNode lm es) ->
  short k -> c < 2 ^ 64 -> slack b hs 2 4 -> room (disk b) (n + 1) ->
  exists b' m' r, internal_insert p k c b = (b', Ok r) /\ holding b' m' hs /\ spent b b' hs 3 1 /\
    node_split m m' p lm (put k c es) r.
Proof.
  intros Hh Hp (bs & Hm & Hsh) Hk Ht Hs Hroom. inversion_clear Hsh as [|? fl nx ? Hn Hfl He].
  destruct (N.le_gt_cases (SLOT_SIZE + len (encode_internal_entry k c)) (free_space (from_bytes bs))) as [Hfit|Hfull].
  - destruct (internal_insert_in_place b m hs p bs k c es fl nx lm) as (b' & m' & Hr & Hh' & Hsp & Hl); try done.
    exists b', m', None. split_and!; try done. by apply (spent_le _ _ _ 1 _ 0).
  - destruct (internal_insert_split b m hs p bs k c es fl nx lm n) as (b' & m' & r & Hr & Hh' & Hsp & Hl); try done.
    by exists b', m', (Some r).
Qed.

(** Clearing the root flag changes nothing a reader sees. *)
Lemma clear_root_shows bs v : shows bs v -> exists es fl nx lm, node (from_bytes bs) es fl nx lm /\
  exists pg, set_btree_flags (from_bytes bs) (clear_bit fl BTREE_FLAG_IS_ROOT) = Ok pg /\
    node pg es (clear_bit fl BTREE_FLAG_IS_ROOT) nx lm /\ shows (as_bytes pg) v.
Proof.
  assert (Hb : forall fl, fl < 65536 -> clear_bit fl BTREE_FLAG_IS_ROOT < 65536).
  { intros fl Hfl. unfold clear_bit. eapply N.le_lt_trans; [apply N.land_le_l|done]. }
  assert (Hl : forall fl, N.land (clear_bit fl BTREE_FLAG_IS_ROOT) BTREE_FLAG_IS_LEAF = N.land fl BTREE_FLAG_IS_LEAF).
  { intros fl. unfold clear_bit. by rewrite <- N.land_assoc. }
  intros Hs. inversion_clear Hs as [es fl nx lm Hn Hfl He|es fl nx lm Hn Hfl He];
    (destruct (node_set_flags _ _ _ _ _ _ Hn (Hb fl (proj1 (node_bounds _ _ _ _ _ Hn)))) as (pg & Hset & Hn');
     do 4 eexists; split; [exact Hn|]; exists pg; split_and!; [done|done|]; econstructor; [by rewrite from_as|by rewrite Hl|done]).
Qed.

Lemma grow_root_ok b m hs root v s c n : holding b m hs -> root ∉ hs -> shows_at m root v -> short s -> c < 2 ^ 64 ->
  root < 2 ^ 64 -> slack b hs 2 4 -> room (disk b) (n + 1) ->
  exists b' m' p, grow_root root s c b = (b', Ok p) /\ holding b' m' hs /\ spent b b' hs 3 1 /\ m !! p = None /\ p < 2 ^ 50 /\
    shows_at m' p (VNode root [(s, c)]) /\ still m m' root /\ forall q, q <> root -> q <> p -> m' !! q = m !! q.
Proof.
  intros Hh Hr (bs & Hm & Hsh) Hk Hc Hrb Hs Hroom.
  destruct (clear_root_shows bs v Hsh) as (es & fl & nx & lm & Hn & pg & Hset & Hn' & _).
  destruct (visit_held b m hs root bs 1 3 Hh Hm Hr) as (b1 & b2 & f0 & He1 & Hpg1 & Hu1 & Hh2 & Ha2); [by destruct Hs|].
  pose proof (slack_after b b2 hs 2 3 1 Hs Ha2) as (Hf2 & Hl2 & Hk2). destruct (node_read_level _ _ _ _ _ Hn) as [level Hlev].
  destruct (fetch_held b2 m hs root bs Hh2 Hm) as (b3 & f & He3 & Hh3 & Ht3 & Ha3 & _); [lia..|].
  pose proof (held_page_of b3 m (root :: hs) root f bs Hh3 ltac:(left) Ht3 Hm) as Hpg3.
  destruct (on_page_held b3 m (root :: hs) root f bs (fun pg => set_btree_flags pg (clear_bit fl BTREE_FLAG_IS_ROOT)) pg Hh3
    ltac:(left) Ht3 Hm Hset (node_len _ _ _ _ _ Hn')) as (b4 & He4 & Hh4 & Ht4 & Ha4).
  destruct (unpin_held b4 _ hs root Hh4) as (b5 & He5 & Hh5 & Ha5).
  assert (Hsp5 : spent b b5 hs (1 + (1 + (0 + 0))) (0 + (0 + (0 + 0)))).
  { eapply spent_trans; [by eapply spent_after|]. eapply spent_trans; [by eapply spent_after|].
    eapply spent_trans; eapply spent_after; [exact Ha4|set_solver|exact Ha5|set_solver]. }
  destruct (take_page b5 _ hs n 1 Hh5) as (b6 & p & f2 & nb & He6 & Hnb & Hnbb & Hh6 & Ht6 & Hm6 & Hb2 & Hnh & Hsp6).
  { destruct (slack_spent b b5 hs 2 _ 2 2 Hs Hsp5) as (? & ? & ?). split_and!; [lia|done|done]. }
  { apply (sp_room _ _ _ _ _ Hsp5). eapply room_le; [|exact Hroom]. lia. }
  assert (Hne : p <> root) by (intros ->; by rewrite lookup_insert_eq in Hm6). rewrite lookup_insert_ne in Hm6 by done.
  destruct (fill_node b6 _ (p :: hs) p f2 nb true (wadd 16 level 1) root [] Hh6 ltac:(left) Ht6 (lookup_insert_eq _ _ _) Hnb Hnbb Hrb)
    as (b7 & bs7 & Hh7 & Ht7 & Ha7 & Hs7 & Hrun7); [done|done|].
  inversion Hs7 as [|? fl7 nx7 ? Hn7 Hfl7 _]. subst. cbn [map] in Hn7.
  assert (Hone : Forall (fun e : key * N => short e.1 /\ e.2 < 2 ^ 64) [(s, c)]) by (by constructor).
  pose proof (nd_space _ _ _ _ _ Hn7) as Hspace. cbn [total] in Hspace.
  destruct (node_insert (from_bytes bs7) [] fl7 nx7 root 0 (encode_internal_entry s c) Hn7) as (pg8 & Hi8 & Hn8).
  { done. }
  { rewrite internal_size. destruct Hk as [_ Hk]. unfold MAX_KEY in Hk. lia. }
  { apply (proj1 (Forall_singleton (fun r => bytes_ok r) _)). by apply (internal_raw_bytes [(s, c)]). }
  destruct (edit_node b7 _ (p :: hs) p f2 bs7 (fun pg => r ← insert_tuple_at pg 0 (encode_internal_entry s c); Ok r.1)
    (internal_raw [(s, c)]) fl7 nx7 root Hh7 ltac:(left) ltac:(by rewrite Ht7) (lookup_insert_eq _ _ _)) as (b8 & bs8 & He8 & Hh8 & _ & Ha8 & Hn8').
  { exists pg8. by rewrite Hi8. }
  destruct (unpin_held b8 _ hs p Hh8) as (b9 & He9 & Hh9 & Ha9). rewrite !insert_insert_eq in Hh9.
  exists b9, (<[p := bs8]> (<[root := as_bytes pg]> m)), p. split_and!; [|done| |done|done| | |].
  - unfold grow_root. rewrite (bind_pool _ _ _ _ _ He1), (bind_pool _ _ _ _ _ Hpg1), (bind_lift _ _ _ _ Hlev).
    rewrite (bind_pool _ _ _ _ _ Hu1), (bind_pool _ _ _ _ _ He3), (bind_pool _ _ _ _ _ Hpg3).
    rewrite (bind_lift _ _ _ _ (node_read_flags _ _ _ _ _ Hn)), (bind_pool _ _ _ _ _ He4), (bind_pool _ _ _ _ _ He5), (bind_pool _ _ _ _ _ He6).
    specialize (Hrun7 _ (_ ← insert_at f2 0 (encode_internal_entry s c); _ ← unpin_page p true; mret p)).
    cbn [map append_all] in Hrun7. unfold insert_at in Hrun7 at 2.
    rewrite (bind_pool _ _ _ _ _ He8), (bind_pool _ _ _ _ _ He9) in Hrun7. exact Hrun7.
  - apply (spent_le _ _ _ (1 + (1 + (0 + 0)) + (1 + (0 + (0 + 0)))) _ (0 + (0 + (0 + 0)) + (1 + (0 + (0 + 0))))); [|lia..].
    eapply spent_trans; [exact Hsp5|]. eapply spent_trans; [exact Hsp6|]. eapply spent_trans; [eapply spent_after; [exact Ha7|set_solver]|].
    eapply spent_trans; eapply spent_after; [exact Ha8|set_solver|exact Ha9|set_solver].
  - exists bs8. rewrite lookup_insert_eq. split; [done|]. by eapply shows_node.
  - intros bs0 Hb0. rewrite Hm in Hb0. injection Hb0 as <-. exists (as_bytes pg). rewrite lookup_insert_ne, lookup_insert_eq by done.
    split; [done|]. intros w Hw. destruct (clear_root_shows bs w Hw) as (es' & fl' & nx' & lm' & Hnw & pg' & Hset' & _ & Hsw).
    assert (fl' = fl) as -> by (rewrite <- (nd_flags _ _ _ _ _ Hn), <- (nd_flags _ _ _ _ _ Hnw); done). congruence.
  - intros q H1 H2. by rewrite !lookup_insert_ne.
Qed.

End Ops.

End BTreeOps.
