(* ===== verification/StorageBTreeMap.v ===== *)
(** * The B+ tree implements an ordered map

    The pages of a tree are read as a [tree] of some height, its leaves from left to
    right as an association list; inserting, looking up and scanning a range in the
    pages are [bt_insert], [bt_get] and a filter of that list.  The keys are
    distinct and at most [MAX_KEY] bytes long; [StorageBTreeIndex.v] shows what goes
    wrong without that. *)

From stdpp Require Import gmap.
From S2P Require Import Prelude Bytes ByteOrder BTreeMap StorageError StoragePage StorageReplacer StorageDisk.
From S2P Require Import StorageBufferPool StoragePins StorageHeap StorageBTree StorageBTreeNode StorageBTreeOps.

Module Index.
Import Page Pool Pins BTree BTreeNode BTreeOps.

(** ** Trees *)

Abbreviation entry := (key * TupleId)%type.

(** A tree of height [h]: a leaf is its page and its entries; an inner node is its
    page, its leftmost child and its separators with their children. *)
Fixpoint tree (h : nat) : Type :=
  match h with
  | O => N * list entry
  | S h => N * (tree h * list (key * tree h))
  end.

Definition page_of_tree {h} : tree h -> N := match h with O => fst | S _ => fst end.

Definition left_kid {h} (t : tree (S h)) : tree h := t.2.1.
Definition seps {h} (t : tree (S h)) : list (key * tree h) := t.2.2.
Definition kids {h} (t : tree (S h)) : list (tree h) := left_kid t :: map snd (seps t).
#[global] Arguments left_kid : simpl never.
#[global] Arguments seps : simpl never.

(** The leaves from left to right, with their pages. *)
Fixpoint leaves {h} : tree h -> list (N * list entry) :=
  match h with
  | O => fun t => [t]
  | S h => fun t => concat (map leaves (kids t))
  end.

Definition flat {h} (t : tree h) : list entry := concat (map snd (leaves t)).

Fixpoint ids {h} : tree h -> list N :=
  match h with
  | O => fun t => [fst t]
  | S h => fun t => fst t :: concat (map ids (kids t))
  end.

Fixpoint first_leaf {h} : tree h -> N :=
  match h with
  | O => fst
  | S h => fun t => first_leaf (left_kid t)
  end.

Definition first_key (es : list entry) : option key := fst <$> head es.

(** Every separator is the first key of its child, and no child is empty. *)
Fixpoint seps_ok {h} : tree h -> Prop :=
  match h with
  | O => fun _ => True
  | S h => fun t => Forall seps_ok (kids t) /\ Forall (fun c => flat c <> []) (kids t) /\
      Forall (fun e => first_key (flat e.2) = Some e.1) (seps t)
  end.

(** Neighbours point to each other: each element is stored with the first leaf of
    its successor as its next leaf. *)
Fixpoint linked {A} (st : A -> N -> Prop) (first : A -> N) (l : list A) (nx : N) : Prop :=
  match l with
  | [] => True
  | c :: r => st c (match r with [] => nx | d :: _ => first d end) /\ linked st first r nx
  end.

Fixpoint stored (m : gmap N (list N)) {h} : tree h -> N -> Prop :=
  match h with
  | O => fun t nx => shows_at m (fst t) (VLeaf (snd t) nx)
  | S h => fun t nx =>
      shows_at m (fst t) (VNode (page_of_tree (left_kid t)) (map (fun e => (e.1, page_of_tree e.2)) (seps t))) /\
      linked (stored m) first_leaf (kids t) nx
  end.

Record tree_ok m {h} (t : tree h) (nx : N) : Prop := {
  to_stored : stored m t nx;
  to_apart : NoDup (ids t);
  to_sorted : bt_sorted bytes_lt (flat t);
  to_seps : seps_ok t
}.

(** ** Lists of trees *)

Definition flats {h} (ts : list (tree h)) : list entry := concat (map flat ts).

Lemma flat_kids {h} (t : tree (S h)) : flat t = flats (kids t).
Proof.
  unfold flat at 1, flats. cbn [leaves]. generalize (kids t). intros ts.
  induction ts as [|c ts IH]; [done|]. cbn [map concat]. by rewrite map_app, concat_app, IH.
Qed.

Lemma flats_app {h} (a b : list (tree h)) : flats (a ++ b) = flats a ++ flats b.
Proof. unfold flats. by rewrite map_app, concat_app. Qed.

Lemma flats_cons {h} (c : tree h) ts : flats (c :: ts) = flat c ++ flats ts.
Proof. done. Qed.

Lemma linked_app {A} (st : A -> N -> Prop) first l r nx :
  linked st first (l ++ r) nx <-> linked st first l (match r with [] => nx | d :: _ => first d end) /\ linked st first r nx.
Proof.
  induction l as [|c l IH]; cbn [app linked]; [tauto|]. rewrite IH. destruct l as [|d l]; cbn [app]; [|tauto].
  destruct r; cbn; tauto.
Qed.

Lemma leaves_cons {h} (t : tree h) : exists es r, leaves t = (first_leaf t, es) :: r.
Proof.
  induction h as [|h IH]; cbn [leaves first_leaf].
  - exists (snd t), []. by destruct t.
  - unfold kids. cbn [map concat]. destruct (IH (left_kid t)) as (es & r & ->). cbn. eauto.
Qed.

Lemma page_in_ids {h} (t : tree h) : page_of_tree t ∈ ids t.
Proof. destruct h; cbn; left. Qed.

Lemma leaves_in_ids {h} (t : tree h) p : p ∈ map fst (leaves t) -> p ∈ ids t.
Proof.
  induction h as [|h IH]; cbn [leaves ids]; [done|]. rewrite concat_map, map_map. intros Hp. right.
  apply list_elem_of_In, in_concat in Hp as (l & Hl & Hp). apply in_map_iff in Hl as (c & <- & Hc).
  apply list_elem_of_In, in_concat. exists (ids c). split; [by apply in_map|].
  apply list_elem_of_In, IH. by apply list_elem_of_In.
Qed.

Lemma first_leaf_in_ids {h} (t : tree h) : first_leaf t ∈ ids t.
Proof. apply leaves_in_ids. destruct (leaves_cons t) as (es & r & ->). cbn. left. Qed.

(** The chain of the leaves. *)
Lemma stored_leaves m {h} (t : tree h) nx : stored m t nx ->
  linked (fun l nx => shows_at m l.1 (VLeaf l.2 nx)) fst (leaves t) nx.
Proof.
  revert nx. induction h as [|h IH]; intros nx; cbn [stored leaves]; [done|]. intros [_ Hl].
  generalize dependent (kids t). intros ts. induction ts as [|c ts IHts]; cbn [linked map concat]; [done|].
  intros [Hc Hts]. apply linked_app. split; [|by apply IHts]. destruct ts as [|d ts]; cbn [map concat].
  - by apply IH.
  - destruct (leaves_cons d) as (es & r & Hd). rewrite Hd. cbn. by apply IH.
Qed.

(** ** Finding the child *)

Lemma first_key_elem es k : first_key es = Some k -> exists v, (k, v) ∈ es /\ exists r, es = (k, v) :: r.
Proof. destruct es as [|[k' v] r]; cbn; [done|]. intros [= ->]. exists v. split; [left|eauto]. Qed.

Lemma flat_elem {h} (c : tree h) ts e : c ∈ ts -> e ∈ flat c -> e ∈ flats ts.
Proof.
  intros Hc He. unfold flats. apply list_elem_of_In, in_concat. exists (flat c).
  split; [by apply in_map, list_elem_of_In|by apply list_elem_of_In].
Qed.

Lemma seps_sorted {h} (cs : list (key * tree h)) : bt_sorted bytes_lt (flats (map snd cs)) ->
  Forall (fun e => first_key (flat e.2) = Some e.1) cs -> bt_sorted bytes_lt cs.
Proof.
  intros Hs Hf. induction Hf as [|e cs He Hf IH]; [constructor|]. cbn [map] in Hs. rewrite flats_cons in Hs.
  apply bt_sorted_app in Hs as (_ & Hs & Hlt). apply bt_sorted_cons. split; [by apply IH|].
  destruct (first_key_elem _ _ He) as (v & Hv & _). rewrite Forall_forall in Hf. apply Forall_forall. intros e' He'.
  destruct (first_key_elem _ _ (Hf e' He')) as (v' & Hv' & _). apply (Hlt (e.1, v) (e'.1, v') Hv).
  eapply flat_elem; [|exact Hv']. by apply list_elem_of_In, in_map, list_elem_of_In.
Qed.

Lemma bt_sorted_map {A B} (f : A -> B) (es : list (key * A)) :
  bt_sorted bytes_lt es -> bt_sorted bytes_lt (map (fun e => (e.1, f e.2)) es).
Proof.
  induction 1 as [|e es Hs IH Hf]; [constructor|]. cbn [map]. constructor; [done|].
  apply Forall_fmap. eapply Forall_impl; [exact Hf|]. done.
Qed.

Lemma below_map {A B} (f : A -> B) k (es : list (key * A)) : below k (map (fun e => (e.1, f e.2)) es) = below k es.
Proof. induction es as [|e es IH]; cbn; [done|]. by rewrite IH. Qed.

Lemma pick_map {A B} (f : A -> B) c0 k (es : list (key * A)) :
  pick (f c0) (map (fun e => (e.1, f e.2)) es) k = f (pick c0 es k).
Proof.
  unfold pick. rewrite below_map. destruct (below k es) as [|j]; [done|]. rewrite list_lookup_fmap.
  by destruct (es !! j).
Qed.

Lemma lookup_map {A B} (f : A -> B) l i : map f l !! i = f <$> l !! i.
Proof. apply list_lookup_fmap. Qed.

Lemma kids_lookup {h} (t : tree (S h)) k : kids t !! below k (seps t) = Some (pick (left_kid t) (seps t) k).
Proof.
  unfold pick, kids. pose proof (below_le (seps t) k) as Hb. destruct (below k (seps t)) as [|j]; [done|].
  rewrite lookup_cons_ne_0, lookup_map by done. cbn [pred]. destruct (lookup_lt_is_Some_2 (seps t) j) as [e ->]; [lia|done].
Qed.

(** The keys left of the child a search goes to are below the key, those right of
    it above. *)
Lemma locate {h} (t : tree (S h)) k : bt_sorted bytes_lt (flat t) -> seps_ok t ->
  exists a b, kids t = a ++ pick (left_kid t) (seps t) k :: b /\ length a = below k (seps t) /\
    Forall (fun e => bytes_lt e.1 k = true) (flats a) /\ Forall (fun e => bytes_lt k e.1 = true) (flats b).
Proof.
  intros Hs (_ & _ & Hsep). set (j := below k (seps t)). pose proof (kids_lookup t k) as Hj. fold j in Hj.
  set (c := pick _ _ _) in *. exists (take j (kids t)), (drop (S j) (kids t)).
  assert (Hk : kids t = take j (kids t) ++ c :: drop (S j) (kids t)) by (by rewrite <- drop_S, take_drop).
  pose proof (lookup_lt_Some _ _ _ Hj) as Hlt. split; [done|]. split; [rewrite length_take; lia|].
  assert (Hsorted : bt_sorted bytes_lt (seps t)).
  { rewrite flat_kids in Hs. unfold kids in Hs. rewrite flats_cons in Hs. apply bt_sorted_app in Hs as (_ & Hs & _).
    by apply seps_sorted. }
  rewrite flat_kids, Hk, flats_app, flats_cons in Hs. apply bt_sorted_app in Hs as (_ & Hs & Hab).
  apply bt_sorted_app in Hs as (_ & Hs & Hcb).
  split; apply Forall_forall; intros e He.
  - unfold j, c, pick in *. destruct (below k (seps t)) as [|i] eqn:Eb; [cbn in He; by apply elem_of_nil in He|].
    destruct (lookup_lt_is_Some_2 (seps t) i) as [[s c'] Hi]; [pose proof (below_le (seps t) k); lia|].
    rewrite Hi in Hab. cbn in Hab. pose proof (proj1 (Forall_lookup _ _) Hsep i _ Hi) as Hf. cbn in Hf.
    destruct (first_key_elem _ _ Hf) as (v & Hv & _).
    eapply bytes_lt_le_trans; [apply (Hab e (s, v) He); apply elem_of_app; by left|].
    apply (below_iff (seps t) k i (s, c') Hsorted Hi). lia.
  - destruct (drop (S j) (kids t)) as [|d r] eqn:Ed; [by apply elem_of_nil in He|].
    assert (Hd : kids t !! S j = Some d) by (rewrite <- (Nat.add_0_r (S j)), <- lookup_drop, Ed; done).
    unfold kids in Hd. rewrite lookup_cons_ne_0, lookup_map in Hd by done. cbn [pred] in Hd. apply fmap_Some in Hd as ([s d'] & Hi & ->). cbn [fst snd] in *.
    pose proof (proj1 (Forall_lookup _ _) Hsep j _ Hi) as Hf. cbn in Hf. destruct (first_key_elem _ _ Hf) as (v & Hv & r' & Hr).
    assert (Hks : bytes_lt k s = true).
    { destruct (bytes_lt k s) eqn:E; [done|]. apply bytes_lt_false_le, (below_iff (seps t) k j (s, d') Hsorted Hi) in E. unfold j in E. lia. }
    rewrite flats_cons, Hr in He, Hs. cbn [app] in He, Hs. apply elem_of_cons in He as [->|He]; [done|].
    apply bt_sorted_cons in Hs as [_ Hs]. rewrite Forall_forall in Hs. eapply bytes_lt_trans; [exact Hks|]. by apply (Hs e).
Qed.

(** ** Subtrees *)

Definition next_leaf {h} (ts : list (tree h)) (nx : N) : N := match ts with [] => nx | d :: _ => first_leaf d end.

Lemma kid_ok m {h} (t : tree (S h)) nx a c b : tree_ok m t nx -> kids t = a ++ c :: b -> tree_ok m c (next_leaf b nx).
Proof.
  intros [[_ Hl] Hn Hs (Hseps & _)] E. cbn [ids] in Hn. rewrite flat_kids in Hs. rewrite E in *.
  apply linked_app in Hl as [_ [Hc _]]. rewrite flats_app, flats_cons in Hs.
  apply bt_sorted_app in Hs as (_ & Hs & _). apply bt_sorted_app in Hs as (Hs & _).
  apply Forall_app in Hseps as [_ Hseps]. apply Forall_cons in Hseps as [Hseps _].
  split; [exact Hc| |done|done]. apply NoDup_cons in Hn as [_ Hn]. rewrite map_app, concat_app in Hn.
  apply NoDup_app in Hn as (_ & _ & Hn). cbn [map concat] in Hn. by apply NoDup_app in Hn as (Hn & _).
Qed.

Lemma kid_ids {h} (t : tree (S h)) a c b q : kids t = a ++ c :: b -> q ∈ ids c -> q ∈ ids t.
Proof.
  intros E Hq. cbn [ids]. right. rewrite E, map_app, concat_app. apply elem_of_app. right. cbn. apply elem_of_app. by left.
Qed.

Section Search.
Context {D : Type} `{PageStoreLaws D}.
Implicit Types b : BufferPool D.
Implicit Types m : gmap N (list N).
Implicit Types hs : list N.

(** The tree's pages are not held. *)
Definition free {h} (t : tree h) hs : Prop := forall q, q ∈ ids t -> q ∉ hs.

Lemma free_kid {h} (t : tree (S h)) hs a c r : free t hs -> kids t = a ++ c :: r -> free c hs.
Proof. intros Hf E q Hq. apply Hf. by eapply kid_ids. Qed.

Lemma is_leaf_leaf bs es nx : shows bs (VLeaf es nx) -> is_leaf (from_bytes bs) = Ok true.
Proof.
  inversion_clear 1 as [? fl ? lm Hn Hfl _|]. unfold is_leaf. rewrite (node_read_flags _ _ _ _ _ Hn), bind_ok.
  by rewrite (proj2 (N.eqb_neq _ _) Hfl).
Qed.

Lemma is_leaf_node bs lm cs : shows bs (VNode lm cs) -> is_leaf (from_bytes bs) = Ok false.
Proof.
  inversion_clear 1 as [|? fl nx ? Hn Hfl _]. unfold is_leaf. rewrite (node_read_flags _ _ _ _ _ Hn), bind_ok. by rewrite Hfl.
Qed.

(** The descent from an inner node, whatever is done before the page is let go. *)
Lemma node_descends m {h} (t : tree (S h)) nx k : tree_ok m t nx -> exists bs, m !! page_of_tree t = Some bs /\
  is_leaf (from_bytes bs) = Ok false /\ descend (from_bytes bs) k = Ok (page_of_tree (pick (left_kid t) (seps t) k)).
Proof.
  intros [[(bs & Hm & Hs) _] _ Hsort (_ & _ & Hsep)]. exists bs. split; [done|]. split; [by eapply is_leaf_node|].
  inversion_clear Hs as [|? fl nx' ? Hn Hfl Hok]. rewrite (descend_node_spec _ _ _ _ _ k Hn (child_entries_ok _ Hok)).
  - by rewrite pick_map.
  - apply bt_sorted_map, seps_sorted; [|done]. rewrite flat_kids in Hsort. unfold kids in Hsort.
    rewrite flats_cons in Hsort. by apply bt_sorted_app in Hsort as (_ & Hsort & _).
Qed.

Lemma lookup_from_ok {h} (t : tree h) fuel b m hs k nx : holding b m hs -> tree_ok m t nx -> free t hs -> (h < fuel)%nat ->
  slack b hs 1 (1 + N.of_nat h) ->
  exists b', lookup_from fuel (page_of_tree t) k b = (b', Ok (bt_get bytes_lt k (flat t))) /\ holding b' m hs /\
    after b b' hs (1 + N.of_nat h).
Proof.
  revert fuel b nx. induction h as [|h IH]; intros [|fuel] b nx Hh Ht Hf Hfuel Hs; [lia| |lia|].
  - destruct (to_stored _ _ _ Ht) as (bs & Hm & Hsh).
    destruct (visit_held b m hs _ bs 0 0 Hh Hm) as (b1 & b2 & f & He & Hpg & Hu & Hh2 & Ha); [apply Hf; left|done|].
    exists b2. split; [|done]. cbn [lookup_from page_of_tree]. rewrite (bind_pool _ _ _ _ _ He), (bind_pool _ _ _ _ _ Hpg).
    rewrite (bind_lift _ _ _ _ (is_leaf_leaf _ _ _ Hsh)). inversion_clear Hsh as [? fl ? lm Hn Hfl Hok|].
    rewrite (bind_lift _ _ _ _ (find_in_leaf_spec _ _ _ _ _ k Hn (leaf_entries_ok _ Hok))), (bind_pool _ _ _ _ _ Hu).
    unfold flat. cbn. by rewrite app_nil_r.
  - destruct (node_descends m t nx k Ht) as (bs & Hm & Hleaf & Hd).
    destruct (visit_held b m hs _ bs 0 (1 + N.of_nat h) Hh Hm) as (b1 & b2 & f & He & Hpg & Hu & Hh2 & Ha);
      [apply Hf; left|destruct Hs as (? & ? & ?); split_and!; [done|done|lia]|].
    destruct (locate t k (to_sorted _ _ _ Ht) (to_seps _ _ _ Ht)) as (a & r & E & _ & Hbelow & Habove).
    destruct (IH (pick (left_kid t) (seps t) k) fuel b2 (next_leaf r nx) Hh2 (kid_ok m t nx a _ r Ht E)) as (b3 & He3 & Hh3 & Ha3).
    { by eapply free_kid. }
    { lia. }
    { eapply slack_after; [|exact Ha]. destruct Hs as (? & ? & ?); split_and!; [done|done|lia]. }
    exists b3. split_and!; [|done|].
    + cbn [lookup_from]. rewrite (bind_pool _ _ _ _ _ He), (bind_pool _ _ _ _ _ Hpg), (bind_lift _ _ _ _ Hleaf).
      rewrite (bind_lift _ _ _ _ Hd), (bind_pool _ _ _ _ _ Hu), He3. do 2 f_equal.
      rewrite flat_kids, E, flats_app, flats_cons. symmetry. by apply (bt_get_between bytes_lt).
    + eapply after_weaken; [eapply after_trans; [exact Ha|exact Ha3]|lia].
Qed.

(** ** Ranges *)

Lemma flats_leaves {h} (ts : list (tree h)) : concat (map snd (concat (map leaves ts))) = flats ts.
Proof. induction ts as [|c ts IH]; [done|]. cbn [map concat]. by rewrite map_app, concat_app, IH. Qed.

Lemma find_leaf_ok {h} (t : tree h) fuel b m hs k nx : holding b m hs -> tree_ok m t nx -> free t hs -> (h < fuel)%nat ->
  slack b hs 1 (1 + N.of_nat h) ->
  exists b' p l es r, find_leaf fuel (page_of_tree t) k b = (b', Ok p) /\ holding b' m hs /\ after b b' hs (1 + N.of_nat h) /\
    leaves t = l ++ (p, es) :: r /\ Forall (fun e => bytes_lt e.1 k = true) (concat (map snd l)).
Proof.
  revert fuel b nx. induction h as [|h IH]; intros [|fuel] b nx Hh Ht Hf Hfuel Hs; [lia| |lia|].
  - destruct (to_stored _ _ _ Ht) as (bs & Hm & Hsh).
    destruct (visit_held b m hs _ bs 0 0 Hh Hm) as (b1 & b2 & f & He & Hpg & Hu & Hh2 & Ha); [apply Hf; left|done|].
    exists b2, (fst t), [], (snd t), []. split_and!; [|done|done|by destruct t|constructor].
    cbn [find_leaf page_of_tree]. rewrite (bind_pool _ _ _ _ _ He), (bind_pool _ _ _ _ _ Hpg).
    by rewrite (bind_lift _ _ _ _ (is_leaf_leaf _ _ _ Hsh)), (bind_pool _ _ _ _ _ Hu).
  - destruct (node_descends m t nx k Ht) as (bs & Hm & Hleaf & Hd).
    destruct (visit_held b m hs _ bs 0 (1 + N.of_nat h) Hh Hm) as (b1 & b2 & f & He & Hpg & Hu & Hh2 & Ha);
      [apply Hf; left|destruct Hs as (? & ? & ?); split_and!; [done|done|lia]|].
    destruct (locate t k (to_sorted _ _ _ Ht) (to_seps _ _ _ Ht)) as (a & r & E & _ & Hbelow & Habove).
    destruct (IH (pick (left_kid t) (seps t) k) fuel b2 (next_leaf r nx) Hh2 (kid_ok m t nx a _ r Ht E))
      as (b3 & p & l & es & l2 & He3 & Hh3 & Ha3 & Hlv & Hlow).
    { by eapply free_kid. }
    { lia. }
    { eapply slack_after; [|exact Ha]. destruct Hs as (? & ? & ?); split_and!; [done|done|lia]. }
    exists b3, p, (concat (map leaves a) ++ l), es, (l2 ++ concat (map leaves r)). split_and!; [|done| | |].
    + cbn [find_leaf]. rewrite (bind_pool _ _ _ _ _ He), (bind_pool _ _ _ _ _ Hpg), (bind_lift _ _ _ _ Hleaf).
      by rewrite (bind_lift _ _ _ _ Hd), (bind_pool _ _ _ _ _ Hu), He3.
    + eapply after_weaken; [eapply after_trans; [exact Ha|exact Ha3]|lia].
    + cbn [leaves]. rewrite E, map_app, concat_app. cbn [map concat]. rewrite Hlv. by rewrite <- !app_assoc.
    + rewrite map_app, concat_app, flats_leaves. apply Forall_app. done.
Qed.

Lemma scan_list_app start stop l r : scan_list start stop (l ++ r) =
  if (scan_list start stop l).2 then scan_list start stop l
  else ((scan_list start stop l).1 ++ (scan_list start stop r).1, (scan_list start stop r).2).
Proof.
  induction l as [|e l IH]; cbn [app scan_list fst snd]; [by destruct (scan_list start stop r)|].
  destruct (bytes_lt e.1 start); [done|]. destruct (past stop e.1); [done|]. cbn [fst snd]. rewrite IH.
  destruct (scan_list start stop l) as [? []]; done.
Qed.

Lemma scan_list_skip start stop l r : Forall (fun e => bytes_lt e.1 start = true) l ->
  scan_list start stop (l ++ r) = scan_list start stop r.
Proof. induction 1 as [|e l He _ IH]; cbn; [done|]. by rewrite He. Qed.

Definition in_range (start : key) (stop : option key) (e : entry) : bool := bytes_le start e.1 && negb (past stop e.1).

Lemma scan_list_filter start stop es : bt_sorted bytes_lt es -> (scan_list start stop es).1 = List.filter (in_range start stop) es.
Proof.
  induction es as [|e es IH]; intros Hs; [done|]. pose proof Hs as [Hs' Hf]%bt_sorted_cons. cbn [scan_list List.filter].
  unfold in_range at 1. unfold bytes_le at 1. destruct (bytes_lt e.1 start); cbn [negb andb]; [by apply IH|].
  destruct (past stop e.1) eqn:E; cbn [negb fst]; [|by rewrite IH].
  destruct stop as [s|]; [|done]. cbn in E. clear IH Hs Hs'. induction Hf as [|e' es He Hf IH]; [done|].
  cbn [List.filter]. unfold in_range at 1. cbn [past]. unfold bt_lt in He.
  rewrite (bytes_le_trans s e.1 e'.1) by (try done; by apply bytes_lt_le). by rewrite andb_false_r.
Qed.

Lemma scan_from_ok l fuel b m hs p es start stop : holding b m hs ->
  linked (fun l nx => shows_at m l.1 (VLeaf l.2 nx)) fst ((p, es) :: l) INVALID_PAGE_ID ->
  (forall q, q ∈ map fst ((p, es) :: l) -> q ∉ hs) -> (length l < fuel)%nat -> slack b hs 1 (1 + len l) ->
  exists b', scan_from fuel p start stop b = (b', Ok (scan_list start stop (es ++ concat (map snd l))).1) /\
    holding b' m hs /\ after b b' hs (1 + len l).
Proof.
  revert fuel b p es. induction l as [|[p' es'] l IH]; intros [|fuel] b p es Hh Hl Hf Hfuel Hs; [cbn in Hfuel; lia| |cbn in Hfuel; lia|];
    destruct Hl as [(bs & Hm & Hsh) Hl]; cbn [fst snd] in *.
  - destruct (visit_held b m hs p bs 0 0 Hh Hm) as (b1 & b2 & f & He & Hpg & Hu & Hh2 & Ha); [apply Hf; left|done|].
    exists b2. split; [|done]. cbn [scan_from]. rewrite (bind_pool _ _ _ _ _ He), (bind_pool _ _ _ _ _ Hpg).
    inversion_clear Hsh as [? fl ? lm Hn Hfl Hok|].
    rewrite (bind_lift _ _ _ _ (node_read_next _ _ _ _ _ Hn)), (bind_lift _ _ _ _ (scan_leaf_spec _ _ _ _ _ start stop Hn (leaf_entries_ok _ Hok))).
    cbn [map concat]. rewrite app_nil_r. destruct (scan_list start stop es) as [r ended]. rewrite (bind_pool _ _ _ _ _ Hu).
    by rewrite N.eqb_refl, orb_true_r.
  - rewrite len_cons in Hs.
    destruct (visit_held b m hs p bs 0 (1 + len l) Hh Hm) as (b1 & b2 & f & He & Hpg & Hu & Hh2 & Ha);
      [apply Hf; left|done|].
    destruct (IH fuel b2 p' es' Hh2 Hl) as (b3 & He3 & Hh3 & Ha3).
    { intros q Hq. apply Hf. by right. }
    { cbn in Hfuel. lia. }
    { by eapply slack_after. }
    assert (Hp' : (p' =? INVALID_PAGE_ID) = false).
    { apply N.eqb_neq. intros ->. destruct Hl as [(bs' & Hm' & _) _]. cbn in Hm'.
      assert (Hal : allocated (disk b) INVALID_PAGE_ID) by (apply (hd_dom _ _ _ Hh); by eexists).
      apply (allocated_bound (disk b)) in Hal; [done|apply Hh]. }
    inversion_clear Hsh as [? fl ? lm Hn Hfl Hok|]. cbn [scan_from map concat snd]. rewrite scan_list_app.
    rewrite (bind_pool _ _ _ _ _ He), (bind_pool _ _ _ _ _ Hpg), (bind_lift _ _ _ _ (node_read_next _ _ _ _ _ Hn)).
    rewrite (bind_lift _ _ _ _ (scan_leaf_spec _ _ _ _ _ start stop Hn (leaf_entries_ok _ Hok))).
    destruct (scan_list start stop es) as [r ended]. cbn [fst snd]. rewrite (bind_pool _ _ _ _ _ Hu), Hp', orb_false_r, len_cons.
    destruct ended.
    + exists b2. split_and!; [done|done|]. eapply after_weaken; [exact Ha|lia].
    + exists b3. rewrite (bind_pool _ _ _ _ _ He3). split_and!; [done|done|]. by eapply after_trans.
Qed.

End Search.

(** ** Putting an entry into its place *)

Lemma put_between {A} (l1 l2 : list (key * A)) s v : bt_sorted bytes_lt (l1 ++ (s, v) :: l2) ->
  put s v (l1 ++ l2) = l1 ++ (s, v) :: l2.
Proof.
  intros Hs. apply bt_sorted_app in Hs as (_ & Hs & Hlt). apply bt_sorted_cons in Hs as [_ Hf].
  assert (Hb : below s (l1 ++ l2) = length l1).
  { apply partition_point_app.
    - apply Forall_forall. intros e He. apply bytes_lt_le. apply (Hlt e (s, v) He). left.
    - eapply Forall_impl; [exact Hf|]. intros e He. unfold bytes_le, bt_lt in *. cbn in *. by rewrite He. }
  unfold put. rewrite Hb, take_app_length, drop_app_length. done.
Qed.

Lemma put_insert (k : key) (v : TupleId) es : bt_sorted bytes_lt es -> bt_get bytes_lt k es = None ->
  put k v es = bt_insert bytes_lt k v es.
Proof.
  induction es as [|[k' v'] es IH]; intros Hs Hg; [done|]. apply bt_sorted_cons in Hs as [Hs Hf].
  cbn [bt_get] in Hg. unfold put. cbn [partition_point bt_insert fst].
  replace (bytes_le k' k) with (negb (bytes_lt k k')) by done. destruct (bytes_lt k k') eqn:E1; [done|]. cbn [negb].
  destruct (bytes_lt k' k) eqn:E2; [|done]. cbn [take drop app]. f_equal. by apply IH.
Qed.

Lemma put_map {A B} (f : A -> B) k v (es : list (key * A)) :
  put k (f v) (map (fun e => (e.1, f e.2)) es) = map (fun e => (e.1, f e.2)) (put k v es).
Proof. unfold put. by rewrite below_map, map_app, firstn_map, skipn_map. Qed.

(** ** Replacing a child *)

Definition with_kid {h} (t : tree (S h)) (j : nat) (c : tree h) : tree (S h) :=
  match j with
  | O => (fst t, (c, seps t))
  | S i => (fst t, (left_kid t, alter (fun e => (e.1, c)) i (seps t)))
  end.

Lemma with_kid_kids {h} (t : tree (S h)) a c r c1 : kids t = a ++ c :: r -> kids (with_kid t (length a) c1) = a ++ c1 :: r.
Proof.
  unfold kids. destruct a as [|d a]; cbn [app length with_kid]; intros [= <- E]; [by f_equal|].
  unfold left_kid, seps. cbn [fst snd]. f_equal. fold (seps t). revert a E. induction (seps t) as [|e cs IH]; intros a E.
  { by destruct a. }
  destruct a as [|d' a]; cbn in E; injection E as <- E; cbn [app length]; [by rewrite <- E|].
  cbn. f_equal. by apply IH.
Qed.

(** The separators keep their keys, and a property of the pairs holds if it holds
    of the new child under the key it replaces. *)
Lemma with_kid_seps {h} (t : tree (S h)) j c1 (P : key * tree h -> Prop) : Forall P (seps t) ->
  (forall i s c, j = S i -> seps t !! i = Some (s, c) -> P (s, c1)) -> Forall P (seps (with_kid t j c1)).
Proof.
  intros Hf Hj. destruct j as [|i]; [done|]. unfold seps at 1. cbn [with_kid snd]. apply Forall_lookup. intros n e Hn.
  rewrite Forall_lookup in Hf. destruct (decide (n = i)) as [->|Hne].
  - rewrite list_lookup_alter, decide_True in Hn by done. apply fmap_Some in Hn as ([s c] & Hs & ->). by apply (Hj i s c).
  - rewrite list_lookup_alter, decide_False in Hn by done. by apply (Hf n).
Qed.

Lemma with_kid_pages {h} (t : tree (S h)) j c c1 : kids t !! j = Some c -> page_of_tree c1 = page_of_tree c ->
  page_of_tree (left_kid (with_kid t j c1)) = page_of_tree (left_kid t) /\
  map (fun e => (e.1, page_of_tree e.2)) (seps (with_kid t j c1)) = map (fun e => (e.1, page_of_tree e.2)) (seps t).
Proof.
  intros Hj Hp. unfold kids in Hj. destruct j as [|i]; cbn [with_kid].
  { injection Hj as <-. done. }
  split; [done|]. rewrite lookup_cons_ne_0, lookup_map in Hj by done. cbn [pred] in Hj.
  unfold seps at 1. cbn [snd]. revert i Hj. induction (seps t) as [|e cs IH]; intros i Hj; [done|].
  destruct i as [|i]; cbn in Hj |- *; [injection Hj as <-; by rewrite Hp|]. f_equal. by apply IH.
Qed.

(** ** Insertion *)

(** The tree after an insertion, and its right half when it split. *)
Definition parts {h} (t : tree h) (o : option (key * tree h)) : list (tree h) :=
  t :: match o with Some e => [e.2] | None => [] end.

Definition all_ids {h} (ts : list (tree h)) : list N := concat (map ids ts).
Definition all_leaves {h} (ts : list (tree h)) : list (N * list entry) := concat (map leaves ts).

Record inserted m m' {h} (t : tree h) (nx : N) (k : key) (tid : TupleId) (t1 : tree h) (o : option (key * tree h)) : Prop := {
  in_page : page_of_tree t1 = page_of_tree t;
  in_first : first_leaf t1 = first_leaf t;
  in_stored : linked (stored m') first_leaf (parts t1 o) nx;
  in_apart : NoDup (all_ids (parts t1 o));
  in_flat : flats (parts t1 o) = bt_insert bytes_lt k tid (flat t);
  in_seps : Forall seps_ok (parts t1 o);
  in_full : Forall (fun c => flat c <> []) (parts t1 o);
  in_sep : forall s t2, o = Some (s, t2) -> first_key (flat t2) = Some s /\ short s;
  in_bound : forall s t2, o = Some (s, t2) -> page_of_tree t2 < 2 ^ 64;
  in_ids : forall q, q ∈ all_ids (parts t1 o) -> q ∈ ids t \/ m !! q = None;
  in_dom : forall q, is_Some (m !! q) -> is_Some (m' !! q);
  in_kept : forall q, q ∉ ids t -> is_Some (m !! q) -> q <> nx -> m' !! q = m !! q;
  in_still : nx ∉ ids t -> still m m' nx;
  in_leaves : (length (all_leaves (parts t1 o)) <= S (length (leaves t)))%nat
}.

Lemma shows_still m m' q v : shows_at m q v -> still m m' q -> shows_at m' q v.
Proof. intros (bs & Hm & Hs) Hst. destruct (Hst bs Hm) as (bs' & Hm' & Hsh). exists bs'. auto. Qed.

Lemma stored_still m m' {h} (t : tree h) nx : (forall q, q ∈ ids t -> still m m' q) -> stored m t nx -> stored m' t nx.
Proof.
  revert nx. induction h as [|h IH]; intros nx Hst; cbn [stored ids] in *.
  - intros Hs. eapply shows_still; [done|]. apply Hst. left.
  - intros [Hs Hl]. split; [eapply shows_still; [done|apply Hst; left]|].
    assert (Hk : forall c, c ∈ kids t -> forall q, q ∈ ids c -> still m m' q).
    { intros c Hc q Hq. apply Hst. right. apply list_elem_of_In, in_concat. exists (ids c).
      split; [by apply in_map, list_elem_of_In|by apply list_elem_of_In]. }
    clear Hst Hs. induction (kids t) as [|c ts IHts]; [done|]. destruct Hl as [Hc Hl]. split.
    + apply IH; [|done]. apply Hk. left.
    + apply IHts; [done|]. intros d Hd. apply Hk. by right.
Qed.

Lemma linked_still m m' {h} (ts : list (tree h)) nx : (forall q, q ∈ all_ids ts -> still m m' q) ->
  linked (stored m) first_leaf ts nx -> linked (stored m') first_leaf ts nx.
Proof.
  intros Hst. induction ts as [|c ts IH]; [done|]. intros [Hc Hl]. unfold all_ids in *. cbn [map concat] in Hst. split.
  - eapply stored_still; [|exact Hc]. intros q Hq. apply Hst, elem_of_app. by left.
  - apply IH; [|done]. intros q Hq. apply Hst, elem_of_app. by right.
Qed.

Lemma stored_dom m {h} (t : tree h) nx q : stored m t nx -> q ∈ ids t -> is_Some (m !! q).
Proof.
  revert nx. induction h as [|h IH]; intros nx; cbn [stored ids].
  - intros (bs & Hm & _) ->%list_elem_of_singleton. by exists bs.
  - intros [(bs & Hm & _) Hl] [->|Hq]%elem_of_cons; [by exists bs|]. clear Hm.
    induction (kids t) as [|c ts IHts]; cbn [map concat] in Hq; [by apply elem_of_nil in Hq|].
    destruct Hl as [Hc Hl]. apply elem_of_app in Hq as [Hq|Hq]; [by eapply IH|by apply IHts].
Qed.

Lemma linked_dom m {h} (ts : list (tree h)) nx q : linked (stored m) first_leaf ts nx -> q ∈ all_ids ts -> is_Some (m !! q).
Proof.
  unfold all_ids. induction ts as [|c ts IH]; cbn [linked map concat]; [by intros _ ?%elem_of_nil|].
  intros [Hc Hl] [Hq|Hq]%elem_of_app; [by eapply stored_dom|by apply IH].
Qed.

Lemma all_ids_app {h} (a b : list (tree h)) : all_ids (a ++ b) = all_ids a ++ all_ids b.
Proof. unfold all_ids. by rewrite map_app, concat_app. Qed.

Lemma all_leaves_app {h} (a b : list (tree h)) : all_leaves (a ++ b) = all_leaves a ++ all_leaves b.
Proof. unfold all_leaves. by rewrite map_app, concat_app. Qed.

Lemma ids_node {h} (t : tree (S h)) : ids t = page_of_tree t :: all_ids (kids t).
Proof. done. Qed.

Lemma leaves_node {h} (t : tree (S h)) : leaves t = all_leaves (kids t).
Proof. done. Qed.

(** New ids take the place of old ones: they are old or not in use. *)
Lemma replace_apart (used : N -> Prop) (A C R B : list N) : NoDup (A ++ C ++ R) -> NoDup B ->
  (forall q, q ∈ B -> q ∈ C \/ ~ used q) -> (forall q, q ∈ A \/ q ∈ R -> used q) -> NoDup (A ++ B ++ R).
Proof.
  intros (HA & HAC & HCR)%NoDup_app HB Hnew Hused. apply NoDup_app in HCR as (HC & HCR & HR).
  apply NoDup_app. split_and!; [done| |].
  - intros q Hq [Hb|Hr]%elem_of_app.
    + destruct (Hnew q Hb) as [Hc|Hu]; [|apply Hu; auto]. apply (HAC q Hq), elem_of_app. by left.
    + apply (HAC q Hq), elem_of_app. by right.
  - apply NoDup_app. split_and!; [done| |done]. intros q Hb Hr.
    destruct (Hnew q Hb) as [Hc|Hu]; [by apply (HCR q)|apply Hu; auto].
Qed.

Lemma flat_leaf (t : tree 0) : flat t = snd t.
Proof. unfold flat. cbn. apply app_nil_r. Qed.

Lemma shows_short m p es nx : shows_at m p (VLeaf es nx) -> Forall (fun e => short e.1) es.
Proof. intros (bs & _ & Hs). inversion_clear Hs as [? ? ? ? _ _ Hf|]. eapply Forall_impl; [exact Hf|]. by intros e [? _]. Qed.

Abbreviation split_of o := ((fun e => (e.1, page_of_tree e.2)) <$> o).

Lemma leaf_inserted m m' (t : tree 0) nx k tid r : tree_ok m t nx -> bt_get bytes_lt k (flat t) = None ->
  leaf_split m m' (fst t) nx (put k tid (snd t)) r ->
  exists t1 o, r = split_of o /\ inserted m m' t nx k tid t1 o.
Proof.
  intros Ht Hfr Hsp. pose proof (to_sorted _ _ _ Ht) as Hs. rewrite flat_leaf in *.
  rewrite put_insert in Hsp by done. pose proof (bt_insert_sorted bytes_lt k tid _ Hs) as Hs'.
  destruct (to_stored _ _ _ Ht) as (bs0 & Hm0 & _). destruct r as [[s p2]|].
  - destruct Hsp as (Hm2 & Hb2 & Hst & Hkept & l & e & r & E & -> & Hl & Hsh1 & Hsh2).
    assert (Hne : p2 <> fst t) by congruence.
    exists ((fst t, l) : tree 0), (Some (e.1, ((p2, e :: r) : tree 0))). split; [done|].
    assert (Hdom : forall q, is_Some (m !! q) -> is_Some (m' !! q)).
    { intros q [bs Hq]. destruct (decide (q = fst t)) as [->|H1]; [destruct Hsh1 as (? & ? & _); by eexists|].
      destruct (decide (q = p2)) as [->|H2]; [congruence|].
      destruct (decide (q = nx)) as [->|H3]; [destruct (Hst bs Hq) as (? & ? & _); by eexists|]. rewrite Hkept by done. by eexists. }
    split; try done.
    + apply NoDup_cons. split; [|apply NoDup_singleton]. intros Hin%list_elem_of_singleton. cbn in Hin. congruence.
    + unfold flats. cbn [parts map concat]. rewrite !flat_leaf, app_nil_r. by rewrite E.
    + by repeat constructor.
    + repeat constructor; by rewrite flat_leaf.
    + intros s t2 [= <- <-]. rewrite flat_leaf. split; [done|]. apply shows_short in Hsh2. by apply Forall_cons in Hsh2 as [? _].
    + intros s t2 [= <- <-]. cbn. lia.
    + intros q. unfold all_ids. cbn. rewrite !elem_of_cons. intros [->|[->|H]]; [by left; left|by right|by apply elem_of_nil in H].
    + intros q Hq Hd Hx. apply Hkept; [|intros ->; by rewrite Hm2 in Hd; destruct Hd|done].
      intros ->. apply Hq. left.
  - destruct Hsp as [Hsh Hkept]. exists ((fst t, bt_insert bytes_lt k tid (snd t)) : tree 0), None. split; [done|].
    split; try done.
    + apply NoDup_singleton.
    + unfold flats. cbn [parts map concat]. rewrite !flat_leaf. apply app_nil_r.
    + by repeat constructor.
    + repeat constructor. rewrite flat_leaf. cbn. destruct (snd t) as [|[k' v'] es]; cbn; [done|]. by repeat case_match.
    + intros q. unfold all_ids. cbn. rewrite !elem_of_cons. intros [->|H]; [by left; left|by apply elem_of_nil in H].
    + intros q [bs Hq]. destruct (decide (q = fst t)) as [->|H1]; [destruct Hsh as (? & ? & _); by eexists|].
      rewrite Hkept by done. by eexists.
    + intros q Hq _ _. apply Hkept. intros ->. apply Hq. left.
    + intros Hq. apply still_same, Hkept. intros ->. apply Hq. left.
    + cbn. lia.
Qed.

(** The keys in the pages are short. *)
Lemma stored_short m {h} (t : tree h) nx : stored m t nx -> Forall (fun e => short e.1) (flat t).
Proof.
  intros Hs%stored_leaves. unfold flat. revert Hs. generalize (leaves t). intros ls. induction ls as [|[p es] ls IH]; [constructor|].
  intros [Hsh Hl]. cbn [map concat snd]. apply Forall_app. split; [by eapply shows_short|by apply IH].
Qed.

(** *** An inner node after the insertion into one of its children

    [left] and [cs] are the children the node is to have; the page of the node
    itself is still the old one. *)
Record staged m m1 {h} (t : tree (S h)) (nx : N) (k : key) (tid : TupleId) (left : tree h) (cs : list (key * tree h)) : Prop := {
  sg_first : first_leaf left = first_leaf t;
  sg_linked : linked (stored m1) first_leaf (left :: map snd cs) nx;
  sg_apart : NoDup (page_of_tree t :: all_ids (left :: map snd cs));
  sg_flat : flats (left :: map snd cs) = bt_insert bytes_lt k tid (flat t);
  sg_seps : Forall seps_ok (left :: map snd cs);
  sg_full : Forall (fun c => flat c <> []) (left :: map snd cs);
  sg_keys : Forall (fun e => first_key (flat e.2) = Some e.1) cs;
  sg_ids : forall q, q ∈ all_ids (left :: map snd cs) -> q ∈ ids t \/ m !! q = None;
  sg_dom : forall q, is_Some (m !! q) -> is_Some (m1 !! q);
  sg_kept : forall q, q ∉ ids t -> is_Some (m !! q) -> q <> nx -> m1 !! q = m !! q;
  sg_still : nx ∉ ids t -> still m m1 nx;
  sg_leaves : (length (all_leaves (left :: map snd cs)) <= S (length (leaves t)))%nat
}.

Lemma flats_full {h} (c : tree h) ts : flat c <> [] -> flats (c :: ts) <> [].
Proof. rewrite flats_cons. by destruct (flat c). Qed.

(** The node keeps all its children, *)
Lemma staged_in_place m m1 m2 {h} (t : tree (S h)) nx k tid left cs : staged m m1 t nx k tid left cs ->
  node_split m1 m2 (page_of_tree t) (page_of_tree left) (map (fun e => (e.1, page_of_tree e.2)) cs) None ->
  inserted m m2 t nx k tid ((page_of_tree t, (left, cs)) : tree (S h)) None.
Proof.
  intros Hg Hn. pose proof (sg_apart _ _ _ _ _ _ _ _ Hg) as [Hpk Hnd]%NoDup_cons.
  destruct Hn as [Hsh Hkept]. set (t1 := (page_of_tree t, (left, cs)) : tree (S h)).
  destruct Hg as [Hfi Hlk _ Hfl Hsp Hfu Hke Hid Hdo Hkp Hst Hlv]. split; try done.
  - cbn [parts linked stored]. split; [|done]. split; [done|]. eapply linked_still; [|exact Hlk].
    intros q Hq. apply still_same, Hkept. intros ->. done.
  - unfold all_ids. cbn [parts map concat]. rewrite app_nil_r. by apply NoDup_cons.
  - unfold flats. cbn [parts map concat]. rewrite app_nil_r, (flat_kids t1). exact Hfl.
  - by constructor.
  - constructor; [|constructor]. rewrite (flat_kids t1). apply flats_full. by apply Forall_cons in Hfu as [? _].
  - intros q. unfold all_ids. cbn [parts map concat]. rewrite app_nil_r, (ids_node t1), elem_of_cons. intros [->|Hq]; [left; apply (page_in_ids t)|by apply Hid].
  - intros q Hq. destruct (decide (q = page_of_tree t)) as [->|H1]; [destruct Hsh as (? & ? & _); by eexists|].
    rewrite Hkept by done. by apply Hdo.
  - intros q Hq Hd Hx. rewrite Hkept; [by apply Hkp|intros ->; apply Hq; left].
  - intros Hx bs Hb. destruct (Hst Hx bs Hb) as (bs' & Hb' & Hs'). exists bs'. rewrite Hkept; [done|intros ->; apply Hx; left].
  - unfold all_leaves. cbn [parts map concat]. by rewrite app_nil_r.
Qed.

(** or gives those from one separator on to a new node. *)
Lemma staged_split m m1 m2 {h} (t : tree (S h)) nx k tid left cs u p2 : staged m m1 t nx k tid left cs ->
  is_Some (m !! page_of_tree t) ->
  node_split m1 m2 (page_of_tree t) (page_of_tree left) (map (fun e => (e.1, page_of_tree e.2)) cs) (Some (u, p2)) ->
  exists t1 o, Some (u, p2) = split_of o /\ inserted m m2 t nx k tid t1 o.
Proof.
  intros Hg Hp Hn. pose proof (sg_apart _ _ _ _ _ _ _ _ Hg) as [Hpk Hnd]%NoDup_cons.
  assert (Hdom1 : forall q, q ∈ all_ids (left :: map snd cs) -> is_Some (m1 !! q))
    by (intros q; apply (linked_dom m1 _ nx), Hg).
  destruct Hn as (Hm2 & Hb2 & Hkept & l & c & rr & E & Hsh1 & Hsh2).
  apply map_eq_app in E as (L & R0 & -> & <- & E). apply map_eq_cons in E as ([u' cu] & R & -> & E & <-). injection E as -> <-.
  set (t1 := (page_of_tree t, (left, L)) : tree (S h)). set (t2 := (p2, (cu, R)) : tree (S h)).
  assert (Hkids : left :: map snd (L ++ (u, cu) :: R) = kids t1 ++ kids t2) by (unfold kids; cbn; by rewrite map_app).
  rewrite Hkids in *. destruct Hg as [Hfi Hlk _ Hfl Hsp Hfu Hke Hid Hdo Hkp Hst Hlv]. rewrite Hkids in *.
  rewrite all_ids_app in *. apply NoDup_app in Hnd as (Hnd1 & Hnd12 & Hnd2).
  assert (Hp2m : m !! p2 = None) by (apply eq_None_not_Some; intros Hq%Hdo; rewrite Hm2 in Hq; by destruct Hq).
  assert (Hp2k : p2 ∉ all_ids (kids t1) ++ all_ids (kids t2)) by (intros Hq%Hdom1; rewrite Hm2 in Hq; by destruct Hq).
  assert (Hp2p : p2 <> page_of_tree t) by (intros ->; rewrite Hp2m in Hp; by destruct Hp).
  assert (Hl2 : linked (stored m2) first_leaf (kids t1 ++ kids t2) nx).
  { eapply linked_still; [|exact Hlk]. rewrite all_ids_app. intros q Hq. apply still_same, Hkept; [|]; intros ->; done. }
  apply linked_app in Hl2 as [Hl21 Hl22]. apply Forall_app in Hke as [Hke1 Hke2]. apply Forall_cons in Hke2 as [Hcu Hke2].
  apply Forall_app in Hsp as [Hsp1 Hsp2], Hfu as [Hfu1 Hfu2]. cbn [fst snd] in Hcu.
  exists t1, (Some (u, t2)). split; [done|]. split; try done.
  - unfold all_ids. cbn [parts map concat snd]. rewrite app_nil_r, (ids_node t1), (ids_node t2).
    apply NoDup_app. split_and!.
    + apply NoDup_cons. split; [|done]. intros Hq. apply Hpk, elem_of_app. by left.
    + intros q Hq Hq2. apply elem_of_cons in Hq as [->|Hq], Hq2 as [Hq2|Hq2].
      * by apply Hp2p.
      * apply Hpk, elem_of_app. by right.
      * subst. apply Hp2k, elem_of_app. by left.
      * by apply (Hnd12 q).
    + apply NoDup_cons. split; [|done]. intros Hq. apply Hp2k, elem_of_app. by right.
  - unfold flats at 1. cbn [parts map concat snd]. rewrite app_nil_r, (flat_kids t1), (flat_kids t2), <- flats_app. exact Hfl.
  - constructor; [|constructor; [|constructor]]; cbn [seps_ok]; done.
  - constructor; [|constructor; [|constructor]]; rewrite flat_kids; apply flats_full.
    + by apply Forall_cons in Hfu1 as [? _].
    + by apply Forall_cons in Hfu2 as [? _].
  - intros s t2' [= <- <-]. assert (Hf2 : first_key (flat t2) = Some u).
    { rewrite flat_kids. unfold kids. rewrite flats_cons. destruct (first_key_elem _ _ Hcu) as (v & _ & x & Hx).
      change (left_kid t2) with cu. by rewrite Hx. }
    split; [done|]. destruct (first_key_elem _ _ Hf2) as (v & Hv & _).
    assert (Hs2 : stored m2 t2 nx) by (cbn [stored]; done). apply stored_short in Hs2. rewrite Forall_forall in Hs2.
    by apply (Hs2 (u, v)).
  - intros s t2' [= <- <-]. cbn. lia.
  - intros q. unfold all_ids. cbn [parts map concat snd]. rewrite app_nil_r, (ids_node t1), (ids_node t2), elem_of_app, !elem_of_cons.
    intros [[->|Hq]|[->|Hq]]; [left; apply (page_in_ids t)| |by right|]; apply Hid, elem_of_app; auto.
  - intros q Hq. destruct (decide (q = page_of_tree t)) as [->|H1]; [destruct Hsh1 as (? & ? & _); by eexists|].
    destruct (decide (q = p2)) as [->|H2]; [destruct Hsh2 as (? & ? & _); by eexists|]. rewrite Hkept by done. by apply Hdo.
  - intros q Hq Hd Hx. rewrite Hkept; [by apply Hkp|intros ->; apply Hq; left|intros ->; rewrite Hp2m in Hd; by destruct Hd].
  - intros Hx bs Hb. destruct (Hst Hx bs Hb) as (bs' & Hb' & Hs'). exists bs'. rewrite Hkept; [done|intros ->; apply Hx; left|congruence].
  - unfold all_leaves. cbn [parts map concat snd]. rewrite app_nil_r, (leaves_node t1), (leaves_node t2), <- all_leaves_app. done.
Qed.

Lemma staged_inserted m m1 m2 {h} (t : tree (S h)) nx k tid left cs r : staged m m1 t nx k tid left cs ->
  is_Some (m !! page_of_tree t) ->
  node_split m1 m2 (page_of_tree t) (page_of_tree left) (map (fun e => (e.1, page_of_tree e.2)) cs) r ->
  exists t1 o, r = split_of o /\ inserted m m2 t nx k tid t1 o.
Proof.
  intros Hg Hp Hn. destruct r as [[u p2]|]; [by eapply staged_split|].
  exists ((page_of_tree t, (left, cs)) : tree (S h)), None. split; [done|]. by eapply staged_in_place.
Qed.

(** The children of the node once the child at index [j] has become [c1] and [o]. *)
Definition stage_seps {h} (t : tree (S h)) (j : nat) (c1 : tree h) (o : option (key * tree h)) : list (key * tree h) :=
  let cs := seps (with_kid t j c1) in
  match o with
  | None => cs
  | Some e => take j cs ++ e :: drop j cs
  end.

Lemma stage_kids {h} (t : tree (S h)) a c r c1 o : kids t = a ++ c :: r ->
  left_kid (with_kid t (length a) c1) :: map snd (stage_seps t (length a) c1 o) = a ++ parts c1 o ++ r.
Proof.
  intros E. pose proof (with_kid_kids t a c r c1 E) as Hk. unfold kids in Hk. unfold stage_seps.
  destruct o as [[s t2]|]; cbn [parts]; [|done].
  set (t' := with_kid t (length a) c1) in *. clearbody t'. rewrite map_app. cbn [map snd]. rewrite <- firstn_map, <- skipn_map.
  assert (Hs : left_kid t' :: take (length a) (map snd (seps t')) = a ++ [c1] /\ drop (length a) (map snd (seps t')) = r).
  { change (left_kid t' :: take (length a) (map snd (seps t'))) with (take (S (length a)) (left_kid t' :: map snd (seps t'))).
    change (drop (length a) (map snd (seps t'))) with (drop (S (length a)) (left_kid t' :: map snd (seps t'))).
    rewrite Hk, cons_middle, app_assoc. replace (S (length a)) with (length (a ++ [c1])) by (rewrite length_app; cbn; lia).
    by rewrite take_app_length, drop_app_length. }
  destruct Hs as [Hs1 ->]. rewrite app_comm_cons, Hs1, <- app_assoc. done.
Qed.

Lemma first_key_insert es k v s l r : first_key es = Some s -> bytes_le s k = true -> bt_insert bytes_lt k v es = l ++ r ->
  l <> [] -> first_key l = Some s.
Proof.
  destruct es as [|[k' v'] es]; [done|]. intros [= ->] Hle E Hl. cbn [bt_insert] in E.
  apply bytes_le_lt in Hle. rewrite Hle in E. destruct l as [|e l]; [done|].
  destruct (bytes_lt s k) eqn:E2; injection E as <- _; [done|].
  destruct (bytes_lt_total s k) as [?|[->|?]]; [congruence|done|congruence].
Qed.

(** *** The child's insertion seen from its parent *)

Section Child.
Context (m m1 : gmap N (list N)) {h : nat} (t : tree (S h)) (nx : N) (k : key) (tid : TupleId).
Context (a : list (tree h)) (c : tree h) (r : list (tree h)) (c1 : tree h) (o : option (key * tree h)).
Hypothesis Ht : tree_ok m t nx.
Hypothesis Ek : kids t = a ++ c :: r.
Hypothesis Hnx : nx ∉ ids t.
Hypothesis Hin : inserted m m1 c (next_leaf r nx) k tid c1 o.

Lemma child_apart : NoDup (all_ids a ++ ids c ++ all_ids r).
Proof.
  pose proof (to_apart _ _ _ Ht) as Hn. rewrite ids_node, Ek, all_ids_app in Hn. by apply NoDup_cons in Hn as [_ Hn].
Qed.

Lemma ids_parts q : q ∈ ids t <-> q = page_of_tree t \/ q ∈ all_ids a \/ q ∈ ids c \/ q ∈ all_ids r.
Proof. rewrite ids_node, Ek, all_ids_app, elem_of_cons. unfold all_ids at 2. cbn [map concat]. rewrite !elem_of_app. done. Qed.

Lemma next_in_rest : next_leaf r nx = nx \/ next_leaf r nx ∈ all_ids r.
Proof.
  destruct r as [|d r']; [by left|]. right. unfold all_ids. cbn. apply elem_of_app. left. apply first_leaf_in_ids.
Qed.

Lemma next_not_child : next_leaf r nx ∉ ids c.
Proof.
  pose proof child_apart as (_ & _ & Hcr)%NoDup_app. apply NoDup_app in Hcr as (_ & Hcr & _).
  intros Hc. destruct next_in_rest as [E|Hr]; [|by apply (Hcr _ Hc)]. rewrite E in Hc. apply Hnx, ids_parts. auto.
Qed.

Lemma outside_still q : q ∉ ids c -> still m m1 q.
Proof.
  intros Hq bs Hb. destruct (decide (q = next_leaf r nx)) as [->|Hne].
  - by apply (in_still _ _ _ _ _ _ _ _ Hin next_not_child).
  - exists bs. rewrite (in_kept _ _ _ _ _ _ _ _ Hin q Hq) by (done || by eexists). done.
Qed.

Lemma rest_outside q : q ∈ all_ids a \/ q ∈ all_ids r -> q ∉ ids c.
Proof.
  pose proof child_apart as (_ & Hac & Hcr)%NoDup_app. apply NoDup_app in Hcr as (_ & Hcr & _).
  intros [Hq|Hq] Hc; [apply (Hac q Hq), elem_of_app; by left|by apply (Hcr q)].
Qed.

Lemma child_linked : linked (stored m1) first_leaf (a ++ parts c1 o ++ r) nx.
Proof.
  destruct (to_stored _ _ _ Ht) as [_ Hl]. rewrite Ek in Hl. apply linked_app in Hl as [Hla [_ Hlr]].
  apply linked_app. split.
  - cbn [parts app]. rewrite (in_first _ _ _ _ _ _ _ _ Hin). eapply linked_still; [|exact Hla].
    intros q Hq. apply outside_still, rest_outside. auto.
  - apply linked_app. split; [apply (in_stored _ _ _ _ _ _ _ _ Hin)|]. eapply linked_still; [|exact Hlr].
    intros q Hq. apply outside_still, rest_outside. auto.
Qed.

Lemma page_outside : (page_of_tree t ∉ ids c) /\ (page_of_tree t ∉ all_ids a) /\ (page_of_tree t ∉ all_ids r).
Proof.
  pose proof (to_apart _ _ _ Ht) as Hn. rewrite ids_node, Ek, all_ids_app in Hn. apply NoDup_cons in Hn as [Hp _].
  split_and!; intros Hq; apply Hp, elem_of_app; [right; apply elem_of_app; by left|by left|right; apply elem_of_app; by right].
Qed.

Lemma rest_used q : q ∈ all_ids a \/ q ∈ all_ids r -> is_Some (m !! q).
Proof. intros Hq. apply (stored_dom m t nx); [apply Ht|]. apply ids_parts. tauto. Qed.

Lemma page_used : is_Some (m !! page_of_tree t).
Proof. apply (stored_dom m t nx); [apply Ht|apply page_in_ids]. Qed.

Lemma child_ids_apart : NoDup (page_of_tree t :: all_ids (a ++ parts c1 o ++ r)).
Proof.
  rewrite !all_ids_app. apply NoDup_cons. destruct page_outside as (Hpc & Hpa & Hpr). split.
  - rewrite !elem_of_app. intros [Hq|[Hq|Hq]]; [done| |done].
    destruct (in_ids _ _ _ _ _ _ _ _ Hin _ Hq) as [?|Hn]; [done|]. pose proof page_used as Hu. rewrite Hn in Hu. by destruct Hu.
  - apply (replace_apart (fun q => is_Some (m !! q)) _ (ids c)); [apply child_apart|apply (in_apart _ _ _ _ _ _ _ _ Hin)| |apply rest_used].
    intros q Hq. destruct (in_ids _ _ _ _ _ _ _ _ Hin q Hq) as [?|Hn]; [by left|right]. rewrite Hn. by intros [].
Qed.

Lemma child_flat : Forall (fun e => bytes_lt e.1 k = true) (flats a) -> Forall (fun e => bytes_lt k e.1 = true) (flats r) ->
  flats (a ++ parts c1 o ++ r) = bt_insert bytes_lt k tid (flat t).
Proof.
  intros Ha Hr. rewrite !flats_app, (in_flat _ _ _ _ _ _ _ _ Hin), flat_kids, Ek, flats_app, flats_cons.
  symmetry. by apply (bt_insert_between bytes_lt).
Qed.

Lemma child_keys : length a = below k (seps t) -> Forall (fun e => first_key (flat e.2) = Some e.1) (stage_seps t (length a) c1 o).
Proof.
  intros Hj. destruct (to_seps _ _ _ Ht) as (_ & _ & Hkeys).
  assert (Hcs : Forall (fun e => first_key (flat e.2) = Some e.1) (seps (with_kid t (length a) c1))).
  { apply with_kid_seps; [done|]. intros i s0 c0 Hi Hs0. cbn [fst snd].
    assert (c0 = c) as ->.
    { assert (Hc0 : kids t !! length a = Some c0).
      { rewrite Hi. unfold kids. rewrite lookup_cons_ne_0, lookup_map by done. cbn [pred]. by rewrite Hs0. }
      rewrite Ek, list_lookup_middle in Hc0 by done. congruence. }
    pose proof (proj1 (Forall_lookup _ _) Hkeys i _ Hs0) as Hf. cbn in Hf.
    pose proof (in_flat _ _ _ _ _ _ _ _ Hin) as Hfl. unfold parts in Hfl. rewrite flats_cons in Hfl.
    apply (first_key_insert _ k tid s0 _ _ Hf) with (2 := eq_sym Hfl).
    - apply (below_iff (seps t) k i (s0, c)); [|done|lia]. apply seps_sorted; [|done].
      pose proof (to_sorted _ _ _ Ht) as Hs. rewrite flat_kids in Hs. unfold kids in Hs. rewrite flats_cons in Hs.
      by apply bt_sorted_app in Hs as (_ & Hs & _).
    - pose proof (in_full _ _ _ _ _ _ _ _ Hin) as Hfu. by apply Forall_cons in Hfu as [? _]. }
  unfold stage_seps. destruct o as [[s t2]|] eqn:Eo; [|done]. apply Forall_app. split; [by apply Forall_take|].
  constructor; [|by apply Forall_drop]. by apply (in_sep _ _ _ _ _ _ _ _ Hin s t2).
Qed.

Lemma staged_kid : length a = below k (seps t) ->
  Forall (fun e => bytes_lt e.1 k = true) (flats a) -> Forall (fun e => bytes_lt k e.1 = true) (flats r) ->
  staged m m1 t nx k tid (left_kid (with_kid t (length a) c1)) (stage_seps t (length a) c1 o).
Proof.
  intros Hj Ha Hr. pose proof (stage_kids t a c r c1 o Ek) as Hks.
  destruct (to_seps _ _ _ Ht) as (Hseps & Hfull & _). rewrite Ek in Hseps, Hfull.
  apply Forall_app in Hseps as [Hsa Hsr], Hfull as [Hfa Hfr]. apply Forall_cons in Hsr as [_ Hsr], Hfr as [_ Hfr].
  split; rewrite ?Hks.
  - destruct a as [|d a']; cbn [length with_kid]; [|done]. injection Ek as Ec _. cbn [first_leaf]. rewrite Ec.
    apply (in_first _ _ _ _ _ _ _ _ Hin).
  - apply child_linked.
  - apply child_ids_apart.
  - by apply child_flat.
  - rewrite !Forall_app. split_and!; [done|apply (in_seps _ _ _ _ _ _ _ _ Hin)|done].
  - rewrite !Forall_app. split_and!; [done|apply (in_full _ _ _ _ _ _ _ _ Hin)|done].
  - by apply child_keys.
  - intros q. rewrite !all_ids_app, !elem_of_app, ids_parts. intros [Hq|[Hq|Hq]]; [auto| |auto].
    destruct (in_ids _ _ _ _ _ _ _ _ Hin q Hq); auto.
  - apply (in_dom _ _ _ _ _ _ _ _ Hin).
  - intros q Hq Hd Hx. apply (in_kept _ _ _ _ _ _ _ _ Hin); [intros Hc; apply Hq, ids_parts; auto|done|].
    destruct next_in_rest as [->|Hrn]; [done|]. intros ->. apply Hq, ids_parts. auto.
  - intros _. apply outside_still. intros Hc. apply Hnx, ids_parts. auto.
  - rewrite leaves_node, Ek, !all_leaves_app. change (all_leaves (c :: r)) with (leaves c ++ all_leaves r).
    rewrite !length_app. pose proof (in_leaves _ _ _ _ _ _ _ _ Hin). lia.
Qed.
End Child.

(** The node's page once the new child has its place among the separators. *)
Lemma stage_pages m m1 {h} (t : tree (S h)) nx k tid a c r c1 s t2 : kids t = a ++ c :: r -> page_of_tree c1 = page_of_tree c ->
  bt_sorted bytes_lt (flat t) -> staged m m1 t nx k tid (left_kid (with_kid t (length a) c1)) (stage_seps t (length a) c1 (Some (s, t2))) ->
  put s (page_of_tree t2) (map (fun e => (e.1, page_of_tree e.2)) (seps t)) =
    map (fun e => (e.1, page_of_tree e.2)) (stage_seps t (length a) c1 (Some (s, t2))).
Proof.
  intros E Hp Hs Hst. destruct (with_kid_pages t (length a) c c1) as [_ <-]; [by rewrite E, list_lookup_middle|done|].
  rewrite put_map. f_equal. unfold stage_seps in *. set (cs := seps _) in *. rewrite <- (take_drop (length a) cs) at 1.
  apply put_between, seps_sorted; [|apply (sg_keys _ _ _ _ _ _ _ _ Hst)].
  pose proof (bt_insert_sorted bytes_lt k tid _ Hs) as Hf. rewrite <- (sg_flat _ _ _ _ _ _ _ _ Hst), flats_cons in Hf.
  by apply bt_sorted_app in Hf as (_ & Hf & _).
Qed.

Section Insert.
Context {D : Type} `{PageStoreLaws D}.
Implicit Types b : BufferPool D.
Implicit Types m : gmap N (list N).
Implicit Types hs : list N.

(** What the leaf after the tree must be for its back link to be written. *)
Definition next_free m {h} (t : tree h) hs (nx : N) : Prop :=
  (nx ∉ ids t) /\ (nx = INVALID_PAGE_ID \/ ((nx ∉ hs) /\ exists es nx', shows_at m nx (VLeaf es nx'))).

Lemma first_leaf_shown m {h} (t : tree h) nx : stored m t nx -> exists es nx', shows_at m (first_leaf t) (VLeaf es nx').
Proof.
  revert nx. induction h as [|h IH]; intros nx Hs; cbn [stored first_leaf] in *; [by exists (snd t), nx|].
  destruct Hs as [_ Hl]. destruct Hl as [Hc _]. by eapply IH.
Qed.

Lemma next_free_kid m {h} (t : tree (S h)) hs nx a c r : tree_ok m t nx -> free t hs -> kids t = a ++ c :: r ->
  next_free m t hs nx -> next_free m c hs (next_leaf r nx).
Proof.
  intros Ht Hf E [Hn Hx]. destruct r as [|d r]; cbn [next_leaf].
  - split; [|done]. intros Hc. apply Hn. by eapply kid_ids.
  - assert (Hd : kids t = (a ++ [c]) ++ d :: r) by (by rewrite <- app_assoc). split.
    + intros Hc. pose proof (to_apart _ _ _ Ht) as Ha. rewrite ids_node, E, all_ids_app in Ha.
      apply NoDup_cons in Ha as [_ Ha]. apply NoDup_app in Ha as (_ & _ & Ha). change (all_ids (c :: d :: r)) with (ids c ++ ids d ++ all_ids r) in Ha.
      apply NoDup_app in Ha as (_ & Ha & _). apply (Ha _ Hc), elem_of_app. left. apply first_leaf_in_ids.
    + right. split; [apply (free_kid t hs (a ++ [c]) d r Hf Hd), first_leaf_in_ids|].
      eapply first_leaf_shown, (to_stored _ _ _ (kid_ok m t nx _ _ _ Ht Hd)).
Qed.

(** A node whose child has been inserted into takes the new half of the child, if
    there is one. *)
Lemma node_insert_ok b m m1 hs {h} (t : tree (S h)) nx k tid a c r c1 (o : option (key * tree h)) n :
  holding b m1 hs -> tree_ok m t nx -> free t hs -> nx ∉ ids t ->
  kids t = a ++ c :: r -> length a = below k (seps t) ->
  Forall (fun e => bytes_lt e.1 k = true) (flats a) -> Forall (fun e => bytes_lt k e.1 = true) (flats r) ->
  inserted m m1 c (next_leaf r nx) k tid c1 o -> slack b hs 2 4 -> room (disk b) (n + 1) ->
  exists b' m' (t1 : tree (S h)) (o' : option (key * tree (S h))),
    match split_of o with
    | Some (sep_key, new_child) => internal_insert (page_of_tree t) sep_key new_child
    | None => mret None
    end b = (b', Ok (split_of o')) /\ holding b' m' hs /\ spent b b' hs 3 1 /\ inserted m m' t nx k tid t1 o'.
Proof.
  intros Hh Ht Hf Hni E Hj Ha Hr Hin Hs Hroom.
  pose proof (staged_kid m m1 t nx k tid a c r c1 o Ht E Hni Hin Hj Ha Hr) as Hst.
  assert (Hpc : page_of_tree c1 = page_of_tree c) by apply (in_page _ _ _ _ _ _ _ _ Hin).
  destruct (with_kid_pages t (length a) c c1) as [Hpl Hps]; [by rewrite E, list_lookup_middle|done|].
  destruct (to_stored _ _ _ Ht) as [Hsh _].
  assert (Hused : is_Some (m !! page_of_tree t)) by (destruct Hsh as (? & ? & _); by eexists).
  eapply shows_still in Hsh; [|eapply (outside_still m m1 t nx k tid a c r c1 o); try done; by eapply (page_outside m t nx a c r)].
  destruct o as [[s t2]|].
  - destruct (internal_insert_ok b m1 hs (page_of_tree t) s (page_of_tree t2) (map (fun e => (e.1, page_of_tree e.2)) (seps t))
      (page_of_tree (left_kid t)) n) as (b6 & m6 & r6 & Hi6 & Hh6 & Hsp6 & Hns); try done.
    { apply Hf, page_in_ids. }
    { by apply (in_sep _ _ _ _ _ _ _ _ Hin s t2). }
    { by apply (in_bound _ _ _ _ _ _ _ _ Hin s t2). }
    rewrite <- Hpl in Hns. erewrite (stage_pages m m1 t nx k tid a c r c1 s t2) in Hns by (done || apply Ht).
    destruct (staged_inserted m m1 m6 t nx k tid _ _ r6 Hst Hused Hns) as (t1 & o & -> & Hi). by exists b6, m6, t1, o.
  - assert (Hns : node_split m1 m1 (page_of_tree t) (page_of_tree (left_kid (with_kid t (length a) c1)))
      (map (fun e => (e.1, page_of_tree e.2)) (stage_seps t (length a) c1 None)) None).
    { split; [|done]. unfold stage_seps. by rewrite Hpl, Hps. }
    destruct (staged_inserted m m1 m1 t nx k tid _ _ None Hst Hused Hns) as (t1 & o & Eo & Hi). exists b, m1, t1, o.
    rewrite <- Eo. split_and!; [done|done| |done]. apply (spent_le _ _ _ 0 _ 0); [|lia..]. by apply (spent_after _ _ _ hs), reflexivity; apply after_refl.
Qed.

Lemma insert_recursive_ok {h} (t : tree h) fuel b m hs k tid nx n : holding b m hs -> tree_ok m t nx -> free t hs ->
  (h < fuel)%nat -> bt_get bytes_lt k (flat t) = None -> short k -> tid_ok tid -> next_free m t hs nx ->
  slack b hs 2 (6 * (1 + N.of_nat h)) -> room (disk b) (n + (1 + N.of_nat h)) ->
  exists b' m' (t1 : tree h) (o : option (key * tree h)),
    insert_recursive fuel (page_of_tree t) k tid b = (b', Ok (split_of o)) /\ holding b' m' hs /\
    spent b b' hs (5 * (1 + N.of_nat h)) (1 + N.of_nat h) /\ inserted m m' t nx k tid t1 o.
Proof.
  revert fuel b nx n. induction h as [|h IH]; intros [|fuel] b nx n Hh Ht Hf Hfuel Hg Hk Htid Hnx Hs Hroom; [lia| |lia|].
  - destruct (to_stored _ _ _ Ht) as (bs & Hm & Hsh).
    destruct (visit_held b m hs _ bs 1 5 Hh Hm) as (b1 & b2 & f & He & Hpg & Hu & Hh2 & Ha); [apply Hf; left|done|].
    assert (Hs2 : slack b2 hs 2 5) by (eapply slack_after; [|exact Ha]; by eapply slack_le).
    destruct (leaf_insert_ok b2 m hs (fst t) k tid (snd t) nx n) as (b3 & m3 & r & Hi & Hh3 & Hsp & Hl); try done.
    { apply Hf. left. }
    { by exists bs. }
    { by apply (af_room _ _ _ _ Ha). }
    { destruct Hnx as [Hni [->|[Hnh Hx]]]; [by left|right]. split; [|done]. intros ->. apply Hni. left. }
    destruct (leaf_inserted m m3 t nx k tid r Ht Hg Hl) as (t1 & o & -> & Hin).
    exists b3, m3, t1, o. split_and!; [|done| |done].
    + cbn [insert_recursive page_of_tree]. rewrite (bind_pool _ _ _ _ _ He), (bind_pool _ _ _ _ _ Hpg).
      by rewrite (bind_lift _ _ _ _ (is_leaf_leaf _ _ _ Hsh)), (bind_pool _ _ _ _ _ Hu).
    + apply (spent_le _ _ _ (1 + 4) _ (0 + 1)); [|lia..]. eapply spent_trans; [by apply (spent_after _ _ _ hs)|done].
  - destruct (node_descends m t nx k Ht) as (bs & Hm & Hleaf & Hd).
    destruct (visit_held b m hs _ bs 1 (11 + 6 * N.of_nat h) Hh Hm) as (b1 & b2 & f & He & Hpg & Hu & Hh2 & Ha);
      [apply Hf; left|eapply slack_le; [exact Hs|lia]|].
    assert (Hs2 : slack b2 hs 2 (11 + 6 * N.of_nat h)) by (eapply slack_after; [|exact Ha]; eapply slack_le; [exact Hs|lia]).
    destruct (visit_held b2 m hs _ bs 1 (10 + 6 * N.of_nat h) Hh2 Hm) as (b3 & b4 & f' & He' & Hpg' & Hu' & Hh4 & Ha');
      [apply Hf; left|eapply slack_le; [exact Hs2|lia]|].
    assert (Hs4 : slack b4 hs 2 (10 + 6 * N.of_nat h)) by (eapply slack_after; [|exact Ha']; eapply slack_le; [exact Hs2|lia]).
    assert (Hroom4 : room (disk b4) (n + 1 + (1 + N.of_nat h))).
    { apply (af_room _ _ _ _ Ha'), (af_room _ _ _ _ Ha). eapply room_le; [|exact Hroom]. lia. }
    destruct (locate t k (to_sorted _ _ _ Ht) (to_seps _ _ _ Ht)) as (a & r & E & Hj & Hbelow & Habove).
    set (c := pick (left_kid t) (seps t) k) in *.
    assert (Hgc : bt_get bytes_lt k (flat c) = None).
    { rewrite <- Hg, flat_kids, E, flats_app, flats_cons. symmetry. by apply (bt_get_between bytes_lt). }
    destruct (IH c fuel b4 (next_leaf r nx) (n + 1)) as (b5 & m5 & c1 & o & Hr & Hh5 & Hsp5 & Hin); try done.
    { by eapply kid_ok. }
    { by eapply free_kid. }
    { lia. }
    { by eapply next_free_kid. }
    { eapply slack_le; [exact Hs4|lia]. }
    assert (Hsp : spent b b5 hs (2 + 5 * (1 + N.of_nat h)) (1 + N.of_nat h)).
    { apply (spent_le _ _ _ (1 + (1 + 5 * (1 + N.of_nat h))) _ (0 + (0 + (1 + N.of_nat h)))); [|lia..].
      eapply spent_trans; [by apply (spent_after _ _ _ hs)|]. eapply spent_trans; [by apply (spent_after _ _ _ hs)|done]. }
    destruct (node_insert_ok b5 m m5 hs t nx k tid a c r c1 o n) as (b6 & m6 & t1 & o' & Hi6 & Hh6 & Hsp6 & Hin6); try done.
    { apply Hnx. }
    { eapply slack_spent; [eapply slack_le; [exact Hs|]|exact Hsp]. lia. }
    { apply (sp_room _ _ _ _ _ Hsp). eapply room_le; [|exact Hroom]. lia. }
    exists b6, m6, t1, o'. split_and!; [|done| |done].
    + cbn [insert_recursive]. rewrite (bind_pool _ _ _ _ _ He), (bind_pool _ _ _ _ _ Hpg), (bind_lift _ _ _ _ Hleaf), (bind_pool _ _ _ _ _ Hu).
      rewrite (bind_pool _ _ _ _ _ He'), (bind_pool _ _ _ _ _ Hpg'), (bind_lift _ _ _ _ Hd), (bind_pool _ _ _ _ _ Hu'), (bind_pool _ _ _ _ _ Hr).
      exact Hi6.
    + apply (spent_le _ _ _ (2 + 5 * (1 + N.of_nat h) + 3) _ (1 + N.of_nat h + 1)); [by eapply spent_trans|lia..].
Qed.
End Insert.

End Index.
