(* ===== verification/StorageBTreeIndex.v ===== *)
(** * The B+ tree handle: create, open, insert, lookup, range_scan

    [StorageBTreeMap.v] shows what an insertion does to a subtree.  Here the root
    grows, the meta page follows it, and a sequence of calls on a new tree is
    answered as by an association list.  The last part runs the code on the inputs
    the refinement excludes. *)

From stdpp Require Import gmap.
From S2P Require Import Prelude Bytes ByteOrder BTreeMap StorageError StoragePage StorageReplacer StorageDisk.
From S2P Require Import StorageBufferPool StoragePins StorageHeap StorageBTree StorageBTreeNode StorageBTreeOps StorageBTreeMap.

Module BTreeIndex.
Import Page Pool Pins BTree BTreeNode BTreeOps Index.

(** ** Clients and the map they see *)

Inductive call : Type :=
| Insert (k : key) (tid : TupleId)
| Lookup (k : key)
| RangeScan (start : key) (stop : option key).

Inductive answer : Type :=
| Inserted (r : result ())
| Found (r : result (option TupleId))
| Scanned (r : result (list entry)).

(** The calls on the handle, one after the other. *)
Definition perform {D} `{PageStore D} (fuel : nat) (bt : BTree) (c : call) (b : BufferPool D) : BufferPool D * (BTree * answer) :=
  match c with
  | Insert k tid => let '(b, (bt, r)) := insert fuel bt k tid b in (b, (bt, Inserted r))
  | Lookup k => let '(b, r) := lookup fuel bt k b in (b, (bt, Found r))
  | RangeScan start stop => let '(b, r) := range_scan fuel bt start stop b in (b, (bt, Scanned r))
  end.

Fixpoint performs {D} `{PageStore D} (fuel : nat) (bt : BTree) (cs : list call) (b : BufferPool D)
    : BufferPool D * (BTree * list answer) :=
  match cs with
  | [] => (b, (bt, []))
  | c :: cs =>
      let '(b, (bt, a)) := perform fuel bt c b in
      let '(b, (bt, rest)) := performs fuel bt cs b in (b, (bt, a :: rest))
  end.

(** The same calls on an association list sorted by key. *)
Definition map_next (es : list entry) (c : call) : list entry :=
  match c with Insert k tid => bt_insert bytes_lt k tid es | _ => es end.

Definition map_answer (es : list entry) (c : call) : answer :=
  match c with
  | Insert _ _ => Inserted (Ok ())
  | Lookup k => Found (Ok (bt_get bytes_lt k es))
  | RangeScan start stop => Scanned (Ok (List.filter (in_range start stop) es))
  end.

Definition map_state (es : list entry) (cs : list call) : list entry := fold_left map_next cs es.

Fixpoint map_answers (es : list entry) (cs : list call) : list answer :=
  match cs with [] => [] | c :: cs => map_answer es c :: map_answers (map_next es c) cs end.

(** A key is inserted once, and is short. *)
Definition call_ok (es : list entry) (c : call) : Prop :=
  match c with Insert k tid => bt_get bytes_lt k es = None /\ short k /\ tid_ok tid | _ => True end.

Fixpoint calls_ok (es : list entry) (cs : list call) : Prop :=
  match cs with [] => True | c :: cs => call_ok es c /\ calls_ok (map_next es c) cs end.

(** What [n] calls may cost in clock ticks and in pages when at most [K] are made. *)
Definition ticks (K n : nat) : N := N.of_nat n * (6 * N.of_nat K + 18).
Definition pages (K n : nat) : N := N.of_nat n * (N.of_nat K + 2).

(** The meta page names the root. *)
Definition is_meta (bs : list N) (root : N) : Prop :=
  len bs = PAGE_SIZE /\ get_u32 bs META_OFF_MAGIC = META_MAGIC /\ get_u64 bs META_OFF_ROOT = root.

Lemma meta_moved bs r root : is_meta bs r -> root < 2 ^ 64 -> is_meta (put_u64 bs META_OFF_ROOT root) root.
Proof.
  intros (Hl & Hm & _) Hr. unfold is_meta, META_OFF_MAGIC, META_OFF_ROOT in *. page_unfold.
  split_and!; [solve_len|read_through; done|read_through]. by apply le_value_le_bytes_small.
Qed.

Lemma meta_fresh bs root : len bs = PAGE_SIZE -> root < 2 ^ 64 ->
  is_meta (put_u64 (put_u32 (put_u64 (put_u32 bs META_OFF_MAGIC META_MAGIC) META_OFF_ROOT root) META_OFF_HEIGHT 0) META_OFF_NENTRIES 0) root.
Proof.
  intros Hl Hr. unfold is_meta, META_OFF_MAGIC, META_OFF_ROOT, META_OFF_HEIGHT, META_OFF_NENTRIES in *. page_unfold.
  split_and!; [solve_len|read_through; by apply le_value_le_bytes_small|read_through; by apply le_value_le_bytes_small].
Qed.

Lemma calls_ok_app es cs cs' : calls_ok es (cs ++ cs') <-> calls_ok es cs /\ calls_ok (map_state es cs) cs'.
Proof.
  revert es. induction cs as [|c cs IH]; intros es; cbn [app calls_ok map_state fold_left]; [tauto|].
  rewrite IH. unfold map_state. tauto.
Qed.

Section Handle.
Context {D : Type} `{PageStoreLaws D}.
Implicit Types b : BufferPool D.
Implicit Types m : gmap N (list N).
Implicit Types hs : list N.

(** The handle [bt] stands for the tree [t]. *)
Record handle m (bt : BTree) hs {h} (t : tree h) : Prop := {
  hn_root : page_of_tree t = root_page_id bt;
  hn_tree : tree_ok m t INVALID_PAGE_ID;
  hn_free : free t hs;
  hn_apart : meta_page_id bt ∉ ids t;
  hn_meta : exists bs, m !! meta_page_id bt = Some bs /\ is_meta bs (root_page_id bt)
}.

Lemma known_bound b m hs q : holding b m hs -> is_Some (m !! q) -> q < 2 ^ 50.
Proof. intros Hh Hq%(hd_dom _ _ _ Hh). apply (allocated_bound (disk b)); [apply Hh|done]. Qed.

Lemma held_known b m hs q : holding b m hs -> q ∈ hs -> is_Some (m !! q).
Proof.
  intros Hh Hq%held_pos. rewrite <- (hd_pins _ _ _ Hh) in Hq. unfold pins in Hq.
  destruct (page_table b !! q) as [g|] eqn:Hg; [|lia]. apply (hd_dom _ _ _ Hh). by eapply (wf_alloc b (hd_wf _ _ _ Hh)).
Qed.

Lemma last_leaf b m hs {h} (t : tree h) nx : holding b m hs -> stored m t nx -> next_free m t hs INVALID_PAGE_ID.
Proof.
  intros Hh Hs. split; [|by left]. intros Hq%(stored_dom m t nx _ Hs). by apply (known_bound b m hs) in Hq.
Qed.

Lemma root_shown m {h} (t : tree h) nx : stored m t nx -> exists v, shows_at m (page_of_tree t) v.
Proof. destruct h; cbn [stored page_of_tree]; [intros Hs|intros [Hs _]]; by eexists. Qed.

Lemma tree_ok_still m m' {h} (t : tree h) nx : (forall q, q ∈ ids t -> still m m' q) -> tree_ok m t nx -> tree_ok m' t nx.
Proof. intros Hst []. split; [by eapply stored_still|done..]. Qed.

(** The tree without a split at its root, *)
Lemma inserted_one m m' {h} (t : tree h) nx k tid t1 : tree_ok m t nx -> inserted m m' t nx k tid t1 None ->
  tree_ok m' t1 nx /\ flat t1 = bt_insert bytes_lt k tid (flat t).
Proof.
  intros Ht [_ _ [Hs _] Hap Hfl Hsp _ _ _ _ _ _ _ _]. unfold all_ids, flats in *. cbn [parts map concat] in *.
  rewrite app_nil_r in *. split; [|done]. split; [done|done| |by apply Forall_cons in Hsp as [? _]].
  rewrite Hfl. apply (bt_insert_sorted bytes_lt), Ht.
Qed.

(** and with the new root above its halves. *)
Lemma inserted_two m m' m2 {h} (t : tree h) nx k tid t1 s t2 p : tree_ok m t nx -> inserted m m' t nx k tid t1 (Some (s, t2)) ->
  m' !! p = None -> shows_at m2 p (VNode (page_of_tree t1) [(s, page_of_tree t2)]) -> still m' m2 (page_of_tree t1) ->
  (forall q, q <> page_of_tree t1 -> q <> p -> m2 !! q = m' !! q) ->
  tree_ok m2 ((p, (t1, [(s, t2)])) : tree (S h)) nx /\
    flat ((p, (t1, [(s, t2)])) : tree (S h)) = bt_insert bytes_lt k tid (flat t).
Proof.
  intros Ht Hin Hp Hsh Hst Hkept. set (t' := (p, (t1, [(s, t2)])) : tree (S h)).
  assert (Hk : kids t' = parts t1 (Some (s, t2))) by done.
  assert (Hne : forall q, q ∈ all_ids (parts t1 (Some (s, t2))) -> q <> p).
  { intros q Hq ->. pose proof (linked_dom m' _ nx p (in_stored _ _ _ _ _ _ _ _ Hin) Hq) as Hd. rewrite Hp in Hd. by destruct Hd. }
  assert (Hfl : flat t' = bt_insert bytes_lt k tid (flat t)) by (rewrite (flat_kids t'), Hk; apply Hin).
  split; [|done]. split.
  - split; [done|]. rewrite Hk. eapply linked_still; [|apply Hin]. intros q Hq.
    destruct (decide (q = page_of_tree t1)) as [->|Hq1]; [done|]. apply still_same, Hkept; [done|by apply Hne].
  - rewrite (ids_node t'), Hk. apply NoDup_cons. split; [|apply Hin]. intros Hq. by apply (Hne p).
  - rewrite Hfl. apply (bt_insert_sorted bytes_lt), Ht.
  - split_and!; [rewrite Hk; apply Hin..|]. constructor; [|constructor]. by apply (in_sep _ _ _ _ _ _ _ _ Hin s t2).
Qed.

Lemma persist_root_ok b m hs bt bs r : holding b m hs -> m !! meta_page_id bt = Some bs -> is_meta bs r -> slack b hs 1 1 ->
  exists b', persist_root bt b = (b', Ok ()) /\
    holding b' (<[meta_page_id bt := put_u64 bs META_OFF_ROOT (root_page_id bt)]> m) hs /\ spent b b' hs 1 0.
Proof.
  intros Hh Hm Hmeta (Hf & Hl & Hk). destruct (fetch_held b m hs _ bs Hh Hm) as (b1 & f & He1 & Hh1 & Ht1 & Ha1 & _); [lia..|].
  destruct (on_page_held b1 m _ _ f bs (fun pg => Ok (from_bytes (put_u64 (as_bytes pg) META_OFF_ROOT (root_page_id bt)))) _ Hh1
    ltac:(left) Ht1 Hm eq_refl) as (b2 & He2 & Hh2 & Ht2 & Ha2).
  { destruct Hmeta as [Hl0 _]. change (len (put_u64 bs 4 (root_page_id bt)) = PAGE_SIZE). unfold put_u64. change PAGE_SIZE with 8192 in *. solve_len. }
  destruct (unpin_held b2 _ hs _ Hh2) as (b3 & He3 & Hh3 & Ha3). exists b3. split_and!; [|done|].
  - unfold persist_root. by rewrite (bind_pool _ _ _ _ _ He1), (bind_pool _ _ _ _ _ He2).
  - apply (spent_le _ _ _ (1 + (0 + 0)) _ (0 + (0 + 0))); [|lia..]. eapply spent_trans; [by eapply spent_after|].
    eapply spent_trans; eapply spent_after; [exact Ha2|set_solver|exact Ha3|set_solver].
Qed.

(** *** One call *)

Record insert_done m m' bt bt' hs {h} (t : tree h) {h'} (t' : tree h') k tid : Prop := {
  id_handle : handle m' bt' hs t';
  id_meta : meta_page_id bt' = meta_page_id bt;
  id_flat : flat t' = bt_insert bytes_lt k tid (flat t);
  id_height : (h' <= S h)%nat;
  id_leaves : (length (leaves t') <= S (length (leaves t)))%nat;
  id_ids : forall q, q ∈ ids t' -> q ∈ ids t \/ m !! q = None;
  id_dom : forall q, is_Some (m !! q) -> is_Some (m' !! q);
  id_kept : forall q, q ∉ ids t -> q <> meta_page_id bt -> is_Some (m !! q) -> m' !! q = m !! q
}.

Lemma new_free b m hs {h h'} (t : tree h) (t' : tree h') : holding b m hs -> free t hs ->
  (forall q, q ∈ ids t' -> q ∈ ids t \/ m !! q = None) -> free t' hs.
Proof.
  intros Hh Hf Hids q Hq Hin. destruct (Hids q Hq) as [Ho|Hn]; [by apply (Hf q)|].
  apply (held_known b m hs q Hh) in Hin. rewrite Hn in Hin. by destruct Hin.
Qed.

Lemma kept_in_place b m m' hs bt {h} (t : tree h) k tid t1 : holding b m hs -> handle m bt hs t ->
  inserted m m' t INVALID_PAGE_ID k tid t1 None -> insert_done m m' bt bt hs t t1 k tid.
Proof.
  intros Hh [Hr Ht Hf Hap (bs & Hm & Hmeta)] Hin. destruct (inserted_one m m' t _ k tid t1 Ht Hin) as [Ht1 Hfl].
  pose proof (in_ids _ _ _ _ _ _ _ _ Hin) as Hids. pose proof (in_leaves _ _ _ _ _ _ _ _ Hin) as Hlv.
  unfold all_ids, all_leaves in *. cbn [parts map concat] in *. rewrite app_nil_r in *.
  assert (Hne : forall q, is_Some (m !! q) -> q <> INVALID_PAGE_ID) by (intros q Hq ->; by apply (known_bound b m hs) in Hq).
  assert (Hmeta' : m' !! meta_page_id bt = m !! meta_page_id bt).
  { apply (in_kept _ _ _ _ _ _ _ _ Hin); [done|by eexists|]. apply Hne. by eexists. }
  split; try done; [|lia|apply (in_dom _ _ _ _ _ _ _ _ Hin)|].
  - split; [by rewrite (in_page _ _ _ _ _ _ _ _ Hin)|done|by eapply new_free| |exists bs; by rewrite Hmeta'].
    intros [Hq|Hq]%Hids; [done|congruence].
  - intros q Hq _ Hd. apply (in_kept _ _ _ _ _ _ _ _ Hin); [done|done|by apply Hne].
Qed.

Lemma kept_grown b m m' m2 hs bt {h} (t : tree h) k tid t1 s t2 p bs : holding b m hs -> handle m bt hs t ->
  inserted m m' t INVALID_PAGE_ID k tid t1 (Some (s, t2)) -> m' !! p = None -> p < 2 ^ 50 ->
  shows_at m2 p (VNode (page_of_tree t1) [(s, page_of_tree t2)]) -> still m' m2 (page_of_tree t1) ->
  (forall q, q <> page_of_tree t1 -> q <> p -> m2 !! q = m' !! q) -> m2 !! meta_page_id bt = Some bs -> is_meta bs (root_page_id bt) ->
  insert_done m (<[meta_page_id bt := put_u64 bs META_OFF_ROOT p]> m2) bt (mkBTree (meta_page_id bt) p) hs t
    ((p, (t1, [(s, t2)])) : tree (S h)) k tid.
Proof.
  intros Hh [Hr Ht Hf Hap (bs0 & Hm & _)] Hin Hp Hpb Hsh Hst Hkept Hm2 Hmeta.
  destruct (inserted_two m m' m2 t _ k tid t1 s t2 p Ht Hin Hp Hsh Hst Hkept) as [Ht' Hfl].
  set (t' := (p, (t1, [(s, t2)])) : tree (S h)) in *. set (md := meta_page_id bt) in *.
  assert (Hpm : m !! p = None) by (apply eq_None_not_Some; intros Hq%(in_dom _ _ _ _ _ _ _ _ Hin); rewrite Hp in Hq; by destruct Hq).
  assert (Hids : forall q, q ∈ ids t' -> q ∈ ids t \/ m !! q = None).
  { intros q. rewrite (ids_node t'). intros [->|Hq]%elem_of_cons; [by right|]. by apply (in_ids _ _ _ _ _ _ _ _ Hin). }
  assert (Hmd : md ∉ ids t') by (intros [Hq|Hq]%Hids; [done|congruence]).
  split; try done.
  - split; [done| |by eapply new_free|done|].
    + eapply tree_ok_still; [|exact Ht']. intros q Hq. apply still_same, lookup_insert_ne. intros ->. done.
    + eexists. cbn [meta_page_id root_page_id]. rewrite lookup_insert_eq. split; [done|]. eapply meta_moved; [done|]. lia.
  - rewrite (leaves_node t'). apply (in_leaves _ _ _ _ _ _ _ _ Hin).
  - intros q Hq%(in_dom _ _ _ _ _ _ _ _ Hin). apply lookup_insert_is_Some. destruct (decide (md = q)) as [|Hmq]; [by left|right].
    split; [done|]. destruct (decide (q = page_of_tree t1)) as [->|Hq1]; [destruct Hq as [x Hx]; destruct (Hst x Hx) as (? & ? & _); by eexists|].
    rewrite Hkept; [done|done|]. intros ->. rewrite Hp in Hq. by destruct Hq.
  - intros q Hq Hne Hd. rewrite lookup_insert_ne by done. rewrite Hkept.
    + apply (in_kept _ _ _ _ _ _ _ _ Hin); [done|done|]. intros ->. by apply (known_bound b m hs) in Hd.
    + intros ->. apply Hq. rewrite (in_page _ _ _ _ _ _ _ _ Hin). apply page_in_ids.
    + intros ->. rewrite Hpm in Hd. by destruct Hd.
Qed.

Lemma insert_ok b m hs bt {h} (t : tree h) fuel k tid n : holding b m hs -> handle m bt hs t -> (h < fuel)%nat ->
  bt_get bytes_lt k (flat t) = None -> short k -> tid_ok tid ->
  slack b hs 2 (6 * (2 + N.of_nat h)) -> room (disk b) (n + (2 + N.of_nat h)) ->
  exists b' m' bt' h' (t' : tree h'), insert fuel bt k tid b = (b', (bt', Ok ())) /\ holding b' m' hs /\
    spent b b' hs (6 * (2 + N.of_nat h)) (2 + N.of_nat h) /\ insert_done m m' bt bt' hs t t' k tid.
Proof.
  intros Hh Hi Hfuel Hg Hk Htid Hs Hroom. pose proof Hi as [Hr Ht Hf Hap (bs & Hm & Hmeta)].
  destruct (insert_recursive_ok t fuel b m hs k tid INVALID_PAGE_ID (n + 1)) as (b1 & m1 & t1 & o & He1 & Hh1 & Hsp1 & Hin); try done.
  { eapply last_leaf; [exact Hh|apply Ht]. }
  { eapply slack_le; [exact Hs|lia]. }
  { eapply room_le; [|exact Hroom]. lia. }
  unfold insert. rewrite <- Hr, He1. destruct o as [[s t2]|]; cbn [fmap option_fmap option_map].
  2:{ exists b1, m1, bt, h, t1. split_and!; [done|done| |by eapply kept_in_place].
      apply (spent_le _ _ _ (5 * (1 + N.of_nat h)) _ (1 + N.of_nat h)); [done|lia..]. }
  assert (Hpg : page_of_tree t1 = page_of_tree t) by apply (in_page _ _ _ _ _ _ _ _ Hin).
  pose proof (in_stored _ _ _ _ _ _ _ _ Hin) as [Hst1 _]. destruct (root_shown m1 t1 _ Hst1) as [v Hv].
  assert (Hpd : is_Some (m1 !! page_of_tree t)) by (rewrite <- Hpg; destruct Hv as (? & ? & _); by eexists).
  rewrite <- Hpg in *. destruct (in_sep _ _ _ _ _ _ _ _ Hin s t2 eq_refl) as [_ Hsh]. clear Hg.
  destruct (grow_root_ok b1 m1 hs (page_of_tree t1) v s (page_of_tree t2) n) as (b2 & m2 & p & He2 & Hh2 & Hsp2 & Hp & Hpb & Hsh2 & Hst2 & Hkept);
    try done.
  { apply Hf. rewrite Hpg. apply page_in_ids. }
  { by apply (in_bound _ _ _ _ _ _ _ _ Hin s t2). }
  { apply (known_bound b1 m1 hs _ Hh1) in Hpd. lia. }
  { eapply slack_spent; [eapply slack_le; [exact Hs|]|exact Hsp1]. lia. }
  { apply (sp_room _ _ _ _ _ Hsp1). eapply room_le; [|exact Hroom]. lia. }
  assert (Hm2 : m2 !! meta_page_id bt = Some bs).
  { assert (Hm1 : m1 !! meta_page_id bt = Some bs).
    { rewrite (in_kept _ _ _ _ _ _ _ _ Hin); [done|done|by eexists|]. intros E. assert (Hq : is_Some (m !! meta_page_id bt)) by by eexists.
      apply (known_bound b m hs _ Hh) in Hq. rewrite E in Hq. done. }
    rewrite Hkept; [done| |congruence]. intros E. apply Hap. rewrite E, Hpg. apply page_in_ids. }
  assert (Hsp12 : spent b b2 hs (5 * (1 + N.of_nat h) + 3) (1 + N.of_nat h + 1)) by (by eapply spent_trans).
  destruct (persist_root_ok b2 m2 hs (mkBTree (meta_page_id bt) p) bs (root_page_id bt) Hh2 Hm2 Hmeta) as (b3 & He3 & Hh3 & Hsp3).
  { eapply slack_spent; [|exact Hsp12]. destruct Hs as (? & ? & ?). split_and!; [lia|done|lia]. }
  cbn [fst snd]. rewrite He2, He3. exists b3, (<[meta_page_id bt := put_u64 bs META_OFF_ROOT p]> m2), (mkBTree (meta_page_id bt) p), (S h), ((p, (t1, [(s, t2)])) : tree (S h)). split_and!; [done|done| |by eapply kept_grown].
  apply (spent_le _ _ _ (5 * (1 + N.of_nat h) + 3 + 1) _ (1 + N.of_nat h + 1 + 0)); [by eapply spent_trans|lia..].
Qed.

Lemma lookup_ok b m hs bt {h} (t : tree h) fuel k : holding b m hs -> handle m bt hs t -> (h < fuel)%nat ->
  slack b hs 1 (1 + N.of_nat h) ->
  exists b', lookup fuel bt k b = (b', Ok (bt_get bytes_lt k (flat t))) /\ holding b' m hs /\ after b b' hs (1 + N.of_nat h).
Proof. intros Hh [Hr Ht Hf _ _] Hfuel Hs. unfold lookup. rewrite <- Hr. by eapply lookup_from_ok. Qed.

Lemma range_scan_ok b m hs bt {h} (t : tree h) fuel start stop : holding b m hs -> handle m bt hs t -> (h < fuel)%nat ->
  (length (leaves t) <= fuel)%nat -> slack b hs 1 (1 + N.of_nat h + len (leaves t)) ->
  exists b', range_scan fuel bt start stop b = (b', Ok (List.filter (in_range start stop) (flat t))) /\ holding b' m hs /\
    after b b' hs (1 + N.of_nat h + len (leaves t)).
Proof.
  intros Hh [Hr Ht Hf _ _] Hfuel Hlv Hs. unfold range_scan. rewrite <- Hr.
  destruct (find_leaf_ok t fuel b m hs start INVALID_PAGE_ID Hh Ht Hf Hfuel) as (b1 & p & l & es & r & He1 & Hh1 & Ha1 & El & Hlow).
  { eapply slack_le; [exact Hs|lia]. }
  pose proof (stored_leaves m t _ (to_stored _ _ _ Ht)) as Hst. rewrite El in Hst. apply linked_app in Hst as [_ Hst].
  assert (Hn : len (leaves t) = len l + (1 + len r)) by (rewrite El, len_app, len_cons; done).
  destruct (scan_from_ok r fuel b1 m hs p es start stop Hh1 Hst) as (b2 & He2 & Hh2 & Ha2).
  { intros q Hq. apply Hf, leaves_in_ids. rewrite El, map_app. apply elem_of_app. by right. }
  { rewrite El, length_app in Hlv. cbn in Hlv. lia. }
  { eapply slack_after; [|exact Ha1]. eapply slack_le; [exact Hs|lia]. }
  exists b2. rewrite (bind_pool _ _ _ _ _ He1), He2. split_and!; [|done|eapply after_weaken; [by eapply after_trans|lia]].
  do 2 f_equal. rewrite <- (scan_list_filter start stop) by apply Ht. unfold flat. rewrite El, map_app, concat_app.
  by rewrite (scan_list_skip start stop _ _ Hlow).
Qed.

Lemma spent_sub b b' hs hs' k n : spent b b' hs' k n -> hs ⊆ hs' -> spent b b' hs k n.
Proof. intros [] Hs. split; [done|done|done|auto]. Qed.

Lemma create_tree_ok b m hs n : holding b m hs -> slack b hs 2 3 -> room (disk b) (n + 2) -> len hs < 2 ^ 30 - 1 ->
  exists b' m' meta root, create b = (b', Ok (mkBTree meta root)) /\ holding b' m' (meta :: hs) /\
    spent b b' hs 3 2 /\ handle m' (mkBTree meta root) (meta :: hs) ((root, []) : tree 0) /\ m !! meta = None /\ m !! root = None /\
    forall q, is_Some (m !! q) -> m' !! q = m !! q.
Proof.
  intros Hh (Hf & Hl & Hk) Hroom Hlen.
  destruct (take_page b m hs (n + 1) 2 Hh) as (b1 & meta & f1 & bs1 & He1 & Hs1 & Hb1 & Hh1 & Ht1 & Hm1 & Hq1 & Hn1 & Hsp1).
  { split_and!; [lia|done|lia]. } { eapply room_le; [|exact Hroom]. lia. }
  destruct (take_page b1 _ (meta :: hs) n 1 Hh1) as (b2 & root & f2 & bs2 & He2 & Hs2 & Hb2 & Hh2 & Ht2 & Hm2 & Hq2 & Hn2 & Hsp2).
  { destruct Hsp1 as [Hc Hfr _ _]. split_and!; [cbn; lia|rewrite len_cons; lia|lia]. } { apply (sp_room _ _ _ _ _ Hsp1). eapply room_le; [|exact Hroom]. lia. }
  assert (Hne : root <> meta) by (intros ->; by rewrite lookup_insert_eq in Hm2). rewrite lookup_insert_ne in Hm2 by done.
  destruct (edit_node b2 _ (root :: meta :: hs) root f2 bs2 (fun pg => Ok (init_btree_page pg true true)) [] (init_flags true true) INVALID_PAGE_ID INVALID_PAGE_ID
    Hh2 ltac:(left) Ht2 (lookup_insert_eq _ _ _)) as (b3 & bs3 & He3 & Hh3 & Ht3 & Ha3 & Hnd).
  { eexists. split; [done|]. by apply node_init. }
  rewrite insert_insert_eq in Hh3. destruct (unpin_held b3 _ _ root Hh3) as (b4 & He4 & Hh4 & Ha4).
  assert (Hsp4 : spent b b4 hs (1 + (1 + (0 + 0))) (1 + (1 + (0 + 0)))).
  { eapply spent_trans; [exact Hsp1|]. eapply spent_trans; [apply (spent_sub _ _ hs (meta :: hs)); [exact Hsp2|set_solver]|].
    eapply spent_trans; eapply spent_after; [exact Ha3|set_solver|exact Ha4|set_solver]. }
  assert (Hmt : <[root:=bs3]> (<[meta:=bs1]> m) !! meta = Some bs1) by (rewrite lookup_insert_ne, lookup_insert_eq by done; done).
  destruct (fetch_held b4 _ (meta :: hs) meta bs1 Hh4 Hmt) as (b5 & f5 & He5 & Hh5 & Ht5 & Ha5 & _).
  { destruct Hsp4 as [_ Hfr _ _]. cbn. lia. } { rewrite len_cons. lia. } { destruct Hsp4 as [Hc _ _ _]. lia. }
  destruct (on_page_held b5 _ _ meta f5 bs1 (fun pg => Ok (from_bytes (put_u64 (put_u32 (put_u64 (put_u32 (as_bytes pg) META_OFF_MAGIC META_MAGIC)
    META_OFF_ROOT root) META_OFF_HEIGHT 0) META_OFF_NENTRIES 0))) _ Hh5 ltac:(left) Ht5 Hmt eq_refl) as (b6 & He6 & Hh6 & Ht6 & Ha6).
  { apply (meta_fresh bs1 root Hs1). lia. }
  destruct (unpin_held b6 _ _ meta Hh6) as (b7 & He7 & Hh7 & Ha7).
  exists b7. eexists. exists meta, root. split_and!; [|exact Hh7| | |done|done|].
  - unfold create. rewrite (bind_pool _ _ _ _ _ He1), (bind_pool _ _ _ _ _ He2), (bind_pool _ _ _ _ _ He3), (bind_pool _ _ _ _ _ He4).
    by rewrite (bind_pool _ _ _ _ _ He5), (bind_pool _ _ _ _ _ He6), (bind_pool _ _ _ _ _ He7).
  - apply (spent_le _ _ _ (1 + (1 + (0 + 0)) + (1 + (0 + 0))) _ (1 + (1 + (0 + 0)) + (0 + (0 + 0)))); [|lia..].
    eapply spent_trans; [exact Hsp4|]. eapply spent_trans; [eapply spent_after; [exact Ha5|set_solver]|].
    eapply spent_trans; eapply spent_after; [exact Ha6|set_solver|exact Ha7|set_solver].
  - split; cbn [page_of_tree meta_page_id root_page_id fst].
    + done.
    + split; [|apply NoDup_singleton|constructor|done]. exists bs3. cbn [fst]. rewrite lookup_insert_ne, lookup_insert_eq by done.
      split; [done|]. by eapply (shows_leaf bs3 [] _ _ _ Hnd).
    + intros q Hq%list_elem_of_singleton. cbn in Hq. by subst.
    + intros Hq%list_elem_of_singleton. cbn in Hq. congruence.
    + eexists. rewrite lookup_insert_eq. split; [done|]. apply meta_fresh; [done|]. lia.
  - intros q [x Hq]. rewrite !lookup_insert_ne by congruence. done.
Qed.

Lemma open_ok b m hs bt bs : holding b m hs -> m !! meta_page_id bt = Some bs -> is_meta bs (root_page_id bt) ->
  meta_page_id bt ∉ hs -> slack b hs 1 1 ->
  exists b', open (meta_page_id bt) b = (b', Ok bt) /\ holding b' m hs /\ after b b' hs 1.
Proof.
  intros Hh Hm (_ & Hmg & Hr) Hn Hs. destruct (visit_held b m hs _ bs 0 0 Hh Hm Hn Hs) as (b1 & b2 & f & He & Hpg & Hu & Hh2 & Ha).
  exists b2. split; [|done]. unfold open. rewrite (bind_pool _ _ _ _ _ He), (bind_pool _ _ _ _ _ Hpg).
  change (as_bytes (from_bytes bs)) with bs. rewrite Hmg, N.eqb_refl, Hr. cbn [negb]. rewrite (bind_pool _ _ _ _ _ Hu). by destruct bt.
Qed.

(** *** Many calls *)

Record calls_done m m' bt bt' hs {h} (t : tree h) {h'} (t' : tree h') es n : Prop := {
  cd_handle : handle m' bt' hs t';
  cd_meta : meta_page_id bt' = meta_page_id bt;
  cd_flat : flat t' = es;
  cd_height : (h' <= n + h)%nat;
  cd_leaves : (length (leaves t') <= n + length (leaves t))%nat;
  cd_ids : forall q, q ∈ ids t' -> q ∈ ids t \/ m !! q = None;
  cd_dom : forall q, is_Some (m !! q) -> is_Some (m' !! q);
  cd_kept : forall q, q ∉ ids t -> q <> meta_page_id bt -> is_Some (m !! q) -> m' !! q = m !! q
}.

Lemma perform_ok b m hs bt {h} (t : tree h) fuel K n c : holding b m hs -> handle m bt hs t -> call_ok (flat t) c ->
  (h < K)%nat -> (length (leaves t) <= K)%nat -> (K <= fuel)%nat -> slack b hs 2 (ticks K (S n)) -> room (disk b) (pages K (S n)) ->
  exists b' m' bt' h' (t' : tree h'), perform fuel bt c b = (b', (bt', map_answer (flat t) c)) /\ holding b' m' hs /\
    slack b' hs 2 (ticks K n) /\ room (disk b') (pages K n) /\ calls_done m m' bt bt' hs t t' (map_next (flat t) c) 1.
Proof.
  intros Hh Hi Hc Hk Hlv Hfuel Hs Hroom.
  assert (Ht : ticks K (S n) = 6 * N.of_nat K + 18 + ticks K n) by (unfold ticks; lia).
  assert (Hp : pages K (S n) = pages K n + (N.of_nat K + 2)) by (unfold pages; lia). rewrite Ht in Hs. rewrite Hp in Hroom.
  assert (Hread : forall b' a k, perform fuel bt c b = (b', (bt, a)) -> a = map_answer (flat t) c -> map_next (flat t) c = flat t ->
    holding b' m hs -> after b b' hs k -> k <= 6 * N.of_nat K + 18 -> exists b' m' bt' h' (t' : tree h'),
    perform fuel bt c b = (b', (bt', map_answer (flat t) c)) /\ holding b' m' hs /\ slack b' hs 2 (ticks K n) /\ room (disk b') (pages K n) /\
    calls_done m m' bt bt' hs t t' (map_next (flat t) c) 1).
  { intros b' a k He -> Hn Hh' Ha Hle. exists b', m, bt, h, t. split_and!; [done|done| | |].
    - eapply slack_after; [eapply slack_le; [exact Hs|]|exact Ha]. lia.
    - apply (af_room _ _ _ _ Ha). eapply room_le; [|exact Hroom]. lia.
    - rewrite Hn. split; try done; [lia|lia|auto]. }
  destruct c as [k tid|k|start stop]; cbn [perform].
  - destruct Hc as (Hg & Hsh & Htid). destruct (insert_ok b m hs bt t fuel k tid (pages K n) Hh Hi) as (b' & m' & bt' & h' & t' & He & Hh' & Hsp & Hd);
      try done; [lia|eapply slack_le; [exact Hs|lia]|eapply room_le; [|exact Hroom]; lia|].
    exists b', m', bt', h', t'. rewrite He. split_and!; [done|done| | |].
    + eapply slack_spent; [eapply slack_le; [exact Hs|]|exact Hsp]. lia.
    + apply (sp_room _ _ _ _ _ Hsp). eapply room_le; [|exact Hroom]. lia.
    + destruct Hd. by split.
  - destruct (lookup_ok b m hs bt t fuel k Hh Hi) as (b' & He & Hh' & Ha); [lia|destruct Hs as (? & ? & ?); split_and!; [lia|done|lia]|].
    eapply (Hread b' _ _); [cbn [perform]; by rewrite He|done|done|done|exact Ha|lia].
  - destruct (range_scan_ok b m hs bt t fuel start stop Hh Hi) as (b' & He & Hh' & Ha);
      [lia|lia|destruct Hs as (? & ? & ?); split_and!; [lia|done|unfold len; lia]|].
    eapply (Hread b' _ _); [cbn [perform]; by rewrite He|done|done|done|exact Ha|unfold len; lia].
Qed.

Lemma performs_ok cs b m hs bt {h} (t : tree h) fuel K : holding b m hs -> handle m bt hs t -> calls_ok (flat t) cs ->
  (h + length cs <= K)%nat -> (length (leaves t) + length cs <= S K)%nat -> (K <= fuel)%nat ->
  slack b hs 2 (ticks K (length cs)) -> room (disk b) (pages K (length cs)) ->
  exists b' m' bt' h' (t' : tree h'), performs fuel bt cs b = (b', (bt', map_answers (flat t) cs)) /\ holding b' m' hs /\
    calls_done m m' bt bt' hs t t' (map_state (flat t) cs) (length cs).
Proof.
  revert b m bt h t. induction cs as [|c cs IH]; intros b m bt h t Hh Hi Hc Hk Hlv Hfuel Hs Hroom; cbn [length] in *.
  - exists b, m, bt, h, t. split_and!; [done|done|]. split; try done. auto.
  - destruct Hc as [Hc Hcs]. destruct (perform_ok b m hs bt t fuel K (length cs) c) as (b1 & m1 & bt1 & h1 & t1 & He1 & Hh1 & Hs1 & Hr1 & Hd1);
      try done; [lia|lia|].
    pose proof (cd_height _ _ _ _ _ _ _ _ _ Hd1). pose proof (cd_leaves _ _ _ _ _ _ _ _ _ Hd1).
    destruct (IH b1 m1 bt1 h1 t1) as (b2 & m2 & bt2 & h2 & t2 & He2 & Hh2 & Hd2); try done; [apply Hd1|by rewrite (cd_flat _ _ _ _ _ _ _ _ _ Hd1)|lia|lia|].
    rewrite (cd_flat _ _ _ _ _ _ _ _ _ Hd1) in *. exists b2, m2, bt2, h2, t2. cbn [performs]. rewrite He1, He2. split_and!; [done|done|].
    assert (Hdom : forall q, q ∉ ids t -> q <> meta_page_id bt -> is_Some (m !! q) -> (q ∉ ids t1) /\ m1 !! q = m !! q).
    { intros q Hq Hne Hd. split; [|by apply (cd_kept _ _ _ _ _ _ _ _ _ Hd1)].
      intros [?|Hn]%(cd_ids _ _ _ _ _ _ _ _ _ Hd1); [done|]. rewrite Hn in Hd. by destruct Hd. }
    destruct Hd1 as [Hh1' Hm1 _ Hht1 Hl1 Hi1 Ho1 Hk1], Hd2 as [Hh2' Hm2 Hf2 Hht2 Hl2 Hi2 Ho2 Hk2]. split; [done|congruence|done|lia|lia| |auto|].
    + intros q [Hq|Hq]%Hi2; [by apply Hi1|]. destruct (m !! q) eqn:E; [|by right].
      destruct (Ho1 q) as [x Hx]; [by eexists|congruence].
    + intros q Hq Hne Hd. destruct (Hdom q Hq Hne Hd) as [Hq1 E]. rewrite Hk2; [done|done|congruence|by rewrite E].
Qed.

End Handle.

(** C3: A new tree answers as the association list, and so does the tree reopened from
    its pages in another pool, with whatever other pages the pool presents left
    alone.  The calls are lookups, range scans and inserts, where each key is inserted
    at most once and has at most 200 bytes, with a tuple id of the widths of the page
    format; longer keys and equal keys are outside, and
    [failed_split_loses_entries] and [duplicates_missed_by_scan] show why.  Each pool
    has at least three frames, the disk has room for the pages the calls may take and
    the clock for their ticks ([pages] and [ticks] bound both from the number of
    calls), and the recursion depth allowed exceeds the number of calls, which bounds the
    height. *)
Theorem btree_implements_map {D} `{PageStoreLaws D} (fuel : nat) (b : BufferPool D) m cs cs' :
  represents b m -> (3 <= length (frames b))%nat -> calls_ok [] (cs ++ cs') -> (length (cs ++ cs') < fuel)%nat ->
  room (disk b) (pages (S (length (cs ++ cs'))) (length cs) + 2) ->
  clock b + (3 + ticks (S (length (cs ++ cs'))) (length cs)) < 2 ^ 64 ->
  exists b1 bt b2 m2 bt2, create b = (b1, Ok bt) /\
    performs fuel bt cs b1 = (b2, (bt2, map_answers [] cs)) /\
    holding b2 m2 [meta_page_id bt] /\ (forall p bs, m !! p = Some bs -> m2 !! p = Some bs) /\
    forall b3, represents b3 m2 -> (3 <= length (frames b3))%nat -> room (disk b3) (pages (S (length (cs ++ cs'))) (length cs')) ->
      clock b3 + (1 + ticks (S (length (cs ++ cs'))) (length cs')) < 2 ^ 64 ->
      exists b4 b5 bt5, open (meta_page_id bt) b3 = (b4, Ok bt2) /\
        performs fuel bt2 cs' b4 = (b5, (bt5, map_answers (map_state [] cs) cs')).
Proof.
  intros Hr Hf Hc Hfuel Hroom Hclk. rewrite length_app in *. remember (S (length cs + length cs')) as K eqn:HK. rewrite calls_ok_app in Hc. destruct Hc as [Hc Hc'].
  destruct (create_tree_ok b m [] (pages K (length cs)) (idle_holding b m Hr)) as (b1 & m1 & meta & root & He1 & Hh1 & Hsp1 & Hi1 & Hm & Hrt & Hkept);
    [split_and!; [cbn; lia|done|lia]|done|done|].
  destruct (performs_ok cs b1 m1 [meta] (mkBTree meta root) ((root, []) : tree 0) fuel K Hh1 Hi1) as (b2 & m2 & bt2 & h2 & t2 & He2 & Hh2 & Hd);
    try done.
  { lia. } { cbn. lia. } { lia. }
  { destruct Hsp1 as [Hck Hfr _ _]. split_and!; [cbn; lia|done|lia]. } { by apply (sp_room _ _ _ _ _ Hsp1). }
  exists b1, (mkBTree meta root), b2, m2, bt2. split_and!; [done|done|done| |].
  - intros p bs Hp. assert (E : m1 !! p = m !! p) by (apply Hkept; by eexists).
    rewrite (cd_kept _ _ _ _ _ _ _ _ _ Hd p), E; [done| |cbn; congruence|rewrite E; by eexists].
    intros Hq%list_elem_of_singleton. cbn in Hq. congruence.
  - intros b3 Hr3 Hf3 Hroom3 Hclk3. pose proof (cd_handle _ _ _ _ _ _ _ _ _ Hd) as Hi2. pose proof (cd_meta _ _ _ _ _ _ _ _ _ Hd) as Hmt.
    destruct (hn_meta _ _ _ _ Hi2) as (bs & Hbs & Hmeta).
    destruct (open_ok b3 m2 [] bt2 bs (idle_holding b3 m2 Hr3) Hbs Hmeta) as (b4 & He4 & Hh4 & Ha4).
    { by apply not_elem_of_nil. } { split_and!; [cbn; lia|done|lia]. }
    destruct (performs_ok cs' b4 m2 [] bt2 t2 fuel K Hh4) as (b5 & m5 & bt5 & h5 & t5 & He5 & _).
    { destruct Hi2 as [? ? _ ? ?]. split; try done. by intros q _ ?%elem_of_nil. }
    { by rewrite (cd_flat _ _ _ _ _ _ _ _ _ Hd). }
    { pose proof (cd_height _ _ _ _ _ _ _ _ _ Hd). lia. }
    { pose proof (cd_leaves _ _ _ _ _ _ _ _ _ Hd) as Hl. cbn in Hl. lia. }
    { lia. }
    { destruct Ha4 as [Hck Hfr _ _]. split_and!; [cbn; lia|done|lia]. }
    { by apply (af_room _ _ _ _ Ha4). }
    exists b4, b5, bt5. rewrite (cd_flat _ _ _ _ _ _ _ _ _ Hd) in He5. cbn in Hmt. by rewrite <- Hmt.
Qed.

Definition sample_calls : list call :=
  [Insert [2] (Heap.mkTid 7 1); Insert [1; 9] (Heap.mkTid 8 2); Lookup [2]; RangeScan [1] (Some [2])].

Lemma btree_implements_map_witness : exists b1 bt b2 bt2, create (new 3 Disk.create) = (b1, Ok bt) /\
  performs 6 bt sample_calls b1 =
    (b2, (bt2, [Inserted (Ok ()); Inserted (Ok ()); Found (Ok (Some (Heap.mkTid 7 1))); Scanned (Ok [([1; 9], Heap.mkTid 8 2)])])).
Proof.
  destruct (btree_implements_map 6 (new 3 Disk.create) ∅ sample_calls [Lookup [1; 9]]) as (b1 & bt & b2 & m2 & bt2 & He1 & He2 & _).
  - by apply pool_over_new_file.
  - done.
  - repeat (done || split || constructor).
  - cbn. lia.
  - by vm_compute.
  - by vm_compute.
  - exists b1, bt, b2, bt2. split; [exact He1|exact He2].
Defined.

(** ** Outside the refinement *)

(** The answers of the calls on a new tree over a new file. *)
Definition session (cs : list call) : result (list answer) :=
  match create (new 5 Disk.create) with
  | (b, Ok bt) => Ok (performs 9 bt cs b).2.2
  | (_, Err e) => Err e
  | (_, Panic) => Panic
  end.

Definition wide (c : N) (n : nat) : key := c :: replicate n 0.

Definition five_times (k : key) : list call := map (fun i => Insert k (Heap.mkTid 1 i)) [0; 1; 2; 3; 4].

(** A key inserted five times is found three times: the leaf splits between equal
    keys, and the scan starts right of the separator. *)
Theorem duplicates_missed_by_scan :
  session (five_times (wide 7 2000) ++ [RangeScan (wide 7 2000) None]) =
  Ok (replicate 5 (Inserted (Ok ())) ++ [Scanned (Ok (map (fun i => (wide 7 2000, Heap.mkTid 1 i)) [2; 3; 4]))]).
Proof. vm_compute. reflexivity. Qed.

(** Six short keys and three long ones. *)
Definition uneven : list call :=
  map (fun i => Insert [1; i] (Heap.mkTid 1 i)) [0; 1; 2; 3; 4; 5] ++
  [Insert (wide 2 3900) (Heap.mkTid 2 0); Insert (wide 3 3900) (Heap.mkTid 2 1); Lookup (wide 3 3900);
   Insert (wide 4 3900) (Heap.mkTid 2 2); Lookup (wide 3 3900)].

(** With keys of different lengths an insertion can fail and lose stored entries: the
    halves of a split leaf are equal in number and not in size, so the right half
    overflows its page after the left one has been cut.  The key found before the
    failed insertion is gone after it. *)
Theorem failed_split_loses_entries :
  session uneven = Ok (replicate 8 (Inserted (Ok ())) ++
    [Found (Ok (Some (Heap.mkTid 2 1))); Inserted (Err (InsufficientSpace 3917 246)); Found (Ok None)]).
Proof. vm_compute. reflexivity. Qed.

End BTreeIndex.
