(* ===== verification/StorageGin.v ===== *)
(** * The inverted index

    Models [crates/storage/src/gin.rs]: posting lists by token, the tokens of a
    JSON document and of a text, and the file format.  A posting list is kept in
    the order of tuple identifiers; a document's tokens go into a [HashSet] whose
    order does not matter ([insert_perm]).

    [gin_finds_contained] is what makes an index scan for [@>] return all that a
    sequential scan returns, on documents that are objects; [gin_misses_contained]
    shows a document it does not find. *)

From Stdlib Require Import Ascii String.
From stdpp Require Import sorting.
From S2P Require Import Prelude Bytes ByteOrder BTreeMap Strings Float64 StorageJsonb StorageJsonText.
From S2P Require Import StorageHeap.

Module Gin.
Import Heap.

#[global] Instance TupleId_eq_dec : EqDecision TupleId.
Proof. solve_decision. Defined.

Abbreviation Token := (list N).

Record GinIndex : Type := mkGin { entries : list (Token * list TupleId) }.

Definition new : GinIndex := mkGin [].

(** [(t.page_id, t.slot_id) < (u.page_id, u.slot_id)]. *)
Definition tid_lt (t u : TupleId) : bool :=
  (page_id t <? page_id u) || ((page_id t =? page_id u) && (slot_id t <? slot_id u)).

(** A posting list with one more identifier, in order. *)
Definition insert_posting (tid : TupleId) (l : list TupleId) : list TupleId :=
  let pos := partition_point (fun t => tid_lt t tid) l in
  if match l !! pos with
     | None => true
     | Some t => negb (page_id t =? page_id tid) || negb (slot_id t =? slot_id tid)
     end
  then take pos l ++ tid :: drop pos l
  else l.

Definition get (token : Token) (e : list (Token * list TupleId)) : list TupleId :=
  default [] (bt_get bytes_lt token e).

Definition insert_token (tid : TupleId) (e : list (Token * list TupleId)) (token : Token)
    : list (Token * list TupleId) :=
  bt_insert bytes_lt token (insert_posting tid (get token e)) e.

(** [insert], in one of the orders the set may be walked in. *)
Definition insert (g : GinIndex) (tid : TupleId) (tokens : list Token) : GinIndex :=
  let unique := remove_dups tokens in
  mkGin (foldl (insert_token tid) (entries g) unique).

Definition lookup (g : GinIndex) (token : Token) : list TupleId := get token (entries g).

(** [result.retain(|tid| list.iter().any(..))] over the lists, until nothing is
    left. *)
Definition same_tid (t u : TupleId) : bool := (page_id t =? page_id u) && (slot_id t =? slot_id u).

Fixpoint intersect (result : list TupleId) (lists : list (list TupleId)) : list TupleId :=
  match lists with
  | [] => result
  | l :: lists =>
      let result := List.filter (fun tid => existsb (fun t => same_tid t tid) l) result in
      match result with
      | [] => []
      | _ => intersect result lists
      end
  end.

Definition lookup_all (g : GinIndex) (tokens : list Token) : list TupleId :=
  match sort_by (fun a b => len a <=? len b) (map (lookup g) tokens) with
  | [] => []
  | [] :: _ => []
  | l :: lists => intersect l lists
  end.

Definition remove (g : GinIndex) (tid : TupleId) : GinIndex :=
  let cut := map (fun e => (e.1, List.filter (fun t => negb (same_tid t tid)) e.2)) (entries g) in
  mkGin (List.filter (fun e => negb (bool_decide (e.2 = []))) cut).

Definition token_count (g : GinIndex) : N := len (entries g).

Definition document_count (g : GinIndex) : N :=
  len (remove_dups (concat (map snd (entries g)))).

(** ** Tokens *)

(** [skip_jsonb_value]: the position behind the value at [pos].  Positions grow,
    and from the end of the bytes on they stay: the number of bytes bounds both
    the depth and the rounds of a loop. *)
Fixpoint repeat_skip (bytes : list N) (skip : N -> N) (n : nat) (count p : N) : N :=
  if (count =? 0) || (len bytes <=? p) then p
  else match n with
       | O => p
       | S n => repeat_skip bytes skip n (count - 1) (skip p)
       end.

Definition skip_body (skip : N -> N) (bytes : list N) (tag p : N) : N :=
  if (1 <=? tag) && (tag <=? 3) then p
  else if (tag =? 4) || (tag =? 5) then p + 8
  else if tag =? 6 then
    if len bytes <? p + 4 then p else p + 4 + le_value bytes.[p; 4]
  else if tag =? 7 then
    if len bytes <? p + 4 then p
    else repeat_skip bytes skip (length bytes) (le_value bytes.[p; 4]) (p + 4)
  else if tag =? 8 then
    if len bytes <? p + 4 then p
    else repeat_skip bytes (fun p => skip (skip p)) (length bytes) (le_value bytes.[p; 4]) (p + 4)
  else p.

Fixpoint skip_jsonb_value (fuel : nat) (bytes : list N) (pos : N) : N :=
  match fuel, bytes !! N.to_nat pos with
  | S fuel, Some tag => skip_body (skip_jsonb_value fuel bytes) bytes tag (pos + 1)
  | _, _ => pos
  end.

(** The loop of [jsonb_tokens]; it ends at the end of the bytes. *)
Fixpoint tokens_loop (n : nat) (bytes : list N) (count pos : N) : list Token :=
  match n with
  | O => []
  | S n =>
      if count =? 0 then []
      else if negb (bool_decide (bytes !! N.to_nat pos = Some 6)) then []
      else
        let pos := pos + 1 in
        if len bytes <? pos + 4 then []
        else
          let l := le_value bytes.[pos; 4] in
          let pos := pos + 4 in
          if len bytes <? pos + l then []
          else
            let s := bytes.[pos; l] in
            let rest := tokens_loop n bytes (count - 1) (skip_jsonb_value (length bytes) bytes (pos + l)) in
            if utf8_valid s then s :: rest else rest
  end.

Definition jsonb_tokens (bytes : list N) : list Token :=
  match bytes with
  | [] => []
  | tag :: _ =>
      if negb (tag =? 8) then []
      else if len bytes <? 5 then []
      else tokens_loop (length bytes) bytes (le_value bytes.[1; 4]) 5
  end.

(** [text_tokens]. *)
Fixpoint text_tokens_loop `{UnicodeCase} (current : Token) (cs : list (list N)) : list Token :=
  match cs with
  | [] => if bool_decide (current = []) then [] else [current]
  | c :: cs =>
      if char_alphanumeric c then text_tokens_loop (current ++ char_lower c) cs
      else if bool_decide (current = []) then text_tokens_loop [] cs
      else current :: text_tokens_loop [] cs
  end.
Definition text_tokens `{UnicodeCase} (s : list N) : list Token := text_tokens_loop [] (chars s).

(** The tokens of a column's text, as [exec_insert] and [exec_create_gin_index] of
    the SQL executor compute them. *)
Definition index_tokens `{UnicodeCase} (s : list N) : list Token :=
  match Jsonb.encode_jsonb s with
  | Ok encoded =>
      match jsonb_tokens encoded with
      | [] => text_tokens s
      | jt => jt
      end
  | _ => text_tokens s
  end.

(** The index of a list of rows. *)
Definition index_row `{UnicodeCase} (g : GinIndex) (row : TupleId * list N) : GinIndex :=
  match index_tokens row.2 with
  | [] => g
  | tokens => insert g row.1 tokens
  end.
Definition build `{UnicodeCase} (rows : list (TupleId * list N)) : GinIndex := foldl index_row new rows.

(** ** The file format *)

Inductive GinError : Type :=
  | Truncated (offset : N)
  | BadMagic
  | UnsupportedVersion (v : N)
  | InvalidToken.

Definition to_bytes (g : GinIndex) : list N :=
  [71; 73; 78; 0] ++ [1] ++ le_bytes 4 (u32 (len (entries g))) ++
  concat (map (fun e => le_bytes 4 (u32 (len e.1)) ++ e.1 ++ le_bytes 4 (u32 (len e.2)) ++
                concat (map (fun t => le_bytes 8 (page_id t) ++ le_bytes 2 (slot_id t)) e.2)) (entries g)).

(** [need!] and the reads: [n] bytes at the position [total - rest.len()]. *)
Definition need (total n : N) (rest : list N) : outcome GinError (list N * list N) :=
  if len rest <? n then Err (Truncated (total - len rest))
  else Ok (take (N.to_nat n) rest, drop (N.to_nat n) rest).

(** The loops over the postings and the entries; each round reads at least one
    byte or fails. *)
Fixpoint read_postings (n : nat) (total count : N) (rest : list N) : outcome GinError (list TupleId * list N) :=
  if count =? 0 then Ok ([], rest)
  else match n with
       | O => Err (Truncated (total - len rest))
       | S n =>
           '(p, rest) ← need total 8 rest;
           '(s, rest) ← need total 2 rest;
           '(l, rest) ← read_postings n total (count - 1) rest;
           Ok (mkTid (le_value p) (le_value s) :: l, rest)
       end.

Fixpoint read_entries (n : nat) (total count : N) (rest : list N) (e : list (Token * list TupleId))
    : outcome GinError (list (Token * list TupleId)) :=
  if count =? 0 then Ok e
  else match n with
       | O => Err (Truncated (total - len rest))
       | S n =>
           '(tl, rest) ← need total 4 rest;
           '(token, rest) ← need total (le_value tl) rest;
           if utf8_valid token then
             '(pc, rest) ← need total 4 rest;
             '(l, rest) ← read_postings (length rest) total (le_value pc) rest;
             read_entries n total (count - 1) rest (bt_insert bytes_lt token l e)
           else Err InvalidToken
       end.

Definition from_bytes (data : list N) : outcome GinError GinIndex :=
  let total := len data in
  '(magic, rest) ← need total 4 data;
  if bool_decide (magic = [71; 73; 78; 0]) then
    '(v, rest) ← need total 1 rest;
    if le_value v =? 1 then
      '(c, rest) ← need total 4 rest;
      e ← read_entries (length rest) total (le_value c) rest [];
      Ok (mkGin e)
    else Err (UnsupportedVersion (le_value v))
  else Err BadMagic.

(** ** Posting lists *)

Lemma same_tid_eq t u : same_tid t u = true <-> t = u.
Proof.
  unfold same_tid. rewrite andb_true_iff, !N.eqb_eq. destruct t, u; cbn. split; [by intros [-> ->]|by intros [= -> ->]].
Qed.

Lemma elem_of_insert_posting tid l x : x ∈ insert_posting tid l <-> x = tid \/ x ∈ l.
Proof.
  unfold insert_posting. set (pos := partition_point _ l).
  assert (Hins : x ∈ take pos l ++ tid :: drop pos l <-> x = tid \/ x ∈ l).
  { rewrite <- (take_drop pos l) at 3. rewrite !elem_of_app, elem_of_cons. tauto. }
  destruct (l !! pos) as [t|] eqn:E; [|done]. case_match eqn:C; [done|].
  split; [auto|]. intros [->|?]; [|done]. apply orb_false_iff in C as [C1 C2].
  rewrite negb_false_iff in C1, C2. apply N.eqb_eq in C1, C2.
  destruct t, tid; cbn in *; subst. by eapply list_elem_of_lookup_2.
Qed.

(** The invariant: tokens in order. *)
Definition wf (g : GinIndex) : Prop := bt_sorted bytes_lt (entries g).

Lemma get_insert (e : list (Token * list TupleId)) t k v : bt_sorted bytes_lt e ->
  bt_get bytes_lt t (bt_insert bytes_lt k v e) = if bool_decide (t = k) then Some v else bt_get bytes_lt t e.
Proof.
  intros Hs. rewrite (bt_get_insert bytes_lt) by exact Hs. case_bool_decide as Ht.
  - subst. by rewrite bytes_lt_irrefl.
  - destruct (bytes_lt t k) eqn:E1; [done|]. destruct (bytes_lt k t) eqn:E2; [done|].
    destruct (bytes_lt_total t k) as [?|[?|?]]; congruence.
Qed.

(** What a walk over the tokens of a document leaves under each token. *)
Lemma get_insert_tokens tid tokens e t : NoDup tokens -> bt_sorted bytes_lt e ->
  bt_sorted bytes_lt (foldl (insert_token tid) e tokens) /\
  bt_get bytes_lt t (foldl (insert_token tid) e tokens) =
    if bool_decide (t ∈ tokens) then Some (insert_posting tid (get t e)) else bt_get bytes_lt t e.
Proof.
  revert e. induction tokens as [|k tokens IH]; intros e Hd Hs; cbn [foldl]; [done|].
  apply NoDup_cons in Hd as [Hk Hd]. unfold insert_token at 2 4. set (v := insert_posting tid (get k e)).
  destruct (IH (bt_insert bytes_lt k v e) Hd) as [Hs' ->]; [by apply (bt_insert_sorted bytes_lt)|]. split; [done|].
  unfold get. rewrite get_insert by done. destruct (decide (t = k)) as [->|Hne].
  - rewrite bool_decide_false, bool_decide_true, bool_decide_true by (done || left). done.
  - rewrite (bool_decide_false (t = k)) by done.
    rewrite (bool_decide_ext (t ∈ k :: tokens) (t ∈ tokens)); [done|]. rewrite elem_of_cons. tauto.
Qed.

(** The order the set of tokens is walked in does not matter. *)
Lemma insert_perm tid tokens tokens' e : NoDup tokens -> tokens ≡ₚ tokens' -> bt_sorted bytes_lt e ->
  foldl (insert_token tid) e tokens = foldl (insert_token tid) e tokens'.
Proof.
  intros Hd Hp Hs. assert (Hd' : NoDup tokens') by (by rewrite <- Hp).
  apply (bt_ext bytes_lt); [by apply (get_insert_tokens _ _ _ [])..|]. intros k.
  rewrite (proj2 (get_insert_tokens tid tokens e k Hd Hs)), (proj2 (get_insert_tokens tid tokens' e k Hd' Hs)).
  by rewrite (bool_decide_ext (k ∈ tokens) (k ∈ tokens')) by (by rewrite Hp).
Qed.

Lemma insert_wf g tid tokens : wf g -> wf (insert g tid tokens).
Proof. intros Hw. apply (get_insert_tokens _ _ _ []); [apply NoDup_remove_dups|done]. Qed.

Lemma lookup_insert g tid tokens t x : wf g ->
  x ∈ lookup (insert g tid tokens) t <-> (x = tid /\ t ∈ tokens) \/ x ∈ lookup g t.
Proof.
  intros Hw. unfold lookup, insert, get. cbn [entries].
  rewrite (proj2 (get_insert_tokens tid (remove_dups tokens) (entries g) t (NoDup_remove_dups _) Hw)).
  case_bool_decide as Ht; rewrite elem_of_remove_dups in Ht.
  - cbn. rewrite elem_of_insert_posting. unfold get. tauto.
  - tauto.
Qed.

(** ** Intersection *)

Lemma elem_of_intersect lists result x :
  x ∈ intersect result lists <-> x ∈ result /\ Forall (fun l => x ∈ l) lists.
Proof.
  revert result. induction lists as [|l lists IH]; intros result; cbn [intersect].
  { split; [intros H; split; [done|constructor]|by intros []]. }
  assert (Hf : forall y, y ∈ List.filter (fun tid => existsb (fun t => same_tid t tid) l) result <->
    y ∈ result /\ y ∈ l).
  { intros y. rewrite !list_elem_of_In, filter_In, existsb_exists. split.
    - intros [Hy (t & Ht & ->%same_tid_eq)]. done.
    - intros [Hy Hl]. split; [done|]. exists y. split; [done|]. by apply same_tid_eq. }
  rewrite Forall_cons. specialize (Hf x). destruct (List.filter _ result) as [|y r] eqn:E.
  - split; [by intros ?%elem_of_nil|]. intros (? & ? & _). exfalso. apply (not_elem_of_nil x), Hf. done.
  - rewrite IH, Hf. tauto.
Qed.

(** [lookup_all] returns the tuples that are under every token, none for an empty
    list of tokens. *)
Lemma elem_of_lookup_all g tokens x :
  x ∈ lookup_all g tokens <-> tokens <> [] /\ Forall (fun t => x ∈ lookup g t) tokens.
Proof.
  unfold lookup_all. set (le := fun a b : list TupleId => len a <=? len b).
  pose proof (sort_by_perm le (map (lookup g) tokens)) as Hp.
  assert (Hall : Forall (fun l => x ∈ l) (sort_by le (map (lookup g) tokens)) <->
    Forall (fun t => x ∈ lookup g t) tokens).
  { rewrite Hp. change (map (lookup g) tokens) with (lookup g <$> tokens). by rewrite Forall_fmap. }
  destruct (sort_by le _) as [|l lists].
  - apply Permutation_nil_l in Hp. destruct tokens; [|done]. split; [by intros ?%elem_of_nil|by intros [? _]].
  - assert (tokens <> []) by (intros ->; by apply Permutation_nil_r in Hp).
    rewrite <- Hall. destruct l as [|y l].
    + split; [by intros ?%elem_of_nil|]. intros [_ Hx%Forall_inv]. by apply not_elem_of_nil in Hx.
    + rewrite elem_of_intersect, Forall_cons. tauto.
Qed.

(** ** The tokens of a document *)

Lemma repeat_skip_eq {A} (enc : A -> list N) bytes skip items n pre post :
  Forall (fun v => forall pre post, bytes = pre ++ enc v ++ post -> skip (len pre) = len pre + len (enc v)) items ->
  (forall v, 1 <= len (enc v)) ->
  bytes = pre ++ concat (map enc items) ++ post -> (length items <= n)%nat ->
  repeat_skip bytes skip n (len items) (len pre) = len pre + len (concat (map enc items)).
Proof.
  intros Hs Hpos. revert n pre. induction Hs as [|v items Hv Hs IH]; intros n pre Hb Hn.
  { cbn [map concat]. rewrite len_nil, N.add_0_r. destruct n; cbn [repeat_skip N.eqb orb]; done. }
  destruct n as [|n]; [cbn in Hn; lia|]. cbn [repeat_skip map concat] in *.
  rewrite len_cons, len_app. rewrite <- app_assoc in Hb.
  rewrite (proj2 (N.eqb_neq (1 + len items) 0)) by lia.
  rewrite (proj2 (N.leb_gt (len bytes) (len pre))) by (rewrite Hb, !len_app; specialize (Hpos v); lia).
  cbn [orb]. rewrite (Hv pre (concat (map enc items) ++ post)) by done.
  replace (1 + len items - 1) with (len items) by lia. rewrite <- len_app, IH.
  - rewrite len_app. lia.
  - by rewrite Hb, <- !app_assoc.
  - cbn in Hn. lia.
Qed.

Lemma read_at_app {A} (pre x post : list A) n : n = len x -> read_at (pre ++ x ++ post) (len pre) n = x.
Proof. intros ->. unfold read_at. by rewrite !len_length, drop_app_length, take_app_length. Qed.

(** The four bytes of a length field. *)
Lemma read_len pre k post : k < 2 ^ 32 -> le_value (read_at (pre ++ le_bytes 4 (u32 k) ++ post) (len pre) 4) = k.
Proof.
  intros Hk. rewrite read_at_app by (by rewrite len_le_bytes).
  rewrite le_value_le_bytes_small by apply wrap_lt. by apply u32_small.
Qed.

(** [skip_jsonb_value] at each tag. *)
Lemma skip_tag fuel pre tag post :
  skip_jsonb_value (S fuel) (pre ++ tag :: post) (len pre) =
    skip_body (skip_jsonb_value fuel (pre ++ tag :: post)) (pre ++ tag :: post) tag (len (pre ++ [tag])).
Proof.
  cbn [skip_jsonb_value]. rewrite len_length, list_lookup_middle by done. by rewrite len_app, len_cons, len_nil.
Qed.

Lemma skip_body_string skip bytes p :
  skip_body skip bytes 6 p = if len bytes <? p + 4 then p else p + 4 + le_value bytes.[p; 4].
Proof. done. Qed.

Lemma skip_body_array skip bytes p : skip_body skip bytes 7 p =
  if len bytes <? p + 4 then p else repeat_skip bytes skip (length bytes) (le_value bytes.[p; 4]) (p + 4).
Proof. done. Qed.

Lemma skip_body_object skip bytes p : skip_body skip bytes 8 p =
  if len bytes <? p + 4 then p
  else repeat_skip bytes (fun p => skip (skip p)) (length bytes) (le_value bytes.[p; 4]) (p + 4).
Proof. done. Qed.

Lemma cons_app {A} (pre post : list A) x : pre ++ x :: post = (pre ++ [x]) ++ post.
Proof. by rewrite <- app_assoc. Qed.

(** The bytes behind a tag and a length field. *)
Lemma skip_len_ok (pre post : list N) tag k : k < 2 ^ 32 ->
  let bytes := pre ++ tag :: le_bytes 4 (u32 k) ++ post in
  (len bytes <? len (pre ++ [tag]) + 4) = false /\ le_value bytes.[len (pre ++ [tag]); 4] = k /\
  bytes = (pre ++ [tag] ++ le_bytes 4 (u32 k)) ++ post /\
  len (pre ++ [tag]) + 4 = len (pre ++ [tag] ++ le_bytes 4 (u32 k)).
Proof.
  intros Hk bytes. subst bytes. rewrite cons_app. split_and!.
  - apply N.ltb_ge. rewrite !len_app, len_le_bytes. lia.
  - by apply read_len.
  - by rewrite <- !app_assoc.
  - rewrite !len_app, len_le_bytes. lia.
Qed.

Lemma skip_string fuel s pre post : Jsonb.str_ok s = true ->
  skip_jsonb_value (S fuel) (pre ++ Jsonb.encode_str s ++ post) (len pre) = len pre + len (Jsonb.encode_str s).
Proof.
  unfold Jsonb.str_ok. rewrite andb_true_iff, N.ltb_lt. intros [_ Hl]. unfold Jsonb.encode_str, Jsonb.TAG_STRING.
  cbn [app]. rewrite <- app_assoc, skip_tag, skip_body_string.
  destruct (skip_len_ok pre (s ++ post) 6 (len s) Hl) as (-> & -> & _ & ->).
  autorewrite with lens. lia.
Qed.

Lemma skip_value v fuel pre post : Jsonb.json_ok v = true -> (length (Jsonb.encode_val v) <= fuel)%nat ->
  skip_jsonb_value fuel (pre ++ Jsonb.encode_val v ++ post) (len pre) = len pre + len (Jsonb.encode_val v).
Proof.
  revert fuel pre post.
  induction v as [|b|n|f|s|items IH|pairs IH] using Jsonb.JsonVal_ind'; intros fuel pre post Hok Hf.
  all: destruct fuel as [|fuel];
    [match type of Hf with (length (Jsonb.encode_val ?v) <= _)%nat => pose proof (Jsonb.encode_val_length v); lia end|].
  5: by apply skip_string.
  1-4: try destruct b; cbn [Jsonb.encode_val app]; rewrite skip_tag.
  1-5: cbn [skip_body N.leb N.eqb Pos.eqb andb orb]; rewrite ?len_app, ?len_cons, ?len_le_bytes, ?len_nil;
    cbn; rewrite ?len_app, ?len_cons, ?len_nil; lia.
  all: cbn [Jsonb.encode_val app Jsonb.json_ok length] in *; apply andb_prop in Hok as [Hn%N.ltb_lt Hok];
    rewrite forallb_forall in Hok; rewrite Forall_forall in IH; rewrite length_app in Hf.
  - rewrite <- app_assoc, skip_tag. unfold Jsonb.TAG_ARRAY in *. rewrite skip_body_array.
    destruct (skip_len_ok pre (concat (map Jsonb.encode_val items) ++ post) 7 (len items) Hn) as (-> & -> & Hb & ->).
    rewrite Hb. rewrite (repeat_skip_eq Jsonb.encode_val) with (post := post); [| | |done|].
    + autorewrite with lens. lia.
    + rewrite Forall_forall. intros v Hin pre' post' Hb'. rewrite Hb'.
      pose proof (Jsonb.concat_map_length Jsonb.encode_val items) as Hl. rewrite Forall_forall in Hl.
      apply IH; [done|by apply Hok, list_elem_of_In|]. specialize (Hl v Hin). lia.
    + intros v. pose proof (Jsonb.encode_val_length v). unfold len. lia.
    + rewrite !length_app. pose proof (Jsonb.concat_map_count Jsonb.encode_val items Jsonb.encode_val_length). lia.
  - rewrite <- app_assoc, skip_tag. unfold Jsonb.TAG_OBJECT in *. rewrite skip_body_object.
    set (enc := fun kv : list N * Jsonb.JsonVal => Jsonb.encode_str kv.1 ++ Jsonb.encode_val kv.2) in *.
    destruct (skip_len_ok pre (concat (map enc pairs) ++ post) 8 (len pairs) Hn) as (-> & -> & Hb & ->).
    rewrite Hb. rewrite (repeat_skip_eq enc) with (post := post); [| | |done|].
    + autorewrite with lens. lia.
    + rewrite Forall_forall. intros kv Hin pre' post' Hb'.
      pose proof (Jsonb.concat_map_length enc pairs) as Hl. rewrite Forall_forall in Hl. specialize (Hl kv Hin).
      specialize (Hok kv ltac:(by apply list_elem_of_In)). apply andb_prop in Hok as [Hk Hv].
      subst enc. cbn beta in *. rewrite length_app in Hl.
      destruct fuel as [|fuel]; [pose proof (Jsonb.encode_val_length kv.2); lia|].
      rewrite Hb', <- app_assoc. rewrite skip_string by done.
      rewrite <- len_app, app_assoc. rewrite IH; [|done|done|lia].
      autorewrite with lens. lia.
    + intros kv. subst enc. cbn beta. unfold Jsonb.encode_str. autorewrite with lens. lia.
    + rewrite !length_app. etransitivity; [apply (Jsonb.concat_map_count enc pairs)|lia].
      intros kv. subst enc. cbn beta. rewrite length_app. cbn. lia.
Qed.

Lemma tokens_loop_eq pairs n pre post bytes :
  forallb (fun kv => Jsonb.str_ok kv.1 && Jsonb.json_ok kv.2) pairs = true ->
  bytes = pre ++ concat (map (fun kv => Jsonb.encode_str kv.1 ++ Jsonb.encode_val kv.2) pairs) ++ post ->
  (length pairs <= n)%nat -> tokens_loop n bytes (len pairs) (len pre) = map fst pairs.
Proof.
  intros Hok. revert n pre. induction pairs as [|[k v] pairs IH]; intros n pre Hb Hn.
  { by destruct n. }
  destruct n as [|n]; [cbn in Hn; lia|]. cbn [forallb fst snd] in Hok.
  apply andb_prop in Hok as [[Hk Hv]%andb_prop Hok]. pose proof Hk as [Hu Hl%N.ltb_lt]%andb_prop.
  cbn [tokens_loop map concat fst snd] in *. rewrite <- !app_assoc in Hb.
  rewrite len_cons, (proj2 (N.eqb_neq (1 + len pairs) 0)) by lia.
  set (rest := concat (map (fun kv => Jsonb.encode_str kv.1 ++ Jsonb.encode_val kv.2) pairs)) in *.
  assert (Hb1 : bytes = pre ++ 6 :: le_bytes 4 (u32 (len k)) ++ (k ++ Jsonb.encode_val v ++ rest ++ post)).
  { rewrite Hb. unfold Jsonb.encode_str. cbn [app]. by rewrite <- app_assoc. }
  rewrite bool_decide_true by (rewrite Hb1, len_length; by apply list_lookup_middle). cbn [negb].
  replace (len pre + 1) with (len (pre ++ [6])) by (by rewrite len_app).
  destruct (skip_len_ok pre (k ++ Jsonb.encode_val v ++ rest ++ post) 6 (len k) Hl) as (H1 & H2 & H3 & H4).
  rewrite <- Hb1 in H1, H2, H3. rewrite H1, H2, H4.
  rewrite (proj2 (N.ltb_ge _ _)) by (rewrite H3; rewrite !len_app; lia).
  replace (read_at bytes _ (len k)) with k by (symmetry; rewrite H3; by apply read_at_app).
  rewrite Hu. replace (1 + len pairs - 1) with (len pairs) by lia. f_equal. rewrite <- len_app.
  rewrite app_assoc in H3.
  assert (Hskip : forall f, (length (Jsonb.encode_val v) <= f)%nat ->
    skip_jsonb_value f bytes (len ((pre ++ [6] ++ le_bytes 4 (u32 (len k))) ++ k)) =
      len (((pre ++ [6] ++ le_bytes 4 (u32 (len k))) ++ k) ++ Jsonb.encode_val v)).
  { intros f Hf. rewrite H3. rewrite skip_value by done. by rewrite <- len_app. }
  rewrite Hskip by (rewrite H3, !length_app; lia).
  apply IH; [done| |cbn in Hn; lia]. rewrite H3. by rewrite <- !app_assoc.
Qed.

(** The tokens of an encoded object are its keys, in order. *)
Lemma jsonb_tokens_object pairs : Jsonb.json_ok (Jsonb.Object pairs) = true ->
  jsonb_tokens (Jsonb.encode_val (Jsonb.Object pairs)) = map fst pairs.
Proof.
  cbn [Jsonb.json_ok]. intros [Hn%N.ltb_lt Hok]%andb_prop. unfold jsonb_tokens. cbn [Jsonb.encode_val].
  set (body := concat _). change (negb (Jsonb.TAG_OBJECT =? 8)) with false. cbv iota.
  destruct (skip_len_ok [] body 8 (len pairs) Hn) as (H1 & H2 & H3 & H4). cbn [app] in H1, H2, H3, H4.
  change (len [8]) with 1 in H1, H2, H4. change (1 + 4) with 5 in H1, H4. unfold Jsonb.TAG_OBJECT. rewrite H1, H2, H4.
  apply tokens_loop_eq with (post := []); [done|by rewrite app_nil_r|].
  cbn [length]. rewrite length_app. etransitivity;
    [apply (Jsonb.concat_map_count (fun kv => Jsonb.encode_str kv.1 ++ Jsonb.encode_val kv.2) pairs)|subst body; lia].
  intros kv. rewrite length_app. cbn. lia.
Qed.

(** ** Index scans *)

Section Scan.
Context `{UnicodeCase}.

Lemma lookup_index_row g row t x : wf g ->
  wf (index_row g row) /\
  (x ∈ lookup (index_row g row) t <-> (x = row.1 /\ t ∈ index_tokens row.2) \/ x ∈ lookup g t).
Proof.
  intros Hw. unfold index_row. destruct (index_tokens row.2) as [|tok toks] eqn:E.
  - split; [done|]. rewrite elem_of_nil. tauto.
  - rewrite <- E. split; [by apply insert_wf|by apply lookup_insert].
Qed.

(** A row is under each of its tokens. *)
Lemma lookup_build rows row t : row ∈ rows -> t ∈ index_tokens row.2 -> row.1 ∈ lookup (build rows) t.
Proof.
  unfold build. intros Hrow Ht.
  assert (Hgen : forall rows g, wf g -> (row ∈ rows \/ row.1 ∈ lookup g t) ->
    row.1 ∈ lookup (foldl index_row g rows) t).
  { clear rows Hrow. induction rows as [|r rows IH]; intros g Hw Hor; cbn [foldl].
    - destruct Hor as [?%elem_of_nil|?]; done.
    - pose proof (lookup_index_row g r t row.1 Hw) as [Hw' Hl]. apply IH; [done|]. rewrite Hl.
      destruct Hor as [[->|?]%elem_of_cons|?]; auto. }
  apply Hgen; [constructor|auto].
Qed.

(** C26: Every row whose document is an object that contains the query object is among
    the candidates of an index scan, if the query has a key. *)
Theorem gin_finds_contained rows tid s opairs q ipairs :
  (tid, s) ∈ rows ->
  Jsonb.encode_jsonb s = Ok (Jsonb.encode_val (Jsonb.Object opairs)) ->
  Jsonb.encode_jsonb q = Ok (Jsonb.encode_val (Jsonb.Object ipairs)) ->
  Jsonb.json_ok (Jsonb.Object opairs) = true -> Jsonb.json_ok (Jsonb.Object ipairs) = true ->
  ipairs <> [] ->
  Jsonb.jsonb_contains (Jsonb.encode_val (Jsonb.Object opairs)) (Jsonb.encode_val (Jsonb.Object ipairs)) = true ->
  tid ∈ lookup_all (build rows) (jsonb_tokens (Jsonb.encode_val (Jsonb.Object ipairs))).
Proof.
  intros Hin Hs Hq Ho Hi Hne Hc.
  assert (Hd : forall v, Jsonb.json_ok v = true -> Jsonb.decode (Jsonb.encode_val v) = Ok v).
  { intros v Hv. rewrite <- (app_nil_r (Jsonb.encode_val v)). by apply Jsonb.decode_encode_val. }
  unfold Jsonb.jsonb_contains in Hc. rewrite !Hd in Hc by done. cbn [Jsonb.json_contains_val] in Hc.
  rewrite forallb_forall in Hc. rewrite elem_of_lookup_all, jsonb_tokens_object by done.
  split; [by destruct ipairs|]. change (map fst ipairs) with (fst <$> ipairs). rewrite Forall_fmap, Forall_forall.
  intros [k v] Hkv. apply (lookup_build rows (tid, s) k Hin). cbn [fst snd].
  apply list_elem_of_In, Hc, existsb_exists in Hkv as ([k' v'] & Hkv & [Hk%bool_decide_eq_true _]%andb_prop).
  cbn in Hk. subst k'. unfold index_tokens. rewrite Hs, jsonb_tokens_object by done.
  assert (Hin' : k ∈ map fst opairs) by (apply list_elem_of_In, in_map_iff; by exists (k, v')).
  destruct (map fst opairs); [by apply not_elem_of_nil in Hin'|done].
Qed.

End Scan.

Section Examples.
#[local] Instance ascii_only : UnicodeCase := ascii_unicode.

Definition row1 : TupleId * list N := (mkTid 3 0, dq "{'k': 1, 'Tag': [true, null]}").

Lemma gin_finds_contained_witness :
  mkTid 3 0 ∈ lookup_all (build [(mkTid 2 7, dq "{'x': 5}"); row1])
    (jsonb_tokens (Jsonb.encode_val (Jsonb.Object [(text "Tag", Jsonb.Array [Jsonb.Null])]))).
Proof.
  apply (gin_finds_contained _ (mkTid 3 0) (dq "{'k': 1, 'Tag': [true, null]}")
    [(text "k", Jsonb.Int 1); (text "Tag", Jsonb.Array [Jsonb.Bool true; Jsonb.Null])]
    (dq "{'Tag': [null]}") [(text "Tag", Jsonb.Array [Jsonb.Null])]).
  - right. left.
  - vm_compute. reflexivity.
  - vm_compute. reflexivity.
  - vm_compute. reflexivity.
  - vm_compute. reflexivity.
  - discriminate.
  - vm_compute. reflexivity.
Defined.

(** A document that is an array contains an object when one of its elements does,
    but the index knows it by the words of its text in lower case; and every object
    contains the empty object, which has no tokens to look up.  In both cases the
    operator holds of the row and the index scan has no candidate. *)
Theorem gin_misses_contained :
  let tid := mkTid 1 0 in
  (exists o i, Jsonb.encode_jsonb (dq "[{'Key': 1}]") = Ok o /\ Jsonb.encode_jsonb (dq "{'Key': 1}") = Ok i /\
    Jsonb.jsonb_contains o i = true /\
    lookup_all (build [(tid, dq "[{'Key': 1}]")]) (jsonb_tokens i) = []) /\
  (exists o i, Jsonb.encode_jsonb (dq "{'Key': 1}") = Ok o /\ Jsonb.encode_jsonb (dq "{}") = Ok i /\
    Jsonb.jsonb_contains o i = true /\
    lookup_all (build [(tid, dq "{'Key': 1}")]) (jsonb_tokens i) = []).
Proof. split; do 2 eexists; (split; [vm_compute; reflexivity|]); (split; [vm_compute; reflexivity|]); split; vm_compute; reflexivity. Qed.

End Examples.

(** ** The file round trip *)

(** An index the file format can hold. *)
Definition tid_ok (t : TupleId) : bool := (page_id t <? 2 ^ 64) && (slot_id t <? 2 ^ 16).
Definition entry_ok (e : Token * list TupleId) : bool :=
  Jsonb.str_ok e.1 && (len e.2 <? 2 ^ 32) && forallb tid_ok e.2.
Definition gin_ok (g : GinIndex) : Prop :=
  wf g /\ len (entries g) < 2 ^ 32 /\ Forall (fun e => entry_ok e = true) (entries g).

Lemma need_app total n a b : n = len a -> need total n (a ++ b) = Ok (a, b).
Proof.
  intros ->. unfold need. rewrite len_app, (proj2 (N.ltb_ge _ _)) by lia.
  by rewrite len_length, take_app_length, drop_app_length.
Qed.

Definition posting_bytes (t : TupleId) : list N := le_bytes 8 (page_id t) ++ le_bytes 2 (slot_id t).

Lemma read_postings_eq n total l rest : forallb tid_ok l = true -> (length l <= n)%nat ->
  read_postings n total (len l) (concat (map posting_bytes l) ++ rest) = Ok (l, rest).
Proof.
  revert n. induction l as [|t l IH]; intros n Hok Hn; [by destruct n|].
  destruct n as [|n]; [cbn in Hn; lia|]. cbn [forallb] in Hok. apply andb_prop in Hok as [[Hp Hs]%andb_prop Hok].
  apply N.ltb_lt in Hp, Hs. cbn [read_postings map concat].
  change (posting_bytes t) with (le_bytes 8 (page_id t) ++ le_bytes 2 (slot_id t)).
  rewrite len_cons, (proj2 (N.eqb_neq _ 0)) by lia. rewrite <- !app_assoc.
  rewrite need_app, bind_ok, need_app, bind_ok by (by rewrite len_le_bytes).
  replace (1 + len l - 1) with (len l) by lia. rewrite IH, bind_ok by (done || (cbn in Hn; lia)).
  rewrite !le_value_le_bytes_small by done. by destruct t.
Qed.

Definition entry_bytes (e : Token * list TupleId) : list N :=
  le_bytes 4 (u32 (len e.1)) ++ e.1 ++ le_bytes 4 (u32 (len e.2)) ++ concat (map posting_bytes e.2).

Lemma read_entries_eq n total es done : Forall (fun e => entry_ok e = true) es -> (length es <= n)%nat ->
  bt_sorted bytes_lt (done ++ es) ->
  read_entries n total (len es) (concat (map entry_bytes es)) done = Ok (done ++ es).
Proof.
  intros Hok. revert n done. induction Hok as [|e es He Hok IH]; intros n done Hn Hs.
  { rewrite app_nil_r. by destruct n. }
  destruct n as [|n]; [cbn in Hn; lia|].
  apply andb_prop in He as [[[Hu Hl]%andb_prop Hp]%andb_prop Ht]. apply N.ltb_lt in Hl, Hp.
  cbn [read_entries map concat]. change (entry_bytes e) with
    (le_bytes 4 (u32 (len e.1)) ++ e.1 ++ le_bytes 4 (u32 (len e.2)) ++ concat (map posting_bytes e.2)).
  rewrite len_cons, (proj2 (N.eqb_neq _ 0)) by lia. rewrite <- !app_assoc.
  rewrite need_app, bind_ok by (by rewrite len_le_bytes).
  rewrite le_value_le_bytes_small, u32_small by (done || apply wrap_lt).
  rewrite need_app, bind_ok, Hu by done. rewrite need_app, bind_ok by (by rewrite len_le_bytes).
  rewrite le_value_le_bytes_small, u32_small by (done || apply wrap_lt).
  rewrite read_postings_eq, bind_ok; [|done|].
  2:{ rewrite length_app. pose proof (Jsonb.concat_map_count posting_bytes e.2) as Hc.
      etransitivity; [apply Hc|lia]. intros t. unfold posting_bytes. rewrite length_app. cbn. lia. }
  replace (1 + len es - 1) with (len es) by lia.
  rewrite (bt_insert_last bytes_lt), IH.
  - by rewrite <- app_assoc; destruct e.
  - cbn in Hn. lia.
  - by rewrite <- app_assoc; destruct e.
  - apply Forall_forall. intros x Hx. apply (StronglySorted_app_1_elem_of _ _ _ x e Hs); [done|left].
Qed.

(** Reading a saved index back gives the index. *)
Theorem gin_file_roundtrip g : gin_ok g -> from_bytes (to_bytes g) = Ok g.
Proof.
  intros (Hw & Hn & Hok). unfold from_bytes, to_bytes.
  change (fun t : TupleId => le_bytes 8 (page_id t) ++ le_bytes 2 (slot_id t)) with posting_bytes.
  change (fun e : Token * list TupleId => le_bytes 4 (u32 (len e.1)) ++ e.1 ++ le_bytes 4 (u32 (len e.2)) ++
    concat (map posting_bytes e.2)) with entry_bytes.
  set (total := len _). rewrite need_app, bind_ok by done. rewrite bool_decide_true by done.
  rewrite need_app, bind_ok by done. change (le_value [1] =? 1) with true. cbv iota.
  rewrite need_app, bind_ok by (by rewrite len_le_bytes).
  rewrite le_value_le_bytes_small, u32_small by (done || apply wrap_lt).
  rewrite (read_entries_eq _ _ _ []); [by destruct g|done| |done].
  apply Jsonb.concat_map_count. intros e. unfold entry_bytes. rewrite length_app. cbn. lia.
Qed.

Lemma gin_file_roundtrip_witness :
  let g := insert (insert new (mkTid 4 1) [text "b"; text "a"; text "b"]) (mkTid 2 9) [text "a"] in
  from_bytes (to_bytes g) = Ok g.
Proof.
  apply (gin_file_roundtrip
    (insert (insert new (mkTid 4 1) [text "b"; text "a"; text "b"]) (mkTid 2 9) [text "a"])).
  split_and!.
  - by do 2 apply insert_wf; constructor.
  - done.
  - by repeat constructor.
Defined.

End Gin.
