(* ===== verification/StorageTxn.v ===== *)
(** * Transactions, snapshots and visibility

    Models the transaction manager of [crates/storage/src/mvcc.rs]: transaction
    ids, the committed, aborted and active sets, snapshots, tuple visibility and
    the check for serialisation conflicts.  The time stamp of a commit record is
    an argument: it comes from the system clock.  Recovery is in
    [StorageRecovery]. *)

From stdpp Require Import gmap.
From S2P Require Import Prelude Bytes StorageError StoragePage StorageDisk StorageWal.

Module Txn.

Definition INVALID_XID : N := 0.
Definition HEAP_XMIN_COMMITTED : N := 256.

Record Snapshot : Type := mkSnapshot {
  snap_xmin : N;
  snap_xmax : N;
  snap_active : gset N
}.

Record TupleHeader : Type := mkHeader {
  xmin : N;
  xmax : N;
  cid : N;
  infomask : N;
  infomask2 : N
}.

Definition new_insert (xid cid : N) : TupleHeader := mkHeader xid INVALID_XID cid HEAP_XMIN_COMMITTED 0.

Definition encode (h : TupleHeader) : list N :=
  let buf := replicate (N.to_nat Page.TUPLE_HEADER_SIZE) 0 in
  let buf := buf.[0 <- le_bytes 8 (xmin h)] in
  let buf := buf.[8 <- le_bytes 8 (xmax h)] in
  let buf := buf.[16 <- le_bytes 4 (cid h)] in
  let buf := buf.[20 <- le_bytes 2 (infomask h)] in
  buf.[22 <- le_bytes 2 (infomask2 h)].

Definition decode (data : list N) : result TupleHeader :=
  if len data <? Page.TUPLE_HEADER_SIZE then Err Corruption
  else
    xmin ← Wal.get_le data 0 8;
    xmax ← Wal.get_le data 8 16;
    cid ← Wal.get_le data 16 20;
    infomask ← Wal.get_le data 20 22;
    infomask2 ← Wal.get_le data 22 24;
    Ok (mkHeader xmin xmax cid infomask infomask2).

(** A tuple's table, page and slot. *)
Definition tuple_key : Type := N * N * N.

Record TransactionManager : Type := mkTm {
  next_xid : N;
  committed : gset N;
  aborted : gset N;
  active : gset N;
  read_sets : gmap N (gset tuple_key);
  write_sets : gmap N (gset tuple_key)
}.

Definition new : TransactionManager := mkTm 1 ∅ ∅ ∅ ∅ ∅.

Definition begin (tx : TransactionManager) : TransactionManager * N :=
  let xid := next_xid tx in
  (mkTm (wadd 64 xid 1) (committed tx) (aborted tx) ({[xid]} ∪ active tx) (read_sets tx) (write_sets tx), xid).

(** [sets.entry(xid).or_default().insert(t)] *)
Definition add_to (sets : gmap N (gset tuple_key)) (xid : N) (t : tuple_key) : gmap N (gset tuple_key) :=
  <[xid := {[t]} ∪ default ∅ (sets !! xid)]> sets.

Definition record_read (tx : TransactionManager) (xid : N) (t : tuple_key) : TransactionManager :=
  mkTm (next_xid tx) (committed tx) (aborted tx) (active tx) (add_to (read_sets tx) xid t) (write_sets tx).

Definition record_write (tx : TransactionManager) (xid : N) (t : tuple_key) : TransactionManager :=
  mkTm (next_xid tx) (committed tx) (aborted tx) (active tx) (read_sets tx) (add_to (write_sets tx) xid t).

(** [a.iter().any(|x| b.contains(x))] *)
Definition meets (a b : gset tuple_key) : bool :=
  existsb (fun x => bool_decide (x ∈ b)) (elements a).

Definition check_ssi_conflict (tx : TransactionManager) (xid : N) : bool :=
  match read_sets tx !! xid with
  | None => false
  | Some my_reads =>
      match write_sets tx !! xid with
      | None => false
      | Some my_writes =>
          existsb (fun '(other, other_writes) =>
            if other =? xid then false
            else if meets my_reads other_writes then
              match read_sets tx !! other with
              | Some other_reads => meets my_writes other_reads
              | None => false
              end
            else false) (map_to_list (write_sets tx))
      end
  end.

(** The transaction leaves the active set and its read and write sets go. *)
Definition end_committed (tx : TransactionManager) (xid : N) : TransactionManager :=
  mkTm (next_xid tx) ({[xid]} ∪ committed tx) (aborted tx) (active tx ∖ {[xid]})
    (delete xid (read_sets tx)) (delete xid (write_sets tx)).

Definition force_abort (tx : TransactionManager) (xid : N) : TransactionManager :=
  mkTm (next_xid tx) (committed tx) ({[xid]} ∪ aborted tx) (active tx ∖ {[xid]})
    (delete xid (read_sets tx)) (delete xid (write_sets tx)).

Section Logged.
Variable crc32 : list N -> N.

Definition commit (tx : TransactionManager) (xid : N) (w : Wal.WalManager) (timestamp : N)
    : TransactionManager * Wal.WalManager * result () :=
  if negb (bool_decide (xid ∈ active tx)) then (tx, w, Err Corruption)
  else if check_ssi_conflict tx xid then (force_abort tx xid, w, Err Corruption)
  else
    match Wal.write_record crc32 w xid (Wal.XactCommit timestamp) with
    | (w, Ok _) =>
        match Wal.flush w with
        | (w, Ok _) => (end_committed tx xid, w, Ok ())
        | (w, Err e) => (tx, w, Err e)
        | (w, Panic) => (tx, w, Panic)
        end
    | (w, Err e) => (tx, w, Err e)
    | (w, Panic) => (tx, w, Panic)
    end.

Definition abort (tx : TransactionManager) (xid : N) (w : Wal.WalManager) (timestamp : N)
    : TransactionManager * Wal.WalManager * result () :=
  if negb (bool_decide (xid ∈ active tx)) then (tx, w, Err Corruption)
  else
    match Wal.write_record crc32 w xid (Wal.XactAbort timestamp) with
    | (w, Ok _) => (force_abort tx xid, w, Ok ())
    | (w, Err e) => (tx, w, Err e)
    | (w, Panic) => (tx, w, Panic)
    end.
End Logged.

(** The least element of a [BTreeSet]. *)
Definition least (s : gset N) : option N :=
  match elements s with
  | [] => None
  | x :: xs => Some (foldr N.min x xs)
  end.

Definition snapshot (tx : TransactionManager) : Snapshot :=
  let xmax := next_xid tx in
  mkSnapshot (default xmax (least (committed tx))) xmax (active tx).

Definition is_committed (tx : TransactionManager) (xid : N) : bool := bool_decide (xid ∈ committed tx).
Definition is_aborted (tx : TransactionManager) (xid : N) : bool := bool_decide (xid ∈ aborted tx).

Definition is_committed_before (tx : TransactionManager) (xid : N) (snap : Snapshot) : bool :=
  if xid =? INVALID_XID then false
  else if bool_decide (xid ∈ snap_active snap) then false
  else if xid <? snap_xmin snap then is_committed tx xid
  else if snap_xmax snap <=? xid then false
  else is_committed tx xid.

Definition is_visible (tx : TransactionManager) (h : TupleHeader) (snap : Snapshot) : bool :=
  if negb (is_committed_before tx (xmin h) snap) then false
  else if xmax h =? INVALID_XID then true
  else negb (is_committed_before tx (xmax h) snap).

Definition oldest_active_xid (tx : TransactionManager) : N := default INVALID_XID (least (active tx)).

Lemma least_elem s m : least s = Some m -> m ∈ s.
Proof.
  unfold least. destruct (elements s) as [|x xs] eqn:E; [done|]. intros [= <-].
  apply elem_of_elements. rewrite E. clear E s.
  induction xs as [|y xs IH]; cbn; [by left|].
  destruct (N.min_dec y (foldr N.min x xs)) as [-> | ->]; [right; by left|].
  apply elem_of_cons in IH as [-> |?]; [by left|]. right. by right.
Qed.

(** ** Tuple headers *)

Lemma encode_layout h : encode h = le_bytes 8 (xmin h) ++ le_bytes 8 (xmax h) ++ le_bytes 4 (cid h) ++
  le_bytes 2 (infomask h) ++ le_bytes 2 (infomask2 h).
Proof. reflexivity. Qed.

Definition header_ok (h : TupleHeader) : Prop :=
  xmin h < 2 ^ 64 /\ xmax h < 2 ^ 64 /\ cid h < 2 ^ 32 /\ infomask h < 2 ^ 16 /\ infomask2 h < 2 ^ 16.

(** A tuple that starts with an encoded header decodes to it. *)
Lemma decode_encode h payload : header_ok h -> decode (encode h ++ payload) = Ok h.
Proof.
  intros (? & ? & ? & ? & ?). unfold decode. rewrite encode_layout, <- !app_assoc.
  rewrite (proj2 (N.ltb_ge _ _)) by (rewrite !len_app, !len_le_bytes; change Page.TUPLE_HEADER_SIZE with 24; lia).
  do 5 Wal.get_field. by destruct h.
Qed.

(** ** Runs of the transaction manager *)

Inductive txn_op : Type :=
  | Begin
  | Reads (x : N) (t : tuple_key)
  | Writes (x : N) (t : tuple_key)
  | Logs (x : N) (r : Wal.WalRecord) (* a heap operation of [x] *)
  | Commit (x timestamp : N)
  | Abort (x timestamp : N).

Section Runs.
Variable crc32 : list N -> N.

Definition step (tx : TransactionManager) (w : Wal.WalManager) (op : txn_op)
    : TransactionManager * Wal.WalManager * result N :=
  match op with
  | Begin => let '(tx, x) := begin tx in (tx, w, Ok x)
  | Reads x t => (record_read tx x t, w, Ok x)
  | Writes x t => (record_write tx x t, w, Ok x)
  | Logs x r => let '(w, res) := Wal.write_record crc32 w x r in (tx, w, res)
  | Commit x ts => let '(tx, w, res) := commit crc32 tx x w ts in (tx, w, _ ← res; Ok x)
  | Abort x ts => let '(tx, w, res) := abort crc32 tx x w ts in (tx, w, _ ← res; Ok x)
  end.

Fixpoint run (tx : TransactionManager) (w : Wal.WalManager) (ops : list txn_op)
    : TransactionManager * Wal.WalManager * list (result N) :=
  match ops with
  | [] => (tx, w, [])
  | op :: ops =>
      let '(tx, w, r) := step tx w op in
      let '(tx, w, rs) := run tx w ops in
      (tx, w, r :: rs)
  end.

(** Every id handed out is active, committed or aborted, and only one of them. *)
Record txn_ok (tx : TransactionManager) : Prop := {
  ok_next : 1 <= next_xid tx;
  ok_ids : forall x, 1 <= x < next_xid tx <-> x ∈ active tx \/ x ∈ committed tx \/ x ∈ aborted tx;
  ok_ac : active tx ## committed tx;
  ok_aa : active tx ## aborted tx;
  ok_ca : committed tx ## aborted tx
}.

Lemma new_ok : txn_ok new.
Proof. split; cbn; [lia|intros x; split; [lia|set_solver]|set_solver..]. Qed.

Lemma end_committed_ok tx x : txn_ok tx -> x ∈ active tx -> txn_ok (end_committed tx x).
Proof.
  intros [] Hx. split; cbn [end_committed next_xid committed aborted active]; [done| |set_solver..].
  intros y. rewrite ok_ids0. destruct (decide (y = x)); set_solver.
Qed.

Lemma force_abort_ok tx x : txn_ok tx -> x ∈ active tx -> txn_ok (force_abort tx x).
Proof.
  intros [] Hx. split; cbn [force_abort next_xid committed aborted active]; [done| |set_solver..].
  intros y. rewrite ok_ids0. destruct (decide (y = x)); set_solver.
Qed.

Lemma begin_ok tx : txn_ok tx -> next_xid tx + 1 < 2 ^ 64 -> txn_ok (fst (begin tx)).
Proof.
  intros [] Hw. unfold begin. rewrite wadd_small by lia.
  assert (Hn : (next_xid tx ∉ active tx) /\ (next_xid tx ∉ committed tx) /\ (next_xid tx ∉ aborted tx)).
  { split_and!; intros Hin; enough (1 <= next_xid tx < next_xid tx) by lia; apply ok_ids0; auto. }
  destruct Hn as (? & ? & ?). split; cbn [fst next_xid committed aborted active]; [lia| |set_solver..].
  intros y. destruct (decide (y = next_xid tx)) as [->|Hy]; [split; [set_solver|lia]|].
  transitivity (1 <= y < next_xid tx); [lia|]. rewrite ok_ids0. set_solver.
Qed.

(** What one operation does to the transactions: only an active one ends, and
    a new id is the next one. *)
Record evolves (tx tx' : TransactionManager) : Prop := {
  ev_ok : txn_ok tx';
  ev_next : next_xid tx <= next_xid tx' <= next_xid tx + 1;
  ev_committed : committed tx ⊆ committed tx';
  ev_new : forall x, x ∈ committed tx' -> x ∈ committed tx \/ x ∈ active tx;
  ev_active : forall x, x ∈ active tx' -> x ∈ active tx \/ x = next_xid tx
}.

Lemma evolves_refl tx : txn_ok tx -> evolves tx tx.
Proof. intros. split; [done|lia|done|auto..]. Qed.

Lemma step_evolves tx w op : txn_ok tx -> next_xid tx + 1 < 2 ^ 64 -> evolves tx (step tx w op).1.1.
Proof.
  intros Hok Hw. destruct op as [|x t|x t|x r|x ts|x ts]; cbn [step].
  - split; cbn [fst begin next_xid committed]; [by apply begin_ok|rewrite wadd_small; lia|set_solver..].
  - split; cbn; [by destruct Hok|lia|done|auto..].
  - split; cbn; [by destruct Hok|lia|done|auto..].
  - destruct (Wal.write_record _ _ _ _). by apply evolves_refl.
  - pose proof (evolves_refl tx Hok).
    unfold commit. case_bool_decide as Hx; cbn [negb]; [|done].
    destruct (check_ssi_conflict tx x).
    { split; cbn; [by apply force_abort_ok|lia|set_solver..]. }
    destruct (Wal.write_record _ _ _ _) as [w1 [| |]]; [|done..].
    destruct (Wal.flush w1) as [w2 [| |]]; [|done..].
    split; cbn; [by apply end_committed_ok|lia|set_solver..].
  - pose proof (evolves_refl tx Hok). unfold abort. case_bool_decide as Hx; cbn [negb]; [|done].
    destruct (Wal.write_record _ _ _ _) as [w1 [| |]]; [|done..].
    split; cbn; [by apply force_abort_ok|lia|set_solver..].
Qed.

(** Over a run: what commits later was active, or had not begun. *)
Lemma run_evolves ops tx w : txn_ok tx -> next_xid tx + len ops < 2 ^ 64 ->
  let tx' := (run tx w ops).1.1 in
  txn_ok tx' /\ next_xid tx <= next_xid tx' <= next_xid tx + len ops /\ committed tx ⊆ committed tx' /\
  forall x, x ∈ committed tx' -> x ∈ committed tx \/ x ∈ active tx \/ next_xid tx <= x.
Proof.
  revert tx w. induction ops as [|op ops IH]; intros tx w Hok Hw; cbn [run].
  - cbn. split_and!; [done|lia|rewrite len_nil; lia|done|auto].
  - rewrite len_cons in *. pose proof (step_evolves tx w op Hok ltac:(lia)) as [Hok1 Hn1 Hc1 Hx1 Ha1].
    destruct (step tx w op) as [[tx1 w1] r]. cbn [fst] in *.
    destruct (IH tx1 w1 Hok1 ltac:(lia)) as (Hok2 & Hn2 & Hc2 & Hx2).
    destruct (run tx1 w1 ops) as [[tx2 w2] rs]. cbn [fst] in *.
    split_and!; [done|lia|lia|set_solver|]. intros x [Hx|[Hx|Hx]]%Hx2.
    + destruct (Hx1 x Hx); auto.
    + destruct (Ha1 x Hx) as [?| ->]; [auto|]. right. right. lia.
    + right. right. lia.
Qed.

(** ** Visibility *)

Lemma committed_before_spec tx tx' x : txn_ok tx -> txn_ok tx' ->
  committed tx ⊆ committed tx' ->
  (forall x, x ∈ committed tx' -> x ∈ committed tx \/ x ∈ active tx \/ next_xid tx <= x) ->
  is_committed_before tx' x (snapshot tx) = is_committed tx x.
Proof.
  intros Hok Hok' Hsub Hnew. unfold is_committed_before, is_committed, snapshot. cbn [snap_active snap_xmin snap_xmax].
  assert (Hrange : forall y, y ∈ committed tx -> 1 <= y < next_xid tx) by (intros; apply Hok; auto).
  destruct (N.eqb_spec x INVALID_XID) as [->|Hx0].
  { symmetry. apply bool_decide_eq_false. intros H0%Hrange. unfold INVALID_XID in H0. lia. }
  case_bool_decide as Ha.
  { symmetry. apply bool_decide_eq_false. pose proof (ok_ac tx Hok). set_solver. }
  assert (Hiff : x < next_xid tx -> x ∈ committed tx' <-> x ∈ committed tx).
  { intros Hlt. split; [intros [?|[?|?]]%Hnew; [done|done|lia]|set_solver]. }
  destruct (N.ltb_spec x (default (next_xid tx) (least (committed tx)))) as [Hlt|Hge].
  - apply bool_decide_ext, Hiff. destruct (least (committed tx)) as [m|] eqn:Hm; [|done]. cbn in Hlt.
    apply N.lt_trans with m; [done|]. apply Hrange. by apply least_elem.
  - destruct (N.leb_spec (next_xid tx) x) as [Hn|Hn].
    + symmetry. apply bool_decide_eq_false. intros Hc%Hrange. lia.
    + by apply bool_decide_ext, Hiff.
Qed.

(** C7: snapshot isolation.  A snapshot fixes what is visible: however many
    transactions begin, write, commit and abort afterwards, a tuple version is
    visible to the snapshot exactly when its creator had committed and its
    deleter had not, at the time the snapshot was taken.  This holds for the
    transaction that took the snapshot too: what it inserts itself stays invisible to
    it until it commits, and what it deletes itself stays visible, where the design
    notes promise that own inserts are seen at once.  Fewer than [2 ^ 64] operations
    are run, from a new transaction manager. *)
Theorem snapshot_isolation ops1 ops2 h : len ops1 + len ops2 + 1 < 2 ^ 64 ->
  let '(tx, w, _) := run new Wal.create ops1 in
  let '(tx', _, _) := run tx w ops2 in
  is_visible tx' h (snapshot tx) = true <-> xmin h ∈ committed tx /\ (xmax h ∉ committed tx).
Proof.
  intros Hlen. pose proof (run_evolves ops1 new Wal.create new_ok ltac:(cbn [new next_xid]; lia)) as H1.
  destruct (run new Wal.create ops1) as [[tx w] rs1]. cbn [fst new next_xid] in H1. destruct H1 as (Hok & Hn & _).
  pose proof (run_evolves ops2 tx w Hok ltac:(lia)) as H2.
  destruct (run tx w ops2) as [[tx' w'] rs2]. cbn [fst] in H2. destruct H2 as (Hok' & _ & Hsub & Hnew).
  unfold is_visible. rewrite !(committed_before_spec tx tx') by done. unfold is_committed.
  assert (H0 : INVALID_XID ∉ committed tx).
  { intros Hin. enough (1 <= INVALID_XID) by (unfold INVALID_XID in *; lia). apply (ok_ids tx Hok); auto. }
  case_bool_decide; cbn [negb]; [|naive_solver].
  destruct (N.eqb_spec (xmax h) INVALID_XID) as [->|]; [done|].
  rewrite negb_true_iff, bool_decide_eq_false. tauto.
Qed.

(** ** Serialisation conflicts *)

(** [x] read a tuple that [y] wrote. *)
Definition rw_edge (tx : TransactionManager) (x y : N) : Prop :=
  exists t, t ∈ default ∅ (read_sets tx !! x) /\ t ∈ default ∅ (write_sets tx !! y).

Lemma meets_spec a b : meets a b = true <-> exists t, t ∈ a /\ t ∈ b.
Proof.
  unfold meets. rewrite existsb_exists. setoid_rewrite bool_decide_eq_true.
  setoid_rewrite <- list_elem_of_In. by setoid_rewrite elem_of_elements.
Qed.

(** The check finds exactly the transactions with edges both ways. *)
Lemma check_ssi_spec tx x : check_ssi_conflict tx x = true <->
  exists y, y <> x /\ rw_edge tx x y /\ rw_edge tx y x.
Proof.
  unfold check_ssi_conflict, rw_edge. destruct (read_sets tx !! x) as [mr|] eqn:Hr; cbn; [|set_solver].
  destruct (write_sets tx !! x) as [mw|] eqn:Hw; cbn; [|set_solver].
  rewrite existsb_exists. split.
  - intros [[y ow] [Hin%list_elem_of_In%elem_of_map_to_list Hc]].
    destruct (N.eqb_spec y x) as [|Hne]; [done|].
    destruct (meets mr ow) eqn:Hm; [|done]. apply meets_spec in Hm as (t & ? & ?).
    destruct (read_sets tx !! y) as [yr|] eqn:Hyr; [|done]. apply meets_spec in Hc as (t' & ? & ?).
    exists y. split; [done|]. rewrite Hin, Hyr. cbn. split; eauto.
  - intros (y & Hne & (t & Ht & Hty) & (t' & Ht' & Hty')).
    destruct (write_sets tx !! y) as [yw|] eqn:Hyw; cbn in *; [|set_solver].
    destruct (read_sets tx !! y) as [yr|] eqn:Hyr; cbn in *; [|set_solver].
    exists (y, yw). split; [by apply list_elem_of_In, elem_of_map_to_list|].
    rewrite (proj2 (N.eqb_neq _ _) Hne), (proj2 (meets_spec mr yw)), Hyr by eauto. apply meets_spec. eauto.
Qed.

Lemma rw_edge_delete tx tx' z x y : z <> x -> z <> y ->
  read_sets tx' = delete z (read_sets tx) -> write_sets tx' = delete z (write_sets tx) ->
  rw_edge tx x y -> rw_edge tx' x y.
Proof. intros Hx Hy Hr Hw. unfold rw_edge. by rewrite Hr, Hw, !lookup_delete_ne. Qed.

Lemma add_to_mono sets z t x : default ∅ (sets !! x) ⊆ default ∅ (add_to sets z t !! x).
Proof.
  unfold add_to. destruct (decide (x = z)) as [->|?]; [rewrite lookup_insert_eq; cbn; set_solver|].
  by rewrite lookup_insert_ne.
Qed.

(** Two active transactions with edges both ways, or one of them aborted. *)
Definition doomed (tx : TransactionManager) (x y : N) : Prop :=
  (x ∈ active tx /\ y ∈ active tx /\ rw_edge tx x y /\ rw_edge tx y x) \/ x ∈ aborted tx \/ y ∈ aborted tx.

(** Ending [z] keeps the pair doomed, when a member that ends is aborted. *)
Lemma doomed_end tx tx' x y z : doomed tx x y -> aborted tx ⊆ aborted tx' -> active tx' = active tx ∖ {[z]} ->
  read_sets tx' = delete z (read_sets tx) -> write_sets tx' = delete z (write_sets tx) ->
  (z = x \/ z = y -> z ∈ aborted tx') -> doomed tx' x y.
Proof.
  intros [(Hx & Hy & Hxy & Hyx)|Hab] Hsub Hact Hr Hw Hz; [|right; set_solver].
  destruct (decide (z = x)) as [->|?]; [right; left; auto|].
  destruct (decide (z = y)) as [->|?]; [right; right; auto|].
  left. rewrite Hact. split_and!; [set_solver..| |]; by eapply rw_edge_delete.
Qed.

Lemma step_doomed tx w op x y : x <> y -> doomed tx x y -> doomed (step tx w op).1.1 x y.
Proof.
  intros Hne Hd. destruct op as [|z t|z t|z r|z ts|z ts]; cbn [step].
  - destruct Hd as [(? & ? & ? & ?)|?]; [left|by right]. cbn. split_and!; [set_solver..|done|done].
  - destruct Hd as [(? & ? & (u & Hu & ?) & (v & Hv & ?))|?]; [left|by right]. cbn [fst].
    split_and!; [done..| |]; eexists; (split; [|done]); by eapply add_to_mono.
  - destruct Hd as [(? & ? & (u & ? & Hu) & (v & ? & Hv))|?]; [left|by right]. cbn [fst].
    split_and!; [done..| |]; eexists; (split; [done|]); by eapply add_to_mono.
  - by destruct (Wal.write_record _ _ _ _).
  - unfold commit. case_bool_decide as Hz; cbn [negb]; [|done].
    destruct (check_ssi_conflict tx z) eqn:Hc.
    { eapply doomed_end with (z := z); [done|cbn; set_solver|done..|cbn; set_solver]. }
    destruct (Wal.write_record _ _ _ _) as [w1 [| |]]; [|done..].
    destruct (Wal.flush w1) as [w2 [| |]]; [|done..].
    destruct Hd as [Hd|Hd]; [|by right]. cbn [fst].
    assert (z <> x /\ z <> y) as [? ?].
    { apply not_true_iff_false in Hc. rewrite check_ssi_spec in Hc. naive_solver. }
    eapply doomed_end with (z := z); [by left|done|done..|naive_solver].
  - unfold abort. case_bool_decide as Hz; cbn [negb]; [|done].
    destruct (Wal.write_record _ _ _ _) as [w1 [| |]]; [|done..].
    eapply doomed_end with (z := z); [done|cbn; set_solver|done..|cbn; set_solver].
Qed.

(** C8: write skew between transactions whose reads and writes are recorded
    while both are active is prevented: of two such transactions with
    read-write dependencies in both directions, at most one ever commits. *)
Theorem write_skew_pair_not_both_committed ops1 ops2 x y : len ops1 + len ops2 + 1 < 2 ^ 64 ->
  let '(tx, w, _) := run new Wal.create ops1 in
  let '(tx', _, _) := run tx w ops2 in
  x <> y -> x ∈ active tx -> y ∈ active tx -> rw_edge tx x y -> rw_edge tx y x ->
  ~ (x ∈ committed tx' /\ y ∈ committed tx').
Proof.
  intros Hlen. pose proof (run_evolves ops1 new Wal.create new_ok ltac:(cbn [new next_xid]; lia)) as H1.
  destruct (run new Wal.create ops1) as [[tx w] rs1]. cbn [fst new next_xid] in H1. destruct H1 as (Hok & Hn & _).
  pose proof (run_evolves ops2 tx w Hok ltac:(lia)) as H2.
  assert (Hd : x <> y -> doomed tx x y -> doomed (run tx w ops2).1.1 x y).
  { clear. intros Hne. revert tx w. induction ops2 as [|op ops IH]; intros tx w Hd; [done|]. cbn [run].
    pose proof (step_doomed tx w op x y Hne Hd) as Hs. destruct (step tx w op) as [[tx1 w1] r].
    specialize (IH tx1 w1 Hs). by destruct (run tx1 w1 ops) as [[tx2 w2] rs]. }
  destruct (run tx w ops2) as [[tx' w'] rs2]. cbn [fst] in *. destruct H2 as (Hok' & _).
  intros Hne Hx Hy Hxy Hyx [Hcx Hcy]. pose proof (ok_ac tx' Hok'). pose proof (ok_ca tx' Hok').
  destruct Hd as [(? & _)|Hd]; [done|left; by split_and!|set_solver..].
Qed.

(** Write skew is not prevented when one transaction commits before the
    other one has written: the committed transaction's sets are dropped, so
    both commit although each read what the other wrote. *)
Theorem late_write_skew_commits :
  let a := (1, 1, 0) in
  let b := (1, 1, 1) in
  let '(tx, _, rs) := run new Wal.create
    [Begin; Begin; Reads 1 a; Reads 2 b; Writes 1 b; Commit 1 0; Writes 2 a; Commit 2 0] in
  rs = [Ok 1; Ok 2; Ok 1; Ok 2; Ok 1; Ok 1; Ok 2; Ok 2] /\
  is_committed tx 1 = true /\ is_committed tx 2 = true.
Proof. vm_compute. done. Qed.

End Runs.

(** Two transactions write, a snapshot is taken while the second is active,
    then both are committed. *)
Lemma snapshot_isolation_witness :
  let '(tx, w, _) := run (fun _ => 0) new Wal.create [Begin; Commit 1 0; Begin] in
  let '(tx', _, _) := run (fun _ => 0) tx w [Commit 2 0; Begin; Commit 3 0] in
  is_visible tx' (mkHeader 1 2 0 0 0) (snapshot tx) = true <-> 1 ∈ committed tx /\ (2 ∉ committed tx).
Proof. apply (snapshot_isolation (fun _ => 0) [Begin; Commit 1 0; Begin] [Commit 2 0; Begin; Commit 3 0]). done. Defined.

Definition skewed : list txn_op :=
  [Begin; Begin; Reads 1 (1, 1, 0); Reads 2 (1, 1, 1); Writes 1 (1, 1, 1); Writes 2 (1, 1, 0)].

Lemma write_skew_pair_not_both_committed_witness :
  let '(tx, w, _) := run (fun _ => 0) new Wal.create skewed in
  let '(tx', _, _) := run (fun _ => 0) tx w [Commit 1 0; Commit 2 0] in
  ~ (1 ∈ committed tx' /\ 2 ∈ committed tx').
Proof.
  pose proof (write_skew_pair_not_both_committed (fun _ => 0) skewed [Commit 1 0; Commit 2 0] 1 2 ltac:(done)) as H.
  destruct (run (fun _ => 0) new Wal.create skewed) as [[tx w] rs] eqn:E1.
  destruct (run (fun _ => 0) tx w _) as [[tx' w'] rs']. apply H; [done|..].
  all: replace tx with (run (fun _ => 0) new Wal.create skewed).1.1 by (by rewrite E1).
  - apply (bool_decide_unpack _). by vm_compute.
  - apply (bool_decide_unpack _). by vm_compute.
  - exists (1, 1, 0). split; apply (bool_decide_unpack _); by vm_compute.
  - exists (1, 1, 1). split; apply (bool_decide_unpack _); by vm_compute.
Defined.

End Txn.
