(* ===== verification/StorageRecovery.v ===== *)
(** * Crash recovery

    Models the recovery functions of [crates/storage/src/mvcc.rs]: the analysis
    of the log, redo against the buffer pool, and the two ways transaction
    states are restored ([recover] and [undo_recover]).  The theorems give what
    recovery promises on a map of pages, and the crash schedules it does not
    survive. *)

From stdpp Require Import gmap.
From S2P Require Import Prelude Bytes ByteOrder BTreeMap StorageError StoragePage StorageReplacer StorageDisk.
From S2P Require Import StorageBufferPool StorageWal StorageTxn.

Module Recovery.
Import Wal.

Inductive TxnState : Type := Active | Committed | Aborted.

(** ** Scanning the log *)

(** [while let Some(res) = reader.next_record() { let rec = res?; body }] for a
    body that updates local state. *)
Fixpoint for_records {S} (fuel : nat) (rd : WalReader) (body : DecodedRecord -> S -> S) (s : S) : result S :=
  match fuel with
  | O => Ok s
  | S fuel =>
      match next_record rd with
      | (_, None) => Ok s
      | (rd, Some res) => rec ← res; for_records fuel rd body (body rec s)
      end
  end.

(** Every record takes more than one byte. *)
Definition enough (rd : WalReader) : nat := S (length (data rd)).

Definition analyse (rec : DecodedRecord) (status : gmap N TxnState) : gmap N TxnState :=
  match record rec with
  | XactCommit _ => <[xid rec := Committed]> status
  | XactAbort _ => <[xid rec := Aborted]> status
  | HeapInsert _ _ _ _ | HeapUpdate _ _ _ _ _ _ _ | HeapDelete _ _ _ _ =>
      match status !! xid rec with
      | Some _ => status
      | None => <[xid rec := Active]> status
      end
  | Checkpoint _ _ _ _ => status
  end.

(** ** Redo *)

Section Redo.
Context {D : Type} `{PageStore D}.
Import Pool.

Definition redo_insert (at_lsn p slot : N) (tuple : list N) : pool_op (D := D) () :=
  f ← fetch_page p;
  pg ← page_of f;
  if Page.lsn pg <? at_lsn then
    used ← lift (Page.is_slot_used pg slot);
    if negb used then
      pg ← lift (match Page.insert_tuple pg tuple with
                 | Ok (pg', _) => Ok pg'
                 | Err _ => Ok pg
                 | Panic => Panic
                 end);
      _ ← put_page f (Page.set_lsn pg at_lsn);
      unpin_page p true
    else unpin_page p false
  else unpin_page p false.

Definition redo_delete (at_lsn p slot : N) : pool_op (D := D) () :=
  f ← fetch_page p;
  pg ← page_of f;
  used ← (if Page.lsn pg <? at_lsn then lift (Page.is_slot_used pg slot) else mret false);
  if (used : bool) then
    pg ← lift (Page.delete_tuple pg slot);
    _ ← put_page f (Page.set_lsn pg at_lsn);
    unpin_page p true
  else unpin_page p false.

(** The insert half of [HeapUpdate]: as [redo_insert], with one condition. *)
Definition redo_record (rec : DecodedRecord) : pool_op (D := D) () :=
  match record rec with
  | HeapInsert _ p slot tuple => redo_insert (lsn rec) p slot tuple
  | HeapDelete _ p slot _ => redo_delete (lsn rec) p slot
  | HeapUpdate _ old_page old_slot new_page new_slot _ new_tuple =>
      _ ← redo_delete (lsn rec) old_page old_slot;
      redo_insert (lsn rec) new_page new_slot new_tuple
  | _ => mret ()
  end.

Fixpoint redo_loop (fuel : nat) (rd : WalReader) : pool_op (D := D) () :=
  match fuel with
  | O => mret ()
  | S fuel =>
      match next_record rd with
      | (_, None) => mret ()
      | (rd, Some res) => rec ← lift res; _ ← redo_record rec; redo_loop fuel rd
      end
  end.

Definition redo_recover (w : WalManager) : pool_op (D := D) () :=
  rd ← lift (read_from w INVALID_LSN); redo_loop (enough rd) rd.

(** ** Restoring the transaction states *)

(** The two loops over [txn_status] and the advance of [next_xid]. *)
Definition mark_active (status : gmap N TxnState) (tx : Txn.TransactionManager) : Txn.TransactionManager :=
  foldr (fun '(x, st) tx =>
    match st with
    | Active => Txn.mkTm (Txn.next_xid tx) (Txn.committed tx) (Txn.aborted tx) ({[x]} ∪ Txn.active tx)
        (Txn.read_sets tx) (Txn.write_sets tx)
    | _ => tx
    end) tx (map_to_list status).

Definition restore_sets (status : gmap N TxnState) (tx : Txn.TransactionManager) : Txn.TransactionManager :=
  foldr (fun '(x, st) tx =>
    match st with
    | Committed => Txn.mkTm (Txn.next_xid tx) ({[x]} ∪ Txn.committed tx) (Txn.aborted tx) (Txn.active tx)
        (Txn.read_sets tx) (Txn.write_sets tx)
    | Aborted => Txn.mkTm (Txn.next_xid tx) (Txn.committed tx) ({[x]} ∪ Txn.aborted tx) (Txn.active tx)
        (Txn.read_sets tx) (Txn.write_sets tx)
    | Active => tx
    end) tx (map_to_list status).

Definition advance_next_xid (status : gmap N TxnState) (tx : Txn.TransactionManager) : Txn.TransactionManager :=
  let max_xid := foldr N.max 0 (fst <$> map_to_list status) in
  if Txn.next_xid tx <=? max_xid then
    Txn.mkTm (wadd 64 max_xid 1) (Txn.committed tx) (Txn.aborted tx) (Txn.active tx)
      (Txn.read_sets tx) (Txn.write_sets tx)
  else tx.

Definition recover (w : WalManager) (tx : Txn.TransactionManager) : pool_op (D := D) Txn.TransactionManager :=
  rd ← lift (read_from w INVALID_LSN);
  status ← lift (for_records (enough rd) rd analyse ∅);
  rd ← lift (read_from w INVALID_LSN);
  _ ← redo_loop (enough rd) rd;
  let tx := mark_active status tx in
  let tx := restore_sets status tx in
  mret (advance_next_xid status tx).

End Redo.

(** [committed], [explicitly_aborted] and [all_xids]. *)
Definition collect (rec : DecodedRecord) (s : gset N * gset N * gset N) : gset N * gset N * gset N :=
  let '(committed, explicitly_aborted, all_xids) := s in
  let all_xids := if xid rec =? Txn.INVALID_XID then all_xids else {[xid rec]} ∪ all_xids in
  match record rec with
  | XactCommit _ => ({[xid rec]} ∪ committed, explicitly_aborted, all_xids)
  | XactAbort _ => (committed, {[xid rec]} ∪ explicitly_aborted, all_xids)
  | _ => (committed, explicitly_aborted, all_xids)
  end.

Definition undo_recover (w : WalManager) (tx : Txn.TransactionManager) : result Txn.TransactionManager :=
  rd ← read_from w INVALID_LSN;
  '(committed, explicitly_aborted, all_xids) ← for_records (enough rd) rd collect (∅, ∅, ∅);
  Ok (foldr (fun x tx =>
    if negb (bool_decide (x ∈ committed)) && negb (bool_decide (x ∈ explicitly_aborted))
    then Txn.force_abort tx x else tx) tx (elements all_xids)).

Lemma for_records_drain {S} fuel rd recs (body : DecodedRecord -> S -> S) (s : S) : drain fuel rd = Ok recs ->
  for_records fuel rd body s = Ok (foldl (fun s rec => body rec s) s recs).
Proof.
  revert recs rd s. induction fuel as [|fuel IH]; intros recs rd s Hd; cbn in *; [by injection Hd as <-|].
  destruct (next_record rd) as [rd' [[rec| |]|]]; cbn in *; [|done|done|by injection Hd as <-].
  destruct (drain fuel rd') as [recs'| |] eqn:Hd'; cbn in Hd; [|done..]. injection Hd as <-. cbn [foldl]. by apply IH.
Qed.

(** ** Redo on pages *)

Definition redo_insert_page (at_lsn slot : N) (tuple : list N) (pg : Page.Page) : Page.Page :=
  if Page.lsn pg <? at_lsn then
    match Page.is_slot_used pg slot with
    | Ok false => Page.set_lsn (match Page.insert_tuple pg tuple with Ok (pg', _) => pg' | _ => pg end) at_lsn
    | _ => pg
    end
  else pg.

Definition redo_delete_page (at_lsn slot : N) (pg : Page.Page) : Page.Page :=
  if Page.lsn pg <? at_lsn then
    match Page.is_slot_used pg slot, Page.delete_tuple pg slot with
    | Ok true, Ok pg' => Page.set_lsn pg' at_lsn
    | _, _ => pg
    end
  else pg.

Definition on_page (f : Page.Page -> Page.Page) (bs : list N) : list N := Page.as_bytes (f (Page.from_bytes bs)).

Definition redo_map (m : gmap N (list N)) (rec : DecodedRecord) : gmap N (list N) :=
  match record rec with
  | HeapInsert _ p slot tuple => alter (on_page (redo_insert_page (lsn rec) slot tuple)) p m
  | HeapDelete _ p slot _ => alter (on_page (redo_delete_page (lsn rec) slot)) p m
  | HeapUpdate _ op os np ns _ tuple =>
      alter (on_page (redo_insert_page (lsn rec) ns tuple)) np
        (alter (on_page (redo_delete_page (lsn rec) os)) op m)
  | _ => m
  end.

Definition redo_maps (m : gmap N (list N)) (recs : list DecodedRecord) : gmap N (list N) := foldl redo_map m recs.

Lemma slot_used_lt pg slot : Page.page_wf pg -> Page.is_slot_used pg slot = Ok true -> slot < Page.slot_count pg.
Proof.
  intros Hp Hu. destruct (N.lt_ge_cases slot (Page.slot_count pg)) as [|Hge]; [done|].
  rewrite Page.is_slot_used_spec, Page.lookup_tuples_ge in Hu by done. done.
Qed.

Lemma redo_insert_page_wf at_lsn slot tuple pg : Page.page_wf pg -> bytes_ok tuple -> at_lsn < 2 ^ 64 ->
  Page.page_wf (redo_insert_page at_lsn slot tuple pg).
Proof.
  intros Hp Ht Hl. unfold redo_insert_page. destruct (_ <? _); [|done].
  rewrite Page.is_slot_used_spec by done. destruct (match _ with Some (Some _) => true | _ => false end); [done|].
  apply Page.set_lsn_spec; [|done]. pose proof (Page.page_step_refines (Page.OpInsert tuple) pg Hp Ht) as Hr.
  cbn in Hr. destruct (Page.insert_tuple pg tuple) as [[pg' s]| |]; [apply Hr|done..].
Qed.

Lemma redo_delete_page_wf at_lsn slot pg : Page.page_wf pg -> at_lsn < 2 ^ 64 ->
  Page.page_wf (redo_delete_page at_lsn slot pg).
Proof.
  intros Hp Hl. unfold redo_delete_page. destruct (_ <? _); [|done].
  destruct (Page.is_slot_used pg slot) as [[|]| |] eqn:Hu; [|done..].
  pose proof (slot_used_lt pg slot Hp Hu). rewrite Page.delete_tuple_eq by done.
  apply Page.set_lsn_spec; [|done]. by apply Page.deleted_wf.
Qed.

(** *** The pool performs them *)

Section Refinement.
Context {D : Type} `{PageStoreLaws D}.
Import Pool.
Implicit Types b : BufferPool D.

Lemma wf_len pg : Page.page_wf pg -> len (Page.as_bytes pg) = Page.PAGE_SIZE.
Proof. intros Hp. apply Hp. Qed.

Lemma redo_insert_spec b m p bs at_lsn slot tuple : represents b m -> m !! p = Some bs ->
  Page.page_wf (Page.from_bytes bs) -> bytes_ok tuple -> at_lsn < 2 ^ 64 ->
  Lru.clock (replacer b) < 2 ^ 64 - 1 ->
  exists b', redo_insert at_lsn p slot tuple b = (b', Ok ()) /\
    served b b' (alter (on_page (redo_insert_page at_lsn slot tuple)) p m).
Proof.
  intros Hr Hp Hw Ht Hl Hclk. destruct (visit b m p bs Hr Hp Hclk) as (b1 & f & He & [Hpg Hrel Hst]).
  pose proof (wf_len _ (redo_insert_page_wf at_lsn slot tuple _ Hw Ht Hl)) as Hlen.
  rewrite (alter_alt_Some _ _ _ _ Hp). pose proof (insert_id m p bs Hp) as Hsame.
  unfold redo_insert, mbind, pool_bind. rewrite He, Hpg. unfold on_page, redo_insert_page, lift in *.
  destruct (_ <? _); [|destruct Hrel as (b2 & -> & Hs); exists b2; by rewrite Page.as_from, Hsame].
  destruct (Page.is_slot_used (Page.from_bytes bs) slot) as [[|]| |] eqn:Hu; cbn [negb].
  - destruct Hrel as (b2 & -> & Hs). exists b2. by rewrite Page.as_from, Hsame.
  - destruct (Hst _ Hlen) as (b2 & b3 & Hput & Hun & Hs). exists b3.
    pose proof (Page.page_step_refines (Page.OpInsert tuple) _ Hw Ht) as Hnp. cbn in Hnp.
    rewrite Page.from_as in Hput. destruct (Page.insert_tuple _ tuple) as [[pg' s]|e|]; [| |done]; by rewrite Hput, Hun.
  - by rewrite Page.is_slot_used_spec in Hu.
  - by rewrite Page.is_slot_used_spec in Hu.
Qed.

Lemma redo_delete_spec b m p bs at_lsn slot : represents b m -> m !! p = Some bs ->
  Page.page_wf (Page.from_bytes bs) -> at_lsn < 2 ^ 64 -> Lru.clock (replacer b) < 2 ^ 64 - 1 ->
  exists b', redo_delete at_lsn p slot b = (b', Ok ()) /\
    served b b' (alter (on_page (redo_delete_page at_lsn slot)) p m).
Proof.
  intros Hr Hp Hw Hl Hclk. destruct (visit b m p bs Hr Hp Hclk) as (b1 & f & He & [Hpg Hrel Hst]).
  pose proof (wf_len _ (redo_delete_page_wf at_lsn slot _ Hw Hl)) as Hlen.
  rewrite (alter_alt_Some _ _ _ _ Hp). pose proof (insert_id m p bs Hp) as Hsame.
  unfold redo_delete, mbind, pool_bind. rewrite He, Hpg. unfold on_page, redo_delete_page, lift in *.
  destruct (_ <? _); [|cbn [mret pool_ret]; destruct Hrel as (b2 & -> & Hs); exists b2; by rewrite Page.as_from, Hsame].
  destruct (Page.is_slot_used (Page.from_bytes bs) slot) as [[|]| |] eqn:Hu.
  - pose proof (slot_used_lt _ _ Hw Hu) as Hlt.
    rewrite Page.delete_tuple_eq in * by done. destruct (Hst _ Hlen) as (b2 & b3 & Hput & Hun & Hs). exists b3.
    rewrite Page.from_as in Hput. by rewrite Hput, Hun.
  - destruct Hrel as (b2 & -> & Hs). exists b2. by rewrite Page.as_from, Hsame.
  - by rewrite Page.is_slot_used_spec in Hu.
  - by rewrite Page.is_slot_used_spec in Hu.
Qed.

(** Every page of the map is a formatted page. *)
Definition formatted (m : gmap N (list N)) : Prop :=
  forall p bs, m !! p = Some bs -> Page.page_wf (Page.from_bytes bs).

(** The record's pages exist and its tuple is made of bytes. *)
Definition applies_to (m : gmap N (list N)) (rec : DecodedRecord) : Prop :=
  lsn rec < 2 ^ 64 /\
  match record rec with
  | HeapInsert _ p _ tuple => is_Some (m !! p) /\ bytes_ok tuple
  | HeapDelete _ p _ _ => is_Some (m !! p)
  | HeapUpdate _ op _ np _ _ tuple => is_Some (m !! op) /\ is_Some (m !! np) /\ bytes_ok tuple
  | _ => True
  end.

Lemma alter_formatted m p f : formatted m ->
  (forall pg, Page.page_wf pg -> Page.page_wf (f pg)) -> formatted (alter (on_page f) p m).
Proof.
  intros Hm Hf q bs. destruct (decide (q = p)) as [->|Hne].
  - rewrite lookup_alter_eq, fmap_Some. intros (bs0 & Hq & ->). unfold on_page. rewrite Page.from_as. eauto.
  - rewrite lookup_alter_ne by done. apply Hm.
Qed.

Lemma redo_map_formatted m rec : formatted m -> applies_to m rec -> formatted (redo_map m rec).
Proof.
  intros Hm [Hl Hr]. unfold redo_map. destruct (record rec); try done; repeat apply alter_formatted; try done;
    intros; (apply redo_insert_page_wf || apply redo_delete_page_wf); naive_solver.
Qed.

Lemma redo_map_dom m rec p : is_Some (redo_map m rec !! p) <-> is_Some (m !! p).
Proof. unfold redo_map. destruct (record rec); rewrite ?lookup_alter_is_Some; done. Qed.

Lemma applies_to_dom m m' rec : (forall p, is_Some (m' !! p) <-> is_Some (m !! p)) ->
  applies_to m rec -> applies_to m' rec.
Proof. intros Hd [Hl Hr]. split; [done|]. destruct (record rec); rewrite ?Hd; done. Qed.

Lemma redo_record_spec b m rec : represents b m -> formatted m -> applies_to m rec ->
  Lru.clock (replacer b) + 2 < 2 ^ 64 ->
  exists b', redo_record rec b = (b', Ok ()) /\ represents b' (redo_map m rec) /\
    Lru.clock (replacer b') <= Lru.clock (replacer b) + 2.
Proof.
  intros Hr Hm [Hl Ha] Hclk. unfold redo_record, redo_map.
  destruct (record rec) as [t p s d|t op os np ns x d|t p s x|ts|ts|? ? ? ?].
  - destruct Ha as [[bs Hp] Hd].
    destruct (redo_insert_spec b m p bs (lsn rec) s d) as (b' & He & [? ? _]); [done|done|by eapply Hm|done|done|lia|].
    exists b'. split_and!; [done..|lia].
  - destruct Ha as ([bs Hp] & [bs' Hq] & Hd).
    destruct (redo_delete_spec b m op bs (lsn rec) os) as (b1 & He & [Hr1 Hk1 _]); [done|done|by eapply Hm|done|lia|].
    set (m1 := alter _ op m) in *.
    assert (Hm1 : formatted m1) by (apply alter_formatted; [done|]; intros; by apply redo_delete_page_wf).
    assert (is_Some (m1 !! np)) as [bs1 Hq1] by (unfold m1; rewrite lookup_alter_is_Some; by eexists).
    destruct (redo_insert_spec b1 m1 np bs1 (lsn rec) ns d) as (b2 & He2 & [Hr2 Hk2 _]); [done|done|by eapply Hm1|done|done|lia|].
    exists b2. unfold mbind, pool_bind. rewrite He. split_and!; [done..|lia].
  - destruct Ha as [bs Hp].
    destruct (redo_delete_spec b m p bs (lsn rec) s) as (b' & He & [? ? _]); [done|done|by eapply Hm|done|lia|].
    exists b'. split_and!; [done..|lia].
  - exists b. split_and!; [done..|lia].
  - exists b. split_and!; [done..|lia].
  - exists b. split_and!; [done..|lia].
Qed.

(** Redo through the pool is redo on the map of pages. *)
Lemma redo_loop_spec recs fuel rd b m : drain fuel rd = Ok recs -> represents b m -> formatted m ->
  Forall (applies_to m) recs -> Lru.clock (replacer b) + 2 * len recs < 2 ^ 64 ->
  exists b', redo_loop fuel rd b = (b', Ok ()) /\ represents b' (redo_maps m recs) /\ formatted (redo_maps m recs).
Proof.
  revert recs rd b m. induction fuel as [|fuel IH]; intros recs rd b m Hdr Hr Hm Ha Hclk.
  { injection Hdr as <-. by exists b. }
  cbn [drain redo_loop] in *. destruct (next_record rd) as [rd' [res|]]; [|injection Hdr as <-; by exists b].
  destruct res as [rec| |]; cbn [mbind outcome_bind] in Hdr; [|done..].
  destruct (drain fuel rd') as [recs'| |] eqn:Hd; cbn [mbind outcome_bind] in Hdr; [|done..]. injection Hdr as <-.
  apply Forall_cons in Ha as [Ha Has]. rewrite len_cons in Hclk.
  destruct (redo_record_spec b m rec) as (b1 & He & Hr1 & Hk1); [done|done|done|lia|].
  destruct (IH recs' rd' b1 (redo_map m rec)) as (b2 & He2 & Hr2 & Hm2); [done|done| | |lia|].
  { by apply redo_map_formatted. }
  { eapply Forall_impl; [exact Has|]. intros. by eapply applies_to_dom; [apply redo_map_dom|]. }
  exists b2. unfold mbind, pool_bind, lift. by rewrite He.
Qed.

End Refinement.

(** ** Redo is idempotent *)

(** The page a record changes and how; the reader returns no [HeapUpdate]. *)
Definition effect (rec : DecodedRecord) : option (N * (list N -> list N)) :=
  match record rec with
  | HeapInsert _ p slot tuple => Some (p, on_page (redo_insert_page (lsn rec) slot tuple))
  | HeapDelete _ p slot _ => Some (p, on_page (redo_delete_page (lsn rec) slot))
  | _ => None
  end.

Definition not_update (rec : DecodedRecord) : Prop :=
  forall t op os np ns x d, record rec <> HeapUpdate t op os np ns x d.

Lemma redo_map_effect m rec : not_update rec ->
  redo_map m rec = match effect rec with Some (p, f) => alter f p m | None => m end.
Proof. intros Hn. unfold redo_map, effect. destruct (record rec) eqn:E; try done. by destruct (Hn _ _ _ _ _ _ _ E). Qed.

Definition page_lsn (bs : list N) : N := Page.lsn (Page.from_bytes bs).

(** A record is skipped on a newer page, and otherwise leaves it alone or stamps it. *)
Lemma effect_newer rec p f bs : effect rec = Some (p, f) -> lsn rec <= page_lsn bs -> f bs = bs.
Proof.
  unfold effect, page_lsn. intros He Hl. destruct (record rec); try done; injection He as <- <-;
    unfold on_page, redo_insert_page, redo_delete_page; by rewrite (proj2 (N.ltb_ge _ _) Hl).
Qed.

Lemma effect_stamps m rec p f bs : effect rec = Some (p, f) -> applies_to m rec ->
  Page.page_wf (Page.from_bytes bs) -> f bs = bs \/ page_lsn (f bs) = lsn rec.
Proof.
  intros He [Hl Ha] Hw. unfold effect in He. unfold page_lsn.
  destruct (record rec) as [t q slot tuple| |t q slot x| | |] eqn:Er; try done; injection He as <- <-; unfold on_page;
    rewrite Page.from_as; [unfold redo_insert_page|unfold redo_delete_page]; (destruct (_ <? _); [|by left]).
  - destruct Ha as [_ Ht]. destruct (Page.is_slot_used _ slot) as [[|]| |]; [by left| |by left..]. right.
    pose proof (Page.page_step_refines (Page.OpInsert tuple) _ Hw Ht) as Hs. cbn in Hs.
    destruct (Page.insert_tuple _ tuple) as [[pg' s]| |]; apply Page.set_lsn_spec; naive_solver.
  - destruct (Page.is_slot_used _ slot) as [[|]| |] eqn:Hu; [|by left..]. right.
    pose proof (slot_used_lt _ _ Hw Hu). rewrite Page.delete_tuple_eq by done.
    apply Page.set_lsn_spec; [by apply Page.deleted_wf|done].
Qed.

Lemma effect_idempotent m rec p f bs : effect rec = Some (p, f) -> applies_to m rec ->
  Page.page_wf (Page.from_bytes bs) -> f (f bs) = f bs.
Proof.
  intros He Ha Hw. destruct (effect_stamps m rec p f bs He Ha Hw) as [E|Hl]; [by rewrite !E|].
  eapply effect_newer; [done|]. by rewrite Hl.
Qed.

(** After the later records a page is as it was, or carries a later stamp. *)
Lemma redo_maps_page m recs l p : formatted m -> Forall (applies_to m) recs -> Forall not_update recs ->
  Forall (fun rec => l < lsn rec) recs ->
  redo_maps m recs !! p = m !! p \/ exists bs, redo_maps m recs !! p = Some bs /\ l < page_lsn bs.
Proof.
  revert m. induction recs as [|rec recs IH]; intros m Hm Ha Hn Hl; [by left|].
  apply Forall_cons in Ha as [Ha Has], Hn as [Hn Hns], Hl as [Hlr Hls]. cbn [redo_maps foldl].
  destruct (IH (redo_map m rec)) as [Hs|?]; [by apply redo_map_formatted| |done|done| |by right].
  { eapply Forall_impl; [exact Has|]. intros. by eapply applies_to_dom; [apply redo_map_dom|]. }
  fold (redo_maps (redo_map m rec) recs). rewrite Hs, redo_map_effect by done.
  destruct (effect rec) as [[q f]|] eqn:He; [|by left].
  destruct (decide (p = q)) as [->|Hne]; [|left; by rewrite lookup_alter_ne]. rewrite lookup_alter_eq.
  destruct (m !! q) as [bs|] eqn:Hq; [|by left]. cbn.
  destruct (effect_stamps m rec q f bs He Ha) as [-> |Hst]; [by eapply Hm|by left|].
  right. exists (f bs). split; [done|]. by rewrite Hst.
Qed.

Lemma alter_fixed (f : list N -> list N) p (m : gmap N (list N)) : f <$> m !! p = m !! p -> alter f p m = m.
Proof.
  intros Hf. apply map_eq. intros q. destruct (decide (q = p)) as [->|Hne]; [by rewrite lookup_alter_eq|].
  by rewrite lookup_alter_ne.
Qed.

Lemma redo_fixes m recs : formatted m -> Forall (applies_to m) recs -> Forall not_update recs ->
  StronglySorted (fun r1 r2 => lsn r1 < lsn r2) recs ->
  Forall (fun rec => redo_map (redo_maps m recs) rec = redo_maps m recs) recs.
Proof.
  revert m. induction recs as [|rec recs IH]; intros m Hm Ha Hn Hs; [constructor|].
  pose proof Ha as Ha'. pose proof Hn as Hn'.
  apply Forall_cons in Ha' as [Har Has], Hn' as [Hnr Hns]. apply StronglySorted_inv in Hs as [Hs Hlt].
  cbn [redo_maps foldl]. set (m1 := redo_map m rec). fold (redo_maps m1 recs).
  assert (Hm1 : formatted m1) by (by apply redo_map_formatted).
  assert (Ha1 : Forall (applies_to m1) recs).
  { eapply Forall_impl; [exact Has|]. intros. by eapply applies_to_dom; [apply redo_map_dom|]. }
  constructor; [|by apply IH]. rewrite redo_map_effect by done.
  destruct (effect rec) as [[p f]|] eqn:He; [|done]. apply alter_fixed.
  destruct (redo_maps_page m1 recs (lsn rec) p) as [Hsame|(bs & Hbs & Hl)]; [done..| |].
  - rewrite Hsame. unfold m1. rewrite redo_map_effect, He, lookup_alter_eq by done.
    destruct (m !! p) as [bs|] eqn:Hp; [|done]. cbn. f_equal. eapply effect_idempotent; [done|done|by eapply Hm].
  - rewrite Hbs. cbn. f_equal. eapply effect_newer; [done|lia].
Qed.

(** Redo is idempotent: replaying the log over pages it has already been
    replayed on changes nothing, so recovery may itself be interrupted and run
    again. *)
Theorem redo_idempotent m recs : formatted m -> Forall (applies_to m) recs -> Forall not_update recs ->
  StronglySorted (fun r1 r2 => lsn r1 < lsn r2) recs ->
  redo_maps (redo_maps m recs) recs = redo_maps m recs.
Proof.
  intros Hm Ha Hn Hs. pose proof (redo_fixes m recs Hm Ha Hn Hs) as Hf. set (m' := redo_maps m recs) in *.
  clearbody m'. clear -Hf. unfold redo_maps. induction Hf as [|rec recs Hr _ IH]; cbn; [done|]. by rewrite Hr.
Qed.

(** ** Redo restores inserts *)

(** The tuples the log inserts into page [p], when its records for [p] are inserts
    at the slots [k], [k + 1], ... *)
Fixpoint insert_history (p k : N) (recs : list DecodedRecord) : option (list (list N)) :=
  match recs with
  | [] => Some []
  | rec :: recs =>
      match record rec with
      | HeapInsert _ q slot tuple =>
          if q =? p then
            if slot =? k then cons tuple <$> insert_history p (k + 1) recs else None
          else insert_history p k recs
      | HeapDelete _ q _ _ => if q =? p then None else insert_history p k recs
      | HeapUpdate _ _ _ _ _ _ _ => None
      | _ => insert_history p k recs
      end
  end.

(** The page has not seen the records for its slots from [n] on. *)
Definition unseen (p n l : N) (rec : DecodedRecord) : Prop :=
  match record rec with
  | HeapInsert _ q slot _ => q = p -> n <= slot -> l < lsn rec
  | _ => True
  end.

Definition space_for (ts : list (list N)) : N := foldr (fun t n => 4 + len t + n) 0 ts.

Lemma redo_insert_fits at_lsn pg t : Page.page_wf pg -> bytes_ok t -> at_lsn < 2 ^ 64 -> Page.lsn pg < at_lsn ->
  4 + len t <= Page.free_space pg ->
  let pg' := redo_insert_page at_lsn (Page.slot_count pg) t pg in
  Page.page_wf pg' /\ Page.tuples pg' = Page.tuples pg ++ [Some t] /\
  Page.free_space pg' = Page.free_space pg - (4 + len t) /\ Page.lsn pg' = at_lsn.
Proof.
  intros Hw Ht Hl Hlt Hfit. unfold redo_insert_page. rewrite (proj2 (N.ltb_lt _ _) Hlt).
  rewrite Page.is_slot_used_spec, Page.lookup_tuples_ge, Page.insert_tuple_eq by done.
  pose proof (Page.inserted_wf pg (Page.slot_count pg) t Hw (N.le_refl _) Hfit Ht) as Hw'.
  destruct (Page.set_lsn_spec _ at_lsn Hw' Hl) as (Hw2 & Ht2 & Hf2 & Hl2).
  pose proof (Page.abs_inserted pg (Page.slot_count pg) t Hw (N.le_refl _) Hfit) as Ha.
  injection Ha as Hat Haf Has. split_and!; [done| | |done].
  - rewrite Ht2, Hat. rewrite <- Page.length_tuples, firstn_all, drop_all. done.
  - by rewrite Hf2, Haf.
Qed.

Lemma redo_history p recs : forall k pre rest m bs,
  insert_history p k recs = Some (drop (N.to_nat k) pre ++ rest) -> k <= len pre ->
  formatted m -> Forall (applies_to m) recs -> m !! p = Some bs ->
  Page.tuples (Page.from_bytes bs) = Some <$> pre ->
  space_for rest <= Page.free_space (Page.from_bytes bs) ->
  StronglySorted (fun r1 r2 => lsn r1 < lsn r2) recs ->
  Forall (unseen p (len pre) (page_lsn bs)) recs ->
  exists bs', redo_maps m recs !! p = Some bs' /\ Page.tuples (Page.from_bytes bs') = Some <$> (pre ++ rest).
Proof.
  induction recs as [|rec recs IH]; intros k pre rest m bs Hh Hk Hm Ha Hp Ht Hsp Hs Hu.
  { cbn in Hh. injection Hh as Hh. symmetry in Hh. apply app_nil in Hh as [_ ->]. exists bs. by rewrite app_nil_r. }
  apply Forall_cons in Ha as [Har Has], Hu as [Hur Hus]. apply StronglySorted_inv in Hs as [Hs Hlt].
  assert (Hm1 : formatted (redo_map m rec)) by (by apply redo_map_formatted).
  assert (Has1 : Forall (applies_to (redo_map m rec)) recs).
  { eapply Forall_impl; [exact Has|]. intros. by eapply applies_to_dom; [apply redo_map_dom|]. }
  assert (Hskip : insert_history p k recs = Some (drop (N.to_nat k) pre ++ rest) -> redo_map m rec !! p = Some bs ->
    exists bs', redo_maps m (rec :: recs) !! p = Some bs' /\ Page.tuples (Page.from_bytes bs') = Some <$> (pre ++ rest)).
  { intros Hh' Hp'. by eapply (IH k pre rest (redo_map m rec) bs). }
  cbn [insert_history] in Hh. unfold redo_map in Hskip at 1.
  destruct (record rec) as [t q slot tuple|? ? ? ? ? ? ?|t q slot x|ts|ts|? ? ? ?] eqn:Er; [|done| |by apply Hskip..].
  2: { destruct (N.eqb_spec q p); [done|]. apply Hskip; [done|]. by rewrite lookup_alter_ne. }
  destruct (N.eqb_spec q p) as [->|Hne]; [|apply Hskip; [done|]; by rewrite lookup_alter_ne].
  destruct (N.eqb_spec slot k) as [->|]; [|done]. apply fmap_Some in Hh as (hist & Hh & Heq).
  clear Hskip. cbn [redo_maps foldl]. fold (redo_maps (redo_map m rec) recs).
  assert (Hmp : redo_map m rec !! p = Some (on_page (redo_insert_page (lsn rec) k tuple) bs)).
  { unfold redo_map. rewrite Er, lookup_alter_eq, Hp. done. }
  assert (Hw : Page.page_wf (Page.from_bytes bs)) by (by eapply Hm).
  assert (Hsc : Page.slot_count (Page.from_bytes bs) = len pre).
  { rewrite <- Page.len_tuples, Ht. unfold len. by rewrite length_fmap. }
  destruct (N.lt_ge_cases k (len pre)) as [Hlk|Hge].
  - destruct (lookup_lt_is_Some_2 pre (N.to_nat k)) as [x Hx]; [unfold len in Hlk; lia|].
    rewrite (drop_S _ _ _ Hx) in Heq. injection Heq as -> Heq.
    apply (IH (k + 1) pre rest (redo_map m rec) bs); try done; [|lia|].
    { rewrite Hh. f_equal. rewrite <- Heq. f_equal. f_equal. lia. }
    rewrite Hmp. f_equal. unfold on_page, redo_insert_page. destruct (_ <? _); [|done].
    rewrite Page.is_slot_used_spec, Ht, list_lookup_fmap, Hx by done. done.
  - assert (k = len pre) as -> by lia. rewrite drop_ge in Heq by (rewrite len_length; lia). cbn in Heq. subst rest.
    destruct Har as [Hlb Hrb]. rewrite Er in Hrb. destruct Hrb as [_ Htb]. cbn [space_for foldr] in Hsp. fold (space_for hist) in Hsp.
    unfold unseen in Hur. rewrite Er in Hur.
    destruct (redo_insert_fits (lsn rec) (Page.from_bytes bs) tuple Hw Htb Hlb) as (Hw' & Ht' & Hf' & Hl');
      [apply Hur; done|lia|]. rewrite Hsc in *.
    destruct (IH (len pre + 1) (pre ++ [tuple]) hist (redo_map m rec) (on_page (redo_insert_page (lsn rec) (len pre) tuple) bs)) as (bs' & Hbs' & Htl'); try done.
    + rewrite drop_ge by (rewrite length_app; unfold len; cbn; lia). done.
    + rewrite len_app, len_cons, len_nil. lia.
    + unfold on_page. rewrite Page.from_as, Ht', Ht, fmap_app. done.
    + unfold on_page. rewrite Page.from_as, Hf'. lia.
    + unfold page_lsn, on_page. rewrite Page.from_as, Hl'. eapply Forall_impl; [exact Hlt|].
      intros r Hr. unfold unseen. by destruct (record r).
    + exists bs'. split; [done|]. by rewrite Htl', <- app_assoc.
Qed.

(** Redo restores inserted tuples.  When the records of the log for a page
    are inserts at successive slots, and the page on disk holds a prefix of
    them and carries a stamp older than the first missing record, then after
    redo the page holds all of them, at the slots at which they were inserted,
    whatever the records for other pages do. *)
Theorem redo_restores_inserts p recs pre rest m bs :
  insert_history p 0 recs = Some (pre ++ rest) ->
  formatted m -> Forall (applies_to m) recs -> m !! p = Some bs ->
  Page.tuples (Page.from_bytes bs) = Some <$> pre ->
  space_for rest <= Page.free_space (Page.from_bytes bs) ->
  StronglySorted (fun r1 r2 => lsn r1 < lsn r2) recs ->
  Forall (unseen p (len pre) (page_lsn bs)) recs ->
  exists bs', redo_maps m recs !! p = Some bs' /\ Page.tuples (Page.from_bytes bs') = Some <$> (pre ++ rest).
Proof. intros. eapply (redo_history p recs 0 pre rest); try done. lia. Qed.

(** ** What the log says about a transaction *)

Definition has_commit (recs : list DecodedRecord) (x : N) : Prop :=
  exists rec ts, rec ∈ recs /\ xid rec = x /\ record rec = XactCommit ts.
Definition has_abort (recs : list DecodedRecord) (x : N) : Prop :=
  exists rec ts, rec ∈ recs /\ xid rec = x /\ record rec = XactAbort ts.

Lemma has_commit_app l1 l2 x : has_commit (l1 ++ l2) x <-> has_commit l1 x \/ has_commit l2 x.
Proof. unfold has_commit. setoid_rewrite elem_of_app. naive_solver. Qed.
Lemma has_abort_app l1 l2 x : has_abort (l1 ++ l2) x <-> has_abort l1 x \/ has_abort l2 x.
Proof. unfold has_abort. setoid_rewrite elem_of_app. naive_solver. Qed.
Lemma has_commit_one rec x : has_commit [rec] x <-> xid rec = x /\ exists ts, record rec = XactCommit ts.
Proof. unfold has_commit. setoid_rewrite list_elem_of_singleton. naive_solver. Qed.
Lemma has_abort_one rec x : has_abort [rec] x <-> xid rec = x /\ exists ts, record rec = XactAbort ts.
Proof. unfold has_abort. setoid_rewrite list_elem_of_singleton. naive_solver. Qed.

Definition status_of (recs : list DecodedRecord) : gmap N TxnState := foldl (fun s rec => analyse rec s) ∅ recs.

Lemma status_snoc recs rec : status_of (recs ++ [rec]) = analyse rec (status_of recs).
Proof. unfold status_of. by rewrite foldl_app. Qed.

(** A transaction is found committed only when it has a commit record, and then
    always when it has no abort record. *)
Lemma status_committed_sound recs x : status_of recs !! x = Some Committed -> has_commit recs x.
Proof.
  induction recs as [|rec recs IH] using rev_ind; [done|]. rewrite status_snoc, has_commit_app, has_commit_one.
  unfold analyse. destruct (record rec) eqn:Er; try case_match; rewrite ?lookup_insert_Some; naive_solver.
Qed.

Lemma status_committed_complete recs x : ~ has_abort recs x -> has_commit recs x ->
  status_of recs !! x = Some Committed.
Proof.
  induction recs as [|rec recs IH] using rev_ind; [by intros _ (? & ? & ?%elem_of_nil & _)|].
  rewrite status_snoc, has_commit_app, has_commit_one, has_abort_app, has_abort_one.
  intros [Hab Hab1]%Decidable.not_or. specialize (IH Hab).
  unfold analyse. destruct (record rec) eqn:Er; try case_match; rewrite ?lookup_insert_Some;
    destruct (decide (xid rec = x)); naive_solver.
Qed.

Lemma status_xids recs rec : rec ∈ recs -> (forall r n o xs, record rec <> Checkpoint r n o xs) ->
  is_Some (status_of recs !! xid rec).
Proof.
  assert (Hmono : forall r s x, is_Some (s !! x) -> is_Some (analyse r s !! x)).
  { intros r s x Hs. unfold analyse. destruct (record r); try case_match; try done;
      apply lookup_insert_is_Some; destruct (decide (xid r = x)); auto. }
  induction recs as [|r recs IH] using rev_ind; [by intros ?%elem_of_nil|].
  rewrite status_snoc. intros [Hin|Hin%list_elem_of_singleton]%elem_of_app Hck; [auto|subst r].
  unfold analyse. destruct (record rec) eqn:Er; try case_match; rewrite ?lookup_insert_eq; try done. by destruct (Hck _ _ _ _ eq_refl).
Qed.

(** The ids in the analysis come from records. *)
Lemma status_bound recs x st n : (forall rec, rec ∈ recs -> xid rec < n) -> status_of recs !! x = Some st -> x < n.
Proof.
  induction recs as [|rec recs IH] using rev_ind; [done|]. rewrite status_snoc. intros Hall.
  assert (Hrec : xid rec < n) by (apply Hall; rewrite elem_of_app, list_elem_of_singleton; auto).
  assert (IH' : status_of recs !! x = Some st -> x < n) by (apply IH; intros; apply Hall, elem_of_app; auto).
  unfold analyse. destruct (record rec); try case_match; try (by auto);
    rewrite lookup_insert_Some; intros [[<- _]|[_ ?]]; auto.
Qed.

Lemma mark_active_spec st tx : Txn.committed (mark_active st tx) = Txn.committed tx /\
  Txn.next_xid (mark_active st tx) = Txn.next_xid tx.
Proof. unfold mark_active. induction (map_to_list st) as [|[x []] l IH]; done. Qed.

Lemma restore_sets_spec st tx : Txn.next_xid (restore_sets st tx) = Txn.next_xid tx /\
  forall x, x ∈ Txn.committed (restore_sets st tx) <-> st !! x = Some Committed \/ x ∈ Txn.committed tx.
Proof.
  assert (Hst : forall x, st !! x = Some Committed <-> (x, Committed) ∈ map_to_list st)
    by (intros; symmetry; apply elem_of_map_to_list).
  setoid_rewrite Hst. clear Hst. unfold restore_sets.
  induction (map_to_list st) as [|[y s] l [IHn IHc]]; [set_solver|]. split; [by destruct s|].
  intros x. destruct s; cbn; rewrite ?elem_of_union, ?elem_of_singleton, IHc, elem_of_cons; naive_solver.
Qed.

Lemma advance_next_xid_spec st tx : (forall x, is_Some (st !! x) -> x < 2 ^ 64 - 1) ->
  Txn.committed (advance_next_xid st tx) = Txn.committed tx /\
  forall x, is_Some (st !! x) -> x < Txn.next_xid (advance_next_xid st tx).
Proof.
  intros Hb. unfold advance_next_xid. set (mx := foldr N.max 0 _).
  assert (Hle : forall x, is_Some (st !! x) -> x <= mx).
  { intros x [s Hs%elem_of_map_to_list]. subst mx. induction (map_to_list st) as [|[y t] l IH]; [by apply elem_of_nil in Hs|].
    apply elem_of_cons in Hs as [[= -> ->]|Hs]; cbn; [lia|]. specialize (IH Hs). cbn in IH. lia. }
  assert (Hmx : mx < 2 ^ 64 - 1).
  { subst mx. assert (Hall : forall x s, (x, s) ∈ map_to_list st -> x < 2 ^ 64 - 1)
      by (intros x s Hs%elem_of_map_to_list; eauto).
    clear -Hall. induction (map_to_list st) as [|[y t] l IH]; cbn; [done|].
    apply N.max_lub_lt; [by eapply Hall; left|]. apply IH. intros x s Hs. eapply Hall. by right. }
  destruct (N.leb_spec (Txn.next_xid tx) mx); (split; [done|]); intros x Hx%Hle; cbn; rewrite ?wadd_small by lia; lia.
Qed.

(** ** The log of a run of transactions *)

Section Logged.
Variable crc32 : list N -> N.

Definition txn_op_ok (op : Txn.txn_op) : Prop :=
  match op with
  | Txn.Logs x (HeapInsert t p s d) => x < 2 ^ 64 - 1 /\ record_ok (HeapInsert t p s d)
  | Txn.Logs x (HeapDelete t p s o) => x < 2 ^ 64 - 1 /\ record_ok (HeapDelete t p s o)
  | Txn.Logs _ _ => False
  | Txn.Commit x ts | Txn.Abort x ts => x < 2 ^ 64 - 1 /\ ts < 2 ^ 64
  | _ => True
  end.

Definition txn_op_size (op : Txn.txn_op) : N :=
  match op with
  | Txn.Logs x r => op_size (Append x r)
  | Txn.Commit _ _ | Txn.Abort _ _ => 42
  | _ => 0
  end.

Definition txn_ops_size (ops : list Txn.txn_op) : N := foldr (fun op n => txn_op_size op + n) 0 ops.

(** The durable commit records are those of the committed transactions, and the
    abort records belong to aborted ones. *)
Record logged (tx : Txn.TransactionManager) (w : WalManager) (s : abs_log) : Prop := {
  lg_refines : refines crc32 w s;
  lg_commit : forall x, has_commit (durable s) x <-> x ∈ Txn.committed tx;
  lg_pending : forall x, ~ has_commit (pending s) x;
  lg_abort : forall x, has_abort (durable s ++ pending s) x -> x ∈ Txn.aborted tx;
  lg_xids : Forall (fun rec => xid rec < 2 ^ 64 - 1) (durable s ++ pending s);
  lg_kinds : Forall (fun rec => forall r n o xs, record rec <> Checkpoint r n o xs) (durable s ++ pending s)
}.

Definition log_size (s : abs_log) : N := size crc32 (durable s ++ pending s).

(** Flushing and appending, seen as a list of records. *)
Lemma log_append w s x r : refines crc32 w s -> x < 2 ^ 64 -> record_ok r ->
  log_size s + op_size (Append x r) < 2 ^ 64 ->
  exists w' s' rec, write_record crc32 w x r = (w', Ok (lsn rec)) /\ refines crc32 w' s' /\
    xid rec = x /\ record rec = r /\ log_size s' = log_size s + op_size (Append x r) /\
    ((durable s' = durable s /\ pending s' = pending s ++ [rec]) \/
     (durable s' = durable s ++ pending s ++ [rec] /\ pending s' = [])).
Proof.
  intros Hr Hx Hok Hsz. destruct (append_refines crc32 w s x r Hr Hx Hok Hsz) as [Hr' He].
  destruct (write_record crc32 w x r) as [w' res]. cbn [fst snd] in *. subst res.
  exists w', (fst (abs_step crc32 s (Append x r))), (mkDecoded (size crc32 (durable s ++ pending s)) (chain s) x r).
  assert (Hd : forall d, record d = r -> size crc32 [d] = op_size (Append x r)).
  { intros d <-. unfold size, entries. cbn. rewrite app_nil_r. apply len_entry. }
  split_and!; [done|done|done|done|..]; unfold log_size; cbn [abs_step fst];
    destruct (_ <=? _); cbn [durable pending abs_flush]; rewrite ?app_nil_r; auto;
    rewrite app_assoc, (size_app crc32 (durable s ++ pending s)), Hd; done.
Qed.

Lemma log_flush w s : refines crc32 w s -> log_size s < 2 ^ 64 ->
  exists w' n, flush w = (w', Ok n) /\ refines crc32 w' (abs_flush s) /\ log_size (abs_flush s) = log_size s.
Proof.
  intros Hr Hsz. destruct (flush_refines crc32 w s Hr Hsz) as [Hr' He]. destruct (flush w) as [w' res].
  cbn [fst snd] in *. subst res. exists w', (size crc32 (durable s ++ pending s)). split_and!; [done..|].
  unfold log_size. cbn. by rewrite app_nil_r.
Qed.

Lemma logged_append tx tx' w s x r : logged tx w s -> x < 2 ^ 64 - 1 -> record_ok r ->
  (forall ts, r <> XactCommit ts) -> (forall a b c d, r <> Checkpoint a b c d) ->
  (forall ts, r = XactAbort ts -> x ∈ Txn.aborted tx') ->
  Txn.committed tx' = Txn.committed tx -> Txn.aborted tx ⊆ Txn.aborted tx' ->
  log_size s + op_size (Append x r) < 2 ^ 64 ->
  exists w' s' n, write_record crc32 w x r = (w', Ok n) /\ logged tx' w' s' /\
    log_size s' = log_size s + op_size (Append x r).
Proof.
  intros [Hr Hc Hp Ha Hx Hk] Hxb Hok Hnc Hnk Hab Hct Hat Hsz.
  destruct (log_append w s x r Hr) as (w' & s' & rec & He & Hr' & Hxid & Hrec & Hls & Hs'); [lia|done|done|].
  exists w', s', (lsn rec). split_and!; [done| |done].
  assert (Hone : forall y, ~ has_commit [rec] y) by (intros y [_ [ts Hts]]%has_commit_one; by destruct (Hnc ts); congruence).
  assert (Hall : durable s' ++ pending s' = (durable s ++ pending s) ++ [rec]).
  { destruct Hs' as [[-> ->]|[-> ->]]; by rewrite ?app_nil_r, ?app_assoc. }
  split; [done|..].
  - intros y. rewrite Hct, <- Hc. destruct Hs' as [[-> _]|[-> _]]; [done|].
    rewrite !has_commit_app. specialize (Hp y). specialize (Hone y). tauto.
  - intros y. destruct Hs' as [[_ ->]|[_ ->]]; [rewrite has_commit_app; specialize (Hp y); specialize (Hone y); tauto|].
    by intros (? & ? & ?%elem_of_nil & _).
  - intros y. rewrite Hall, has_abort_app, has_abort_one. intros [Hy|[<- [ts Hts]]]; [auto|].
    rewrite Hxid. apply (Hab ts). congruence.
  - rewrite Hall. apply Forall_app. split; [done|]. constructor; [by rewrite Hxid|done].
  - rewrite Hall. apply Forall_app. split; [done|]. constructor; [by rewrite Hrec|done].
Qed.

Lemma logged_commit tx w s x ts : logged tx w s -> x < 2 ^ 64 - 1 -> ts < 2 ^ 64 ->
  log_size s + 42 < 2 ^ 64 ->
  exists w1 w2 s' n k, write_record crc32 w x (XactCommit ts) = (w1, Ok n) /\ flush w1 = (w2, Ok k) /\
    logged (Txn.end_committed tx x) w2 s' /\ log_size s' = log_size s + 42.
Proof.
  intros [Hr Hc Hp Ha Hx Hk] Hxb Hts Hsz.
  destruct (log_append w s x (XactCommit ts) Hr) as (w1 & s1 & rec & He & Hr1 & Hxid & Hrec & Hls & Hs1); [lia|done|done|].
  change (op_size (Append x (XactCommit ts))) with 42 in Hls.
  destruct (log_flush w1 s1 Hr1) as (w2 & k & Hf & Hr2 & Hls2); [lia|].
  exists w1, w2, (abs_flush s1), (lsn rec), k. split_and!; [done|done| |congruence].
  assert (Hall : durable (abs_flush s1) = (durable s ++ pending s) ++ [rec]).
  { cbn. destruct Hs1 as [[-> ->]|[-> ->]]; by rewrite ?app_nil_r, ?app_assoc. }
  split; [done|..]; change (pending (abs_flush s1)) with (@nil DecodedRecord); rewrite ?app_nil_r, ?Hall.
  - intros y. cbn [Txn.end_committed Txn.committed].
    rewrite elem_of_union, elem_of_singleton, !has_commit_app, has_commit_one, Hc, Hxid. specialize (Hp y). naive_solver.
  - by intros y (? & ? & ?%elem_of_nil & _).
  - intros y. rewrite has_abort_app, has_abort_one. intros [Hy|[_ [? ?]]]; [by apply Ha|congruence].
  - apply Forall_app. split; [done|]. constructor; [by rewrite Hxid|done].
  - apply Forall_app. split; [done|]. constructor; [by rewrite Hrec|done].
Qed.

Lemma step_logged tx w s op : logged tx w s -> txn_op_ok op -> log_size s + txn_op_size op < 2 ^ 64 ->
  exists s', logged (Txn.step crc32 tx w op).1.1 (Txn.step crc32 tx w op).1.2 s' /\
    log_size s' <= log_size s + txn_op_size op.
Proof.
  intros Hl Hok Hsz. destruct op as [|x t|x t|x r|x ts|x ts]; cbn [Txn.step txn_op_size] in *.
  - exists s. split; [|lia]. by destruct Hl.
  - exists s. split; [|lia]. by destruct Hl.
  - exists s. split; [|lia]. by destruct Hl.
  - destruct (logged_append tx tx w s x r) as (w' & s' & n & -> & Hl' & Hs'); try done.
    + by destruct r; destruct Hok.
    + by destruct r; destruct Hok.
    + by destruct r.
    + by destruct r.
    + by destruct r.
    + exists s'. split; [done|lia].
  - destruct Hok as [Hx Hts]. unfold Txn.commit. case_bool_decide; cbn [negb]; [|exists s; by split; [|lia]].
    destruct (Txn.check_ssi_conflict tx x).
    { exists s. split; [|lia]. destruct Hl as [? ? ? Ha ? ?]. split; try done. intros y Hy%Ha. cbn. set_solver. }
    destruct (logged_commit tx w s x ts) as (w1 & w2 & s' & n & k & -> & -> & Hl' & Hs'); [done..|].
    exists s'. split; [done|lia].
  - destruct Hok as [Hx Hts]. unfold Txn.abort. case_bool_decide; cbn [negb]; [|exists s; by split; [|lia]].
    destruct (logged_append tx (Txn.force_abort tx x) w s x (XactAbort ts)) as (w' & s' & n & -> & Hl' & Hs'); try done.
    + cbn. set_solver.
    + cbn. set_solver.
    + exists s'. split; [done|]. change (op_size _) with 42 in Hs'. lia.
Qed.

Lemma run_logged ops tx w s : logged tx w s -> Forall txn_op_ok ops -> log_size s + txn_ops_size ops < 2 ^ 64 ->
  exists s', logged (Txn.run crc32 tx w ops).1.1 (Txn.run crc32 tx w ops).1.2 s' /\ log_size s' < 2 ^ 64.
Proof.
  revert tx w s. induction ops as [|op ops IH]; intros tx w s Hl Hok Hsz.
  - exists s. split; [done|]. cbn in Hsz. lia.
  - apply Forall_cons in Hok as [Ho Hok]. cbn [txn_ops_size foldr] in Hsz. fold (txn_ops_size ops) in Hsz.
    destruct (step_logged tx w s op Hl Ho) as (s1 & Hl1 & Hs1); [lia|]. cbn [Txn.run].
    destruct (Txn.step crc32 tx w op) as [[tx1 w1] r]. cbn [fst snd] in *.
    destruct (IH tx1 w1 s1 Hl1 Hok) as (s2 & Hl2 & Hs2); [lia|].
    destruct (Txn.run crc32 tx1 w1 ops) as [[tx2 w2] rs]. eauto.
Qed.

Lemma new_logged : logged Txn.new create (mkAbs [] [] INVALID_LSN).
Proof.
  assert (Hnil : forall x, ~ has_commit [] x) by (by intros x (? & ? & ?%elem_of_nil & _)).
  split; cbn; [|intros x; split; [by intros ?%Hnil|set_solver]|done|by intros x (? & ? & ?%elem_of_nil & _)|done|done].
  by repeat split.
Qed.

(** The reopened log is the durable part. *)
Lemma reopened_log w s : refines crc32 w s -> log_size s < 2 ^ 64 ->
  read_log (open (file w)) INVALID_LSN = Ok (durable s) /\ read_log w INVALID_LSN = Ok (durable s).
Proof.
  intros Hr Hsz. destruct (restart_refines crc32 w s Hr) as [Hr' _]. split.
  - apply (read_log_durable crc32 _ _ [] (durable s) Hr'); [|done].
    cbn. rewrite app_nil_r. unfold log_size in Hsz. rewrite size_app in Hsz. lia.
  - by apply (read_log_durable crc32 w s [] (durable s) Hr).
Qed.

(** A restart through [undo_recover] forgets every commit.  The function the
    server calls when it opens a database marks unfinished transactions as
    aborted and restores nothing else: on a fresh transaction manager no
    transaction is committed afterwards, and no tuple is visible to any
    snapshot, whatever had been committed before. *)
Theorem undo_recover_forgets_commits ops : Forall txn_op_ok ops -> txn_ops_size ops < 2 ^ 64 ->
  let '(_, w, _) := Txn.run crc32 Txn.new create ops in
  exists tx', undo_recover (open (file w)) Txn.new = Ok tx' /\ Txn.committed tx' = ∅ /\
    forall h snap, Txn.is_visible tx' h snap = false.
Proof.
  intros Hok Hsz. destruct (run_logged ops Txn.new create _ new_logged Hok) as (s & Hl & Hs); [exact Hsz|].
  destruct (Txn.run crc32 Txn.new create ops) as [[tx w] rs]. cbn [fst snd] in *.
  destruct (reopened_log w s (lg_refines _ _ _ Hl) Hs) as [Hrd _]. unfold read_log in Hrd.
  unfold undo_recover. destruct (read_from (open (file w)) INVALID_LSN) as [rd| |]; [|done..].
  cbn [mbind outcome_bind] in *. rewrite (for_records_drain _ _ _ collect (∅, ∅, ∅) Hrd). cbn [mbind outcome_bind].
  destruct (foldl _ _ _) as [[cs abs] all]. eexists. split; [done|].
  assert (Hc : forall l, Txn.committed (foldr (fun x tx =>
    if negb (bool_decide (x ∈ cs)) && negb (bool_decide (x ∈ abs)) then Txn.force_abort tx x else tx) Txn.new l) = ∅).
  { induction l as [|x l IH]; [done|]. cbn [foldr]. by destruct (_ && _). }
  rewrite Hc. split; [done|]. intros h snap. unfold Txn.is_visible, Txn.is_committed_before, Txn.is_committed.
  rewrite Hc, (bool_decide_eq_false_2 _ (not_elem_of_empty _)). by repeat case_match.
Qed.

Section Recovered.
Context {D : Type} `{PageStoreLaws D}.

(** [recover] from what the log reader returns. *)
Lemma recover_spec w recs tx (b : Pool.BufferPool D) m : read_log w INVALID_LSN = Ok recs ->
  Pool.represents b m -> formatted m -> Forall (applies_to m) recs ->
  Lru.clock (Pool.replacer b) + 2 * len recs < 2 ^ 64 ->
  exists b', recover w tx b =
      (b', Ok (advance_next_xid (status_of recs) (restore_sets (status_of recs) (mark_active (status_of recs) tx)))) /\
    Pool.represents b' (redo_maps m recs).
Proof.
  unfold read_log. intros Hrd Hr Hm Ha Hclk. destruct (read_from w INVALID_LSN) as [rd| |] eqn:Hrf; [|done..].
  cbn [mbind outcome_bind] in Hrd. fold (enough rd) in Hrd.
  destruct (redo_loop_spec recs _ rd b m Hrd Hr Hm Ha Hclk) as (b' & He & Hr' & _).
  exists b'. split; [|done]. unfold recover, mbind, Pool.pool_bind, Pool.lift.
  by rewrite Hrf, (for_records_drain _ _ _ analyse ∅ Hrd), He.
Qed.

(** C6: crash recovery keeps exactly the committed transactions.  Run any
    transactions, stop at any point, reopen the log and call [recover] on a
    fresh transaction manager and a pool whose formatted pages are those the
    log speaks of: recovery succeeds, the committed transactions are exactly
    those that were acknowledged before the crash, no logged id is handed out
    again, and the pages are those redo computes. *)
Theorem recover_keeps_committed ops : Forall txn_op_ok ops -> txn_ops_size ops < 2 ^ 64 ->
  len ops + 1 < 2 ^ 64 ->
  let '(tx, w, _) := Txn.run crc32 Txn.new create ops in
  exists recs, read_log w INVALID_LSN = Ok recs /\
    forall (b : Pool.BufferPool D) m, Pool.represents b m -> formatted m -> Forall (applies_to m) recs ->
    Lru.clock (Pool.replacer b) + 2 * len recs < 2 ^ 64 ->
    exists b' tx', recover (open (file w)) Txn.new b = (b', Ok tx') /\
      Txn.committed tx' = Txn.committed tx /\
      Forall (fun rec => xid rec < Txn.next_xid tx') recs /\
      Pool.represents b' (redo_maps m recs).
Proof.
  intros Hok Hsz Hlen. destruct (run_logged ops Txn.new create _ new_logged Hok) as (s & Hl & Hs); [exact Hsz|].
  pose proof (Txn.run_evolves crc32 ops Txn.new create Txn.new_ok ltac:(cbn; lia)) as (Htx & _).
  destruct (Txn.run crc32 Txn.new create ops) as [[tx w] rs]. cbn [fst snd] in *.
  destruct Hl as [Hr Hc Hp Ha Hx Hk]. destruct (reopened_log w s Hr Hs) as [Hrd Hrd0].
  exists (durable s). split; [done|]. intros b m Hb Hm Happ Hclk.
  destruct (recover_spec _ (durable s) Txn.new b m Hrd Hb Hm Happ Hclk) as (b' & He & Hb').
  apply Forall_app in Hx as [Hx _]. apply Forall_app in Hk as [Hk _]. rewrite Forall_forall in Hx, Hk.
  destruct (advance_next_xid_spec (status_of (durable s))
    (restore_sets (status_of (durable s)) (mark_active (status_of (durable s)) Txn.new))) as [Hcm Hnx].
  { intros x [st Hst]. by eapply status_bound. }
  eexists b', _. split_and!; [exact He| | |done].
  - apply set_eq. intros x. rewrite Hcm, (proj2 (restore_sets_spec _ _)), (proj1 (mark_active_spec _ _)). cbn [Txn.new Txn.committed].
    rewrite <- Hc. split; [intros [?%status_committed_sound|?]; [done|set_solver]|]. intros Hcx. left.
    apply status_committed_complete; [|done]. intros Hab. apply Hc in Hcx. pose proof (Txn.ok_ca tx Htx).
    assert (x ∈ Txn.aborted tx) by (apply Ha, has_abort_app; auto). set_solver.
  - apply Forall_forall. intros rec Hin. apply Hnx, status_xids; auto.
Qed.

End Recovered.

End Logged.

(** ** Witnesses: one committed and one unfinished transaction on page 1 *)

Definition crash_ops : list Txn.txn_op :=
  [Txn.Begin; Txn.Logs 1 (HeapInsert 1 1 0 [7]); Txn.Commit 1 5; Txn.Begin; Txn.Logs 2 (HeapInsert 1 1 1 [8]);
   Txn.Commit 9 0].

Lemma one_page_pool : exists b, Pool.represents (D := Disk.DiskManager) b {[1 := Page.as_bytes (Page.new 1)]} /\
  Lru.clock (Pool.replacer b) <= 1.
Proof.
  destruct (Pool.alloc_op_spec (Pool.new 2 Disk.create) ∅ 1) as (b & p & He & _ & Hr & _ & Hk).
  - by apply Pool.pool_over_new_file.
  - by vm_compute.
  - done.
  - assert (p = 1) as ->.
    { assert (Hs : snd (Pool.alloc_op (Pool.new 2 Disk.create)) = Ok 1) by by vm_compute. rewrite He in Hs. by injection Hs. }
    exists b. split; [exact Hr|exact Hk].
Qed.

Lemma one_page_formatted : formatted {[1 := Page.as_bytes (Page.new 1)]}.
Proof. intros p bs [<- <-]%lookup_singleton_Some. rewrite Page.from_as. apply Page.new_spec. Qed.

Lemma recover_keeps_committed_witness :
  let '(tx, w, _) := Txn.run (fun _ => 0) Txn.new create crash_ops in
  exists recs (b b' : Pool.BufferPool Disk.DiskManager) tx', read_log w INVALID_LSN = Ok recs /\ length recs = 2%nat /\
    recover (open (file w)) Txn.new b = (b', Ok tx') /\ Txn.committed tx' = Txn.committed tx.
Proof.
  pose proof (recover_keeps_committed (D := Disk.DiskManager) (fun _ => 0) crash_ops) as H.
  destruct (Txn.run (fun _ => 0) Txn.new create crash_ops) as [[tx w] rs] eqn:E.
  destruct H as (recs & Hrd & H); [by repeat constructor|done|done|].
  assert (Hrecs : recs = [mkDecoded 0 0 1 (HeapInsert 1 1 0 [7]); mkDecoded 51 0 1 (XactCommit 5)]).
  { assert (Hw : w = (Txn.run (fun _ => 0) Txn.new create crash_ops).1.2) by (by rewrite E).
    rewrite Hw in Hrd. vm_compute in Hrd. by injection Hrd as <-. }
  destruct one_page_pool as (b & Hb & Hk).
  destruct (H b _ Hb one_page_formatted) as (b' & tx' & He & Hc & _).
  - subst recs. by repeat constructor.
  - subst recs. eapply N.le_lt_trans; [apply N.add_le_mono_r, Hk|done].
  - exists recs, b, b', tx'. split_and!; [done|by subst|done|done].
Defined.

Lemma undo_recover_forgets_commits_witness :
  let '(_, w, _) := Txn.run (fun _ => 0) Txn.new create crash_ops in
  exists tx', undo_recover (open (file w)) Txn.new = Ok tx' /\ Txn.committed tx' = ∅ /\
    forall h snap, Txn.is_visible tx' h snap = false.
Proof. apply (undo_recover_forgets_commits (fun _ => 0) crash_ops); [by repeat constructor|done]. Defined.

Definition two_inserts : list DecodedRecord :=
  [mkDecoded 10 0 1 (HeapInsert 1 1 0 [7]); mkDecoded 61 10 1 (HeapInsert 1 1 1 [8])].

Lemma two_inserts_apply : Forall (applies_to {[1 := Page.as_bytes (Page.new 1)]}) two_inserts.
Proof. by repeat constructor. Qed.

Lemma redo_idempotent_witness :
  let m := {[1 := Page.as_bytes (Page.new 1)]} in
  redo_maps (redo_maps m two_inserts) two_inserts = redo_maps m two_inserts.
Proof.
  apply redo_idempotent; [apply one_page_formatted|apply two_inserts_apply|by repeat constructor|].
  by repeat constructor.
Defined.

Lemma redo_restores_inserts_witness :
  exists bs', redo_maps {[1 := Page.as_bytes (Page.new 1)]} two_inserts !! 1 = Some bs' /\
    Page.tuples (Page.from_bytes bs') = Some <$> ([] ++ [[7]; [8]]).
Proof.
  apply (redo_restores_inserts 1 two_inserts [] [[7]; [8]] _ (Page.as_bytes (Page.new 1))).
  - done.
  - apply one_page_formatted.
  - apply two_inserts_apply.
  - by rewrite lookup_singleton_eq.
  - rewrite Page.from_as. by rewrite (proj1 (proj2 (Page.new_spec 1))).
  - rewrite Page.from_as. rewrite (proj1 (proj2 (proj2 (Page.new_spec 1)))). done.
  - by repeat constructor.
  - by repeat constructor.
Defined.

End Recovery.
