(* ===== verification/StorageCrash.v ===== *)
(** * Crash schedules

    Heap files, transactions, the log and recovery put together: a session
    inserts or deletes tuples, commits, and the process stops with the disk and
    the log in the state they had reached.  The theorems give two schedules
    after which recovery does not restore the committed tuples. *)

From stdpp Require Import gmap.
From S2P Require Import Prelude Bytes StorageError StoragePage StorageReplacer StorageDisk StorageBufferPool.
From S2P Require Import StorageWal StorageHeap StorageTxn StorageRecovery.

Module Crash.
Import Heap.

Section Schedules.
Variable crc32 : list N -> N.

(** A database: a heap file with its pool and log, and the transactions. *)
Record database : Type := mkDb {
  env_of : env Disk.DiskManager;
  txns : Txn.TransactionManager
}.

Definition db_op (A : Type) : Type := database -> database * result A.

#[global] Instance db_ret : MRet db_op := fun A a s => (s, Ok a).
#[global] Instance db_bind : MBind db_op := fun A B k m s =>
  let '(s, r) := m s in
  match r with
  | Ok a => k a s
  | Err x => (s, Err x)
  | Panic => (s, Panic)
  end.

Definition on_heap {A} (o : heap_op (D := Disk.DiskManager) A) : db_op A := fun s =>
  let '(e, r) := o (env_of s) in (mkDb e (txns s), r).

Definition begin : db_op N := fun s =>
  let '(tx, x) := Txn.begin (txns s) in (mkDb (env_of s) tx, Ok x).

Definition commit (x : N) : db_op () := fun s =>
  let e := env_of s in
  let '(tx, w, r) := Txn.commit crc32 (txns s) x (wal e) 0 in
  (mkDb (mkEnv (heap e) (pool e) w) tx, r).

Definition flush_pages : db_op () := on_heap (with_pool Pool.flush_all).

(** The process stops: the pool and the log buffer are gone.  The page file and
    the log are opened again and [recover] runs. *)
Definition restart (frames : N) : db_op () := fun s =>
  let e := env_of s in
  match Disk.open (Disk.file (Pool.disk (pool e))) with
  | Ok d =>
      let w := Wal.open (Wal.file (wal e)) in
      let '(b, r) := Recovery.recover w Txn.new (Pool.new frames d) in
      match r with
      | Ok tx => (mkDb (mkEnv (heap e) b w) tx, Ok ())
      | Err x => (mkDb (mkEnv (heap e) b w) (txns s), Err x)
      | Panic => (mkDb (mkEnv (heap e) b w) (txns s), Panic)
      end
  | Err x => (s, Err x)
  | Panic => (s, Panic)
  end.

Definition fresh : database := mkDb (fresh_env 4) Txn.new.

Definition scan_op : db_op (list (TupleId * list N)) := on_heap scan.

(** The result of an operation as a value. *)
Definition attempt {A} (o : db_op A) : db_op (result A) := fun s => let '(s, r) := o s in (s, Ok r).

(** Two inserts, committed; after the restart one of them is looked up and the
    table is scanned. *)
Definition lost_insert : db_op (result (list N) * result (list (TupleId * list N))) :=
  x ← begin;
  _ ← on_heap (insert_tuple crc32 x [1; 2; 3]);
  tid ← on_heap (insert_tuple crc32 x [4; 5; 6]);
  _ ← commit x;
  _ ← restart 4;
  tuple ← attempt (on_heap (get_tuple tid));
  tuples ← attempt scan_op;
  mret (tuple, tuples).

(** Committed inserts into a new page are lost in a crash.  The page was
    allocated on disk as zeroes and its header was still in the pool; redo finds
    no room on the zero page and ignores the error.  Recovery succeeds with the
    transaction committed, its tuple is not found, and a scan of the table
    panics on the page's header. *)
Theorem committed_insert_lost :
  let '(s, r) := lost_insert fresh in
  r = Ok (Err (SlotOutOfRange 1), Panic) /\ Txn.is_committed (txns s) 1 = true.
Proof. vm_compute. done. Qed.

(** Two inserts and a delete, committed and written to disk. *)
Definition deleted_then_flushed : db_op (list (TupleId * list N) * list (TupleId * list N)) :=
  x ← begin;
  _ ← on_heap (insert_tuple crc32 x [1; 2; 3]);
  tid ← on_heap (insert_tuple crc32 x [4; 5; 6]);
  _ ← on_heap (delete_tuple crc32 x tid 0);
  _ ← commit x;
  _ ← flush_pages;
  before ← scan_op;
  _ ← restart 4;
  after ← scan_op;
  mret (before, after).

(** Recovery brings a deleted tuple back.  A heap operation stamps its page
    with the log position flushed so far, which is older than its own record, so
    redo repeats the insert of a tuple whose slot a later delete had emptied: the
    tuple reappears in another slot, and the redo of the delete does not find
    it. *)
Theorem deleted_tuple_resurrected :
  let '(s, r) := deleted_then_flushed fresh in
  r = Ok ([(mkTid 1 0, [1; 2; 3])], [(mkTid 1 0, [1; 2; 3]); (mkTid 1 2, [4; 5; 6])]) /\
  Txn.is_committed (txns s) 1 = true.
Proof. vm_compute. done. Qed.

End Schedules.

End Crash.
