(* ===== verification/StorageVacuum.v ===== *)
(** * Vacuum

    Models [crates/storage/src/vacuum.rs]: the removal of dead tuples from a heap
    file by rebuilding its pages. *)

From stdpp Require Import gmap.
From S2P Require Import Prelude Bytes StorageError StoragePage StorageReplacer StorageDisk StorageBufferPool.
From S2P Require Import StorageWal StorageHeap StorageTxn.

Module Vacuum.
Import Heap.

Record VacuumStats : Type := mkStats {
  pages_scanned : N;
  tuples_examined : N;
  tuples_removed : N;
  pages_compacted : N
}.

Definition is_dead (tx : Txn.TransactionManager) (data : list N) : result bool :=
  if Page.TUPLE_HEADER_SIZE <=? len data then
    match Txn.decode data with
    | Ok hdr =>
        Ok (negb (Txn.xmax hdr =? Txn.INVALID_XID) &&
            (Txn.is_committed tx (Txn.xmax hdr) || Txn.is_aborted tx (Txn.xmax hdr)))
    | Err _ => Ok false
    | Panic => Panic
    end
  else Ok false.

(** The loop over the slots from [i] on: the live tuples and the dead slots. *)
Fixpoint classify (n : nat) (tx : Txn.TransactionManager) (pg : Page.Page) (i : N) : result (list (list N) * list N) :=
  match n with
  | O => Ok ([], [])
  | S n =>
      used ← Page.is_slot_used pg i;
      if negb used then classify n tx pg (i + 1)
      else
        data ← Page.get_tuple pg i;
        dead ← is_dead tx data;
        '(live, deads) ← classify n tx pg (i + 1);
        Ok (if (dead : bool) then (live, i :: deads) else (data :: live, deads))
  end.

(** [let _ = new_page.insert_tuple(tuple_data)] for every live tuple. *)
Fixpoint refill (pg : Page.Page) (live : list (list N)) : result Page.Page :=
  match live with
  | [] => Ok pg
  | t :: live =>
      match Page.insert_tuple pg t with
      | Ok (pg, _) => refill pg live
      | Err _ => refill pg live
      | Panic => Panic
      end
  end.

Section VacuumOps.
Context {D : Type} `{PageStore D}.
Variable crc32 : list N -> N.

Fixpoint log_deletes (p : N) (slots : list N) : heap_op (D := D) () :=
  match slots with
  | [] => mret ()
  | s :: slots =>
      h ← get_heap;
      _ ← log_record crc32 0 (Wal.HeapDelete (table_id h) p s 0);
      log_deletes p slots
  end.

(** The rest of the loop body for a page with dead slots. *)
Definition compact (p : N) (live : list (list N)) (deads : list N) : heap_op (D := D) () :=
  new_page ← lift (refill (Page.new p) live);
  f ← with_pool (Pool.fetch_page p);
  _ ← with_pool (Pool.put_page f new_page);
  _ ← log_deletes p deads;
  l ← get_flushed_lsn;
  _ ← with_pool (Pool.put_page f (Page.set_lsn new_page l));
  _ ← with_pool (Pool.unpin_page p true);
  f ← with_pool (Pool.fetch_page p);
  pg ← with_pool (Pool.page_of f);
  _ ← with_pool (Pool.unpin_page p false);
  update_fsm p (Page.free_space pg).

Definition vacuum_page (tx : Txn.TransactionManager) (p : N) (st : VacuumStats) : heap_op (D := D) VacuumStats :=
  f ← with_pool (Pool.fetch_page p);
  pg ← with_pool (Pool.page_of f);
  '(live, deads) ← lift (classify (N.to_nat (Page.slot_count pg)) tx pg 0);
  _ ← with_pool (Pool.unpin_page p false);
  let st := mkStats (pages_scanned st + 1) (tuples_examined st + len live + len deads)
              (tuples_removed st + len deads) (pages_compacted st) in
  match deads with
  | [] => mret st
  | _ =>
      _ ← compact p live deads;
      mret (mkStats (pages_scanned st) (tuples_examined st) (tuples_removed st) (pages_compacted st + 1))
  end.

Fixpoint vacuum_pages (tx : Txn.TransactionManager) (ps : list N) (st : VacuumStats) : heap_op (D := D) VacuumStats :=
  match ps with
  | [] => mret st
  | p :: ps => st ← vacuum_page tx p st; vacuum_pages tx ps st
  end.

Definition vacuum_table (tx : Txn.TransactionManager) : heap_op (D := D) VacuumStats :=
  ps ← page_ids;
  vacuum_pages tx ps (mkStats 0 0 0 0).

End VacuumOps.

(** ** What a page keeps *)

(** The transaction that deleted a tuple, by the bytes of its header: eight bytes
    behind the eight of its creator. *)
Definition deleter (t : list N) : N := le_value t.[8; 8].

(** The tuple has a header, and the transaction that deleted it has ended. *)
Definition ended (tx : Txn.TransactionManager) (t : list N) : bool :=
  (24 <=? len t) && negb (deleter t =? 0) && bool_decide (deleter t ∈ Txn.committed tx ∪ Txn.aborted tx).

Lemma decode_ok t : 24 <= len t -> exists h, Txn.decode t = Ok h /\ Txn.xmax h = deleter t.
Proof.
  intros Hl. unfold Txn.decode. change Page.TUPLE_HEADER_SIZE with 24.
  rewrite (proj2 (N.ltb_ge _ _) Hl). unfold Wal.get_le. rewrite !slice_ok by lia. by eexists.
Qed.

Lemma is_dead_ok tx t : is_dead tx t = Ok (ended tx t).
Proof.
  unfold is_dead, ended. change Page.TUPLE_HEADER_SIZE with 24. destruct (N.leb_spec 24 (len t)) as [Hl|]; [|done].
  destruct (decode_ok t Hl) as (h & -> & ->). unfold Txn.is_committed, Txn.is_aborted, Txn.INVALID_XID. cbn [andb]. do 2 f_equal.
  apply eq_bool_prop_intro. rewrite orb_True, !bool_decide_spec. set_solver.
Qed.

(** The tuples of a list of slots, those that survive, and the slots after a vacuum:
    if a tuple goes, the others move up to the first slots, in order. *)
Definition present (slots : list (option (list N))) : list (list N) := omap id slots.
Definition survivors (tx : Txn.TransactionManager) (ts : list (list N)) : list (list N) :=
  List.filter (fun t => negb (ended tx t)) ts.
Definition vacuumed (tx : Txn.TransactionManager) (slots : list (option (list N))) : list (option (list N)) :=
  if existsb (ended tx) (present slots) then Some <$> survivors tx (present slots) else slots.

Lemma present_some t slots : present (Some t :: slots) = t :: present slots.
Proof. done. Qed.

Lemma present_all ts : present (Some <$> ts) = ts.
Proof. induction ts as [|t ts IH]; [done|]. rewrite fmap_cons, present_some. by rewrite IH. Qed.

Lemma survivors_all tx ts : existsb (ended tx) ts = false -> survivors tx ts = ts.
Proof.
  unfold survivors. induction ts as [|t ts IH]; [done|]. cbn [existsb List.filter]. intros [-> Hts]%orb_false_iff. cbn [negb]. by rewrite IH.
Qed.

Lemma present_vacuumed tx slots : present (vacuumed tx slots) = survivors tx (present slots).
Proof. unfold vacuumed. destruct (existsb _ _) eqn:E; [apply present_all|]. by rewrite survivors_all. Qed.

Lemma classify_ok n tx pg i : Page.page_wf pg -> i + N.of_nat n = Page.slot_count pg ->
  exists deads, let ts := present (drop (N.to_nat i) (Page.tuples pg)) in
    classify n tx pg i = Ok (survivors tx ts, deads) /\ existsb (ended tx) ts = negb (bool_decide (deads = [])).
Proof.
  intros Hw. revert i. induction n as [|n IH]; intros i Hi.
  { exists []. rewrite drop_ge; [done|]. rewrite Page.length_tuples. lia. }
  destruct (IH (i + 1)) as (deads & He & Hd); [lia|]. replace (N.to_nat (i + 1)) with (S (N.to_nat i)) in * by lia.
  cbn [classify]. rewrite Page.is_slot_used_spec by done.
  pose proof (Page.lookup_tuples pg i ltac:(lia)) as Hlk. rewrite (drop_S _ _ _ Hlk).
  destruct (Page.slot_tuple pg i) as [t|] eqn:Et; rewrite Hlk; cbn [mbind outcome_bind negb].
  - rewrite Page.get_tuple_spec, Hlk by done. cbn [mbind outcome_bind]. rewrite is_dead_ok. cbn [mbind outcome_bind].
    rewrite He. cbn [mbind outcome_bind]. rewrite present_some. unfold survivors in *. cbn [List.filter existsb].
    destruct (ended tx t); cbn [negb orb]; by eexists.
  - rewrite He. by exists deads.
Qed.

(** The room tuples take on a page, line pointers included. *)
Definition weight (ts : list (list N)) : N := foldr (fun t n => 4 + len t + n) 0 ts.

Lemma refill_ok pg live : Page.page_wf pg -> Forall (fun t => bytes_ok t) live ->
  weight live <= Page.free_space pg ->
  exists pg', refill pg live = Ok pg' /\ Page.page_wf pg' /\ Page.tuples pg' = Page.tuples pg ++ (Some <$> live).
Proof.
  revert pg. induction live as [|t live IH]; intros pg Hw Hb Hs; cbn [refill].
  { exists pg. by rewrite app_nil_r. }
  apply Forall_cons in Hb as [Ht Hb]. cbn [weight foldr] in Hs. fold (weight live) in Hs. assert (Hfit : 4 + len t <= Page.free_space pg) by lia.
  rewrite Page.insert_tuple_eq by done.
  pose proof (Page.abs_inserted pg (Page.slot_count pg) t Hw (N.le_refl _) Hfit) as Ha. injection Ha as Hat Haf Has.
  destruct (IH (Page.inserted pg (Page.slot_count pg) t)) as (pg' & He & Hw' & Ht');
    [by apply Page.inserted_wf|done|rewrite Haf; lia|].
  exists pg'. split_and!; [done..|]. rewrite Ht', Hat, <- Page.length_tuples, firstn_all, drop_all. by rewrite <- app_assoc.
Qed.

Lemma survivors_weight tx ts : weight (survivors tx ts) <= weight ts.
Proof.
  unfold survivors, weight. induction ts as [|t ts IH]; [done|]. cbn [List.filter foldr].
  destruct (ended tx t); cbn [negb foldr]; lia.
Qed.

Lemma present_bytes pg : Page.page_wf pg -> Forall (fun t => bytes_ok t) (present (Page.tuples pg)).
Proof.
  intros Hw. apply Forall_forall. intros t (o & Ho & Hid)%list_elem_of_omap. unfold id in Hid. subst o.
  unfold Page.tuples in Ho. apply list_elem_of_fmap in Ho as (i & Ho & _).
  unfold Page.slot_tuple in Ho. destruct (_ && _); [done|]. injection Ho as ->. apply read_at_bytes_ok, Hw.
Qed.

(** ** Vacuum over the page map *)

Section VacuumSpec.
Context {D : Type} `{PageStoreLaws D}.
Variable crc32 : list N -> N.
Implicit Types e : env D.
Implicit Types m : gmap N (list N).

Lemma log_deletes_ok p slots e : Wal.flushed_lsn (wal e) < 2 ^ 64 ->
  exists w, log_deletes crc32 p slots e = (mkEnv (heap e) (pool e) w, Ok ()) /\ Wal.flushed_lsn w < 2 ^ 64.
Proof.
  revert e. induction slots as [|s slots IH]; intros e Hl; cbn [log_deletes].
  { exists (wal e). by destruct e. }
  unfold mbind, heap_bind, get_heap.
  destruct (log_record_ok crc32 0 (Wal.HeapDelete (table_id (heap e)) p s 0) e) as (w & n & -> & Hwr).
  pose proof (write_record_lsn crc32 (wal e) 0 (Wal.HeapDelete (table_id (heap e)) p s 0) Hl) as Hl'. rewrite Hwr in Hl'.
  by destruct (IH (mkEnv (heap e) (pool e) w) Hl') as (w' & -> & ?); eexists.
Qed.

Abbreviation clock e := (Lru.clock (Pool.replacer (pool e))).

(** The tuples page [p] holds. *)
Definition contents m (p : N) : list (list N) := present (Page.tuples (page_at m p)).

Lemma compact_ok e m p deads live : stored e m -> p ∈ pages (heap e) -> Forall (fun t => bytes_ok t) live ->
  weight live <= 8144 -> clock e + 2 < 2 ^ 64 ->
  exists e' m', compact crc32 p live deads e = (e', Ok ()) /\ stored e' m' /\ pages (heap e') = pages (heap e) /\
    Page.tuples (page_at m' p) = Some <$> live /\ (forall q, q <> p -> page_at m' q = page_at m q) /\ clock e' <= clock e + 2.
Proof.
  intros [Hr Hh Hl] Hp Hb Hwt Hk. destruct (Page.new_spec p) as (Hnw & Hnt & Hnf & _).
  destruct (refill_ok (Page.new p) live Hnw Hb) as (pg & Hre & Hw & Ht); [lia|]. rewrite Hnt in Ht. cbn [app] in Ht.
  pose proof (proj1 (Forall_forall _ _) (ho_pages _ _ Hh) p Hp) as [[bs Hbs] _].
  destruct (Pool.visit (pool e) m p bs Hr Hbs) as (b1 & f & Hfe & [_ _ Hst]); [lia|].
  destruct (Hst (Page.as_bytes pg) (Page.wf_size pg Hw)) as (b2 & _ & Hp2 & _). rewrite Page.from_as in Hp2.
  destruct (log_deletes_ok p deads (mkEnv (heap e) b2 (wal e)) Hl) as (w & Hlog & Hlw). cbn [heap pool wal] in *.
  set (l := Wal.flushed_lsn w) in *. destruct (Page.set_lsn_spec pg l Hw Hlw) as (Hw' & Ht' & Hf' & _).
  destruct (Hst (Page.as_bytes (Page.set_lsn pg l)) (Page.wf_size _ Hw')) as (b3 & b4 & Hp3 & Hu3 & [Hr3 Hk3 _]).
  rewrite Page.from_as, <- (put_put b1 b2 f pg _ Hp2) in Hp3. set (m' := <[p := _]> m) in *.
  destruct (Pool.visit b4 m' p (Page.as_bytes (Page.set_lsn pg l)) Hr3) as (b5 & g & Hfg & [Hpg (b6 & Hu6 & [Hr6 Hk6 _]) _]);
    [by unfold m'; rewrite lookup_insert_eq|lia|]. rewrite Page.from_as in Hpg.
  pose proof (proj1 (Forall_forall _ _) (ho_first _ _ Hh) p Hp) as Hge.
  pose proof (proj1 (Forall_forall _ _) (ho_bound _ _ Hh) p Hp) as Hpb. cbv beta in Hge, Hpb.
  destruct (update_fsm_ok (mkEnv (heap e) b6 w) p (Page.free_space (Page.set_lsn pg l)) (ho_fsm _ _ Hh))
    as (fs & Hup & Hf1 & Hc1 & Hfi1 & Hl1); [cbn [heap]; lia|]. cbn [heap pool wal] in *.
  exists (mkEnv (mkHeap (table_id (heap e)) fs (pages (heap e))) b6 w), m'.
  clear Hnw Hnt Hnf. unfold compact, mbind, heap_bind, lift. rewrite Hre, (with_pool_ok _ e _ _ Hfe). cbn [get_flushed_lsn].
  rewrite (with_pool_ok _ (mkEnv (heap e) b1 (wal e)) b2 () Hp2). cbn [heap wal]. rewrite Hlog. cbn [wal]. fold l.
  rewrite (with_pool_ok _ (mkEnv (heap e) b2 w) b3 () Hp3). rewrite (with_pool_ok _ (mkEnv _ b3 w) b4 () Hu3).
  rewrite (with_pool_ok _ (mkEnv _ b4 w) b5 g Hfg). rewrite (with_pool_ok _ (mkEnv _ b5 w) b5 _ Hpg).
  rewrite (with_pool_ok _ (mkEnv _ b5 w) b6 () Hu6). cbn [heap wal]. rewrite Hup. split_and!; try done.
  - split; [done|by apply heap_ok_put|done].
  - unfold m'. by rewrite page_at_insert, decide_True, Ht', Ht.
  - intros q Hq. unfold m'. by rewrite page_at_insert, decide_False.
  - cbn [pool]. lia.
Qed.

Lemma vacuum_page_ok e m tx p st : stored e m -> p ∈ pages (heap e) -> weight (contents m p) <= 8144 ->
  clock e + 3 < 2 ^ 64 ->
  exists e' m' st', vacuum_page crc32 tx p st e = (e', Ok st') /\ stored e' m' /\ pages (heap e') = pages (heap e) /\
    Page.tuples (page_at m' p) = vacuumed tx (Page.tuples (page_at m p)) /\ (forall q, q <> p -> page_at m' q = page_at m q) /\
    clock e' <= clock e + 3 /\ pages_scanned st' = pages_scanned st + 1.
Proof.
  intros [Hr Hh Hl] Hp Hwt Hk. pose proof (proj1 (Forall_forall _ _) (ho_pages _ _ Hh) p Hp) as [[bs Hbs] Hw].
  destruct (Pool.visit (pool e) m p bs Hr Hbs) as (b1 & f & Hfe & [Hpg (b2 & Hu & [Hr2 Hk2 _]) _]); [lia|].
  unfold contents in *. rewrite (page_at_some _ _ _ Hbs) in *. set (pg := Page.from_bytes bs) in *.
  destruct (classify_ok (N.to_nat (Page.slot_count pg)) tx pg 0 Hw) as (deads & Hcl & Hnone); [lia|]. cbv zeta in *. cbn [drop N.to_nat] in *.
  change (drop (N.to_nat 0) (Page.tuples pg)) with (Page.tuples pg) in *. set (live := survivors tx _) in *.
  unfold vacuum_page, mbind, heap_bind, lift. rewrite (with_pool_ok _ e _ _ Hfe).
  rewrite (with_pool_ok _ (mkEnv _ b1 _) _ _ Hpg), Hcl. rewrite (with_pool_ok _ (mkEnv _ b1 _) _ _ Hu). cbn [heap wal].
  assert (Hs2 : stored (mkEnv (heap e) b2 (wal e)) m) by (by split).
  destruct deads as [|d deads].
  - eexists _, m, _. split; [done|]. split_and!; try done.
    + rewrite (page_at_some _ _ _ Hbs). fold pg. unfold vacuumed. by rewrite Hnone.
    + cbn [pool]. lia.
  - destruct (compact_ok (mkEnv (heap e) b2 (wal e)) m p (d :: deads) live Hs2 Hp) as (e' & m' & -> & Hs' & Hps & Hc & Ho & Hk').
    + pose proof (present_bytes pg Hw) as Hb. rewrite Forall_forall in *. intros t Ht. apply Hb.
      apply list_elem_of_In, List.filter_In in Ht as [Ht _]. by apply list_elem_of_In.
    + pose proof (survivors_weight tx (present (Page.tuples pg))). fold live in H1. lia.
    + cbn [pool]. lia.
    + cbn [pool heap] in *. eexists e', m', _. split; [done|]. split_and!; try done; [|lia].
      unfold vacuumed. rewrite Hnone. exact Hc.
Qed.

Lemma vacuum_pages_ok ps e m tx st : stored e m -> NoDup ps -> Forall (fun p => p ∈ pages (heap e)) ps ->
  Forall (fun p => weight (contents m p) <= 8144) ps -> clock e + 3 * len ps < 2 ^ 64 ->
  exists e' m' st', vacuum_pages crc32 tx ps st e = (e', Ok st') /\ stored e' m' /\ pages (heap e') = pages (heap e) /\
    Forall (fun p => Page.tuples (page_at m' p) = vacuumed tx (Page.tuples (page_at m p))) ps /\
    (forall q, q ∉ ps -> page_at m' q = page_at m q) /\ pages_scanned st' = pages_scanned st + len ps.
Proof.
  revert e m st. induction ps as [|p ps IH]; intros e m st Hs Hnd Hin Hwt Hk.
  { exists e, m, st. split_and!; try done. rewrite len_nil. lia. }
  apply NoDup_cons in Hnd as [Hnp Hnd]. apply Forall_cons in Hin as [Hp Hin], Hwt as [Hw Hwt]. rewrite len_cons in *.
  destruct (vacuum_page_ok e m tx p st Hs Hp Hw) as (e1 & m1 & st1 & He1 & Hs1 & Hps1 & Hc1 & Ho1 & Hk1 & Hst1); [lia|].
  assert (Hsame : Forall (fun q => page_at m1 q = page_at m q) ps).
  { apply Forall_forall. intros q Hq. rewrite Ho1; [done|]. intros ->. done. }
  destruct (IH e1 m1 st1 Hs1 Hnd) as (e2 & m2 & st2 & He2 & Hs2 & Hps2 & Hc2 & Ho2 & Hst2).
  { by rewrite Hps1. }
  { rewrite Forall_forall in *. intros q Hq. unfold contents. rewrite Hsame by done. by apply Hwt. }
  { lia. }
  exists e2, m2, st2. cbn [vacuum_pages]. unfold mbind, heap_bind. rewrite He1.
  split; [exact He2|]. split; [exact Hs2|]. split_and!; [congruence| | |lia].
  - constructor; [rewrite (Ho2 p Hnp); exact Hc1|].
    rewrite Forall_forall in *. intros q Hq. by rewrite Hc2, Hsame.
  - intros q [Hq1 Hq2]%not_elem_of_cons. by rewrite Ho2, Ho1.
Qed.

(** A tuple that a new snapshot sees survives, if its deleter has not aborted. *)
Lemma seen_survives tx h t : Txn.txn_ok tx -> Txn.decode t = Ok h -> Txn.is_visible tx h (Txn.snapshot tx) = true ->
  Txn.xmax h ∉ Txn.aborted tx -> ended tx t = false.
Proof.
  intros Hok Hd Hv Ha. unfold ended. destruct (N.leb_spec 24 (len t)) as [Hl|]; [|done]. destruct (decode_ok t Hl) as (h' & Hd' & Hx).
  rewrite Hd in Hd'. injection Hd' as <-. rewrite <- Hx. cbn [andb]. apply andb_false_iff. unfold Txn.is_visible in Hv.
  rewrite !(Txn.committed_before_spec tx tx) in Hv by (done || naive_solver).
  destruct (negb _); [done|]. unfold Txn.INVALID_XID in Hv. destruct (N.eqb_spec (Txn.xmax h) 0); [by left|]. right.
  apply bool_decide_eq_false. apply negb_true_iff, bool_decide_eq_false in Hv. set_solver.
Qed.

(** C36: Vacuum of a heap file removes exactly the tuples whose deleting transaction has
    ended, and a page that loses a tuple has its others moved up to the first slots
    in order, so that their slot numbers change; the other pages stay as they are,
    and so does the list of pages.  No tuple is lost that a snapshot taken now sees,
    unless the transaction that deleted it has aborted.  The tuples of a page are
    taken to fill at most the 8144 bytes of an empty page, with four more for each,
    and the clock of the buffer pool to have room.  The
    test has no regard for older snapshots, which may still see a tuple that
    goes. *)
Theorem vacuum_keeps_survivors e m tx : stored e m -> Txn.txn_ok tx ->
  Forall (fun p => weight (contents m p) <= 8144) (pages (heap e)) -> clock e + 3 * len (pages (heap e)) < 2 ^ 64 ->
  exists e' m' st, vacuum_table crc32 tx e = (e', Ok st) /\ stored e' m' /\ pages (heap e') = pages (heap e) /\
    pages_scanned st = len (pages (heap e)) /\
    forall p, p ∈ pages (heap e) ->
      Page.tuples (page_at m' p) = vacuumed tx (Page.tuples (page_at m p)) /\
      forall t h, t ∈ contents m p -> Txn.decode t = Ok h -> Txn.is_visible tx h (Txn.snapshot tx) = true ->
        Txn.xmax h ∉ Txn.aborted tx -> t ∈ contents m' p.
Proof.
  intros Hs Htx Hwt Hk. destruct (vacuum_pages_ok (pages (heap e)) e m tx (mkStats 0 0 0 0) Hs)
    as (e' & m' & st & He & Hs' & Hps & Hc & _ & Hst); try done.
  - apply sorted_nodup, (st_heap e m Hs).
  - by apply Forall_forall.
  - exists e', m', st. split_and!; [done..|]. intros p Hp. rewrite Forall_forall in Hc. specialize (Hc p Hp). split; [done|].
    intros t h Ht Hd Hv Ha. unfold contents. rewrite Hc, present_vacuumed. unfold survivors.
    apply list_elem_of_In, filter_In. split; [by apply list_elem_of_In|]. by rewrite (seen_survives tx h t).
Qed.

End VacuumSpec.

(** Vacuum removes tuples that were never deleted.  When the transaction that
    tried to delete a tuple aborted, the tuple is still visible to every
    snapshot that sees its creator, yet vacuum judges it dead: it treats an
    aborted deleter like a committed one. *)
Theorem vacuum_removes_undeleted tx h payload : Txn.txn_ok tx -> Txn.header_ok h ->
  Txn.xmin h ∈ Txn.committed tx -> Txn.xmax h ∈ Txn.aborted tx ->
  Txn.is_visible tx h (Txn.snapshot tx) = true /\ is_dead tx (Txn.encode h ++ payload) = Ok true.
Proof.
  intros Hok Hh Hmin Hmax. split.
  - unfold Txn.is_visible. rewrite !(Txn.committed_before_spec tx tx) by (done || naive_solver). unfold Txn.is_committed.
    rewrite (bool_decide_eq_true_2 _ Hmin). cbn [negb]. destruct (_ =? _); [done|].
    rewrite bool_decide_eq_false_2; [done|]. pose proof (Txn.ok_ca tx Hok). set_solver.
  - unfold is_dead. rewrite Txn.decode_encode by done.
    rewrite (proj2 (N.leb_le _ _)) by (rewrite Txn.encode_layout, !len_app, !len_le_bytes; change Page.TUPLE_HEADER_SIZE with 24; lia).
    unfold Txn.is_aborted. rewrite (bool_decide_eq_true_2 _ Hmax), orb_true_r, andb_true_r.
    assert (1 <= Txn.xmax h < Txn.next_xid tx) as [Hx _] by (apply (Txn.ok_ids tx Hok); auto).
    unfold Txn.INVALID_XID. by rewrite (proj2 (N.eqb_neq _ _)) by lia.
Qed.

(** A committed insert, a delete that aborted. *)
Lemma vacuum_removes_undeleted_witness :
  let tx := (Txn.run (fun _ => 0) Txn.new Wal.create [Txn.Begin; Txn.Commit 1 0; Txn.Begin; Txn.Abort 2 0]).1.1 in
  Txn.is_visible tx (Txn.mkHeader 1 2 0 0 0) (Txn.snapshot tx) = true /\
  is_dead tx (Txn.encode (Txn.mkHeader 1 2 0 0 0) ++ [9]) = Ok true.
Proof.
  cbv zeta. apply (vacuum_removes_undeleted _ (Txn.mkHeader 1 2 0 0 0) [9]).
  - apply (Txn.run_evolves (fun _ => 0) [Txn.Begin; Txn.Commit 1 0; Txn.Begin; Txn.Abort 2 0] Txn.new Wal.create Txn.new_ok). done.
  - done.
  - apply (bool_decide_unpack _). by vm_compute.
  - apply (bool_decide_unpack _). by vm_compute.
Defined.

(** Vacuum has no regard for older snapshots: a tuple that was deleted after a
    snapshot was taken is visible to it, and judged dead when its deleter has
    committed. *)
Theorem vacuum_ignores_old_snapshots tx tx' h payload : Txn.txn_ok tx -> Txn.txn_ok tx' -> Txn.header_ok h ->
  Txn.committed tx ⊆ Txn.committed tx' ->
  (forall x, x ∈ Txn.committed tx' -> x ∈ Txn.committed tx \/ x ∈ Txn.active tx \/ Txn.next_xid tx <= x) ->
  Txn.xmin h ∈ Txn.committed tx -> Txn.xmax h ∉ Txn.committed tx -> Txn.xmax h ∈ Txn.committed tx' ->
  Txn.is_visible tx' h (Txn.snapshot tx) = true /\ is_dead tx' (Txn.encode h ++ payload) = Ok true.
Proof.
  intros Hok Hok' Hh Hsub Hnew Hmin Hmax Hmax'. split.
  - unfold Txn.is_visible. rewrite !(Txn.committed_before_spec tx tx') by done. unfold Txn.is_committed.
    rewrite (bool_decide_eq_true_2 _ Hmin), (bool_decide_eq_false_2 _ Hmax). by destruct (_ =? _).
  - unfold is_dead. rewrite Txn.decode_encode by done.
    rewrite (proj2 (N.leb_le _ _)) by (rewrite Txn.encode_layout, !len_app, !len_le_bytes; change Page.TUPLE_HEADER_SIZE with 24; lia).
    unfold Txn.is_committed. rewrite (bool_decide_eq_true_2 _ Hmax'). cbn [orb]. rewrite andb_true_r.
    assert (1 <= Txn.xmax h < Txn.next_xid tx') as [Hx _] by (apply (Txn.ok_ids tx' Hok'); auto).
    unfold Txn.INVALID_XID. by rewrite (proj2 (N.eqb_neq _ _)) by lia.
Qed.

(** A heap with one tuple, and the room its page uses, read through the pool. *)
Definition one_tuple : env Disk.DiskManager * result TupleId :=
  insert_tuple (fun _ => 0) 1 (Txn.encode (Txn.mkHeader 1 2 0 0 0) ++ [9]) (fresh_env 2).

Definition used_room (e : env Disk.DiskManager) (p : N) : option N :=
  match Pool.content (pool e) p with
  | Ok bs => Some (weight (present (Page.tuples (Page.from_bytes bs))))
  | _ => None
  end.

Lemma vacuum_keeps_survivors_witness :
  let tx := (Txn.run (fun _ => 0) Txn.new Wal.create [Txn.Begin; Txn.Commit 1 0; Txn.Begin; Txn.Commit 2 0]).1.1 in
  exists m e' m' st, stored (fst one_tuple) m /\ vacuum_table (fun _ => 0) tx (fst one_tuple) = (e', Ok st) /\
    stored e' m' /\ Page.tuples (page_at m' 1) = vacuumed tx (Page.tuples (page_at m 1)) /\ pages_scanned st = 1.
Proof.
  cbv zeta. set (tx := _.1.1). assert (Htx : Txn.txn_ok tx).
  { apply (Txn.run_evolves (fun _ => 0) [Txn.Begin; Txn.Commit 1 0; Txn.Begin; Txn.Commit 2 0] Txn.new Wal.create Txn.new_ok). done. }
  clearbody tx.
  assert (Hp : pages (heap (fst one_tuple)) = [1]) by (by vm_compute).
  assert (Hu : used_room (fst one_tuple) 1 = Some 29) by (by vm_compute).
  assert (Hk : Lru.clock (Pool.replacer (pool (fst one_tuple))) = 3) by (by vm_compute).
  assert (Ho : is_ok (snd one_tuple) = true) by (by vm_compute).
  destruct (insert_tuple_ok (fun _ => 0) (fresh_env 2) ∅ 1 (Txn.encode (Txn.mkHeader 1 2 0 0 0) ++ [9]) 0)
    as [(e & m & p & s & He & Hs & _)|(e & a & He & _)].
  - by apply fresh_stored.
  - apply Forall_app. split; [|by repeat constructor]. apply (bool_decide_unpack _). by vm_compute.
  - by vm_compute.
  - by vm_compute.
  - by vm_compute.
  - fold one_tuple in He. rewrite He in *. cbn [fst] in *.
    destruct (vacuum_keeps_survivors (fun _ => 0) e m tx Hs Htx) as (e' & m' & st & Hv & Hs' & _ & Hst & Hc).
    + rewrite Hp. constructor; [|constructor].
      pose proof (proj1 (Forall_forall _ _) (ho_pages _ _ (st_heap e m Hs)) 1) as Hpg. rewrite Hp in Hpg.
      destruct (Hpg ltac:(by left)) as [[bs Hbs] _]. unfold contents. rewrite (page_at_some _ _ _ Hbs).
      unfold used_room in Hu. rewrite (Pool.rp_content _ _ (st_pool e m Hs) 1 bs Hbs) in Hu. injection Hu as ->. done.
    + by rewrite Hk, Hp.
    + rewrite Hp in Hc, Hst. destruct (Hc 1) as [Hc1 _]; [by left|]. exists m, e', m', st. split_and!; done.
  - fold one_tuple in He. clear - He Ho. rewrite He in Ho. cbn [snd is_ok] in Ho. discriminate Ho.
Defined.

End Vacuum.
