(* ===== verification/StorageLock.v ===== *)
(** * The lock manager

    Models [crates/storage/src/lock.rs].  A thread holds the mutex from the call
    of [acquire] to its return or to the wait on the condition variable, and
    from a wake-up to the next wait or the return: these stretches are the
    atomic steps of the model.  A wake-up may happen at any time, as the
    standard library allows.  Each transaction runs in one thread, so it has at
    most one request outstanding. *)

From stdpp Require Import gmap.
From S2P Require Import Prelude.

Module Lock.

Inductive LockTarget : Type :=
  | Table (table : N)
  | Tuple (table page slot : N).

Inductive LockMode : Type := Shared | Exclusive.

#[global] Instance target_eq_dec : EqDecision LockTarget.
Proof. solve_decision. Defined.
#[global] Instance mode_eq_dec : EqDecision LockMode.
Proof. solve_decision. Defined.

#[global] Instance target_countable : Countable LockTarget.
Proof.
  refine (inj_countable'
    (fun t => match t with Table a => inl a | Tuple a b c => inr (a, b, c) end)
    (fun s => match s with inl a => Table a | inr (a, b, c) => Tuple a b c end) _).
  by intros [].
Defined.

Record LockRequest : Type := mkRequest {
  xid : N;
  target : LockTarget;
  mode : LockMode
}.

Record LockEntry : Type := mkEntry {
  holders : list (N * LockMode);
  waiters : list (N * LockMode)
}.

Definition entry_new : LockEntry := mkEntry [] [].

Abbreviation locks := (gmap LockTarget LockEntry).

Definition is_compatible (held requested : LockMode) : bool :=
  match held, requested with
  | Shared, Shared => true
  | _, _ => false
  end.

Definition all_compatible (e : LockEntry) (m : LockMode) : bool :=
  forallb (fun h => is_compatible h.2 m) (holders e).

Definition already_holds (e : LockEntry) (x : N) (m : LockMode) : bool :=
  existsb (fun h => (h.1 =? x) && (bool_decide (h.2 = m) || bool_decide (h.2 = Exclusive))) (holders e).

Definition is_waiting (e : LockEntry) (x : N) : bool := existsb (fun w => w.1 =? x) (waiters e).

(** ** Deadlock detection *)

(** The holders an entry adds to the stack; [None] when the cycle is found. *)
Fixpoint push_holders (waiting x : N) (hs : list (N * LockMode)) (stack : list N) : option (list N) :=
  match hs with
  | [] => Some stack
  | (h, _) :: hs =>
      if (h =? waiting) && negb (x =? waiting) then None else push_holders waiting x hs (h :: stack)
  end.

Fixpoint push_entries (waiting x : N) (es : list LockEntry) (stack : list N) : option (list N) :=
  match es with
  | [] => Some stack
  | e :: es =>
      if is_waiting e x then
        match push_holders waiting x (holders e) stack with
        | Some stack => push_entries waiting x es stack
        | None => None
        end
      else push_entries waiting x es stack
  end.

Fixpoint search (fuel : nat) (waiting : N) (es : list LockEntry) (visited : gset N) (stack : list N) : bool :=
  match fuel with
  | O => false
  | S fuel =>
      match stack with
      | [] => false
      | x :: stack =>
          if bool_decide (x ∈ visited) then search fuel waiting es visited stack
          else
            match push_entries waiting x es stack with
            | None => true
            | Some stack => search fuel waiting es ({[x]} ∪ visited) stack
            end
      end
  end.

(** Every waiting transaction is expanded once and pushes at most all holders. *)
Definition rounds (es : list LockEntry) : nat :=
  S (length (concat (waiters <$> es)) * length (concat (holders <$> es))).

Definition detect_deadlock (waiting_xid : N) (m : locks) : bool :=
  let es := snd <$> map_to_list m in
  search (rounds es) waiting_xid es ∅ [waiting_xid].

(** ** Acquire and release *)

Inductive attempt : Type :=
  | Granted
  | Deadlock
  | Waits.

#[global] Instance attempt_eq_dec : EqDecision attempt.
Proof. solve_decision. Defined.

(** One round of the loop, up to the wait. *)
Definition try_lock (m : locks) (req : LockRequest) : locks * attempt :=
  let e := default entry_new (m !! target req) in
  let m := <[target req := e]> m in
  if all_compatible e (mode req) && bool_decide (waiters e = []) then
    (<[target req := mkEntry (holders e ++ [(xid req, mode req)]) (waiters e)]> m, Granted)
  else if detect_deadlock (xid req) m then (m, Deadlock)
  else
    let ws := if negb (is_waiting e (xid req)) then waiters e ++ [(xid req, mode req)] else waiters e in
    (<[target req := mkEntry (holders e) ws]> m, Waits).

(** [acquire] up to its return or its first wait. *)
Definition acquire (m : locks) (req : LockRequest) : locks * attempt :=
  match m !! target req with
  | Some e => if already_holds e (xid req) (mode req) then (m, Granted) else try_lock m req
  | None => try_lock m req
  end.

Definition not_of (x : N) (l : list (N * LockMode)) : list (N * LockMode) := List.filter (fun w => negb (w.1 =? x)) l.

(** After a wake-up. *)
Definition wake (m : locks) (req : LockRequest) : locks * attempt :=
  let m := match m !! target req with
           | Some e => <[target req := mkEntry (holders e) (not_of (xid req) (waiters e))]> m
           | None => m
           end in
  try_lock m req.

Definition release_all (m : locks) (x : N) : locks :=
  let m := (fun e => mkEntry (not_of x (holders e)) (waiters e)) <$> m in
  filter (fun p => holders p.2 <> [] \/ waiters p.2 <> []) m.

Definition holders_of (m : locks) (t : LockTarget) : list N :=
  match m !! t with
  | Some e => fst <$> holders e
  | None => []
  end.

(** ** Threads *)

(** The lock table and the requests whose threads wait. *)
Record system : Type := mkSystem {
  table : locks;
  blocked : list LockRequest
}.

Inductive step : system -> LockRequest * option attempt -> system -> Prop :=
  | step_acquire s req m r : req.(xid) ∉ (xid <$> blocked s) -> acquire (table s) req = (m, r) ->
      step s (req, Some r) (mkSystem m (if decide (r = Waits) then req :: blocked s else blocked s))
  | step_wake s req l1 l2 m r : blocked s = l1 ++ req :: l2 -> wake (table s) req = (m, r) ->
      step s (req, Some r) (mkSystem m (if decide (r = Waits) then blocked s else l1 ++ l2))
  | step_release s req : xid req ∉ (xid <$> blocked s) ->
      step s (req, None) (mkSystem (release_all (table s) (xid req)) (blocked s)).

Inductive steps : system -> list (LockRequest * option attempt) -> system -> Prop :=
  | steps_nil s : steps s [] s
  | steps_snoc s1 ls s2 l s3 : steps s1 ls s2 -> step s2 l s3 -> steps s1 (ls ++ [l]) s3.

Definition init : system := mkSystem ∅ [].

(** ** Lemmas on the table *)

Definition entry_of (m : locks) (t : LockTarget) : LockEntry := default entry_new (m !! t).
Definition waiting (m : locks) (t : LockTarget) : list (N * LockMode) := waiters (entry_of m t).

Lemma entry_of_insert m t e u : entry_of (<[t := e]> m) u = if decide (u = t) then e else entry_of m u.
Proof.
  unfold entry_of. case_decide as E; [subst; by rewrite lookup_insert_eq|by rewrite lookup_insert_ne].
Qed.

Lemma is_waiting_spec e x : is_waiting e x = true <-> exists md, (x, md) ∈ waiters e.
Proof.
  unfold is_waiting. rewrite existsb_exists. setoid_rewrite <- list_elem_of_In. split.
  - intros ([y md] & Hin & E%N.eqb_eq). cbn in E. subst. eauto.
  - intros [md Hin]. exists (x, md). split; [done|]. apply N.eqb_refl.
Qed.

(** A transaction that waits nowhere closes no cycle. *)
Lemma detect_none x m : (forall t, is_waiting (entry_of m t) x = false) -> detect_deadlock x m = false.
Proof.
  intros Hw. unfold detect_deadlock, rounds. set (es := snd <$> map_to_list m).
  assert (Hes : Forall (fun e => is_waiting e x = false) es).
  { apply Forall_forall. intros e ([t e'] & -> & Hin)%list_elem_of_fmap. apply elem_of_map_to_list in Hin.
    specialize (Hw t). unfold entry_of in Hw. by rewrite Hin in Hw. }
  cbn [search]. rewrite bool_decide_eq_false_2 by set_solver.
  assert (Hp : push_entries x x es [] = Some []).
  { clear -Hes. induction Hes as [|e es He _ IH]; cbn; [done|]. by rewrite He. }
  rewrite Hp. by destruct (_ * _)%nat.
Qed.

(** What one round does to the entries. *)
Lemma try_lock_spec m req : (forall t, is_waiting (entry_of m t) (xid req) = false) ->
  let '(m', r) := try_lock m req in
  let e := entry_of m (target req) in
  r <> Deadlock /\
  (forall t, t <> target req -> entry_of m' t = entry_of m t) /\
  match r with
  | Granted => all_compatible e (mode req) = true /\ waiters e = [] /\
      entry_of m' (target req) = mkEntry (holders e ++ [(xid req, mode req)]) []
  | _ => entry_of m' (target req) = mkEntry (holders e) (waiters e ++ [(xid req, mode req)])
  end.
Proof.
  intros Hw. unfold try_lock. fold (entry_of m (target req)). set (e := entry_of m (target req)).
  assert (Hself : entry_of (<[target req := e]> m) (target req) = e) by (by rewrite entry_of_insert, decide_True).
  destruct (all_compatible e (mode req) && bool_decide (waiters e = [])) eqn:Hg.
  - apply andb_true_iff in Hg as [Hc Hn%bool_decide_eq_true]. rewrite Hn. split_and!; try done.
    + intros t Ht. by rewrite !entry_of_insert, !decide_False.
    + by rewrite entry_of_insert, decide_True.
  - rewrite detect_none.
    + pose proof (Hw (target req)) as Hw'. fold e in Hw'. rewrite Hw'. cbn [negb]. split_and!; try done.
      * intros t Ht. by rewrite !entry_of_insert, !decide_False.
      * by rewrite entry_of_insert, decide_True.
    + intros t. rewrite entry_of_insert. case_decide; [subst t|]; apply Hw.
Qed.

(** ** The invariant *)

Definition holders_ok (hs : list (N * LockMode)) : Prop :=
  Forall (fun h => h.2 = Shared) hs \/ exists x, hs = [(x, Exclusive)].

Record lock_inv (s : system) : Prop := {
  inv_holders : forall t, holders_ok (holders (entry_of (table s) t));
  inv_nodup : NoDup (xid <$> blocked s);
  inv_waiting : forall t x md, (x, md) ∈ waiting (table s) t <-> mkRequest x t md ∈ blocked s
}.

Lemma grant_ok hs x md : holders_ok hs -> forallb (fun h => is_compatible h.2 md) hs = true ->
  holders_ok (hs ++ [(x, md)]).
Proof.
  intros _ Hc. rewrite forallb_forall in Hc. destruct hs as [|h hs].
  { destruct md; [left; by repeat constructor|right; by eexists]. }
  left. assert (Hmd : md = Shared).
  { specialize (Hc h (or_introl eq_refl)). by destruct (h.2), md. }
  subst. apply Forall_app. split; [|by repeat constructor]. apply Forall_forall. intros [y my] Hy%list_elem_of_In.
  specialize (Hc _ Hy). by destruct my.
Qed.

Lemma not_of_spec x l h : h ∈ not_of x l <-> h ∈ l /\ h.1 <> x.
Proof.
  unfold not_of. rewrite list_elem_of_In, List.filter_In, <- list_elem_of_In, negb_true_iff, N.eqb_neq. done.
Qed.

Lemma not_of_holders x hs : holders_ok hs -> holders_ok (not_of x hs).
Proof.
  intros [Hs|[y ->]].
  - left. rewrite Forall_forall in *. intros h [Hh _]%not_of_spec. auto.
  - unfold not_of. cbn. destruct (y =? x); cbn; [by left|by right; eexists].
Qed.

Lemma release_entry m x t : entry_of (release_all m x) t =
  mkEntry (not_of x (holders (entry_of m t))) (waiters (entry_of m t)) .
Proof.
  unfold release_all, entry_of. rewrite map_lookup_filter, lookup_fmap.
  destruct (m !! t) as [e|]; cbn; [|done]. case_guard as Hg; cbn; [done|].
  apply Decidable.not_or in Hg as [H1 H2]. apply dec_stable in H1, H2. by rewrite H1, H2.
Qed.

(** A transaction that is not blocked waits nowhere. *)
Lemma not_blocked s x t : lock_inv s -> x ∉ (xid <$> blocked s) -> is_waiting (entry_of (table s) t) x = false.
Proof.
  intros Hi Hx. apply not_true_iff_false. rewrite is_waiting_spec. intros [md Hin].
  apply (inv_waiting s Hi) in Hin. apply Hx. exact (list_elem_of_fmap_2 xid _ _ Hin).
Qed.

(** The table after a blocked thread has taken itself out of the queue. *)
Definition dequeued (m : locks) (req : LockRequest) : locks :=
  match m !! target req with
  | Some e => <[target req := mkEntry (holders e) (not_of (xid req) (waiters e))]> m
  | None => m
  end.

Lemma dequeued_entry m req t : entry_of (dequeued m req) t =
  if decide (t = target req) then mkEntry (holders (entry_of m t)) (not_of (xid req) (waiters (entry_of m t)))
  else entry_of m t.
Proof.
  unfold dequeued. destruct (m !! target req) as [e|] eqn:E.
  - rewrite entry_of_insert. case_decide; [subst|done]. unfold entry_of. by rewrite E.
  - case_decide; [subst|done]. unfold entry_of. by rewrite E.
Qed.

Lemma blocked_once s l1 req l2 t md : lock_inv s -> blocked s = l1 ++ req :: l2 ->
  (xid req, md) ∈ waiting (table s) t -> t = target req /\ md = mode req.
Proof.
  intros Hi Hb Hin. apply (inv_waiting s Hi) in Hin. pose proof (inv_nodup s Hi) as Hnd. rewrite Hb in Hin, Hnd.
  rewrite fmap_app, fmap_cons in Hnd. apply NoDup_app in Hnd as (_ & Hd & [Hn _]%NoDup_cons).
  apply elem_of_app in Hin as [Hin|[<-|Hin]%elem_of_cons]; [|done|].
  - exfalso. apply (Hd (xid req)); [exact (list_elem_of_fmap_2 xid _ _ Hin)|by left].
  - exfalso. apply Hn. exact (list_elem_of_fmap_2 xid _ _ Hin).
Qed.

Lemma acquire_inv s req m r : lock_inv s -> xid req ∉ (xid <$> blocked s) -> acquire (table s) req = (m, r) ->
  lock_inv (mkSystem m (if decide (r = Waits) then req :: blocked s else blocked s)) /\ r <> Deadlock.
Proof.
  intros Hi Hx He. assert (Hfast : acquire (table s) req = (table s, Granted) \/ acquire (table s) req = try_lock (table s) req).
  { unfold acquire. destruct (table s !! target req) as [e|]; [|by right]. destruct (already_holds _ _ _); auto. }
  destruct Hfast as [Hf|Hf]; rewrite Hf in He; [injection He as <- <-; split; [by destruct s|done]|].
  pose proof (try_lock_spec (table s) req (fun t => not_blocked s _ t Hi Hx)) as Hs. rewrite He in Hs.
  destruct Hs as (Hnd & Hother & Hself). split; [|done].
  assert (Hcase : forall t, waiting m t = waiting (table s) t ++ (if decide (t = target req /\ r = Waits) then [(xid req, mode req)] else [])).
  { intros t. unfold waiting. destruct (decide (t = target req)) as [->|Hne].
    - destruct r; [| done|]; [rewrite decide_False by naive_solver|rewrite decide_True by done].
      + destruct Hself as (_ & -> & ->). done.
      + by rewrite Hself.
    - rewrite Hother, decide_False by naive_solver. by rewrite app_nil_r. }
  split; cbn [table blocked].
  - intros t. destruct (decide (t = target req)) as [->|Hne]; [|rewrite Hother by done; apply Hi].
    pose proof (inv_holders s Hi (target req)). destruct r; [|done|by rewrite Hself].
    destruct Hself as (Hc & _ & ->). by apply grant_ok.
  - case_decide; [|apply Hi]. cbn. apply NoDup_cons. split; [done|apply Hi].
  - intros t x md. rewrite Hcase, elem_of_app, (inv_waiting s Hi). destruct req as [x0 t0 md0]. cbn [xid target mode].
    destruct (decide (r = Waits)) as [->|Hr]; [|rewrite decide_False by naive_solver; rewrite elem_of_nil; tauto].
    rewrite elem_of_cons. destruct (decide (t = t0)) as [->|Ht].
    + rewrite decide_True, list_elem_of_singleton by done. naive_solver.
    + rewrite decide_False, elem_of_nil by naive_solver. naive_solver.
Qed.

Lemma wake_spec s l1 req l2 m r : lock_inv s -> blocked s = l1 ++ req :: l2 -> wake (table s) req = (m, r) ->
  let e := entry_of (table s) (target req) in
  r <> Deadlock /\ (forall t, t <> target req -> entry_of m t = entry_of (table s) t) /\
  match r with
  | Granted => all_compatible e (mode req) = true /\ not_of (xid req) (waiters e) = [] /\
      entry_of m (target req) = mkEntry (holders e ++ [(xid req, mode req)]) []
  | _ => entry_of m (target req) = mkEntry (holders e) (not_of (xid req) (waiters e) ++ [(xid req, mode req)])
  end.
Proof.
  intros Hi Hb He. unfold wake in He. fold (dequeued (table s) req) in He.
  assert (Hnw : forall t, is_waiting (entry_of (dequeued (table s) req) t) (xid req) = false).
  { intros t. apply not_true_iff_false. rewrite is_waiting_spec. intros [md Hin]. rewrite dequeued_entry in Hin.
    case_decide as E; [cbn in Hin; by apply not_of_spec in Hin as [_ ?]|].
    by destruct (blocked_once s l1 req l2 t md Hi Hb Hin). }
  pose proof (try_lock_spec _ req Hnw) as Hs. rewrite He in Hs. destruct Hs as (Hnd & Hother & Hself).
  rewrite dequeued_entry, decide_True in Hself by done. split_and!; [done| |done].
  intros t Ht. by rewrite Hother, dequeued_entry, decide_False.
Qed.

Lemma wake_inv s l1 req l2 m r : lock_inv s -> blocked s = l1 ++ req :: l2 -> wake (table s) req = (m, r) ->
  lock_inv (mkSystem m (if decide (r = Waits) then blocked s else l1 ++ l2)) /\ r <> Deadlock.
Proof.
  intros Hi Hb He. destruct (wake_spec s l1 req l2 m r Hi Hb He) as (Hnd & Hoth & Hself).
  pose proof (inv_waiting s Hi) as Hw. pose proof (inv_nodup s Hi) as Hndb. split; [|done]. split; cbn [table blocked].
  - intros t. destruct (decide (t = target req)) as [->|Hne]; [|rewrite Hoth by done; apply Hi].
    pose proof (inv_holders s Hi (target req)). destruct r; [|done|by rewrite Hself].
    destruct Hself as (Hc & _ & ->). by apply grant_ok.
  - case_decide; [done|]. rewrite Hb in Hndb. rewrite fmap_app, fmap_cons in Hndb. rewrite fmap_app.
    apply NoDup_app in Hndb as (H1 & H2 & [_ H3]%NoDup_cons). apply NoDup_app. split_and!; [done| |done]. set_solver.
  - intros t x md. destruct (decide (t = target req)) as [->|Hne]; [|].
    + unfold waiting. destruct r; [|done|].
      * destruct Hself as (_ & Hn & ->). cbn [waiters]. split; [by intros ?%elem_of_nil|]. intros Hin. exfalso.
        assert (Hin' : mkRequest x (target req) md ∈ blocked s) by (rewrite Hb; set_solver).
        apply Hw in Hin'. assert (x = xid req) as ->.
        { apply dec_stable. intros Hx. apply (elem_of_nil (x, md)). rewrite <- Hn. by apply not_of_spec. }
        rewrite Hb in Hndb. rewrite fmap_app, fmap_cons in Hndb. apply NoDup_app in Hndb as (_ & Hd & [Hn' _]%NoDup_cons).
        apply elem_of_app in Hin as [Hin|Hin]; [apply (Hd (xid req)); [|by left]|apply Hn']; exact (list_elem_of_fmap_2 xid _ _ Hin).
      * rewrite decide_True, Hself by done. cbn [waiters]. rewrite elem_of_app, list_elem_of_singleton, not_of_spec, <- Hw. cbn.
        split; [intros [[? _]|[= -> ->]]; [done|]|].
        { apply Hw. rewrite Hb. destruct req. set_solver. }
        intros Hin. destruct (decide (x = xid req)) as [->|]; [|by left]. right.
        destruct (blocked_once s l1 req l2 (target req) md Hi Hb Hin) as [_ ->]. done.
    + unfold waiting. rewrite Hoth by done. fold (waiting (table s) t). rewrite Hw. case_decide; [done|].
      rewrite Hb. destruct req. set_solver.
Qed.

Lemma step_inv s l s' : lock_inv s -> step s l s' -> lock_inv s' /\ l.2 <> Some Deadlock.
Proof.
  intros Hi Hst. revert Hi. destruct Hst as [s1 req m r Hx He|s1 req l1 l2 m r Hb He|s1 req Hx]; intros Hi.
  - destruct (acquire_inv s1 req m r Hi Hx He). split; [done|]. cbn. congruence.
  - destruct (wake_inv s1 l1 req l2 m r Hi Hb He). split; [done|]. cbn. congruence.
  - split; [|done]. split; cbn [table blocked]; [|apply Hi|].
    + intros t. rewrite release_entry. cbn. apply not_of_holders, Hi.
    + intros t x md. unfold waiting. rewrite release_entry. cbn. apply Hi.
Qed.

Lemma steps_inv ls s : steps init ls s -> lock_inv s /\ Forall (fun l => l.2 <> Some Deadlock) ls.
Proof.
  intros Hst. remember init as s0 eqn:E. induction Hst as [s0|s0 ls s2 l s3 _ IH Hs]; subst.
  - split; [|constructor]. split; cbn; [by left|constructor|]. intros t x md. unfold waiting. cbn.
    by rewrite !elem_of_nil.
  - destruct (IH eq_refl) as [Hi Hls]. destruct (step_inv s2 l s3 Hi Hs) as [Hi' Hl]. split; [done|].
    apply Forall_app. split; [done|by repeat constructor].
Qed.

(** C35: locks exclude each other.  In every reachable state the holders of a
    target are either all shared, or one transaction alone with an exclusive
    lock. *)
Theorem locks_are_exclusive ls s t : steps init ls s -> holders_ok (holders (entry_of (table s) t)).
Proof. intros [Hi _]%steps_inv. apply Hi. Qed.

(** No deadlock is ever reported.  [acquire] looks for a cycle before it has
    entered its own request into the queue, and takes itself out of the queue
    before it looks again, so the search never leaves the requesting
    transaction: no call returns the deadlock error, in whatever cycle of waits
    the transactions are. *)
Theorem deadlock_never_reported ls s req : steps init ls s -> (req, Some Deadlock) ∉ ls.
Proof.
  intros [_ Hls]%steps_inv Hin. rewrite Forall_forall in Hls. by apply (Hls _ Hin).
Qed.

(** Two requests of different transactions in the queue of one target. *)
Definition both_wait (s : system) (r1 r2 : LockRequest) : Prop :=
  xid r1 <> xid r2 /\ target r1 = target r2 /\ r1 ∈ blocked s /\ r2 ∈ blocked s.

Lemma both_wait_step s l s' r1 r2 : lock_inv s -> both_wait s r1 r2 -> step s l s' ->
  both_wait s' r1 r2 /\ l <> (r1, Some Granted) /\ l <> (r2, Some Granted).
Proof.
  intros Hi Hbw Hst. revert Hi Hbw. destruct Hst as [s1 req m r Hx He|s1 req l1 l2 m r Hb He|s1 req Hx]; intros Hi (Hne & Ht & H1 & H2).
  - assert (Hreq : forall q, q ∈ blocked s1 -> q <> req) by (intros q Hq ->; apply Hx, list_elem_of_fmap_2, Hq).
    split; [|split; intros [= E _]; [by apply (Hreq r1)|by apply (Hreq r2)]]. unfold both_wait. cbn [blocked]. case_decide; set_solver.
  - assert (Hwait : forall q q', xid q <> xid q' -> target q = target q' -> q' ∈ blocked s1 -> req = q -> r = Waits).
    { intros q q' Hq Htq Hin ->. destruct (wake_spec s1 l1 q l2 m r Hi Hb He) as (Hnd & _ & Hself).
      destruct r; [exfalso|done|done]. destruct Hself as (_ & Hn & _). apply (elem_of_nil (xid q', mode q')).
      rewrite <- Hn. apply not_of_spec. split; [|done]. apply (inv_waiting s1 Hi). rewrite Htq. by destruct q'. }
    assert (Hr : req = r1 \/ req = r2 -> r = Waits).
    { intros [E|E]; [by eapply (Hwait r1 r2)|eapply (Hwait r2 r1); done || congruence]. }
    split; [|split; intros [= E1 E2]; specialize (Hr ltac:(auto)); congruence].
    unfold both_wait. cbn [blocked]. case_decide as E; [by split_and!|].
    assert (req <> r1 /\ req <> r2) as [? ?] by (split; intros ->; apply E; auto).
    rewrite Hb in H1, H2. split_and!; [done|done|set_solver..].
  - split; [by split_and!|done].
Qed.

(** Two waiting transactions starve each other.  A thread that wakes up
    takes itself out of the queue and is granted the lock only if the queue is
    then empty: as soon as two transactions wait for the same target neither of
    them is ever granted it, also when nobody holds it any more. *)
Theorem two_waiters_starve ls s r1 r2 ls' s' : steps init ls s -> both_wait s r1 r2 -> steps s ls' s' ->
  both_wait s' r1 r2 /\ ((r1, Some Granted) ∉ ls') /\ ((r2, Some Granted) ∉ ls').
Proof.
  intros [Hi _]%steps_inv Hbw Hst. enough (lock_inv s' /\ both_wait s' r1 r2 /\
    ((r1, Some Granted) ∉ ls') /\ ((r2, Some Granted) ∉ ls')) by naive_solver.
  induction Hst as [s|s ls2 s2 l s3 _ IH Hs]; [split_and!; [done|done|apply not_elem_of_nil..]|].
  destruct (IH Hi Hbw) as (Hi2 & Hbw2 & Hn1 & Hn2). destruct (step_inv s2 l s3 Hi2 Hs) as [Hi3 _].
  destruct (both_wait_step s2 l s3 r1 r2 Hi2 Hbw2 Hs) as (Hbw3 & Hl1 & Hl2). split_and!; [done|done|set_solver..].
Qed.

(** ** A deadlock and two starving waiters *)

Definition ask (x t : N) : LockRequest := mkRequest x (Table t) Exclusive.

(** Runs acquisitions in a row; [None] when a transaction would ask twice. *)
Fixpoint acquires (s : system) (reqs : list LockRequest) : option (system * list (LockRequest * option attempt)) :=
  match reqs with
  | [] => Some (s, [])
  | req :: reqs =>
      if bool_decide (xid req ∈ xid <$> blocked s) then None
      else
        let '(m, r) := acquire (table s) req in
        '(s', ls) ← acquires (mkSystem m (if decide (r = Waits) then req :: blocked s else blocked s)) reqs;
        Some (s', (req, Some r) :: ls)
  end.

Lemma steps_cons s1 l s2 ls s3 : step s1 l s2 -> steps s2 ls s3 -> steps s1 (l :: ls) s3.
Proof.
  intros Hs Hst. revert Hs. induction Hst as [s|sa ls sb l' sc _ IH Hl]; intros Hs.
  - apply (steps_snoc s1 [] s1); [constructor|done].
  - apply (steps_snoc s1 (l :: ls) sb); auto.
Qed.

Lemma acquires_steps reqs s s' ls : acquires s reqs = Some (s', ls) -> steps s ls s'.
Proof.
  revert s s' ls. induction reqs as [|req reqs IH]; intros s s' ls E; cbn in E; [injection E as <- <-; constructor|].
  case_bool_decide as Hx; [done|]. destruct (acquire (table s) req) as [m r] eqn:Ha.
  destruct (acquires _ reqs) as [[s2 ls2]|] eqn:E2; [|done]. cbn in E. injection E as <- <-.
  eapply steps_cons; [by apply step_acquire|by apply IH].
Qed.

(** The answers and who is left waiting. *)
Definition outcome_of (o : option (system * list (LockRequest * option attempt))) : list (option attempt) * list LockRequest :=
  match o with
  | Some (s, ls) => (snd <$> ls, blocked s)
  | None => ([], [])
  end.

(** Transactions 1 and 2 each hold one table and ask for the other. *)
Definition cycle : list LockRequest := [ask 1 10; ask 2 20; ask 1 20; ask 2 10].

(** Transactions 2 and 3 wait for the table 1 holds. *)
Definition queue : list LockRequest := [ask 1 10; ask 2 10; ask 3 10].

Lemma locks_are_exclusive_witness :
  exists ls s, acquires init queue = Some (s, ls) /\ holders_ok (holders (entry_of (table s) (Table 10))).
Proof.
  destruct (acquires init queue) as [[s ls]|] eqn:E; [|by vm_compute in E].
  exists ls, s. split; [done|]. apply (locks_are_exclusive ls s). by eapply acquires_steps.
Defined.

Lemma deadlock_never_reported_witness :
  exists ls s, acquires init cycle = Some (s, ls) /\ (snd <$> ls) = Some <$> [Granted; Granted; Waits; Waits] /\
    (ask 2 10, Some Deadlock) ∉ ls.
Proof.
  destruct (acquires init cycle) as [[s ls]|] eqn:E; [|by vm_compute in E].
  exists ls, s. split_and!; [done| |apply (deadlock_never_reported ls s); by eapply acquires_steps].
  assert (H : outcome_of (acquires init cycle) = (Some <$> [Granted; Granted; Waits; Waits], [ask 2 10; ask 1 20])) by (by vm_compute).
  rewrite E in H. by injection H.
Defined.

Lemma two_waiters_starve_witness :
  exists ls s, acquires init queue = Some (s, ls) /\ both_wait s (ask 2 10) (ask 3 10) /\
    both_wait (mkSystem (release_all (table s) 1) (blocked s)) (ask 2 10) (ask 3 10).
Proof.
  destruct (acquires init queue) as [[s ls]|] eqn:E; [|by vm_compute in E].
  assert (Hb : blocked s = [ask 3 10; ask 2 10]).
  { assert (H : outcome_of (acquires init queue) = (Some <$> [Granted; Waits; Waits], [ask 3 10; ask 2 10])) by (by vm_compute).
    rewrite E in H. by injection H. }
  assert (Hw : both_wait s (ask 2 10) (ask 3 10)) by (split_and!; [done|done|rewrite Hb; set_solver..]).
  exists ls, s. split_and!; [done|done|].
  apply (two_waiters_starve ls s (ask 2 10) (ask 3 10) [(ask 1 10, None)]); [by eapply acquires_steps|done|].
  apply (steps_snoc s [] s); [constructor|]. apply (step_release s (ask 1 10)). rewrite Hb. set_solver.
Defined.

End Lock.
