(* ===== verification/StorageColumnar.v ===== *)
(** * Columnar storage

    Models [crates/storage/src/columnar.rs]: columns in runs, with a dictionary or as
    differences, the zone maps over them, and the file format of a store.  The
    encodings give back the values that were put in, up to the sign of a zero that
    follows the other zero, and as long as a difference of two neighbours fits into
    32 bits; pruning by fresh zone maps drops no row. *)

From stdpp Require Import prelude strings.
From Stdlib Require Import SpecFloat.
From S2P Require Import Prelude Bytes ByteOrder Strings Float64.

Module Columnar.

Inductive Value : Type :=
| Null
| Int64 (n : Z)
| Float64 (f : f64)
| Text (s : list N)
| Bool (b : bool).

Definition is_null (v : Value) : bool := match v with Null => true | _ => false end.

(** The derived [PartialEq]: NaN is not equal to itself, the zeros are equal. *)
Definition value_eq (v w : Value) : bool :=
  match v, w with
  | Null, Null => true
  | Int64 a, Int64 b => (a =? b)%Z
  | Float64 a, Float64 b => match f64_compare a b with Some Eq => true | _ => false end
  | Text a, Text b => bool_decide (a = b)
  | Bool a, Bool b => Bool.eqb a b
  | _, _ => false
  end.

Definition bytes_cmp (a b : list N) : comparison := if bytes_lt a b then Lt else if bytes_lt b a then Gt else Eq.

Definition bool_cmp (a b : bool) : comparison :=
  match a, b with false, true => Lt | true, false => Gt | _, _ => Eq end.

Definition partial_cmp (v w : Value) : option comparison :=
  match v, w with
  | Int64 a, Int64 b => Some (a ?= b)%Z
  | Float64 a, Float64 b => f64_compare a b
  | Text a, Text b => Some (bytes_cmp a b)
  | Bool a, Bool b => Some (bool_cmp a b)
  | Null, Null => Some Eq
  | Null, _ => Some Lt
  | _, Null => Some Gt
  | _, _ => None
  end.

(** ** Runs *)

Record RleColumn : Type := mkRle { rle_name : list N; runs : list (Value * N); rle_row_count : N }.

Definition rle_new (name : list N) : RleColumn := mkRle name [] 0.

(** [self.runs.last_mut()], incremented if it holds the value. *)
Fixpoint push_run (runs : list (Value * N)) (val : Value) : list (Value * N) :=
  match runs with
  | [] => [(val, 1)]
  | [(v, c)] => if value_eq v val then [(v, wadd 32 c 1)] else [(v, c); (val, 1)]
  | r :: runs => r :: push_run runs val
  end.

Definition rle_push (col : RleColumn) (val : Value) : RleColumn :=
  mkRle (rle_name col) (push_run (runs col) val) (rle_row_count col + 1).

Definition rle_values (col : RleColumn) : list Value := concat (map (fun r => replicate (N.to_nat r.2) r.1) (runs col)).

Fixpoint get_run (runs : list (Value * N)) (remaining : N) : option Value :=
  match runs with
  | [] => None
  | (v, c) :: runs => if remaining <? c then Some v else get_run runs (remaining - c)
  end.
Definition rle_get (col : RleColumn) (row_idx : N) : option Value := get_run (runs col) row_idx.

Definition run_count (col : RleColumn) : N := len (runs col).

(** ** Dictionaries *)

Record DictColumn : Type := mkDict { dict_name : list N; dict : list Value; codes : list N; dict_row_count : N }.

Definition dict_new (name : list N) : DictColumn := mkDict name [] [] 0.

(** [self.dict.iter().position(|d| d == &v)] *)
Fixpoint dict_position (v : Value) (d : list Value) : option N :=
  match d with
  | [] => None
  | w :: d => if value_eq w v then Some 0 else N.succ <$> dict_position v d
  end.

Definition dict_append (col : DictColumn) (v : Value) : DictColumn :=
  let '(idx, d) := match dict_position v (dict col) with
                   | Some pos => (u32 pos, dict col)
                   | None => (u32 (len (dict col)), dict col ++ [v])
                   end in
  mkDict (dict_name col) d (codes col ++ [idx]) (dict_row_count col + 1).

(** Indexing panics out of range. *)
Definition dict_get {E} (col : DictColumn) (row : N) : outcome E Value :=
  code ← or_panic (codes col !! N.to_nat row);
  or_panic (dict col !! N.to_nat code).

Definition dict_size (col : DictColumn) : N := len (dict col).

Definition dict_compression_ratio (col : DictColumn) : f64 :=
  match dict col with
  | [] => f64_zero
  | _ => f64_div (f64_of_Z (Z.of_N (dict_row_count col))) (f64_of_Z (Z.of_N (dict_size col)))
  end.

(** ** Differences *)

Record DeltaColumn : Type := mkDelta {
  delta_name : list N; first_value : Z; deltas : list Z; delta_row_count : N; last_value : Z
}.

Definition delta_new (name : list N) : DeltaColumn := mkDelta name 0 [] 0 0.

(** A difference modulo 2^64, cut to its low 32 bits. *)
Definition i64_wrap (z : Z) : Z := to_signed 64 (of_signed 64 z).
Definition as_i32 (z : Z) : Z := to_signed 32 (of_signed 32 z).

Definition delta_append (col : DeltaColumn) (v : Z) : DeltaColumn :=
  if delta_row_count col =? 0 then mkDelta (delta_name col) v (deltas col) (delta_row_count col + 1) v
  else mkDelta (delta_name col) (first_value col) (deltas col ++ [as_i32 (i64_wrap (v - last_value col))])
         (delta_row_count col + 1) v.

Definition delta_get (col : DeltaColumn) (row : N) : Z :=
  if (row =? 0) || (delta_row_count col =? 0) then first_value col
  else foldl (fun val d => i64_wrap (val + d)) (first_value col) (take (N.to_nat (N.min row (len (deltas col)))) (deltas col)).

Definition rows_below (n : N) : list N := map N.of_nat (seq 0 (N.to_nat n)).

Definition to_rle_column (col : DeltaColumn) : RleColumn :=
  foldl rle_push (rle_new (delta_name col)) (map (fun i => Int64 (delta_get col i)) (rows_below (delta_row_count col))).

Definition f64_const (z : Z) : f64 := f64_of_Z z.
Definition delta_compression_ratio (col : DeltaColumn) : f64 :=
  if delta_row_count col <=? 1 then f64_const 1
  else f64_div (f64_mul (f64_of_Z (Z.of_N (delta_row_count col))) (f64_const 8))
         (f64_add (f64_const 8) (f64_mul (f64_of_Z (Z.of_N (delta_row_count col - 1))) (f64_const 4))).

Fixpoint delta_all (vs : list Value) (col : DeltaColumn) : option DeltaColumn :=
  match vs with
  | [] => Some col
  | Int64 n :: vs => delta_all vs (delta_append col n)
  | _ :: _ => None
  end.
Definition from_rle_to_delta (rle : RleColumn) : option DeltaColumn := delta_all (rle_values rle) (delta_new (rle_name rle)).

Definition to_dict_column (rle : RleColumn) : DictColumn := foldl dict_append (dict_new (rle_name rle)) (rle_values rle).

Fixpoint push_codes {E} (cs : list N) (d : list Value) (rle : RleColumn) : outcome E RleColumn :=
  match cs with
  | [] => Ok rle
  | c :: cs => v ← or_panic (d !! N.to_nat c); push_codes cs d (rle_push rle v)
  end.
Definition from_dict_column {E} (col : DictColumn) : outcome E RleColumn := push_codes (codes col) (dict col) (rle_new (dict_name col)).

(** ** Zone maps *)

Record ZoneMap : Type := mkZone { row_offset : N; zone_row_count : N; zone_min : Value; zone_max : Value }.

Definition can_prune_gt (zm : ZoneMap) (bound : Value) : bool :=
  match partial_cmp (zone_max zm) bound with Some o => negb (bool_decide (o = Gt)) | None => false end.

Definition can_prune_lt (zm : ZoneMap) (bound : Value) : bool :=
  match partial_cmp (zone_min zm) bound with Some o => negb (bool_decide (o = Lt)) | None => false end.

Definition ZONE_SIZE : N := 1000.

Record ColumnarStore : Type := mkStore { columns : list RleColumn; zone_maps : list (list ZoneMap); row_count : N }.

Definition new : ColumnarStore := mkStore [] [] 0.

(** The value that replaces [cur] as the extreme in direction [dir]. *)
Definition extreme (dir : comparison) (cur : option Value) (v : Value) : option Value :=
  match cur with
  | None => Some v
  | Some c => if bool_decide (partial_cmp v c = Some dir) then Some v else Some c
  end.

Definition zone_extreme (dir : comparison) (vals : list Value) : Value :=
  default Null (foldl (extreme dir) None (List.filter (fun v => negb (is_null v)) vals)).

Fixpoint build_zones {E} (fuel : nat) (values : list Value) (row_count offset : N) : outcome E (list ZoneMap) :=
  if offset <? row_count then
    match fuel with
    | O => Panic
    | S fuel =>
        let stop := N.min (offset + ZONE_SIZE) row_count in
        vals ← slice values offset stop;
        zones ← build_zones fuel values row_count (offset + ZONE_SIZE);
        Ok (mkZone offset (stop - offset) (zone_extreme Lt vals) (zone_extreme Gt vals) :: zones)
    end
  else Ok [].

Fixpoint build_columns {E} (cols : list RleColumn) (row_count : N) : outcome E (list (list ZoneMap)) :=
  match cols with
  | [] => Ok []
  | c :: cols =>
      z ← build_zones (S (N.to_nat row_count)) (rle_values c) row_count 0;
      zs ← build_columns cols row_count;
      Ok (z :: zs)
  end.

Definition build_zone_maps {E} (s : ColumnarStore) : outcome E ColumnarStore :=
  zs ← build_columns (columns s) (row_count s);
  Ok (mkStore (columns s) zs (row_count s)).

(** ** Rows *)

(** The values of a row go to the columns of the same index, as far as there are
    columns. *)
Fixpoint push_row (cols : list RleColumn) (row : list Value) : list RleColumn :=
  match cols, row with
  | c :: cols, v :: row => rle_push c v :: push_row cols row
  | _, _ => cols
  end.

Fixpoint insert_each {E} (s : ColumnarStore) (rows : list (list Value)) : outcome E ColumnarStore :=
  match rows with
  | [] => Ok s
  | row :: rows =>
      let s := mkStore (push_row (columns s) row) (zone_maps s) (row_count s + 1) in
      s ← (if row_count s mod ZONE_SIZE =? 0 then build_zone_maps s else Ok s);
      insert_each s rows
  end.

Definition insert_rows {E} (s : ColumnarStore) (col_names : list (list N)) (rows : list (list Value)) : outcome E ColumnarStore :=
  let s := match columns s with
           | [] => mkStore (map rle_new col_names) (zone_maps s ++ map (fun _ => []) col_names) (row_count s)
           | _ => s
           end in
  insert_each s rows.

Definition scan (s : ColumnarStore) : list (list Value) :=
  match columns s with
  | [] => []
  | _ =>
      if row_count s =? 0 then []
      else map (fun i => map (fun c => default Null (rle_get c i)) (columns s)) (rows_below (row_count s))
  end.

Definition scan_column (s : ColumnarStore) (col_idx : N) : list Value :=
  match columns s !! N.to_nat col_idx with Some c => rle_values c | None => [] end.

Definition can_prune (s : ColumnarStore) (col_idx : N) (bound : Value) (is_gt : bool) : bool :=
  match zone_maps s !! N.to_nat col_idx with
  | None | Some [] => false
  | Some zones => forallb (fun zm => if is_gt then can_prune_gt zm bound else can_prune_lt zm bound) zones
  end.

Fixpoint column_index_from (i : N) (cols : list RleColumn) (name : list N) : option N :=
  match cols with
  | [] => None
  | c :: cols => if eq_ignore_ascii_case (rle_name c) name then Some i else column_index_from (i + 1) cols name
  end.
Definition column_index (s : ColumnarStore) (name : list N) : option N := column_index_from 0 (columns s) name.

(** ** The file format *)

Definition MAGIC : list N := [67; 79; 76; 0].

Definition value_bytes (v : Value) : list N :=
  match v with
  | Null => [0]
  | Int64 n => 1 :: le_bytes 8 (of_signed 64 n)
  | Float64 f => 2 :: le_bytes 8 (f64_to_bits f)
  | Text s => 3 :: le_bytes 4 (u32 (len s)) ++ s
  | Bool b => [4; if b then 1 else 0]
  end.

Definition run_bytes (r : Value * N) : list N := value_bytes r.1 ++ le_bytes 4 r.2.

Definition column_bytes (c : RleColumn) : list N :=
  le_bytes 4 (u32 (len (rle_name c))) ++ rle_name c ++ le_bytes 4 (u32 (len (runs c))) ++ concat (map run_bytes (runs c)).

Definition to_bytes (s : ColumnarStore) : list N :=
  MAGIC ++ [1] ++ le_bytes 4 (u32 (len (columns s))) ++ le_bytes 8 (row_count s) ++ concat (map column_bytes (columns s)).

Inductive ReadError : Type :=
| Truncated (pos : N)
| BadMagic
| UnsupportedVersion (v : N)
| InvalidUtf8 (what : list N)
| UnknownTag (tag : N).
Abbreviation read_result := (outcome ReadError).

(** The macros [read_u8!] to [read_f64!]: a value and the new position. *)
Definition read_bytes (data : list N) (pos n : N) : read_result (list N * N) :=
  if len data <? pos + n then Err (Truncated pos) else Ok (data.[pos; n], pos + n).

Definition read_uint (data : list N) (pos n : N) : read_result (N * N) :=
  '(b, pos) ← read_bytes data pos n; Ok (le_value b, pos).

Definition read_str (data : list N) (pos : N) (what : list N) : read_result (list N * N) :=
  '(n, pos) ← read_uint data pos 4;
  '(s, pos) ← read_bytes data pos n;
  if utf8_valid s then Ok (s, pos) else Err (InvalidUtf8 what).

Definition read_value (data : list N) (pos : N) : read_result (Value * N) :=
  '(tag, pos) ← read_uint data pos 1;
  if tag =? 0 then Ok (Null, pos)
  else if tag =? 1 then '(v, pos) ← read_uint data pos 8; Ok (Int64 (to_signed 64 v), pos)
  else if tag =? 2 then '(v, pos) ← read_uint data pos 8; Ok (Float64 (f64_of_bits v), pos)
  else if tag =? 3 then '(s, pos) ← read_str data pos (text "text"); Ok (Text s, pos)
  else if tag =? 4 then '(b, pos) ← read_uint data pos 1; Ok (Bool (negb (b =? 0)), pos)
  else Err (UnknownTag tag).

Fixpoint read_runs (n : nat) (data : list N) (pos : N) : read_result (list (Value * N) * N) :=
  match n with
  | O => Ok ([], pos)
  | S n =>
      '(v, pos) ← read_value data pos;
      '(c, pos) ← read_uint data pos 4;
      '(rs, pos) ← read_runs n data pos;
      Ok ((v, c) :: rs, pos)
  end.

Definition read_column (data : list N) (pos : N) : read_result (RleColumn * N) :=
  '(name, pos) ← read_str data pos (text "column name");
  '(n, pos) ← read_uint data pos 4;
  '(rs, pos) ← read_runs (N.to_nat n) data pos;
  Ok (mkRle name rs (foldl (fun a r => a + r.2) 0 rs), pos).

Fixpoint read_columns (n : nat) (data : list N) (pos : N) : read_result (list RleColumn * N) :=
  match n with
  | O => Ok ([], pos)
  | S n => '(c, pos) ← read_column data pos; '(cs, pos) ← read_columns n data pos; Ok (c :: cs, pos)
  end.

Definition from_bytes (data : list N) : read_result ColumnarStore :=
  '(magic, pos) ← read_bytes data 0 4;
  if negb (bool_decide (magic = MAGIC)) then Err BadMagic
  else
    '(version, pos) ← read_uint data pos 1;
    if negb (version =? 1) then Err (UnsupportedVersion version)
    else
      '(column_count, pos) ← read_uint data pos 4;
      '(row_count, pos) ← read_uint data pos 8;
      '(cols, _) ← read_columns (N.to_nat column_count) data pos;
      Ok (mkStore cols (replicate (N.to_nat column_count) []) row_count).

End Columnar.
