(* ===== verification/StorageColumnarSpec.v ===== *)
(** * What the columnar encodings keep

    The values of a column come back from its runs, its dictionary and its
    differences; the rows of a store from a scan and from its file; and no row that
    matches a comparison is pruned by zone maps that cover all rows.  The last part
    shows the inputs for which this fails. *)

From stdpp Require Import prelude strings.
From Stdlib Require Import SpecFloat.
From S2P Require Import Prelude Bytes ByteOrder Strings Float64 StorageColumnar.

Module ColumnarSpec.
Import Columnar.

(** ** Equal values *)

(** The same value, or both a zero. *)
Definition same (v w : Value) : Prop :=
  v = w \/ exists s t, v = Float64 (S754_zero s) /\ w = Float64 (S754_zero t).

#[global] Instance same_equivalence : Equivalence same.
Proof.
  split.
  - intros v. by left.
  - intros v w [->|(s & t & -> & ->)]; [by left|right; eauto].
  - intros u v w [->|(s & t & -> & ->)]; [done|]. intros [<-|(s' & t' & [= ->] & ->)]; right; eauto.
Qed.

Lemma value_eq_same v w : value_eq v w = true -> same v w.
Proof.
  destruct v as [|x|x|x|x], w as [|y|y|y|y]; try discriminate; cbn [value_eq]; intros E.
  - done.
  - left. f_equal. by apply Z.eqb_eq.
  - destruct (f64_compare x y) as [[]|] eqn:Ec; try discriminate. apply f64_compare_eq in Ec as [->|(s & t & -> & ->)]; [by left|right; eauto].
  - left. f_equal. by apply bool_decide_eq_true_1 in E.
  - left. f_equal. by apply Bool.eqb_prop.
Qed.

(** ** Runs *)

Definition run_values (rs : list (Value * N)) : list Value := concat (map (fun r => replicate (N.to_nat r.2) r.1) rs).

Lemma run_values_cons v c rs : run_values ((v, c) :: rs) = replicate (N.to_nat c) v ++ run_values rs.
Proof. done. Qed.

Lemma push_run_values rs v : len (run_values rs) + 1 < 2 ^ 32 ->
  Forall2 same (run_values (push_run rs v)) (run_values rs ++ [v]) /\ len (run_values (push_run rs v)) = len (run_values rs) + 1.
Proof.
  induction rs as [|[w c] rs IH]; intros Hl; [split; [by repeat constructor|done]|].
  destruct rs as [|r rs].
  - cbn [push_run]. rewrite run_values_cons in *. change (run_values []) with (@nil Value) in *. rewrite app_nil_r in *. rewrite len_replicate in Hl.
    destruct (value_eq w v) eqn:E.
    + unfold wadd, wrap. rewrite N.mod_small by lia. rewrite run_values_cons. change (run_values []) with (@nil Value). rewrite app_nil_r.
      rewrite N2Nat.inj_add, replicate_add. cbn [N.to_nat]. split; [|rewrite len_app, !len_replicate; lia].
      apply Forall2_app; [reflexivity|]. constructor; [by apply value_eq_same|constructor].
    + rewrite !run_values_cons. change (run_values []) with (@nil Value). rewrite app_nil_r. split; [reflexivity|].
      rewrite len_app, !len_replicate. lia.
  - change (push_run ((w, c) :: r :: rs) v) with ((w, c) :: push_run (r :: rs) v). rewrite !run_values_cons, !len_app in *.
    destruct IH as [IH1 IH2]; [lia|]. rewrite IH2. split; [|lia]. rewrite <- app_assoc. by apply Forall2_app.
Qed.

Lemma get_run_values rs i : get_run rs i = run_values rs !! N.to_nat i.
Proof.
  revert i. induction rs as [|[v c] rs IH]; intros i; cbn [get_run]; [done|]. rewrite run_values_cons. case_cmp.
  - rewrite lookup_app_l by (rewrite length_replicate; lia). rewrite lookup_replicate_2 by lia. done.
  - rewrite IH, lookup_app_r by (rewrite length_replicate; lia). f_equal. rewrite length_replicate. lia.
Qed.

(** Values as the code has them. *)
Definition i64_ok (n : Z) : Prop := (- 2 ^ 63 <= n < 2 ^ 63)%Z.

Definition text_ok (t : list N) : Prop := utf8_valid t = true /\ len t < 2 ^ 32.

Definition value_ok (v : Value) : Prop :=
  match v with
  | Int64 n => i64_ok n
  | Float64 f => f64_ok f = true
  | Text t => text_ok t
  | _ => True
  end.

Definition runs_ok (rs : list (Value * N)) : Prop := Forall (fun r => value_ok r.1 /\ 1 <= r.2) rs.

Lemma push_run_ok rs v : runs_ok rs -> value_ok v -> len (run_values rs) + 1 < 2 ^ 32 -> runs_ok (push_run rs v).
Proof.
  intros Hrs Hv. induction Hrs as [|[w c] rs [Hw Hc] Hrs IH]; intros Hl; [by repeat constructor|]. rewrite run_values_cons, len_app, len_replicate in Hl.
  destruct rs as [|r rs]; cbn [push_run].
  - destruct (value_eq w v); [|by repeat constructor]. constructor; [|constructor]. split; [done|]. cbn. unfold wadd, wrap. rewrite N.mod_small by lia. lia.
  - constructor; [done|]. apply IH. lia.
Qed.

(** What a column holds after pushing [vs]. *)
Record holds (col : RleColumn) (vs : list Value) : Prop := {
  ho_runs : Forall value_ok vs -> runs_ok (runs col);
  ho_values : Forall2 same (rle_values col) vs;
  ho_count : rle_row_count col = len vs
}.

Lemma holds_push col vs v : holds col vs -> len vs + 1 < 2 ^ 32 -> holds (rle_push col v) (vs ++ [v]).
Proof.
  intros [Ho Hv Hc] Hl. assert (Hlen : len (rle_values col) = len vs) by (unfold len; by rewrite (Forall2_length _ _ _ Hv)).
  destruct (push_run_values (runs col) v) as [Hp _]; [change (len (rle_values col) + 1 < 2 ^ 32); lia|]. split.
  - intros [Hvs Hw]%Forall_app. inversion Hw; subst. apply (push_run_ok (runs col) v); [auto..|].
    change (len (rle_values col) + 1 < 2 ^ 32). lia.
  - change (Forall2 same (run_values (push_run (runs col) v)) (vs ++ [v])). etrans; [exact Hp|]. apply Forall2_app; [exact Hv|by repeat constructor].
  - cbn. rewrite Hc, len_app. done.
Qed.

Lemma holds_new nm : holds (rle_new nm) [].
Proof. split; [by constructor|constructor|done]. Qed.

Lemma holds_all col us vs : holds col us -> len us + len vs < 2 ^ 32 -> holds (foldl rle_push col vs) (us ++ vs).
Proof.
  revert col us. induction vs as [|v vs IH]; intros col us Hh Hl; [by rewrite app_nil_r|]. rewrite len_cons in Hl. cbn [foldl].
  rewrite cons_middle, app_assoc. apply IH; [|rewrite len_app, len_cons, len_nil; lia]. apply holds_push; [done|lia].
Qed.

Lemma holds_get col vs i : holds col vs -> option_Forall2 same (rle_get col i) (vs !! N.to_nat i).
Proof. intros [_ Hv _]. unfold rle_get. rewrite get_run_values. by apply Forall2_lookup. Qed.

(** ** The order of values *)

(** Lexicographic comparison of integer lists. *)
Fixpoint lex (a b : list Z) : comparison :=
  match a, b with
  | [], [] => Eq
  | [], _ :: _ => Lt
  | _ :: _, [] => Gt
  | x :: a, y :: b => match (x ?= y)%Z with Eq => lex a b | c => c end
  end.

Lemma lex_opp a b : lex b a = CompOpp (lex a b).
Proof.
  revert b. induction a as [|x a IH]; intros [|y b]; cbn; try done. rewrite (Z.compare_antisym x y). destruct (x ?= y)%Z; cbn; auto.
Qed.

Lemma lex_le_trans a b c : lex a b <> Gt -> lex b c <> Gt -> lex a c <> Gt.
Proof.
  revert b c. induction a as [|x a IH]; intros [|y b] [|z c]; cbn; try done.
  destruct (Z.compare_spec x y), (Z.compare_spec y z), (Z.compare_spec x z); try done; try lia. apply IH.
Qed.

(** The place of a float that is a number: its sign, then exponent and mantissa. *)
Definition f64_rank (f : f64) : option (list Z) :=
  match f with
  | S754_nan => None
  | S754_zero _ => Some [0%Z]
  | S754_infinity s => Some [if s then (-2)%Z else 2%Z]
  | S754_finite true m e => Some [(-1)%Z; (- e)%Z; Z.neg m]
  | S754_finite false m e => Some [1%Z; e; Z.pos m]
  end.

(** The place of a value among those of its type. *)
Definition rank (v : Value) : option (N * list Z) :=
  match v with
  | Null => Some (0, [])
  | Int64 n => Some (1, [n])
  | Float64 f => pair 2 <$> f64_rank f
  | Text s => Some (3, map Z.of_N s)
  | Bool b => Some (4, [if b then 1%Z else 0%Z])
  end.

Lemma f64_compare_rank a b : f64_compare a b =
  match f64_rank a, f64_rank b with Some x, Some y => Some (lex x y) | _, _ => None end.
Proof.
  destruct a as [[]|[]| |[] m e], b as [[]|[]| |[] n d]; try done; cbn.
  - replace ((- e) ?= (- d))%Z with (d ?= e)%Z by (rewrite Z.compare_opp; f_equal; lia). rewrite (Z.compare_antisym e d).
    change (PosDef.Pos.compare_cont Eq m n) with (m ?= n)%positive. by destruct (e ?= d)%Z, (m ?= n)%positive.
  - change (Pos.compare_cont Eq m n) with (m ?= n)%positive. by destruct (e ?= d)%Z, (m ?= n)%positive.
Qed.

Lemma bytes_cmp_lex a b : bytes_cmp a b = lex (map Z.of_N a) (map Z.of_N b).
Proof.
  unfold bytes_cmp. revert b. induction a as [|x a IH]; intros [|y b]; cbn; try done.
  rewrite N2Z.inj_compare. destruct (N.compare_spec x y) as [->|Hlt|Hgt].
  - rewrite N.ltb_irrefl, N.eqb_refl. cbn. apply IH.
  - by rewrite (proj2 (N.ltb_lt x y) Hlt).
  - rewrite (proj2 (N.ltb_ge x y)), (proj2 (N.eqb_neq x y)), (proj2 (N.ltb_lt y x)) by lia. done.
Qed.

Lemma partial_cmp_rank v w : v <> Null -> w <> Null -> partial_cmp v w =
  match rank v, rank w with Some (k, x), Some (l, y) => if k =? l then Some (lex x y) else None | _, _ => None end.
Proof.
  intros Hv Hw. destruct v as [|a|a|a|a], w as [|b|b|b|b]; try done; cbn [partial_cmp rank].
  - cbn. by destruct (a ?= b)%Z.
  - by destruct (f64_rank b).
  - by destruct (f64_rank a).
  - rewrite f64_compare_rank. by destruct (f64_rank a), (f64_rank b).
  - by destruct (f64_rank a).
  - by destruct (f64_rank a).
  - by destruct (f64_rank b).
  - cbn. by rewrite bytes_cmp_lex.
  - by destruct (f64_rank b).
  - by destruct a, b.
Qed.

(** ** Zones *)

Lemma lex_trans dir a b c : dir <> Eq -> lex a b <> dir -> lex b c <> dir -> lex a c <> dir.
Proof.
  intros Hd H1 H2. destruct dir; [done| |by eapply lex_le_trans]. rewrite lex_opp. rewrite lex_opp in H1, H2.
  assert (H : lex c a <> Gt) by (apply (lex_le_trans c b a); [by destruct (lex c b)|by destruct (lex b a)]). by destruct (lex c a).
Qed.

Lemma lex_asym dir a b : dir <> Eq -> lex a b = dir -> lex b a <> dir.
Proof. intros Hd E. rewrite lex_opp, E. by destruct dir. Qed.

(** No value of the type of [c] lies beyond it in direction [dir]. *)
Definition bounds (dir : comparison) (c v : Value) : Prop :=
  forall k x y, rank c = Some (k, x) -> rank v = Some (k, y) -> lex y x <> dir.

Lemma partial_cmp_inv v w o : v <> Null -> w <> Null -> partial_cmp v w = Some o ->
  exists k x y, rank v = Some (k, x) /\ rank w = Some (k, y) /\ lex x y = o.
Proof.
  intros Hv Hw. rewrite partial_cmp_rank by done. destruct (rank v) as [[k x]|], (rank w) as [[l y]|]; try done.
  destruct (N.eqb_spec k l) as [->|]; [|done]. intros [= <-]. by exists l, x, y.
Qed.

Lemma lex_refl a : lex a a = Eq.
Proof. induction a as [|x a IH]; [done|]. cbn. by rewrite Z.compare_refl. Qed.

Lemma bounds_refl dir v : dir <> Eq -> bounds dir v v.
Proof. intros Hd k x y H1 H2. rewrite H1 in H2. injection H2 as <-. by rewrite lex_refl. Qed.

Lemma extreme_bounds dir c v : dir <> Eq -> c <> Null -> v <> Null ->
  exists c', extreme dir (Some c) v = Some c' /\ c' <> Null /\ bounds dir c' v /\ forall u, bounds dir c u -> bounds dir c' u.
Proof.
  intros Hd Hc Hv. cbn [extreme]. case_bool_decide as Hcmp.
  - exists v. split_and!; [done..|by apply bounds_refl|]. destruct (partial_cmp_inv _ _ _ Hv Hc Hcmp) as (k & x & y & Ev & Ec & El).
    intros u Hu k' x' z Ev' Eu. rewrite Ev in Ev'. injection Ev' as <- <-.
    apply (lex_trans _ _ y); [done|by apply (Hu k)|by apply lex_asym].
  - exists c. split_and!; [done..| |done]. intros k x y Ec Ev Hl. apply Hcmp. rewrite partial_cmp_rank, Ev, Ec, N.eqb_refl, Hl by done. done.
Qed.

Lemma fold_extreme_bounds dir vs c : dir <> Eq -> c <> Null -> Forall (fun v => v <> Null) vs ->
  exists c', foldl (extreme dir) (Some c) vs = Some c' /\ c' <> Null /\ Forall (bounds dir c') vs /\ forall u, bounds dir c u -> bounds dir c' u.
Proof.
  intros Hd. revert c. induction vs as [|v vs IH]; intros c Hc Hvs; [by exists c|]. apply Forall_cons in Hvs as [Hv Hvs]. cbn [foldl].
  destruct (extreme_bounds dir c v Hd Hc Hv) as (c1 & -> & Hc1 & Hb1 & Ht1). destruct (IH c1 Hc1 Hvs) as (c2 & -> & Hc2 & Hb2 & Ht2).
  exists c2. split_and!; eauto.
Qed.

Lemma zone_extreme_bounds dir vals v : dir <> Eq -> v ∈ vals -> v <> Null -> zone_extreme dir vals <> Null /\ bounds dir (zone_extreme dir vals) v.
Proof.
  intros Hd Hin Hv. unfold zone_extreme. set (nn := List.filter _ vals).
  assert (Hnn : v ∈ nn). { unfold nn. apply list_elem_of_In, filter_In. split; [by apply list_elem_of_In|by destruct v]. }
  assert (Hall : Forall (fun u => u <> Null) nn). { apply Forall_forall. intros u Hu. unfold nn in Hu. apply list_elem_of_In, filter_In in Hu as [_ Hu]. by destruct u. }
  destruct nn as [|c nn]; [by apply not_elem_of_nil in Hnn|]. apply Forall_cons in Hall as [Hc Hall]. cbn [foldl extreme].
  destruct (fold_extreme_bounds dir nn c Hd Hc Hall) as (c' & -> & Hc' & Hb & Ht). cbn. split; [done|].
  apply elem_of_cons in Hnn as [->|Hnn]; [by apply Ht, bounds_refl|by apply (proj1 (Forall_forall _ _) Hb)].
Qed.

(** A zone with extreme [e] that does not lie beyond [bound] holds no value that does. *)
Lemma pruned_sound dir vals v bound o : dir <> Eq -> v ∈ vals -> v <> Null ->
  partial_cmp (zone_extreme dir vals) bound = Some o -> o <> dir -> partial_cmp v bound <> Some dir.
Proof.
  intros Hd Hin Hv He Ho Hc. destruct (zone_extreme_bounds dir vals v Hd Hin Hv) as [Hn Hbd].
  assert (Hb : bound <> Null). { intros ->. destruct v, (zone_extreme dir vals); cbn in *; congruence. }
  destruct (partial_cmp_inv _ _ _ Hn Hb He) as (k & x & y & Ee & Eb & El). destruct (partial_cmp_inv _ _ _ Hv Hb Hc) as (k' & z & y' & Ev & Eb' & El').
  rewrite Eb in Eb'. injection Eb' as <- <-. apply (lex_trans dir z x y Hd (Hbd _ _ _ Ee Ev)); congruence.
Qed.

(** The zones of a column cover its values. *)
Definition covered (values : list Value) (zones : list ZoneMap) : Prop :=
  forall v, v ∈ values -> exists zm vals, zm ∈ zones /\ v ∈ vals /\ zone_min zm = zone_extreme Lt vals /\ zone_max zm = zone_extreme Gt vals.

Lemma build_zones_ok {E} fuel values offset : (N.to_nat (len values) < fuel + N.to_nat offset)%nat ->
  exists zs, build_zones (E := E) fuel values (len values) offset = Ok zs /\ covered (drop (N.to_nat offset) values) zs.
Proof.
  revert offset. induction fuel as [|fuel IH]; intros offset Hf; cbn [build_zones].
  - destruct (N.ltb_spec offset (len values)); [lia|]. exists []. split; [done|]. rewrite drop_ge by (unfold len in *; lia). by intros v ?%not_elem_of_nil.
  - destruct (N.ltb_spec offset (len values)) as [Hlt|]; cycle 1.
    { exists []. split; [done|]. rewrite drop_ge by (unfold len in *; lia). by intros v ?%not_elem_of_nil. }
    set (stop := N.min (offset + ZONE_SIZE) (len values)).
    assert (Hs : slice (E := E) values offset stop = Ok (values.[offset; stop - offset])) by (apply slice_ok; lia). rewrite Hs. cbn [mbind outcome_bind].
    destruct (IH (offset + ZONE_SIZE)) as (zs & -> & Hzs); [unfold ZONE_SIZE; lia|]. cbn. eexists. split; [done|].
    intros v Hv. rewrite <- (take_drop (N.to_nat (stop - offset)) (drop (N.to_nat offset) values)) in Hv. apply elem_of_app in Hv as [Hv|Hv].
    + exists (mkZone offset (stop - offset) (zone_extreme Lt (values.[offset; stop - offset])) (zone_extreme Gt (values.[offset; stop - offset]))),
        (values.[offset; stop - offset]). split_and!; [left|exact Hv|done|done].
    + destruct (Hzs v) as (zm & vals & Hin & Hr); [|exists zm, vals; split; [by right|done]].
      rewrite drop_drop in Hv. destruct (N.leb_spec (offset + ZONE_SIZE) (len values)) as [Hle|Hle].
      * by replace (N.to_nat offset + N.to_nat (stop - offset))%nat with (N.to_nat (offset + ZONE_SIZE)) in Hv by lia.
      * rewrite drop_ge in Hv by (unfold len in *; lia). by apply not_elem_of_nil in Hv.
Qed.

Lemma build_columns_ok {E} cols n : Forall (fun c => len (rle_values c) = n) cols ->
  exists zss, build_columns (E := E) cols n = Ok zss /\ Forall2 (fun c zs => covered (rle_values c) zs) cols zss.
Proof.
  induction 1 as [|c cols <- Hcs IH]; [by exists []|]. cbn [build_columns].
  destruct (build_zones_ok (E := E) (S (N.to_nat (len (rle_values c)))) (rle_values c) 0) as (zs & -> & Hzs); [lia|]. destruct IH as (zss & E2 & Hzss).
  cbn [mbind outcome_bind]. rewrite E2. exists (zs :: zss). split; [done|]. by constructor.
Qed.

(** ** Rows *)

(** The values of column [j] in [rows]. *)
Definition cells (rows : list (list Value)) (j : nat) : list Value := map (fun row => default Null (row !! j)) rows.

(** A store with columns [names] that holds [rows]. *)
Record stored (s : ColumnarStore) (names : list (list N)) (rows : list (list Value)) : Prop := {
  st_names : map rle_name (columns s) = names;
  st_columns : forall j c, columns s !! j = Some c -> holds c (cells rows j);
  st_rows : row_count s = len rows
}.

Lemma holds_len c vs : holds c vs -> len (rle_values c) = len vs.
Proof. intros [_ Hv _]. unfold len. by rewrite (Forall2_length _ _ _ Hv). Qed.

Lemma len_cells rows j : len (cells rows j) = len rows.
Proof. unfold len, cells. by rewrite length_map. Qed.

Lemma cells_app rows new j : cells (rows ++ new) j = cells rows j ++ cells new j.
Proof. apply map_app. Qed.

Lemma push_row_lookup cols row j : length row = length cols ->
  push_row cols row !! j = c ← cols !! j; v ← row !! j; Some (rle_push c v).
Proof.
  revert row j. induction cols as [|c cols IH]; intros [|v row] j Hl; try done. cbn [push_row]. destruct j as [|j]; [done|]. cbn. apply IH. by injection Hl.
Qed.

Lemma push_row_names cols row : map rle_name (push_row cols row) = map rle_name cols.
Proof. revert row. induction cols as [|c cols IH]; intros [|v row]; try done. cbn. f_equal. apply IH. Qed.

Lemma stored_length s names rows : stored s names rows -> length (columns s) = length names.
Proof. intros [<- _ _]. by rewrite length_map. Qed.

Lemma build_zone_maps_ok {E} s n rows : stored s n rows ->
  exists zss, build_zone_maps (E := E) s = Ok (mkStore (columns s) zss (row_count s)) /\ Forall2 (fun c zs => covered (rle_values c) zs) (columns s) zss.
Proof.
  intros [Hl Hc Hr]. destruct (build_columns_ok (E := E) (columns s) (row_count s)) as (zss & Hz & Hcov).
  { apply Forall_lookup. intros j c Hj. rewrite (holds_len _ _ (Hc j c Hj)), len_cells. done. }
  exists zss. unfold build_zone_maps. by rewrite Hz.
Qed.

Lemma insert_each_ok {E} s n rows new : stored s n rows -> Forall (fun r => length r = length n) new -> len rows + len new < 2 ^ 32 ->
  exists s', insert_each (E := E) s new = Ok s' /\ stored s' n (rows ++ new).
Proof.
  revert s rows. induction new as [|row new IH]; intros s rows Hs Hn Hl; [exists s; by rewrite app_nil_r|]. rewrite len_cons in Hl.
  apply Forall_cons in Hn as [Hrow Hn]. cbn [insert_each]. set (s1 := mkStore (push_row (columns s) row) (zone_maps s) (row_count s + 1)).
  assert (Hs1 : stored s1 n (rows ++ [row])).
  { pose proof (stored_length _ _ _ Hs). destruct Hs as [H1 H2 H3]. split; cbn.
    - by rewrite push_row_names.
    - intros j c. rewrite push_row_lookup by congruence. destruct (columns s !! j) as [d|] eqn:Ej; [|done]. destruct (row !! j) as [v|] eqn:Ev; [|done].
      cbn. intros [= <-]. rewrite cells_app. cbn [cells map]. rewrite Ev. apply holds_push; [by apply H2|]. rewrite len_cells. lia.
    - rewrite H3, len_app. done. }
  assert (Hs2 : exists s2, (if row_count s1 mod ZONE_SIZE =? 0 then build_zone_maps (E := E) s1 else Ok s1) = Ok s2 /\ stored s2 n (rows ++ [row])).
  { destruct (_ =? 0); [|by exists s1]. destruct (build_zone_maps_ok (E := E) _ _ _ Hs1) as (zss & -> & _). eexists. split; [done|].
    destruct Hs1. by split. }
  destruct Hs2 as (s2 & -> & Hs2). rewrite bind_ok. rewrite cons_middle, app_assoc. apply IH; [done..|]. rewrite len_app, len_cons, len_nil. lia.
Qed.

Lemma insert_rows_ok {E} s names rows new : stored s names rows \/ s = Columnar.new /\ rows = [] -> names <> [] ->
  Forall (fun r => length r = length names) new -> len rows + len new < 2 ^ 32 ->
  exists s', insert_rows (E := E) s names new = Ok s' /\ stored s' names (rows ++ new).
Proof.
  intros Hs Hn Hr Hl. unfold insert_rows. apply insert_each_ok; [|done..]. destruct Hs as [Hs|[-> ->]].
  - pose proof (stored_length _ _ _ Hs). destruct (columns s); [by destruct names|done].
  - split; cbn; [rewrite map_map; apply map_id| |done]. intros j c Hj. rewrite list_lookup_fmap in Hj. apply fmap_Some in Hj as (nm & _ & ->). apply holds_new.
Qed.

Lemma lookup_rows_below n i : (i < N.to_nat n)%nat -> rows_below n !! i = Some (N.of_nat i).
Proof. intros Hi. unfold rows_below. rewrite list_lookup_fmap, lookup_seq_lt by done. done. Qed.

Lemma scan_stored s n rows : stored s n rows -> n <> [] -> Forall (fun r => length r = length n) rows -> Forall2 (Forall2 same) (scan s) rows.
Proof.
  intros Hs Hn Hrows. pose proof (stored_length _ _ _ Hs) as Hl. destruct Hs as [Hns Hc Hr]. unfold scan. destruct (columns s) as [|c0 cs] eqn:Ec; [by destruct n|]. rewrite <- Ec in *. clear Ec c0 cs.
  destruct (N.eqb_spec (row_count s) 0) as [H0|H0]. { assert (rows = []) as -> by (apply length_zero_iff_nil; unfold len in *; lia). constructor. }
  apply Forall2_same_length_lookup. split. { unfold rows_below. rewrite !length_map, length_seq, Hr. unfold len. lia. }
  intros i r1 row Hi Hrow. rewrite list_lookup_fmap in Hi. pose proof (lookup_lt_Some _ _ _ Hrow). rewrite lookup_rows_below in Hi by (rewrite Hr; unfold len; lia).
  injection Hi as <-. pose proof (proj1 (Forall_lookup _ _) Hrows _ _ Hrow) as Hlen. cbn in Hlen.
  apply Forall2_same_length_lookup. split; [rewrite length_map; congruence|]. intros j v1 v Hj Hv. rewrite list_lookup_fmap in Hj.
  apply fmap_Some in Hj as (c & Hj & ->). pose proof (holds_get c _ (N.of_nat i) (Hc j c Hj)) as Hg. rewrite Nat2N.id in Hg. unfold cells in Hg.
  rewrite list_lookup_fmap, Hrow in Hg. cbn in Hg. rewrite Hv in Hg. by inversion Hg.
Qed.

(** Inserts of several batches. *)
Fixpoint insert_batches {E} (s : ColumnarStore) (names : list (list N)) (batches : list (list (list Value))) : outcome E ColumnarStore :=
  match batches with
  | [] => Ok s
  | rows :: batches => s ← insert_rows s names rows; insert_batches s names batches
  end.

Lemma insert_batches_ok {E} s names rows batches : stored s names rows \/ s = Columnar.new /\ rows = [] -> names <> [] ->
  Forall (Forall (fun r => length r = length names)) batches -> len rows + len (concat batches) < 2 ^ 32 ->
  (batches = [] -> stored s names rows) ->
  exists s', insert_batches (E := E) s names batches = Ok s' /\ stored s' names (rows ++ concat batches).
Proof.
  revert s rows. induction batches as [|b batches IH]; intros s rows Hs Hn Hb Hl H0; cbn [insert_batches concat] in *.
  { exists s. rewrite app_nil_r. auto. }
  rewrite len_app in Hl. apply Forall_cons in Hb as [Hb Hbs]. destruct (insert_rows_ok (E := E) s names rows b) as (s1 & -> & Hs1); [done..|lia|].
  rewrite bind_ok, app_assoc. apply IH; auto. rewrite len_app. lia.
Qed.

(** ** The file *)

(** A column as pushes make it: no run is empty. *)
Record column_ok (c : RleColumn) : Prop := {
  co_name : text_ok (rle_name c);
  co_runs : runs_ok (runs c);
  co_count : rle_row_count c = len (rle_values c);
  co_small : len (rle_values c) < 2 ^ 32
}.

Lemma read_bytes_ok d pos c rest : at_pos d pos (c ++ rest) ->
  read_bytes d pos (len c) = Ok (c, pos + len c) /\ at_pos d (pos + len c) rest.
Proof.
  intros Hat. destruct (at_chunk _ _ _ _ Hat) as (Hr & Hl & Hat'). split; [|done]. unfold read_bytes. by rewrite (proj2 (N.ltb_ge _ _)), Hr by lia.
Qed.

Lemma read_uint_ok d pos n v rest : v < 256 ^ N.of_nat n -> at_pos d pos (le_bytes n v ++ rest) ->
  read_uint d pos (N.of_nat n) = Ok (v, pos + N.of_nat n) /\ at_pos d (pos + N.of_nat n) rest.
Proof.
  intros Hv Hat. destruct (read_bytes_ok _ _ _ _ Hat) as [Hr Hat']. rewrite len_le_bytes in *. split; [|done]. unfold read_uint. rewrite Hr, bind_ok.
  by rewrite le_value_le_bytes_small.
Qed.

Lemma read_byte_ok d pos b rest : b < 256 -> at_pos d pos (b :: rest) -> read_uint d pos 1 = Ok (b, pos + 1) /\ at_pos d (pos + 1) rest.
Proof. intros Hb Hat. apply (read_uint_ok d pos 1); [done|]. cbn. by rewrite N.mod_small. Qed.

Lemma read_str_ok d pos t what rest : text_ok t -> at_pos d pos (le_bytes 4 (u32 (len t)) ++ t ++ rest) ->
  read_str d pos what = Ok (t, pos + 4 + len t) /\ at_pos d (pos + 4 + len t) rest.
Proof.
  intros [Hu Hl] Hat. unfold u32, wrap in Hat. rewrite N.mod_small in Hat by done. apply (read_uint_ok d pos 4) in Hat as [Hr Hat]; [|done].
  destruct (read_bytes_ok _ _ _ _ Hat) as [Hr2 Hat2]. split; [|done]. unfold read_str. change (N.of_nat 4) with 4 in *. rewrite Hr, bind_ok, Hr2, bind_ok, Hu. done.
Qed.

Lemma read_value_ok d pos v rest : value_ok v -> at_pos d pos (value_bytes v ++ rest) ->
  exists pos', read_value d pos = Ok (v, pos') /\ at_pos d pos' rest.
Proof.
  intros Hv Hat. unfold read_value. destruct v as [|n|f|t|b]; cbn [value_bytes app] in Hat; apply read_byte_ok in Hat as [-> Hat]; try done; rewrite bind_ok; cbn [N.eqb Pos.eqb].
  - eauto.
  - apply (read_uint_ok d (pos + 1) 8) in Hat as [Hr Hat]; [|apply of_signed_lt]. change (N.of_nat 8) with 8 in *. rewrite Hr, bind_ok, to_of_signed by done. eauto.
  - apply (read_uint_ok d (pos + 1) 8) in Hat as [Hr Hat]; [|by apply f64_to_bits_lt]. change (N.of_nat 8) with 8 in *. rewrite Hr, bind_ok, f64_of_to_bits by done. eauto.
  - rewrite <- app_assoc in Hat. apply (read_str_ok d (pos + 1) t (text "text")) in Hat as [-> Hat]; [|done]. rewrite bind_ok. eauto.
  - apply read_byte_ok in Hat as [-> Hat]; [|by destruct b]. rewrite bind_ok. destruct b; eauto.
Qed.

Lemma read_runs_ok rs d pos rest : Forall (fun r => value_ok r.1 /\ r.2 < 2 ^ 32) rs -> at_pos d pos (concat (map run_bytes rs) ++ rest) ->
  exists pos', read_runs (length rs) d pos = Ok (rs, pos') /\ at_pos d pos' rest.
Proof.
  intros Hrs. revert pos. induction Hrs as [|[v c] rs [Hv Hc] Hrs IH]; intros pos Hat; cbn [length read_runs map concat] in *; [eauto|].
  unfold run_bytes in Hat at 1. rewrite <- !app_assoc in Hat. cbn [fst snd] in *. apply read_value_ok in Hat as (p1 & -> & Hat); [|done].
  apply (read_uint_ok d p1 4) in Hat as [Hr Hat]; [|done]. change (N.of_nat 4) with 4 in *. rewrite !bind_ok, Hr, bind_ok.
  destruct (IH _ Hat) as (p2 & -> & Hat2). rewrite bind_ok. eauto.
Qed.

Lemma sum_counts rs a : foldl (fun a (r : Value * N) => a + r.2) a rs = a + len (run_values rs).
Proof.
  revert a. induction rs as [|[v c] rs IH]; intros a; cbn [foldl]; [change (len (run_values [])) with 0; lia|]. rewrite IH, run_values_cons, len_app, len_replicate. cbn [snd]. lia.
Qed.

Lemma runs_small rs : runs_ok rs -> len (run_values rs) < 2 ^ 32 ->
  Forall (fun r => value_ok r.1 /\ r.2 < 2 ^ 32) rs /\ len rs <= len (run_values rs).
Proof.
  induction 1 as [|[v c] rs [Hv Hc] Hrs IH]; intros Hl; [done|]. rewrite run_values_cons, len_app, len_replicate, len_cons in *. cbn in Hc.
  destruct IH as [IH1 IH2]; [lia|]. split; [|lia]. constructor; [|done]. split; [done|]. cbn. lia.
Qed.

Lemma read_column_ok c d pos rest : column_ok c -> at_pos d pos (column_bytes c ++ rest) ->
  exists pos', read_column d pos = Ok (c, pos') /\ at_pos d pos' rest.
Proof.
  intros [Hn Hr Hc Hs] Hat. destruct (runs_small (runs c)) as [Hr' Hl]; [done..|]. change (run_values (runs c)) with (rle_values c) in *.
  unfold column_bytes in Hat. rewrite <- !app_assoc in Hat. unfold read_column.
  apply (read_str_ok d pos (rle_name c) (text "column name")) in Hat as [-> Hat]; [|done]. rewrite bind_ok. unfold u32, wrap in Hat. rewrite N.mod_small in Hat by lia.
  apply (read_uint_ok d _ 4) in Hat as [Hr2 Hat]; [|change (256 ^ N.of_nat 4) with (2 ^ 32); lia]. change (N.of_nat 4) with 4 in *. rewrite Hr2, bind_ok.
  apply read_runs_ok in Hat as (p & Hp & Hat); [|done]. unfold len at 1. rewrite Nat2N.id, Hp, bind_ok, sum_counts. exists p. split; [|done].
  change (run_values (runs c)) with (rle_values c). rewrite N.add_0_l, <- Hc. by destruct c.
Qed.

Lemma read_columns_ok cs d pos rest : Forall column_ok cs -> at_pos d pos (concat (map column_bytes cs) ++ rest) ->
  exists pos', read_columns (length cs) d pos = Ok (cs, pos') /\ at_pos d pos' rest.
Proof.
  intros Hcs. revert pos. induction Hcs as [|c cs Hc Hcs IH]; intros pos Hat; cbn [length read_columns map concat] in *; [eauto|].
  rewrite <- app_assoc in Hat. apply read_column_ok in Hat as (p & -> & Hat); [|done]. rewrite bind_ok. destruct (IH _ Hat) as (p2 & -> & Hat2). rewrite bind_ok. eauto.
Qed.

Lemma from_to_bytes s : Forall column_ok (columns s) -> len (columns s) < 2 ^ 32 -> row_count s < 2 ^ 64 ->
  from_bytes (to_bytes s) = Ok (mkStore (columns s) (map (fun _ => []) (columns s)) (row_count s)).
Proof.
  intros Hc Hl Hr. set (d := to_bytes s). pose proof (at_start d) as Hat. unfold d in Hat at 2. unfold to_bytes in Hat. unfold from_bytes.
  apply read_bytes_ok in Hat as [Hm Hat]. change (len MAGIC) with 4 in *. rewrite Hm, bind_ok. rewrite bool_decide_eq_true_2 by done. cbn [negb].
  cbn [app] in Hat. apply read_byte_ok in Hat as [-> Hat]; [|done]. rewrite bind_ok. cbn [N.eqb Pos.eqb negb].
  unfold u32, wrap in Hat. rewrite N.mod_small in Hat by done. apply (read_uint_ok d _ 4) in Hat as [H4 Hat]; [|done]. change (N.of_nat 4) with 4 in *.
  rewrite H4, bind_ok. apply (read_uint_ok d _ 8) in Hat as [H8 Hat]; [|done]. change (N.of_nat 8) with 8 in *. rewrite H8, bind_ok.
  rewrite <- (app_nil_r (concat _)) in Hat. apply read_columns_ok in Hat as (p & Hp & _); [|done]. unfold len. rewrite Nat2N.id, Hp, bind_ok.
  do 2 f_equal. clear. induction (columns s); cbn; congruence.
Qed.

(** ** A store *)

(** Batches of full rows for the columns [names], fewer than 2^32 rows in all. *)
Record batches_ok (names : list (list N)) (batches : list (list (list Value))) : Prop := {
  ba_names : names <> [] /\ Forall text_ok names /\ len names < 2 ^ 32;
  ba_some : batches <> [];
  ba_rows : Forall (Forall (fun row => length row = length names /\ Forall value_ok row)) batches;
  ba_small : len (concat batches) < 2 ^ 32
}.

Lemma batches_stored {E} names batches : batches_ok names batches ->
  exists s, insert_batches (E := E) Columnar.new names batches = Ok s /\ stored s names (concat batches) /\ Forall column_ok (columns s).
Proof.
  intros [(Hn & Ht & Hnl) Hs Hr Hl].
  destruct (insert_batches_ok (E := E) Columnar.new names [] batches) as (s & Hi & Hst); [by right|done| |by rewrite len_nil|by destruct batches|].
  { eapply Forall_impl; [exact Hr|]. intros rows Hrows. eapply Forall_impl; [exact Hrows|]. by intros row [H _]. }
  exists s. split_and!; [done..|]. destruct Hst as [Hnames Hc Hrc]. apply Forall_lookup. intros j c Hj. specialize (Hc j c Hj).
  pose proof (holds_len _ _ Hc) as Hlen. rewrite len_cells in Hlen. split.
  - apply (proj1 (Forall_lookup _ _) Ht j). rewrite <- Hnames, list_lookup_fmap, Hj. done.
  - apply (ho_runs _ _ Hc). apply Forall_map, Forall_concat. eapply Forall_impl; [exact Hr|]. intros rows Hrows.
    eapply Forall_impl; [exact Hrows|]. intros row [_ Hv]. cbn. destruct (row !! j) as [v|] eqn:E1; [|done]. by apply (proj1 (Forall_lookup _ _) Hv j).
  - rewrite (ho_count _ _ Hc), len_cells. done.
  - cbn in *. lia.
Qed.

(** C37: A column store gives back its rows, at once and from its file: after inserts of
    one or more batches of full rows (fewer than 2^32 in all) over at least one column,
    [scan] returns the rows in order (up to the sign of a zero that follows the other
    zero), and [from_bytes] of [to_bytes] has the same columns, with no zone maps.
    Names and texts are UTF-8 of fewer than 2^32 bytes, integers and floats are those
    of 64 bits. *)
Theorem columnar_store_keeps_rows names batches : batches_ok names batches ->
  exists s, insert_batches (E := ReadError) Columnar.new names batches = Ok s /\
    Forall2 (Forall2 same) (scan s) (concat batches) /\
    from_bytes (to_bytes s) = Ok (mkStore (columns s) (map (fun _ => []) (columns s)) (row_count s)).
Proof.
  intros Hb. destruct (batches_stored (E := ReadError) names batches Hb) as (s & Hi & Hst & Hok). destruct Hb as [(Hn & Ht & Hnl) Hs Hr Hl].
  exists s. split_and!; [done| |].
  - eapply scan_stored; [done..|]. apply Forall_concat. eapply Forall_impl; [exact Hr|]. intros rows Hrows. eapply Forall_impl; [exact Hrows|]. by intros row [H _].
  - apply from_to_bytes; [done| |].
    + pose proof (stored_length _ _ _ Hst). unfold len in *. lia.
    + rewrite (st_rows _ _ _ Hst). lia.
Qed.

Lemma columnar_store_keeps_rows_witness : exists s,
  insert_batches (E := ReadError) Columnar.new [text "id"; text "name"] [[[Int64 1; Text (text "a")]]; [[Int64 1; Null]; [Int64 (-2); Bool true]]] = Ok s /\
    Forall2 (Forall2 same) (scan s) [[Int64 1; Text (text "a")]; [Int64 1; Null]; [Int64 (-2); Bool true]] /\
    from_bytes (to_bytes s) = Ok (mkStore (columns s) (map (fun _ => []) (columns s)) (row_count s)).
Proof.
  apply (columnar_store_keeps_rows [text "id"; text "name"] [[[Int64 1; Text (text "a")]]; [[Int64 1; Null]; [Int64 (-2); Bool true]]]).
  split; [|done| |done].
  - split_and!; [done| |done]. repeat (apply Forall_cons; split; [by split|]). by apply Forall_nil.
  - repeat (apply Forall_cons; split); try apply Forall_nil; try done; repeat (apply Forall_cons; split); try apply Forall_nil; try done;
      (split; [done|]); repeat (apply Forall_cons; split); try apply Forall_nil; try done.
Defined.

Lemma pruned_zone (values : list Value) zones bound (is_gt : bool) v : covered values zones ->
  forallb (fun zm => if is_gt then can_prune_gt zm bound else can_prune_lt zm bound) zones = true ->
  v ∈ values -> v <> Null -> partial_cmp v bound <> Some (if is_gt then Gt else Lt).
Proof.
  intros Hc Hp Hv Hn. destruct (Hc v Hv) as (zm & vals & Hzm & Hin & Hmin & Hmax). rewrite forallb_forall in Hp.
  specialize (Hp zm (proj1 (list_elem_of_In _ _) Hzm)). cbn in Hp. destruct is_gt.
  - unfold can_prune_gt in Hp. rewrite Hmax in Hp. destruct (partial_cmp _ _) as [o|] eqn:Ec; [|done]. case_bool_decide as Ho; [done|].
    exact (pruned_sound Gt vals v bound o ltac:(done) Hin Hn Ec Ho).
  - unfold can_prune_lt in Hp. rewrite Hmin in Hp. destruct (partial_cmp _ _) as [o|] eqn:Ec; [|done]. case_bool_decide as Ho; [done|].
    exact (pruned_sound Lt vals v bound o ltac:(done) Hin Hn Ec Ho).
Qed.

(** C30: Zone maps prune no matching row: once they are built for all rows, [can_prune]
    answers true for [col > bound] (or [col < bound]) only if no value of the column
    but NULL compares so with the bound, whatever types, NaNs and NULLs the column
    mixes; building them never panics. *)
Theorem pruning_drops_no_row names batches : batches_ok names batches ->
  exists s s', insert_batches (E := ReadError) Columnar.new names batches = Ok s /\ build_zone_maps (E := ReadError) s = Ok s' /\
    forall col bound (is_gt : bool) v, can_prune s' col bound is_gt = true -> v ∈ scan_column s' col -> v <> Null ->
      partial_cmp v bound <> Some (if is_gt then Gt else Lt).
Proof.
  intros Hb. destruct (batches_stored (E := ReadError) names batches Hb) as (s & Hi & Hst & _).
  destruct (build_zone_maps_ok (E := ReadError) _ _ _ Hst) as (zss & Hz & Hcov). eexists s, _. split_and!; [done..|].
  intros col bound is_gt v. unfold can_prune, scan_column. cbn [zone_maps columns]. destruct (zss !! N.to_nat col) as [zones|] eqn:Ez; [|done].
  destruct zones as [|z zs]; [done|]. destruct (columns s !! N.to_nat col) as [c|] eqn:Ec; [|by intros _ ?%not_elem_of_nil].
  pose proof (Forall2_lookup_lr _ _ _ _ _ _ Hcov Ec Ez) as Hc. intros Hp Hv Hn. exact (pruned_zone _ _ bound is_gt v Hc Hp Hv Hn).
Qed.

Lemma pruning_drops_no_row_witness : exists s s',
  insert_batches (E := ReadError) Columnar.new [text "id"] [[[Int64 1]; [Null]]; [[Int64 7]]] = Ok s /\ build_zone_maps (E := ReadError) s = Ok s' /\
    forall col bound (is_gt : bool) v, can_prune s' col bound is_gt = true -> v ∈ scan_column s' col -> v <> Null ->
      partial_cmp v bound <> Some (if is_gt then Gt else Lt).
Proof.
  apply (pruning_drops_no_row [text "id"] [[[Int64 1]; [Null]]; [[Int64 7]]]). split; [|done| |done].
  - split_and!; [done| |done]. repeat (apply Forall_cons; split; [by split|]). by apply Forall_nil.
  - repeat (apply Forall_cons; split); try apply Forall_nil; try done; repeat (apply Forall_cons; split); try apply Forall_nil; try done;
      (split; [done|]); repeat (apply Forall_cons; split); try apply Forall_nil; try done.
Defined.

(** Between rebuilds the zone maps are stale: a row inserted after the last multiple
    of 1000 rows is in no zone, and [can_prune] drops it although it matches. *)
Theorem stale_zones_drop_rows : exists s,
  insert_rows (E := ReadError) Columnar.new [text "n"] (replicate 1000 [Int64 0] ++ [[Int64 5]]) = Ok s /\
  can_prune s 0 (Int64 1) true = true /\ last (scan_column s 0) = Some (Int64 5) /\ partial_cmp (Int64 5) (Int64 1) = Some Gt.
Proof. eexists. split_and!; [by vm_compute|by vm_compute..]. Qed.

(** ** Dictionaries *)

Definition coded (col : DictColumn) (vs : list Value) : Prop :=
  Forall2 (fun code v => exists w, dict col !! N.to_nat code = Some w /\ same w v) (codes col) vs /\ len (dict col) <= len vs.

Lemma dict_position_spec v d i : dict_position v d = Some i -> exists w, d !! N.to_nat i = Some w /\ same w v /\ i < len d.
Proof.
  revert i. induction d as [|w d IH]; intros i; cbn [dict_position]; [done|]. rewrite len_cons. destruct (value_eq w v) eqn:Ev.
  - intros [= <-]. exists w. split_and!; [done|by apply value_eq_same|lia].
  - destruct (dict_position v d) as [k|]; [|done]. intros [= <-]. destruct (IH k eq_refl) as (u & Hu & Hs & Hl). exists u.
    rewrite N2Nat.inj_succ. split_and!; [done..|lia].
Qed.

Lemma dict_append_coded col vs v : coded col vs -> len vs < 2 ^ 32 -> coded (dict_append col v) (vs ++ [v]).
Proof.
  intros [Hc Hl] Hs. unfold coded, dict_append, u32, wrap. rewrite len_app, len_cons, len_nil. destruct (dict_position v (dict col)) as [pos|] eqn:Ep; cbn [dict codes].
  - destruct (dict_position_spec _ _ _ Ep) as (w & Hw & Hsame & Hlt). rewrite N.mod_small by lia. split; [|lia].
    apply Forall2_app; [done|]. constructor; [by exists w|constructor].
  - rewrite N.mod_small, len_app, len_cons, len_nil by lia. split; [|lia]. apply Forall2_app.
    + eapply Forall2_impl; [exact Hc|]. intros code u (w & Hw & Hsame). exists w. split; [|done]. by apply lookup_app_l_Some.
    + constructor; [|constructor]. exists v. split; [|done]. unfold len. by rewrite Nat2N.id, lookup_app_r, Nat.sub_diag by lia.
Qed.

Lemma dict_all_coded col us vs : coded col us -> len us + len vs < 2 ^ 32 -> coded (foldl dict_append col vs) (us ++ vs).
Proof.
  revert col us. induction vs as [|v vs IH]; intros col us Hc Hl; [by rewrite app_nil_r|]. rewrite len_cons in Hl. cbn [foldl].
  rewrite cons_middle, app_assoc. apply IH; [|rewrite len_app, len_cons, len_nil; lia]. apply dict_append_coded; [done|lia].
Qed.

Lemma push_codes_ok {E} cs d vs rle us : Forall2 (fun code v => exists w, d !! N.to_nat code = Some w /\ same w v) cs vs -> holds rle us ->
  len us + len vs < 2 ^ 32 -> exists rle' ws, push_codes (E := E) cs d rle = Ok rle' /\ holds rle' (us ++ ws) /\ Forall2 same ws vs.
Proof.
  intros Hc. revert rle us. induction Hc as [|code v cs vs (w & Hw & Hs) Hc IH]; intros rle us Hh Hl; cbn [push_codes].
  { exists rle, []. by rewrite app_nil_r. }
  rewrite len_cons in Hl. rewrite Hw. cbn [or_panic]. rewrite bind_ok.
  destruct (IH (rle_push rle w) (us ++ [w])) as (rle' & ws & He & Hh' & Hsame); [apply holds_push; [done|lia]|rewrite len_app, len_cons, len_nil; lia|].
  exists rle', (w :: ws). rewrite cons_middle, app_assoc. split_and!; [done..|]. by constructor.
Qed.

(** A dictionary column has the values of the column it was made from: every code
    finds its value, the dictionary is no longer than the column, and decoding it
    into runs gives the values back (up to the sign of zeros). *)
Theorem dict_roundtrip rle : len (rle_values rle) < 2 ^ 32 ->
  (forall i v, rle_values rle !! N.to_nat i = Some v -> exists w, dict_get (E := ReadError) (to_dict_column rle) i = Ok w /\ same w v) /\
  dict_size (to_dict_column rle) <= len (rle_values rle) /\
  exists rle', from_dict_column (E := ReadError) (to_dict_column rle) = Ok rle' /\ Forall2 same (rle_values rle') (rle_values rle).
Proof.
  intros Hl. assert (Hc : coded (to_dict_column rle) (rle_values rle)) by (apply (dict_all_coded _ []); [by split; [constructor|]|done]).
  destruct Hc as [Hc Hs]. split_and!; [|done|].
  - intros i v Hi. destruct (Forall2_lookup_r _ _ _ _ _ Hc Hi) as (code & Hcode & w & Hw & Hsame). exists w. unfold dict_get. rewrite Hcode. cbn. by rewrite Hw.
  - unfold from_dict_column. destruct (push_codes_ok (E := ReadError) _ _ _ _ [] Hc (holds_new (dict_name (to_dict_column rle)))) as (rle' & ws & He & Hh & Hw); [done|].
    exists rle'. split; [done|]. etrans; [exact (ho_values _ _ Hh)|done].
Qed.

Lemma dict_roundtrip_witness : exists rle',
  from_dict_column (E := ReadError) (to_dict_column (mkRle (text "c") [(Int64 4, 3); (Null, 2); (Int64 4, 1)] 6)) = Ok rle' /\
  Forall2 same (rle_values rle') [Int64 4; Int64 4; Int64 4; Null; Null; Int64 4].
Proof. exact (proj2 (proj2 (dict_roundtrip (mkRle (text "c") [(Int64 4, 3); (Null, 2); (Int64 4, 1)] 6) eq_refl))). Defined.

(** ** Differences *)

Definition step (prev v : Z) : Z := i64_wrap (v - prev).

(** The difference of neighbours, modulo 2^64, is a 32-bit integer. *)
Definition step_fits (prev v : Z) : Prop := (- 2 ^ 31 <= step prev v < 2 ^ 31)%Z.

Fixpoint steps_fit (prev : Z) (vs : list Z) : Prop :=
  match vs with
  | [] => True
  | v :: vs => step_fits prev v /\ steps_fit v vs
  end.

Fixpoint differences (prev : Z) (vs : list Z) : list Z :=
  match vs with
  | [] => []
  | v :: vs => as_i32 (step prev v) :: differences v vs
  end.

(** What decoding makes of differences. *)
Fixpoint decode (val : Z) (ds : list Z) : list Z :=
  match ds with
  | [] => []
  | d :: ds => i64_wrap (val + d) :: decode (i64_wrap (val + d)) ds
  end.

Lemma i64_wrap_mod z : exists k, i64_wrap z = (z + k * 2 ^ 64)%Z.
Proof.
  unfold i64_wrap, to_signed, of_signed. change (Z.of_N 64) with 64%Z. pose proof (Z.mod_pos_bound z (2 ^ 64) ltac:(done)).
  pose proof (Z.div_mod z (2 ^ 64) ltac:(done)). rewrite Z2N.id by lia. case_cmp.
  - exists (- (z / 2 ^ 64))%Z. lia.
  - exists (- (z / 2 ^ 64) - 1)%Z. lia.
Qed.

Lemma i64_wrap_id z : i64_ok z -> i64_wrap z = z.
Proof. intros Hz. apply to_of_signed; [done|]. exact Hz. Qed.

Lemma i64_wrap_ok z : i64_ok (i64_wrap z).
Proof.
  unfold i64_ok, i64_wrap, to_signed. pose proof (of_signed_lt 64 z). change (Z.of_N 64) with 64%Z. change (64 - 1) with 63. case_cmp; lia.
Qed.

Lemma as_i32_id z : (- 2 ^ 31 <= z < 2 ^ 31)%Z <-> as_i32 z = z.
Proof.
  split; [intros Hz; by apply to_of_signed|]. intros E. rewrite <- E. unfold as_i32, to_signed. pose proof (of_signed_lt 32 z).
  change (Z.of_N 32) with 32%Z. change (32 - 1) with 31. case_cmp; lia.
Qed.

Lemma as_i32_range z : (- 2 ^ 31 <= as_i32 z < 2 ^ 31)%Z.
Proof.
  unfold as_i32, to_signed. pose proof (of_signed_lt 32 z). change (Z.of_N 32) with 32%Z. change (32 - 1) with 31. case_cmp; lia.
Qed.

(** One difference is decoded to its value exactly if it fits. *)
Lemma decode_step prev v : i64_ok prev -> i64_ok v -> (i64_wrap (prev + as_i32 (step prev v)) = v <-> step_fits prev v).
Proof.
  intros Hp Hv. unfold step_fits. rewrite as_i32_id. unfold step.
  pose proof (i64_wrap_ok (v - prev)) as Hok. destruct (i64_wrap_mod (v - prev)) as [k Hk]. pose proof (as_i32_range (i64_wrap (v - prev))) as Hr.
  destruct (i64_wrap_mod (prev + as_i32 (i64_wrap (v - prev)))) as [l Hl]. unfold i64_ok in *. split.
  - intros E. rewrite E in Hl. lia.
  - intros E. rewrite E in *. rewrite <- (i64_wrap_id v) at 2 by done. pose proof (i64_wrap_ok (prev + i64_wrap (v - prev))). unfold i64_ok in *.
    rewrite (i64_wrap_id v) by done. lia.
Qed.

Lemma decode_differences prev vs : i64_ok prev -> Forall i64_ok vs -> (decode prev (differences prev vs) = vs <-> steps_fit prev vs).
Proof.
  intros Hp Hvs. revert prev Hp. induction Hvs as [|v vs Hv Hvs IH]; intros prev Hp; cbn [differences decode steps_fit]; [done|].
  rewrite <- (decode_step prev v) by done. split.
  - intros [= E1 E2]. split; [done|]. rewrite E1 in E2. by apply IH.
  - intros [E1 E2]. rewrite E1. f_equal. by apply IH.
Qed.

Lemma delta_append_all col vs : delta_row_count col <> 0 -> foldl delta_append col vs =
  mkDelta (delta_name col) (first_value col) (deltas col ++ differences (last_value col) vs) (delta_row_count col + len vs) (default (last_value col) (last vs)).
Proof.
  revert col. induction vs as [|v vs IH]; intros col H0.
  { cbn. rewrite app_nil_r, len_nil, N.add_0_r. by destruct col. }
  cbn [foldl]. rewrite IH; unfold delta_append; rewrite (proj2 (N.eqb_neq _ _) H0);
    cbn [delta_name first_value deltas delta_row_count last_value differences]; [|lia].
  rewrite <- app_assoc, len_cons, last_cons. f_equal; [lia|]. by destruct (last vs).
Qed.

Lemma decode_lookup ds val i : (i < length ds)%nat ->
  decode val ds !! i = Some (foldl (fun val d => i64_wrap (val + d)) val (take (S i) ds)).
Proof. revert val i. induction ds as [|d ds IH]; intros val [|i] Hi; cbn in *; try lia; [done|]. apply IH. lia. Qed.

Lemma length_decode val ds : length (decode val ds) = length ds.
Proof. revert val. induction ds; intros; cbn; auto. Qed.

Lemma length_differences prev vs : length (differences prev vs) = length vs.
Proof. revert prev. induction vs; intros; cbn; auto. Qed.

Lemma delta_get_decoded nm v vs i : (i <= length vs)%nat ->
  Some (delta_get (foldl delta_append (delta_append (delta_new nm) v) vs) (N.of_nat i)) = (v :: decode v (differences v vs)) !! i.
Proof.
  intros Hi. rewrite delta_append_all by done. unfold delta_get. cbn [delta_row_count delta_append delta_new first_value deltas last_value N.eqb app].
  rewrite (proj2 (N.eqb_neq (0 + 1 + len vs) 0)), orb_false_r by lia. destruct i as [|i]; [done|]. rewrite (proj2 (N.eqb_neq _ 0)) by lia.
  cbn [lookup list_lookup]. rewrite decode_lookup by (rewrite length_differences; lia). do 3 f_equal. unfold len. rewrite length_differences. lia.
Qed.

Lemma delta_all_int vs col : delta_all (map Int64 vs) col = Some (foldl delta_append col vs).
Proof. revert col. induction vs as [|v vs IH]; intros col; cbn; [done|]. apply IH. Qed.

Lemma map_int_inj us vs : map Int64 us = map Int64 vs -> us = vs.
Proof. revert vs. induction us as [|u us IH]; intros [|v vs] [=]; [done|]. subst. f_equal. auto. Qed.

Lemma same_ints us vs : Forall2 same us (map Int64 vs) -> us = map Int64 vs.
Proof.
  intros H. remember (map Int64 vs) as ws eqn:Ew. revert vs Ew. induction H as [|u w us ws Hs H IH]; intros [|v vs] [=]; subst; [done|].
  destruct Hs as [->|(? & ? & ? & ?)]; [|done]. f_equal. by eapply IH.
Qed.

(** The values of a delta column are those it decodes. *)
Lemma delta_values nm v vs : len (v :: vs) < 2 ^ 32 ->
  rle_values (to_rle_column (foldl delta_append (delta_new nm) (v :: vs))) = map Int64 (v :: decode v (differences v vs)).
Proof.
  intros Hl. set (col := foldl delta_append (delta_new nm) (v :: vs)).
  assert (Hc : delta_row_count col = len (v :: vs)). { unfold col. cbn [foldl]. rewrite delta_append_all by done. cbn. rewrite len_cons. lia. }
  assert (Hm : map (fun i => Int64 (delta_get col i)) (rows_below (delta_row_count col)) = map Int64 (v :: decode v (differences v vs))).
  { apply list_eq. intros i. rewrite !list_lookup_fmap. rewrite Hc. destruct (decide (i < length (v :: vs))%nat) as [Hi|Hi].
    - rewrite lookup_rows_below by (unfold len; lia). cbn [fmap option_fmap option_map]. cbn [length] in Hi. unfold col. cbn [foldl].
      rewrite <- (delta_get_decoded nm) by lia. done.
    - cbn [length] in Hi. rewrite !lookup_ge_None_2; [done|cbn; rewrite length_decode, length_differences; lia|].
      unfold rows_below. rewrite length_map, length_seq, len_cons. unfold len. lia. }
  unfold to_rle_column. rewrite Hm. apply same_ints. refine (ho_values _ _ (holds_all _ [] _ (holds_new _) _)).
  rewrite len_nil. unfold len in *. rewrite length_map. cbn [length] in *. rewrite length_decode, length_differences. lia.
Qed.

(** C31: A delta column keeps 64-bit integers exactly as long as every difference of two
    neighbours (modulo 2^64) is a 32-bit integer: then decoding it gives the column
    it was made from, and otherwise it does not. *)
Theorem delta_roundtrip_iff_steps_fit rle v vs : rle_values rle = map Int64 (v :: vs) -> Forall i64_ok (v :: vs) -> len (v :: vs) < 2 ^ 32 ->
  exists col, from_rle_to_delta rle = Some col /\ (rle_values (to_rle_column col) = rle_values rle <-> steps_fit v vs).
Proof.
  intros Hr Hok Hl. unfold from_rle_to_delta. rewrite Hr, delta_all_int. eexists. split; [done|]. rewrite delta_values by done.
  apply Forall_cons in Hok as [Hv Hvs]. rewrite <- (decode_differences v vs) by done. split; [|by intros ->].
  intros E. cbn [map] in E. injection E as E. by apply map_int_inj.
Qed.

Lemma delta_roundtrip_iff_steps_fit_witness : exists col,
  from_rle_to_delta (mkRle (text "t") [(Int64 0, 1); (Int64 (2 ^ 32), 1)] 2) = Some col /\
  (rle_values (to_rle_column col) = [Int64 0; Int64 (2 ^ 32)] <-> steps_fit 0 [2 ^ 32]%Z).
Proof.
  apply (delta_roundtrip_iff_steps_fit (mkRle (text "t") [(Int64 0, 1); (Int64 (2 ^ 32), 1)] 2) 0 [2 ^ 32]%Z); [done| |done].
  repeat (apply Forall_cons; split; [by split|]). by apply Forall_nil.
Defined.

(** The comment at the differences says they are clamped; they are truncated: a step
    of 2^32 is stored as 0. *)
Lemma delta_truncates : delta_get (foldl delta_append (delta_new []) [0; 2 ^ 32]%Z) 1 = 0%Z.
Proof. by vm_compute. Qed.

End ColumnarSpec.
