(* ===== verification/StorageHnsw.v ===== *)
(** * Nearest-neighbour index

    Models [crates/storage/src/hnsw.rs]: the layered graph of vectors, its greedy search
    with a beam, insertion with pruning of the neighbours' lists, and its file format.
    The two binary heaps of a search are any that do what [std::collections::BinaryHeap]
    documents; the logarithm that sets the level multiplier is a parameter, as the
    platform's library computes it.  Distances of vectors of different lengths go over
    the shorter length, as the code zips them. *)

From stdpp Require Import prelude strings.
From Stdlib Require Import SpecFloat.
From S2P Require Import Prelude Bytes ByteOrder Strings Float64 StorageColumnar.

Module Hnsw.

(** ** Heaps *)

(** An entry of either heap: a distance and the index of a node. *)
Record Entry : Type := mkEntry { dist : f64; idx : N }.

Definition is_nan (f : f64) : bool := match f with S754_nan => true | _ => false end.

(** [a.partial_cmp(&b).unwrap_or(Ordering::Equal)] *)
Definition cmp_or_equal (a b : f64) : comparison := default Eq (f64_compare a b).

(** [Ord for HeapEntry] and [Ord for MinEntry]. *)
Definition cmp_far (a b : Entry) : comparison := cmp_or_equal (dist a) (dist b).
Definition cmp_near (a b : Entry) : comparison := cmp_or_equal (dist b) (dist a).

(** [BinaryHeap]: [into_vec] lists the entries in some order, [pop] takes one that no
    other exceeds, as long as the order of the entries is total. *)
Class BinaryHeap (cmp : Entry -> Entry -> comparison) := {
  heap : Type;
  empty_heap : heap;
  push : Entry -> heap -> heap;
  pop : heap -> option (Entry * heap);
  into_vec : heap -> list Entry;
  into_vec_empty : into_vec empty_heap = [];
  into_vec_push : forall x h, into_vec (push x h) ≡ₚ x :: into_vec h;
  pop_none : forall h, pop h = None -> into_vec h = [];
  pop_some : forall h x h', pop h = Some (x, h') -> into_vec h ≡ₚ x :: into_vec h';
  pop_greatest : forall h x h', pop h = Some (x, h') -> Forall (fun y => is_nan (dist y) = false) (into_vec h) ->
    Forall (fun y => cmp x y <> Lt) (into_vec h);
}.
Arguments heap cmp {_}.
Arguments empty_heap {cmp _}.

Definition heap_len {cmp} `{BinaryHeap cmp} (h : heap cmp) : N := len (into_vec h).
Definition peek {cmp} `{BinaryHeap cmp} (h : heap cmp) : option Entry := fst <$> pop h.

(** ** The graph *)

Record HnswNode : Type := mkNode { vector : list f64; id : N; connections : list (list N) }.

Record HnswIndex : Type := mkIndex {
  m : N; m0 : N; ef_construction : N; nodes : list HnswNode; entry_point : option N; max_layer : N; level_mult : f64
}.

Definition l2_distance (a b : list f64) : f64 :=
  f64_sqrt (foldl f64_add f64_zero (zip_with (fun x y => let d := f64_sub x y in f64_mul d d) a b)).

Definition f64_lt (a b : f64) : bool := match f64_compare a b with Some Lt => true | _ => false end.

(** The lists of a node at a layer. *)
Definition layer_of (n : HnswNode) (layer : N) : list N := default [] (connections n !! N.to_nat layer).

Section Search.
Context `{SliceSort} {Far : BinaryHeap cmp_far} {Near : BinaryHeap cmp_near}.

(** The state of the search of one layer. *)
Record Beam : Type := mkBeam { visited : list bool; candidates : heap cmp_near; result : heap cmp_far }.

(** [while result.len() > ef { result.pop(); }] *)
Fixpoint trim_heap (fuel : nat) (ef : N) (h : heap cmp_far) : heap cmp_far :=
  match fuel with
  | O => h
  | S fuel => if ef <? heap_len h then match pop h with Some (_, h) => trim_heap fuel ef h | None => h end else h
  end.

Definition keep_entry (ef : N) (e : Entry) (b : Beam) : Beam :=
  let r := push e (result b) in
  mkBeam (visited b) (push e (candidates b)) (trim_heap (N.to_nat (heap_len r)) ef r).

Definition should_add (ef : N) (d : f64) (b : Beam) : bool :=
  (heap_len (result b) <? ef) || match peek (result b) with Some f => f64_lt d (dist f) | None => true end.

(** The neighbours of a candidate. *)
Fixpoint expand {E} (ns : list HnswNode) (query : list f64) (ef : N) (nbs : list N) (b : Beam) : outcome E Beam :=
  match nbs with
  | [] => Ok b
  | nb :: nbs =>
      '(seen : bool) ← or_panic (visited b !! N.to_nat nb);
      if seen then expand ns query ef nbs b
      else
        let b := mkBeam (<[N.to_nat nb := true]> (visited b)) (candidates b) (result b) in
        n ← or_panic (ns !! N.to_nat nb);
        let d := l2_distance query (vector n) in
        expand ns query ef nbs (if should_add ef d b then keep_entry ef (mkEntry d nb) b else b)
  end.

(** The loop over the candidates.  A node enters the heap of candidates at most once, so
    that as many turns as there are nodes are enough, and one to find the heap empty. *)
Fixpoint search_loop {E} (fuel : nat) (ns : list HnswNode) (query : list f64) (ef layer : N) (b : Beam) : outcome E Beam :=
  match fuel with
  | O => Panic
  | S fuel =>
      match pop (candidates b) with
      | None => Ok b
      | Some (cand, cs) =>
          let b := mkBeam (visited b) cs (result b) in
          if (ef <=? heap_len (result b)) && match peek (result b) with Some f => f64_lt (dist f) (dist cand) | None => false end
          then Ok b
          else
            n ← or_panic (ns !! N.to_nat (idx cand));
            b ← expand ns query ef (layer_of n layer) b;
            search_loop fuel ns query ef layer b
      end
  end.

Definition entry_cmp {E} (a b : f64 * N) : outcome E comparison := Ok (cmp_or_equal a.1 b.1).

Definition search_layer {E} (ns : list HnswNode) (query : list f64) (ep ef layer : N) : outcome E (list (f64 * N)) :=
  n ← or_panic (ns !! N.to_nat ep);
  let e := mkEntry (l2_distance query (vector n)) ep in
  let b := mkBeam (<[N.to_nat ep := true]> (replicate (length ns) false)) (push e empty_heap) (push e empty_heap) in
  b ← search_loop (S (length ns)) ns query ef layer b;
  slice_sort entry_cmp (map (fun e => (dist e, idx e)) (into_vec (result b))).

(** The layers [hi], ..., [lo]. *)
Definition layers_down (lo hi : N) : list N := map (fun i => lo + N.of_nat i) (rev (seq 0 (N.to_nat (hi + 1 - lo)))).

(** The descent through [layers], with the width of the beam at each. *)
Fixpoint descend {E} (ns : list HnswNode) (query : list f64) (width : N -> N) (layers : list N) (ep : N) : outcome E N :=
  match layers with
  | [] => Ok ep
  | layer :: layers =>
      r ← search_layer ns query ep (width layer) layer;
      descend ns query width layers (match r with (_, nearest) :: _ => nearest | [] => ep end)
  end.

Definition search {E} (h : HnswIndex) (query : list f64) (k ef : N) : outcome E (list (N * f64)) :=
  match nodes h with
  | [] => Ok []
  | _ =>
      ep ← or_panic (entry_point h);
      ep ← descend (nodes h) query (fun layer => if 1 <? layer then 1 else ef) (layers_down 1 (max_layer h)) ep;
      cs ← search_layer (nodes h) query ep (N.max ef k) 0;
      mapM (fun c : f64 * N => n ← or_panic (nodes h !! N.to_nat c.2); Ok (id n, c.1)) (take (N.to_nat k) cs)
  end.

(** ** Insertion *)

Definition select_neighbors_heuristic (cs : list (f64 * N)) (m : N) : list N := map snd (take (N.to_nat m) cs).

(** The linear congruential step, and the level a new node is given. *)
Definition lcg (x : N) : N := wadd 64 (wrap 64 (x * 6364136223846793005)) 1442695040888963407.

Fixpoint level_loop (fuel : nat) (mult : f64) (level x : N) : N :=
  match fuel with
  | O => level
  | S fuel =>
      let x := lcg x in
      let r := f64_div (f64_of_Z (Z.of_N (N.shiftr x 33))) (f64_of_Z (2 ^ 32 - 1)) in
      if f64_lt mult r then level else level_loop fuel mult (level + 1) x
  end.

Definition random_level (h : HnswIndex) : N := level_loop 16 (level_mult h) 0 (lcg (wadd 64 (len (nodes h)) 1)).

(** The lists of a node with room for [layer]. *)
Definition with_layer (layer : N) (conns : list (list N)) : list (list N) := conns ++ replicate (N.to_nat (layer + 1) - length conns) [].

Definition add_once (x : N) (l : list N) : list N := if bool_decide (x ∈ l) then l else l ++ [x].

Definition update_layer (layer : N) (f : list N -> list N) (n : HnswNode) : HnswNode :=
  mkNode (vector n) (id n) (alter f (N.to_nat layer) (connections n)).

(** The list of neighbour [nb] after a new edge to [node]: cut to the nearest [m_max],
    the new edge kept. *)
Definition prune {E} (ns : list HnswNode) (nb_vec : list f64) (m_max node : N) (conns : list N) : outcome E (list N) :=
  if m_max <? len conns then
    cs ← mapM (fun i => n ← or_panic (ns !! N.to_nat i); Ok (l2_distance (vector n) nb_vec, i)) conns;
    cs ← slice_sort entry_cmp cs;
    if existsb (fun c => c.2 =? node) (take (N.to_nat m_max) cs) then Ok (map snd (take (N.to_nat m_max) cs))
    else Ok (map snd (take (N.to_nat (wsub 64 m_max 1)) cs) ++ [node])
  else Ok conns.

Definition connect {E} (node layer m_max : N) (ns : list HnswNode) (nb : N) : outcome E (list HnswNode) :=
  n ← or_panic (ns !! N.to_nat nb);
  let ns := <[N.to_nat nb := mkNode (vector n) (id n) (with_layer layer (connections n))]> ns in
  let ns := alter (update_layer layer (add_once nb)) (N.to_nat node) ns in
  let ns := alter (update_layer layer (add_once node)) (N.to_nat nb) ns in
  n ← or_panic (ns !! N.to_nat nb);
  pruned ← prune ns (vector n) m_max node (layer_of n layer);
  Ok (alter (update_layer layer (fun _ => pruned)) (N.to_nat nb) ns).

Fixpoint connect_all {E} (node layer m_max : N) (nbs : list N) (ns : list HnswNode) : outcome E (list HnswNode) :=
  match nbs with
  | [] => Ok ns
  | nb :: nbs => ns ← connect node layer m_max ns nb; connect_all node layer m_max nbs ns
  end.

Definition m_max_at (h : HnswIndex) (layer : N) : N := if layer =? 0 then m0 h else m h.

Fixpoint insert_layers {E} (h : HnswIndex) (vec : list f64) (node : N) (layers : list N) (ep : N) (ns : list HnswNode)
    : outcome E (list HnswNode) :=
  match layers with
  | [] => Ok ns
  | layer :: layers =>
      cs ← search_layer ns vec ep (ef_construction h) layer;
      let ep := match cs with (_, nearest) :: _ => nearest | [] => ep end in
      let ns := alter (fun n => mkNode (vector n) (id n) (with_layer layer (connections n))) (N.to_nat node) ns in
      ns ← connect_all node layer (m_max_at h layer) (select_neighbors_heuristic cs (m_max_at h layer)) ns;
      insert_layers h vec node layers ep ns
  end.

Definition insert {E} (h : HnswIndex) (ident : N) (vec : list f64) : outcome E HnswIndex :=
  let node_level := random_level h in
  let node := len (nodes h) in
  let ns := nodes h ++ [mkNode vec ident (replicate (N.to_nat (node_level + 1)) [])] in
  match entry_point h with
  | None => Ok (mkIndex (m h) (m0 h) (ef_construction h) ns (Some node) node_level (level_mult h))
  | Some ep =>
      let top := max_layer h in
      ep ← descend ns vec (fun _ => 1) (layers_down (node_level + 1) top) ep;
      ns ← insert_layers h vec node (layers_down 0 (N.min node_level top)) ep ns;
      Ok (if top <? node_level then mkIndex (m h) (m0 h) (ef_construction h) ns (Some node) node_level (level_mult h)
          else mkIndex (m h) (m0 h) (ef_construction h) ns (entry_point h) top (level_mult h))
  end.

End Search.

(** ** Creation and the file format *)

Section Creation.
Import Columnar.
(** [f64::ln] *)
Variable ln : f64 -> f64.

Definition level_mult_of (m : N) : f64 := if 1 <? m then f64_div (f64_of_Z 1) (ln (f64_of_Z (Z.of_N m))) else f64_of_Z 1.

Definition new (m ef_construction : N) : HnswIndex := mkIndex m (m * 2) ef_construction [] None 0 (level_mult_of m).

Definition MAGIC : list N := [72; 78; 83; 87].

Definition layer_bytes (l : list N) : list N := le_bytes 4 (u32 (len l)) ++ concat (map (fun nb => le_bytes 4 (u32 nb)) l).

Definition node_bytes (n : HnswNode) : list N :=
  le_bytes 8 (id n) ++ le_bytes 4 (u32 (len (vector n))) ++ concat (map (fun f => le_bytes 8 (f64_to_bits f)) (vector n)) ++
  le_bytes 4 (u32 (len (connections n))) ++ concat (map layer_bytes (connections n)).

Definition to_bytes (h : HnswIndex) : list N :=
  MAGIC ++ [1] ++ le_bytes 4 (u32 (m h)) ++ le_bytes 4 (u32 (m0 h)) ++ le_bytes 4 (u32 (ef_construction h)) ++ le_bytes 4 (u32 (max_layer h)) ++
  le_bytes 8 (match entry_point h with None => of_signed 64 (-1) | Some i => i end) ++ le_bytes 4 (u32 (len (nodes h))) ++
  concat (map node_bytes (nodes h)).

(** [n] items, each read by [item]; the readers are the macros [columnar.rs] has too. *)
Fixpoint read_many {A} (item : N -> read_result (A * N)) (n : nat) (pos : N) : read_result (list A * N) :=
  match n with
  | O => Ok ([], pos)
  | S n => '(x, pos) ← item pos; '(xs, pos) ← read_many item n pos; Ok (x :: xs, pos)
  end.

Definition read_f64 (data : list N) (pos : N) : read_result (f64 * N) := '(v, pos) ← read_uint data pos 8; Ok (f64_of_bits v, pos).

Definition read_layer (data : list N) (pos : N) : read_result (list N * N) :=
  '(nc, pos) ← read_uint data pos 4; read_many (fun pos => read_uint data pos 4) (N.to_nat nc) pos.

Definition read_node (data : list N) (pos : N) : read_result (HnswNode * N) :=
  '(ident, pos) ← read_uint data pos 8;
  '(dim, pos) ← read_uint data pos 4;
  '(vec, pos) ← read_many (read_f64 data) (N.to_nat dim) pos;
  '(layer_count, pos) ← read_uint data pos 4;
  '(conns, pos) ← read_many (read_layer data) (N.to_nat layer_count) pos;
  Ok (mkNode vec ident conns, pos).

Definition from_bytes (data : list N) : read_result HnswIndex :=
  '(magic, pos) ← read_bytes data 0 4;
  if negb (bool_decide (magic = MAGIC)) then Err BadMagic
  else
    '(version, pos) ← read_uint data pos 1;
    if negb (version =? 1) then Err (UnsupportedVersion version)
    else
      '(m, pos) ← read_uint data pos 4;
      '(m0, pos) ← read_uint data pos 4;
      '(ef, pos) ← read_uint data pos 4;
      '(top, pos) ← read_uint data pos 4;
      '(ep, pos) ← read_uint data pos 8;
      '(node_count, pos) ← read_uint data pos 4;
      '(ns, _) ← read_many (read_node data) (N.to_nat node_count) pos;
      Ok (mkIndex m m0 ef ns (if (to_signed 64 ep <? 0)%Z then None else Some ep) top (level_mult_of m)).

End Creation.

End Hnsw.
