(* ===== verification/StorageHnswSpec.v ===== *)
(** * What a nearest-neighbour search finds

    The search of a layer visits nodes of the graph only, ends, and returns distinct
    nodes with their distances, the nearest first; the first is a local minimum, and a
    beam as wide as the graph finds every node that can be reached. *)

From stdpp Require Import prelude strings relations.
From Stdlib Require Import SpecFloat.
From S2P Require Import Prelude Bytes ByteOrder Strings Float64 StorageColumnar StorageColumnarSpec StorageHnsw.

Module HnswSpec.
Import Hnsw.

(** ** The order of distances *)

Definition place (f : f64) : list Z := default [] (ColumnarSpec.f64_rank f).

Definition nearer_eq (a b : f64) : Prop := ColumnarSpec.lex (place a) (place b) <> Gt.

#[global] Instance nearer_eq_preorder : PreOrder nearer_eq.
Proof.
  split.
  - intros a. unfold nearer_eq. by rewrite ColumnarSpec.lex_refl.
  - intros a b c. apply ColumnarSpec.lex_le_trans.
Qed.

Lemma nearer_eq_total a b : nearer_eq a b \/ nearer_eq b a.
Proof. unfold nearer_eq. rewrite (ColumnarSpec.lex_opp (place a) (place b)). destruct (ColumnarSpec.lex (place a) (place b)); auto. Qed.

Lemma compare_place a b : is_nan a = false -> is_nan b = false -> f64_compare a b = Some (ColumnarSpec.lex (place a) (place b)).
Proof.
  intros Ha Hb. rewrite ColumnarSpec.f64_compare_rank. unfold place.
  assert (Hr : forall f, is_nan f = false -> exists l, ColumnarSpec.f64_rank f = Some l) by (intros [| | |[]] Hf; cbn in *; eauto; done).
  destruct (Hr a Ha) as [x ->], (Hr b Hb) as [y ->]. done.
Qed.

Lemma not_lt_nearer a b : is_nan a = false -> is_nan b = false -> f64_lt a b = false -> nearer_eq b a.
Proof.
  intros Ha Hb. unfold f64_lt, nearer_eq. rewrite compare_place by done. rewrite (ColumnarSpec.lex_opp (place a)).
  by destruct (ColumnarSpec.lex (place a) (place b)).
Qed.

Lemma lt_not_nearer a b : f64_lt a b = true -> is_nan a = false -> is_nan b = false -> ~ nearer_eq b a.
Proof.
  intros Hlt Ha Hb Hn. unfold f64_lt, nearer_eq in *. rewrite compare_place in Hlt by done. rewrite (ColumnarSpec.lex_opp (place a)) in Hn.
  by destruct (ColumnarSpec.lex (place a) (place b)).
Qed.

(** ** Heaps *)

Section Heaps.
Context {Far : BinaryHeap cmp_far} {Near : BinaryHeap cmp_near}.

Definition numeric (es : list Entry) : Prop := Forall (fun e => is_nan (dist e) = false) es.

Lemma pop_farthest (h : heap cmp_far) x h' : pop h = Some (x, h') -> numeric (into_vec h) -> Forall (fun y => nearer_eq (dist y) (dist x)) (into_vec h).
Proof.
  intros Hp Hn. pose proof (pop_greatest h x h' Hp Hn) as Hg. pose proof (pop_some h x h' Hp) as Hs.
  assert (Hx : is_nan (dist x) = false). { apply (proj1 (Forall_forall _ _) Hn). rewrite Hs. left. }
  apply Forall_forall. intros y Hy. pose proof (proj1 (Forall_forall _ _) Hg y Hy) as Hxy. pose proof (proj1 (Forall_forall _ _) Hn y Hy) as Hny. cbv beta in *.
  unfold cmp_far, cmp_or_equal in Hxy. rewrite compare_place in Hxy by done. unfold nearer_eq. rewrite (ColumnarSpec.lex_opp (place (dist x))).
  by destruct (ColumnarSpec.lex (place (dist x)) (place (dist y))).
Qed.

Lemma pop_nearest (h : heap cmp_near) x h' : pop h = Some (x, h') -> numeric (into_vec h) -> Forall (fun y => nearer_eq (dist x) (dist y)) (into_vec h).
Proof.
  intros Hp Hn. pose proof (pop_greatest h x h' Hp Hn) as Hg. pose proof (pop_some h x h' Hp) as Hs.
  assert (Hx : is_nan (dist x) = false). { apply (proj1 (Forall_forall _ _) Hn). rewrite Hs. left. }
  apply Forall_forall. intros y Hy. pose proof (proj1 (Forall_forall _ _) Hg y Hy) as Hxy. pose proof (proj1 (Forall_forall _ _) Hn y Hy) as Hny. cbv beta in *.
  unfold cmp_near, cmp_or_equal in Hxy. rewrite compare_place in Hxy by done. unfold nearer_eq. rewrite (ColumnarSpec.lex_opp (place (dist y))).
  by destruct (ColumnarSpec.lex (place (dist y)) (place (dist x))).
Qed.

(** Trimming drops the farthest entries. *)
Lemma trim_heap_spec fuel ef h : heap_len h <= ef + N.of_nat fuel -> exists dropped,
  into_vec h ≡ₚ into_vec (trim_heap fuel ef h) ++ dropped /\ heap_len (trim_heap fuel ef h) = N.min ef (heap_len h) /\
  (numeric (into_vec h) -> Forall (fun d => Forall (fun e => nearer_eq (dist e) (dist d)) (into_vec (trim_heap fuel ef h))) dropped).
Proof.
  revert h. induction fuel as [|fuel IH]; intros h Hf; cbn [trim_heap].
  { exists []. rewrite app_nil_r. split_and!; [done|lia|constructor]. }
  destruct (N.ltb_spec ef (heap_len h)) as [Hlt|Hge]; cycle 1. { exists []. rewrite app_nil_r. split_and!; [done|lia|constructor]. }
  destruct (pop h) as [[x h']|] eqn:Ep; cycle 1. { apply pop_none in Ep. unfold heap_len in Hlt. rewrite Ep, len_nil in Hlt. lia. }
  pose proof (pop_some _ _ _ Ep) as Hs. assert (Hl : heap_len h = heap_len h' + 1).
  { unfold heap_len, len. rewrite (Permutation_length Hs). cbn. lia. }
  destruct (IH h') as (dropped & Hd & Hlen & Ho); [lia|]. exists (dropped ++ [x]). split_and!.
  - rewrite Hs, Hd. rewrite (app_assoc _ dropped). apply Permutation_cons_append.
  - lia.
  - intros Hn. apply Forall_app. split.
    + apply Ho. unfold numeric in *. rewrite Hs in Hn. by apply Forall_cons in Hn as [_ Hn].
    + constructor; [|constructor]. pose proof (pop_farthest _ _ _ Ep Hn) as Hfar. rewrite Hs, Hd in Hfar. apply Forall_cons in Hfar as [_ Hfar].
      by apply Forall_app in Hfar as [Hfar _].
Qed.

End Heaps.

(** ** The graph *)

Definition edges (ns : list HnswNode) (i layer : N) : list N := match ns !! N.to_nat i with Some n => layer_of n layer | None => [] end.

(** Every edge leads to a node. *)
Definition graph (ns : list HnswNode) : Prop := forall i layer j, j ∈ edges ns i layer -> j < len ns.

Definition distance (ns : list HnswNode) (query : list f64) (i : N) : f64 :=
  match ns !! N.to_nat i with Some n => l2_distance query (vector n) | None => S754_nan end.

Definition reach (ns : list HnswNode) (layer : N) : N -> N -> Prop := rtc (fun i j => j ∈ edges ns i layer).

(** All distances are numbers. *)
Definition numbers (ns : list HnswNode) (query : list f64) : Prop := forall i, i < len ns -> is_nan (distance ns query i) = false.

Section Layer.
Context {Far : BinaryHeap cmp_far} {Near : BinaryHeap cmp_near}.
Variable ns : list HnswNode.
Variable query : list f64.
Variables ef layer ep : N.
Hypothesis Hgraph : graph ns.

Abbreviation D := (distance ns query).

Definition seen (b : Beam) (i : N) : Prop := visited b !! N.to_nat i = Some true.

Definition entry_ok (b : Beam) (e : Entry) : Prop := seen b (idx e) /\ dist e = D (idx e).

(** The state while the neighbours [rest] of node [c] are still to be looked at. *)
Record beam_ok (c : N) (rest : list N) (b : Beam) : Prop := {
  bo_len : length (visited b) = length ns;
  bo_ep : seen b ep;
  bo_reach : forall i, seen b i -> reach ns layer ep i;
  bo_cands : Forall (entry_ok b) (into_vec (candidates b));
  bo_result : Forall (entry_ok b) (into_vec (result b));
  bo_nodup : NoDup (map idx (into_vec (result b)));
  bo_size : heap_len (result b) <= N.max ef 1;
  bo_best : numbers ns query -> 1 <= ef -> exists e, e ∈ into_vec (result b) /\ forall i, seen b i -> nearer_eq (dist e) (D i);
  bo_open : forall e, e ∈ into_vec (result b) ->
    idx e ∈ map idx (into_vec (candidates b)) \/ forall j, j ∈ edges ns (idx e) layer -> seen b j \/ idx e = c /\ j ∈ rest;
  bo_full : len ns <= ef -> forall i, seen b i -> i ∈ map idx (into_vec (result b))
}.

Lemma seen_lt c rest b i : beam_ok c rest b -> seen b i -> i < len ns.
Proof. intros Hb Hs. apply lookup_lt_Some in Hs. rewrite (bo_len _ _ _ Hb) in Hs. unfold len. lia. Qed.

Lemma result_numeric c rest b : beam_ok c rest b -> numbers ns query -> numeric (into_vec (result b)).
Proof.
  intros Hb Hn. eapply Forall_impl; [exact (bo_result _ _ _ Hb)|]. intros e [Hs ->]. apply Hn. by eapply seen_lt.
Qed.

Lemma cands_numeric c rest b : beam_ok c rest b -> numbers ns query -> numeric (into_vec (candidates b)).
Proof.
  intros Hb Hn. eapply Forall_impl; [exact (bo_cands _ _ _ Hb)|]. intros e [Hs ->]. apply Hn. by eapply seen_lt.
Qed.

(** A neighbour that has been seen. *)
Lemma skip_seen c nb rest b : beam_ok c (nb :: rest) b -> seen b nb -> beam_ok c rest b.
Proof.
  intros [] Hs. split; try done. intros e He. destruct (bo_open0 e He) as [?|Ho]; [by left|right]. intros j Hj.
  destruct (Ho j Hj) as [?|[-> [-> |Hin]%elem_of_cons]]; auto.
Qed.

Definition mark (nb : N) (b : Beam) : Beam := mkBeam (<[N.to_nat nb := true]> (visited b)) (candidates b) (result b).

Lemma seen_mark nb b i : nb < N.of_nat (length (visited b)) -> seen (mark nb b) i <-> i = nb \/ seen b i.
Proof.
  intros Hn. unfold seen, mark. cbn. destruct (decide (i = nb)) as [->|Hi].
  - rewrite list_lookup_insert_eq by lia. split; auto.
  - rewrite list_lookup_insert_ne by lia. split; [by right|intros [?|?]; done].
Qed.

(** Few results, while a node has not been seen. *)
Lemma nodup_room (l : list N) nb n : NoDup l -> Forall (fun i => i < n /\ i <> nb) l -> nb < n -> len l < n.
Proof.
  intros Hd Hf Hn. assert (Hsub : nb :: l ⊆+ map N.of_nat (seq 0 (N.to_nat n))).
  { apply NoDup_submseteq.
    - constructor; [|done]. intros Hin. by apply (proj1 (Forall_forall _ _) Hf) in Hin as [_ ?].
    - intros x Hx. apply list_elem_of_fmap. exists (N.to_nat x). split; [lia|]. apply elem_of_seq.
      apply elem_of_cons in Hx as [-> |Hx]; [lia|]. apply (proj1 (Forall_forall _ _) Hf) in Hx as [? _]. lia. }
  apply submseteq_length in Hsub. rewrite length_map, length_seq in Hsub. cbn in Hsub. unfold len. lia.
Qed.

Lemma result_room c rest b nb : beam_ok c rest b -> nb < len ns -> ~ seen b nb -> heap_len (result b) < len ns.
Proof.
  intros Hb Hn Hs. unfold heap_len. replace (len (into_vec (result b))) with (len (map idx (into_vec (result b)))) by (unfold len; by rewrite length_map).
  apply (nodup_room _ nb); [apply Hb| |done]. apply Forall_map. eapply Forall_impl; [exact (bo_result _ _ _ Hb)|].
  intros e [He _]. split; [by eapply seen_lt|]. by intros <-.
Qed.

Lemma entry_mark nb b e : nb < N.of_nat (length (visited b)) -> entry_ok b e -> entry_ok (mark nb b) e.
Proof. intros Hn [Hs Hd]. split; [|done]. apply seen_mark; auto. Qed.

Lemma open_mark c nb rest b e : nb < N.of_nat (length (visited b)) ->
  (forall j, j ∈ edges ns (idx e) layer -> seen b j \/ idx e = c /\ j ∈ nb :: rest) ->
  forall j, j ∈ edges ns (idx e) layer -> seen (mark nb b) j \/ idx e = c /\ j ∈ rest.
Proof.
  intros Hn Ho j Hj. destruct (Ho j Hj) as [Hs|[He [-> |Hin]%elem_of_cons]].
  - left. apply seen_mark; auto.
  - left. apply seen_mark; auto.
  - auto.
Qed.

Lemma mark_dropped c nb rest b : beam_ok c (nb :: rest) b -> nb < len ns -> ~ seen b nb -> reach ns layer ep nb ->
  should_add ef (D nb) (mark nb b) = false -> beam_ok c rest (mark nb b).
Proof.
  intros Hb Hn Hs Hr Hadd. pose proof Hb as [Hl Hep Hre Hca Hres Hnd Hsz Hbest Hop Hfull].
  assert (Hn' : nb < N.of_nat (length (visited b))) by (rewrite Hl; exact Hn).
  unfold should_add in Hadd. apply orb_false_iff in Hadd as [Hfew Hfar]. apply N.ltb_ge in Hfew. cbn [mark result] in *. split; cbn [mark visited candidates result].
  - by rewrite length_insert.
  - apply seen_mark; auto.
  - intros i [-> |Hi]%seen_mark; auto.
  - eapply Forall_impl; [exact Hca|]. intros e. by apply entry_mark.
  - eapply Forall_impl; [exact Hres|]. intros e. by apply entry_mark.
  - done.
  - done.
  - intros Hnum Hef. destruct (Hbest Hnum Hef) as (e & He & Hmin). exists e. split; [done|]. intros i [-> |Hi]%seen_mark; [|auto|done].
    unfold peek in Hfar. destruct (pop (result b)) as [[f h']|] eqn:Ep; [|by apply pop_none in Ep; rewrite Ep in He; apply not_elem_of_nil in He]. cbn in Hfar.
    pose proof (result_numeric _ _ _ Hb Hnum) as Hrn. pose proof (pop_farthest _ _ _ Ep Hrn) as Hff.
    transitivity (dist f); [by apply (proj1 (Forall_forall _ _) Hff)|]. apply not_lt_nearer; [by apply Hnum| |done].
    apply (proj1 (Forall_forall _ _) Hrn). rewrite (pop_some _ _ _ Ep). left.
  - intros e He. destruct (Hop e He) as [?|Ho]; [by left|right]. by apply open_mark.
  - intros Hbig. exfalso. pose proof (result_room _ _ _ nb Hb Hn Hs). lia.
Qed.

Lemma mark_kept c nb rest b : beam_ok c (nb :: rest) b -> nb < len ns -> ~ seen b nb -> reach ns layer ep nb ->
  beam_ok c rest (keep_entry ef (mkEntry (D nb) nb) (mark nb b)).
Proof.
  intros Hb Hn Hs Hr. pose proof Hb as [Hl Hep Hre Hca Hres Hnd Hsz Hbest Hop Hfull].
  assert (Hn' : nb < N.of_nat (length (visited b))) by (rewrite Hl; exact Hn).
  set (e0 := mkEntry (D nb) nb). unfold keep_entry. cbn [mark visited candidates result]. set (h := push e0 (result b)).
  destruct (trim_heap_spec (N.to_nat (heap_len h)) ef h) as (dropped & Hd & Hlen & Hfar); [lia|]. set (r := trim_heap _ ef h) in *.
  assert (Hp : e0 :: into_vec (result b) ≡ₚ into_vec r ++ dropped) by (rewrite <- Hd; symmetry; apply into_vec_push).
  assert (Hin : forall e, e ∈ into_vec r -> e = e0 \/ e ∈ into_vec (result b)).
  { intros e He. apply elem_of_cons. rewrite Hp. apply elem_of_app. by left. }
  assert (Hh : heap_len h = heap_len (result b) + 1).
  { unfold heap_len, len, h. rewrite (Permutation_length (into_vec_push e0 (result b))). cbn. lia. }
  assert (Hnew : Forall (entry_ok (mark nb b)) (e0 :: into_vec (result b))).
  { constructor; [split; [apply seen_mark; auto|done]|]. eapply Forall_impl; [exact Hres|]. intros e. by apply entry_mark. }
  assert (Hidx : NoDup (map idx (e0 :: into_vec (result b)))).
  { cbn. constructor; [|done]. intros (e & Heq & He)%list_elem_of_fmap. apply (proj1 (Forall_forall _ _) Hres) in He as [He _]. cbn in Heq. by rewrite <- Heq in He. }
  split; cbn [visited candidates result].
  - by rewrite length_insert.
  - apply (seen_mark nb b ep); auto.
  - intros i Hi. apply (seen_mark nb b i) in Hi as [-> |Hi]; auto.
  - rewrite into_vec_push. constructor; [split; [apply (seen_mark nb b nb); auto|done]|]. eapply Forall_impl; [exact Hca|]. intros e. by apply (entry_mark nb b e).
  - rewrite Hp in Hnew. by apply Forall_app in Hnew as [Hnew _].
  - rewrite Hp, map_app in Hidx. by apply NoDup_app in Hidx as [Hidx _].
  - lia.
  - intros Hnum Hef. destruct (Hbest Hnum Hef) as (e & He & Hmin).
    assert (Hb1 : exists e1, e1 ∈ e0 :: into_vec (result b) /\ nearer_eq (dist e1) (dist e) /\ nearer_eq (dist e1) (D nb)).
    { destruct (nearer_eq_total (dist e) (D nb)); [exists e|exists e0]; split_and!; (try (by right)); (try by left); done. }
    destruct Hb1 as (e1 & He1 & Hle & Hlnb). assert (Hmin1 : forall i, seen (mark nb b) i -> nearer_eq (dist e1) (D i)).
    { intros i [-> |Hi]%seen_mark; [done| |done]. transitivity (dist e); auto. }
    rewrite Hp in He1. apply elem_of_app in He1 as [He1|He1]; [by exists e1|].
    assert (Hnumh : numeric (into_vec h)).
    { unfold numeric, h. rewrite into_vec_push. constructor; [by apply Hnum|by eapply result_numeric]. }
    assert (Hne : exists e2, e2 ∈ into_vec r).
    { destruct (into_vec r) as [|e2 l] eqn:Er; [|exists e2; left]. unfold heap_len in Hlen at 1. rewrite Er, len_nil in Hlen. lia. }
    destruct Hne as [e2 He2]. exists e2. split; [done|]. intros i Hi. transitivity (dist e1); [|auto].
    pose proof (proj1 (Forall_forall _ _) (Hfar Hnumh) e1 He1) as Hall. by apply (proj1 (Forall_forall _ _) Hall).
  - intros e He. destruct (Hin e He) as [-> |Hold].
    + left. rewrite into_vec_push. cbn. left.
    + destruct (Hop e Hold) as [?|Ho]; [left; rewrite into_vec_push; cbn; by right|right]. by apply (open_mark c nb rest b e Hn' Ho).
  - intros Hbig i Hi. pose proof (result_room _ _ _ nb Hb Hn Hs) as Hroom. assert (dropped = []) as ->.
    { apply length_zero_iff_nil. apply Permutation_length in Hd. rewrite length_app in Hd. unfold heap_len, len in *. lia. }
    rewrite app_nil_r in Hp. rewrite <- Hp. cbn. apply (seen_mark nb b i) in Hi as [-> |Hi]; [left|right; auto|done].
Qed.

(** Entries in the heap of candidates and nodes not seen yet. *)
Definition unseen (v : list bool) : nat := length (List.filter negb v).
Definition pending (b : Beam) : nat := (length (into_vec (candidates b)) + unseen (visited b))%nat.

Lemma unseen_mark v i : v !! i = Some false -> unseen v = S (unseen (<[i := true]> v)).
Proof.
  revert i. induction v as [|x v IH]; intros [|i] Hi; try done; cbn in Hi.
  - by injection Hi as ->.
  - unfold unseen in *. cbn. destruct x; cbn; [by apply IH|f_equal; by apply IH].
Qed.

Lemma expand_ok {E} c nbs b : beam_ok c nbs b -> Forall (fun j => j < len ns /\ reach ns layer ep j) nbs ->
  exists b', expand (E := E) ns query ef nbs b = Ok b' /\ beam_ok c [] b' /\ (pending b' <= pending b)%nat.
Proof.
  revert b. induction nbs as [|nb nbs IH]; intros b Hb Hnb; [by exists b|]. apply Forall_cons in Hnb as [[Hlt Hr] Hnb]. cbn [expand].
  assert (Hl : length (visited b) = length ns) by apply Hb.
  destruct (lookup_lt_is_Some_2 (visited b) (N.to_nat nb)) as [[] Hv]; [unfold len in Hlt; lia| |]; rewrite Hv; cbn [or_panic]; rewrite bind_ok.
  { apply IH; [by eapply skip_seen|done]. }
  assert (Hns : ~ seen b nb) by (unfold seen; congruence).
  destruct (lookup_lt_is_Some_2 ns (N.to_nat nb)) as [n Hn]; [unfold len in Hlt; lia|]. rewrite Hn. cbn [or_panic]. rewrite bind_ok.
  assert (Hd : l2_distance query (vector n) = D nb) by (unfold distance; by rewrite Hn). rewrite Hd. fold (mark nb b).
  assert (Hp : pending b = S (pending (mark nb b))). { unfold pending, mark. cbn [candidates visited]. rewrite (unseen_mark (visited b) _ Hv). lia. }
  destruct (should_add ef (D nb) (mark nb b)) eqn:Ea.
  - destruct (IH (keep_entry ef (mkEntry (D nb) nb) (mark nb b))) as (b' & -> & Hb' & Hle); [by apply mark_kept|done|]. exists b'. split_and!; [done..|].
    unfold pending in *. cbn [keep_entry candidates visited] in Hle. rewrite (Permutation_length (into_vec_push _ _)) in Hle. cbn [length] in Hle. cbn [mark candidates visited] in *. lia.
  - destruct (IH (mark nb b)) as (b' & -> & Hb' & Hle); [by apply mark_dropped|done|]. exists b'. split_and!; [done..|lia].
Qed.

(** The candidate that is taken next. *)
Lemma popped c b cand cs : beam_ok c [] b -> pop (candidates b) = Some (cand, cs) ->
  beam_ok (idx cand) (edges ns (idx cand) layer) (mkBeam (visited b) cs (result b)) /\ seen b (idx cand) /\
  pending b = S (pending (mkBeam (visited b) cs (result b))).
Proof.
  intros Hb Hp. pose proof (pop_some _ _ _ Hp) as Hs. pose proof Hb as [Hl Hep Hre Hca Hres Hnd Hsz Hbest Hop Hfull]. rewrite Hs in Hca. apply Forall_cons in Hca as [[Hcand _] Hca].
  split_and!; [|done|unfold pending; cbn; by rewrite (Permutation_length Hs)]. split; try done. intros e He. cbn [candidates]. destruct (Hop e He) as [Hin|Ho].
  - rewrite Hs in Hin. cbn in Hin. apply elem_of_cons in Hin as [Hin|Hin]; [right|by left]. intros j Hj. right. split; [done|]. by rewrite <- Hin.
  - right. intros j Hj. destruct (Ho j Hj) as [?|[_ ?%not_elem_of_nil]]; [by left|done].
Qed.

(** The end of the search. *)
Record beam_done (b : Beam) : Prop := {
  bd_reach : Forall (fun e => reach ns layer ep (idx e) /\ idx e < len ns /\ dist e = D (idx e)) (into_vec (result b));
  bd_nodup : NoDup (map idx (into_vec (result b)));
  bd_size : heap_len (result b) <= N.max ef 1;
  bd_local : numbers ns query -> 1 <= ef -> exists e, e ∈ into_vec (result b) /\ nearer_eq (dist e) (D ep) /\
    forall e' j, e' ∈ into_vec (result b) -> j ∈ edges ns (idx e') layer -> nearer_eq (dist e) (D j);
  bd_all : len ns <= ef -> forall i, reach ns layer ep i -> i ∈ map idx (into_vec (result b))
}.

Lemma done_from c b : beam_ok c [] b -> (numbers ns query -> forall e j, e ∈ into_vec (result b) -> j ∈ edges ns (idx e) layer -> seen b j) ->
  (len ns <= ef -> forall i, reach ns layer ep i -> seen b i) -> beam_done b.
Proof.
  intros Hb Hclosed Hall. pose proof Hb as [Hl Hep Hre Hca Hres Hnd Hsz Hbest Hop Hfull]. split; try done.
  - eapply Forall_impl; [exact Hres|]. intros e [Hs Hd]. split_and!; [auto|by eapply seen_lt|done].
  - intros Hnum Hef. destruct (Hbest Hnum Hef) as (e & He & Hmin). exists e. split_and!; [done|auto|]. intros e' j He' Hj. apply Hmin. by eapply Hclosed.
  - intros Hbig i Hi. apply Hfull; auto.
Qed.

(** When the nearest candidate is farther than the farthest result, no result is a
    candidate any more. *)
Lemma stopped_closed c b cand cs f h' : beam_ok c [] b -> pop (candidates b) = Some (cand, cs) -> pop (result b) = Some (f, h') ->
  f64_lt (dist f) (dist cand) = true -> numbers ns query -> forall e j, e ∈ into_vec (result b) -> j ∈ edges ns (idx e) layer -> seen b j.
Proof.
  intros Hb Ep Er Hfar Hnum e j He Hj. pose proof (result_numeric _ _ _ Hb Hnum) as Hrn. pose proof (cands_numeric _ _ _ Hb Hnum) as Hcn.
  assert (Hf : is_nan (dist f) = false) by (apply (proj1 (Forall_forall _ _) Hrn); rewrite (pop_some _ _ _ Er); left).
  assert (Hc : is_nan (dist cand) = false) by (apply (proj1 (Forall_forall _ _) Hcn); rewrite (pop_some _ _ _ Ep); left).
  destruct (bo_open _ _ _ Hb e He) as [Hin|Ho]; [exfalso|by destruct (Ho j Hj) as [?|[_ ?%not_elem_of_nil]]].
  apply list_elem_of_fmap in Hin as (e2 & Heq & He2). apply (lt_not_nearer _ _ Hfar Hf Hc). transitivity (dist e2).
  - by apply (proj1 (Forall_forall _ _) (pop_nearest _ _ _ Ep Hcn)).
  - destruct (proj1 (Forall_forall _ _) (bo_cands _ _ _ Hb) e2 He2) as [_ ->]. rewrite <- Heq.
    destruct (proj1 (Forall_forall _ _) (bo_result _ _ _ Hb) e He) as [_ <-]. by apply (proj1 (Forall_forall _ _) (pop_farthest _ _ _ Er Hrn)).
Qed.

Lemma search_loop_ok {E} fuel c b : beam_ok c [] b -> (pending b < fuel)%nat ->
  exists b', search_loop (E := E) fuel ns query ef layer b = Ok b' /\ beam_done b'.
Proof.
  revert c b. induction fuel as [|fuel IH]; intros c b Hb Hf; [lia|]. cbn [search_loop]. destruct (pop (candidates b)) as [[cand cs]|] eqn:Ep; cycle 1.
  { exists b. split; [done|]. apply pop_none in Ep. assert (Hclosed : forall e j, e ∈ into_vec (result b) -> j ∈ edges ns (idx e) layer -> seen b j).
    { intros e j He Hj. destruct (bo_open _ _ _ Hb e He) as [Hin|Ho]; [rewrite Ep in Hin; by apply not_elem_of_nil in Hin|].
      destruct (Ho j Hj) as [?|[_ ?%not_elem_of_nil]]; done. }
    apply (done_from c); [done|auto|]. intros Hbig i Hi. pose proof (bo_ep _ _ _ Hb) as Hep. revert Hep Hi. generalize ep at 1 2. intros i0 Hs Hi. revert Hs. induction Hi as [i|i j k Hij _ IHr]; [done|].
    intros Hs. apply IHr. pose proof (bo_full _ _ _ Hb Hbig i Hs) as (e & -> & He)%list_elem_of_fmap. by eapply Hclosed. }
  destruct (popped _ _ _ _ Hb Ep) as (Hb1 & Hcand & Hpend). set (b1 := mkBeam (visited b) cs (result b)) in *. change (result b1) with (result b).
  destruct (_ && _) eqn:Estop.
  - exists b1. split; [done|]. apply andb_prop in Estop as [Hfull Hfar]. apply N.leb_le in Hfull. unfold peek in Hfar. destruct (pop (result b)) as [[f h']|] eqn:Er; [|done]. cbn in Hfar.
    assert (Hd : beam_done b); [|destruct Hd; by split]. apply (done_from c); [done|by eapply stopped_closed|].
    intros Hbig i Hi. destruct (decide (visited b !! N.to_nat i = Some true)) as [?|Hns]; [done|]. exfalso.
    assert (Hlt : i < len ns) by (apply rtc_inv_r in Hi as [<-|(k & _ & Hk)]; [by eapply seen_lt; [|apply Hb]|by eapply Hgraph]).
    pose proof (result_room _ _ _ i Hb Hlt Hns). lia.
  - pose proof (seen_lt _ _ _ _ Hb Hcand) as Hlt. destruct (lookup_lt_is_Some_2 ns (N.to_nat (idx cand))) as [n Hn]; [unfold len in Hlt; lia|].
    rewrite Hn. cbn [or_panic]. rewrite bind_ok. assert (Hedges : edges ns (idx cand) layer = layer_of n layer) by (unfold edges; by rewrite Hn).
    destruct (expand_ok (E := E) (idx cand) (layer_of n layer) b1) as (b2 & -> & Hb2 & Hle).
    + by rewrite <- Hedges.
    + apply Forall_forall. intros j Hj. rewrite <- Hedges in Hj. split; [by eapply Hgraph|]. eapply rtc_r; [by apply (bo_reach _ _ _ Hb)|done].
    + rewrite bind_ok. apply (IH (idx cand)); [done|lia].
Qed.

End Layer.

(** ** Results of a layer *)

Definition in_order (l : list (f64 * N)) : Prop := StronglySorted (fun a b => nearer_eq a.1 b.1) l.

Definition entry_le (a b : f64 * N) : bool := not_gt (cmp_or_equal a.1 b.1).

Lemma entry_le_nearer (a b : f64 * N) : is_nan a.1 = false -> is_nan b.1 = false -> entry_le a b = true <-> nearer_eq a.1 b.1.
Proof. intros Ha Hb. unfold entry_le, not_gt, cmp_or_equal, nearer_eq. rewrite compare_place by done. cbn. by destruct (ColumnarSpec.lex (place a.1) (place b.1)). Qed.

Lemma sort_insert_order x l : is_nan x.1 = false -> Forall (fun c => is_nan c.1 = false) l -> in_order l -> in_order (sort_insert entry_le x l).
Proof.
  intros Hx Hl Hs. induction Hs as [|y l Hs IH Hy]; cbn [sort_insert]; [by repeat constructor|]. apply Forall_cons in Hl as [Hny Hl].
  destruct (entry_le x y) eqn:Ele.
  - apply entry_le_nearer in Ele; [|done..]. constructor; [by constructor|]. constructor; [done|]. eapply Forall_impl; [exact Hy|]. intros z Hz. by transitivity y.1.
  - constructor; [by apply IH|]. rewrite sort_insert_perm. constructor; [|done].
    destruct (nearer_eq_total x.1 y.1) as [Hxy|?]; [|done]. apply entry_le_nearer in Hxy; [congruence|done..].
Qed.

Lemma sort_by_order l : Forall (fun c => is_nan c.1 = false) l -> in_order (sort_by entry_le l).
Proof.
  induction 1 as [|x l Hx Hl IH]; cbn; [constructor|]. apply sort_insert_order; [done| |done]. fold (sort_by entry_le l). by rewrite sort_by_perm.
Qed.

(** Distances that are numbers are totally ordered, so the sort puts them in order. *)
Lemma slice_sort_entries `{SliceSort} {E} l : Forall (fun c => is_nan c.1 = false) l ->
  slice_sort (E := E) entry_cmp l = Ok (sort_by entry_le l).
Proof.
  intros Hl. rewrite Forall_forall in Hl. apply (slice_sort_total E _ entry_cmp (fun a b => cmp_or_equal a.1 b.1)); [done|]. split.
  - intros a b Ha Hb. unfold cmp_or_equal. rewrite !compare_place by auto. cbn. apply ColumnarSpec.lex_opp.
  - intros a b d Ha Hb Hd Hab Hbd. apply entry_le_nearer in Hab, Hbd; [|auto..]. apply entry_le_nearer; [auto..|]. by transitivity b.1.
Qed.

(** What [search_layer] returns. *)
Record layer_found (ns : list HnswNode) (query : list f64) (ep ef layer : N) (out : list (f64 * N)) : Prop := {
  lf_nodes : Forall (fun c => reach ns layer ep c.2 /\ c.2 < len ns /\ c.1 = distance ns query c.2) out;
  lf_nodup : NoDup (map snd out);
  lf_size : len out <= N.max ef 1;
  lf_order : in_order out;
  lf_local : 1 <= ef -> exists d i rest, out = (d, i) :: rest /\ nearer_eq d (distance ns query ep) /\
    forall c j, c ∈ out -> j ∈ edges ns c.2 layer -> nearer_eq d (distance ns query j);
  lf_all : len ns <= ef -> forall i, reach ns layer ep i -> i ∈ map snd out
}.

Section Search.
Context `{SliceSort} {Far : BinaryHeap cmp_far} {Near : BinaryHeap cmp_near}.

Lemma first_beam ns query ef layer ep n : ns !! N.to_nat ep = Some n ->
  let e := mkEntry (l2_distance query (vector n)) ep in
  let b := mkBeam (<[N.to_nat ep := true]> (replicate (length ns) false)) (push e empty_heap) (push e empty_heap) in
  beam_ok ns query ef layer ep ep [] b /\ (pending b <= length ns)%nat.
Proof.
  intros Hn e b. pose proof (lookup_lt_Some _ _ _ Hn) as Hlt.
  assert (Hc : into_vec (candidates b) = [e]) by (apply Permutation_singleton_r; cbn; by rewrite into_vec_push, into_vec_empty).
  assert (Hr : into_vec (result b) = [e]) by (apply Permutation_singleton_r; cbn; by rewrite into_vec_push, into_vec_empty).
  assert (Hs : forall i, seen b i <-> i = ep).
  { intros i. unfold seen, b. cbn. rewrite list_lookup_insert. case_decide as Hd; [split; [intros _; lia|done]|]. rewrite lookup_replicate. split; [intros [? _]; done|].
    intros ->. exfalso. apply Hd. rewrite length_replicate. done. }
  assert (He : entry_ok ns query b e) by (split; [by apply Hs|cbn; unfold distance; by rewrite Hn]).
  split.
  - split; rewrite ?Hc, ?Hr.
    + cbn. by rewrite length_insert, length_replicate.
    + by apply Hs.
    + intros i ->%Hs. done.
    + by constructor.
    + by constructor.
    + cbn. apply NoDup_singleton.
    + unfold heap_len. rewrite Hr. change (len [e]) with 1. lia.
    + intros _ _. exists e. split; [left|]. intros i ->%Hs. destruct He as [_ ->]. done.
    + intros e' ->%list_elem_of_singleton. left. cbn. left.
    + intros _ i ->%Hs. cbn. left.
  - unfold pending. rewrite Hc. cbn [length]. assert (Hu : (<[N.to_nat ep:=true]> (replicate (length ns) false)) = visited b) by done.
    pose proof (unseen_mark (replicate (length ns) false) (N.to_nat ep)) as Hm. rewrite Hu in Hm.
    assert (Hall : unseen (replicate (length ns) false) = length ns) by (unfold unseen; clear; induction (length ns) as [|k IH]; cbn; [done|by f_equal]).
    rewrite Hall in Hm. specialize (Hm (lookup_replicate_2 _ _ _ Hlt)). lia.
Qed.

Lemma search_layer_ok {E} ns query ep ef layer : graph ns -> ep < len ns -> numbers ns query ->
  exists out, search_layer (E := E) ns query ep ef layer = Ok out /\ layer_found ns query ep ef layer out.
Proof.
  intros Hg Hep Hnum. destruct (lookup_lt_is_Some_2 ns (N.to_nat ep)) as [n Hn]; [unfold len in Hep; lia|]. unfold search_layer. rewrite Hn. cbn [or_panic]. rewrite bind_ok.
  destruct (first_beam ns query ef layer ep n Hn) as [Hb Hp]. set (b := mkBeam _ _ _) in *.
  destruct (search_loop_ok (E := E) ns query ef layer ep Hg (S (length ns)) ep b Hb) as (b' & -> & [Hre Hnd Hsz Hloc Hall]); [lia|]. rewrite bind_ok.
  set (l := map (fun e => (dist e, idx e)) (into_vec (result b'))). pose proof (sort_by_perm entry_le l) as Hperm.
  assert (Hsnd : map snd (sort_by entry_le l) ≡ₚ map idx (into_vec (result b'))) by (rewrite Hperm; unfold l; rewrite map_map; done).
  assert (Hnodes : Forall (fun c => reach ns layer ep c.2 /\ c.2 < len ns /\ c.1 = distance ns query c.2) l) by (by apply Forall_map).
  assert (Hnan : Forall (fun c => is_nan c.1 = false) l) by (eapply Forall_impl; [exact Hnodes|]; intros c (_ & Hlt & ->); by apply Hnum).
  rewrite (slice_sort_entries l Hnan). eexists. split; [done|]. pose proof (sort_by_order l Hnan) as Horder.
  split.
  - by rewrite Hperm.
  - by rewrite Hsnd.
  - unfold len. rewrite (Permutation_length Hperm). unfold l. rewrite length_map. exact Hsz.
  - done.
  - intros Hef. destruct (Hloc Hnum Hef) as (e & He & Hbest & Hclosed).
    assert (Hin : (dist e, idx e) ∈ sort_by entry_le l) by (rewrite Hperm; unfold l; apply list_elem_of_fmap; by exists e).
    destruct (sort_by entry_le l) as [|[d i] rest] eqn:Es; [by apply not_elem_of_nil in Hin|]. exists d, i, rest.
    assert (Hd : nearer_eq d (dist e)).
    { apply elem_of_cons in Hin as [[= -> _]|Hin]; [done|]. apply StronglySorted_inv in Horder as [_ Hall2]. by apply (proj1 (Forall_forall _ _) Hall2) in Hin. }
    split_and!; [done|by transitivity (dist e)|]. intros c j Hc Hj. transitivity (dist e); [done|]. rewrite Hperm in Hc. unfold l in Hc.
    apply list_elem_of_fmap in Hc as (e' & -> & He'). by apply (Hclosed e').
  - intros Hbig i Hi. rewrite Hsnd. auto.
Qed.

Lemma reach_closed ns layer i j (P : N -> Prop) : (forall i j, P i -> j ∈ edges ns i layer -> P j) -> P i -> reach ns layer i j -> P j.
Proof. intros Hp Hi Hr. revert Hi. induction Hr as [i|i k j Hik _ IH]; [done|]. intros Hi. apply IH. by eapply Hp. Qed.

(** A descent stays in the graph and comes no farther from the query. *)
Lemma descend_ok {E} ns query width layers ep : graph ns -> numbers ns query -> ep < len ns ->
  exists ep', descend (E := E) ns query width layers ep = Ok ep' /\ ep' < len ns /\
    (forall P : N -> Prop, (forall i layer j, P i -> j ∈ edges ns i layer -> P j) -> P ep -> P ep') /\
    (Forall (fun layer => 1 <= width layer) layers -> nearer_eq (distance ns query ep') (distance ns query ep)).
Proof.
  intros Hg Hnum. revert ep. induction layers as [|layer layers IH]; intros ep Hep; [by exists ep|]. cbn [descend].
  destruct (search_layer_ok (E := E) ns query ep (width layer) layer Hg Hep Hnum) as (out & -> & Hf). rewrite bind_ok.
  set (ep1 := match out with (_, nearest) :: _ => nearest | [] => ep end).
  assert (H1 : ep1 < len ns).
  { unfold ep1. destruct out as [|[d i] rest]; [done|]. pose proof (lf_nodes _ _ _ _ _ _ Hf) as Hn. apply Forall_cons in Hn as [(_ & Hi & _) _]. done. }
  destruct (IH ep1 H1) as (ep' & -> & Hlt & Hclosed & Hnear). exists ep'. split_and!; [done..| |].
  { intros P Hp Hep1. apply Hclosed; [done|]. unfold ep1. destruct out as [|[d i] rest]; [done|]. pose proof (lf_nodes _ _ _ _ _ _ Hf) as Hn.
    apply Forall_cons in Hn as [(Hr & _) _]. apply (reach_closed ns layer ep i P); [|done..]. intros a b. apply Hp. }
  intros Hw. apply Forall_cons in Hw as [Hw1 Hw]. transitivity (distance ns query ep1); [auto|].
  destruct (lf_local _ _ _ _ _ _ Hf Hw1) as (d & i & rest & Ho & Hd & _). unfold ep1. pose proof (lf_nodes _ _ _ _ _ _ Hf) as Hn. rewrite Ho in *.
  apply Forall_cons in Hn as [(_ & _ & Hdi) _]. cbn in Hdi. by rewrite <- Hdi.
Qed.

End Search.

End HnswSpec.
