(* ===== verification/StorageHnswIndex.v ===== *)
(** * Building the nearest-neighbour index

    Insertion keeps the graph well formed: edges lead to other nodes, no list is longer
    than its layer allows or names a node twice.  So an index built by any insertions
    answers every search, and its file reads back. *)

From stdpp Require Import prelude strings relations sorting.
From Stdlib Require Import SpecFloat.
From S2P Require Import Prelude Bytes ByteOrder Strings Float64 StorageColumnar StorageColumnarSpec StorageHnsw StorageHnswSpec.

Module HnswIndexSpec.
Import Hnsw HnswSpec.

(** ** Lists of neighbours *)

(** Node [k] has a list for [layer]. *)
Definition wide (ns : list HnswNode) (k layer : N) : Prop := exists n, ns !! N.to_nat k = Some n /\ layer < len (connections n).

Definition labels (ns : list HnswNode) : list (list f64 * N) := map (fun n => (vector n, id n)) ns.

Lemma edges_update ns k layer f i layer' : wide ns k layer ->
  edges (alter (update_layer layer f) (N.to_nat k) ns) i layer' = if decide (i = k /\ layer' = layer) then f (edges ns k layer) else edges ns i layer'.
Proof.
  intros (n & Hn & Hl). unfold edges. destruct (decide (i = k)) as [->|Hi].
  - rewrite list_lookup_alter_eq, Hn. cbn. unfold layer_of. cbn. destruct (decide (layer' = layer)) as [->|Hd].
    + rewrite decide_True by done. rewrite list_lookup_alter_eq. destruct (lookup_lt_is_Some_2 (connections n) (N.to_nat layer)) as [c ->]; [unfold len in Hl; lia|]. done.
    + rewrite decide_False by (by intros [_ ?]). rewrite list_lookup_alter_ne by lia. done.
  - rewrite list_lookup_alter_ne by lia. rewrite decide_False by (by intros [? _]). done.
Qed.

Lemma wide_update ns k layer f i layer' : wide ns i layer' -> wide (alter (update_layer layer f) (N.to_nat k) ns) i layer'.
Proof.
  intros (n & Hn & Hl). unfold wide. destruct (decide (i = k)) as [->|Hi].
  - rewrite list_lookup_alter_eq, Hn. eexists. split; [done|]. cbn. unfold len. by rewrite length_alter.
  - rewrite list_lookup_alter_ne by lia. by exists n.
Qed.

Lemma labels_update ns k layer f : labels (alter (update_layer layer f) k ns) = labels ns.
Proof. unfold labels. revert k. induction ns as [|n ns IH]; intros [|k]; cbn; try done. f_equal. apply IH. Qed.

Definition widen (layer : N) (n : HnswNode) : HnswNode := mkNode (vector n) (id n) (with_layer layer (connections n)).

Lemma layer_of_widen layer n layer' : layer_of (widen layer n) layer' = layer_of n layer'.
Proof.
  unfold layer_of, widen, with_layer. cbn. destruct (decide (N.to_nat layer' < length (connections n))%nat) as [Hl|Hl].
  - by rewrite lookup_app_l.
  - rewrite lookup_app_r by lia. rewrite (lookup_ge_None_2 (connections n)) by lia. cbn.
    destruct (replicate _ _ !! _) as [l|] eqn:E; [|done]. apply lookup_replicate in E as [-> _]. done.
Qed.

Lemma edges_widen ns k layer i layer' : edges (alter (widen layer) (N.to_nat k) ns) i layer' = edges ns i layer'.
Proof.
  unfold edges. destruct (decide (i = k)) as [->|Hi].
  - rewrite list_lookup_alter_eq. destruct (ns !! N.to_nat k); [|done]. cbn. apply layer_of_widen.
  - by rewrite list_lookup_alter_ne by lia.
Qed.

Lemma wide_widen ns k layer : k < len ns -> wide (alter (widen layer) (N.to_nat k) ns) k layer.
Proof.
  intros Hk. unfold wide. rewrite list_lookup_alter_eq. destruct (lookup_lt_is_Some_2 ns (N.to_nat k)) as [n ->]; [unfold len in Hk; lia|].
  eexists. split; [done|]. cbn. unfold with_layer, len. rewrite length_app, length_replicate. lia.
Qed.

Lemma wide_widen_other ns k layer i layer' : wide ns i layer' -> wide (alter (widen layer) (N.to_nat k) ns) i layer'.
Proof.
  intros (n & Hn & Hl). unfold wide. destruct (decide (i = k)) as [->|Hi].
  - rewrite list_lookup_alter_eq, Hn. eexists. split; [done|]. cbn. unfold with_layer, len in *. rewrite length_app. lia.
  - rewrite list_lookup_alter_ne by lia. by exists n.
Qed.

Lemma labels_widen ns k layer : labels (alter (widen layer) k ns) = labels ns.
Proof. unfold labels. revert k. induction ns as [|n ns IH]; intros [|k]; cbn; try done. f_equal. apply IH. Qed.

Lemma labels_len ns ns' : labels ns = labels ns' -> len ns = len ns'.
Proof. intros H. apply (f_equal length) in H. unfold labels in H. rewrite !length_map in H. unfold len. by rewrite H. Qed.

Lemma add_once_spec x l : NoDup l -> NoDup (add_once x l) /\ x ∈ add_once x l /\ (forall y, y ∈ add_once x l -> y = x \/ y ∈ l) /\ (x ∉ l -> add_once x l = l ++ [x]).
Proof.
  intros Hd. unfold add_once. case_bool_decide as Hx; [split_and!; auto; done|]. split_and!; [|by apply elem_of_app; right; left| |done].
  - apply NoDup_app. split_and!; [done| |apply NoDup_singleton]. by intros y Hy ->%list_elem_of_singleton.
  - intros y [Hy| ->%list_elem_of_singleton]%elem_of_app; auto.
Qed.

(** Vectors whose distances are numbers. *)
Definition comparable (vs : list (list f64)) : Prop := forall u v, u ∈ vs -> v ∈ vs -> is_nan (l2_distance u v) = false.

Lemma comparable_labels ns ns' : labels ns' = labels ns -> comparable (labels ns).*1 -> comparable (labels ns').*1.
Proof. by intros ->. Qed.

Lemma comparable_nodes ns i n v : comparable (labels ns).*1 -> ns !! N.to_nat i = Some n -> v ∈ (labels ns).*1 -> is_nan (l2_distance (vector n) v) = false.
Proof.
  intros Hc Hn Hv. apply Hc; [|done]. unfold labels. change (map (fun n => (vector n, id n)) ns) with ((fun n => (vector n, id n)) <$> ns).
  rewrite <- list_fmap_compose. apply list_elem_of_fmap. exists n. split; [done|by eapply list_elem_of_lookup_2].
Qed.

Lemma node_vector ns i n : ns !! N.to_nat i = Some n -> vector n ∈ (labels ns).*1.
Proof.
  intros Hn. unfold labels. change (map (fun n => (vector n, id n)) ns) with ((fun n => (vector n, id n)) <$> ns).
  rewrite <- list_fmap_compose. apply list_elem_of_fmap. exists n. split; [done|by eapply list_elem_of_lookup_2].
Qed.

Lemma comparable_numbers ns v : comparable (labels ns).*1 -> v ∈ (labels ns).*1 -> numbers ns v.
Proof.
  intros Hc Hv i Hi. destruct (lookup_lt_is_Some_2 ns (N.to_nat i)) as [n Hn]; [unfold len in Hi; lia|]. unfold distance. rewrite Hn.
  apply Hc; [done|by eapply node_vector].
Qed.

(** ** Pruning *)

Lemma prune_ok `{SliceSort} {E} ns v m_max node conns : comparable (labels ns).*1 -> v ∈ (labels ns).*1 -> Forall (fun i => i < len ns) conns -> NoDup conns -> node ∈ conns -> 1 <= m_max < 2 ^ 64 ->
  exists kept, prune (E := E) ns v m_max node conns = Ok kept /\ NoDup kept /\ node ∈ kept /\ (forall x, x ∈ kept -> x ∈ conns) /\ len kept <= m_max.
Proof.
  intros Hco Hv Hr Hd Hin Hm. unfold prune. destruct (N.ltb_spec m_max (len conns)) as [Hlt|Hge]; [|by exists conns].
  set (pair_of := fun i => (match ns !! N.to_nat i with Some n => l2_distance (vector n) v | None => f64_zero end, i)).
  assert (Hmap : mapM (fun i => n ← or_panic (E := E) (ns !! N.to_nat i); Ok (l2_distance (vector n) v, i)) conns = Ok (map pair_of conns)).
  { clear Hd Hin Hlt. induction Hr as [|i conns Hi Hr IH]; [done|]. cbn. unfold pair_of at 1. destruct (lookup_lt_is_Some_2 ns (N.to_nat i)) as [n Hn]; [unfold len in Hi; lia|].
    rewrite Hn. cbn. by rewrite IH. }
  assert (Hnan : Forall (fun c => is_nan c.1 = false) (map pair_of conns)).
  { apply Forall_map. eapply Forall_impl; [exact Hr|]. intros i Hi. unfold pair_of. cbn. destruct (lookup_lt_is_Some_2 ns (N.to_nat i)) as [n Hn]; [unfold len in Hi; lia|].
    rewrite Hn. by eapply comparable_nodes. }
  rewrite Hmap, bind_ok, slice_sort_entries, bind_ok by done. set (cs := sort_by entry_le (map pair_of conns)). assert (Hp : map snd cs ≡ₚ conns).
  { unfold cs. rewrite sort_by_perm, map_map. cbn. by rewrite map_id. }
  assert (Hcd : NoDup (map snd cs)) by (by rewrite Hp).
  assert (Htake : forall k, NoDup (map snd (take k cs)) /\ forall x, x ∈ map snd (take k cs) -> x ∈ conns).
  { intros k. rewrite <- (take_drop k cs), map_app in Hcd. apply NoDup_app in Hcd as (Ht & _). split; [done|]. intros x Hx. rewrite <- Hp, <- (take_drop k cs), map_app. apply elem_of_app. by left. }
  destruct (existsb _ _) eqn:Ex.
  - eexists. split; [done|]. split_and!; [apply Htake| |apply Htake|unfold len; rewrite length_map, length_take; lia].
    apply existsb_exists in Ex as (c & Hc & Hn%N.eqb_eq). apply list_elem_of_fmap. exists c. split; [done|]. by apply list_elem_of_In.
  - eexists. split; [done|]. assert (Hw : wsub 64 m_max 1 = m_max - 1). { unfold wsub, wrap. replace (m_max + 2 ^ 64 - 1) with (m_max - 1 + 1 * 2 ^ 64) by lia. rewrite N.Div0.mod_add. apply N.mod_small. lia. }
    rewrite Hw. destruct (Htake (N.to_nat (m_max - 1))) as [Hnd Hsub]. split_and!.
    + apply NoDup_app. split_and!; [done| |apply NoDup_singleton]. intros x Hx ->%list_elem_of_singleton. apply list_elem_of_fmap in Hx as (c & Hc & Hx).
      rewrite <- not_true_iff_false in Ex. apply Ex, existsb_exists. exists c. split; [|by apply N.eqb_eq]. apply list_elem_of_In.
      replace (N.to_nat m_max) with (N.to_nat (m_max - 1) + 1)%nat by lia. rewrite <- take_take_drop. apply elem_of_app. by left.
    + apply elem_of_app. right. left.
    + intros x [Hx| ->%list_elem_of_singleton]%elem_of_app; auto.
    + rewrite len_app. unfold len at 1. rewrite length_map, length_take. change (len [node]) with 1. lia.
Qed.

(** ** Connecting *)

Lemma insert_alter {A} (f : A -> A) (l : list A) (i : nat) x : l !! i = Some x -> <[i := f x]> l = alter f i l.
Proof. revert i. induction l as [|y l IH]; intros [|i] Hi; try done; cbn in *; [by injection Hi as ->|f_equal; by apply IH]. Qed.

(** The edges of [ns'] are those of [ns] but for two lists of [layer]. *)
Record connected (node layer m_max nb : N) (ns ns' : list HnswNode) (kept : list N) : Prop := {
  cn_labels : labels ns' = labels ns;
  cn_wide : forall i layer', wide ns i layer' -> wide ns' i layer';
  cn_nb : edges ns' nb layer = kept;
  cn_node : edges ns' node layer = add_once nb (edges ns node layer);
  cn_other : forall i layer', layer' <> layer \/ i <> nb /\ i <> node -> edges ns' i layer' = edges ns i layer';
  cn_nodup : NoDup kept;
  cn_in : node ∈ kept;
  cn_sub : forall x, x ∈ kept -> x = node \/ x ∈ edges ns nb layer;
  cn_len : len kept <= m_max
}.

Lemma connect_ok `{SliceSort} {E} node layer m_max ns nb : comparable (labels ns).*1 -> nb <> node -> nb < len ns -> node < len ns -> graph ns -> NoDup (edges ns nb layer) ->
  wide ns node layer -> 1 <= m_max < 2 ^ 64 ->
  exists ns' kept, connect (E := E) node layer m_max ns nb = Ok ns' /\ connected node layer m_max nb ns ns' kept.
Proof.
  intros Hco Hne Hnb Hnode Hg Hd Hw Hm. unfold connect. destruct (lookup_lt_is_Some_2 ns (N.to_nat nb)) as [n Hn]; [unfold len in Hnb; lia|]. rewrite Hn. cbn [or_panic]. rewrite bind_ok.
  change (mkNode (vector n) (id n) (with_layer layer (connections n))) with (widen layer n). rewrite (insert_alter (widen layer) ns _ n Hn).
  set (ns1 := alter (widen layer) _ ns). set (ns2 := alter (update_layer layer (add_once nb)) _ ns1). set (ns3 := alter (update_layer layer (add_once node)) _ ns2).
  assert (Hw1 : wide ns1 node layer) by (by apply wide_widen_other). assert (Hw1' : wide ns1 nb layer) by (by apply wide_widen).
  assert (Hw2 : wide ns2 nb layer) by (by apply wide_update). assert (Hw3 : wide ns3 nb layer) by (by apply wide_update).
  assert (H2 : forall i l, edges ns2 i l = if decide (i = node /\ l = layer) then add_once nb (edges ns node layer) else edges ns i l).
  { intros i l. unfold ns2. rewrite edges_update by done. unfold ns1. by rewrite !edges_widen. }
  assert (H3 : forall i l, edges ns3 i l = if decide (i = nb /\ l = layer) then add_once node (edges ns nb layer) else edges ns2 i l).
  { intros i l. unfold ns3. rewrite edges_update by done. rewrite (H2 nb layer). rewrite (decide_False (P := nb = node /\ layer = layer)) by (by intros [? _]). done. }
  assert (Hlab : labels ns3 = labels ns) by (unfold ns3, ns2, ns1; by rewrite !labels_update, labels_widen). pose proof (labels_len _ _ Hlab) as Hlen.
  pose proof Hw3 as (n3 & Hn3 & _). rewrite Hn3. cbn [or_panic]. rewrite bind_ok. destruct (add_once_spec node _ Hd) as (Hd' & Hin & Hsub & _).
  assert (He3 : layer_of n3 layer = add_once node (edges ns nb layer)).
  { transitivity (edges ns3 nb layer); [unfold edges; by rewrite Hn3|]. rewrite H3. by rewrite decide_True. }
  rewrite He3. destruct (prune_ok (E := E) ns3 (vector n3) m_max node (add_once node (edges ns nb layer))) as (kept & -> & Hkd & Hkin & Hks & Hkl); [by apply (comparable_labels ns)|by eapply node_vector| |done..|].
  { rewrite Hlen. apply Forall_forall. intros x [-> |Hx]%Hsub; [done|by eapply Hg]. }
  rewrite bind_ok. eexists _, kept. split; [done|].
  assert (H4 : forall i l, edges (alter (update_layer layer (fun _ => kept)) (N.to_nat nb) ns3) i l = if decide (i = nb /\ l = layer) then kept else edges ns3 i l).
  { intros i l. by rewrite edges_update. }
  split; try done.
  - by rewrite labels_update.
  - intros i l Hil. by apply wide_update, wide_update, wide_update, wide_widen_other.
  - rewrite H4. by rewrite decide_True.
  - rewrite H4, H3, H2. rewrite !(decide_False (P := node = nb /\ layer = layer)) by (by intros [? _]). by rewrite decide_True.
  - intros i l Ho. rewrite H4, H3, H2. assert (~ (i = nb /\ l = layer)) by (intros [-> ->]; destruct Ho as [?|[? _]]; done).
    assert (~ (i = node /\ l = layer)) by (intros [-> ->]; destruct Ho as [?|[_ ?]]; done). by rewrite !decide_False by done.
  - intros x Hx. by apply Hsub, Hks.
Qed.

(** ** One layer of an insertion *)

Section Insertion.
Context `{SliceSort} {Far : BinaryHeap cmp_far} {Near : BinaryHeap cmp_near}.
Variable h : HnswIndex.
Hypothesis Hm : 1 <= m h < 2 ^ 64 /\ 1 <= m0 h < 2 ^ 64.

Lemma m_max_range layer : 1 <= m_max_at h layer < 2 ^ 64.
Proof. unfold m_max_at. destruct (layer =? 0); apply Hm. Qed.

(** The graph with the new [node], which is connected at [layer] to [linked] and at the
    layers [below] not yet at all. *)
Record growing (node : N) (layer : N) (linked : list N) (below : list N) (ns : list HnswNode) : Prop := {
  gr_len : len ns = node + 1;
  gr_graph : graph ns;
  gr_degree : forall i l, i <> node \/ l <> layer -> len (edges ns i l) <= m_max_at h l;
  gr_nodup : forall i l, NoDup (edges ns i l);
  gr_self : forall i l, i ∉ edges ns i l;
  gr_linked : edges ns node layer = linked;
  gr_below : forall i l j, l ∈ below -> j ∈ edges ns i l -> i <> node /\ j <> node;
  gr_wide : wide ns node layer
}.

Lemma connect_growing {E} node layer linked below ns nb : comparable (labels ns).*1 -> growing node layer linked below ns -> layer ∉ below -> nb < node -> nb ∉ linked ->
  exists ns', connect (E := E) node layer (m_max_at h layer) ns nb = Ok ns' /\ growing node layer (linked ++ [nb]) below ns' /\ labels ns' = labels ns /\
    (forall i l, wide ns i l -> wide ns' i l).
Proof.
  intros Hco [Hl Hg Hdeg Hnd Hself Hlk Hbel Hw] Hlay Hnb Hnew.
  destruct (connect_ok (E := E) node layer (m_max_at h layer) ns nb) as (ns' & kept & Hc & [Hlab Hwide Hcnb Hcnode Hcother Hkd Hkin Hks Hkl]); [done|lia..|done|done|done|apply m_max_range|].
  assert (Hadd : add_once nb (edges ns node layer) = linked ++ [nb]).
  { destruct (add_once_spec nb (edges ns node layer) (Hnd node layer)) as (_ & _ & _ & Ha). rewrite Ha by (by rewrite Hlk). by rewrite Hlk. }
  assert (Hcase : forall i l, edges ns' i l = kept /\ i = nb /\ l = layer \/ edges ns' i l = linked ++ [nb] /\ i = node /\ l = layer \/ edges ns' i l = edges ns i l /\ (l <> layer \/ i <> nb /\ i <> node)).
  { intros i l. destruct (decide (l = layer)) as [->|Hd]; [|right; right; split; [apply Hcother|]; by left]. destruct (decide (i = nb)) as [->|Hi]; [by left|]. right.
    destruct (decide (i = node)) as [->|Hi2]; [left; by rewrite <- Hadd, <- Hcnode|right]. split; [apply Hcother|]; by right. }
  exists ns'. split_and!; [done| |done|done]. split.
  - by rewrite (labels_len _ _ Hlab).
  - intros i l j Hj. rewrite (labels_len _ _ Hlab). destruct (Hcase i l) as [(He & -> & ->)|[(He & -> & ->)|(He & _)]]; rewrite He in Hj.
    + destruct (Hks j Hj) as [-> |Hold]; [lia|by eapply Hg].
    + apply elem_of_app in Hj as [Hj| ->%list_elem_of_singleton]; [|lia]. apply (Hg node layer). by rewrite Hlk.
    + by eapply Hg.
  - intros i l Hil. destruct (Hcase i l) as [(-> & -> & ->)|[(-> & -> & ->)|(-> & _)]]; [done| |auto]. by destruct Hil.
  - intros i l. destruct (Hcase i l) as [(-> & _)|[(-> & -> & ->)|(-> & _)]]; [done| |done]. apply NoDup_app. split_and!; [rewrite <- Hlk; done| |apply NoDup_singleton].
    by intros x Hx ->%list_elem_of_singleton.
  - intros i l. destruct (Hcase i l) as [(-> & -> & ->)|[(-> & -> & ->)|(-> & _)]]; [| |done].
    + intros [-> |Hin]%Hks; [lia|]. by apply (Hself nb layer).
    + intros [Hin| ->%list_elem_of_singleton]%elem_of_app; [|lia]. apply (Hself node layer). by rewrite Hlk.
  - by rewrite Hcnode.
  - intros i l j Hlb Hj. assert (Hne : l <> layer) by (by intros ->). destruct (Hcase i l) as [(_ & _ & ?)|[(_ & _ & ?)|(He & _)]]; [done..|]. rewrite He in Hj. by eapply Hbel.
  - auto.
Qed.

Lemma connect_all_growing {E} node layer linked below ns nbs : comparable (labels ns).*1 -> growing node layer linked below ns -> layer ∉ below -> Forall (fun nb => nb < node) nbs -> NoDup (linked ++ nbs) ->
  exists ns', connect_all (E := E) node layer (m_max_at h layer) nbs ns = Ok ns' /\ growing node layer (linked ++ nbs) below ns' /\ labels ns' = labels ns /\
    (forall i l, wide ns i l -> wide ns' i l).
Proof.
  revert linked ns. induction nbs as [|nb nbs IH]; intros linked ns Hco Hgr Hlay Hlt Hnd; cbn [connect_all].
  { exists ns. by rewrite app_nil_r. }
  apply Forall_cons in Hlt as [Hnb Hlt]. rewrite cons_middle, app_assoc in Hnd |- *. pose proof Hnd as Hnd'. apply NoDup_app in Hnd' as (Hl & _ & _).
  apply NoDup_app in Hl as (_ & Hnew & _). destruct (connect_growing (E := E) node layer linked below ns nb) as (ns1 & -> & Hgr1 & Hlab1 & Hw1); [done..| |].
  { intros Hin. by apply (Hnew nb Hin), list_elem_of_singleton. }
  rewrite bind_ok. destruct (IH (linked ++ [nb]) ns1) as (ns2 & -> & Hgr2 & Hlab2 & Hw2); [by apply (comparable_labels ns)|done..|]. exists ns2. split_and!; [done..|congruence|auto].
Qed.

(** The graph with the new [node], complete but for the layers [below]. *)
Record grown (node : N) (below : list N) (ns : list HnswNode) : Prop := {
  gn_len : len ns = node + 1;
  gn_graph : graph ns;
  gn_degree : forall i l, len (edges ns i l) <= m_max_at h l;
  gn_nodup : forall i l, NoDup (edges ns i l);
  gn_self : forall i l, i ∉ edges ns i l;
  gn_below : forall i l j, l ∈ below -> j ∈ edges ns i l -> i <> node /\ j <> node
}.

Lemma grown_start node layer below ns : grown node (layer :: below) ns -> layer ∉ below -> growing node layer [] below (alter (widen layer) (N.to_nat node) ns).
Proof.
  intros [Hl Hg Hdeg Hnd Hself Hbel] Hlay. pose proof (labels_len _ _ (labels_widen ns (N.to_nat node) layer)) as Hlen. split.
  - by rewrite Hlen.
  - intros i l j. rewrite edges_widen, Hlen. apply Hg.
  - intros i l _. by rewrite edges_widen.
  - intros i l. by rewrite edges_widen.
  - intros i l. by rewrite edges_widen.
  - rewrite edges_widen. destruct (edges ns node layer) as [|j l] eqn:E; [done|]. exfalso. destruct (Hbel node layer j) as [? _]; [left| |done]. rewrite E. left.
  - intros i l j Hlb. rewrite edges_widen. apply Hbel. by right.
  - apply wide_widen. lia.
Qed.

Lemma growing_done node layer linked below ns : growing node layer linked below ns -> len linked <= m_max_at h layer -> grown node below ns.
Proof.
  intros [Hl Hg Hdeg Hnd Hself Hlk Hbel Hw] Hlen. split; try done. intros i l. destruct (decide (i = node /\ l = layer)) as [[-> ->]|Hd]; [by rewrite Hlk|].
  apply Hdeg. destruct (decide (i = node)) as [->|?]; [right|by left]. intros ->. by apply Hd.
Qed.

Lemma insert_layers_ok {E} vec node layers ep ns : comparable (labels ns).*1 -> vec ∈ (labels ns).*1 -> grown node layers ns -> NoDup layers -> ep < node ->
  exists ns', insert_layers (E := E) h vec node layers ep ns = Ok ns' /\ grown node [] ns' /\ labels ns' = labels ns.
Proof.
  revert ep ns. induction layers as [|layer layers IH]; intros ep ns Hco Hv Hgr Hnd Hep; [by exists ns|]. apply NoDup_cons in Hnd as [Hlay Hnd]. cbn [insert_layers].
  destruct (search_layer_ok (E := E) ns vec ep (ef_construction h) layer (gn_graph _ _ _ Hgr)) as (cs & -> & Hf); [rewrite (gn_len _ _ _ Hgr); lia|by apply comparable_numbers|]. rewrite bind_ok.
  assert (Hcs : Forall (fun c => c.2 < node) cs).
  { eapply Forall_impl; [exact (lf_nodes _ _ _ _ _ _ Hf)|]. intros c (Hr & Hlt & _). rewrite (gn_len _ _ _ Hgr) in Hlt. assert (c.2 <> node); [|lia].
    apply (reach_closed ns layer ep c.2 (fun i => i <> node)); [|lia|done]. intros i j _ Hj. by destruct (gn_below _ _ _ Hgr i layer j); [left|..]. }
  set (ep1 := match cs with (_, nearest) :: _ => nearest | [] => ep end).
  assert (Hep1 : ep1 < node) by (unfold ep1; destruct cs as [|[d i] rest]; [done|by apply Forall_cons in Hcs as [? _]]).
  change (fun n => mkNode (vector n) (id n) (with_layer layer (connections n))) with (widen layer).
  destruct (connect_all_growing (E := E) node layer [] layers (alter (widen layer) (N.to_nat node) ns) (select_neighbors_heuristic cs (m_max_at h layer)))
    as (ns1 & -> & Hgr1 & Hlab1 & _); [by rewrite labels_widen|by apply grown_start|done| | |].
  - unfold select_neighbors_heuristic. apply Forall_map. by apply Forall_take.
  - cbn [app]. unfold select_neighbors_heuristic. pose proof (lf_nodup _ _ _ _ _ _ Hf) as Hd. rewrite <- (take_drop (N.to_nat (m_max_at h layer)) cs), map_app in Hd.
    by apply NoDup_app in Hd as (? & _).
  - rewrite bind_ok. destruct (IH ep1 ns1) as (ns2 & -> & Hgr2 & Hlab2); [by rewrite Hlab1, labels_widen|by rewrite Hlab1, labels_widen| |done..|].
    + eapply growing_done; [exact Hgr1|]. unfold select_neighbors_heuristic, len. cbn [app]. rewrite length_map, length_take. lia.
    + exists ns2. split_and!; [done..|]. by rewrite Hlab2, Hlab1, labels_widen.
Qed.

End Insertion.

(** ** Insertion *)

(** A well-formed index. *)
Record index_ok (h : HnswIndex) : Prop := {
  io_m : 1 <= m h < 2 ^ 64 /\ 1 <= m0 h < 2 ^ 64;
  io_entry : match entry_point h with Some ep => ep < len (nodes h) | None => nodes h = [] end;
  io_graph : graph (nodes h);
  io_degree : forall i l, len (edges (nodes h) i l) <= m_max_at h l;
  io_nodup : forall i l, NoDup (edges (nodes h) i l);
  io_self : forall i l, i ∉ edges (nodes h) i l
}.

Lemma layers_down_nodup lo hi : NoDup (layers_down lo hi).
Proof. unfold layers_down. apply NoDup_fmap_2_strong; [intros x y _ _ Hxy; lia|]. rewrite <- Permutation_rev. apply NoDup_seq. Qed.

Lemma edges_snoc ns n i l : connections n = replicate (length (connections n)) [] -> edges (ns ++ [n]) i l = edges ns i l.
Proof.
  intros Hn. unfold edges. destruct (decide (N.to_nat i < length ns)%nat) as [Hi|Hi]; [by rewrite lookup_app_l|]. rewrite lookup_app_r by lia. rewrite (lookup_ge_None_2 ns) by lia.
  destruct (N.to_nat i - length ns)%nat as [|k]; [|done]. cbn. unfold layer_of. rewrite Hn. destruct (replicate _ _ !! _) as [x|] eqn:E; [|done]. by apply lookup_replicate in E as [-> _].
Qed.

Section Index.
Context `{SliceSort} {Far : BinaryHeap cmp_far} {Near : BinaryHeap cmp_near}.

Lemma hnsw_insert_ok {E} h ident vec : index_ok h -> comparable ((labels (nodes h)).*1 ++ [vec]) -> exists h', insert (E := E) h ident vec = Ok h' /\ index_ok h' /\
  labels (nodes h') = labels (nodes h) ++ [(vec, ident)] /\ m h' = m h /\ m0 h' = m0 h /\ ef_construction h' = ef_construction h /\ level_mult h' = level_mult h.
Proof.
  intros [Hm He Hg Hdeg Hnd Hself] Hco. unfold insert. set (level := random_level h). set (n := mkNode vec ident (replicate (N.to_nat (level + 1)) [])).
  assert (Hs : forall i l, edges (nodes h ++ [n]) i l = edges (nodes h) i l).
  { intros i l. apply edges_snoc. cbn. by rewrite length_replicate. }
  assert (Hlen : len (nodes h ++ [n]) = len (nodes h) + 1) by (rewrite len_app; done).
  assert (Hlb : (labels (nodes h ++ [n])).*1 = (labels (nodes h)).*1 ++ [vec]) by (unfold labels; by rewrite map_app, fmap_app).
  assert (Hco' : comparable (labels (nodes h ++ [n])).*1) by (by rewrite Hlb). assert (Hv : vec ∈ (labels (nodes h ++ [n])).*1) by (rewrite Hlb; set_solver).
  assert (Hgr : forall below, grown h (len (nodes h)) below (nodes h ++ [n])).
  { intros below. split; try (intros i l; rewrite Hs; auto; done); [done| |].
    - intros i l j Hj. rewrite Hs in Hj. apply Hg in Hj. lia.
    - intros i l j _ Hj. rewrite Hs in Hj. pose proof (Hg _ _ _ Hj). split; [|lia]. intros ->. unfold edges in Hj. rewrite lookup_ge_None_2 in Hj by (unfold len; lia).
      by apply not_elem_of_nil in Hj. }
  destruct (entry_point h) as [ep|] eqn:Eep; cycle 1.
  { eexists. split; [done|]. split_and!; try done; cbn [nodes]; [|unfold labels; by rewrite map_app]. destruct (Hgr []) as [? Hg' Hd' Hn' Hs' _].
    split; cbn [nodes m m0 entry_point]; try done. rewrite Hlen. lia. }
  destruct (descend_ok (E := E) (nodes h ++ [n]) vec (fun _ => 1) (layers_down (level + 1) (max_layer h)) ep (gn_graph _ _ _ _ (Hgr [])) (comparable_numbers _ _ Hco' Hv)) as (ep1 & -> & _ & Hclosed & _); [rewrite Hlen; lia|].
  assert (Hep1 : ep1 < len (nodes h)). { apply Hclosed; [|done]. intros i l j _ Hj. rewrite Hs in Hj. by eapply Hg. }
  rewrite bind_ok. destruct (insert_layers_ok (E := E) h Hm vec (len (nodes h)) (layers_down 0 (N.min level (max_layer h))) ep1 (nodes h ++ [n])) as (ns' & -> & Hgr' & Hlab);
    [done|done|done|apply layers_down_nodup|done|].
  rewrite bind_ok. destruct Hgr' as [Hl' Hg' Hd' Hn' Hs' _]. destruct (max_layer h <? level); (eexists; split; [done|]; split_and!; try done; cbn [nodes]; [|rewrite Hlab; unfold labels; by rewrite map_app];
    split; cbn [nodes m m0 entry_point]; try done; rewrite ?Eep; lia).
Qed.

End Index.

(** ** Answers *)

Definition item_ok (items : list (N * list f64)) (query : list f64) (i : N) (r : N * f64) : Prop :=
  exists ident v, items !! N.to_nat i = Some (ident, v) /\ r = (ident, l2_distance query v).

(** The answer [out] to a query for [k] neighbours, found at the indices [found]. *)
Record answer (h : HnswIndex) (items : list (N * list f64)) (query : list f64) (k ef : N) (found : list N) (out : list (N * f64)) : Prop := {
  an_items : Forall2 (item_ok items query) found out;
  an_distinct : NoDup found;
  an_size : len out <= k;
  an_order : StronglySorted (fun a b => nearer_eq a.2 b.2) out;
  an_local : 1 <= k -> items <> [] ->
    exists i ident d, head found = Some i /\ head out = Some (ident, d) /\ forall j, j ∈ edges (nodes h) i 0 -> nearer_eq d (distance (nodes h) query j);
  an_all : len items <= ef -> items <> [] -> exists ep, ep < len items /\ forall i, reach (nodes h) 0 ep i ->
    i ∈ found \/ len out = k /\ Forall (fun r => nearer_eq r.2 (distance (nodes h) query i)) out
}.

Fixpoint insert_all {E} `{SliceSort} `{BinaryHeap cmp_far} `{BinaryHeap cmp_near} (h : HnswIndex) (items : list (N * list f64)) : outcome E HnswIndex :=
  match items with
  | [] => Ok h
  | (ident, v) :: items => h ← insert h ident v; insert_all h items
  end.

Section Answers.
Context `{SliceSort} {Far : BinaryHeap cmp_far} {Near : BinaryHeap cmp_near}.

Lemma insert_all_ok {E} h items : index_ok h -> comparable ((labels (nodes h)).*1 ++ items.*2) -> exists h', insert_all (E := E) h items = Ok h' /\ index_ok h' /\
  labels (nodes h') = labels (nodes h) ++ map (fun it => (it.2, it.1)) items.
Proof.
  revert h. induction items as [|[ident v] items IH]; intros h Hh Hco; [exists h; by rewrite app_nil_r|]. cbn [insert_all]. rewrite fmap_cons in Hco. cbn [snd] in Hco.
  destruct (hnsw_insert_ok (E := E) h ident v Hh) as (h1 & -> & Hh1 & Hl1 & _); [intros a b Ha%elem_of_app Hb%elem_of_app; apply Hco; apply elem_of_app; naive_solver (set_solver)|].
  rewrite bind_ok. destruct (IH h1 Hh1) as (h2 & -> & Hh2 & Hl2); [rewrite Hl1, fmap_app, <- app_assoc; exact Hco|]. exists h2. split_and!; [done..|].
  rewrite Hl2, Hl1, <- app_assoc. done.
Qed.

Lemma labels_lookup ns items i : labels ns = map (fun it => (it.2, it.1)) items -> i < len ns ->
  exists n ident, ns !! N.to_nat i = Some n /\ id n = ident /\ items !! N.to_nat i = Some (ident, vector n).
Proof.
  intros Hl Hi. destruct (lookup_lt_is_Some_2 ns (N.to_nat i)) as [n Hn]; [unfold len in Hi; lia|]. exists n, (id n). split_and!; [done..|].
  apply (f_equal (lookup (N.to_nat i))) in Hl. unfold labels in Hl. rewrite !list_lookup_fmap, Hn in Hl. cbn in Hl. destruct (items !! N.to_nat i) as [[a b]|]; [|done]. cbn in Hl. congruence.
Qed.

Lemma order_transfer (l : list (f64 * N)) (o : list (N * f64)) : in_order l -> map snd o = map fst l -> StronglySorted (fun a b => nearer_eq a.2 b.2) o.
Proof.
  intros Hl. revert o. induction Hl as [|c l Hl IH Hc]; intros [|r o] Ho; try discriminate Ho; [constructor|]. cbn in Ho. injection Ho as Hr Ho. constructor; [auto|].
  apply Forall_forall. intros x Hx. assert (Hx2 : x.2 ∈ map fst l) by (rewrite <- Ho; by apply list_elem_of_fmap_2). apply list_elem_of_fmap in Hx2 as (c' & -> & Hc'). rewrite Hr.
  by apply (proj1 (Forall_forall _ _) Hc).
Qed.

Lemma collect_ok {E} h items query tk : labels (nodes h) = map (fun it => (it.2, it.1)) items ->
  Forall (fun c => c.2 < len (nodes h) /\ c.1 = distance (nodes h) query c.2) tk ->
  exists out, mapM (fun c : f64 * N => n ← or_panic (nodes h !! N.to_nat c.2); Ok (E := E) (id n, c.1)) tk = Ok out /\
    Forall2 (item_ok items query) (map snd tk) out /\ map snd out = map fst tk.
Proof.
  intros Hlab. induction 1 as [|[d i] tk [Hi Hd] Htk IH]; [by exists []|]. cbn in Hi, Hd. destruct IH as (out & He2 & Hf2 & Hs2).
  destruct (labels_lookup _ _ i Hlab Hi) as (n & ident & Hni & Hid & Hit). exists ((ident, d) :: out). cbn [mapM map snd]. rewrite Hni. cbn [or_panic]. rewrite bind_ok, bind_ok, He2, bind_ok, Hid.
  split_and!; [done| |cbn; by f_equal]. constructor; [|done]. exists ident, (vector n). split; [done|]. rewrite Hd. unfold distance. by rewrite Hni.
Qed.

Lemma search_ok {E} h items query k ef : index_ok h -> labels (nodes h) = map (fun it => (it.2, it.1)) items ->
  (forall v, v ∈ items.*2 -> is_nan (l2_distance query v) = false) ->
  exists found out, search (E := E) h query k ef = Ok out /\ answer h items query k ef found out.
Proof.
  intros [Hm He Hg _ _ _] Hlab Hnn. assert (Hlen : len items = len (nodes h)). { apply (f_equal length) in Hlab. unfold labels in Hlab. rewrite !length_map in Hlab. unfold len. by rewrite Hlab. }
  unfold search. destruct (nodes h) as [|n0 ns0] eqn:En.
  { assert (items = []) as -> by (by destruct items). exists [], []. split; [done|]. split; try done; [by apply NoDup_nil|rewrite len_nil; lia|constructor]. }
  rewrite <- En in *. assert (Hne : items <> []) by (intros ->; rewrite En in Hlen; done). clear En. destruct (entry_point h) as [ep|]; [|by rewrite He in Hlen; destruct items]. cbn [or_panic]. rewrite bind_ok.
  assert (Hnum : numbers (nodes h) query).
  { intros i Hi. destruct (labels_lookup _ _ i Hlab Hi) as (n & ident & Hni & _ & Hit). unfold distance. rewrite Hni. apply Hnn.
    apply list_elem_of_fmap. exists (ident, vector n). split; [done|by eapply list_elem_of_lookup_2]. }
  destruct (descend_ok (E := E) (nodes h) query (fun layer => if 1 <? layer then 1 else ef) (layers_down 1 (max_layer h)) ep Hg Hnum He) as (ep1 & -> & Hep1 & _ & _). rewrite bind_ok.
  destruct (search_layer_ok (E := E) (nodes h) query ep1 (N.max ef k) 0 Hg Hep1 Hnum) as (cs & -> & Hf). rewrite bind_ok.
  pose proof Hf as [Hnodes Hnd Hsz Hord Hloc Hall]. set (tk := take (N.to_nat k) cs).
  assert (Htk : Forall (fun c => c.2 < len (nodes h) /\ c.1 = distance (nodes h) query c.2) tk).
  { apply Forall_take. eapply Forall_impl; [exact Hnodes|]. by intros c (_ & ? & ?). }
  destruct (collect_ok (E := E) h items query tk Hlab Htk) as (out & Hmap & Hitems & Hdist). exists (map snd tk), out. split; [exact Hmap|]. assert (Hlo : length out = length tk) by (apply (f_equal length) in Hdist; by rewrite !length_map in Hdist).
  assert (Htko : in_order tk). { unfold tk. rewrite <- (take_drop (N.to_nat k) cs) in Hord. by apply StronglySorted_app_1_l in Hord. }
  split.
  - done.
  - unfold tk. rewrite <- (take_drop (N.to_nat k) cs), map_app in Hnd. by apply NoDup_app in Hnd as (? & _).
  - unfold len. rewrite Hlo. unfold tk. rewrite length_take. lia.
  - eapply order_transfer; [|exact Hdist]. auto.
  - intros Hk _. destruct Hloc as (d & i & rest & Hcs & _ & Hmin); [lia|]. assert (Htk1 : exists rest', tk = (d, i) :: rest').
    { unfold tk. rewrite Hcs. destruct (N.to_nat k) eqn:Ek; [lia|]. by eexists. }
    destruct Htk1 as [rest' Htk1]. rewrite Htk1 in Hdist. destruct out as [|[ident d'] out]; [done|]. cbn in Hdist. injection Hdist as -> _. exists i, ident, d. rewrite Htk1. split_and!; [done..|].
    intros j Hj. apply (Hmin (d, i)); [rewrite Hcs; left|done].
  - intros Hbig _. exists ep1. rewrite Hlen. split; [done|]. intros i Hi. pose proof (Hall ltac:(lia) i Hi) as Hin. rewrite <- (take_drop (N.to_nat k) cs), map_app in Hin. apply elem_of_app in Hin as [Hin|Hin]; [by left|right].
    apply list_elem_of_fmap in Hin as (c & -> & Hc). split.
    + unfold len. rewrite Hlo. unfold tk. rewrite length_take. assert (length (drop (N.to_nat k) cs) <> 0)%nat by (destruct (drop (N.to_nat k) cs); [by apply not_elem_of_nil in Hc|done]).
      rewrite length_drop in *. lia.
    + rewrite <- (take_drop (N.to_nat k) cs) in Hord. assert (Hcd : c.1 = distance (nodes h) query c.2).
      { apply (proj1 (Forall_forall _ _) Hnodes). rewrite <- (take_drop (N.to_nat k) cs). apply elem_of_app. by right. }
      rewrite <- Hcd. apply Forall_forall. intros r Hr. assert (Hr2 : r.2 ∈ map fst tk) by (rewrite <- Hdist; by apply list_elem_of_fmap_2). apply list_elem_of_fmap in Hr2 as (c' & -> & Hc').
      eapply (StronglySorted_app_1_elem_of (fun a b : f64 * N => nearer_eq a.1 b.1)); [exact Hord|done..].
Qed.

End Answers.

(** ** A heap *)

(** The first greatest entry, and the rest. *)
Fixpoint select_greatest (cmp : Entry -> Entry -> comparison) (x : Entry) (l : list Entry) : Entry * list Entry :=
  match l with
  | [] => (x, [])
  | y :: l =>
      match cmp x y with
      | Lt => let '(z, r) := select_greatest cmp y l in (z, x :: r)
      | _ => let '(z, r) := select_greatest cmp x l in (z, y :: r)
      end
  end.

Lemma select_perm cmp x l z r : select_greatest cmp x l = (z, r) -> x :: l ≡ₚ z :: r.
Proof.
  revert x z r. induction l as [|y l IH]; intros x z r; cbn [select_greatest]; [intros [= <- <-]; done|].
  destruct (cmp x y); [| |]; destruct (select_greatest cmp _ l) as [z' r'] eqn:E; intros [= <- <-]; apply IH in E.
  - rewrite (Permutation_swap y x l), E. apply Permutation_swap.
  - rewrite E. apply Permutation_swap.
  - rewrite (Permutation_swap y x l), E. apply Permutation_swap.
Qed.

Lemma select_max (cmp : Entry -> Entry -> comparison) (ge : Entry -> Entry -> Prop) x l z r : PreOrder ge ->
  (forall a b, is_nan (dist a) = false -> is_nan (dist b) = false -> cmp a b <> Lt <-> ge a b) ->
  (forall a b, is_nan (dist a) = false -> is_nan (dist b) = false -> cmp a b = Lt -> ge b a) ->
  numeric (x :: l) -> select_greatest cmp x l = (z, r) -> Forall (ge z) (x :: l).
Proof.
  intros Hpre Hge Hlt. revert x z r. induction l as [|y l IH]; intros x z r Hn; cbn [select_greatest]; [intros [= <- <-]; by repeat constructor|].
  apply Forall_cons in Hn as [Hx Hn]. apply Forall_cons in Hn as [Hy Hn]. destruct (cmp x y) eqn:Ec; destruct (select_greatest cmp _ l) as [z' r'] eqn:E; intros [= <- <-];
    apply IH in E; try (by constructor); apply Forall_cons in E as [Hz Hl].
  - constructor; [done|]. constructor; [|done]. transitivity x; [done|]. apply Hge; [done..|congruence].
  - constructor; [|by constructor]. transitivity y; [done|]. by apply Hlt.
  - constructor; [done|]. constructor; [|done]. transitivity x; [done|]. apply Hge; [done..|congruence].
Qed.

Definition list_pop (cmp : Entry -> Entry -> comparison) (l : list Entry) : option (Entry * list Entry) :=
  match l with [] => None | x :: l => Some (select_greatest cmp x l) end.

Lemma list_pop_perm cmp l x l' : list_pop cmp l = Some (x, l') -> l ≡ₚ x :: l'.
Proof. destruct l as [|y l]; [done|]. cbn. intros [= E]. by eapply select_perm. Qed.

Lemma list_pop_none cmp l : list_pop cmp l = None -> l = [].
Proof. by destruct l. Qed.

Lemma far_greatest l x l' : list_pop cmp_far l = Some (x, l') -> numeric l -> Forall (fun y => cmp_far x y <> Lt) l.
Proof.
  destruct l as [|y l]; [done|]. cbn. intros [= E] Hn.
  assert (Hiff : forall a b : Entry, is_nan (dist a) = false -> is_nan (dist b) = false -> cmp_far a b <> Lt <-> nearer_eq (dist b) (dist a)).
  { intros a b Ha Hb. unfold cmp_far, cmp_or_equal, nearer_eq. rewrite compare_place by done. cbn. rewrite (ColumnarSpec.lex_opp (place (dist a))). by destruct (ColumnarSpec.lex _ _). }
  pose proof (select_max cmp_far (fun a b => nearer_eq (dist b) (dist a)) y l x l') as Hs.
  assert (Hall : Forall (fun b => nearer_eq (dist b) (dist x)) (y :: l)).
  { apply Hs; [split; [intros a; reflexivity|intros a b c H1 H2; by transitivity (dist b)]|done| |done|done]. intros a b Ha Hb Hc.
    destruct (nearer_eq_total (dist a) (dist b)) as [?|Hba]; [done|]. exfalso. by apply (Hiff a b Ha Hb). }
  assert (Hx : is_nan (dist x) = false). { apply (proj1 (Forall_forall _ _) Hn). rewrite (select_perm _ _ _ _ _ E). left. }
  apply Forall_forall. intros b Hb. apply Hiff; [done|by apply (proj1 (Forall_forall _ _) Hn)|by apply (proj1 (Forall_forall _ _) Hall)].
Qed.

Lemma near_greatest l x l' : list_pop cmp_near l = Some (x, l') -> numeric l -> Forall (fun y => cmp_near x y <> Lt) l.
Proof.
  destruct l as [|y l]; [done|]. cbn. intros [= E] Hn.
  assert (Hiff : forall a b : Entry, is_nan (dist a) = false -> is_nan (dist b) = false -> cmp_near a b <> Lt <-> nearer_eq (dist a) (dist b)).
  { intros a b Ha Hb. unfold cmp_near, cmp_or_equal, nearer_eq. rewrite compare_place by done. cbn. rewrite (ColumnarSpec.lex_opp (place (dist b))). by destruct (ColumnarSpec.lex _ _). }
  pose proof (select_max cmp_near (fun a b => nearer_eq (dist a) (dist b)) y l x l') as Hs.
  assert (Hall : Forall (fun b => nearer_eq (dist x) (dist b)) (y :: l)).
  { apply Hs; [split; [intros a; reflexivity|intros a b c H1 H2; by transitivity (dist b)]|done| |done|done]. intros a b Ha Hb Hc.
    destruct (nearer_eq_total (dist a) (dist b)) as [Hab|?]; [|done]. exfalso. by apply (Hiff a b Ha Hb). }
  assert (Hx : is_nan (dist x) = false). { apply (proj1 (Forall_forall _ _) Hn). rewrite (select_perm _ _ _ _ _ E). left. }
  apply Forall_forall. intros b Hb. apply Hiff; [done|by apply (proj1 (Forall_forall _ _) Hn)|by apply (proj1 (Forall_forall _ _) Hall)].
Qed.

#[local] Instance far_list : BinaryHeap cmp_far := {|
  heap := list Entry; empty_heap := []; push := cons; pop := list_pop cmp_far; into_vec := fun l => l;
  into_vec_empty := eq_refl; into_vec_push := fun x h => Permutation_refl (x :: h); pop_none := list_pop_none cmp_far; pop_some := list_pop_perm cmp_far;
  pop_greatest := far_greatest
|}.

#[local] Instance near_list : BinaryHeap cmp_near := {|
  heap := list Entry; empty_heap := []; push := cons; pop := list_pop cmp_near; into_vec := fun l => l;
  into_vec_empty := eq_refl; into_vec_push := fun x h => Permutation_refl (x :: h); pop_none := list_pop_none cmp_near; pop_some := list_pop_perm cmp_near;
  pop_greatest := near_greatest
|}.

(** ** The index *)

Lemma hnsw_new_ok ln m ef : 1 <= m -> m * 2 < 2 ^ 64 -> index_ok (new ln m ef).
Proof.
  intros H1 H2. split; cbn; try done; [lia|intros i l j Hj; unfold edges in Hj; cbn in Hj; by apply not_elem_of_nil in Hj|..].
  - intros i l. unfold edges. rewrite lookup_nil, len_nil. lia.
  - intros i l. unfold edges. rewrite lookup_nil. apply NoDup_nil. done.
  - intros i l. unfold edges. rewrite lookup_nil. apply not_elem_of_nil.
Qed.

(** C25: A nearest-neighbour index over vectors whose distances are numbers answers searches.
    Let the index have between one and 2^63 - 1 connections per layer, and let no distance
    between two inserted vectors, or between the query and one of them, be NaN.  Then
    insertion and search end without a panic; the answer has at most [k] entries, distinct
    items with their true distances, the nearest first; for k of at least one the first is
    a local minimum, no neighbour of it in the bottom layer being nearer; and if the beam
    is as wide as the index is large, no item that can be reached in the bottom layer from
    the point where the descent ended is nearer than an entry and missing.  Throughout,
    edges lead to other nodes and no list is longer than its layer allows ([index_ok]).
    This holds for whatever binary heaps, stable sort and logarithm the program is linked
    with. *)
Theorem hnsw_search_sound `{SliceSort} {Far : BinaryHeap cmp_far} {Near : BinaryHeap cmp_near} ln m ef_construction items :
  1 <= m -> m * 2 < 2 ^ 64 -> comparable items.*2 ->
  exists h, insert_all (E := Columnar.ReadError) (new ln m ef_construction) items = Ok h /\ index_ok h /\
    forall query k ef, (forall v, v ∈ items.*2 -> is_nan (l2_distance query v) = false) ->
      exists found out, search (E := Columnar.ReadError) h query k ef = Ok out /\ answer h items query k ef found out.
Proof.
  intros H1 H2 Hc. destruct (insert_all_ok (E := Columnar.ReadError) (new ln m ef_construction) items (hnsw_new_ok ln m ef_construction H1 H2) Hc) as (h & Hi & Hh & Hl).
  exists h. split_and!; [done..|]. intros query k ef Hq. by apply search_ok.
Qed.

Definition one (_ : f64) : f64 := f64_of_Z 1.
Definition on_line (z : Z) : list f64 := [f64_of_Z z].

#[local] Existing Instance list_slice_sort.

Lemma hnsw_search_sound_witness : exists h,
  insert_all (E := Columnar.ReadError) (new one 2 50) [(7, on_line 8); (9, on_line 10)] = Ok h /\ index_ok h /\
  exists found out, search (E := Columnar.ReadError) h (on_line 3) 1 50 = Ok out /\ answer h [(7, on_line 8); (9, on_line 10)] (on_line 3) 1 50 found out.
Proof.
  assert (Hin : forall v, v ∈ [(7, on_line 8); (9, on_line 10)].*2 -> v = on_line 8 \/ v = on_line 10).
  { intros v. cbn. intros [->|[->|[]%not_elem_of_nil]%elem_of_cons]%elem_of_cons; auto. }
  destruct (hnsw_search_sound one 2 50 [(7, on_line 8); (9, on_line 10)]) as (h & Hi & Hh & Hs); [done|done| |].
  - intros u v [-> | ->]%Hin [-> | ->]%Hin; vm_compute; reflexivity.
  - exists h. split_and!; [done..|]. apply Hs. intros v [-> | ->]%Hin; vm_compute; reflexivity.
Defined.

(** The points 8, 10, 3, 20, 4 and 6 with the ids 0 to 5. *)
Definition points : list (N * list f64) := [(0, on_line 8); (1, on_line 10); (2, on_line 3); (3, on_line 20); (4, on_line 4); (5, on_line 6)].

(** Pruning can cut off an item: with two connections per layer, a search for the vector
    of item 3 itself, with a beam wider than the index, returns item 1 at distance 10. *)
Theorem stored_vector_not_found :
  (h ← insert_all (E := Columnar.ReadError) (new one 2 50) points; search h (on_line 20) 1 50) = Ok [(1, f64_of_Z 10)].
Proof. vm_compute. reflexivity. Qed.

(** ** The file *)

Definition layer_ok (l : list N) : Prop := Forall (fun i => i < 2 ^ 32) l /\ len l < 2 ^ 32.

Record node_ok (n : HnswNode) : Prop := {
  no_id : id n < 2 ^ 64;
  no_vector : Forall (fun f => f64_ok f = true) (vector n) /\ len (vector n) < 2 ^ 32;
  no_layers : Forall layer_ok (connections n) /\ len (connections n) < 2 ^ 32
}.

(** An index whose numbers fit the fields of the file. *)
Record file_ok (ln : f64 -> f64) (h : HnswIndex) : Prop := {
  fi_fields : m h < 2 ^ 32 /\ m0 h < 2 ^ 32 /\ ef_construction h < 2 ^ 32 /\ max_layer h < 2 ^ 32;
  fi_entry : match entry_point h with Some i => i < 2 ^ 63 | None => True end;
  fi_nodes : Forall node_ok (nodes h) /\ len (nodes h) < 2 ^ 32;
  fi_mult : level_mult h = level_mult_of ln (m h)
}.

Lemma read_many_ok {A} (item : N -> Columnar.read_result (A * N)) (bytes : A -> list N) (ok : A -> Prop) d xs pos rest :
  (forall x pos rest, ok x -> at_pos d pos (bytes x ++ rest) -> exists pos', item pos = Ok (x, pos') /\ at_pos d pos' rest) ->
  Forall ok xs -> at_pos d pos (concat (map bytes xs) ++ rest) -> exists pos', read_many item (length xs) pos = Ok (xs, pos') /\ at_pos d pos' rest.
Proof.
  intros Hi Hxs. revert pos. induction Hxs as [|x xs Hx Hxs IH]; intros pos Hat; cbn [length read_many map concat] in *; [eauto|].
  rewrite <- app_assoc in Hat. destruct (Hi x pos _ Hx Hat) as (p1 & -> & Hat1). rewrite bind_ok. destruct (IH p1 Hat1) as (p2 & -> & Hat2). rewrite bind_ok. eauto.
Qed.

(** A 32-bit length and as many items. *)
Lemma read_u32 d pos v rest : v < 2 ^ 32 -> at_pos d pos (le_bytes 4 (u32 v) ++ rest) ->
  Columnar.read_uint d pos 4 = Ok (v, pos + 4) /\ at_pos d (pos + 4) rest.
Proof. intros Hv. unfold u32, wrap. rewrite N.mod_small by done. by apply (ColumnarSpec.read_uint_ok d pos 4). Qed.

Lemma read_u64 d pos v rest : v < 2 ^ 64 -> at_pos d pos (le_bytes 8 v ++ rest) -> Columnar.read_uint d pos 8 = Ok (v, pos + 8) /\ at_pos d (pos + 8) rest.
Proof. by apply (ColumnarSpec.read_uint_ok d pos 8). Qed.

Lemma read_layer_ok d l pos rest : layer_ok l -> at_pos d pos (layer_bytes l ++ rest) -> exists pos', read_layer d pos = Ok (l, pos') /\ at_pos d pos' rest.
Proof.
  intros [Hl Hn] Hat. unfold layer_bytes in Hat. rewrite <- app_assoc in Hat. destruct (read_u32 _ _ _ _ Hn Hat) as [Hr Hat1]. unfold read_layer. rewrite Hr, bind_ok. unfold len. rewrite Nat2N.id.
  apply (read_many_ok _ (fun nb => le_bytes 4 (u32 nb)) (fun i => i < 2 ^ 32) d); [|done..]. intros x p r Hx Hp. destruct (read_u32 _ _ _ _ Hx Hp). eauto.
Qed.

Lemma read_f64_ok d f pos rest : f64_ok f = true -> at_pos d pos (le_bytes 8 (f64_to_bits f) ++ rest) -> exists pos', read_f64 d pos = Ok (f, pos') /\ at_pos d pos' rest.
Proof.
  intros Hf Hat. destruct (read_u64 _ _ _ _ (f64_to_bits_lt f Hf) Hat) as [Hr Hat']. unfold read_f64. rewrite Hr, bind_ok, f64_of_to_bits by done. eauto.
Qed.

Lemma read_node_ok d n pos rest : node_ok n -> at_pos d pos (node_bytes n ++ rest) -> exists pos', read_node d pos = Ok (n, pos') /\ at_pos d pos' rest.
Proof.
  intros [Hi [Hv Hvn] [Hc Hcn]] Hat. unfold node_bytes in Hat. rewrite <- !app_assoc in Hat. unfold read_node.
  destruct (read_u64 _ _ _ _ Hi Hat) as [-> H1]. rewrite bind_ok. destruct (read_u32 _ _ _ _ Hvn H1) as [-> H2]. rewrite bind_ok. unfold len at 1. rewrite Nat2N.id.
  destruct (read_many_ok (read_f64 d) (fun f => le_bytes 8 (f64_to_bits f)) (fun f => f64_ok f = true) d (vector n) _ _ (fun f p r => read_f64_ok d f p r) Hv H2) as (p3 & -> & H3).
  rewrite bind_ok. destruct (read_u32 _ _ _ _ Hcn H3) as [-> H4]. rewrite bind_ok. unfold len. rewrite Nat2N.id.
  destruct (read_many_ok (read_layer d) layer_bytes layer_ok d (connections n) _ _ (fun l p r => read_layer_ok d l p r) Hc H4) as (p5 & -> & H5).
  rewrite bind_ok. exists p5. split; [|done]. by destruct n.
Qed.

Lemma entry_field (ep : option N) : match ep with Some i => i < 2 ^ 63 | None => True end ->
  let v := match ep with None => of_signed 64 (-1) | Some i => i end in v < 2 ^ 64 /\ (if (to_signed 64 v <? 0)%Z then None else Some v) = ep.
Proof.
  intros He. destruct ep as [i|]; [|by split]. cbn. split; [lia|]. unfold to_signed. change (64 - 1) with 63. rewrite (proj2 (N.ltb_lt i (2 ^ 63)) He). by rewrite (proj2 (Z.ltb_ge _ _)) by lia.
Qed.

(** The file of an index reads back: [from_bytes] of [to_bytes] is the index, for one
    whose counts and indices fit the 32-bit fields of the file. *)
Theorem hnsw_file_roundtrip ln h : file_ok ln h -> from_bytes ln (to_bytes h) = Ok h.
Proof.
  intros [(F1 & F2 & F3 & F4) He [Hn Hnl] Hmult]. set (d := to_bytes h). pose proof (at_start d) as Hat. unfold d in Hat at 2. unfold to_bytes in Hat. unfold from_bytes.
  apply ColumnarSpec.read_bytes_ok in Hat as [Hm Hat]. change (len MAGIC) with 4 in *. rewrite Hm, bind_ok. rewrite bool_decide_eq_true_2 by done. cbn [negb].
  cbn [app] in Hat. apply ColumnarSpec.read_byte_ok in Hat as [-> Hat]; [|done]. rewrite bind_ok. cbn [N.eqb Pos.eqb negb].
  destruct (read_u32 _ _ _ _ F1 Hat) as [-> H1]. rewrite bind_ok. destruct (read_u32 _ _ _ _ F2 H1) as [-> H2]. rewrite bind_ok.
  destruct (read_u32 _ _ _ _ F3 H2) as [-> H3]. rewrite bind_ok. destruct (read_u32 _ _ _ _ F4 H3) as [-> H4]. rewrite bind_ok.
  destruct (entry_field _ He) as [Hep Hback]. destruct (read_u64 _ _ _ _ Hep H4) as [-> H5]. rewrite bind_ok. destruct (read_u32 _ _ _ _ Hnl H5) as [-> H6]. rewrite bind_ok.
  unfold len. rewrite Nat2N.id. rewrite <- (app_nil_r (concat _)) in H6.
  destruct (read_many_ok (read_node d) node_bytes node_ok d (nodes h) _ _ (fun n p r => read_node_ok d n p r) Hn H6) as (p & -> & _). rewrite bind_ok, Hback, <- Hmult. by destruct h.
Qed.

Lemma hnsw_file_roundtrip_witness :
  let h := mkIndex 2 4 50 [mkNode (on_line 8) 7 [[1]]; mkNode (on_line 10) 9 [[0]; []]] (Some 1) 1 (level_mult_of one 2) in from_bytes one (to_bytes h) = Ok h.
Proof.
  apply (hnsw_file_roundtrip one (mkIndex 2 4 50 [mkNode (on_line 8) 7 [[1]]; mkNode (on_line 10) 9 [[0]; []]] (Some 1) 1 (level_mult_of one 2))).
  repeat match goal with
  | |- Forall _ _ => constructor
  | |- file_ok _ _ => split
  | |- node_ok _ => split
  | |- layer_ok _ => split
  | |- _ /\ _ => split
  | |- _ => reflexivity
  end.
Defined.

End HnswIndexSpec.
