(* ===== verification/RaftLog.v ===== *)
(** * The replicated log

    Models [crates/raft/src/log.rs].  A [RaftLog] holds the entries from
    [base_index] on; position [i] of [entries] is the entry with log index
    [base_index + i], and the first entry is the sentinel or the snapshot base.
    The invariant [log_wf] says so, and every operation preserves it. *)

From S2P Require Import Prelude Bytes.

Module Log.

Record LogEntry : Type := mkEntry {
  term : N;
  index : N;
  data : list N
}.

Record Snapshot : Type := mkSnapshot {
  last_included_index : N;
  last_included_term : N;
  snap_data : list N
}.

Record RaftLog : Type := mkLog {
  entries : list LogEntry;
  commit_index : N;
  last_applied : N;
  snapshot : option Snapshot;
  base_index : N
}.

#[global] Instance LogEntry_eq_dec : EqDecision LogEntry.
Proof. solve_decision. Defined.

Definition new : RaftLog := mkLog [mkEntry 0 0 []] 0 0 None 0.

Definition append (l : RaftLog) (t : N) (d : list N) : RaftLog * N :=
  let i := wadd 64 (base_index l) (len (entries l)) in
  (mkLog (entries l ++ [mkEntry t i d]) (commit_index l) (last_applied l)
     (snapshot l) (base_index l), i).

Definition get (l : RaftLog) (i : N) : option LogEntry :=
  if i <? base_index l then None
  else entries l !! N.to_nat (i - base_index l).

Definition last_index (l : RaftLog) : N := wadd 64 (base_index l) (len (entries l) - 1).

Definition last_term (l : RaftLog) : N := default 0 (term <$> last (entries l)).

Definition truncate_after (l : RaftLog) (i : N) : RaftLog :=
  if i <? base_index l then l
  else
    let truncate_at := wadd 64 (i - base_index l) 1 in
    if truncate_at <? len (entries l) then
      mkLog (take (N.to_nat truncate_at) (entries l))
        (if i <? commit_index l then i else commit_index l)
        (last_applied l) (snapshot l) (base_index l)
    else l.

Definition advance_commit (l : RaftLog) (i : N) : RaftLog :=
  if commit_index l <? i then
    mkLog (entries l) (N.min i (last_index l)) (last_applied l) (snapshot l) (base_index l)
  else l.

Definition entries_from (l : RaftLog) (i : N) : list LogEntry :=
  if i <? base_index l then []
  else
    let start := i - base_index l in
    if len (entries l) <=? start then []
    else drop (N.to_nat start) (entries l).

Definition set_last_applied (l : RaftLog) (i : N) : RaftLog :=
  mkLog (entries l) (commit_index l) i (snapshot l) (base_index l).

(** The [while] loop of [take_applicable]; one unit of fuel per iteration. *)
Fixpoint take_loop (fuel : nat) (l : RaftLog) (out : list LogEntry) : RaftLog * list LogEntry :=
  match fuel with
  | O => (l, out)
  | S fuel =>
      if last_applied l <? commit_index l then
        let l := set_last_applied l (last_applied l + 1) in
        match get l (last_applied l) with
        | Some e => take_loop fuel l (out ++ [e])
        | None => take_loop fuel l out
        end
      else (l, out)
  end.

Definition take_applicable (l : RaftLog) : RaftLog * list LogEntry :=
  take_loop (N.to_nat (commit_index l - last_applied l)) l [].

Definition compact (l : RaftLog) (s : Snapshot) : RaftLog :=
  let snap_index := last_included_index s in
  let snap_term := last_included_term s in
  if snap_index <=? base_index l then l
  else
    let new_base := snap_index in
    let es :=
      if wadd 64 (base_index l) (len (entries l)) <=? new_base
      then [mkEntry snap_term snap_index []]
      else
        match drop (N.to_nat (new_base - base_index l)) (entries l) with
        | first :: rest => mkEntry snap_term snap_index [] :: rest
        | [] => []
        end in
    mkLog es
      (if commit_index l <? snap_index then snap_index else commit_index l)
      (if last_applied l <? snap_index then snap_index else last_applied l)
      (Some s) new_base.

Definition is_compacted (l : RaftLog) (i : N) : bool := i <? base_index l.

(** ** The invariant *)

Record log_wf (l : RaftLog) : Prop := {
  wf_nonempty : 0 < len (entries l);
  wf_index : forall i e, entries l !! i = Some e -> index e = base_index l + N.of_nat i;
  wf_width : base_index l + len (entries l) < 2 ^ 64;
  wf_commit : commit_index l < base_index l + len (entries l);
  wf_base_commit : base_index l <= commit_index l;
  wf_base_applied : base_index l <= last_applied l
}.

(** A run of a log: the state it is in, and the entries [take_applicable] has
    handed out so far, oldest first.  The side conditions keep indices below
    [2^64]. *)
Inductive log_run : RaftLog -> list LogEntry -> Prop :=
  | run_new : log_run new []
  | run_append l ds t d :
      log_run l ds -> last_index l + 2 < 2 ^ 64 -> log_run (append l t d).1 ds
  | run_truncate l ds i :
      log_run l ds -> i < 2 ^ 64 - 1 -> log_run (truncate_after l i) ds
  | run_commit l ds i :
      log_run l ds -> log_run (advance_commit l i) ds
  | run_compact l ds s :
      log_run l ds -> last_included_index s < 2 ^ 64 - 1 -> log_run (compact l s) ds
  | run_take l ds l' out :
      log_run l ds -> take_applicable l = (l', out) -> log_run l' (ds ++ out).

(** ** Basic facts *)

Lemma last_index_eq l : log_wf l -> last_index l = base_index l + len (entries l) - 1.
Proof.
  intros [? _ ? _ _ _]. unfold last_index. rewrite wadd_small by lia. lia.
Qed.

Lemma log_new_wf : log_wf new.
Proof.
  split; try (vm_compute; congruence). intros [|i] e; cbn; [by intros [= <-]|done].
Qed.

Lemma get_Some l i e : log_wf l -> get l i = Some e ->
  index e = i /\ base_index l <= i <= last_index l.
Proof.
  intros Hw. rewrite last_index_eq by done. unfold get. case_cmp; [done|]. intros He.
  pose proof (wf_index l Hw _ _ He). apply lookup_lt_Some in He. unfold len. lia.
Qed.

Lemma get_None l i : log_wf l ->
  get l i = None <-> i < base_index l \/ last_index l < i.
Proof.
  intros Hw. rewrite last_index_eq by done. pose proof (wf_nonempty l Hw).
  unfold get, len in *. case_cmp.
  - split; [lia|done].
  - rewrite lookup_ge_None. lia.
Qed.

Lemma append_wf l t d : log_wf l -> last_index l + 2 < 2 ^ 64 -> log_wf (append l t d).1.
Proof.
  intros Hw Hr. rewrite last_index_eq in Hr by done. pose proof Hw as [? Hi ? ? ? ?].
  split; cbn; rewrite ?len_app, ?len_cons, ?len_nil; try lia.
  intros i e. rewrite wadd_small by lia.
  intros [H'|[Hge H']]%lookup_app_Some; [eauto|].
  destruct (i - length (entries l))%nat eqn:E; [|done].
  injection H' as <-. cbn. unfold len. lia.
Qed.

Lemma append_get l t d i : log_wf l -> last_index l + 2 < 2 ^ 64 ->
  get (append l t d).1 i =
    if i =? last_index l + 1 then Some (mkEntry t (last_index l + 1) d) else get l i.
Proof.
  intros Hw Hr. rewrite last_index_eq in * by done. pose proof Hw as [? Hi ? ? ? ?].
  unfold get, append. cbn. rewrite wadd_small by lia.
  destruct (N.eqb_spec i (base_index l + len (entries l) - 1 + 1)) as [->|Hne].
  - case_cmp; [lia|]. rewrite lookup_app_r by (unfold len in *; lia).
    replace (_ - _)%nat with O by (unfold len in *; lia). cbn. do 2 f_equal. lia.
  - case_cmp; [done|]. destruct (decide (i < base_index l + len (entries l))).
    + rewrite lookup_app_l; [done|]. unfold len in *. lia.
    + rewrite !lookup_ge_None_2; [done|unfold len in *; lia|].
      rewrite length_app. cbn. unfold len in *. lia.
Qed.

Lemma truncate_after_wf l i : log_wf l -> i < 2 ^ 64 - 1 -> log_wf (truncate_after l i).
Proof.
  intros Hw Hi. pose proof Hw as [? Hx ? ? ? ?]. unfold truncate_after.
  destruct (N.ltb_spec i (base_index l)); [done|]. rewrite wadd_small by lia.
  destruct (N.ltb_spec (i - base_index l + 1) (len (entries l))); [|done].
  assert (Hl : len (take (N.to_nat (i - base_index l + 1)) (entries l)) = i - base_index l + 1).
  { unfold len in *. rewrite length_take. lia. }
  split; cbn; rewrite ?Hl; try lia.
  - intros j e [He _]%lookup_take_Some. eauto.
  - case_cmp; lia.
  - case_cmp; lia.
Qed.

Lemma truncate_after_get l i j : log_wf l -> base_index l <= i -> i < 2 ^ 64 - 1 ->
  get (truncate_after l i) j = if j <=? i then get l j else None.
Proof.
  intros Hw Hb Hi. unfold truncate_after. destruct (N.ltb_spec i (base_index l)); [lia|].
  rewrite wadd_small by lia. unfold get.
  destruct (N.ltb_spec (i - base_index l + 1) (len (entries l))); cbn [base_index entries].
  - destruct (N.ltb_spec j (base_index l)); [by case_cmp|]. case_cmp.
    + apply lookup_take_lt. lia.
    + apply lookup_take_ge. lia.
  - destruct (N.ltb_spec j (base_index l)); [by case_cmp|]. case_cmp; [done|].
    apply lookup_ge_None. unfold len in *. lia.
Qed.

Lemma advance_commit_wf l i : log_wf l -> log_wf (advance_commit l i).
Proof.
  intros Hw. unfold advance_commit. case_cmp; [|done].
  pose proof (last_index_eq l Hw) as Hl. pose proof Hw as [? Hx ? ? ? ?].
  split; cbn; try done; rewrite Hl; lia.
Qed.

Lemma compact_wf l s : log_wf l -> last_included_index s < 2 ^ 64 - 1 -> log_wf (compact l s).
Proof.
  intros Hw Hs. pose proof Hw as [? Hx ? ? ? ?]. unfold compact.
  destruct (N.leb_spec (last_included_index s) (base_index l)); [done|].
  rewrite wadd_small by lia.
  destruct (N.leb_spec (base_index l + len (entries l)) (last_included_index s)) as [Hle|Hlt].
  - split; cbn; rewrite ?len_cons, ?len_nil; try (case_cmp; lia); try lia.
    intros [|i] e; cbn; [|done]. intros [= <-]. cbn. lia.
  - set (k := N.to_nat (last_included_index s - base_index l)).
    destruct (drop k (entries l)) as [|f rest] eqn:Hd.
    { apply (f_equal length) in Hd. rewrite length_drop in Hd. cbn in Hd. unfold len in *. lia. }
    assert (Hlen : len rest + 1 = base_index l + len (entries l) - last_included_index s).
    { apply (f_equal length) in Hd. rewrite length_drop in Hd. cbn in Hd. unfold len in *. lia. }
    split; cbn; rewrite ?len_cons; try (case_cmp; lia); try lia.
    intros [|i] e; cbn; [intros [= <-]; cbn; lia|]. intros He.
    assert (Hk : entries l !! (k + S i)%nat = Some e) by (rewrite <- lookup_drop, Hd; done).
    rewrite (Hx _ _ Hk). lia.
Qed.

Lemma compact_get l s j : log_wf l -> base_index l < last_included_index s ->
  get (compact l s) j =
    if j <? last_included_index s then None
    else if j =? last_included_index s
         then Some (mkEntry (last_included_term s) (last_included_index s) [])
         else get l j.
Proof.
  intros Hw Hs. pose proof Hw as [? Hx ? ? ? ?]. unfold compact.
  destruct (N.leb_spec (last_included_index s) (base_index l)); [lia|].
  rewrite wadd_small by lia. unfold get at 1. cbn [base_index entries].
  destruct (N.ltb_spec j (last_included_index s)); [done|].
  set (si := last_included_index s) in *.
  destruct (N.leb_spec (base_index l + len (entries l)) si) as [Hle|Hlt].
  - destruct (N.eqb_spec j si) as [->|]; [by rewrite N.sub_diag|].
    destruct (N.to_nat (j - si)) eqn:E; [lia|]. cbn. symmetry. apply get_None; [done|].
    rewrite last_index_eq by done. lia.
  - destruct (drop _ _) as [|f rest] eqn:Hd.
    { apply (f_equal length) in Hd. rewrite length_drop in Hd. cbn in Hd. unfold len in *. lia. }
    destruct (N.eqb_spec j si) as [->|]; [by rewrite N.sub_diag|].
    replace (N.to_nat (j - si)) with (S (N.to_nat (j - si - 1))) by lia. cbn.
    unfold get. case_cmp; [lia|].
    replace (N.to_nat (j - base_index l))
      with (N.to_nat (si - base_index l) + S (N.to_nat (j - si - 1)))%nat by lia.
    rewrite <- lookup_drop, Hd. done.
Qed.

(** ** Delivery to the state machine *)

Lemma set_last_applied_id l : set_last_applied l (last_applied l) = l.
Proof. by destruct l. Qed.

Lemma set_last_applied_wf l i : log_wf l -> base_index l <= i -> log_wf (set_last_applied l i).
Proof. intros [] ?. by split. Qed.

(** The fuel of [take_applicable] covers every iteration of the loop: it stops
    because [last_applied] has reached [commit_index]. *)
Lemma take_loop_spec fuel l out : log_wf l ->
  commit_index l <= last_applied l + N.of_nat fuel ->
  take_loop fuel l out =
    (set_last_applied l (N.max (last_applied l) (commit_index l)),
     out ++ read_at (entries l) (last_applied l + 1 - base_index l) (commit_index l - last_applied l)).
Proof.
  revert l out. induction fuel as [|fuel IH]; intros l out Hw Hf; cbn [take_loop].
  - rewrite N.max_l, set_last_applied_id by lia.
    replace (commit_index l - last_applied l) with 0 by lia.
    rewrite read_at_0, app_nil_r. done.
  - case_cmp.
    + pose proof Hw as [? ? ? ? ? ?].
      set (l1 := set_last_applied l (last_applied l + 1)).
      assert (Hw1 : log_wf l1) by (apply set_last_applied_wf; [done|lia]).
      destruct (get l1 (last_applied l1)) as [e|] eqn:He.
      * rewrite IH by (done || cbn; lia). cbn.
        rewrite !N.max_r by lia. f_equal. rewrite <- app_assoc. f_equal. cbn.
        unfold get in He. cbn in He. destruct (N.ltb_spec (last_applied l + 1) (base_index l)); [done|].
        rewrite (read_at_cons _ (last_applied l + 1 - base_index l) _ e) by (done || lia).
        do 2 f_equal; lia.
      * exfalso. apply get_None in He; [|done]. rewrite last_index_eq in He by done. cbn in He. lia.
    + rewrite N.max_l, set_last_applied_id by lia.
      replace (commit_index l - last_applied l) with 0 by lia.
      rewrite read_at_0, app_nil_r. done.
Qed.

Lemma take_applicable_spec l : log_wf l ->
  take_applicable l =
    (set_last_applied l (N.max (last_applied l) (commit_index l)),
     read_at (entries l) (last_applied l + 1 - base_index l) (commit_index l - last_applied l)).
Proof. intros. unfold take_applicable. rewrite take_loop_spec by (done || lia). done. Qed.

Lemma log_run_wf l ds : log_run l ds -> log_wf l.
Proof.
  induction 1; auto using log_new_wf, append_wf, truncate_after_wf, advance_commit_wf, compact_wf.
  rewrite take_applicable_spec in H0 by done. injection H0 as <- <-.
  apply set_last_applied_wf; [done|]. pose proof (wf_base_applied l IHlog_run). lia.
Qed.

(** ** Runs *)

Lemma log_run_applied l ds : log_run l ds ->
  Forall (fun e => index e <= last_applied l) ds.
Proof.
  induction 1 as [|l ds t d Hr IH|l ds i Hr IH|l ds i Hr IH|l ds s Hr IH|l ds l' out Hr IH Ht];
    try done.
  - unfold truncate_after. by repeat case_match.
  - unfold advance_commit. by case_match.
  - unfold compact. case_match; [done|]. cbn. eapply Forall_impl; [exact IH|].
    cbn. intros e He. case_cmp; lia.
  - pose proof (log_run_wf _ _ Hr) as Hw. rewrite take_applicable_spec in Ht by done.
    injection Ht as <- <-. apply Forall_app. split.
    + eapply Forall_impl; [exact IH|]. cbn. lia.
    + apply Forall_lookup. intros i e. rewrite lookup_read_at. case_decide; [|done].
      intros He%wf_index; [|done]. pose proof (wf_base_applied l Hw). cbn. lia.
Qed.

Lemma read_at_sorted l off n : log_wf l ->
  StronglySorted N.lt (index <$> read_at (entries l) off n).
Proof.
  intros Hw. unfold read_at. set (es := drop _ _).
  assert (Hi : forall i e, es !! i = Some e -> index e = base_index l + off + N.of_nat i).
  { intros i e. unfold es. rewrite lookup_drop. intros He%wf_index; [|done]. lia. }
  generalize (N.to_nat n), (base_index l + off), es, Hi. clear.
  intros k b es. revert k b. induction es as [|e es IH]; intros [|k] b Hi; cbn; try constructor.
  - apply (IH k (b + 1)). intros i e' He. rewrite (Hi (S i) e') by done. lia.
  - apply Forall_fmap, Forall_take, Forall_lookup. intros i e' He. cbn.
    rewrite (Hi O e), (Hi (S i) e') by done. lia.
Qed.

Lemma StronglySorted_app_lt (l1 l2 : list N) m :
  StronglySorted N.lt l1 -> StronglySorted N.lt l2 ->
  Forall (fun x => x <= m) l1 -> Forall (fun x => m < x) l2 ->
  StronglySorted N.lt (l1 ++ l2).
Proof.
  induction 1 as [|x l1 _ IH Hx]; intros H2 Hm Hl; cbn; [done|].
  inversion_clear Hm. constructor; [auto|]. apply Forall_app. split; [done|].
  eapply Forall_impl; [exact Hl|]. cbn. lia.
Qed.

(** C33: Log runs: every reachable log is well formed (position [i] holds the
    entry with index [base_index + i], and the commit index points into the
    log), and the entries handed to the state machine over the whole run have
    strictly increasing indices, so no index is ever applied twice or out of
    order, whatever truncations and compactions happen in between. *)
Theorem log_run_delivers_in_order l ds : log_run l ds ->
  log_wf l /\ StronglySorted N.lt (index <$> ds) /\
  Forall (fun e => index e <= last_applied l) ds.
Proof.
  intros Hr. split_and!; [by eapply log_run_wf| |by eapply log_run_applied].
  induction Hr as [| | | | |l ds l' out Hr IH Ht]; try done; [constructor|].
  pose proof (log_run_wf _ _ Hr) as Hw. pose proof (wf_base_applied l Hw).
  rewrite take_applicable_spec in Ht by done. injection Ht as <- <-.
  rewrite fmap_app. apply StronglySorted_app_lt with (m := last_applied l);
    [done|by apply read_at_sorted| |]; apply Forall_fmap.
  - by apply log_run_applied.
  - apply Forall_lookup. intros i e. rewrite lookup_read_at. case_decide; [|done].
    intros He%wf_index; [|done]. cbn. lia.
Qed.

Lemma log_run_delivers_in_order_witness :
  let r := take_applicable (advance_commit (append (append new 1 [7]).1 1 [8]).1 2) in
  log_wf r.1 /\ StronglySorted N.lt (index <$> ([] ++ r.2)) /\
  Forall (fun e => index e <= last_applied r.1) ([] ++ r.2).
Proof.
  apply log_run_delivers_in_order.
  apply (run_take (advance_commit (append (append new 1 [7]).1 1 [8]).1 2)); [|apply surjective_pairing].
  apply run_commit, run_append; [apply run_append|]; [apply run_new|reflexivity|reflexivity].
Defined.

(** [take_applicable] terminates with [last_applied] at the commit index
    and returns exactly the committed entries that were not yet applied, in
    log order; a second call returns nothing. *)
Theorem take_applicable_exact l : log_wf l -> last_applied l <= commit_index l ->
  let '(l', out) := take_applicable l in
  last_applied l' = commit_index l /\ len out = commit_index l - last_applied l /\
  (forall k, k < len out -> out !! N.to_nat k = get l (last_applied l + 1 + k)) /\
  take_applicable l' = (l', []).
Proof.
  intros Hw Hle. pose proof Hw as [? ? ? ? ? ?]. rewrite take_applicable_spec by done. cbn.
  rewrite len_read_at. split_and!; [lia|lia| |].
  - intros k Hk. rewrite lookup_read_at, decide_True by lia. unfold get.
    case_cmp; [lia|]. f_equal. lia.
  - rewrite take_applicable_spec by (apply set_last_applied_wf; [done|lia]). cbn.
    rewrite N.max_r by lia. rewrite N.sub_diag, N.max_id. done.
Qed.

Lemma take_applicable_exact_witness :
  let l := advance_commit (append (append new 1 [7]).1 1 [8]).1 2 in
  let '(l', out) := take_applicable l in
  last_applied l' = commit_index l /\ len out = commit_index l - last_applied l /\
  (forall k, k < len out -> out !! N.to_nat k = get l (last_applied l + 1 + k)) /\
  take_applicable l' = (l', []).
Proof.
  apply take_applicable_exact; [|vm_compute; congruence].
  apply advance_commit_wf, append_wf; [apply append_wf; [apply log_new_wf|]|]; reflexivity.
Defined.

End Log.
