(* ===== verification/RaftNode.v ===== *)
(** * The consensus node

    Models [crates/raft/src/rpc.rs] and [crates/raft/src/node.rs]: the six RPC
    messages and the node's handlers, each a function from the node's state
    (and a message) to the new state and the answer.  [RaftElection] composes
    the handlers into a cluster. *)

From S2P Require Import Prelude Bytes RaftLog.

Module Rpc.

Record AppendEntriesReq : Type := mkAppendEntriesReq {
  ae_term : N;
  ae_leader_id : N;
  ae_prev_log_index : N;
  ae_prev_log_term : N;
  ae_entries : list Log.LogEntry;
  ae_leader_commit : N
}.

Record AppendEntriesResp : Type := mkAppendEntriesResp {
  aer_term : N;
  aer_success : bool;
  aer_match_index : N
}.

Record RequestVoteReq : Type := mkRequestVoteReq {
  rv_term : N;
  rv_candidate_id : N;
  rv_last_log_index : N;
  rv_last_log_term : N
}.

Record RequestVoteResp : Type := mkRequestVoteResp {
  rvr_term : N;
  rvr_vote_granted : bool
}.

Record InstallSnapshotReq : Type := mkInstallSnapshotReq {
  is_term : N;
  is_leader_id : N;
  is_last_included_index : N;
  is_last_included_term : N;
  is_data : list N
}.

Record InstallSnapshotResp : Type := mkInstallSnapshotResp { isr_term : N }.

#[global] Instance AppendEntriesReq_eq_dec : EqDecision AppendEntriesReq.
Proof. solve_decision. Defined.
#[global] Instance RequestVoteReq_eq_dec : EqDecision RequestVoteReq.
Proof. solve_decision. Defined.

End Rpc.
Export Rpc.

Module Node.

Inductive RaftRole : Type := Leader | Follower | Candidate.

#[global] Instance RaftRole_eq_dec : EqDecision RaftRole.
Proof. solve_decision. Defined.

Record RaftConfig : Type := mkConfig {
  node_id : N;
  peers : list N;
  election_timeout_min_ms : N;
  election_timeout_max_ms : N;
  heartbeat_interval_ms : N
}.

Record RaftNode : Type := mkNode {
  config : RaftConfig;
  role : RaftRole;
  current_term : N;
  voted_for : option N;
  log : Log.RaftLog;
  commit_index : N;
  last_applied : N;
  next_index : list (N * N);
  match_index : list (N * N);
  votes_received : N
}.

(** ** Field updates *)

Definition with_role (n : RaftNode) (r : RaftRole) : RaftNode :=
  mkNode (config n) r (current_term n) (voted_for n) (log n) (commit_index n)
    (last_applied n) (next_index n) (match_index n) (votes_received n).
Definition with_term (n : RaftNode) (t : N) (v : option N) : RaftNode :=
  mkNode (config n) (role n) t v (log n) (commit_index n)
    (last_applied n) (next_index n) (match_index n) (votes_received n).
Definition with_log (n : RaftNode) (l : Log.RaftLog) : RaftNode :=
  mkNode (config n) (role n) (current_term n) (voted_for n) l (commit_index n)
    (last_applied n) (next_index n) (match_index n) (votes_received n).
Definition with_commit (n : RaftNode) (i : N) : RaftNode :=
  mkNode (config n) (role n) (current_term n) (voted_for n) (log n) i
    (last_applied n) (next_index n) (match_index n) (votes_received n).
Definition with_next (n : RaftNode) (ni : list (N * N)) : RaftNode :=
  mkNode (config n) (role n) (current_term n) (voted_for n) (log n) (commit_index n)
    (last_applied n) ni (match_index n) (votes_received n).
Definition with_match (n : RaftNode) (mi : list (N * N)) : RaftNode :=
  mkNode (config n) (role n) (current_term n) (voted_for n) (log n) (commit_index n)
    (last_applied n) (next_index n) mi (votes_received n).
Definition with_votes (n : RaftNode) (v : N) : RaftNode :=
  mkNode (config n) (role n) (current_term n) (voted_for n) (log n) (commit_index n)
    (last_applied n) (next_index n) (match_index n) v.

(** ** Construction and accessors *)

Definition new (c : RaftConfig) : RaftNode :=
  mkNode c Follower 0 None Log.new 0 0
    ((fun p => (p, 1)) <$> peers c) ((fun p => (p, 0)) <$> peers c) 0.

Definition is_leader (n : RaftNode) : bool := bool_decide (role n = Leader).

(** [peers.len().div_ceil(2) + 1], written out at three places of the source. *)
Definition quorum (n : RaftNode) : N := (len (peers (config n)) + 1) / 2 + 1.

(** [iter().find(|(p, _)| *p == peer)]. *)
Fixpoint assoc_get (l : list (N * N)) (peer : N) : option N :=
  match l with
  | [] => None
  | (p, v) :: l => if p =? peer then Some v else assoc_get l peer
  end.

Definition next_index_for (n : RaftNode) (peer : N) : N :=
  default 1 (assoc_get (next_index n) peer).

(** [iter_mut().find(..)] followed by an assignment to the value. *)
Fixpoint assoc_set (l : list (N * N)) (peer i : N) : list (N * N) :=
  match l with
  | [] => []
  | (p, v) :: l => if p =? peer then (p, i) :: l else (p, v) :: assoc_set l peer i
  end.

Definition set_next_index (n : RaftNode) (peer i : N) : RaftNode :=
  with_next n (assoc_set (next_index n) peer i).
Definition set_match_index (n : RaftNode) (peer i : N) : RaftNode :=
  with_match n (assoc_set (match_index n) peer i).

(** ** AppendEntries *)

(** Rules 3 and 4: one entry of the request against the log. *)
Definition append_entry (l : Log.RaftLog) (e : Log.LogEntry) : Log.RaftLog :=
  match Log.get l (Log.index e) with
  | Some existing =>
      if negb (Log.term existing =? Log.term e) then
        let l := Log.truncate_after l (Log.index e - 1) in
        (Log.append l (Log.term e) (Log.data e)).1
      else l
  | None => (Log.append l (Log.term e) (Log.data e)).1
  end.

Definition handle_append_entries (n : RaftNode) (req : AppendEntriesReq)
    : RaftNode * AppendEntriesResp :=
  if ae_term req <? current_term n then
    (n, mkAppendEntriesResp (current_term n) false (Log.last_index (log n)))
  else
    let n := if current_term n <? ae_term req then with_term n (ae_term req) None else n in
    let n := with_role n Follower in
    let reject (n : RaftNode) :=
      (n, mkAppendEntriesResp (current_term n) false (Log.last_index (log n))) in
    let accept :=
      let n := with_log n (foldl append_entry (log n) (ae_entries req)) in
      let n :=
        if commit_index n <? ae_leader_commit req then
          let new_commit := N.min (ae_leader_commit req) (Log.last_index (log n)) in
          with_log (with_commit n new_commit) (Log.advance_commit (log n) new_commit)
        else n in
      (n, mkAppendEntriesResp (current_term n) true (Log.last_index (log n))) in
    if 0 <? ae_prev_log_index req then
      match Log.get (log n) (ae_prev_log_index req) with
      | None => reject n
      | Some entry =>
          if negb (Log.term entry =? ae_prev_log_term req) then
            reject (with_log n (Log.truncate_after (log n) (ae_prev_log_index req - 1)))
          else accept
      end
    else accept.

(** ** RequestVote *)

Definition handle_request_vote (n : RaftNode) (req : RequestVoteReq)
    : RaftNode * RequestVoteResp :=
  if rv_term req <? current_term n then (n, mkRequestVoteResp (current_term n) false)
  else
    let n := if current_term n <? rv_term req
             then with_role (with_term n (rv_term req) None) Follower else n in
    let can_vote := bool_decide (voted_for n = None)
                    || bool_decide (voted_for n = Some (rv_candidate_id req)) in
    let log_ok := (Log.last_term (log n) <? rv_last_log_term req)
                  || ((rv_last_log_term req =? Log.last_term (log n))
                      && (Log.last_index (log n) <=? rv_last_log_index req)) in
    if can_vote && log_ok then
      let n := with_term n (current_term n) (Some (rv_candidate_id req)) in
      (n, mkRequestVoteResp (current_term n) true)
    else (n, mkRequestVoteResp (current_term n) false).

(** ** Leader operations *)

(** [None] is [Err("not leader")]. *)
Definition propose (n : RaftNode) (d : list N) : RaftNode * option N :=
  if bool_decide (role n <> Leader) then (n, None)
  else
    let '(l, i) := Log.append (log n) (current_term n) d in
    (with_log n l, Some i).

Definition heartbeat (n : RaftNode) : list (N * AppendEntriesReq) :=
  if bool_decide (role n <> Leader) then []
  else
    (fun peer =>
      let next := next_index_for n peer in
      let prev_log_index := next - 1 in
      let prev_log_term := default 0 (Log.term <$> Log.get (log n) prev_log_index) in
      (peer, mkAppendEntriesReq (current_term n) (node_id (config n)) prev_log_index
               prev_log_term (Log.entries_from (log n) next) (commit_index n)))
    <$> peers (config n).

(** Nodes, the leader included, that are known to hold index [i]. *)
Definition matched (n : RaftNode) (i : N) : N :=
  1 + len (filter (fun e => i <= e.2) (match_index n)).

(** The descending loop over [commit_index + 1 ..= last]; [k] counts down the
    distance to [commit_index]. *)
Fixpoint commit_scan (n : RaftNode) (k : nat) : option N :=
  match k with
  | O => None
  | S k' =>
      let i := commit_index n + N.of_nat k in
      if negb (default 0 (Log.term <$> Log.get (log n) i) =? current_term n) then commit_scan n k'
      else if quorum n <=? matched n i then Some i
      else commit_scan n k'
  end.

Definition handle_append_response (n : RaftNode) (from : N) (resp : AppendEntriesResp) : RaftNode :=
  if current_term n <? aer_term resp then
    with_role (with_term n (aer_term resp) None) Follower
  else if bool_decide (role n <> Leader) then n
  else if aer_success resp then
    let n := set_match_index n from (aer_match_index resp) in
    let n := set_next_index n from (wadd 64 (aer_match_index resp) 1) in
    match commit_scan n (N.to_nat (Log.last_index (log n) - commit_index n)) with
    | Some i => with_log (with_commit n i) (Log.advance_commit (log n) i)
    | None => n
    end
  else
    let new_next := wadd 64 (aer_match_index resp) 1 in
    let current_next := next_index_for n from in
    if new_next <? current_next then set_next_index n from (N.max new_next 1)
    else set_next_index n from (N.max (current_next - 1) 1).

(** ** Elections *)

Definition become_leader (n : RaftNode) : RaftNode :=
  let n := with_role n Leader in
  let last := Log.last_index (log n) in
  let n := with_next n ((fun e => (e.1, wadd 64 last 1)) <$> next_index n) in
  with_match n ((fun e => (e.1, 0)) <$> match_index n).

Definition start_election (n : RaftNode) : RaftNode * list (N * RequestVoteReq) :=
  let n := with_term n (wadd 64 (current_term n) 1) (voted_for n) in
  let n := with_role n Candidate in
  let n := with_term n (current_term n) (Some (node_id (config n))) in
  let n := with_votes n 1 in
  if quorum n <=? votes_received n then (become_leader n, [])
  else
    (n, (fun peer => (peer, mkRequestVoteReq (current_term n) (node_id (config n))
                              (Log.last_index (log n)) (Log.last_term (log n))))
        <$> peers (config n)).

Definition handle_vote_response (n : RaftNode) (from : N) (resp : RequestVoteResp)
    : RaftNode * bool :=
  if current_term n <? rvr_term resp then
    (with_role (with_term n (rvr_term resp) None) Follower, false)
  else if bool_decide (role n <> Candidate) then (n, false)
  else if rvr_vote_granted resp then
    let n := with_votes n (votes_received n + 1) in
    if quorum n <=? votes_received n then (become_leader n, true) else (n, false)
  else (n, false).

(** ** Snapshots *)

Definition create_snapshot (n : RaftNode) (i : N) (d : list N) : RaftNode :=
  let t := default (current_term n) (Log.term <$> Log.get (log n) i) in
  with_log n (Log.compact (log n) (Log.mkSnapshot i t d)).

Definition handle_install_snapshot (n : RaftNode) (req : InstallSnapshotReq)
    : RaftNode * InstallSnapshotResp :=
  if is_term req <? current_term n then (n, mkInstallSnapshotResp (current_term n))
  else
    let n := if current_term n <? is_term req then with_term n (is_term req) None else n in
    let n := with_role n Follower in
    if is_last_included_index req <=? Log.last_applied (log n) then
      (n, mkInstallSnapshotResp (current_term n))
    else
      let s := Log.mkSnapshot (is_last_included_index req) (is_last_included_term req) (is_data req) in
      (with_log n (Log.compact (log n) s), mkInstallSnapshotResp (current_term n)).

Definition maybe_install_snapshot (n : RaftNode) (peer : N) : option (N * InstallSnapshotReq) :=
  if bool_decide (role n <> Leader) then None
  else
    snap ← Log.snapshot (log n);
    if next_index_for n peer <=? Log.last_included_index snap then
      Some (peer, mkInstallSnapshotReq (current_term n) (node_id (config n))
                    (Log.last_included_index snap) (Log.last_included_term snap)
                    (Log.snap_data snap))
    else None.

Definition take_applicable (n : RaftNode) : RaftNode * list Log.LogEntry :=
  let '(l, out) := Log.take_applicable (log n) in (with_log n l, out).

Definition advance_commit_if_solo (n : RaftNode) : RaftNode :=
  if bool_decide (role n <> Leader) || bool_decide (peers (config n) <> []) then n
  else
    let last := Log.last_index (log n) in
    if commit_index n <? last
    then with_log (with_commit n last) (Log.advance_commit (log n) last)
    else n.

(** ** Log replication *)

(** The entries of a request carry the indices after [prev], in order. *)
Definition contiguous (prev : N) (es : list Log.LogEntry) : Prop :=
  forall k e, es !! k = Some e -> Log.index e = prev + 1 + N.of_nat k.

(** [l'] holds, after index [prev], entries with the terms of [es], and agrees
    with [l] up to [prev]; an entry with the requested term that was already
    there is kept. *)
Record replicated (prev : N) (es : list Log.LogEntry) (l l' : Log.RaftLog) : Prop := {
  rep_wf : Log.log_wf l';
  rep_base : Log.base_index l' = Log.base_index l;
  rep_last : prev + len es <= Log.last_index l';
  rep_prefix : forall j, j <= prev -> Log.get l' j = Log.get l j;
  rep_entries : forall e, e ∈ es -> exists e', Log.get l' (Log.index e) = Some e' /\
    Log.term e' = Log.term e /\
    (Log.data e' = Log.data e \/ Log.get l (Log.index e) = Some e');
  rep_suffix : forall j, prev + len es < j -> Log.get l' j = Log.get l j \/ Log.get l' j = None
}.

Lemma append_after_last l t d : Log.log_wf l -> Log.last_index l + 2 < 2 ^ 64 ->
  let l' := (Log.append l t d).1 in
  Log.log_wf l' /\ Log.last_index l' = Log.last_index l + 1 /\
  forall j, Log.get l' j = if j =? Log.last_index l + 1
                           then Some (Log.mkEntry t j d) else Log.get l j.
Proof.
  intros Hw Hr l'. pose proof (Log.append_wf l t d Hw Hr) as Hw'. split_and!; [done| |].
  - rewrite !Log.last_index_eq by done. cbn. rewrite len_app, len_cons, len_nil.
    pose proof (Log.wf_nonempty l Hw). lia.
  - intros j. unfold l'. rewrite Log.append_get by done. by case_cmp; subst.
Qed.

Lemma truncate_last l i : Log.log_wf l -> Log.base_index l <= i -> i <= Log.last_index l ->
  i < 2 ^ 64 - 1 -> Log.last_index (Log.truncate_after l i) = i.
Proof.
  intros Hw Hb Hl Hi. pose proof (Log.truncate_after_wf l i Hw Hi) as Hw'.
  rewrite Log.last_index_eq in Hl by done. rewrite Log.last_index_eq by done.
  pose proof (Log.wf_nonempty l Hw). unfold Log.truncate_after.
  destruct (N.ltb_spec i (Log.base_index l)); [lia|]. rewrite wadd_small by lia.
  destruct (N.ltb_spec (i - Log.base_index l + 1) (len (Log.entries l))); cbn; [|lia].
  unfold len in *. rewrite length_take. lia.
Qed.

Lemma truncate_base l i : Log.base_index (Log.truncate_after l i) = Log.base_index l.
Proof. unfold Log.truncate_after. by repeat case_match. Qed.

(** One entry of the loop, at the next index of the request. *)
Lemma append_entry_step l e : Log.log_wf l -> Log.base_index l < Log.index e ->
  Log.index e <= Log.last_index l + 1 -> Log.index e + 2 < 2 ^ 64 ->
  let l' := append_entry l e in
  Log.log_wf l' /\ Log.base_index l' = Log.base_index l /\
  Log.index e <= Log.last_index l' /\
  (forall j, j < Log.index e -> Log.get l' j = Log.get l j) /\
  (exists e', Log.get l' (Log.index e) = Some e' /\ Log.term e' = Log.term e /\
     (Log.data e' = Log.data e \/ Log.get l (Log.index e) = Some e')) /\
  (forall j, Log.index e < j -> Log.get l' j = Log.get l j \/ Log.get l' j = None).
Proof.
  intros Hw Hb Hl Hr. unfold append_entry.
  destruct (Log.get l (Log.index e)) as [ex|] eqn:Hex.
  - destruct (Log.get_Some _ _ _ Hw Hex) as [_ [_ Hle]].
    destruct (N.eqb_spec (Log.term ex) (Log.term e)) as [Ht|Ht]; cbn zeta; cbn [negb].
    { split_and!; eauto. }
    set (l1 := Log.truncate_after l (Log.index e - 1)).
    assert (Hw1 : Log.log_wf l1) by (apply Log.truncate_after_wf; [done|lia]).
    assert (Hl1 : Log.last_index l1 = Log.index e - 1) by (apply truncate_last; [done|lia..]).
    destruct (append_after_last l1 (Log.term e) (Log.data e)) as (Hw2 & Hl2 & Hg2); [done|lia|].
    rewrite Hl1 in Hg2. split_and!; [done|apply truncate_base|lia|..].
    + intros j Hj. rewrite Hg2. unfold l1. rewrite Log.truncate_after_get by (done || lia).
      case_cmp; done || lia.
    + rewrite Hg2. case_cmp; [|lia]. eexists. split_and!; [done..|]. by left.
    + intros j Hj. rewrite Hg2. unfold l1. rewrite Log.truncate_after_get by (done || lia).
      case_cmp; try lia. by right.
  - apply Log.get_None in Hex; [|done].
    destruct (append_after_last l (Log.term e) (Log.data e)) as (Hw2 & Hl2 & Hg2); [done|lia|].
    split_and!; [done|done|lia|..].
    + intros j Hj. rewrite Hg2. case_cmp; done || lia.
    + rewrite Hg2. case_cmp; [|lia]. eexists. split_and!; [done..|]. by left.
    + intros j Hj. rewrite Hg2. case_cmp; [lia|]. by left.
Qed.

Lemma append_loop_replicates es prev l : Log.log_wf l ->
  Log.base_index l <= prev -> prev <= Log.last_index l ->
  contiguous prev es -> prev + len es + 2 < 2 ^ 64 ->
  replicated prev es l (foldl append_entry l es).
Proof.
  intros Hw Hb Hl Hc Hr. induction es as [|e es IH] using rev_ind.
  - split; cbn; auto; [unfold len; cbn; lia|]. intros e. by rewrite elem_of_nil.
  - rewrite len_app, len_cons, len_nil in Hr. rewrite foldl_snoc.
    assert (He : Log.index e = prev + 1 + len es) by (unfold len; apply Hc; by apply list_lookup_middle).
    destruct IH as [Hw1 Hb1 Hl1 Hp1 He1 Hs1]; [|lia|].
    { intros k e' Hk. apply Hc. by apply lookup_app_l_Some. }
    set (l1 := foldl append_entry l es) in *.
    destruct (append_entry_step l1 e) as (Hw2 & Hb2 & Hl2 & Hp2 & (e' & Hg & Ht & Hd) & Hs2);
      [done|lia..|].
    split; rewrite ?len_app, ?len_cons, ?len_nil; [done|congruence|lia|..].
    + intros j Hj. rewrite Hp2 by lia. auto.
    + intros f [Hf|Hf]%elem_of_app.
      * assert (Hlt : Log.index f < Log.index e).
        { apply list_elem_of_lookup in Hf as [k Hk]. pose proof (lookup_lt_Some _ _ _ Hk).
          rewrite (Hc k f), He by (by apply lookup_app_l_Some). unfold len. lia. }
        rewrite Hp2 by done. auto.
      * apply list_elem_of_singleton in Hf as ->. exists e'. split_and!; [done..|].
        destruct Hd as [?|Hd]; [by left|]. right.
        destruct (Hs1 (Log.index e) ltac:(lia)); congruence.
    + intros j Hj. destruct (Hs2 j ltac:(lia)) as [->| ->]; [|by right]. apply Hs1. lia.
Qed.

Lemma advance_commit_get l i j : Log.get (Log.advance_commit l i) j = Log.get l j.
Proof. unfold Log.advance_commit. by case_match. Qed.

Lemma advance_commit_last l i : Log.last_index (Log.advance_commit l i) = Log.last_index l.
Proof. unfold Log.advance_commit. by case_match. Qed.

Lemma replicated_commit prev es l l' i :
  replicated prev es l l' -> replicated prev es l (Log.advance_commit l' i).
Proof.
  intros [Hw Hb Hl Hp He Hs].
  split; try setoid_rewrite advance_commit_get; auto using Log.advance_commit_wf.
  - rewrite <- Hb. unfold Log.advance_commit. by case_match.
  - by rewrite advance_commit_last.
Qed.

(** What the request's [prev] fields ask of the follower's log. *)
Definition prev_matches (l : Log.RaftLog) (req : AppendEntriesReq) : bool :=
  (ae_prev_log_index req =? 0) ||
  match Log.get l (ae_prev_log_index req) with
  | Some e => Log.term e =? ae_prev_log_term req
  | None => false
  end.

(** C11: AppendEntries on a follower whose log is well formed, for a request whose entries
    are numbered from [prev_log_index + 1] on without a gap, within 64 bits, and
    which builds on an index the follower has not compacted away
    ([base_index <= prev_log_index]): the answer is [success] exactly when the
    request is not from an old term and the follower's log has the entry the
    request builds on; then the follower ends in the leader's term, its log is
    unchanged up to [prev_log_index], and holds at every index of the request
    an entry of the requested term, newly written or the one that was already
    there.  When the answer is a failure no entry is added: the log is as
    before, or cut just before the entry that conflicted.  A follower that has
    compacted its log is outside for requests that reach below the snapshot:
    [compacted_follower_appends_stale] says what it does with them. *)
Theorem append_entries_replicates n req :
  Log.log_wf (log n) -> Log.base_index (log n) <= ae_prev_log_index req ->
  contiguous (ae_prev_log_index req) (ae_entries req) ->
  ae_prev_log_index req + len (ae_entries req) + 2 < 2 ^ 64 ->
  let '(n', resp) := handle_append_entries n req in
  aer_success resp = (current_term n <=? ae_term req) && prev_matches (log n) req /\
  (aer_success resp = true ->
     replicated (ae_prev_log_index req) (ae_entries req) (log n) (log n') /\
     current_term n' = ae_term req /\ role n' = Follower) /\
  (aer_success resp = false ->
     log n' = log n \/ log n' = Log.truncate_after (log n) (ae_prev_log_index req - 1)).
Proof.
  intros Hw Hb Hc Hr.
  set (P := fun r : RaftNode * AppendEntriesResp => aer_success r.2 = true /\
     replicated (ae_prev_log_index req) (ae_entries req) (log n) (log r.1) /\
     current_term r.1 = ae_term req /\ role r.1 = Follower).
  unfold handle_append_entries, prev_matches.
  destruct (N.ltb_spec (ae_term req) (current_term n)) as [Hlt|Hge].
  { rewrite (proj2 (N.leb_gt _ _)) by done. cbn. split_and!; try done. by left. }
  rewrite (proj2 (N.leb_le _ _)) by done. cbn [andb].
  set (n1 := with_role _ _).
  assert (Hn1 : log n1 = log n /\ current_term n1 = ae_term req /\ role n1 = Follower).
  { subst n1. case_cmp; cbn; split_and!; done || lia. }
  destruct Hn1 as (Hlog & Hterm & Hrole). clearbody n1. cbn zeta.
  set (acc := (_, mkAppendEntriesResp _ true _)).
  assert (Hacc : ae_prev_log_index req <= Log.last_index (log n) -> P acc).
  { intros Hl. pose proof (append_loop_replicates _ _ _ Hw Hb Hl Hc Hr) as Hrep.
    unfold P, acc. cbn. rewrite Hlog. case_cmp; cbn; split_and!; auto using replicated_commit. }
  clearbody acc. rewrite Hlog. destruct (N.ltb_spec 0 (ae_prev_log_index req)) as [H0|H0].
  - rewrite (proj2 (N.eqb_neq _ _)) by lia. cbn [orb].
    destruct (Log.get (log n) (ae_prev_log_index req)) as [e|] eqn:He.
    + destruct (Log.term e =? ae_prev_log_term req); cbn [negb].
      * destruct (Log.get_Some _ _ _ Hw He) as [_ [_ Hl]].
        destruct (Hacc Hl) as (Hs & Hrest). destruct acc as [n' resp]. cbn in *.
        rewrite Hs. split_and!; done.
      * cbn. split_and!; try done. intros _. by right.
    + cbn. split_and!; try done. intros _. by left.
  - assert (Hz : ae_prev_log_index req = 0) by lia. rewrite (proj2 (N.eqb_eq _ 0) Hz). cbn [orb].
    destruct Hacc as (Hs & Hrest); [lia|]. destruct acc as [n' resp]. cbn in *.
    rewrite Hs. split_and!; done.
Qed.

Lemma append_entries_replicates_witness :
  let n := new (mkConfig 2 [1; 3] 150 300 50) in
  let req := mkAppendEntriesReq 1 1 0 0 [Log.mkEntry 1 1 [7]; Log.mkEntry 1 2 [8]] 1 in
  let '(n', resp) := handle_append_entries n req in
  aer_success resp = (current_term n <=? ae_term req) && prev_matches (log n) req /\
  (aer_success resp = true ->
     replicated (ae_prev_log_index req) (ae_entries req) (log n) (log n') /\
     current_term n' = ae_term req /\ role n' = Follower) /\
  (aer_success resp = false ->
     log n' = log n \/ log n' = Log.truncate_after (log n) (ae_prev_log_index req - 1)).
Proof.
  apply append_entries_replicates; [apply Log.log_new_wf|by vm_compute| |by vm_compute].
  intros [|[|k]] e; cbn; [by intros [= <-]|by intros [= <-]|done].
Defined.

(** On a follower with a snapshot, an entry below it is taken for one beyond the end
    of the log: with [prev_log_index = 0] nothing is compared, and the follower
    answers [success] and appends the old entry behind its last one, under the
    next index. *)
Theorem compacted_follower_appends_stale n req e : Log.log_wf (log n) -> Log.base_index (log n) + len (Log.entries (log n)) + 1 < 2 ^ 64 ->
  current_term n <= ae_term req -> ae_prev_log_index req = 0 -> ae_entries req = [e] -> Log.index e < Log.base_index (log n) ->
  let '(n', resp) := handle_append_entries n req in
  aer_success resp = true /\
  Log.get (log n') (Log.last_index (log n) + 1) = Some (Log.mkEntry (Log.term e) (Log.last_index (log n) + 1) (Log.data e)).
Proof.
  intros Hw Hr Ht Hp He Hi. unfold handle_append_entries. rewrite (proj2 (N.ltb_ge _ _)) by lia. rewrite Hp, He. cbn [N.ltb N.compare foldl].
  set (n1 := with_role _ _). assert (Hl : log n1 = log n) by (subst n1; by case_cmp). clearbody n1. rewrite Hl.
  assert (Ha : append_entry (log n) e = (Log.append (log n) (Log.term e) (Log.data e)).1).
  { unfold append_entry, Log.get. by rewrite (proj2 (N.ltb_lt _ _) Hi). }
  rewrite Ha. split; [done|].
  assert (Hg : Log.get (Log.append (log n) (Log.term e) (Log.data e)).1 (Log.last_index (log n) + 1) =
    Some (Log.mkEntry (Log.term e) (Log.last_index (log n) + 1) (Log.data e))).
  { pose proof (Log.wf_nonempty _ Hw). unfold Log.append, Log.get, Log.last_index. cbn [fst Log.base_index Log.entries]. rewrite !wadd_small by lia.
    rewrite (proj2 (N.ltb_ge _ _)) by lia. rewrite lookup_app_r by (unfold len in *; lia).
    replace (N.to_nat _ - length _)%nat with 0%nat by (unfold len in *; lia). cbn. do 2 f_equal. lia. }
  case_cmp; cbn [log with_log with_commit]; [by rewrite advance_commit_get|exact Hg].
Qed.

(** ** Commitment

    Three members.  Node 2 wins term 1 with node 1's vote and appends [x] to its
    own log only; node 3 wins term 2 with node 1's vote; node 3's first
    heartbeat reaches node 2, and a client's [y] is proposed to node 3 while
    that heartbeat is under way.  Every message is one a handler emitted. *)

Definition trio (i : N) : RaftConfig := mkConfig i (filter (fun p => p <> i) [1; 2; 3]) 150 300 50.
Definition vote_req (t c : N) : RequestVoteReq := mkRequestVoteReq t c 0 0.

Definition a1 : RaftNode * RequestVoteResp := handle_request_vote (new (trio 1)) (vote_req 1 2).
Definition b1 : RaftNode := (handle_vote_response (start_election (new (trio 2))).1 1 a1.2).1.
Definition b2 : RaftNode := (propose b1 [120]).1.
Definition c1 : RaftNode := (start_election (new (trio 3))).1.
Definition a2 : RaftNode * RequestVoteResp := handle_request_vote a1.1 (vote_req 2 3).
Definition c2 : RaftNode := (handle_vote_response (start_election c1).1 1 a2.2).1.
Definition c3 : RaftNode := (propose c2 [121]).1.

(** The heartbeat node 3 computed for node 2 before the proposal. *)
Definition beat : AppendEntriesReq := mkAppendEntriesReq 2 3 0 0 [] 0.
Definition b3 : RaftNode * AppendEntriesResp := handle_append_entries b2 beat.
Definition c4 : RaftNode := handle_append_response c3 2 b3.2.

(** The leader can commit an entry that no other member holds.  A follower
    acknowledges a heartbeat with the last index of its own log, entries the
    leader never sent included, and the leader counts it as a match: after the
    exchange above node 3 is leader of term 2 and its commit index covers [y],
    which is in no other log; node 2 holds [x] at that index. *)
Theorem commit_without_replication :
  (1, vote_req 1 2) ∈ (start_election (new (trio 2))).2 /\
  (1, vote_req 2 3) ∈ (start_election c1).2 /\
  (2, beat) ∈ heartbeat c2 /\
  role c4 = Leader /\ current_term c4 = 2 /\ commit_index c4 = 1 /\
  Log.get (log c4) 1 = Some (Log.mkEntry 2 1 [121]) /\
  Log.get (log b3.1) 1 = Some (Log.mkEntry 1 1 [120]) /\
  Log.get (log a2.1) 1 = None.
Proof.
  split_and!; try (by vm_compute); apply (bool_decide_unpack _); by vm_compute.
Qed.

End Node.
