(* ===== verification/RaftElection.v ===== *)
(** * Election safety

    Composes the handlers of [RaftNode] the way [crates/raft/src/cluster.rs]
    composes them: each member runs an election thread ([spawn_election_timer])
    that, after a timeout, calls [start_election], then sends the vote requests
    to its peers one after the other and hands each answer to
    [handle_vote_response]; the listener thread hands incoming requests to
    [handle_request_vote].  Requests can be lost, delayed, and handled more
    than once (the transport resends a request on a fresh connection).  An
    answer reaches the call that is waiting for it, or nobody: this is what
    [RpcTransport::send_request_vote] promises its caller.  All other handlers
    may run at any time with arbitrary messages.  The theorem: a term has at
    most one leader. *)

From stdpp Require Import gmap.
From S2P Require Import Prelude Bytes RaftLog RaftNode.
Import Node.

Module Election.

(** The election thread of a member: the requests still to be sent, and the one
    whose answer it waits for. *)
Record thread : Type := mkThread {
  waiting : option (N * RequestVoteReq);
  todo : list (N * RequestVoteReq)
}.

Definition pending (th : thread) : list (N * RequestVoteReq) :=
  option_list (waiting th) ++ todo th.

Definition idle : thread := mkThread None [].

(** [history] is a history variable: the vote each member cast in each term. *)
Record sys : Type := mkSys {
  nodes : gmap N RaftNode;
  threads : gmap N thread;
  sent : list (N * RequestVoteReq);
  replies : list (N * RequestVoteReq * RequestVoteResp);
  history : gmap (N * N) N
}.

Definition record_vote (h : gmap (N * N) N) (i : N) (n : RaftNode) : gmap (N * N) N :=
  match voted_for n with
  | Some c => <[(i, current_term n) := c]> h
  | None => h
  end.

Definition set_node (s : sys) (i : N) (n : RaftNode) : sys :=
  mkSys (<[i := n]> (nodes s)) (threads s) (sent s) (replies s) (record_vote (history s) i n).

Definition set_thread (s : sys) (i : N) (th : thread) : sys :=
  mkSys (nodes s) (<[i := th]> (threads s)) (sent s) (replies s) (history s).

(** The handlers that take no part in voting, on any message. *)
Inductive local_step : RaftNode -> RaftNode -> Prop :=
  | ls_append_entries n req : local_step n (handle_append_entries n req).1
  | ls_append_response n from resp : local_step n (handle_append_response n from resp)
  | ls_propose n d : local_step n (propose n d).1
  | ls_install_snapshot n req : local_step n (handle_install_snapshot n req).1
  | ls_create_snapshot n i d : local_step n (create_snapshot n i d)
  | ls_take_applicable n : local_step n (take_applicable n).1
  | ls_commit_solo n : local_step n (advance_commit_if_solo n).

Inductive step : sys -> sys -> Prop :=
  | step_local s i n n' :
      nodes s !! i = Some n -> local_step n n' -> step s (set_node s i n')
  | step_timeout s i n n' reqs :
      nodes s !! i = Some n -> threads s !! i = Some idle -> role n <> Leader ->
      current_term n < u64_max -> start_election n = (n', reqs) ->
      step s (set_thread (set_node s i n') i (mkThread None reqs))
  | step_send s i p req rest :
      threads s !! i = Some (mkThread None ((p, req) :: rest)) ->
      step s (mkSys (nodes s) (<[i := mkThread (Some (p, req)) rest]> (threads s))
                ((p, req) :: sent s) (replies s) (history s))
  | step_unknown_peer s i p req rest :
      threads s !! i = Some (mkThread None ((p, req) :: rest)) ->
      step s (set_thread s i (mkThread None rest))
  | step_vote s p req n n' resp :
      (p, req) ∈ sent s -> nodes s !! p = Some n ->
      handle_request_vote n req = (n', resp) ->
      step s (mkSys (<[p := n']> (nodes s)) (threads s) (sent s)
                ((p, req, resp) :: replies s) (record_vote (history s) p n'))
  | step_reply s i p req rest resp n :
      threads s !! i = Some (mkThread (Some (p, req)) rest) ->
      (p, req, resp) ∈ replies s -> nodes s !! i = Some n ->
      step s (set_thread (set_node s i (handle_vote_response n p resp).1) i (mkThread None rest))
  | step_lost s i pr rest :
      threads s !! i = Some (mkThread (Some pr) rest) ->
      step s (set_thread s i (mkThread None rest)).

Section Cluster.
Variable members : gset N.
Variable cfg : N -> RaftConfig.

(** Every member's configuration lists exactly the other members. *)
Definition cfg_ok : Prop := forall i, i ∈ members ->
  node_id (cfg i) = i /\ NoDup (peers (cfg i)) /\ list_to_set (peers (cfg i)) = members ∖ {[i]}.

Definition init : sys :=
  mkSys (set_to_map (fun i => (i, Node.new (cfg i))) members)
        (set_to_map (fun i => (i, idle)) members) [] [] ∅.

Record inv (s : sys) : Prop := {
  inv_node : forall i n, nodes s !! i = Some n -> i ∈ members /\ config n = cfg i;
  inv_hist_now : forall i n, nodes s !! i = Some n ->
    history s !! (i, current_term n) = voted_for n;
  inv_hist_later : forall i n t, nodes s !! i = Some n -> current_term n < t ->
    history s !! (i, t) = None;
  inv_reply : forall p req resp, (p, req, resp) ∈ replies s -> rvr_vote_granted resp = true ->
    rvr_term resp = rv_term req /\ history s !! (p, rv_term req) = Some (rv_candidate_id req);
  inv_thread : forall i th, threads s !! i = Some th ->
    NoDup (pending th).*1 /\
    forall n, nodes s !! i = Some n -> forall p req, (p, req) ∈ pending th ->
      rv_candidate_id req = i /\ p ∈ members /\
      (role n <> Follower -> rv_term req = current_term n);
  inv_votes : forall i n, nodes s !! i = Some n -> role n <> Follower ->
    exists V : gset N, V ⊆ members /\ N.of_nat (size V) = votes_received n /\
      (forall v, v ∈ V -> history s !! (v, current_term n) = Some i) /\
      (forall th p req, threads s !! i = Some th -> (p, req) ∈ pending th -> p ∉ V);
  inv_leader : forall i n, nodes s !! i = Some n -> role n = Leader ->
    quorum n <= votes_received n
}.
End Cluster.

(** ** Steps of a node that cannot win an election *)

(** The term grows or the vote is kept; a role other than follower is only kept
    within the term. *)
Record passive (n n' : RaftNode) : Prop := {
  ps_config : config n' = config n;
  ps_votes : votes_received n' = votes_received n;
  ps_term : current_term n <= current_term n';
  ps_vote : current_term n' = current_term n ->
    voted_for n' = voted_for n \/ voted_for n = None;
  ps_role : role n' <> Follower -> role n' = role n /\ current_term n' = current_term n
}.

Lemma passive_refl n : passive n n.
Proof. split; auto. Qed.

Ltac solve_passive :=
  repeat (case_match; cbn in *); split; cbn in *;
  try done; try lia; try (intros; lia); try (by auto); try (by intros; split; auto; lia).

Lemma local_step_passive n n' : local_step n n' -> passive n n'.
Proof.
  destruct 1; unfold handle_append_entries, handle_append_response, propose,
    handle_install_snapshot, create_snapshot, take_applicable, advance_commit_if_solo;
    case_cmp; try (case_bool_decide; cbn); solve_passive.
Qed.

Lemma request_vote_passive n req : passive n (handle_request_vote n req).1.
Proof.
  unfold handle_request_vote. case_cmp; cbn; [apply passive_refl|..];
  repeat case_bool_decide; solve_passive.
Qed.

Lemma request_vote_granted n req n' resp :
  handle_request_vote n req = (n', resp) -> rvr_vote_granted resp = true ->
  rvr_term resp = rv_term req /\ current_term n' = rv_term req /\
  voted_for n' = Some (rv_candidate_id req).
Proof.
  unfold handle_request_vote. intros H Hg. revert H.
  destruct (N.ltb_spec (rv_term req) (current_term n)); [intros [= <- <-]; done|].
  destruct (N.ltb_spec (current_term n) (rv_term req)); cbn;
    repeat case_match; intros [= <- <-]; try done; cbn; split_and!; done || lia.
Qed.

(** ** Preservation of the invariant *)

Lemma record_vote_ne h i n j t : (j, t) <> (i, current_term n) ->
  record_vote h i n !! (j, t) = h !! (j, t).
Proof. intros. unfold record_vote. destruct (voted_for n); [|done]. by apply lookup_insert_ne. Qed.

Lemma record_vote_id h i n : h !! (i, current_term n) = voted_for n -> record_vote h i n = h.
Proof. intros H. unfold record_vote. destruct (voted_for n); [|done]. by apply insert_id. Qed.

Section Preservation.
Variable members : gset N.
Variable cfg : N -> RaftConfig.
Hypothesis Hcfg : cfg_ok members cfg.
Implicit Types s : sys.

Lemma peer_member i p : i ∈ members -> p ∈ peers (cfg i) -> p ∈ members /\ p <> i.
Proof.
  intros Hi Hp. destruct (Hcfg i Hi) as (_ & _ & Hset).
  apply (elem_of_list_to_set (C := gset N)) in Hp. rewrite Hset in Hp.
  apply elem_of_difference in Hp as [? Hne]. split; [done|].
  intros ->. by apply Hne, elem_of_singleton.
Qed.

Lemma record_vote_mono s i n n' : inv members cfg s -> nodes s !! i = Some n -> passive n n' ->
  history s ⊆ record_vote (history s) i n'.
Proof.
  intros Hi Hn Hp. unfold record_vote. destruct (voted_for n') as [c|] eqn:Hc; [|done].
  destruct (decide (current_term n' = current_term n)) as [He|Hne].
  - pose proof (inv_hist_now _ _ _ Hi _ _ Hn) as Hh. rewrite <- He in Hh.
    destruct (ps_vote _ _ Hp He) as [Hv|Hv].
    + rewrite insert_id; [done|]. congruence.
    + apply insert_subseteq. congruence.
  - apply insert_subseteq, (inv_hist_later _ _ _ Hi _ _ _ Hn).
    pose proof (ps_term _ _ Hp). lia.
Qed.

Lemma record_vote_now s i n n' : inv members cfg s -> nodes s !! i = Some n -> passive n n' ->
  record_vote (history s) i n' !! (i, current_term n') = voted_for n'.
Proof.
  intros Hi Hn Hp. unfold record_vote. destruct (voted_for n') as [c|] eqn:Hc.
  - by rewrite lookup_insert_eq.
  - destruct (decide (current_term n' = current_term n)) as [He|Hne].
    + pose proof (inv_hist_now _ _ _ Hi _ _ Hn) as Hh. rewrite He, Hh.
      destruct (ps_vote _ _ Hp He); congruence.
    + apply (inv_hist_later _ _ _ Hi _ _ _ Hn). pose proof (ps_term _ _ Hp). lia.
Qed.

Lemma inv_passive s i n n' : inv members cfg s -> nodes s !! i = Some n -> passive n n' ->
  inv members cfg (set_node s i n').
Proof.
  intros Hi Hn Hp. pose proof (record_vote_mono _ _ _ _ Hi Hn Hp) as Hm.
  pose proof (record_vote_now _ _ _ _ Hi Hn Hp) as Hnow.
  pose proof (ps_term _ _ Hp) as Ht. split; cbn.
  - intros j m. rewrite lookup_insert_Some. intros [[<- <-]|[Hne Hm']].
    + rewrite (ps_config _ _ Hp). by apply Hi.
    + by apply Hi.
  - intros j m. rewrite lookup_insert_Some. intros [[<- <-]|[Hne Hm']]; [done|].
    rewrite record_vote_ne by congruence. by apply Hi.
  - intros j m t. rewrite lookup_insert_Some. intros [[<- <-]|[Hne Hm']] Hlt.
    + rewrite record_vote_ne by (intros [=]; lia). eapply Hi; [done|lia].
    + rewrite record_vote_ne by congruence. by eapply Hi.
  - intros p req resp Hr Hg. destruct (inv_reply _ _ _ Hi _ _ _ Hr Hg) as [? Hh].
    split; [done|]. by eapply lookup_weaken.
  - intros j th Hth. destruct (inv_thread _ _ _ Hi _ _ Hth) as [Hnd Hreq]. split; [done|].
    intros m. rewrite lookup_insert_Some. intros [[<- <-]|[Hne Hm']] p req Hin.
    + destruct (Hreq n Hn p req Hin) as (? & ? & Hterm). split_and!; [done..|].
      intros Hr. destruct (ps_role _ _ Hp Hr) as [Hr' ->]. apply Hterm. congruence.
    + by apply Hreq.
  - intros j m. rewrite lookup_insert_Some. intros [[<- <-]|[Hne Hm']] Hr.
    + destruct (ps_role _ _ Hp Hr) as [Hr' Ht'].
      destruct (inv_votes _ _ _ Hi i n Hn ltac:(congruence)) as (V & ? & ? & HV & ?).
      exists V. rewrite (ps_votes _ _ Hp), Ht'. split_and!; try done.
      intros v Hv. eapply lookup_weaken; [by apply HV|done].
    + destruct (inv_votes _ _ _ Hi j m Hm' Hr) as (V & ? & ? & HV & ?).
      exists V. split_and!; try done. intros v Hv. eapply lookup_weaken; [by apply HV|done].
  - intros j m. rewrite lookup_insert_Some. intros [[<- <-]|[Hne Hm']] Hr; [|by eapply Hi].
    destruct (ps_role _ _ Hp ltac:(congruence)) as [Hr' Ht'].
    unfold quorum. rewrite (ps_votes _ _ Hp), (ps_config _ _ Hp).
    eapply (inv_leader _ _ _ Hi); [done|congruence].
Qed.

(** Dropping requests from a thread keeps the invariant. *)
Lemma inv_thread_shrink s i th th' : inv members cfg s -> threads s !! i = Some th ->
  pending th' `sublist_of` pending th -> inv members cfg (set_thread s i th').
Proof.
  intros Hi Hth Hsub. split; cbn; try apply Hi.
  - intros j th1. rewrite lookup_insert_Some. intros [[<- <-]|[Hne Hj]]; [|by apply Hi].
    destruct (inv_thread _ _ _ Hi _ _ Hth) as [Hnd Hreq]. split.
    + eapply sublist_NoDup; [exact Hnd|]. by apply fmap_sublist.
    + intros n Hn p req Hin. apply Hreq; [done|]. eapply elem_of_sublist; eauto.
  - intros j n Hn Hr. destruct (inv_votes _ _ _ Hi _ _ Hn Hr) as (V & ? & ? & ? & Hd).
    exists V. split_and!; try done. intros th1 p req. rewrite lookup_insert_Some.
    intros [[<- <-]|[Hne Hj]] Hin; [|by eapply Hd].
    eapply Hd; [done|]. eapply elem_of_sublist; eauto.
Qed.
Lemma inv_add_reply s p req resp :
  inv members cfg s ->
  (rvr_vote_granted resp = true -> rvr_term resp = rv_term req /\
     history s !! (p, rv_term req) = Some (rv_candidate_id req)) ->
  inv members cfg (mkSys (nodes s) (threads s) (sent s) ((p, req, resp) :: replies s) (history s)).
Proof.
  intros Hi Hr. split; cbn; try apply Hi.
  intros p' req' resp'. rewrite elem_of_cons. intros [[= -> -> ->]|Hin]; [done|]. by apply Hi.
Qed.

Lemma inv_step_vote s p req n n' resp : inv members cfg s ->
  nodes s !! p = Some n -> handle_request_vote n req = (n', resp) ->
  inv members cfg (mkSys (<[p := n']> (nodes s)) (threads s) (sent s)
     ((p, req, resp) :: replies s) (record_vote (history s) p n')).
Proof.
  intros Hi Hn Hv. assert (Hp : passive n n').
  { replace n' with (handle_request_vote n req).1 by (by rewrite Hv). apply request_vote_passive. }
  apply (inv_add_reply (set_node s p n')); [by eapply inv_passive|].
  intros Hg. destruct (request_vote_granted _ _ _ _ Hv Hg) as (? & Ht & Hf). split; [done|].
  rewrite <- Ht, <- Hf. by eapply record_vote_now.
Qed.

(** The state after [start_election], up to the leader's bookkeeping. *)
Lemma start_election_spec n n' reqs : current_term n < u64_max -> start_election n = (n', reqs) ->
  config n' = config n /\ current_term n' = current_term n + 1 /\
  voted_for n' = Some (node_id (config n)) /\ votes_received n' = 1 /\
  (role n' = Leader -> quorum n' <= 1) /\ role n' <> Follower /\
  reqs.*1 `sublist_of` peers (config n) /\
  forall p req, (p, req) ∈ reqs -> rv_candidate_id req = node_id (config n) /\
    rv_term req = current_term n + 1.
Proof.
  intros Ht. unfold u64_max in Ht. unfold start_election. cbn.
  rewrite wadd_small by lia. case_cmp; intros [= <- <-]; cbn; split_and!; try done.
  - apply sublist_nil_l.
  - intros p req. by rewrite elem_of_nil.
  - rewrite <- list_fmap_compose. cbn. rewrite list_fmap_id. done.
  - intros p req (q & [= -> ->] & _)%list_elem_of_fmap. done.
Qed.

Lemma inv_step_timeout s i n n' reqs : inv members cfg s ->
  nodes s !! i = Some n -> threads s !! i = Some idle ->
  current_term n < u64_max -> start_election n = (n', reqs) ->
  inv members cfg (set_thread (set_node s i n') i (mkThread None reqs)).
Proof.
  intros Hi Hn Hidle Ht Hs.
  destruct (start_election_spec _ _ _ Ht Hs) as (Hc & Ht' & Hv & Hvr & Hl & Hr & Hsub & Hreq).
  destruct (inv_node _ _ _ Hi _ _ Hn) as [Him Hci]. destruct (Hcfg i Him) as (Hid & Hnd & Hset).
  rewrite Hci in Hv, Hsub, Hreq. rewrite Hid in Hv, Hreq.
  assert (Hpeer : forall p req, (p, req) ∈ reqs -> p ∈ peers (cfg i)).
  { intros p req Hin. eapply elem_of_sublist; [|exact Hsub].
    apply list_elem_of_fmap. by exists (p, req). }
  assert (Hrec : record_vote (history s) i n' = <[(i, current_term n + 1) := i]> (history s)).
  { unfold record_vote. by rewrite Hv, Ht'. }
  assert (Hm : history s ⊆ record_vote (history s) i n').
  { rewrite Hrec. apply insert_subseteq, (inv_hist_later _ _ _ Hi _ _ _ Hn). lia. }
  split; cbn.
  - intros j m. rewrite lookup_insert_Some. intros [[<- <-]|[_ ?]]; [|by apply Hi].
    rewrite Hc. by apply Hi.
  - intros j m. rewrite lookup_insert_Some. intros [[<- <-]|[? ?]].
    + by rewrite Hrec, Ht', Hv, lookup_insert_eq.
    + rewrite record_vote_ne by congruence. by apply Hi.
  - intros j m t. rewrite lookup_insert_Some. intros [[<- <-]|[? ?]] Hlt.
    + rewrite record_vote_ne by (intros [=]; lia). eapply Hi; [done|lia].
    + rewrite record_vote_ne by congruence. by eapply Hi.
  - intros p req resp Hp Hg. destruct (inv_reply _ _ _ Hi _ _ _ Hp Hg) as [? Hh].
    split; [done|]. by eapply lookup_weaken.
  - intros j th. rewrite lookup_insert_Some. intros [[<- <-]|[? Hth]]; cbn.
    + split; [by eapply sublist_NoDup|]. intros m. rewrite lookup_insert_eq.
      intros [= <-] p req Hin. destruct (Hreq p req Hin) as [? ?]. split_and!; [done| |lia].
      by apply (peer_member i p), (Hpeer p req).
    + destruct (inv_thread _ _ _ Hi _ _ Hth) as [? Hp]. split; [done|].
      intros m. rewrite lookup_insert_ne by done. apply Hp.
  - intros j m. rewrite lookup_insert_Some. intros [[<- <-]|[? Hm']] Hr'.
    + exists {[i]}. rewrite size_singleton, Hvr. split_and!; [by apply singleton_subseteq_l|done| |].
      * intros v ->%elem_of_singleton. rewrite Hrec, Ht'. apply lookup_insert_eq.
      * intros th p req. rewrite lookup_insert_eq. intros [= <-] Hin ->%elem_of_singleton.
        by apply (peer_member i i Him (Hpeer i req Hin)).
    + destruct (inv_votes _ _ _ Hi j m Hm' Hr') as (V & ? & ? & HV & Hd).
      exists V. split_and!; try done.
      * intros v Hv'. eapply lookup_weaken; [by apply HV|done].
      * intros th p req. rewrite lookup_insert_ne by done. apply Hd.
  - intros j m. rewrite lookup_insert_Some. intros [[<- <-]|[? ?]] Hr'; [|by eapply Hi].
    rewrite Hvr. by apply Hl.
Qed.

(** A granted vote that the candidate was waiting for. *)
Lemma inv_count_vote s i p req rest n n' :
  inv members cfg s -> threads s !! i = Some (mkThread (Some (p, req)) rest) ->
  nodes s !! i = Some n -> role n = Candidate ->
  history s !! (p, rv_term req) = Some (rv_candidate_id req) ->
  config n' = config n -> current_term n' = current_term n -> voted_for n' = voted_for n ->
  votes_received n' = votes_received n + 1 -> role n' <> Follower ->
  (role n' = Leader -> quorum n' <= votes_received n') ->
  inv members cfg (set_thread (set_node s i n') i (mkThread None rest)).
Proof.
  intros Hi Hth Hn Hrole Hh Hc Ht Hv Hvr Hr Hl.
  destruct (inv_thread _ _ _ Hi _ _ Hth) as [Hnd Hreq].
  destruct (Hreq n Hn p req) as (Hcand & Hpm & Hterm); [by left|].
  rewrite Hcand, Hterm in Hh by congruence.
  destruct (inv_votes _ _ _ Hi i n Hn ltac:(congruence)) as (V & HVm & HVs & HV & Hd).
  assert (HpV : p ∉ V) by (eapply Hd; [done|by left]).
  pose proof (inv_hist_now _ _ _ Hi _ _ Hn) as Hnow.
  split; cbn; rewrite ?record_vote_id by congruence.
  - intros j m. rewrite lookup_insert_Some. intros [[<- <-]|[_ ?]]; [|by apply Hi].
    rewrite Hc. by apply Hi.
  - intros j m. rewrite lookup_insert_Some. intros [[<- <-]|[? ?]]; [congruence|by apply Hi].
  - intros j m t. rewrite lookup_insert_Some. intros [[<- <-]|[? ?]] Hlt; [|by eapply Hi].
    eapply Hi; [done|lia].
  - apply Hi.
  - intros j th. rewrite lookup_insert_Some. intros [[<- <-]|[? Hth']]; cbn.
    + split; [by apply NoDup_cons in Hnd as [_ ?]|].
      intros m. rewrite lookup_insert_eq. intros [= <-] q r Hin.
      destruct (Hreq n Hn q r) as (? & ? & Hq); [by right|].
      split_and!; [done..|]. intros _. rewrite Ht. apply Hq. congruence.
    + destruct (inv_thread _ _ _ Hi _ _ Hth') as [? Hp]. split; [done|].
      intros m. rewrite lookup_insert_ne by done. apply Hp.
  - intros j m. rewrite lookup_insert_Some. intros [[<- <-]|[? Hm']] Hr'.
    + exists ({[p]} ∪ V). rewrite size_union, size_singleton by (by apply disjoint_singleton_l).
      rewrite Hvr, Ht. split_and!; [by apply union_subseteq; rewrite singleton_subseteq_l|lia| |].
      * intros v [->%elem_of_singleton|Hv']%elem_of_union; [done|by apply HV].
      * intros th q r. rewrite lookup_insert_eq. intros [= <-] Hin.
        apply not_elem_of_union. split; [|eapply Hd; [done|by right]].
        intros ->%elem_of_singleton. cbn in Hnd. apply NoDup_cons in Hnd as [Hni _].
        apply Hni, list_elem_of_fmap. by exists (p, r).
    + destruct (inv_votes _ _ _ Hi j m Hm' Hr') as (V' & ? & ? & ? & Hd').
      exists V'. split_and!; try done. intros th q r. rewrite lookup_insert_ne by done. apply Hd'.
  - intros j m. rewrite lookup_insert_Some. intros [[<- <-]|[? ?]] Hr'; [by apply Hl|by eapply Hi].
Qed.

Lemma inv_step_reply s i p req rest resp n : inv members cfg s ->
  threads s !! i = Some (mkThread (Some (p, req)) rest) ->
  (p, req, resp) ∈ replies s -> nodes s !! i = Some n ->
  inv members cfg
    (set_thread (set_node s i (handle_vote_response n p resp).1) i (mkThread None rest)).
Proof.
  intros Hi Hth Hin Hn.
  assert (Hquiet : forall n', passive n n' ->
    inv members cfg (set_thread (set_node s i n') i (mkThread None rest))).
  { intros n' Hp. eapply inv_thread_shrink; [by eapply inv_passive|exact Hth|].
    by apply sublist_cons. }
  unfold handle_vote_response.
  destruct (N.ltb_spec (current_term n) (rvr_term resp)); [apply Hquiet; solve_passive|].
  case_bool_decide as Hrole; [apply Hquiet, passive_refl|].
  destruct (rvr_vote_granted resp) eqn:Hg; [|apply Hquiet, passive_refl].
  destruct (inv_reply _ _ _ Hi _ _ _ Hin Hg) as [_ Hh].
  cbn. case_cmp; eapply inv_count_vote; try done; cbn;
    congruence.
Qed.

Lemma inv_init : inv members cfg (init members cfg).
Proof.
  assert (Hnode : forall i n, nodes (init members cfg) !! i = Some n ->
    i ∈ members /\ n = Node.new (cfg i)).
  { intros i n. cbn. rewrite lookup_set_to_map by done. intros (j & ? & [= -> ->]). done. }
  split; cbn.
  - intros i n [? ->]%Hnode. done.
  - intros i n [? ->]%Hnode. done.
  - intros. by apply lookup_empty.
  - intros p req resp. by rewrite elem_of_nil.
  - intros i th. rewrite lookup_set_to_map by done. intros (j & ? & [= -> <-]).
    split; [constructor|]. intros ? ? p req. cbn. by rewrite elem_of_nil.
  - intros i n [? ->]%Hnode. done.
  - intros i n [? ->]%Hnode. done.
Qed.

(** The invariant does not speak of the requests on the wire. *)
Lemma inv_any_sent s reqs : inv members cfg s ->
  inv members cfg (mkSys (nodes s) (threads s) reqs (replies s) (history s)).
Proof. intros Hi. split; apply Hi. Qed.

Lemma inv_step s s' : inv members cfg s -> step s s' -> inv members cfg s'.
Proof.
  intros Hi Hstep. revert Hi.
  destruct Hstep as [s1 i n n' Hn Hl|s1 i n n' reqs Hn Hth _ Ht Hs|s1 i p req rest Hth|s1 i p req rest Hth
            |s1 p req n n' resp _ Hn Hv|s1 i p req rest resp n Hth Hr Hn|s1 i pr rest Hth]; intros Hi.
  - eapply inv_passive; eauto using local_step_passive.
  - by eapply inv_step_timeout.
  - apply (inv_any_sent (set_thread s1 i (mkThread (Some (p, req)) rest))).
    by eapply inv_thread_shrink.
  - eapply inv_thread_shrink; [done..|]. by apply sublist_cons.
  - by eapply inv_step_vote.
  - by eapply inv_step_reply.
  - eapply inv_thread_shrink; [done..|]. by apply sublist_cons.
Qed.

Lemma inv_reachable s : rtc step (init members cfg) s -> inv members cfg s.
Proof.
  intros Hr. assert (Hgen : forall s0, inv members cfg s0 -> rtc step s0 s -> inv members cfg s).
  { induction 2; eauto using inv_step. }
  eauto using inv_init.
Qed.

(** ** Quorums intersect *)

Lemma cluster_size i : i ∈ members -> N.of_nat (size members) = len (peers (cfg i)) + 1.
Proof.
  intros Hi. destruct (Hcfg i Hi) as (_ & Hnd & Hset).
  assert (Hs : size members = S (size (members ∖ {[i]}))).
  { rewrite (union_difference_L {[i]} members) at 1 by (by apply singleton_subseteq_l).
    rewrite size_union by (apply disjoint_singleton_l; rewrite elem_of_difference, elem_of_singleton; tauto).
    by rewrite size_singleton. }
  rewrite Hs, <- Hset, size_list_to_set by done. unfold len. lia.
Qed.

Lemma quorum_intersection (U V : gset N) n : U ⊆ members -> V ⊆ members ->
  N.of_nat (size members) = len (peers (config n)) + 1 ->
  quorum n <= N.of_nat (size U) -> quorum n <= N.of_nat (size V) ->
  exists v, v ∈ U /\ v ∈ V.
Proof.
  intros HU HV Hsz Hu Hv. destruct (set_choose_or_empty (U ∩ V)) as [[v Hv']|Hd].
  - exists v. by apply elem_of_intersection in Hv'.
  - exfalso. apply disjoint_intersection in Hd. assert (Hle : (size (U ∪ V) <= size members)%nat).
    { apply subseteq_size. by apply union_subseteq. }
    rewrite size_union in Hle by done. unfold quorum in *.
    pose proof (N.div_mod (len (peers (config n)) + 1) 2).
    pose proof (N.mod_lt (len (peers (config n)) + 1) 2). lia.
Qed.
End Preservation.

(** The supporters of two leaders intersect in a member that voted once. *)
Lemma one_leader members cfg s i j ni nj : cfg_ok members cfg -> inv members cfg s ->
  nodes s !! i = Some ni -> nodes s !! j = Some nj ->
  role ni = Leader -> role nj = Leader -> current_term ni = current_term nj -> i = j.
Proof.
  intros Hcfg Hinv Hi Hj Hli Hlj Ht.
  destruct (inv_votes _ _ _ Hinv i ni Hi ltac:(congruence)) as (U & HU & HUs & HUh & _).
  destruct (inv_votes _ _ _ Hinv j nj Hj ltac:(congruence)) as (V & HV & HVs & HVh & _).
  pose proof (inv_leader _ _ _ Hinv i ni Hi Hli). pose proof (inv_leader _ _ _ Hinv j nj Hj Hlj).
  assert (Hsz : forall k n, nodes s !! k = Some n -> N.of_nat (size members) = len (peers (config n)) + 1).
  { intros k n Hn. destruct (inv_node _ _ _ Hinv _ _ Hn) as [Hk ->]. by apply cluster_size. }
  assert (Hq : quorum nj = quorum ni).
  { unfold quorum. rewrite <- (Hsz i ni Hi), <- (Hsz j nj Hj). done. }
  destruct (quorum_intersection members U V ni) as (v & HvU & HvV); eauto; [lia..|].
  specialize (HUh v HvU). specialize (HVh v HvV). congruence.
Qed.

(** C10: Election safety: in every cluster state that can be reached from the
    initial one by timeouts, vote requests and answers that are lost, delayed
    or handled repeatedly, and any other handler calls with any messages, two
    leaders of the same term are the same node. *)
Theorem election_safety members cfg s i j ni nj :
  cfg_ok members cfg -> rtc step (init members cfg) s ->
  nodes s !! i = Some ni -> nodes s !! j = Some nj ->
  role ni = Leader -> role nj = Leader -> current_term ni = current_term nj -> i = j.
Proof. intros Hcfg Hr. by apply (one_leader members cfg), inv_reachable. Qed.

(** Three members; member 1 times out and member 2 votes for it. *)
Definition three : gset N := {[1; 2; 3]}.
Definition cfg3 (i : N) : RaftConfig := mkConfig i (filter (fun p => p <> i) [1; 2; 3]) 150 300 50.

Lemma cfg3_ok : cfg_ok three cfg3.
Proof.
  intros i Hi. unfold three in Hi. rewrite !elem_of_union, !elem_of_singleton in Hi.
  destruct Hi as [[-> | ->] | ->]; (split; [done|split; [|by vm_compute]]);
    apply (bool_decide_unpack _); by vm_compute.
Qed.

Definition ex_start : RaftNode * list (N * RequestVoteReq) := start_election (Node.new (cfg3 1)).
Definition ex_req : RequestVoteReq := mkRequestVoteReq 1 1 0 0.
Definition ex_voter : RaftNode * RequestVoteResp := handle_request_vote (Node.new (cfg3 2)) ex_req.

Definition ex1 : sys :=
  set_thread (set_node (init three cfg3) 1 ex_start.1) 1 (mkThread None ex_start.2).
Definition ex2 : sys :=
  mkSys (nodes ex1) (<[1 := mkThread (Some (2, ex_req)) [(3, ex_req)]]> (threads ex1))
    ((2, ex_req) :: sent ex1) (replies ex1) (history ex1).
Definition ex3 : sys :=
  mkSys (<[2 := ex_voter.1]> (nodes ex2)) (threads ex2) (sent ex2)
    ((2, ex_req, ex_voter.2) :: replies ex2) (record_vote (history ex2) 2 ex_voter.1).
Definition ex_leader : RaftNode := (handle_vote_response ex_start.1 2 ex_voter.2).1.
Definition ex4 : sys :=
  set_thread (set_node ex3 1 ex_leader) 1 (mkThread None [(3, ex_req)]).

Lemma ex_reachable : rtc step (init three cfg3) ex4.
Proof.
  apply rtc_l with ex1.
  { apply (step_timeout _ 1 (Node.new (cfg3 1))); [by vm_compute..|].
    unfold ex_start. apply surjective_pairing. }
  apply rtc_l with ex2; [by apply (step_send ex1 1 2 ex_req [(3, ex_req)]); vm_compute|].
  apply rtc_l with ex3.
  { apply (step_vote ex2 2 ex_req (Node.new (cfg3 2))); [left|by vm_compute|].
    unfold ex_voter. apply surjective_pairing. }
  apply rtc_once.
  apply (step_reply ex3 1 2 ex_req [(3, ex_req)] ex_voter.2 ex_start.1); [by vm_compute|left|by vm_compute].
Qed.

Lemma election_safety_witness :
  nodes ex4 !! 1 = Some ex_leader /\ role ex_leader = Leader /\
  forall j nj, nodes ex4 !! j = Some nj -> role nj = Leader ->
    current_term ex_leader = current_term nj -> 1 = j.
Proof.
  assert (Hn : nodes ex4 !! 1 = Some ex_leader) by (by vm_compute).
  assert (Hl : role ex_leader = Leader) by (by vm_compute).
  split_and!; [done..|]. intros j nj Hj Hlj Ht.
  exact (election_safety three cfg3 ex4 1 j ex_leader nj cfg3_ok ex_reachable Hn Hj Hl Hlj Ht).
Defined.

End Election.
