(* ===== verification/RaftTransport.v ===== *)
(** * The RPC wire format

    Models [crates/raft/src/transport.rs] up to the sockets: the encoders, the
    decoders over a byte slice and a cursor, the length-prefixed frames and the
    server's [dispatch_rpc].  A decoder returns the value and the new cursor, or
    [None]; a cursor addition that overflows [usize] lies beyond the buffer, so
    the bound check also covers [checked_add]. *)

From S2P Require Import Prelude Bytes RaftLog RaftNode.

Module Transport.

Definition MSG_APPEND_ENTRIES_REQ : N := 1.
Definition MSG_APPEND_ENTRIES_RESP : N := 2.
Definition MSG_REQUEST_VOTE_REQ : N := 3.
Definition MSG_REQUEST_VOTE_RESP : N := 4.
Definition MSG_INSTALL_SNAPSHOT_REQ : N := 5.
Definition MSG_INSTALL_SNAPSHOT_RESP : N := 6.

(** ** Encoding helpers: each returns the buffer with the value appended *)

Definition write_u8 (buf : list N) (v : N) : list N := buf ++ [v].
Definition write_u32_le (buf : list N) (v : N) : list N := buf ++ le_bytes 4 v.
Definition write_u64_le (buf : list N) (v : N) : list N := buf ++ le_bytes 8 v.
Definition write_bool (buf : list N) (v : bool) : list N := buf ++ [if v then 1 else 0].
Definition write_bytes (buf : list N) (d : list N) : list N :=
  write_u32_le buf (u32 (len d)) ++ d.

Definition write_log_entry (buf : list N) (e : Log.LogEntry) : list N :=
  write_bytes (write_u64_le (write_u64_le buf (Log.term e)) (Log.index e)) (Log.data e).

Definition write_log_entries (buf : list N) (es : list Log.LogEntry) : list N :=
  foldl write_log_entry (write_u32_le buf (u32 (len es))) es.

(** ** Decoding helpers *)

Definition read_u8 (d : list N) (pos : N) : option (N * N) :=
  if len d <=? pos then None
  else v ← d !! N.to_nat pos; Some (v, pos + 1).

Definition read_u32_le (d : list N) (pos : N) : option (N * N) :=
  let e := pos + 4 in
  if len d <? e then None else Some (le_value d.[pos; 4], e).

Definition read_u64_le (d : list N) (pos : N) : option (N * N) :=
  let e := pos + 8 in
  if len d <? e then None else Some (le_value d.[pos; 8], e).

Definition read_bool (d : list N) (pos : N) : option (bool * N) :=
  '(v, pos) ← read_u8 d pos; Some (negb (v =? 0), pos).

Definition read_bytes (d : list N) (pos : N) : option (list N * N) :=
  '(n, pos) ← read_u32_le d pos;
  let e := pos + n in
  if len d <? e then None else Some (d.[pos; n], e).

(** The loop [for _ in 0..count]. *)
Fixpoint read_entries_loop (count : nat) (d : list N) (pos : N) : option (list Log.LogEntry * N) :=
  match count with
  | O => Some ([], pos)
  | S count =>
      '(term, pos) ← read_u64_le d pos;
      '(index, pos) ← read_u64_le d pos;
      '(data, pos) ← read_bytes d pos;
      '(es, pos) ← read_entries_loop count d pos;
      Some (Log.mkEntry term index data :: es, pos)
  end.

Definition read_log_entries (d : list N) (pos : N) : option (list Log.LogEntry * N) :=
  '(count, pos) ← read_u32_le d pos; read_entries_loop (N.to_nat count) d pos.

(** ** Messages *)

Definition encode_append_entries_req (req : AppendEntriesReq) : list N :=
  let buf := write_u8 [] MSG_APPEND_ENTRIES_REQ in
  let buf := write_u64_le buf (ae_term req) in
  let buf := write_u64_le buf (ae_leader_id req) in
  let buf := write_u64_le buf (ae_prev_log_index req) in
  let buf := write_u64_le buf (ae_prev_log_term req) in
  let buf := write_log_entries buf (ae_entries req) in
  write_u64_le buf (ae_leader_commit req).

Definition decode_append_entries_req (d : list N) : option AppendEntriesReq :=
  '(tag, pos) ← read_u8 d 0;
  if negb (tag =? MSG_APPEND_ENTRIES_REQ) then None
  else
    '(term, pos) ← read_u64_le d pos;
    '(leader_id, pos) ← read_u64_le d pos;
    '(prev_log_index, pos) ← read_u64_le d pos;
    '(prev_log_term, pos) ← read_u64_le d pos;
    '(entries, pos) ← read_log_entries d pos;
    '(leader_commit, pos) ← read_u64_le d pos;
    Some (mkAppendEntriesReq term leader_id prev_log_index prev_log_term entries leader_commit).

Definition encode_append_entries_resp (resp : AppendEntriesResp) : list N :=
  let buf := write_u8 [] MSG_APPEND_ENTRIES_RESP in
  let buf := write_u64_le buf (aer_term resp) in
  let buf := write_bool buf (aer_success resp) in
  write_u64_le buf (aer_match_index resp).

Definition decode_append_entries_resp (d : list N) : option AppendEntriesResp :=
  '(tag, pos) ← read_u8 d 0;
  if negb (tag =? MSG_APPEND_ENTRIES_RESP) then None
  else
    '(term, pos) ← read_u64_le d pos;
    '(success, pos) ← read_bool d pos;
    '(match_index, pos) ← read_u64_le d pos;
    Some (mkAppendEntriesResp term success match_index).

Definition encode_request_vote_req (req : RequestVoteReq) : list N :=
  let buf := write_u8 [] MSG_REQUEST_VOTE_REQ in
  let buf := write_u64_le buf (rv_term req) in
  let buf := write_u64_le buf (rv_candidate_id req) in
  let buf := write_u64_le buf (rv_last_log_index req) in
  write_u64_le buf (rv_last_log_term req).

Definition decode_request_vote_req (d : list N) : option RequestVoteReq :=
  '(tag, pos) ← read_u8 d 0;
  if negb (tag =? MSG_REQUEST_VOTE_REQ) then None
  else
    '(term, pos) ← read_u64_le d pos;
    '(candidate_id, pos) ← read_u64_le d pos;
    '(last_log_index, pos) ← read_u64_le d pos;
    '(last_log_term, pos) ← read_u64_le d pos;
    Some (mkRequestVoteReq term candidate_id last_log_index last_log_term).

Definition encode_request_vote_resp (resp : RequestVoteResp) : list N :=
  let buf := write_u8 [] MSG_REQUEST_VOTE_RESP in
  let buf := write_u64_le buf (rvr_term resp) in
  write_bool buf (rvr_vote_granted resp).

Definition decode_request_vote_resp (d : list N) : option RequestVoteResp :=
  '(tag, pos) ← read_u8 d 0;
  if negb (tag =? MSG_REQUEST_VOTE_RESP) then None
  else
    '(term, pos) ← read_u64_le d pos;
    '(vote_granted, pos) ← read_bool d pos;
    Some (mkRequestVoteResp term vote_granted).

Definition encode_install_snapshot_req (req : InstallSnapshotReq) : list N :=
  let buf := write_u8 [] MSG_INSTALL_SNAPSHOT_REQ in
  let buf := write_u64_le buf (is_term req) in
  let buf := write_u64_le buf (is_leader_id req) in
  let buf := write_u64_le buf (is_last_included_index req) in
  let buf := write_u64_le buf (is_last_included_term req) in
  write_bytes buf (is_data req).

Definition decode_install_snapshot_req (d : list N) : option InstallSnapshotReq :=
  '(tag, pos) ← read_u8 d 0;
  if negb (tag =? MSG_INSTALL_SNAPSHOT_REQ) then None
  else
    '(term, pos) ← read_u64_le d pos;
    '(leader_id, pos) ← read_u64_le d pos;
    '(last_included_index, pos) ← read_u64_le d pos;
    '(last_included_term, pos) ← read_u64_le d pos;
    '(snap_data, pos) ← read_bytes d pos;
    Some (mkInstallSnapshotReq term leader_id last_included_index last_included_term snap_data).

Definition encode_install_snapshot_resp (resp : InstallSnapshotResp) : list N :=
  let buf := write_u8 [] MSG_INSTALL_SNAPSHOT_RESP in
  write_u64_le buf (isr_term resp).

Definition decode_install_snapshot_resp (d : list N) : option InstallSnapshotResp :=
  '(tag, pos) ← read_u8 d 0;
  if negb (tag =? MSG_INSTALL_SNAPSHOT_RESP) then None
  else
    '(term, pos) ← read_u64_le d pos;
    Some (mkInstallSnapshotResp term).

(** ** Frames: a stream is the list of bytes still to be read *)

Definition send_framed (stream payload : list N) : list N :=
  stream ++ le_bytes 4 (u32 (len payload)) ++ payload.

Definition recv_framed (stream : list N) : option (list N * list N) :=
  if len stream <? 4 then None
  else
    let n := le_value stream.[0; 4] in
    let rest := drop 4 stream in
    if len rest <? n then None
    else Some (rest.[0; n], drop (N.to_nat n) rest).

(** ** The server *)

Definition dispatch_rpc (payload : list N) (node : Node.RaftNode) : option (list N * Node.RaftNode) :=
  match payload with
  | [] => None
  | tag :: _ =>
      if tag =? MSG_APPEND_ENTRIES_REQ then
        req ← decode_append_entries_req payload;
        let '(node, resp) := Node.handle_append_entries node req in
        Some (encode_append_entries_resp resp, node)
      else if tag =? MSG_REQUEST_VOTE_REQ then
        req ← decode_request_vote_req payload;
        let '(node, resp) := Node.handle_request_vote node req in
        Some (encode_request_vote_resp resp, node)
      else if tag =? MSG_INSTALL_SNAPSHOT_REQ then
        req ← decode_install_snapshot_req payload;
        let '(node, resp) := Node.handle_install_snapshot node req in
        Some (encode_install_snapshot_resp resp, node)
      else None
  end.

(** [handle_connection]: serves frames until the stream or a message is bad.
    Each frame takes at least four bytes, so the stream's length is fuel
    enough.  Returns the bytes written back and the node. *)
Fixpoint handle_connection_loop (fuel : nat) (stream out : list N) (node : Node.RaftNode)
    : list N * Node.RaftNode :=
  match fuel with
  | O => (out, node)
  | S fuel =>
      match recv_framed stream with
      | None => (out, node)
      | Some (payload, stream) =>
          match dispatch_rpc payload node with
          | Some (resp, node) => handle_connection_loop fuel stream (send_framed out resp) node
          | None => (out, node)
          end
      end
  end.

Definition handle_connection (stream : list N) (node : Node.RaftNode) : list N * Node.RaftNode :=
  handle_connection_loop (length stream) stream [] node.

(** ** Width conditions: what fits the Rust types *)

Definition entry_ok (e : Log.LogEntry) : Prop :=
  Log.term e < 2 ^ 64 /\ Log.index e < 2 ^ 64 /\ len (Log.data e) < 2 ^ 32.

Definition append_req_ok (req : AppendEntriesReq) : Prop :=
  ae_term req < 2 ^ 64 /\ ae_leader_id req < 2 ^ 64 /\ ae_prev_log_index req < 2 ^ 64 /\
  ae_prev_log_term req < 2 ^ 64 /\ Forall entry_ok (ae_entries req) /\
  len (ae_entries req) < 2 ^ 32 /\ ae_leader_commit req < 2 ^ 64.

Definition append_resp_ok (resp : AppendEntriesResp) : Prop :=
  aer_term resp < 2 ^ 64 /\ aer_match_index resp < 2 ^ 64.

Definition vote_req_ok (req : RequestVoteReq) : Prop :=
  rv_term req < 2 ^ 64 /\ rv_candidate_id req < 2 ^ 64 /\
  rv_last_log_index req < 2 ^ 64 /\ rv_last_log_term req < 2 ^ 64.

Definition snapshot_req_ok (req : InstallSnapshotReq) : Prop :=
  is_term req < 2 ^ 64 /\ is_leader_id req < 2 ^ 64 /\ is_last_included_index req < 2 ^ 64 /\
  is_last_included_term req < 2 ^ 64 /\ len (is_data req) < 2 ^ 32.

(** A request of any kind, its payload, and what the node does with it. *)
Inductive request : Type :=
  | ReqAppend (req : AppendEntriesReq)
  | ReqVote (req : RequestVoteReq)
  | ReqSnapshot (req : InstallSnapshotReq).

Definition request_ok (r : request) : Prop :=
  match r with
  | ReqAppend req => append_req_ok req
  | ReqVote req => vote_req_ok req
  | ReqSnapshot req => snapshot_req_ok req
  end.

Definition encode_request (r : request) : list N :=
  match r with
  | ReqAppend req => encode_append_entries_req req
  | ReqVote req => encode_request_vote_req req
  | ReqSnapshot req => encode_install_snapshot_req req
  end.

Inductive response : Type :=
  | RespAppend (resp : AppendEntriesResp)
  | RespVote (resp : RequestVoteResp)
  | RespSnapshot (resp : InstallSnapshotResp).

Definition handle (node : Node.RaftNode) (r : request) : Node.RaftNode * response :=
  match r with
  | ReqAppend req => let '(n, resp) := Node.handle_append_entries node req in (n, RespAppend resp)
  | ReqVote req => let '(n, resp) := Node.handle_request_vote node req in (n, RespVote resp)
  | ReqSnapshot req => let '(n, resp) := Node.handle_install_snapshot node req in (n, RespSnapshot resp)
  end.

Definition encode_response (r : response) : list N :=
  match r with
  | RespAppend resp => encode_append_entries_resp resp
  | RespVote resp => encode_request_vote_resp resp
  | RespSnapshot resp => encode_install_snapshot_resp resp
  end.

(** The answer as the client of the given request decodes it. *)
Definition decode_response (r : request) (d : list N) : option response :=
  match r with
  | ReqAppend _ => RespAppend <$> decode_append_entries_resp d
  | ReqVote _ => RespVote <$> decode_request_vote_resp d
  | ReqSnapshot _ => RespSnapshot <$> decode_install_snapshot_resp d
  end.

(** The requests of a connection, handled in order. *)
Fixpoint handle_all (node : Node.RaftNode) (rs : list request) : Node.RaftNode * list response :=
  match rs with
  | [] => (node, [])
  | r :: rs =>
      let '(node, resp) := handle node r in
      let '(node, resps) := handle_all node rs in (node, resp :: resps)
  end.

Definition frames (payloads : list (list N)) : list N := foldl send_framed [] payloads.

(** ** Decoding at a cursor *)

Lemma read_u8_at d pos v rest : at_pos d pos (v :: rest) ->
  read_u8 d pos = Some (v, pos + 1) /\ at_pos d (pos + 1) rest.
Proof.
  intros Hat. destruct (at_chunk d pos [v] rest Hat) as (Hr & Hl & Hat').
  rewrite len_cons, len_nil in *. split; [|done]. unfold read_u8. case_cmp; [lia|].
  destruct Hat as [_ Hd]. rewrite <- (Nat.add_0_r (N.to_nat pos)), <- lookup_drop, Hd. done.
Qed.

Lemma read_u64_le_at d pos v rest : v < 2 ^ 64 -> at_pos d pos (le_bytes 8 v ++ rest) ->
  read_u64_le d pos = Some (v, pos + 8) /\ at_pos d (pos + 8) rest.
Proof.
  intros Hv Hat. destruct (at_chunk _ _ _ _ Hat) as (Hr & Hl & Hat').
  rewrite len_le_bytes in *. change (N.of_nat 8) with 8 in *. split; [|done].
  unfold read_u64_le. case_cmp; [lia|]. rewrite Hr, le_value_le_bytes_small by done. done.
Qed.

Lemma read_u32_le_at d pos v rest : v < 2 ^ 32 -> at_pos d pos (le_bytes 4 v ++ rest) ->
  read_u32_le d pos = Some (v, pos + 4) /\ at_pos d (pos + 4) rest.
Proof.
  intros Hv Hat. destruct (at_chunk _ _ _ _ Hat) as (Hr & Hl & Hat').
  rewrite len_le_bytes in *. change (N.of_nat 4) with 4 in *. split; [|done].
  unfold read_u32_le. case_cmp; [lia|]. rewrite Hr, le_value_le_bytes_small by done. done.
Qed.

Lemma read_bool_at d pos (b : bool) rest : at_pos d pos ((if b then 1 else 0) :: rest) ->
  read_bool d pos = Some (b, pos + 1) /\ at_pos d (pos + 1) rest.
Proof.
  intros Hat. destruct (read_u8_at _ _ _ _ Hat) as [Hr Hat']. split; [|done].
  unfold read_bool. rewrite Hr. by destruct b.
Qed.

Lemma read_bytes_at d pos c rest : len c < 2 ^ 32 ->
  at_pos d pos (le_bytes 4 (u32 (len c)) ++ c ++ rest) ->
  read_bytes d pos = Some (c, pos + 4 + len c) /\ at_pos d (pos + 4 + len c) rest.
Proof.
  intros Hc Hat. rewrite u32_small in Hat by done.
  destruct (read_u32_le_at _ _ _ _ Hc Hat) as [Hr Hat1].
  destruct (at_chunk _ _ _ _ Hat1) as (Hr2 & Hl & Hat2). split; [|done].
  unfold read_bytes. rewrite Hr. cbn. case_cmp; [lia|]. by rewrite Hr2.
Qed.

(** Runs the next read of the goal against the cursor's hypothesis. *)
Ltac read_next :=
  match goal with
  | H : at_pos ?d ?pos _ |- context [read_u64_le ?d ?pos] =>
      apply read_u64_le_at in H as [-> H]; [cbn [mbind option_bind]|done]
  | H : at_pos ?d ?pos _ |- context [read_u32_le ?d ?pos] =>
      apply read_u32_le_at in H as [-> H]; [cbn [mbind option_bind]|done]
  | H : at_pos ?d ?pos _ |- context [read_bytes ?d ?pos] =>
      apply read_bytes_at in H as [-> H]; [cbn [mbind option_bind]|done]
  | H : at_pos ?d ?pos _ |- context [read_bool ?d ?pos] =>
      apply read_bool_at in H as [-> H]; cbn [mbind option_bind]
  | H : at_pos ?d ?pos _ |- context [read_u8 ?d ?pos] =>
      apply read_u8_at in H as [-> H]; cbn [mbind option_bind]
  end.

(** ** Log entries *)

Definition entry_bytes (e : Log.LogEntry) : list N :=
  le_bytes 8 (Log.term e) ++ le_bytes 8 (Log.index e) ++
  le_bytes 4 (u32 (len (Log.data e))) ++ Log.data e.

Lemma write_log_entries_eq buf es :
  write_log_entries buf es = buf ++ le_bytes 4 (u32 (len es)) ++ concat (entry_bytes <$> es).
Proof.
  unfold write_log_entries, write_u32_le. rewrite app_assoc.
  generalize (buf ++ le_bytes 4 (u32 (len es))). clear buf.
  induction es as [|e es IH]; intros buf; cbn; [by rewrite app_nil_r|].
  rewrite IH. unfold write_log_entry, write_bytes, write_u32_le, write_u64_le, entry_bytes.
  by rewrite <- !app_assoc.
Qed.

Lemma read_entries_loop_at es d pos rest : Forall entry_ok es ->
  at_pos d pos (concat (entry_bytes <$> es) ++ rest) ->
  exists pos', read_entries_loop (length es) d pos = Some (es, pos') /\ at_pos d pos' rest.
Proof.
  intros Hes. revert pos. induction Hes as [|e es (Ht & Hi & Hd) _ IH]; intros pos Hat; cbn in *.
  - by exists pos.
  - unfold entry_bytes in Hat. rewrite <- !app_assoc in Hat. repeat read_next.
    destruct (IH _ Hat) as (pos' & -> & Hat'). exists pos'. cbn. by destruct e.
Qed.

Lemma read_log_entries_at es d pos rest : Forall entry_ok es -> len es < 2 ^ 32 ->
  at_pos d pos (le_bytes 4 (u32 (len es)) ++ concat (entry_bytes <$> es) ++ rest) ->
  exists pos', read_log_entries d pos = Some (es, pos') /\ at_pos d pos' rest.
Proof.
  intros Hes Hl Hat. unfold read_log_entries. rewrite u32_small in Hat by done.
  read_next. rewrite len_length. by apply read_entries_loop_at.
Qed.

(** ** Round trips *)

Lemma append_req_roundtrip req : append_req_ok req ->
  decode_append_entries_req (encode_append_entries_req req) = Some req.
Proof.
  intros (? & ? & ? & ? & Hes & Hn & ?). unfold decode_append_entries_req.
  set (d := encode_append_entries_req req). pose proof (at_start d) as Hat.
  unfold d at 2 in Hat. unfold encode_append_entries_req in Hat.
  unfold write_u8, write_u64_le in Hat. rewrite write_log_entries_eq in Hat.
  rewrite <- !app_assoc in Hat. cbn [app] in Hat.
  repeat read_next. change (negb _) with false. cbv iota.
  repeat read_next. destruct (read_log_entries_at _ _ _ _ Hes Hn Hat) as (pos & -> & Hat').
  cbn. rewrite <- (app_nil_r (le_bytes 8 _)) in Hat'. read_next. by destruct req.
Qed.

Lemma append_resp_roundtrip resp : append_resp_ok resp ->
  decode_append_entries_resp (encode_append_entries_resp resp) = Some resp.
Proof.
  intros (? & ?). unfold decode_append_entries_resp.
  set (d := encode_append_entries_resp resp). pose proof (at_start d) as Hat.
  unfold d at 2 in Hat. unfold encode_append_entries_resp, write_u8, write_u64_le, write_bool in Hat.
  rewrite <- !app_assoc, <- (app_nil_r (le_bytes 8 (aer_match_index resp))) in Hat. cbn [app] in Hat.
  read_next. change (negb _) with false. cbv iota. repeat read_next. by destruct resp.
Qed.

Lemma vote_req_roundtrip req : vote_req_ok req ->
  decode_request_vote_req (encode_request_vote_req req) = Some req.
Proof.
  intros (? & ? & ? & ?). unfold decode_request_vote_req.
  set (d := encode_request_vote_req req). pose proof (at_start d) as Hat.
  unfold d at 2 in Hat. unfold encode_request_vote_req, write_u8, write_u64_le in Hat.
  rewrite <- !app_assoc, <- (app_nil_r (le_bytes 8 (rv_last_log_term req))) in Hat. cbn [app] in Hat.
  read_next. change (negb _) with false. cbv iota. repeat read_next. by destruct req.
Qed.

Lemma vote_resp_roundtrip resp : rvr_term resp < 2 ^ 64 ->
  decode_request_vote_resp (encode_request_vote_resp resp) = Some resp.
Proof.
  intros ?. unfold decode_request_vote_resp.
  set (d := encode_request_vote_resp resp). pose proof (at_start d) as Hat.
  unfold d at 2 in Hat. unfold encode_request_vote_resp, write_u8, write_u64_le, write_bool in Hat.
  rewrite <- !app_assoc in Hat. cbn [app] in Hat.
  read_next. change (negb _) with false. cbv iota. repeat read_next. by destruct resp.
Qed.

Lemma snapshot_req_roundtrip req : snapshot_req_ok req ->
  decode_install_snapshot_req (encode_install_snapshot_req req) = Some req.
Proof.
  intros (? & ? & ? & ? & ?). unfold decode_install_snapshot_req.
  set (d := encode_install_snapshot_req req). pose proof (at_start d) as Hat.
  unfold d at 2 in Hat.
  unfold encode_install_snapshot_req, write_bytes, write_u32_le, write_u8, write_u64_le in Hat.
  rewrite <- !app_assoc, <- (app_nil_r (is_data req)) in Hat. cbn [app] in Hat.
  rewrite app_nil_r in Hat at 1.
  read_next. change (negb _) with false. cbv iota. repeat read_next. by destruct req.
Qed.

Lemma snapshot_resp_roundtrip resp : isr_term resp < 2 ^ 64 ->
  decode_install_snapshot_resp (encode_install_snapshot_resp resp) = Some resp.
Proof.
  intros ?. unfold decode_install_snapshot_resp.
  set (d := encode_install_snapshot_resp resp). pose proof (at_start d) as Hat.
  unfold d at 2 in Hat. unfold encode_install_snapshot_resp, write_u8, write_u64_le in Hat.
  rewrite <- (app_nil_r (le_bytes 8 _)) in Hat. cbn [app] in Hat.
  read_next. change (negb _) with false. cbv iota. repeat read_next. by destruct resp.
Qed.

(** ** Serving a connection *)

Lemma frames_snoc ps p : frames (ps ++ [p]) = send_framed (frames ps) p.
Proof. unfold frames. by rewrite foldl_snoc. Qed.

Lemma frames_cons p ps : frames (p :: ps) = le_bytes 4 (u32 (len p)) ++ p ++ frames ps.
Proof.
  induction ps as [|q ps IH] using rev_ind; [by cbn; rewrite app_nil_r|].
  rewrite app_comm_cons, !frames_snoc, IH. unfold send_framed. by rewrite <- !app_assoc.
Qed.

Lemma recv_framed_ok p rest : len p < 2 ^ 32 ->
  recv_framed (le_bytes 4 (u32 (len p)) ++ p ++ rest) = Some (p, rest).
Proof.
  intros Hp. rewrite u32_small by done. unfold recv_framed.
  assert (Hd : drop 4 (le_bytes 4 (len p) ++ p ++ rest) = p ++ rest) by (by apply drop_app_length').
  rewrite Hd, !len_app, len_le_bytes.
  rewrite read_at_prefix by (by rewrite len_le_bytes).
  rewrite le_value_le_bytes_small by done. case_cmp; try lia.
  rewrite read_at_prefix by done. rewrite len_length, drop_app_length. done.
Qed.

Lemma last_index_width l : Log.last_index l < 2 ^ 64.
Proof. apply wrap_lt. Qed.

Lemma decode_encode_response r node : request_ok r -> Node.current_term node < 2 ^ 64 ->
  decode_response r (encode_response (handle node r).2) = Some (handle node r).2 /\
  Node.current_term (handle node r).1 < 2 ^ 64.
Proof.
  assert (Ha : forall resp, append_resp_ok resp ->
    RespAppend <$> decode_append_entries_resp (encode_append_entries_resp resp) = Some (RespAppend resp))
    by (intros; by rewrite append_resp_roundtrip).
  assert (Hv : forall resp, rvr_term resp < 2 ^ 64 ->
    RespVote <$> decode_request_vote_resp (encode_request_vote_resp resp) = Some (RespVote resp))
    by (intros; by rewrite vote_resp_roundtrip).
  assert (Hs : forall resp, isr_term resp < 2 ^ 64 ->
    RespSnapshot <$> decode_install_snapshot_resp (encode_install_snapshot_resp resp) = Some (RespSnapshot resp))
    by (intros; by rewrite snapshot_resp_roundtrip).
  intros Hok Hn. destruct r as [req|req|req]; cbn in *; destruct Hok as (Ht & _).
  - unfold Node.handle_append_entries. repeat case_match; cbn; simplify_eq;
      (split; [apply Ha; split; cbn; [|apply last_index_width]|]); cbn; by repeat case_match.
  - unfold Node.handle_request_vote. repeat case_match; cbn; simplify_eq;
      (split; [apply Hv|]); cbn; by repeat case_match.
  - unfold Node.handle_install_snapshot. repeat case_match; cbn; simplify_eq;
      (split; [apply Hs|]); cbn; by repeat case_match.
Qed.

Lemma dispatch_request r node : request_ok r ->
  dispatch_rpc (encode_request r) node = Some (encode_response (handle node r).2, (handle node r).1).
Proof.
  intros Hok. destruct r as [req|req|req]; cbn [encode_request request_ok handle] in *.
  - pose proof (append_req_roundtrip req Hok) as Hr. revert Hr.
    unfold dispatch_rpc. destruct (encode_append_entries_req req) as [|tag d] eqn:E; [done|].
    replace tag with 1.
    + intros ->. cbn. by destruct (Node.handle_append_entries node req).
    + revert E. unfold encode_append_entries_req, write_u64_le. rewrite write_log_entries_eq.
      cbn. by intros [= <- _].
  - unfold dispatch_rpc. cbn [encode_request_vote_req write_u8 write_u64_le app].
    pose proof (vote_req_roundtrip req Hok) as Hr. cbn in Hr. cbn. rewrite Hr. cbn.
    by destruct (Node.handle_request_vote node req).
  - pose proof (snapshot_req_roundtrip req Hok) as Hr. revert Hr.
    unfold dispatch_rpc. destruct (encode_install_snapshot_req req) as [|tag d] eqn:E; [done|].
    replace tag with 5.
    + intros ->. cbn. by destruct (Node.handle_install_snapshot node req).
    + revert E. cbn. by intros [= <- _].
Qed.

Lemma serve_loop rs fuel out node :
  Forall request_ok rs -> Forall (fun r => len (encode_request r) < 2 ^ 32) rs ->
  (length rs <= fuel)%nat ->
  handle_connection_loop fuel (frames (encode_request <$> rs)) out node =
    (foldl send_framed out (encode_response <$> (handle_all node rs).2), (handle_all node rs).1).
Proof.
  revert fuel out node. induction rs as [|r rs IH]; intros fuel out node Hok Hlen Hf.
  - destruct fuel; done.
  - apply Forall_cons in Hok as [Hr Hok], Hlen as [Hl Hlen].
    destruct fuel as [|fuel]; [cbn in Hf; lia|].
    cbn [fmap list_fmap handle_all handle_connection_loop].
    rewrite frames_cons, recv_framed_ok by done. rewrite dispatch_request by done.
    destruct (handle node r) as [n1 resp]. cbn [fst snd].
    rewrite IH by (done || cbn in Hf; lia).
    destruct (handle_all n1 rs) as [n2 resps]. done.
Qed.

Lemma frames_length ps : (length ps <= length (frames ps))%nat.
Proof.
  induction ps as [|p ps IH] using rev_ind; [done|].
  rewrite frames_snoc. unfold send_framed. rewrite !length_app. cbn. lia.
Qed.

Lemma handle_all_decodes rs node : Forall request_ok rs -> Node.current_term node < 2 ^ 64 ->
  Forall2 (fun r resp => decode_response r (encode_response resp) = Some resp)
    rs (handle_all node rs).2.
Proof.
  intros Hok. revert node. induction Hok as [|r rs Hr _ IH]; intros node Hn; [constructor|].
  cbn. destruct (decode_encode_response r node Hr Hn) as [Hd Hn1].
  destruct (handle node r) as [n1 resp]. cbn in *. specialize (IH n1 Hn1).
  destruct (handle_all n1 rs) as [n2 resps]. by constructor.
Qed.

(** C15: A connection that carries any sequence of well-formed requests, each
    encoded and framed by the client, drives the node through exactly the
    handlers of these requests in order, and writes back the frames of their
    answers; every answer decodes, at the client, to what the handler
    returned. *)
Theorem connection_serves_requests rs node :
  Forall request_ok rs -> Forall (fun r => len (encode_request r) < 2 ^ 32) rs ->
  Node.current_term node < 2 ^ 64 ->
  let '(node', resps) := handle_all node rs in
  handle_connection (frames (encode_request <$> rs)) node =
    (frames (encode_response <$> resps), node') /\
  Forall2 (fun r resp => decode_response r (encode_response resp) = Some resp) rs resps.
Proof.
  intros Hok Hlen Hn. pose proof (handle_all_decodes rs node Hok Hn) as Hd.
  pose proof (frames_length (encode_request <$> rs)) as Hf. rewrite length_fmap in Hf.
  pose proof (serve_loop rs _ [] node Hok Hlen Hf) as Hs.
  destruct (handle_all node rs) as [n' resps]. by split.
Qed.

Lemma connection_serves_requests_witness :
  let rs := [ReqVote (mkRequestVoteReq 1 1 0 0);
             ReqAppend (mkAppendEntriesReq 1 1 0 0 [Log.mkEntry 1 1 [7; 8]] 1);
             ReqSnapshot (mkInstallSnapshotReq 2 3 9 1 [5])] in
  let node := Node.new (Node.mkConfig 2 [1; 3] 150 300 50) in
  let '(node', resps) := handle_all node rs in
  handle_connection (frames (encode_request <$> rs)) node =
    (frames (encode_response <$> resps), node') /\
  Forall2 (fun r resp => decode_response r (encode_response resp) = Some resp) rs resps.
Proof.
  apply connection_serves_requests; [|repeat constructor; by vm_compute|by vm_compute].
  repeat constructor; vm_compute; congruence.
Defined.

End Transport.
