(* ===== verification/StateMachine.v ===== *)
(** * The replicated state machine

    Models [crates/raft/src/state_machine.rs]: the [StateMachine] trait as a type
    class, and the key-value machine as its instance.  The theorem connects it to
    the log: a replica that restores a snapshot and applies the entries after it
    ends in the state of a replica that applied every entry. *)

From stdpp Require Import gmap sorting.
From S2P Require Import Prelude Bytes ByteOrder Strings RaftLog.

(** The trait. *)
Class StateMachine (S : Type) : Type := {
  apply : S -> Log.LogEntry -> S;
  snapshot : S -> list N;
  restore : S -> list N -> S
}.

(** Applies committed entries in log order. *)
Definition replay {S} `{StateMachine S} (s : S) (es : list Log.LogEntry) : S := foldl apply s es.

Module Kv.

(** [HashMap<String, String>]. *)
Abbreviation KvStateMachine := (gmap (list N) (list N)).

Definition new : KvStateMachine := ∅.

(** The prefixes [SET ] and [DEL ], and the bytes of [=] and line feed. *)
Definition SET : list N := [83; 69; 84; 32].
Definition DEL : list N := [68; 69; 76; 32].
Definition EQ : N := 61.
Definition LF : N := 10.

Definition kv_apply (m : KvStateMachine) (e : Log.LogEntry) : KvStateMachine :=
  let cmd := Log.data e in
  if negb (utf8_valid cmd) then m
  else
    match strip_prefix SET cmd with
    | Some rest =>
        match split_first EQ rest with
        | Some (key, val) => <[key := val]> m
        | None => m
        end
    | None =>
        match strip_prefix DEL cmd with
        | Some key => delete key m
        | None => m
        end
    end.

(** [pairs.sort_by_key(|(k, _)| k)]. *)
Definition key_le (a b : list N * list N) : Prop := bytes_le a.1 b.1 = true.
#[global] Instance key_le_dec : RelDecision key_le.
Proof. intros a b. unfold key_le. apply _. Defined.

Definition sorted_pairs (m : KvStateMachine) : list (list N * list N) :=
  merge_sort key_le (map_to_list m).

Definition kv_snapshot (m : KvStateMachine) : list N :=
  concat ((fun kv => kv.1 ++ EQ :: kv.2 ++ [LF]) <$> sorted_pairs m).

Definition kv_restore (_ : KvStateMachine) (snap : list N) : KvStateMachine :=
  if negb (utf8_valid snap) then ∅
  else
    foldl (fun m line => match split_first EQ line with
                         | Some (key, val) => <[key := val]> m
                         | None => m
                         end) ∅ (lines snap).

#[global] Instance kv_machine : StateMachine KvStateMachine :=
  {| apply := kv_apply; snapshot := kv_snapshot; restore := kv_restore |}.

(** ** Snapshots *)

(** A pair that survives the line format. *)
Definition pair_ok (kv : list N * list N) : Prop :=
  utf8_valid (kv.1 ++ EQ :: kv.2 ++ [LF]) = true /\ (EQ ∉ kv.1) /\
  (LF ∉ kv.1) /\ (LF ∉ kv.2) /\ last kv.2 <> Some 13.

Definition state_ok (m : KvStateMachine) : Prop := map_Forall (fun k v => pair_ok (k, v)) m.

(** A command without line feeds and carriage returns. *)
Definition entry_safe (e : Log.LogEntry) : Prop := (LF ∉ Log.data e) /\ (13 ∉ Log.data e).

Lemma lines_pairs ps : Forall pair_ok ps ->
  lines (concat ((fun kv => kv.1 ++ EQ :: kv.2 ++ [LF]) <$> ps)) = (fun kv => kv.1 ++ EQ :: kv.2) <$> ps.
Proof.
  unfold lines. induction 1 as [|[k v] ps (_ & _ & Hk & Hv & Hcr) _ IH]; cbn in *; [done|].
  rewrite <- app_assoc. cbn. rewrite <- app_assoc. cbn.
  replace (k ++ EQ :: v ++ LF :: concat ((fun kv => kv.1 ++ EQ :: kv.2 ++ [LF]) <$> ps))
    with ((k ++ EQ :: v) ++ 10 :: concat ((fun kv => kv.1 ++ EQ :: kv.2 ++ [LF]) <$> ps))
    by (by rewrite <- app_assoc).
  rewrite lines_from_app.
  - rewrite IH. cbn. rewrite strip_cr_id; [done|]. rewrite last_app_cons.
    destruct v; [done|]. by rewrite last_cons_cons.
  - rewrite elem_of_app, elem_of_cons. intros [?|[?|?]]; done.
Qed.

Lemma utf8_pairs ps : Forall pair_ok ps ->
  utf8_valid (concat ((fun kv => kv.1 ++ EQ :: kv.2 ++ [LF]) <$> ps)) = true.
Proof. induction 1 as [|kv ps [Hu _] _ IH]; cbn; [done|]. by apply utf8_valid_app. Qed.

Lemma restore_pairs (ps : list (list N * list N)) (m : KvStateMachine) : Forall pair_ok ps ->
  foldl (fun m line => match split_first EQ line with
                       | Some (key, val) => <[key := val]> m
                       | None => m
                       end) m ((fun kv => kv.1 ++ EQ :: kv.2) <$> ps) =
  foldl (fun m kv => <[kv.1 := kv.2]> m) m ps.
Proof.
  intros Hps. revert m. induction Hps as [|[k v] ps (_ & Hk & _) _ IH]; intros m; cbn; [done|].
  cbn in Hk. rewrite split_first_app by done. apply IH.
Qed.

Lemma foldl_insert_map (ps : list (list N * list N)) (m : KvStateMachine) : NoDup ps.*1 ->
  foldl (fun m kv => <[kv.1 := kv.2]> m) m ps = list_to_map ps ∪ m.
Proof.
  revert m. induction ps as [|[k v] ps IH]; intros m Hnd; cbn; [by rewrite (left_id_L ∅ (∪))|].
  apply NoDup_cons in Hnd as [Hk Hnd]. rewrite IH by done.
  rewrite <- insert_union_r by (by apply not_elem_of_list_to_map).
  by rewrite insert_union_l.
Qed.

Lemma restore_snapshot m0 m : state_ok m -> kv_restore m0 (kv_snapshot m) = m.
Proof.
  intros Hm. unfold kv_restore, kv_snapshot.
  assert (Hp : sorted_pairs m ≡ₚ map_to_list m) by apply merge_sort_Permutation.
  assert (Hok : Forall pair_ok (sorted_pairs m)).
  { rewrite Hp. apply map_Forall_to_list in Hm. eapply Forall_impl; [exact Hm|]. by intros []. }
  rewrite utf8_pairs, lines_pairs, restore_pairs by done. cbn [negb].
  rewrite foldl_insert_map by (rewrite Hp; apply NoDup_fst_map_to_list).
  rewrite (right_id_L ∅ (∪)). apply map_eq. intros i.
  rewrite (list_to_map_proper (sorted_pairs m) (map_to_list m)); [by rewrite list_to_map_to_list| |done].
  rewrite Hp. apply NoDup_fst_map_to_list.
Qed.

(** ** Entries keep the state restorable *)

Lemma apply_state_ok m e : state_ok m -> entry_safe e -> state_ok (kv_apply m e).
Proof.
  intros Hm [Hlf Hcr]. unfold kv_apply. destruct (utf8_valid (Log.data e)) eqn:Hu; [cbn [negb]|done].
  destruct (strip_prefix SET (Log.data e)) as [rest|] eqn:Hset.
  - apply strip_prefix_Some in Hset. rewrite Hset in Hu, Hlf, Hcr. cbn in Hu.
    destruct (split_first EQ rest) as [[k v]|] eqn:Hs; [|done].
    apply split_first_Some in Hs as [-> Hk].
    rewrite elem_of_app, elem_of_app, elem_of_cons in Hlf, Hcr.
    apply map_Forall_insert_2; [|done]. split_and!; cbn; try done; try tauto.
    + rewrite app_comm_cons, app_assoc. by apply utf8_valid_app.
    + intros Hl%last_Some_elem_of. tauto.
  - case_match; [|done]. by apply map_Forall_delete.
Qed.

Lemma replay_state_ok es m : state_ok m -> Forall entry_safe es -> state_ok (replay m es).
Proof.
  intros Hm Hes. revert m Hm. induction Hes as [|e es He _ IH]; intros m Hm; [done|].
  apply IH. by apply apply_state_ok.
Qed.

(** C34: Snapshots stand for the log prefix they replace: when the commands of
    the prefix have no line feed or carriage return, restoring the snapshot
    taken after the prefix and applying the remaining entries gives the state
    of applying every entry, whatever state the replica was in before. *)
Theorem snapshot_replaces_prefix (old : KvStateMachine) prefix suffix :
  Forall entry_safe prefix ->
  replay (restore old (snapshot (replay new prefix))) suffix = replay new (prefix ++ suffix).
Proof.
  intros Hp. unfold replay at 3. rewrite foldl_app. cbn [restore snapshot kv_machine].
  rewrite restore_snapshot; [done|]. apply replay_state_ok; [|done]. apply map_Forall_empty.
Qed.

(** [SET a=1], [SET b=2], [DEL a]. *)
Definition cmd_set (k v : N) : Log.LogEntry := Log.mkEntry 1 1 (SET ++ [k; EQ; v]).
Definition cmd_del (k : N) : Log.LogEntry := Log.mkEntry 1 1 (DEL ++ [k]).

Lemma snapshot_replaces_prefix_witness :
  replay (restore (<[[99] := [57]]> new) (snapshot (replay new [cmd_set 97 49; cmd_set 98 50]))) [cmd_del 97]
  = replay new [cmd_set 97 49; cmd_set 98 50; cmd_del 97].
Proof.
  apply (snapshot_replaces_prefix _ [cmd_set 97 49; cmd_set 98 50]).
  repeat constructor; apply (bool_decide_unpack _); by vm_compute.
Defined.

(** A value with a line feed does not survive a snapshot: after
    [SET a=x<LF>y] the restored state holds [x] for [a]. *)
Theorem snapshot_loses_line_feed :
  let s := replay new [Log.mkEntry 1 1 (SET ++ [97; EQ; 120; LF; 121])] in
  s !! [97] = Some [120; LF; 121] /\
  (restore s (snapshot s) : KvStateMachine) !! [97] = Some [120].
Proof. by vm_compute. Qed.

End Kv.
