(* ===== verification/RaftCluster.v ===== *)
(** * Clusters

    Models [crates/raft/src/cluster.rs]: a member runs a listener, an election timer
    and a heartbeat thread and serves calls of [propose]; they share the node, which
    each locks for one handler call at a time.  The stretches between two lock
    operations are the atomic actions of the model.  Sleeping may end at any time, and
    a call may give up at any time.  Requests and answers can be lost, delayed and
    handled more than once; an answer reaches the thread that waits for it.
    [run] executes a schedule of actions. *)

From stdpp Require Import gmap strings.
From S2P Require Import Prelude Bytes Strings RaftLog RaftNode RaftElection StateMachine.
Import Node.

Module Cluster.

Record PeerInfo : Type := mkPeer { peer_id : N; addr : list N }.

(** The election timer between two locks: asleep, about to call [start_election],
    about to read the new term, sending vote requests, ended. *)
Inductive TimerPhase : Type :=
  | TSleep
  | TStart
  | TTerm (reqs : list (N * RequestVoteReq))
  | TVotes (th : Election.thread)
  | TDone.

(** The heartbeat thread likewise. *)
Inductive BeatPhase : Type :=
  | BSleep
  | BSolo
  | BApply
  | BCollect
  | BSend (waiting : option (N * AppendEntriesReq)) (todo : list (N * AppendEntriesReq))
  | BDone.

Inductive ProposeError : Type := NotLeader | LostLeadership | TimedOut.

(** A call that proposes commands one after the other. *)
Inductive CallState : Type :=
  | Propose (cmds : list (list N))
  | Poll (idx : N) (rest : list (list N))
  | Returned (r : N + ProposeError).

Section Machine.
Context {S : Type} `{StateMachine S}.

Record RaftCluster : Type := mkCluster {
  node : RaftNode;
  state_machine : S;
  cluster_peers : list PeerInfo;
  stopped : bool;
  timer : TimerPhase;
  timer_term : N;
  timer_commit : N;
  beat : BeatPhase;
  calls : list CallState
}.

Definition with_node (m : RaftCluster) (n : RaftNode) : RaftCluster :=
  mkCluster n (state_machine m) (cluster_peers m) (stopped m) (timer m) (timer_term m) (timer_commit m) (beat m) (calls m).
Definition with_timer (m : RaftCluster) (t : TimerPhase) : RaftCluster :=
  mkCluster (node m) (state_machine m) (cluster_peers m) (stopped m) t (timer_term m) (timer_commit m) (beat m) (calls m).
Definition with_seen (m : RaftCluster) (t c : N) : RaftCluster :=
  mkCluster (node m) (state_machine m) (cluster_peers m) (stopped m) (timer m) t c (beat m) (calls m).
Definition with_beat (m : RaftCluster) (b : BeatPhase) : RaftCluster :=
  mkCluster (node m) (state_machine m) (cluster_peers m) (stopped m) (timer m) (timer_term m) (timer_commit m) b (calls m).
Definition with_machine (m : RaftCluster) (s : S) : RaftCluster :=
  mkCluster (node m) s (cluster_peers m) (stopped m) (timer m) (timer_term m) (timer_commit m) (beat m) (calls m).
Definition with_calls (m : RaftCluster) (cs : list CallState) : RaftCluster :=
  mkCluster (node m) (state_machine m) (cluster_peers m) (stopped m) (timer m) (timer_term m) (timer_commit m) (beat m) cs.

(** [new] and [start]: all threads are about to sleep. *)
Definition new (config : RaftConfig) (s : S) (peers : list PeerInfo) : RaftCluster :=
  mkCluster (Node.new config) s peers false TSleep 0 0 BSleep [].

Definition stop (m : RaftCluster) : RaftCluster :=
  mkCluster (node m) (state_machine m) (cluster_peers m) true (timer m) (timer_term m) (timer_commit m) (beat m) (calls m).

(** [peers.get(&peer_id)] in the map [build_peer_map] collects. *)
Definition build_peer_map (peers : list PeerInfo) : gmap N (list N) :=
  foldl (fun m p => <[peer_id p := addr p]> m) ∅ peers.

Definition known (m : RaftCluster) (p : N) : bool := bool_decide (is_Some (build_peer_map (cluster_peers m) !! p)).

(** ** The election timer: the next action, and the request it sends *)

Definition timer_wake (m : RaftCluster) : RaftCluster :=
  if stopped m then with_timer m TDone
  else
    let n := node m in
    if is_leader n then with_seen m (current_term n) (commit_index n)
    else if negb (current_term n =? timer_term m) || negb (commit_index n =? timer_commit m)
    then with_seen m (current_term n) (commit_index n)
    else with_timer m TStart.

Definition timer_step (m : RaftCluster) : option (RaftCluster * option (N * RequestVoteReq)) :=
  match timer m with
  | TSleep => Some (timer_wake m, None)
  | TStart =>
      let '(n, reqs) := start_election (node m) in
      Some (with_timer (with_node m n) (TTerm reqs), None)
  | TTerm reqs => Some (with_timer (with_seen m (current_term (node m)) (timer_commit m)) (TVotes (Election.mkThread None reqs)), None)
  | TVotes (Election.mkThread None []) => Some (with_timer m TSleep, None)
  | TVotes (Election.mkThread None ((p, req) :: rest)) =>
      if known m p then Some (with_timer m (TVotes (Election.mkThread (Some (p, req)) rest)), Some (p, req))
      else Some (with_timer m (TVotes (Election.mkThread None rest)), None)
  | TVotes (Election.mkThread (Some _) _) | TDone => None
  end.

(** The answer the timer waits for, or none. *)
Definition vote_answer (m : RaftCluster) (resp : option RequestVoteResp) : option RaftCluster :=
  match timer m with
  | TVotes (Election.mkThread (Some (p, req)) rest) =>
      let n := match resp with
               | Some resp => (handle_vote_response (node m) p resp).1
               | None => node m
               end in
      Some (with_timer (with_node m n) (TVotes (Election.mkThread None rest)))
  | _ => None
  end.

(** ** The heartbeat thread *)

Definition beat_step (m : RaftCluster) : option (RaftCluster * option (N * AppendEntriesReq)) :=
  match beat m with
  | BSleep =>
      if stopped m then Some (with_beat m BDone, None)
      else if is_leader (node m) then Some (with_beat m BSolo, None)
      else Some (m, None)
  | BSolo => Some (with_beat (with_node m (advance_commit_if_solo (node m))) BApply, None)
  | BApply =>
      let '(n, applicable) := take_applicable (node m) in
      Some (with_beat (with_machine (with_node m n) (replay (state_machine m) applicable)) BCollect, None)
  | BCollect => Some (with_beat m (BSend None (heartbeat (node m))), None)
  | BSend None [] => Some (with_beat m BSleep, None)
  | BSend None ((p, req) :: rest) =>
      if known m p then Some (with_beat m (BSend (Some (p, req)) rest), Some (p, req))
      else Some (with_beat m (BSend None rest), None)
  | BSend (Some _) _ | BDone => None
  end.

Definition append_answer (m : RaftCluster) (resp : option AppendEntriesResp) : option RaftCluster :=
  match beat m with
  | BSend (Some (p, req)) rest =>
      let n := match resp with
               | Some resp => handle_append_response (node m) p resp
               | None => node m
               end in
      Some (with_beat (with_node m n) (BSend None rest))
  | _ => None
  end.

(** ** Calls *)

Definition two_phase_propose (txn_id : N) (cmd : list N) : list (list N) :=
  [text "PREPARE:" ++ N_to_string txn_id ++ text ":" ++ cmd; text "COMMIT:" ++ N_to_string txn_id].

(** The next action of a call: its proposal, or a look at the commit index. *)
Definition call_step (n : RaftNode) (c : CallState) : option (RaftNode * CallState) :=
  match c with
  | Propose (d :: rest) =>
      match propose n d with
      | (n, Some idx) => Some (n, Poll idx rest)
      | (n, None) => Some (n, Returned (inr NotLeader))
      end
  | Poll idx rest =>
      if idx <=? commit_index n then
        Some (n, match rest with [] => Returned (inl idx) | _ => Propose rest end)
      else if bool_decide (role n <> Leader) then Some (n, Returned (inr LostLeadership))
      else Some (n, c)
  | Propose [] | Returned _ => None
  end.

Definition abandon_call (c : CallState) : option CallState :=
  match c with
  | Poll _ _ => Some (Returned (inr TimedOut))
  | _ => None
  end.

(** ** The cluster *)

Record world : Type := mkWorld {
  members : gmap N RaftCluster;
  vote_reqs : list (N * RequestVoteReq);
  vote_resps : list (N * RequestVoteReq * RequestVoteResp);
  append_reqs : list (N * AppendEntriesReq);
  append_resps : list (N * AppendEntriesReq * AppendEntriesResp)
}.

Definition set_member (w : world) (i : N) (m : RaftCluster) : world :=
  mkWorld (<[i := m]> (members w)) (vote_reqs w) (vote_resps w) (append_reqs w) (append_resps w).

(** Actions of member [i]'s threads; a number [k] picks a message or a call. *)
Inductive event : Type :=
  | ETimer (i : N)
  | EVote (k : nat)
  | EVoteAnswer (i : N) (k : nat)
  | EVoteLost (i : N)
  | EBeat (i : N)
  | EAppend (k : nat)
  | EAppendAnswer (i : N) (k : nat)
  | EAppendLost (i : N)
  | ECall (i : N) (cmds : list (list N))
  | EClient (i : N) (k : nat)
  | EGiveUp (i : N) (k : nat)
  | EStop (i : N).

(** There is room for [k] more entries and for a next term: a term or a log index
    would not wrap around. *)
Definition room (n : RaftNode) (k : N) : bool :=
  (Log.last_index (log n) + k + 2 <? 2 ^ 64) && (current_term n <? u64_max).

(** The answer to the request a thread waits for. *)
Definition answers {Q R} `{EqDecision Q} (waiting : option (N * Q)) (resp : N * Q * R) : option R :=
  if bool_decide (waiting = Some resp.1) then Some resp.2 else None.

Definition step (w : world) (ev : event) : option world :=
  match ev with
  | ETimer i =>
      m ← members w !! i;
      if room (node m) 0 then
        '(m, out) ← timer_step m;
        Some (mkWorld (<[i := m]> (members w)) (option_list out ++ vote_reqs w) (vote_resps w) (append_reqs w) (append_resps w))
      else None
  | EVote k =>
      '(p, req) ← vote_reqs w !! k;
      m ← members w !! p;
      let '(n, resp) := handle_request_vote (node m) req in
      Some (mkWorld (<[p := with_node m n]> (members w)) (vote_reqs w) ((p, req, resp) :: vote_resps w) (append_reqs w) (append_resps w))
  | EVoteAnswer i k =>
      m ← members w !! i;
      msg ← vote_resps w !! k;
      resp ← match timer m with TVotes th => answers (Election.waiting th) msg | _ => None end;
      m ← vote_answer m (Some resp);
      Some (set_member w i m)
  | EVoteLost i => m ← members w !! i; m ← vote_answer m None; Some (set_member w i m)
  | EBeat i =>
      m ← members w !! i;
      '(m, out) ← beat_step m;
      Some (mkWorld (<[i := m]> (members w)) (vote_reqs w) (vote_resps w) (option_list out ++ append_reqs w) (append_resps w))
  | EAppend k =>
      '(p, req) ← append_reqs w !! k;
      m ← members w !! p;
      if room (node m) (len (ae_entries req)) then
        let '(n, resp) := handle_append_entries (node m) req in
        Some (mkWorld (<[p := with_node m n]> (members w)) (vote_reqs w) (vote_resps w) (append_reqs w) ((p, req, resp) :: append_resps w))
      else None
  | EAppendAnswer i k =>
      m ← members w !! i;
      msg ← append_resps w !! k;
      resp ← match beat m with BSend waiting _ => answers waiting msg | _ => None end;
      m ← append_answer m (Some resp);
      Some (set_member w i m)
  | EAppendLost i => m ← members w !! i; m ← append_answer m None; Some (set_member w i m)
  | ECall i cmds => m ← members w !! i; Some (set_member w i (with_calls m (calls m ++ [Propose cmds])))
  | EClient i k =>
      m ← members w !! i;
      c ← calls m !! k;
      if room (node m) 1 then
        '(n, c) ← call_step (node m) c;
        Some (set_member w i (with_calls (with_node m n) (<[k := c]> (calls m))))
      else None
  | EGiveUp i k =>
      m ← members w !! i;
      c ← calls m !! k;
      c ← abandon_call c;
      Some (set_member w i (with_calls m (<[k := c]> (calls m))))
  | EStop i => m ← members w !! i; Some (set_member w i (stop m))
  end.

Fixpoint run (w : world) (evs : list event) : option world :=
  match evs with
  | [] => Some w
  | ev :: evs => w ← step w ev; run w evs
  end.

(** A cluster whose members have just been started with the same state. *)
Definition start (ids : gset N) (cfg : N -> RaftConfig) (s : S) (peers : N -> list PeerInfo) : world :=
  mkWorld (set_to_map (fun i => (i, new (cfg i) s (peers i))) ids) [] [] [] [].
End Machine.
Arguments RaftCluster S : clear implicits.
Arguments world S : clear implicits.
End Cluster.
