(* ===== verification/RaftClusterSpec.v ===== *)
(** * What a cluster guarantees

    Every run of the threads of [RaftCluster.v] is a run of [RaftElection.v], so a term
    has at most one leader; and each member's state machine has applied the entries its
    log delivered, every index once and in order.  A member without peers commits and
    applies what is proposed to it.  The last part runs schedules in which the cluster
    does not do what it should. *)

From stdpp Require Import gmap strings.
From S2P Require Import Prelude Bytes Strings RaftLog RaftNode RaftElection StateMachine RaftCluster.
Import Node Cluster.

Module ClusterSpec.

Section Machine.
Context {S : Type} `{StateMachine S}.
Implicit Types (w : world S) (m : RaftCluster S).

(** ** The cluster refines the election protocol *)

Definition thread_of (t : TimerPhase) : Election.thread :=
  match t with
  | TTerm reqs => Election.mkThread None reqs
  | TVotes th => th
  | TSleep | TStart | TDone => Election.idle
  end.

Record simulates w (s : Election.sys) : Prop := {
  sim_nodes : Election.nodes s = node <$> members w;
  sim_threads : Election.threads s = (fun m => thread_of (timer m)) <$> members w;
  sim_sent : Election.sent s = vote_reqs w;
  sim_replies : Election.replies s = vote_resps w;
  sim_start : forall i m, members w !! i = Some m -> timer m = TStart -> role (node m) <> Leader
}.

Lemma sim_node w s i m : simulates w s -> members w !! i = Some m -> Election.nodes s !! i = Some (node m).
Proof. intros Hs Hi. rewrite (sim_nodes _ _ Hs), lookup_fmap, Hi. done. Qed.

Lemma sim_thread w s i m : simulates w s -> members w !! i = Some m -> Election.threads s !! i = Some (thread_of (timer m)).
Proof. intros Hs Hi. rewrite (sim_threads _ _ Hs), lookup_fmap, Hi. done. Qed.

(** A member changes to [m']: the abstract state has its node and its thread. *)
Lemma sim_update w s i m m' ars ars' s' :
  simulates w s -> members w !! i = Some m ->
  (timer m' = TStart -> role (node m') <> Leader) ->
  Election.nodes s' = <[i := node m']> (Election.nodes s) ->
  Election.threads s' = <[i := thread_of (timer m')]> (Election.threads s) ->
  simulates (mkWorld (<[i := m']> (members w)) (Election.sent s') (Election.replies s') ars ars') s'.
Proof.
  intros Hs Hi Hst Hn Ht. split; cbn; [| |done|done|].
  - by rewrite Hn, fmap_insert, (sim_nodes _ _ Hs).
  - by rewrite Ht, fmap_insert, (sim_threads _ _ Hs).
  - intros j mj. rewrite lookup_insert_Some. intros [[<- <-]|[_ Hj]]; [done|by eapply sim_start].
Qed.

Lemma sim_quiet w s i m m' ars ars' : simulates w s -> members w !! i = Some m ->
  node m' = node m -> thread_of (timer m') = thread_of (timer m) ->
  (timer m' = TStart -> role (node m') <> Leader) ->
  simulates (mkWorld (<[i := m']> (members w)) (vote_reqs w) (vote_resps w) ars ars') s.
Proof.
  intros Hs Hi Hn Ht Hst. rewrite <- (sim_sent _ _ Hs), <- (sim_replies _ _ Hs).
  eapply sim_update; [done..| |].
  - rewrite Hn, insert_id; [done|by eapply sim_node].
  - rewrite Ht, insert_id; [done|by eapply sim_thread].
Qed.

Lemma sim_local w s i m m' ars ars' : simulates w s -> members w !! i = Some m ->
  Election.local_step (node m) (node m') -> timer m' = timer m ->
  exists s', rtc Election.step s s' /\
    simulates (mkWorld (<[i := m']> (members w)) (vote_reqs w) (vote_resps w) ars ars') s'.
Proof.
  intros Hs Hi Hl Ht. exists (Election.set_node s i (node m')). split.
  - apply rtc_once. eapply Election.step_local; [by eapply sim_node|done].
  - rewrite <- (sim_sent _ _ Hs), <- (sim_replies _ _ Hs).
    change (Election.sent s) with (Election.sent (Election.set_node s i (node m'))).
    change (Election.replies s) with (Election.replies (Election.set_node s i (node m'))).
    eapply sim_update; [done|done| |done|].
    + rewrite Ht. intros Hst Hr. destruct (Election.ps_role _ _ (Election.local_step_passive _ _ Hl)) as [Hr' _]; [congruence|].
      eapply (sim_start _ _ Hs); [done..|congruence].
    + cbn. rewrite Ht, insert_id; [done|by eapply sim_thread].
Qed.

Lemma answers_Some {Q R} `{EqDecision Q} waiting (msg : N * Q * R) resp :
  answers waiting msg = Some resp -> exists p q, waiting = Some (p, q) /\ msg = (p, q, resp).
Proof. unfold answers. case_bool_decide as Hw; intros [= <-]. destruct msg as [[p q] r]. eauto. Qed.

Lemma sim_timer w s i m m' out : simulates w s -> members w !! i = Some m ->
  room (node m) 0 = true -> timer_step m = Some (m', out) ->
  exists s', rtc Election.step s s' /\
    simulates (mkWorld (<[i := m']> (members w)) (option_list out ++ vote_reqs w) (vote_resps w) (append_reqs w) (append_resps w)) s'.
Proof.
  intros Hs Hi Hroom Hst. pose proof (sim_node _ _ _ _ Hs Hi) as Hn. pose proof (sim_thread _ _ _ _ Hs Hi) as Ht.
  unfold timer_step in Hst. destruct (timer m) as [| |reqs|[[pr|] [|[p req] rest]]|] eqn:Hph; try done.
  - injection Hst as <- <-. exists s. split; [done|]. eapply sim_quiet; [done..| | |]; unfold timer_wake; repeat case_match; cbn; rewrite ?Hph; try done.
    intros _. unfold is_leader in *. case_bool_decide; done.
  - destruct (start_election (node m)) as [n reqs] eqn:He. injection Hst as <- <-. cbn.
    eexists. split.
    { apply rtc_once. eapply (Election.step_timeout s i (node m) n reqs); try done; [by eapply sim_start|].
      unfold room in Hroom. apply andb_true_iff in Hroom as [_ ?%N.ltb_lt]. done. }
    rewrite <- (sim_sent _ _ Hs), <- (sim_replies _ _ Hs).
    eapply (sim_update w s i m (with_timer (with_node m n) (TTerm reqs)) _ _
      (Election.set_thread (Election.set_node s i n) i (Election.mkThread None reqs))); done.
  - injection Hst as <- <-. exists s. split; [done|]. eapply sim_quiet; cbn; rewrite ?Hph; done.
  - injection Hst as <- <-. exists s. split; [done|]. eapply sim_quiet; cbn; rewrite ?Hph; done.
  - case_match; injection Hst as <- <-; cbn.
    + eexists. split; [by apply rtc_once, Election.step_send|].
      rewrite <- (sim_sent _ _ Hs), <- (sim_replies _ _ Hs).
      eapply (sim_update w s i m _ _ _ (Election.mkSys (Election.nodes s)
        (<[i := Election.mkThread (Some (p, req)) rest]> (Election.threads s)) ((p, req) :: Election.sent s) (Election.replies s) (Election.history s))); cbn; try done.
      by rewrite insert_id.
    + eexists. split; [by eapply rtc_once, Election.step_unknown_peer|].
      rewrite <- (sim_sent _ _ Hs), <- (sim_replies _ _ Hs).
      eapply (sim_update w s i m _ _ _ (Election.set_thread s i (Election.mkThread None rest))); cbn; try done.
      by rewrite insert_id.
Qed.

Lemma sim_same w s i m m' ars ars' : simulates w s -> members w !! i = Some m ->
  node m' = node m -> timer m' = timer m -> exists s', rtc Election.step s s' /\
    simulates (mkWorld (<[i := m']> (members w)) (vote_reqs w) (vote_resps w) ars ars') s'.
Proof.
  intros Hs Hi Hn Ht. exists s. split; [done|]. eapply sim_quiet; [done..|by rewrite Ht|]. rewrite Hn, Ht. by eapply sim_start.
Qed.

Lemma sim_beat w s i m m' out : simulates w s -> members w !! i = Some m -> beat_step m = Some (m', out) ->
  exists s', rtc Election.step s s' /\
    simulates (mkWorld (<[i := m']> (members w)) (vote_reqs w) (vote_resps w) (option_list out ++ append_reqs w) (append_resps w)) s'.
Proof.
  intros Hs Hi Hst. unfold beat_step in Hst.
  destruct (beat m) as [| | | |[?|] [|[p req] rest]|]; try done.
  - repeat case_match; injection Hst as <- <-; by eapply sim_same.
  - injection Hst as <- <-. eapply sim_local; [done..|apply Election.ls_commit_solo|done].
  - destruct (take_applicable (node m)) as [n es] eqn:He. injection Hst as <- <-. eapply sim_local; [done..| |done].
    cbn. change n with (n, es).1. rewrite <- He. apply Election.ls_take_applicable.
  - injection Hst as <- <-. by eapply sim_same.
  - injection Hst as <- <-. by eapply sim_same.
  - case_match; injection Hst as <- <-; by eapply sim_same.
Qed.

Lemma sim_vote w s p m n req resp : simulates w s -> (p, req) ∈ vote_reqs w -> members w !! p = Some m ->
  handle_request_vote (node m) req = (n, resp) -> exists s', rtc Election.step s s' /\
    simulates (mkWorld (<[p := with_node m n]> (members w)) (vote_reqs w) ((p, req, resp) :: vote_resps w) (append_reqs w) (append_resps w)) s'.
Proof.
  intros Hs Hq Hp Hv. eexists. split.
  { apply rtc_once. eapply Election.step_vote; [|by eapply sim_node|done]. by rewrite (sim_sent _ _ Hs). }
  rewrite <- (sim_sent _ _ Hs), <- (sim_replies _ _ Hs).
  eapply (sim_update w s p m (with_node m n) _ _ (Election.mkSys (<[p := n]> (Election.nodes s)) (Election.threads s) (Election.sent s)
    ((p, req, resp) :: Election.replies s) (Election.record_vote (Election.history s) p n))); cbn; try done.
  - intros Hts Hl. pose proof (Election.request_vote_passive (node m) req) as Hpas. rewrite Hv in Hpas. cbn in Hpas.
    destruct (Election.ps_role _ _ Hpas) as [Hr' _]; [congruence|]. eapply (sim_start _ _ Hs); [done..|congruence].
  - rewrite insert_id; [done|by eapply sim_thread].
Qed.

Lemma sim_vote_answer w s i m m' p req rest resp : simulates w s -> members w !! i = Some m ->
  timer m = TVotes (Election.mkThread (Some (p, req)) rest) ->
  (forall r, resp = Some r -> (p, req, r) ∈ vote_resps w) -> vote_answer m resp = Some m' ->
  exists s', rtc Election.step s s' /\ simulates (set_member w i m') s'.
Proof.
  intros Hs Hi Hph Hr Hv. unfold vote_answer in Hv. rewrite Hph in Hv. injection Hv as <-.
  pose proof (sim_thread _ _ _ _ Hs Hi) as Hth. rewrite Hph in Hth. pose proof (sim_node _ _ _ _ Hs Hi) as Hn.
  unfold set_member. rewrite <- (sim_sent _ _ Hs), <- (sim_replies _ _ Hs). rewrite <- (sim_replies _ _ Hs) in Hr. destruct resp as [r|].
  - eexists. split; [eapply rtc_once, Election.step_reply; [done|by apply Hr|done]|].
    eapply (sim_update w s i m _ _ _ (Election.set_thread (Election.set_node s i _) i _)); done.
  - eexists. split; [by eapply rtc_once, Election.step_lost|].
    eapply (sim_update w s i m _ _ _ (Election.set_thread s i _)); cbn; try done. by rewrite insert_id.
Qed.

Lemma sim_append_answer w s i m m' resp : simulates w s -> members w !! i = Some m ->
  append_answer m resp = Some m' -> exists s', rtc Election.step s s' /\ simulates (set_member w i m') s'.
Proof.
  intros Hs Hi Hv. unfold append_answer in Hv. destruct (beat m) as [| | | |[[p req]|] rest|]; try done. injection Hv as <-.
  destruct resp as [r|]; [eapply sim_local; [done..|apply Election.ls_append_response|done]|by eapply sim_same].
Qed.

Lemma sim_call w s i m n cs c c' : simulates w s -> members w !! i = Some m -> call_step (node m) c = Some (n, c') ->
  exists s', rtc Election.step s s' /\ simulates (set_member w i (with_calls (with_node m n) cs)) s'.
Proof.
  intros Hs Hi Hk. unfold call_step in Hk. destruct c as [[|d rest]|idx rest|]; try done.
  - eapply sim_local; [done..| |done]. cbn. replace n with (propose (node m) d).1; [apply Election.ls_propose|].
    destruct (propose (node m) d) as [n1 [idx|]]; by simplify_eq.
  - assert (n = node m) as -> by (repeat case_match; by simplify_eq). by eapply sim_same.
Qed.

Lemma sim_step w s ev w' : simulates w s -> step w ev = Some w' -> exists s', rtc Election.step s s' /\ simulates w' s'.
Proof.
  intros Hs Hst. destruct ev as [i|k|i k|i|i|k|i k|i|i cmds|i k|i k|i]; cbn in Hst;
    apply bind_Some in Hst as (m & Hi & Hst).
  - destruct (room (node m) 0) eqn:Hr; [|done]. apply bind_Some in Hst as ([m' out] & Ht & [= <-]). by eapply sim_timer.
  - destruct m as [p req]. apply bind_Some in Hst as (m & Hp & Hst). destruct (handle_request_vote (node m) req) as [n resp] eqn:Hv.
    injection Hst as <-. eapply sim_vote; [done|by eapply list_elem_of_lookup_2|done..].
  - apply bind_Some in Hst as (msg & Hm & Hst). apply bind_Some in Hst as (resp & Ha & Hst). apply bind_Some in Hst as (m' & Hv & [= <-]).
    destruct (timer m) as [| | |[wt rest]|] eqn:Hph; try done. apply answers_Some in Ha as (p & req & Hw & ->). cbn in Hw. subst wt.
    eapply sim_vote_answer; [done..| |done]. intros r [= <-]. by eapply list_elem_of_lookup_2.
  - apply bind_Some in Hst as (m' & Hv & [= <-]). pose proof Hv as Hv'. unfold vote_answer in Hv'.
    destruct (timer m) as [| | |[[[p req]|] rest]|] eqn:Hph; try done. by apply (sim_vote_answer w s i m m' p req rest None).
  - apply bind_Some in Hst as ([m' out] & Ht & [= <-]). by eapply sim_beat.
  - destruct m as [p req]. apply bind_Some in Hst as (m & Hp & Hst). case_match; [|done].
    destruct (handle_append_entries (node m) req) as [n resp] eqn:Hv. injection Hst as <-.
    eapply sim_local; [done..| |done]. cbn. change n with (n, resp).1. rewrite <- Hv. apply Election.ls_append_entries.
  - apply bind_Some in Hst as (msg & Hm & Hst). apply bind_Some in Hst as (resp & Ha & Hst). apply bind_Some in Hst as (m' & Hv & [= <-]).
    by eapply sim_append_answer.
  - apply bind_Some in Hst as (m' & Hv & [= <-]). by eapply sim_append_answer.
  - injection Hst as <-. by eapply sim_same.
  - apply bind_Some in Hst as (c & Hc & Hst). case_match; [|done]. apply bind_Some in Hst as ([n c'] & Hk & [= <-]). by eapply sim_call.
  - apply bind_Some in Hst as (c & Hc & Hst). apply bind_Some in Hst as (c' & Hk & [= <-]). by eapply sim_same.
  - injection Hst as <-. by eapply sim_same.
Qed.

Lemma sim_run evs w s w' : simulates w s -> run w evs = Some w' -> exists s', rtc Election.step s s' /\ simulates w' s'.
Proof.
  revert w s. induction evs as [|ev evs IH]; cbn; intros w s Hs Hr; [injection Hr as <-; by exists s|].
  apply bind_Some in Hr as (w1 & Hst & Hr). destruct (sim_step _ _ _ _ Hs Hst) as (s1 & Hs1 & Hw1).
  destruct (IH _ _ Hw1 Hr) as (s' & ? & ?). exists s'. split; [by etrans|done].
Qed.

Lemma start_lookup ids cfg s0 peers i m : members (start ids cfg s0 peers) !! i = Some m ->
  i ∈ ids /\ m = new (cfg i) s0 (peers i).
Proof. cbn. rewrite lookup_set_to_map by done. intros (j & ? & [= -> ->]). done. Qed.

Lemma sim_init ids cfg s0 peers : simulates (start ids cfg s0 peers) (Election.init ids cfg).
Proof.
  split; cbn; [| |done|done|].
  - apply map_eq. intros i. apply option_eq. intros n. rewrite lookup_fmap, fmap_Some.
    rewrite lookup_set_to_map by done. setoid_rewrite lookup_set_to_map; [|done..]. naive_solver.
  - apply map_eq. intros i. apply option_eq. intros n. rewrite lookup_fmap, fmap_Some.
    rewrite lookup_set_to_map by done. setoid_rewrite lookup_set_to_map; [|done..]. naive_solver.
  - intros i m [_ ->]%start_lookup. done.
Qed.

(** ** What a member has applied *)

Definition indices (n : N) : list N := map N.of_nat (seq 1 (N.to_nat n)).

(** [ds] are the entries the log has delivered: those with the indices from 1 on. *)
Record delivered (l : Log.RaftLog) (ds : list Log.LogEntry) : Prop := {
  dl_run : Log.log_run l ds;
  dl_base : Log.base_index l = 0;
  dl_indices : Log.index <$> ds = indices (Log.last_applied l)
}.

Lemma dl_wf l ds : delivered l ds -> Log.log_wf l.
Proof. intros Hd. by eapply Log.log_run_wf, dl_run. Qed.

Lemma delivered_append l ds t d : delivered l ds -> Log.last_index l + 2 < 2 ^ 64 -> delivered (Log.append l t d).1 ds.
Proof. intros [? ? ?] ?. split; [by apply Log.run_append|done..]. Qed.

Lemma delivered_truncate l ds i : delivered l ds -> i < 2 ^ 64 - 1 -> delivered (Log.truncate_after l i) ds.
Proof.
  intros [? ? Hi] ?. split; [by apply Log.run_truncate|by rewrite truncate_base|].
  unfold Log.truncate_after. repeat case_match; done.
Qed.

Lemma delivered_commit l ds i : delivered l ds -> delivered (Log.advance_commit l i) ds.
Proof. intros [? ? Hi]. split; [by apply Log.run_commit|..]; unfold Log.advance_commit; by case_match. Qed.

Lemma truncate_shrinks l i : Log.log_wf l -> i < 2 ^ 64 - 1 -> Log.last_index (Log.truncate_after l i) <= Log.last_index l.
Proof.
  intros Hw Hi. rewrite !Log.last_index_eq by (done || by apply Log.truncate_after_wf). rewrite truncate_base.
  unfold Log.truncate_after. repeat case_match; cbn; try lia; unfold len; rewrite length_take; lia.
Qed.

Lemma delivered_entry l ds e : delivered l ds -> Log.last_index l + 2 < 2 ^ 64 ->
  delivered (append_entry l e) ds /\ Log.last_index (append_entry l e) <= Log.last_index l + 1.
Proof.
  intros Hd Hr. pose proof (dl_wf _ _ Hd) as Hw. unfold append_entry. destruct (Log.get l (Log.index e)) as [ex|] eqn:He.
  - case_match; [|split; [done|lia]]. destruct (Log.get_Some _ _ _ Hw He) as (_ & _ & Hle).
    assert (Hi : Log.index e - 1 < 2 ^ 64 - 1) by lia.
    pose proof (truncate_shrinks l _ Hw Hi) as Hs. pose proof (delivered_truncate _ _ _ Hd Hi) as Hd'.
    split; [apply delivered_append; [done|lia]|].
    destruct (append_after_last (Log.truncate_after l (Log.index e - 1)) (Log.term e) (Log.data e)) as (_ & -> & _); [by eapply dl_wf|lia..].
  - split; [by apply delivered_append|]. destruct (append_after_last l (Log.term e) (Log.data e)) as (_ & -> & _); [done|lia..].
Qed.

Lemma delivered_entries es l ds : delivered l ds -> Log.last_index l + len es + 2 < 2 ^ 64 -> delivered (foldl append_entry l es) ds.
Proof.
  revert l. induction es as [|e es IH]; intros l Hd Hr; [done|]. rewrite len_cons in Hr. cbn.
  destruct (delivered_entry l ds e Hd) as [Hd' Hl]; [lia|]. apply IH; [done|lia].
Qed.

Lemma delivered_take l ds l' out : delivered l ds -> Log.take_applicable l = (l', out) -> delivered l' (ds ++ out).
Proof.
  intros Hd Ht. pose proof (dl_wf _ _ Hd) as Hw. destruct Hd as [Hr Hb Hi]. split; [by eapply Log.run_take|..];
    rewrite Log.take_applicable_spec in Ht by done; injection Ht as <- <-; [done|]. cbn.
  rewrite fmap_app, Hi, Hb, N.sub_0_r. unfold indices.
  replace (N.to_nat (N.max (Log.last_applied l) (Log.commit_index l)))
    with (N.to_nat (Log.last_applied l) + N.to_nat (Log.commit_index l - Log.last_applied l))%nat by lia.
  rewrite seq_app, map_app. f_equal. apply list_eq. intros k. rewrite list_lookup_fmap, lookup_read_at.
  rewrite list_lookup_fmap. case_decide as Hk; [|rewrite lookup_seq_ge by lia; done].
  rewrite lookup_seq_lt by lia. pose proof (Log.wf_commit l Hw). pose proof (Log.wf_index l Hw) as Hidx.
  destruct (lookup_lt_is_Some_2 (Log.entries l) (N.to_nat (Log.last_applied l + 1) + k)) as [e He]; [unfold len in *; lia|].
  rewrite He. cbn. f_equal. rewrite (Hidx _ _ He). lia.
Qed.

(** ** The handlers and the log *)

Lemma vote_keeps_log n req : log (handle_request_vote n req).1 = log n.
Proof. unfold handle_request_vote. by repeat case_match. Qed.

Lemma election_keeps_log n : log (start_election n).1 = log n.
Proof. unfold start_election. by repeat case_match. Qed.

Lemma vote_response_keeps_log n from resp : log (handle_vote_response n from resp).1 = log n.
Proof. unfold handle_vote_response. by repeat case_match. Qed.

Lemma append_entries_delivered n req ds : delivered (log n) ds -> Log.last_index (log n) + len (ae_entries req) + 2 < 2 ^ 64 ->
  delivered (log (handle_append_entries n req).1) ds.
Proof.
  intros Hd Hr. pose proof (delivered_entries _ _ _ Hd Hr) as He. unfold handle_append_entries. case_match; [done|].
  destruct (current_term n <? ae_term req); cbn; (destruct (0 <? ae_prev_log_index req); cbn;
    [destruct (Log.get (log n) (ae_prev_log_index req)) as [e|] eqn:Hg; cbn; [destruct (Log.term e =? ae_prev_log_term req); cbn|done]|]);
    try (apply delivered_truncate; [done|]; destruct (Log.get_Some _ _ _ (dl_wf _ _ Hd) Hg) as (_ & _ & ?); lia);
    destruct (commit_index n <? ae_leader_commit req); cbn; by try apply delivered_commit.
Qed.

Lemma append_response_delivered n from resp ds : delivered (log n) ds -> delivered (log (handle_append_response n from resp)) ds.
Proof. intros Hd. unfold handle_append_response. repeat (case_match; cbn); eauto using delivered_commit. Qed.

Lemma propose_delivered n d ds : delivered (log n) ds -> Log.last_index (log n) + 1 + 2 < 2 ^ 64 -> delivered (log (propose n d).1) ds.
Proof. intros Hd Hr. unfold propose. case_bool_decide; [done|]. cbn. apply (delivered_append _ _ (current_term n) d) in Hd; [done|lia]. Qed.

Lemma solo_delivered n ds : delivered (log n) ds -> delivered (log (advance_commit_if_solo n)) ds.
Proof. intros Hd. unfold advance_commit_if_solo. repeat (case_match; cbn); eauto using delivered_commit. Qed.

(** ** The state machines *)

Record replica (s0 : S) m ds : Prop := {
  rp_log : delivered (log (node m)) ds;
  rp_machine : state_machine m = replay s0 ds
}.

Definition replicas (s0 : S) w : Prop := forall i m, members w !! i = Some m -> exists ds, replica s0 m ds.

Lemma replicas_update s0 w i m' vr vs ar as_ : replicas s0 w -> (exists ds, replica s0 m' ds) ->
  replicas s0 (mkWorld (<[i := m']> (members w)) vr vs ar as_).
Proof. intros Hw Hm j mj. cbn. rewrite lookup_insert_Some. intros [[_ <-]|[_ Hj]]; [done|by eapply Hw]. Qed.

(** Nothing is applied, and the log keeps what it has delivered. *)
Lemma replica_keeps s0 m m' : (exists ds, replica s0 m ds) -> state_machine m' = state_machine m ->
  (forall ds, delivered (log (node m)) ds -> delivered (log (node m')) ds) -> exists ds, replica s0 m' ds.
Proof. intros (ds & Hl & Hs) He Hd. exists ds. split; [by apply Hd|congruence]. Qed.

Lemma replica_beat s0 m m' out : (exists ds, replica s0 m ds) -> beat_step m = Some (m', out) -> exists ds, replica s0 m' ds.
Proof.
  intros Hm Hst. unfold beat_step in Hst. destruct (beat m) as [| | | |[?|] [|[p req] rest]|]; try done;
    try (repeat case_match; injection Hst as <- <-; by apply (replica_keeps _ m)).
  - injection Hst as <- <-. apply (replica_keeps _ m); [done..|]. apply solo_delivered.
  - destruct (take_applicable (node m)) as [n es] eqn:He. injection Hst as <- <-. destruct Hm as (ds & Hl & Hs).
    exists (ds ++ es). unfold take_applicable in He. destruct (Log.take_applicable (log (node m))) as [l out'] eqn:Ht. injection He as <- <-.
    split; cbn; [by eapply delivered_take|]. unfold replay. by rewrite foldl_app, Hs.
Qed.

Lemma replica_timer s0 m m' out : (exists ds, replica s0 m ds) -> timer_step m = Some (m', out) -> exists ds, replica s0 m' ds.
Proof.
  intros Hm Hst. apply (replica_keeps _ m); [done|..]; unfold timer_step in Hst;
    destruct (timer m) as [| |reqs|[[pr|] [|[p req] rest]]|]; try done;
    try (repeat case_match; injection Hst as <- <-; unfold timer_wake; by repeat case_match).
  destruct (start_election (node m)) as [n reqs] eqn:He. injection Hst as <- <-. cbn.
  replace n with (start_election (node m)).1 by (by rewrite He). by rewrite election_keeps_log.
Qed.

Lemma room_last n k : room n k = true -> Log.last_index (log n) + k + 2 < 2 ^ 64.
Proof. unfold room. rewrite andb_true_iff, !N.ltb_lt. lia. Qed.

Lemma replicas_step s0 w ev w' : replicas s0 w -> step w ev = Some w' -> replicas s0 w'.
Proof.
  intros Hw Hst. destruct ev as [i|k|i k|i|i|k|i k|i|i cmds|i k|i k|i]; cbn in Hst;
    apply bind_Some in Hst as (m & Hi & Hst); try pose proof (Hw _ _ Hi) as Hm.
  - case_match; [|done]. apply bind_Some in Hst as ([m' out] & Ht & [= <-]). apply replicas_update; [done|by eapply replica_timer].
  - destruct m as [p req]. apply bind_Some in Hst as (m & Hp & Hst). destruct (handle_request_vote (node m) req) as [n resp] eqn:Hv.
    injection Hst as <-. apply replicas_update; [done|]. eapply replica_keeps; [by eapply Hw|done|]. cbn.
    replace n with (handle_request_vote (node m) req).1 by (by rewrite Hv). by rewrite vote_keeps_log.
  - apply bind_Some in Hst as (msg & _ & Hst). apply bind_Some in Hst as (resp & _ & Hst). apply bind_Some in Hst as (m' & Hv & [= <-]).
    apply replicas_update; [done|]. unfold vote_answer in Hv. repeat case_match; try done. injection Hv as <-.
    apply (replica_keeps _ m); [done..|]. cbn. by rewrite vote_response_keeps_log.
  - apply bind_Some in Hst as (m' & Hv & [= <-]). apply replicas_update; [done|]. unfold vote_answer in Hv.
    repeat case_match; try done. injection Hv as <-. by apply (replica_keeps _ m).
  - apply bind_Some in Hst as ([m' out] & Ht & [= <-]). apply replicas_update; [done|by eapply replica_beat].
  - destruct m as [p req]. apply bind_Some in Hst as (m & Hp & Hst). destruct (room _ _) eqn:Hr; [|done].
    destruct (handle_append_entries (node m) req) as [n resp] eqn:Hv. injection Hst as <-. apply replicas_update; [done|].
    eapply replica_keeps; [by eapply Hw|done|]. cbn. intros ds Hd. replace n with (handle_append_entries (node m) req).1 by (by rewrite Hv).
    by apply append_entries_delivered, room_last.
  - apply bind_Some in Hst as (msg & _ & Hst). apply bind_Some in Hst as (resp & _ & Hst). apply bind_Some in Hst as (m' & Hv & [= <-]).
    apply replicas_update; [done|]. unfold append_answer in Hv. repeat case_match; try done. injection Hv as <-.
    apply (replica_keeps _ m); [done..|]. cbn. intros ds. apply append_response_delivered.
  - apply bind_Some in Hst as (m' & Hv & [= <-]). apply replicas_update; [done|]. unfold append_answer in Hv.
    repeat case_match; try done. injection Hv as <-. by apply (replica_keeps _ m).
  - injection Hst as <-. apply replicas_update; [done|]. by apply (replica_keeps _ m).
  - apply bind_Some in Hst as (c & _ & Hst). destruct (room _ _) eqn:Hr; [|done]. apply bind_Some in Hst as ([n c'] & Hk & [= <-]).
    apply replicas_update; [done|]. apply (replica_keeps _ m); [done..|]. cbn. intros ds Hd.
    unfold call_step in Hk. destruct c as [[|d rest]|idx rest|]; try done; [|assert (n = node m) as -> by (repeat case_match; by simplify_eq); done].
    replace n with (propose (node m) d).1; [by apply propose_delivered, room_last|]. destruct (propose (node m) d) as [n1 [idx|]]; by simplify_eq.
  - apply bind_Some in Hst as (c & _ & Hst). apply bind_Some in Hst as (c' & _ & [= <-]). apply replicas_update; [done|]. by apply (replica_keeps _ m).
  - injection Hst as <-. apply replicas_update; [done|]. by apply (replica_keeps _ m).
Qed.

Lemma replicas_run s0 evs w w' : replicas s0 w -> run w evs = Some w' -> replicas s0 w'.
Proof.
  revert w. induction evs as [|ev evs IH]; cbn; intros w Hw Hr; [by injection Hr as <-|].
  apply bind_Some in Hr as (w1 & Hst & Hr). eapply IH; [|done]. by eapply replicas_step.
Qed.

Lemma replicas_start ids cfg s0 peers : replicas s0 (start ids cfg s0 peers).
Proof. intros i m [_ ->]%start_lookup. exists []. split; [|done]. split; [apply Log.run_new|done..]. Qed.
End Machine.

(** C12: A cluster refines the election protocol: for every schedule of the threads, the
    listeners, the clients and the network there is a run of the protocol with the same
    nodes, vote requests and answers, in which each timer stands where the thread of
    its member does.  So a term has at most one leader, although a timer decides on an
    election and starts it under two separate locks. *)
Theorem cluster_refines_election {S} `{StateMachine S} ids cfg (s0 : S) peers evs w :
  Election.cfg_ok ids cfg -> run (start ids cfg s0 peers) evs = Some w ->
  (exists s, rtc Election.step (Election.init ids cfg) s /\ simulates w s) /\
  forall i j mi mj, members w !! i = Some mi -> members w !! j = Some mj ->
    role (node mi) = Leader -> role (node mj) = Leader -> current_term (node mi) = current_term (node mj) -> i = j.
Proof.
  intros Hc Hr. destruct (sim_run _ _ _ _ (sim_init ids cfg s0 peers) Hr) as (s & Hs & Hw). split; [by exists s|].
  intros i j mi mj Hi Hj Hli Hlj Ht. eapply (Election.one_leader ids cfg s); [done|by apply Election.inv_reachable|by eapply sim_node..|done|done|done].
Qed.

(** C13: Every member's state machine is the initial one after the entries its log has
    delivered, whatever the schedule: the entries with the indices 1, 2, 3, ... up to
    the last applied one, each once and in this order, through elections, conflicting
    appends and truncations. *)
Theorem replicas_apply_in_order {S} `{StateMachine S} ids cfg (s0 : S) peers evs w i m :
  run (start ids cfg s0 peers) evs = Some w -> members w !! i = Some m ->
  exists ds, state_machine m = replay s0 ds /\ Log.index <$> ds = indices (Log.last_applied (log (node m))) /\
    Log.log_run (log (node m)) ds.
Proof.
  intros Hr Hm. destruct (replicas_run s0 evs _ _ (replicas_start ids cfg s0 peers) Hr i m Hm) as (ds & [? ? ?] & ?). by exists ds.
Qed.

(** ** Schedules of three members *)

Definition peers3 (i : N) : list PeerInfo := map (fun p => mkPeer p [48 + p]) (filter (fun p => p <> i) [1; 2; 3]).
Definition trio : world Kv.KvStateMachine := start Election.three Election.cfg3 Kv.new peers3.

Definition set_a (v : N) : list N := text "SET a=" ++ [48 + v].

(** The timer of [i] fires, the first peer of [i] votes for it and the other one is not reached. *)
Definition elected (i : N) : list event :=
  [ETimer i; ETimer i; ETimer i; ETimer i; EVote 0; EVoteAnswer i 0; ETimer i; EVoteLost i; ETimer i].
(** The timer of [i] fires and no peer is reached. *)
Definition not_elected (i : N) : list event := [ETimer i; ETimer i; ETimer i; ETimer i; EVoteLost i; ETimer i; EVoteLost i; ETimer i].
(** The heartbeat thread up to the collected requests. *)
Definition collect (i : N) : list event := [EBeat i; EBeat i; EBeat i; EBeat i].
Definition reach_second (i : N) : list event := [EBeat i; EAppendLost i; EBeat i; EAppend 0; EAppendAnswer i 0; EBeat i].
Definition reach_first (i : N) : list event := [EBeat i; EAppend 0; EAppendAnswer i 0; EBeat i; EAppendLost i; EBeat i].

Definition view (w : option (world Kv.KvStateMachine)) (i : N) : option (RaftRole * N * option (list N) * list CallState) :=
  w ← w; m ← members w !! i; Some (role (node m), current_term (node m), state_machine m !! text "a", calls m).

(** The commands in a member's log. *)
Definition commands (w : option (world Kv.KvStateMachine)) (i : N) : option (list (list N)) :=
  w ← w; m ← members w !! i; Some (Log.data <$> drop 1 (Log.entries (log (node m)))).

(** Member 2 leads term 1 and takes [a=1], which reaches nobody; member 3 leads term 2. *)
Definition two_leaders : list event :=
  elected 2 ++ [ECall 2 [set_a 1]; EClient 2 0] ++ not_elected 3 ++ elected 3.

Lemma run_reaches {S} (r : option (world S)) i : (w ← r; _ ← members w !! i; Some ()) = Some () ->
  exists w m, r = Some w /\ members w !! i = Some m.
Proof. intros (w & -> & (m & Hm & _)%bind_Some)%bind_Some. by exists w, m. Qed.

Lemma cluster_refines_election_witness : exists w, run trio two_leaders = Some w /\
  (exists s, rtc Election.step (Election.init Election.three Election.cfg3) s /\ simulates w s) /\
  forall i j mi mj, members w !! i = Some mi -> members w !! j = Some mj ->
    role (node mi) = Leader -> role (node mj) = Leader -> current_term (node mi) = current_term (node mj) -> i = j.
Proof.
  destruct (run_reaches (run trio two_leaders) 1) as (w & _ & Hr & _); [vm_compute; reflexivity|]. exists w. split; [exact Hr|].
  exact (cluster_refines_election Election.three Election.cfg3 Kv.new peers3 two_leaders w Election.cfg3_ok Hr).
Defined.

(** Member 3 takes [a=2] while its heartbeat is on the way; the acknowledgement of
    member 2 covers the entry of its own, and member 3 commits and applies. *)
Definition acknowledged : list event :=
  two_leaders ++ collect 3 ++ [ECall 3 [set_a 2]; EClient 3 0] ++ reach_second 3 ++ [EClient 3 0; EBeat 3; EBeat 3; EBeat 3].
(** Member 2, whose log is longer than that of member 1, leads again. *)
Definition diverged : list event :=
  acknowledged ++ [ETimer 2] ++ elected 2 ++ [ECall 2 [text "SET b=1"]; EClient 2 1] ++
  collect 2 ++ reach_first 2 ++ collect 2 ++ reach_first 2 ++ [EBeat 2; EBeat 2; EBeat 2].

Lemma replicas_apply_in_order_witness : exists w m, run trio diverged = Some w /\ members w !! 2 = Some m /\
  exists ds, state_machine m = replay Kv.new ds /\ Log.index <$> ds = indices (Log.last_applied (log (node m))) /\
    Log.log_run (log (node m)) ds.
Proof.
  destruct (run_reaches (run trio diverged) 2) as (w & m & Hr & Hm); [vm_compute; reflexivity|]. exists w, m.
  split; [exact Hr|]. split; [exact Hm|]. exact (replicas_apply_in_order Election.three Election.cfg3 Kv.new peers3 diverged w 2 m Hr Hm).
Defined.

(** Two replicas diverge: in a cluster of three, without any failure but lost messages,
    member 3 confirms [a=2] to its client and applies it as the first entry, and
    member 2 applies [a=1] as the first entry, both of them as leaders. *)
Theorem replicas_diverge :
  view (run trio diverged) 3 = Some (Leader, 2, Some [50], [Returned (inl 1)]) /\
  view (run trio diverged) 2 = Some (Leader, 3, Some [49], [Poll 1 []; Poll 2 []]).
Proof. split; vm_compute; reflexivity. Qed.

(** A client is told that its command was committed when another one was: the call at
    member 2 waits for a commit index and not for its entry, which the new leader has
    replaced.  The command [a=1] is confirmed and in no log. *)
Theorem overwritten_command_confirmed :
  let r := run trio (two_leaders ++ [ECall 3 [set_a 2]; EClient 3 0] ++ collect 3 ++ reach_second 3 ++
                     collect 3 ++ reach_second 3 ++ [EClient 2 0]) in
  view r 2 = Some (Follower, 2, None, [Returned (inl 1)]) /\
  map (commands r) [1; 2; 3] = [Some []; Some [set_a 2]; Some [set_a 2]].
Proof. split; vm_compute; reflexivity. Qed.

(** Heartbeats do not hold off elections: the timer of member 1 looks at the term and
    the commit index, which a leader without new commands does not change.  Member 1
    gets every heartbeat and deposes the leader all the same. *)
Theorem idle_leader_deposed :
  let beats := collect 2 ++ reach_first 2 in
  let r := elected 2 ++ beats ++ [ETimer 1] ++ beats ++ beats in
  view (run trio r) 2 = Some (Leader, 1, None, []) /\
  view (run trio (r ++ [ETimer 1; ETimer 1; ETimer 1; ETimer 1; EVote 0])) 2 = Some (Follower, 2, None, []).
Proof. split; vm_compute; reflexivity. Qed.

End ClusterSpec.
