(* ===== verification/RaftSolo.v ===== *)
(** * A cluster of one

    A member without peers makes progress by its own threads: from every state it can
    reach, its timer makes it the leader and its heartbeat thread commits and applies
    what has been proposed to it. *)

From stdpp Require Import gmap strings.
From S2P Require Import Prelude Bytes Strings RaftLog RaftNode RaftElection StateMachine RaftCluster RaftClusterSpec.
Import Node Cluster ClusterSpec.

Module Solo.

Section Machine.
Context {S : Type} `{StateMachine S}.
Implicit Types (m : RaftCluster S).

(** The commands of a log that have been applied. *)
Definition applied (l : Log.RaftLog) : list Log.LogEntry := read_at (Log.entries l) 1 (Log.last_applied l).

Record solo_node (n : RaftNode) : Prop := {
  sn_peers : peers (config n) = [];
  sn_wf : Log.log_wf (log n);
  sn_base : Log.base_index (log n) = 0;
  sn_commit : Log.commit_index (log n) = commit_index n;
  sn_applied : Log.last_applied (log n) <= commit_index n
}.

Definition nothing_sent (b : BeatPhase) : Prop :=
  match b with
  | BSend waiting todo => waiting = None /\ todo = []
  | _ => True
  end.

Record solo (s0 : S) m : Prop := {
  so_node : solo_node (node m);
  so_machine : state_machine m = replay s0 (applied (log (node m)));
  so_timer : thread_of (timer m) = Election.idle;
  so_beat : nothing_sent (beat m);
  so_leader : beat m <> BSleep -> beat m <> BDone -> role (node m) = Leader;
  so_running : stopped m = false -> timer m <> TDone /\ beat m <> BDone
}.

Definition alone (i : N) m : world S := mkWorld {[i := m]} [] [] [] [].

(** ** The handlers *)

Lemma solo_start n : peers (config n) = [] ->
  (start_election n).2 = [] /\ role (start_election n).1 = Leader /\ log (start_election n).1 = log n /\
  config (start_election n).1 = config n /\ commit_index (start_election n).1 = commit_index n /\
  current_term (start_election n).1 = wadd 64 (current_term n) 1.
Proof.
  intros Hp. unfold start_election. cbn. unfold quorum. cbn. rewrite Hp. change (len []) with 0. cbn. done.
Qed.

Lemma solo_heartbeat n : peers (config n) = [] -> heartbeat n = [].
Proof. intros Hp. unfold heartbeat. rewrite Hp. by case_bool_decide. Qed.

Lemma solo_node_start n : solo_node n -> solo_node (start_election n).1.
Proof.
  intros [Hp Hw Hb Hc Ha]. destruct (solo_start n Hp) as (_ & _ & Hl & Hcf & Hci & _).
  split; rewrite ?Hl, ?Hcf, ?Hci; done.
Qed.

(** What [advance_commit_if_solo] does to a leader. *)
Lemma solo_advance n : solo_node n -> role n = Leader ->
  let n' := advance_commit_if_solo n in
  solo_node n' /\ role n' = Leader /\ current_term n' = current_term n /\ commit_index n' = Log.last_index (log n) /\
  Log.entries (log n') = Log.entries (log n) /\ Log.last_applied (log n') = Log.last_applied (log n).
Proof.
  intros [Hp Hw Hb Hc Ha] Hr n'. pose proof (Log.last_index_eq _ Hw) as Hl. pose proof (Log.wf_commit _ Hw) as Hwc. unfold n', advance_commit_if_solo.
  rewrite Hr, Hp. rewrite !bool_decide_eq_false_2 by (intros ?; done). cbn.
  destruct (N.ltb_spec (commit_index n) (Log.last_index (log n))).
  - pose proof (Log.advance_commit_wf (log n) (Log.last_index (log n)) Hw) as Hw'. unfold Log.advance_commit in *. rewrite Hc in *.
    destruct (N.ltb_spec (commit_index n) (Log.last_index (log n))); [|lia]. cbn in *. rewrite N.min_id in *.
    split_and!; try done. split; cbn; try done. lia.
  - split_and!; try done. lia.
Qed.

Lemma solo_take n n' out : solo_node n -> take_applicable n = (n', out) ->
  solo_node n' /\ role n' = role n /\ current_term n' = current_term n /\ commit_index n' = commit_index n /\
  Log.entries (log n') = Log.entries (log n) /\ Log.last_applied (log n') = commit_index n /\
  applied (log n') = applied (log n) ++ out.
Proof.
  intros [Hp Hw Hb Hc Ha]. unfold take_applicable. rewrite (Log.take_applicable_spec _ Hw). intros [= <- <-]. cbn.
  rewrite Hc, Hb, N.sub_0_r, N.max_r by done. split_and!; try done.
  - split; cbn; try done. apply Log.set_last_applied_wf; [done|]. rewrite Hb. lia.
  - unfold applied, read_at. cbn. apply list_eq. intros k. destruct (decide (k < N.to_nat (Log.last_applied (log n)))%nat).
    + rewrite lookup_app_l by (rewrite length_take, length_drop; pose proof (Log.wf_commit _ Hw); unfold len in *; lia).
      rewrite !lookup_take_lt by lia. done.
    + rewrite lookup_app_r by (rewrite length_take; lia). rewrite length_take, length_drop.
      pose proof (Log.wf_commit _ Hw). unfold len in *.
      replace (k - N.to_nat (Log.last_applied (log n)) `min` (length (Log.entries (log n)) - N.to_nat 1))%nat with (k - N.to_nat (Log.last_applied (log n)))%nat by lia.
      destruct (decide (k < N.to_nat (commit_index n))%nat).
      * rewrite !lookup_take_lt by lia. rewrite !lookup_drop. f_equal. lia.
      * rewrite !lookup_take_ge by lia. done.
Qed.

Lemma solo_propose n d : solo_node n -> role n = Leader -> Log.last_index (log n) + 2 < 2 ^ 64 ->
  exists n', propose n d = (n', Some (Log.last_index (log n) + 1)) /\ solo_node n' /\ role n' = Leader /\
    current_term n' = current_term n /\ commit_index n' = commit_index n /\ applied (log n') = applied (log n) /\
    Log.last_index (log n') = Log.last_index (log n) + 1 /\
    Log.entries (log n') = Log.entries (log n) ++ [Log.mkEntry (current_term n) (Log.last_index (log n) + 1) d].
Proof.
  intros [Hp Hw Hb Hc Ha] Hr Hroom. unfold propose. rewrite Hr, bool_decide_eq_false_2 by (intros ?; done).
  destruct (append_after_last (log n) (current_term n) d Hw Hroom) as (Hw' & Hl' & Hg). pose proof (Log.last_index_eq _ Hw) as Hl.
  destruct (Log.append (log n) (current_term n) d) as [l i] eqn:Happ. cbn in Hw', Hl', Hg.
  assert (Hi : i = Log.last_index (log n) + 1).
  { unfold Log.append in Happ. injection Happ as _ <-. pose proof (Log.wf_nonempty _ Hw). rewrite Hl, wadd_small by lia. lia. }
  subst i. unfold Log.append in Happ. injection Happ as <- Hi. rewrite Hi in Hw', Hl' |- *. eexists. split; [done|]. split_and!; try done.
  - unfold applied, read_at. cbn. pose proof (Log.wf_commit _ Hw). pose proof (Log.wf_nonempty _ Hw). unfold len in *.
    rewrite drop_app_le by lia. rewrite take_app_le; [done|]. rewrite length_drop. lia.
Qed.

(** ** Every action keeps the invariant *)

Ltac still_running Hr := let H := fresh in intros H; first [congruence | destruct Hr as [? ?]; [done|by split]].

Lemma solo_timer_step s0 m m' out : solo s0 m -> timer_step m = Some (m', out) -> out = None /\ solo s0 m'.
Proof.
  intros [Hn Hm Ht Hb Hl Hr] Hst. unfold timer_step in Hst. destruct (timer m) as [| |reqs|[wt todo]|] eqn:Hph; try done.
  - injection Hst as <- <-. split; [done|]. unfold timer_wake. repeat case_match; split; cbn; rewrite ?Hph; try done; still_running Hr.
  - destruct (start_election (node m)) as [n reqs] eqn:He. injection Hst as <- <-. split; [done|].
    destruct (solo_start _ (sn_peers _ Hn)) as (H2 & Hld & Hlg & _). pose proof (solo_node_start _ Hn) as Hn'. rewrite He in *. cbn in *. subst reqs.
    split; cbn; try done; [by rewrite Hlg|still_running Hr].
  - injection Hst as <- <-. cbn in Ht. injection Ht as ->. split; [done|]. split; cbn; try done. still_running Hr.
  - cbn in Ht. injection Ht as -> ->. injection Hst as <- <-. split; [done|]. split; cbn; try done. still_running Hr.
Qed.

Lemma solo_beat_step s0 m m' out : solo s0 m -> beat_step m = Some (m', out) -> out = None /\ solo s0 m'.
Proof.
  intros [Hn Hm Ht Hb Hl Hr] Hst. unfold beat_step in Hst. destruct (beat m) as [| | | |wt todo|] eqn:Hph; try done.
  - repeat case_match; injection Hst as <- <-; (split; [done|]); split; cbn; rewrite ?Hph; try done; first [still_running Hr | intros _ _; unfold is_leader in *; by case_bool_decide].
  - injection Hst as <- <-. destruct (solo_advance _ Hn (Hl ltac:(done) ltac:(done))) as (Hn' & Hr' & _ & _ & He & Ha).
    split; [done|]. split; cbn; try done; [unfold applied in *; by rewrite He, Ha|still_running Hr].
  - destruct (take_applicable (node m)) as [n es] eqn:He. injection Hst as <- <-.
    destruct (solo_take _ _ _ Hn He) as (Hn' & Hr' & _ & _ & _ & _ & Ha). split; [done|]. split; cbn; try done.
    + rewrite Ha, Hm. unfold replay. by rewrite foldl_app.
    + intros _ _. rewrite Hr'. by apply Hl.
    + still_running Hr.
  - injection Hst as <- <-. rewrite (solo_heartbeat _ (sn_peers _ Hn)). split; [done|]. split; cbn; try done; [intros _ _; by apply Hl|still_running Hr].
  - destruct Hb as [-> ->]. injection Hst as <- <-. split; [done|]. split; cbn; try done. still_running Hr.
Qed.

Lemma solo_call_step s0 m c n c' k : solo s0 m -> room (node m) 1 = true -> call_step (node m) c = Some (n, c') ->
  solo s0 (with_calls (with_node m n) (<[k := c']> (calls m))).
Proof.
  intros [Hn Hm Ht Hb Hl Hr] Hroom Hk. unfold call_step in Hk. apply room_last in Hroom. destruct c as [[|d rest]|idx rest|]; try done.
  - destruct (decide (role (node m) = Leader)) as [He|He].
    + destruct (solo_propose (node m) d Hn He) as (n' & Hp & Hn' & Hl' & _ & _ & Ha & _); [lia|]. rewrite Hp in Hk. injection Hk as <- <-.
      split; cbn; try done. by rewrite Ha.
    + unfold propose in Hk. rewrite bool_decide_eq_true_2 in Hk by done. injection Hk as <- <-. by split.
  - assert (n = node m) as -> by (repeat case_match; by simplify_eq). by split.
Qed.

Lemma solo_step s0 i m ev w : solo s0 m -> step (alone i m) ev = Some w -> exists m', w = alone i m' /\ solo s0 m'.
Proof.
  intros Hs Hst. pose proof Hs as [Hn Hm Ht Hb Hl Hr].
  destruct ev as [j|k|j k|j|j|k|j k|j|j cmds|j k|j k|j]; cbn in Hst; try done;
    apply bind_Some in Hst as (m1 & Hj & Hst); apply lookup_singleton_Some in Hj as [<- <-]; unfold alone, set_member in *; cbn [members] in *.
  - case_match; [|done]. apply bind_Some in Hst as ([m' out] & Hk & [= <-]). destruct (solo_timer_step _ _ _ _ Hs Hk) as [-> ?].
    exists m'. by rewrite insert_singleton_eq.
  - by apply bind_Some in Hst as (msg & [=] & _).
  - apply bind_Some in Hst as (m' & Hk & _). unfold vote_answer in Hk. destruct (timer m) as [| | |[[[p req]|] rest]|]; done.
  - apply bind_Some in Hst as ([m' out] & Hk & [= <-]). destruct (solo_beat_step _ _ _ _ Hs Hk) as [-> ?].
    exists m'. by rewrite insert_singleton_eq.
  - by apply bind_Some in Hst as (msg & [=] & _).
  - apply bind_Some in Hst as (m' & Hk & _). unfold append_answer in Hk. destruct (beat m) as [| | | |wt rest|]; try done. by destruct Hb as [-> ->].
  - injection Hst as <-. eexists. rewrite insert_singleton_eq. split; [done|]. by split.
  - apply bind_Some in Hst as (c & Hc & Hst). destruct (room _ _) eqn:Hroom; [|done]. apply bind_Some in Hst as ([n c'] & Hk & [= <-]).
    eexists. rewrite insert_singleton_eq. split; [done|]. by eapply solo_call_step.
  - apply bind_Some in Hst as (c & Hc & Hst). apply bind_Some in Hst as (c' & Hk & [= <-]).
    eexists. rewrite insert_singleton_eq. split; [done|]. by split.
  - injection Hst as <-. eexists. rewrite insert_singleton_eq. split; [done|]. by split.
Qed.

Lemma solo_run s0 i evs m w : solo s0 m -> run (alone i m) evs = Some w -> exists m', w = alone i m' /\ solo s0 m'.
Proof.
  revert m. induction evs as [|ev evs IH]; cbn; intros m Hs Hr; [injection Hr as <-; by exists m|].
  apply bind_Some in Hr as (w1 & Hst & Hr). destruct (solo_step _ _ _ _ _ Hs Hst) as (m1 & -> & Hs1). by eapply IH.
Qed.

Lemma start_alone i cfg (s0 : S) peers : start {[i]} cfg s0 peers = alone i (Cluster.new (cfg i) s0 (peers i)).
Proof. unfold start, alone, set_to_map. by rewrite elements_singleton. Qed.

Lemma new_solo cfg (s0 : S) peers : Node.peers cfg = [] -> solo s0 (Cluster.new cfg s0 peers).
Proof. intros Hp. split; try done. split; try done. apply Log.log_new_wf. Qed.

(** ** Progress *)

Lemma run_app (w : world S) evs evs' : run w (evs ++ evs') = (w ← run w evs; run w evs').
Proof. revert w. induction evs as [|ev evs IH]; cbn; intros w; [done|]. destruct (step w ev); cbn; [apply IH|done]. Qed.

(** One action of the timer, and of the heartbeat thread. *)
Lemma alone_timer i m m' : room (node m) 0 = true -> timer_step m = Some (m', None) -> step (alone i m) (ETimer i) = Some (alone i m').
Proof. intros Hr Ht. cbn. rewrite lookup_singleton_eq. cbn. rewrite Hr, Ht. cbn. unfold alone. by rewrite insert_singleton_eq. Qed.

Lemma alone_beat i m m' : beat_step m = Some (m', None) -> step (alone i m) (EBeat i) = Some (alone i m').
Proof. intros Ht. cbn. rewrite lookup_singleton_eq. cbn. rewrite Ht. cbn. unfold alone. by rewrite insert_singleton_eq. Qed.

(** What the timer leaves alone. *)
Record waits m m' : Prop := {
  wt_log : log (node m') = log (node m);
  wt_calls : calls m' = calls m;
  wt_stopped : stopped m' = stopped m;
  wt_term : current_term (node m') <= current_term (node m) + 1
}.

(** The number of actions until the timer has started an election. *)
Definition timer_distance m : nat :=
  match timer m with
  | TStart => 1
  | TSleep => if (current_term (node m) =? timer_term m) && (commit_index (node m) =? timer_commit m) then 2 else 3
  | TVotes _ => 4
  | TTerm _ => 5
  | TDone => 0
  end.

Lemma timer_advances s0 m : solo s0 m -> stopped m = false -> room (node m) 0 = true -> role (node m) <> Leader ->
  exists m', timer_step m = Some (m', None) /\ waits m m' /\
    (role (node m') = Leader \/ node m' = node m /\ (timer_distance m' < timer_distance m)%nat).
Proof.
  intros [Hn Hm Ht Hb Hl Hr] Hs Hroom Hrole. unfold timer_step, timer_distance. destruct (timer m) as [| |reqs|[wt todo]|] eqn:Hph.
  - eexists. split; [done|]. unfold timer_wake. rewrite Hs. unfold is_leader. rewrite bool_decide_eq_false_2 by done.
    destruct (N.eqb_spec (current_term (node m)) (timer_term m)), (N.eqb_spec (commit_index (node m)) (timer_commit m)); cbn;
      rewrite ?Hph, ?N.eqb_refl; cbn; (split; [split; cbn; done || lia|]); right; (split; [done|lia]).
  - destruct (solo_start _ (sn_peers _ Hn)) as (H2 & Hld & Hlg & _ & _ & Hterm). destruct (start_election (node m)) as [n reqs]. cbn in *.
    eexists. split; [done|]. split; [|by left]. split; cbn; try done. rewrite Hterm. unfold wadd, wrap. apply N.Div0.mod_le.
  - cbn in Ht. injection Ht as ->. eexists. split; [done|]. cbn. split; [split; cbn; done || lia|]. right. split; [done|lia].
  - cbn in Ht. injection Ht as -> ->. eexists. split; [done|]. cbn. split; [split; cbn; done || lia|]. right. split; [done|]. case_match; lia.
  - by destruct (Hr Hs).
Qed.

Lemma timer_elects s0 i m : solo s0 m -> stopped m = false -> room (node m) 0 = true ->
  exists t m', run (alone i m) (replicate t (ETimer i)) = Some (alone i m') /\ solo s0 m' /\ role (node m') = Leader /\ waits m m'.
Proof.
  remember (timer_distance m) as k eqn:Hk. revert m Hk. induction k as [k IH] using lt_wf_ind. intros m -> Hs Hst Hroom.
  destruct (decide (role (node m) = Leader)) as [Hl|Hl].
  { exists 0%nat, m. split_and!; [done..|]. split; done || lia. }
  destruct (timer_advances s0 m Hs Hst Hroom Hl) as (m1 & Ht & [Hw1 Hw2 Hw3 Hw4] & Hc). destruct (solo_timer_step _ _ _ _ Hs Ht) as [_ Hs1].
  pose proof (alone_timer i _ _ Hroom Ht) as Hstep. destruct Hc as [Hl1|[Hn1 Hd]].
  - exists 1%nat, m1. split; [change (replicate 1 (ETimer i)) with [ETimer i]; cbn [run]; by rewrite Hstep|]. split_and!; [done..|]. by split.
  - destruct (IH _ Hd m1 eq_refl Hs1) as (t & m' & Hrun & Hs' & Hl' & [? ? ? ?]); [congruence|by rewrite Hn1|].
    exists (Datatypes.S t), m'. split; [cbn [replicate run]; rewrite Hstep; exact Hrun|]. split_and!; [done..|]. split; congruence.
Qed.

(** What the heartbeat thread leaves alone. *)
Record beats m m' : Prop := {
  bt_entries : Log.entries (log (node m')) = Log.entries (log (node m));
  bt_calls : calls m' = calls m;
  bt_stopped : stopped m' = stopped m;
  bt_term : current_term (node m') = current_term (node m);
  bt_role : role (node m') = role (node m)
}.

Lemma beats_refl m : beats m m.
Proof. done. Qed.

Lemma beats_trans m1 m2 m3 : beats m1 m2 -> beats m2 m3 -> beats m1 m3.
Proof. intros [? ? ? ? ?] [? ? ? ? ?]. split; congruence. Qed.

Definition next_beat (b : BeatPhase) : BeatPhase :=
  match b with
  | BSleep => BSolo
  | BSolo => BApply
  | BApply => BCollect
  | BCollect => BSend None []
  | BSend _ _ => BSleep
  | BDone => BDone
  end.

Lemma beat_advances s0 m : solo s0 m -> stopped m = false -> role (node m) = Leader ->
  exists m', beat_step m = Some (m', None) /\ beats m m' /\ beat m' = next_beat (beat m) /\
    (beat m = BSolo -> commit_index (node m') = Log.last_index (log (node m))) /\
    (beat m = BApply -> commit_index (node m') = commit_index (node m) /\ Log.last_applied (log (node m')) = commit_index (node m)).
Proof.
  intros [Hn Hm Ht Hb Hl Hr] Hs Hrole. unfold beat_step. destruct (beat m) as [| | | |wt todo|] eqn:Hph.
  - rewrite Hs. unfold is_leader. rewrite bool_decide_eq_true_2 by done. eexists. by split_and!.
  - destruct (solo_advance _ Hn Hrole) as (_ & Hr' & Htm & Hc & He & _). eexists. split; [done|]. split_and!; try done. split; cbn; congruence.
  - destruct (take_applicable (node m)) as [n es] eqn:He. destruct (solo_take _ _ _ Hn He) as (_ & Hr' & Htm & Hc & Hes & Ha & _).
    eexists. split; [done|]. by split_and!.
  - rewrite (solo_heartbeat _ (sn_peers _ Hn)). eexists. by split_and!.
  - destruct Hb as [-> ->]. eexists. by split_and!.
  - by destruct (Hr Hs).
Qed.

Definition beat_distance (b : BeatPhase) : nat :=
  match b with
  | BSolo | BDone => 0
  | BSleep => 1
  | BSend _ _ => 2
  | BCollect => 3
  | BApply => 4
  end.

Lemma beat_wakes s0 i m : solo s0 m -> stopped m = false -> role (node m) = Leader ->
  exists b m', run (alone i m) (replicate b (EBeat i)) = Some (alone i m') /\ solo s0 m' /\ beats m m' /\ beat m' = BSolo.
Proof.
  remember (beat_distance (beat m)) as k eqn:Hk. revert m Hk. induction k as [k IH] using lt_wf_ind. intros m -> Hs Hst Hl.
  destruct (beat_advances s0 m Hs Hst Hl) as (m1 & Ht & Hb & Hnext & _). destruct (solo_beat_step _ _ _ _ Hs Ht) as [_ Hs1].
  pose proof (alone_beat i _ _ Ht) as Hstep. pose proof (so_running _ _ Hs Hst) as [_ Hdone].
  assert (Hc : beat m = BSolo \/ (beat_distance (beat m1) < beat_distance (beat m))%nat) by (rewrite Hnext; destruct (beat m); cbn; auto; lia || done).
  destruct Hc as [Hc|Hc]; [exists 0%nat, m; by split_and!|].
  destruct (IH _ Hc m1 eq_refl Hs1) as (b & m' & Hrun & Hs' & Hb' & ?); [by rewrite (bt_stopped _ _ Hb)|by rewrite (bt_role _ _ Hb)|].
  exists (Datatypes.S b), m'. split; [cbn [replicate run]; rewrite Hstep; exact Hrun|]. split_and!; [done|by eapply beats_trans|done].
Qed.

Lemma beats_last m m' s0 s0' : solo s0 m -> solo s0' m' -> beats m m' -> Log.last_index (log (node m')) = Log.last_index (log (node m)).
Proof.
  intros Hs Hs' Hb. destruct (so_node _ _ Hs), (so_node _ _ Hs'). rewrite !Log.last_index_eq by done.
  rewrite (bt_entries _ _ Hb). congruence.
Qed.

Lemma beat_applies s0 i m : solo s0 m -> stopped m = false -> role (node m) = Leader ->
  exists b m', run (alone i m) (replicate b (EBeat i)) = Some (alone i m') /\ solo s0 m' /\ beats m m' /\
    commit_index (node m') = Log.last_index (log (node m)) /\ Log.last_applied (log (node m')) = Log.last_index (log (node m)).
Proof.
  intros Hs Hst Hl. destruct (beat_wakes s0 i m Hs Hst Hl) as (b & m0 & Hrun & Hs0 & Hb0 & Hph0).
  assert (Hst0 : stopped m0 = false) by (by rewrite (bt_stopped _ _ Hb0)). assert (Hl0 : role (node m0) = Leader) by (by rewrite (bt_role _ _ Hb0)).
  destruct (beat_advances s0 m0 Hs0 Hst0 Hl0) as (m1 & Ht1 & Hb1 & Hph1 & Hc1 & _). destruct (solo_beat_step _ _ _ _ Hs0 Ht1) as [_ Hs1].
  assert (Hst1 : stopped m1 = false) by (by rewrite (bt_stopped _ _ Hb1)). assert (Hl1 : role (node m1) = Leader) by (by rewrite (bt_role _ _ Hb1)).
  destruct (beat_advances s0 m1 Hs1 Hst1 Hl1) as (m2 & Ht2 & Hb2 & _ & _ & Hc2). destruct (solo_beat_step _ _ _ _ Hs1 Ht2) as [_ Hs2].
  specialize (Hc1 Hph0). rewrite Hph0 in Hph1. destruct (Hc2 Hph1) as [Hc Ha]. rewrite (beats_last _ _ _ _ Hs Hs0 Hb0) in Hc1.
  exists (b + 2)%nat, m2. split_and!; [|done| |congruence|congruence].
  - rewrite replicate_add, run_app, Hrun. change (replicate 2 (EBeat i)) with [EBeat i; EBeat i]. cbn [mbind option_bind run].
    rewrite (alone_beat i _ _ Ht1). cbn [mbind option_bind]. rewrite (alone_beat i _ _ Ht2). done.
  - eapply beats_trans; [done|]. by eapply beats_trans.
Qed.

(** A client action of a lone member. *)
Lemma alone_client i m k c n c' : calls m !! k = Some c -> room (node m) 1 = true -> call_step (node m) c = Some (n, c') ->
  step (alone i m) (EClient i k) = Some (alone i (with_calls (with_node m n) (<[k := c']> (calls m)))).
Proof.
  intros Hc Hr Hk. cbn. rewrite lookup_singleton_eq. cbn. rewrite Hc. cbn. rewrite Hr, Hk. cbn. unfold set_member, alone. cbn. by rewrite insert_singleton_eq.
Qed.

Lemma alone_call i m cmds : step (alone i m) (ECall i cmds) = Some (alone i (with_calls m (calls m ++ [Propose cmds]))).
Proof. cbn. rewrite lookup_singleton_eq. cbn. unfold set_member, alone. cbn. by rewrite insert_singleton_eq. Qed.

(** A leader's client proposes a command. *)
Lemma client_proposes s0 i m d : solo s0 m -> role (node m) = Leader -> room (node m) 1 = true ->
  let k := length (calls m) in let idx := Log.last_index (log (node m)) + 1 in
  exists m', run (alone i m) [ECall i [d]; EClient i k] = Some (alone i m') /\ solo s0 m' /\ role (node m') = Leader /\
    stopped m' = stopped m /\ current_term (node m') = current_term (node m) /\ calls m' = calls m ++ [Poll idx []] /\
    Log.last_index (log (node m')) = idx /\
    Log.entries (log (node m')) = Log.entries (log (node m)) ++ [Log.mkEntry (current_term (node m)) idx d].
Proof.
  intros Hs Hl Hroom k idx. pose proof (room_last _ _ Hroom) as Hlast.
  destruct (solo_propose (node m) d (so_node _ _ Hs) Hl) as (n & Hp & _ & Hl' & Ht & _ & _ & Hi & He); [lia|].
  assert (Hk : (calls m ++ [Propose [d]]) !! k = Some (Propose [d])) by (apply list_lookup_middle; done).
  set (m1 := with_calls m (calls m ++ [Propose [d]])). assert (Hc : call_step (node m1) (Propose [d]) = Some (n, Poll idx [])) by (cbn; by rewrite Hp).
  exists (with_calls (with_node m1 n) (<[k := Poll idx []]> (calls m1))). split_and!; try done.
  - cbn [run]. rewrite alone_call. fold m1. cbn [mbind option_bind]. rewrite (alone_client i m1 k (Propose [d]) n (Poll idx [])); done.
  - eapply solo_call_step; [|exact Hroom|exact Hc]. destruct Hs. by split.
  - cbn. by rewrite insert_app_r_alt, Nat.sub_diag by lia.
Qed.

Lemma applied_all l : Log.log_wf l -> Log.base_index l = 0 -> Log.last_applied l = Log.last_index l -> applied l = drop 1 (Log.entries l).
Proof.
  intros Hw Hb Ha. unfold applied, read_at. rewrite Ha, Log.last_index_eq, Hb by done. apply take_ge. rewrite length_drop. unfold len. lia.
Qed.
End Machine.

(** C14: A member without peers makes progress: from every state it can reach in which it
    has not been stopped, finitely many actions of its timer make it the leader, a
    client proposes a command, and after finitely many actions of its heartbeat thread
    the client's call returns; the state machine has then applied all commands that
    were in the log and the client's last.  The bounds keep the next term and the next
    two log indices within 64 bits. *)
Theorem solo_member_commits {S} `{StateMachine S} i cfg (s0 : S) peers evs w m d :
  Node.peers (cfg i) = [] -> run (start {[i]} cfg s0 peers) evs = Some w -> members w !! i = Some m -> stopped m = false ->
  Log.last_index (log (node m)) + 4 < 2 ^ 64 -> current_term (node m) + 1 < u64_max ->
  exists t b w' m' e,
    run w (replicate t (ETimer i) ++ [ECall i [d]; EClient i (length (calls m))] ++
           replicate b (EBeat i) ++ [EClient i (length (calls m))]) = Some w' /\
    members w' !! i = Some m' /\ Log.data e = d /\
    calls m' !! length (calls m) = Some (Returned (inl (Log.index e))) /\
    state_machine m' = replay s0 (drop 1 (Log.entries (log (node m))) ++ [e]).
Proof.
  intros Hp Hr Hm Hst Hlast Hterm. rewrite start_alone in Hr. destruct (solo_run _ _ _ _ _ (new_solo _ _ _ Hp) Hr) as (m0 & -> & Hs).
  cbn in Hm. apply lookup_singleton_Some in Hm as [_ ->]. assert (Hroom : room (node m) 0 = true) by (unfold room; rewrite andb_true_iff, !N.ltb_lt; lia).
  destruct (timer_elects s0 i m Hs Hst Hroom) as (t & m1 & Hr1 & Hs1 & Hl1 & [Hw1 Hw2 Hw3 Hw4]).
  assert (Hroom1 : room (node m1) 1 = true) by (unfold room; rewrite Hw1, andb_true_iff, !N.ltb_lt; lia).
  destruct (client_proposes s0 i m1 d Hs1 Hl1 Hroom1) as (m2 & Hr2 & Hs2 & Hl2 & Hst2 & Ht2 & Hc2 & Hi2 & He2).
  destruct (beat_applies s0 i m2 Hs2 ltac:(congruence) Hl2) as (b & m3 & Hr3 & Hs3 & Hb3 & Hcom & Happ).
  set (idx := Log.last_index (log (node m1)) + 1) in *. set (k := length (calls m)). rewrite Hw2 in *. fold k in Hr2.
  assert (Hk : calls m3 !! k = Some (Poll idx [])) by (rewrite (bt_calls _ _ Hb3), Hc2; by apply list_lookup_middle).
  assert (Hroom3 : room (node m3) 1 = true).
  { unfold room. rewrite (beats_last _ _ _ _ Hs2 Hs3 Hb3), Hi2, (bt_term _ _ Hb3), Ht2. unfold idx. rewrite Hw1, andb_true_iff, !N.ltb_lt. lia. }
  assert (Hc : call_step (node m3) (Poll idx []) = Some (node m3, Returned (inl idx))).
  { cbn. rewrite Hcom, Hi2. by destruct (N.leb_spec idx idx); [|lia]. }
  exists t, b. do 2 eexists. exists (Log.mkEntry (current_term (node m1)) idx d). split_and!; [| |done| |].
  - rewrite run_app, Hr1. cbn [mbind option_bind]. rewrite run_app, Hr2. cbn [mbind option_bind]. rewrite run_app, Hr3. cbn [mbind option_bind run].
    rewrite (alone_client i m3 k _ _ _ Hk Hroom3 Hc). done.
  - apply lookup_singleton_eq.
  - cbn. apply list_lookup_insert_eq. by eapply lookup_lt_Some.
  - cbn. rewrite (so_machine _ _ Hs3). f_equal. destruct (so_node _ _ Hs3) as [_ Hwf3 Hb0 _ _].
    rewrite applied_all by (done || by rewrite Happ, (beats_last _ _ _ _ Hs2 Hs3 Hb3)). rewrite (bt_entries _ _ Hb3), He2, Hw1.
    pose proof (Log.wf_nonempty _ (sn_wf _ (so_node _ _ Hs))). unfold len in *. by rewrite drop_app_le by lia.
Qed.

Definition lone (i : N) : RaftConfig := mkConfig i [] 150 300 50.

Lemma solo_member_commits_witness : exists w m, run (start {[7]} lone Kv.new (fun _ => [])) [ETimer 7; EBeat 7] = Some w /\ members w !! 7 = Some m /\
  exists t b w' m' e,
    run w (replicate t (ETimer 7) ++ [ECall 7 [set_a 1]; EClient 7 (length (calls m))] ++
           replicate b (EBeat 7) ++ [EClient 7 (length (calls m))]) = Some w' /\
    members w' !! 7 = Some m' /\ Log.data e = set_a 1 /\
    calls m' !! length (calls m) = Some (Returned (inl (Log.index e))) /\
    state_machine m' = replay Kv.new (drop 1 (Log.entries (log (node m))) ++ [e]).
Proof.
  eexists _, _. split; [vm_compute; reflexivity|]. split; [vm_compute; reflexivity|].
  apply (solo_member_commits 7 lone Kv.new (fun _ => []) [ETimer 7; EBeat 7]); vm_compute; reflexivity.
Defined.
End Solo.
