(* ===== verification/TwoPhase.v ===== *)
(** * Two-phase commit

    Models the coordinator of [crates/raft/src/twopc.rs].  Its votes and
    acknowledgements are finite maps from shard ids.  The abstract
    specification is the last vote each shard cast in the sequence of messages
    the coordinator has received. *)

From stdpp Require Import gmap.
From S2P Require Import Prelude.

Module TwoPhase.

Inductive TxnState : Type := Preparing | Committed | Aborted.

Record Participant : Type := mkParticipant {
  shard_id : N;
  node_id : N
}.

Record TwoPhaseCoordinator : Type := mkCoordinator {
  txn_id : N;
  state : TxnState;
  participants : list Participant;
  prepare_votes : gmap N bool;
  finalize_acks : gmap N bool
}.

Inductive CoordinatorMsg : Type :=
  | Prepare (txn : N)
  | Commit (txn : N)
  | Abort (txn : N).

Inductive ParticipantMsg : Type :=
  | PrepareOk (txn shard : N)
  | PrepareAbort (txn shard : N)
  | CommitAck (txn shard : N)
  | AbortAck (txn shard : N).

Definition new (txn : N) (ps : list Participant) : TwoPhaseCoordinator :=
  mkCoordinator txn Preparing ps ∅ ∅.

Definition begin_prepare (c : TwoPhaseCoordinator) : list (Participant * CoordinatorMsg) :=
  (fun p => (p, Prepare (txn_id c))) <$> participants c.

Definition record_vote (c : TwoPhaseCoordinator) (msg : ParticipantMsg)
    : TwoPhaseCoordinator * option bool :=
  let cast (shard : N) (vote : bool) :=
    let c := mkCoordinator (txn_id c) (state c) (participants c)
               (<[shard := vote]> (prepare_votes c)) (finalize_acks c) in
    if negb vote then (c, Some false)
    else
      let all_voted :=
        forallb (fun p => bool_decide (is_Some (prepare_votes c !! shard_id p))) (participants c) in
      (c, if all_voted then Some true else None) in
  match msg with
  | PrepareOk _ shard => cast shard true
  | PrepareAbort _ shard => cast shard false
  | _ => (c, None)
  end.

Definition begin_finalize (c : TwoPhaseCoordinator)
    : TwoPhaseCoordinator * list (Participant * CoordinatorMsg) :=
  let commit :=
    forallb (fun p => default false (prepare_votes c !! shard_id p)) (participants c) in
  (mkCoordinator (txn_id c) (if commit then Committed else Aborted) (participants c)
     (prepare_votes c) (finalize_acks c),
   (fun p => (p, if commit then Commit (txn_id c) else Abort (txn_id c))) <$> participants c).

Definition record_ack (c : TwoPhaseCoordinator) (msg : ParticipantMsg) : TwoPhaseCoordinator :=
  match msg with
  | CommitAck _ shard | AbortAck _ shard =>
      mkCoordinator (txn_id c) (state c) (participants c) (prepare_votes c)
        (<[shard := true]> (finalize_acks c))
  | _ => c
  end.

Definition is_complete (c : TwoPhaseCoordinator) : bool :=
  forallb (fun p => bool_decide (is_Some (finalize_acks c !! shard_id p))) (participants c).

(** ** Specification *)

(** The phase-1 messages of a shard, as votes. *)
Definition vote_of (shard : N) (msg : ParticipantMsg) : option bool :=
  match msg with
  | PrepareOk _ s => if s =? shard then Some true else None
  | PrepareAbort _ s => if s =? shard then Some false else None
  | _ => None
  end.

(** The last vote of a shard in a sequence of messages. *)
Definition last_vote (msgs : list ParticipantMsg) (shard : N) : option bool :=
  last (omap (vote_of shard) msgs).

Definition acked (msgs : list ParticipantMsg) (shard : N) : Prop :=
  exists txn, CommitAck txn shard ∈ msgs \/ AbortAck txn shard ∈ msgs.

(** Phase 1 and the acknowledgements of phase 2, over a sequence of messages. *)
Definition record_votes (c : TwoPhaseCoordinator) (msgs : list ParticipantMsg) : TwoPhaseCoordinator :=
  foldl (fun c m => (record_vote c m).1) c msgs.
Definition record_acks (c : TwoPhaseCoordinator) (msgs : list ParticipantMsg) : TwoPhaseCoordinator :=
  foldl record_ack c msgs.

(** ** Lemmas *)

Lemma record_vote_fields c m : txn_id (record_vote c m).1 = txn_id c /\
  participants (record_vote c m).1 = participants c.
Proof. by destruct m. Qed.

Lemma record_vote_lookup c m s :
  prepare_votes (record_vote c m).1 !! s =
    match vote_of s m with Some v => Some v | None => prepare_votes c !! s end.
Proof.
  destruct m; cbn; try done; case_cmp; subst; by rewrite ?lookup_insert_eq, ?lookup_insert_ne.
Qed.

Lemma record_votes_spec txn ps msgs :
  let c := record_votes (new txn ps) msgs in
  txn_id c = txn /\ participants c = ps /\ forall s, prepare_votes c !! s = last_vote msgs s.
Proof.
  induction msgs as [|m msgs IH] using rev_ind; cbn; [done|].
  unfold record_votes in *. rewrite foldl_snoc. destruct IH as (Ht & Hp & Hv).
  destruct (record_vote_fields (foldl (fun c m => (record_vote c m).1) (new txn ps) msgs) m) as [-> ->].
  split_and!; [done..|]. intros s. rewrite record_vote_lookup, Hv. unfold last_vote.
  rewrite omap_app. cbn. destruct (vote_of s m); cbn; [by rewrite last_snoc|by rewrite app_nil_r].
Qed.

Lemma record_acks_spec c msgs s :
  is_Some (finalize_acks (record_acks c msgs) !! s) <-> is_Some (finalize_acks c !! s) \/ acked msgs s.
Proof.
  unfold record_acks, acked. revert c. induction msgs as [|m msgs IH]; intros c; cbn [foldl].
  - setoid_rewrite elem_of_nil. naive_solver.
  - rewrite IH. setoid_rewrite elem_of_cons.
    destruct m as [t q|t q|t q|t q]; cbn; try rewrite lookup_insert_is_Some'; naive_solver.
Qed.

(** C32: Atomicity of two-phase commit: whatever messages the coordinator has
    received, in whatever order, [begin_finalize] decides [Committed] exactly
    when every participant's last vote was [PrepareOk] (a missing vote counts
    as a no), and it sends every participant the same decision. *)
Theorem two_phase_commit_atomic txn ps msgs :
  let '(c, out) := begin_finalize (record_votes (new txn ps) msgs) in
  (state c = Committed <-> Forall (fun p => last_vote msgs (shard_id p) = Some true) ps) /\
  (state c = Committed \/ state c = Aborted) /\
  out = (fun p => (p, match state c with Committed => Commit txn | _ => Abort txn end)) <$> ps.
Proof.
  destruct (record_votes_spec txn ps msgs) as (Ht & Hp & Hv).
  set (c := record_votes (new txn ps) msgs) in *. unfold begin_finalize. cbn. rewrite Ht, Hp.
  set (f := fun p => default false (prepare_votes c !! shard_id p)).
  assert (Hall : forallb f ps = true <-> Forall (fun p => last_vote msgs (shard_id p) = Some true) ps).
  { rewrite forallb_forall, Forall_forall. setoid_rewrite <- list_elem_of_In. unfold f.
    split; intros H p Hin; specialize (H p Hin); rewrite ?Hv in *.
    - by destruct (last_vote msgs (shard_id p)) as [[]|].
    - by rewrite H. }
  rewrite <- Hall. destruct (forallb f ps); split_and!; auto; naive_solver.
Qed.

(** C39: Completion: after phase 2, [is_complete] holds exactly when every
    participant's shard has acknowledged, whatever else arrived. *)
Theorem two_phase_complete_iff txn ps votes acks :
  is_complete (record_acks (begin_finalize (record_votes (new txn ps) votes)).1 acks) = true <->
  Forall (fun p => acked acks (shard_id p)) ps.
Proof.
  set (c := (begin_finalize (record_votes (new txn ps) votes)).1).
  assert (Hc : participants c = ps /\ finalize_acks c = ∅).
  { split; [apply (record_votes_spec txn ps votes)|]. subst c. cbn.
    unfold record_votes. induction votes as [|m votes IH] using rev_ind; [done|].
    rewrite foldl_snoc. destruct m; cbn; auto. }
  destruct Hc as [Hp Hf]. clearbody c. unfold is_complete.
  assert (Hps : participants (record_acks c acks) = ps).
  { unfold record_acks. clear Hf. revert c Hp. induction acks as [|m acks IH]; intros c Hp; cbn; [done|].
    apply IH. by destruct m. }
  rewrite Hps, forallb_forall, Forall_forall. setoid_rewrite <- list_elem_of_In.
  setoid_rewrite bool_decide_eq_true. setoid_rewrite record_acks_spec. rewrite Hf.
  setoid_rewrite lookup_empty.
  split; intros H p Hin; [by destruct (H p Hin) as [[? [=]]|?]|right; auto].
Qed.

(** [record_vote]'s answer is not the decision: with a no vote from shard 1
    and a later yes from shard 2 it answers [Some true] (all votes received,
    decision commit), and [begin_finalize] aborts. *)
Theorem record_vote_reports_commit_then_aborts :
  let ps := [mkParticipant 1 10; mkParticipant 2 20] in
  let c := (record_vote (new 7 ps) (PrepareAbort 7 1)).1 in
  (record_vote c (PrepareOk 7 2)).2 = Some true /\
  state (begin_finalize (record_vote c (PrepareOk 7 2)).1).1 = Aborted.
Proof. by vm_compute. Qed.

End TwoPhase.
