(* ===== verification/Shard.v ===== *)
(** * Shard routing

    Models [ShardRouter] and the pure part of [ShardExecutor] of
    [crates/raft/src/shard.rs].  Keys are byte strings; a shard covers
    [start_key <= k < end_key], an empty [end_key] meaning no upper bound.
    [router_wf] says the shards are sorted and disjoint; the theorems say that
    [route] finds the one shard that covers a key, and that a split moves
    exactly the keys from the split point on. *)

From stdpp Require Import gmap.
From S2P Require Import Prelude Bytes ByteOrder.

Module Shard.

Record ShardRange : Type := mkRange {
  shard_id : N;
  start_key : list N;
  end_key : list N
}.

Record ShardRouter : Type := mkRouter {
  shards : list ShardRange;
  shard_nodes : gmap N (list N)
}.

Definition new : ShardRouter := mkRouter [] ∅.

(** [Vec::insert]. *)
Definition vec_insert {A} (pos : nat) (x : A) (l : list A) : list A := take pos l ++ x :: drop pos l.

Definition add_shard (r : ShardRouter) (s : ShardRange) (nodes : list N) : ShardRouter :=
  let pos := partition_point (fun t => bytes_lt (start_key t) (start_key s)) (shards r) in
  mkRouter (vec_insert pos s (shards r)) (<[shard_id s := nodes]> (shard_nodes r)).

Definition route (r : ShardRouter) (key : list N) : option N :=
  match partition_point (fun s => bytes_le (start_key s) key) (shards r) with
  | O => None
  | S p =>
      candidate ← shards r !! p;
      if bool_decide (end_key candidate = []) || bytes_lt key (end_key candidate)
      then Some (shard_id candidate) else None
  end.

Definition nodes_for_shard (r : ShardRouter) (id : N) : list N :=
  default [] (shard_nodes r !! id).

Definition set_end (s : ShardRange) (k : list N) : ShardRange := mkRange (shard_id s) (start_key s) k.

Definition split_shard (r : ShardRouter) (id : N) (split_key : list N) (new_id : N)
    (new_nodes : list N) : ShardRouter :=
  match list_find (fun s => shard_id s = id) (shards r) with
  | None => r
  | Some (pos, orig) =>
      let ss := <[pos := set_end orig split_key]> (shards r) in
      let new_shard := mkRange new_id split_key (end_key orig) in
      let insert_pos := partition_point (fun s => bytes_le (start_key s) split_key) ss in
      mkRouter (vec_insert insert_pos new_shard ss) (<[new_id := new_nodes]> (shard_nodes r))
  end.

Definition shard_count (r : ShardRouter) : N := len (shards r).

Definition in_range (low high : list N) (s : ShardRange) : bool :=
  bytes_le (start_key s) high &&
  (bool_decide (end_key s = []) || bytes_le low (end_key s)).

Definition find_shards_in_range (r : ShardRouter) (low high : list N) : list N :=
  shard_id <$> List.filter (in_range low high) (shards r).

(** ** The executor

    A shard is queried over TCP: [query_shard] and the text of the error for a
    shard without an address are parameters. *)
Section Executor.
Context {Row Error Addr Sql : Type}.
Variable no_address : N -> Error.

Record ShardResult : Type := mkResult {
  result_shard : N;
  rows : list Row;
  error : option Error
}.
Variable query_shard : N -> Addr -> Sql -> ShardResult.

Record ShardExecutor : Type := mkExecutor {
  router : ShardRouter;
  shard_addresses : gmap N Addr
}.

Definition fanout_query (x : ShardExecutor) (sql : Sql) (key_range : option (list N * list N))
    : list ShardResult :=
  let ids :=
    match key_range with
    | None => shard_id <$> shards (router x)
    | Some (low, high) => find_shards_in_range (router x) low high
    end in
  (fun id => match shard_addresses x !! id with
             | Some addr => query_shard id addr sql
             | None => mkResult id [] (Some (no_address id))
             end) <$> ids.

Definition merge_results (rs : list ShardResult) : list Row :=
  concat (rows <$> List.filter (fun r => bool_decide (error r = None)) rs).
End Executor.

(** ** Well-formed routers *)

Definition covers (s : ShardRange) (k : list N) : bool :=
  bytes_le (start_key s) k && (bool_decide (end_key s = []) || bytes_lt k (end_key s)).

Definition nonempty (s : ShardRange) : Prop :=
  end_key s = [] \/ bytes_lt (start_key s) (end_key s) = true.

(** [a] ends where [b] starts, or before. *)
Definition before (a b : ShardRange) : Prop :=
  end_key a <> [] /\ bytes_le (end_key a) (start_key b) = true.

Record router_wf (r : ShardRouter) : Prop := {
  wf_order : StronglySorted before (shards r);
  wf_ranges : Forall nonempty (shards r);
  wf_ids : NoDup (shard_id <$> shards r)
}.

(** ** Lemmas *)

Lemma before_start a b : nonempty a -> before a b -> bytes_lt (start_key a) (start_key b) = true.
Proof. intros [?|?] [? ?]; [done|]. eauto with byte_order. Qed.

Lemma covers_before a b k : before a b -> bytes_le (start_key b) k = true -> covers a k = false.
Proof.
  intros [Hne Hle] Hk. unfold covers. rewrite bool_decide_false by done. cbn.
  assert (H : bytes_le (end_key a) k = true) by eauto with byte_order.
  apply bytes_le_lt in H. rewrite H. apply andb_false_r.
Qed.

Lemma sorted_app_inv {A} (R : A -> A -> Prop) l1 x l2 : StronglySorted R (l1 ++ x :: l2) ->
  Forall (fun y => R y x) l1 /\ Forall (R x) l2.
Proof.
  induction l1 as [|y l1 IH]; cbn; intros H; inversion_clear H as [|? ? Hs Hf]; [done|].
  destruct (IH Hs) as [H1 H2]. split; [|done]. constructor; [|done].
  apply Forall_app in Hf as [_ Hf]. by inversion Hf.
Qed.

(** A key's shard is where the binary search stops. *)
Lemma route_split l1 s l2 m k : StronglySorted before (l1 ++ s :: l2) ->
  Forall nonempty (l1 ++ s :: l2) -> covers s k = true ->
  route (mkRouter (l1 ++ s :: l2) m) k = Some (shard_id s).
Proof.
  intros Hs Hn Hc. destruct (sorted_app_inv _ _ _ _ Hs) as [H1 H2].
  unfold covers in Hc. apply andb_true_iff in Hc as [Hstart Hend].
  assert (Hp : partition_point (fun t => bytes_le (start_key t) k) ((l1 ++ [s]) ++ l2) = length (l1 ++ [s])).
  { apply partition_point_app.
    - apply Forall_app. split; [|by repeat constructor].
      rewrite Forall_app in Hn. destruct Hn as [Hn1 _].
      apply Forall_forall. intros t Ht. rewrite Forall_forall in H1, Hn1.
      apply bytes_le_trans with (start_key s); [|done].
      apply bytes_lt_le, before_start; auto.
    - eapply Forall_impl; [exact H2|]. intros t [Hne Hle]. rewrite bool_decide_false in Hend by done.
      cbn in Hend. apply negb_false_iff. eauto with byte_order. }
  unfold route. cbn [shards]. rewrite <- app_assoc in Hp. cbn in Hp. rewrite Hp.
  rewrite length_app, Nat.add_comm. cbn. rewrite list_lookup_middle by done. cbn. by rewrite Hend.
Qed.

Lemma route_covers r k id : route r k = Some id ->
  exists s, s ∈ shards r /\ shard_id s = id /\ covers s k = true.
Proof.
  unfold route. destruct (partition_point_split (fun s => bytes_le (start_key s) k) (shards r))
    as (l1 & l2 & Heq & -> & H1 & _).
  destruct (length l1) as [|p] eqn:Hl; [done|]. destruct (shards r !! p) as [s|] eqn:Hs; [|done].
  cbn. destruct (_ || _) eqn:He; [|done]. intros [= <-]. exists s.
  split; [by eapply list_elem_of_lookup_2|]. split; [done|]. unfold covers. rewrite He, andb_true_r.
  rewrite Heq, lookup_app_l in Hs by lia. rewrite Forall_lookup in H1. by apply (H1 p).
Qed.

Lemma route_spec r k id : router_wf r ->
  route r k = Some id <-> exists s, s ∈ shards r /\ shard_id s = id /\ covers s k = true.
Proof.
  intros [Ho Hn _]. split; [apply route_covers|].
  intros (s & Hin & <- & Hc). apply list_elem_of_split in Hin as (l1 & l2 & Heq).
  destruct r as [ss m]. cbn in *. subst ss. by apply route_split.
Qed.

Lemma sorted_app {A} (R : A -> A -> Prop) l1 l2 :
  StronglySorted R (l1 ++ l2) <->
  StronglySorted R l1 /\ StronglySorted R l2 /\ Forall (fun x => Forall (R x) l2) l1.
Proof.
  induction l1 as [|x l1 IH]; cbn.
  - split; [by auto using SSorted_nil|tauto].
  - split.
    + intros H. inversion_clear H as [|? ? Hs Hf]. apply Forall_app in Hf as [? ?].
      apply IH in Hs as (? & ? & ?). auto using SSorted_cons.
    + intros (H1 & H2 & H3). inversion_clear H1. inversion_clear H3.
      constructor; [by apply IH|by apply Forall_app].
Qed.

Lemma find_unique l1 s l2 : NoDup (shard_id <$> l1 ++ s :: l2) ->
  list_find (fun t => shard_id t = shard_id s) (l1 ++ s :: l2) = Some (length l1, s).
Proof.
  intros Hnd. apply list_find_Some. split_and!; [by apply list_lookup_middle|done|].
  intros j t Hj Hlt Heq. rewrite fmap_app, fmap_cons in Hnd.
  apply NoDup_app in Hnd as (_ & Hd & _). rewrite lookup_app_l in Hj by done.
  apply (Hd (shard_id s)); [|by left]. rewrite <- Heq.
  apply list_elem_of_fmap_2. by eapply list_elem_of_lookup_2.
Qed.

Section Split.
Variables (l1 l2 : list ShardRange) (s : ShardRange) (k : list N) (new_id : N).
Let r := l1 ++ s :: l2.
Let r' := l1 ++ set_end s k :: mkRange new_id k (end_key s) :: l2.
Hypothesis Hsorted : StronglySorted before r.
Hypothesis Hranges : Forall nonempty r.
Hypothesis Hlo : bytes_lt (start_key s) k = true.
Hypothesis Hhi : end_key s = [] \/ bytes_lt k (end_key s) = true.

Lemma split_key_nonempty : k <> [].
Proof. intros ->. by rewrite bytes_lt_nil_r in Hlo. Qed.

Lemma split_below t : before t s -> bytes_le (end_key t) k = true.
Proof. intros [_ ?]. eauto with byte_order. Qed.

Lemma split_above t : before s t -> bytes_lt k (start_key t) = true.
Proof. intros [? ?]. destruct Hhi; [done|]. eauto with byte_order. Qed.

Lemma split_sorted : StronglySorted before r'.
Proof.
  destruct (sorted_app_inv _ _ _ _ Hsorted) as [H1 H2].
  apply sorted_app in Hsorted as (Hs1 & Hs2 & Hc). inversion_clear Hs2 as [|? ? Hs3 _].
  apply sorted_app. split_and!; [done| |].
  - repeat constructor; try done; try apply split_key_nonempty; cbn; auto using bytes_le_refl.
    eapply Forall_impl; [exact H2|]. intros t Ht. split; [apply split_key_nonempty|].
    cbn. auto using bytes_lt_le, split_above.
  - apply Forall_forall. intros t Ht. rewrite Forall_forall in H1, Hc.
    pose proof (Hc t Ht) as Ht2. inversion_clear Ht2 as [|? ? Hts Ht2'].
    constructor; [|constructor]; try done. split; [apply Hts|by apply split_below].
Qed.

Lemma split_insert :
  partition_point (fun t => bytes_le (start_key t) k) (l1 ++ set_end s k :: l2) = S (length l1).
Proof.
  destruct (sorted_app_inv _ _ _ _ Hsorted) as [H1 H2].
  replace (S (length l1)) with (length (l1 ++ [set_end s k])) by (rewrite length_app; cbn; lia).
  rewrite (cons_middle _ l1 l2). rewrite app_assoc. apply partition_point_app.
  - unfold r in Hranges. rewrite Forall_app in Hranges. destruct Hranges as [Hr1 _].
    apply Forall_app. split; [|repeat constructor; cbn; by apply bytes_lt_le].
    apply Forall_forall. intros t Ht. rewrite Forall_forall in H1, Hr1.
    pose proof (before_start t s (Hr1 t Ht) (H1 t Ht)). eauto with byte_order.
  - eapply Forall_impl; [exact H2|]. intros t Ht. apply negb_false_iff. by apply split_above.
Qed.

Lemma split_covers t q : t ∈ r' -> covers t q = true ->
  (t ∈ r /\ covers s q = false) \/
  (covers s q = true /\ shard_id t = if bytes_le k q then new_id else shard_id s).
Proof.
  intros Hin Hc. destruct (sorted_app_inv _ _ _ _ Hsorted) as [H1 H2].
  unfold r' in Hin. rewrite elem_of_app, !elem_of_cons in Hin.
  rewrite Forall_forall in H1, H2.
  destruct Hin as [Hin|[->|[->|Hin]]].
  - left. split; [unfold r; apply elem_of_app; auto|].
    destruct (covers s q) eqn:E; [|done]. apply andb_true_iff in E as [E _].
    by rewrite (covers_before t s q) in Hc by auto.
  - right. unfold covers in *. cbn in *. rewrite bool_decide_false in Hc by apply split_key_nonempty.
    cbn in Hc. apply andb_true_iff in Hc as [Hs Hq]. rewrite Hs. cbn.
    unfold bytes_le. rewrite Hq. cbn. split; [|done].
    destruct Hhi as [->|?]; [done|]. apply orb_true_iff. right. eauto with byte_order.
  - right. unfold covers in *. cbn in *. apply andb_true_iff in Hc as [Hs Hq].
    rewrite Hs, Hq. split; [|done]. rewrite andb_true_r. eauto with byte_order.
  - left. split; [unfold r; rewrite elem_of_app, elem_of_cons; auto|].
    apply (covers_before s t); [auto|]. by apply andb_true_iff in Hc as [? _].
Qed.
Lemma split_wf m m' : router_wf (mkRouter r m) -> new_id ∉ shard_id <$> r -> router_wf (mkRouter r' m').
Proof.
  intros [_ _ Hids] Hnew. split; cbn in *.
  - apply split_sorted.
  - unfold r, r' in *. rewrite Forall_app, !Forall_cons in *. destruct Hranges as (? & _ & ?).
    split_and!; [done| | |done]; [by right|]. destruct Hhi; [by left|by right].
  - unfold r, r' in *. rewrite fmap_app, !fmap_cons in *. cbn.
    rewrite <- Permutation_middle, NoDup_cons. rewrite <- Permutation_middle in Hids, Hnew |- *.
    apply NoDup_cons in Hids as [Hn Hd]. rewrite elem_of_cons in Hnew.
    rewrite NoDup_cons, elem_of_cons. naive_solver.
Qed.
End Split.

(** Routing: in a router whose shards are sorted and disjoint, [route]
    returns a shard id exactly when the shard with that id covers the key. *)
Theorem route_finds_owner r k id : router_wf r ->
  route r k = Some id <-> exists s, s ∈ shards r /\ shard_id s = id /\ covers s k = true.
Proof. apply route_spec. Qed.

Definition sample_router : ShardRouter :=
  add_shard (add_shard new (mkRange 2 [109] []) [7]) (mkRange 1 [97] [109]) [5].

Lemma sample_router_wf : router_wf sample_router.
Proof.
  split; cbn.
  - repeat constructor; done.
  - repeat constructor; by (left + right).
  - apply (bool_decide_unpack _). by vm_compute.
Qed.

Lemma route_finds_owner_witness :
  route sample_router [120] = Some 2 <->
  exists s, s ∈ shards sample_router /\ shard_id s = 2 /\ covers s [120] = true.
Proof. apply route_finds_owner, sample_router_wf. Defined.

(** Splitting a shard inside its range keeps the router sorted and
    disjoint, and moves exactly the shard's keys from the split point on to
    the new shard: every other key is routed as before. *)
Theorem split_shard_routes r s k new_id nodes : router_wf r -> s ∈ shards r ->
  bytes_lt (start_key s) k = true -> end_key s = [] \/ bytes_lt k (end_key s) = true ->
  new_id ∉ shard_id <$> shards r ->
  let r' := split_shard r (shard_id s) k new_id nodes in
  router_wf r' /\ nodes_for_shard r' new_id = nodes /\
  forall q, route r' q = if covers s q && bytes_le k q then Some new_id else route r q.
Proof.
  intros Hwf Hin Hlo Hhi Hnew. destruct r as [ss m]. cbn in *.
  apply list_elem_of_split in Hin as (l1 & l2 & ->). destruct Hwf as [Ho Hr Hids]. cbn in *.
  assert (Heq : split_shard (mkRouter (l1 ++ s :: l2) m) (shard_id s) k new_id nodes =
    mkRouter (l1 ++ set_end s k :: mkRange new_id k (end_key s) :: l2) (<[new_id := nodes]> m)).
  { unfold split_shard. cbn. rewrite find_unique by done.
    rewrite insert_app_r_alt, Nat.sub_diag by done. cbn [insert list_insert].
    rewrite split_insert by done. unfold vec_insert. f_equal.
    rewrite (cons_middle _ l1 l2), app_assoc, take_app_length', drop_app_length'
      by (rewrite length_app; cbn; lia). by rewrite <- app_assoc. }
  cbn zeta. rewrite Heq. assert (Hwf' : router_wf (mkRouter (l1 ++ s :: l2) m)) by done.
  pose proof (split_wf l1 l2 s k new_id Ho Hr Hlo Hhi m (<[new_id := nodes]> m) Hwf' Hnew) as Hwf2.
  split_and!; [done|unfold nodes_for_shard; cbn; by rewrite lookup_insert_eq|].
  intros q. apply option_eq. intros id. rewrite route_spec by done. cbn [shards]. split.
  - intros (t & Ht & <- & Hc). destruct (split_covers l1 l2 s k new_id Ho Hlo Hhi t q Ht Hc) as [[Hold Hs]|[Hs Hid]].
    + rewrite Hs. cbn. apply route_spec; [done|]. cbn. eauto.
    + rewrite Hs, Hid. cbn. case_match; [done|]. apply route_spec; [done|]. exists s.
      cbn. rewrite elem_of_app, elem_of_cons. auto.
  - destruct (covers s q) eqn:Hs; [destruct (bytes_le k q) eqn:Hk|]; cbn.
    + intros [= <-]. exists (mkRange new_id k (end_key s)). rewrite elem_of_app, !elem_of_cons.
      split_and!; auto. unfold covers in *. cbn. apply andb_true_iff in Hs as [_ ->]. by rewrite Hk.
    + rewrite (route_split l1 s l2 m q) by done. intros [= <-]. exists (set_end s k).
      rewrite elem_of_app, !elem_of_cons. split_and!; auto. unfold covers in *. cbn.
      apply andb_true_iff in Hs as [-> _]. unfold bytes_le in Hk. apply negb_false_iff in Hk.
      rewrite Hk. by rewrite orb_true_r.
    + intros (t & Ht & <- & Hc)%route_spec; [|done]. cbn in Ht. exists t. split_and!; [|done|done].
      rewrite elem_of_app, elem_of_cons in *. destruct Ht as [?|[->|?]]; [auto|congruence|].
      rewrite !elem_of_cons. auto.
Qed.

Lemma split_shard_routes_witness :
  let s := mkRange 1 [97] [109] in
  let r' := split_shard sample_router 1 [103] 9 [4; 5] in
  router_wf r' /\ nodes_for_shard r' 9 = [4; 5] /\
  forall q, route r' q = if covers s q && bytes_le [103] q then Some 9 else route sample_router q.
Proof.
  apply (split_shard_routes sample_router (mkRange 1 [97] [109]) [103] 9 [4; 5]).
  - apply sample_router_wf.
  - left.
  - done.
  - by right.
  - apply (bool_decide_unpack _). by vm_compute.
Defined.

(** Range queries miss no shard: every key between the bounds that is
    routed at all is routed to a shard that [find_shards_in_range] returns. *)
Theorem find_shards_in_range_complete r low high k id : router_wf r ->
  bytes_le low k = true -> bytes_le k high = true -> route r k = Some id ->
  id ∈ find_shards_in_range r low high.
Proof.
  intros Hwf Hl Hh Hr. apply route_spec in Hr as (s & Hin & <- & Hc); [|done].
  unfold find_shards_in_range. apply list_elem_of_fmap_2. apply list_elem_of_In, filter_In.
  split; [by apply list_elem_of_In|]. unfold covers in Hc. apply andb_true_iff in Hc as [Hs He].
  apply andb_true_iff. split; [by eauto with byte_order|].
  apply orb_true_iff in He as [->|He]; [done|]. apply orb_true_iff. right. eauto with byte_order.
Qed.

Lemma find_shards_in_range_complete_witness : 2 ∈ find_shards_in_range sample_router [98] [122].
Proof.
  apply (find_shards_in_range_complete sample_router [98] [122] [110] 2); [apply sample_router_wf|done..].
Defined.

End Shard.
