(* ===== verification/SqlAst.v ===== *)
(** * The SQL syntax tree

    Models [crates/sql/src/ast.rs].  Names are byte strings; a [Box] is the value
    it holds. *)

From S2P Require Import Prelude Bytes Float64.

Module Ast.

(** ** Expressions *)

Inductive DataType : Type :=
  | Boolean
  | Int16 | Int32 | Int64
  | Float32 | Float64
  | TextType
  | Varchar (n : N)
  | CharType (n : N)
  | Bytea
  | Timestamp | Date | Time
  | Json | Jsonb
  | Vector (n : N).

(** [BinOp]; [JsonMerge] and [NotLike] are never built by the parser. *)
Inductive BinOp : Type :=
  | Add | Sub | Mul | Div | Mod
  | Eq | NotEq | Lt | Gt | LtEq | GtEq
  | And | Or
  | Like | NotLike
  | Concat
  | JsonGet
  | JsonGetText
  | JsonContains
  | JsonKeyExists
  | JsonMerge
  | JsonPath
  | VectorDist.

Inductive UnOp : Type :=
  | Neg
  | Not.

#[global] Instance DataType_eq_dec : EqDecision DataType.
Proof. solve_decision. Defined.
#[global] Instance BinOp_eq_dec : EqDecision BinOp.
Proof. solve_decision. Defined.
#[global] Instance UnOp_eq_dec : EqDecision UnOp.
Proof. solve_decision. Defined.

(** [Expr]. *)
Inductive Expr : Type :=
  | IntLit (n : Z)
  | FloatLit (f : f64)
  | StrLit (s : list N)
  | BoolLit (b : bool)
  | Null
  | ColumnRef (table : option (list N)) (column : list N)
  | Star
  | BinaryOp (op : BinOp) (left right : Expr)
  | UnaryOp (op : UnOp) (expr : Expr)
  | IsNull (expr : Expr)
  | IsNotNull (expr : Expr)
  | Between (expr low high : Expr)
  | In (expr : Expr) (list : list Expr)
  | NotIn (expr : Expr) (list : list Expr)
  | FunctionCall (name : list N) (args : list Expr) (distinct : bool)
  | WindowFunc (name : list N) (args partition_by : list Expr) (order_by : list (Expr * bool))
  | Cast (expr : Expr) (to : DataType).

(** ** Queries *)

Inductive SelectColumn : Type :=
  | ColStar
  | ColExpr (expr : Expr) (alias : option (list N)).

Inductive JoinKind : Type :=
  | InnerJoin | LeftJoin | RightJoin | FullJoin | CrossJoin.

#[global] Instance JoinKind_eq_dec : EqDecision JoinKind.
Proof. solve_decision. Defined.

Inductive JoinCondition : Type :=
  | On (e : Expr)
  | Using (cols : list (list N)).

Inductive TableRef : Type :=
  | mkTableRef (name : list N) (alias : option (list N)) (join : option JoinClause)
with JoinClause : Type :=
  | mkJoinClause (kind : JoinKind) (right : TableRef) (condition : JoinCondition).

Record OrderByItem : Type := mkOrderByItem {
  order_expr : Expr;
  asc : bool;
  nulls_first : bool;
}.

(** [SelectStmt], [CteClause] and [UnionStmt]. *)
Inductive SelectStmt : Type :=
  | mkSelect (with_clauses : list CteClause) (distinct : bool) (columns : list SelectColumn)
      (from : list TableRef) (where_clause : option Expr) (group_by : list Expr) (having : option Expr)
      (order_by : list OrderByItem) (limit offset : option Expr)
with CteClause : Type :=
  | mkCte (name : list N) (recursive : bool) (query : SelectStmt) (union_body : option UnionStmt)
with UnionStmt : Type :=
  | mkUnion (left : SelectStmt) (all : bool) (right : SelectStmt).

(** ** Statements *)

Inductive InsertSource : Type :=
  | Values (rows : list (list Expr))
  | SelectSource (s : SelectStmt).

Record InsertStmt : Type := mkInsert {
  insert_table : list N;
  insert_columns : list (list N);
  source : InsertSource;
}.

Record UpdateStmt : Type := mkUpdate {
  update_table : list N;
  update_alias : option (list N);
  assignments : list (list N * Expr);
  update_where : option Expr;
}.

Record DeleteStmt : Type := mkDelete {
  delete_table : list N;
  delete_alias : option (list N);
  delete_where : option Expr;
}.

Record ColumnDef : Type := mkColumnDef {
  column_name : list N;
  data_type : DataType;
  nullable : bool;
  default_value : option Expr;
  primary_key : bool;
  unique : bool;
}.

Inductive TableConstraint : Type :=
  | PrimaryKey (cols : list (list N))
  | Unique (cols : list (list N))
  | CheckConstraint (e : Expr).

Inductive StorageLayout : Type :=
  | RowLayout
  | Columnar.

Record CreateTableStmt : Type := mkCreateTable {
  create_table : list N;
  if_not_exists : bool;
  columns : list ColumnDef;
  constraints : list TableConstraint;
  storage : StorageLayout;
}.

Record DropTableStmt : Type := mkDropTable {
  drop_table : list N;
  if_exists : bool;
}.

(** [Statement]. *)
Inductive Statement : Type :=
  | SelectStatement (s : SelectStmt)
  | Insert (s : InsertStmt)
  | Update (s : UpdateStmt)
  | Delete (s : DeleteStmt)
  | CreateTable (s : CreateTableStmt)
  | DropTable (s : DropTableStmt)
  | Begin
  | Commit
  | Rollback
  | Explain (s : Statement)
  | Analyze (table : list N)
  | CreateVectorIndex (table column : list N)
  | CreateGinIndex (table column : list N)
  | Vacuum (table : list N)
  | SetVar (name value : list N)
  | ShowVar (name : list N).

(** ** Induction on expressions

    The principle with hypotheses for the expressions inside lists. *)
Section ExprInd.
Variable P : Expr -> Prop.
Hypothesis HInt : forall n, P (IntLit n).
Hypothesis HFloat : forall f, P (FloatLit f).
Hypothesis HStr : forall s, P (StrLit s).
Hypothesis HBool : forall b, P (BoolLit b).
Hypothesis HNull : P Null.
Hypothesis HCol : forall t c, P (ColumnRef t c).
Hypothesis HStar : P Star.
Hypothesis HBin : forall op l r, P l -> P r -> P (BinaryOp op l r).
Hypothesis HUn : forall op e, P e -> P (UnaryOp op e).
Hypothesis HIsNull : forall e, P e -> P (IsNull e).
Hypothesis HIsNotNull : forall e, P e -> P (IsNotNull e).
Hypothesis HBetween : forall e l h, P e -> P l -> P h -> P (Between e l h).
Hypothesis HIn : forall e l, P e -> Forall P l -> P (In e l).
Hypothesis HNotIn : forall e l, P e -> Forall P l -> P (NotIn e l).
Hypothesis HFun : forall n a d, Forall P a -> P (FunctionCall n a d).
Hypothesis HWin : forall n a p o, Forall P a -> Forall P p -> Forall (fun x => P x.1) o -> P (WindowFunc n a p o).
Hypothesis HCast : forall e t, P e -> P (Cast e t).

Fixpoint Expr_rect' (e : Expr) : P e :=
  let all := fix all (l : list Expr) : Forall P l :=
    match l with
    | [] => Forall_nil_2 P
    | x :: l => Forall_cons_2 P x l (Expr_rect' x) (all l)
    end in
  let all1 := fix all1 (l : list (Expr * bool)) : Forall (fun x => P x.1) l :=
    match l with
    | [] => Forall_nil_2 _
    | x :: l => Forall_cons_2 _ x l (Expr_rect' x.1) (all1 l)
    end in
  match e with
  | IntLit n => HInt n
  | FloatLit f => HFloat f
  | StrLit s => HStr s
  | BoolLit b => HBool b
  | Null => HNull
  | ColumnRef t c => HCol t c
  | Star => HStar
  | BinaryOp op l r => HBin op l r (Expr_rect' l) (Expr_rect' r)
  | UnaryOp op x => HUn op x (Expr_rect' x)
  | IsNull x => HIsNull x (Expr_rect' x)
  | IsNotNull x => HIsNotNull x (Expr_rect' x)
  | Between x l h => HBetween x l h (Expr_rect' x) (Expr_rect' l) (Expr_rect' h)
  | In x l => HIn x l (Expr_rect' x) (all l)
  | NotIn x l => HNotIn x l (Expr_rect' x) (all l)
  | FunctionCall n a d => HFun n a d (all a)
  | WindowFunc n a p o => HWin n a p o (all a) (all p) (all1 o)
  | Cast x t => HCast x t (Expr_rect' x)
  end.
End ExprInd.

End Ast.
