(* ===== verification/SqlValue.v ===== *)
(** * Values and column types

    Models [crates/sql/src/value.rs], the column types of
    [crates/sql/src/catalog.rs] and what the crate prints of a value with the
    [Debug] format.  A [String] is the list of its UTF-8 bytes.  [coerce_to],
    which can fail, is with the errors in [SqlCodec]. *)

From Stdlib Require Import Ascii String.
From S2P Require Import Prelude Bytes ByteOrder Strings Float64 SqlAst.

Module Value.

(** [Value]. *)
Inductive Value : Type :=
  | Null
  | Bool (b : bool)
  | Int64 (n : Z)
  | Float64 (f : f64)
  | Text (s : list N).

#[global] Instance Value_eq_dec : EqDecision Value.
Proof. solve_decision. Defined.

Definition is_null (v : Value) : bool := match v with Null => true | _ => false end.

Definition type_name (v : Value) : list N :=
  match v with
  | Null => text "null"
  | Bool _ => text "boolean"
  | Int64 _ => text "int64"
  | Float64 _ => text "float64"
  | Text _ => text "text"
  end.

(** [Value::as_key_bytes]: an integer in big-endian order with its sign bit
    flipped, the bytes of a text, one byte for a boolean. *)
Definition as_key_bytes (v : Value) : option (list N) :=
  match v with
  | Int64 n => Some (be_bytes 8 (N.lxor (of_signed 64 n) (2 ^ 63)))
  | Text s => Some s
  | Bool b => Some [if b then 1 else 0]
  | _ => None
  end.

(** The derived [PartialEq]: a NaN is not equal to itself, the zeros are equal. *)
Definition value_eq (v w : Value) : bool :=
  match v, w with
  | Null, Null => true
  | Bool a, Bool b => eqb a b
  | Int64 a, Int64 b => (a =? b)%Z
  | Float64 a, Float64 b => match f64_compare a b with Some Eq => true | _ => false end
  | Text a, Text b => bool_decide (a = b)
  | _, _ => false
  end.

(** [Ord for str] and [Ord for bool]. *)
Definition bytes_compare (a b : list N) : comparison :=
  if bytes_lt a b then Lt else if bytes_lt b a then Gt else Eq.
Definition bool_compare (a b : bool) : comparison :=
  match a, b with
  | false, true => Lt
  | true, false => Gt
  | _, _ => Eq
  end.

(** [PartialOrd for Value]. *)
Definition partial_cmp (v w : Value) : option comparison :=
  match v, w with
  | Null, Null => Some Eq
  | Null, _ => None
  | _, Null => None
  | Int64 a, Int64 b => Some (a ?= b)%Z
  | Float64 a, Float64 b => f64_compare a b
  | Int64 a, Float64 b => f64_compare (f64_of_Z a) b
  | Float64 a, Int64 b => f64_compare a (f64_of_Z b)
  | Text a, Text b => Some (bytes_compare a b)
  | Bool a, Bool b => Some (bool_compare a b)
  | _, _ => None
  end.

(** The values the Rust type has: a 64-bit integer, a float of the format, valid
    UTF-8 no longer than a length field can say. *)
Definition is_i64 (n : Z) : bool := ((- 2 ^ 63 <=? n) && (n <? 2 ^ 63))%Z.

Definition value_ok (v : Value) : bool :=
  match v with
  | Int64 n => is_i64 n
  | Float64 f => f64_ok f
  | Text s => forallb (fun b => b <? 256) s && utf8_valid s && (len s <? 2 ^ 32)
  | _ => true
  end.

(** [format!("{:?}", v)].  The derived [Debug] writes the name of the variant and
    the field; the field of [Float64] is written with the digits that identify
    it, with its sign, and the field of [Text] is quoted and escaped.  Distinct
    values of the type have distinct texts. *)
Class DebugFormat := {
  debug_value : Value -> list N;
  debug_value_inj : forall v w, debug_value v = debug_value w -> v = w;
}.

(** A numbering of the values with that property. *)
Definition Z_code (z : Z) : list N := [if (z <? 0)%Z then 1 else 0; Z.abs_N z].
Definition f64_code (f : f64) : list N :=
  match f with
  | SpecFloat.S754_zero s => [0; if s then 1 else 0]
  | SpecFloat.S754_infinity s => [1; if s then 1 else 0]
  | SpecFloat.S754_nan => [2]
  | SpecFloat.S754_finite s m e => [3; if s then 1 else 0; N.pos m] ++ Z_code e
  end.
Definition value_code (v : Value) : list N :=
  match v with
  | Null => [0]
  | Bool b => [1; if b then 1 else 0]
  | Int64 n => 2 :: Z_code n
  | Float64 f => 3 :: f64_code f
  | Text s => 4 :: s
  end.

Lemma Z_code_inj a b : Z_code a = Z_code b -> a = b.
Proof. unfold Z_code. intros [= Hs Ha]. destruct (Z.ltb_spec a 0), (Z.ltb_spec b 0); try discriminate; lia. Qed.

Lemma value_code_inj v w : value_code v = value_code w -> v = w.
Proof.
  assert (Hb : forall a b : bool, (if a then 1 else 0) = (if b then 1 else 0) -> a = b) by (by intros [] []).
  destruct v as [|a|a|f|a], w as [|b|b|g|b]; cbn [value_code]; try discriminate; try congruence.
  - intros [= H%Hb]. by subst.
  - intros H. f_equal. apply Z_code_inj. congruence.
  - destruct f, g; cbn [f64_code]; intros H; try discriminate H; try done.
    + injection H as H%Hb. by subst.
    + injection H as H%Hb. by subst.
    + cbn [app] in H. injection H as Hs Hm He. apply Hb in Hs. subst. do 2 f_equal.
      apply Z_code_inj. unfold Z_code. congruence.
Qed.

#[local] Instance code_debug : DebugFormat := {
  debug_value := value_code;
  debug_value_inj := value_code_inj;
}.

(** ** Keys

    The byte string of a key sorts as the value does, for values of one type:
    what lets the B+ tree compare keys as bytes. *)

Lemma bytes_compare_opp a b : bytes_compare b a = CompOpp (bytes_compare a b).
Proof.
  unfold bytes_compare. destruct (bytes_lt a b) eqn:E1, (bytes_lt b a) eqn:E2; try done.
  pose proof (bytes_lt_trans _ _ _ E1 E2) as E3. by rewrite bytes_lt_irrefl in E3.
Qed.

Lemma sql_cmp_opp v w : partial_cmp w v = CompOpp <$> partial_cmp v w.
Proof.
  destruct v as [|a|a|a|a], w as [|b|b|b|b]; try done; cbn [partial_cmp]; try apply f64_compare_opp; cbn.
  - by destruct a, b.
  - by rewrite (Z.compare_antisym a b).
  - by rewrite (bytes_compare_opp a b).
Qed.

Lemma bytes_compare_lt a b : bytes_compare a b = Lt <-> bytes_lt a b = true.
Proof. unfold bytes_compare. repeat case_match; try done; by split. Qed.

Lemma flip_sign n : is_i64 n = true -> N.lxor (of_signed 64 n) (2 ^ 63) = Z.to_N (n + 2 ^ 63).
Proof.
  unfold is_i64. rewrite andb_true_iff, Z.leb_le, Z.ltb_lt. intros Hn.
  assert (Hx : forall v, v < 2 ^ 63 -> N.lxor v (2 ^ 63) = v + 2 ^ 63).
  { intros v Hv. symmetry. apply N.add_nocarry_lxor, N.bits_inj. intros i.
    rewrite N.land_spec, N.pow2_bits_eqb, N.bits_0. destruct (N.eqb_spec 63 i) as [<-|]; [|apply andb_false_r].
    rewrite andb_true_r. destruct (decide (v = 0)) as [->|]; [done|].
    apply N.bits_above_log2, N.log2_lt_pow2; lia. }
  unfold of_signed. change (2 ^ Z.of_N 64)%Z with (2 ^ 64)%Z. destruct (Z.neg_nonneg_cases n).
  - rewrite <- (Z.mod_add n 1), Z.mod_small by lia.
    replace (Z.to_N (n + 1 * 2 ^ 64)) with (N.lxor (Z.to_N (n + 2 ^ 63)) (2 ^ 63)) by (rewrite Hx; lia).
    by rewrite N.lxor_assoc, N.lxor_nilpotent, N.lxor_0_r.
  - rewrite Z.mod_small, Hx by lia. lia.
Qed.

(** Two values of one type that can be keys. *)
Definition same_key_type (v w : Value) : bool :=
  match v, w with
  | Int64 _, Int64 _ | Text _, Text _ | Bool _, Bool _ => true
  | _, _ => false
  end.

(** For two keys of one type, [as_key_bytes] is defined on both and orders them
    as [partial_cmp] does. *)
Theorem as_key_bytes_order v w :
  value_ok v = true -> value_ok w = true -> same_key_type v w = true ->
  exists a b, as_key_bytes v = Some a /\ as_key_bytes w = Some b /\
    partial_cmp v w = Some (bytes_compare a b).
Proof.
  destruct v as [|x|x|x|x], w as [|y|y|y|y]; try discriminate; cbn [as_key_bytes value_ok]; intros Hx Hy _;
    do 2 eexists; (split; [reflexivity|]); (split; [reflexivity|]); cbn [partial_cmp]; f_equal.
  - by destruct x, y.
  - rewrite !flip_sign by done. unfold is_i64 in *. rewrite andb_true_iff, Z.leb_le, Z.ltb_lt in *.
    unfold bytes_compare. rewrite !be_bytes_lt by (change (256 ^ N.of_nat 8) with (2 ^ 64); lia).
    destruct (Z.compare_spec x y); case_cmp; try done; lia.
Qed.

Lemma as_key_bytes_order_witness :
  partial_cmp (Int64 (-5)) (Int64 3) =
    Some (bytes_compare [127; 255; 255; 255; 255; 255; 255; 251] [128; 0; 0; 0; 0; 0; 0; 3]).
Proof.
  destruct (as_key_bytes_order (Int64 (-5)) (Int64 3) eq_refl eq_refl eq_refl) as (a & b & Ha & Hb & H).
  injection Ha as <-. injection Hb as <-. exact H.
Defined.

(** ** Column types *)

(** [SqlType] and [ColumnSchema], [catalog.rs]. *)
Inductive SqlType : Type := TBoolean | TInt64 | TFloat64 | TText.

#[global] Instance SqlType_eq_dec : EqDecision SqlType.
Proof. solve_decision. Defined.

(** [SqlType::from_ast]. *)
Definition from_ast (dt : Ast.DataType) : option SqlType :=
  match dt with
  | Ast.Boolean => Some TBoolean
  | Ast.Int16 | Ast.Int32 | Ast.Int64 => Some TInt64
  | Ast.Float32 | Ast.Float64 => Some TFloat64
  | Ast.TextType | Ast.Varchar _ | Ast.CharType _ => Some TText
  | _ => None
  end.

Record ColumnSchema : Type := mkColumn {
  name : list N;
  sql_type : SqlType;
  nullable : bool;
  primary_key : bool;
}.

(** The type a value that is not [Null] has. *)
Definition has_type (v : Value) (t : SqlType) : bool :=
  match v, t with
  | Null, _ | Bool _, TBoolean | Int64 _, TInt64 | Float64 _, TFloat64 | Text _, TText => true
  | _, _ => false
  end.

End Value.
