(* ===== verification/SqlToken.v ===== *)
(** * Tokens and errors of the SQL crate

    Models the [Token] type of [crates/sql/src/lexer.rs] and the errors of
    [crates/sql/src/error.rs].  A message is kept as the values its format string
    is applied to. *)

From Stdlib Require Import Ascii String.
From S2P Require Import Prelude Bytes Strings Float64 StorageError StorageJsonb SqlAst SqlValue.

(** [Token], [lexer.rs].  [From], [Set], [End], [Check], [Default], [In], [As],
    [Else], [If], [Then], [With] and some more clash with words of the
    vernacular or of other types, so every constructor carries a prefix. *)
Inductive Token : Type :=
  | KSelect | KFrom | KWhere | KJoin | KOn | KAs
  | KGroup | KOrder | KBy | KHaving
  | KInsert | KInto | KValues
  | KUpdate | KSet
  | KDelete
  | KCreate | KTable | KDrop | KAlter | KIndex
  | KAnd | KOr | KNot | KIn | KIs | KNull | KLike | KBetween | KExists
  | KInner | KLeft | KRight | KFull | KCross | KOuter
  | KAsc | KDesc | KLimit | KOffset | KDistinct | KAll
  | KTrue | KFalse
  | KWith | KRecursive | KUnion | KIntersect | KExcept
  | KCase | KWhen | KThen | KElse | KEnd
  | KCast | KPrimary | KKey | KUnique | KReferences | KDefault | KCheck
  | KIf | KNot_
  | KBegin | KCommit | KRollback | KTransaction
  | KVacuum | KAnalyze | KExplain
  | KInt | KBigint | KInteger | KSmallint | KFloat | KDouble | KPrecision
  | KBool | KBoolean | KText | KVarchar | KChar | KBytea
  | KTimestamp | KDate | KTime
  | KJson | KJsonb
  | KVector | KNull_
  | KStorage | KColumnar | KRow
  | IntLiteral (n : Z)
  | FloatLiteral (f : f64)
  | StringLiteral (s : list N)
  | Ident (s : list N)
  | QuotedIdent (s : list N)
  | Plus | Minus | TStar | Slash | Percent | Caret
  | TEq | TNotEq | TLt | TGt | TLtEq | TGtEq
  | Arrow | DoubleArrow | TVectorDist | Contains | ContainedBy
  | DoubleColon | TConcat | QuestionMark | HashArrow
  | Dot | Comma | Semicolon | Colon
  | LeftParen | RightParen | LeftBracket | RightBracket
  | EOF.

#[global] Instance Token_eq_dec : EqDecision Token.
Proof. solve_decision. Defined.

(** The texts of the messages the lexer and the parser build. *)
Inductive Message : Type :=
  | InvalidFloat (s : list N)
  | InvalidInteger (s : list N)
  | UnterminatedString
  | UnterminatedQuotedIdent
  | ExpectedAfter (expected after : N)
  | UnexpectedChar (c : N)
  | ExpectedGot (expected got : Token)
  | ExpectedIdentifier (got : Token)
  | UnexpectedToken (got : Token)
  | UnexpectedInExpression (got : Token)
  | ExpectedDataType (got : Token)
  | ExpectedPositiveInteger (got : Token)
  | ExpectedIndexAfter (word : list N) (got : Token)
  | ExpectedOnOrUsing.

(** [ParseError], [error.rs]. *)
Record ParseError : Type := mkParseError { line : N; col : N; message : Message }.

(** [ParseError::at]. *)
Definition parse_error_at (m : Message) : ParseError := mkParseError 0 0 m.

(** The text of [format!]: the format string and its arguments. *)
Inductive FmtArg : Type :=
  | AText (s : list N)
  | ANum (n : Z)
  | AValue (v : Value.Value)
  | AExpr (e : Ast.Expr)
  | AType (t : Ast.DataType)
  | ASqlType (t : Value.SqlType)
  | AJson (e : Jsonb.JsonError).

Record Fmt : Type := mkFmt { template : list N; fmt_args : list FmtArg }.
Definition fmt (s : string) (args : list FmtArg) : Fmt := mkFmt (text s) args.

(** [SqlError], [error.rs]. *)
Inductive SqlError : Type :=
  | ParseErr (e : ParseError)
  | Semantic (m : Fmt)
  | Execution (m : Fmt)
  | StorageErr (e : StorageError).

Abbreviation sql_result := (outcome SqlError).
