(* ===== verification/SqlCodec.v ===== *)
(** * The row codec

    Models [crates/sql/src/codec.rs]: a row is stored as a bitmap of the columns
    that are not null, then the bytes of those columns in order.  Decoding takes
    the types from the schema.  [decode_encode_row] is the round trip. *)

From Stdlib Require Import Ascii String.
From S2P Require Import Prelude Bytes Strings Float64 StorageError SqlAst SqlValue SqlToken.

Module Codec.
Import Value.

(** [Value::coerce_to], [value.rs]. *)
Definition coerce_to (v : Value) (target : Ast.DataType) : sql_result Value :=
  match v, target with
  | Null, _ => Ok Null
  | Int64 n, (Ast.Int64 | Ast.Int32 | Ast.Int16) => Ok (Int64 n)
  | Int64 n, (Ast.Float64 | Ast.Float32) => Ok (Float64 (f64_of_Z n))
  | Float64 f, (Ast.Float64 | Ast.Float32) => Ok (Float64 f)
  | Bool b, Ast.Boolean => Ok (Bool b)
  | Text s, (Ast.TextType | Ast.Varchar _ | Ast.CharType _) => Ok (Text s)
  | _, _ => Err (Semantic (fmt "cannot coerce {} to {:?}" [AText (type_name v); AType target]))
  end.

(** [ncols.div_ceil(8)]. *)
Definition bitmap_bytes (ncols : N) : N := (ncols + 7) / 8.

Definition encode_value (v : Value) : list N :=
  match v with
  | Bool b => [if b then 1 else 0]
  | Int64 n => le_bytes 8 (of_signed 64 n)
  | Float64 f => le_bytes 8 (f64_to_bits f)
  | Text s => le_bytes 4 (u32 (len s)) ++ s
  | Null => []
  end.

(** [bitmap[i / 8] |= 1 << (i % 8)]. *)
Definition set_bit (bitmap : list N) (i : N) : sql_result (list N) :=
  b ← or_panic (bitmap !! N.to_nat (i / 8));
  Ok (<[N.to_nat (i / 8) := N.lor b (2 ^ (i mod 8))]> bitmap).

(** The loop of [encode_row]. *)
Fixpoint encode_loop (values : list Value) (i : N) (bitmap data : list N) : sql_result (list N * list N) :=
  match values with
  | [] => Ok (bitmap, data)
  | v :: values =>
      if is_null v then encode_loop values (i + 1) bitmap data
      else
        bitmap ← set_bit bitmap i;
        encode_loop values (i + 1) bitmap (data ++ encode_value v)
  end.

Definition encode_row (schema : list ColumnSchema) (values : list Value) : sql_result (list N) :=
  if len schema =? len values then
    '(bitmap, data) ← encode_loop values 0 (replicate (N.to_nat (bitmap_bytes (len values))) 0) [];
    Ok (bitmap ++ data)
  else Panic.

(** [decode_value]: the value and the number of bytes read. *)
Definition decode_value (t : SqlType) (bytes : list N) : sql_result (Value * N) :=
  match t with
  | TBoolean =>
      match bytes with
      | [] => Err (Execution (fmt "truncated boolean" []))
      | b :: _ => Ok (Bool (negb (b =? 0)), 1)
      end
  | TInt64 =>
      if len bytes <? 8 then Err (Execution (fmt "truncated int64" []))
      else Ok (Int64 (to_signed 64 (le_value (take 8 bytes))), 8)
  | TFloat64 =>
      if len bytes <? 8 then Err (Execution (fmt "truncated float64" []))
      else Ok (Float64 (f64_of_bits (le_value (take 8 bytes))), 8)
  | TText =>
      if len bytes <? 4 then Err (Execution (fmt "truncated text length" []))
      else
        let n := le_value (take 4 bytes) in
        if len bytes <? 4 + n then Err (Execution (fmt "truncated text data" []))
        else
          let s := bytes.[4; n] in
          if utf8_valid s then Ok (Text s, 4 + n)
          else Err (Execution (fmt "invalid UTF-8 in text column" []))
  end.

(** [(bitmap[i / 8] >> (i % 8)) & 1 == 1]. *)
Definition get_bit (bitmap : list N) (i : N) : sql_result bool :=
  b ← or_panic (bitmap !! N.to_nat (i / 8));
  Ok (N.land (N.shiftr b (i mod 8)) 1 =? 1).

(** The loop of [decode_row]. *)
Fixpoint decode_loop (schema : list ColumnSchema) (i : N) (bitmap bytes : list N) (pos : N)
    : sql_result (list Value) :=
  match schema with
  | [] => Ok []
  | col :: schema =>
      '(is_non_null : bool) ← get_bit bitmap i;
      if is_non_null then
        rest ← slice bytes pos (len bytes);
        '(val, consumed) ← decode_value (sql_type col) rest;
        vals ← decode_loop schema (i + 1) bitmap bytes (pos + consumed);
        Ok (val :: vals)
      else
        vals ← decode_loop schema (i + 1) bitmap bytes pos;
        Ok (Null :: vals)
  end.

Definition decode_row (schema : list ColumnSchema) (bytes : list N) : sql_result (list Value) :=
  let bb := bitmap_bytes (len schema) in
  if len bytes <? bb then Err (Execution (fmt "row bytes too short for null bitmap" []))
  else
    bitmap ← slice bytes 0 bb;
    decode_loop schema 0 bitmap bytes bb.

(** A row that fits a schema: one value of its type per column. *)
Definition row_ok (schema : list ColumnSchema) (values : list Value) : Prop :=
  Forall2 (fun c v => has_type v (sql_type c) = true /\ value_ok v = true) schema values.

#[global] Instance row_ok_dec schema values : Decision (row_ok schema values).
Proof. unfold row_ok. apply _. Defined.

(** ** The bitmap *)

(** Bit [i] of a bitmap. *)
Definition bit (bitmap : list N) (i : N) : bool :=
  match bitmap !! N.to_nat (i / 8) with
  | Some b => N.testbit b (i mod 8)
  | None => false
  end.

Lemma get_bit_eq bitmap i : i / 8 < len bitmap -> get_bit bitmap i = Ok (bit bitmap i).
Proof.
  intros Hi. unfold get_bit, bit.
  destruct (lookup_lt_is_Some_2 bitmap (N.to_nat (i / 8))) as [b ->]; [unfold len in Hi; lia|].
  cbn [or_panic]. rewrite bind_ok. f_equal.
  change 1 with (N.ones 1) at 1. rewrite N.land_ones, <- (N.bit0_eqb (N.shiftr b _)). by rewrite N.shiftr_spec'.
Qed.

Lemma set_bit_eq bitmap i : i / 8 < len bitmap ->
  exists bitmap', set_bit bitmap i = Ok bitmap' /\ len bitmap' = len bitmap /\
    forall j, bit bitmap' j = (j =? i) || bit bitmap j.
Proof.
  intros Hi. unfold set_bit, bit.
  destruct (lookup_lt_is_Some_2 bitmap (N.to_nat (i / 8))) as [b Hb]; [unfold len in Hi; lia|].
  rewrite Hb. cbn [or_panic]. rewrite bind_ok. eexists. split; [done|]. split.
  { unfold len. by rewrite length_insert. }
  intros j. destruct (decide (j / 8 = i / 8)) as [He|Hne].
  - rewrite He, list_lookup_insert_eq, Hb by (unfold len in Hi; lia).
    rewrite N.lor_spec, N.pow2_bits_eqb, orb_comm. f_equal.
    pose proof (N.div_mod' i 8). pose proof (N.div_mod' j 8). rewrite He in *.
    generalize dependent (i mod 8). generalize dependent (j mod 8). generalize dependent (i / 8).
    intros. case_cmp; done || lia.
  - rewrite list_lookup_insert_ne by lia. case_cmp; [congruence|done].
Qed.

(** Whether the column a bit stands for has a value. *)
Definition present (values : list Value) (i : N) : bool :=
  match values !! N.to_nat i with Some v => negb (is_null v) | None => false end.

Lemma encode_loop_eq values i bitmap data : i + len values <= 8 * len bitmap ->
  exists bitmap', encode_loop values i bitmap data = Ok (bitmap', data ++ concat (encode_value <$> values)) /\
    len bitmap' = len bitmap /\
    forall j, bit bitmap' j = bit bitmap j || ((i <=? j) && present values (j - i)).
Proof.
  revert i bitmap data. induction values as [|v values IH]; intros i bitmap data Hl.
  { exists bitmap. cbn. rewrite app_nil_r. split; [done|]. split; [done|].
    intros j. unfold present. by rewrite andb_false_r, orb_false_r. }
  rewrite len_cons in Hl.
  assert (Hp : forall j, (i <=? j) && present (v :: values) (j - i) =
    ((j =? i) && negb (is_null v)) || ((i + 1 <=? j) && present values (j - (i + 1)))).
  { intros j. unfold present. destruct (N.lt_trichotomy j i) as [Hj|[->|Hj]].
    - case_cmp; done || lia.
    - rewrite N.sub_diag, N.leb_refl, N.eqb_refl. destruct (N.leb_spec (i + 1) i); [lia|]. cbn. by rewrite orb_false_r.
    - replace (N.to_nat (j - i)) with (S (N.to_nat (j - (i + 1)))) by lia. case_cmp; done || lia. }
  cbn [encode_loop fmap list_fmap concat]. destruct (is_null v) eqn:Hv.
  - destruct (IH (i + 1) bitmap data ltac:(lia)) as (bm & -> & Hlen & Hbit). exists bm.
    destruct v; try discriminate. split; [done|]. split; [done|]. intros j. by rewrite Hbit, Hp, andb_false_r.
  - destruct (set_bit_eq bitmap i) as (bm & -> & Hlen & Hbit); [apply N.Div0.div_lt_upper_bound; lia|].
    rewrite bind_ok. destruct (IH (i + 1) bm (data ++ encode_value v) ltac:(lia)) as (bm' & -> & Hlen' & Hbit').
    exists bm'. rewrite app_assoc. split; [done|]. split; [congruence|].
    intros j. rewrite Hbit', Hbit, Hp, andb_true_r. by destruct (j =? i), (bit bitmap j).
Qed.

(** ** Values *)

Lemma length_le_bytes n v : length (le_bytes n v) = n.
Proof. apply Nat2N.inj, (len_le_bytes n v). Qed.

Lemma take_le_bytes n v rest : take n (le_bytes n v ++ rest) = le_bytes n v.
Proof. apply take_app_length'. by rewrite length_le_bytes. Qed.

Lemma decode_encode_value v t rest : has_type v t = true -> value_ok v = true -> is_null v = false ->
  decode_value t (encode_value v ++ rest) = Ok (v, len (encode_value v)).
Proof.
  destruct v as [|b|n|f|s], t; try discriminate; intros _ Hok _; cbn [encode_value decode_value value_ok] in *.
  - by destruct b.
  - rewrite len_app, len_le_bytes. destruct (N.ltb_spec (N.of_nat 8 + len rest) 8); [lia|].
    unfold is_i64 in Hok. rewrite andb_true_iff, Z.leb_le, Z.ltb_lt in Hok.
    rewrite take_le_bytes, le_value_le_bytes_small, to_of_signed; [done|done|done|].
    apply of_signed_lt.
  - rewrite len_app, len_le_bytes. destruct (N.ltb_spec (N.of_nat 8 + len rest) 8); [lia|].
    rewrite take_le_bytes, le_value_le_bytes_small, f64_of_to_bits by (try done; by apply f64_to_bits_lt). done.
  - rewrite !andb_true_iff, N.ltb_lt in Hok. destruct Hok as [[_ Hu] Hl].
    assert (Hp : le_value (take 4 ((le_bytes 4 (u32 (len s)) ++ s) ++ rest)) = len s).
    { rewrite <- app_assoc, take_le_bytes, le_value_le_bytes_small; unfold u32; [|apply wrap_lt].
      by apply wrap_small. }
    rewrite Hp, !len_app, len_le_bytes.
    destruct (N.ltb_spec (N.of_nat 4 + len s + len rest) 4); [lia|].
    destruct (N.ltb_spec (N.of_nat 4 + len s + len rest) (4 + len s)); [lia|].
    replace (read_at _ 4 (len s)) with s; [by rewrite Hu|].
    unfold read_at. rewrite <- app_assoc, drop_app_length' by (by rewrite length_le_bytes).
    by rewrite len_length, take_app_length.
Qed.

(** ** Rows *)

Lemma decode_loop_eq schema values i bitmap bytes pre rest :
  row_ok schema values -> i + len values <= 8 * len bitmap ->
  (forall j, j < len values -> bit bitmap (i + j) = present values j) ->
  bytes = pre ++ concat (encode_value <$> values) ++ rest ->
  decode_loop schema i bitmap bytes (len pre) = Ok values.
Proof.
  intros Hrow. revert i pre. induction Hrow as [|c v schema values [Ht Hok] Hrow IH]; intros i pre Hl Hbit Hb; [done|].
  rewrite len_cons in Hl. cbn [decode_loop fmap list_fmap concat] in *.
  assert (Hnext : forall j, j < len values -> bit bitmap (i + 1 + j) = present values j).
  { intros j Hj. rewrite <- N.add_assoc, Hbit by (rewrite len_cons; lia).
    unfold present. by replace (N.to_nat (1 + j)) with (S (N.to_nat j)) by lia. }
  rewrite get_bit_eq, bind_ok by (apply N.Div0.div_lt_upper_bound; lia).
  rewrite <- (N.add_0_r i) at 1. rewrite Hbit by (rewrite len_cons; lia).
  change (present (v :: values) 0) with (negb (is_null v)). destruct (is_null v) eqn:Hv; cbn [negb].
  - destruct v; try discriminate. rewrite (IH (i + 1) pre); [done|lia|done|done].
  - rewrite <- app_assoc in Hb. unfold slice.
    rewrite N.leb_refl, andb_true_r, (proj2 (N.leb_le _ _)) by (rewrite Hb, len_app; lia).
    rewrite bind_ok.
    replace (read_at bytes (len pre) (len bytes - len pre)) with (encode_value v ++ concat (encode_value <$> values) ++ rest).
    2:{ rewrite Hb at 1. unfold read_at. rewrite len_length, drop_app_length, take_ge; [done|].
        rewrite Hb, len_app. unfold len. lia. }
    rewrite decode_encode_value, bind_ok by done. cbn [fst snd].
    rewrite <- len_app, (IH (i + 1) (pre ++ encode_value v)); [done|lia|done|].
    by rewrite Hb, <- !app_assoc.
Qed.

Lemma row_roundtrip schema values rest : row_ok schema values ->
  exists bytes, encode_row schema values = Ok bytes /\ decode_row schema (bytes ++ rest) = Ok values.
Proof.
  intros Hrow. pose proof (Forall2_length _ _ _ Hrow) as Hl. unfold encode_row, decode_row.
  assert (Hn : len schema = len values) by (unfold len; by rewrite Hl). rewrite Hn, N.eqb_refl.
  assert (Hb : 0 + len values <= 8 * len (replicate (N.to_nat (bitmap_bytes (len values))) 0)).
  { rewrite len_replicate, N2Nat.id. unfold bitmap_bytes. pose proof (N.div_mod' (len values + 7) 8).
    pose proof (N.mod_lt (len values + 7) 8 ltac:(lia)). lia. }
  destruct (encode_loop_eq values 0 _ [] Hb) as (bm & -> & Hlen & Hbit).
  rewrite bind_ok. eexists. split; [done|]. cbn [app]. rewrite <- app_assoc.
  rewrite len_replicate, N2Nat.id in Hlen.
  rewrite len_app. destruct (N.ltb_spec (len bm + len (concat (encode_value <$> values) ++ rest)) (bitmap_bytes (len values))); [lia|].
  unfold slice. rewrite (proj2 (N.leb_le 0 _)), len_app, (proj2 (N.leb_le (bitmap_bytes _) _)) by lia.
  cbn [andb]. rewrite N.sub_0_r, bind_ok. replace (read_at _ 0 (bitmap_bytes (len values))) with bm.
  2:{ unfold read_at. rewrite drop_0, <- Hlen, len_length. by rewrite take_app_length. }
  rewrite <- Hlen. apply decode_loop_eq with (rest := rest); [done| |intros j Hj|done].
  - by rewrite Hlen; rewrite len_replicate, N2Nat.id in Hb.
  - rewrite Hbit, N.add_0_l, N.sub_0_r, (proj2 (N.leb_le 0 j)) by lia. unfold bit.
    destruct (replicate _ 0 !! N.to_nat (j / 8)) as [x|] eqn:Hx; [|done].
    apply lookup_replicate_1 in Hx as [-> _]. by rewrite N.bits_0.
Qed.

(** ** The bytes of a row *)

Lemma lor_byte a b : is_byte a -> is_byte b -> is_byte (N.lor a b).
Proof.
  unfold is_byte. intros Ha Hb. destruct (decide (N.lor a b = 0)) as [->|Hne]; [done|].
  change 256 with (2 ^ 8). apply N.log2_lt_pow2; [lia|]. rewrite N.log2_lor.
  assert (Hl : forall x, x < 256 -> N.log2 x < 8).
  { intros x Hx. destruct (decide (x = 0)) as [->|]; [done|]. apply N.log2_lt_pow2; [lia|done]. }
  apply N.max_lub_lt; by apply Hl.
Qed.

Lemma encode_value_bytes v : value_ok v = true -> bytes_ok (encode_value v).
Proof.
  destruct v as [|[]|n|f|s]; cbn [encode_value value_ok]; intros Hv; auto using le_bytes_ok; [by repeat constructor..|].
  apply andb_prop in Hv as [[Hs _]%andb_prop _]. apply Forall_app. split; [apply le_bytes_ok|].
  rewrite forallb_forall in Hs. apply Forall_forall. intros x Hx. apply N.ltb_lt, Hs. by apply list_elem_of_In.
Qed.

Lemma encode_loop_bytes values i bitmap data bm d : Forall (fun v => value_ok v = true) values -> bytes_ok bitmap -> bytes_ok data ->
  encode_loop values i bitmap data = Ok (bm, d) -> bytes_ok bm /\ bytes_ok d.
Proof.
  intros Hv. revert i bitmap data. induction Hv as [|v values Hv _ IH]; intros i bitmap data Hb Hd; cbn [encode_loop].
  { by intros [= <- <-]. }
  destruct (is_null v); [by apply IH|]. unfold set_bit.
  destruct (bitmap !! N.to_nat (i / 8)) as [b|] eqn:E; cbn [or_panic]; [|done]. rewrite !bind_ok.
  apply IH; [|apply Forall_app; split; [done|by apply encode_value_bytes]].
  apply Forall_insert; [done|]. apply lor_byte; [by apply (Forall_lookup_1 _ _ _ _ Hb E)|].
  unfold is_byte. change 256 with (2 ^ 8). apply N.pow_lt_mono_r; [lia|]. apply N.mod_lt. lia.
Qed.

Lemma encode_row_bytes schema values bytes : row_ok schema values -> encode_row schema values = Ok bytes -> bytes_ok bytes.
Proof.
  intros Hr. unfold encode_row. destruct (_ =? _); [|done].
  destruct (encode_loop _ _ _ _) as [[bm d]| |] eqn:E; [|done..]. rewrite bind_ok. intros [= <-].
  apply Forall_app. eapply encode_loop_bytes; [| | |exact E]; [|by apply Forall_replicate|constructor].
  clear E. induction Hr as [|c v cs vs [_ Hv] _ IH]; by constructor.
Qed.

(** C19: A row of a table is encoded without error, and decoding its bytes with the
    table's schema gives the row back, also when other bytes follow. *)
Theorem decode_encode_row schema values rest : row_ok schema values ->
  exists bytes, encode_row schema values = Ok bytes /\ decode_row schema (bytes ++ rest) = Ok values.
Proof. apply row_roundtrip. Qed.

Lemma decode_encode_row_witness :
  let schema := [mkColumn (text "id") TInt64 false true; mkColumn (text "name") TText true false;
                 mkColumn (text "ok") TBoolean true false] in
  exists bytes, encode_row schema [Int64 (-7); Null; Bool true] = Ok bytes /\
    decode_row schema (bytes ++ [1]) = Ok [Int64 (-7); Null; Bool true].
Proof.
  apply (decode_encode_row [mkColumn (text "id") TInt64 false true; mkColumn (text "name") TText true false;
                 mkColumn (text "ok") TBoolean true false] [Int64 (-7); Null; Bool true] [1]).
  apply (bool_decide_unpack _). by vm_compute.
Defined.

End Codec.
