(* ===== verification/SqlLike.v ===== *)
(** * LIKE patterns

    Models [like_match] of [crates/sql/src/executor.rs]: the table of the dynamic
    program is kept row by row.  [like_match_spec] says that it decides the meaning
    of a pattern: [%] stands for any text, [_] for any character, any other
    character for itself. *)

From S2P Require Import Prelude Bytes Strings.

Module Like.

(** A character is the list of its UTF-8 bytes. *)
Abbreviation char := (list N).

Definition percent : char := [37].
Definition underscore : char := [95].

(** The first row: [dp[0][j]] for the pattern from [j] on. *)
Fixpoint first_row (left : bool) (p : list char) : list bool :=
  match p with
  | [] => []
  | x :: p =>
      let v := if bool_decide (x = percent) then left else false in
      v :: first_row v p
  end.

(** The cells [dp[i][j + 1 ..]] for the character [c = s[i - 1]]: [diag] is
    [dp[i - 1][j]], [up] the cells [dp[i - 1][j + 1 ..]] and [left] is [dp[i][j]]. *)
Fixpoint next_cells (c : char) (p : list char) (diag : bool) (up : list bool) (left : bool) : list bool :=
  match p, up with
  | x :: p, u :: up =>
      let v := if bool_decide (x = percent) then u || left
               else if bool_decide (x = underscore) || bool_decide (x = c) then diag
               else false in
      v :: next_cells c p u up v
  | _, _ => []
  end.

Definition next_row (p : list char) (row : list bool) (c : char) : list bool :=
  match row with
  | [] => []
  | d :: up => false :: next_cells c p d up false
  end.

Definition like_chars (s p : list char) : bool :=
  default false (last (foldl (next_row p) (true :: first_row true p) s)).

Definition like_match (s pattern : list N) : bool := like_chars (chars s) (chars pattern).

(** ** The meaning of a pattern *)

Inductive matches : list char -> list char -> Prop :=
  | matches_nil : matches [] []
  | matches_percent s1 s2 p : matches s2 p -> matches (s1 ++ s2) (percent :: p)
  | matches_any c s p : matches s p -> matches (c :: s) (underscore :: p)
  | matches_char c s p : c <> percent -> matches s p -> matches (c :: s) (c :: p).

(** ** The table

    Row [i] has at [j] whether the first [j] characters of the pattern match the
    first [i] characters of the text.  The meaning is given on prefixes by the same
    equations from the right. *)

Lemma matches_app s1 s2 p1 p2 : matches s1 p1 -> matches s2 p2 -> matches (s1 ++ s2) (p1 ++ p2).
Proof. induction 1; cbn; intros; [done| |by constructor; auto..]. rewrite <- app_assoc. constructor. auto. Qed.

Lemma matches_app_inv s p1 p2 : matches s (p1 ++ p2) -> exists s1 s2, s = s1 ++ s2 /\ matches s1 p1 /\ matches s2 p2.
Proof.
  revert s. induction p1 as [|x p1 IH]; cbn; intros s Hm.
  { exists [], s. by repeat constructor. }
  inversion Hm as [|s1 s2 p Hm'|c s' p Hm'|c s' p Hne Hm']; subst;
    apply IH in Hm' as (t1 & t2 & -> & H1 & H2).
  - exists (s1 ++ t1), t2. rewrite app_assoc. split; [done|]. split; [by constructor|done].
  - exists (c :: t1), t2. split; [done|]. split; [by constructor|done].
  - exists (x :: t1), t2. split; [done|]. split; [by constructor|done].
Qed.

Lemma matches_snoc_percent s p : matches s (p ++ [percent]) <-> exists s1 s2, s = s1 ++ s2 /\ matches s1 p.
Proof.
  split.
  - intros (s1 & s2 & -> & H1 & _)%matches_app_inv. eauto.
  - intros (s1 & s2 & -> & H1). apply matches_app; [done|]. rewrite <- (app_nil_r s2). by repeat constructor.
Qed.

Lemma matches_snoc_other s p x : x <> percent ->
  matches s (p ++ [x]) <-> exists s1 c, s = s1 ++ [c] /\ (x = underscore \/ x = c) /\ matches s1 p.
Proof.
  intros Hx. split.
  - intros (s1 & s2 & -> & H1 & H2)%matches_app_inv. exists s1.
    inversion H2 as [|? ? ? Hm|c s' ? Hm|c s' ? ? Hm]; subst; try done;
      inversion Hm; subst; eauto.
  - intros (s1 & c & -> & Hc & H1). apply matches_app; [done|].
    destruct Hc as [->| ->]; by repeat constructor.
Qed.

(** The recurrence of the table. *)
Lemma matches_nil_l p x : matches [] (p ++ [x]) <-> x = percent /\ matches [] p.
Proof.
  destruct (decide (x = percent)) as [->|Hx].
  - rewrite matches_snoc_percent. split.
    + intros (s1 & s2 & [-> ->]%eq_sym%app_nil & H). done.
    + intros [_ H]. by exists [], [].
  - rewrite matches_snoc_other by done. split; [|by intros []].
    intros (s1 & c & He & _). by destruct s1.
Qed.

Lemma matches_cell s c p x : matches (s ++ [c]) (p ++ [x]) <->
  if decide (x = percent) then matches s (p ++ [x]) \/ matches (s ++ [c]) p
  else (x = underscore \/ x = c) /\ matches s p.
Proof.
  case_decide as Hx; [subst|].
  - rewrite !matches_snoc_percent. split.
    + intros (s1 & s2 & He & H). destruct s2 as [|d s2 _] using rev_ind.
      * rewrite app_nil_r in He. subst. auto.
      * rewrite app_assoc in He. apply app_inj_tail in He as [-> ->]. left. eauto.
    + intros [(s1 & s2 & -> & H)|H]; [|by exists (s ++ [c]), []; rewrite app_nil_r].
      exists s1, (s2 ++ [c]). by rewrite app_assoc.
  - rewrite matches_snoc_other by done. split.
    + intros (s1 & d & [-> ->]%app_inj_tail & ?). done.
    + intros ?. eauto.
Qed.

(** The cells of the row for the text [s], right of the first. *)
Definition cells (s p1 p2 : list char) (row : list bool) : Prop :=
  length row = length p2 /\
  forall k b, row !! k = Some b -> b = true <-> matches s (p1 ++ take (S k) p2).

Lemma cells_cons s p1 x p2 b row :
  (b = true <-> matches s (p1 ++ [x])) -> cells s (p1 ++ [x]) p2 row -> cells s p1 (x :: p2) (b :: row).
Proof.
  intros Hb [Hl Hc]. split; [cbn; lia|]. intros [|k] b' Hk; cbn in Hk.
  - injection Hk as <-. done.
  - apply Hc in Hk. by rewrite Hk, <- app_assoc.
Qed.

Lemma cells_inv s p1 x p2 b row : cells s p1 (x :: p2) (b :: row) ->
  (b = true <-> matches s (p1 ++ [x])) /\ cells s (p1 ++ [x]) p2 row.
Proof.
  intros [Hl Hc]. split; [by apply (Hc O)|]. split; [cbn in Hl; lia|]. intros k b' Hk.
  rewrite <- app_assoc. by apply (Hc (S k)).
Qed.

Lemma first_row_ok left p1 p2 : (left = true <-> matches [] p1) -> cells [] p1 p2 (first_row left p2).
Proof.
  revert left p1. induction p2 as [|x p2 IH]; intros left p1 Hl; cbn [first_row]; [by split|].
  assert (Hv : (if bool_decide (x = percent) then left else false) = true <-> matches [] (p1 ++ [x])).
  { rewrite matches_nil_l, <- Hl. case_bool_decide; naive_solver. }
  apply cells_cons; auto.
Qed.

Lemma next_cells_ok s c p1 p2 diag up left :
  (diag = true <-> matches s p1) -> cells s p1 p2 up -> (left = true <-> matches (s ++ [c]) p1) ->
  cells (s ++ [c]) p1 p2 (next_cells c p2 diag up left).
Proof.
  revert p1 diag up left. induction p2 as [|x p2 IH]; intros p1 diag up left Hd Hu Hl; cbn [next_cells]; [by split|].
  destruct up as [|u up]; [by destruct Hu|]. apply cells_inv in Hu as [Hu Hup].
  match goal with |- cells _ _ _ (?v :: _) => assert (Hv : v = true <-> matches (s ++ [c]) (p1 ++ [x])) end.
  { rewrite matches_cell. case_decide as Hx.
    - rewrite bool_decide_true by done. rewrite orb_true_iff. by rewrite Hu, Hl.
    - rewrite bool_decide_false by done. destruct (bool_decide (x = underscore) || _) eqn:E.
      + rewrite orb_true_iff, !bool_decide_eq_true in E. rewrite Hd. tauto.
      + rewrite orb_false_iff, !bool_decide_eq_false in E. naive_solver. }
  apply cells_cons; auto.
Qed.

(** [like_match] accepts the texts the pattern matches. *)
Theorem like_match_spec s pattern : like_match s pattern = true <-> matches (chars s) (chars pattern).
Proof.
  unfold like_match. generalize (chars s) as t, (chars pattern) as p. clear. intros t p. unfold like_chars.
  assert (Hrow : exists d up, foldl (next_row p) (true :: first_row true p) t = d :: up /\
    (d = true <-> matches t []) /\ cells t [] p up).
  { induction t as [|c t IH] using rev_ind; cbn [foldl].
    - exists true, (first_row true p). split; [done|].
      assert (Hn : true = true <-> matches [] []) by (split; [constructor|done]).
      split; [done|]. by apply first_row_ok.
    - destruct IH as (d & up & He & Hd & Hup). rewrite foldl_app, He. cbn [foldl next_row].
      assert (Hf : false = true <-> matches (t ++ [c]) []).
      { split; [done|]. intros H. inversion H as [Hn| | |]. by destruct t. }
      do 2 eexists. split; [done|]. split; [done|]. by apply next_cells_ok. }
  destruct Hrow as (d & up & -> & Hd & [Hl Hc]). rewrite last_lookup. cbn [length Nat.pred].
  destruct p as [|x p] using rev_ind.
  - destruct up; [|done]. cbn. done.
  - rewrite Hl, length_app, Nat.add_comm. change ((d :: up) !! (length [x] + length p)%nat) with (up !! length p).
    destruct (up !! length p) as [b|] eqn:E.
    + apply Hc in E. rewrite take_ge in E by (rewrite length_app; cbn; lia). exact E.
    + apply lookup_ge_None in E. rewrite Hl, length_app in E. cbn in E. lia.
Qed.

End Like.
