(* ===== verification/SqlGraph.v ===== *)
(** * Shortest paths

    Models the breadth-first search of the SQL function [oigrap_shortest_path]
    ([eval_function], [crates/sql/src/executor.rs]) on the edges of a table.
    [shortest_path_spec] says that it returns the length of a shortest path and
    finds one whenever there is one.  Every node enters the queue at most once, so
    that one round more than there are edges empties it. *)

From stdpp Require Import gmap.
From S2P Require Import Prelude.

Module Graph.

Abbreviation Edges := (list (Z * Z)).

(** One round over the edges for the node that was taken from the queue: the
    length when the target is next, or the nodes seen and the queue. *)
Fixpoint expand (edges : Edges) (node dist target : Z) (visited : gset Z) (queue : list (Z * Z))
    : Z + (gset Z * list (Z * Z)) :=
  match edges with
  | [] => inr (visited, queue)
  | (from, to) :: edges =>
      if (from =? node)%Z then
        if (to =? target)%Z then inl (dist + 1)%Z
        else if decide (to ∈ visited) then expand edges node dist target visited queue
        else expand edges node dist target ({[to]} ∪ visited) (queue ++ [(to, dist + 1)%Z])
      else expand edges node dist target visited queue
  end.

Fixpoint search (fuel : nat) (edges : Edges) (target : Z) (visited : gset Z) (queue : list (Z * Z)) : option Z :=
  match fuel, queue with
  | S fuel, (node, dist) :: queue =>
      match expand edges node dist target visited queue with
      | inl d => Some d
      | inr (visited, queue) => search fuel edges target visited queue
      end
  | _, _ => None
  end.

Definition shortest_path (edges : Edges) (source target : Z) : option Z :=
  if (source =? target)%Z then Some 0%Z
  else search (S (length edges)) edges target {[source]} [(source, 0%Z)].

(** ** Paths *)

Inductive path (edges : Edges) : Z -> Z -> Z -> Prop :=
  | path_nil u : path edges u 0 u
  | path_snoc u d v w : path edges u d v -> (v, w) ∈ edges -> path edges u (d + 1) w.

Lemma path_nonneg edges u d v : path edges u d v -> (0 <= d)%Z.
Proof. induction 1; lia. Qed.

Lemma list_to_set_size (l : list Z) : (size (list_to_set l : gset Z) <= length l)%nat.
Proof.
  induction l as [|x l IH]; [done|]. rewrite list_to_set_cons, size_union_alt, size_singleton.
  pose proof (subseteq_size (list_to_set l ∖ {[x]}) (list_to_set l : gset Z) ltac:(set_solver)). cbn. lia.
Qed.

Section Search.
Context (edges : Edges) (source target : Z).

(** [v] is at distance [d] from the source. *)
Definition at_dist (v d : Z) : Prop :=
  path edges source d v /\ forall j, (j < d)%Z -> ~ path edges source j v.

(** One round: the nodes it adds to the queue. *)
Lemma expand_spec es node dist visited queue : target ∉ visited ->
  match expand es node dist target visited queue with
  | inl d => d = (dist + 1)%Z /\ (node, target) ∈ es
  | inr (visited', queue') =>
      exists new, queue' = queue ++ ((fun n => (n, dist + 1)%Z) <$> new) /\
        visited' = list_to_set new ∪ visited /\ NoDup new /\
        (forall n, n ∈ new -> (node, n) ∈ es /\ n ∉ visited) /\
        (forall n, (node, n) ∈ es -> n ∈ visited' /\ n <> target) /\ target ∉ visited'
  end.
Proof.
  revert visited queue. induction es as [|[from to] es IH]; intros visited queue Ht; cbn [expand].
  { exists []. rewrite app_nil_r. split_and!; [done|apply set_eq; set_solver|constructor|set_solver..]. }
  destruct (Z.eqb_spec from node) as [->|Hne].
  - destruct (Z.eqb_spec to target) as [->|Hto]; [by split; [|left]|]. case_decide as Hv.
    + specialize (IH visited queue Ht). destruct (expand _ _ _ _ _ _) as [d|[visited' queue']].
      { destruct IH. split; [done|]. by right. }
      destruct IH as (new & -> & -> & Hd & Hn & Ha & Ht'). exists new. split_and!; try done; set_solver.
    + specialize (IH ({[to]} ∪ visited) (queue ++ [(to, dist + 1)%Z]) ltac:(set_solver)).
      destruct (expand _ _ _ _ _ _) as [d|[visited' queue']].
      { destruct IH. split; [done|]. by right. }
      destruct IH as (new & -> & -> & Hd & Hn & Ha & Ht'). exists (to :: new).
      rewrite <- app_assoc. split_and!; [done|apply set_eq; set_solver| |set_solver|set_solver|done].
      constructor; [|done]. intros Hin. apply Hn in Hin as [_ Hin]. set_solver.
  - specialize (IH visited queue Ht). destruct (expand _ _ _ _ _ _) as [d|[visited' queue']].
    { destruct IH. split; [done|]. by right. }
    destruct IH as (new & -> & -> & Hd & Hn & Ha & Ht'). exists new. split_and!; try done; set_solver.
Qed.

(** The invariant at the start of a round with [k] the distance of the first node
    of the queue: [done] are the nodes taken from the queue before. *)
Record inv (k : Z) (done visited : gset Z) (queue : list (Z * Z)) : Prop := {
  inv_visited : visited = done ∪ list_to_set queue.*1;
  inv_nodup : NoDup queue.*1;
  inv_disjoint : done ## list_to_set queue.*1;
  inv_below : forall v j, path edges source j v -> (j < k)%Z -> v ∈ done;
  inv_level : forall v j, path edges source j v -> (j <= k)%Z -> v ∈ visited;
  inv_queue : forall v d, (v, d) ∈ queue -> at_dist v d;
  inv_order : exists q1 q2, queue = q1 ++ q2 /\ (forall v d, (v, d) ∈ q1 -> d = k) /\
    (forall v d, (v, d) ∈ q2 -> d = (k + 1)%Z) /\ (queue <> [] -> q1 <> []);
  inv_edges : forall u v, u ∈ done -> (u, v) ∈ edges -> v ∈ visited;
  inv_target : target ∉ visited;
  inv_source : source ∈ visited;
  inv_bound : visited ⊆ {[source]} ∪ list_to_set edges.*2;
}.

(** A round that does not find the target: the invariant holds for the new queue,
    possibly one level on. *)
Lemma search_inv_step k done visited node dist queue new :
  inv k done visited ((node, dist) :: queue) ->
  NoDup new -> (forall n, n ∈ new -> (node, n) ∈ edges /\ n ∉ visited) ->
  (forall n, (node, n) ∈ edges -> n ∈ list_to_set new ∪ visited /\ n <> target) ->
  target ∉ list_to_set new ∪ visited ->
  exists k', inv k' ({[node]} ∪ done) (list_to_set new ∪ visited) (queue ++ ((fun n => (n, dist + 1)%Z) <$> new)).
Proof.
  intros [Hv Hnd Hdis Hbelow Hlevel Hq (q1 & q2 & Hqq & H1 & H2 & Hne) Hed Ht Hs Hbd] Hnew Hn Ha Ht'.
  assert (dist = k) as ->.
  { destruct q1 as [|[n d] q1]; [by destruct Hne|]. injection Hqq as <- <- _. apply (H1 node). left. }
  assert (Hfst : (queue ++ ((fun n => (n, k + 1)%Z) <$> new)).*1 = queue.*1 ++ new).
  { rewrite fmap_app. f_equal. rewrite <- list_fmap_compose. apply list_fmap_id. }
  cbn [fmap list_fmap fst] in Hnd, Hv, Hdis. apply NoDup_cons in Hnd as [Hnode Hnd].
  assert (Hk : at_dist node k) by (apply Hq; left).
  assert (Hvis : forall v, v ∈ visited <-> v ∈ done \/ v = node \/ v ∈ queue.*1).
  { intros v. rewrite Hv. set_solver. }
  assert (Hedges : forall u v, u ∈ {[node]} ∪ done -> (u, v) ∈ edges -> v ∈ (list_to_set new : gset Z) ∪ visited).
  { intros u v [->%elem_of_singleton|Hu]%elem_of_union He; [by apply Ha|]. apply elem_of_union_r. eauto. }
  assert (Hqueue : forall v d, (v, d) ∈ queue ++ ((fun n => (n, k + 1)%Z) <$> new) -> at_dist v d).
  { intros v d [Hin|(n & [= -> ->] & Hin)%list_elem_of_fmap]%elem_of_app; [by apply Hq; right|].
    destruct (Hn n Hin) as [He Hnv]. split; [by eapply path_snoc; [apply Hk|]|].
    intros j Hj Hp. apply Hnv, (Hlevel n j); [done|lia]. }
  destruct q1 as [|x q1]; [by destruct Hne|]. injection Hqq as <- ->.
  assert (Hbase : forall k', (forall v j, path edges source j v -> (j < k')%Z -> v ∈ {[node]} ∪ done) ->
    (forall v j, path edges source j v -> (j <= k')%Z -> v ∈ (list_to_set new : gset Z) ∪ visited) ->
    (exists r1 r2, (q1 ++ q2) ++ ((fun n => (n, k + 1)%Z) <$> new) = r1 ++ r2 /\ (forall v d, (v, d) ∈ r1 -> d = k') /\
      (forall v d, (v, d) ∈ r2 -> d = (k' + 1)%Z) /\
      ((q1 ++ q2) ++ ((fun n => (n, k + 1)%Z) <$> new) <> [] -> r1 <> [])) ->
    inv k' ({[node]} ∪ done) (list_to_set new ∪ visited) ((q1 ++ q2) ++ ((fun n => (n, k + 1)%Z) <$> new))).
  { intros k' Hb Hl Ho. constructor; try done; [| | |by apply elem_of_union_r|].
    - rewrite Hfst. apply set_eq. intros v.
      rewrite !elem_of_union, Hvis, !elem_of_list_to_set, elem_of_app, elem_of_singleton. tauto.
    - rewrite Hfst. apply NoDup_app. split_and!; [done| |done]. intros v Hq' Hnw. apply Hn in Hnw as [_ []].
      apply Hvis. auto.
    - rewrite Hfst. intros v Hd Hq'. rewrite elem_of_list_to_set, elem_of_app in Hq'.
      destruct Hq' as [Hq'|Hq'].
      + apply elem_of_union in Hd as [->%elem_of_singleton|Hd]; [done|]. apply (Hdis v Hd).
        apply elem_of_list_to_set. by right.
      + apply Hn in Hq' as [_ []]. apply Hvis. apply elem_of_union in Hd as [->%elem_of_singleton|Hd]; auto.
    - intros v [Hin%elem_of_list_to_set|Hin]%elem_of_union; [|by apply Hbd]. apply Hn in Hin as [He _].
      apply elem_of_union_r, elem_of_list_to_set, list_elem_of_fmap. by exists (node, v). }
  destruct q1 as [|y q1].
  - exists (k + 1)%Z.
    assert (Hb : forall v j, path edges source j v -> (j < k + 1)%Z -> v ∈ {[node]} ∪ done).
    { intros v j Hp Hj. assert (Hin : v ∈ visited) by (apply (Hlevel v j); [done|lia]).
      apply Hvis in Hin as [?|[->|Hin]];
        [by apply elem_of_union_r|by apply elem_of_union_l, elem_of_singleton|]. apply list_elem_of_fmap in Hin as ([n d] & -> & Hin).
      cbn in Hp. cbn [app] in Hin. pose proof (H2 n d Hin) as ->.
      destruct (Hq n (k + 1)%Z) as [_ Hmin]; [by right|]. by destruct (Hmin j). }
    apply Hbase; [done| |].
    + intros v j Hp Hj. destruct (Z.le_gt_cases j k); [apply elem_of_union_r; eauto|].
      inversion Hp as [u He|u d w v' Hp' He]; subst.
      * apply proj1, path_nonneg in Hk. lia.
      * apply (Hedges w); [|done]. apply (Hb w d); [done|lia].
    + exists (q2 ++ ((fun n => (n, k + 1)%Z) <$> new)), []. rewrite app_nil_r. split_and!; [done| | |done].
      * intros v d [Hin|(n & [= -> ->] & _)%list_elem_of_fmap]%elem_of_app; eauto.
      * intros v d Hin. by apply not_elem_of_nil in Hin.
  - exists k. apply Hbase.
    + intros v j Hp Hj. apply elem_of_union_r. eauto.
    + intros v j Hp Hj. apply elem_of_union_r. eauto.
    + exists (y :: q1), (q2 ++ ((fun n => (n, k + 1)%Z) <$> new)). rewrite <- app_assoc. split_and!; [done| | |done].
      * intros v d Hin. apply (H1 v). by right.
      * intros v d [Hin|(n & [= -> ->] & _)%list_elem_of_fmap]%elem_of_app; eauto.
Qed.

(** With a round for every node that may still enter the queue, the search finds
    the distance of the target, or that there is no path. *)
Lemma search_spec fuel k done visited queue : inv k done visited queue ->
  (S (length edges) <= fuel + size done)%nat ->
  match search fuel edges target visited queue with
  | Some d => at_dist target d
  | None => forall d, ~ path edges source d target
  end.
Proof.
  revert k done visited queue. induction fuel as [|fuel IH]; intros k done visited queue Hinv Hf.
  all: assert (Hempty : queue = [] -> forall d, ~ path edges source d target);
    [intros -> d Hp; destruct Hinv as [Hv _ _ _ _ _ _ Hed Ht Hs _];
     assert (visited = done) as -> by (rewrite Hv; apply set_eq; set_solver);
     apply Ht; clear - Hp Hed Hs; induction Hp; eauto|].
  - cbn [search]. apply Hempty. pose proof Hinv as [Hv Hnd Hdis _ _ _ _ _ _ _ Hbd].
    apply subseteq_size in Hbd. rewrite Hv, size_union, size_list_to_set in Hbd by done.
    pose proof (list_to_set_size (source :: edges.*2)) as Hle. rewrite list_to_set_cons in Hle.
    cbn [length] in Hle. rewrite !length_fmap in *. destruct queue; [done|cbn in Hbd; lia].
  - cbn [search]. destruct queue as [|[node dist] queue]; [by apply Hempty|]. clear Hempty.
    pose proof Hinv as [Hv Hnd Hdis _ Hlevel Hq (q1 & q2 & Hqq & H1 & _ & Hne) _ Ht _ _].
    assert (dist = k) as ->.
    { destruct q1 as [|[n d] q1]; [by destruct Hne|]. injection Hqq as <- <- _. apply (H1 node). left. }
    pose proof (expand_spec edges node k visited queue Ht) as He.
    destruct (expand edges node k target visited queue) as [d|[visited' queue']].
    + destruct He as [-> He]. destruct (Hq node k) as [Hp _]; [left|]. split; [by eapply path_snoc|].
      intros j Hj Hp'. apply Ht, (Hlevel _ j); [done|lia].
    + destruct He as (new & -> & -> & Hnew & Hn & Ha & Ht').
      destruct (search_inv_step k done visited node k queue new Hinv Hnew Hn Ha Ht') as [k' Hinv'].
      eapply IH; [exact Hinv'|]. rewrite size_union, size_singleton; [lia|].
      apply disjoint_singleton_l. intros Hin. apply (Hdis node Hin). apply elem_of_list_to_set. left.
Qed.

End Search.

(** [shortest_path] returns the length of a shortest path from the source to the
    target along the edges, and nothing exactly when there is no path. *)
Theorem shortest_path_spec edges source target :
  match shortest_path edges source target with
  | Some d => path edges source d target /\ forall j, (j < d)%Z -> ~ path edges source j target
  | None => forall d, ~ path edges source d target
  end.
Proof.
  unfold shortest_path. destruct (Z.eqb_spec source target) as [<-|Hne].
  - split; [constructor|]. intros j Hj Hp%path_nonneg. lia.
  - refine (search_spec edges source target (S (length edges)) 0 ∅ {[source]} [(source, 0%Z)] _ _);
      [|rewrite size_empty; lia].
    constructor; cbn [fmap list_fmap fst]; try set_solver.
    + apply NoDup_singleton.
    + intros v j Hp Hj. apply path_nonneg in Hp. lia.
    + intros v j Hp Hj. assert (j = 0%Z) as -> by (apply path_nonneg in Hp; lia).
      inversion Hp as [u He|u d w v' Hp']; subst; [by apply elem_of_singleton|]. apply path_nonneg in Hp'. lia.
    + intros v d [= -> ->]%list_elem_of_singleton. split; [constructor|]. intros j Hj Hp%path_nonneg. lia.
    + exists [(source, 0%Z)], []. split_and!; [done| | |done].
      * by intros v d [= -> ->]%list_elem_of_singleton.
      * intros v d Hin. by apply not_elem_of_nil in Hin.
Qed.

End Graph.
