(* ===== verification/SqlExpr.v ===== *)
(** * Expressions

    Models the evaluation of expressions in [crates/sql/src/executor.rs]:
    [eval_literal], [eval_expr], [eval_binop], [eval_function] with the functions on
    JSON texts, vectors and graphs they call.  Evaluation reads the thread-local
    variables of the executor, which [Env] holds.  Integer arithmetic wraps;
    division and remainder panic where the processor would trap. *)

From Stdlib Require Import Ascii String SpecFloat.
From S2P Require Import Prelude Bytes Strings Float64 StorageJsonb SqlAst SqlValue SqlToken SqlCodec SqlLike SqlGraph.

Module Expr.
Import Value.

Definition exec_err {A} (s : string) (args : list FmtArg) : sql_result A := Err (Execution (fmt s args)).

(** ** Values *)

Definition is_truthy (v : Value) : bool :=
  match v with
  | Bool b => b
  | Null => false
  | Int64 n => negb (n =? 0)%Z
  | Float64 f => match f64_compare f f64_zero with Some Eq => false | _ => true end
  | Text s => negb (bool_decide (s = []))
  end.

Definition coerce_value (v : Value) (target : SqlType) : sql_result Value :=
  match v, target with
  | Int64 n, TInt64 => Ok (Int64 n)
  | Int64 n, TFloat64 => Ok (Float64 (f64_of_Z n))
  | Float64 f, TFloat64 => Ok (Float64 f)
  | Text s, TText => Ok (Text s)
  | Bool b, TBoolean => Ok (Bool b)
  | Null, _ => Ok Null
  | _, _ => Err (Semantic (fmt "type mismatch: {:?} cannot coerce to {:?}" [AValue v; ASqlType target]))
  end.

(** A 64-bit result. *)
Definition wrap_i64 (z : Z) : Z := to_signed 64 (of_signed 64 z).

(** [-v]. *)
Definition negate (v : Value) : sql_result Value :=
  match v with
  | Int64 n => Ok (Int64 (wrap_i64 (- n)))
  | Float64 f => Ok (Float64 (f64_opp f))
  | other => exec_err "cannot negate {:?}" [AValue other]
  end.

Fixpoint eval_literal (e : Ast.Expr) : sql_result Value :=
  match e with
  | Ast.IntLit n => Ok (Int64 n)
  | Ast.FloatLit f => Ok (Float64 f)
  | Ast.StrLit s => Ok (Text s)
  | Ast.BoolLit b => Ok (Bool b)
  | Ast.Null => Ok Null
  | Ast.UnaryOp Ast.Neg e => v ← eval_literal e; negate v
  | other => exec_err "expected literal, got {:?}" [AExpr other]
  end.

(** ** JSON texts *)

(** The parts of a text between the commas outside of strings and brackets.  The
    characters that matter are ASCII, so that it may go by bytes. *)
Fixpoint split_top (l : list N) (prev : option N) (in_str : bool) (depth : Z) (cur : list N) : list (list N) :=
  match l with
  | [] => [cur]
  | c :: l =>
      if (c =? 34) && negb (bool_decide (prev = Some 92)) then
        split_top l (Some c) (negb in_str) depth (cur ++ [c])
      else if in_str then split_top l (Some c) in_str depth (cur ++ [c])
      else if (c =? 123) || (c =? 91) then split_top l (Some c) in_str (depth + 1) (cur ++ [c])
      else if (c =? 125) || (c =? 93) then split_top l (Some c) in_str (depth - 1) (cur ++ [c])
      else if (c =? 44) && (depth =? 0)%Z then cur :: split_top l (Some c) in_str depth []
      else split_top l (Some c) in_str depth (cur ++ [c])
  end.

(** [find_colon], as the text before and after it. *)
Fixpoint find_colon (in_str : bool) (s : list N) : option (list N * list N) :=
  match s with
  | [] => None
  | c :: s =>
      if negb in_str && (c =? 58) then Some ([], s)
      else '(a, b) ← find_colon (if c =? 34 then negb in_str else in_str) s; Some (c :: a, b)
  end.

(** The parts, the last one only when it is not blank. *)
Definition segments (s : list N) : list (list N) * list N :=
  let parts := split_top s None false 0 [] in
  (removelast parts, default [] (last parts)).

Definition split_json_pairs (s : list N) : list (list N * list N) :=
  let '(init, tail) := segments s in
  omap (find_colon false) (if bool_decide (trim tail = []) then init else init ++ [tail]).

Definition split_json_array (s : list N) : list (list N) :=
  let '(init, tail) := segments s in
  if bool_decide (trim tail = []) then init else init ++ [trim tail].

(** [key.parse::<usize>()]. *)
Definition parse_usize (s : list N) : option N :=
  let ds := match s with c :: r => if c =? 43 then r else s | [] => s end in
  match ds with
  | [] => None
  | _ => if forallb is_digit ds && (digits_value ds <? 2 ^ 64) then Some (digits_value ds) else None
  end.

Definition starts_with (c : N) (s : list N) : bool := bool_decide (head s = Some c).
Definition ends_in (c : N) (s : list N) : bool := bool_decide (last s = Some c).

(** [&s[1..s.len() - 1]]. *)
Definition inside (s : list N) : sql_result (list N) := str_slice s 1 (len s - 1).

Definition json_get_idx (json_str : list N) (idx : N) : sql_result (list N) :=
  let s := trim json_str in
  if negb (starts_with 91 s) then exec_err "not a JSON array" []
  else
    inner ← inside s;
    match split_json_array inner !! N.to_nat idx with
    | Some e => Ok (trim e)
    | None => exec_err "JSON array index {} out of bounds" [ANum (Z.of_N idx)]
    end.

Definition json_get (json_str key : list N) : sql_result (list N) :=
  let s := trim json_str in
  if starts_with 123 s then
    inner ← inside s;
    match List.find (fun kv => bool_decide (trim_matches 34 (trim kv.1) = key)) (split_json_pairs inner) with
    | Some (_, v) => Ok (trim v)
    | None => exec_err "key '{}' not found in JSON object" [AText key]
    end
  else if starts_with 91 s then
    match parse_usize key with
    | Some idx => json_get_idx s idx
    | None => exec_err "cannot use string key '{}' on JSON array" [AText key]
    end
  else exec_err "not a JSON object or array: {}" [AText json_str].

(** The keys in the order of their first occurrence, with their last values. *)
Fixpoint set_key (k v : list N) (l : list (list N * list N)) : list (list N * list N) :=
  match l with
  | [] => [(k, v)]
  | (k', v') :: l => if bool_decide (k = k') then (k, v) :: l else (k', v') :: set_key k v l
  end.

Definition json_merge (a b : list N) : sql_result (list N) :=
  let a_str := trim a in
  let b_str := trim b in
  if negb (starts_with 123 a_str) || negb (starts_with 123 b_str) then
    exec_err "|| json merge requires both operands to be JSON objects" []
  else
    pa ← inside a_str;
    pb ← inside b_str;
    let add := fun l kv => set_key (trim_matches 34 (trim kv.1)) (trim kv.2) l in
    let merged := foldl add (foldl add [] (split_json_pairs pa)) (split_json_pairs pb) in
    Ok ([123] ++ Jsonb.join [44] (map (fun kv => [34] ++ kv.1 ++ [34; 58] ++ kv.2) merged) ++ [125]).

Definition parse_json_path (path_str : list N) : sql_result (list (list N)) :=
  let s := trim path_str in
  inner ← (if (starts_with 123 s && ends_in 125 s) || (starts_with 91 s && ends_in 93 s) then inside s else Ok s);
  Ok (List.filter (fun p => negb (bool_decide (p = [])))
        (map (fun p => trim_matches 34 (trim p)) (split 44 inner))).

(** The loop of the [#>] operator: a step that fails gives NULL. *)
Fixpoint follow_path (current : list N) (path : list (list N)) : sql_result Value :=
  match path with
  | [] => Ok (Text current)
  | segment :: path =>
      match json_get current segment with
      | Ok v => follow_path v path
      | Err _ => Ok Null
      | Panic => Panic
      end
  end.

(** [->>]: the quotes around a string are taken off. *)
Definition strip_quotes (v : list N) : sql_result Value :=
  let stripped := trim v in
  if starts_with 34 stripped && ends_in 34 stripped && (2 <=? len stripped) then
    s ← inside stripped; Ok (Text s)
  else Ok (Text v).

(** ** Vectors *)

Definition parse_vector_str (s : list N) : sql_result (list f64) :=
  let s := trim s in
  if negb (starts_with 91 s) || negb (ends_in 93 s) then exec_err "invalid vector format: {}" [AText s]
  else
    inner ← inside s;
    if bool_decide (trim inner = []) then Ok []
    else
      foldr (fun x acc =>
               match f64_from_str (trim x) with
               | Some f => fs ← acc; Ok (f :: fs)
               | None => exec_err "invalid float in vector: {}" [AText x]
               end) (Ok []) (split 44 inner).

Definition parse_vector_val (v : Value) : sql_result (list f64) :=
  match v with
  | Text s => parse_vector_str s
  | _ => exec_err "vector must be text in '[x,y,...]' format" []
  end.

Definition l2_distance (a b : list f64) : sql_result f64 :=
  if negb (len a =? len b) then
    exec_err "vector dimension mismatch: {} vs {}" [ANum (Z.of_N (len a)); ANum (Z.of_N (len b))]
  else
    let squares := zip_with (fun x y => let d := f64_sub x y in f64_mul d d) a b in
    Ok (f64_sqrt (foldl f64_add f64_zero squares)).

(** ** Operators *)

Definition numeric_binop (l r : Value) (int_op : Z -> Z -> sql_result Z) (float_op : f64 -> f64 -> f64)
    : sql_result Value :=
  match l, r with
  | Int64 a, Int64 b => n ← int_op a b; Ok (Int64 n)
  | Float64 a, Float64 b => Ok (Float64 (float_op a b))
  | Int64 a, Float64 b => Ok (Float64 (float_op (f64_of_Z a) b))
  | Float64 a, Int64 b => Ok (Float64 (float_op a (f64_of_Z b)))
  | l, r => exec_err "arithmetic on {:?} and {:?}" [AValue l; AValue r]
  end.

(** [a / b] and [a % b] on [i64]: zero divisors and the one quotient that does not
    fit panic. *)
Definition i64_min : Z := (- 2 ^ 63)%Z.
Definition i64_div (a b : Z) : sql_result Z :=
  if (b =? 0)%Z || ((a =? i64_min)%Z && (b =? -1)%Z) then Panic else Ok (Z.quot a b).
Definition i64_rem (a b : Z) : sql_result Z :=
  if (b =? 0)%Z || ((a =? i64_min)%Z && (b =? -1)%Z) then Panic else Ok (Z.rem a b).

(** [encode_jsonb(s).map_err(..)]. *)
Definition encode_or (template : string) (s : list N) : sql_result (list N) :=
  match Jsonb.encode_jsonb s with
  | Ok b => Ok b
  | Err e => exec_err template [AJson e]
  | Panic => Panic
  end.

Definition compare_op (holds : comparison -> bool) (l r : Value) : Value :=
  Bool (match partial_cmp l r with Some c => holds c | None => false end).

Definition eval_binop (op : Ast.BinOp) (l r : Value) : sql_result Value :=
  if is_null l || is_null r then Ok Null
  else
    match op with
    | Ast.Add => numeric_binop l r (fun a b => Ok (wrap_i64 (a + b))) f64_add
    | Ast.Sub => numeric_binop l r (fun a b => Ok (wrap_i64 (a - b))) f64_sub
    | Ast.Mul => numeric_binop l r (fun a b => Ok (wrap_i64 (a * b))) f64_mul
    | Ast.Div =>
        match l, r with
        | Int64 a, Int64 b =>
            if (b =? 0)%Z then exec_err "division by zero" [] else q ← i64_div a b; Ok (Int64 q)
        | _, _ => numeric_binop l r i64_div f64_div
        end
    | Ast.Mod => numeric_binop l r i64_rem f64_rem
    | Ast.Eq => Ok (Bool (value_eq l r))
    | Ast.NotEq => Ok (Bool (negb (value_eq l r)))
    | Ast.Lt => Ok (compare_op (fun c => match c with Lt => true | _ => false end) l r)
    | Ast.Gt => Ok (compare_op (fun c => match c with Gt => true | _ => false end) l r)
    | Ast.LtEq => Ok (compare_op (fun c => match c with Gt => false | _ => true end) l r)
    | Ast.GtEq => Ok (compare_op (fun c => match c with Lt => false | _ => true end) l r)
    | Ast.And => Ok (Bool (is_truthy l && is_truthy r))
    | Ast.Or => Ok (Bool (is_truthy l || is_truthy r))
    | Ast.Concat =>
        match l, r with
        | Text a, Text b => Ok (Text (a ++ b))
        | _, _ => exec_err "|| requires text operands" []
        end
    | Ast.Like | Ast.NotLike =>
        match l, r with
        | Text s, Text pat =>
            let matched := Like.like_match s pat in
            Ok (Bool (if bool_decide (op = Ast.Like) then matched else negb matched))
        | _, _ => exec_err "LIKE requires text operands" []
        end
    | Ast.JsonGet =>
        match l, r with
        | Text j, Text key => v ← json_get j key; Ok (Text v)
        | Text j, Int64 idx => v ← json_get_idx j (of_signed 64 idx); Ok (Text v)
        | _, _ => exec_err "-> requires json text operand" []
        end
    | Ast.JsonGetText =>
        match l, r with
        | Text j, Text key => v ← json_get j key; strip_quotes v
        | Text j, Int64 idx => v ← json_get_idx j (of_signed 64 idx); strip_quotes v
        | _, _ => exec_err "->> requires json text operand" []
        end
    | Ast.JsonContains =>
        match l, r with
        | Text o, Text i =>
            ob ← encode_or "@> outer parse error: JSON parse error: {}" o;
            ib ← encode_or "@> inner parse error: JSON parse error: {}" i;
            Ok (Bool (Jsonb.jsonb_contains ob ib))
        | _, _ => exec_err "@> requires json text operands" []
        end
    | Ast.JsonKeyExists =>
        match l, r with
        | Text j, Text key =>
            b ← encode_or "JSON parse error: {}" j;
            Ok (Bool (match Jsonb.jsonb_get_key b key with Some _ => true | None => false end))
        | _, _ => exec_err "? requires a JSON text left operand and text key" []
        end
    | Ast.JsonMerge =>
        match l, r with
        | Text a, Text b => m ← json_merge a b; Ok (Text m)
        | _, _ => exec_err "|| json merge requires two JSON text operands" []
        end
    | Ast.JsonPath =>
        match l, r with
        | Text j, Text p => path ← parse_json_path p; follow_path j path
        | _, _ => exec_err "#> requires json text operands" []
        end
    | Ast.VectorDist =>
        la ← parse_vector_val l;
        ra ← parse_vector_val r;
        d ← l2_distance la ra;
        Ok (Float64 d)
    end.

(** ** Functions and expressions *)

(** The thread-local variables: the depth of a recursive query, the edges and the
    page ranks collected before a projection, by table and columns. *)
Record Env : Type := mkEnv {
  cte_depth : Z;
  edge_cache : list N -> option (list (Z * Z));
  pagerank_cache : list N -> option (Z -> option f64);
}.

(** The arguments of a function of graphs, each with its message. *)
Definition int_arg (a : sql_result Value) (template : string) : sql_result Z :=
  v ← a;
  match v with
  | Int64 n => Ok n
  | other => exec_err template [AValue other]
  end.

Section Eval.
Context `{UnicodeCase} (env : Env).

Definition name_arg (a : sql_result Value) (template : string) : sql_result (list N) :=
  v ← a;
  match v with
  | Text s => Ok (to_lowercase s)
  | other => exec_err template [AValue other]
  end.

(** [args.first()] evaluated, and its text. *)
Definition first_text (args : list (sql_result Value)) : sql_result (option (list N)) :=
  match args with
  | [] => Ok None
  | a :: _ => v ← a; Ok (match v with Text s => Some s | _ => None end)
  end.

Definition on_text (args : list (sql_result Value)) (f : list N -> Value) : sql_result Value :=
  s ← first_text args;
  Ok (match s with Some s => f s | None => Null end).

(** [COALESCE]. *)
Fixpoint coalesce (args : list (sql_result Value)) : sql_result Value :=
  match args with
  | [] => Ok Null
  | a :: args => v ← a; if is_null v then coalesce args else Ok v
  end.

(** [args[i]]. *)
Definition arg (args : list (sql_result Value)) (i : nat) : sql_result Value :=
  match args !! i with Some a => a | None => Panic end.

Definition cache_key (a b c : list N) : list N := a ++ [47] ++ b ++ [47] ++ c.

Definition fn_shortest_path (args : list (sql_result Value)) : sql_result Value :=
  if len args <? 5 then
    exec_err "oigrap_shortest_path requires 5 arguments: source_id, target_id, edge_table, from_col, to_col" []
  else
    source ← int_arg (arg args 0) "oigrap_shortest_path: source_id must be integer, got {:?}";
    target ← int_arg (arg args 1) "oigrap_shortest_path: target_id must be integer, got {:?}";
    edge_table ← name_arg (arg args 2) "oigrap_shortest_path: edge_table must be text, got {:?}";
    from_col ← name_arg (arg args 3) "oigrap_shortest_path: from_col must be text, got {:?}";
    to_col ← name_arg (arg args 4) "oigrap_shortest_path: to_col must be text, got {:?}";
    let edges := default [] (edge_cache env (cache_key edge_table from_col to_col)) in
    Ok (match Graph.shortest_path edges source target with Some d => Int64 d | None => Null end).

Definition fn_pagerank (args : list (sql_result Value)) : sql_result Value :=
  if len args <? 4 then
    exec_err "oigrap_pagerank requires 4 arguments: node_id, edge_table, from_col, to_col" []
  else
    node_id ← int_arg (arg args 0) "oigrap_pagerank: node_id must be integer, got {:?}";
    edge_table ← name_arg (arg args 1) "oigrap_pagerank: edge_table must be text, got {:?}";
    from_col ← name_arg (arg args 2) "oigrap_pagerank: from_col must be text, got {:?}";
    to_col ← name_arg (arg args 3) "oigrap_pagerank: to_col must be text, got {:?}";
    let rank := m ← pagerank_cache env (cache_key edge_table from_col to_col); m node_id in
    Ok (match rank with Some f => Float64 f | None => Null end).

(** [s.replace('\'', "''")]. *)
Definition double_quotes (s : list N) : list N := concat (map (fun c => if c =? 39 then [39; 39] else [c]) s).

Definition quoted (args : list (sql_result Value)) (f : list N -> list N) : sql_result Value :=
  match args with
  | [] => Ok Null
  | a :: _ => v ← a; Ok (match v with Text s => Text (f s) | other => other end)
  end.

(** The functions whose value is fixed. *)
Definition constants : list (list N * Value) :=
  [(text "ARRAY_AGG", Null); (text "STRING_AGG", Null);
   (text "VERSION", Text (text "PostgreSQL 14.0 (oigrap 0.1.0)"));
   (text "PG_CATALOG.VERSION", Text (text "PostgreSQL 14.0 (oigrap 0.1.0)"));
   (text "CURRENT_DATABASE", Text (text "postgres")); (text "CURRENT_CATALOG", Text (text "postgres"));
   (text "CURRENT_SCHEMA", Text (text "public")); (text "CURRENT_SCHEMAS", Text (text "public"));
   (text "CURRENT_USER", Text (text "postgres")); (text "SESSION_USER", Text (text "postgres"));
   (text "USER", Text (text "postgres"));
   (text "PG_BACKEND_PID", Int64 1);
   (text "PG_POSTMASTER_START_TIME", Text (text "2024-01-01 00:00:00+00"));
   (text "NOW", Text (text "2024-01-01 00:00:00+00"));
   (text "CLOCK_TIMESTAMP", Text (text "2024-01-01 00:00:00+00"));
   (text "TRANSACTION_TIMESTAMP", Text (text "2024-01-01 00:00:00+00"));
   (text "STATEMENT_TIMESTAMP", Text (text "2024-01-01 00:00:00+00"));
   (text "PG_ENCODING_TO_CHAR", Text (text "UTF8"));
   (text "PG_GET_USERBYID", Text (text "postgres"));
   (text "FORMAT_TYPE", Text (text "text")); (text "PG_CATALOG.FORMAT_TYPE", Text (text "text"));
   (text "OBJ_DESCRIPTION", Null); (text "COL_DESCRIPTION", Null); (text "SHOBJ_DESCRIPTION", Null);
   (text "PG_TABLE_IS_VISIBLE", Bool true); (text "PG_TYPE_IS_VISIBLE", Bool true);
   (text "PG_RELATION_SIZE", Int64 0); (text "PG_TOTAL_RELATION_SIZE", Int64 0);
   (text "PG_DATABASE_SIZE", Int64 0);
   (text "PG_CATALOG.PG_GET_EXPR", Null); (text "PG_GET_EXPR", Null)].

(** [eval_function]: evaluating an argument has no effect, so that the function
    takes the results and looks at those it needs. *)
Definition eval_function (name : list N) (args : list (sql_result Value)) : sql_result Value :=
  let named s := bool_decide (name = text s) in
  if named "COALESCE"%string then coalesce args
  else if named "UPPER"%string then on_text args (fun s => Text (to_uppercase s))
  else if named "LOWER"%string then on_text args (fun s => Text (to_lowercase s))
  else if named "LENGTH"%string then on_text args (fun s => Int64 (Z.of_N (len s)))
  else if named "DEPTH"%string then Ok (Int64 (cte_depth env))
  else if named "OIGRAP_SHORTEST_PATH"%string then fn_shortest_path args
  else if named "QUOTE_IDENT"%string then quoted args (fun s => [34] ++ s ++ [34])
  else if named "QUOTE_LITERAL"%string then quoted args (fun s => [39] ++ double_quotes s ++ [39])
  else if named "OIGRAP_PAGERANK"%string then fn_pagerank args
  else
    match List.find (fun kv => bool_decide (kv.1 = name)) constants with
    | Some (_, v) => Ok v
    | None => exec_err "unknown function '{}'" [AText name]
    end.

(** Whether a column reference names a column of the schema. *)
Definition column_matches (table : option (list N)) (col_lower : list N) (c : ColumnSchema) : bool :=
  let name_lower := to_lowercase (name c) in
  match table with
  | Some t =>
      bool_decide (name_lower = to_lowercase t ++ [46] ++ col_lower) || bool_decide (name_lower = col_lower)
  | None => bool_decide (name_lower = col_lower) || ends_with name_lower ([46] ++ col_lower)
  end.

(** [schema.iter().position(p)]. *)
Fixpoint position {A} (p : A -> bool) (l : list A) : option nat :=
  match l with
  | [] => None
  | x :: l => if p x then Some O else S <$> position p l
  end.

Definition pseudo_column (table : option (list N)) (col_lower : list N) : option Value :=
  match table with
  | Some _ => None
  | None =>
      if bool_decide (col_lower = text "current_schema") then Some (Text (text "public"))
      else if bool_decide (col_lower = text "current_user") then Some (Text (text "postgres"))
      else if bool_decide (col_lower = text "current_database") then Some (Text (text "postgres"))
      else None
  end.

Definition eval_column (table : option (list N)) (column : list N) (schema : list ColumnSchema) (row : list Value)
    : sql_result Value :=
  let col_lower := to_lowercase column in
  match pseudo_column table col_lower with
  | Some v => Ok v
  | None =>
      idx ← ok_or (position (column_matches table col_lower) schema)
              (Semantic (fmt "unknown column '{}'" [AText column]));
      or_panic (row !! idx)
  end.

(** [list.iter().any(|e| eval_expr(e).map(|rv| v == rv).unwrap_or(false))]. *)
Fixpoint any_equal (v : Value) (list : list (sql_result Value)) : sql_result bool :=
  match list with
  | [] => Ok false
  | Ok rv :: list => if value_eq v rv then Ok true else any_equal v list
  | Err _ :: list => any_equal v list
  | Panic :: _ => Panic
  end.

Definition between (v lo hi : Value) : Value :=
  let ge := match partial_cmp v lo with Some Lt | None => false | _ => true end in
  let le := match partial_cmp v hi with Some Gt | None => false | _ => true end in
  Bool (ge && le).

(** [e.to_string()] of the error of a cast. *)
Definition cast_error (m : Fmt) : Fmt := mkFmt (text "semantic error: " ++ template m) (fmt_args m).

Fixpoint eval_expr (e : Ast.Expr) (schema : list ColumnSchema) (row : list Value) : sql_result Value :=
  match e with
  | Ast.IntLit n => Ok (Int64 n)
  | Ast.FloatLit f => Ok (Float64 f)
  | Ast.StrLit s => Ok (Text s)
  | Ast.BoolLit b => Ok (Bool b)
  | Ast.Null => Ok Null
  | Ast.ColumnRef table column => eval_column table column schema row
  | Ast.UnaryOp Ast.Neg e => v ← eval_expr e schema row; negate v
  | Ast.UnaryOp Ast.Not e => v ← eval_expr e schema row; Ok (Bool (negb (is_truthy v)))
  | Ast.BinaryOp op l r =>
      lv ← eval_expr l schema row;
      rv ← eval_expr r schema row;
      eval_binop op lv rv
  | Ast.IsNull e => v ← eval_expr e schema row; Ok (Bool (is_null v))
  | Ast.IsNotNull e => v ← eval_expr e schema row; Ok (Bool (negb (is_null v)))
  | Ast.Between e low high =>
      v ← eval_expr e schema row;
      lo ← eval_expr low schema row;
      hi ← eval_expr high schema row;
      Ok (between v lo hi)
  | Ast.In e list =>
      v ← eval_expr e schema row;
      found ← any_equal v (map (fun e => eval_expr e schema row) list);
      Ok (Bool found)
  | Ast.NotIn e list =>
      v ← eval_expr e schema row;
      found ← any_equal v (map (fun e => eval_expr e schema row) list);
      Ok (Bool (negb found))
  | Ast.FunctionCall name args _ => eval_function name (map (fun e => eval_expr e schema row) args)
  | Ast.WindowFunc name _ _ _ =>
      match position (fun c => bool_decide (Value.name c = name ++ text "()")) schema with
      | Some idx => Ok (default Null (row !! idx))
      | None => Ok Null
      end
  | Ast.Cast e to =>
      v ← eval_expr e schema row;
      match Codec.coerce_to v to with
      | Err (Semantic m) => Err (Execution (cast_error m))
      | r => r
      end
  | other => exec_err "unsupported expression: {:?}" [AExpr other]
  end.

End Eval.

End Expr.
