(* ===== verification/SqlTyping.v ===== *)
(** * Typed expressions

    A type system for the expressions of the SQL crate.  The executor checks no
    types before it evaluates; [eval_well_typed] says that an expression with a type
    evaluates, on any row of the schema, without an error or a panic, to a value of
    the type or NULL, and that integers stay within 64 bits.  Division and remainder
    of integers are left out: [mod_zero_panics] shows why. *)

From Stdlib Require Import Ascii String.
From S2P Require Import Prelude Bytes Strings Float64 SqlAst SqlValue SqlToken SqlCodec SqlLike SqlExpr.

Module Typing.
Import Value Expr.

(** The operators by what they ask of their operands. *)
Definition is_arith (op : Ast.BinOp) : bool :=
  match op with Ast.Add | Ast.Sub | Ast.Mul => true | _ => false end.
Definition is_float_arith (op : Ast.BinOp) : bool :=
  match op with Ast.Add | Ast.Sub | Ast.Mul | Ast.Div | Ast.Mod => true | _ => false end.
Definition is_test (op : Ast.BinOp) : bool :=
  match op with
  | Ast.Eq | Ast.NotEq | Ast.Lt | Ast.Gt | Ast.LtEq | Ast.GtEq | Ast.And | Ast.Or => true
  | _ => false
  end.
Definition is_like (op : Ast.BinOp) : bool := match op with Ast.Like | Ast.NotLike => true | _ => false end.

Definition is_numeric (t : SqlType) : bool := match t with TInt64 | TFloat64 => true | _ => false end.

(** The casts that succeed. *)
Definition cast_type (t : SqlType) (to : Ast.DataType) : option SqlType :=
  match t, to with
  | TInt64, (Ast.Int64 | Ast.Int32 | Ast.Int16) => Some TInt64
  | TInt64, (Ast.Float64 | Ast.Float32) => Some TFloat64
  | TFloat64, (Ast.Float64 | Ast.Float32) => Some TFloat64
  | TBoolean, Ast.Boolean => Some TBoolean
  | TText, (Ast.TextType | Ast.Varchar _ | Ast.CharType _) => Some TText
  | _, _ => None
  end.

Section Typing.
Context `{UnicodeCase} (env : Env) (schema : list ColumnSchema).

(** [typed e t nn]: [e] has type [t], and is never NULL if [nn]. *)
Inductive typed : Ast.Expr -> SqlType -> bool -> Prop :=
  | typed_int n : is_i64 n = true -> typed (Ast.IntLit n) TInt64 true
  | typed_float f : typed (Ast.FloatLit f) TFloat64 true
  | typed_str s : typed (Ast.StrLit s) TText true
  | typed_bool b : typed (Ast.BoolLit b) TBoolean true
  | typed_null t : typed Ast.Null t false
  | typed_column table column idx c :
      pseudo_column table (to_lowercase column) = None ->
      position (column_matches table (to_lowercase column)) schema = Some idx ->
      schema !! idx = Some c ->
      typed (Ast.ColumnRef table column) (sql_type c) false
  | typed_neg e t : is_numeric t = true -> typed e t true -> typed (Ast.UnaryOp Ast.Neg e) t true
  | typed_not e t nn : typed e t nn -> typed (Ast.UnaryOp Ast.Not e) TBoolean true
  | typed_int_arith op l r nl nr : is_arith op = true -> typed l TInt64 nl -> typed r TInt64 nr ->
      typed (Ast.BinaryOp op l r) TInt64 (nl && nr)
  | typed_float_arith op l r tl tr nl nr :
      is_float_arith op = true -> is_numeric tl = true -> is_numeric tr = true ->
      tl = TFloat64 \/ tr = TFloat64 -> typed l tl nl -> typed r tr nr ->
      typed (Ast.BinaryOp op l r) TFloat64 (nl && nr)
  | typed_test op l r tl tr nl nr : is_test op = true -> typed l tl nl -> typed r tr nr ->
      typed (Ast.BinaryOp op l r) TBoolean (nl && nr)
  | typed_like op l r nl nr : is_like op = true -> typed l TText nl -> typed r TText nr ->
      typed (Ast.BinaryOp op l r) TBoolean (nl && nr)
  | typed_concat l r nl nr : typed l TText nl -> typed r TText nr ->
      typed (Ast.BinaryOp Ast.Concat l r) TText (nl && nr)
  | typed_is_null e t nn : typed e t nn -> typed (Ast.IsNull e) TBoolean true
  | typed_is_not_null e t nn : typed e t nn -> typed (Ast.IsNotNull e) TBoolean true
  | typed_between e lo hi t tl th nn nl nh : typed e t nn -> typed lo tl nl -> typed hi th nh ->
      typed (Ast.Between e lo hi) TBoolean true
  | typed_in e list t nn : typed e t nn -> typed_list list -> typed (Ast.In e list) TBoolean true
  | typed_not_in e list t nn : typed e t nn -> typed_list list -> typed (Ast.NotIn e list) TBoolean true
  | typed_coalesce args t d : typed_args args t -> typed (Ast.FunctionCall (text "COALESCE") args d) t false
  | typed_upper e d nn : typed e TText nn -> typed (Ast.FunctionCall (text "UPPER") [e] d) TText nn
  | typed_lower e d nn : typed e TText nn -> typed (Ast.FunctionCall (text "LOWER") [e] d) TText nn
  | typed_cast e t to t' nn : typed e t nn -> cast_type t to = Some t' -> typed (Ast.Cast e to) t' nn
with typed_list : list Ast.Expr -> Prop :=
  | typed_list_nil : typed_list []
  | typed_list_cons e es t nn : typed e t nn -> typed_list es -> typed_list (e :: es)
with typed_args : list Ast.Expr -> SqlType -> Prop :=
  | typed_args_nil t : typed_args [] t
  | typed_args_cons e es t nn : typed e t nn -> typed_args es t -> typed_args (e :: es) t.

Scheme typed_mind := Minimality for typed Sort Prop
  with typed_list_mind := Minimality for typed_list Sort Prop
  with typed_args_mind := Minimality for typed_args Sort Prop.

(** A value of a type, with integers in range. *)
Definition fits (v : Value) (t : SqlType) (nn : bool) : Prop :=
  has_type v t = true /\ (nn = true -> is_null v = false) /\ (forall n, v = Int64 n -> is_i64 n = true).

Lemma wrap_i64_range z : is_i64 (wrap_i64 z) = true.
Proof.
  unfold is_i64, wrap_i64, to_signed. pose proof (of_signed_lt 64 z) as Hb.
  change (2 ^ Z.of_N 64)%Z with (2 ^ 64)%Z. change (2 ^ (64 - 1)) with (2 ^ 63). rewrite andb_true_iff, Z.leb_le, Z.ltb_lt. case_cmp; lia.
Qed.

Ltac fit := split; [done|split; [done|try done]].

Lemma fits_bool b nn : fits (Bool b) TBoolean nn.
Proof. by fit. Qed.

Lemma fits_null t : fits Null t false.
Proof. by destruct t; fit. Qed.

(** NULL operands. *)
Lemma eval_binop_null op l r tl tr nl nr : fits l tl nl -> fits r tr nr ->
  (eval_binop op l r = Ok Null /\ nl && nr = false) \/ (is_null l = false /\ is_null r = false).
Proof.
  intros (_ & Hl & _) (_ & Hr & _). unfold eval_binop.
  destruct (is_null l); [left; split; [done|destruct nl; naive_solver]|].
  destruct (is_null r); [left; split; [done|destruct nr; [naive_solver|by rewrite andb_false_r]]|auto].
Qed.

Lemma int_arith_fits op l r nl nr : is_arith op = true -> fits l TInt64 nl -> fits r TInt64 nr ->
  exists v, eval_binop op l r = Ok v /\ fits v TInt64 (nl && nr).
Proof.
  intros Hop Hl Hr. destruct (eval_binop_null op l r _ _ _ _ Hl Hr) as [[-> ->]|[Hnl Hnr]].
  { eexists. split; [done|]. apply fits_null. }
  destruct Hl as (Hl & _), Hr as (Hr & _). destruct l as [| |x| |], r as [| |y| |]; try discriminate.
  destruct op; try discriminate; cbn; eexists; (split; [reflexivity|]); fit; intros n [= <-]; apply wrap_i64_range.
Qed.

Lemma float_arith_fits op l r tl tr nl nr : is_float_arith op = true ->
  is_numeric tl = true -> is_numeric tr = true -> tl = TFloat64 \/ tr = TFloat64 ->
  fits l tl nl -> fits r tr nr -> exists v, eval_binop op l r = Ok v /\ fits v TFloat64 (nl && nr).
Proof.
  intros Hop Htl Htr Ht Hl Hr. destruct (eval_binop_null op l r _ _ _ _ Hl Hr) as [[-> ->]|[Hnl Hnr]].
  { eexists. split; [done|]. apply fits_null. }
  destruct Hl as (Hl & _), Hr as (Hr & _).
  destruct l as [| |x|x|], r as [| |y|y|], tl, tr; try discriminate; try (by destruct Ht);
    (destruct op; try discriminate; cbn; eexists; (split; [reflexivity|]); by fit).
Qed.

Lemma test_fits op l r tl tr nl nr : is_test op = true -> fits l tl nl -> fits r tr nr ->
  exists v, eval_binop op l r = Ok v /\ fits v TBoolean (nl && nr).
Proof.
  intros Hop Hl Hr. destruct (eval_binop_null op l r _ _ _ _ Hl Hr) as [[-> ->]|[Hnl Hnr]].
  { eexists. split; [done|]. apply fits_null. }
  unfold eval_binop. rewrite Hnl, Hnr. cbn [orb].
  destruct op; try discriminate; eexists; (split; [reflexivity|]); apply fits_bool.
Qed.

Lemma text_fits op l r nl nr : is_like op || bool_decide (op = Ast.Concat) = true ->
  fits l TText nl -> fits r TText nr ->
  exists v, eval_binop op l r = Ok v /\ fits v (if is_like op then TBoolean else TText) (nl && nr).
Proof.
  intros Hop Hl Hr. destruct (eval_binop_null op l r _ _ _ _ Hl Hr) as [[-> ->]|[Hnl Hnr]].
  { eexists. split; [done|]. apply fits_null. }
  destruct Hl as (Hl & _), Hr as (Hr & _). destruct l as [| | | |x], r as [| | | |y]; try discriminate.
  destruct op; try discriminate; cbn; eexists; (split; [reflexivity|]); by fit.
Qed.

Context (row : list Value).
Hypothesis Hrow : Codec.row_ok schema row.

(** [e] evaluates to a value that fits. *)
Definition evaluates (e : Ast.Expr) (t : SqlType) (nn : bool) : Prop :=
  exists v, eval_expr env e schema row = Ok v /\ fits v t nn.

Lemma column_evaluates table column idx c :
  pseudo_column table (to_lowercase column) = None ->
  position (column_matches table (to_lowercase column)) schema = Some idx ->
  schema !! idx = Some c -> evaluates (Ast.ColumnRef table column) (sql_type c) false.
Proof.
  intros Hp Hi Hc. unfold evaluates. cbn [eval_expr]. unfold eval_column. rewrite Hp, Hi. cbn [ok_or].
  rewrite bind_ok. destruct (Forall2_lookup_l _ _ _ _ _ Hrow Hc) as (v & Hv & Ht & Hok). rewrite Hv.
  exists v. split; [done|]. split; [done|]. split; [done|]. intros n ->. exact Hok.
Qed.

Lemma any_equal_ok v es : Forall (fun e => exists w, eval_expr env e schema row = Ok w) es ->
  exists b, any_equal v (map (fun e => eval_expr env e schema row) es) = Ok b.
Proof.
  induction 1 as [|e es [w Hw] _ [b IH]]; cbn [map any_equal]; [by eexists|].
  rewrite Hw. destruct (value_eq v w); eauto.
Qed.

Lemma typed_evaluates e t nn : typed e t nn -> evaluates e t nn.
Proof.
  apply (typed_mind evaluates (Forall (fun e => exists w, eval_expr env e schema row = Ok w))
           (fun es t => Forall (fun e => exists nn, evaluates e t nn) es)); clear e t nn; unfold evaluates;
    cbn [eval_expr].
  - intros n Hn. eexists. split; [done|]. fit. by intros m [= <-].
  - intros f. eexists. split; [done|]. by fit.
  - intros s. eexists. split; [done|]. by fit.
  - intros b. eexists. split; [done|]. by fit.
  - intros t. eexists. split; [done|]. apply fits_null.
  - intros table column idx c Hp Hi Hc. by apply (column_evaluates table column idx).
  - intros e t Ht _ (v & -> & Hv & Hn & Hi). rewrite bind_ok. specialize (Hn eq_refl).
    destruct v as [| |n|f|], t; try discriminate; cbn; eexists; (split; [reflexivity|]); fit.
    intros m [= <-]. apply wrap_i64_range.
  - intros e t nn _ (v & -> & _). rewrite bind_ok. eexists. split; [done|]. apply fits_bool.
  - intros op l r nl nr Hop _ (v & -> & Hv) _ (w & -> & Hw). rewrite !bind_ok. by apply int_arith_fits.
  - intros op l r tl tr nl nr Hop Htl Htr Hor _ (v & -> & Hv) _ (w & -> & Hw). rewrite !bind_ok.
    by apply (float_arith_fits op v w tl tr).
  - intros op l r tl tr nl nr Hop _ (v & -> & Hv) _ (w & -> & Hw). rewrite !bind_ok. by apply (test_fits op v w tl tr).
  - intros op l r nl nr Hop _ (v & -> & Hv) _ (w & -> & Hw). rewrite !bind_ok.
    pose proof (text_fits op v w nl nr) as Hf. rewrite Hop in Hf. by apply Hf.
  - intros l r nl nr _ (v & -> & Hv) _ (w & -> & Hw). rewrite !bind_ok. by apply (text_fits Ast.Concat).
  - intros e t nn _ (v & -> & _). rewrite bind_ok. eexists. split; [done|]. apply fits_bool.
  - intros e t nn _ (v & -> & _). rewrite bind_ok. eexists. split; [done|]. apply fits_bool.
  - intros e lo hi t tl th nn nl nh _ (v & -> & _) _ (v1 & -> & _) _ (v2 & -> & _). rewrite !bind_ok.
    eexists. split; [done|]. apply fits_bool.
  - intros e es t nn _ (v & -> & _) _ Hes. rewrite bind_ok. destruct (any_equal_ok v es Hes) as [b ->].
    eexists. split; [done|]. apply fits_bool.
  - intros e es t nn _ (v & -> & _) _ Hes. rewrite bind_ok. destruct (any_equal_ok v es Hes) as [b ->].
    eexists. split; [done|]. apply fits_bool.
  - intros args t d _ Hargs. change (eval_function env (text "COALESCE") ?a) with (coalesce a).
    induction Hargs as [|e args (nn & v & He & Hv) Hargs IH]; cbn [map coalesce].
    { eexists. split; [done|]. apply fits_null. }
    rewrite He, bind_ok. destruct (is_null v); [done|]. exists v. split; [done|].
    destruct Hv as (? & _ & ?). by split.
  - intros e d nn _ (v & He & Hv & Hn & _). cbn [map].
    change (eval_function env (text "UPPER") ?a) with (on_text a (fun s => Text (to_uppercase s))).
    unfold on_text, first_text. rewrite He, !bind_ok. eexists. split; [done|]. by destruct v; fit.
  - intros e d nn _ (v & He & Hv & Hn & _). cbn [map].
    change (eval_function env (text "LOWER") ?a) with (on_text a (fun s => Text (to_lowercase s))).
    unfold on_text, first_text. rewrite He, !bind_ok. eexists. split; [done|]. by destruct v; fit.
  - intros e t to t' nn _ (v & -> & Hv & Hn & Hi) Hc. rewrite bind_ok.
    destruct v, t; try discriminate; destruct to; try discriminate; cbn; eexists; (split; [reflexivity|]);
      injection Hc as <-; by fit.
  - constructor.
  - intros e es t nn _ (v & Hv & _) _ IH. constructor; eauto.
  - constructor.
  - intros e es t nn _ IH1 _ IH2. constructor; eauto.
Qed.

End Typing.

(** C18: An expression that has a type evaluates on every row of the schema, without an
    error or a panic, to a value of the type; it is not NULL if the type says so,
    and an integer is in the range of 64 bits. *)
Theorem eval_well_typed `{UnicodeCase} env schema row e t nn :
  Codec.row_ok schema row -> typed schema e t nn ->
  exists v, eval_expr env e schema row = Ok v /\ fits v t nn.
Proof. intros Hrow He. by apply (typed_evaluates env schema row Hrow e t nn). Qed.

Section Examples.
#[local] Instance ascii_only : UnicodeCase := ascii_unicode.
Definition env0 : Env := mkEnv 0 (fun _ => None) (fun _ => None).
Definition users : list ColumnSchema :=
  [mkColumn (text "id") TInt64 false true; mkColumn (text "name") TText true false].

(** [id + 1 > 5 AND name LIKE 'a%'] on a row of [users]. *)
Definition where_clause : Ast.Expr :=
  Ast.BinaryOp Ast.And
    (Ast.BinaryOp Ast.Gt (Ast.BinaryOp Ast.Add (Ast.ColumnRef None (text "ID")) (Ast.IntLit 1)) (Ast.IntLit 5))
    (Ast.BinaryOp Ast.Like (Ast.ColumnRef None (text "name")) (Ast.StrLit (text "a%"))).

Lemma eval_well_typed_witness :
  exists v, eval_expr env0 where_clause users [Int64 7; Text (text "ann")] = Ok v /\ fits v TBoolean false.
Proof.
  apply (eval_well_typed env0 users [Int64 7; Text (text "ann")] where_clause TBoolean false).
  - apply (bool_decide_unpack _). by vm_compute.
  - apply (typed_test users Ast.And _ _ TBoolean TBoolean false false); [done| |].
    + apply (typed_test users Ast.Gt _ _ TInt64 TInt64 false true); [done| |by apply typed_int].
      apply (typed_int_arith users Ast.Add _ _ false true); [done| |by apply typed_int].
      by apply (typed_column users None (text "ID") 0 (mkColumn (text "id") TInt64 false true)).
    + apply (typed_like users Ast.Like _ _ false true); [done| |by apply typed_str].
      by apply (typed_column users None (text "name") 1 (mkColumn (text "name") TText true false)).
Defined.

(** Division by zero is an error, but the remainder by zero panics, as do both for
    the least integer and [-1]. *)
Theorem mod_zero_panics :
  eval_expr env0 (Ast.BinaryOp Ast.Div (Ast.IntLit 1) (Ast.IntLit 0)) [] [] =
    Err (Execution (fmt "division by zero" [])) /\
  eval_expr env0 (Ast.BinaryOp Ast.Mod (Ast.IntLit 1) (Ast.IntLit 0)) [] [] = Panic /\
  eval_expr env0 (Ast.BinaryOp Ast.Div (Ast.IntLit (- 2 ^ 63)) (Ast.IntLit (-1))) [] [] = Panic.
Proof. vm_compute. done. Qed.

(** [1 = 1.0] is false although [1 <= 1.0] and [1 >= 1.0] are true; and negating
    NULL is an error where every other operator gives NULL. *)
Theorem eq_disagrees_with_order :
  let cmp op := eval_expr env0 (Ast.BinaryOp op (Ast.IntLit 1) (Ast.FloatLit (f64_of_Z 1))) [] [] in
  cmp Ast.Eq = Ok (Bool false) /\ cmp Ast.LtEq = Ok (Bool true) /\ cmp Ast.GtEq = Ok (Bool true) /\
  eval_expr env0 (Ast.UnaryOp Ast.Neg Ast.Null) [] [] = Err (Execution (fmt "cannot negate {:?}" [AValue Null])).
Proof. vm_compute. done. Qed.
End Examples.

End Typing.
