(* ===== verification/SqlSpill.v ===== *)
(** * Spilled rows

    Models [crates/sql/src/spill.rs]: rows written to temporary files for large
    hash joins, and the partition of rows by the hash of a key column.  A file is
    the list of its bytes; creating, writing and reading one succeed.  A row read
    back is the row written ([read_write_row], [into_rows_write]). *)

From Stdlib Require Import Ascii String.
From S2P Require Import Prelude Bytes Strings Float64 SqlValue.

Module Spill.
Import Value.

Abbreviation row := (list Value).

(** The errors of [std::io] that reading a file can give: a row that is cut off. *)
Inductive IoError : Type := UnexpectedEof.
Abbreviation io_result := (outcome IoError).

(** ** Writing *)

Definition write_value (v : Value) : list N :=
  match v with
  | Null => [0]
  | Bool b => [1; if b then 1 else 0]
  | Int64 n => 2 :: le_bytes 8 (of_signed 64 n)
  | Float64 f => 3 :: le_bytes 8 (f64_to_bits f)
  | Text s => 4 :: le_bytes 4 (u32 (len s)) ++ s
  end.

Definition write_row (r : row) : list N := le_bytes 4 (u32 (len r)) ++ concat (map write_value r).

(** ** Reading *)

(** [read_exact] of [n] bytes. *)
Definition read_exact (n : N) (file : list N) : io_result (list N * list N) :=
  if len file <? n then Err UnexpectedEof else Ok (take (N.to_nat n) file, drop (N.to_nat n) file).

Definition read_value (file : list N) : io_result (Value * list N) :=
  '(tag, file) ← read_exact 1 file;
  let tag := le_value tag in
  if tag =? 0 then Ok (Null, file)
  else if tag =? 1 then '(b, file) ← read_exact 1 file; Ok (Bool (negb (le_value b =? 0)), file)
  else if tag =? 2 then '(b, file) ← read_exact 8 file; Ok (Int64 (to_signed 64 (le_value b)), file)
  else if tag =? 3 then '(b, file) ← read_exact 8 file; Ok (Float64 (f64_of_bits (le_value b)), file)
  else if tag =? 4 then
    '(b, file) ← read_exact 4 file;
    '(s, file) ← read_exact (le_value b) file;
    Ok (Text (from_utf8_lossy s), file)
  else Ok (Null, file).

(** The loop over the columns; each takes at least its tag. *)
Fixpoint read_values (n : nat) (count : N) (file : list N) : io_result (row * list N) :=
  if count =? 0 then Ok ([], file)
  else match n with
       | O => Err UnexpectedEof
       | S n =>
           '(v, file) ← read_value file;
           '(vs, file) ← read_values n (count - 1) file;
           Ok (v :: vs, file)
       end.

(** [SpillReader::read_row]: the end of the file where a row would start, or inside
    of its column count, ends the rows. *)
Definition read_row (file : list N) : io_result (option (row * list N)) :=
  match read_exact 4 file with
  | Ok (b, file) => '(r, file) ← read_values (length file) (le_value b) file; Ok (Some (r, file))
  | Err UnexpectedEof => Ok None
  | Panic => Panic
  end.

(** [SpillReader::into_rows]; a row takes at least four bytes. *)
Fixpoint rows_loop (n : nat) (file : list N) : io_result (list row) :=
  match n with
  | O => Ok []
  | S n =>
      r ← read_row file;
      match r with
      | None => Ok []
      | Some (r, file) => rs ← rows_loop n file; Ok (r :: rs)
      end
  end.
Definition into_rows (file : list N) : io_result (list row) := rows_loop (length file) file.

(** ** Partitions *)

(** [hash_str]: FNV-1a. *)
Definition hash_str (s : list N) : N :=
  foldl (fun h b => wrap 64 (N.lxor h b * 1099511628211)) 14695981039346656037 s.

Section Partition.
Context `{DebugFormat}.

Definition bucket_of (key : Value) (k : N) : N := hash_str (debug_value key) mod k.

(** [partition_rows]: one file per bucket. *)
Fixpoint partition_loop (rows : list row) (key_col : nat) (k : N) (files : list (list N))
    : io_result (list (list N)) :=
  match rows with
  | [] => Ok files
  | r :: rows =>
      key ← or_panic (r !! key_col);
      partition_loop rows key_col k (alter (fun f => f ++ write_row r) (N.to_nat (bucket_of key k)) files)
  end.
Definition partition_rows (rows : list row) (key_col : nat) (k : N) : io_result (list (list N)) :=
  partition_loop rows key_col k (replicate (N.to_nat k) []).
End Partition.

(** ** Round trips *)

Definition row_fits (r : row) : Prop := len r < 2 ^ 32 /\ Forall (fun v => value_ok v = true) r.

#[global] Instance row_fits_dec r : Decision (row_fits r).
Proof. unfold row_fits. apply _. Defined.

Lemma read_exact_app n a b : n = len a -> read_exact n (a ++ b) = Ok (a, b).
Proof.
  intros ->. unfold read_exact. rewrite len_app, (proj2 (N.ltb_ge _ _)) by lia.
  by rewrite len_length, take_app_length, drop_app_length.
Qed.

Lemma read_exact_cons x l : read_exact 1 (x :: l) = Ok ([x], l).
Proof. apply (read_exact_app 1 [x] l). done. Qed.

Lemma read_write_value v rest : value_ok v = true -> read_value (write_value v ++ rest) = Ok (v, rest).
Proof.
  intros Hok. unfold read_value. destruct v as [|b|n|f|s]; cbn [write_value app]; rewrite read_exact_cons, bind_ok.
  - done.
  - destruct b; cbn; by rewrite read_exact_cons.
  - change (le_value [2]) with 2. cbn [N.eqb Pos.eqb]. rewrite read_exact_app, bind_ok by (by rewrite len_le_bytes).
    cbn [value_ok] in Hok. unfold is_i64 in Hok. rewrite andb_true_iff, Z.leb_le, Z.ltb_lt in Hok.
    by rewrite le_value_le_bytes_small, to_of_signed by (done || apply of_signed_lt).
  - change (le_value [3]) with 3. cbn [N.eqb Pos.eqb]. rewrite read_exact_app, bind_ok by (by rewrite len_le_bytes).
    by rewrite le_value_le_bytes_small, f64_of_to_bits by (done || by apply f64_to_bits_lt).
  - change (le_value [4]) with 4. cbn [N.eqb Pos.eqb value_ok] in *. rewrite !andb_true_iff, N.ltb_lt in Hok.
    destruct Hok as [[_ Hu] Hl]. rewrite <- app_assoc, read_exact_app, bind_ok by (by rewrite len_le_bytes).
    rewrite le_value_le_bytes_small, u32_small by (done || apply wrap_lt).
    rewrite read_exact_app, bind_ok by done. by rewrite from_utf8_lossy_valid.
Qed.

Lemma read_write_values r n rest : Forall (fun v => value_ok v = true) r -> (length r <= n)%nat ->
  read_values n (len r) (concat (map write_value r) ++ rest) = Ok (r, rest).
Proof.
  intros Hok. revert n. induction Hok as [|v r Hv Hok IH]; intros n Hn; [by destruct n|].
  destruct n as [|n]; [cbn in Hn; lia|]. cbn [read_values map concat].
  rewrite len_cons, (proj2 (N.eqb_neq _ 0)) by lia. rewrite <- app_assoc, read_write_value, bind_ok by done.
  replace (1 + len r - 1) with (len r) by lia. by rewrite IH by (cbn in Hn; lia).
Qed.

Lemma read_write_row r rest : row_fits r -> read_row (write_row r ++ rest) = Ok (Some (r, rest)).
Proof.
  intros [Hl Hok]. unfold read_row, write_row. rewrite <- app_assoc.
  rewrite read_exact_app by (by rewrite len_le_bytes).
  rewrite le_value_le_bytes_small, u32_small by (done || apply wrap_lt).
  rewrite read_write_values; [done|done|]. rewrite length_app. clear - Hok.
  induction Hok as [|v r _ _ IH]; cbn; [lia|]. rewrite length_app.
  assert (1 <= length (write_value v))%nat by (destruct v; cbn; lia). lia.
Qed.

Lemma write_row_length r : (4 <= length (write_row r))%nat.
Proof. unfold write_row. rewrite length_app. cbn. lia. Qed.

(** A file of rows is read back as the rows. *)
Lemma into_rows_write rows : Forall row_fits rows -> into_rows (concat (map write_row rows)) = Ok rows.
Proof.
  intros Hok. unfold into_rows.
  assert (Hgen : forall n, (length rows <= n)%nat -> rows_loop n (concat (map write_row rows)) = Ok rows).
  { induction Hok as [|r rows Hr Hok IH]; intros n Hn; [by destruct n|].
    destruct n as [|n]; [cbn in Hn; lia|]. cbn [rows_loop map concat]. rewrite read_write_row, bind_ok by done.
    by rewrite IH by (cbn in Hn; lia). }
  apply Hgen. clear. induction rows as [|r rows IH]; cbn; [lia|]. rewrite length_app.
  pose proof (write_row_length r). lia.
Qed.

(** ** The partition *)

Section Buckets.
Context `{DebugFormat}.

(** The rows of bucket [j]. *)
Definition in_bucket (key_col : nat) (k j : N) (r : row) : bool :=
  match r !! key_col with
  | Some key => bucket_of key k =? j
  | None => false
  end.
Definition bucket_rows (rows : list row) (key_col : nat) (k j : N) : list row :=
  List.filter (in_bucket key_col k j) rows.

Lemma bucket_of_lt key k : 0 < k -> bucket_of key k < k.
Proof. intros. apply N.mod_lt. lia. Qed.

Lemma partition_loop_eq rows key_col k files : 0 < k -> length files = N.to_nat k ->
  Forall (fun r => is_Some (r !! key_col)) rows ->
  exists files', partition_loop rows key_col k files = Ok files' /\ length files' = N.to_nat k /\
    forall j f, files !! N.to_nat j = Some f ->
      files' !! N.to_nat j = Some (f ++ concat (map write_row (bucket_rows rows key_col k j))).
Proof.
  intros Hk Hl Hrows. revert files Hl. induction Hrows as [|r rows [key Hkey] _ IH]; intros files Hl.
  { exists files. split; [done|]. split; [done|]. intros j f Hf. cbn. by rewrite app_nil_r. }
  cbn [partition_loop]. rewrite Hkey. cbn [or_panic]. rewrite bind_ok.
  destruct (IH (alter (fun f => f ++ write_row r) (N.to_nat (bucket_of key k)) files)) as (fs & -> & Hfl & Hfs).
  { by rewrite length_alter. }
  exists fs. split; [done|]. split; [done|]. intros j f Hf. unfold bucket_rows in *. cbn [List.filter].
  assert (Hin : in_bucket key_col k j r = (bucket_of key k =? j)) by (unfold in_bucket; by rewrite Hkey).
  rewrite Hin. destruct (N.eqb_spec (bucket_of key k) j) as [<-|Hne].
  - cbn [map concat]. rewrite app_assoc. apply Hfs. by rewrite list_lookup_alter_eq, Hf.
  - apply Hfs. by rewrite list_lookup_alter_ne by lia.
Qed.

(** The rows of every bucket, in the order of the buckets. *)
Definition buckets (rows : list row) (key_col : nat) (k : N) : list (list row) :=
  map (fun j => bucket_rows rows key_col k (N.of_nat j)) (seq 0 (N.to_nat k)).

(** Reading the file of a bucket gives the rows of the bucket, in order. *)
Lemma partition_rows_spec rows key_col k : 0 < k -> Forall row_fits rows ->
  Forall (fun r => is_Some (r !! key_col)) rows ->
  exists files, partition_rows rows key_col k = Ok files /\
    Forall2 (fun f b => into_rows f = Ok b) files (buckets rows key_col k).
Proof.
  intros Hk Hfit Hrows. unfold partition_rows, buckets.
  destruct (partition_loop_eq rows key_col k (replicate (N.to_nat k) []) Hk) as (fs & -> & Hl & Hfs);
    [by rewrite length_replicate|done|].
  exists fs. split; [done|]. apply Forall2_same_length_lookup. split.
  { by rewrite length_map, length_seq. }
  intros j f b Hf Hb. rewrite list_lookup_fmap in Hb. apply fmap_Some in Hb as (j' & Hj & ->).
  apply lookup_seq in Hj as [-> Hj]. cbn in Hf. specialize (Hfs (N.of_nat j) []). rewrite Nat2N.id in Hfs.
  rewrite Hfs in Hf by (apply lookup_replicate; split; [done|lia]). injection Hf as <-. cbn [app].
  apply into_rows_write. apply Forall_forall. intros r Hr. rewrite Forall_forall in Hfit. apply Hfit.
  apply list_elem_of_In, filter_In in Hr as [Hr _]. by apply list_elem_of_In.
Qed.
End Buckets.

End Spill.
