(* ===== verification/SqlJoin.v ===== *)
(** * Joins

    Models the joins of [crates/sql/src/executor.rs]: [qualify_schema],
    [flatten_join_tree], [apply_join] with the hash join, its partitioned form and
    the nested loop, and the order of joins.  A [HashMap] from the [Debug] text of a
    key to its rows is a [gmap]. *)

From Stdlib Require Import Ascii String.
From stdpp Require Import gmap.
From S2P Require Import Prelude Bytes Strings Float64 SqlAst SqlValue SqlToken SqlCodec SqlExpr SqlSpill.

Module Join.
Import Value Expr.

Abbreviation row := (list Value).
Abbreviation schema_rows := (list ColumnSchema * list row)%type.

Definition HASH_JOIN_SPILL_THRESHOLD : N := 100000.

Definition qualify_schema (schema : list ColumnSchema) (table_qualifier : list N) : list ColumnSchema :=
  map (fun col => mkColumn (table_qualifier ++ [46] ++ name col) (sql_type col) (nullable col) (primary_key col))
    schema.

(** ** Flattening *)

(** The name, alias, kind and condition of a step. *)
Record Step : Type := mkStep {
  step_name : list N;
  step_alias : option (list N);
  step_kind : option Ast.JoinKind;
  step_condition : option Ast.JoinCondition;
}.

(** [flatten_join_node]; the clause of a table is followed to the right. *)
Fixpoint flatten_join_node (t : Ast.TableRef) : list Step :=
  match t with
  | Ast.mkTableRef _ _ None => []
  | Ast.mkTableRef _ _ (Some (Ast.mkJoinClause kind rt condition)) =>
      let '(Ast.mkTableRef rname ralias _) := rt in
      mkStep rname ralias (Some kind) (Some condition) :: flatten_join_node rt
  end.

Definition flatten_join_tree (from : list Ast.TableRef) : list Step :=
  concat (map (fun t => let '(Ast.mkTableRef n a _) := t in mkStep n a None None :: flatten_join_node t) from).

(** ** Conditions *)

(** [extract_eq_cols]. *)
Definition key_name (table : option (list N)) (column : list N) : list N :=
  match table with
  | Some t => t ++ [46] ++ column
  | None => column
  end.

Definition extract_eq_cols (condition : Ast.JoinCondition) : option (list N * list N) :=
  match condition with
  | Ast.On (Ast.BinaryOp Ast.Eq (Ast.ColumnRef lt lc) (Ast.ColumnRef rt rc)) => Some (key_name lt lc, key_name rt rc)
  | _ => None
  end.

Definition swap_condition (condition : Ast.JoinCondition) : Ast.JoinCondition :=
  match condition with
  | Ast.On (Ast.BinaryOp Ast.Eq l r) => Ast.On (Ast.BinaryOp Ast.Eq r l)
  | other => other
  end.

Section Join.
Context `{UnicodeCase} `{DebugFormat} (env : Env).

(** [schema.iter().position(..)] of a column by its bare or qualified name. *)
Definition find_column (col : list N) (schema : list ColumnSchema) : option nat :=
  position (fun c => let n := to_lowercase (name c) in
                     bool_decide (n = to_lowercase col) || ends_with n ([46] ++ to_lowercase col)) schema.

Fixpoint using_match (cols : list (list N)) (left_schema : list ColumnSchema) (left_row : row)
    (right_schema : list ColumnSchema) (right_row : row) : sql_result bool :=
  match cols with
  | [] => Ok true
  | col :: cols =>
      match find_column col left_schema, find_column col right_schema with
      | Some l, Some r =>
          lv ← or_panic (left_row !! l);
          rv ← or_panic (right_row !! r);
          if negb (value_eq lv rv) then Ok false
          else using_match cols left_schema left_row right_schema right_row
      | _, _ => Ok false
      end
  end.

(** [.map(|v| is_truthy(&v)).unwrap_or(false)]. *)
Definition truthy (r : sql_result Value) : sql_result bool :=
  match r with
  | Ok v => Ok (is_truthy v)
  | Err _ => Ok false
  | Panic => Panic
  end.

Definition passes (condition : Ast.JoinCondition) (left_schema : list ColumnSchema) (left_row : row)
    (right_schema : list ColumnSchema) (right_row : row) (combined_schema : list ColumnSchema) : sql_result bool :=
  match condition with
  | Ast.On e => truthy (eval_expr env e combined_schema (left_row ++ right_row))
  | Ast.Using cols => using_match cols left_schema left_row right_schema right_row
  end.

(** ** Nested loops *)

(** The rows of the right side that go with a row of the left. *)
Fixpoint match_right (test : row -> sql_result bool) (left_row : row) (right_rows : list row)
    : sql_result (list row) :=
  match right_rows with
  | [] => Ok []
  | r :: rs =>
      '(p : bool) ← test r;
      rest ← match_right test left_row rs;
      Ok (if p then (left_row ++ r) :: rest else rest)
  end.

Fixpoint nested_loop_join (left_schema : list ColumnSchema) (left_rows : list row)
    (right_schema : list ColumnSchema) (right_rows : list row) (combined_schema : list ColumnSchema)
    (condition : Ast.JoinCondition) (is_outer : bool) (null_right : row) : sql_result (list row) :=
  match left_rows with
  | [] => Ok []
  | l :: ls =>
      ms ← match_right (fun r => passes condition left_schema l right_schema r combined_schema) l right_rows;
      rest ← nested_loop_join left_schema ls right_schema right_rows combined_schema condition is_outer null_right;
      Ok ((if is_outer && bool_decide (ms = []) then [l ++ null_right] else ms) ++ rest)
  end.

(** ** Hash joins *)

Abbreviation table := (gmap (list N) (list row)).

(** [hash.entry(key).or_default().push(row)] for the rows of the right side. *)
Fixpoint build_table (rows : list row) (ri : nat) (hash : table) : sql_result table :=
  match rows with
  | [] => Ok hash
  | r :: rows =>
      v ← or_panic (r !! ri);
      let key := debug_value v in
      build_table rows ri (<[key := default [] (hash !! key) ++ [r]]> hash)
  end.

Fixpoint probe (hash : table) (rows : list row) (li : nat) : sql_result (list row) :=
  match rows with
  | [] => Ok []
  | l :: rows =>
      v ← or_panic (l !! li);
      rest ← probe hash rows li;
      Ok (map (app l) (default [] (hash !! debug_value v)) ++ rest)
  end.

Definition hash_join (left_rows : list row) (li : nat) (right_rows : list row) (ri : nat) : sql_result (list row) :=
  hash ← build_table right_rows ri ∅;
  probe hash left_rows li.

(** An error of [std::io] inside of the join. *)
Definition spill_error {A} (m : Spill.io_result A) : sql_result A :=
  match m with
  | Ok a => Ok a
  | Err _ => Err (Execution (fmt "spill join error: {}" []))
  | Panic => Panic
  end.

(** The loop of [partition_hash_join] over the pairs of files; the rows of the left
    file are read as they are probed. *)
Fixpoint join_files (li ri : nat) (left_files right_files : list (list N)) : sql_result (list row) :=
  match left_files, right_files with
  | lf :: lfs, rf :: rfs =>
      right_bucket ← spill_error (Spill.into_rows rf);
      joined ← (match right_bucket with
                | [] => Ok []
                | _ =>
                    left_bucket ← spill_error (Spill.into_rows lf);
                    hash_join left_bucket li right_bucket ri
                end);
      rest ← join_files li ri lfs rfs;
      Ok (joined ++ rest)
  | _, _ => Ok []
  end.

Definition partitions (right_rows : list row) : N :=
  N.min 256 (N.max 2 (len right_rows / HASH_JOIN_SPILL_THRESHOLD + 1)).

Definition partition_hash_join (left_rows : list row) (li : nat) (right_rows : list row) (ri : nat)
    : sql_result (list row) :=
  let k := partitions right_rows in
  left_files ← spill_error (Spill.partition_rows left_rows li k);
  right_files ← spill_error (Spill.partition_rows right_rows ri k);
  join_files li ri left_files right_files.

(** ** [apply_join] *)

Definition cross_join (left_rows right_rows : list row) : list row :=
  concat (map (fun l => map (app l) right_rows) left_rows).

(** [&row[right_len..]] and [&row[..right_len]]. *)
Fixpoint swap_back (right_len : N) (rows : list row) : sql_result (list row) :=
  match rows with
  | [] => Ok []
  | r :: rows =>
      a ← slice r right_len (len r);
      b ← slice r 0 right_len;
      rest ← swap_back right_len rows;
      Ok ((a ++ b) :: rest)
  end.

(** [left_rows.iter().any(..)]. *)
Fixpoint any_left (test : row -> sql_result bool) (left_rows : list row) : sql_result bool :=
  match left_rows with
  | [] => Ok false
  | l :: ls => '(p : bool) ← test l; if p then Ok true else any_left test ls
  end.

(** The rows of the right side without a partner, after the nulls of the left. *)
Fixpoint anti_right (test : row -> row -> sql_result bool) (left_rows right_rows : list row) (null_left : row)
    : sql_result (list row) :=
  match right_rows with
  | [] => Ok []
  | r :: rs =>
      '(has_match : bool) ← any_left (fun l => test l r) left_rows;
      rest ← anti_right test left_rows rs null_left;
      Ok (if has_match then rest else (null_left ++ r) :: rest)
  end.

Definition nulls (schema : list ColumnSchema) : row := map (fun _ => Null) schema.

Definition inner_join (left_schema : list ColumnSchema) (left_rows : list row)
    (right_schema : list ColumnSchema) (right_rows : list row) (condition : Ast.JoinCondition)
    : sql_result (list row) :=
  let nested := nested_loop_join left_schema left_rows right_schema right_rows (left_schema ++ right_schema)
                  condition false (nulls right_schema) in
  match extract_eq_cols condition with
  | Some (left_col, right_col) =>
      match find_column left_col left_schema, find_column right_col right_schema with
      | Some li, Some ri =>
          if HASH_JOIN_SPILL_THRESHOLD <? len right_rows
          then partition_hash_join left_rows li right_rows ri
          else hash_join left_rows li right_rows ri
      | _, _ => nested
      end
  | None => nested
  end.

Definition apply_join (left_schema : list ColumnSchema) (left_rows : list row)
    (right_schema : list ColumnSchema) (right_rows : list row) (kind : Ast.JoinKind)
    (condition : Ast.JoinCondition) : sql_result schema_rows :=
  let combined_schema := left_schema ++ right_schema in
  result ←
    (match kind with
     | Ast.CrossJoin => Ok (cross_join left_rows right_rows)
     | Ast.InnerJoin => inner_join left_schema left_rows right_schema right_rows condition
     | Ast.LeftJoin =>
         nested_loop_join left_schema left_rows right_schema right_rows combined_schema condition true
           (nulls right_schema)
     | Ast.RightJoin =>
         swapped ← nested_loop_join right_schema right_rows left_schema left_rows (right_schema ++ left_schema)
                     (swap_condition condition) true (nulls left_schema);
         swap_back (len right_schema) swapped
     | Ast.FullJoin =>
         left_part ← nested_loop_join left_schema left_rows right_schema right_rows combined_schema condition true
                       (nulls right_schema);
         right_part ← anti_right (fun l r => passes condition left_schema l right_schema r combined_schema)
                        left_rows right_rows (nulls left_schema);
         Ok (left_part ++ right_part)
     end);
  Ok (combined_schema, result).

End Join.

(** ** The hash join *)

Section HashJoin.
Context `{UnicodeCase} `{DebugFormat} (env : Env).

(** The pairs of rows with one key. *)
Definition same_key (li ri : nat) (l r : row) : bool :=
  match l !! li, r !! ri with
  | Some v, Some w => bool_decide (v = w)
  | _, _ => false
  end.
Definition joined (left_rows : list row) (li : nat) (right_rows : list row) (ri : nat) : list row :=
  concat (map (fun l => map (app l) (List.filter (same_key li ri l) right_rows)) left_rows).

Definition keyed (i : nat) (rows : list row) : Prop := Forall (fun r => is_Some (r !! i)) rows.

Lemma build_table_eq rows ri hash : keyed ri rows ->
  exists hash', build_table rows ri hash = Ok hash' /\
    forall v, default [] (hash' !! debug_value v) =
      default [] (hash !! debug_value v) ++ List.filter (fun r => bool_decide (r !! ri = Some v)) rows.
Proof.
  intros Hk. revert hash. induction Hk as [|r rows [w Hw] _ IH]; intros hash; cbn [build_table].
  { exists hash. split; [done|]. intros v. by rewrite app_nil_r. }
  rewrite Hw. cbn [or_panic]. rewrite bind_ok.
  destruct (IH (<[debug_value w := default [] (hash !! debug_value w) ++ [r]]> hash)) as (h & -> & Hh).
  exists h. split; [done|]. intros v. rewrite Hh. cbn [List.filter]. rewrite Hw.
  destruct (decide (w = v)) as [->|Hne].
  - rewrite lookup_insert_eq, bool_decide_true by done. cbn [default from_option id]. by rewrite <- app_assoc.
  - rewrite lookup_insert_ne by (intros He%debug_value_inj; done). by rewrite bool_decide_false by congruence.
Qed.

Lemma hash_join_eq left_rows li right_rows ri : keyed li left_rows -> keyed ri right_rows ->
  hash_join left_rows li right_rows ri = Ok (joined left_rows li right_rows ri).
Proof.
  intros Hl Hr. unfold hash_join. destruct (build_table_eq right_rows ri ∅ Hr) as (h & -> & Hh). rewrite bind_ok.
  induction Hl as [|l ls [v Hv] _ IH]; cbn [probe]; [done|]. rewrite Hv. cbn [or_panic]. rewrite bind_ok, IH, bind_ok.
  rewrite Hh, lookup_empty. cbn [default app]. unfold joined. cbn [map concat]. do 3 f_equal.
  apply List.filter_ext_in. intros r Hin. unfold same_key. rewrite Hv.
  unfold keyed in Hr. rewrite Forall_forall in Hr. destruct (Hr r ltac:(by apply list_elem_of_In)) as [w Hw].
  rewrite Hw. apply bool_decide_ext. split; congruence.
Qed.

(** ** Against the nested loop *)

(** Keys on which [==] and the [Debug] text agree: not NULL, no NaN and no zero of
    a float. *)
Definition join_key (v : Value) : bool :=
  match v with
  | Null => false
  | Float64 (SpecFloat.S754_nan | SpecFloat.S754_zero _) => false
  | _ => true
  end.

Lemma join_key_eq v w : join_key v = true -> join_key w = true -> value_eq v w = bool_decide (v = w).
Proof.
  intros Hv Hw. apply eq_true_iff_eq. rewrite bool_decide_eq_true.
  destruct v as [|x|x|x|x], w as [|y|y|y|y]; try discriminate; cbn [value_eq]; try (split; [discriminate|congruence]).
  - rewrite eqb_true_iff. split; congruence.
  - rewrite Z.eqb_eq. split; congruence.
  - split.
    + destruct (f64_compare x y) as [[]|] eqn:E; try discriminate. intros _.
      apply f64_compare_eq in E as [->|(s & t & -> & _)]; done.
    + intros [= ->]. by rewrite f64_compare_refl by (intros ->; discriminate).
  - rewrite bool_decide_eq_true. split; congruence.
Qed.

Definition keys_ok (i n : nat) (rows : list row) : Prop :=
  Forall (fun r => length r = n /\ exists v, r !! i = Some v /\ join_key v = true) rows.

(** A column reference that the evaluation of the condition resolves to position
    [i] of the joined row. *)
Definition resolves (t : option (list N)) (c : list N) (schema : list ColumnSchema) (i : nat) : Prop :=
  pseudo_column t (to_lowercase c) = None /\ position (column_matches t (to_lowercase c)) schema = Some i.

Lemma eval_resolved t c schema i r : resolves t c schema i ->
  eval_expr env (Ast.ColumnRef t c) schema r = or_panic (r !! i).
Proof. intros [Hp Hi]. cbn [eval_expr]. unfold eval_column. by rewrite Hp, Hi. Qed.

Lemma keys_ok_keyed i n rows : keys_ok i n rows -> keyed i rows.
Proof. intros Hk. eapply Forall_impl; [exact Hk|]. intros r (_ & v & -> & _). by eexists. Qed.

Lemma passes_eq lt lc rt rc ls rs li ri l r v w :
  resolves lt lc (ls ++ rs) li -> resolves rt rc (ls ++ rs) (length ls + ri) ->
  length l = length ls -> l !! li = Some v -> r !! ri = Some w -> join_key v = true -> join_key w = true ->
  passes env (Ast.On (Ast.BinaryOp Ast.Eq (Ast.ColumnRef lt lc) (Ast.ColumnRef rt rc))) ls l rs r (ls ++ rs) =
    Ok (same_key li ri l r).
Proof.
  intros Hl Hr Hlen Hv Hw Kv Kw. cbn [passes eval_expr].
  change (eval_column lt lc (ls ++ rs) (l ++ r)) with (eval_expr env (Ast.ColumnRef lt lc) (ls ++ rs) (l ++ r)).
  change (eval_column rt rc (ls ++ rs) (l ++ r)) with (eval_expr env (Ast.ColumnRef rt rc) (ls ++ rs) (l ++ r)).
  rewrite (eval_resolved _ _ _ _ _ Hl), (eval_resolved _ _ _ _ _ Hr).
  rewrite (lookup_app_l_Some _ _ _ _ Hv), lookup_app_r, Hlen by lia.
  replace (length ls + ri - length ls)%nat with ri by lia. rewrite Hw. cbn [or_panic]. rewrite !bind_ok.
  unfold eval_binop, same_key. rewrite Hv, Hw.
  assert (is_null v = false /\ is_null w = false) as [-> ->] by (by destruct v, w).
  cbn. by rewrite join_key_eq.
Qed.

(** C20: The hash join of an inner join returns the rows of the nested loop, in the same
    order.  The condition is an equality of two columns that both the hash join and the
    evaluation of the condition resolve to the same column of the left and of the
    right side; every row has as many values as its schema has columns; there are at
    most 100000 rows on the right, so that nothing is spilled; and the keys are
    neither NULL nor the floats NaN, 0 and -0.  On those the two differ: the hash join
    compares debug texts, so it pairs NULL with NULL and NaN with NaN, and does not
    pair 0 with -0. *)
Theorem hash_join_is_nested_loop lt lc rt rc ls left_rows rs right_rows li ri :
  let condition := Ast.On (Ast.BinaryOp Ast.Eq (Ast.ColumnRef lt lc) (Ast.ColumnRef rt rc)) in
  find_column (key_name lt lc) ls = Some li -> find_column (key_name rt rc) rs = Some ri ->
  resolves lt lc (ls ++ rs) li -> resolves rt rc (ls ++ rs) (length ls + ri) ->
  keys_ok li (length ls) left_rows -> keys_ok ri (length rs) right_rows ->
  len right_rows <= HASH_JOIN_SPILL_THRESHOLD ->
  inner_join env ls left_rows rs right_rows condition =
    nested_loop_join env ls left_rows rs right_rows (ls ++ rs) condition false (nulls rs).
Proof.
  intros condition Hli Hri Hl Hr Kl Kr Hlen. unfold inner_join. cbn [extract_eq_cols condition].
  rewrite Hli, Hri, (proj2 (N.ltb_ge _ _)), hash_join_eq by (done || by eapply keys_ok_keyed).
  induction Kl as [|l left_rows (Hll & v & Hv & Kv) _ IH]; [done|]. cbn [nested_loop_join]. rewrite <- IH.
  assert (Hm : match_right (fun r => passes env condition ls l rs r (ls ++ rs)) l right_rows =
    Ok (map (app l) (List.filter (same_key li ri l) right_rows))).
  { clear IH Hlen. induction Kr as [|r right_rows (_ & w & Hw & Kw) _ IHr]; [done|]. cbn [match_right List.filter].
    subst condition. rewrite (passes_eq lt lc rt rc ls rs li ri l r v w), bind_ok, IHr, bind_ok by done.
    by destruct (same_key li ri l r). }
  rewrite Hm, !bind_ok. done.
Qed.

(** ** The partitioned join *)

Lemma join_files_eq li ri lfs rfs lbs rbs :
  Forall2 (fun f b => Spill.into_rows f = Ok b) lfs lbs -> Forall2 (fun f b => Spill.into_rows f = Ok b) rfs rbs ->
  Forall (keyed li) lbs -> Forall (keyed ri) rbs ->
  join_files li ri lfs rfs = Ok (concat (zip_with (fun lb rb => joined lb li rb ri) lbs rbs)).
Proof.
  intros Hl. revert rfs rbs. induction Hl as [|lf lb lfs lbs Hlf Hl IH]; intros rfs rbs Hr Kl Kr; [done|].
  destruct Hr as [|rf rb rfs rbs Hrf Hr]; [done|]. apply Forall_cons in Kl as [Kl Kls], Kr as [Kr Krs].
  cbn [join_files zip_with concat]. rewrite Hrf. cbn [spill_error]. rewrite bind_ok.
  assert (He : (match rb with [] => Ok [] | _ => left_bucket ← spill_error (Spill.into_rows lf);
                  hash_join left_bucket li rb ri end) = Ok (joined lb li rb ri)).
  { destruct rb as [|r rb].
    - unfold joined. clear. f_equal. induction lb as [|l lb IH]; [done|]. exact IH.
    - rewrite Hlf. cbn [spill_error]. rewrite bind_ok. by apply hash_join_eq. }
  rewrite He, bind_ok, (IH rfs rbs) by done. done.
Qed.

(** A sum over the buckets is a sum over the rows. *)
Lemma concat_map_app {A B} (f g : A -> list B) l :
  concat (map (fun x => f x ++ g x) l) ≡ₚ concat (map f l) ++ concat (map g l).
Proof.
  induction l as [|x l IH]; cbn; [done|]. rewrite IH, <- !app_assoc. apply Permutation_app_head.
  rewrite !app_assoc. apply Permutation_app_tail, Permutation_app_comm.
Qed.

Lemma concat_map_one {B} (x : list B) b l : NoDup l -> b ∈ l ->
  concat (map (fun j => if (j =? b)%nat then x else []) l) = x.
Proof.
  assert (Hnone : forall l, b ∉ l -> concat (map (fun j => if (j =? b)%nat then x else []) l) = []).
  { intros m. induction m as [|a m IH]; intros Hn; [done|]. apply not_elem_of_cons in Hn as [Hn Hl]. cbn.
    rewrite (proj2 (Nat.eqb_neq a b)) by congruence. auto. }
  induction 1 as [|a l Ha Hd IH]; intros Hb; [by apply not_elem_of_nil in Hb|]. cbn.
  destruct (Nat.eqb_spec a b) as [->|Hne]; [by rewrite Hnone, app_nil_r|].
  apply elem_of_cons in Hb as [->|Hb]; [done|]. auto.
Qed.

Lemma concat_buckets {A B} (f : A -> list B) (b : A -> nat) k l : Forall (fun x => (b x < k)%nat) l ->
  concat (map (fun j => concat (map f (List.filter (fun x => (j =? b x)%nat) l))) (seq 0 k)) ≡ₚ concat (map f l).
Proof.
  induction 1 as [|x l Hx _ IH]; cbn [List.filter map concat].
  { induction (seq 0 k); cbn; auto. }
  rewrite <- IH. rewrite <- (concat_map_one (f x) (b x) (seq 0 k));
    [|apply NoDup_seq|apply elem_of_seq; lia].
  rewrite <- concat_map_app. apply reflexive_eq. f_equal. apply map_ext. intros j.
  by destruct (j =? b x)%nat.
Qed.

(** The bucket of a row, by its key column. *)
Definition row_bucket (i : nat) (k : N) (r : row) : nat :=
  match r !! i with Some v => N.to_nat (Spill.bucket_of v k) | None => O end.

Lemma bucket_rows_eq rows i k j : keyed i rows ->
  Spill.bucket_rows rows i k (N.of_nat j) = List.filter (fun r => (j =? row_bucket i k r)%nat) rows.
Proof.
  intros Hk. apply List.filter_ext_in. intros r Hin. unfold keyed in Hk. rewrite Forall_forall in Hk.
  destruct (Hk r ltac:(by apply list_elem_of_In)) as [v Hv]. unfold Spill.in_bucket, row_bucket. rewrite Hv.
  destruct (N.eqb_spec (Spill.bucket_of v k) (N.of_nat j)), (Nat.eqb_spec j (N.to_nat (Spill.bucket_of v k))); done || lia.
Qed.

(** The partners of a row are in its bucket. *)
Lemma filter_bucket li ri k l rows j : keyed ri rows -> row_bucket li k l = j ->
  List.filter (same_key li ri l) (List.filter (fun r => (j =? row_bucket ri k r)%nat) rows) =
    List.filter (same_key li ri l) rows.
Proof.
  intros Hk <-. induction Hk as [|r rows [w Hw] _ IH]; [done|]. cbn [List.filter].
  destruct (Nat.eqb_spec (row_bucket li k l) (row_bucket ri k r)) as [He|Hne]; cbn [List.filter].
  - by rewrite IH.
  - destruct (same_key li ri l r) eqn:E; [|done]. exfalso. apply Hne. unfold same_key, row_bucket in *.
    destruct (l !! li) as [v|]; [|done]. rewrite Hw in *. by apply bool_decide_eq_true in E as ->.
Qed.

(** C21: The partitioned join returns the rows of the hash join in memory, in some
    order. *)
Theorem partition_hash_join_perm left_rows li right_rows ri :
  Forall Spill.row_fits left_rows -> Forall Spill.row_fits right_rows ->
  keyed li left_rows -> keyed ri right_rows ->
  exists out, partition_hash_join left_rows li right_rows ri = Ok out /\
    exists out', hash_join left_rows li right_rows ri = Ok out' /\ out ≡ₚ out'.
Proof.
  intros Fl Fr Kl Kr. unfold partition_hash_join. set (k := partitions right_rows).
  assert (Hk : 0 < k) by (unfold k, partitions; lia).
  destruct (Spill.partition_rows_spec left_rows li k Hk Fl Kl) as (lfs & -> & Hl).
  destruct (Spill.partition_rows_spec right_rows ri k Hk Fr Kr) as (rfs & -> & Hr).
  cbn [spill_error]. rewrite !bind_ok.
  assert (Hsub : forall rows i, keyed i rows -> Forall (keyed i) (Spill.buckets rows i k)).
  { intros rows i Hkey. apply Forall_forall. intros b Hb. apply list_elem_of_fmap in Hb as (j & -> & _).
    unfold keyed in *. rewrite Forall_forall in *. intros r Hin. apply Hkey.
    apply list_elem_of_In, filter_In in Hin as [Hin _]. by apply list_elem_of_In. }
  rewrite (join_files_eq li ri lfs rfs _ _ Hl Hr) by auto. eexists. split; [done|].
  rewrite hash_join_eq by done. eexists. split; [done|].
  unfold joined at 2. rewrite <- (concat_buckets _ (row_bucket li k) (N.to_nat k)).
  2:{ unfold keyed in Kl. rewrite Forall_forall in *. intros r Hin. destruct (Kl r Hin) as [v Hv].
      unfold row_bucket. rewrite Hv. pose proof (Spill.bucket_of_lt v k Hk). lia. }
  apply reflexive_eq. f_equal. unfold Spill.buckets. rewrite zip_with_fmap_l, zip_with_fmap_r, zip_with_diag.
  apply map_ext. intros j. unfold joined. rewrite !bucket_rows_eq by done. f_equal. apply map_ext_in.
  intros l Hin. apply filter_In in Hin as [_ Hj%Nat.eqb_eq]. f_equal. by apply filter_bucket.
Qed.

End HashJoin.

(** ** Examples *)

Section Examples.
#[local] Instance ascii_only : UnicodeCase := ascii_unicode.
#[local] Existing Instance code_debug.
Definition env0 : Env := mkEnv 0 (fun _ => None) (fun _ => None).
Definition users : list ColumnSchema := qualify_schema [mkColumn (text "id") TInt64 true false] (text "u").
Definition orders : list ColumnSchema :=
  qualify_schema [mkColumn (text "uid") TInt64 true false; mkColumn (text "total") TInt64 true false] (text "o").
Definition on_uid : Ast.JoinCondition :=
  Ast.On (Ast.BinaryOp Ast.Eq (Ast.ColumnRef (Some (text "u")) (text "id")) (Ast.ColumnRef (Some (text "o")) (text "uid"))).

Lemma hash_join_is_nested_loop_witness :
  inner_join env0 users [[Int64 1]; [Int64 2]] orders [[Int64 2; Int64 10]; [Int64 1; Null]; [Int64 2; Int64 30]] on_uid =
  nested_loop_join env0 users [[Int64 1]; [Int64 2]] orders [[Int64 2; Int64 10]; [Int64 1; Null]; [Int64 2; Int64 30]]
    (users ++ orders) on_uid false (nulls orders).
Proof.
  apply (hash_join_is_nested_loop env0 (Some (text "u")) (text "id") (Some (text "o")) (text "uid") users _ orders _ 0 0).
  - reflexivity.
  - reflexivity.
  - split; reflexivity.
  - split; reflexivity.
  - repeat constructor; eauto.
  - repeat constructor; eauto.
  - vm_compute. discriminate.
Defined.

Lemma partition_hash_join_perm_witness :
  exists out, partition_hash_join [[Int64 1]; [Int64 2]] 0 [[Int64 2; Text (text "b")]; [Int64 1; Null]] 0 = Ok out /\
    exists out', hash_join [[Int64 1]; [Int64 2]] 0 [[Int64 2; Text (text "b")]; [Int64 1; Null]] 0 = Ok out' /\
      out ≡ₚ out'.
Proof.
  apply (partition_hash_join_perm [[Int64 1]; [Int64 2]] 0 [[Int64 2; Text (text "b")]; [Int64 1; Null]] 0).
  - apply (bool_decide_unpack _). by vm_compute.
  - apply (bool_decide_unpack _). by vm_compute.
  - repeat constructor; eauto.
  - repeat constructor; eauto.
Defined.

(** Rows whose keys are both NULL are joined by the hash join, but not by the
    nested loop that evaluates the same condition. *)
Theorem hash_join_pairs_nulls `{DebugFormat} :
  inner_join env0 users [[Null]] orders [[Null; Int64 5]] on_uid = Ok [[Null; Null; Int64 5]] /\
  nested_loop_join env0 users [[Null]] orders [[Null; Int64 5]] (users ++ orders) on_uid false (nulls orders) = Ok [].
Proof.
  split; [|vm_compute; done].
  change (inner_join env0 users [[Null]] orders [[Null; Int64 5]] on_uid) with
    (hash_join [[Null]] 0 [[Null; Int64 5]] 0).
  rewrite hash_join_eq by (repeat constructor; eauto). done.
Qed.
End Examples.

End Join.
