(* ===== verification/SqlJoinOrder.v ===== *)
(** * The order of joins

    Models [dp_join_order] and [dp_join_order_selinger] of
    [crates/sql/src/executor.rs].  The row counts come from the statistics of the
    catalog, 1000 for a table without.  [dp_join_order_perm] says that the order
    keeps the first table in front and has every other table once, whatever the
    statistics are. *)

From Stdlib Require Import Ascii String SpecFloat.
From S2P Require Import Prelude Bytes Strings Float64 SqlAst SqlValue SqlJoin.

Module JoinOrder.
Import Join.

Definition f64_lt (a b : f64) : bool := match f64_compare a b with Some Lt => true | _ => false end.

(** [a.max(b)]. *)
Definition f64_max (a b : f64) : f64 :=
  match a, b with
  | S754_nan, _ => b
  | _, S754_nan => a
  | _, _ => if f64_lt a b then b else a
  end.

Definition f64_MAX : f64 := S754_finite false (2 ^ 53 - 1) 971.
Definition f64_one : f64 := f64_of_Z 1.
Definition f64_tenth : f64 := f64_of_decimal 1 (-1).

(** A plan: the tables in order, the rows and the cost. *)
Abbreviation Plan := (list nat * f64 * f64)%type.

Section Order.
Context (row_count : list N -> option N) (steps : list Step).

(** [unwrap_or(1000)]. *)
Definition count_of (i : nat) : N :=
  match steps !! i with
  | Some s => default 1000 (row_count (step_name s))
  | None => 1000
  end.

Section Selinger.
Context (indices : list nat).

Definition row_counts : list f64 := map (fun i => f64_of_Z (Z.of_N (count_of i))) indices.

(** One table of the subset tried as the last. *)
Definition try_last (best : list (option Plan)) (mask : N) (acc : f64 * option (list nat * f64)) (pos : nat)
    : f64 * option (list nat * f64) :=
  if negb (N.testbit mask (N.of_nat pos)) then acc
  else
    let left_mask := N.lxor mask (2 ^ N.of_nat pos) in
    if left_mask =? 0 then acc
    else
      match best !! N.to_nat left_mask, row_counts !! pos, indices !! pos with
      | Some (Some (left_plan, left_rows, _)), Some right_rows, Some i =>
          let out_rows := f64_max (f64_mul (f64_mul left_rows right_rows) f64_tenth) f64_one in
          let join_cost := f64_add (f64_mul left_rows right_rows) out_rows in
          if f64_lt join_cost acc.1 then (join_cost, Some (left_plan ++ [i], out_rows)) else acc
      | _, _, _ => acc
      end.

(** [mask.count_ones()]. *)
Fixpoint count_ones (n : nat) (mask : N) : nat :=
  match n with
  | O => O
  | S n => ((if N.testbit mask (N.of_nat n) then 1 else 0) + count_ones n mask)%nat
  end.

Definition fill (n size : nat) (best : list (option Plan)) (mask : nat) : list (option Plan) :=
  if negb (count_ones n (N.of_nat mask) =? size)%nat then best
  else
    match foldl (try_last best (N.of_nat mask)) (f64_MAX, None) (seq 0 n) with
    | (cost, Some (plan, out_rows)) => <[mask := Some (plan, out_rows, cost)]> best
    | _ => best
    end.

(** The plans of one table. *)
Definition base_plans (n : nat) : list (option Plan) :=
  foldl (fun best pos =>
           match row_counts !! pos, indices !! pos with
           | Some rows, Some i => <[N.to_nat (2 ^ N.of_nat pos) := Some ([i], rows, rows)]> best
           | _, _ => best
           end) (replicate (N.to_nat (2 ^ N.of_nat n)) None) (seq 0 n).

Definition dp_join_order_selinger : list nat :=
  let n := length indices in
  match n with
  | O => []
  | S O => indices
  | _ =>
      let total_masks := N.to_nat (2 ^ N.of_nat n) in
      let best := foldl (fun best size => foldl (fill n size) best (seq 0 total_masks))
                    (base_plans n) (seq 2 (n - 1)) in
      match best !! (total_masks - 1)%nat with
      | Some (Some (plan, _, _)) => plan
      | _ => indices
      end
  end.

End Selinger.

Definition is_cross (i : nat) : bool :=
  match steps !! i with
  | Some s => bool_decide (step_kind s = Some Ast.CrossJoin)
  | None => false
  end.

Definition dp_join_order : list nat :=
  if (length steps <=? 1)%nat then seq 0 (length steps)
  else
    let tail := seq 1 (length steps - 1) in
    let regular := List.filter (fun i => negb (is_cross i)) tail in
    let cross := List.filter is_cross tail in
    let n := length regular in
    let ordered_tail :=
      if (n =? 0)%nat then []
      else if (7 <? n)%nat then sort_by (fun i j => count_of i <=? count_of j) regular
      else dp_join_order_selinger regular in
    [O] ++ ordered_tail ++ cross.

(** ** Plans are permutations *)

Section Correct.
Context (indices : list nat).

(** The tables of a subset. *)
Definition members (mask : N) : list nat :=
  omap (fun pos => if N.testbit mask (N.of_nat pos) then indices !! pos else None) (seq 0 (length indices)).

Definition plans_ok (best : list (option Plan)) : Prop :=
  forall mask p r c, best !! mask = Some (Some (p, r, c)) -> p ≡ₚ members (N.of_nat mask).

Lemma members_remove mask pos i : N.testbit mask (N.of_nat pos) = true -> indices !! pos = Some i ->
  members (N.lxor mask (2 ^ N.of_nat pos)) ++ [i] ≡ₚ members mask.
Proof.
  intros Hbit Hi. assert (Hpos : (pos < length indices)%nat) by (by eapply lookup_lt_Some).
  unfold members. set (sq := seq 0 (length indices)).
  assert (Hin : pos ∈ sq) by (apply elem_of_seq; lia). assert (Hnd : NoDup sq) by apply NoDup_seq.
  assert (Hb : forall q, N.testbit (N.lxor mask (2 ^ N.of_nat pos)) (N.of_nat q) =
    if decide (q = pos) then false else N.testbit mask (N.of_nat q)).
  { intros q. rewrite N.lxor_spec, N.pow2_bits_eqb. case_decide as Hq.
    - subst. by rewrite Hbit, N.eqb_refl.
    - rewrite (proj2 (N.eqb_neq _ _)) by lia. by rewrite xorb_false_r. }
  induction Hnd as [|q l Hq Hnd IH]; [by apply not_elem_of_nil in Hin|]. cbn [omap list_omap].
  rewrite Hb. apply elem_of_cons in Hin as [->|Hin].
  - rewrite decide_True, Hbit, Hi by done.
    assert (Hsame : forall l : list nat, q ∉ l ->
      omap (fun p => if N.testbit (N.lxor mask (2 ^ N.of_nat q)) (N.of_nat p) then indices !! p else None) l =
      omap (fun p => if N.testbit mask (N.of_nat p) then indices !! p else None) l).
    { intros m. induction m as [|x m IHm]; intros Hm; [done|]. apply not_elem_of_cons in Hm as [Hx Hm].
      cbn [omap list_omap]. rewrite Hb, decide_False by done. by rewrite IHm. }
    rewrite Hsame by done. by rewrite Permutation_app_comm.
  - rewrite decide_False by (intros ->; done).
    destruct (if N.testbit mask (N.of_nat q) then indices !! q else None); [|by apply IH].
    cbn [app]. apply perm_skip. by apply IH.
Qed.

Lemma try_last_ok best mask acc pos : plans_ok best ->
  (forall p r, acc.2 = Some (p, r) -> p ≡ₚ members mask) ->
  forall p r, (try_last indices best mask acc pos).2 = Some (p, r) -> p ≡ₚ members mask.
Proof.
  intros Hb Ha p r. unfold try_last. destruct (N.testbit mask (N.of_nat pos)) eqn:Hbit; cbn [negb]; [|apply Ha].
  destruct (_ =? 0); [apply Ha|]. destruct (best !! _) as [[[[lp lr] lc]|]|] eqn:Hl; try apply Ha.
  destruct (row_counts indices !! pos) as [rr|]; [|apply Ha].
  destruct (indices !! pos) as [i|] eqn:Hi; [|apply Ha]. destruct (f64_lt _ _); [|apply Ha].
  intros [= <- <-]. apply Hb in Hl. rewrite Hl, N2Nat.id. by apply members_remove.
Qed.

Lemma fill_ok n size best mask : plans_ok best -> plans_ok (fill indices n size best mask).
Proof.
  intros Hb. unfold fill. destruct (negb _); [done|].
  assert (Hf : forall l acc, (forall p r, acc.2 = Some (p, r) -> p ≡ₚ members (N.of_nat mask)) ->
    forall p r, (foldl (try_last indices best (N.of_nat mask)) acc l).2 = Some (p, r) -> p ≡ₚ members (N.of_nat mask)).
  { induction l as [|x l IH]; intros acc Ha; [done|]. cbn [foldl]. apply IH. by apply try_last_ok. }
  specialize (Hf (seq 0 n) (f64_MAX, None) ltac:(done)).
  destruct (foldl _ _ _) as [cost [[plan rows]|]]; [|done]. intros m p r c Hm.
  destruct (decide (m = mask)) as [->|Hne].
  - destruct (decide (mask < length best)%nat) as [Hlt|Hge].
    + rewrite list_lookup_insert_eq in Hm by done. injection Hm as <- <- <-. by apply (Hf plan rows).
    + rewrite list_insert_ge in Hm by lia. by apply Hb in Hm.
  - rewrite list_lookup_insert_ne in Hm by done. by apply Hb in Hm.
Qed.

Lemma members_single pos i : indices !! pos = Some i -> members (2 ^ N.of_nat pos) ≡ₚ [i].
Proof.
  intros Hi. rewrite <- (members_remove (2 ^ N.of_nat pos) pos i), N.lxor_nilpotent;
    [|by rewrite N.pow2_bits_true|done].
  unfold members. clear. induction (seq 0 (length indices)) as [|x l IH]; [done|]. cbn [omap list_omap].
  by rewrite N.bits_0.
Qed.

Lemma base_plans_ok n : plans_ok (base_plans indices n).
Proof.
  unfold base_plans. set (init := replicate _ None).
  assert (Hinit : plans_ok init).
  { intros m p r c Hm. apply lookup_replicate in Hm as [? _]. done. }
  revert Hinit. generalize init. induction (seq 0 n) as [|pos l IH]; intros best Hb; [done|]. cbn [foldl]. apply IH.
  destruct (row_counts indices !! pos) as [rows|]; [|done]. destruct (indices !! pos) as [i|] eqn:Hi; [|done].
  intros m p r c Hm. destruct (decide (m = N.to_nat (2 ^ N.of_nat pos))) as [->|Hne].
  - destruct (decide (N.to_nat (2 ^ N.of_nat pos) < length best)%nat).
    + rewrite list_lookup_insert_eq in Hm by done. injection Hm as <- <- <-. rewrite N2Nat.id.
      symmetry. by apply members_single.
    + rewrite list_insert_ge in Hm by lia. by apply Hb in Hm.
  - rewrite list_lookup_insert_ne in Hm by done. by apply Hb in Hm.
Qed.

Lemma members_all : members (2 ^ N.of_nat (length indices) - 1) ≡ₚ indices.
Proof.
  unfold members. rewrite <- N.pred_sub, <- N.ones_equiv.
  assert (Hgen : forall pre l : list nat, indices = pre ++ l ->
    omap (fun pos => if N.testbit (N.ones (N.of_nat (length indices))) (N.of_nat pos) then indices !! pos else None)
      (seq (length pre) (length l)) = l).
  { intros pre l. revert pre. induction l as [|x l IH]; intros pre He; [done|]. cbn [length seq omap list_omap].
    rewrite N.ones_spec_low by (rewrite He, length_app; cbn [length]; lia).
    assert (indices !! length pre = Some x) as -> by (rewrite He; by apply list_lookup_middle). f_equal.
    specialize (IH (pre ++ [x])). rewrite length_app, Nat.add_comm in IH. apply IH. by rewrite <- app_assoc. }
  pose proof (Hgen [] indices eq_refl) as He. cbn [length] in He. by rewrite He.
Qed.

Lemma selinger_perm : dp_join_order_selinger indices ≡ₚ indices.
Proof.
  unfold dp_join_order_selinger. destruct (length indices) as [|[|n]] eqn:Hl.
  { by destruct indices. }
  { done. }
  set (total := N.to_nat (2 ^ N.of_nat (S (S n)))). set (best := foldl _ _ _).
  assert (Hok : plans_ok best).
  { subst best. generalize (base_plans_ok (S (S n))). generalize (base_plans indices (S (S n))).
    induction (seq 2 _) as [|size l IH]; intros b Hb; [done|]. cbn [foldl]. apply IH.
    clear IH. revert b Hb. induction (seq 0 total) as [|mask ms IHm]; intros b Hb; [done|]. cbn [foldl].
    by apply IHm, fill_ok. }
  destruct (best !! _) as [[[[p r] c]|]|] eqn:Hp; try done. apply Hok in Hp. rewrite Hp.
  replace (N.of_nat (total - 1)) with (2 ^ N.of_nat (length indices) - 1); [apply members_all|].
  rewrite Hl. subst total. lia.
Qed.
End Correct.

(** The order is a permutation of the tables with the first one in front. *)
Theorem dp_join_order_perm : dp_join_order ≡ₚ seq 0 (length steps) /\ head dp_join_order = head (seq 0 (length steps)).
Proof.
  unfold dp_join_order. destruct (Nat.leb_spec (length steps) 1) as [|Hlen]; [done|].
  assert (seq 0 (length steps) = O :: seq 1 (length steps - 1)) as ->.
  { destruct (length steps); [lia|]. cbn. by rewrite Nat.sub_0_r. }
  cbn [app head]. split; [|done].
  apply perm_skip. set (tail := seq 1 _). set (regular := List.filter (fun i => negb (is_cross i)) tail).
  assert (Hord : (if (length regular =? 0)%nat then [] else if (7 <? length regular)%nat
    then sort_by (fun i j => count_of i <=? count_of j) regular else dp_join_order_selinger regular) ≡ₚ regular).
  { destruct (Nat.eqb_spec (length regular) 0) as [Hz|]; [by destruct regular|].
    destruct (_ <? _)%nat; [apply sort_by_perm|apply selinger_perm]. }
  rewrite Hord. subst regular. clear. induction tail as [|i l IH]; [done|]. cbn [List.filter].
  destruct (is_cross i); cbn [negb app].
  - rewrite <- Permutation_middle. by apply perm_skip.
  - by apply perm_skip.
Qed.

End Order.

End JoinOrder.
