(* ===== verification/SqlGroup.v ===== *)
(** * Projection, aggregates and grouping

    Models [project], [has_aggregates], [agg_col_name], [eval_aggregate],
    [eval_agg_expr] and [apply_group_by] of [crates/sql/src/executor.rs].
    [group_rows_partition] says that grouping splits the rows without losing or
    repeating one, by distinct keys. *)

From Stdlib Require Import Ascii String.
From S2P Require Import Prelude Bytes Strings Float64 StorageJsonb SqlAst SqlValue SqlToken SqlCodec SqlExpr.

Module Group.
Import Value Expr.

Abbreviation row := (list Value).

Section Group.
Context `{UnicodeCase} (env : Env).

(** [eval_expr(..).unwrap_or(Value::Null)]. *)
Definition eval_or_null (e : Ast.Expr) (schema : list ColumnSchema) (r : row) : sql_result Value :=
  match eval_expr env e schema r with
  | Ok v => Ok v
  | Err _ => Ok Null
  | Panic => Panic
  end.

(** [eval_expr(..).ok()]. *)
Definition eval_ok (e : Ast.Expr) (schema : list ColumnSchema) (r : row) : sql_result (option Value) :=
  match eval_expr env e schema r with
  | Ok v => Ok (Some v)
  | Err _ => Ok None
  | Panic => Panic
  end.

(** ** Projection *)

(** [indexed l]: the elements with their positions. *)
Definition indexed {A} (l : list A) : list (nat * A) := zip (seq 0 (length l)) l.

Definition project_names (select_cols : list Ast.SelectColumn) (schema : list ColumnSchema) : list (list N) :=
  concat (map (fun sc =>
    match sc with
    | Ast.ColStar => map name schema
    | Ast.ColExpr _ (Some a) => [a]
    | Ast.ColExpr (Ast.ColumnRef _ column) None => [column]
    | Ast.ColExpr _ None => [text "?column?"]
    end) select_cols).

Definition project_row (select_cols : list Ast.SelectColumn) (schema : list ColumnSchema) (r : row) : sql_result row :=
  parts ← mapM (fun sc =>
    match sc with
    | Ast.ColStar => mapM (fun ic => or_panic (r !! ic.1)) (indexed schema)
    | Ast.ColExpr e _ => v ← eval_expr env e schema r; Ok [v]
    end) select_cols;
  Ok (concat parts).

Definition project (select_cols : list Ast.SelectColumn) (schema : list ColumnSchema) (rows : list row)
    : sql_result (list (list N) * list row) :=
  projected ← mapM (project_row select_cols schema) rows;
  Ok (project_names select_cols schema, projected).

(** ** Aggregates *)

Definition aggregate_names : list (list N) :=
  [text "COUNT"; text "SUM"; text "AVG"; text "MIN"; text "MAX"; text "ARRAY_AGG"; text "STRING_AGG"].

Definition is_aggregate (fname : list N) : bool := bool_decide (to_uppercase fname ∈ aggregate_names).

Fixpoint expr_has_aggregate (e : Ast.Expr) : bool :=
  match e with
  | Ast.FunctionCall fname _ _ => is_aggregate fname
  | Ast.BinaryOp _ l r => expr_has_aggregate l || expr_has_aggregate r
  | _ => false
  end.

Definition has_aggregates (cols : list Ast.SelectColumn) : bool :=
  existsb (fun sc => match sc with Ast.ColExpr e _ => expr_has_aggregate e | Ast.ColStar => false end) cols.

Definition agg_col_name (idx : nat) (sc : Ast.SelectColumn) : list N :=
  match sc with
  | Ast.ColExpr _ (Some a) => a
  | Ast.ColExpr (Ast.ColumnRef _ column) None => column
  | Ast.ColExpr (Ast.FunctionCall fname args _) None =>
      let arg_str := match args with
                     | [] | Ast.Star :: _ => text "*"
                     | Ast.ColumnRef _ column :: _ => column
                     | _ => text "?"
                     end in
      to_lowercase fname ++ text "(" ++ arg_str ++ text ")"
  | Ast.ColExpr _ None => text "?column" ++ N_to_string (N.of_nat idx) ++ text "?"
  | Ast.ColStar => text "*"
  end.

(** [seen.contains(&v)] and the count of distinct values. *)
Fixpoint count_distinct (seen : list Value) (c : Z) (vals : list Value) : Z :=
  match vals with
  | [] => c
  | v :: vals =>
      if negb (is_null v) && negb (existsb (fun s => value_eq s v) seen)
      then count_distinct (seen ++ [v]) (c + 1) vals
      else count_distinct seen c vals
  end.

(** The sums of the integers and of the floats. *)
Definition add_value (acc : option Z * option f64) (v : Value) : option Z * option f64 :=
  match v with
  | Int64 n => (Some (wrap_i64 (default 0%Z acc.1 + n)), acc.2)
  | Float64 f => (acc.1, Some (f64_add (default f64_zero acc.2) f))
  | _ => acc
  end.

Definition sum_values (vals : list Value) : Value :=
  match foldl add_value (None, None) vals with
  | (None, None) => Null
  | (si, Some sf) => Float64 (f64_add sf (f64_of_Z (default 0%Z si)))
  | (Some si, None) => Int64 si
  end.

Definition avg_values (vals : list Value) : Value :=
  let '(sum, count) :=
    foldl (fun acc v =>
             match v with
             | Int64 n => (f64_add acc.1 (f64_of_Z n), acc.2 + 1)%Z
             | Float64 f => (f64_add acc.1 f, acc.2 + 1)%Z
             | _ => acc
             end) (f64_zero, 0%Z) vals in
  if (count =? 0)%Z then Null else Float64 (f64_div sum (f64_of_Z count)).

(** The least or greatest value, the first of equals. *)
Definition extreme (better : comparison) (vals : list Value) : Value :=
  default Null
    (foldl (fun cur v =>
              if is_null v then cur
              else match cur with
                   | None => Some v
                   | Some c => if bool_decide (partial_cmp v c = Some better) then Some v else cur
                   end) None vals).

Definition array_element (v : Value) : list N :=
  match v with
  | Null => text "null"
  | Int64 n => Z_to_string n
  | Float64 f => f64_to_string f
  | Bool b => if b then text "true" else text "false"
  | Text s => [34] ++ concat (map (fun c => if c =? 34 then [92; 34] else [c]) s) ++ [34]
  end.

Definition eval_aggregate (fname : list N) (args : list Ast.Expr) (distinct : bool)
    (schema : list ColumnSchema) (rows : list row) : sql_result Value :=
  let upper := to_uppercase fname in
  let is_fn s := bool_decide (upper = text s) in
  if is_fn "COUNT"%string then
    match args with
    | [] | Ast.Star :: _ => Ok (Int64 (Z.of_N (len rows)))
    | e :: _ =>
        vals ← mapM (eval_or_null e schema) rows;
        Ok (Int64 (if distinct then count_distinct [] 0 vals
                   else Z.of_N (len (List.filter (fun v => negb (is_null v)) vals))))
    end
  else if is_fn "SUM"%string then
    match args with
    | [] => Ok Null
    | e :: _ => vals ← mapM (eval_or_null e schema) rows; Ok (sum_values vals)
    end
  else if is_fn "AVG"%string then
    match args with
    | [] => Ok Null
    | e :: _ => vals ← mapM (eval_or_null e schema) rows; Ok (avg_values vals)
    end
  else if is_fn "MIN"%string then
    match args with
    | [] => Ok Null
    | e :: _ => vals ← mapM (eval_or_null e schema) rows; Ok (extreme Lt vals)
    end
  else if is_fn "MAX"%string then
    match args with
    | [] => Ok Null
    | e :: _ => vals ← mapM (eval_or_null e schema) rows; Ok (extreme Gt vals)
    end
  else if is_fn "ARRAY_AGG"%string then
    match args with
    | [] => Ok Null
    | e :: _ =>
        vals ← mapM (eval_or_null e schema) rows;
        Ok (Text ([91] ++ Jsonb.join [44] (map array_element vals) ++ [93]))
    end
  else if is_fn "STRING_AGG"%string then
    match args with
    | [] => Ok Null
    | e :: rest =>
        delim ← (match rest, rows with
                 | d :: _, r :: _ => v ← eval_ok d schema r; Ok (match v with Some (Text s) => s | _ => [44] end)
                 | _, _ => Ok [44]
                 end);
        vals ← mapM (eval_ok e schema) rows;
        Ok (Text (Jsonb.join delim (omap (fun v => match v with Some (Text s) => Some s | _ => None end) vals)))
    end
  else exec_err "unknown aggregate function '{}'" [AText fname].

(** ** Aggregate expressions *)

Definition first_row (rows : list row) : row := default [] (head rows).

Fixpoint eval_agg_expr (e : Ast.Expr) (schema : list ColumnSchema) (group_rows : list row) : sql_result Value :=
  match e with
  | Ast.FunctionCall fname args distinct =>
      if is_aggregate fname then eval_aggregate fname args distinct schema group_rows
      else eval_function env fname (map (fun a => eval_expr env a schema (first_row group_rows)) args)
  | Ast.BinaryOp op l r =>
      lv ← eval_agg_expr l schema group_rows;
      rv ← eval_agg_expr r schema group_rows;
      eval_binop op lv rv
  | other => eval_expr env other schema (first_row group_rows)
  end.

Definition eval_agg_column (schema : list ColumnSchema) (group_rows : list row) (sc : Ast.SelectColumn)
    : sql_result Value :=
  match sc with
  | Ast.ColStar => Ok Null
  | Ast.ColExpr e _ => eval_agg_expr e schema group_rows
  end.

(** ** Groups *)

(** [k == &key] on vectors of values. *)
Fixpoint key_eq (a b : list Value) : bool :=
  match a, b with
  | [], [] => true
  | x :: a, y :: b => value_eq x y && key_eq a b
  | _, _ => false
  end.

Abbreviation groups := (list (list Value * list row)).

(** A row joins the first group with its key, or starts one at the end. *)
Fixpoint add_to_group {A} (key : list Value) (r : A) (g : list (list Value * list A)) : list (list Value * list A) :=
  match g with
  | [] => [(key, [r])]
  | (k, rs) :: g => if key_eq k key then (k, rs ++ [r]) :: g else (k, rs) :: add_to_group key r g
  end.

Fixpoint group_rows (group_by : list Ast.Expr) (schema : list ColumnSchema) (rows : list row) (g : groups)
    : sql_result groups :=
  match rows with
  | [] => Ok g
  | r :: rows =>
      key ← mapM (fun e => eval_or_null e schema r) group_by;
      group_rows group_by schema rows (add_to_group key r g)
  end.

Definition synthetic_schema (col_names : list (list N)) : list ColumnSchema :=
  map (fun n => mkColumn n TText true false) col_names.

(** The loop over the groups. *)
Fixpoint group_results (select_cols : list Ast.SelectColumn) (having : option Ast.Expr)
    (schema : list ColumnSchema) (col_names : list (list N)) (g : groups) : sql_result (list row) :=
  match g with
  | [] => Ok []
  | (_, rs) :: g =>
      result_row ← mapM (eval_agg_column schema rs) select_cols;
      '(keep : bool) ← (match having with
                        | None => Ok true
                        | Some e => v ← eval_or_null e (synthetic_schema col_names) result_row; Ok (is_truthy v)
                        end);
      rest ← group_results select_cols having schema col_names g;
      Ok (if keep then result_row :: rest else rest)
  end.

Definition apply_group_by (group_by : list Ast.Expr) (select_cols : list Ast.SelectColumn)
    (having : option Ast.Expr) (schema : list ColumnSchema) (rows : list row)
    : sql_result (list (list N) * list row) :=
  let col_names := map (fun isc => agg_col_name isc.1 isc.2) (indexed select_cols) in
  g ← (match group_by with
       | [] => Ok [([], rows)]
       | _ => group_rows group_by schema rows []
       end);
  result_rows ← group_results select_cols having schema col_names g;
  Ok (col_names, result_rows).

(** ** Grouping partitions the rows *)

Lemma add_to_group_perm {A} key (r : A) g : concat (map snd (add_to_group key r g)) ≡ₚ concat (map snd g) ++ [r].
Proof.
  induction g as [|[k rs] g IH]; cbn [add_to_group map concat snd]; [done|]. destruct (key_eq k key); cbn.
  - rewrite <- !app_assoc. apply Permutation_app_head, Permutation_app_comm.
  - rewrite IH. by rewrite app_assoc.
Qed.

(** A group: not empty, and the key of each row is the key of the group. *)
Definition group_ok {A} (keys : A -> list Value) (g : list Value * list A) : Prop :=
  g.2 <> [] /\ Forall (fun r => keys r = g.1 \/ key_eq g.1 (keys r) = true) g.2.

Lemma add_to_group_ok {A} (keys : A -> list Value) r g : Forall (group_ok keys) g -> Forall (group_ok keys) (add_to_group (keys r) r g).
Proof.
  induction 1 as [|[k rs] g [Hne Hrs] Hg IH]; cbn [add_to_group].
  { repeat constructor; auto. }
  destruct (key_eq k (keys r)) eqn:E; constructor; try done.
  split; cbn [fst snd] in *; [by destruct rs|]. apply Forall_app. auto.
Qed.

Definition distinct_keys {A} (g : list (list Value * list A)) : Prop := ForallOrdPairs (fun a b => key_eq a.1 b.1 = false) g.

Lemma add_to_group_keys {A} key (r : A) g :
  map fst (add_to_group key r g) = map fst g \/
  (map fst (add_to_group key r g) = map fst g ++ [key] /\ Forall (fun a => key_eq a.1 key = false) g).
Proof.
  induction g as [|[k rs] g IH]; cbn [add_to_group map fst]; [by right|].
  destruct (key_eq k key) eqn:E; [by left|]. cbn [map fst].
  destruct IH as [->|[-> Hf]]; [by left|right]. split; [done|]. by constructor.
Qed.

Lemma add_to_group_distinct {A} key (r : A) g : distinct_keys g -> distinct_keys (add_to_group key r g).
Proof.
  assert (Hmap : forall g : list (list Value * list A), distinct_keys g <-> ForallOrdPairs (fun a b => key_eq a b = false) (map fst g)).
  { clear. intros g. unfold distinct_keys. induction g as [|a g IH]; cbn.
    - split; constructor.
    - split; inversion_clear 1 as [|? ? Ha Hg]; constructor; try (by apply IH).
      + change (map fst g) with (fst <$> g). by rewrite Forall_fmap.
      + change (map fst g) with (fst <$> g) in Ha. by rewrite Forall_fmap in Ha. }
  rewrite !Hmap. intros Hd. destruct (add_to_group_keys key r g) as [->|[-> Hf]]; [done|].
  assert (Hf' : Forall (fun k => key_eq k key = false) (map fst g)).
  { change (map fst g) with (fst <$> g). by rewrite Forall_fmap. }
  clear Hf Hmap. induction Hd as [|k ks Hk Hd IH]; cbn; [by repeat constructor|].
  apply Forall_cons in Hf' as [Hk' Hks]. constructor; [|auto]. apply Forall_app. auto.
Qed.

(** The key of a row, when its evaluation does not panic. *)
Definition has_key (group_by : list Ast.Expr) (schema : list ColumnSchema) (keys : row -> list Value) (r : row) : Prop :=
  mapM (fun e => eval_or_null e schema r) group_by = Ok (keys r).

Lemma group_rows_spec group_by schema keys rows g : Forall (has_key group_by schema keys) rows ->
  Forall (group_ok keys) g -> distinct_keys g ->
  exists g', group_rows group_by schema rows g = Ok g' /\ concat (map snd g') ≡ₚ concat (map snd g) ++ rows /\
    Forall (group_ok keys) g' /\ distinct_keys g'.
Proof.
  intros Hk. revert g. induction Hk as [|r rows Hr Hk IH]; intros g Hg Hd; cbn [group_rows].
  { exists g. by rewrite app_nil_r. }
  rewrite Hr, bind_ok.
  destruct (IH (add_to_group (keys r) r g)) as (g' & -> & Hp & Hg' & Hd').
  - by apply add_to_group_ok.
  - by apply add_to_group_distinct.
  - exists g'. split; [done|]. rewrite Hp, add_to_group_perm, <- app_assoc. done.
Qed.

End Group.

(** Grouping rows whose keys evaluate: every row is in one group, in a group the
    rows have the group's key, and no two groups have equal keys. *)
Theorem group_rows_partition `{UnicodeCase} env group_by schema keys rows :
  Forall (has_key env group_by schema keys) rows ->
  exists g, group_rows env group_by schema rows [] = Ok g /\ concat (map snd g) ≡ₚ rows /\
    Forall (group_ok keys) g /\ distinct_keys g.
Proof. intros Hk. apply (group_rows_spec env group_by schema keys rows []); [done|constructor|constructor]. Qed.

Section Examples.
#[local] Instance ascii_only : UnicodeCase := ascii_unicode.
Definition env0 : Env := mkEnv 0 (fun _ => None) (fun _ => None).
Definition sales : list ColumnSchema := [mkColumn (text "city") TText true false; mkColumn (text "n") TInt64 true false].
Definition sales_rows : list row :=
  [[Text (text "a"); Int64 1]; [Null; Int64 2]; [Text (text "a"); Int64 3]; [Null; Int64 4]].

Lemma group_rows_partition_witness :
  exists g, group_rows env0 [Ast.ColumnRef None (text "city")] sales sales_rows [] = Ok g /\
    concat (map snd g) ≡ₚ sales_rows /\ Forall (group_ok (take 1)) g /\ distinct_keys g.
Proof.
  apply (group_rows_partition env0 [Ast.ColumnRef None (text "city")] sales (take 1) sales_rows).
  repeat constructor.
Defined.

(** A HAVING clause that calls an aggregate function, here COUNT of all rows at
    least zero, drops every group: the function is not known where the clause is
    evaluated. *)
Theorem having_aggregate_drops_groups :
  let count := Ast.FunctionCall (text "COUNT") [Ast.Star] false in
  apply_group_by env0 [Ast.ColumnRef None (text "city")] [Ast.ColExpr count None] None sales sales_rows =
    Ok ([text "count(*)"], [[Int64 2]; [Int64 2]]) /\
  apply_group_by env0 [Ast.ColumnRef None (text "city")] [Ast.ColExpr count None]
    (Some (Ast.BinaryOp Ast.GtEq count (Ast.IntLit 0))) sales sales_rows = Ok ([text "count(*)"], []).
Proof. vm_compute. done. Qed.
End Examples.

End Group.
