(* ===== verification/SqlVectorized.v ===== *)
(** * Vectorised aggregates

    Models [crates/sql/src/vectorized.rs]: batches of columns, the evaluation of a
    filter into a mask, aggregates over columns, groups, and the pruning of zones by
    the zone maps of a column store; and the path of [exec_select_with_cte] in
    [executor.rs] that runs aggregates over a column store row by row. *)

From stdpp Require Import prelude strings.
From S2P Require Import Prelude Bytes Strings Float64 StorageColumnar.
From S2P Require Import SqlAst SqlValue SqlToken SqlCodec SqlExpr SqlGroup.

Module Vectorized.
Import Value Expr.

Definition columnar_to_sql (v : Columnar.Value) : Value :=
  match v with
  | Columnar.Null => Null
  | Columnar.Bool b => Bool b
  | Columnar.Int64 n => Int64 n
  | Columnar.Float64 f => Float64 f
  | Columnar.Text s => Text s
  end.

Definition sql_val_to_columnar (v : Value) : Columnar.Value :=
  match v with
  | Null => Columnar.Null
  | Bool b => Columnar.Bool b
  | Int64 n => Columnar.Int64 n
  | Float64 f => Columnar.Float64 f
  | Text s => Columnar.Text s
  end.

Record ColumnBatch : Type := mkBatch { columns : list (list Value); row_count : N }.

Definition from_columnar (store : Columnar.ColumnarStore) : ColumnBatch :=
  mkBatch (map (fun i => map columnar_to_sql (Columnar.scan_column store i))
             (Columnar.rows_below (len (Columnar.columns store))))
    (Columnar.row_count store).

(** The values whose place in the mask is true, up to the end of the shorter list. *)
Fixpoint select {A} (mask : list bool) (col : list A) : list A :=
  match col, mask with
  | v :: col, keep :: mask => if (keep : bool) then v :: select mask col else select mask col
  | _, _ => []
  end.

Definition count_true (mask : list bool) : N := len (List.filter id mask).

(** The assertion on the length of the mask panics. *)
Definition filter {E} (b : ColumnBatch) (mask : list bool) : outcome E ColumnBatch :=
  if len mask =? row_count b then Ok (mkBatch (map (select mask) (columns b)) (count_true mask)) else Panic.

Definition is_lt (o : option comparison) : bool := match o with Some Lt => true | _ => false end.
Definition is_gt (o : option comparison) : bool := match o with Some Gt => true | _ => false end.
Definition is_le (o : option comparison) : bool := match o with Some Lt | Some Eq => true | _ => false end.
Definition is_ge (o : option comparison) : bool := match o with Some Gt | Some Eq => true | _ => false end.

Definition cmp_op (op : Ast.BinOp) (lhs rhs : Value) : bool :=
  match op with
  | Ast.Eq => value_eq lhs rhs
  | Ast.NotEq => negb (value_eq lhs rhs)
  | Ast.Lt => is_lt (partial_cmp lhs rhs)
  | Ast.Gt => is_gt (partial_cmp lhs rhs)
  | Ast.LtEq => is_le (partial_cmp lhs rhs)
  | Ast.GtEq => is_ge (partial_cmp lhs rhs)
  | _ => true
  end.

Definition flip_op (op : Ast.BinOp) : Ast.BinOp :=
  match op with
  | Ast.Lt => Ast.Gt
  | Ast.Gt => Ast.Lt
  | Ast.LtEq => Ast.GtEq
  | Ast.GtEq => Ast.LtEq
  | other => other
  end.

(** ** Aggregates of a column *)

Definition sum_step (acc : option Z * option f64) (v : Value) : option Z * option f64 :=
  let '(sum_i, sum_f) := acc in
  match v with
  | Int64 n => (Some (wrap_i64 (default 0%Z sum_i + n)), sum_f)
  | Float64 f => (sum_i, Some (f64_add (default f64_zero sum_f) f))
  | _ => acc
  end.

Definition agg_sum (col : list Value) : Value :=
  let '(sum_i, sum_f) := foldl sum_step (None, None) col in
  match sum_f with
  | Some f => Float64 (f64_add f (f64_of_Z (default 0%Z sum_i)))
  | None => default Null (Int64 <$> sum_i)
  end.

Definition avg_step (acc : f64 * N) (v : Value) : f64 * N :=
  let '(sum, count) := acc in
  match v with
  | Int64 n => (f64_add sum (f64_of_Z n), count + 1)
  | Float64 f => (f64_add sum f, count + 1)
  | _ => acc
  end.

Definition agg_avg (col : list Value) : Value :=
  let '(sum, count) := foldl avg_step (f64_zero, 0) col in
  if count =? 0 then Null else Float64 (f64_div sum (f64_of_Z (Z.of_N count))).

(** [min_val] and [max_val], which a strictly better value replaces. *)
Definition best_step (better : option comparison -> bool) (cur : option Value) (v : Value) : option Value :=
  if is_null v then cur
  else match cur with
       | None => Some v
       | Some c => Some (if better (partial_cmp v c) then v else c)
       end.

Definition agg_best (better : option comparison -> bool) (col : list Value) : Value :=
  default Null (foldl (best_step better) None col).

Section Vectorized.
Context `{UnicodeCase}.

Definition aggregate_column (b : ColumnBatch) (col_idx : nat) (agg : list N) : Value :=
  match columns b !! col_idx with
  | None => Null
  | Some col =>
      let upper := to_uppercase agg in
      if bool_decide (upper = text "COUNT") then Int64 (Z.of_N (len (List.filter (fun v => negb (is_null v)) col)))
      else if bool_decide (upper = text "SUM") then agg_sum col
      else if bool_decide (upper = text "AVG") then agg_avg col
      else if bool_decide (upper = text "MIN") then agg_best is_lt col
      else if bool_decide (upper = text "MAX") then agg_best is_gt col
      else Null
  end.

(** ** Filters *)

Definition name_matches (col_lower : list N) (c : ColumnSchema) : bool :=
  let n := to_lowercase (name c) in
  bool_decide (n = col_lower) || ends_with n ([46] ++ col_lower).

Definition col_ref_idx (e : Ast.Expr) (schema : list ColumnSchema) : option nat :=
  match e with
  | Ast.ColumnRef _ column => position (name_matches (to_lowercase column)) schema
  | _ => None
  end.

Definition keep_all (b : ColumnBatch) : list bool := replicate (N.to_nat (row_count b)) true.

Definition eval_filter (b : ColumnBatch) (e : Ast.Expr) (schema : list ColumnSchema) : sql_result (list bool) :=
  match e with
  | Ast.BinaryOp op l r =>
      match col_ref_idx l schema, eval_literal r with
      | Some col_idx, Ok rhs => col ← or_panic (columns b !! col_idx); Ok (map (fun v => cmp_op op v rhs) col)
      | _, _ =>
          match eval_literal l, col_ref_idx r schema with
          | Ok lhs, Some col_idx =>
              col ← or_panic (columns b !! col_idx); Ok (map (fun v => cmp_op (flip_op op) v lhs) col)
          | _, _ => Ok (keep_all b)
          end
      end
  | _ => Ok (keep_all b)
  end.

(** ** Pruning *)

Definition extract_col_name (e : Ast.Expr) : option (list N) :=
  match e with Ast.ColumnRef _ column => Some column | _ => None end.

(** The column, operator and literal of a predicate that can prune. *)
Definition simple_predicate (e : Ast.Expr) : option (list N * Ast.BinOp * Value) :=
  match e with
  | Ast.BinaryOp op l r =>
      match extract_col_name l, eval_literal r with
      | Some n, Ok v => Some (n, op, v)
      | _, _ =>
          match eval_literal l, extract_col_name r with
          | Ok v, Some n => Some (n, flip_op op, v)
          | _, _ => None
          end
      end
  | _ => None
  end.

Definition zone_pruned (op : Ast.BinOp) (zm : Columnar.ZoneMap) (bound : Columnar.Value) : bool :=
  match op with
  | Ast.Gt => Columnar.can_prune_gt zm bound
  | Ast.Lt => Columnar.can_prune_lt zm bound
  | Ast.GtEq => is_lt (Columnar.partial_cmp (Columnar.zone_max zm) bound)
  | Ast.LtEq => is_gt (Columnar.partial_cmp (Columnar.zone_min zm) bound)
  | Ast.Eq => is_lt (Columnar.partial_cmp bound (Columnar.zone_min zm)) || is_gt (Columnar.partial_cmp bound (Columnar.zone_max zm))
  | _ => false
  end.

(** [store.row_count.div_ceil(ZONE_SIZE)] *)
Definition zone_count (store : Columnar.ColumnarStore) : N :=
  (Columnar.row_count store + Columnar.ZONE_SIZE - 1) / Columnar.ZONE_SIZE.

(** The indices of the zone maps that do not prune. *)
Fixpoint surviving_from (i : N) (op : Ast.BinOp) (bound : Columnar.Value) (zones : list Columnar.ZoneMap) : list N :=
  match zones with
  | [] => []
  | zm :: zones =>
      if zone_pruned op zm bound then surviving_from (i + 1) op bound zones
      else i :: surviving_from (i + 1) op bound zones
  end.

Definition prune_with_zone_maps (store : Columnar.ColumnarStore) (schema : list ColumnSchema) (e : Ast.Expr) : list N :=
  let all_zones := Columnar.rows_below (zone_count store) in
  match simple_predicate e with
  | None => all_zones
  | Some (col_name, op, bound) =>
      match position (name_matches (to_lowercase col_name)) schema with
      | None => all_zones
      | Some col_idx =>
          match Columnar.zone_maps store !! col_idx with
          | None | Some [] => all_zones
          | Some zones => surviving_from 0 op (sql_val_to_columnar bound) zones
          end
      end
  end.

(** The values of a column in a zone, NULL past the end of the column. *)
Definition zone_slice (rows : N) (col : list Columnar.Value) (zone : N) : list Value :=
  let start := zone * Columnar.ZONE_SIZE in
  let stop := N.min ((zone + 1) * Columnar.ZONE_SIZE) rows in
  map (fun i => columnar_to_sql (default Columnar.Null (col !! N.to_nat (start + i)))) (Columnar.rows_below (stop - start)).

Definition zone_rows (rows zone : N) : N := N.min ((zone + 1) * Columnar.ZONE_SIZE) rows - zone * Columnar.ZONE_SIZE.

Definition batch_from_zones (store : Columnar.ColumnarStore) (surviving : list N) : ColumnBatch :=
  let col_count := len (Columnar.columns store) in
  if (col_count =? 0) || bool_decide (surviving = []) then mkBatch (replicate (N.to_nat (N.max col_count 1)) []) 0
  else
    let zones := List.filter (fun z => z * Columnar.ZONE_SIZE <? Columnar.row_count store) surviving in
    mkBatch
      (map (fun i => concat (map (zone_slice (Columnar.row_count store) (Columnar.scan_column store i)) zones))
         (Columnar.rows_below col_count))
      (foldl (fun n z => n + zone_rows (Columnar.row_count store) z) 0 zones).

(** ** Queries *)

Definition eval_agg_expr_vectorized (e : Ast.Expr) (schema : list ColumnSchema) (b : ColumnBatch) : sql_result Value :=
  match e with
  | Ast.FunctionCall fname args _ =>
      let upper := to_uppercase fname in
      if bool_decide (upper = text "COUNT") then
        match args with
        | [] | Ast.Star :: _ => Ok (Int64 (Z.of_N (row_count b)))
        | a :: _ =>
            match col_ref_idx a schema with
            | Some i => Ok (aggregate_column b i (text "COUNT"))
            | None => exec_err "COUNT: column not found" []
            end
        end
      else if bool_decide (upper ∈ [text "SUM"; text "AVG"; text "MIN"; text "MAX"]) then
        match args with
        | [] => Ok Null
        | a :: _ =>
            match col_ref_idx a schema with
            | Some i => Ok (aggregate_column b i upper)
            | None => exec_err "{}: column not found" [AText fname]
            end
        end
      else exec_err "vectorized path: unsupported function '{}'" [AText fname]
  | Ast.ColumnRef _ _ =>
      match col_ref_idx e schema with
      | Some i => col ← or_panic (columns b !! i); Ok (default Null (head col))
      | None => exec_err "column not found: {:?}" [AExpr e]
      end
  | Ast.IntLit n => Ok (Int64 n)
  | Ast.FloatLit f => Ok (Float64 f)
  | Ast.StrLit s => Ok (Text s)
  | Ast.BoolLit b => Ok (Bool b)
  | Ast.Null => Ok Null
  | other => exec_err "vectorized path: unsupported expression {:?}" [AExpr other]
  end.

Definition star_error {A} : sql_result A := exec_err "vectorized_aggregate: SELECT * not valid in aggregate context" [].

Definition column_name (i : N) (alias : option (list N)) : list N := default (text "col" ++ N_to_string i) alias.

(** The names and values of the selected columns, from index [i]. *)
Fixpoint eval_columns (i : N) (select_cols : list Ast.SelectColumn) (schema : list ColumnSchema) (b : ColumnBatch)
    : sql_result (list (list N) * list Value) :=
  match select_cols with
  | [] => Ok ([], [])
  | Ast.ColStar :: _ => star_error
  | Ast.ColExpr e alias :: cols =>
      v ← eval_agg_expr_vectorized e schema b;
      '(names, vs) ← eval_columns (i + 1) cols schema b;
      Ok (column_name i alias :: names, v :: vs)
  end.

Definition eval_group_expr (e : Ast.Expr) (schema : list ColumnSchema) (b : ColumnBatch) (row_idx : N) : Value :=
  match e with
  | Ast.ColumnRef _ column =>
      match position (name_matches (to_lowercase column)) schema with
      | Some i => default Null (col ← columns b !! i; col !! N.to_nat row_idx)
      | None => Null
      end
  | Ast.IntLit n => Int64 n
  | Ast.FloatLit f => Float64 f
  | Ast.StrLit s => Text s
  | Ast.BoolLit b => Bool b
  | _ => Null
  end.

Definition batch_row (b : ColumnBatch) (row_idx : N) : list Value := map (fun col => default Null (col !! N.to_nat row_idx)) (columns b).

Definition rows_to_batch (rows : list (list Value)) (col_count : nat) : ColumnBatch :=
  mkBatch (map (fun ci => omap (fun row => row !! ci) rows) (seq 0 col_count)) (len rows).

Context `{DebugFormat}.

(** The text of a key: the texts of its values, with commas between. *)
Fixpoint join_comma (l : list (list N)) : list N :=
  match l with
  | [] => []
  | [x] => x
  | x :: l => x ++ [44] ++ join_comma l
  end.
Definition key_text (key : list Value) : list N := join_comma (map debug_value key).

Fixpoint add_row (key : list N) (row : list Value) (groups : list (list N * list (list Value))) : list (list N * list (list Value)) :=
  match groups with
  | [] => [(key, [row])]
  | (k, rows) :: groups => if bool_decide (k = key) then (k, rows ++ [row]) :: groups else (k, rows) :: add_row key row groups
  end.

Definition group_batch (schema : list ColumnSchema) (b : ColumnBatch) (group_by : list Ast.Expr) : list (list N * list (list Value)) :=
  foldl (fun groups i => add_row (key_text (map (fun e => eval_group_expr e schema b i) group_by)) (batch_row b i) groups)
    [] (Columnar.rows_below (row_count b)).

Fixpoint select_names (i : N) (select_cols : list Ast.SelectColumn) : sql_result (list (list N)) :=
  match select_cols with
  | [] => Ok []
  | Ast.ColStar :: _ => star_error
  | Ast.ColExpr _ alias :: cols => names ← select_names (i + 1) cols; Ok (column_name i alias :: names)
  end.

Definition vectorized_aggregate_grouped (schema : list ColumnSchema) (select_cols : list Ast.SelectColumn) (b : ColumnBatch)
    (group_by : list Ast.Expr) : sql_result (list (list N) * list (list Value)) :=
  let groups := group_batch schema b group_by in
  names ← select_names 0 select_cols;
  rows ← mapM (fun g => '(_, vs) ← eval_columns 0 select_cols schema (rows_to_batch g.2 (length (columns b))); Ok vs) groups;
  Ok (names, rows).

Definition vectorized_aggregate (store : Columnar.ColumnarStore) (schema : list ColumnSchema)
    (select_cols : list Ast.SelectColumn) (where_clause : option Ast.Expr) (group_by : list Ast.Expr)
    : sql_result (list (list N) * list (list Value)) :=
  let batch := match where_clause with
               | Some e =>
                   let surviving := prune_with_zone_maps store schema e in
                   if len surviving <? zone_count store then batch_from_zones store surviving else from_columnar store
               | None => from_columnar store
               end in
  filtered ← (match where_clause with
              | Some e => mask ← eval_filter batch e schema; filter batch mask
              | None => Ok batch
              end);
  match group_by with
  | [] => '(names, vs) ← eval_columns 0 select_cols schema filtered; Ok (names, [vs])
  | _ => vectorized_aggregate_grouped schema select_cols filtered group_by
  end.

(** The executor's own path over a column store: all rows, filtered and grouped one by
    one. *)
Fixpoint where_filter (env : Env) (where_clause : option Ast.Expr) (schema : list ColumnSchema) (rows : list (list Value))
    : sql_result (list (list Value)) :=
  match rows with
  | [] => Ok []
  | row :: rows =>
      '(keep : bool) ← (match where_clause with
                        | None => Ok true
                        | Some e => v ← Group.eval_or_null env e schema row; Ok (is_truthy v)
                        end);
      rest ← where_filter env where_clause schema rows;
      Ok (if keep then row :: rest else rest)
  end.

Definition columnar_path (env : Env) (store : Columnar.ColumnarStore) (schema : list ColumnSchema)
    (select_cols : list Ast.SelectColumn) (where_clause : option Ast.Expr) (group_by : list Ast.Expr) (having : option Ast.Expr)
    : sql_result (list (list N) * list (list Value)) :=
  let rows := map (map columnar_to_sql) (Columnar.scan store) in
  filtered ← where_filter env where_clause schema rows;
  Group.apply_group_by env group_by select_cols having schema filtered.

End Vectorized.

End Vectorized.
