(* ===== verification/SqlVectorizedSpec.v ===== *)
(** * Vectorised aggregates agree with row execution

    A query of aggregates over a column store gives the same values on the
    vectorised path, with zones pruned, as on the executor's path over the scanned
    rows.  This needs zone maps that cover all rows; the last part shows what happens
    without, and for comparisons with NULL. *)

From stdpp Require Import prelude strings.
From S2P Require Import Prelude Bytes Strings Float64 StorageColumnar StorageColumnarSpec.
From S2P Require Import SqlAst SqlValue SqlToken SqlCodec SqlExpr SqlGroup SqlVectorized.

Module VectorizedSpec.
Import Value Expr Vectorized ColumnarSpec.
#[local] Abbreviation CValue := Columnar.Value.

(** ** Pruned zones *)

Definition kind (v : CValue) : N :=
  match v with
  | Columnar.Null => 0
  | Columnar.Int64 _ => 1
  | Columnar.Float64 _ => 2
  | Columnar.Text _ => 3
  | Columnar.Bool _ => 4
  end.

(** The values of one type, or NULL. *)
Definition typed (k : N) (vals : list CValue) : Prop := Forall (fun v => v = Columnar.Null \/ kind v = k) vals.

Lemma rank_kind v k x : rank v = Some (k, x) -> k = kind v.
Proof. destruct v as [| |f| |]; cbn; try congruence. destruct (f64_rank f); cbn; congruence. Qed.

Lemma lex_lt_trans a b c : lex a b <> Gt -> lex b c = Lt -> lex a c = Lt.
Proof.
  revert b c. induction a as [|x a IH]; intros [|y b] [|z c]; cbn; try done.
  destruct (Z.compare_spec x y), (Z.compare_spec y z), (Z.compare_spec x z); try done; try lia. apply IH.
Qed.

Lemma lex_strict dir a b c : dir <> Eq -> lex a b <> dir -> lex b c = CompOpp dir -> lex a c = CompOpp dir.
Proof.
  intros Hd Hab Hbc. destruct dir; [done| |by eapply lex_lt_trans]. revert a b c Hab Hbc.
  induction a as [|x a IH]; intros [|y b] [|z c]; cbn; try done.
  destruct (Z.compare_spec x y), (Z.compare_spec y z), (Z.compare_spec x z); try done; try lia. apply IH.
Qed.

Lemma fold_extreme_in dir c vs : exists c', foldl (Columnar.extreme dir) (Some c) vs = Some c' /\ c' ∈ c :: vs.
Proof.
  revert c. induction vs as [|v vs IH]; intros c; cbn [foldl Columnar.extreme]; [exists c; split; [done|left]|].
  case_bool_decide.
  - destruct (IH v) as (c' & -> & Hin). exists c'. split; [done|]. by right.
  - destruct (IH c) as (c' & -> & Hin). exists c'. split; [done|]. set_solver.
Qed.

Lemma zone_extreme_in dir vals : Columnar.zone_extreme dir vals = Columnar.Null \/ Columnar.zone_extreme dir vals ∈ vals.
Proof.
  unfold Columnar.zone_extreme. set (nn := List.filter _ vals). assert (Hsub : forall v, v ∈ nn -> v ∈ vals).
  { intros v Hv. unfold nn in Hv. apply list_elem_of_In, filter_In in Hv as [Hv _]. by apply list_elem_of_In. }
  destruct nn as [|c nn]; [by left|]. right. cbn [foldl Columnar.extreme]. destruct (fold_extreme_in dir c nn) as (c' & -> & Hin). by apply Hsub.
Qed.

(** An extreme strictly on the near side of [bound] puts every value there. *)
Lemma pruned_strict dir vals v bound : dir <> Eq -> v ∈ vals -> v <> Columnar.Null -> bound <> Columnar.Null ->
  Columnar.partial_cmp (Columnar.zone_extreme dir vals) bound = Some (CompOpp dir) ->
  forall o, Columnar.partial_cmp v bound = Some o -> o = CompOpp dir.
Proof.
  intros Hd Hin Hv Hb He o Ho. destruct (zone_extreme_bounds dir vals v Hd Hin Hv) as [Hn Hbd].
  destruct (partial_cmp_inv _ _ _ Hn Hb He) as (k & x & y & Ee & Eb & El). destruct (partial_cmp_inv _ _ _ Hv Hb Ho) as (k' & z & y' & Ev & Eb' & El').
  rewrite Eb in Eb'. injection Eb' as <- <-. rewrite <- El'. apply (lex_strict dir z x y Hd (Hbd _ _ _ Ee Ev) El).
Qed.

Lemma partial_cmp_kind v w o : v <> Columnar.Null -> w <> Columnar.Null -> Columnar.partial_cmp v w = Some o -> kind v = kind w.
Proof. intros Hv Hw Hc. destruct (partial_cmp_inv _ _ _ Hv Hw Hc) as (k & x & y & E1 & E2 & _). by rewrite <- (rank_kind _ _ _ E1), <- (rank_kind _ _ _ E2). Qed.

Lemma partial_cmp_opp v w : Columnar.partial_cmp w v = CompOpp <$> Columnar.partial_cmp v w.
Proof.
  destruct (decide (kind v = 0)) as [E|Hv]; [destruct v; try done; by destruct w|]. destruct (decide (kind w = 0)) as [E|Hw]; [destruct w; try done; by destruct v|].
  rewrite !partial_cmp_rank by (intros ->; done). destruct (rank v) as [[k x]|], (rank w) as [[l y]|]; try done.
  rewrite (N.eqb_sym l k). destruct (k =? l); [|done]. cbn. by rewrite (lex_opp x y).
Qed.

(** The comparison of the executor is that of the store on values of one type. *)
Lemma sql_cmp_kind v w : kind v = kind w -> v <> Columnar.Null -> partial_cmp (columnar_to_sql v) (columnar_to_sql w) = Columnar.partial_cmp v w.
Proof. destruct v, w; done. Qed.

Lemma sql_roundtrip v : columnar_to_sql (sql_val_to_columnar v) = v.
Proof. by destruct v. Qed.

Lemma sql_eq_cmp v w : v <> Columnar.Null -> value_eq (columnar_to_sql v) (columnar_to_sql w) = true -> Columnar.partial_cmp v w = Some Eq.
Proof.
  intros Hv. destruct v as [|a|a|a|a], w as [|b|b|b|b]; try done; cbn.
  - intros ->%Z.eqb_eq. by rewrite Z.compare_refl.
  - by destruct (f64_compare a b) as [[]|].
  - intros ->%bool_decide_eq_true_1. by rewrite bytes_cmp_lex, lex_refl.
  - by destruct a, b.
Qed.

Lemma null_never op lit : lit <> Null -> op ∈ [Ast.Eq; Ast.Lt; Ast.Gt; Ast.LtEq; Ast.GtEq] -> cmp_op op Null lit = false.
Proof. intros Hl Hop. destruct op; try (by (exfalso; set_solver)); by destruct lit. Qed.

Lemma zone_pruned_sound op zm vals k v lit :
  Columnar.zone_min zm = Columnar.zone_extreme Lt vals -> Columnar.zone_max zm = Columnar.zone_extreme Gt vals ->
  typed k vals -> v ∈ vals -> lit <> Null -> zone_pruned op zm (sql_val_to_columnar lit) = true -> cmp_op op (columnar_to_sql v) lit = false.
Proof.
  intros Hmin Hmax Ht Hin Hl Hp. destruct (decide (kind v = 0)) as [E0|H0].
  { destruct v; try done. apply null_never; [done|]. destruct op; try discriminate Hp; set_solver. }
  assert (Hv : v <> Columnar.Null) by (intros ->; done). set (b := sql_val_to_columnar lit) in *.
  assert (Hb : b <> Columnar.Null) by (by destruct lit). rewrite <- (sql_roundtrip lit). fold b.
  assert (Hside : forall dir o, dir <> Eq -> Columnar.partial_cmp (Columnar.zone_extreme dir vals) b = Some o -> kind v = kind b).
  { intros dir o Hd Ho. destruct (zone_extreme_bounds dir vals v Hd Hin Hv) as [Hn _]. rewrite <- (partial_cmp_kind _ _ _ Hn Hb Ho).
    destruct (zone_extreme_in dir vals) as [?|He]; [done|]. pose proof (proj1 (Forall_forall _ _) Ht) as Hk.
    destruct (Hk _ Hin) as [?| ->]; [done|]. by destruct (Hk _ He) as [?| ->]. }
  assert (Heq : value_eq (columnar_to_sql v) (columnar_to_sql b) = true -> Columnar.partial_cmp v b = Some Eq) by (by apply sql_eq_cmp).
  unfold zone_pruned, Columnar.can_prune_gt, Columnar.can_prune_lt in Hp. rewrite Hmin, Hmax in Hp.
  destruct op; try discriminate Hp; cbn [cmp_op].
  - destruct (value_eq _ _) eqn:Ev; [exfalso; specialize (Heq eq_refl)|done]. rewrite !(partial_cmp_opp _ b) in Hp. apply orb_prop in Hp as [Hp|Hp].
    + destruct (Columnar.partial_cmp (Columnar.zone_extreme Lt vals) b) as [o|] eqn:Eo; [|done]. destruct o; try discriminate Hp.
      by pose proof (pruned_strict Lt vals v b ltac:(done) Hin Hv Hb Eo _ Heq).
    + destruct (Columnar.partial_cmp (Columnar.zone_extreme Gt vals) b) as [o|] eqn:Eo; [|done]. destruct o; try discriminate Hp.
      by pose proof (pruned_strict Gt vals v b ltac:(done) Hin Hv Hb Eo _ Heq).
  - destruct (Columnar.partial_cmp (Columnar.zone_extreme Lt vals) b) as [o|] eqn:Eo; [|done]. case_bool_decide as Ho; [done|].
    rewrite sql_cmp_kind by (done || by eapply (Hside Lt)). pose proof (pruned_sound Lt vals v b o ltac:(done) Hin Hv Eo Ho). by destruct (Columnar.partial_cmp v b) as [[]|].
  - destruct (Columnar.partial_cmp (Columnar.zone_extreme Gt vals) b) as [o|] eqn:Eo; [|done]. case_bool_decide as Ho; [done|].
    rewrite sql_cmp_kind by (done || by eapply (Hside Gt)). pose proof (pruned_sound Gt vals v b o ltac:(done) Hin Hv Eo Ho). by destruct (Columnar.partial_cmp v b) as [[]|].
  - destruct (Columnar.partial_cmp (Columnar.zone_extreme Lt vals) b) as [[]|] eqn:Eo; try discriminate Hp.
    rewrite sql_cmp_kind by (done || by eapply (Hside Lt)). pose proof (pruned_strict Lt vals v b ltac:(done) Hin Hv Hb Eo) as Hs.
    destruct (Columnar.partial_cmp v b) as [o|]; [|done]. by rewrite (Hs o eq_refl).
  - destruct (Columnar.partial_cmp (Columnar.zone_extreme Gt vals) b) as [[]|] eqn:Eo; try discriminate Hp.
    rewrite sql_cmp_kind by (done || by eapply (Hside Gt)). pose proof (pruned_strict Gt vals v b ltac:(done) Hin Hv Hb Eo) as Hs.
    destruct (Columnar.partial_cmp v b) as [o|]; [|done]. by rewrite (Hs o eq_refl).
Qed.

(** ** Zones *)

#[local] Ltac Zify.zify_post_hook ::= Z.to_euclidean_division_equations.

Definition zone_vals {A} (values : list A) (z : N) : list A :=
  let start := z * Columnar.ZONE_SIZE in values.[start; N.min ((z + 1) * Columnar.ZONE_SIZE) (len values) - start].

Definition zones_for (n : N) : N := (n + Columnar.ZONE_SIZE - 1) / Columnar.ZONE_SIZE.

Lemma build_zones_exact {E} fuel values i zs : Columnar.build_zones (E := E) fuel values (len values) (i * Columnar.ZONE_SIZE) = Ok zs ->
  len zs = zones_for (len values) - i /\
  forall j zm, zs !! j = Some zm -> Columnar.zone_min zm = Columnar.zone_extreme Lt (zone_vals values (i + N.of_nat j)) /\
    Columnar.zone_max zm = Columnar.zone_extreme Gt (zone_vals values (i + N.of_nat j)).
Proof.
  revert i zs. induction fuel as [|fuel IH]; intros i zs; cbn [Columnar.build_zones]; unfold zones_for, Columnar.ZONE_SIZE in *.
  - destruct (N.ltb_spec (i * 1000) (len values)); [done|]. intros [= <-]. split; [rewrite len_nil; lia|done].
  - destruct (N.ltb_spec (i * 1000) (len values)) as [Hlt|Hge]; [|intros [= <-]; split; [rewrite len_nil; lia|done]].
    rewrite slice_ok, bind_ok by lia. replace (i * 1000 + 1000) with ((i + 1) * 1000) by lia.
    destruct (Columnar.build_zones fuel values (len values) ((i + 1) * 1000)) as [zs'| |] eqn:Ez; try done. cbn [mbind outcome_bind]. intros [= <-].
    destruct (IH _ _ Ez) as [Hl Hz]. rewrite len_cons. split; [lia|]. intros [|j] zm Hj; cbn in Hj.
    + injection Hj as <-. cbn [Columnar.zone_min Columnar.zone_max]. unfold zone_vals, Columnar.ZONE_SIZE. rewrite N.add_0_r. done.
    + replace (i + N.of_nat (S j)) with (i + 1 + N.of_nat j) by lia. by apply Hz.
Qed.

Lemma concat_zone_vals {A} (values : list A) m :
  concat (map (zone_vals values) (Columnar.rows_below m)) = take (N.to_nat (m * Columnar.ZONE_SIZE)) values.
Proof.
  unfold Columnar.rows_below. rewrite <- (N2Nat.id m) at 2. generalize (N.to_nat m). clear m. intros m. rewrite map_map.
  induction m as [|m IH]; [done|]. rewrite seq_S, map_app, concat_app, IH. cbn [map concat]. rewrite app_nil_r, Nat.add_0_l. unfold zone_vals, read_at, Columnar.ZONE_SIZE.
  replace (N.to_nat (N.of_nat (S m) * 1000)) with (N.to_nat (N.of_nat m * 1000) + 1000)%nat by lia. rewrite <- take_take_drop. f_equal.
  destruct (N.leb_spec ((N.of_nat m + 1) * 1000) (len values)).
  - f_equal. lia.
  - rewrite !take_ge; [done|rewrite length_drop; unfold len in *; lia|rewrite length_drop; unfold len in *; lia].
Qed.

Lemma concat_all_zones {A} (values : list A) : concat (map (zone_vals values) (Columnar.rows_below (zones_for (len values)))) = values.
Proof. rewrite concat_zone_vals. apply take_ge. unfold zones_for, Columnar.ZONE_SIZE, len. lia. Qed.

Lemma zone_slice_vals (col : list CValue) z : zone_slice (len col) col z = map columnar_to_sql (zone_vals col z).
Proof.
  unfold zone_slice, zone_vals, read_at. set (start := z * Columnar.ZONE_SIZE). set (n := N.min _ _ - start).
  assert (Hn : n = 0 \/ start + n <= len col) by lia. apply list_eq. intros i. unfold Columnar.rows_below. rewrite map_map, !list_lookup_fmap.
  destruct (decide (i < N.to_nat n)%nat) as [Hi|Hi].
  - rewrite lookup_seq_lt by done. rewrite lookup_take_lt, lookup_drop by done. cbn. replace (N.to_nat (start + N.of_nat i)) with (N.to_nat start + i)%nat by lia.
    destruct (col !! (N.to_nat start + i)%nat) eqn:E; [done|]. apply lookup_ge_None in E. unfold len in *. lia.
  - rewrite lookup_seq_ge, lookup_take_ge by lia. done.
Qed.

(** The zones that are not pruned. *)
Definition kept (op : Ast.BinOp) (bound : CValue) (zones : list Columnar.ZoneMap) (z : N) : bool :=
  match zones !! N.to_nat z with Some zm => negb (zone_pruned op zm bound) | None => false end.

Lemma surviving_spec op bound zones i :
  surviving_from i op bound zones = map (N.add i) (List.filter (kept op bound zones) (Columnar.rows_below (len zones))).
Proof.
  revert i. induction zones as [|zm zones IH]; intros i; [done|]. cbn [surviving_from]. unfold Columnar.rows_below, len in *. rewrite Nat2N.id in *. cbn [length seq map List.filter].
  assert (Hs : List.filter (kept op bound (zm :: zones)) (map N.of_nat (seq 1 (length zones))) =
    map N.succ (List.filter (kept op bound zones) (map N.of_nat (seq 0 (length zones))))).
  { rewrite <- seq_shift, map_map. generalize (seq 0 (length zones)). intros l. induction l as [|x l IHl]; [done|]. cbn [map List.filter].
    assert (Hk : kept op bound (zm :: zones) (N.of_nat (S x)) = kept op bound zones (N.of_nat x)) by (unfold kept; by rewrite !Nat2N.id).
    rewrite Hk, IHl. destruct (kept op bound zones (N.of_nat x)); [|done]. cbn [map]. f_equal. lia. }
  change (kept op bound (zm :: zones) (N.of_nat 0)) with (negb (zone_pruned op zm bound)).
  destruct (zone_pruned op zm bound); cbn [negb map]; rewrite IH, Hs, map_map.
  - apply map_ext. lia.
  - f_equal; [lia|]. apply map_ext. lia.
Qed.

(** ** Masks *)

Lemma select_app {A} m1 m2 (c1 c2 : list A) : length m1 = length c1 -> select (m1 ++ m2) (c1 ++ c2) = select m1 c1 ++ select m2 c2.
Proof.
  revert c1. induction m1 as [|k m1 IH]; intros [|v c1] Hl; try done. cbn. rewrite IH by (by injection Hl). by destruct k.
Qed.

Lemma select_none {A} m (c : list A) : Forall (fun k => k = false) m -> select m c = [].
Proof. revert c. induction m as [|k m IH]; intros [|v c] Hm; cbn; try done. apply Forall_cons in Hm as [-> Hm]. auto. Qed.

Lemma count_true_app m1 m2 : count_true (m1 ++ m2) = count_true m1 + count_true m2.
Proof. unfold count_true. rewrite List.filter_app, len_app. done. Qed.

Lemma count_true_none m : Forall (fun k => k = false) m -> count_true m = 0.
Proof. unfold count_true. induction 1 as [|k m -> Hm IH]; done. Qed.

(** Dropping parts whose mask is false everywhere changes no selection. *)
Lemma select_zones {A B} (p : A -> bool) (key : N -> list A) (col : N -> list B) (keep : N -> bool) zs :
  (forall z, z ∈ zs -> length (key z) = length (col z)) -> (forall z, z ∈ zs -> keep z = false -> Forall (fun v => p v = false) (key z)) ->
  select (map p (concat (map key zs))) (concat (map col zs)) =
  select (map p (concat (map key (List.filter keep zs)))) (concat (map col (List.filter keep zs))).
Proof.
  intros Hl Hp. induction zs as [|z zs IH]; [done|]. assert (Hz : z ∈ z :: zs) by left. cbn [map concat List.filter].
  rewrite map_app, select_app by (rewrite length_map; auto). rewrite IH by (intros; first [apply Hl; by right|by apply Hp; [right|]]).
  destruct (keep z) eqn:Ek; cbn [map concat].
  - rewrite map_app, select_app by (rewrite length_map; auto). done.
  - rewrite select_none; [done|]. apply Forall_map. by apply Hp.
Qed.

Lemma count_zones {A} (p : A -> bool) (key : N -> list A) (keep : N -> bool) zs :
  (forall z, z ∈ zs -> keep z = false -> Forall (fun v => p v = false) (key z)) ->
  count_true (map p (concat (map key zs))) = count_true (map p (concat (map key (List.filter keep zs)))).
Proof.
  intros Hp. induction zs as [|z zs IH]; [done|]. cbn [map concat List.filter]. rewrite map_app, count_true_app, IH by (intros; apply Hp; [by right|done]).
  destruct (keep z) eqn:Ek; cbn [map concat]; [by rewrite map_app, count_true_app|].
  rewrite count_true_none; [done|]. apply Forall_map. apply Hp; [left|done].
Qed.

(** ** Stores with fresh zone maps *)

(** Columns of one type each, as long as the store, with zone maps over all rows. *)
Record fresh (s : Columnar.ColumnarStore) : Prop := {
  fr_length : forall c, c ∈ Columnar.columns s -> len (Columnar.rle_values c) = Columnar.row_count s;
  fr_typed : forall c, c ∈ Columnar.columns s -> exists k, typed k (Columnar.rle_values c);
  fr_zones : Forall2 (fun c zs => Columnar.build_zones (E := Columnar.ReadError) (S (N.to_nat (Columnar.row_count s))) (Columnar.rle_values c)
    (Columnar.row_count s) 0 = Ok zs) (Columnar.columns s) (Columnar.zone_maps s)
}.

Lemma build_columns_inv {E} cols n zss : Columnar.build_columns (E := E) cols n = Ok zss ->
  Forall2 (fun c zs => Columnar.build_zones (E := E) (S (N.to_nat n)) (Columnar.rle_values c) n 0 = Ok zs) cols zss.
Proof.
  revert zss. induction cols as [|c cols IH]; intros zss; cbn [Columnar.build_columns]; [intros [= <-]; constructor|].
  destruct (Columnar.build_zones _ _ _ _) as [z| |] eqn:Ez; try done. cbn [mbind outcome_bind]. destruct (Columnar.build_columns cols n) as [zs| |]; try done.
  cbn. intros [= <-]. constructor; [done|by apply IH].
Qed.

(** The values of column [i] in zone [z]. *)
Definition zone_of (s : Columnar.ColumnarStore) (i z : N) : list Value := map columnar_to_sql (zone_vals (Columnar.scan_column s i) z).

(** The batch of the zones [zs]. *)
Definition zone_batch (s : Columnar.ColumnarStore) (zs : list N) : list (list Value) :=
  map (fun i => concat (map (zone_of s i) zs)) (Columnar.rows_below (len (Columnar.columns s))).

Lemma rows_below_lt n i : i ∈ Columnar.rows_below n -> i < n.
Proof. unfold Columnar.rows_below. intros (j & -> & Hj)%list_elem_of_fmap. apply elem_of_seq in Hj. lia. Qed.

Lemma scan_column_len s i : fresh s -> i < len (Columnar.columns s) -> len (Columnar.scan_column s i) = Columnar.row_count s.
Proof.
  intros Hf Hi. unfold Columnar.scan_column. destruct (Columnar.columns s !! N.to_nat i) as [c|] eqn:E.
  - apply (fr_length _ Hf). by eapply list_elem_of_lookup_2.
  - apply lookup_ge_None in E. unfold len in *. lia.
Qed.

Lemma map_rows_ext {A} (f g : N -> A) n : (forall i, i < n -> f i = g i) -> map f (Columnar.rows_below n) = map g (Columnar.rows_below n).
Proof. intros H. apply map_ext_in. intros i Hi. apply H, rows_below_lt. by apply list_elem_of_In. Qed.

Lemma full_batch s : fresh s -> columns (from_columnar s) = zone_batch s (Columnar.rows_below (zones_for (Columnar.row_count s))).
Proof.
  intros Hf. apply map_rows_ext. intros i Hi. unfold zone_of. rewrite <- (scan_column_len s i Hf Hi). rewrite <- (concat_all_zones (Columnar.scan_column s i)) at 1.
  rewrite concat_map, map_map. done.
Qed.

Lemma zones_below n z : z < zones_for n -> z * Columnar.ZONE_SIZE < n.
Proof. unfold zones_for, Columnar.ZONE_SIZE. lia. Qed.

Lemma filter_all {A} (p : A -> bool) l : Forall (fun x => p x = true) l -> List.filter p l = l.
Proof. induction 1 as [|x l Hx Hl IH]; [done|]. cbn. by rewrite Hx, IH. Qed.

Lemma pruned_batch s zs : fresh s -> Forall (fun z => z < zones_for (Columnar.row_count s)) zs -> Columnar.columns s <> [] ->
  columns (batch_from_zones s zs) = zone_batch s zs /\
  row_count (batch_from_zones s zs) = foldl (fun n z => n + zone_rows (Columnar.row_count s) z) 0 zs.
Proof.
  intros Hf Hzs Hc. assert (Hl : len (Columnar.columns s) <> 0) by (destruct (Columnar.columns s); [done|rewrite len_cons; lia]).
  unfold batch_from_zones. rewrite (proj2 (N.eqb_neq _ _) Hl). cbn [orb]. case_bool_decide as Hz.
  - subst zs. cbn. split; [|done]. unfold zone_batch, Columnar.rows_below. rewrite N.max_l by lia. rewrite map_map. cbn [map concat].
    clear. generalize 0%nat. induction (N.to_nat (len (Columnar.columns s))) as [|m IH]; intros k; [done|]. cbn. by rewrite <- IH.
  - rewrite filter_all; cycle 1. { eapply Forall_impl; [exact Hzs|]. intros z Hlt. apply N.ltb_lt, zones_below, Hlt. }
    split; [|done]. apply map_rows_ext. intros i Hi. f_equal. apply map_ext_in. intros z _. unfold zone_of. rewrite <- (scan_column_len s i Hf Hi). apply zone_slice_vals.
Qed.

Lemma length_zone_of s i z : fresh s -> i < len (Columnar.columns s) -> z < zones_for (Columnar.row_count s) ->
  len (zone_of s i z) = zone_rows (Columnar.row_count s) z.
Proof.
  intros Hf Hi Hz. unfold zone_of, zone_vals, zone_rows, read_at. rewrite (scan_column_len s i Hf Hi). pose proof (scan_column_len s i Hf Hi) as Hl.
  unfold len in *. rewrite length_map, length_take, length_drop. unfold zones_for, Columnar.ZONE_SIZE in *. lia.
Qed.

Lemma len_concat_zones s i zs n : fresh s -> i < len (Columnar.columns s) -> Forall (fun z => z < zones_for (Columnar.row_count s)) zs ->
  n + len (concat (map (zone_of s i) zs)) = foldl (fun n z => n + zone_rows (Columnar.row_count s) z) n zs.
Proof.
  intros Hf Hi Hzs. revert n. induction Hzs as [|z zs Hz Hzs IH]; intros n; cbn [map concat foldl]; [rewrite len_nil; lia|].
  rewrite <- IH, len_app, (length_zone_of s i z Hf Hi Hz). lia.
Qed.

Section Queries.
Context `{UnicodeCase}.

(** A predicate on the column at index [i]. *)
Definition predicate (schema : list ColumnSchema) (e : Ast.Expr) (op : Ast.BinOp) (lit : Value) (i : nat) : Prop :=
  exists cn, simple_predicate e = Some (cn, op, lit) /\ position (name_matches (to_lowercase cn)) schema = Some i.

Lemma eval_filter_predicate b schema e op lit i : predicate schema e op lit i ->
  eval_filter b e schema = (col ← or_panic (columns b !! i); Ok (map (fun v => cmp_op op v lit) col)).
Proof.
  intros (cn & Hs & Hp). destruct e; try done. cbn [simple_predicate eval_filter] in *.
  destruct (extract_col_name e1) as [n1|] eqn:E1.
  - destruct e1; try done. injection E1 as ->. destruct (eval_literal e2) as [v| |]; try done. injection Hs as -> -> ->. cbn [col_ref_idx]. by rewrite Hp.
  - assert (Hn : col_ref_idx e1 schema = None) by (by destruct e1). rewrite Hn.
    destruct (eval_literal e1) as [v| |]; try done. destruct (extract_col_name e2) as [n2|] eqn:E2; [|done]. destruct e2; try done. injection E2 as ->.
    injection Hs as -> -> ->. cbn [col_ref_idx]. by rewrite Hp.
Qed.

(** The filter over a batch of zones. *)
Lemma filter_zones s zs b schema e op lit i : fresh s -> Forall (fun z => z < zones_for (Columnar.row_count s)) zs ->
  predicate schema e op lit i -> N.of_nat i < len (Columnar.columns s) -> columns b = zone_batch s zs ->
  row_count b = foldl (fun n z => n + zone_rows (Columnar.row_count s) z) 0 zs ->
  let mask := map (fun v => cmp_op op v lit) (concat (map (zone_of s (N.of_nat i)) zs)) in
  (mask ← eval_filter b e schema; filter b mask) = Ok (mkBatch (map (select mask) (zone_batch s zs)) (count_true mask)).
Proof.
  intros Hf Hzs Hp Hi Hc Hr mask. rewrite (eval_filter_predicate _ _ _ _ _ _ Hp), Hc. unfold zone_batch.
  rewrite list_lookup_fmap, lookup_rows_below by lia. cbn [fmap option_fmap option_map or_panic]. rewrite !bind_ok. fold mask. unfold filter.
  rewrite Hc. replace (len mask =? row_count b) with true; [done|]. symmetry. apply N.eqb_eq. rewrite Hr, <- (len_concat_zones s (N.of_nat i)) by done.
  unfold mask, len. rewrite length_map. lia.
Qed.

Lemma pruned_zones_false s schema e op lit i zones : fresh s -> predicate schema e op lit i -> lit <> Null -> N.of_nat i < len (Columnar.columns s) ->
  Columnar.zone_maps s !! i = Some zones -> len zones = zones_for (Columnar.row_count s) /\
  forall z, z < zones_for (Columnar.row_count s) -> kept op (sql_val_to_columnar lit) zones z = false ->
    Forall (fun v => cmp_op op v lit = false) (zone_of s (N.of_nat i) z).
Proof.
  intros Hf Hp Hl Hi Hz. destruct (lookup_lt_is_Some_2 (Columnar.columns s) i) as [c Hc]; [unfold len in Hi; lia|].
  pose proof (Forall2_lookup_lr _ _ _ _ _ _ (fr_zones _ Hf) Hc Hz) as Hb. cbv beta in Hb. assert (Hin : c ∈ Columnar.columns s) by (by eapply list_elem_of_lookup_2).
  rewrite <- (fr_length _ Hf c Hin) in *. destruct (build_zones_exact (E := Columnar.ReadError) _ _ 0 _ Hb) as [Hlen Hzm]. rewrite N.sub_0_r in Hlen.
  split; [done|]. intros z Hlt Hk. unfold kept in Hk. destruct (zones !! N.to_nat z) as [zm|] eqn:Ez; [|apply lookup_ge_None in Ez; unfold len in *; lia].
  apply negb_false_iff in Hk. destruct (Hzm _ _ Ez) as [Hmin Hmax]. rewrite N.add_0_l, N2Nat.id in *. destruct (fr_typed _ Hf c Hin) as [k Ht].
  unfold zone_of. assert (Hsc : Columnar.scan_column s (N.of_nat i) = Columnar.rle_values c) by (unfold Columnar.scan_column; by rewrite Nat2N.id, Hc).
  rewrite Hsc. apply Forall_map, Forall_forall. intros v Hv. eapply zone_pruned_sound; [exact Hmin|exact Hmax| |exact Hv|done|done].
  unfold zone_vals, read_at. by apply Forall_take, Forall_drop.
Qed.

(** Pruning does not change what a predicate selects. *)
Lemma pruning_keeps_selection s schema e op lit i : fresh s -> predicate schema e op lit i -> lit <> Null -> N.of_nat i < len (Columnar.columns s) ->
  let surviving := prune_with_zone_maps s schema e in
  let batch := if len surviving <? zone_count s then batch_from_zones s surviving else from_columnar s in
  (mask ← eval_filter batch e schema; filter batch mask) = (mask ← eval_filter (from_columnar s) e schema; filter (from_columnar s) mask).
Proof.
  intros Hf Hp Hl Hi surviving. cbv zeta. destruct (len surviving <? zone_count s) eqn:Els; [|done].
  assert (Hne : Columnar.columns s <> []) by (intros E; rewrite E, len_nil in Hi; lia).
  set (all := Columnar.rows_below (zones_for (Columnar.row_count s))).
  assert (Hall : Forall (fun z => z < zones_for (Columnar.row_count s)) all) by (apply Forall_forall; intros z; apply rows_below_lt).
  destruct (lookup_lt_is_Some_2 (Columnar.zone_maps s) i) as [zones Hz]; [rewrite <- (Forall2_length _ _ _ (fr_zones _ Hf)); unfold len in Hi; lia|].
  destruct (pruned_zones_false s schema e op lit i zones) as [Hlz Hfalse]; [done..|].
  assert (Hs : surviving = List.filter (kept op (sql_val_to_columnar lit) zones) all).
  { unfold surviving, prune_with_zone_maps in *. destruct Hp as (cn & Hs & Hpos). rewrite Hs, Hpos, Hz in *. destruct zones as [|zm zones].
    - rewrite len_nil in Hlz. unfold all. change (zone_count s) with (zones_for (Columnar.row_count s)). by rewrite <- Hlz.
    - rewrite surviving_spec, Hlz. apply map_id. }
  assert (Hsub : Forall (fun z => z < zones_for (Columnar.row_count s)) surviving).
  { rewrite Hs. apply Forall_forall. intros z Hzin. apply list_elem_of_In, filter_In in Hzin as [Hzin _]. apply rows_below_lt. by apply list_elem_of_In. }
  destruct (pruned_batch s surviving Hf Hsub Hne) as [Hc1 Hr1].
  rewrite (filter_zones s surviving _ schema e op lit i Hf Hsub Hp Hi Hc1 Hr1).
  rewrite (filter_zones s all _ schema e op lit i Hf Hall Hp Hi (full_batch s Hf)); cycle 1.
  { cbn [row_count from_columnar]. rewrite <- (len_concat_zones s (N.of_nat i)) by done. rewrite N.add_0_l. unfold all, zone_of.
    rewrite <- map_map, <- concat_map, concat_zone_vals. unfold len at 1. rewrite length_map, length_take.
    pose proof (scan_column_len s _ Hf Hi) as Hsl. rewrite <- Hsl. unfold len, zones_for, Columnar.ZONE_SIZE. lia. }
  f_equal. assert (Hcut : forall z, z ∈ all -> kept op (sql_val_to_columnar lit) zones z = false -> Forall (fun v => cmp_op op v lit = false) (zone_of s (N.of_nat i) z)).
  { intros z Hzin. apply Hfalse. by apply rows_below_lt. }
  rewrite Hs. f_equal; [|symmetry; by apply count_zones]. unfold zone_batch. rewrite !map_map. apply map_rows_ext. intros j Hj.
  symmetry. apply (select_zones (fun v => cmp_op op v lit) (zone_of s (N.of_nat i)) (zone_of s j)); [|done].
  intros z Hzin. apply rows_below_lt in Hzin. pose proof (length_zone_of s (N.of_nat i) z Hf Hi Hzin). pose proof (length_zone_of s j z Hf Hj Hzin). unfold len in *. lia.
Qed.

(** ** Batches and rows *)

Definition cell (j : nat) (row : list Value) : Value := default Null (row !! j).

(** A batch of [n] columns with these rows. *)
Record matches (b : ColumnBatch) (n : nat) (rows : list (list Value)) : Prop := {
  ma_columns : columns b = map (fun j => map (cell j) rows) (seq 0 n);
  ma_rows : row_count b = len rows
}.

Lemma matches_column b n rows j : matches b n rows -> (j < n)%nat -> columns b !! j = Some (map (cell j) rows).
Proof. intros [Hc _] Hj. rewrite Hc, list_lookup_fmap, lookup_seq_lt by done. done. Qed.

Lemma select_map {A B} (p : A -> bool) (f : A -> B) l : select (map p l) (map f l) = map f (List.filter p l).
Proof. induction l as [|x l IH]; [done|]. cbn. rewrite IH. by destruct (p x). Qed.

Lemma filter_matches {E} b n rows p : matches b n rows ->
  exists b', filter (E := E) b (map p rows) = Ok b' /\ matches b' n (List.filter p rows).
Proof.
  intros [Hc Hr]. unfold filter. rewrite Hr. unfold len at 1. rewrite length_map. fold (len rows). rewrite N.eqb_refl. eexists. split; [done|]. split; cbn.
  - rewrite Hc, map_map. apply map_ext. intros j. apply select_map.
  - clear. unfold count_true, len. f_equal. induction rows as [|r rows IH]; [done|]. cbn [map List.filter]. unfold id at 1. destruct (p r); cbn [length]; congruence.
Qed.

Definition store_rows (s : Columnar.ColumnarStore) : list (list Value) := map (map columnar_to_sql) (Columnar.scan s).

Lemma store_matches s : fresh s -> Columnar.columns s <> [] -> matches (from_columnar s) (length (Columnar.columns s)) (store_rows s).
Proof.
  intros Hf Hne. assert (Hlen : length (store_rows s) = N.to_nat (Columnar.row_count s)).
  { unfold store_rows, Columnar.scan. destruct (Columnar.columns s); [done|]. rewrite length_map. destruct (N.eqb_spec (Columnar.row_count s) 0) as [->|]; [done|].
    unfold Columnar.rows_below. by rewrite !length_map, length_seq. }
  split; [|cbn; unfold len; lia]. cbn [columns from_columnar]. unfold Columnar.rows_below at 1, len. rewrite Nat2N.id, map_map. apply map_ext_in. intros j Hj.
  apply in_seq in Hj. destruct (lookup_lt_is_Some_2 (Columnar.columns s) j) as [c Hc]; [lia|].
  assert (Hv : length (Columnar.rle_values c) = N.to_nat (Columnar.row_count s)).
  { rewrite <- (fr_length _ Hf c) by (by eapply list_elem_of_lookup_2). unfold len. lia. }
  unfold Columnar.scan_column. rewrite Nat2N.id, Hc. apply list_eq_same_length with (n := N.to_nat (Columnar.row_count s)); [by rewrite length_map, Hlen|by rewrite length_map|].
  intros i x y Hi. rewrite !list_lookup_fmap. unfold store_rows, Columnar.scan. destruct (Columnar.columns s) as [|c0 cs] eqn:Ecs; [done|]. rewrite <- Ecs in *.
  destruct (N.eqb_spec (Columnar.row_count s) 0) as [E0|_]; [lia|]. rewrite !list_lookup_fmap, lookup_rows_below by done. cbn.
  unfold cell. rewrite !list_lookup_fmap, Hc. cbn. unfold Columnar.rle_get. rewrite get_run_values, Nat2N.id. change (run_values (Columnar.runs c)) with (Columnar.rle_values c).
  destruct (Columnar.rle_values c !! i); [|done]. cbn. congruence.
Qed.

(** ** Aggregates *)

Lemma agg_sum_eq col : agg_sum col = Group.sum_values col.
Proof.
  unfold agg_sum, Group.sum_values. replace (foldl sum_step (None, None) col) with (foldl Group.add_value (None, None) col).
  - by destruct (foldl Group.add_value (None, None) col) as [[si|] [sf|]].
  - generalize (@None Z, @None f64). induction col as [|v col IH]; intros [si sf]; [done|]. cbn [foldl]. rewrite IH. by destruct v.
Qed.

Lemma agg_avg_eq col : agg_avg col = Group.avg_values col.
Proof.
  unfold agg_avg, Group.avg_values. set (st := fun (acc : f64 * Z) v => match v with Int64 n => _ | Float64 f => _ | _ => acc end).
  assert (Hf : forall s n, foldl st (s, Z.of_N n) col = (fun p : f64 * N => (p.1, Z.of_N p.2)) (foldl avg_step (s, n) col)).
  { induction col as [|v col IH]; intros s n; [done|]. cbn [foldl]. destruct v; cbn [st avg_step fst snd]; try apply IH;
      (replace (Z.of_N n + 1)%Z with (Z.of_N (n + 1)) by lia; apply IH). }
  change 0%Z with (Z.of_N 0) at 1. rewrite Hf. destruct (foldl avg_step (f64_zero, 0) col) as [s n]. cbn [fst snd].
  destruct (N.eqb_spec n 0) as [->|Hn]; [done|]. by rewrite (proj2 (Z.eqb_neq _ _)) by lia.
Qed.

Lemma agg_best_eq (better : comparison) test col : (forall o, test o = bool_decide (o = Some better)) -> agg_best test col = Group.extreme better col.
Proof.
  intros Hb. unfold agg_best, Group.extreme. f_equal. generalize (@None Value). induction col as [|v col IH]; intros cur; [done|]. cbn [foldl]. rewrite IH. f_equal.
  unfold best_step. destruct (is_null v); [done|]. destruct cur as [c|]; [|done]. rewrite Hb. by case_bool_decide.
Qed.

Lemma is_lt_decide o : is_lt o = bool_decide (o = Some Lt).
Proof. by destruct o as [[]|]. Qed.

Lemma is_gt_decide o : is_gt o = bool_decide (o = Some Gt).
Proof. by destruct o as [[]|]. Qed.

(** A name that stands for the column at index [i] and nothing else. *)
Definition plain_column (schema : list ColumnSchema) (c : list N) (i : nat) : Prop :=
  pseudo_column None (to_lowercase c) = None /\ position (name_matches (to_lowercase c)) schema = Some i.

Lemma position_lt {A} (p : A -> bool) l i : position p l = Some i -> (i < length l)%nat.
Proof.
  revert i. induction l as [|x l IH]; intros i; cbn [position]; [done|]. destruct (p x); [intros [= <-]; cbn; lia|].
  destruct (position p l) as [k|]; [|done]. cbn. intros [= <-]. specialize (IH k eq_refl). lia.
Qed.

Lemma eval_plain env schema c i row : plain_column schema c i -> length row = length schema ->
  eval_expr env (Ast.ColumnRef None c) schema row = Ok (cell i row).
Proof.
  intros [Hps Hpos] Hl. cbn [eval_expr]. unfold eval_column. rewrite Hps. change (column_matches None (to_lowercase c)) with (name_matches (to_lowercase c)).
  rewrite Hpos. cbn [ok_or]. rewrite bind_ok. unfold cell. apply position_lt in Hpos. destruct (lookup_lt_is_Some_2 row i) as [v ->]; [lia|]. done.
Qed.

Lemma mapM_ok {E A B} (f : A -> outcome E B) (g : A -> B) l : Forall (fun x => f x = Ok (g x)) l -> mapM f l = Ok (map g l).
Proof. induction 1 as [|x l Hx Hl IH]; [done|]. cbn. rewrite Hx. cbn. by rewrite IH. Qed.

Lemma eval_cells env schema c i rows : plain_column schema c i -> Forall (fun r => length r = length schema) rows ->
  mapM (Group.eval_or_null env (Ast.ColumnRef None c) schema) rows = Ok (map (cell i) rows).
Proof.
  intros Hc Hr. apply mapM_ok. eapply Forall_impl; [exact Hr|]. intros r Hl. unfold Group.eval_or_null. by rewrite (eval_plain env schema c i r).
Qed.

(** COUNT, SUM, AVG, MIN or MAX of a column, COUNT of the rows, or a literal. *)
Inductive simple_agg (schema : list ColumnSchema) : Ast.Expr -> Prop :=
| agg_rows fname args : to_uppercase fname = text "COUNT" -> args = [] \/ args = [Ast.Star] -> simple_agg schema (Ast.FunctionCall fname args false)
| agg_column fname c i : to_uppercase fname ∈ [text "COUNT"; text "SUM"; text "AVG"; text "MIN"; text "MAX"] -> plain_column schema c i ->
    simple_agg schema (Ast.FunctionCall fname [Ast.ColumnRef None c] false)
| agg_int n : simple_agg schema (Ast.IntLit n)
| agg_text t : simple_agg schema (Ast.StrLit t).

Lemma agg_agrees env schema b rows e : simple_agg schema e -> matches b (length schema) rows -> Forall (fun r => length r = length schema) rows ->
  exists v, eval_agg_expr_vectorized e schema b = Ok v /\ Group.eval_agg_expr env e schema rows = Ok v.
Proof.
  intros He Hm Hr. destruct He as [fname args Hu Ha|fname c i Hu Hc|n|t]; [| |by eexists..].
  - exists (Int64 (Z.of_N (len rows))). cbn [eval_agg_expr_vectorized Group.eval_agg_expr]. unfold Group.is_aggregate, Group.eval_aggregate. rewrite Hu. cbn.
    rewrite (ma_rows _ _ _ Hm). by destruct Ha as [-> | ->].
  - pose proof (eval_cells env schema c i rows Hc Hr) as Hcells. destruct Hc as [Hps Hpos]. pose proof (position_lt _ _ _ Hpos) as Hi.
    pose proof (matches_column _ _ _ i Hm Hi) as Hcol. cbn [eval_agg_expr_vectorized Group.eval_agg_expr]. unfold Group.is_aggregate, Group.eval_aggregate.
    rewrite (bool_decide_eq_true_2 (_ ∈ Group.aggregate_names)) by (apply (elem_of_app [_; _; _; _; _] [_; _]); by left). cbn [col_ref_idx]. rewrite Hpos. unfold aggregate_column. rewrite Hcol, !Hcells, !bind_ok.
    rewrite <- agg_sum_eq, <- agg_avg_eq, <- (agg_best_eq Lt is_lt), <- (agg_best_eq Gt is_gt) by (apply is_lt_decide || apply is_gt_decide).
    revert Hu. generalize (to_uppercase fname). intros u Hu.
    repeat (apply elem_of_cons in Hu as [-> |Hu]; [by eexists|]). by apply not_elem_of_nil in Hu.
Qed.

Lemma columns_agree env schema b rows cols k : Forall (fun sc => exists e alias, sc = Ast.ColExpr e alias /\ simple_agg schema e) cols ->
  matches b (length schema) rows -> Forall (fun r => length r = length schema) rows ->
  exists names vs, eval_columns k cols schema b = Ok (names, vs) /\ mapM (Group.eval_agg_column env schema rows) cols = Ok vs.
Proof.
  intros Hc Hm Hr. revert k. induction Hc as [|sc cols (e & alias & -> & He) Hc IH]; intros k; [by exists [], []|].
  destruct (agg_agrees env schema b rows e He Hm Hr) as (v & Hv1 & Hv2). destruct (IH (k + 1)) as (names & vs & H1 & H2).
  eexists _, (v :: vs). cbn [eval_columns mapM]. rewrite Hv1, bind_ok, H1, bind_ok. split; [done|]. cbn [Group.eval_agg_column].
  change (Group.eval_agg_column env schema rows (Ast.ColExpr e alias)) with (Group.eval_agg_expr env e schema rows). rewrite Hv2, bind_ok. by rewrite H2.
Qed.

(** ** Predicates on rows *)

Definition comparison_op (op : Ast.BinOp) : Prop := op ∈ [Ast.Eq; Ast.Lt; Ast.Gt; Ast.LtEq; Ast.GtEq].

(** A column compared with a literal that is not NULL, on either side. *)
Inductive where_ok (schema : list ColumnSchema) : Ast.Expr -> Ast.BinOp -> Value -> nat -> Prop :=
| where_right op c r lit i : eval_literal r = Ok lit -> lit <> Null -> comparison_op op -> plain_column schema c i ->
    where_ok schema (Ast.BinaryOp op (Ast.ColumnRef None c) r) op lit i
| where_left op c l lit i : eval_literal l = Ok lit -> lit <> Null -> comparison_op op -> plain_column schema c i ->
    where_ok schema (Ast.BinaryOp op l (Ast.ColumnRef None c)) (flip_op op) lit i.

Lemma eval_literal_expr env e schema row v : eval_literal e = Ok v -> eval_expr env e schema row = Ok v.
Proof.
  revert v. induction e; intros v; cbn [eval_literal eval_expr]; try done. destruct op; [|done].
  destruct (eval_literal e) as [w| |]; try done. by rewrite (IHe w eq_refl).
Qed.

Lemma sql_eq_sym v w : value_eq v w = value_eq w v.
Proof.
  destruct v as [|a|a|a|a], w as [|b|b|b|b]; try done; cbn [value_eq].
  - by destruct a, b.
  - apply Z.eqb_sym.
  - rewrite (f64_compare_opp b a). by destruct (f64_compare b a) as [[]|].
  - apply bool_decide_ext. split; congruence.
Qed.

Lemma cmp_flip op v w : comparison_op op -> cmp_op (flip_op op) v w = cmp_op op w v.
Proof.
  intros Hop. unfold comparison_op in Hop. destruct op; try (by (exfalso; set_solver)); cbn [flip_op cmp_op]; [apply sql_eq_sym|..];
    rewrite (sql_cmp_opp v w); by destruct (partial_cmp v w) as [[]|].
Qed.

Lemma binop_truthy op v w : comparison_op op -> v <> Null -> w <> Null -> exists u, eval_binop op v w = Ok u /\ is_truthy u = cmp_op op v w.
Proof.
  intros Hop Hv Hw. unfold eval_binop. assert (E : is_null v || is_null w = false) by (by destruct v, w). rewrite E. unfold comparison_op in Hop.
  destruct op; try (by (exfalso; set_solver)); eexists; (split; [done|]); cbn; unfold is_lt, is_gt, is_le, is_ge; by destruct (partial_cmp v w) as [[]|].
Qed.

Lemma where_truthy env schema e op lit i row : where_ok schema e op lit i -> length row = length schema ->
  exists u, eval_expr env e schema row = Ok u /\ is_truthy u = cmp_op op (cell i row) lit.
Proof.
  intros Hw Hl. destruct Hw as [op c r lit i Hlit Hn Hop Hc|op c l lit i Hlit Hn Hop Hc]; cbn [eval_expr];
    change (eval_column None c schema row) with (eval_expr env (Ast.ColumnRef None c) schema row);
    rewrite (eval_plain env schema c i row Hc Hl), (eval_literal_expr env _ schema row lit Hlit), !bind_ok.
  - destruct (decide (cell i row = Null)) as [E|E]; [rewrite E; exists Null; split; [done|by rewrite null_never]|]. by apply binop_truthy.
  - destruct (decide (cell i row = Null)) as [E|E].
    + rewrite E. exists Null. unfold eval_binop. rewrite orb_true_r. split; [done|]. rewrite null_never; [done..|].
      unfold comparison_op in Hop. destruct op; try (by (exfalso; set_solver)); set_solver.
    + rewrite cmp_flip by done. by apply binop_truthy.
Qed.

Lemma where_predicate schema e op lit i : where_ok schema e op lit i -> predicate schema e op lit i /\ lit <> Null /\ (i < length schema)%nat.
Proof.
  intros Hw. destruct Hw as [op c r lit i Hlit Hn Hop [Hps Hpos]|op c l lit i Hlit Hn Hop [Hps Hpos]]; (split; [exists c; split; [|done]|split; [done|by eapply position_lt]]); cbn.
  - by rewrite Hlit.
  - rewrite Hlit. by destruct l.
Qed.

Lemma where_filter_rows env schema e op lit i rows : where_ok schema e op lit i -> Forall (fun r => length r = length schema) rows ->
  where_filter env (Some e) schema rows = Ok (List.filter (fun r => cmp_op op (cell i r) lit) rows).
Proof.
  intros Hw. induction 1 as [|r rows Hl Hr IH]; [done|]. cbn [where_filter List.filter]. destruct (where_truthy env schema e op lit i r Hw Hl) as (u & Hu & Ht).
  unfold Group.eval_or_null. rewrite Hu, bind_ok, Ht, bind_ok, IH, bind_ok. done.
Qed.

(** ** The two paths *)

Lemma paths_agree `{DebugFormat} env s schema cols e op lit i : fresh s -> Columnar.columns s <> [] -> length schema = length (Columnar.columns s) ->
  Forall (fun sc => exists e alias, sc = Ast.ColExpr e alias /\ simple_agg schema e) cols -> where_ok schema e op lit i ->
  exists names names' vs, vectorized_aggregate s schema cols (Some e) [] = Ok (names, [vs]) /\
    columnar_path env s schema cols (Some e) [] None = Ok (names', [vs]).
Proof.
  intros Hf Hne Hl Hc Hw. destruct (where_predicate _ _ _ _ _ Hw) as (Hp & Hn & Hi).
  pose proof (store_matches s Hf Hne) as Hm. rewrite <- Hl in Hm.
  assert (Hrows : Forall (fun r => length r = length schema) (store_rows s)).
  { unfold store_rows, Columnar.scan. destruct (Columnar.columns s) eqn:Ecs; [done|]. rewrite <- Ecs in *. destruct (_ =? 0); [constructor|].
    apply Forall_map, Forall_map, Forall_forall. intros k _. rewrite !length_map. done. }
  set (p := fun r => cmp_op op (cell i r) lit). destruct (filter_matches (E := SqlError) _ _ _ p Hm) as (b & Hb & Hmb).
  assert (Hpr : Forall (fun r => length r = length schema) (List.filter p (store_rows s))).
  { apply Forall_forall. intros r Hr. apply list_elem_of_In, filter_In in Hr as [Hr _]. apply (proj1 (Forall_forall _ _) Hrows). by apply list_elem_of_In. }
  destruct (columns_agree env schema b (List.filter p (store_rows s)) cols 0 Hc Hmb Hpr) as (names & vs & H1 & H2).
  eexists names, _, vs. split.
  - unfold vectorized_aggregate. rewrite (pruning_keeps_selection s schema e op lit i) by (done || (unfold len; lia)).
    rewrite (eval_filter_predicate _ _ _ _ _ _ Hp), (matches_column _ _ _ i Hm Hi). cbn [or_panic]. rewrite !bind_ok.
    rewrite map_map. change (map (fun r => cmp_op op (cell i r) lit) (store_rows s)) with (map p (store_rows s)). rewrite Hb, bind_ok, H1, bind_ok. done.
  - unfold columnar_path. fold (store_rows s). rewrite (where_filter_rows env schema e op lit i) by done. rewrite bind_ok. unfold Group.apply_group_by. rewrite bind_ok.
    cbn [Group.group_results]. fold p. rewrite H2, !bind_ok. done.
Qed.

End Queries.

Lemma typed_same k us vs : Forall2 same us vs -> typed k vs -> typed k us.
Proof.
  intros Hs. induction Hs as [|u v us vs Huv Hs IH]; intros Ht; [constructor|]. apply Forall_cons in Ht as [Hv Ht]. constructor; [|by apply IH].
  destruct Huv as [-> |(? & ? & -> & ->)]; [done|]. by destruct Hv as [?|Hk]; [|right].
Qed.

Lemma stored_fresh s names rows s' : stored s names rows -> (forall j, exists k, typed k (cells rows j)) ->
  Columnar.build_zone_maps (E := Columnar.ReadError) s = Ok s' -> fresh s' /\ Columnar.columns s' = Columnar.columns s.
Proof.
  intros [Hn Hc Hr] Ht Hb. unfold Columnar.build_zone_maps in Hb. destruct (Columnar.build_columns _ _) as [zss| |] eqn:Ez; try done.
  cbn in Hb. injection Hb as <-. split; [|done]. split; cbn [Columnar.columns Columnar.row_count Columnar.zone_maps].
  - intros c (j & Hj)%list_elem_of_lookup_1. rewrite (holds_len _ _ (Hc j c Hj)), len_cells. done.
  - intros c (j & Hj)%list_elem_of_lookup_1. destruct (Ht j) as [k Hk]. exists k. by eapply typed_same; [exact (ho_values _ _ (Hc j c Hj))|].
  - by apply build_columns_inv.
Qed.

(** C22: Vectorised execution with pruned zones computes what row execution computes.
    The store is filled with any batches of full rows, each column of one type or
    NULL, fewer than [2 ^ 32] rows in all, and the zone maps are built over all of them.
    The query selects COUNT, SUM, AVG, MIN and MAX of columns, COUNT of rows, and integer
    and text literals, and has a predicate that compares a column with a literal other
    than NULL by one of [=], [<], [>], [<=] and [>=], on either side; the columns are
    named without a table.  Then both the vectorised path and the executor's path,
    which filters and aggregates the scanned rows, return the same values.  The
    operator [<>] is excluded: the vectorised comparison selects NULLs with it, the
    other does not. *)
Theorem vectorized_agrees_with_rows `{UnicodeCase} `{DebugFormat} names batches schema : batches_ok names batches ->
  (forall j, exists k, typed k (cells (concat batches) j)) -> length schema = length names ->
  exists s s', insert_batches (E := Columnar.ReadError) Columnar.new names batches = Ok s /\
    Columnar.build_zone_maps (E := Columnar.ReadError) s = Ok s' /\
    forall env cols e op lit i, Forall (fun sc => exists e alias, sc = Ast.ColExpr e alias /\ simple_agg schema e) cols ->
      where_ok schema e op lit i ->
      exists names1 names2 vs, vectorized_aggregate s' schema cols (Some e) [] = Ok (names1, [vs]) /\
        columnar_path env s' schema cols (Some e) [] None = Ok (names2, [vs]).
Proof.
  intros Hb Ht Hl. destruct (batches_stored (E := Columnar.ReadError) names batches Hb) as (s & Hi & Hst & _).
  destruct (build_zone_maps_ok (E := Columnar.ReadError) _ _ _ Hst) as (zss & Hz & _). destruct (stored_fresh _ _ _ _ Hst Ht Hz) as [Hf Hc].
  eexists s, _. split_and!; [done..|]. intros env cols e op lit i Hcols Hw.
  assert (Hlen : length schema = length (Columnar.columns s)) by (rewrite (stored_length _ _ _ Hst); done).
  eapply paths_agree; [done| |done..]. cbn. intros E. rewrite E in Hlen. destruct (ba_names _ _ Hb) as (Hne & _). destruct names; [done|]. cbn in *. lia.
Qed.

Section Examples.
#[local] Instance ascii_only : UnicodeCase := ascii_unicode.
#[local] Existing Instance code_debug.

Definition numbers : list ColumnSchema := [mkColumn (text "n") TInt64 true false].
Definition count_rows : list Ast.SelectColumn := [Ast.ColExpr (Ast.FunctionCall (text "count") [Ast.Star] false) None].
Definition n_compared (op : Ast.BinOp) (e : Ast.Expr) : Ast.Expr := Ast.BinaryOp op (Ast.ColumnRef None (text "n")) e.

Lemma vectorized_agrees_with_rows_witness : exists s s',
  insert_batches (E := Columnar.ReadError) Columnar.new [text "n"] [[[Columnar.Int64 1]; [Columnar.Null]; [Columnar.Int64 7]]] = Ok s /\
  Columnar.build_zone_maps (E := Columnar.ReadError) s = Ok s' /\
  exists names1 names2 vs, vectorized_aggregate s' numbers count_rows (Some (n_compared Ast.Gt (Ast.IntLit 3))) [] = Ok (names1, [vs]) /\
    columnar_path Group.env0 s' numbers count_rows (Some (n_compared Ast.Gt (Ast.IntLit 3))) [] None = Ok (names2, [vs]).
Proof.
  destruct (vectorized_agrees_with_rows [text "n"] [[[Columnar.Int64 1]; [Columnar.Null]; [Columnar.Int64 7]]] numbers) as (s & s' & Hs & Hs' & Hq); [| |done|].
  - split; [|done| |done].
    + split_and!; [done| |done]. repeat (apply Forall_cons; split; [by split|]). by apply Forall_nil.
    + repeat (apply Forall_cons; split); try apply Forall_nil; try done; repeat (apply Forall_cons; split); try apply Forall_nil; try done;
        (split; [done|]); repeat (apply Forall_cons; split); try apply Forall_nil; try done.
  - intros [|j]; exists 1; cbn; repeat (apply Forall_cons; split); try (by apply Forall_nil); by (left + right).
  - exists s, s'. split; [exact Hs|]. split; [exact Hs'|]. apply (Hq _ _ _ Ast.Gt (Int64 3) 0%nat).
    + apply Forall_cons. split; [|by apply Forall_nil]. eexists _, _. split; [done|]. apply agg_rows; [done|by right].
    + apply where_right; [done|done|unfold comparison_op; set_solver|done].
Defined.

Definition filled (rows : list (list CValue)) : sql_result Columnar.ColumnarStore := Columnar.insert_rows Columnar.new [text "n"] rows.

(** Rows inserted after the last full zone are missing: of 1001 rows that all satisfy
    the predicate the vectorised path counts 1000, the executor's path 1001. *)
Theorem trailing_rows_missing : exists s, filled (replicate 1001 [Columnar.Int64 4]) = Ok s /\
  vectorized_aggregate s numbers count_rows (Some (n_compared Ast.GtEq (Ast.IntLit 0))) [] = Ok ([text "col0"], [[Int64 1000]]) /\
  columnar_path Group.env0 s numbers count_rows (Some (n_compared Ast.GtEq (Ast.IntLit 0))) [] None = Ok ([text "count(*)"], [[Int64 1001]]).
Proof. eexists. split_and!; [by vm_compute|by vm_compute..]. Qed.

(** A comparison with NULL selects the NULL rows, and a predicate that is not one
    comparison selects all rows; the executor's path selects none of them. *)
Theorem vectorized_predicates_differ : exists s, filled [[Columnar.Int64 4]; [Columnar.Null]] = Ok s /\
  let both := Ast.BinaryOp Ast.And (n_compared Ast.Gt (Ast.IntLit 9)) (n_compared Ast.Lt (Ast.IntLit 0)) in
  (forall e k, (e, k) ∈ [(n_compared Ast.Eq Ast.Null, 1%Z); (n_compared Ast.NotEq (Ast.IntLit 4), 1%Z); (both, 2%Z)] ->
    vectorized_aggregate s numbers count_rows (Some e) [] = Ok ([text "col0"], [[Int64 k]]) /\
    columnar_path Group.env0 s numbers count_rows (Some e) [] None = Ok ([text "count(*)"], [[Int64 0]])).
Proof.
  eexists. split; [by vm_compute|]. intros both e k. unfold both.
  repeat (intros [[= -> ->]|Hin]%elem_of_cons; [by vm_compute|revert Hin]). by intros ?%not_elem_of_nil.
Qed.

End Examples.

End VectorizedSpec.
