(* ===== verification/SqlCatalog.v ===== *)
(** * The catalog

    Models [crates/sql/src/catalog.rs] and, of [crates/sql/src/executor.rs], the views
    of the catalog a client can select from.  Tables are found by their names in lower
    case.  [HashMap] iterates in an order of its own: [TableOrder] names it, and says
    that every table comes once. *)

From Stdlib Require Import Ascii String.
From stdpp Require Import gmap strings.
From S2P Require Import Prelude Bytes Strings Float64 SqlAst SqlValue SqlGroup StorageHeap StorageBTree StorageColumnar StorageHnsw StorageGin.

Module Catalog.
Import Value Group.

Record ColumnStats : Type := mkColumnStats {
  null_fraction : f64;
  ndv : N;
  mcv : list (Value * f64);
  hist_bounds : list Value
}.

Record TableStats : Type := mkTableStats {
  row_count : N;
  page_count : N;
  column_stats : list ColumnStats
}.

Record TableEntry : Type := mkTable {
  table_id : N;
  columns : list ColumnSchema;
  pk_col_idx : option nat;
  heap : Heap.HeapFile;
  pk_index : option BTree.BTree;
  pk_index_meta : option N;
  stats : option TableStats;
  columnar : option Columnar.ColumnarStore;
  vector_index : option Hnsw.HnswIndex;
  gin_index : option Gin.GinIndex;
  gin_column : option (list N)
}.

Record Catalog : Type := mkCatalog {
  tables : gmap (list N) TableEntry;
  next_table_id : N
}.

Definition new : Catalog := mkCatalog ∅ 1.

Definition with_heap (e : TableEntry) (h : Heap.HeapFile) : TableEntry :=
  mkTable (table_id e) (columns e) (pk_col_idx e) h (pk_index e) (pk_index_meta e) (stats e) (columnar e) (vector_index e) (gin_index e) (gin_column e).
Definition with_pk_index (e : TableEntry) (t : BTree.BTree) : TableEntry :=
  mkTable (table_id e) (columns e) (pk_col_idx e) (heap e) (Some t) (pk_index_meta e) (stats e) (columnar e) (vector_index e) (gin_index e) (gin_column e).
Definition with_stats (e : TableEntry) (s : TableStats) : TableEntry :=
  mkTable (table_id e) (columns e) (pk_col_idx e) (heap e) (pk_index e) (pk_index_meta e) (Some s) (columnar e) (vector_index e) (gin_index e) (gin_column e).
Definition with_columnar (e : TableEntry) (c : Columnar.ColumnarStore) : TableEntry :=
  mkTable (table_id e) (columns e) (pk_col_idx e) (heap e) (pk_index e) (pk_index_meta e) (stats e) (Some c) (vector_index e) (gin_index e) (gin_column e).
Definition with_vector_index (e : TableEntry) (h : Hnsw.HnswIndex) : TableEntry :=
  mkTable (table_id e) (columns e) (pk_col_idx e) (heap e) (pk_index e) (pk_index_meta e) (stats e) (columnar e) (Some h) (gin_index e) (gin_column e).
Definition with_gin (e : TableEntry) (g : Gin.GinIndex) (column : option (list N)) : TableEntry :=
  mkTable (table_id e) (columns e) (pk_col_idx e) (heap e) (pk_index e) (pk_index_meta e) (stats e) (columnar e) (vector_index e) (Some g) column.

Section Names.
Context `{UnicodeCase}.

Definition create_table (c : Catalog) (name : list N) (cols : list ColumnSchema) (pk : option nat)
    (h : Heap.HeapFile) (index : option BTree.BTree) (meta : option N) : Catalog :=
  let id := next_table_id c in
  mkCatalog (<[to_lowercase name := mkTable id cols pk h index meta None None None None None]> (tables c)) (wadd 32 id 1).

Definition get (c : Catalog) (name : list N) : option TableEntry := tables c !! to_lowercase name.

(** What is written through [get_mut]. *)
Definition put (c : Catalog) (name : list N) (e : TableEntry) : Catalog :=
  mkCatalog (<[to_lowercase name := e]> (tables c)) (next_table_id c).

Definition contains (c : Catalog) (name : list N) : bool := bool_decide (is_Some (get c name)).
End Names.

Definition next_id (c : Catalog) : N := next_table_id c.

Class TableOrder := {
  iter : gmap (list N) TableEntry -> list (list N * TableEntry);
  iter_perm m : iter m ≡ₚ map_to_list m;
}.

(** ** Variables and views *)

Definition pg_show_var `{UnicodeCase} (name : list N) : list N :=
  let named s := bool_decide (to_lowercase name = text s) in
  if named "server_version"%string || named "server_version_num"%string then text "14.0"
  else if named "search_path"%string then text "public"
  else if named "client_encoding"%string then text "UTF8"
  else if named "standard_conforming_strings"%string then text "on"
  else if named "integer_datetimes"%string then text "on"
  else if named "datestyle"%string then text "ISO, MDY"
  else if named "timezone"%string then text "UTC"
  else if named "transaction_isolation"%string then text "read committed"
  else if named "is_superuser"%string then text "on"
  else if named "session_authorization"%string then text "postgres"
  else [].

Definition pg_col (name : string) (t : SqlType) : ColumnSchema := mkColumn (text name) t true false.

Abbreviation relation := (list ColumnSchema * list (list Value))%type.

Definition int (n : Z) : Value := Int64 n.
Definition str (s : string) : Value := Text (text s).

Definition pg_type : relation :=
  let typ oid name len cat := [int oid; str name; int 11; int len; str "b"; str cat] in
  ([pg_col "oid" TInt64; pg_col "typname" TText; pg_col "typnamespace" TInt64; pg_col "typlen" TInt64;
    pg_col "typtype" TText; pg_col "typcategory" TText],
   [typ 16 "bool" 1 "B"; typ 20 "int8" 8 "N"; typ 21 "int2" 2 "N"; typ 23 "int4" 4 "N"; typ 25 "text" (-1) "S";
    typ 700 "float4" 4 "N"; typ 701 "float8" 8 "N"; typ 1043 "varchar" (-1) "S"; typ 1082 "date" 4 "D";
    typ 1114 "timestamp" 8 "D"; typ 3802 "jsonb" (-1) "U"])%Z%string.

Definition pg_namespace : relation :=
  ([pg_col "oid" TInt64; pg_col "nspname" TText; pg_col "nspowner" TInt64],
   [[int 11; str "pg_catalog"; int 10]; [int 2200; str "public"; int 10]])%string.

Definition pg_database : relation :=
  ([pg_col "oid" TInt64; pg_col "datname" TText; pg_col "datdba" TInt64; pg_col "encoding" TInt64;
    pg_col "datcollate" TText; pg_col "datctype" TText],
   [[int 1; str "postgres"; int 10; int 6; str "en_US.UTF-8"; str "en_US.UTF-8"]])%string.

Definition pg_user : relation :=
  ([pg_col "usename" TText; pg_col "usesysid" TInt64; pg_col "usecreatedb" TBoolean; pg_col "usesuper" TBoolean],
   [[str "postgres"; int 10; Bool true; Bool true]])%string.

Definition oid (idx : nat) : Value := Int64 (16384 + Z.of_nat idx).

Section Views.
Context `{TableOrder} (c : Catalog).

Definition pg_class : relation :=
  ([pg_col "oid" TInt64; pg_col "relname" TText; pg_col "relnamespace" TInt64; pg_col "relkind" TText;
    pg_col "relowner" TInt64; pg_col "relpages" TInt64; pg_col "reltuples" TFloat64],
   map (fun '(idx, (tname, _)) => [oid idx; Text tname; int 2200; str "r"; int 10; int 1; Float64 (f64_of_Z 0)])
     (indexed (iter (tables c))))%string.

Definition pg_tables : relation :=
  ([pg_col "schemaname" TText; pg_col "tablename" TText; pg_col "tableowner" TText; pg_col "hasindexes" TBoolean;
    pg_col "hasrules" TBoolean; pg_col "hastriggers" TBoolean],
   map (fun '(tname, _) => [str "public"; Text tname; str "postgres"; Bool false; Bool false; Bool false])
     (iter (tables c)))%string.

Definition type_oid (t : SqlType) : Z :=
  match t with TBoolean => 16 | TInt64 => 20 | TFloat64 => 701 | TText => 25 end.

Definition pg_attribute : relation :=
  ([pg_col "attrelid" TInt64; pg_col "attname" TText; pg_col "atttypid" TInt64; pg_col "attnum" TInt64;
    pg_col "attnotnull" TBoolean; pg_col "atthasdef" TBoolean],
   concat (map (fun '(idx, (_, e)) =>
     map (fun '(pos, col) => [oid idx; Text (name col); int (type_oid (sql_type col)); int (Z.of_nat pos + 1);
                              Bool (negb (nullable col)); Bool false]) (indexed (columns e)))
     (indexed (iter (tables c)))))%string.

Definition pg_stat_user_tables : relation :=
  ([pg_col "relid" TInt64; pg_col "schemaname" TText; pg_col "relname" TText; pg_col "n_live_tup" TInt64],
   map (fun '(idx, (tname, _)) => [oid idx; str "public"; Text tname; int 0]) (indexed (iter (tables c))))%string.

Definition info_tables : relation :=
  ([pg_col "table_catalog" TText; pg_col "table_schema" TText; pg_col "table_name" TText; pg_col "table_type" TText],
   map (fun '(tname, _) => [str "postgres"; str "public"; Text tname; str "BASE TABLE"]) (iter (tables c)))%string.

Definition info_type (t : SqlType) : string :=
  match t with TInt64 => "bigint" | TFloat64 => "double precision" | TText => "text" | TBoolean => "boolean" end.

Definition column_row (tname : list N) (pos : nat) (col : ColumnSchema) : list Value :=
  [str "postgres"; str "public"; Text tname; Text (name col); int (Z.of_nat pos + 1);
   str (if nullable col then "YES" else "NO"); str (info_type (sql_type col))]%string.

Definition info_columns : relation :=
  ([pg_col "table_catalog" TText; pg_col "table_schema" TText; pg_col "table_name" TText; pg_col "column_name" TText;
    pg_col "ordinal_position" TInt64; pg_col "is_nullable" TText; pg_col "data_type" TText],
   concat (map (fun '(tname, e) =>
     map (fun '(pos, col) => column_row tname pos col) (indexed (columns e))) (iter (tables c))))%string.

Definition virtual_catalog_rows (table : list N) : option relation :=
  let named s := bool_decide (table = text s) in
  if named "pg_type"%string then Some pg_type
  else if named "pg_namespace"%string then Some pg_namespace
  else if named "pg_database"%string then Some pg_database
  else if named "pg_user"%string || named "pg_roles"%string then Some pg_user
  else if named "pg_class"%string then Some pg_class
  else if named "pg_tables"%string then Some pg_tables
  else if named "pg_attribute"%string then Some pg_attribute
  else if named "pg_indexes"%string then
    Some ([pg_col "schemaname" TText; pg_col "tablename" TText; pg_col "indexname" TText; pg_col "indexdef" TText], [])
  else if named "pg_constraint"%string then
    Some ([pg_col "oid" TInt64; pg_col "conname" TText; pg_col "contype" TText; pg_col "conrelid" TInt64], [])
  else if named "pg_stat_user_tables"%string then Some pg_stat_user_tables
  else if named "tables"%string then Some info_tables
  else if named "columns"%string then Some info_columns
  else if named "schemata"%string then
    Some ([pg_col "catalog_name" TText; pg_col "schema_name" TText; pg_col "schema_owner" TText],
          [[str "postgres"; str "public"; str "postgres"]; [str "postgres"; str "pg_catalog"; str "postgres"]])
  else if named "views"%string then
    Some ([pg_col "table_catalog" TText; pg_col "table_schema" TText; pg_col "table_name" TText; pg_col "view_definition" TText], [])
  else None.
End Views.

(** [trim_start_matches]: the prefix is removed as often as it is there. *)
Fixpoint trim_start_matches (fuel : nat) (p s : list N) : list N :=
  match fuel, strip_prefix p s with
  | S fuel, Some r => trim_start_matches fuel p r
  | _, _ => s
  end.

Definition bare_name (name : list N) : list N :=
  let trim p s := trim_start_matches (length s) (text p) s in
  trim "information_schema."%string (trim "pg_catalog."%string name).

(** An order of iteration. *)
#[global] Instance list_order : TableOrder := { iter := map_to_list; iter_perm _ := reflexivity _ }.

(** ** What the views show *)

Section Shown.
Context `{TableOrder} (c : Catalog).

(** A client that reads the views by the names of their columns. *)
Definition view (s : string) : relation := default ([], []) (virtual_catalog_rows c (text s)).

Definition field (v : relation) (col : string) (r : list Value) : option Value :=
  x ← list_find (fun cs => name cs = text col) v.1; r !! x.1.

(** The types of SQL by their names in the two catalogs. *)
Definition type_named (s : list N) : option SqlType :=
  let named n := bool_decide (s = text n) in
  if named "bigint"%string || named "int8"%string then Some TInt64
  else if named "double precision"%string || named "float8"%string then Some TFloat64
  else if named "text"%string then Some TText
  else if named "boolean"%string || named "bool"%string then Some TBoolean
  else None.

(** [SELECT column_name, ordinal_position, is_nullable, data_type FROM
    information_schema.columns WHERE table_name = t]. *)
Definition read_info (t : list N) : list (list N * Z * bool * SqlType) :=
  let v := view "columns" in
  omap (fun r =>
    match field v "table_name" r, field v "column_name" r, field v "ordinal_position" r, field v "is_nullable" r, field v "data_type" r with
    | Some (Text n), Some (Text a), Some (Int64 i), Some (Text y), Some (Text ty) =>
        if bool_decide (n = t) then s ← type_named ty; Some (a, i, bool_decide (y = text "YES"), s) else None
    | _, _, _, _, _ => None
    end) v.2.

Definition type_of_oid (o : Z) : option SqlType :=
  let v := view "pg_type" in
  head (omap (fun r =>
    match field v "oid" r, field v "typname" r with
    | Some (Int64 o'), Some (Text n) => if bool_decide (o' = o) then type_named n else None
    | _, _ => None
    end) v.2).

Definition table_oids (t : list N) : list Z :=
  let v := view "pg_class" in
  omap (fun r =>
    match field v "relname" r, field v "oid" r with
    | Some (Text n), Some (Int64 o) => if bool_decide (n = t) then Some o else None
    | _, _ => None
    end) v.2.

Definition attributes_of (o : Z) : list (list N * Z * bool * SqlType) :=
  let v := view "pg_attribute" in
  omap (fun r =>
    match field v "attrelid" r, field v "attname" r, field v "attnum" r, field v "attnotnull" r, field v "atttypid" r with
    | Some (Int64 o'), Some (Text a), Some (Int64 i), Some (Bool b), Some (Int64 ty) =>
        if bool_decide (o' = o) then s ← type_of_oid ty; Some (a, i, negb b, s) else None
    | _, _, _, _, _ => None
    end) v.2.

(** [pg_class JOIN pg_attribute ON oid = attrelid JOIN pg_type ON pg_type.oid = atttypid]. *)
Definition read_pg (t : list N) : list (list N * Z * bool * SqlType) := concat (map attributes_of (table_oids t)).

(** What there is to read: name, position from one, nullability and type of every column. *)
Definition described (e : TableEntry) : list (list N * Z * bool * SqlType) :=
  map (fun '(i, col) => (name col, Z.of_nat i + 1, nullable col, sql_type col)%Z) (indexed (columns e)).

(** Of a concatenation of the lists of distinct keys, those of one key. *)
Lemma concat_one {K A B} `{EqDecision K} (l : list (K * A)) (f : A -> list B) k x : NoDup l.*1 -> (k, x) ∈ l ->
  concat (map (fun p => if bool_decide (p.1 = k) then f p.2 else []) l) = f x.
Proof.
  intros Hn Hin. induction l as [|[k' x'] l IH]; [by apply not_elem_of_nil in Hin|]. rewrite fmap_cons in Hn. apply NoDup_cons in Hn as [Hk Hn].
  cbn [map concat fst snd] in *. apply elem_of_cons in Hin as [[= <- <-]|Hin].
  - rewrite bool_decide_eq_true_2 by done. rewrite <- (app_nil_r (f x)) at 2. f_equal. clear IH Hn. induction l as [|[k2 x2] l IH]; [done|].
    rewrite fmap_cons in Hk. apply not_elem_of_cons in Hk as [Hne Hk]. cbn. rewrite bool_decide_eq_false_2 by done. by apply IH.
  - rewrite bool_decide_eq_false_2; [by apply IH|]. intros ->. apply Hk. apply list_elem_of_fmap. by exists (k, x).
Qed.

Lemma concat_none {K A B} `{EqDecision K} (l : list (K * A)) (f : A -> list B) k : k ∉ l.*1 ->
  concat (map (fun p => if bool_decide (p.1 = k) then f p.2 else []) l) = [].
Proof.
  induction l as [|[k2 x2] l IH]; [done|]. rewrite fmap_cons. intros [Hne Hk]%not_elem_of_cons. cbn. rewrite bool_decide_eq_false_2 by done. by apply IH.
Qed.

Lemma omap_concat {A B} (f : A -> option B) ls : omap f (concat ls) = concat (map (omap f) ls).
Proof. induction ls as [|l ls IH]; [done|]. cbn [concat map]. by rewrite omap_app, IH. Qed.

Lemma omap_some {A B C} (f : B -> option C) (g : A -> B) (h : A -> C) l : (forall x, f (g x) = Some (h x)) -> omap f (map g l) = map h l.
Proof. intros Hf. induction l as [|x l IH]; [done|]. cbn. rewrite Hf. by rewrite IH. Qed.

Lemma omap_nothing {A B C} (f : B -> option C) (g : A -> B) l : (forall x, f (g x) = None) -> omap f (map g l) = [].
Proof. intros Hf. induction l as [|x l IH]; [done|]. cbn. rewrite Hf. by rewrite IH. Qed.

Lemma iter_names : NoDup (iter (tables c)).*1.
Proof. rewrite iter_perm. apply NoDup_fst_map_to_list. Qed.

Lemma elem_iter n e : (n, e) ∈ iter (tables c) <-> tables c !! n = Some e.
Proof. by rewrite iter_perm, elem_of_map_to_list. Qed.

Lemma iter_missing n : tables c !! n = None -> n ∉ (iter (tables c)).*1.
Proof. intros Hn [[k e] [-> He%elem_iter]]%list_elem_of_fmap. cbn in Hn. congruence. Qed.

Lemma type_of_info ty : type_named (text (info_type ty)) = Some ty.
Proof. by destruct ty. Qed.

Lemma yes_no (b : bool) : bool_decide (text (if b then "YES" else "NO") = text "YES") = b.
Proof. by destruct b. Qed.

Lemma read_info_rows t : read_info t = concat (map (fun p => if bool_decide (p.1 = t) then described p.2 else []) (iter (tables c))).
Proof.
  unfold read_info. change (view "columns") with (info_columns c). set (f := fun r : list Value => _). cbn [info_columns snd]. rewrite omap_concat, map_map.
  assert (Hf : forall n (i : nat) col, f (column_row n i col) = if bool_decide (n = t) then
    s ← type_named (text (info_type (sql_type col))); Some (name col, (Z.of_nat i + 1)%Z, bool_decide (text (if nullable col then "YES" else "NO") = text "YES"), s) else None) by done.
  f_equal. apply map_ext. intros [n e]. cbn [fst snd]. case_bool_decide as Hn.
  - apply omap_some. intros [i col]. rewrite Hf. cbn beta. by rewrite bool_decide_eq_true_2, type_of_info, yes_no.
  - apply omap_nothing. intros [i col]. rewrite Hf. cbn beta. by rewrite bool_decide_eq_false_2.
Qed.

Lemma type_of_type_oid ty : type_of_oid (type_oid ty) = Some ty.
Proof. by destruct ty. Qed.

Lemma attributes_rows k : attributes_of (16384 + Z.of_nat k) =
  concat (map (fun p => if bool_decide (p.1 = k) then described p.2.2 else []) (indexed (iter (tables c)))).
Proof.
  unfold attributes_of. change (view "pg_attribute") with (pg_attribute c). set (f := fun r : list Value => _). cbn [pg_attribute snd]. rewrite omap_concat, map_map.
  assert (Hf : forall (j i : nat) col, f [oid j; Text (name col); int (type_oid (sql_type col)); int (Z.of_nat i + 1); Bool (negb (nullable col)); Bool false] =
    if bool_decide (16384 + Z.of_nat j = 16384 + Z.of_nat k)%Z then
      s ← type_of_oid (type_oid (sql_type col)); Some (name col, (Z.of_nat i + 1)%Z, negb (negb (nullable col)), s) else None) by done.
  f_equal. apply map_ext. intros [j [n e]]. cbn [fst snd]. case_bool_decide as Hj.
  - apply omap_some. intros [i col]. rewrite Hf. rewrite bool_decide_eq_true_2, type_of_type_oid by (by subst j). cbn. by rewrite negb_involutive.
  - apply omap_nothing. intros [i col]. rewrite Hf. by rewrite bool_decide_eq_false_2 by lia.
Qed.

Lemma table_oids_rows t : table_oids t =
  concat (map (fun p => if bool_decide (p.1 = t) then [16384 + Z.of_nat p.2]%Z else []) (map (fun q => (q.2.1, q.1)) (indexed (iter (tables c))))).
Proof.
  unfold table_oids. change (view "pg_class") with (pg_class c). set (f := fun r : list Value => _). cbn [pg_class snd]. rewrite map_map.
  assert (Hf : forall (k : nat) n, f [oid k; Text n; int 2200; str "r"; int 10; int 1; Float64 (f64_of_Z 0)] =
    if bool_decide (n = t) then Some (16384 + Z.of_nat k)%Z else None) by done.
  induction (indexed (iter (tables c))) as [|[k [n e]] l IH]; [done|]. cbn [map concat fst snd] in IH |- *. rewrite <- IH. cbn [omap list_omap]. rewrite Hf.
  by case_bool_decide.
Qed.

Lemma indexed_keys {A} (l : list A) : (indexed l).*1 = seq 0 (length l).
Proof. unfold indexed. apply fst_zip. by rewrite length_seq. Qed.

Lemma indexed_names : (map (fun q => (q.2.1, q.1)) (indexed (iter (tables c)))).*1 = (iter (tables c)).*1.
Proof.
  change (map (fun q => (q.2.1, q.1)) (indexed (iter (tables c)))) with ((fun q : nat * (list N * TableEntry) => (q.2.1, q.1)) <$> indexed (iter (tables c))).
  rewrite <- list_fmap_compose. rewrite (list_fmap_ext _ (fst ∘ snd) (indexed _)) by done. rewrite list_fmap_compose. f_equal.
  unfold indexed. apply snd_zip. by rewrite length_seq.
Qed.

Lemma elem_indexed {A} (l : list A) i x : (i, x) ∈ indexed l <-> l !! i = Some x.
Proof.
  unfold indexed. rewrite list_elem_of_lookup. split.
  - intros [k Hk]. apply lookup_zip_with_Some in Hk as (a & b & [= -> ->] & Ha & Hb).
    apply lookup_seq in Ha as [-> _]. done.
  - intros Hi. exists i. apply lookup_zip_with_Some. exists i, x. split_and!; [done| |done].
    apply lookup_seq. split; [done|]. by eapply lookup_lt_Some.
Qed.

(** C24: A client can read the schema off the catalog.  For every table name, the rows of
    [information_schema.columns] under that name, and the rows of [pg_attribute] joined
    with [pg_class] on the object id and with [pg_type] on the type's, give the columns of
    the table in their order, each with its name, its position counted from one, whether
    it may be NULL, and its type; and nothing if there is no such table.  The fields are
    found by the names the views give their columns, and the map of tables may be iterated
    in any order. *)
Theorem views_show_catalog t :
  let columns_of := match tables c !! t with Some e => described e | None => [] end in
  read_info t = columns_of /\ read_pg t = columns_of.
Proof.
  cbn zeta. unfold read_pg. rewrite read_info_rows, table_oids_rows. destruct (tables c !! t) as [e|] eqn:Ht.
  - pose proof (proj2 (elem_iter t e) Ht) as Hin. split; [apply concat_one; [apply iter_names|done]|].
    apply list_elem_of_lookup in Hin as [k Hk]. rewrite (concat_one _ (fun k => [16384 + Z.of_nat k]%Z) t k).
    + cbn [map concat]. rewrite app_nil_r, attributes_rows.
      apply (concat_one _ (fun p : list N * TableEntry => described p.2) k (t, e)); [rewrite indexed_keys; apply NoDup_seq|by apply elem_indexed].
    + rewrite indexed_names. apply iter_names.
    + apply list_elem_of_fmap. exists (k, (t, e)). split; [done|by apply elem_indexed].
  - pose proof (iter_missing t Ht) as Hn. split; [by apply concat_none|]. rewrite (concat_none _ (fun k => [16384 + Z.of_nat k]%Z)); [done|by rewrite indexed_names].
Qed.
End Shown.
End Catalog.
