(* ===== verification/SqlPlan.v ===== *)
(** * Planning

    Models the parts of [crates/sql/src/executor.rs] that choose how a table is read:
    the statistics [ANALYZE] collects of a column, the selectivity estimated from them,
    the queries an index can answer, and the text of [EXPLAIN]. *)

From Stdlib Require Import Ascii String SpecFloat.
From stdpp Require Import gmap strings.
From S2P Require Import Prelude Bytes Strings Float64 SqlAst SqlValue SqlToken SqlCodec SqlExpr SqlGroup SqlJoin SqlJoinOrder SqlCatalog.

Module Plan.
Import Value Expr Group Catalog.

Definition f64_of_N (n : N) : f64 := f64_of_Z (Z.of_N n).
Definition f64_one : f64 := f64_of_Z 1.

(** [f as usize]. *)
Definition f64_as_usize (f : f64) : N :=
  match f with
  | S754_finite false m e => Z.to_N (Z.min (Z.shiftl (Z.pos m) e) (2 ^ 64 - 1))
  | S754_infinity false => 2 ^ 64 - 1
  | _ => 0
  end.

Definition named (col : list N) (c : ColumnSchema) : bool := eq_ignore_ascii_case (name c) col.

(** ** Statistics *)

(** [v == &val], else a new entry. *)
Fixpoint count_value (val : Value) (counts : list (Value * N)) : list (Value * N) :=
  match counts with
  | [] => [(val, 1)]
  | (v, n) :: rest => if value_eq v val then (v, n + 1) :: rest else (v, n) :: count_value val rest
  end.

Definition value_counts (vals : list Value) : list (Value * N) :=
  foldl (fun counts v => if is_null v then counts else count_value v counts) [] vals.

Definition fraction (a b : N) : f64 := if 0 <? b then f64_div (f64_of_N a) (f64_of_N b) else f64_zero.

Definition histogram `{SliceSort} (distinct : list Value) : sql_result (list Value) :=
  sorted ← slice_sort (fun a b => Ok (default Eq (partial_cmp a b))) distinct;
  let n := len sorted in
  if 2 <? n then
    let bucket_count := N.min 50 n in
    let step := f64_div (f64_of_N n) (f64_of_N bucket_count) in
    mapM (fun i => let idx := N.min (f64_as_usize (f64_mul (f64_of_Z (Z.of_nat i)) step)) (n - 1) in
                   or_panic (sorted !! N.to_nat idx)) (seq 0 (S (N.to_nat bucket_count)))
  else Ok sorted.

Definition analyze_column `{SliceSort} (rows : list row) (col_idx : nat) : sql_result ColumnStats :=
  let vals := map (fun r => default Null (r !! col_idx)) rows in
  let null_count := len (List.filter is_null vals) in
  let counts := value_counts vals in
  let non_null := len rows - null_count in
  let top := take 10 (sort_by (fun a b => b.2 <=? a.2) counts) in
  hist ← histogram (map fst counts);
  Ok (mkColumnStats (fraction null_count (len rows)) (len counts)
        (map (fun vc => (vc.1, fraction vc.2 non_null)) top) hist).

Definition analyze_rows `{SliceSort} (schema : list ColumnSchema) (rows : list row) : sql_result TableStats :=
  cols ← mapM (analyze_column rows) (seq 0 (length schema));
  Ok (mkTableStats (len rows) (N.max (len rows / 100) 1) cols).

(** ** Selectivity *)

(** The column of a comparison, and the other side. *)
Definition compared (l r : Ast.Expr) : option (list N * Ast.Expr) :=
  match l, r with
  | Ast.ColumnRef _ column, v => Some (column, v)
  | v, Ast.ColumnRef _ column => Some (column, v)
  | _, _ => None
  end.

Definition literal (e : Ast.Expr) : option Value := match eval_literal e with Ok v => Some v | _ => None end.

Section Estimate.
Context (schema : list ColumnSchema) (st : option TableStats) (pk : option nat).

Definition stats_of (col : list N) : option ColumnStats :=
  ts ← st;
  i ← position (named col) schema;
  column_stats ts !! i.

Definition is_pk (col : list N) : bool :=
  match pk with
  | Some i => match schema !! i with Some c => named col c | None => false end
  | None => false
  end.

Definition estimate_eq (l r : Ast.Expr) (rows : N) : f64 :=
  match compared l r with
  | Some (col, v) =>
      if is_pk col then (if 0 <? rows then f64_div f64_one (f64_of_N rows) else f64_of_decimal 1 (-2))
      else
        match stats_of col with
        | Some cs =>
            let found := val ← literal v; List.find (fun m => value_eq m.1 val) (mcv cs) in
            match found with
            | Some (_, freq) => freq
            | None => if 0 <? ndv cs then f64_div f64_one (f64_of_N (ndv cs)) else f64_of_decimal 1 (-2)
            end
        | None => f64_of_decimal 1 (-1)
        end
  | None => f64_of_decimal 1 (-1)
  end.

Definition estimate_range (below : bool) (l r : Ast.Expr) : f64 :=
  let estimate :=
    '(col, v) ← compared l r;
    cs ← stats_of col;
    if 2 <=? len (hist_bounds cs) then
      val ← literal v;
      let idx := len (List.filter (fun b => match partial_cmp b val with Some Lt => true | _ => false end) (hist_bounds cs)) in
      let frac := f64_div (f64_of_N idx) (f64_of_N (len (hist_bounds cs) - 1)) in
      Some (if below then frac else f64_sub f64_one frac)
    else None in
  default (f64_of_decimal 33 (-2)) estimate.

Definition estimate_null (inner : Ast.Expr) : option f64 :=
  match inner with
  | Ast.ColumnRef _ column => null_fraction <$> stats_of column
  | _ => None
  end.

Fixpoint estimate_expr_selectivity (e : Ast.Expr) (rows : N) : f64 :=
  match e with
  | Ast.BinaryOp Ast.And l r => f64_mul (estimate_expr_selectivity l rows) (estimate_expr_selectivity r rows)
  | Ast.BinaryOp Ast.Or l r =>
      f64_sub f64_one (f64_mul (f64_sub f64_one (estimate_expr_selectivity l rows))
                               (f64_sub f64_one (estimate_expr_selectivity r rows)))
  | Ast.BinaryOp Ast.Eq l r => estimate_eq l r rows
  | Ast.BinaryOp (Ast.Lt | Ast.LtEq) l r => estimate_range true l r
  | Ast.BinaryOp (Ast.Gt | Ast.GtEq) l r => estimate_range false l r
  | Ast.IsNull inner => default (f64_of_decimal 1 (-1)) (estimate_null inner)
  | Ast.IsNotNull inner => default (f64_of_decimal 9 (-1)) (f64_sub f64_one <$> estimate_null inner)
  | _ => f64_of_decimal 5 (-1)
  end.

Definition selectivity_estimate (where_clause : option Ast.Expr) : f64 :=
  match where_clause with
  | None => f64_one
  | Some e => estimate_expr_selectivity e (match st with Some s => row_count s | None => 0 end)
  end.
End Estimate.

Definition should_use_index (selectivity : f64) (rows : N) : bool :=
  JoinOrder.f64_lt (f64_mul selectivity (f64_of_N rows)) (f64_of_Z 1000) ||
  JoinOrder.f64_lt selectivity (f64_of_decimal 1 (-1)).

(** ** Queries an index can answer *)

(** [pk = literal]. *)
Definition can_use_pk_lookup (where_clause : option Ast.Expr) (schema : list ColumnSchema) (pk : option nat)
    : sql_result (option (nat * Value)) :=
  match pk with
  | None => Ok None
  | Some i =>
      c ← or_panic (schema !! i);
      Ok (match where_clause with
          | Some (Ast.BinaryOp Ast.Eq l r) =>
              '(col, v) ← compared l r;
              if named col c then (fun val => (i, val)) <$> literal v else None
          | _ => None
          end)
  end.

(** [ORDER BY col <-> '[...]' LIMIT k]. *)
Definition detect_vector_ann (order_by : list Ast.OrderByItem) (limit : option Ast.Expr) (schema : list ColumnSchema)
    : sql_result (option (nat * list f64 * N)) :=
  match order_by, limit with
  | [item], Some (Ast.IntLit n) =>
      match Ast.order_expr item with
      | Ast.BinaryOp Ast.VectorDist (Ast.ColumnRef _ col) (Ast.StrLit query) =>
          if (0 <? n)%Z then
            match position (named col) schema with
            | Some i =>
                match parse_vector_str query with
                | Ok v => Ok (Some (i, v, of_signed 64 n))
                | Err _ => Ok None
                | Panic => Panic
                end
            | None => Ok None
            end
          else Ok None
      | _ => Ok None
      end
  | _, _ => Ok None
  end.

(** [col @> 'json'], with the column in lower case. *)
Definition detect_gin_query `{UnicodeCase} (where_clause : option Ast.Expr) (schema : list ColumnSchema)
    : option (list N * list N) :=
  match where_clause with
  | Some (Ast.BinaryOp Ast.JsonContains (Ast.ColumnRef _ column) (Ast.StrLit json)) =>
      let col_lower := to_lowercase column in
      if existsb (fun c => let n := to_lowercase (name c) in
                           bool_decide (n = col_lower) || ends_with n ([46] ++ col_lower)) schema
      then Some (col_lower, json) else None
  | _ => None
  end.

(** ** EXPLAIN *)

Definition join_kind_text (k : Ast.JoinKind) : list N :=
  match k with
  | Ast.InnerJoin => text "Inner"
  | Ast.LeftJoin => text "Left"
  | Ast.RightJoin => text "Right"
  | Ast.FullJoin => text "Full"
  | Ast.CrossJoin => text "Cross"
  end.

Definition cost (n : N) : list N := text "  (cost=0.00.." ++ N_to_string n ++ text ".00)".

Definition scan_lines (steps : list Join.Step) : list (list N) :=
  let qualifier s := default (Join.step_name s) (Join.step_alias s) in
  match steps with
  | [] => []
  | [s] => [text "Seq Scan on " ++ qualifier s ++ cost 1]
  | _ =>
      (text "Hash Join" ++ cost (len steps * 10)) ::
      map (fun '(i, s) =>
             let prefix := match Join.step_kind s with
                           | None => text "  ->  Seq Scan on"
                           | Some k => text "  ->  " ++ join_kind_text k ++ text " Seq Scan on"
                           end in
             prefix ++ text " " ++ qualifier s ++ cost (N.of_nat i + 1)) (indexed steps)
  end.

(** [lines.join("\n")]. *)
Fixpoint join_lines (ls : list (list N)) : list N :=
  match ls with
  | [] => []
  | [l] => l
  | l :: ls => l ++ [10] ++ join_lines ls
  end.

Definition build_plan (stmt : Ast.Statement) : list N :=
  match stmt with
  | Ast.SelectStatement (Ast.mkSelect _ _ _ from where_clause _ _ order_by limit _) =>
      match from with
      | [] => text "Result  (cost=0.00..0.00)"
      | _ =>
          join_lines (scan_lines (Join.flatten_join_tree from) ++
            (match where_clause with Some _ => [text "  Filter: (where clause)"] | None => [] end) ++
            (match order_by with [] => [] | _ => [text "  Sort"] end) ++
            (match limit with Some _ => [text "  Limit"] | None => [] end))
      end
  | Ast.Insert _ => text "Insert  (cost=0.00..0.00)"
  | Ast.Update _ => text "Update  (cost=0.00..0.00)"
  | Ast.Delete _ => text "Delete  (cost=0.00..0.00)"
  | _ => text "Unknown plan"
  end.
End Plan.
