(* ===== verification/SqlWindow.v ===== *)
(** * Window functions and page ranks

    Models, of [crates/sql/src/executor.rs], the sorting of rows by expressions, the
    window functions, which are computed into extra columns named after the function,
    and the page ranks of a table of edges.  [row_number_spec] says that the numbers
    of a partition are the places of its rows in the order of the window. *)

From Stdlib Require Import Ascii String SpecFloat.
From stdpp Require Import gmap strings.
From S2P Require Import Prelude Bytes Strings Float64 SqlAst SqlValue SqlToken SqlExpr SqlGroup.

Module Window.
Import Value Expr Group.

Section Eval.
Context `{SliceSort} `{UnicodeCase} (env : Env).

(** ** Sorting

    The comparison of two rows by expressions, the later ones on ties; [desc] turns an
    expression round. *)
Fixpoint compare_rows (items : list (Ast.Expr * bool)) (schema : list ColumnSchema) (a b : row) : sql_result comparison :=
  match items with
  | [] => Ok Eq
  | (e, desc) :: items =>
      va ← eval_or_null env e schema a;
      vb ← eval_or_null env e schema b;
      let cmp := default Eq (partial_cmp va vb) in
      match (if desc then CompOpp cmp else cmp) with
      | Eq => compare_rows items schema a b
      | c => Ok c
      end
  end.

(** ** Window functions *)

Fixpoint expr_has_window_func (e : Ast.Expr) : bool :=
  match e with
  | Ast.WindowFunc _ _ _ _ => true
  | Ast.BinaryOp _ l r => expr_has_window_func l || expr_has_window_func r
  | _ => false
  end.

Definition has_window_funcs (cols : list Ast.SelectColumn) : bool :=
  existsb (fun sc => match sc with Ast.ColExpr e _ => expr_has_window_func e | Ast.ColStar => false end) cols.

Definition list_eqb {A} (eqb : A -> A -> bool) : list A -> list A -> bool :=
  fix go a b :=
    match a, b with
    | [], [] => true
    | x :: a, y :: b => eqb x y && go a b
    | _, _ => false
    end.

(** The derived [==] of expressions. *)
Fixpoint expr_eqb (e e' : Ast.Expr) : bool :=
  match e, e' with
  | Ast.IntLit n, Ast.IntLit n' => (n =? n')%Z
  | Ast.FloatLit f, Ast.FloatLit f' => match f64_compare f f' with Some Eq => true | _ => false end
  | Ast.StrLit s, Ast.StrLit s' => bool_decide (s = s')
  | Ast.BoolLit b, Ast.BoolLit b' => Bool.eqb b b'
  | Ast.Null, Ast.Null => true
  | Ast.ColumnRef t c, Ast.ColumnRef t' c' => bool_decide (t = t') && bool_decide (c = c')
  | Ast.Star, Ast.Star => true
  | Ast.BinaryOp op l r, Ast.BinaryOp op' l' r' => bool_decide (op = op') && expr_eqb l l' && expr_eqb r r'
  | Ast.UnaryOp op x, Ast.UnaryOp op' x' => bool_decide (op = op') && expr_eqb x x'
  | Ast.IsNull x, Ast.IsNull x' | Ast.IsNotNull x, Ast.IsNotNull x' => expr_eqb x x'
  | Ast.Between x l h, Ast.Between x' l' h' => expr_eqb x x' && expr_eqb l l' && expr_eqb h h'
  | Ast.In x l, Ast.In x' l' | Ast.NotIn x l, Ast.NotIn x' l' => expr_eqb x x' && list_eqb expr_eqb l l'
  | Ast.FunctionCall n l d, Ast.FunctionCall n' l' d' => bool_decide (n = n') && list_eqb expr_eqb l l' && Bool.eqb d d'
  | Ast.WindowFunc n l p o, Ast.WindowFunc n' l' p' o' =>
      bool_decide (n = n') && list_eqb expr_eqb l l' && list_eqb expr_eqb p p' &&
      list_eqb (fun a b => expr_eqb a.1 b.1 && Bool.eqb a.2 b.2) o o'
  | Ast.Cast x t, Ast.Cast x' t' => expr_eqb x x' && bool_decide (t = t')
  | _, _ => false
  end.

Fixpoint collect_window_funcs (e : Ast.Expr) (out : list Ast.Expr) : list Ast.Expr :=
  match e with
  | Ast.WindowFunc _ _ _ _ => if existsb (expr_eqb e) out then out else out ++ [e]
  | Ast.BinaryOp _ l r => collect_window_funcs r (collect_window_funcs l out)
  | _ => out
  end.

(** The rows by the values of the partition expressions: the first row of a partition
    gives its place. *)
Fixpoint partition_indices (partition_by : list Ast.Expr) (schema : list ColumnSchema) (rows : list (nat * row))
    (g : list (list Value * list nat)) : sql_result (list (list Value * list nat)) :=
  match rows with
  | [] => Ok g
  | (i, r) :: rows =>
      key ← mapM (fun e => eval_or_null env e schema r) partition_by;
      partition_indices partition_by schema rows (add_to_group key i g)
  end.

(** [result[row_idx] = value] for each of the sorted rows. *)
Definition assign (sorted : list nat) (values : list Value) (result : list Value) : list Value :=
  foldl (fun result iv => <[iv.1 := iv.2]> result) result (zip sorted values).

Definition row_numbers (n : nat) : list Value := map (fun pos => Int64 (Z.of_nat pos + 1)) (seq 0 n).

(** Ranks from the keys of the sorted rows. *)
Fixpoint ranks (pos rank : nat) (prev : option (list Value)) (keys : list (list Value)) : list Value :=
  match keys with
  | [] => []
  | k :: keys =>
      let same := match prev with None => true | Some p => key_eq k p end in
      let rank := if same then rank else S pos in
      Int64 (Z.of_nat rank) :: ranks (S pos) rank (Some k) keys
  end.

(** The second argument of [LAG] and [LEAD], evaluated on the first row. *)
Definition window_offset (args : list Ast.Expr) (schema : list ColumnSchema) (rows : list row) : sql_result N :=
  match args !! 1%nat, head rows with
  | Some e, Some r =>
      v ← eval_ok env e schema r;
      Ok (match v with Some (Int64 n) => of_signed 64 n | _ => 1 end)
  | _, _ => Ok 1
  end.

Definition first_arg (args : list Ast.Expr) (schema : list ColumnSchema) (rows : list row) (idx : nat) : sql_result Value :=
  match args with
  | [] => Ok Null
  | e :: _ => r ← or_panic (rows !! idx); eval_or_null env e schema r
  end.

Definition lag_value (args : list Ast.Expr) (schema : list ColumnSchema) (rows : list row) (sorted : list nat)
    (offset : N) (pos : nat) : sql_result Value :=
  if N.of_nat pos <? offset then Ok Null
  else i ← or_panic (sorted !! N.to_nat (N.of_nat pos - offset)); first_arg args schema rows i.

Definition lead_value (args : list Ast.Expr) (schema : list ColumnSchema) (rows : list row) (sorted : list nat)
    (offset : N) (pos : nat) : sql_result Value :=
  let p := wadd 64 (N.of_nat pos) offset in
  if len sorted <=? p then Ok Null
  else i ← or_panic (sorted !! N.to_nat p); first_arg args schema rows i.

(** What a function gives to the sorted rows of a partition; [None] leaves them. *)
Definition window_values (name : list N) (args : list Ast.Expr) (order_by : list (Ast.Expr * bool))
    (schema : list ColumnSchema) (rows : list row) (sorted : list nat) : sql_result (option (list Value)) :=
  let named s := bool_decide (name = text s) in
  let positions := seq 0 (length sorted) in
  if named "ROW_NUMBER"%string then Ok (Some (row_numbers (length sorted)))
  else if named "RANK"%string then
    keys ← mapM (fun i => r ← or_panic (rows !! i); mapM (fun o => eval_or_null env o.1 schema r) order_by) sorted;
    Ok (Some (ranks 0 1 None keys))
  else if named "LAG"%string then
    offset ← window_offset args schema rows;
    vs ← mapM (lag_value args schema rows sorted offset) positions;
    Ok (Some vs)
  else if named "LEAD"%string then
    offset ← window_offset args schema rows;
    vs ← mapM (lead_value args schema rows sorted offset) positions;
    Ok (Some vs)
  else Ok None.

Definition compare_indices (order_by : list (Ast.Expr * bool)) (schema : list ColumnSchema) (rows : list row) (a b : nat)
    : sql_result comparison :=
  ra ← or_panic (rows !! a);
  rb ← or_panic (rows !! b);
  compare_rows order_by schema ra rb.

(** One partition after the other. *)
Fixpoint window_partitions (name : list N) (args : list Ast.Expr) (order_by : list (Ast.Expr * bool))
    (schema : list ColumnSchema) (rows : list row) (parts : list (list Value * list nat)) (result : list Value)
    : sql_result (list Value) :=
  match parts with
  | [] => Ok result
  | (_, part) :: parts =>
      sorted ← slice_sort (compare_indices order_by schema rows) part;
      vs ← window_values name args order_by schema rows sorted;
      let result := match vs with Some vs => assign sorted vs result | None => result end in
      window_partitions name args order_by schema rows parts result
  end.

Definition compute_window_function (wf : Ast.Expr) (schema : list ColumnSchema) (rows : list row) : sql_result (list Value) :=
  let blank := replicate (length rows) Null in
  match wf with
  | Ast.WindowFunc name args partition_by order_by =>
      parts ← partition_indices partition_by schema (indexed rows) [];
      window_partitions name args order_by schema rows parts blank
  | _ => Ok blank
  end.

Definition window_column (wf : Ast.Expr) : list ColumnSchema :=
  match wf with
  | Ast.WindowFunc name _ _ _ => [mkColumn (name ++ text "()") TInt64 true false]
  | _ => []
  end.

Definition apply_window_functions (schema : list ColumnSchema) (rows : list row) (cols : list Ast.SelectColumn)
    : sql_result (list ColumnSchema * list row) :=
  let window_funcs := foldl (fun out sc => match sc with Ast.ColExpr e _ => collect_window_funcs e out | Ast.ColStar => out end) [] cols in
  match window_funcs with
  | [] => Ok (schema, rows)
  | _ =>
      values ← mapM (fun wf => compute_window_function wf schema rows) window_funcs;
      Ok (schema ++ concat (map window_column window_funcs),
          map (fun '(i, r) => r ++ map (fun vs => default Null (vs !! i)) values) (indexed rows))
  end.
End Eval.

(** ** Page ranks *)

Definition out_degree (edges : list (Z * Z)) (node : Z) : N := len (List.filter (fun e => Z.eqb e.1 node) edges).
Definition in_neighbors (edges : list (Z * Z)) (node : Z) : list Z := map fst (List.filter (fun e => Z.eqb e.2 node) edges).

Definition graph_nodes (edges : list (Z * Z)) : gset Z := list_to_set (concat (map (fun e => [e.1; e.2]) edges)).

Definition damping : f64 := f64_of_decimal 85 (-2).

Definition next_ranks (edges : list (Z * Z)) (nodes : gset Z) (rank : gmap Z f64) : gmap Z f64 :=
  let n := f64_of_Z (Z.of_nat (size nodes)) in
  set_to_map (fun node =>
    let share src := f64_div (default f64_zero (rank !! src)) (f64_of_Z (Z.of_N (N.max (out_degree edges src) 1))) in
    let sum := foldl f64_add f64_zero (map share (in_neighbors edges node)) in
    (node, f64_add (f64_div (f64_sub (f64_of_Z 1) damping) n) (f64_mul damping sum))) nodes.

Definition compute_pagerank (edges : list (Z * Z)) : gmap Z f64 :=
  let nodes := graph_nodes edges in
  if bool_decide (nodes = ∅) then ∅
  else
    let init := f64_div (f64_of_Z 1) (f64_of_Z (Z.of_nat (size nodes))) in
    Nat.iter 20 (next_ranks edges nodes) (set_to_map (fun node => (node, init)) nodes).

(** ** Row numbers *)

Section RowNumber.
Context `{SliceSort} `{UnicodeCase} (env : Env).

Definition key_at (keys : row -> list Value) (rows : list row) (i : nat) : list Value :=
  match rows !! i with Some r => keys r | None => [] end.

Lemma partition_indices_spec partition_by schema (ki : nat -> list Value) rows g :
  Forall (fun ir => mapM (fun e => eval_or_null env e schema ir.2) partition_by = Ok (ki ir.1)) rows ->
  Forall (group_ok ki) g -> distinct_keys g ->
  exists g', partition_indices env partition_by schema rows g = Ok g' /\
    concat (map snd g') ≡ₚ concat (map snd g) ++ map fst rows /\ Forall (group_ok ki) g' /\ distinct_keys g'.
Proof.
  intros Hk. revert g. induction Hk as [|[i r] rows Hr Hk IH]; intros g Hg Hd; cbn [partition_indices].
  { exists g. by rewrite app_nil_r. }
  cbn [fst snd] in Hr. rewrite Hr, bind_ok.
  destruct (IH (add_to_group (ki i) i g)) as (g' & -> & Hp & Hg' & Hd'); [by apply add_to_group_ok|by apply add_to_group_distinct|].
  exists g'. split; [done|]. rewrite Hp, add_to_group_perm, <- app_assoc. done.
Qed.

(** The rows of a partition are in the order they had. *)
Lemma add_to_group_increasing key (i : nat) g : Forall (fun p => StronglySorted lt p.2 /\ Forall (fun j => (j < i)%nat) p.2) g ->
  Forall (fun p => StronglySorted lt p.2 /\ Forall (fun j => (j < S i)%nat) p.2) (add_to_group key i g).
Proof.
  assert (Hw : forall l, Forall (fun j => (j < i)%nat) l -> Forall (fun j => (j < S i)%nat) l) by (intros l Hl; eapply Forall_impl; [exact Hl|]; cbn; lia).
  induction 1 as [|[k l] g [Hs Hl] Hg IH]; cbn [add_to_group fst snd] in *; [by repeat constructor|].
  destruct (key_eq _ _); constructor; [| | |exact IH]; cbn [snd]; [|eapply Forall_impl; [exact Hg|]; intros p [? ?]; by auto|by auto].
  split; [|apply Forall_app; split; [by auto|by repeat constructor; lia]].
  clear -Hs Hl. induction Hs as [|x l Hs IH Hx]; cbn; [by repeat constructor|]. apply Forall_cons in Hl as [Hxi Hl].
  constructor; [by apply IH|]. apply Forall_app. split; [done|by repeat constructor].
Qed.

Lemma partition_indices_increasing partition_by schema (rows : list row) start g g' :
  Forall (fun p => StronglySorted lt p.2 /\ Forall (fun j => (j < start)%nat) p.2) g ->
  partition_indices env partition_by schema (zip (seq start (length rows)) rows) g = Ok g' -> Forall (fun p => StronglySorted lt p.2) g'.
Proof.
  revert start g. induction rows as [|r rows IH]; intros start g Hg; cbn [length seq zip zip_with partition_indices].
  { intros [= <-]. eapply Forall_impl; [exact Hg|]. by intros p [? _]. }
  destruct (mapM _ partition_by) as [key| |]; [|done..]. rewrite bind_ok. apply IH. by apply add_to_group_increasing.
Qed.

Lemma assign_spec sorted values result : NoDup sorted -> length values = length sorted ->
  Forall (fun i => (i < length result)%nat) sorted ->
  length (assign sorted values result) = length result /\
  (forall i, i ∉ sorted -> assign sorted values result !! i = result !! i) /\
  (forall pos i v, sorted !! pos = Some i -> values !! pos = Some v -> assign sorted values result !! i = Some v).
Proof.
  unfold assign. intros Hn. revert values result. induction Hn as [|j sorted Hj Hn IH]; intros [|v values] result Hl Hf; try done.
  apply Forall_cons in Hf as [Hb Hf]. injection Hl as Hl. cbn [zip zip_with foldl fst snd].
  destruct (IH values (<[j := v]> result) Hl) as (H1 & H2 & H3); [by rewrite length_insert|].
  rewrite length_insert in H1. split_and!; [done| |].
  - intros i Hi. rewrite H2 by set_solver. apply list_lookup_insert_ne. set_solver.
  - intros [|pos] i w Hi Hw; [|by eapply H3]. injection Hi as ->. injection Hw as ->.
    rewrite H2 by done. by apply list_lookup_insert_eq.
Qed.

Lemma row_numbers_lookup n pos : (pos < n)%nat -> row_numbers n !! pos = Some (Int64 (Z.of_nat pos + 1)).
Proof. intros Hp. unfold row_numbers. rewrite list_lookup_fmap, lookup_seq_lt by done. done. Qed.

(** A place in the window: before in its order, or equal there and before in the rows. *)
Definition precedes (c : row -> row -> comparison) (rows : list row) (i j : nat) : Prop :=
  match rows !! i, rows !! j with
  | Some a, Some b => c a b = Lt \/ c a b = Eq /\ (i < j)%nat
  | _, _ => False
  end.

(** Rows that the comparison orders totally give indices that are ordered totally. *)
Lemma sort_part order_by schema (rows : list row) c part :
  (forall a b, a ∈ rows -> b ∈ rows -> compare_rows env order_by schema a b = Ok (c a b)) -> total_order c rows ->
  StronglySorted lt part -> Forall (fun i => (i < length rows)%nat) part ->
  exists sorted, slice_sort (compare_indices env order_by schema rows) part = Ok sorted /\ sorted ≡ₚ part /\
    StronglySorted (precedes c rows) sorted.
Proof.
  intros Hc [Hop Htr] Hinc Hb. rewrite Forall_forall in Hb.
  set (row_at := fun i => default [] (rows !! i)). set (d := fun i j => c (row_at i) (row_at j)).
  assert (Hrow : forall i, i ∈ part -> rows !! i = Some (row_at i) /\ row_at i ∈ rows).
  { intros i Hi. destruct (lookup_lt_is_Some_2 rows i (Hb i Hi)) as [r Hr]. unfold row_at. rewrite Hr. split; [done|by eapply list_elem_of_lookup_2]. }
  assert (Ht : total_order d part).
  { split; intros; [apply Hop|eapply Htr; [..|done|done]]; by apply Hrow. }
  exists (sort_by (fun a b => not_gt (d a b)) part). split_and!; [|apply sort_by_perm|].
  - apply slice_sort_total; [|done]. intros i j Hi Hj. destruct (Hrow i Hi) as [Ei Hri], (Hrow j Hj) as [Ej Hrj].
    unfold compare_indices. rewrite Ei, Ej. cbn [or_panic]. rewrite !bind_ok. by apply Hc.
  - assert (Hin : forall i, i ∈ sort_by (fun a b => not_gt (d a b)) part -> i ∈ part) by (intros i; by rewrite sort_by_perm).
    pose proof (sort_by_stable d lt part Ht Hinc) as Hs. revert Hs Hin. generalize (sort_by (fun a b => not_gt (d a b)) part). intros l Hs Hin.
    induction Hs as [|i l Hs IH Hi]; constructor; [apply IH; intros; apply Hin; by right|]. apply Forall_forall. intros j Hj.
    rewrite Forall_forall in Hi. unfold precedes. destruct (Hrow i (Hin i ltac:(left))) as [-> _], (Hrow j (Hin j ltac:(by right))) as [-> _]. by apply Hi.
Qed.

Lemma window_partitions_spec args order_by schema rows c parts result :
  (forall a b, a ∈ rows -> b ∈ rows -> compare_rows env order_by schema a b = Ok (c a b)) -> total_order c rows ->
  Forall (fun p => StronglySorted lt p.2) parts ->
  NoDup (concat (map snd parts)) -> length result = length rows -> Forall (fun i => (i < length rows)%nat) (concat (map snd parts)) ->
  exists g values, window_partitions env (text "ROW_NUMBER") args order_by schema rows parts result = Ok values /\
    map fst g = map fst parts /\ Forall2 (fun p q => p.2 ≡ₚ q.2) g parts /\ length values = length result /\
    (forall i, i ∉ concat (map snd parts) -> values !! i = result !! i) /\
    Forall (fun p => StronglySorted (precedes c rows) p.2 /\
      forall pos i, p.2 !! pos = Some i -> values !! i = Some (Int64 (Z.of_nat pos + 1))) g.
Proof.
  intros Hc Ht Hi. revert result. induction Hi as [|[k part] parts Hpart Hi IH]; intros result Hn Hlen Hb; cbn [map concat snd window_partitions] in *.
  { exists [], result. by split_and!. }
  apply NoDup_app in Hn as (Hn1 & Hdis & Hn2). apply Forall_app in Hb as [Hb1 Hb2].
  destruct (sort_part order_by schema rows c part Hc Ht Hpart Hb1) as (sorted & -> & Hp & Hs). rewrite bind_ok. unfold window_values.
  rewrite bool_decide_eq_true_2, bind_ok by done.
  destruct (assign_spec sorted (row_numbers (length sorted)) result) as (H1 & H2 & H3);
    [by rewrite Hp|by unfold row_numbers; rewrite length_fmap, length_seq|by rewrite Hp, Hlen|].
  set (result1 := assign _ _ result) in *.
  destruct (IH result1) as (g & values & -> & Hg1 & Hg2 & Hl & Hout & Hin); [done|congruence|done|].
  exists ((k, sorted) :: g), values. split_and!; [done|by cbn; rewrite Hg1|by constructor|congruence| |].
  - intros i Hni. rewrite Hout, H2; [done|rewrite Hp; set_solver|set_solver].
  - constructor; [|done]. cbn [snd]. split; [done|].
    intros pos i Hpos. rewrite Hout, (H3 _ _ _ Hpos (row_numbers_lookup _ _ (lookup_lt_Some _ _ _ Hpos))); [done|].
    apply Hdis. rewrite <- Hp. by eapply list_elem_of_lookup_2.
Qed.

Lemma indexed_forall {A} (P : nat -> A -> Prop) l : (forall i x, l !! i = Some x -> P i x) -> Forall (fun ix => P ix.1 ix.2) (indexed l).
Proof.
  intros HP. apply Forall_forall. intros [i x] Hi. apply HP. unfold indexed in Hi.
  apply list_elem_of_lookup in Hi as [k Hk]. apply lookup_zip_with_Some in Hk as (a & b & [= -> ->] & Ha & Hb).
  by apply lookup_seq in Ha as [-> _].
Qed.

Lemma indexed_fst {A} (l : list A) : map fst (indexed l) = seq 0 (length l).
Proof. unfold indexed. apply fst_zip. by rewrite length_seq. Qed.

(** Sorting the members of the groups keeps what the groups are. *)
Lemma group_ok_sorted {A} (ki : A -> list Value) g parts : map fst g = map fst parts -> Forall2 (fun p q => p.2 ≡ₚ q.2) g parts ->
  Forall (group_ok ki) parts -> Forall (group_ok ki) g.
Proof.
  intros Hf Hp. revert Hf. induction Hp as [|[k l] [k' l'] g parts Hl Hp IH]; cbn; intros Hf Hg; [done|]. injection Hf as -> Hf.
  cbn [fst snd] in *. apply Forall_cons in Hg as [[Hne Hk] Hg]. constructor; [|by apply IH]. split; cbn [fst snd] in *; [|by rewrite Hl].
  intros ->. apply Hne, Permutation_nil, Hl.
Qed.

Lemma concat_perm {A} (g parts : list (list Value * list A)) : Forall2 (fun p q => p.2 ≡ₚ q.2) g parts ->
  concat (map snd g) ≡ₚ concat (map snd parts).
Proof. induction 1 as [|p q g parts Hl Hp IH]; cbn; [done|]. by rewrite Hl, IH. Qed.

Lemma distinct_keys_fst {A} (g parts : list (list Value * list A)) : map fst g = map fst parts -> distinct_keys parts -> distinct_keys g.
Proof.
  unfold distinct_keys. intros Hf Hd. revert g Hf. induction Hd as [|p parts Hp Hd IH]; intros [|q g] Hf; try done; [constructor|].
  injection Hf as Hq Hf. constructor; [|by apply IH]. rewrite Hq.
  assert (Ha : Forall (fun k => key_eq p.1 k = false) (map fst parts)) by (change (map fst parts) with (fst <$> parts); by rewrite Forall_fmap).
  rewrite <- Hf in Ha. change (map fst g) with (fst <$> g) in Ha. by rewrite Forall_fmap in Ha.
Qed.
End RowNumber.

(** C23: [ROW_NUMBER] numbers the rows of each partition from one in the order of the window,
    when the partition expressions evaluate and the order expressions order the rows
    totally (no NULL or NaN among values that differ, say).  The function returns; the rows
    fall into groups by the partition expressions; every group is in the order of the
    window, rows that are equal there in the order they came in; and a row's number is its
    place in its group.  Of the sort only what the standard library promises is used. *)
Theorem row_number_spec `{SliceSort} `{UnicodeCase} env args partition_by order_by schema keys c rows :
  Forall (has_key env partition_by schema keys) rows ->
  (forall a b, a ∈ rows -> b ∈ rows -> compare_rows env order_by schema a b = Ok (c a b)) -> total_order c rows ->
  exists g values,
    compute_window_function env (Ast.WindowFunc (text "ROW_NUMBER") args partition_by order_by) schema rows = Ok values /\
    length values = length rows /\ concat (map snd g) ≡ₚ seq 0 (length rows) /\
    Forall (group_ok (key_at keys rows)) g /\ distinct_keys g /\
    Forall (fun p => StronglySorted (precedes c rows) p.2 /\
      forall pos i, p.2 !! pos = Some i -> values !! i = Some (Int64 (Z.of_nat pos + 1))) g.
Proof.
  intros Hk Hc Ht. unfold compute_window_function.
  destruct (partition_indices_spec env partition_by schema (key_at keys rows) (indexed rows) []) as (parts & Hparts & Hp & Hg & Hd);
    [|constructor..|].
  { apply (indexed_forall (fun i r => mapM (fun e => eval_or_null env e schema r) partition_by = Ok (key_at keys rows i))). intros i r Hi.
    unfold key_at. rewrite Hi. rewrite Forall_forall in Hk. apply Hk. by eapply list_elem_of_lookup_2. }
  pose proof (partition_indices_increasing env partition_by schema rows 0 [] parts ltac:(constructor) Hparts) as Hinc.
  rewrite Hparts, bind_ok. cbn [map concat app] in Hp. rewrite indexed_fst in Hp.
  destruct (window_partitions_spec env args order_by schema rows c parts (replicate (length rows) Null) Hc Ht Hinc)
    as (g & values & -> & Hg1 & Hg2 & Hl & _ & Hin); [by rewrite Hp; apply NoDup_seq|by rewrite length_replicate| |].
  { rewrite Hp. apply Forall_forall. intros i Hi%elem_of_seq. lia. }
  exists g, values. rewrite length_replicate in Hl. split_and!; [done|done|by rewrite (concat_perm g parts Hg2), Hp| | |done].
  - by eapply group_ok_sorted.
  - by eapply distinct_keys_fst.
Qed.

Section Examples.
#[local] Instance ascii_only : UnicodeCase := ascii_unicode.
#[local] Existing Instance list_slice_sort.
Definition by_city : list Ast.Expr := [Ast.ColumnRef None (text "city")].
Definition by_n : list (Ast.Expr * bool) := [(Ast.ColumnRef None (text "n"), true)].

(** The descending order of the second column. *)
Definition larger_n (a b : row) : comparison :=
  match a !! 1%nat, b !! 1%nat with Some (Int64 m), Some (Int64 n) => Z.compare n m | _, _ => Eq end.

Lemma row_number_spec_witness :
  exists g values,
    compute_window_function env0 (Ast.WindowFunc (text "ROW_NUMBER") [] by_city by_n) sales sales_rows = Ok values /\
    length values = 4%nat /\ concat (map snd g) ≡ₚ seq 0 4 /\
    Forall (group_ok (key_at (take 1) sales_rows)) g /\ distinct_keys g /\
    Forall (fun p => StronglySorted (precedes larger_n sales_rows) p.2 /\
      forall pos i, p.2 !! pos = Some i -> values !! i = Some (Int64 (Z.of_nat pos + 1))) g.
Proof.
  assert (Hin : forall a, a ∈ sales_rows -> a = nth 0 sales_rows [] \/ a = nth 1 sales_rows [] \/ a = nth 2 sales_rows [] \/ a = nth 3 sales_rows []).
  { intros a Ha. repeat (apply elem_of_cons in Ha as [-> |Ha]; [tauto|]). by apply elem_of_nil in Ha. }
  apply (row_number_spec env0 [] by_city by_n sales (take 1) larger_n sales_rows); [by repeat constructor| |].
  - by intros a b [->|[->|[-> | ->]]]%Hin [->|[->|[-> | ->]]]%Hin.
  - split; [by intros a b [->|[->|[-> | ->]]]%Hin [->|[->|[-> | ->]]]%Hin|].
    by intros a b d [->|[->|[-> | ->]]]%Hin [->|[->|[-> | ->]]]%Hin [->|[->|[-> | ->]]]%Hin.
Defined.

(** Two window functions of one name share the first one's column: the second
    [ROW_NUMBER], in descending order, repeats the numbers of the first. *)
Theorem window_functions_share_column :
  let cols := [Ast.ColExpr (Ast.WindowFunc (text "ROW_NUMBER") [] [] [(Ast.ColumnRef None (text "n"), false)]) None;
               Ast.ColExpr (Ast.WindowFunc (text "ROW_NUMBER") [] [] by_n) None] in
  ('(schema, rows) ← apply_window_functions env0 sales sales_rows cols; project env0 cols schema rows) =
  Ok ([text "?column?"; text "?column?"], map (fun n => [Int64 n; Int64 n]) [1; 2; 3; 4]%Z).
Proof. vm_compute. reflexivity. Qed.
End Examples.
End Window.
