(* ===== verification/SqlLexer.v ===== *)
(** * The SQL lexer

    Models [crates/sql/src/lexer.rs].  The lexer state is the part of the input
    from [pos] on, with the line and column counters; a position behind the end,
    which an unterminated block comment leaves, is the empty rest. *)

From Stdlib Require Import Ascii String.
From S2P Require Import Prelude Bytes Strings Float64 SqlToken.

Module Lexer.

(** [Lexer], [lexer.rs]. *)
Record Lexer : Type := mkLexer { rest : list N; line : N; col : N }.

Definition new (input : list N) : Lexer := mkLexer input 1 1.

(** [self.pos += n], which leaves the counters alone. *)
Definition skip (n : nat) (lx : Lexer) : Lexer := mkLexer (drop n (rest lx)) (line lx) (col lx).

(** The counters after [advance] over [ch]. *)
Definition bump (ch : N) (r : list N) (lx : Lexer) : Lexer :=
  if ch =? 10 then mkLexer r (wadd 32 (line lx) 1) 1 else mkLexer r (line lx) (wadd 32 (col lx) 1).

Definition peek (lx : Lexer) : option N := rest lx !! 0%nat.
Definition peek2 (lx : Lexer) : option N := rest lx !! 1%nat.

(** [advance]: the indexing panics at the end of the input. *)
Definition advance (lx : Lexer) : sql_result (N * Lexer) :=
  match rest lx with
  | [] => Panic
  | ch :: r => Ok (ch, bump ch r lx)
  end.

(** ** White space and comments *)

Fixpoint skip_spaces (l : list N) (lx : Lexer) : Lexer :=
  match l with
  | b :: r => if is_space b then skip_spaces r (bump b r lx) else lx
  | [] => lx
  end.

(** The text after the next [*/], or nothing. *)
Fixpoint skip_block (l : list N) : list N :=
  match l with
  | a :: (b :: r') as r => if (a =? 42) && (b =? 47) then r' else skip_block r
  | _ => []
  end.

(** The loop of [skip_whitespace_and_comments]; each round that continues
    consumes input. *)
Fixpoint skip_loop (fuel : nat) (lx : Lexer) : Lexer :=
  match fuel with
  | O => lx
  | S fuel =>
      let lx := skip_spaces (rest lx) lx in
      match rest lx with
      | a :: b :: r =>
          if (a =? 45) && (b =? 45) then
            skip_loop fuel (mkLexer (span (fun b => negb (b =? 10)) (rest lx)).2 (line lx) (col lx))
          else if (a =? 47) && (b =? 42) then
            skip_loop fuel (mkLexer (skip_block r) (line lx) (col lx))
          else lx
      | _ => lx
      end
  end.

Definition skip_whitespace_and_comments (lx : Lexer) : Lexer := skip_loop (S (length (rest lx))) lx.

(** ** Tokens *)

(** The table of [keyword_or_ident]. *)
Definition keywords : list (string * Token) :=
  [("SELECT", KSelect); ("FROM", KFrom); ("WHERE", KWhere); ("JOIN", KJoin); ("ON", KOn);
   ("AS", KAs); ("GROUP", KGroup); ("ORDER", KOrder); ("BY", KBy); ("HAVING", KHaving);
   ("INSERT", KInsert); ("INTO", KInto); ("VALUES", KValues); ("UPDATE", KUpdate); ("SET", KSet);
   ("DELETE", KDelete); ("CREATE", KCreate); ("TABLE", KTable); ("DROP", KDrop); ("ALTER", KAlter);
   ("INDEX", KIndex); ("AND", KAnd); ("OR", KOr); ("NOT", KNot); ("IN", KIn); ("IS", KIs);
   ("NULL", KNull); ("LIKE", KLike); ("BETWEEN", KBetween); ("EXISTS", KExists); ("INNER", KInner);
   ("LEFT", KLeft); ("RIGHT", KRight); ("FULL", KFull); ("CROSS", KCross); ("OUTER", KOuter);
   ("ASC", KAsc); ("DESC", KDesc); ("LIMIT", KLimit); ("OFFSET", KOffset); ("DISTINCT", KDistinct);
   ("ALL", KAll); ("TRUE", KTrue); ("FALSE", KFalse); ("WITH", KWith); ("RECURSIVE", KRecursive);
   ("UNION", KUnion); ("INTERSECT", KIntersect); ("EXCEPT", KExcept); ("CASE", KCase);
   ("WHEN", KWhen); ("THEN", KThen); ("ELSE", KElse); ("END", KEnd); ("CAST", KCast);
   ("PRIMARY", KPrimary); ("KEY", KKey); ("UNIQUE", KUnique); ("REFERENCES", KReferences);
   ("DEFAULT", KDefault); ("CHECK", KCheck); ("IF", KIf); ("BEGIN", KBegin); ("COMMIT", KCommit);
   ("ROLLBACK", KRollback); ("TRANSACTION", KTransaction); ("VACUUM", KVacuum);
   ("ANALYZE", KAnalyze); ("EXPLAIN", KExplain); ("INT", KInt); ("BIGINT", KBigint);
   ("INTEGER", KInteger); ("SMALLINT", KSmallint); ("FLOAT", KFloat); ("DOUBLE", KDouble);
   ("PRECISION", KPrecision); ("BOOL", KBool); ("BOOLEAN", KBoolean); ("TEXT", KText);
   ("VARCHAR", KVarchar); ("CHAR", KChar); ("BYTEA", KBytea); ("TIMESTAMP", KTimestamp);
   ("DATE", KDate); ("TIME", KTime); ("JSON", KJson); ("JSONB", KJsonb); ("VECTOR", KVector);
   ("STORAGE", KStorage); ("COLUMNAR", KColumnar); ("ROW", KRow)]%string.

Section Tokens.
Context `{UnicodeCase}.

Definition keyword_or_ident (word : list N) : Token :=
  match find (fun kt => bool_decide (text kt.1 = to_uppercase word)) keywords with
  | Some kt => kt.2
  | None => Ident word
  end.

(** [scan_ident]: the bytes are tested one by one as Latin-1 characters, and
    [from_utf8(..).unwrap()] panics when they are no text. *)
Definition scan_ident (lx : Lexer) : sql_result (Token * Lexer) :=
  let '(word, r) := span (fun c => is_alphanumeric c || (c =? 95)) (rest lx) in
  if utf8_valid word then Ok (keyword_or_ident word, mkLexer r (line lx) (col lx)) else Panic.

Definition scan_number (lx : Lexer) : sql_result (Token * Lexer) :=
  let '(int, r1) := span is_digit (rest lx) in
  let '(dot, frac, r2) := match r1 with
                          | c :: r =>
                              if c =? 46 then let '(frac, r2) := span is_digit r in ([46], frac, r2)
                              else ([], [], r1)
                          | [] => ([], [], r1)
                          end in
  let '(exp, exp_text, r3) := scan_exponent r2 in
  let lx' := mkLexer r3 (line lx) (col lx) in
  let s := int ++ dot ++ frac ++ exp_text in
  if bool_decide (dot = []) && bool_decide (exp = None) then
    match parse_i64 int with
    | Some n => Ok (IntLiteral n, lx')
    | None => Err (ParseErr (mkParseError (line lx) (col lx) (InvalidInteger s)))
    end
  else
    match parse_f64 int frac exp with
    | Some f => Ok (FloatLiteral f, lx')
    | None => Err (ParseErr (mkParseError (line lx) (col lx) (InvalidFloat s)))
    end.

(** The loop of [scan_string] behind the opening quote, on the bytes [l] left in
    [lx]; each byte is pushed as a character. *)
Fixpoint scan_string_loop (s l : list N) (lx : Lexer) : sql_result (list N * Lexer) :=
  match l with
  | [] => Err (ParseErr (mkParseError (line lx) (col lx) UnterminatedString))
  | ch :: r =>
      let lx := bump ch r lx in
      if ch =? 39 then
        match r with
        | q :: r' => if q =? 39 then scan_string_loop (s ++ [39]) r' (bump 39 r' lx) else Ok (s, lx)
        | [] => Ok (s, lx)
        end
      else scan_string_loop (s ++ latin1 ch) r lx
  end.

Definition scan_string (lx : Lexer) : sql_result (Token * Lexer) :=
  let lx := skip 1 lx in
  '(s, lx) ← scan_string_loop [] (rest lx) lx; Ok (StringLiteral s, lx).

Fixpoint scan_quoted_loop (s l : list N) (lx : Lexer) : sql_result (list N * Lexer) :=
  match l with
  | [] => Err (ParseErr (mkParseError (line lx) (col lx) UnterminatedQuotedIdent))
  | ch :: r =>
      let lx := bump ch r lx in
      if ch =? 34 then Ok (s, lx) else scan_quoted_loop (s ++ latin1 ch) r lx
  end.

Definition scan_quoted_ident (lx : Lexer) : sql_result (Token * Lexer) :=
  let lx := skip 1 lx in
  '(s, lx) ← scan_quoted_loop [] (rest lx) lx; Ok (QuotedIdent s, lx).

(** [if self.peek() == Some(c) { self.advance(); Ok(t) } else { .. }]. *)
Definition if_next (c : N) (lx : Lexer) (t : Token) (otherwise : sql_result (Token * Lexer))
    : sql_result (Token * Lexer) :=
  if bool_decide (peek lx = Some c) then '(_, lx) ← advance lx; Ok (t, lx) else otherwise.

Definition lex_err {A} (lx : Lexer) (m : Message) : sql_result A :=
  Err (ParseErr (mkParseError (line lx) (col lx) m)).

Definition scan_operator (lx : Lexer) : sql_result (Token * Lexer) :=
  '(ch, lx) ← advance lx;
  match ch with
  | 43 => Ok (Plus, lx)
  | 42 => Ok (TStar, lx)
  | 37 => Ok (Percent, lx)
  | 94 => Ok (Caret, lx)
  | 44 => Ok (Comma, lx)
  | 59 => Ok (Semicolon, lx)
  | 40 => Ok (LeftParen, lx)
  | 41 => Ok (RightParen, lx)
  | 91 => Ok (LeftBracket, lx)
  | 93 => Ok (RightBracket, lx)
  | 46 => Ok (Dot, lx)
  | 61 => Ok (TEq, lx)
  | 33 => if_next 61 lx TNotEq (lex_err lx (ExpectedAfter 61 33))
  | 60 =>
      match peek lx with
      | Some 61 => '(_, lx) ← advance lx; Ok (TLtEq, lx)
      | Some 62 => '(_, lx) ← advance lx; Ok (TNotEq, lx)
      | Some 45 =>
          if bool_decide (peek2 lx = Some 62) then
            '(_, lx) ← advance lx; '(_, lx) ← advance lx; Ok (TVectorDist, lx)
          else Ok (TLt, lx)
      | Some 64 => '(_, lx) ← advance lx; Ok (ContainedBy, lx)
      | _ => Ok (TLt, lx)
      end
  | 62 => if_next 61 lx TGtEq (Ok (TGt, lx))
  | 45 =>
      match peek lx with
      | Some 62 =>
          if bool_decide (peek2 lx = Some 62) then
            '(_, lx) ← advance lx; '(_, lx) ← advance lx; Ok (DoubleArrow, lx)
          else '(_, lx) ← advance lx; Ok (Arrow, lx)
      | _ => Ok (Minus, lx)
      end
  | 47 => Ok (Slash, lx)
  | 58 => if_next 58 lx DoubleColon (Ok (Colon, lx))
  | 124 => if_next 124 lx TConcat (lex_err lx (UnexpectedChar 124))
  | 64 => if_next 62 lx Contains (lex_err lx (ExpectedAfter 62 64))
  | 63 => Ok (QuestionMark, lx)
  | 35 => if_next 62 lx HashArrow (lex_err lx (ExpectedAfter 62 35))
  | other => lex_err lx (UnexpectedChar other)
  end.

Definition next_token (lx : Lexer) : sql_result (Token * Lexer) :=
  let lx := skip_whitespace_and_comments lx in
  match rest lx with
  | [] => Ok (EOF, lx)
  | ch :: _ =>
      if is_letter ch || (ch =? 95) then scan_ident lx
      else if is_digit ch then scan_number lx
      else if ch =? 39 then scan_string lx
      else if ch =? 34 then scan_quoted_ident lx
      else scan_operator lx
  end.

(** The loop of [tokenize]; every token but [EOF] consumes input, so that a fuel
    of one more than the length of the input is never used up. *)
Fixpoint tokenize_loop (fuel : nat) (tokens : list Token) (lx : Lexer) : sql_result (list Token) :=
  match fuel with
  | O => Panic
  | S fuel =>
      '(tok, lx) ← next_token lx;
      if bool_decide (tok = EOF) then Ok (tokens ++ [tok]) else tokenize_loop fuel (tokens ++ [tok]) lx
  end.

Definition tokenize (input : list N) : sql_result (list Token) :=
  tokenize_loop (S (length input)) [] (new input).

(** ** Progress

    What is left behind a token is a proper suffix of the input. *)

Lemma bump_rest ch r lx : rest (bump ch r lx) = r.
Proof. unfold bump. by destruct (ch =? 10). Qed.

Lemma skip_spaces_suffix l lx : rest lx = l -> rest (skip_spaces l lx) `suffix_of` l.
Proof.
  revert lx. induction l as [|b l IH]; cbn; intros lx Hl; [by rewrite Hl|].
  destruct (is_space b); [|by rewrite Hl]. apply suffix_cons_r, IH, bump_rest.
Qed.

Lemma skip_block_suffix l : skip_block l `suffix_of` l.
Proof.
  induction l as [|a l IH]; cbn [skip_block]; [done|]. destruct l as [|b l]; [apply suffix_nil|].
  destruct (_ && _); [by do 2 apply suffix_cons_r|by apply suffix_cons_r].
Qed.

Lemma skip_loop_suffix n lx : rest (skip_loop n lx) `suffix_of` rest lx.
Proof.
  revert lx. induction n as [|n IH]; intros lx; [done|]. cbn [skip_loop].
  pose proof (skip_spaces_suffix (rest lx) lx eq_refl) as Hs. set (lx1 := skip_spaces _ _) in *.
  destruct (rest lx1) as [|a [|b r]] eqn:Hr; [by rewrite Hr..|].
  destruct (_ && _); [|destruct (_ && _)]; [| |by rewrite Hr]; (etransitivity; [apply IH|]); cbn [rest].
  - etransitivity; [apply span_suffix|done].
  - etransitivity; [apply skip_block_suffix|]. etransitivity; [|exact Hs]. by do 2 apply suffix_cons_r.
Qed.

Lemma scan_exponent_suffix r : (scan_exponent r).2 `suffix_of` r.
Proof.
  unfold scan_exponent. destruct r as [|c r1]; [done|]. destruct (_ || _); [|done]. apply suffix_cons_r.
  destruct r1 as [|s r2]; [done|]. destruct ((s =? 43) || (s =? 45)).
  - pose proof (span_suffix is_digit r2). destruct (span is_digit r2). by apply suffix_cons_r.
  - pose proof (span_suffix is_digit (s :: r2)). by destruct (span is_digit (s :: r2)).
Qed.

Lemma scan_string_suffix l s lx s' lx' : rest lx = l ->
  scan_string_loop s l lx = Ok (s', lx') -> rest lx' `suffix_of` l.
Proof.
  remember (length l) as n eqn:Hn. assert (Hle : (length l <= n)%nat) by lia. clear Hn.
  revert l s lx Hle. induction n as [|n IH]; intros l s lx Hle Hr Hs.
  - destruct l; [done|cbn in Hle; lia].
  - destruct l as [|ch r]; [done|]. cbn [scan_string_loop length] in *. apply suffix_cons_r.
    destruct (ch =? 39); [|apply IH in Hs; [done|lia|apply bump_rest]].
    destruct r as [|q r']; [simplify_eq; by rewrite bump_rest|].
    destruct (q =? 39); [|simplify_eq; by rewrite bump_rest].
    apply IH in Hs; [by apply suffix_cons_r|cbn in *; lia|apply bump_rest].
Qed.

Lemma scan_quoted_suffix l s lx s' lx' : rest lx = l ->
  scan_quoted_loop s l lx = Ok (s', lx') -> rest lx' `suffix_of` l.
Proof.
  revert s lx. induction l as [|ch r IH]; intros s lx Hr Hs; [done|]. cbn [scan_quoted_loop] in *.
  apply suffix_cons_r. destruct (ch =? 34); [simplify_eq; by rewrite bump_rest|].
  apply IH in Hs; [done|apply bump_rest].
Qed.

Lemma scan_string_no_panic l s lx : scan_string_loop s l lx <> Panic.
Proof.
  remember (length l) as n eqn:Hn. assert (Hle : (length l <= n)%nat) by lia. clear Hn.
  revert l s lx Hle. induction n as [|n IH]; intros [|ch r] s lx Hle; try done; [cbn in Hle; lia|].
  cbn [scan_string_loop length] in *. destruct (ch =? 39); [|apply IH; lia].
  destruct r as [|q r']; [done|]. destruct (q =? 39); [apply IH; cbn in *; lia|done].
Qed.

Lemma scan_quoted_no_panic l s lx : scan_quoted_loop s l lx <> Panic.
Proof.
  revert s lx. induction l as [|ch r IH]; intros s lx; [done|]. cbn [scan_quoted_loop].
  by destruct (ch =? 34).
Qed.

(** A scanner that starts at [ch :: r]: it yields a token other than [EOF] and a
    rest within [r], or an error. *)
Definition scans (r : list N) (m : sql_result (Token * Lexer)) : Prop :=
  match m with
  | Ok (t, lx') => t <> EOF /\ rest lx' `suffix_of` r
  | Err _ => True
  | Panic => False
  end.

Lemma keyword_not_eof w : keyword_or_ident w <> EOF.
Proof.
  unfold keyword_or_ident. destruct (find _ _) as [kt|] eqn:E; [|done]. apply find_some in E as [Hin _].
  assert (Hk : Forall (fun kt => kt.2 <> EOF) keywords) by (apply (bool_decide_unpack _); by vm_compute).
  by apply (proj1 (List.Forall_forall _ _) Hk).
Qed.

Lemma scan_ident_scans ch r lx : rest lx = ch :: r -> is_ascii (ch :: r) = true ->
  is_letter ch || (ch =? 95) = true -> scans r (scan_ident lx).
Proof.
  intros Hr Ha Hc. unfold scan_ident. set (p := fun c => is_alphanumeric c || (c =? 95)).
  assert (Hp : p ch = true).
  { unfold p, is_alphanumeric. apply orb_true_iff in Hc as [Hc|Hc]; rewrite Hc; by rewrite ?orb_true_r. }
  rewrite Hr. pose proof (span_cons_suffix p ch r Hp) as Hs. pose proof (span_app p (ch :: r)) as Happ.
  destruct (span p (ch :: r)) as [w r']. cbn [fst snd] in *.
  rewrite <- Happ, is_ascii_app in Ha. apply andb_prop in Ha as [Hw _]. rewrite (utf8_ascii w Hw).
  split; [apply keyword_not_eof|done].
Qed.

Lemma scan_number_scans ch r lx : rest lx = ch :: r -> is_digit ch = true -> scans r (scan_number lx).
Proof.
  intros Hr Hc. unfold scan_number. rewrite Hr. pose proof (span_cons_suffix is_digit ch r Hc) as Hs.
  destruct (span is_digit (ch :: r)) as [int r1]. cbn [snd] in Hs.
  set (fr := match r1 with [] => _ | _ => _ end).
  assert (Hf : fr.2 `suffix_of` r1).
  { unfold fr. destruct r1 as [|c r1]; [done|]. destruct (c =? 46); [|done].
    pose proof (span_suffix is_digit r1). destruct (span is_digit r1). by apply suffix_cons_r. }
  destruct fr as [[dot frac] r2]. pose proof (scan_exponent_suffix r2) as He.
  destruct (scan_exponent r2) as [[exp et] r3]. cbn [snd] in *.
  assert (H3 : r3 `suffix_of` r) by (repeat (etransitivity; [eassumption|]); done).
  destruct (_ && _).
  - by destruct (parse_i64 int).
  - by destruct (parse_f64 int frac exp).
Qed.

Lemma advance_cons lx ch r : rest lx = ch :: r -> advance lx = Ok (ch, bump ch r lx).
Proof. unfold advance. by intros ->. Qed.

Lemma peek_Some lx c : peek lx = Some c -> exists r, rest lx = c :: r.
Proof. unfold peek. destruct (rest lx) as [|x l]; cbn; [done|]. intros [= ->]. eauto. Qed.

Lemma if_next_scans c lx t m : t <> EOF -> scans (rest lx) m -> scans (rest lx) (if_next c lx t m).
Proof.
  intros Ht Hm. unfold if_next. case_bool_decide as Hp; [|done]. apply peek_Some in Hp as [r Hr].
  rewrite (advance_cons lx c r Hr), Hr. split; [done|]. rewrite bump_rest. by apply suffix_cons_r.
Qed.

(** Two characters behind the first one of an operator. *)
Lemma take_next_scans lx c t : peek lx = Some c -> t <> EOF ->
  scans (rest lx) ('(_, lx) ← advance lx; Ok (t, lx)).
Proof.
  intros [r Hr]%peek_Some Ht. rewrite (advance_cons lx c r Hr), Hr. split; [done|].
  rewrite bump_rest. by apply suffix_cons_r.
Qed.

Lemma take_two_scans lx c d t : peek lx = Some c -> peek2 lx = Some d -> t <> EOF ->
  scans (rest lx) ('(_, lx) ← advance lx; '(_, lx) ← advance lx; Ok (t, lx)).
Proof.
  intros [r Hr]%peek_Some Hd Ht. unfold peek2 in Hd. rewrite Hr in Hd.
  destruct r as [|d' r]; cbn in Hd; [done|]. injection Hd as ->.
  rewrite (advance_cons lx c (d :: r) Hr), Hr. cbn [mbind outcome_bind].
  rewrite (advance_cons (bump c (d :: r) lx) d r) by apply bump_rest. split; [done|].
  rewrite bump_rest. by do 2 apply suffix_cons_r.
Qed.

Lemma scan_operator_scans ch r lx : rest lx = ch :: r -> scans r (scan_operator lx).
Proof.
  intros Hr. unfold scan_operator. rewrite (advance_cons lx ch r Hr). cbn [mbind outcome_bind].
  pose proof (bump_rest ch r lx) as Hb. set (lx1 := bump ch r lx) in *. clearbody lx1. subst r.
  repeat case_match; try done; try (by apply if_next_scans); try (by eapply take_next_scans);
    try (eapply take_two_scans; [eassumption|eapply bool_decide_eq_true_1; eassumption|done]).
Qed.

Lemma next_token_ok lx : is_ascii (rest lx) = true ->
  match next_token lx with
  | Ok (t, lx') => rest lx' `suffix_of` rest lx /\ (t <> EOF -> (length (rest lx') < length (rest lx))%nat)
  | Err _ => True
  | Panic => False
  end.
Proof.
  intros Ha. unfold next_token. pose proof (skip_loop_suffix (S (length (rest lx))) lx) as Hs.
  fold (skip_whitespace_and_comments lx) in Hs. set (lx1 := skip_whitespace_and_comments lx) in *.
  clearbody lx1. pose proof (is_ascii_suffix _ _ Hs Ha) as Ha1.
  destruct (rest lx1) as [|ch r] eqn:Hr; [by rewrite Hr|].
  assert (Hok : forall m, scans r m -> match m with
    | Ok (t, lx') => rest lx' `suffix_of` rest lx /\ (t <> EOF -> (length (rest lx') < length (rest lx))%nat)
    | Err _ => True | Panic => False end).
  { intros [[t lx']| |]; cbn; try done. intros [Ht Hx].
    assert (rest lx' `suffix_of` ch :: r) by (by apply suffix_cons_r).
    split; [by etransitivity|]. intros _. apply suffix_length in Hx, Hs. cbn in Hs. lia. }
  destruct (is_letter ch || (ch =? 95)) eqn:E1; [by apply Hok, (scan_ident_scans ch)|].
  destruct (is_digit ch) eqn:E2; [by apply Hok, (scan_number_scans ch)|].
  destruct (ch =? 39); [|destruct (ch =? 34); [|by apply Hok, (scan_operator_scans ch)]]; apply Hok.
  - unfold scan_string, skip. cbn [rest line col]. rewrite Hr. change (drop 1 (ch :: r)) with r.
    destruct (scan_string_loop _ _ _) as [[s lx']| |] eqn:E; cbn; [|done|by apply scan_string_no_panic in E].
    split; [done|]. eapply scan_string_suffix, E; reflexivity.
  - unfold scan_quoted_ident, skip. cbn [rest line col]. rewrite Hr. change (drop 1 (ch :: r)) with r.
    destruct (scan_quoted_loop _ _ _) as [[s lx']| |] eqn:E; cbn; [|done|by apply scan_quoted_no_panic in E].
    split; [done|]. eapply scan_quoted_suffix, E; reflexivity.
Qed.

Lemma tokenize_loop_ok n acc lx : is_ascii (rest lx) = true -> (length (rest lx) < n)%nat ->
  match tokenize_loop n acc lx with
  | Ok ts => exists ts', ts = acc ++ ts' ++ [EOF] /\ (EOF ∉ ts') /\ (length ts' <= length (rest lx))%nat
  | Err _ => True
  | Panic => False
  end.
Proof.
  revert acc lx. induction n as [|n IH]; intros acc lx Ha Hn; [lia|]. cbn [tokenize_loop].
  pose proof (next_token_ok lx Ha) as Ht. destruct (next_token lx) as [[t lx']| |]; [|done|done].
  cbn [mbind outcome_bind]. destruct Ht as [Hs Hlt]. case_bool_decide as He.
  - exists []. subst t. split_and!; [done|apply not_elem_of_nil|cbn; lia].
  - specialize (IH (acc ++ [t]) lx' (is_ascii_suffix _ _ Hs Ha)). specialize (Hlt He).
    destruct (tokenize_loop n (acc ++ [t]) lx') as [ts| |]; [|done|apply IH; lia].
    destruct IH as (ts' & -> & Hx & Hl); [lia|]. exists (t :: ts').
    rewrite <- app_assoc. split_and!; [done|apply not_elem_of_cons; split; [congruence|done]|cbn; lia].
Qed.

(** The lexer terminates on every ASCII text with a token list that ends in
    the only [EOF] and is at most one longer than the text, or with a parse
    error: it does not panic and its loop does not run on. *)
Theorem tokenize_terminates input : is_ascii input = true ->
  match tokenize input with
  | Ok ts => exists ts', ts = ts' ++ [EOF] /\ (EOF ∉ ts') /\ (length ts' <= length input)%nat
  | Err _ => True
  | Panic => False
  end.
Proof.
  intros Ha. unfold tokenize. pose proof (tokenize_loop_ok (S (length input)) [] (new input) Ha) as H0.
  cbn [new rest] in H0. destruct (tokenize_loop _ _ _) as [ts| |]; [|done|apply H0; lia].
  destruct H0 as (ts' & -> & Hr); [lia|]. by exists ts'.
Qed.

(** An identifier with a letter outside ASCII stops the process.  The bytes of
    a UTF-8 sequence are tested one by one as Latin-1 characters: in [SELECT aé]
    the first byte of the last letter counts as a letter and the second does not,
    so the identifier ends inside the sequence and [from_utf8(..).unwrap()]
    panics. *)
Theorem tokenize_panics_on_utf8 : tokenize (text "SELECT a" ++ [195; 169]) = Panic.
Proof. vm_compute. done. Qed.

(** A string literal with a letter outside ASCII is changed: its bytes are
    pushed as characters, so the two bytes of [é] become the four bytes of two
    letters. *)
Theorem tokenize_garbles_utf8 :
  tokenize ([39] ++ [195; 169] ++ [39]) = Ok [StringLiteral [195; 131; 194; 169]; EOF].
Proof. vm_compute. done. Qed.

End Tokens.

#[local] Instance ascii_only : UnicodeCase := ascii_unicode.

Lemma tokenize_terminates_witness :
  match tokenize (text "SELECT a -- b") with
  | Ok ts => exists ts', ts = ts' ++ [EOF] /\ (EOF ∉ ts') /\ (length ts' <= 13)%nat
  | Err _ => True
  | Panic => False
  end.
Proof. apply (tokenize_terminates (text "SELECT a -- b")). vm_compute. reflexivity. Defined.

End Lexer.
