(* ===== verification/SqlTokenText.v ===== *)
(** * Token texts

    A printer for token lists, and that the lexer of [SqlLexer.v] reads back what
    it prints.  The printer is a specification device: the program itself only
    reads SQL. *)

From Stdlib Require Import Ascii String.
From S2P Require Import Prelude Bytes Strings Float64 SqlToken SqlLexer.

Module TokenText.
Import Lexer.

(** ** The printer *)

(** A quote inside a string literal is doubled. *)
Fixpoint escape (s : list N) : list N :=
  match s with
  | [] => []
  | b :: s => if b =? 39 then 39 :: 39 :: escape s else b :: escape s
  end.

Definition operator_text (t : Token) : option string :=
  match t with
  | Plus => Some "+" | Minus => Some "-" | TStar => Some "*" | Slash => Some "/"
  | Percent => Some "%" | Caret => Some "^"
  | TEq => Some "=" | TNotEq => Some "<>" | TLt => Some "<" | TGt => Some ">"
  | TLtEq => Some "<=" | TGtEq => Some ">="
  | Arrow => Some "->" | DoubleArrow => Some "->>" | TVectorDist => Some "<->"
  | Contains => Some "@>" | ContainedBy => Some "<@"
  | DoubleColon => Some "::" | TConcat => Some "||" | QuestionMark => Some "?" | HashArrow => Some "#>"
  | Dot => Some "." | Comma => Some "," | Semicolon => Some ";" | Colon => Some ":"
  | LeftParen => Some "(" | RightParen => Some ")" | LeftBracket => Some "[" | RightBracket => Some "]"
  | _ => None
  end%string.

Definition keyword_text (t : Token) : option string :=
  fst <$> find (fun kt => bool_decide (kt.2 = t)) keywords.

Definition print_token (t : Token) : list N :=
  match t with
  | IntLiteral n => Z_to_string n
  | StringLiteral s => 39 :: escape s ++ [39]
  | Ident s => s
  | QuotedIdent s => 34 :: s ++ [34]
  | _ =>
      match operator_text t with
      | Some s => text s
      | None => match keyword_text t with Some s => text s | None => [] end
      end
  end.

(** A space before every token. *)
Definition print_tokens (ts : list Token) : list N := t ← ts; 32 :: print_token t.

Definition ident_start (b : N) : bool := is_letter b || (b =? 95).
Definition ident_byte (b : N) : bool := is_alphanumeric b || (b =? 95).

Section Text.
Context `{UnicodeCase}.

(** The tokens with a text: no negative or overlong integers, no [f64], ASCII
    strings and names, names that are not keywords. *)
Definition printable (t : Token) : bool :=
  match t with
  | IntLiteral n => (0 <=? n)%Z && (n <? 2 ^ 63)%Z
  | FloatLiteral _ => false
  | StringLiteral s => is_ascii s
  | Ident s =>
      is_ascii s && forallb ident_byte s && bool_decide (keyword_or_ident s = Ident s) &&
      match s with b :: _ => ident_start b | [] => false end
  | QuotedIdent s => is_ascii s && forallb (fun b => negb (b =? 34)) s
  | EOF | KNot_ | KNull_ => false
  | _ => true
  end.

(** ** Reading a token back *)

(** What may follow a token's text. *)
Definition ends (r : list N) : Prop :=
  match r with
  | [] => True
  | b :: _ => b = 32
  end.

Lemma span_exact p a r : Forall (fun b => p b = true) a -> p 32 = false -> ends r -> span p (a ++ r) = (a, r).
Proof.
  intros Ha Hp Hr. induction Ha as [|b a Hb Ha IH]; cbn.
  - destruct r as [|x r]; cbn in *; [done|]. by rewrite Hr, Hp.
  - by rewrite Hb, IH.
Qed.

(** Text that is neither white space nor the start of a comment. *)
Definition visible (l : list N) : Prop :=
  match l with
  | [] => False
  | a :: r => is_space a = false /\
      match r with
      | [] => True
      | b :: _ => (a =? 45) && (b =? 45) = false /\ (a =? 47) && (b =? 42) = false
      end
  end.

Lemma skip_to l li co : visible l ->
  skip_whitespace_and_comments (mkLexer (32 :: l) li co) = mkLexer l li (wadd 32 co 1).
Proof.
  intros Hv. destruct l as [|a r]; [done|]. destruct Hv as [Hs Hr].
  unfold skip_whitespace_and_comments. cbn [skip_loop rest skip_spaces]. change (is_space 32) with true.
  cbn beta iota. rewrite Hs. unfold bump. cbn. destruct r as [|b r]; [done|]. destruct Hr as [-> ->]. done.
Qed.

Definition reads (l : list N) (t : Token) (r : list N) : Prop :=
  forall li co, exists li' co', next_token (mkLexer (32 :: l ++ r) li co) = Ok (t, mkLexer r li' co').

Lemma ident_start_plain b : ident_start b = true ->
  is_space b = false /\ (b =? 45) = false /\ (b =? 47) = false /\ ident_byte b = true.
Proof.
  unfold ident_start, ident_byte, is_alphanumeric, is_letter, is_upper, is_lower, in_rng, is_space. intros Hb.
  assert (65 <= b) by (repeat (apply orb_true_iff in Hb as [Hb|Hb]);
    try apply andb_prop in Hb as [?%N.leb_le ?%N.leb_le]; try apply N.eqb_eq in Hb; lia).
  split_and!; [|by apply N.eqb_neq; lia..|].
  - rewrite !(proj2 (N.eqb_neq b _)) by lia. done.
  - apply orb_true_iff in Hb as [->| ->]; by rewrite ?orb_true_r.
Qed.

Lemma read_word b w r : is_ascii (b :: w) = true -> ident_start b = true ->
  Forall (fun c => ident_byte c = true) (b :: w) -> ends r -> reads (b :: w) (keyword_or_ident (b :: w)) r.
Proof.
  intros Ha Hb Hw Hr li co. destruct (ident_start_plain b Hb) as (Hs & H45 & H47 & _).
  exists li, (wadd 32 co 1). unfold next_token. rewrite skip_to.
  - cbn [rest app]. unfold ident_start in Hb. rewrite Hb. unfold scan_ident. cbn [rest].
    fold (ident_byte : N -> bool). change (b :: w ++ r) with ((b :: w) ++ r).
    rewrite (span_exact ident_byte (b :: w) r Hw eq_refl Hr). by rewrite (utf8_ascii _ Ha).
  - cbn. split; [done|]. destruct (w ++ r); [done|]. by rewrite H45, H47.
Qed.

Lemma digit_plain b : is_digit b = true ->
  is_space b = false /\ (b =? 45) = false /\ (b =? 47) = false /\ ident_start b = false.
Proof.
  unfold is_digit, in_rng. intros [?%N.leb_le ?%N.leb_le]%andb_prop.
  unfold ident_start, is_letter, is_upper, is_lower, in_rng, is_space.
  rewrite !(proj2 (N.eqb_neq b _)) by lia. rewrite !(proj2 (N.leb_gt _ b)) by lia. done.
Qed.

Lemma read_int n r : n < 2 ^ 63 -> ends r -> reads (N_to_string n) (IntLiteral (Z.of_N n)) r.
Proof.
  intros Hn Hr li co. destruct (N_to_string_spec n) as (Hv & Hd & Hne).
  destruct (N_to_string n) as [|b w] eqn:E; [done|]. clear Hne E.
  destruct (digit_plain b) as (Hs & H45 & H47 & Hi); [by inversion Hd|].
  exists li, (wadd 32 co 1). unfold next_token. rewrite skip_to.
  - cbn [rest app]. unfold ident_start in Hi. rewrite Hi. rewrite (Forall_inv Hd).
    unfold scan_number. cbn [rest]. change (b :: w ++ r) with ((b :: w) ++ r).
    rewrite (span_exact is_digit (b :: w) r Hd eq_refl Hr).
    assert (Hx : scan_exponent r = (None, [], r)) by (by destruct r as [|x r]; [|cbn in Hr; subst x]).
    destruct r as [|x r]; [|cbn in Hr; subst x]; change (32 =? 46) with false; cbn iota beta; rewrite Hx;
      unfold parse_i64; rewrite Hv;
      rewrite (proj2 (N.ltb_lt _ _) Hn); done.
  - cbn. split; [done|]. destruct (w ++ r); [done|]. by rewrite H45, H47.
Qed.

Lemma drop_1 {A} (x : A) l : drop 1 (x :: l) = l.
Proof. reflexivity. Qed.

Lemma latin1_ascii b : b < 128 -> latin1 b = [b].
Proof. intros Hb. unfold latin1. by rewrite (proj2 (N.ltb_lt _ _) Hb). Qed.

Lemma string_loop_escape s acc r lx : is_ascii s = true -> ends r ->
  rest lx = escape s ++ 39 :: r -> exists li' co',
  scan_string_loop acc (escape s ++ 39 :: r) lx = Ok (acc ++ s, mkLexer r li' co').
Proof.
  revert acc lx. induction s as [|b s IH]; intros acc lx Ha Hr Hx; cbn [escape app scan_string_loop].
  - rewrite app_nil_r. unfold bump. cbn. destruct r as [|x r]; [eauto|]. cbn in Hr. subst x. eauto.
  - cbn in Ha. apply andb_prop in Ha as [Hb%N.ltb_lt Ha]. destruct (N.eqb_spec b 39) as [->|Hne]; cbn [app scan_string_loop].
    + change (39 =? 39) with true. cbn iota beta. edestruct IH as (li' & co' & ->); [done|done|apply bump_rest|].
      rewrite <- app_assoc. eauto.
    + rewrite (proj2 (N.eqb_neq b 39) Hne), latin1_ascii by done.
      edestruct IH as (li' & co' & ->); [done|done|apply bump_rest|]. rewrite <- app_assoc. eauto.
Qed.

Lemma read_string s r : is_ascii s = true -> ends r -> reads (39 :: escape s ++ [39]) (StringLiteral s) r.
Proof.
  intros Ha Hr li co. unfold next_token. cbn [app]. rewrite <- app_assoc. cbn [app].
  rewrite skip_to by (cbn; split; [done|by destruct (escape s)]). cbn [rest]. cbn -[scan_string].
  unfold scan_string, skip. cbn [rest line col]. rewrite drop_1.
  destruct (string_loop_escape s [] r (mkLexer (escape s ++ 39 :: r) li (wadd 32 co 1)))
    as (li' & co' & He); [done|done|done|].
  rewrite He. exists li', co'. done.
Qed.

Lemma quoted_loop_plain s acc r lx : is_ascii s = true -> forallb (fun b => negb (b =? 34)) s = true ->
  rest lx = s ++ 34 :: r -> exists li' co',
  scan_quoted_loop acc (s ++ 34 :: r) lx = Ok (acc ++ s, mkLexer r li' co').
Proof.
  revert acc lx. induction s as [|b s IH]; intros acc lx Ha Hq Hx; cbn [app scan_quoted_loop].
  - rewrite app_nil_r. unfold bump. cbn. eauto.
  - cbn in Ha, Hq. apply andb_prop in Ha as [Hb%N.ltb_lt Ha], Hq as [Hn Hq].
    apply negb_true_iff in Hn. rewrite Hn, latin1_ascii by done.
    edestruct IH as (li' & co' & ->); [done|done|apply bump_rest|]. rewrite <- app_assoc. eauto.
Qed.

Lemma read_quoted s r : is_ascii s = true -> forallb (fun b => negb (b =? 34)) s = true ->
  reads (34 :: s ++ [34]) (QuotedIdent s) r.
Proof.
  intros Ha Hq li co. unfold next_token. cbn [app]. rewrite <- app_assoc. cbn [app].
  rewrite skip_to by (cbn; split; [done|by destruct s]). cbn [rest]. cbn -[scan_quoted_ident].
  unfold scan_quoted_ident, skip. cbn [rest line col]. rewrite drop_1.
  destruct (quoted_loop_plain s [] r (mkLexer (s ++ 34 :: r) li (wadd 32 co 1)))
    as (li' & co' & He); [done|done|done|].
  rewrite He. exists li', co'. done.
Qed.

Lemma read_operator t s r : operator_text t = Some s -> ends r -> reads (text s) t r.
Proof.
  intros Ho Hr li co. unfold next_token.
  destruct t; cbn in Ho; simplify_eq;
    (rewrite skip_to; [cbn [rest]|destruct r as [|x r]; cbn in Hr; subst; done]);
    destruct r as [|x r]; cbn in Hr; subst; do 2 eexists; reflexivity.
Qed.

Lemma keywords_words : Forall (fun kt => keyword_or_ident (text kt.1) = kt.2 /\ is_ascii (text kt.1) = true /\
  forallb ident_byte (text kt.1) = true /\ match text kt.1 with b :: _ => ident_start b = true | [] => False end)
  keywords.
Proof. repeat constructor. Qed.

Lemma read_keyword t s r : keyword_text t = Some s -> ends r -> reads (text s) t r.
Proof.
  unfold keyword_text. destruct (find _ _) as [kt|] eqn:E; cbn; [|done]. intros [= <-] Hr.
  apply find_some in E as [Hin <-%bool_decide_eq_true_1].
  destruct (proj1 (List.Forall_forall _ _) keywords_words kt Hin) as (Hk & Ha & Hf & Hs).
  destruct (text kt.1) as [|b w] eqn:Ht; [done|]. rewrite <- Hk. apply read_word; [done|done| |done].
  apply List.Forall_forall. by apply forallb_forall.
Qed.

Lemma read_token t r : printable t = true -> ends r -> reads (print_token t) t r.
Proof.
  intros Hp Hr.
  destruct (operator_text t) as [s|] eqn:Ho.
  { replace (print_token t) with (text s); [by apply read_operator|]. by destruct t; cbn in Ho |- *; simplify_eq. }
  destruct (keyword_text t) as [s|] eqn:Hk.
  { assert (print_token t = text s) as ->; [|by apply read_keyword].
    destruct t; try (by vm_compute in Hk); cbn -[keyword_text]; by rewrite Hk. }
  destruct t; try discriminate Ho; try discriminate Hp; try (by vm_compute in Hk); clear Ho Hk; cbn in Hp.
  - apply andb_prop in Hp as [H0%Z.leb_le Hn%Z.ltb_lt]. cbn. unfold Z_to_string.
    rewrite (proj2 (Z.ltb_ge n 0)) by lia. replace (IntLiteral n) with (IntLiteral (Z.of_N (Z.to_N n))) by (f_equal; lia).
    apply read_int; [lia|done].
  - by apply read_string.
  - apply andb_prop in Hp as [[[Ha Hf]%andb_prop Hk'%bool_decide_eq_true_1]%andb_prop Hs].
    destruct s as [|b w]; [discriminate Hs|]. cbn [print_token]. rewrite <- Hk'. apply read_word; [done|done| |done].
    apply List.Forall_forall. by apply forallb_forall.
  - apply andb_prop in Hp as [Ha Hq]. by apply read_quoted.
Qed.

Lemma print_tokens_ends ts : ends (print_tokens ts).
Proof. by destruct ts. Qed.

Lemma tokenize_loop_print ts acc n li co : Forall (fun t => printable t = true) ts -> (length ts < n)%nat ->
  tokenize_loop n acc (mkLexer (print_tokens ts) li co) = Ok (acc ++ ts ++ [EOF]).
Proof.
  revert acc n li co. induction ts as [|t ts IH]; intros acc n li co Hp Hn; (destruct n as [|n]; [lia|]).
  - done.
  - apply Forall_cons in Hp as [Ht Hp]. cbn [tokenize_loop].
    destruct (read_token t (print_tokens ts) Ht (print_tokens_ends ts) li co) as (li' & co' & He).
    change (print_tokens (t :: ts)) with (32 :: print_token t ++ print_tokens ts). rewrite He.
    cbn [mbind outcome_bind]. rewrite bool_decide_eq_false_2 by (intros ->; discriminate Ht).
    rewrite IH by (done || (cbn in Hn; lia)). by rewrite <- app_assoc.
Qed.

Lemma print_tokens_length ts : (length ts <= length (print_tokens ts))%nat.
Proof.
  induction ts as [|t ts IH]; [done|]. change (print_tokens (t :: ts)) with ((32 :: print_token t) ++ print_tokens ts).
  rewrite length_app. cbn. lia.
Qed.

Lemma tokenize_print ts : Forall (fun t => printable t = true) ts ->
  tokenize (print_tokens ts) = Ok (ts ++ [EOF]).
Proof.
  intros Hp. unfold tokenize, new. rewrite (tokenize_loop_print ts); [done|done|].
  pose proof (print_tokens_length ts). lia.
Qed.

(** The lexer reads back what the printer writes: every list of keywords,
    names, quoted names, integers, string literals and operators, printed with a
    space before each token, is tokenized to itself followed by [EOF].  Keywords
    are told from names, quotes inside literals are undone, and no two tokens
    run together. *)
Theorem tokenize_print_tokens ts : Forall (fun t => printable t = true) ts ->
  tokenize (print_tokens ts) = Ok (ts ++ [EOF]).
Proof. apply tokenize_print. Qed.

End Text.

#[local] Instance ascii_only : UnicodeCase := ascii_unicode.

Lemma tokenize_print_tokens_witness :
  tokenize (print_tokens [KSelect; Ident (text "a1"); DoubleArrow; StringLiteral (text "it's"); Minus; IntLiteral 10]) =
  Ok [KSelect; Ident (text "a1"); DoubleArrow; StringLiteral (text "it's"); Minus; IntLiteral 10; EOF].
Proof.
  apply (tokenize_print_tokens [KSelect; Ident (text "a1"); DoubleArrow; StringLiteral (text "it's"); Minus; IntLiteral 10]).
  repeat constructor.
Defined.

End TokenText.
