(* ===== verification/SqlParser.v ===== *)
(** * The SQL parser

    Models [crates/sql/src/parser.rs].  A parser method is a function on the
    tokens from [pos] on; reading behind the end gives [EOF], as [peek] and
    [advance] do.  The recursion of the methods is bounded by a fuel that the
    length of the input provides; running out of it is [Panic], which the methods
    themselves never raise. *)

From Stdlib Require Import Ascii String.
From S2P Require Import Prelude Bytes Strings SqlToken SqlLexer SqlAst.

Module Parser.
Import Ast.

Definition parser (A : Type) : Type := list Token -> sql_result (A * list Token).

#[global] Instance parser_ret : MRet parser := fun A a ts => Ok (a, ts).
#[global] Instance parser_bind : MBind parser := fun A B k m ts =>
  match m ts with
  | Ok (a, ts') => k a ts'
  | Err e => Err e
  | Panic => Panic
  end.

(** ** Token stream helpers *)

Definition peek : parser Token := fun ts => Ok (from_option id EOF (head ts), ts).
Definition advance : parser Token := fun ts => Ok (from_option id EOF (head ts), tail ts).
Definition err {A} (m : Message) : parser A := fun _ => Err (ParseErr (parse_error_at m)).

(** [self.peek() == t]. *)
Definition at_token (t : Token) : parser bool := p ← peek; mret (bool_decide (p = t)).

(** [if self.peek() == t { self.advance(); true } else { false }]. *)
Definition eat (t : Token) : parser bool :=
  '(b : bool) ← at_token t; if b then advance;; mret true else mret false.

Definition expect (t : Token) : parser () :=
  p ← peek; if bool_decide (p = t) then advance;; mret () else err (ExpectedGot t p).

Definition keyword_as_ident (t : Token) : option (list N) :=
  match t with
  | KText => Some (text "text")
  | KRow => Some (text "row")
  | _ => None
  end.

Definition expect_ident : parser (list N) :=
  t ← advance;
  match t with
  | Ident s | QuotedIdent s => mret s
  | other => match keyword_as_ident other with
             | Some s => mret s
             | None => err (ExpectedIdentifier other)
             end
  end.

(** [self.expect_ident().unwrap_or(d)]: the token is consumed in both cases. *)
Definition expect_ident_or (d : list N) : parser (list N) := fun ts =>
  match expect_ident ts with
  | Err _ => Ok (d, tail ts)
  | r => r
  end.

(** [matches!(tok, Token::Ident(s) if s.eq_ignore_ascii_case(w))]. *)
Definition is_word (w : string) (t : Token) : bool :=
  match t with
  | Ident s => eq_ignore_ascii_case s (text w)
  | _ => false
  end.

Definition is_ident (t : Token) : bool := match t with Ident _ => true | _ => false end.
Definition is_any_ident (t : Token) : bool := match t with Ident _ | QuotedIdent _ => true | _ => false end.

(** [while self.peek() == &Token::Comma { self.advance(); v.push(item()?) }]. *)
Fixpoint sep_loop {A} (fuel : nat) (item : parser A) (v : list A) : parser (list A) :=
  match fuel with
  | O => fun _ => Panic
  | S fuel =>
      '(c : bool) ← eat Comma;
      if c then x ← item; sep_loop fuel item (v ++ [x]) else mret v
  end.

(** [let mut v = vec![item()?]; while ..]. *)
Definition sep_list {A} (item : parser A) : parser (list A) := fun ts =>
  (x ← item; sep_loop (S (length ts)) item [x]) ts.

(** An optional clause: [if self.peek() == t { self.advance(); Some(p()?) } else { None }]. *)
Definition opt_clause {A} (t : Token) (p : parser A) : parser (option A) :=
  '(b : bool) ← eat t; if b then x ← p; mret (Some x) else mret None.

(** The same with [vec![]] for an absent clause. *)
Definition list_clause {A} (t : Token) (p : parser (list A)) : parser (list A) :=
  '(b : bool) ← eat t; if b then p else mret [].

Definition parse_ident_list : parser (list (list N)) := sep_list expect_ident.

(** ** Data types *)

Definition parse_usize : parser N :=
  t ← advance;
  match t with
  | IntLiteral n => if (0 <=? n)%Z then mret (Z.to_N n) else err (ExpectedPositiveInteger t)
  | other => err (ExpectedPositiveInteger other)
  end.

(** [if self.peek() == LeftParen { .. n .. } else { d }]. *)
Definition parse_length (d : N) : parser N :=
  '(b : bool) ← eat LeftParen;
  if b then n ← parse_usize; expect RightParen;; mret n else mret d.

Definition parse_data_type : parser DataType :=
  t ← advance;
  match t with
  | KBool | KBoolean => mret Boolean
  | KSmallint => mret Int16
  | KInt | KInteger => mret Int32
  | KBigint => mret Int64
  | KFloat => mret Float32
  | KDouble => eat KPrecision;; mret Float64
  | KText => mret TextType
  | KVarchar => n ← parse_length 65535; mret (Varchar n)
  | KChar => n ← parse_length 1; mret (CharType n)
  | KBytea => mret Bytea
  | KTimestamp => mret Timestamp
  | KDate => mret Date
  | KTime => mret Time
  | KJson => mret Json
  | KJsonb => mret Jsonb
  | KVector => expect LeftParen;; n ← parse_usize; expect RightParen;; mret (Vector n)
  | other => err (ExpectedDataType other)
  end.

(** ** Expressions *)

(** [infix_bp]. *)
Definition infix_bp (t : Token) : N * N :=
  match t with
  | KOr => (10, 11)
  | KAnd => (20, 21)
  | KNot => (22, 22)
  | KIs => (30, 30)
  | KBetween => (30, 30)
  | KIn => (30, 30)
  | KLike => (30, 31)
  | Contains => (30, 31)
  | QuestionMark => (30, 31)
  | HashArrow => (30, 31)
  | TEq | TNotEq => (40, 41)
  | TLt | TGt | TLtEq | TGtEq => (50, 51)
  | TConcat => (55, 56)
  | Plus | Minus => (60, 61)
  | Arrow | DoubleArrow => (60, 61)
  | TVectorDist => (60, 61)
  | TStar | Slash | Percent => (70, 71)
  | Caret => (80, 79)
  | _ => (0, 0)
  end.

(** [tok_to_binop]. *)
Definition tok_to_binop (t : Token) : option BinOp :=
  match t with
  | Plus => Some Add
  | Minus => Some Sub
  | TStar => Some Mul
  | Slash => Some Div
  | Percent => Some Mod
  | TEq => Some Eq
  | TNotEq => Some NotEq
  | TLt => Some Lt
  | TGt => Some Gt
  | TLtEq => Some LtEq
  | TGtEq => Some GtEq
  | KAnd => Some And
  | KOr => Some Or
  | KLike => Some Like
  | TConcat => Some Concat
  | Arrow => Some JsonGet
  | DoubleArrow => Some JsonGetText
  | Contains => Some JsonContains
  | QuestionMark => Some JsonKeyExists
  | HashArrow => Some JsonPath
  | TVectorDist => Some VectorDist
  | _ => None
  end.

Section Methods.
Context `{UnicodeCase}.

(** The methods that call [parse_expr] take it as an argument. *)

Definition parse_expr_list (expr : N -> parser Expr) : parser (list Expr) := sep_list (expr 0).

Definition parse_order_item (expr : N -> parser Expr) : parser OrderByItem :=
  e ← expr 0;
  '(d : bool) ← eat KDesc;
  if d then mret (mkOrderByItem e false false)
  else eat KAsc;; mret (mkOrderByItem e true false).

Definition parse_order_by (expr : N -> parser Expr) : parser (list OrderByItem) :=
  sep_list (parse_order_item expr).

(** The arguments of a call, behind the opening parenthesis. *)
Definition parse_args (expr : N -> parser Expr) : parser (list Expr) :=
  '(e : bool) ← at_token RightParen;
  args ← (if e then mret []
          else '(s : bool) ← eat TStar; if s then mret [Star] else parse_expr_list expr);
  expect RightParen;; mret args.

Definition window_functions : list string := ["ROW_NUMBER"; "RANK"; "LAG"; "LEAD"]%string.
Definition is_window (name : list N) : bool := existsb (fun w => bool_decide (name = text w)) window_functions.

(** The two parts of [OVER (..)], and the whole of it behind [OVER]. *)
Definition parse_partition (expr : N -> parser Expr) : parser (list Expr) :=
  p ← peek;
  if is_word "PARTITION" p then advance;; expect KBy;; parse_expr_list expr else mret [].

Definition parse_window_order (expr : N -> parser Expr) : parser (list (Expr * bool)) :=
  '(o : bool) ← eat KOrder;
  if o then
    expect KBy;; items ← parse_order_by expr;
    mret ((fun item => (order_expr item, negb (asc item))) <$> items)
  else mret [].

Definition parse_over (expr : N -> parser Expr) (name : list N) (args : list Expr) : parser Expr :=
  expect LeftParen;;
  partition_by ← parse_partition expr;
  order_by ← parse_window_order expr;
  expect RightParen;;
  mret (WindowFunc name args partition_by order_by).

(** What follows a name in an expression: it is a column, a qualified column, a
    call or a window function. *)
Definition parse_after_name (expr : N -> parser Expr) (name : list N) : parser Expr :=
  '(d : bool) ← eat Dot;
  if d then
    c ← expect_ident;
    '(l : bool) ← eat LeftParen;
    if l then
      args ← parse_args expr;
      mret (FunctionCall (to_uppercase name ++ text "." ++ to_uppercase c) args false)
    else mret (ColumnRef (Some name) c)
  else
    '(l : bool) ← eat LeftParen;
    if l then
      args ← parse_args expr;
      let uname := to_uppercase name in
      p ← peek;
      if is_window uname && is_word "OVER" p then advance;; parse_over expr uname args
      else mret (FunctionCall uname args false)
    else mret (ColumnRef None name).

Definition parse_prefix (expr : N -> parser Expr) : parser Expr :=
  t ← peek;
  match t with
  | IntLiteral n => advance;; mret (IntLit n)
  | FloatLiteral f => advance;; mret (FloatLit f)
  | StringLiteral s => advance;; mret (StrLit s)
  | KTrue => advance;; mret (BoolLit true)
  | KFalse => advance;; mret (BoolLit false)
  | KNull => advance;; mret Null
  | TStar => advance;; mret Star
  | Minus => advance;; e ← expr 70; mret (UnaryOp Neg e)
  | KNot => advance;; e ← expr 25; mret (UnaryOp Not e)
  | LeftParen => advance;; e ← expr 0; expect RightParen;; mret e
  | Ident _ | QuotedIdent _ => name ← expect_ident; parse_after_name expr name
  | KCast =>
      advance;; expect LeftParen;;
      e ← expr 0;
      expect KAs;;
      to ← parse_data_type;
      expect RightParen;; mret (Cast e to)
  | other => err (UnexpectedInExpression other)
  end.

(** One round of the loop of [parse_expr], behind the operator [op_tok]; [loop]
    is the next round. *)
Definition parse_infix (expr : N -> parser Expr) (loop : Expr -> parser Expr) (op_tok : Token) (right_bp : N)
    (left : Expr) : parser Expr :=
  if bool_decide (op_tok = KIs) then
    '(negate : bool) ← eat KNot;
    expect KNull;;
    loop (if negate then IsNotNull left else IsNull left)
  else if bool_decide (op_tok = KBetween) then
    low ← expr 21;
    expect KAnd;;
    high ← expr 21;
    loop (Between left low high)
  else
    next ← peek;
    if bool_decide (op_tok = KIn) || (bool_decide (op_tok = KNot) && bool_decide (next = KIn)) then
      let negated := bool_decide (op_tok = KNot) in
      (if negated then advance;; mret () else mret ());;
      expect LeftParen;;
      list ← parse_expr_list expr;
      expect RightParen;;
      loop (if negated then NotIn left list else In left list)
    else
      match tok_to_binop op_tok with
      | Some bin_op => right ← expr right_bp; loop (BinaryOp bin_op left right)
      | None => mret left
      end.

(** The loop of [parse_expr] with [left] parsed. *)
Fixpoint expr_loop (fuel : nat) (expr : N -> parser Expr) (min_bp : N) (left : Expr) : parser Expr :=
  match fuel with
  | O => fun _ => Panic
  | S fuel =>
      p ← peek;
      let '(left_bp, right_bp) := infix_bp p in
      if (left_bp =? 0) || (left_bp <? min_bp) then mret left
      else op_tok ← advance; parse_infix expr (expr_loop fuel expr min_bp) op_tok right_bp left
  end.

(** Every round of the loop consumes a token. *)
Definition expr_rest (expr : N -> parser Expr) (min_bp : N) (left : Expr) : parser Expr :=
  fun ts => expr_loop (S (length ts)) expr min_bp left ts.

(** [parse_expr]; [n] bounds the depth of the recursion. *)
Fixpoint parse_expr_at (n : nat) (min_bp : N) : parser Expr :=
  match n with
  | O => fun _ => Panic
  | S n =>
      left ← parse_prefix (parse_expr_at n);
      expr_rest (parse_expr_at n) min_bp left
  end.

(** An expression nests no deeper than its tokens are many. *)
Definition parse_expr (min_bp : N) : parser Expr := fun ts => parse_expr_at (S (length ts)) min_bp ts.

(** ** SELECT *)

(** [AS name], or a bare name that [bare] accepts. *)
Definition parse_alias (bare : Token -> bool) : parser (option (list N)) :=
  '(a : bool) ← eat KAs;
  if a then x ← expect_ident; mret (Some x)
  else
    p ← peek;
    if bare p then x ← expect_ident; mret (Some x) else mret None.

Definition parse_select_column : parser SelectColumn :=
  '(s : bool) ← eat TStar;
  if s then mret ColStar
  else
    e ← parse_expr 0;
    alias ← parse_alias is_ident;
    mret (ColExpr e alias).

Definition parse_select_columns : parser (list SelectColumn) := sep_list parse_select_column.

(** The join kind in front of a table; [None] when no join follows. *)
Definition parse_join_kind : parser (option JoinKind) :=
  t ← peek;
  match t with
  | KJoin => advance;; mret (Some InnerJoin)
  | KInner => advance;; expect KJoin;; mret (Some InnerJoin)
  | KLeft => advance;; eat KOuter;; expect KJoin;; mret (Some LeftJoin)
  | KRight => advance;; eat KOuter;; expect KJoin;; mret (Some RightJoin)
  | KFull => advance;; eat KOuter;; expect KJoin;; mret (Some FullJoin)
  | KCross => advance;; expect KJoin;; mret (Some CrossJoin)
  | _ => mret None
  end.

Definition parse_join_condition (kind : JoinKind) : parser JoinCondition :=
  '(o : bool) ← eat KOn;
  if o then e ← parse_expr 0; mret (On e)
  else
    p ← peek;
    if is_word "USING" p then
      advance;; expect LeftParen;;
      cols ← parse_ident_list;
      expect RightParen;; mret (Using cols)
    else if bool_decide (kind = CrossJoin) then mret (On (BoolLit true))
    else err ExpectedOnOrUsing.

(** [parse_optional_join]; a chain of joins nests to the right. *)
Fixpoint parse_join_at (fuel : nat) : parser (option JoinClause) :=
  match fuel with
  | O => fun _ => Panic
  | S fuel =>
      kind ← parse_join_kind;
      match kind with
      | None => mret None
      | Some kind =>
          right_name ← expect_ident;
          right_alias ← parse_alias is_ident;
          condition ← parse_join_condition kind;
          nested_join ← parse_join_at fuel;
          mret (Some (mkJoinClause kind (mkTableRef right_name right_alias nested_join) condition))
      end
  end.

Definition parse_optional_join : parser (option JoinClause) := fun ts => parse_join_at (S (length ts)) ts.

Definition parse_table_ref : parser TableRef :=
  first ← expect_ident;
  '(d : bool) ← eat Dot;
  name ← (if d then table ← expect_ident; mret (first ++ text "." ++ table) else mret first);
  alias ← parse_alias is_any_ident;
  join ← parse_optional_join;
  mret (mkTableRef name alias join).

Definition parse_table_refs : parser (list TableRef) := sep_list parse_table_ref.

(** [parse_cte], with the method that parses its queries. *)
Definition parse_cte (select : parser SelectStmt) : parser CteClause :=
  recursive ← eat KRecursive;
  name ← expect_ident;
  expect KAs;; expect LeftParen;;
  left ← select;
  '(u : bool) ← eat KUnion;
  union_body ← (if u then all ← eat KAll; right ← select; mret (Some (mkUnion left all right))
                else mret None);
  expect RightParen;;
  mret (mkCte name recursive left union_body).

Definition parse_cte_list (select : parser SelectStmt) : parser (list CteClause) := sep_list (parse_cte select).

Definition parse_distinct : parser bool :=
  '(d : bool) ← eat KDistinct; if d then mret true else eat KAll;; mret false.

(** [parse_select]; [n] bounds the nesting of common table expressions. *)
Fixpoint parse_select_at (n : nat) : parser SelectStmt :=
  match n with
  | O => fun _ => Panic
  | S n =>
      with_clauses ← list_clause KWith (parse_cte_list (parse_select_at n));
      expect KSelect;;
      distinct ← parse_distinct;
      columns ← parse_select_columns;
      from ← list_clause KFrom parse_table_refs;
      where_clause ← opt_clause KWhere (parse_expr 0);
      group_by ← list_clause KGroup (expect KBy;; parse_expr_list parse_expr);
      having ← opt_clause KHaving (parse_expr 0);
      order_by ← list_clause KOrder (expect KBy;; parse_order_by parse_expr);
      limit ← opt_clause KLimit (parse_expr 0);
      offset ← opt_clause KOffset (parse_expr 0);
      mret (mkSelect with_clauses distinct columns from where_clause group_by having order_by limit offset)
  end.

Definition parse_select : parser SelectStmt := fun ts => parse_select_at (S (length ts)) ts.

(** ** INSERT, UPDATE, DELETE *)

Definition parse_value_row : parser (list Expr) :=
  expect LeftParen;; exprs ← parse_expr_list parse_expr; expect RightParen;; mret exprs.

Definition parse_insert : parser Statement :=
  expect KInsert;; expect KInto;;
  table ← expect_ident;
  columns ← list_clause LeftParen (cols ← parse_ident_list; expect RightParen;; mret cols);
  expect KValues;;
  rows ← sep_list parse_value_row;
  mret (Insert (mkInsert table columns (Values rows))).

Definition parse_assignment : parser (list N * Expr) :=
  c ← expect_ident; expect TEq;; v ← parse_expr 0; mret (c, v).

Definition parse_update : parser Statement :=
  expect KUpdate;;
  table ← expect_ident;
  alias ← opt_clause KAs expect_ident;
  expect KSet;;
  assignments ← sep_list parse_assignment;
  where_clause ← opt_clause KWhere (parse_expr 0);
  mret (Update (mkUpdate table alias assignments where_clause)).

Definition parse_delete : parser Statement :=
  expect KDelete;; expect KFrom;;
  table ← expect_ident;
  alias ← opt_clause KAs expect_ident;
  where_clause ← opt_clause KWhere (parse_expr 0);
  mret (Delete (mkDelete table alias where_clause)).

(** ** CREATE, DROP *)

(** The column options behind a data type. *)
Fixpoint column_loop (fuel : nat) (c : ColumnDef) : parser ColumnDef :=
  match fuel with
  | O => fun _ => Panic
  | S fuel =>
      let '(mkColumnDef name ty nullable default primary_key unique) := c in
      t ← peek;
      match t with
      | KNot => advance;; expect KNull;; column_loop fuel (mkColumnDef name ty false default primary_key unique)
      | KNull => advance;; column_loop fuel (mkColumnDef name ty true default primary_key unique)
      | KPrimary => advance;; expect KKey;; column_loop fuel (mkColumnDef name ty false default true unique)
      | KUnique => advance;; column_loop fuel (mkColumnDef name ty nullable default primary_key true)
      | KDefault =>
          advance;; e ← parse_expr 0;
          column_loop fuel (mkColumnDef name ty nullable (Some e) primary_key unique)
      | _ => mret c
      end
  end.

Definition column_options (c : ColumnDef) : parser ColumnDef := fun ts => column_loop (S (length ts)) c ts.

Definition parse_column_def : parser ColumnDef :=
  name ← expect_ident;
  ty ← parse_data_type;
  column_options (mkColumnDef name ty true None false false).

(** One element between the parentheses of [CREATE TABLE]. *)
Definition parse_table_element : parser (ColumnDef + TableConstraint) :=
  '(p : bool) ← eat KPrimary;
  if p then
    expect KKey;; expect LeftParen;; cols ← parse_ident_list; expect RightParen;; mret (inr (PrimaryKey cols))
  else
    '(u : bool) ← eat KUnique;
    if u then expect LeftParen;; cols ← parse_ident_list; expect RightParen;; mret (inr (Unique cols))
    else c ← parse_column_def; mret (inl c).

Definition inline_keys (cols : list ColumnDef) : list TableConstraint :=
  (fun c => PrimaryKey [column_name c]) <$> filter (fun c => primary_key c = true) cols.

Definition parse_storage : parser StorageLayout :=
  '(s : bool) ← eat KStorage;
  if s then
    t ← peek;
    match t with
    | KColumnar => advance;; mret Columnar
    | KRow => advance;; mret RowLayout
    | _ => mret RowLayout
    end
  else mret RowLayout.

(** [ON table (column)], behind [INDEX]. *)
Definition parse_index (word : string) (make : list N -> list N -> Statement) : parser Statement :=
  advance;;
  t ← peek;
  if bool_decide (t = KIndex) then
    advance;; expect KOn;;
    table ← expect_ident;
    expect LeftParen;; column ← expect_ident; expect RightParen;;
    mret (make table column)
  else err (ExpectedIndexAfter (text word) t).

Definition parse_create_table : parser Statement :=
  expect KTable;;
  '(i : bool) ← eat KIf;
  (if i then expect KNot;; expect KExists else mret ());;
  table ← expect_ident;
  expect LeftParen;;
  elements ← sep_list parse_table_element;
  expect RightParen;;
  let columns := omap (fun x => match x with inl c => Some c | inr _ => None end) elements in
  let constraints := omap (fun x => match x with inl _ => None | inr c => Some c end) elements in
  storage ← parse_storage;
  mret (CreateTable (mkCreateTable table i columns (constraints ++ inline_keys columns) storage)).

Definition parse_create : parser Statement :=
  expect KCreate;;
  t ← peek;
  if bool_decide (t = KVector) then parse_index "VECTOR" CreateVectorIndex
  else if is_word "GIN" t then parse_index "GIN" CreateGinIndex
  else parse_create_table.

Definition parse_drop : parser Statement :=
  expect KDrop;; expect KTable;;
  '(i : bool) ← eat KIf;
  (if i then expect KExists else mret ());;
  table ← expect_ident;
  mret (DropTable (mkDropTable table i)).

(** ** Statements *)

(** [SET [LOCAL|SESSION] name [=|TO] value], behind [SET]. *)
Definition parse_set : parser Statement :=
  p ← peek;
  (if is_word "LOCAL" p || is_word "SESSION" p then advance;; mret () else mret ());;
  name ← expect_ident_or [];
  p ← peek;
  (if bool_decide (p = TEq) || is_word "TO" p then advance;; mret () else mret ());;
  t ← advance;
  mret (SetVar name match t with
                    | StringLiteral s | Ident s => s
                    | IntLiteral n => Z_to_string n
                    | _ => []
                    end).

(** [while !matches!(self.peek(), EOF | Semicolon) { self.advance(); }]. *)
Fixpoint skip_statement (ts : list Token) : list Token :=
  match ts with
  | [] => []
  | t :: ts' => if bool_decide (t = EOF) || bool_decide (t = Semicolon) then ts else skip_statement ts'
  end.

(** [parse_statement] in front of [t]; [statement] is the method itself. *)
Definition parse_statement_from (statement : parser Statement) (t : Token) : parser Statement :=
  match t with
  | KSelect | KWith => s ← parse_select; mret (SelectStatement s)
  | KInsert => parse_insert
  | KUpdate => parse_update
  | KDelete => parse_delete
  | KCreate => parse_create
  | KDrop => parse_drop
  | KBegin | KTransaction => advance;; mret Begin
  | KCommit => advance;; mret Commit
  | KRollback => advance;; mret Rollback
  | KExplain => advance;; inner ← statement; mret (Explain inner)
  | KAnalyze => advance;; table ← expect_ident; mret (Analyze table)
  | KVacuum => advance;; table ← expect_ident; mret (Vacuum table)
  | KSet => advance;; parse_set
  | other =>
      if is_word "SHOW" other then
        advance;; name ← expect_ident_or (text "search_path"); mret (ShowVar name)
      else if is_word "DISCARD" other || is_word "DEALLOCATE" other then
        fun ts => Ok (SetVar (text "discard") [], skip_statement ts)
      else err (UnexpectedToken other)
  end.

Fixpoint parse_statement_at (n : nat) : parser Statement :=
  match n with
  | O => fun _ => Panic
  | S n => t ← peek; parse_statement_from (parse_statement_at n) t
  end.

Definition parse_statement : parser Statement := fun ts => parse_statement_at (S (length ts)) ts.

(** [Parser::parse]: what follows the statement and an optional semicolon is
    not looked at. *)
Definition parse (sql : list N) : sql_result Statement :=
  tokens ← Lexer.tokenize sql;
  '(stmt, _) ← parse_statement tokens;
  Ok stmt.

End Methods.

End Parser.
