(* ===== verification/SqlParserTotal.v ===== *)
(** * The parser terminates

    The fuel that [SqlParser.v] gives its recursive methods is never used up, so
    every method returns a value or an error; more fuel never changes a result.
    Together they give the equations of the source, in which the methods call
    each other without a bound. *)

From Stdlib Require Import Ascii String.
From S2P Require Import Prelude Bytes Strings SqlToken SqlLexer SqlAst SqlParser.

Module ParserTotal.
Import Ast Parser.

(** ** Methods that return *)

(** The outcome is not a panic, and leaves at most [n] tokens. *)
Definition leaves {A} (n : nat) (m : sql_result (A * list Token)) : Prop :=
  match m with
  | Ok (_, ts) => (length ts <= n)%nat
  | Err _ => True
  | Panic => False
  end.

(** [p] returns on every input shorter than [N], and never lengthens it. *)
Definition below {A} (N : nat) (p : parser A) : Prop :=
  forall ts, (length ts < N)%nat -> leaves (length ts) (p ts).

Lemma leaves_le {A} n n' (m : sql_result (A * list Token)) : (n <= n')%nat -> leaves n m -> leaves n' m.
Proof. destruct m as [[a ts]| |]; cbn; [lia|done|done]. Qed.

Lemma leaves_bind {A B} n N (m : parser A) (k : A -> parser B) ts : (n < N)%nat ->
  leaves n (m ts) -> (forall a, below N (k a)) -> leaves n ((m ≫= k) ts).
Proof.
  intros Hn Hm Hk. unfold mbind, parser_bind. destruct (m ts) as [[a ts']| |]; [|done|done].
  cbn in Hm. eapply leaves_le; [exact Hm|]. apply Hk. lia.
Qed.

Lemma below_bind {A B} N (m : parser A) (k : A -> parser B) :
  below N m -> (forall a, below N (k a)) -> below N (m ≫= k).
Proof. intros Hm Hk ts Hts. apply (leaves_bind (length ts) N); [done|by apply Hm|done]. Qed.

Lemma below_mono {A} N N' (p : parser A) : (N <= N')%nat -> below N' p -> below N p.
Proof. intros Hle Hp ts Hts. apply Hp. lia. Qed.

Lemma below_ret {A} N (a : A) : below N (mret a : parser A).
Proof. intros ts _. cbn. lia. Qed.

Lemma below_err {A} N m : below N (err m : parser A).
Proof. intros ts _. done. Qed.

Lemma below_peek N : below N peek.
Proof. intros ts _. cbn. lia. Qed.

Lemma below_advance N : below N advance.
Proof. intros ts _. destruct ts; cbn; lia. Qed.

Lemma below_if {A} N (b : bool) (p q : parser A) : below N p -> below N q -> below N (if b then p else q).
Proof. by destruct b. Qed.

Create HintDb total.
#[export] Hint Resolve below_bind below_ret below_err below_peek below_advance below_if : total.

(** Methods that are built from others, without loops or case analysis. *)
Ltac solve_below := repeat first
  [ assumption | progress intros | progress eauto 2 with total nocore | apply below_bind | apply below_if ].

Lemma below_at_token N t : below N (at_token t).
Proof. unfold at_token. solve_below. Qed.
#[export] Hint Resolve below_at_token : total.

Lemma below_eat N t : below N (eat t).
Proof. unfold eat. solve_below. Qed.

Lemma below_expect N t : below N (expect t).
Proof. unfold expect. solve_below. Qed.
#[export] Hint Resolve below_eat below_expect : total.

Lemma below_expect_ident N : below N expect_ident.
Proof.
  unfold expect_ident. apply below_bind; [apply below_advance|].
  intros t. destruct t; cbn; apply below_err || apply below_ret.
Qed.
#[export] Hint Resolve below_expect_ident : total.

Lemma below_expect_ident_or N d : below N (expect_ident_or d).
Proof.
  intros ts Hts. unfold expect_ident_or. pose proof (below_expect_ident N ts Hts) as He.
  destruct (expect_ident ts) as [[a ts']| |]; [done| |done]. destruct ts; cbn; lia.
Qed.

Lemma below_opt_clause {A} N t (p : parser A) : below N p -> below N (opt_clause t p).
Proof. intros Hp. unfold opt_clause. solve_below. Qed.

Lemma below_list_clause {A} N t (p : parser (list A)) : below N p -> below N (list_clause t p).
Proof. intros Hp. unfold list_clause. solve_below. Qed.
#[export] Hint Resolve below_expect_ident_or below_opt_clause below_list_clause : total.

(** ** Loops *)

Lemma eat_eq t ts :
  eat t ts = if bool_decide (from_option id EOF (head ts) = t) then Ok (true, tail ts) else Ok (false, ts).
Proof. unfold eat, at_token, mbind, parser_bind. cbn. by case_bool_decide. Qed.

Lemma eat_true t ts ts' : t <> EOF -> eat t ts = Ok (true, ts') -> (length ts' < length ts)%nat.
Proof.
  intros Ht. rewrite eat_eq. case_bool_decide as E; [|done]. intros [= <-].
  destruct ts as [|x ts]; cbn in *; [congruence|lia].
Qed.

Lemma sep_loop_leaves {A} N fuel (item : parser A) v ts : below N item ->
  (length ts < fuel)%nat -> (length ts <= N)%nat -> leaves (length ts) (sep_loop fuel item v ts).
Proof.
  intros Hi. revert v ts. induction fuel as [|fuel IH]; intros v ts Hf HN; [lia|]. cbn [sep_loop].
  unfold mbind, parser_bind. pose proof (below_eat (S (length ts)) Comma ts ltac:(lia)) as He.
  destruct (eat Comma ts) as [[c ts1]| |] eqn:Ec; [|done|done]. cbn in He. destruct c; [|done].
  apply eat_true in Ec; [|done]. pose proof (Hi ts1 ltac:(lia)) as Hx.
  destruct (item ts1) as [[x ts2]| |]; [|done|done]. cbn in Hx.
  eapply leaves_le; [|apply IH; lia]. lia.
Qed.

Lemma below_sep_list {A} N (item : parser A) : below N item -> below N (sep_list item).
Proof.
  intros Hi ts Hts. unfold sep_list. unfold mbind, parser_bind. pose proof (Hi ts Hts) as Hx.
  destruct (item ts) as [[x ts1]| |]; [|done|done]. cbn in Hx.
  eapply leaves_le; [exact Hx|]. apply (sep_loop_leaves N); [done|lia|lia].
Qed.
#[export] Hint Resolve below_sep_list : total.

(** ** Expressions *)

Lemma below_parse_usize N : below N parse_usize.
Proof.
  unfold parse_usize. apply below_bind; [apply below_advance|].
  intros t. destruct t; try apply below_err. apply below_if; auto with total.
Qed.
#[export] Hint Resolve below_parse_usize : total.

Lemma below_parse_length N d : below N (parse_length d).
Proof. unfold parse_length. solve_below. Qed.
#[export] Hint Resolve below_parse_length : total.

Lemma below_parse_data_type N : below N parse_data_type.
Proof.
  unfold parse_data_type. apply below_bind; [apply below_advance|]. intros t.
  destruct t; solve_below.
Qed.
#[export] Hint Resolve below_parse_data_type : total.

Section Methods.
Context `{UnicodeCase}.

Section Expr.
Variable (N : nat) (expr : BinNums.N -> parser Expr).
Hypothesis Hexpr : forall b, below N (expr b).

Lemma below_expr_list : below N (parse_expr_list expr).
Proof. apply below_sep_list, Hexpr. Qed.

Lemma below_order_by : below N (parse_order_by expr).
Proof.
  apply below_sep_list. unfold parse_order_item. pose proof (Hexpr 0). solve_below.
Qed.

Lemma below_args : below N (parse_args expr).
Proof. unfold parse_args. pose proof below_expr_list. solve_below. Qed.

Lemma below_over name args : below N (parse_over expr name args).
Proof. unfold parse_over, parse_partition, parse_window_order. pose proof below_expr_list. pose proof below_order_by. solve_below. Qed.

Lemma below_after_name name : below N (parse_after_name expr name).
Proof. unfold parse_after_name. pose proof below_args. pose proof below_over. cbv zeta. solve_below. Qed.

Lemma below_prefix : below (S N) (parse_prefix expr).
Proof.
  intros [|t ts] Hts; [done|]. cbn in Hts. apply (leaves_le (length ts)); [cbn; lia|].
  assert (Hk : forall A (p : parser A), below N p -> leaves (length ts) (p ts)) by (intros A p Hp; apply Hp; lia).
  pose proof (Hexpr 0). pose proof (Hexpr 70). pose proof (Hexpr 25).
  destruct t; try done; try exact (le_n (length ts)).
  - apply (Hk _ (e ← expr 25; mret (UnaryOp Not e))). solve_below.
  - apply (Hk _ (expect LeftParen;; e ← expr 0; expect KAs;; to ← parse_data_type; expect RightParen;; mret (Cast e to))).
    solve_below.
  - apply (Hk _ _ (below_after_name s)).
  - apply (Hk _ _ (below_after_name s)).
  - apply (Hk _ (e ← expr 70; mret (UnaryOp Neg e))). solve_below.
  - apply (Hk _ (e ← expr 0; expect RightParen;; mret e)). solve_below.
Qed.

Lemma below_infix loop t rbp left : (forall left, below N (loop left)) ->
  below N (parse_infix expr loop t rbp left).
Proof.
  intros Hl. unfold parse_infix. pose proof below_expr_list. pose proof (Hexpr 21). pose proof (Hexpr rbp).
  cbv zeta. destruct (tok_to_binop t); solve_below.
Qed.

End Expr.

Lemma expr_loop_cons fuel expr min left t ts :
  expr_loop (S fuel) expr min left (t :: ts) =
  if ((infix_bp t).1 =? 0) || ((infix_bp t).1 <? min) then Ok (left, t :: ts)
  else parse_infix expr (expr_loop fuel expr min) t (infix_bp t).2 left ts.
Proof.
  cbn [expr_loop]. unfold mbind at 1, parser_bind at 1. cbn [peek head from_option id].
  destruct (infix_bp t) as [lbp rbp]. cbn [fst snd]. by destruct (_ || _).
Qed.

Lemma expr_loop_leaves N expr fuel min left ts : (forall b, below N (expr b)) ->
  (length ts < fuel)%nat -> (length ts <= N)%nat -> leaves (length ts) (expr_loop fuel expr min left ts).
Proof.
  intros He. revert left ts. induction fuel as [|fuel IH]; intros left ts Hf HN; [lia|].
  destruct ts as [|t ts]; [exact (le_n 0)|]. cbn in Hf, HN. rewrite expr_loop_cons.
  destruct (_ || _); [exact (le_n _)|]. apply (leaves_le (length ts)); [cbn; lia|].
  apply (below_infix (S (length ts))); [|intros left' ts' Hts'; apply IH; lia|lia].
  intros b. eapply below_mono; [|apply He]. lia.
Qed.

Lemma below_expr_rest N expr min left : (forall b, below N (expr b)) -> below (S N) (expr_rest expr min left).
Proof. intros He ts Hts. apply (expr_loop_leaves N); [done|lia|lia]. Qed.

Lemma below_expr_at n min : below n (parse_expr_at n min).
Proof.
  revert min. induction n as [|n IH]; intros min ts Hts; [lia|]. cbn [parse_expr_at]. revert ts Hts.
  apply below_bind; [by apply below_prefix|]. intros left. by apply below_expr_rest.
Qed.

Lemma below_parse_expr N min : below N (parse_expr min).
Proof. intros ts _. unfold parse_expr. apply below_expr_at. lia. Qed.

(** ** Statements *)

Hint Resolve below_parse_expr : total.

Lemma below_parse_alias N bare : below N (parse_alias bare).
Proof. unfold parse_alias. solve_below. Qed.
Hint Resolve below_parse_alias : total.

Lemma below_select_column N : below N parse_select_column.
Proof. unfold parse_select_column. solve_below. Qed.

Lemma below_select_columns N : below N parse_select_columns.
Proof. apply below_sep_list, below_select_column. Qed.

Lemma below_join_kind N : below N parse_join_kind.
Proof. unfold parse_join_kind. apply below_bind; [apply below_peek|]. intros t. destruct t; solve_below. Qed.

Lemma below_ident_list N : below N parse_ident_list.
Proof. apply below_sep_list, below_expect_ident. Qed.
Hint Resolve below_select_columns below_ident_list : total.

Lemma below_join_condition N kind : below N (parse_join_condition kind).
Proof. unfold parse_join_condition. solve_below. Qed.
Hint Resolve below_join_condition : total.

(** A join consumes at least its kind. *)
Lemma join_kind_shorter ts kind ts' : parse_join_kind ts = Ok (Some kind, ts') -> (length ts' < length ts)%nat.
Proof.
  destruct ts as [|t ts]; [done|]. intros Hk. cbn [length]. apply Nat.lt_succ_r. revert Hk.
  assert (Hb : forall p : parser (option JoinKind), below (S (length ts)) p -> p ts = Ok (Some kind, ts') ->
    (length ts' <= length ts)%nat).
  { intros p Hp Hk. specialize (Hp ts ltac:(lia)). by rewrite Hk in Hp. }
  destruct t; try done.
  - by intros [= _ <-].
  - apply (Hb (expect KJoin;; mret (Some InnerJoin))). solve_below.
  - apply (Hb (eat KOuter;; expect KJoin;; mret (Some LeftJoin))). solve_below.
  - apply (Hb (eat KOuter;; expect KJoin;; mret (Some RightJoin))). solve_below.
  - apply (Hb (eat KOuter;; expect KJoin;; mret (Some FullJoin))). solve_below.
  - apply (Hb (expect KJoin;; mret (Some CrossJoin))). solve_below.
Qed.

Lemma below_join_at fuel : below fuel (parse_join_at fuel).
Proof.
  induction fuel as [|fuel IH]; intros ts Hts; [lia|]. cbn [parse_join_at].
  unfold mbind at 1, parser_bind at 1. pose proof (below_join_kind (S fuel) ts Hts) as Hk.
  destruct (parse_join_kind ts) as [[[kind|] ts1]| |] eqn:E; [|done|done|done].
  apply join_kind_shorter in E. eapply leaves_le; [exact Hk|]. cbn in Hk.
  apply (below_mono fuel fuel); [lia| |lia]. solve_below.
Qed.

Lemma below_optional_join N : below N parse_optional_join.
Proof. intros ts _. apply below_join_at. lia. Qed.
Hint Resolve below_optional_join : total.

Lemma below_table_refs N : below N parse_table_refs.
Proof. apply below_sep_list. unfold parse_table_ref. solve_below. Qed.

Lemma below_cte N select : below N select -> below N (parse_cte select).
Proof. intros Hs. unfold parse_cte. solve_below. Qed.

Lemma below_exprs N : below N (parse_expr_list parse_expr).
Proof. apply below_expr_list. intros b. apply below_parse_expr. Qed.

Lemma below_orders N : below N (parse_order_by parse_expr).
Proof. apply below_order_by. intros b. apply below_parse_expr. Qed.
Hint Resolve below_table_refs below_exprs below_orders : total.

Lemma below_distinct N : below N parse_distinct.
Proof. unfold parse_distinct. solve_below. Qed.
Hint Resolve below_distinct : total.

(** [SELECT] behind its [WITH] clauses. *)
Definition parse_select_body (with_clauses : list CteClause) : parser SelectStmt :=
  expect KSelect;;
  distinct ← parse_distinct;
  columns ← parse_select_columns;
  from ← list_clause KFrom parse_table_refs;
  where_clause ← opt_clause KWhere (parse_expr 0);
  group_by ← list_clause KGroup (expect KBy;; parse_expr_list parse_expr);
  having ← opt_clause KHaving (parse_expr 0);
  order_by ← list_clause KOrder (expect KBy;; parse_order_by parse_expr);
  limit ← opt_clause KLimit (parse_expr 0);
  offset ← opt_clause KOffset (parse_expr 0);
  mret (mkSelect with_clauses distinct columns from where_clause group_by having order_by limit offset).

Lemma below_select_body N w : below N (parse_select_body w).
Proof. unfold parse_select_body. solve_below. Qed.

Lemma below_select_at n : below n (parse_select_at n).
Proof.
  induction n as [|n IH]; intros ts Hts; [lia|]. cbn [parse_select_at].
  change (leaves (length ts) ((list_clause KWith (parse_cte_list (parse_select_at n)) ≫= parse_select_body) ts)).
  apply (leaves_bind (length ts) (S n)); [done| |intros w; apply below_select_body].
  unfold list_clause, mbind, parser_bind. rewrite eat_eq. case_bool_decide as E; [|exact (le_n _)].
  destruct ts as [|t ts]; cbn in E; [done|]. cbn in Hts. apply (leaves_le (length ts)); [cbn; lia|].
  apply (below_sep_list n); [by apply below_cte|cbn; lia].
Qed.

Lemma below_select N : below N parse_select.
Proof. intros ts _. apply below_select_at. lia. Qed.

Lemma below_value_row N : below N parse_value_row.
Proof. unfold parse_value_row. solve_below. Qed.

Lemma below_assignment N : below N parse_assignment.
Proof. unfold parse_assignment. solve_below. Qed.
Hint Resolve below_select below_value_row below_assignment : total.

Lemma column_loop_cons fuel name ty nullable def pk un t ts :
  column_loop (S fuel) (mkColumnDef name ty nullable def pk un) (t :: ts) =
  match t with
  | KNot => (expect KNull;; column_loop fuel (mkColumnDef name ty false def pk un)) ts
  | KNull => column_loop fuel (mkColumnDef name ty true def pk un) ts
  | KPrimary => (expect KKey;; column_loop fuel (mkColumnDef name ty false def true un)) ts
  | KUnique => column_loop fuel (mkColumnDef name ty nullable def pk true) ts
  | KDefault => (e ← parse_expr 0; column_loop fuel (mkColumnDef name ty nullable (Some e) pk un)) ts
  | _ => Ok (mkColumnDef name ty nullable def pk un, t :: ts)
  end.
Proof. by destruct t. Qed.

Lemma column_loop_leaves fuel c ts : (length ts < fuel)%nat -> leaves (length ts) (column_loop fuel c ts).
Proof.
  revert c ts. induction fuel as [|fuel IH]; intros c ts Hf; [lia|].
  destruct ts as [|t ts]; [destruct c; exact (le_n 0)|]. cbn in Hf.
  assert (Hrec : forall c, below (S (length ts)) (column_loop fuel c)) by (intros c' ts' ?; apply IH; lia).
  assert (Hk : forall A (p : parser A), below (S (length ts)) p -> leaves (length (t :: ts)) (p ts)).
  { intros A p Hp. apply (leaves_le (length ts)); [cbn; lia|]. apply Hp. lia. }
  destruct c. rewrite column_loop_cons. clear IH. destruct t; try exact (le_n _); apply Hk; solve_below.
Qed.

Lemma below_column_options N c : below N (column_options c).
Proof. intros ts _. apply column_loop_leaves. lia. Qed.
Hint Resolve below_column_options : total.

Lemma below_table_element N : below N parse_table_element.
Proof. unfold parse_table_element, parse_column_def. solve_below. Qed.

Lemma below_storage N : below N parse_storage.
Proof.
  unfold parse_storage. apply below_bind; [auto with total|]. intros [|]; [|auto with total].
  apply below_bind; [auto with total|]. intros t. destruct t; solve_below.
Qed.
Hint Resolve below_table_element below_storage : total.

Lemma below_index N w make : below N (parse_index w make).
Proof. unfold parse_index. solve_below. Qed.

Lemma below_create N : below N parse_create.
Proof. pose proof (below_index N). unfold parse_create, parse_create_table. cbv zeta. solve_below. Qed.

Lemma below_drop N : below N parse_drop.
Proof. unfold parse_drop. solve_below. Qed.

Lemma below_insert N : below N parse_insert.
Proof. unfold parse_insert. solve_below. Qed.

Lemma below_update N : below N parse_update.
Proof. unfold parse_update. solve_below. Qed.

Lemma below_delete N : below N parse_delete.
Proof. unfold parse_delete. solve_below. Qed.

Lemma below_set N : below N parse_set.
Proof. unfold parse_set. solve_below. Qed.
Hint Resolve below_create below_drop below_insert below_update below_delete below_set : total.

Lemma skip_statement_length ts : (length (skip_statement ts) <= length ts)%nat.
Proof. induction ts as [|t ts IH]; cbn; [lia|]. destruct (_ || _); cbn; lia. Qed.

Lemma below_discard N :
  below N ((fun ts => Ok (SetVar (text "discard") [], skip_statement ts)) : parser Statement).
Proof. intros ts _. apply skip_statement_length. Qed.
Hint Resolve below_discard : total.

(** Every statement but [EXPLAIN] is parsed without a further statement. *)
Lemma below_statement_from N statement t : t <> KExplain -> below N (parse_statement_from statement t).
Proof. intros Ht. destruct t; cbn [parse_statement_from]; solve_below. by destruct Ht. Qed.

Lemma below_statement_at n : below n (parse_statement_at n).
Proof.
  induction n as [|n IH]; intros ts Hts; [lia|]. cbn [parse_statement_at].
  unfold mbind, parser_bind. cbn [peek]. destruct (decide (from_option id EOF (head ts) = KExplain)) as [He|He].
  - rewrite He. destruct ts as [|t ts]; [done|]. cbn in Hts. apply (leaves_le (length ts)); [cbn; lia|].
    cbn [parse_statement_from]. unfold mbind at 1, parser_bind at 1. cbn [advance tail].
    assert (Hb : below n (inner ← parse_statement_at n; mret (Explain inner))) by solve_below. apply Hb. lia.
  - by apply (below_statement_from (S n)).
Qed.

Lemma below_statement N : below N parse_statement.
Proof. intros ts _. apply below_statement_at. lia. Qed.

(** C29: parsing terminates: on every ASCII text [Parser::parse] returns a
    statement or an error.  The lexer does not panic, and neither the depth of
    the recursion nor the length of a loop of the parser exceeds what the number
    of tokens allows. *)
Theorem parse_terminates sql : is_ascii sql = true -> is_panic (parse sql) = false.
Proof.
  intros Ha. unfold parse. pose proof (Lexer.tokenize_loop_ok (S (length sql)) [] (Lexer.new sql) Ha) as Ht.
  fold (Lexer.tokenize sql) in Ht. destruct (Lexer.tokenize sql) as [ts| |]; cbn [mbind outcome_bind].
  - pose proof (below_statement (S (length ts)) ts ltac:(lia)) as Hs. by destruct (parse_statement ts) as [[s r]| |].
  - done.
  - exfalso. apply Ht. cbn. lia.
Qed.

(** ** Fuel does not change results *)

(** [p] either runs out of fuel or does what [q] does. *)
Definition approx {A} (p q : parser A) : Prop := forall ts, p ts = Panic \/ p ts = q ts.

Lemma approx_refl {A} (p : parser A) : approx p p.
Proof. intros ts. by right. Qed.

Lemma approx_bind {A B} (m m' : parser A) (k k' : A -> parser B) :
  approx m m' -> (forall a, approx (k a) (k' a)) -> approx (m ≫= k) (m' ≫= k').
Proof.
  intros Hm Hk ts. unfold mbind, parser_bind. destruct (Hm ts) as [->|<-]; [by left|].
  destruct (m ts) as [[a ts']| |]; [apply Hk|by right|by left].
Qed.

Lemma approx_if {A} (b : bool) (p p' q q' : parser A) : approx p p' -> approx q q' ->
  approx (if b then p else q) (if b then p' else q').
Proof. by destruct b. Qed.

(** A parser that returns is what it approximates. *)
Lemma approx_eq {A} (p q : parser A) N ts : approx p q -> below N p -> (length ts < N)%nat -> p ts = q ts.
Proof. intros Ha Hp Hts. specialize (Hp ts Hts). destruct (Ha ts) as [He|He]; [by rewrite He in Hp|done]. Qed.

Ltac solve_approx := repeat first
  [ assumption | apply approx_refl | progress intros | apply approx_bind | apply approx_if ].

Lemma approx_sep_loop {A} n n' (item item' : parser A) v : approx item item' -> (n <= n')%nat ->
  approx (sep_loop n item v) (sep_loop n' item' v).
Proof.
  intros Hi. revert n' v. induction n as [|n IH]; intros n' v Hn ts; [by left|].
  destruct n' as [|n']; [lia|]. cbn [sep_loop]. revert ts. assert (n <= n')%nat by lia. solve_approx. by apply IH.
Qed.

Lemma approx_sep_list {A} (item item' : parser A) : approx item item' -> approx (sep_list item) (sep_list item').
Proof.
  intros Hi ts. unfold sep_list. apply approx_bind; [done|]. intros x. by apply approx_sep_loop.
Qed.

Section Expr.
Variables expr expr' : N -> parser Expr.
Hypothesis Hexpr : forall b, approx (expr b) (expr' b).

Lemma approx_expr_list : approx (parse_expr_list expr) (parse_expr_list expr').
Proof. apply approx_sep_list, Hexpr. Qed.

Lemma approx_args : approx (parse_args expr) (parse_args expr').
Proof. pose proof approx_expr_list. unfold parse_args. solve_approx. Qed.

Lemma approx_order_by : approx (parse_order_by expr) (parse_order_by expr').
Proof. apply approx_sep_list. pose proof (Hexpr 0). unfold parse_order_item. solve_approx. Qed.

Lemma approx_after_name name : approx (parse_after_name expr name) (parse_after_name expr' name).
Proof.
  pose proof approx_args. pose proof approx_expr_list. pose proof approx_order_by.
  unfold parse_after_name, parse_over, parse_partition, parse_window_order. cbv zeta. solve_approx.
Qed.

Lemma approx_prefix : approx (parse_prefix expr) (parse_prefix expr').
Proof.
  pose proof (Hexpr 0). pose proof (Hexpr 70). pose proof (Hexpr 25). pose proof approx_after_name.
  unfold parse_prefix. apply approx_bind; [apply approx_refl|]. intros t. destruct t; solve_approx.
Qed.

Lemma approx_infix loop loop' t rbp left : (forall left, approx (loop left) (loop' left)) ->
  approx (parse_infix expr loop t rbp left) (parse_infix expr' loop' t rbp left).
Proof.
  intros Hl. pose proof (Hexpr 21). pose proof (Hexpr rbp). pose proof approx_expr_list.
  unfold parse_infix. cbv zeta. destruct (tok_to_binop t); solve_approx; apply Hl.
Qed.

Lemma approx_expr_loop n n' min left : (n <= n')%nat ->
  approx (expr_loop n expr min left) (expr_loop n' expr' min left).
Proof.
  revert n' left. induction n as [|n IH]; intros n' e Hn ts; [by left|].
  destruct n' as [|n']; [lia|]. cbn [expr_loop]. revert ts. apply approx_bind; [apply approx_refl|].
  intros p. destruct (infix_bp p) as [lbp rbp]. apply approx_if; [apply approx_refl|].
  apply approx_bind; [apply approx_refl|]. intros t. apply approx_infix. intros l. apply IH. lia.
Qed.

Lemma approx_expr_rest min left : approx (expr_rest expr min left) (expr_rest expr' min left).
Proof. intros ts. by apply approx_expr_loop. Qed.
End Expr.

Lemma approx_expr_at n m min : (n <= m)%nat -> approx (parse_expr_at n min) (parse_expr_at m min).
Proof.
  revert m min. induction n as [|n IH]; intros m min Hm ts; [by left|].
  destruct m as [|m]; [lia|]. cbn [parse_expr_at]. revert ts. apply approx_bind.
  - apply approx_prefix. intros b. apply IH. lia.
  - intros left. apply approx_expr_rest. intros b. apply IH. lia.
Qed.

Lemma approx_parse_expr n min : approx (parse_expr_at n min) (parse_expr min).
Proof.
  intros ts. unfold parse_expr. destruct (Nat.le_ge_cases n (S (length ts))) as [Hn|Hn].
  - by apply approx_expr_at.
  - right. symmetry. apply (approx_eq _ _ (S (length ts))); [by apply approx_expr_at|apply below_expr_at|lia].
Qed.

(** [parse_expr] as the source has it. *)
Lemma parse_expr_eq min ts :
  parse_expr min ts = (left ← parse_prefix parse_expr; expr_rest parse_expr min left) ts.
Proof.
  unfold parse_expr at 1. cbn [parse_expr_at]. apply (approx_eq _ _ (S (length ts))); [| |lia].
  - apply approx_bind; [apply approx_prefix|intros; apply approx_expr_rest]; intros b; apply approx_parse_expr.
  - apply below_bind; [apply below_prefix|intros; apply below_expr_rest]; intros b; apply below_expr_at.
Qed.

(** One round of its loop. *)
Lemma expr_rest_cons min left t ts :
  expr_rest parse_expr min left (t :: ts) =
  if ((infix_bp t).1 =? 0) || ((infix_bp t).1 <? min) then Ok (left, t :: ts)
  else parse_infix parse_expr (expr_rest parse_expr min) t (infix_bp t).2 left ts.
Proof.
  unfold expr_rest at 1. rewrite expr_loop_cons. destruct (_ || _); [done|]. cbn [length].
  assert (He : forall b N, below N (parse_expr b)) by (intros b N; apply below_parse_expr).
  apply (approx_eq _ _ (S (length ts))); [| |lia].
  - apply approx_infix; [intros b; apply approx_refl|]. intros l ts'.
    unfold expr_rest. destruct (Nat.le_ge_cases (S (length ts)) (S (length ts'))) as [Hn|Hn].
    + apply approx_expr_loop; [intros b; apply approx_refl|done].
    + right. symmetry. apply (approx_eq _ _ (S (length ts'))); [|intros ts2 Hts2; apply (expr_loop_leaves (length ts')); [done|lia|lia]|lia].
      apply approx_expr_loop; [intros b; apply approx_refl|done].
  - apply below_infix; [done|]. intros l ts' Hts'. apply (expr_loop_leaves (length ts)); [done|lia|lia].
Qed.

(** A method with a bound, run with the bound its input gives. *)
Definition bounded {A} (f : nat -> parser A) : parser A := fun ts => f (S (length ts)) ts.

Lemma approx_bounded {A} (f : nat -> parser A) n :
  (forall n m, (n <= m)%nat -> approx (f n) (f m)) -> (forall n, below n (f n)) -> approx (f n) (bounded f).
Proof.
  intros Hm Hb ts. unfold bounded. destruct (Nat.le_ge_cases n (S (length ts))) as [Hn|Hn]; [by apply Hm|].
  right. symmetry. apply (approx_eq _ _ (S (length ts))); [by apply Hm|apply Hb|lia].
Qed.

(** Lists *)

Definition sep_rest {A} (item : parser A) (v : list A) : parser (list A) := bounded (fun n => sep_loop n item v).

Lemma sep_loop_below {A} (item : parser A) n v : (forall N, below N item) -> below n (sep_loop n item v).
Proof. intros Hi ts Hts. by apply (sep_loop_leaves (length ts)). Qed.

Lemma approx_sep_rest {A} (item : parser A) n v : (forall N, below N item) ->
  approx (sep_loop n item v) (sep_rest item v).
Proof.
  intros Hi. apply (approx_bounded (fun n => sep_loop n item v)).
  - intros n1 n2 Hn. apply approx_sep_loop; [apply approx_refl|done].
  - intros n1. by apply sep_loop_below.
Qed.

Lemma sep_list_eq {A} (item : parser A) ts : (forall N, below N item) ->
  sep_list item ts = (x ← item; sep_rest item [x]) ts.
Proof.
  intros Hi. unfold sep_list. apply (approx_eq _ _ (S (length ts))); [| |lia].
  - apply approx_bind; [apply approx_refl|]. intros x. by apply approx_sep_rest.
  - apply below_bind; [done|]. intros x. by apply sep_loop_below.
Qed.

Lemma sep_loop_comma {A} n (item : parser A) v ts :
  sep_loop (S n) item v (Comma :: ts) = (x ← item; sep_loop n item (v ++ [x])) ts.
Proof.
  cbn [sep_loop]. unfold mbind at 1, parser_bind at 1. rewrite eat_eq. cbn [head from_option id tail].
  by rewrite bool_decide_eq_true_2.
Qed.

Lemma sep_rest_comma {A} (item : parser A) v ts : (forall N, below N item) ->
  sep_rest item v (Comma :: ts) = (x ← item; sep_rest item (v ++ [x])) ts.
Proof.
  intros Hi. unfold sep_rest at 1, bounded. rewrite sep_loop_comma. cbn [length].
  apply (approx_eq _ _ (S (length ts))); [| |lia].
  - apply approx_bind; [apply approx_refl|]. intros x. by apply approx_sep_rest.
  - apply below_bind; [done|]. intros x. by apply sep_loop_below.
Qed.

Lemma sep_rest_stop {A} (item : parser A) v ts : from_option id EOF (head ts) <> Comma ->
  sep_rest item v ts = Ok (v, ts).
Proof.
  intros Hc. unfold sep_rest, bounded. cbn [sep_loop]. unfold mbind, parser_bind. rewrite eat_eq.
  by rewrite bool_decide_eq_false_2.
Qed.

(** Joins *)

Lemma approx_join_at n m : (n <= m)%nat -> approx (parse_join_at n) (parse_join_at m).
Proof.
  revert m. induction n as [|n IH]; intros m Hm ts; [by left|]. destruct m as [|m]; [lia|].
  specialize (IH m ltac:(lia)). cbn [parse_join_at]. revert ts.
  apply approx_bind; [apply approx_refl|]. intros [kind|]; solve_approx.
Qed.

Lemma parse_optional_join_eq ts : parse_optional_join ts =
  (kind ← parse_join_kind;
   match kind with
   | None => mret None
   | Some kind =>
       right_name ← expect_ident;
       right_alias ← parse_alias is_ident;
       condition ← parse_join_condition kind;
       nested_join ← parse_optional_join;
       mret (Some (mkJoinClause kind (mkTableRef right_name right_alias nested_join) condition))
   end) ts.
Proof.
  unfold parse_optional_join at 1.
  apply (approx_eq _ _ (S (length ts))); [|apply below_join_at|lia].
  cbn [parse_join_at]. apply approx_bind; [apply approx_refl|]. intros [kind|]; [|apply approx_refl].
  do 3 (apply approx_bind; [apply approx_refl|intros]). apply approx_bind; [|intros; apply approx_refl].
  exact (approx_bounded parse_join_at _ approx_join_at below_join_at).
Qed.

(** Queries *)

Lemma approx_cte_list select select' : approx select select' ->
  approx (parse_cte_list select) (parse_cte_list select').
Proof. intros Hs. apply approx_sep_list. unfold parse_cte. solve_approx. Qed.

Lemma approx_list_clause {A} t (p p' : parser (list A)) : approx p p' -> approx (list_clause t p) (list_clause t p').
Proof. intros Hp. unfold list_clause. solve_approx. Qed.

Lemma approx_select_at n m : (n <= m)%nat -> approx (parse_select_at n) (parse_select_at m).
Proof.
  revert m. induction n as [|n IH]; intros m Hm ts; [by left|]. destruct m as [|m]; [lia|].
  cbn [parse_select_at]. revert ts. apply approx_bind; [|intros; apply approx_refl].
  apply approx_list_clause, approx_cte_list, IH. lia.
Qed.

Lemma parse_select_eq ts : parse_select ts =
  (list_clause KWith (parse_cte_list parse_select) ≫= parse_select_body) ts.
Proof.
  unfold parse_select at 1. apply (approx_eq _ _ (S (length ts))); [|apply below_select_at|lia].
  cbn [parse_select_at]. apply approx_bind; [|intros; apply approx_refl].
  apply approx_list_clause, approx_cte_list.
  exact (approx_bounded parse_select_at _ approx_select_at below_select_at).
Qed.

(** Column options *)

Lemma approx_column_loop n m c : (n <= m)%nat -> approx (column_loop n c) (column_loop m c).
Proof.
  revert m c. induction n as [|n IH]; intros m c Hm ts; [by left|]. destruct m as [|m]; [lia|].
  specialize (fun c => IH m c ltac:(lia)). destruct c. destruct ts as [|t ts]; [by right|].
  rewrite !column_loop_cons. destruct t; try (by right); revert ts; apply IH || solve_approx; apply IH.
Qed.

Lemma column_options_cons name ty nullable def pk un t ts :
  column_options (mkColumnDef name ty nullable def pk un) (t :: ts) =
  match t with
  | KNot => (expect KNull;; column_options (mkColumnDef name ty false def pk un)) ts
  | KNull => column_options (mkColumnDef name ty true def pk un) ts
  | KPrimary => (expect KKey;; column_options (mkColumnDef name ty false def true un)) ts
  | KUnique => column_options (mkColumnDef name ty nullable def pk true) ts
  | KDefault => (e ← parse_expr 0; column_options (mkColumnDef name ty nullable (Some e) pk un)) ts
  | _ => Ok (mkColumnDef name ty nullable def pk un, t :: ts)
  end.
Proof.
  unfold column_options at 1. rewrite column_loop_cons. cbn [length].
  assert (Hb : forall c, below (S (length ts)) (column_loop (S (length ts)) c)).
  { intros c ts' Hts'. by apply column_loop_leaves. }
  assert (Ha : forall c, approx (column_loop (S (length ts)) c) (column_options c)).
  { intros c. refine (approx_bounded (fun n => column_loop n c) _ _ _); [intros; by apply approx_column_loop|].
    intros n ts' Hts'. by apply column_loop_leaves. }
  destruct t; try done; apply (approx_eq _ _ (S (length ts))); try lia; try apply Hb; try apply Ha;
    first [solve_approx; apply Ha | solve_below].
Qed.

Lemma column_options_nil c : column_options c [] = Ok (c, []).
Proof. by destruct c. Qed.

(** Statements *)

Lemma approx_statement_at n m : (n <= m)%nat -> approx (parse_statement_at n) (parse_statement_at m).
Proof.
  revert m. induction n as [|n IH]; intros m Hm ts; [by left|]. destruct m as [|m]; [lia|].
  specialize (IH m ltac:(lia)). cbn [parse_statement_at]. revert ts.
  apply approx_bind; [apply approx_refl|]. intros t. destruct t; cbn [parse_statement_from]; solve_approx.
Qed.

Lemma parse_statement_eq ts : parse_statement ts = (t ← peek; parse_statement_from parse_statement t) ts.
Proof.
  unfold parse_statement at 1. apply (approx_eq _ _ (S (length ts))); [|apply below_statement_at|lia].
  cbn [parse_statement_at]. apply approx_bind; [apply approx_refl|]. intros t.
  pose proof (approx_bounded parse_statement_at (length ts) approx_statement_at below_statement_at).
  destruct t; cbn [parse_statement_from]; solve_approx.
Qed.

(** [NOT LIKE] is cut off.  The loop consumes [NOT] as an infix operator,
    finds neither [IN] behind it nor a binary operator for it, and ends the
    expression; [parse] ignores the rest of the text.  A [DELETE] with a negated
    pattern is thus parsed as the same [DELETE] with the bare column as its
    condition, and [2 ^ 3] as [2]. *)
Theorem not_like_is_dropped :
  parse (text "DELETE FROM t WHERE a NOT LIKE 'x'") = parse (text "DELETE FROM t WHERE a") /\
  is_ok (parse (text "DELETE FROM t WHERE a")) = true /\
  parse (text "SELECT 2 ^ 3 FROM t") = parse (text "SELECT 2").
Proof. vm_compute. done. Qed.

(** [JOIN .. USING] without an alias is refused: [USING] is not a keyword, so
    it is taken for the alias of the table, and no condition is left. *)
Theorem using_taken_for_alias :
  parse (text "SELECT a FROM t JOIN u USING (a)") = Err (ParseErr (parse_error_at ExpectedOnOrUsing)) /\
  is_ok (parse (text "SELECT a FROM t JOIN u AS v USING (a)")) = true.
Proof. vm_compute. done. Qed.

End Methods.

#[local] Instance ascii_only : UnicodeCase := ascii_unicode.

Lemma parse_terminates_witness : is_panic (parse (text "SELECT a FROM ((((")) = false.
Proof. apply (parse_terminates (text "SELECT a FROM ((((")). vm_compute. reflexivity. Defined.

End ParserTotal.
