(* ===== verification/SqlPrint.v ===== *)
(** * Printing expressions

    A printer for expressions with the fewest parentheses the binding powers of
    [SqlParser.v] allow, and that the parser reads its output back.  The printer
    is a specification of the operator grammar: it says which expression a token
    sequence without parentheses stands for. *)

From Stdlib Require Import Ascii String.
From S2P Require Import Prelude Bytes Strings SqlToken SqlLexer SqlAst SqlParser SqlParserTotal.

Module Print.
Import Ast Parser ParserTotal.

(** ** Printer *)

Definition binop_token (op : BinOp) : option Token :=
  match op with
  | Add => Some Plus | Sub => Some Minus | Mul => Some TStar | Div => Some Slash | Mod => Some Percent
  | Eq => Some TEq | NotEq => Some TNotEq | Lt => Some TLt | Gt => Some TGt | LtEq => Some TLtEq | GtEq => Some TGtEq
  | And => Some KAnd | Or => Some KOr
  | Like => Some KLike | NotLike => None
  | Concat => Some TConcat
  | JsonGet => Some Arrow | JsonGetText => Some DoubleArrow | JsonContains => Some Contains
  | JsonKeyExists => Some QuestionMark | JsonMerge => None | JsonPath => Some HashArrow
  | VectorDist => Some TVectorDist
  end.

Definition op_token (op : BinOp) : Token := from_option id EOF (binop_token op).

Definition print_type (t : DataType) : list Token :=
  match t with
  | Boolean => [KBoolean]
  | Int16 => [KSmallint] | Int32 => [KInt] | Int64 => [KBigint]
  | Float32 => [KFloat] | Float64 => [KDouble]
  | TextType => [KText]
  | Varchar n => [KVarchar; LeftParen; IntLiteral (Z.of_N n); RightParen]
  | CharType n => [KChar; LeftParen; IntLiteral (Z.of_N n); RightParen]
  | Bytea => [KBytea]
  | Timestamp => [KTimestamp] | Date => [KDate] | Time => [KTime]
  | Json => [KJson] | Jsonb => [KJsonb]
  | Vector n => [KVector; LeftParen; IntLiteral (Z.of_N n); RightParen]
  end.

(** Token lists with commas between them. *)
Fixpoint commas (l : list (list Token)) : list Token :=
  match l with
  | [] => []
  | [x] => x
  | x :: l => x ++ Comma :: commas l
  end.

(** Whether [e] needs no parentheses where the operators of its left spine must
    bind at least as strong as [min], and the operator that follows has the left
    binding power [stop]. *)
Definition fits (min stop : N) (e : Expr) : bool :=
  match e with
  | BinaryOp op _ _ => let '(lbp, rbp) := infix_bp (op_token op) in (min <=? lbp) && (stop <? rbp)
  | UnaryOp Neg _ => stop <? 70
  | UnaryOp Not _ => stop <? 25
  | IsNull _ | IsNotNull _ | In _ _ => min <=? 30
  | NotIn _ _ => min <=? 22
  | Between _ _ _ => (min <=? 30) && (stop <? 21)
  | _ => true
  end.

Definition paren (fit : bool) (raw : N -> N -> list Token) (min stop : N) : list Token :=
  if fit then raw min stop else LeftParen :: raw 0 0 ++ [RightParen].

Definition print_order (desc : bool) : list Token := if desc then [KDesc] else [].

(** An optional clause: nothing, or a keyword and what follows it. *)
Definition clause {A} (kw : list Token) (p : list A -> list Token) (l : list A) : list Token :=
  match l with
  | [] => []
  | _ => kw ++ p l
  end.

(** The tokens of [e] without outer parentheses. *)
Fixpoint raw (e : Expr) (min stop : N) : list Token :=
  match e with
  | IntLit n => [IntLiteral n]
  | FloatLit f => [FloatLiteral f]
  | StrLit s => [StringLiteral s]
  | BoolLit b => [if b then KTrue else KFalse]
  | Null => [KNull]
  | ColumnRef None c => [QuotedIdent c]
  | ColumnRef (Some t) c => [QuotedIdent t; Dot; QuotedIdent c]
  | Star => [TStar]
  | BinaryOp op l r =>
      let '(lbp, rbp) := infix_bp (op_token op) in
      paren (fits min lbp l) (raw l) min lbp ++ op_token op :: paren (fits rbp stop r) (raw r) rbp stop
  | UnaryOp Neg x => Minus :: paren (fits 70 stop x) (raw x) 70 stop
  | UnaryOp Not x => KNot :: paren (fits 25 stop x) (raw x) 25 stop
  | IsNull x => paren (fits min 30 x) (raw x) min 30 ++ [KIs; KNull]
  | IsNotNull x => paren (fits min 30 x) (raw x) min 30 ++ [KIs; KNot; KNull]
  | Between x l h =>
      paren (fits min 30 x) (raw x) min 30 ++ KBetween :: paren (fits 21 20 l) (raw l) 21 20 ++
      KAnd :: paren (fits 21 stop h) (raw h) 21 stop
  | In x l => paren (fits min 30 x) (raw x) min 30 ++ KIn :: LeftParen :: commas (map (fun y => raw y 0 0) l) ++ [RightParen]
  | NotIn x l =>
      paren (fits min 22 x) (raw x) min 22 ++
      KNot :: KIn :: LeftParen :: commas (map (fun y => raw y 0 0) l) ++ [RightParen]
  | FunctionCall name args _ => QuotedIdent name :: LeftParen :: commas (map (fun y => raw y 0 0) args) ++ [RightParen]
  | WindowFunc name args partition order =>
      QuotedIdent name :: LeftParen :: commas (map (fun y => raw y 0 0) args) ++
      RightParen :: Ident (text "OVER") :: LeftParen ::
      clause [Ident (text "PARTITION"); KBy] (fun l => l) (commas (map (fun y => raw y 0 0) partition)) ++
      clause [KOrder; KBy] (fun l => l) (commas (map (fun y => raw y.1 0 0 ++ print_order y.2) order)) ++ [RightParen]
  | Cast x t => KCast :: LeftParen :: raw x 0 0 ++ KAs :: print_type t ++ [RightParen]
  end.

Definition print_expr_at (min stop : N) (e : Expr) : list Token := paren (fits min stop e) (raw e) min stop.
Definition print_expr (e : Expr) : list Token := raw e 0 0.
Definition print_exprs (l : list Expr) : list Token := commas (map (fun e => raw e 0 0) l).

(** ** Running a parser one step *)

Lemma bind_eq {A B} (m : parser A) (k : A -> parser B) ts a ts' : m ts = Ok (a, ts') -> (m ≫= k) ts = k a ts'.
Proof. intros Hm. unfold mbind, parser_bind. by rewrite Hm. Qed.

Lemma expect_eq t ts : expect t (t :: ts) = Ok ((), ts).
Proof. unfold expect, mbind, parser_bind. cbn. by rewrite bool_decide_eq_true_2. Qed.

Lemma eat_yes t ts : eat t (t :: ts) = Ok (true, ts).
Proof. rewrite eat_eq. cbn. by rewrite bool_decide_eq_true_2. Qed.

Lemma eat_no t ts : from_option id EOF (head ts) <> t -> eat t ts = Ok (false, ts).
Proof. intros Ht. rewrite eat_eq. by rewrite bool_decide_eq_false_2. Qed.

(** Runs [expect] on the token at hand. *)
Ltac eat_tokens := repeat (rewrite (bind_eq _ _ _ () _) by apply expect_eq).

Section Grammar.
Context `{UnicodeCase}.

(** The argument list is [*] alone, or does not start with [*]. *)
Definition args_ok (args : list Expr) : bool :=
  match args with
  | [Star] => true
  | a :: _ => bool_decide (head (print_expr a) <> Some TStar)
  | [] => true
  end.

(** The expressions that have a text: operators with a token, [IN] lists that
    are not empty, function names in upper case, windows on window functions. *)
Fixpoint expr_ok (e : Expr) : bool :=
  match e with
  | BinaryOp op l r => bool_decide (binop_token op <> None) && expr_ok l && expr_ok r
  | UnaryOp _ x | IsNull x | IsNotNull x | Cast x _ => expr_ok x
  | Between x l h => expr_ok x && expr_ok l && expr_ok h
  | In x l | NotIn x l => expr_ok x && forallb expr_ok l && bool_decide (l <> [])
  | FunctionCall name args distinct =>
      bool_decide (to_uppercase name = name) && forallb expr_ok args && args_ok args && negb distinct
  | WindowFunc name args partition order =>
      bool_decide (to_uppercase name = name) && is_window name && forallb expr_ok args && args_ok args &&
      forallb expr_ok partition && forallb (fun y => expr_ok y.1) order
  | _ => true
  end.

(** What may follow an expression: a token of left binding power at most [stop]
    that does not continue a name or a call. *)
Definition follow_token (stop : N) (t : Token) : bool :=
  ((infix_bp t).1 <=? stop) &&
  match t with
  | Dot | LeftParen | Ident _ => false
  | _ => true
  end.
Definition follow (stop : N) (ts : list Token) : bool := follow_token stop (from_option id EOF (head ts)).

(** ** Reading expressions back *)

Lemma fits_0 e : expr_ok e = true -> fits 0 0 e = true.
Proof. intros He. destruct e as [| | | | | | |[]| [] | | | | | | | |]; done. Qed.

Lemma follow_stop min stop ts e : follow stop ts = true -> stop < min -> expr_rest parse_expr min e ts = Ok (e, ts).
Proof.
  destruct ts as [|t ts]; [done|]. unfold follow, follow_token. cbn [head from_option id].
  intros [Hb%N.leb_le _]%andb_prop Hm. rewrite expr_rest_cons.
  destruct (N.eqb_spec (infix_bp t).1 0); [done|]. by rewrite (proj2 (N.ltb_lt _ _)) by lia.
Qed.

Lemma follow_0 min ts e : follow 0 ts = true -> expr_rest parse_expr min e ts = Ok (e, ts).
Proof.
  destruct ts as [|t ts]; [done|]. unfold follow, follow_token. cbn [head from_option id].
  intros [Hb%N.leb_le _]%andb_prop. rewrite expr_rest_cons. by rewrite (proj2 (N.eqb_eq (infix_bp t).1 0)) by lia.
Qed.

Lemma op_token_ok op : binop_token op <> None -> tok_to_binop (op_token op) = Some op /\
  (forall stop, (infix_bp (op_token op)).1 <= stop -> follow_token stop (op_token op) = true) /\
  (infix_bp (op_token op)).1 <> 0 /\ (infix_bp (op_token op)).1 <= (infix_bp (op_token op)).2 /\
  (op_token op ∉ [KIs; KBetween; KIn; KNot]).
Proof.
  intros Ho. unfold follow_token. destruct op; try done; (split_and!; [done| |done|done|]);
    try (intros stop Hs; apply andb_true_intro; split; [by apply N.leb_le|done]);
    apply (bool_decide_unpack _); by vm_compute.
Qed.

(** [e] is read back from its tokens in every context it fits. *)
Definition reads (e : Expr) : Prop := forall min stop ts, fits min stop e = true -> follow stop ts = true ->
  parse_expr min (raw e min stop ++ ts) = expr_rest parse_expr min e ts.

(** Expressions that are one token. *)
Lemma parse_expr_prefix min ts e ts' : parse_prefix parse_expr ts = Ok (e, ts') ->
  parse_expr min ts = expr_rest parse_expr min e ts'.
Proof. intros Hp. rewrite parse_expr_eq. by apply bind_eq. Qed.

Lemma reads_paren e min stop ts : expr_ok e = true -> reads e -> follow stop ts = true ->
  parse_expr min (print_expr_at min stop e ++ ts) = expr_rest parse_expr min e ts.
Proof.
  intros He Hr Hf. unfold print_expr_at, paren. destruct (fits min stop e) eqn:E; [by apply Hr|].
  apply parse_expr_prefix. cbn [app]. rewrite <- app_assoc.
  change (parse_prefix parse_expr (LeftParen :: raw e 0 0 ++ [RightParen] ++ ts))
    with ((e ← parse_expr 0; expect RightParen;; mret e) (raw e 0 0 ++ [RightParen] ++ ts)).
  rewrite (bind_eq _ _ _ e (RightParen :: ts)).
  - by rewrite (bind_eq _ _ _ () ts) by apply expect_eq.
  - rewrite Hr by (done || by apply fits_0). by apply follow_0.
Qed.

Lemma reads_0 e ts : expr_ok e = true -> reads e -> follow 0 ts = true ->
  parse_expr 0 (print_expr e ++ ts) = Ok (e, ts).
Proof. intros He Hr Hf. unfold print_expr. rewrite Hr by (done || by apply fits_0). by apply follow_0. Qed.

(** Comma-separated lists of anything that is read back before a comma. *)
Lemma sep_rest_print {A} (item : parser A) (print : A -> list Token) v l ts :
  (forall N, below N item) -> (from_option id EOF (head ts) <> Comma) ->
  (forall x ts', x ∈ l -> ts' = ts \/ head ts' = Some Comma -> item (print x ++ ts') = Ok (x, ts')) ->
  l <> [] -> sep_rest item v (Comma :: commas (map print l) ++ ts) = Ok (v ++ l, ts).
Proof.
  intros Hb Hc. revert v. induction l as [|x l IH]; intros v Hi Hl; [done|].
  rewrite sep_rest_comma by done. destruct l as [|y l].
  - cbn [map commas]. rewrite (bind_eq _ _ _ x ts) by (apply Hi; [by left|by left]). by rewrite sep_rest_stop.
  - change (commas (map print (x :: y :: l))) with (print x ++ Comma :: commas (map print (y :: l))).
    rewrite <- app_assoc. cbn [app]. rewrite (bind_eq _ _ _ x (Comma :: commas (map print (y :: l)) ++ ts)).
    + rewrite IH; [by rewrite <- app_assoc| |done]. intros z ts' Hz. apply Hi. by right.
    + apply Hi; [by left|by right].
Qed.

Lemma sep_list_print {A} (item : parser A) (print : A -> list Token) l ts :
  (forall N, below N item) -> (from_option id EOF (head ts) <> Comma) ->
  (forall x ts', x ∈ l -> ts' = ts \/ head ts' = Some Comma -> item (print x ++ ts') = Ok (x, ts')) ->
  l <> [] -> sep_list item (commas (map print l) ++ ts) = Ok (l, ts).
Proof.
  intros Hb Hc Hi Hl. rewrite sep_list_eq by done. destruct l as [|x [|y l]]; [done| |].
  - cbn [map commas]. rewrite (bind_eq _ _ _ x ts) by (apply Hi; [by left|by left]). by rewrite sep_rest_stop.
  - change (commas (map print (x :: y :: l))) with (print x ++ Comma :: commas (map print (y :: l))).
    rewrite <- app_assoc. cbn [app]. rewrite (bind_eq _ _ _ x (Comma :: commas (map print (y :: l)) ++ ts)).
    + apply (sep_rest_print item print [x] (y :: l)); [done|done| |done]. intros z ts' Hz. apply Hi. by right.
    + apply Hi; [by left|by right].
Qed.

Lemma follow_comma stop ts ts' : follow stop ts = true -> ts' = ts \/ head ts' = Some Comma -> follow stop ts' = true.
Proof. intros Hf [->|Hc]; [done|]. unfold follow. rewrite Hc. by destruct stop. Qed.

Lemma exprs_read l ts : forallb expr_ok l = true -> Forall reads l -> l <> [] -> follow 0 ts = true ->
  (from_option id EOF (head ts) <> Comma) -> parse_expr_list parse_expr (print_exprs l ++ ts) = Ok (l, ts).
Proof.
  intros Hok Hr Hl Hf Hc. apply sep_list_print; [intros N; apply below_parse_expr|done| |done].
  intros x ts' Hx Hts. apply reads_0; [|by apply (proj1 (Forall_forall _ _) Hr)|by eapply follow_comma].
  by apply (proj1 (forallb_forall _ _) Hok), list_elem_of_In.
Qed.

Lemma print_type_read t ts : from_option id EOF (head ts) <> KPrecision ->
  parse_data_type (print_type t ++ ts) = Ok (t, ts).
Proof.
  intros Hp. assert (Hn : forall n, (0 <=? Z.of_N n)%Z = true) by (intros n; apply Z.leb_le; lia).
  assert (Hu : forall n ts', parse_usize (IntLiteral (Z.of_N n) :: ts') = Ok (n, ts')).
  { intros n ts'. unfold parse_usize, mbind, parser_bind. cbn. by rewrite Hn, N2Z.id. }
  assert (Hl : forall d n ts', parse_length d (LeftParen :: IntLiteral (Z.of_N n) :: RightParen :: ts') = Ok (n, ts')).
  { intros d n ts'. unfold parse_length. rewrite (bind_eq _ _ _ _ _ (eat_yes _ _)).
    rewrite (bind_eq _ _ _ _ _ (Hu _ _)). by eat_tokens. }
  destruct t; try done; cbn [print_type app].
  - change (parse_data_type (KDouble :: ts)) with ((eat KPrecision;; mret Float64) ts).
    by rewrite (bind_eq _ _ _ _ _ (eat_no _ _ Hp)).
  - change (parse_data_type (KVarchar :: LeftParen :: IntLiteral (Z.of_N n) :: RightParen :: ts))
      with ((n ← parse_length 65535; mret (Varchar n)) (LeftParen :: IntLiteral (Z.of_N n) :: RightParen :: ts)).
    by rewrite (bind_eq _ _ _ _ _ (Hl _ _ _)).
  - change (parse_data_type (KChar :: LeftParen :: IntLiteral (Z.of_N n) :: RightParen :: ts))
      with ((n ← parse_length 1; mret (CharType n)) (LeftParen :: IntLiteral (Z.of_N n) :: RightParen :: ts)).
    by rewrite (bind_eq _ _ _ _ _ (Hl _ _ _)).
  - change (parse_data_type (KVector :: LeftParen :: IntLiteral (Z.of_N n) :: RightParen :: ts))
      with ((expect LeftParen;; n ← parse_usize; expect RightParen;; mret (Vector n))
              (LeftParen :: IntLiteral (Z.of_N n) :: RightParen :: ts)).
    eat_tokens. rewrite (bind_eq _ _ _ _ _ (Hu _ _)). by eat_tokens.
Qed.

(** The tokens an expression starts with. *)
Definition starts (t : Token) : bool :=
  match t with
  | IntLiteral _ | FloatLiteral _ | StringLiteral _ | KTrue | KFalse | KNull | TStar | Minus | KNot
  | LeftParen | QuotedIdent _ | KCast => true
  | _ => false
  end.

Definition starts_with (ts : list Token) : Prop := exists t ts', ts = t :: ts' /\ starts t = true.

Lemma starts_app a b : starts_with a -> starts_with (a ++ b).
Proof. intros (t & ts & -> & Ht). by exists t, (ts ++ b). Qed.

Lemma starts_paren fit r min stop : (forall min stop, starts_with (r min stop)) -> starts_with (paren fit r min stop).
Proof. intros Hr. unfold paren. destruct fit; [apply Hr|by eexists _, _]. Qed.

Lemma raw_starts e min stop : starts_with (raw e min stop).
Proof.
  revert min stop. induction e using Expr_rect'; intros min stop; cbn [raw];
    try (by eexists _, _); try (by apply starts_app, starts_paren).
  - destruct b; by eexists _, _.
  - destruct t; by eexists _, _.
  - destruct (infix_bp (op_token op)). by apply starts_app, starts_paren.
  - destruct op; by eexists _, _.
Qed.

Lemma print_exprs_head a args : head (print_exprs (a :: args)) = head (print_expr a).
Proof.
  unfold print_exprs. cbn [map commas]. destruct (raw_starts a 0 0) as (t & ts & He & _). unfold print_expr.
  by destruct (map _ args); rewrite He.
Qed.

Lemma starts_head a b ts : starts_with a -> (starts b = false) -> from_option id EOF (head (a ++ ts)) <> b.
Proof. intros (t & ts' & -> & Ht) Hb. cbn. intros ->. congruence. Qed.

Lemma head_app_some {A} (a b : list A) x : head a = Some x -> head (a ++ b) = Some x.
Proof. by destruct a. Qed.

(** The arguments of a call. *)
Lemma args_read args ts : forallb expr_ok args = true -> Forall reads args -> args_ok args = true ->
  parse_args parse_expr (print_exprs args ++ RightParen :: ts) = Ok (args, ts).
Proof.
  intros Hok Hr Ha. unfold parse_args. destruct args as [|a args]; [done|].
  assert (a :: args = [Star] \/ head (print_expr a) <> Some TStar) as [->|Hs]; [|done|].
  { destruct a; try (right; by apply (bool_decide_eq_true_1 _ Ha)). destruct args; [by left|].
    right. by apply (bool_decide_eq_true_1 _ Ha). }
  destruct (raw_starts a 0 0) as (t & ts' & He & Ht). fold (print_expr a) in He.
  assert (Hhd : head (print_exprs (a :: args) ++ RightParen :: ts) = Some t).
  { apply head_app_some. by rewrite print_exprs_head, He. }
  assert (Hstar : t <> TStar).
  { intros ->. by rewrite He in Hs. }
  unfold at_token. rewrite (bind_eq _ _ _ false (print_exprs (a :: args) ++ RightParen :: ts)).
  2: { unfold mbind, parser_bind. cbn [peek]. rewrite Hhd. cbn. rewrite bool_decide_eq_false_2; [done|]. by intros ->. }
  rewrite (bind_eq _ _ _ (a :: args) (RightParen :: ts)).
  - by eat_tokens.
  - rewrite (bind_eq _ _ _ false (print_exprs (a :: args) ++ RightParen :: ts)) by (apply eat_no; by rewrite Hhd).
    by apply exprs_read.
Qed.

Lemma follow_names stop ts : follow stop ts = true ->
  (from_option id EOF (head ts) <> Dot) /\ (from_option id EOF (head ts) <> LeftParen) /\
  forall w, is_word w (from_option id EOF (head ts)) = false.
Proof. unfold follow, follow_token. intros [_ Ht]%andb_prop. by destruct (from_option id EOF (head ts)). Qed.

Lemma reads_column t c : reads (ColumnRef t c).
Proof.
  intros min stop ts _ Hf. apply follow_names in Hf as (Hd & Hp & _). apply parse_expr_prefix.
  destruct t as [t|]; cbn [raw app].
  - change (parse_prefix parse_expr (QuotedIdent t :: Dot :: QuotedIdent c :: ts))
      with (parse_after_name parse_expr t (Dot :: QuotedIdent c :: ts)).
    unfold parse_after_name. rewrite (bind_eq _ _ _ _ _ (eat_yes _ _)).
    rewrite (bind_eq expect_ident _ _ c ts) by done. by rewrite (bind_eq _ _ _ _ _ (eat_no _ _ Hp)).
  - change (parse_prefix parse_expr (QuotedIdent c :: ts)) with (parse_after_name parse_expr c ts).
    unfold parse_after_name. rewrite (bind_eq _ _ _ _ _ (eat_no _ _ Hd)).
    by rewrite (bind_eq _ _ _ _ _ (eat_no _ _ Hp)).
Qed.

(** The loop takes an operator that binds strongly enough. *)
Lemma rest_infix min e t ts : (infix_bp t).1 <> 0 -> min <= (infix_bp t).1 ->
  expr_rest parse_expr min e (t :: ts) = parse_infix parse_expr (expr_rest parse_expr min) t (infix_bp t).2 e ts.
Proof.
  intros H0 Hm. rewrite expr_rest_cons. rewrite (proj2 (N.eqb_neq _ _) H0).
  by rewrite (proj2 (N.ltb_ge _ _) Hm).
Qed.

Lemma reads_binary op l r : binop_token op <> None -> expr_ok l = true -> expr_ok r = true ->
  reads l -> reads r -> reads (BinaryOp op l r).
Proof.
  intros Ho Hol Hor Hl Hr min stop ts Hfit Hf. cbn [raw]. cbn [fits] in Hfit.
  destruct (op_token_ok op Ho) as (Htok & Hfol & Hnz & Hle & Hspec).
  destruct (infix_bp (op_token op)) as [lbp rbp] eqn:Eb. cbn [fst snd] in *.
  apply andb_prop in Hfit as [Hmin%N.leb_le Hstop%N.ltb_lt]. rewrite <- app_assoc. cbn [app].
  fold (print_expr_at min lbp l). fold (print_expr_at rbp stop r).
  rewrite reads_paren by (done || (apply Hfol; lia)). rewrite rest_infix by (rewrite Eb; done).
  rewrite Eb. cbn [fst snd]. unfold parse_infix.
  rewrite !not_elem_of_cons in Hspec. destruct Hspec as (H1 & H2 & H3 & H4 & _).
  rewrite !bool_decide_eq_false_2 by done. rewrite (bind_eq peek _ _ _ _ eq_refl). cbn [orb andb].
  rewrite Htok. rewrite (bind_eq _ _ _ r ts); [done|]. rewrite reads_paren by done.
  by apply (follow_stop rbp stop).
Qed.

Lemma reads_unary op x : expr_ok x = true -> reads x -> reads (UnaryOp op x).
Proof.
  intros Hx Hr min stop ts Hfit Hf. apply parse_expr_prefix. destruct op; cbn [raw app]; cbn [fits] in Hfit.
  - fold (print_expr_at 70 stop x).
    change (parse_prefix parse_expr (Minus :: print_expr_at 70 stop x ++ ts))
      with ((e ← parse_expr 70; mret (UnaryOp Neg e)) (print_expr_at 70 stop x ++ ts)).
    apply N.ltb_lt in Hfit. rewrite (bind_eq _ _ _ x ts); [done|]. rewrite reads_paren by done.
    by apply (follow_stop 70 stop).
  - fold (print_expr_at 25 stop x).
    change (parse_prefix parse_expr (KNot :: print_expr_at 25 stop x ++ ts))
      with ((e ← parse_expr 25; mret (UnaryOp Not e)) (print_expr_at 25 stop x ++ ts)).
    apply N.ltb_lt in Hfit. rewrite (bind_eq _ _ _ x ts); [done|]. rewrite reads_paren by done.
    by apply (follow_stop 25 stop).
Qed.

Lemma reads_is_null x : expr_ok x = true -> reads x -> reads (IsNull x).
Proof.
  intros Hx Hr min stop ts Hfit%N.leb_le Hf. cbn [raw]. fold (print_expr_at min 30 x). rewrite <- app_assoc. cbn [app].
  rewrite reads_paren by done. rewrite rest_infix by done. unfold parse_infix.
  rewrite bool_decide_eq_true_2 by done. rewrite (bind_eq _ _ _ false (KNull :: ts)) by (by apply eat_no).
  by eat_tokens.
Qed.

Lemma reads_is_not_null x : expr_ok x = true -> reads x -> reads (IsNotNull x).
Proof.
  intros Hx Hr min stop ts Hfit%N.leb_le Hf. cbn [raw]. fold (print_expr_at min 30 x). rewrite <- app_assoc. cbn [app].
  rewrite reads_paren by done. rewrite rest_infix by done. unfold parse_infix.
  rewrite bool_decide_eq_true_2 by done. rewrite (bind_eq _ _ _ _ _ (eat_yes _ _)). by eat_tokens.
Qed.

Lemma reads_between x l h : expr_ok x = true -> expr_ok l = true -> expr_ok h = true ->
  reads x -> reads l -> reads h -> reads (Between x l h).
Proof.
  intros Hx Hl Hh Hrx Hrl Hrh min stop ts [Hm%N.leb_le Hs%N.ltb_lt]%andb_prop Hf. cbn [raw].
  fold (print_expr_at min 30 x). fold (print_expr_at 21 20 l). fold (print_expr_at 21 stop h).
  rewrite <- !app_assoc. cbn [app]. rewrite <- !app_assoc. cbn [app].
  rewrite reads_paren by done. rewrite rest_infix by done. unfold parse_infix.
  rewrite bool_decide_eq_false_2, bool_decide_eq_true_2 by done.
  rewrite (bind_eq _ _ _ l (KAnd :: print_expr_at 21 stop h ++ ts)).
  - eat_tokens. rewrite (bind_eq _ _ _ h ts); [done|]. rewrite reads_paren by done. by apply (follow_stop 21 stop).
  - rewrite reads_paren by done. by apply (follow_stop 21 20).
Qed.

Lemma reads_in x l : expr_ok x = true -> forallb expr_ok l = true -> l <> [] ->
  reads x -> Forall reads l -> reads (In x l).
Proof.
  intros Hx Hl Hne Hrx Hrl min stop ts Hm%N.leb_le Hf. cbn [raw]. fold (print_expr_at min 30 x). fold (print_exprs l).
  rewrite <- app_assoc. cbn [app]. rewrite <- app_assoc. cbn [app].
  rewrite reads_paren by done. rewrite rest_infix by done. unfold parse_infix.
  rewrite !bool_decide_eq_false_2 by done. rewrite (bind_eq peek _ _ _ _ eq_refl).
  rewrite bool_decide_eq_true_2 by done. cbn [orb]. rewrite (bind_eq _ _ _ () _ eq_refl). eat_tokens.
  rewrite (bind_eq _ _ _ l (RightParen :: ts)) by (by apply exprs_read). by eat_tokens.
Qed.

Lemma reads_not_in x l : expr_ok x = true -> forallb expr_ok l = true -> l <> [] ->
  reads x -> Forall reads l -> reads (NotIn x l).
Proof.
  intros Hx Hl Hne Hrx Hrl min stop ts Hm%N.leb_le Hf. cbn [raw]. fold (print_expr_at min 22 x). fold (print_exprs l).
  rewrite <- app_assoc. cbn [app]. rewrite <- app_assoc. cbn [app].
  rewrite reads_paren by done. rewrite rest_infix by done. unfold parse_infix.
  rewrite !(bool_decide_eq_false_2 (KNot = _)) by done. rewrite (bind_eq peek _ _ _ _ eq_refl).
  rewrite !bool_decide_eq_true_2 by done. cbn [orb andb]. rewrite (bind_eq _ _ _ () _ eq_refl). cbn [tail]. eat_tokens.
  rewrite (bind_eq _ _ _ l (RightParen :: ts)) by (by apply exprs_read). by eat_tokens.
Qed.

(** A name and an argument list, up to the closing parenthesis. *)
Lemma call_read name args ts : to_uppercase name = name -> forallb expr_ok args = true -> Forall reads args ->
  args_ok args = true ->
  parse_prefix parse_expr (QuotedIdent name :: LeftParen :: print_exprs args ++ RightParen :: ts) =
  (p ← peek; if is_window name && is_word "OVER" p then advance;; parse_over parse_expr name args
             else mret (FunctionCall name args false)) ts.
Proof.
  intros Hu Hok Hr Ha.
  change (parse_prefix parse_expr (QuotedIdent name :: ?r)) with (parse_after_name parse_expr name r).
  unfold parse_after_name. rewrite (bind_eq _ _ _ false (LeftParen :: print_exprs args ++ RightParen :: ts)) by (by apply eat_no).
  rewrite (bind_eq _ _ _ _ _ (eat_yes _ _)). rewrite (bind_eq _ _ _ args ts) by (by apply args_read).
  cbv zeta. by rewrite Hu.
Qed.

Lemma reads_call name args : to_uppercase name = name -> forallb expr_ok args = true -> args_ok args = true ->
  Forall reads args -> reads (FunctionCall name args false).
Proof.
  intros Hu Hok Ha Hr min stop ts _ Hf. apply parse_expr_prefix. cbn [raw app]. rewrite <- app_assoc. cbn [app].
  fold (print_exprs args). rewrite call_read by done. rewrite (bind_eq peek _ _ _ _ eq_refl).
  apply follow_names in Hf as (_ & _ & Hw). by rewrite Hw, andb_false_r.
Qed.

(** An [ORDER BY] item without the order of nulls. *)
Definition order_item (y : Expr * bool) : OrderByItem := mkOrderByItem y.1 (negb y.2) false.

Definition print_item (i : OrderByItem) : list Token := print_expr (order_expr i) ++ print_order (negb (asc i)).

Lemma item_read (i : OrderByItem) ts : expr_ok (order_expr i) = true -> reads (order_expr i) -> nulls_first i = false ->
  follow 0 ts = true -> from_option id EOF (head ts) <> KDesc -> from_option id EOF (head ts) <> KAsc ->
  parse_order_item parse_expr (print_item i ++ ts) = Ok (i, ts).
Proof.
  destruct i as [e a n]. cbn. intros He Hr -> Hf Hd Ha. unfold parse_order_item, print_item. cbn [order_expr asc].
  rewrite <- app_assoc. destruct a; cbn [negb print_order app].
  - rewrite (bind_eq _ _ _ e ts) by (by apply reads_0). rewrite (bind_eq _ _ _ _ _ (eat_no _ _ Hd)).
    by rewrite (bind_eq _ _ _ _ _ (eat_no _ _ Ha)).
  - rewrite (bind_eq _ _ _ e (KDesc :: ts)) by (by apply reads_0). by rewrite (bind_eq _ _ _ _ _ (eat_yes _ _)).
Qed.

Lemma below_order_item N : below N (parse_order_item parse_expr).
Proof. pose proof (below_parse_expr N 0). unfold parse_order_item. solve_below. Qed.

Lemma items_read (l : list OrderByItem) ts : l <> [] ->
  Forall (fun i => expr_ok (order_expr i) = true /\ reads (order_expr i) /\ nulls_first i = false) l ->
  follow 0 ts = true -> (from_option id EOF (head ts) ∉ [KDesc; KAsc; Comma]) ->
  parse_order_by parse_expr (commas (map print_item l) ++ ts) = Ok (l, ts).
Proof.
  intros Hl Hok Hf Hts. rewrite !not_elem_of_cons in Hts. destruct Hts as (Hd & Ha & Hc & _).
  apply sep_list_print; [apply below_order_item|done| |done]. intros i ts' Hi Hts'.
  destruct (proj1 (Forall_forall _ _) Hok i Hi) as (He & Hr & Hn).
  apply item_read; [done|done|done|by eapply follow_comma|..]; destruct Hts' as [->| ->]; done.
Qed.

Lemma commas_nil l : (forall x, x ∈ l -> x <> []) -> commas l = [] -> l = [].
Proof.
  destruct l as [|x [|y l]]; [done| |]; intros Hl; cbn.
  - intros ->. by destruct (Hl []); [left|].
  - intros Hx. exfalso. by destruct x.
Qed.

Lemma partition_read l ts : forallb expr_ok l = true -> Forall reads l -> follow 0 ts = true ->
  (from_option id EOF (head ts) <> Comma) ->
  parse_partition parse_expr
    (clause [Ident (text "PARTITION"); KBy] (fun l => l) (print_exprs l) ++ ts) = Ok (l, ts).
Proof.
  intros Hok Hr Hf Hc. unfold parse_partition. destruct l as [|x l].
  - cbn. rewrite (bind_eq peek _ _ _ _ eq_refl). by apply follow_names in Hf as (_ & _ & ->).
  - unfold clause. destruct (print_exprs (x :: l)) as [|t r] eqn:E.
    { pose proof (print_exprs_head x l) as Hh. rewrite E in Hh. destruct (raw_starts x 0 0) as (t & ts' & He & _).
      unfold print_expr in Hh. by rewrite He in Hh. }
    rewrite <- E, <- app_assoc. cbn [app]. rewrite (bind_eq peek _ _ _ _ eq_refl). cbn [head from_option id].
    change (is_word "PARTITION" (Ident (text "PARTITION"))) with true. cbn iota.
    rewrite (bind_eq advance _ _ _ _ eq_refl). cbn [tail]. eat_tokens. by apply exprs_read.
Qed.

Lemma print_order_eq (l : list (Expr * bool)) :
  map (fun y => raw y.1 0 0 ++ print_order y.2) l = map print_item (order_item <$> l).
Proof.
  induction l as [|[e b] l IH]; [done|]. cbn [map]. rewrite fmap_cons. cbn [map]. rewrite IH.
  unfold print_item, print_expr. cbn. by rewrite negb_involutive.
Qed.

Lemma window_order_read l ts : forallb (fun y => expr_ok y.1) l = true -> Forall (fun y => reads y.1) l ->
  follow 0 ts = true -> (from_option id EOF (head ts) ∉ [KDesc; KAsc; Comma; KOrder]) ->
  parse_window_order parse_expr
    (clause [KOrder; KBy] (fun l => l) (commas (map (fun y => raw y.1 0 0 ++ print_order y.2) l)) ++ ts) = Ok (l, ts).
Proof.
  intros Hok Hr Hf Hts. rewrite !not_elem_of_cons in Hts. destruct Hts as (Hd & Ha & Hc & Ho & _).
  unfold parse_window_order. destruct l as [|x l]; [cbn; by rewrite (bind_eq _ _ _ _ _ (eat_no _ _ Ho))|].
  rewrite print_order_eq. unfold clause. set (l' := order_item <$> x :: l).
  destruct (commas (map print_item l')) as [|t r] eqn:E.
  { apply commas_nil in E; [done|]. intros ys (i & <- & _)%list_elem_of_In%in_map_iff.
    unfold print_item, print_expr. destruct (raw_starts (order_expr i) 0 0) as (t & ts' & -> & _). done. }
  rewrite <- E, <- app_assoc. cbn [app]. rewrite (bind_eq _ _ _ _ _ (eat_yes _ _)). eat_tokens.
  rewrite (bind_eq _ _ _ l' ts).
  - unfold mret, parser_ret, l'. f_equal. f_equal. rewrite <- list_fmap_compose.
    transitivity (id <$> x :: l); [|apply list_fmap_id]. apply list_fmap_ext. intros _ [e b] _. cbn. by rewrite negb_involutive.
  - apply items_read; [done| |done|rewrite !not_elem_of_cons; split_and!; done || apply not_elem_of_nil]. unfold l'. apply Forall_fmap.
    apply Forall_forall. intros y Hy. cbn. split_and!; [|by apply (proj1 (Forall_forall _ _) Hr)|done].
    by apply (proj1 (forallb_forall _ _) Hok), list_elem_of_In.
Qed.

Lemma reads_window name args partition order : to_uppercase name = name -> is_window name = true ->
  forallb expr_ok args = true -> args_ok args = true -> forallb expr_ok partition = true ->
  forallb (fun y => expr_ok y.1) order = true ->
  Forall reads args -> Forall reads partition -> Forall (fun y => reads y.1) order ->
  reads (WindowFunc name args partition order).
Proof.
  intros Hu Hw Hok Ha Hp Ho Hra Hrp Hro min stop ts _ Hf. apply parse_expr_prefix. cbn [raw app].
  fold (print_exprs args). fold (print_exprs partition).
  set (ord := clause [KOrder; KBy] _ _). set (part := clause _ _ _).
  rewrite <- !app_assoc. cbn [app]. rewrite <- !app_assoc. cbn [app]. rewrite call_read by done.
  rewrite (bind_eq peek _ _ _ _ eq_refl), Hw. cbn [head from_option id].
  change (is_word "OVER" (Ident (text "OVER"))) with true. cbn [andb]. rewrite (bind_eq advance _ _ _ _ eq_refl).
  cbn [tail]. unfold parse_over. eat_tokens.
  assert (Hhd : follow 0 (ord ++ RightParen :: ts) = true /\ from_option id EOF (head (ord ++ RightParen :: ts)) <> Comma).
  { unfold ord, clause. by destruct (commas _). }
  destruct Hhd as [Hh1 Hh2].
  rewrite (bind_eq _ _ _ partition (ord ++ RightParen :: ts)) by (by apply partition_read).
  rewrite (bind_eq _ _ _ order (RightParen :: ts)).
  - by eat_tokens.
  - apply window_order_read; [done|done|done|]. apply (bool_decide_unpack _). by vm_compute.
Qed.

Lemma reads_cast x t : expr_ok x = true -> reads x -> reads (Cast x t).
Proof.
  intros Hx Hr min stop ts _ Hf. apply parse_expr_prefix. cbn [raw app]. rewrite <- app_assoc. cbn [app].
  fold (print_expr x). rewrite <- app_assoc.
  change (parse_prefix parse_expr (KCast :: ?r)) with
    ((expect LeftParen;; e ← parse_expr 0; expect KAs;; to ← parse_data_type; expect RightParen;; mret (Cast e to)) r).
  eat_tokens. rewrite (bind_eq _ _ _ x (KAs :: print_type t ++ [RightParen] ++ ts)) by (by apply reads_0).
  eat_tokens. rewrite (bind_eq _ _ _ t (RightParen :: ts)) by (by apply print_type_read). by eat_tokens.
Qed.

Lemma forallb_Forall {A} (f : A -> bool) (P : A -> Prop) l : Forall (fun x => f x = true -> P x) l ->
  forallb f l = true -> Forall P l.
Proof. induction 1 as [|x l Hx Hl IH]; cbn; [done|]. intros [? ?]%andb_prop. constructor; auto. Qed.

(** Every expression with a text is read back from it. *)
Lemma expr_reads e : expr_ok e = true -> reads e.
Proof.
  induction e using Expr_rect'; cbn [expr_ok]; rewrite ?andb_true_iff; intros Hok; destruct_and?;
    repeat match goal with
    | Hb : bool_decide _ = true |- _ => apply bool_decide_eq_true_1 in Hb
    | Hf : Forall (fun x => ?f x = true -> ?P x) ?l, Hl : forallb ?f ?l = true |- _ =>
        pose proof (forallb_Forall f P l Hf Hl); clear Hf
    end;
    try (intros min stop ts _ Hf; by apply parse_expr_prefix).
  - intros min stop ts _ Hf. apply parse_expr_prefix. by destruct b.
  - apply reads_column.
  - apply reads_binary; auto.
  - apply reads_unary; auto.
  - apply reads_is_null; auto.
  - apply reads_is_not_null; auto.
  - apply reads_between; auto.
  - apply reads_in; auto.
  - apply reads_not_in; auto.
  - destruct d; [done|]. apply reads_call; auto.
  - apply reads_window; auto. by eapply (forallb_Forall (fun y => expr_ok y.1)).
  - apply reads_cast; auto.
Qed.

(** The operator grammar.  An expression printed with parentheses only where
    a binding power demands them is parsed back to itself, whatever it is nested
    in: precedence and associativity of all operators, the prefix operators, [IS
    NULL], [BETWEEN], [IN], calls, window functions and casts are as the
    binding powers say.  The text may be followed by any token that cannot
    continue an expression. *)
Theorem parse_print_expr e ts : expr_ok e = true -> follow 0 ts = true ->
  parse_expr 0 (print_expr e ++ ts) = Ok (e, ts).
Proof. intros He Hf. apply reads_0; [done|by apply expr_reads|done]. Qed.

End Grammar.

#[local] Instance ascii_only : UnicodeCase := ascii_unicode.

(** [a - (b - 1) * 2 = 3 AND NOT c IS NULL], followed by a comma. *)
Lemma parse_print_expr_witness :
  let col s := ColumnRef None (text s) in
  let e := BinaryOp And
    (BinaryOp Eq (BinaryOp Sub (col "a"%string) (BinaryOp Mul (BinaryOp Sub (col "b"%string) (IntLit 1)) (IntLit 2))) (IntLit 3))
    (UnaryOp Not (IsNull (col "c"%string))) in
  parse_expr 0 (print_expr e ++ [Comma]) = Ok (e, [Comma]) /\
  length (filter (fun t => t = LeftParen) (print_expr e)) = 1%nat.
Proof. cbv zeta. split; [apply parse_print_expr|]; vm_compute; reflexivity. Defined.

End Print.
