(* ===== verification/SqlRoundTrip.v ===== *)
(** * Printing statements

    A printer for statements, and that [Parser::parse] reads its text back: every
    statement the parser can produce is the result of parsing a text. *)

From Stdlib Require Import Ascii String.
From S2P Require Import Prelude Bytes Strings SqlToken SqlLexer SqlTokenText SqlAst SqlParser SqlParserTotal SqlPrint.

Module RoundTrip.
Import Ast Parser ParserTotal Print.

(** ** Clauses *)

Definition print_alias (a : option (list N)) : list Token :=
  match a with
  | None => []
  | Some x => [KAs; QuotedIdent x]
  end.

Definition print_idents (l : list (list N)) : list Token := commas (map (fun c => [QuotedIdent c]) l).

Definition print_opt (kw : Token) (e : option Expr) : list Token :=
  match e with
  | None => []
  | Some e => kw :: print_expr e
  end.

Definition print_column (c : SelectColumn) : list Token :=
  match c with
  | ColStar => [TStar]
  | ColExpr e a => print_expr e ++ print_alias a
  end.

Definition print_kind (k : JoinKind) : list Token :=
  match k with
  | InnerJoin => [KJoin]
  | LeftJoin => [KLeft; KJoin]
  | RightJoin => [KRight; KJoin]
  | FullJoin => [KFull; KJoin]
  | CrossJoin => [KCross; KJoin]
  end.

Definition print_condition (c : JoinCondition) : list Token :=
  match c with
  | On e => KOn :: print_expr e
  | Using cols => Ident (text "USING") :: LeftParen :: print_idents cols ++ [RightParen]
  end.

Fixpoint print_join (j : JoinClause) : list Token :=
  match j with
  | mkJoinClause kind (mkTableRef name alias join) condition =>
      print_kind kind ++ QuotedIdent name :: print_alias alias ++ print_condition condition ++
      match join with None => [] | Some j => print_join j end
  end.

Definition print_joins (j : option JoinClause) : list Token :=
  match j with
  | None => []
  | Some j => print_join j
  end.

Definition print_ref (t : TableRef) : list Token :=
  match t with
  | mkTableRef name alias join => QuotedIdent name :: print_alias alias ++ print_joins join
  end.

Definition keyword_clause {A} (kw : list Token) (p : A -> list Token) (l : list A) : list Token :=
  match l with
  | [] => []
  | _ => kw ++ commas (map p l)
  end.

Definition flag (b : bool) (t : Token) : list Token := if b then [t] else [].

Fixpoint print_select (s : SelectStmt) : list Token :=
  match s with
  | mkSelect w distinct cols from wh group having order limit offset =>
      keyword_clause [KWith] (fun l => l) (map print_cte w) ++
      KSelect :: flag distinct KDistinct ++ commas (map print_column cols) ++
      keyword_clause [KFrom] print_ref from ++ print_opt KWhere wh ++
      keyword_clause [KGroup; KBy] print_expr group ++ print_opt KHaving having ++
      keyword_clause [KOrder; KBy] print_item order ++ print_opt KLimit limit ++ print_opt KOffset offset
  end
with print_cte (c : CteClause) : list Token :=
  match c with
  | mkCte name recursive query union_body =>
      flag recursive KRecursive ++ QuotedIdent name :: KAs :: LeftParen :: print_select query ++
      match union_body with
      | None => []
      | Some (mkUnion _ all r) => KUnion :: flag all KAll ++ print_select r
      end ++ [RightParen]
  end.

(** ** What has a text *)

Section Statements.
Context `{UnicodeCase}.

Definition opt_ok (e : option Expr) : bool := match e with None => true | Some e => expr_ok e end.

(** A column expression does not start with [*]. *)
Definition column_ok (c : SelectColumn) : bool :=
  match c with
  | ColStar => true
  | ColExpr e _ => expr_ok e && bool_decide (head (print_expr e) <> Some TStar)
  end.

(** [USING] behind a table without an alias is taken for an alias. *)
Definition condition_ok (c : JoinCondition) (alias : option (list N)) : bool :=
  match c with
  | On e => expr_ok e
  | Using cols => bool_decide (cols <> []) && bool_decide (alias <> None)
  end.

Fixpoint join_ok (j : JoinClause) : bool :=
  match j with
  | mkJoinClause _ (mkTableRef _ alias join) c =>
      condition_ok c alias && match join with None => true | Some j => join_ok j end
  end.

Definition ref_ok (t : TableRef) : bool :=
  match t with
  | mkTableRef _ _ join => match join with None => true | Some j => join_ok j end
  end.

Definition item_ok (i : OrderByItem) : bool := expr_ok (order_expr i) && negb (nulls_first i).

(** The parts of a query other than its common table expressions. *)
Definition body_ok (s : SelectStmt) : bool :=
  match s with
  | mkSelect _ _ cols from wh group having order limit offset =>
      bool_decide (cols <> []) && forallb column_ok cols && forallb ref_ok from && opt_ok wh &&
      forallb expr_ok group && opt_ok having && forallb item_ok order && opt_ok limit && opt_ok offset
  end.

Fixpoint select_ok (s : SelectStmt) : Prop :=
  match s with
  | mkSelect w _ _ _ _ _ _ _ _ _ => body_ok s = true /\ fold_right (fun c P => cte_ok c /\ P) True w
  end
with cte_ok (c : CteClause) : Prop :=
  match c with
  | mkCte _ _ query union_body =>
      select_ok query /\
      match union_body with
      | None => True
      | Some (mkUnion l _ r) => l = query /\ select_ok r
      end
  end.

(** ** Reading clauses back *)

(** The clauses of a query in their order; [RightParen], [UNION], [;] and the end
    of the input stand behind all of them. *)
Definition rank (t : Token) : N :=
  match t with
  | KFrom => 1 | KWhere => 2 | KGroup => 3 | KHaving => 4 | KOrder => 5 | KLimit => 6 | KOffset => 7
  | KUnion | RightParen | Semicolon | EOF => 8
  | _ => 0
  end.

Definition hd (ts : list Token) : Token := from_option id EOF (head ts).

(** What follows starts a clause behind the [i]-th one, or ends the query. *)
Definition after (i : N) (ts : list Token) : Prop := i < rank (hd ts).

Definition join_word (t : Token) : bool :=
  match t with
  | KJoin | KInner | KLeft | KRight | KFull | KCross => true
  | _ => false
  end.

Lemma after_le i j ts : i <= j -> after j ts -> after i ts.
Proof. unfold after. lia. Qed.

Lemma after_follow i ts : after i ts -> follow 0 ts = true /\ (hd ts <> Comma) /\ (hd ts <> KAs) /\ (hd ts <> Dot) /\
  (hd ts ∉ [KDesc; KAsc; Comma]) /\ is_any_ident (hd ts) = false /\ is_ident (hd ts) = false /\
  join_word (hd ts) = false.
Proof.
  unfold after, follow, hd. generalize (from_option id EOF (head ts)). intros t Ht.
  destruct t; cbn in Ht; try lia; split_and!; try done; apply (bool_decide_unpack _); by vm_compute.
Qed.

(** What may follow a list item: a comma, or what may follow the list. *)
Lemma item_follow i ts ts' : after i ts -> ts' = ts \/ head ts' = Some Comma ->
  follow 0 ts' = true /\ (hd ts' <> KAs) /\ (hd ts' <> Dot) /\ (hd ts' ∉ [KDesc; KAsc]) /\
  is_any_ident (hd ts') = false /\ is_ident (hd ts') = false /\ join_word (hd ts') = false.
Proof.
  intros Ha [->|Hc].
  - destruct (after_follow i ts Ha) as (? & ? & ? & ? & Hn & ? & ? & ?). split_and!; try done.
    rewrite !not_elem_of_cons in *. destruct Hn as (? & ? & _). split_and!; done || apply not_elem_of_nil.
  - unfold hd, follow. rewrite Hc. split_and!; try done. apply (bool_decide_unpack _). by vm_compute.
Qed.

Lemma ident_read x ts : expect_ident (QuotedIdent x :: ts) = Ok (x, ts).
Proof. done. Qed.

Lemma alias_read bare a ts : bare (hd ts) = false -> hd ts <> KAs ->
  parse_alias bare (print_alias a ++ ts) = Ok (a, ts).
Proof.
  intros Hb Ha. unfold parse_alias. destruct a as [x|]; cbn [print_alias app].
  - rewrite (bind_eq _ _ _ _ _ (eat_yes _ _)). by rewrite (bind_eq _ _ _ _ _ (ident_read _ _)).
  - rewrite (bind_eq _ _ _ _ _ (eat_no _ _ Ha)). rewrite (bind_eq peek _ _ _ _ eq_refl).
    fold (hd ts). by rewrite Hb.
Qed.

Lemma idents_read l ts : l <> [] -> hd ts <> Comma -> parse_ident_list (print_idents l ++ ts) = Ok (l, ts).
Proof. intros Hl Hc. by apply sep_list_print; [apply below_expect_ident|..]. Qed.

Lemma expr_read e ts : expr_ok e = true -> follow 0 ts = true -> parse_expr 0 (print_expr e ++ ts) = Ok (e, ts).
Proof. intros He Hf. apply reads_0; [done|by apply expr_reads|done]. Qed.

Lemma exprs_read' l ts : forallb expr_ok l = true -> l <> [] -> follow 0 ts = true -> hd ts <> Comma ->
  parse_expr_list parse_expr (print_exprs l ++ ts) = Ok (l, ts).
Proof.
  intros Hok Hl Hf Hc. apply exprs_read; [done| |done|done|done].
  apply List.Forall_forall. intros e He. apply expr_reads. by apply (proj1 (forallb_forall _ _) Hok).
Qed.

(** An optional expression behind its keyword. *)
Lemma opt_read i kw e ts : opt_ok e = true -> rank kw = i -> after i ts ->
  opt_clause kw (parse_expr 0) (print_opt kw e ++ ts) = Ok (e, ts).
Proof.
  intros He Hr Ha. unfold opt_clause. destruct e as [e|]; cbn [print_opt app].
  - rewrite (bind_eq _ _ _ _ _ (eat_yes _ _)). rewrite (bind_eq _ _ _ e ts); [done|].
    apply expr_read; [done|]. by apply after_follow in Ha as [? _].
  - rewrite (bind_eq _ _ _ false ts); [done|]. apply eat_no. intros Hh. unfold after, hd in Ha. rewrite Hh in Ha. lia.
Qed.

Lemma after_opt i kw e ts : rank kw = i + 1 -> after (i + 1) ts -> after i (print_opt kw e ++ ts).
Proof. intros Hr Ha. destruct e as [e|]; cbn [print_opt app]; unfold after in *; cbn; lia. Qed.

Lemma after_clause {A} i kw kws (p : A -> list Token) l ts : rank kw = i + 1 -> after (i + 1) ts ->
  after i (keyword_clause (kw :: kws) p l ++ ts).
Proof. intros Hr Ha. destruct l; cbn [keyword_clause app]; unfold after in *; cbn; lia. Qed.

(** A clause with a list behind its keyword. *)
Lemma clause_read {A} i kw kws (p : parser (list A)) (print : A -> list Token) l ts : rank kw = i -> after i ts ->
  (l <> [] -> p (kws ++ commas (map print l) ++ ts) = Ok (l, ts)) ->
  list_clause kw p (keyword_clause (kw :: kws) print l ++ ts) = Ok (l, ts).
Proof.
  intros Hr Ha Hp. unfold list_clause. destruct l as [|x l]; cbn [keyword_clause app].
  - rewrite (bind_eq _ _ _ false ts); [done|]. apply eat_no. intros Hh. unfold after, hd in Ha. rewrite Hh in Ha. lia.
  - rewrite (bind_eq _ _ _ _ _ (eat_yes _ _)). rewrite <- app_assoc. by apply Hp.
Qed.

(** ** Tables and joins *)

Lemma kind_read k ts : parse_join_kind (print_kind k ++ ts) = Ok (Some k, ts).
Proof.
  destruct k; cbn [print_kind app]; [done|..].
  1-3: match goal with |- parse_join_kind (?t :: ?r) = Ok (Some ?k, _) =>
         change (parse_join_kind (t :: r)) with ((eat KOuter;; expect KJoin;; mret (Some k)) r) end;
       rewrite (bind_eq _ _ _ false (KJoin :: ts)) by (by apply eat_no); by eat_tokens.
  change (parse_join_kind (KCross :: KJoin :: ts)) with ((expect KJoin;; mret (Some CrossJoin)) (KJoin :: ts)).
  by eat_tokens.
Qed.

Lemma no_join ts : join_word (hd ts) = false -> parse_optional_join ts = Ok (None, ts).
Proof.
  intros Hj. rewrite parse_optional_join_eq. rewrite (bind_eq _ _ _ None ts); [done|].
  unfold parse_join_kind. rewrite (bind_eq peek _ _ _ _ eq_refl). fold (hd ts). by destruct (hd ts).
Qed.

Lemma condition_read kind c alias ts : condition_ok c alias = true -> follow 0 ts = true ->
  parse_join_condition kind (print_condition c ++ ts) = Ok (c, ts).
Proof.
  intros Hc Hf. unfold parse_join_condition. destruct c as [e|cols]; cbn [print_condition app].
  - rewrite (bind_eq _ _ _ _ _ (eat_yes _ _)). by rewrite (bind_eq _ _ _ e ts) by (by apply expr_read).
  - apply andb_prop in Hc as [Hne%bool_decide_eq_true_1 _]. rewrite <- app_assoc. cbn [app].
    rewrite (bind_eq _ _ _ false (Ident (text "USING") :: LeftParen :: print_idents cols ++ RightParen :: ts))
      by (by apply eat_no).
    rewrite (bind_eq peek _ _ _ _ eq_refl). cbn [head from_option id].
    change (is_word "USING" (Ident (text "USING"))) with true. cbn iota.
    rewrite (bind_eq advance _ _ _ _ eq_refl). cbn [tail]. eat_tokens.
    rewrite (bind_eq _ _ _ cols (RightParen :: ts)) by (by apply idents_read). by eat_tokens.
Qed.

(** The conditions on what follows a table. *)
Definition table_follow (ts : list Token) : Prop :=
  follow 0 ts = true /\ (hd ts <> KAs) /\ (hd ts <> Dot) /\ is_any_ident (hd ts) = false /\ join_word (hd ts) = false.

Lemma joins_head j ts : table_follow ts ->
  follow 0 (print_joins j ++ ts) = true /\ (hd (print_joins j ++ ts) <> KAs) /\ (hd (print_joins j ++ ts) <> Dot) /\
  is_any_ident (hd (print_joins j ++ ts)) = false.
Proof.
  intros (Hf & Ha & Hd & Hi & Hj). destruct j as [[kind [name alias join] c]|]; [|done].
  by destruct kind.
Qed.

Lemma condition_head c alias ts : condition_ok c alias = true ->
  (hd (print_condition c ++ ts) <> KAs) /\ (alias = None -> is_ident (hd (print_condition c ++ ts)) = false).
Proof.
  destruct c as [e|cols]; [done|]. intros [_ Ha%bool_decide_eq_true_1]%andb_prop. split; [done|]. by intros ->.
Qed.

(** The alias in front of a join condition. *)
Lemma join_alias_read c alias ts : condition_ok c alias = true ->
  parse_alias is_ident (print_alias alias ++ print_condition c ++ ts) = Ok (alias, print_condition c ++ ts).
Proof.
  intros Hc. destruct (condition_head c alias ts Hc) as [Ha Hi]. destruct alias as [a|].
  - unfold parse_alias. cbn [print_alias app]. rewrite (bind_eq _ _ _ _ _ (eat_yes _ _)).
    by rewrite (bind_eq _ _ _ _ _ (ident_read _ _)).
  - apply alias_read; auto.
Qed.

Lemma join_read j : join_ok j = true -> forall ts, table_follow ts ->
  parse_optional_join (print_join j ++ ts) = Ok (Some j, ts).
Proof.
  revert j. fix IH 1. intros [kind [name alias join] c] Hok ts Hts. cbn [join_ok] in Hok.
  apply andb_prop in Hok as [Hc Hj]. cbn [print_join]. fold (print_joins join).
  rewrite parse_optional_join_eq. rewrite <- app_assoc, (bind_eq _ _ _ _ _ (kind_read _ _)). cbn [app].
  rewrite (bind_eq _ _ _ _ _ (ident_read _ _)). rewrite <- !app_assoc.
  rewrite (bind_eq _ _ _ _ _ (join_alias_read _ _ _ Hc)).
  rewrite (bind_eq _ _ _ c (print_joins join ++ ts)).
  - rewrite (bind_eq _ _ _ join ts); [done|]. destruct join as [j|]; cbn [print_joins app]; [by apply IH|].
    apply no_join. apply Hts.
  - apply (condition_read _ _ alias); [done|]. by apply joins_head.
Qed.

Lemma ref_read r ts : ref_ok r = true -> table_follow ts -> parse_table_ref (print_ref r ++ ts) = Ok (r, ts).
Proof.
  destruct r as [name alias join]. intros Hok Hts. cbn [print_ref app ref_ok] in *. unfold parse_table_ref.
  destruct (joins_head join ts Hts) as (Hf & Ha & Hd & Hi).
  rewrite (bind_eq _ _ _ _ _ (ident_read _ _)). rewrite <- app_assoc.
  rewrite (bind_eq _ _ _ false (print_alias alias ++ print_joins join ++ ts)).
  - rewrite (bind_eq _ _ _ name (print_alias alias ++ print_joins join ++ ts)) by done.
    rewrite (bind_eq _ _ _ alias (print_joins join ++ ts)) by (by apply alias_read).
    rewrite (bind_eq _ _ _ join ts); [done|]. destruct join as [j|]; cbn [print_joins app]; [by apply join_read|].
    apply no_join, Hts.
  - apply eat_no. by destruct alias.
Qed.

Lemma below_table_ref N : below N parse_table_ref.
Proof.
  pose proof (below_optional_join N). pose proof (below_parse_alias N is_any_ident). unfold parse_table_ref. solve_below.
Qed.

Lemma refs_read l ts : l <> [] -> forallb ref_ok l = true -> after 1 ts ->
  parse_table_refs (commas (map print_ref l) ++ ts) = Ok (l, ts).
Proof.
  intros Hl Hok Ha. apply sep_list_print; [apply below_table_ref|by apply (after_follow 1)| |done].
  intros r ts' Hr Hts'. destruct (item_follow 1 ts ts' Ha Hts') as (Hf & Has & Hd & _ & Hi & _ & Hj).
  apply ref_read; [|by repeat split]. by apply (proj1 (forallb_forall _ _) Hok), list_elem_of_In.
Qed.

(** ** Columns and order items *)

Lemma column_read c ts : column_ok c = true -> follow 0 ts = true -> hd ts <> KAs -> is_ident (hd ts) = false ->
  parse_select_column (print_column c ++ ts) = Ok (c, ts).
Proof.
  intros Hc Hf Ha Hi. unfold parse_select_column. destruct c as [|e a]; cbn [print_column app].
  - by rewrite (bind_eq _ _ _ _ _ (eat_yes _ _)).
  - apply andb_prop in Hc as [He Hs%bool_decide_eq_true_1]. rewrite <- app_assoc.
    rewrite (bind_eq _ _ _ false (print_expr e ++ print_alias a ++ ts)).
    + rewrite (bind_eq _ _ _ e (print_alias a ++ ts)); [by rewrite (bind_eq _ _ _ a ts) by (by apply alias_read)|].
      apply expr_read; [done|]. by destruct a.
    + apply eat_no. unfold print_expr in *. destruct (raw_starts e 0 0) as (t & r & He' & _). rewrite He' in Hs |- *. cbn in *. congruence.
Qed.

Lemma columns_read l ts : l <> [] -> forallb column_ok l = true -> after 0 ts ->
  parse_select_columns (commas (map print_column l) ++ ts) = Ok (l, ts).
Proof.
  intros Hl Hok Ha. apply sep_list_print; [apply below_select_column|by apply (after_follow 0)| |done].
  intros c ts' Hc Hts'. destruct (item_follow 0 ts ts' Ha Hts') as (Hf & Has & Hd & _ & _ & Hi & _).
  apply column_read; [|done|done|done]. by apply (proj1 (forallb_forall _ _) Hok), list_elem_of_In.
Qed.

Lemma items_read' l ts : l <> [] -> forallb item_ok l = true -> after 5 ts ->
  parse_order_by parse_expr (commas (map print_item l) ++ ts) = Ok (l, ts).
Proof.
  intros Hl Hok Ha. destruct (after_follow 5 ts Ha) as (Hf & _ & _ & _ & Hn & _). apply items_read; [done| |done|done].
  apply List.Forall_forall. intros i Hi. apply (proj1 (forallb_forall _ _) Hok) in Hi.
  apply andb_prop in Hi as [He Hn'%negb_true_iff]. split_and!; [done|by apply expr_reads|done].
Qed.

(** ** Queries *)

(** What may follow a query. *)
Definition stops (ts : list Token) : Prop := after 7 ts.

(** A query behind its [WITH] clause. *)
Definition print_body (s : SelectStmt) : list Token :=
  match s with
  | mkSelect _ distinct cols from wh group having order limit offset =>
      KSelect :: flag distinct KDistinct ++ commas (map print_column cols) ++
      keyword_clause [KFrom] print_ref from ++ print_opt KWhere wh ++
      keyword_clause [KGroup; KBy] print_expr group ++ print_opt KHaving having ++
      keyword_clause [KOrder; KBy] print_item order ++ print_opt KLimit limit ++ print_opt KOffset offset
  end.

Definition ctes (s : SelectStmt) : list CteClause := match s with mkSelect w _ _ _ _ _ _ _ _ _ => w end.

Lemma distinct_read d cols ts : cols <> [] ->
  parse_distinct (flag d KDistinct ++ commas (map print_column cols) ++ ts) = Ok (d, commas (map print_column cols) ++ ts).
Proof.
  intros Hc. unfold parse_distinct. destruct d; cbn [flag app]; [by rewrite (bind_eq _ _ _ _ _ (eat_yes _ _))|].
  assert (Hs : starts_with (commas (map print_column cols))).
  { destruct cols as [|c cols]; [done|]. assert (starts_with (print_column c)) as Hp.
    { destruct c; [by eexists _, _|]. apply starts_app, raw_starts. }
    cbn [map commas]. destruct (map print_column cols); [done|by apply starts_app]. }
  rewrite (bind_eq _ _ _ _ _ (eat_no KDistinct _ (starts_head _ KDistinct _ Hs eq_refl))).
  by rewrite (bind_eq _ _ _ _ _ (eat_no KAll _ (starts_head _ KAll _ Hs eq_refl))).
Qed.

Lemma body_read s ts : body_ok s = true -> stops ts -> parse_select_body (ctes s) (print_body s ++ ts) = Ok (s, ts).
Proof.
  destruct s as [w d cols from wh group having order limit offset]. cbn [body_ok ctes print_body]. intros Hok Hts.
  rewrite !andb_true_iff in Hok. destruct Hok as ((((((((Hne%bool_decide_eq_true_1 & Hcols) & Hfrom) & Hwh) & Hgroup)
    & Hhaving) & Horder) & Hlimit) & Hoffset).
  assert (H6 : after 6 (print_opt KOffset offset ++ ts)) by (by apply after_opt). set (t6 := print_opt KOffset offset ++ ts) in *.
  assert (H5 : after 5 (print_opt KLimit limit ++ t6)) by (by apply after_opt). set (t5 := print_opt KLimit limit ++ t6) in *.
  assert (H4 : after 4 (keyword_clause [KOrder; KBy] print_item order ++ t5)) by (by apply after_clause).
  set (t4 := keyword_clause [KOrder; KBy] print_item order ++ t5) in *.
  assert (H3 : after 3 (print_opt KHaving having ++ t4)) by (by apply after_opt). set (t3 := print_opt KHaving having ++ t4) in *.
  assert (H2 : after 2 (keyword_clause [KGroup; KBy] print_expr group ++ t3)) by (by apply after_clause).
  set (t2 := keyword_clause [KGroup; KBy] print_expr group ++ t3) in *.
  assert (H1 : after 1 (print_opt KWhere wh ++ t2)) by (by apply after_opt). set (t1 := print_opt KWhere wh ++ t2) in *.
  assert (H0 : after 0 (keyword_clause [KFrom] print_ref from ++ t1)) by (by apply after_clause).
  set (t0 := keyword_clause [KFrom] print_ref from ++ t1) in *.
  cbn [app]. rewrite <- !app_assoc. fold t6 t5 t4 t3 t2 t1 t0. unfold parse_select_body. eat_tokens.
  rewrite (bind_eq _ _ _ d (commas (map print_column cols) ++ t0)) by (by apply distinct_read).
  rewrite (bind_eq _ _ _ cols t0) by (by apply columns_read).
  rewrite (bind_eq _ _ _ from t1) by (apply (clause_read 1); [done|done|]; intros; by apply refs_read).
  rewrite (bind_eq _ _ _ wh t2) by (by apply (opt_read 2)).
  rewrite (bind_eq _ _ _ group t3).
  2: { apply (clause_read 3); [done|done|]. intros Hg. cbn [app]. eat_tokens.
       destruct (after_follow 3 t3 H3) as (Hf & Hc & _). by apply exprs_read'. }
  rewrite (bind_eq _ _ _ having t4) by (by apply (opt_read 4)).
  rewrite (bind_eq _ _ _ order t5).
  2: { apply (clause_read 5); [done|done|]. intros Hg. cbn [app]. eat_tokens. by apply items_read'. }
  rewrite (bind_eq _ _ _ limit t6) by (by apply (opt_read 6)).
  by rewrite (bind_eq _ _ _ offset ts) by (by apply (opt_read 7)).
Qed.

Lemma print_select_eq s : print_select s = keyword_clause [KWith] print_cte (ctes s) ++ print_body s.
Proof.
  destruct s as [w d cols from wh group having order limit offset]. cbn [print_select ctes print_body]. f_equal.
  destruct w; [done|]. cbn [keyword_clause map]. by rewrite map_id.
Qed.

Lemma body_starts s : exists r, print_body s = KSelect :: r.
Proof. destruct s. by eexists. Qed.

(** The queries inside a common table expression are shorter than the query. *)
Lemma commas_length (l : list (list Token)) x : x ∈ l -> (length x <= length (commas l))%nat.
Proof.
  induction l as [|y l IH]; intros Hx; [by apply not_elem_of_nil in Hx|].
  destruct l as [|z l]; cbn [commas]; [apply list_elem_of_singleton in Hx as ->; lia|].
  rewrite length_app. cbn [length]. apply elem_of_cons in Hx as [->|Hx]; [lia|]. specialize (IH Hx). cbn [commas] in IH. lia.
Qed.

Lemma cte_shorter s c : c ∈ ctes s -> (length (print_cte c) < length (print_select s))%nat.
Proof.
  intros Hc. rewrite print_select_eq, length_app. destruct (body_starts s) as [r ->].
  destruct (ctes s) as [|c' l] eqn:E; [by apply not_elem_of_nil in Hc|]. cbn [keyword_clause].
  rewrite length_app. cbn [length]. pose proof (commas_length (map print_cte (c' :: l)) (print_cte c)) as Hl.
  specialize (Hl ltac:(apply list_elem_of_In, in_map, list_elem_of_In; done)). lia.
Qed.

(** What reading a query back means. *)
Definition select_reads (s : SelectStmt) : Prop := forall ts, stops ts ->
  parse_select (print_select s ++ ts) = Ok (s, ts).

Lemma cte_read c ts : (forall s, (length (print_select s) < length (print_cte c))%nat -> select_ok s -> select_reads s) ->
  cte_ok c -> parse_cte parse_select (print_cte c ++ ts) = Ok (c, ts).
Proof.
  destruct c as [name recursive query u]. cbn [cte_ok print_cte]. intros Hs [Hq Hu]. unfold parse_cte.
  set (un := match u with None => [] | Some _ => _ end) in *.
  rewrite <- app_assoc. cbn [app]. rewrite <- !app_assoc. rewrite !length_app in Hs. cbn [length app] in Hs |- *.
  rewrite (bind_eq _ _ _ recursive (QuotedIdent name :: KAs :: LeftParen :: print_select query ++ un ++ RightParen :: ts)).
  2: { destruct recursive; cbn [flag app]; [apply eat_yes|by apply eat_no]. }
  rewrite (bind_eq _ _ _ _ _ (ident_read _ _)). eat_tokens.
  rewrite (bind_eq _ _ _ query (un ++ RightParen :: ts)).
  2: { apply Hs; [rewrite !length_app; cbn; lia|done|]. unfold un. by destruct u as [[]|]. }
  destruct u as [[l all r]|].
  - destruct Hu as [-> Hr]. unfold un. cbn [app]. rewrite (bind_eq _ _ _ _ _ (eat_yes _ _)). rewrite <- app_assoc.
    rewrite (bind_eq _ _ _ (Some (mkUnion query all r)) (RightParen :: ts)); [by eat_tokens|].
    rewrite (bind_eq _ _ _ all (print_select r ++ RightParen :: ts)).
    2: { destruct all; cbn [flag app]; [apply eat_yes|]. apply eat_no. rewrite print_select_eq.
         destruct (body_starts r) as [x ->]. by destruct (ctes r). }
    rewrite (bind_eq _ _ _ r (RightParen :: ts)); [done|].
    apply Hs; [unfold un; repeat (rewrite !length_app; cbn [length]); lia|done|done].
  - unfold un. cbn [app]. rewrite (bind_eq _ _ _ false (RightParen :: ts)) by (by apply eat_no).
    rewrite (bind_eq _ _ _ None (RightParen :: ts)) by done. by eat_tokens.
Qed.

Lemma fold_right_Forall {A} (P : A -> Prop) l : fold_right (fun x Q => P x /\ Q) True l -> Forall P l.
Proof. induction l as [|x l IH]; [constructor|]. intros [Hx Hl]. constructor; auto. Qed.

Lemma below_cte_list N : below N (parse_cte parse_select).
Proof. apply below_cte, below_select. Qed.

(** The [WITH] clause of a query. *)
Lemma with_read s ts :
  (forall c, c ∈ ctes s -> forall ts, parse_cte parse_select (print_cte c ++ ts) = Ok (c, ts)) ->
  list_clause KWith (parse_cte_list parse_select) (keyword_clause [KWith] print_cte (ctes s) ++ print_body s ++ ts) =
  Ok (ctes s, print_body s ++ ts).
Proof.
  intros Hc. unfold list_clause. destruct (body_starts s) as [r Hr]. destruct (ctes s) as [|c l].
  - cbn [keyword_clause app]. rewrite (bind_eq _ _ _ false (print_body s ++ ts)); [done|]. apply eat_no. by rewrite Hr.
  - cbn [keyword_clause]. rewrite <- app_assoc. cbn [app]. rewrite (bind_eq _ _ _ _ _ (eat_yes _ _)).
    apply sep_list_print; [apply below_cte_list|by rewrite Hr| |done]. intros x ts' Hx _. by apply Hc.
Qed.

Lemma select_read s : select_ok s -> select_reads s.
Proof.
  remember (length (print_select s)) as n eqn:Hn. assert (Hle : (length (print_select s) <= n)%nat) by lia. clear Hn.
  revert s Hle. induction n as [|n IH]; intros s Hle Hok ts Hts.
  { rewrite print_select_eq, length_app in Hle. destruct (body_starts s) as [r Hr]. rewrite Hr in Hle. cbn in Hle. lia. }
  assert (Hbody : body_ok s = true) by (destruct s; apply Hok).
  assert (Hctes : Forall cte_ok (ctes s)) by (destruct s; apply fold_right_Forall, Hok).
  rewrite parse_select_eq, print_select_eq, <- app_assoc.
  rewrite (bind_eq _ _ _ (ctes s) (print_body s ++ ts)); [by apply body_read|]. apply with_read.
  intros c Hc ts'. apply cte_read; [|by apply (proj1 (Forall_forall _ _) Hctes)].
  intros q Hq. apply IH. pose proof (cte_shorter s c Hc). lia.
Qed.

(** ** Statements *)

Definition print_row (r : list Expr) : list Token := LeftParen :: print_exprs r ++ [RightParen].
Definition print_assignment (a : list N * Expr) : list Token := QuotedIdent a.1 :: TEq :: print_expr a.2.
Definition print_names (l : list (list N)) : list Token := LeftParen :: print_idents l ++ [RightParen].

Definition print_options (c : ColumnDef) : list Token :=
  match c with
  | mkColumnDef _ _ nullable def pk un =>
      (if pk then KPrimary :: KKey :: flag nullable KNull else if nullable then [] else [KNot; KNull]) ++
      flag un KUnique ++ print_opt KDefault def
  end.

Definition print_coldef (c : ColumnDef) : list Token :=
  QuotedIdent (column_name c) :: print_type (data_type c) ++ print_options c.

Definition print_constraint (c : TableConstraint) : list Token :=
  match c with
  | PrimaryKey cols => KPrimary :: KKey :: print_names cols
  | Unique cols => KUnique :: print_names cols
  | CheckConstraint _ => []
  end.

Definition print_element (x : ColumnDef + TableConstraint) : list Token :=
  match x with
  | inl c => print_coldef c
  | inr c => print_constraint c
  end.

(** The table constraints that are not the keys of single columns. *)
Definition explicit (s : CreateTableStmt) : list TableConstraint :=
  take (length (constraints s) - length (inline_keys (columns s))) (constraints s).

Definition elements (s : CreateTableStmt) : list (ColumnDef + TableConstraint) :=
  (inl <$> columns s) ++ (inr <$> explicit s).

Definition print_storage (l : StorageLayout) : list Token :=
  match l with
  | RowLayout => []
  | Columnar => [KStorage; KColumnar]
  end.

Fixpoint print_statement (s : Statement) : list Token :=
  match s with
  | SelectStatement q => print_select q
  | Insert (mkInsert t cols (Values rows)) =>
      KInsert :: KInto :: QuotedIdent t :: match cols with [] => [] | _ => print_names cols end ++
      KValues :: commas (map print_row rows)
  | Insert (mkInsert _ _ (SelectSource _)) => []
  | Update (mkUpdate t alias assignments wh) =>
      KUpdate :: QuotedIdent t :: print_alias alias ++ KSet :: commas (map print_assignment assignments) ++
      print_opt KWhere wh
  | Delete (mkDelete t alias wh) => KDelete :: KFrom :: QuotedIdent t :: print_alias alias ++ print_opt KWhere wh
  | CreateTable c =>
      KCreate :: KTable :: (if if_not_exists c then [KIf; KNot; KExists] else []) ++
      QuotedIdent (create_table c) :: LeftParen :: commas (map print_element (elements c)) ++
      RightParen :: print_storage (storage c)
  | DropTable d => KDrop :: KTable :: (if if_exists d then [KIf; KExists] else []) ++ [QuotedIdent (drop_table d)]
  | Begin => [KBegin]
  | Commit => [KCommit]
  | Rollback => [KRollback]
  | Explain s => KExplain :: print_statement s
  | Analyze t => [KAnalyze; QuotedIdent t]
  | CreateVectorIndex t c => [KCreate; KVector; KIndex; KOn; QuotedIdent t; LeftParen; QuotedIdent c; RightParen]
  | CreateGinIndex t c =>
      [KCreate; Ident (text "GIN"); KIndex; KOn; QuotedIdent t; LeftParen; QuotedIdent c; RightParen]
  | Vacuum t => [KVacuum; QuotedIdent t]
  | SetVar n v => [KSet; QuotedIdent n; TEq; StringLiteral v]
  | ShowVar n => [Ident (text "SHOW"); QuotedIdent n]
  end.

Definition row_ok (r : list Expr) : bool := bool_decide (r <> []) && forallb expr_ok r.

Definition constraint_ok (c : TableConstraint) : bool :=
  match c with
  | PrimaryKey cols | Unique cols => bool_decide (cols <> [])
  | CheckConstraint _ => false
  end.

(** The statements that have a text: those without [INSERT .. SELECT] and
    [CHECK], whose parts have a text, and whose table constraints end in the keys
    of the columns. *)
Fixpoint statement_ok (s : Statement) : Prop :=
  match s with
  | SelectStatement q => select_ok q
  | Insert (mkInsert _ _ (Values rows)) => rows <> [] /\ forallb row_ok rows = true
  | Insert (mkInsert _ _ (SelectSource _)) => False
  | Update (mkUpdate _ _ assignments wh) =>
      assignments <> [] /\ forallb (fun a => expr_ok a.2) assignments = true /\ opt_ok wh = true
  | Delete (mkDelete _ _ wh) => opt_ok wh = true
  | CreateTable c =>
      elements c <> [] /\ constraints c = explicit c ++ inline_keys (columns c) /\
      forallb constraint_ok (explicit c) = true /\ forallb (fun c => opt_ok (default_value c)) (columns c) = true
  | Explain s => statement_ok s
  | _ => True
  end.

Lemma names_read {B} (k : list (list N) -> B) l ts : l <> [] ->
  (expect LeftParen;; cols ← parse_ident_list; expect RightParen;; mret (k cols)) (print_names l ++ ts) = Ok (k l, ts).
Proof.
  intros Hl. unfold print_names. cbn [app]. rewrite <- app_assoc. eat_tokens.
  rewrite (bind_eq _ _ _ l (RightParen :: ts)) by (by apply idents_read). by eat_tokens.
Qed.

Lemma row_read r ts : row_ok r = true -> parse_value_row (print_row r ++ ts) = Ok (r, ts).
Proof.
  intros [Hl%bool_decide_eq_true_1 Hok]%andb_prop. unfold parse_value_row, print_row. cbn [app]. rewrite <- app_assoc.
  eat_tokens. rewrite (bind_eq _ _ _ r (RightParen :: ts)) by (by apply exprs_read'). by eat_tokens.
Qed.

Lemma assignment_read a ts : expr_ok a.2 = true -> follow 0 ts = true ->
  parse_assignment (print_assignment a ++ ts) = Ok (a, ts).
Proof.
  intros Ha Hf. destruct a as [c e]. unfold parse_assignment, print_assignment. cbn [fst snd app] in *.
  rewrite (bind_eq _ _ _ _ _ (ident_read _ _)). eat_tokens. by rewrite (bind_eq _ _ _ e ts) by (by apply expr_read).
Qed.

(** What follows a table element. *)
Definition element_follow (ts : list Token) : Prop := hd ts = Comma \/ hd ts = RightParen.

Lemma options_end c ts : element_follow ts -> column_options c ts = Ok (c, ts).
Proof.
  intros Hts. destruct ts as [|t ts]; [by destruct Hts|]. destruct c. rewrite column_options_cons.
  destruct Hts as [Ht|Ht]; cbn in Ht; by subst t.
Qed.

Lemma options_read c ts : opt_ok (default_value c) = true -> element_follow ts ->
  column_options (mkColumnDef (column_name c) (data_type c) true None false false) (print_options c ++ ts) = Ok (c, ts).
Proof.
  destruct c as [name ty nullable def pk un]. cbn [default_value column_name data_type]. intros Hd Hts.
  assert (Hdef : forall nu pk un, column_options (mkColumnDef name ty nu None pk un) (print_opt KDefault def ++ ts) =
    Ok (mkColumnDef name ty nu def pk un, ts)).
  { intros nu pk' un'. destruct def as [e|]; cbn [print_opt app]; [|by apply options_end].
    rewrite column_options_cons. rewrite (bind_eq _ _ _ e ts); [by apply options_end|]. apply expr_read; [done|].
    unfold element_follow, hd in Hts. unfold follow. by destruct Hts as [->| ->]. }
  assert (Hun : forall nu pk, column_options (mkColumnDef name ty nu None pk false)
    (flag un KUnique ++ print_opt KDefault def ++ ts) = Ok (mkColumnDef name ty nu def pk un, ts)).
  { intros nu pk'. destruct un; cbn [flag app]; [|apply Hdef]. rewrite column_options_cons. apply Hdef. }
  cbn [print_options]. destruct pk, nullable; cbn [flag app]; rewrite <- app_assoc;
    repeat (rewrite column_options_cons; cbn iota; eat_tokens); apply Hun.
Qed.

Lemma element_read x ts : element_follow ts ->
  match x with inl c => opt_ok (default_value c) = true | inr c => constraint_ok c = true end ->
  parse_table_element (print_element x ++ ts) = Ok (x, ts).
Proof.
  intros Hts Hx. unfold parse_table_element. destruct x as [c|[cols|cols|e]]; [| | |done]; cbn [print_element print_constraint].
  - unfold print_coldef. cbn [app]. rewrite <- app_assoc.
    set (r := QuotedIdent (column_name c) :: print_type (data_type c) ++ print_options c ++ ts).
    rewrite (bind_eq _ _ _ false r) by (by apply eat_no). rewrite (bind_eq _ _ _ false r) by (by apply eat_no).
    rewrite (bind_eq _ _ _ c ts); [done|]. unfold parse_column_def, r.
    rewrite (bind_eq _ _ _ _ _ (ident_read _ _)). rewrite (bind_eq _ _ _ (data_type c) (print_options c ++ ts)).
    + by apply options_read.
    + apply print_type_read. destruct c as [? ? nu [?|] pk un]; destruct pk, nu, un; cbn; try done;
      unfold element_follow, hd in Hts; by destruct Hts as [->| ->].
  - apply bool_decide_eq_true_1 in Hx. cbn [app]. rewrite (bind_eq _ _ _ _ _ (eat_yes _ _)).
    rewrite (bind_eq _ _ _ () (print_names cols ++ ts)) by apply expect_eq.
    by apply (names_read (fun cols => inr (PrimaryKey cols))).
  - apply bool_decide_eq_true_1 in Hx. cbn [app].
    rewrite (bind_eq _ _ _ false (KUnique :: print_names cols ++ ts)) by (by apply eat_no).
    rewrite (bind_eq _ _ _ _ _ (eat_yes _ _)). by apply (names_read (fun cols => inr (Unique cols))).
Qed.

Lemma alias_clause_read a ts : hd ts <> KAs -> opt_clause KAs expect_ident (print_alias a ++ ts) = Ok (a, ts).
Proof.
  intros Ha. unfold opt_clause. destruct a as [x|]; cbn [print_alias app].
  - rewrite (bind_eq _ _ _ _ _ (eat_yes _ _)). by rewrite (bind_eq _ _ _ _ _ (ident_read _ _)).
  - by rewrite (bind_eq _ _ _ _ _ (eat_no _ _ Ha)).
Qed.

(** A statement's last clause may be a query's. *)
Lemma where_read wh ts : opt_ok wh = true -> stops ts ->
  opt_clause KWhere (parse_expr 0) (print_opt KWhere wh ++ ts) = Ok (wh, ts).
Proof. intros Hw Hts. apply (opt_read 2); [done|done|]. by eapply after_le; [|exact Hts]. Qed.

Lemma insert_read t cols rows ts : rows <> [] -> forallb row_ok rows = true -> stops ts ->
  let s := Insert (mkInsert t cols (Values rows)) in parse_insert (print_statement s ++ ts) = Ok (s, ts).
Proof.
  intros Hr Hok Hts. cbn [print_statement app]. rewrite <- app_assoc. cbn [app]. unfold parse_insert. eat_tokens.
  rewrite (bind_eq _ _ _ _ _ (ident_read _ _)).
  rewrite (bind_eq _ _ _ cols (KValues :: commas (map print_row rows) ++ ts)).
  - eat_tokens. rewrite (bind_eq _ _ _ rows ts); [done|]. apply sep_list_print; [apply below_value_row| | |done].
    + by apply (after_follow 7).
    + intros r ts' Hin _. apply row_read. by apply (proj1 (forallb_forall _ _) Hok), list_elem_of_In.
  - unfold list_clause. destruct cols as [|c cols]; [by rewrite (bind_eq _ _ _ false (KValues :: commas (map print_row rows) ++ ts)) by (by apply eat_no)|].
    unfold print_names. cbn [app]. rewrite <- app_assoc. rewrite (bind_eq _ _ _ _ _ (eat_yes _ _)).
    rewrite (bind_eq _ _ _ (c :: cols) (RightParen :: KValues :: commas (map print_row rows) ++ ts)) by (by apply idents_read).
    by eat_tokens.
Qed.

Lemma update_read t alias assignments wh ts : assignments <> [] ->
  forallb (fun a => expr_ok a.2) assignments = true -> opt_ok wh = true -> stops ts ->
  let s := Update (mkUpdate t alias assignments wh) in parse_update (print_statement s ++ ts) = Ok (s, ts).
Proof.
  intros Hne Hok Hwh Hts. cbn [print_statement app]. rewrite <- !app_assoc. cbn [app]. rewrite <- !app_assoc.
  unfold parse_update. eat_tokens. rewrite (bind_eq _ _ _ _ _ (ident_read _ _)).
  rewrite (bind_eq _ _ _ alias (KSet :: commas (map print_assignment assignments) ++ print_opt KWhere wh ++ ts))
    by (by apply alias_clause_read).
  eat_tokens. assert (Ha : after 1 (print_opt KWhere wh ++ ts)) by (apply after_opt; [done|by eapply after_le; [|exact Hts]]).
  rewrite (bind_eq _ _ _ assignments (print_opt KWhere wh ++ ts)).
  - by rewrite (bind_eq _ _ _ wh ts) by (by apply where_read).
  - apply sep_list_print; [apply below_assignment|by apply (after_follow 1)| |done]. intros a ts' Hin Hts'.
    destruct (item_follow 1 _ ts' Ha Hts') as (Hf & _). apply assignment_read; [|done].
    by apply (proj1 (forallb_forall (fun a => expr_ok a.2) _) Hok), list_elem_of_In.
Qed.

Lemma delete_read t alias wh ts : opt_ok wh = true -> stops ts ->
  let s := Delete (mkDelete t alias wh) in parse_delete (print_statement s ++ ts) = Ok (s, ts).
Proof.
  intros Hwh Hts. cbn [print_statement app]. rewrite <- app_assoc. unfold parse_delete. eat_tokens.
  rewrite (bind_eq _ _ _ _ _ (ident_read _ _)). rewrite (bind_eq _ _ _ alias (print_opt KWhere wh ++ ts)).
  - by rewrite (bind_eq _ _ _ wh ts) by (by apply where_read).
  - apply alias_clause_read. apply (after_follow 1). apply after_opt; [done|]. by eapply after_le; [|exact Hts].
Qed.

Lemma omap_inl {A B} (l : list A) (r : list B) :
  omap (fun x => match x with inl c => Some c | inr _ => None end) ((inl <$> l) ++ (inr <$> r)) = l.
Proof.
  rewrite omap_app. assert (Hr : omap (fun x : A + B => match x with inl c => Some c | inr _ => None end) (inr <$> r) = []).
  { by induction r. }
  rewrite Hr, app_nil_r. induction l as [|x l IH]; [done|]. cbn. by rewrite IH.
Qed.

Lemma omap_inr {A B} (l : list A) (r : list B) :
  omap (fun x => match x with inl _ => None | inr c => Some c end) ((inl <$> l) ++ (inr <$> r)) = r.
Proof.
  rewrite omap_app. assert (Hl : omap (fun x : A + B => match x with inl _ => None | inr c => Some c end) (inl <$> l) = []).
  { by induction l. }
  rewrite Hl. cbn. induction r as [|x r IH]; [done|]. cbn. by rewrite IH.
Qed.

Lemma storage_read l ts : stops ts -> parse_storage (print_storage l ++ ts) = Ok (l, ts).
Proof.
  intros Hts. unfold parse_storage. destruct l; cbn [print_storage app].
  - rewrite (bind_eq _ _ _ false ts); [done|]. apply eat_no. intros Hh. unfold stops, after, hd in Hts. rewrite Hh in Hts. cbn in Hts. lia.
  - by rewrite (bind_eq _ _ _ _ _ (eat_yes _ _)).
Qed.

Lemma create_read c ts : statement_ok (CreateTable c) -> stops ts ->
  parse_create_table (KTable :: (if if_not_exists c then [KIf; KNot; KExists] else []) ++
    QuotedIdent (create_table c) :: LeftParen :: commas (map print_element (elements c)) ++
    RightParen :: print_storage (storage c) ++ ts) = Ok (CreateTable c, ts).
Proof.
  intros (Hne & Hcon & Hcok & Hdef) Hts. unfold parse_create_table. eat_tokens.
  set (r := QuotedIdent (create_table c) :: _).
  rewrite (bind_eq _ _ _ (if_not_exists c) ((if if_not_exists c then [KNot; KExists] else []) ++ r)).
  2: { destruct (if_not_exists c); [apply eat_yes|by apply eat_no]. }
  rewrite (bind_eq _ _ _ () r).
  2: { destruct (if_not_exists c); [|done]. cbn [app]. eat_tokens. apply expect_eq. }
  unfold r. rewrite (bind_eq _ _ _ _ _ (ident_read _ _)). eat_tokens.
  rewrite (bind_eq _ _ _ (elements c) (RightParen :: print_storage (storage c) ++ ts)).
  - eat_tokens. cbv zeta. rewrite (bind_eq _ _ _ (storage c) ts) by (by apply storage_read).
    unfold elements. rewrite omap_inl, omap_inr, <- Hcon. by destruct c.
  - apply sep_list_print; [apply below_table_element|done| |done]. intros x ts' Hx Hts'. apply element_read.
    + unfold element_follow, hd. destruct Hts' as [->| ->]; [by right|by left].
    + unfold elements in Hx. apply elem_of_app in Hx as [(y & -> & Hy)%list_elem_of_fmap|(y & -> & Hy)%list_elem_of_fmap].
      * by apply (proj1 (forallb_forall (fun c => opt_ok (default_value c)) _) Hdef), list_elem_of_In.
      * by apply (proj1 (forallb_forall _ _) Hcok), list_elem_of_In.
Qed.

(** [INDEX ON table (column)], behind the kind of the index. *)
Lemma index_read w make k t c ts :
  parse_index w make (k :: KIndex :: KOn :: QuotedIdent t :: LeftParen :: QuotedIdent c :: RightParen :: ts) =
  Ok (make t c, ts).
Proof.
  unfold parse_index. rewrite (bind_eq advance _ _ _ _ eq_refl). cbn [tail]. rewrite (bind_eq peek _ _ _ _ eq_refl).
  cbn [head from_option id]. rewrite bool_decide_eq_true_2 by done. rewrite (bind_eq advance _ _ _ _ eq_refl). cbn [tail].
  eat_tokens. rewrite (bind_eq _ _ _ _ _ (ident_read _ _)). eat_tokens. rewrite (bind_eq _ _ _ _ _ (ident_read _ _)).
  by eat_tokens.
Qed.

Lemma from_read t r : parse_statement (t :: r) = parse_statement_from parse_statement t (t :: r).
Proof. by rewrite parse_statement_eq, (bind_eq peek _ _ _ _ eq_refl). Qed.

Lemma select_head s ts : exists t r, print_select s ++ ts = t :: r /\ (t = KSelect \/ t = KWith).
Proof.
  rewrite print_select_eq, <- app_assoc. destruct (body_starts s) as [r ->]. destruct (ctes s); cbn [keyword_clause app]; eauto.
Qed.

Lemma statement_read s ts : statement_ok s -> stops ts -> parse_statement (print_statement s ++ ts) = Ok (s, ts).
Proof.
  revert ts. induction s as [q|i|u|d|c|d| | | |s IH|t|t c|t c|t|n v|n]; intros ts Hok Hts.
  - cbn [print_statement]. pose proof (select_read q Hok ts Hts) as Hq.
    destruct (select_head q ts) as (t & r & He & Ht). rewrite He in Hq |- *. rewrite from_read.
    assert (Hs : forall t, (s ← parse_select; mret (SelectStatement s)) (t :: r) =
      match parse_select (t :: r) with Ok (s, ts) => Ok (SelectStatement s, ts) | Err e => Err e | Panic => Panic end) by done.
    destruct Ht as [->| ->]; cbn [parse_statement_from]; by rewrite Hs, Hq.
  - destruct i as [t cols [rows|q]]; [|done]. destruct Hok as [Hr Hrok].
    change (print_statement (Insert (mkInsert t cols (Values rows))) ++ ts) with
      (KInsert :: tail (print_statement (Insert (mkInsert t cols (Values rows)))) ++ ts).
    rewrite from_read. by apply insert_read.
  - destruct u as [t alias assignments wh]. destruct Hok as (Hne & Ha & Hw).
    change (print_statement (Update (mkUpdate t alias assignments wh)) ++ ts) with
      (KUpdate :: tail (print_statement (Update (mkUpdate t alias assignments wh))) ++ ts).
    rewrite from_read. by apply update_read.
  - destruct d as [t alias wh].
    change (print_statement (Delete (mkDelete t alias wh)) ++ ts) with
      (KDelete :: tail (print_statement (Delete (mkDelete t alias wh))) ++ ts).
    rewrite from_read. by apply delete_read.
  - cbn [print_statement app]. rewrite <- app_assoc. cbn [app]. rewrite <- app_assoc. cbn [app]. rewrite from_read.
    cbn [parse_statement_from]. unfold parse_create. eat_tokens. rewrite (bind_eq peek _ _ _ _ eq_refl).
    by apply create_read.
  - destruct d as [t b]. cbn [print_statement app drop_table if_exists]. rewrite <- app_assoc. rewrite from_read.
    cbn [parse_statement_from]. unfold parse_drop. eat_tokens.
    rewrite (bind_eq _ _ _ b ((if b then [KExists] else []) ++ QuotedIdent t :: ts)).
    2: { destruct b; [apply eat_yes|by apply eat_no]. }
    rewrite (bind_eq _ _ _ () (QuotedIdent t :: ts)); [done|]. destruct b; [apply expect_eq|done].
  - done.
  - done.
  - done.
  - cbn [print_statement app]. rewrite from_read. cbn [parse_statement_from]. rewrite (bind_eq advance _ _ _ _ eq_refl).
    cbn [tail]. by rewrite (bind_eq _ _ _ s ts) by (by apply IH).
  - done.
  - cbn [print_statement app]. rewrite from_read. cbn [parse_statement_from]. unfold parse_create. eat_tokens.
    rewrite (bind_eq peek _ _ _ _ eq_refl). cbn [head from_option id]. rewrite bool_decide_eq_true_2 by done. apply index_read.
  - cbn [print_statement app]. rewrite from_read. cbn [parse_statement_from]. unfold parse_create. eat_tokens.
    rewrite (bind_eq peek _ _ _ _ eq_refl). cbn [head from_option id]. apply index_read.
  - done.
  - done.
  - done.
Qed.

(** C28: a statement is read back from its text.  [Parser::parse], on the printed
    text of a statement, returns that statement: queries with common
    table expressions, unions, joins and all clauses, [INSERT], [UPDATE],
    [DELETE], [CREATE TABLE] with its column options and constraints, [EXPLAIN]
    and the others.  Excluded are statements that have no text the parser reads:
    [NOT LIKE] and [JsonMerge], [DISTINCT] in a call, [USING] behind a table without
    an alias, [INSERT .. SELECT], [CHECK], NULLS FIRST, empty lists of columns, rows, values and
    assignments, a column or first argument that starts with [*] and goes on, function names not in upper case, window calls
    of other functions, and key constraints of a table that do not end in those of its columns; and tokens
    that are not printable: float literals, integer literals that are negative or
    beyond 63 bits, strings and names that are not ASCII, and quoted names with a
    double quote. *)
Theorem parse_print_statement s : statement_ok s ->
  forallb TokenText.printable (print_statement s) = true ->
  parse (TokenText.print_tokens (print_statement s)) = Ok s.
Proof.
  intros Hok Hp. unfold parse. rewrite TokenText.tokenize_print.
  - cbn [mbind outcome_bind]. by rewrite (statement_read s [EOF]).
  - apply List.Forall_forall. by apply forallb_forall.
Qed.

End Statements.

(** [WITH RECURSIVE x AS (SELECT 1 UNION ALL SELECT a - (b - 1) FROM x) SELECT *
    FROM t AS u JOIN x ON NOT a = 1 WHERE a IN (1, 2) ORDER BY a DESC]. *)
Definition sample : Statement :=
  let sel w cols from wh order := mkSelect w false cols from wh [] None order None None in
  let one := sel [] [ColExpr (IntLit 1) None] [] None [] in
  let step := sel [] [ColExpr (BinaryOp Sub (ColumnRef None (text "a"))
    (BinaryOp Sub (ColumnRef None (text "b")) (IntLit 1))) None] [mkTableRef (text "x") None None] None [] in
  SelectStatement (sel [mkCte (text "x") true one (Some (mkUnion one true step))] [ColStar]
    [mkTableRef (text "t") (Some (text "u")) (Some (mkJoinClause InnerJoin (mkTableRef (text "x") None None)
       (On (UnaryOp Not (BinaryOp Eq (ColumnRef None (text "a")) (IntLit 1))))))]
    (Some (In (ColumnRef None (text "a")) [IntLit 1; IntLit 2]))
    [mkOrderByItem (ColumnRef None (text "a")) false false]).

#[local] Instance ascii_only : UnicodeCase := ascii_unicode.

Lemma parse_print_statement_witness :
  statement_ok sample /\ parse (TokenText.print_tokens (print_statement sample)) = Ok sample.
Proof.
  assert (Hok : statement_ok sample) by (repeat split; vm_compute; reflexivity).
  split; [exact Hok|]. apply (parse_print_statement sample Hok). vm_compute. reflexivity.
Defined.

End RoundTrip.
