(* ===== verification/SqlEngine.v ===== *)
(** * The engine

    Models the statements of [crates/sql/src/executor.rs]: [Engine::execute] and what it
    calls, over the catalog, the buffer pool, the log, the transactions and the
    thread-local variables.  An operation leaves behind what it had changed when it
    failed.  The height of an index is bounded by [fuel], the logarithm and the clock are
    parameters. *)

From Stdlib Require Import Ascii String SpecFloat.
From stdpp Require Import gmap strings.
From S2P Require Import Prelude Bytes Strings Float64 StorageError StorageDisk StoragePage StorageBufferPool StorageWal StorageTxn StorageHeap StorageVacuum StorageBTree.
From S2P Require Import StorageColumnar StorageHnsw StorageJsonb StorageGin SqlAst SqlValue SqlToken SqlCodec SqlExpr SqlGroup SqlJoin SqlJoinOrder.
From S2P Require Import SqlVectorized SqlParser SqlCatalog SqlPlan SqlWindow.

Module Engine.
Import Value Expr Group Catalog Plan Window.

Record QueryResult : Type := mkResult {
  result_columns : list (list N);
  result_rows : list row;
  rows_affected : N;
  tag : list N
}.

(** [QueryResult { tag, ..Default::default() }]. *)
Definition done_with (t : list N) (n : N) : QueryResult := mkResult [] [] n t.

(** [SELECT n] with the rows of the answer. *)
Definition select_result (names : list (list N)) (rows : list row) : QueryResult :=
  mkResult names rows 0 (text "SELECT " ++ N_to_string (len rows)).

(** Common table expressions, by their names in lower case. *)
Abbreviation cte_ctx := (gmap (list N) (list ColumnSchema * list row)).

(** What a scan finds: where a tuple is, its header and its row. *)
Abbreviation found_row := (Heap.TupleId * Txn.TupleHeader * row)%type.

Section Engine.
Context {D : Type} `{PageStore D} `{SliceSort} `{UnicodeCase} `{DebugFormat} `{TableOrder}.
Context {Far : Hnsw.BinaryHeap Hnsw.cmp_far} {Near : Hnsw.BinaryHeap Hnsw.cmp_near}.
Context (crc32 : list N -> N) (ln : f64 -> f64) (fuel : nat) (now : N).

Record Db : Type := mkDb {
  catalog : Catalog;
  pool : Pool.BufferPool D;
  wal : Wal.WalManager;
  tx : Txn.TransactionManager;
  env : Env
}.

Definition db_op (A : Type) : Type := Db -> Db * sql_result A.

#[global] Instance db_ret : MRet db_op := fun A a db => (db, Ok a).
#[global] Instance db_bind : MBind db_op := fun A B k m db =>
  let '(db, r) := m db in
  match r with
  | Ok a => k a db
  | Err x => (db, Err x)
  | Panic => (db, Panic)
  end.

Definition lift {A} (r : sql_result A) : db_op A := fun db => (db, r).
Definition get_db : db_op Db := fun db => (db, Ok db).
Definition set_catalog (c : Catalog) : db_op () := fun db => (mkDb c (pool db) (wal db) (tx db) (env db), Ok ()).
Definition set_env (v : Env) : db_op () := fun db => (mkDb (catalog db) (pool db) (wal db) (tx db) v, Ok ()).

(** [?] on a storage error. *)
Definition storage {A} (r : result A) : sql_result A :=
  match r with
  | Ok a => Ok a
  | Err e => Err (StorageErr e)
  | Panic => Panic
  end.

(** [if let Ok(..)]: an error is skipped. *)
Definition attempt {A} (m : db_op A) : db_op (option A) := fun db =>
  match m db with
  | (db, Ok a) => (db, Ok (Some a))
  | (db, Err _) => (db, Ok None)
  | (db, Panic) => (db, Panic)
  end.

Definition on_pool {A} (m : Pool.pool_op (D := D) A) : db_op A := fun db =>
  let '(b, r) := m (pool db) in (mkDb (catalog db) b (wal db) (tx db) (env db), storage r).

(** A heap operation that leaves the heap file as it is. *)
Definition read_heap {A} (h : Heap.HeapFile) (m : Heap.heap_op (D := D) A) : db_op A := fun db =>
  let '(e, r) := m (Heap.mkEnv h (pool db) (wal db)) in (mkDb (catalog db) (Heap.pool e) (wal db) (tx db) (env db), storage r).

Definition flush_wal : db_op () := fun db =>
  let '(w, r) := Wal.flush (wal db) in
  (mkDb (catalog db) (pool db) w (tx db) (env db), storage (_ ← r; Ok ())).

Definition begin : db_op N := fun db =>
  let '(t, xid) := Txn.begin (tx db) in (mkDb (catalog db) (pool db) (wal db) t (env db), Ok xid).

Definition commit (xid : N) : db_op () := fun db =>
  let '(t, w, r) := Txn.commit crc32 (tx db) xid (wal db) now in (mkDb (catalog db) (pool db) w t (env db), storage r).

Definition semantic {A} (s : string) (args : list FmtArg) : sql_result A := Err (Semantic (fmt s args)).

Definition no_table {A} (name : list N) : sql_result A := semantic "table '{}' does not exist" [AText name].

(** [self.catalog.get(&name).ok_or_else(..)?]. *)
Definition table (name : list N) : db_op TableEntry :=
  db ← get_db;
  match get (catalog db) name with
  | Some e => mret e
  | None => lift (no_table name)
  end.

(** [self.catalog.get_mut(&name).unwrap()]. *)
Definition table_mut (name : list N) : db_op TableEntry :=
  db ← get_db;
  lift (or_panic (get (catalog db) name)).

Definition put_table (name : list N) (e : TableEntry) : db_op () :=
  db ← get_db;
  set_catalog (put (catalog db) name e).

(** A heap operation through [entry_mut.heap]. *)
Definition on_heap {A} (name : list N) (m : Heap.heap_op (D := D) A) : db_op A := fun db =>
  match get (catalog db) name with
  | None => (db, Panic)
  | Some t =>
      let '(e, r) := m (Heap.mkEnv (heap t) (pool db) (wal db)) in
      (mkDb (put (catalog db) name (with_heap t (Heap.heap e))) (Heap.pool e) (Heap.wal e) (tx db) (env db), storage r)
  end.

(** ** Reading a table *)

Definition split_mvcc (raw : list N) : sql_result (Txn.TupleHeader * list N) :=
  if len raw <? 24 then exec_err "tuple too short for MVCC header" []
  else
    head ← slice raw 0 24;
    header ← storage (Txn.decode head);
    Ok (header, drop 24 raw).

(** The visible rows of a scan that [keep] keeps. *)
Fixpoint visible_rows (schema : list ColumnSchema) (t : Txn.TransactionManager) (keep : row -> sql_result bool)
    (all : list (Heap.TupleId * list N)) : sql_result (list found_row) :=
  match all with
  | [] => Ok []
  | (tid, raw) :: all =>
      '(header, row_bytes) ← split_mvcc raw;
      if Txn.is_visible t header (Txn.snapshot t) then
        r ← Codec.decode_row schema row_bytes;
        '(k : bool) ← keep r;
        rest ← visible_rows schema t keep all;
        Ok (if k then (tid, header, r) :: rest else rest)
      else visible_rows schema t keep all
  end.

Definition scan_table (e : TableEntry) (keep : row -> sql_result bool) : db_op (list found_row) :=
  db ← get_db;
  all ← read_heap (heap e) Heap.scan;
  lift (visible_rows (columns e) (tx db) keep all).

Definition seq_scan (e : TableEntry) : db_op (list row) :=
  rows ← scan_table e (fun _ => Ok true);
  mret (map snd rows).

(** [None] is [true]; an error is [false]. *)
Definition matches (v : Env) (where_clause : option Ast.Expr) (schema : list ColumnSchema) (r : row) : sql_result bool :=
  match where_clause with
  | None => Ok true
  | Some e => Join.truthy (eval_expr v e schema r)
  end.

(** The row at a tuple id, if it is there, can be read and is visible. *)
Definition fetch_row (e : TableEntry) (tid : Heap.TupleId) : db_op (option row) :=
  db ← get_db;
  raw ← attempt (read_heap (heap e) (Heap.get_tuple tid));
  match raw with
  | None => mret None
  | Some raw =>
      rows ← attempt (lift (visible_rows (columns e) (tx db) (fun _ => Ok true) [(tid, raw)]));
      mret (rows ≫= fun rows => snd <$> head rows)
  end.

Fixpoint fetch_rows (e : TableEntry) (tids : list Heap.TupleId) : db_op (list row) :=
  match tids with
  | [] => mret []
  | tid :: tids =>
      r ← fetch_row e tid;
      rest ← fetch_rows e tids;
      mret (option_list r ++ rest)
  end.

(** ** Edges for the graph functions *)

Definition int_pair (fi ti : nat) (r : row) : option (Z * Z) :=
  match r !! fi, r !! ti with
  | Some (Int64 f), Some (Int64 t) => Some (f, t)
  | _, _ => None
  end.

(** The rows of a scan that can be read; the others are skipped. *)
Fixpoint readable_rows (schema : list ColumnSchema) (t : Txn.TransactionManager) (all : list (Heap.TupleId * list N))
    : sql_result (list row) :=
  match all with
  | [] => Ok []
  | x :: all =>
      r ← (match visible_rows schema t (fun _ => Ok true) [x] with
           | Ok rs => Ok (map snd rs)
           | Err _ => Ok []
           | Panic => Panic
           end);
      rest ← readable_rows schema t all;
      Ok (r ++ rest)
  end.

Definition load_edges (edge_table from_col to_col : list N) : db_op (option (list (Z * Z))) :=
  db ← get_db;
  match get (catalog db) edge_table with
  | None => mret None
  | Some e =>
      match position (named from_col) (columns e), position (named to_col) (columns e) with
      | Some fi, Some ti =>
          all ← attempt (read_heap (heap e) Heap.scan);
          match all with
          | None => mret None
          | Some all =>
              rows ← lift (readable_rows (columns e) (tx db) all);
              mret (Some (omap (int_pair fi ti) rows))
          end
      | _, _ => mret None
      end
  end.

Definition insert_key {A} (key : list N) (a : A) (m : list N -> option A) : list N -> option A :=
  fun k => if bool_decide (k = key) then Some a else m k.

(** The three string literals of a call, from position [i] on, in lower case. *)
Definition edge_args (i : nat) (args : list Ast.Expr) : option (list N * list N * list N) :=
  match args !! i, args !! S i, args !! S (S i) with
  | Some (Ast.StrLit a), Some (Ast.StrLit b), Some (Ast.StrLit c) => Some (to_lowercase a, to_lowercase b, to_lowercase c)
  | _, _, _ => None
  end.

Fixpoint collect_shortest_path_edges (e : Ast.Expr) : db_op () :=
  match e with
  | Ast.FunctionCall name args _ =>
      if eq_ignore_ascii_case name (text "OIGRAP_SHORTEST_PATH") then
        match edge_args 2 args with
        | Some (edge_table, from_col, to_col) =>
            db ← get_db;
            let key := cache_key edge_table from_col to_col in
            match edge_cache (env db) key with
            | Some _ => mret ()
            | None =>
                edges ← load_edges edge_table from_col to_col;
                match edges with
                | None => mret ()
                | Some edges => set_env (mkEnv (cte_depth (env db)) (insert_key key edges (edge_cache (env db))) (pagerank_cache (env db)))
                end
            end
        | None => mret ()
        end
      else mret ()
  | Ast.BinaryOp _ l r => _ ← collect_shortest_path_edges l; collect_shortest_path_edges r
  | _ => mret ()
  end.

Fixpoint collect_pagerank_edges (e : Ast.Expr) : db_op () :=
  match e with
  | Ast.FunctionCall name args _ =>
      if eq_ignore_ascii_case name (text "OIGRAP_PAGERANK") then
        match edge_args 1 args with
        | Some (edge_table, from_col, to_col) =>
            db ← get_db;
            let key := cache_key edge_table from_col to_col in
            match pagerank_cache (env db) key with
            | Some _ => mret ()
            | None =>
                edges ← load_edges edge_table from_col to_col;
                match edges with
                | None => mret ()
                | Some edges =>
                    let ranks := compute_pagerank edges in
                    set_env (mkEnv (cte_depth (env db)) (edge_cache (env db)) (insert_key key (fun n => ranks !! n) (pagerank_cache (env db))))
                end
            end
        | None => mret ()
        end
      else mret ()
  | Ast.BinaryOp _ l r => _ ← collect_pagerank_edges l; collect_pagerank_edges r
  | _ => mret ()
  end.

Fixpoint for_columns (f : Ast.Expr -> db_op ()) (cols : list Ast.SelectColumn) : db_op () :=
  match cols with
  | [] => mret ()
  | Ast.ColExpr e _ :: cols => _ ← f e; for_columns f cols
  | Ast.ColStar :: cols => for_columns f cols
  end.

Definition preload_edge_tables_for_shortest_path : list Ast.SelectColumn -> db_op () := for_columns collect_shortest_path_edges.
Definition preload_pagerank : list Ast.SelectColumn -> db_op () := for_columns collect_pagerank_edges.

Definition clear_edges (v : Env) : Env := mkEnv (cte_depth v) (fun _ => None) (pagerank_cache v).
Definition clear_caches (v : Env) : Env := mkEnv (cte_depth v) (fun _ => None) (fun _ => None).
Definition set_depth (d : Z) (v : Env) : Env := mkEnv d (edge_cache v) (pagerank_cache v).
Definition update_env (f : Env -> Env) : db_op () := db ← get_db; set_env (f (env db)).

(** ** Sources of rows *)

(** A base table, a view of the catalog or a common table expression, with the columns
    qualified. *)
Definition scan_table_qualified (name qualifier : list N) (ctx : cte_ctx) : db_op relation :=
  let name_lower := to_lowercase name in
  match ctx !! name_lower with
  | Some (schema, rows) => mret (Join.qualify_schema schema qualifier, rows)
  | None =>
      db ← get_db;
      match virtual_catalog_rows (catalog db) (bare_name name_lower) with
      | Some (schema, rows) => mret (Join.qualify_schema schema qualifier, rows)
      | None =>
          e ← table name_lower;
          rows ← seq_scan e;
          mret (Join.qualify_schema (columns e) qualifier, rows)
      end
  end.

Definition step_qualifier (s : Join.Step) : list N := to_lowercase (default (Join.step_name s) (Join.step_alias s)).

Fixpoint join_steps (steps : list Join.Step) (ctx : cte_ctx) (left : relation) : db_op relation :=
  match steps with
  | [] => mret left
  | s :: steps =>
      right ← scan_table_qualified (Join.step_name s) (step_qualifier s) ctx;
      condition ← lift (or_panic (Join.step_condition s));
      db ← get_db;
      left ← lift (Join.apply_join (env db) left.1 left.2 right.1 right.2 (default Ast.InnerJoin (Join.step_kind s)) condition);
      join_steps steps ctx left
  end.

Definition table_rows (c : Catalog) (name : list N) : option N := e ← get c name; row_count <$> stats e.

Definition exec_multi_join (from : list Ast.TableRef) (ctx : cte_ctx) : db_op relation :=
  let steps := Join.flatten_join_tree from in
  match steps with
  | [] => mret ([], [])
  | _ =>
      db ← get_db;
      ordered ← lift (mapM (fun i => or_panic (steps !! i)) (JoinOrder.dp_join_order (table_rows (catalog db)) steps));
      match ordered with
      | [] => lift Panic
      | first :: rest =>
          left ← scan_table_qualified (Join.step_name first) (step_qualifier first) ctx;
          join_steps rest ctx left
      end
  end.

(** The tuple id a vector is indexed under. *)
Definition vector_id (tid : Heap.TupleId) : N := N.lor (N.shiftl (Heap.page_id tid) 16) (Heap.slot_id tid).
Definition vector_tid (id : N) : Heap.TupleId := Heap.mkTid (N.shiftr id 16) (N.land id 65535).

(** The rows of the nearest vectors. *)
Definition ann_scan (e : TableEntry) (h : Hnsw.HnswIndex) (query : list f64) (k : N) : db_op (list row) :=
  results ← lift (Hnsw.search h query k 50);
  fetch_rows e (map (fun r => vector_tid r.1) results).

(** The rows the inverted index proposes and the condition confirms. *)
Definition gin_scan (e : TableEntry) (g : Gin.GinIndex) (json : list N) (where_clause : option Ast.Expr) : db_op (list row) :=
  db ← get_db;
  rows ← fetch_rows e (Gin.lookup_all g (Gin.jsonb_tokens json));
  lift (Vectorized.where_filter (env db) where_clause (columns e) rows).

(** The index that answers a condition, with the JSON encoded. *)
Definition gin_plan (e : TableEntry) (where_clause : option Ast.Expr) : option (Gin.GinIndex * list N) :=
  '(col, json) ← detect_gin_query where_clause (columns e);
  g ← gin_index e;
  if eq_ignore_ascii_case (default [] (gin_column e)) col then
    match Jsonb.encode_jsonb json with Ok bytes => Some (g, bytes) | _ => None end
  else None.

Definition pk_plan (e : TableEntry) (where_clause : option Ast.Expr) : sql_result (option Value) :=
  let rows := match stats e with Some s => row_count s | None => 0 end in
  let selectivity := selectivity_estimate (columns e) (stats e) (pk_col_idx e) where_clause in
  if should_use_index selectivity rows then
    '(p : option (nat * Value)) ← can_use_pk_lookup where_clause (columns e) (pk_col_idx e);
    Ok (snd <$> p)
  else Ok None.

Definition pk_scan (e : TableEntry) (v : Value) : db_op (list row) :=
  key ← lift (ok_or (as_key_bytes v) (Execution (fmt "cannot look up NULL primary key" [])));
  match pk_index e with
  | None => mret []
  | Some tree =>
      found ← on_pool (BTree.lookup fuel tree key);
      match found with
      | None => mret []
      | Some tid =>
          db ← get_db;
          raw ← read_heap (heap e) (Heap.get_tuple tid);
          rows ← lift (visible_rows (columns e) (tx db) (fun _ => Ok true) [(tid, raw)]);
          mret (map snd rows)
      end
  end.

(** The clauses of a query besides its common table expressions. *)
Record Clauses : Type := mkClauses {
  select_cols : list Ast.SelectColumn;
  from : list Ast.TableRef;
  where_clause : option Ast.Expr;
  group_by : list Ast.Expr;
  having : option Ast.Expr;
  order_by : list Ast.OrderByItem;
  limit : option Ast.Expr;
  offset : option Ast.Expr
}.

Definition is_grouped (q : Clauses) : bool := negb (bool_decide (group_by q = [])) || has_aggregates (select_cols q).

(** A base table: some paths give the answer of the query at once, the others rows. *)
Definition scan_base (q : Clauses) (name : list N) : db_op (QueryResult + relation) :=
  e ← table name;
  db ← get_db;
  ann ← lift (detect_vector_ann (order_by q) (limit q) (columns e));
  match ann, vector_index e with
  | Some (_, query, k), Some h =>
      rows ← ann_scan e h query k;
      '(names, rows) ← lift (project (env db) (select_cols q) (columns e) rows);
      mret (inl (select_result names rows))
  | _, _ =>
      match columnar e, is_grouped q with
      | Some store, true =>
          '(names, rows) ← lift (Vectorized.columnar_path (env db) store (columns e) (select_cols q) (where_clause q) (group_by q) (having q));
          mret (inl (select_result names rows))
      | _, _ =>
          match gin_plan e (where_clause q) with
          | Some (g, json) =>
              rows ← gin_scan e g json (where_clause q);
              '(names, rows) ← lift (project (env db) (select_cols q) (columns e) rows);
              mret (inl (select_result names rows))
          | None =>
              plan ← lift (pk_plan e (where_clause q));
              rows ← (match plan with Some v => pk_scan e v | None => seq_scan e end);
              mret (inr (columns e, rows))
          end
      end
  end.

Definition scan_single (q : Clauses) (table_name : list N) (ctx : cte_ctx) : db_op (QueryResult + relation) :=
  let name := to_lowercase table_name in
  match ctx !! name with
  | Some r => mret (inr r)
  | None =>
      db ← get_db;
      match virtual_catalog_rows (catalog db) (bare_name name) with
      | Some r => mret (inr r)
      | None => scan_base q name
      end
  end.

(** ** SELECT *)

Definition order_items (items : list Ast.OrderByItem) : list (Ast.Expr * bool) :=
  map (fun i => (Ast.order_expr i, negb (Ast.asc i))) items.

(** [LIMIT] and [OFFSET]: a literal that is no integer is ignored, a negative one is a
    large number. *)
Definition literal_usize (e : option Ast.Expr) : option N :=
  match e ≫= literal with Some (Int64 n) => Some (of_signed 64 n) | _ => None end.

Definition skip {A} (n : N) (l : list A) : list A := drop (N.to_nat (N.min n (len l))) l.
Definition take_at_most {A} (n : N) (l : list A) : list A := take (N.to_nat (N.min n (len l))) l.

Definition limited (q : Clauses) (rows : list row) : list row :=
  let skipped := skip (default 0 (literal_usize (offset q))) rows in
  match literal_usize (limit q) with
  | Some n => take_at_most n skipped
  | None => skipped
  end.

(** Filter, sort and cut. *)
Definition narrow (v : Env) (q : Clauses) (schema : list ColumnSchema) (rows : list row) : sql_result (list row) :=
  filtered ← Vectorized.where_filter v (where_clause q) schema rows;
  ordered ← (match order_by q with
             | [] => Ok filtered
             | items => slice_sort (compare_rows v (order_items items) schema) filtered
             end);
  Ok (limited q ordered).

(** From the rows of the source to the answer. *)
Definition finish_select (q : Clauses) (schema : list ColumnSchema) (rows : list row) : db_op QueryResult :=
  db ← get_db;
  rows ← lift (narrow (env db) q schema rows);
  if is_grouped q then
    '(names, rows) ← lift (apply_group_by (env db) (group_by q) (select_cols q) (having q) schema rows);
    mret (select_result names rows)
  else
    _ ← preload_edge_tables_for_shortest_path (select_cols q);
    _ ← preload_pagerank (select_cols q);
    db ← get_db;
    '(schema, rows) ← lift (if has_window_funcs (select_cols q)
                            then apply_window_functions (env db) schema rows (select_cols q)
                            else Ok (schema, rows));
    '(names, rows) ← lift (project (env db) (select_cols q) schema rows);
    _ ← update_env clear_caches;
    mret (select_result names rows).

Definition constant_value (v : Env) (sc : Ast.SelectColumn) : sql_result Value :=
  match sc with
  | Ast.ColStar => Ok Null
  | Ast.ColExpr e _ =>
      match eval_expr v e [] [] with
      | Err _ => Ok (default Null (literal e))
      | r => r
      end
  end.

Definition constant_name (i : nat) (sc : Ast.SelectColumn) : list N :=
  match sc with
  | Ast.ColExpr _ (Some a) => a
  | Ast.ColExpr (Ast.IntLit n) None => Z_to_string n
  | _ => text "col" ++ N_to_string (N.of_nat i)
  end.

(** [SELECT] without [FROM]. *)
Definition select_constants (cols : list Ast.SelectColumn) : db_op QueryResult :=
  _ ← preload_edge_tables_for_shortest_path cols;
  db ← get_db;
  r ← lift (mapM (constant_value (env db)) cols);
  _ ← update_env clear_edges;
  mret (mkResult (map (fun '(i, sc) => constant_name i sc) (indexed cols)) [r] 0 (text "SELECT 1")).

Definition select_body (q : Clauses) (ctx : cte_ctx) : db_op QueryResult :=
  match from q with
  | [] => select_constants (select_cols q)
  | [Ast.mkTableRef name _ None] =>
      source ← scan_single q name ctx;
      match source with
      | inl answer => mret answer
      | inr (schema, rows) => finish_select q schema rows
      end
  | from =>
      '(schema, rows) ← exec_multi_join from ctx;
      finish_select q schema rows
  end.

(** ** Common table expressions *)

Definition sql_type_of (v : Value) : SqlType :=
  match v with
  | Int64 _ => TInt64
  | Float64 _ => TFloat64
  | Bool _ => TBoolean
  | _ => TText
  end.

(** The columns of an answer, typed by its first row. *)
Definition infer_schema (r : QueryResult) : list ColumnSchema :=
  map (fun '(i, n) =>
    let t := match head (result_rows r) ≫= (fun row => row !! i) with Some v => sql_type_of v | None => TText end in
    mkColumn n t true false) (indexed (result_columns r)).

(** The rows whose debug texts have not been seen; the same for [UNION] and [UNION ALL]. *)
Fixpoint add_unseen (seen : gset (list (list N))) (rows : list row) : gset (list (list N)) * list row :=
  match rows with
  | [] => (seen, [])
  | r :: rows =>
      let key := map debug_value r in
      if bool_decide (key ∈ seen) then add_unseen seen rows
      else let '(seen, rest) := add_unseen ({[key]} ∪ seen) rows in (seen, r :: rest)
  end.

(** The rounds of a recursive expression: [step] runs the query with the rows of the
    round before under the expression's name. *)
Fixpoint cte_rounds (n : nat) (depth : Z) (step : cte_ctx -> db_op QueryResult) (name : list N) (schema : list ColumnSchema)
    (ctx : cte_ctx) (seen : gset (list (list N))) (all frontier : list row) : db_op (list row) :=
  match n, frontier with
  | S n, _ :: _ =>
      _ ← update_env (set_depth (depth + 2)%Z);
      r ← step (<[name := (schema, frontier)]> ctx);
      match add_unseen seen (result_rows r) with
      | (_, []) => mret all
      | (seen, new) => cte_rounds n (depth + 1)%Z step name schema ctx seen (all ++ new) new
      end
  | _, _ => mret all
  end.

Definition recursive_cte (name : list N) (base step : cte_ctx -> db_op QueryResult) (ctx : cte_ctx) : db_op cte_ctx :=
  r ← base ctx;
  let schema := infer_schema r in
  let '(seen, rows) := add_unseen ∅ (result_rows r) in
  all ← cte_rounds 1000 0 step name schema ctx seen rows rows;
  _ ← update_env (set_depth 0);
  mret (<[name := (schema, all)]> ctx).

Fixpoint exec_select_with_cte (sel : Ast.SelectStmt) (ctx : cte_ctx) {struct sel} : db_op QueryResult :=
  match sel with
  | Ast.mkSelect ctes _ cols from where_clause group_by having order_by limit offset =>
      ctx ← (fix clauses (ctes : list Ast.CteClause) (ctx : cte_ctx) : db_op cte_ctx :=
               match ctes with
               | [] => mret ctx
               | cte :: ctes => ctx ← exec_cte cte ctx; clauses ctes ctx
               end) ctes ctx;
      select_body (mkClauses cols from where_clause group_by having order_by limit offset) ctx
  end
with exec_cte (cte : Ast.CteClause) (ctx : cte_ctx) {struct cte} : db_op cte_ctx :=
  match cte with
  | Ast.mkCte name true _ (Some (Ast.mkUnion base _ step)) =>
      recursive_cte (to_lowercase name) (exec_select_with_cte base) (exec_select_with_cte step) ctx
  | Ast.mkCte name true query None =>
      recursive_cte (to_lowercase name) (exec_select_with_cte query) (exec_select_with_cte query) ctx
  | Ast.mkCte name false query _ =>
      r ← exec_select_with_cte query ctx;
      mret (<[to_lowercase name := (infer_schema r, result_rows r)]> ctx)
  end.

Definition exec_select (sel : Ast.SelectStmt) : db_op QueryResult := exec_select_with_cte sel ∅.

(** ** CREATE TABLE *)

Definition pk_column (constraints : list Ast.TableConstraint) : option (list N) :=
  head (omap (fun c => match c with Ast.PrimaryKey cols => head cols | _ => None end) constraints).

(** The columns and the place of the primary key, the last one that is declared. *)
Fixpoint table_columns (pk_name : option (list N)) (i : nat) (defs : list Ast.ColumnDef) (pk : option nat)
    : sql_result (list ColumnSchema * option nat) :=
  match defs with
  | [] => Ok ([], pk)
  | d :: defs =>
      t ← ok_or (from_ast (Ast.data_type d))
            (Semantic (fmt "unsupported column type {:?} for column '{}'" [AType (Ast.data_type d); AText (Ast.column_name d)]));
      let is_pk := bool_decide (pk_name = Some (Ast.column_name d)) || Ast.primary_key d in
      '(cols, pk) ← table_columns pk_name (S i) defs (if is_pk then Some i else pk);
      Ok (mkColumn (Ast.column_name d) t (Ast.nullable d && negb is_pk) is_pk :: cols, pk)
  end.

Definition exec_create_table (ct : Ast.CreateTableStmt) : db_op QueryResult :=
  let name := to_lowercase (Ast.create_table ct) in
  db ← get_db;
  if contains (catalog db) name then
    if Ast.if_not_exists ct then mret (done_with (text "CREATE TABLE") 0)
    else lift (semantic "table '{}' already exists" [AText name])
  else
    '(cols, pk) ← lift (table_columns (pk_column (Ast.constraints ct)) 0 (Ast.columns ct) None);
    let h := Heap.new (next_id (catalog db)) in
    tree ← (match pk with
            | Some _ => t ← on_pool BTree.create; mret (Some t)
            | None => mret None
            end);
    db ← get_db;
    _ ← set_catalog (create_table (catalog db) name cols pk h tree (BTree.meta_page_id <$> tree));
    _ ← (match Ast.storage ct with
         | Ast.Columnar => e ← table_mut name; put_table name (with_columnar e Columnar.new)
         | Ast.RowLayout => mret ()
         end);
    _ ← flush_wal;
    mret (done_with (text "CREATE TABLE") 0).

(** ** INSERT *)

Fixpoint assign_literals (positions : list nat) (exprs : list Ast.Expr) (values : row) : sql_result row :=
  match positions, exprs with
  | p :: positions, e :: exprs => v ← eval_literal e; assign_literals positions exprs (<[p := v]> values)
  | _, _ => Ok values
  end.

Definition coerce_or_null (v : Value) (t : SqlType) : sql_result Value := if is_null v then Ok v else coerce_value v t.

Definition insert_values (schema : list ColumnSchema) (positions : list nat) (exprs : list Ast.Expr) : sql_result row :=
  if negb (len exprs =? len positions) then
    semantic "expected {} values, got {}" [ANum (Z.of_N (len positions)); ANum (Z.of_N (len exprs))]
  else
    values ← assign_literals positions exprs (replicate (length schema) Null);
    mapM (fun cv => coerce_or_null cv.2 (sql_type cv.1)) (zip schema values).

Definition full_tuple (xid : N) (row_bytes : list N) : list N := Txn.encode (Txn.new_insert xid 0) ++ row_bytes.

(** [tree.insert(pool, &key_bytes, tid)?]. *)
Definition tree_insert (name : list N) (e : TableEntry) (tree : BTree.BTree) (key : list N) (tid : Heap.TupleId) : db_op () := fun db =>
  let '(b, (t, r)) := BTree.insert fuel tree key tid (pool db) in
  (mkDb (put (catalog db) name (with_pk_index e t)) b (wal db) (tx db) (env db), storage r).

(** The entry of the primary key. *)
Definition index_key (name : list N) (pk : option nat) (values : row) (tid : Heap.TupleId) : db_op () :=
  e ← table_mut name;
  match pk, pk_index e with
  | Some i, Some tree =>
      v ← lift (or_panic (values !! i));
      key ← lift (ok_or (as_key_bytes v) (Execution (fmt "cannot index NULL primary key" [])));
      tree_insert name e tree key tid
  | _, _ => mret ()
  end.

(** The copy in the column store. *)
Definition columnar_write (e : TableEntry) (values : row) : sql_result TableEntry :=
  match columnar e with
  | None => Ok e
  | Some store =>
      store ← Columnar.insert_rows store (map Value.name (columns e)) [map Vectorized.sql_val_to_columnar values];
      Ok (with_columnar e store)
  end.

(** The tokens of the indexed column. *)
Definition gin_write (e : TableEntry) (values : row) (tid : Heap.TupleId) : TableEntry :=
  match gin_index e with
  | None => e
  | Some g =>
      let col := i ← (c ← gin_column e; position (named c) (columns e)); values !! i in
      match col with
      | Some (Text s) => with_gin e (Gin.index_row g (tid, s)) (gin_column e)
      | _ => e
      end
  end.

Definition insert_row (name : list N) (schema : list ColumnSchema) (pk : option nat) (positions : list nat) (xid : N)
    (exprs : list Ast.Expr) : db_op () :=
  values ← lift (insert_values schema positions exprs);
  row_bytes ← lift (Codec.encode_row schema values);
  tid ← on_heap name (Heap.insert_tuple crc32 xid (full_tuple xid row_bytes));
  _ ← index_key name pk values tid;
  e ← table_mut name;
  e ← lift (columnar_write e values);
  put_table name (gin_write e values tid).

Fixpoint insert_rows (name : list N) (schema : list ColumnSchema) (pk : option nat) (positions : list nat) (xid : N)
    (rows : list (list Ast.Expr)) : db_op () :=
  match rows with
  | [] => mret ()
  | exprs :: rows => _ ← insert_row name schema pk positions xid exprs; insert_rows name schema pk positions xid rows
  end.

Definition column_positions (schema : list ColumnSchema) (cols : list (list N)) : sql_result (list nat) :=
  match cols with
  | [] => Ok (seq 0 (length schema))
  | _ => mapM (fun c => ok_or (position (named c) schema) (Semantic (fmt "unknown column '{}'" [AText c]))) cols
  end.

Definition exec_insert (ins : Ast.InsertStmt) : db_op QueryResult :=
  let name := to_lowercase (Ast.insert_table ins) in
  e ← table name;
  match Ast.source ins with
  | Ast.SelectSource _ => lift (exec_err "INSERT ... SELECT not yet supported" [])
  | Ast.Values rows =>
      positions ← lift (column_positions (columns e) (Ast.insert_columns ins));
      xid ← begin;
      _ ← insert_rows name (columns e) (pk_col_idx e) positions xid rows;
      _ ← commit xid;
      _ ← flush_wal;
      mret (done_with (text "INSERT 0 " ++ N_to_string (len rows)) (len rows))
  end.

(** ** DELETE and UPDATE *)

Fixpoint delete_tuples (name : list N) (xid : N) (found : list found_row) : db_op () :=
  match found with
  | [] => mret ()
  | (tid, header, _) :: found =>
      _ ← on_heap name (Heap.delete_tuple crc32 xid tid (Txn.xmax header));
      delete_tuples name xid found
  end.

Definition exec_delete (del : Ast.DeleteStmt) : db_op QueryResult :=
  let name := to_lowercase (Ast.delete_table del) in
  e ← table name;
  db ← get_db;
  found ← scan_table e (matches (env db) (Ast.delete_where del) (columns e));
  xid ← begin;
  _ ← delete_tuples name xid found;
  _ ← commit xid;
  _ ← flush_wal;
  mret (done_with (text "DELETE " ++ N_to_string (len found)) (len found)).

Definition column_position (schema : list ColumnSchema) (col : list N) : sql_result nat :=
  ok_or (position (named col) schema) (Semantic (fmt "unknown column '{}'" [AText col])).

(** The assignments, evaluated over the old row. *)
Fixpoint assign_values (v : Env) (schema : list ColumnSchema) (assignments : list (list N * Ast.Expr)) (old new : row)
    : sql_result row :=
  match assignments with
  | [] => Ok new
  | (col, e) :: assignments =>
      i ← column_position schema col;
      c ← or_panic (schema !! i);
      val ← eval_expr v e schema old;
      val ← coerce_or_null val (sql_type c);
      assign_values v schema assignments old (<[i := val]> new)
  end.

Definition update_row (name : list N) (schema : list ColumnSchema) (pk : option nat) (assignments : list (list N * Ast.Expr))
    (xid : N) (f : found_row) : db_op () :=
  let '(tid, header, old) := f in
  _ ← on_heap name (Heap.delete_tuple crc32 xid tid (Txn.xmax header));
  db ← get_db;
  new ← lift (assign_values (env db) schema assignments old old);
  row_bytes ← lift (Codec.encode_row schema new);
  tid ← on_heap name (Heap.insert_tuple crc32 xid (full_tuple xid row_bytes));
  index_key name pk new tid.

Fixpoint update_rows (name : list N) (schema : list ColumnSchema) (pk : option nat) (assignments : list (list N * Ast.Expr))
    (xid : N) (found : list found_row) : db_op () :=
  match found with
  | [] => mret ()
  | f :: found => _ ← update_row name schema pk assignments xid f; update_rows name schema pk assignments xid found
  end.

Definition exec_update (upd : Ast.UpdateStmt) : db_op QueryResult :=
  let name := to_lowercase (Ast.update_table upd) in
  e ← table name;
  db ← get_db;
  _ ← lift (mapM (fun a => column_position (columns e) a.1) (Ast.assignments upd));
  found ← scan_table e (matches (env db) (Ast.update_where upd) (columns e));
  xid ← begin;
  _ ← update_rows name (columns e) (pk_col_idx e) (Ast.assignments upd) xid found;
  _ ← commit xid;
  _ ← flush_wal;
  mret (done_with (text "UPDATE " ++ N_to_string (len found)) (len found)).

(** ** ANALYZE, indexes and VACUUM *)

Definition exec_analyze (table_name : list N) : db_op QueryResult :=
  let name := to_lowercase table_name in
  e ← table name;
  rows ← seq_scan e;
  st ← lift (analyze_rows (columns e) rows);
  e ← table_mut name;
  _ ← put_table name (with_stats e st);
  mret (done_with (text "ANALYZE") 0).

(** The texts of a column with their tuple ids. *)
Definition column_texts (i : nat) (rows : list found_row) : list (Heap.TupleId * list N) :=
  omap (fun '(tid, _, r) => match r !! i with Some (Text s) => Some (tid, s) | _ => None end) rows.

Definition indexed_column (e : TableEntry) (column : list N) : sql_result nat :=
  ok_or (position (named (to_lowercase column)) (columns e)) (Semantic (fmt "column '{}' does not exist" [AText column])).

Definition exec_create_gin_index (table_name column : list N) : db_op QueryResult :=
  let name := to_lowercase table_name in
  e ← table name;
  i ← lift (indexed_column e column);
  rows ← scan_table e (fun _ => Ok true);
  e ← table_mut name;
  _ ← put_table name (with_gin e (Gin.build (column_texts i rows)) (Some (to_lowercase column)));
  mret (done_with (text "CREATE GIN INDEX") 0).

Fixpoint index_vectors (h : Hnsw.HnswIndex) (texts : list (Heap.TupleId * list N)) : sql_result Hnsw.HnswIndex :=
  match texts with
  | [] => Ok h
  | (tid, s) :: texts =>
      match parse_vector_str s with
      | Ok v => h ← Hnsw.insert h (vector_id tid) v; index_vectors h texts
      | Err _ => index_vectors h texts
      | Panic => Panic
      end
  end.

Definition exec_create_vector_index (table_name column : list N) : db_op QueryResult :=
  let name := to_lowercase table_name in
  e ← table name;
  i ← lift (indexed_column e column);
  rows ← scan_table e (fun _ => Ok true);
  h ← lift (index_vectors (Hnsw.new ln 16 200) (column_texts i rows));
  e ← table_mut name;
  _ ← put_table name (with_vector_index e h);
  mret (done_with (text "CREATE VECTOR INDEX") 0).

Definition exec_vacuum (table_name : list N) : db_op QueryResult :=
  let name := to_lowercase table_name in
  _ ← table name;
  db ← get_db;
  st ← on_heap name (Vacuum.vacuum_table crc32 (tx db));
  mret (done_with (text "VACUUM") (Vacuum.tuples_removed st)).

(** ** Statements *)

Definition exec_drop_table (dt : Ast.DropTableStmt) : db_op QueryResult :=
  let name := to_lowercase (Ast.drop_table dt) in
  db ← get_db;
  if negb (contains (catalog db) name) && negb (Ast.if_exists dt) then lift (no_table name)
  else mret (done_with (text "DROP TABLE") 0).

Definition one_text (column value t : list N) : QueryResult := mkResult [column] [[Text value]] 0 t.

Definition execute_stmt (stmt : Ast.Statement) : db_op QueryResult :=
  match stmt with
  | Ast.CreateTable ct => exec_create_table ct
  | Ast.Insert ins => exec_insert ins
  | Ast.SelectStatement sel => exec_select sel
  | Ast.Delete del => exec_delete del
  | Ast.Begin => mret (done_with (text "BEGIN") 0)
  | Ast.Commit => xid ← begin; _ ← commit xid; mret (done_with (text "COMMIT") 0)
  | Ast.Rollback => mret (done_with (text "ROLLBACK") 0)
  | Ast.DropTable dt => exec_drop_table dt
  | Ast.Update upd => exec_update upd
  | Ast.Explain inner => mret (one_text (text "QUERY PLAN") (build_plan inner) (text "EXPLAIN"))
  | Ast.Analyze table_name => exec_analyze table_name
  | Ast.CreateVectorIndex table_name column => exec_create_vector_index table_name column
  | Ast.CreateGinIndex table_name column => exec_create_gin_index table_name column
  | Ast.Vacuum table_name => exec_vacuum table_name
  | Ast.SetVar _ _ => mret (done_with (text "SET") 0)
  | Ast.ShowVar name => mret (one_text name (pg_show_var name) (text "SHOW"))
  end.

Definition execute (sql : list N) : db_op QueryResult :=
  stmt ← lift (Parser.parse sql);
  execute_stmt stmt.
End Engine.
Arguments Db D : clear implicits.
End Engine.
