(* ===== verification/SqlEngineSpec.v ===== *)
(** * The engine over its tables

    What the statements of [SqlEngine] do to tables without indexes: [inv] relates the
    catalog, the pages of the pool, the log and the transactions to the tuples of every
    table, each with the transaction that wrote it.  A statement reads the rows of
    committed transactions; an insert of a statement that fails stays behind unseen.
    [insert_refines], [delete_refines] and [update_refines] state the statements that write
    over plain tables of rows. *)

From Stdlib Require Import Ascii String.
From stdpp Require Import gmap strings.
From S2P Require Import Prelude Bytes Strings Float64 StorageError StorageReplacer StorageDisk StoragePage StorageBufferPool StorageWal StorageTxn.
From S2P Require Import StorageHeap StorageHnsw SqlAst SqlValue SqlToken SqlCodec SqlExpr SqlGroup SqlVectorized SqlCatalog SqlPlan SqlWindow SqlEngine.

Module EngineSpec.
Import Value Expr Group Catalog Plan Window Engine.

(** A tuple of a table: the transaction that inserted it, and its row. *)
Abbreviation tuples := (gmap (N * N) (N * row)).

(** The tables of a database: their columns and rows. *)
Abbreviation adb := (gmap (list N) (list ColumnSchema * list row)).

Definition enc (schema : list ColumnSchema) (r : row) : list N :=
  match Codec.encode_row schema r with Ok bytes => bytes | _ => [] end.

Definition tuple_bytes (schema : list ColumnSchema) (t : N * row) : list N := full_tuple t.1 (enc schema t.2).

(** A row that a page has room for. *)
Definition fits (schema : list ColumnSchema) (r : row) : Prop :=
  Codec.row_ok schema r /\ 28 + len (enc schema r) <= 8144.

#[global] Instance fits_dec schema r : Decision (fits schema r).
Proof. unfold fits. apply _. Defined.

Lemma enc_ok schema r rest : Codec.row_ok schema r ->
  Codec.encode_row schema r = Ok (enc schema r) /\ Codec.decode_row schema (enc schema r ++ rest) = Ok r /\ bytes_ok (enc schema r).
Proof.
  intros Hr. destruct (Codec.row_roundtrip schema r rest Hr) as (bytes & He & Hd). unfold enc. rewrite He.
  split_and!; [done|done|]. by eapply Codec.encode_row_bytes.
Qed.

Lemma header_ok x : x < 2 ^ 64 -> Txn.header_ok (Txn.new_insert x 0).
Proof. by unfold Txn.header_ok. Qed.

Lemma len_header h : len (Txn.encode h) = 24.
Proof. rewrite Txn.encode_layout, !len_app, !len_le_bytes. done. Qed.

Lemma split_full x schema r : x < 2 ^ 64 -> split_mvcc (tuple_bytes schema (x, r)) = Ok (Txn.new_insert x 0, enc schema r).
Proof.
  intros Hx. unfold split_mvcc, tuple_bytes, full_tuple. cbn [fst snd]. set (h := Txn.new_insert x 0).
  rewrite len_app, len_header, (proj2 (N.ltb_ge _ _)) by lia.
  rewrite (Wal.slice_here (Txn.encode h) (enc schema r) 24) by (by rewrite len_header). rewrite bind_ok.
  pose proof (Txn.decode_encode h [] (header_ok x Hx)) as Hd. rewrite app_nil_r in Hd. rewrite Hd. cbn [storage].
  rewrite bind_ok. do 2 f_equal.
Qed.

Lemma full_tuple_ok schema x r : fits schema r -> bytes_ok (tuple_bytes schema (x, r)) /\ 4 + len (tuple_bytes schema (x, r)) <= 8144.
Proof.
  intros [Hr Hl]. unfold tuple_bytes, full_tuple. cbn [fst snd]. rewrite len_app, len_header. split; [|lia].
  apply Forall_app. split; [|by apply (enc_ok schema r [])]. rewrite Txn.encode_layout. rewrite !Forall_app. auto using le_bytes_ok.
Qed.

(** A committed insert is visible to a statement, others are not. *)
Lemma visible_insert t x : Txn.txn_ok t -> 1 <= x < Txn.next_xid t ->
  Txn.is_visible t (Txn.new_insert x 0) (Txn.snapshot t) = bool_decide (x ∈ Txn.committed t).
Proof.
  intros [_ _ Hac _ _] [Hx1 Hx2]. unfold Txn.is_visible, Txn.is_committed_before. cbn [Txn.new_insert Txn.xmin Txn.xmax].
  rewrite (proj2 (N.eqb_neq x Txn.INVALID_XID)) by (unfold Txn.INVALID_XID; lia). cbn [Txn.snapshot Txn.snap_active Txn.snap_xmax].
  rewrite (proj2 (N.leb_gt _ _)) by lia. unfold Txn.is_committed.
  case_bool_decide as Ha; [rewrite (bool_decide_eq_false_2 (x ∈ _)) by set_solver; done|].
  destruct (x <? _); by case_bool_decide.
Qed.

(** ** Tables *)

(** No index and no second copy. *)
Record plain (e : TableEntry) : Prop := {
  pl_pk : pk_col_idx e = None;
  pl_columnar : columnar e = None;
  pl_vector : vector_index e = None;
  pl_gin : gin_index e = None
}.

Record table_ok (limit : N) (e : TableEntry) (m : gmap N (list N)) (g : tuples) : Prop := {
  ta_plain : plain e;
  ta_heap : Heap.heap_ok (heap e) m;
  ta_holds : forall tid, Heap.holds (heap e) m tid = tuple_bytes (columns e) <$> g !! tid;
  ta_rows : map_Forall (fun _ t => 1 <= t.1 < limit /\ Codec.row_ok (columns e) t.2) g
}.

(** The rows a statement reads. *)
Definition visible (c : gset N) (ts : list (N * row)) : list row := (filter (fun t => t.1 ∈ c) ts).*2.

Definition rows_of (c : gset N) (g : tuples) : list row := visible c (map_to_list g).*2.

Lemma visible_perm c ts ts' : ts ≡ₚ ts' -> visible c ts ≡ₚ visible c ts'.
Proof. intros Hp. unfold visible. by rewrite Hp. Qed.

Lemma visible_app c ts ts' : visible c (ts ++ ts') = visible c ts ++ visible c ts'.
Proof. unfold visible. by rewrite filter_app, fmap_app. Qed.

#[local] Instance filter_perm {A} (f : A -> bool) : Proper ((≡ₚ) ==> (≡ₚ)) (List.filter f).
Proof.
  induction 1 as [|x l l' _ IH|x y l|l1 l2 l3 _ IH1 _ IH2]; cbn; [done| | |by rewrite IH1].
  - destruct (f x); by rewrite IH.
  - destruct (f x), (f y); try done. constructor.
Qed.

Lemma visible_fresh (c : gset N) (x : N) ts : Forall (fun t => t.1 <> x) ts -> visible ({[x]} ∪ c) ts = visible c ts.
Proof.
  unfold visible. induction 1 as [|t ts Ht _ IH]; [done|]. rewrite !filter_cons.
  destruct (decide (t.1 ∈ c)); [rewrite !decide_True by set_solver|rewrite !decide_False by set_solver]; rewrite ?fmap_cons; by rewrite IH.
Qed.

Lemma visible_all c x vs : x ∈ c -> visible c (map (pair x) vs) = vs.
Proof. intros Hx. unfold visible. induction vs as [|v vs IH]; [done|]. cbn [map]. rewrite filter_cons, decide_True by done. rewrite fmap_cons. by rewrite IH. Qed.

Lemma visible_none c x vs : x ∉ c -> visible c (map (pair x) vs) = [].
Proof. intros Hx. unfold visible. induction vs as [|v vs IH]; [done|]. cbn [map]. by rewrite filter_cons, decide_False by done. Qed.

(** ** Scans *)

Abbreviation item := ((N * N) * (N * row))%type.

Definition tid_of (it : item) : Heap.TupleId := Heap.mkTid it.1.1 it.1.2.
Definition raw_of (schema : list ColumnSchema) (it : item) : Heap.TupleId * list N := (tid_of it, tuple_bytes schema it.2).

Lemma scan_items (schema : list ColumnSchema) (g : tuples) (l : list (Heap.TupleId * list N)) : NoDup l.*1 ->
  (forall p s d, (Heap.mkTid p s, d) ∈ l <-> tuple_bytes schema <$> g !! (p, s) = Some d) ->
  exists items, l = map (raw_of schema) items /\ items ≡ₚ map_to_list g.
Proof.
  intros Hn Hl.
  assert (Hx : exists items, l = map (raw_of schema) items /\ Forall (fun it => g !! it.1 = Some it.2) items).
  { assert (Hf : Forall (fun x => exists it, x = raw_of schema it /\ g !! it.1 = Some it.2) l).
    { apply Forall_forall. intros [[p s] d] Hin. apply Hl in Hin. destruct (g !! (p, s)) as [t|] eqn:E; [|done].
      injection Hin as <-. by exists ((p, s), t). }
    clear Hn Hl. induction Hf as [|x l (it & -> & Hit) _ (items & -> & IH)]; [by exists []|]. exists (it :: items). by split; [|constructor]. }
  destruct Hx as (items & -> & Hf). exists items. split; [done|]. rewrite Forall_forall in Hf.
  apply NoDup_Permutation; [|apply NoDup_map_to_list|].
  - apply (NoDup_fmap_1 (fun it => tid_of it)). by rewrite <- list_fmap_compose in Hn.
  - intros [[p s] t]. rewrite elem_of_map_to_list. split; [intros Hin; exact (Hf _ Hin)|]. intros Hg.
    assert (Hin : (Heap.mkTid p s, tuple_bytes schema t) ∈ map (raw_of schema) items) by (apply Hl; by rewrite Hg).
    apply list_elem_of_fmap in Hin as ([[p' s'] t'] & [= -> -> _] & Hin). pose proof (Hf _ Hin) as Hg'. cbn in Hg'.
    rewrite Hg in Hg'. by injection Hg' as ->.
Qed.

(** The visible tuples among those scanned. *)
Definition found_item (it : item) : found_row := (tid_of it, Txn.new_insert it.2.1 0, it.2.2).
Definition found_of (c : gset N) (items : list item) : list found_row := found_item <$> filter (fun it => it.2.1 ∈ c) items.

Fixpoint keep_found (keep : row -> sql_result bool) (l : list found_row) : sql_result (list found_row) :=
  match l with
  | [] => Ok []
  | f :: l =>
      '(k : bool) ← keep f.2;
      rest ← keep_found keep l;
      Ok (if k then f :: rest else rest)
  end.

Lemma visible_rows_items schema t keep items : Txn.txn_ok t -> Txn.next_xid t < 2 ^ 64 ->
  Forall (fun it => 1 <= it.2.1 < Txn.next_xid t /\ Codec.row_ok schema it.2.2) items ->
  visible_rows schema t keep (map (raw_of schema) items) = keep_found keep (found_of (Txn.committed t) items).
Proof.
  intros Ht Hn. induction 1 as [|[[p s] [x r]] items [Hx Hr] _ IH]; [done|]. cbn [fst snd] in Hx, Hr.
  cbn [map raw_of visible_rows tid_of found_of fst snd]. rewrite split_full by lia. rewrite bind_ok. cbv beta iota.
  rewrite visible_insert by done. destruct (enc_ok schema r [] Hr) as (_ & Hd & _). rewrite app_nil_r in Hd.
  unfold found_of. rewrite filter_cons. cbn [fst snd]. case_bool_decide; [rewrite decide_True by done|rewrite decide_False by done; exact IH].
  rewrite Hd, bind_ok. cbn [keep_found found_item fmap list_fmap fst snd].
  destruct (keep r) as [k| |]; [|done..]. rewrite !bind_ok. fold (found_of (Txn.committed t) items). by rewrite IH.
Qed.

Lemma keep_found_all l : keep_found (fun _ => Ok true) l = Ok l.
Proof. induction l as [|f l IH]; [done|]. cbn [keep_found]. by rewrite bind_ok, IH. Qed.

Lemma found_rows c items : (found_of c items).*2 = visible c items.*2.
Proof.
  unfold found_of, visible. induction items as [|it items IH]; [done|]. rewrite fmap_cons, !filter_cons.
  repeat case_decide; cbn; try done; by rewrite <- IH.
Qed.

(** The found tuples that [sel] selects, and the others. *)
Definition chosen (c : gset N) (sel : row -> bool) (items : list item) : list item := filter (fun it => it.2.1 ∈ c /\ sel it.2.2 = true) items.
Definition others (c : gset N) (sel : row -> bool) (items : list item) : list item := filter (fun it => ~ (it.2.1 ∈ c /\ sel it.2.2 = true)) items.

Lemma keep_found_sel keep sel c items : Forall (fun r => keep r = Ok (sel r)) (visible c items.*2) ->
  keep_found keep (found_of c items) = Ok (found_item <$> chosen c sel items).
Proof.
  unfold visible, found_of, chosen. induction items as [|it items IH]; [done|]. rewrite fmap_cons, !filter_cons.
  destruct (decide (it.2.1 ∈ c)) as [Hc|Hc]; [|rewrite (decide_False (P := _ /\ _)) by tauto; exact IH].
  rewrite fmap_cons. intros [Hk Hf]%Forall_cons. rewrite fmap_cons. cbn [keep_found found_item snd]. rewrite Hk, bind_ok, IH, bind_ok by done.
  destruct (sel it.2.2); [by rewrite decide_True|rewrite decide_False; [done|by intros [_ ?]]].
Qed.

Lemma chosen_others c sel items : items ≡ₚ chosen c sel items ++ others c sel items.
Proof. unfold chosen, others. symmetry. apply list.filter_app_complement. Qed.

Lemma visible_chosen c sel items : visible c (chosen c sel items).*2 = List.filter sel (visible c items.*2).
Proof.
  unfold visible, chosen. induction items as [|it items IH]; [done|]. rewrite fmap_cons, !filter_cons.
  destruct (decide (it.2.1 ∈ c)) as [Hc|Hc]; [|rewrite (decide_False (P := _ /\ _)) by tauto; exact IH].
  rewrite fmap_cons. cbn [List.filter]. destruct (sel it.2.2) eqn:Es; [rewrite decide_True by done|rewrite decide_False by (by intros [_ ?]); exact IH].
  rewrite fmap_cons, filter_cons, decide_True by done. rewrite fmap_cons. by f_equal.
Qed.

Lemma visible_others c sel items : visible c (others c sel items).*2 = List.filter (fun r => negb (sel r)) (visible c items.*2).
Proof.
  unfold visible, others. induction items as [|it items IH]; [done|]. rewrite fmap_cons, !filter_cons.
  destruct (decide (it.2.1 ∈ c)) as [Hc|Hc].
  - rewrite fmap_cons. cbn [List.filter]. destruct (sel it.2.2) eqn:Es; cbn [negb].
    + rewrite decide_False by tauto. exact IH.
    + rewrite decide_True by (by intros [_ ?]). rewrite fmap_cons, filter_cons, decide_True by done. rewrite fmap_cons. by f_equal.
  - rewrite decide_True by tauto. rewrite fmap_cons, filter_cons, decide_False by done. exact IH.
Qed.

Section Spec.
Context {D : Type} `{PageStoreLaws D} `{SliceSort} `{UnicodeCase} `{DebugFormat} `{TableOrder}.
Context {Far : Hnsw.BinaryHeap Hnsw.cmp_far} {Near : Hnsw.BinaryHeap Hnsw.cmp_near}.
Context (crc32 : list N -> N) (ln : f64 -> f64) (fuel : nat) (now : N).
Implicit Types db : Db D.
Implicit Types m : gmap N (list N).
Implicit Types G : gmap (list N) tuples.

Definition disjoint_pages (ts : gmap (list N) TableEntry) : Prop :=
  forall k1 k2 e1 e2 p, k1 <> k2 -> ts !! k1 = Some e1 -> ts !! k2 = Some e2 -> p ∈ Heap.pages (heap e1) -> p ∉ Heap.pages (heap e2).

Definition tables_ok (limit : N) (ts : gmap (list N) TableEntry) m G : Prop := forall k,
  match ts !! k, G !! k with
  | Some e, Some g => table_ok limit e m g
  | None, None => True
  | _, _ => False
  end.

Record inv db m G : Prop := {
  in_pool : Pool.represents (pool db) m;
  in_lsn : Wal.flushed_lsn (wal db) < 2 ^ 64;
  in_env : env db = env0;
  in_txn : Txn.txn_ok (tx db);
  in_next : Txn.next_xid (tx db) < 2 ^ 64;
  in_reads : Txn.read_sets (tx db) = ∅;
  in_tables : tables_ok (Txn.next_xid (tx db)) (tables (catalog db)) m G;
  in_disjoint : disjoint_pages (tables (catalog db))
}.

(** What is left for [n] more steps: pages, transaction ids and ticks of the clock. *)
Record affords db (n : N) : Prop := {
  af_room : room (Pool.disk (pool db)) n;
  af_xids : Txn.next_xid (tx db) + n < 2 ^ 64;
  af_clock : exists P, map_Forall (fun _ e => len (Heap.pages (heap e)) <= P) (tables (catalog db)) /\
    Lru.clock (Pool.replacer (pool db)) + n * (P + n + 3) < 2 ^ 64
}.

Definition schemas db : gmap (list N) (list ColumnSchema) := columns <$> tables (catalog db).

Lemma table_ok_ext limit e m m' g : (forall p, p ∈ Heap.pages (heap e) -> m' !! p = m !! p) ->
  table_ok limit e m g -> table_ok limit e m' g.
Proof.
  intros Hm [Hp Hh Ho Hr]. destruct (Heap.heap_ok_ext (heap e) m m' Hm Hh) as [Hh' Hho]. split; try done.
  intros tid. by rewrite Hho.
Qed.

Lemma table_ok_limit l l' e m g : l <= l' -> table_ok l e m g -> table_ok l' e m g.
Proof.
  intros Hl [Hp Hh Ho Hr]. split; try done. eapply map_Forall_impl; [exact Hr|]. intros tid [x r] [? ?]. cbn in *. split; [lia|done].
Qed.

Lemma inv_table db m G k e : inv db m G -> tables (catalog db) !! k = Some e ->
  exists g, G !! k = Some g /\ table_ok (Txn.next_xid (tx db)) e m g.
Proof. intros Hi Hk. pose proof (in_tables _ _ _ Hi k) as Ht. rewrite Hk in Ht. destruct (G !! k) as [g|]; [by exists g|done]. Qed.

Definition heap_env db (e : TableEntry) : Heap.env D := Heap.mkEnv (heap e) (pool db) (wal db).

Lemma inv_stored db m G e g : inv db m G -> table_ok (Txn.next_xid (tx db)) e m g -> Heap.stored (heap_env db e) m.
Proof. intros Hi Ht. split; cbn [heap_env Heap.pool Heap.heap Heap.wal]; [apply Hi|apply Ht|apply Hi]. Qed.

(** The database after an operation on the heap file of a table. *)
Definition after_heap db (k : list N) (e : TableEntry) (e' : Heap.env D) : Db D :=
  mkDb (mkCatalog (<[k := with_heap e (Heap.heap e')]> (tables (catalog db))) (next_table_id (catalog db)))
    (Heap.pool e') (Heap.wal e') (tx db) (env db).

Lemma inv_after_heap db m G k e e' m' g' : inv db m G -> tables (catalog db) !! k = Some e ->
  Heap.stored e' m' -> Heap.framed (heap e) m (Heap.heap e') m' ->
  (forall tid, Heap.holds (Heap.heap e') m' tid = tuple_bytes (columns e) <$> g' !! tid) ->
  map_Forall (fun _ t => 1 <= t.1 < Txn.next_xid (tx db) /\ Codec.row_ok (columns e) t.2) g' ->
  inv (after_heap db k e e') m' (<[k := g']> G).
Proof.
  intros Hi Hk Hs [Hfp Hfk] Hho Hg'. destruct (inv_table db m G k e Hi Hk) as (g & _ & [Hpl Hh _ _]).
  assert (Hother : forall k2 e2 p, k2 <> k -> tables (catalog db) !! k2 = Some e2 -> p ∈ Heap.pages (heap e2) -> p ∉ Heap.pages (Heap.heap e')).
  { intros k2 e2 p Hne Hk2 Hp Hp'. apply Hfp in Hp' as [Hp'|Hp'].
    - by apply (in_disjoint _ _ _ Hi k2 k e2 e p).
    - destruct (inv_table db m G k2 e2 Hi Hk2) as (g2 & _ & Ht2).
      pose proof (proj1 (Forall_forall _ _) (Heap.ho_pages _ _ (ta_heap _ _ _ _ Ht2)) p Hp) as [[bs Hbs] _]. congruence. }
  destruct Hi as [Hpool Hlsn Henv Htx Hnx Hrd Htab Hdis].
  split; cbn [after_heap pool wal env tx catalog tables]; try done; [apply Hs|apply Hs| |].
  - intros k2. destruct (decide (k2 = k)) as [->|Hne].
    + rewrite !lookup_insert_eq. split; [by destruct Hpl|apply Hs|done|done].
    + rewrite !lookup_insert_ne by done. specialize (Htab k2). destruct (tables (catalog db) !! k2) as [e2|] eqn:E2, (G !! k2); try done.
      eapply table_ok_ext; [|exact Htab]. intros p Hp. apply Hfk. by eapply Hother.
  - intros k1 k2 e1 e2 p Hne Hk1 Hk2 Hp Hp2.
    destruct (decide (k1 = k)) as [->|Hn1], (decide (k2 = k)) as [->|Hn2]; [done|..].
    + rewrite lookup_insert_eq in Hk1. rewrite lookup_insert_ne in Hk2 by done. injection Hk1 as <-.
      by apply (Hother k2 e2 p Hn2 Hk2 Hp2).
    + rewrite lookup_insert_eq in Hk2. rewrite lookup_insert_ne in Hk1 by done. injection Hk2 as <-.
      by apply (Hother k1 e1 p Hn1 Hk1 Hp).
    + rewrite lookup_insert_ne in Hk1, Hk2 by done. by apply (Hdis k1 k2 e1 e2 p).
Qed.

Lemma affords_step db k e n : affords db (n + 1) -> tables (catalog db) !! k = Some e ->
  room (Pool.disk (pool db)) (n + 1) /\ Lru.clock (Pool.replacer (pool db)) + len (Heap.pages (heap e)) + 3 < 2 ^ 64 /\
  forall e', Heap.spent (heap_env db e) e' n -> affords (after_heap db k e e') n.
Proof.
  intros [Hr Hx (P & HP & Hk)] He. pose proof (HP k e He) as Hle. cbv beta in Hle. split_and!; [done|nia|].
  intros e' [Hr' Hk' Hl']. cbn [heap_env Heap.pool Heap.heap] in *. split; cbn [after_heap pool tx catalog tables]; [done|lia|].
  exists (P + 1). split; [|nia]. apply map_Forall_insert_2; [cbn; lia|]. eapply map_Forall_impl; [exact HP|]. cbv beta. lia.
Qed.

(** ** Operations on a table *)

(** From [db] to [db'] within the budget: the transactions, the columns of the tables
    and the variables are as before. *)
Record moved db db' m' G' (n : N) : Prop := {
  mv_inv : inv db' m' G';
  mv_affords : affords db' n;
  mv_tx : tx db' = tx db;
  mv_schemas : schemas db' = schemas db
}.

Definition no_space (x : SqlError) : Prop :=
  exists k a, x = StorageErr (InsufficientSpace k a) /\ a < k /\ k / 32 = a / 32.

Lemma schemas_after_heap db k e e' : tables (catalog db) !! k = Some e -> schemas (after_heap db k e e') = schemas db.
Proof. intros Hk. unfold schemas. cbn [after_heap catalog tables]. rewrite fmap_insert. cbn. apply insert_id. by rewrite lookup_fmap, Hk. Qed.

Lemma moved_heap db m G k e e' m' g' n : inv db m G -> affords db (n + 1) -> tables (catalog db) !! k = Some e ->
  Heap.stored e' m' -> Heap.framed (heap e) m (Heap.heap e') m' -> Heap.spent (heap_env db e) e' n ->
  (forall tid, Heap.holds (Heap.heap e') m' tid = tuple_bytes (columns e) <$> g' !! tid) ->
  map_Forall (fun _ t => 1 <= t.1 < Txn.next_xid (tx db) /\ Codec.row_ok (columns e) t.2) g' ->
  moved db (after_heap db k e e') m' (<[k := g']> G) n.
Proof.
  intros Hi Ha Hk Hs Hf Hsp Hho Hg. split; [by eapply inv_after_heap| |done|by apply schemas_after_heap].
  by eapply (affords_step db k e n).
Qed.

Lemma on_heap_eq {A} db name e (op : Heap.heap_op (D := D) A) e' r : tables (catalog db) !! to_lowercase name = Some e ->
  op (heap_env db e) = (e', r) -> on_heap name op db = (after_heap db (to_lowercase name) e e', storage r).
Proof. intros Hk Ho. unfold on_heap, get. rewrite Hk. unfold heap_env in Ho. by rewrite Ho. Qed.

Lemma insert_step db m G name e g n x r : inv db m G -> affords db (n + 1) ->
  tables (catalog db) !! to_lowercase name = Some e -> G !! to_lowercase name = Some g ->
  1 <= x < Txn.next_xid (tx db) -> fits (columns e) r ->
  (exists db' m' tid, on_heap name (Heap.insert_tuple crc32 x (tuple_bytes (columns e) (x, r))) db = (db', Ok tid) /\
     g !! Heap.key tid = None /\ moved db db' m' (<[to_lowercase name := <[Heap.key tid := (x, r)]> g]> G) n) \/
  (exists db' err, on_heap name (Heap.insert_tuple crc32 x (tuple_bytes (columns e) (x, r))) db = (db', Err err) /\ no_space err).
Proof.
  intros Hi Ha Hk Hg Hx Hr. destruct (inv_table db m G _ e Hi Hk) as (g2 & Hg2 & Ht). rewrite Hg in Hg2. injection Hg2 as <-.
  destruct (affords_step db _ e n Ha Hk) as (Hroom & Hclk & _). destruct (full_tuple_ok (columns e) x r Hr) as [Hb Hl].
  destruct (Heap.insert_tuple_ok crc32 (heap_env db e) m x _ n (inv_stored db m G e g Hi Ht) Hb Hl Hroom Hclk)
    as [(e' & m' & p & s & He & Hs & Hnone & Hho & _ & _ & Hsp & Hfr)|(e' & a & He & Hlt & Hdiv)].
  - left. exists (after_heap db (to_lowercase name) e e'), m', (Heap.mkTid p s). rewrite (on_heap_eq _ _ _ _ _ _ Hk He).
    rewrite (ta_holds _ _ _ _ Ht) in Hnone. unfold Heap.key. cbn [Heap.page_id Heap.slot_id].
    split_and!; [done|by destruct (g !! (p, s))|]. eapply moved_heap; try done.
    + intros tid. rewrite Hho. destruct (decide (tid = (p, s))) as [->|Hne]; [by rewrite lookup_insert_eq|].
      rewrite lookup_insert_ne by done. apply Ht.
    + apply map_Forall_insert_2; [split; [done|apply Hr]|apply Ht].
  - right. eexists _, _. rewrite (on_heap_eq _ _ _ _ _ _ Hk He). split; [done|]. by eexists _, _.
Qed.

Lemma delete_step db m G name e g n xid p s x r old : inv db m G -> affords db (n + 1) ->
  tables (catalog db) !! to_lowercase name = Some e -> G !! to_lowercase name = Some g -> g !! (p, s) = Some (x, r) ->
  exists db' m', on_heap name (Heap.delete_tuple crc32 xid (Heap.mkTid p s) old) db = (db', Ok ()) /\
    moved db db' m' (<[to_lowercase name := delete (p, s) g]> G) n.
Proof.
  intros Hi Ha Hk Hg Hps. destruct (inv_table db m G _ e Hi Hk) as (g2 & Hg2 & Ht). rewrite Hg in Hg2. injection Hg2 as <-.
  destruct (affords_step db _ e n Ha Hk) as (Hroom & Hclk & _).
  assert (Hd : Heap.holds (heap e) m (p, s) = Some (tuple_bytes (columns e) (x, r))) by (by rewrite (ta_holds _ _ _ _ Ht), Hps).
  destruct (Heap.delete_tuple_ok crc32 (heap_env db e) m xid p s _ old n (inv_stored db m G e g Hi Ht) Hd Hroom)
    as (e' & m' & lsn & He & Hs & Hho & _ & Hh & Hsp & Hfr); [cbn [heap_env Heap.pool]; lia|].
  exists (after_heap db (to_lowercase name) e e'), m'. rewrite (on_heap_eq _ _ _ _ _ _ Hk He). split; [done|].
  eapply moved_heap; try done.
  - intros tid. rewrite Hho. destruct (decide (tid = (p, s))) as [->|Hne]; [by rewrite lookup_delete_eq|].
    rewrite lookup_delete_ne by done. apply Ht.
  - apply map_Forall_delete, Ht.
Qed.

Lemma inv_pool db b m G : inv db m G -> Pool.represents b m -> inv (mkDb (catalog db) b (wal db) (tx db) (env db)) m G.
Proof. intros [] Hb. by split. Qed.

Lemma scan_step db m G k e g n keep : inv db m G -> affords db (n + 1) -> tables (catalog db) !! k = Some e -> G !! k = Some g ->
  exists db' items, scan_table e keep db = (db', keep_found keep (found_of (Txn.committed (tx db)) items)) /\
    moved db db' m G n /\ catalog db' = catalog db /\ items ≡ₚ map_to_list g.
Proof.
  intros Hi Ha Hk Hg. destruct (inv_table db m G _ e Hi Hk) as (g2 & Hg2 & Ht). rewrite Hg in Hg2. injection Hg2 as <-.
  destruct (affords_step db _ e n Ha Hk) as (Hroom & Hclk & _).
  destruct (Heap.scan_ok crc32 (heap_env db e) m n (inv_stored db m G e g Hi Ht) Hroom) as (e' & l & He & Hs & Hh & Hsp & Hnd & Hin);
    [cbn [heap_env Heap.pool Heap.heap]; lia|].
  destruct (scan_items (columns e) g l Hnd) as (items & -> & Hp).
  { intros p s d. rewrite Hin. cbn [heap_env Heap.heap]. by rewrite (ta_holds _ _ _ _ Ht). }
  exists (mkDb (catalog db) (Heap.pool e') (wal db) (tx db) (env db)), items. split_and!; [|split|done|done]; [| |split|done|done].
  - unfold scan_table, mbind, db_bind, get_db, read_heap. cbn [fst snd]. unfold heap_env in He. rewrite He. cbn [storage].
    unfold lift. f_equal. apply visible_rows_items; [apply Hi|apply Hi|]. apply Forall_forall. intros [tid t] Hit.
    rewrite Hp in Hit. apply elem_of_map_to_list in Hit. exact (ta_rows _ _ _ _ Ht tid t Hit).
  - apply inv_pool; [done|apply Hs].
  - apply Hsp.
  - destruct Ha as [_ Hx _]. cbn [tx]. lia.
  - destruct Ha as [_ _ (P & HP & Hc)]. exists P. split; [done|]. cbn [pool]. pose proof (HP k e Hk). cbv beta in *.
    destruct Hsp as [_ Hck _]. cbn [heap_env Heap.pool Heap.heap] in Hck. nia.
Qed.

(** ** Transactions *)

Lemma inv_tx db m G t w : inv db m G -> Txn.txn_ok t -> Txn.next_xid (tx db) <= Txn.next_xid t < 2 ^ 64 -> Txn.read_sets t = ∅ ->
  Wal.flushed_lsn w < 2 ^ 64 -> inv (mkDb (catalog db) (pool db) w t (env db)) m G.
Proof.
  intros [] Ht Hn Hr Hw. split; cbn [pool wal env tx catalog]; try done; [lia|].
  intros k. specialize (in_tables0 k). destruct (tables (catalog db) !! k), (G !! k); try done. eapply table_ok_limit; [|done]. lia.
Qed.

Lemma begin_step db m G n : inv db m G -> affords db (n + 1) ->
  exists db', begin db = (db', Ok (Txn.next_xid (tx db))) /\ inv db' m G /\ affords db' n /\ schemas db' = schemas db /\
    catalog db' = catalog db /\ Txn.committed (tx db') = Txn.committed (tx db) /\ Txn.next_xid (tx db) ∈ Txn.active (tx db') /\
    Txn.next_xid (tx db) < Txn.next_xid (tx db').
Proof.
  intros Hi [Hr Hx (P & HP & Hc)]. pose proof (Txn.begin_ok (tx db) (in_txn _ _ _ Hi) ltac:(lia)) as Ht.
  unfold begin. unfold Txn.begin in *. rewrite wadd_small in * by lia. cbn [fst] in Ht.
  eexists. split; [reflexivity|]. split_and!; try done; cbn [tx Txn.active Txn.next_xid]; [| |set_solver|lia].
  - apply inv_tx; cbn [Txn.next_xid Txn.read_sets]; try done; [lia|apply Hi|apply Hi].
  - split; cbn [pool tx catalog Txn.next_xid]; [eapply room_le; [|exact Hr]; lia|lia|]. exists P. split; [done|nia].
Qed.

Lemma flush_ok w : Wal.flushed_lsn w < 2 ^ 64 -> exists w' n, Wal.flush w = (w', Ok n) /\ Wal.flushed_lsn w' < 2 ^ 64.
Proof. intros Hw. unfold Wal.flush. destruct (Wal.buffer w); [by eexists _, _|]. eexists _, _. split; [done|]. apply wrap_lt. Qed.

Lemma write_record_ok w x r : Wal.flushed_lsn w < 2 ^ 64 ->
  exists w' n, Wal.write_record crc32 w x r = (w', Ok n) /\ Wal.flushed_lsn w' < 2 ^ 64.
Proof.
  intros Hw. unfold Wal.write_record. destruct (_ <=? _); [|by eexists _, _].
  edestruct flush_ok as (w' & n & -> & Hw'); [|by eexists _, _]. done.
Qed.

Lemma commit_step db m G n x : inv db m G -> affords db n -> x ∈ Txn.active (tx db) ->
  exists db', commit crc32 now x db = (db', Ok ()) /\ inv db' m G /\ affords db' n /\ schemas db' = schemas db /\
    Txn.committed (tx db') = {[x]} ∪ Txn.committed (tx db).
Proof.
  intros Hi [Hr Hx Hc] Hact. unfold commit, Txn.commit. rewrite bool_decide_eq_true_2 by done. cbn [negb].
  assert (Txn.check_ssi_conflict (tx db) x = false) as -> by (unfold Txn.check_ssi_conflict; by rewrite (in_reads _ _ _ Hi)).
  destruct (write_record_ok (wal db) x (Wal.XactCommit now) (in_lsn _ _ _ Hi)) as (w1 & k1 & -> & Hw1).
  destruct (flush_ok w1 Hw1) as (w2 & k2 & -> & Hw2). eexists. split; [reflexivity|].
  split_and!; try done. apply inv_tx; try done; [by apply Txn.end_committed_ok; [apply Hi|]|cbn; split; [lia|apply Hi]|].
  cbn. rewrite (in_reads _ _ _ Hi). apply delete_empty.
Qed.

Lemma flush_step db m G n : inv db m G -> affords db n ->
  exists db', flush_wal db = (db', Ok ()) /\ inv db' m G /\ affords db' n /\ schemas db' = schemas db /\ tx db' = tx db.
Proof.
  intros Hi Ha. unfold flush_wal. destruct (flush_ok (wal db) (in_lsn _ _ _ Hi)) as (w & k & -> & Hw).
  eexists. split; [reflexivity|]. split_and!; try done; [|by destruct Ha].
  apply inv_tx; try done; [apply Hi|split; [lia|apply Hi]|apply Hi].
Qed.

(** ** Inserting rows *)

Lemma affords_le db n n' : n <= n' -> affords db n' -> affords db n.
Proof.
  intros Hn [Hr Hx (P & HP & Hc)]. split; [by eapply room_le|lia|]. exists P. split; [done|].
  eapply N.le_lt_trans; [|exact Hc]. nia.
Qed.

Lemma moved_trans db db1 db2 m1 m2 G1 G2 n1 n2 : moved db db1 m1 G1 n1 -> moved db1 db2 m2 G2 n2 -> moved db db2 m2 G2 n2.
Proof. intros [] []. split; congruence. Qed.

Lemma schema_entry db k schema : schemas db !! k = Some schema -> exists e, tables (catalog db) !! k = Some e /\ columns e = schema.
Proof. unfold schemas. rewrite lookup_fmap. destruct (tables (catalog db) !! k) as [e|]; [|done]. intros [= <-]. by exists e. Qed.

Lemma put_same db name e : tables (catalog db) !! to_lowercase name = Some e -> put_table name e db = (db, Ok ()).
Proof.
  intros He. unfold put_table, mbind, db_bind, get_db, set_catalog, put. rewrite insert_id by done.
  by destruct db as [[] ? ? ? ?].
Qed.

Lemma insert_row_step db m G name schema g n x positions exprs : inv db m G -> affords db (n + 1) ->
  schemas db !! to_lowercase name = Some schema -> G !! to_lowercase name = Some g -> 1 <= x < Txn.next_xid (tx db) ->
  (forall v, insert_values schema positions exprs = Ok v -> fits schema v) ->
  let o := insert_row crc32 fuel name schema None positions x exprs db in
  match insert_values schema positions exprs with
  | Ok v =>
      (exists db' m' tid, o = (db', Ok ()) /\ g !! Heap.key tid = None /\
         moved db db' m' (<[to_lowercase name := <[Heap.key tid := (x, v)]> g]> G) n) \/
      (exists db' err, o = (db', Err err) /\ no_space err)
  | Err y => o = (db, Err y)
  | Panic => o = (db, Panic)
  end.
Proof.
  intros Hi Ha Hsc Hg Hx Hf. destruct (schema_entry db _ schema Hsc) as (e & Hk & <-). cbv zeta. unfold insert_row, mbind, db_bind, lift.
  destruct (insert_values (columns e) positions exprs) as [v|y|]; [|done..]. specialize (Hf v eq_refl).
  destruct (enc_ok (columns e) v [] (proj1 Hf)) as (-> & _ & _).
  destruct (insert_step db m G name e g n x v Hi Ha Hk Hg Hx Hf) as [(db' & m' & tid & Ho & Hn & Hm)|(db' & err & Ho & Hs)];
    unfold tuple_bytes in Ho; cbn [fst snd] in Ho; rewrite Ho; [left|right; by eexists _, _].
  exists db', m', tid. split; [|done].
  assert (Hsc' : schemas db' !! to_lowercase name = Some (columns e)) by (by rewrite (mv_schemas _ _ _ _ _ Hm)).
  destruct (schema_entry db' _ _ Hsc') as (e' & Hk' & Hc').
  destruct (inv_table db' _ _ _ e' (mv_inv _ _ _ _ _ Hm) Hk') as (g' & _ & [[Hpk Hco Hv Hgi] _ _ _]).
  unfold index_key, table_mut, mbind, db_bind, mret, db_ret, get_db, lift, get. rewrite Hk'. cbn [or_panic]. rewrite Hk'. cbn [or_panic].
  unfold columnar_write. rewrite Hco. unfold gin_write. rewrite Hgi. by apply put_same.
Qed.

Lemma insert_rows_step rows db m G name schema g n x positions : inv db m G -> affords db (len rows + n) ->
  schemas db !! to_lowercase name = Some schema -> G !! to_lowercase name = Some g -> 1 <= x < Txn.next_xid (tx db) ->
  Forall (fun exprs => forall v, insert_values schema positions exprs = Ok v -> fits schema v) rows ->
  exists db' r, insert_rows crc32 fuel name schema None positions x rows db = (db', r) /\
    ((exists err, r = Err err /\ no_space err) \/
     (exists m' g' new vs, moved db db' m' (<[to_lowercase name := g']> G) n /\ map_to_list g' ≡ₚ new ++ map_to_list g /\
        new.*2 = map (pair x) vs /\
        match mapM (insert_values schema positions) rows with
        | Ok vs' => r = Ok () /\ vs = vs'
        | Err y => r = Err y
        | Panic => r = Panic
        end)).
Proof.
  revert db m G g. induction rows as [|exprs rows IH]; intros db m G g Hi Ha Hsc Hg Hx Hf.
  { exists db, (Ok ()). split; [done|]. right. exists m, g, [], []. rewrite insert_id by done. by split_and!. }
  apply Forall_cons in Hf as [Hf1 Hf]. rewrite len_cons in Ha.
  pose proof (insert_row_step db m G name schema g (len rows + n) x positions exprs Hi) as Hstep.
  specialize (Hstep ltac:(by eapply affords_le; [|exact Ha]; lia) Hsc Hg Hx Hf1). cbv zeta in Hstep.
  assert (Hstay : moved db db m (<[to_lowercase name := g]> G) n).
  { rewrite insert_id by done. split; try done. by eapply affords_le; [|exact Ha]; lia. }
  cbn [insert_rows]. unfold mbind at 1, db_bind at 1. cbn [mapM].
  destruct (insert_values schema positions exprs) as [v|y|]; cycle 1.
  { rewrite Hstep. eexists _, _. split; [done|]. right. by exists m, g, [], []. }
  { rewrite Hstep. eexists _, _. split; [done|]. right. by exists m, g, [], []. }
  rewrite bind_ok. destruct Hstep as [(db1 & m1 & tid & -> & Hn & Hm1)|(db1 & err & -> & Hs)];
    [|eexists _, _; split; [done|]; left; by exists err].
  set (g1 := <[Heap.key tid := (x, v)]> g) in *.
  destruct (IH db1 m1 (<[to_lowercase name := g1]> G) g1) as (db2 & r & Hr & Hres);
    [apply Hm1|apply Hm1|by rewrite (mv_schemas _ _ _ _ _ Hm1)|by rewrite lookup_insert_eq|by rewrite (mv_tx _ _ _ _ _ Hm1)|done|].
  exists db2, r. split; [done|]. destruct Hres as [Hno|(m2 & g2 & new & vs & Hm2 & Hp & Hnew & Hres)]; [by left|right].
  rewrite insert_insert_eq in Hm2. exists m2, g2, ((Heap.key tid, (x, v)) :: new), (v :: vs).
  assert (Hperm : map_to_list g2 ≡ₚ ((Heap.key tid, (x, v)) :: new) ++ map_to_list g).
  { rewrite Hp. unfold g1. rewrite map_to_list_insert by done. cbn. by rewrite Permutation_middle. }
  split_and!; [exact (moved_trans _ _ _ _ _ _ _ _ _ Hm1 Hm2)|done|by cbn; f_equal|].
  destruct (mapM (insert_values schema positions) rows) as [vs'|y|]; [|done..]. destruct Hres as [-> ->]. done.
Qed.

(** ** Deleting and updating rows *)

Lemma delete_one (g : tuples) it C : map_to_list g ≡ₚ it :: C -> g !! it.1 = Some it.2 /\ map_to_list (delete it.1 g) ≡ₚ C.
Proof.
  intros Hp. assert (Hg : g !! it.1 = Some it.2).
  { apply elem_of_map_to_list. rewrite Hp. destruct it. left. }
  split; [done|]. apply (Permutation_cons_inv (a := it)). rewrite <- Hp. destruct it as [k t]. cbn [fst snd] in *.
  by rewrite <- (map_to_list_delete g k t Hg).
Qed.

Lemma delete_tuples_step C R db m G name schema g n x : inv db m G -> affords db (len C + n) ->
  schemas db !! to_lowercase name = Some schema -> G !! to_lowercase name = Some g -> map_to_list g ≡ₚ C ++ R ->
  exists db' m' g', delete_tuples crc32 name x (found_item <$> C) db = (db', Ok ()) /\
    moved db db' m' (<[to_lowercase name := g']> G) n /\ map_to_list g' ≡ₚ R.
Proof.
  revert db m G g. induction C as [|it C IH]; intros db m G g Hi Ha Hsc Hg Hp.
  { exists db, m, g. rewrite insert_id by done. by split_and!. }
  rewrite len_cons in Ha. destruct (schema_entry db _ schema Hsc) as (e & Hk & _). destruct (delete_one g it (C ++ R) Hp) as [Hit Hp'].
  destruct it as [[p s] [xi r]]. cbn [fst snd] in *.
  destruct (delete_step db m G name e g (len C + n) x p s xi r Txn.INVALID_XID Hi ltac:(by eapply affords_le; [|exact Ha]; lia) Hk Hg Hit) as (db1 & m1 & Ho & Hm1).
  destruct (IH db1 m1 (<[to_lowercase name := delete (p, s) g]> G) (delete (p, s) g)) as (db2 & m2 & g2 & Hd & Hm2 & Hp2);
    [apply Hm1|apply Hm1|by rewrite (mv_schemas _ _ _ _ _ Hm1)|by rewrite lookup_insert_eq|done|].
  rewrite insert_insert_eq in Hm2. exists db2, m2, g2. split_and!; [|exact (moved_trans _ _ _ _ _ _ _ _ _ Hm1 Hm2)|done].
  cbn [fmap list_fmap found_item tid_of delete_tuples fst snd]. unfold mbind, db_bind. cbn [Txn.new_insert Txn.xmax]. unfold tid_of. cbn [fst snd]. by rewrite Ho.
Qed.

Lemma update_row_step db m G name schema g n x assignments it C v : inv db m G -> affords db (n + 2) ->
  schemas db !! to_lowercase name = Some schema -> G !! to_lowercase name = Some g -> 1 <= x < Txn.next_xid (tx db) ->
  map_to_list g ≡ₚ it :: C -> assign_values env0 schema assignments it.2.2 it.2.2 = Ok v -> fits schema v ->
  (exists db' m' g' k, update_row crc32 fuel name schema None assignments x (found_item it) db = (db', Ok ()) /\
     moved db db' m' (<[to_lowercase name := g']> G) n /\ map_to_list g' ≡ₚ (k, (x, v)) :: C) \/
  (exists db' err, update_row crc32 fuel name schema None assignments x (found_item it) db = (db', Err err) /\ no_space err).
Proof.
  intros Hi Ha Hsc Hg Hx Hp Hv Hf. destruct (schema_entry db _ schema Hsc) as (e & Hk & Hc). destruct (delete_one g it C Hp) as [Hit Hp'].
  destruct it as [[p s] [xi r]]. cbn [fst snd] in *.
  destruct (delete_step db m G name e g (n + 1) x p s xi r Txn.INVALID_XID Hi ltac:(by eapply affords_le; [|exact Ha]; lia) Hk Hg Hit) as (db1 & m1 & Ho & Hm1).
  destruct Hm1 as [Hi1 Ha1 Ht1 Hs1]. destruct (schema_entry db1 (to_lowercase name) schema) as (e1 & Hk1 & <-); [by rewrite Hs1|].
  destruct (insert_step db1 m1 _ name e1 (delete (p, s) g) n x v Hi1 Ha1 Hk1) as [(db2 & m2 & tid & Hin & Hn & Hm2)|(db2 & err & Hin & Hno)];
    [by rewrite lookup_insert_eq|by rewrite Ht1|done|left|right].
  all: unfold update_row, found_item, tid_of, mbind, db_bind, lift, get_db; cbn [fst snd Txn.new_insert Txn.xmax]; rewrite Ho;
    rewrite (in_env _ _ _ Hi1), Hv; destruct (enc_ok (columns e1) v [] (proj1 Hf)) as (-> & _ & _);
    unfold tuple_bytes in Hin; cbn [fst snd] in Hin; rewrite Hin.
  2: by eexists _, _.
  rewrite insert_insert_eq in Hm2. eexists db2, m2, _, (Heap.key tid). split_and!.
  - destruct Hm2 as [Hi2 _ _ Hs2]. destruct (schema_entry db2 (to_lowercase name) (columns e1)) as (e2 & Hk2 & _); [by rewrite Hs2, Hs1|].
    unfold index_key, table_mut, mbind, db_bind, get_db, lift, get. by rewrite Hk2.
  - destruct Hm2 as [Hi2 Ha2 Ht2 Hs2]. split; [exact Hi2|exact Ha2|congruence|congruence].
  - rewrite map_to_list_insert by done. by rewrite Hp'.
Qed.

Lemma update_rows_step C R db m G name schema g n x assignments : inv db m G -> affords db (2 * len C + n) ->
  schemas db !! to_lowercase name = Some schema -> G !! to_lowercase name = Some g -> 1 <= x < Txn.next_xid (tx db) ->
  map_to_list g ≡ₚ C ++ R -> forall vs, Forall2 (fun it v => assign_values env0 schema assignments it.2.2 it.2.2 = Ok v /\ fits schema v) C vs ->
  (exists db' m' g' new, update_rows crc32 fuel name schema None assignments x (found_item <$> C) db = (db', Ok ()) /\
     moved db db' m' (<[to_lowercase name := g']> G) n /\ map_to_list g' ≡ₚ new ++ R /\ new.*2 = map (pair x) vs) \/
  (exists db' err, update_rows crc32 fuel name schema None assignments x (found_item <$> C) db = (db', Err err) /\ no_space err).
Proof.
  revert db m G g R. induction C as [|it C IH]; intros db m G g R Hi Ha Hsc Hg Hx Hp vs Hv.
  { apply Forall2_nil_inv_l in Hv as ->. left. exists db, m, g, []. rewrite insert_id by done. by split_and!. }
  apply Forall2_cons_inv_l in Hv as (v & vs' & [Hv Hf] & Hvs & ->). rewrite len_cons in Ha.
  destruct (update_row_step db m G name schema g (2 * len C + n) x assignments it (C ++ R) v Hi ltac:(by eapply affords_le; [|exact Ha]; lia)
    Hsc Hg Hx Hp Hv Hf) as [(db1 & m1 & g1 & k & Ho & Hm1 & Hp1)|(db1 & err & Ho & Hno)]; cycle 1.
  { right. exists db1, err. split; [|done]. cbn [fmap list_fmap update_rows]. unfold mbind, db_bind. by rewrite Ho. }
  destruct (IH db1 m1 (<[to_lowercase name := g1]> G) g1 ((k, (x, v)) :: R)) with (vs := vs') as [(db2 & m2 & g2 & new & Hu & Hm2 & Hp2 & Hnew)|(db2 & err & Hu & Hno)];
    [apply Hm1|apply Hm1|by rewrite (mv_schemas _ _ _ _ _ Hm1)|by rewrite lookup_insert_eq|by rewrite (mv_tx _ _ _ _ _ Hm1)|
     by rewrite Hp1, Permutation_middle|done|left|right].
  - exists db2, m2, g2, ((k, (x, v)) :: new). rewrite insert_insert_eq in Hm2.
    split_and!; [|exact (moved_trans _ _ _ _ _ _ _ _ _ Hm1 Hm2)|by rewrite Hp2; cbn; rewrite Permutation_middle|by cbn; f_equal].
    cbn [fmap list_fmap update_rows]. unfold mbind, db_bind. by rewrite Ho.
  - exists db2, err. split; [|done]. cbn [fmap list_fmap update_rows]. unfold mbind, db_bind. by rewrite Ho.
Qed.

(** The tuple an assignment makes of a row. *)
Definition rewritten (schema : list ColumnSchema) (assignments : list (list N * Ast.Expr)) (r : row) : sql_result (list N) :=
  v ← assign_values env0 schema assignments r r; Codec.encode_row schema v.

(** A row whose assignment fails has been deleted before. *)
Lemma update_row_fails db m G name schema g n x assignments it C err : inv db m G -> affords db (n + 1) ->
  schemas db !! to_lowercase name = Some schema -> G !! to_lowercase name = Some g -> map_to_list g ≡ₚ it :: C ->
  rewritten schema assignments it.2.2 = Err err ->
  exists db' m' g', update_row crc32 fuel name schema None assignments x (found_item it) db = (db', Err err) /\
    moved db db' m' (<[to_lowercase name := g']> G) n /\ map_to_list g' ≡ₚ C.
Proof.
  intros Hi Ha Hsc Hg Hp He. destruct (schema_entry db _ schema Hsc) as (e & Hk & Hc). destruct (delete_one g it C Hp) as [Hit Hp'].
  destruct it as [[p s] [xi r]]. cbn [fst snd] in *.
  destruct (delete_step db m G name e g n x p s xi r Txn.INVALID_XID Hi Ha Hk Hg Hit) as (db1 & m1 & Ho & Hm1).
  exists db1, m1, (delete (p, s) g). split_and!; [|done|done].
  unfold update_row, found_item, tid_of, mbind, db_bind, lift, get_db. cbn [fst snd Txn.new_insert Txn.xmax]. rewrite Ho.
  rewrite (in_env _ _ _ (mv_inv _ _ _ _ _ Hm1)). unfold rewritten in He.
  destruct (assign_values env0 schema assignments r r) as [v|y|]; [rewrite bind_ok in He; by rewrite He|by injection He as ->|done].
Qed.

Lemma update_rows_app name schema pk assignments x l1 l2 db :
  update_rows (D := D) crc32 fuel name schema pk assignments x (l1 ++ l2) db =
  match update_rows crc32 fuel name schema pk assignments x l1 db with
  | (db, Ok _) => update_rows crc32 fuel name schema pk assignments x l2 db
  | (db, Err e) => (db, Err e)
  | (db, Panic) => (db, Panic)
  end.
Proof.
  revert db. induction l1 as [|f l1 IH]; intros db; [done|]. cbn [app update_rows]. unfold mbind, db_bind.
  destruct (update_row crc32 fuel name schema pk assignments x f db) as [db1 [[]|e|]]; [apply IH|done|done].
Qed.

(** ** The database as tables of rows *)

(** The name a table is found by: every statement lowers it twice. *)
Definition key (name : list N) : list N := to_lowercase (to_lowercase name).

Definition shows (c : gset N) (sc : gmap (list N) (list ColumnSchema)) G (a : adb) : Prop := forall k,
  match a !! k, sc !! k, G !! k with
  | Some (schema, rows), Some schema', Some g => schema' = schema /\ rows ≡ₚ rows_of c g
  | None, None, None => True
  | _, _, _ => False
  end.

Definition represents db (a : adb) : Prop :=
  exists m G, inv db m G /\ shows (Txn.committed (tx db)) (schemas db) G a.

Lemma shows_lookup c sc G a k schema rows : shows c sc G a -> a !! k = Some (schema, rows) ->
  sc !! k = Some schema /\ exists g, G !! k = Some g /\ rows ≡ₚ rows_of c g.
Proof.
  intros Hs Ha. specialize (Hs k). rewrite Ha in Hs. destruct (sc !! k) as [sc'|]; [|done]. destruct (G !! k) as [g|]; [|done].
  destruct Hs as [-> ?]. split; [done|]. by exists g.
Qed.

Lemma shows_none c sc G a k : shows c sc G a -> a !! k = None -> sc !! k = None.
Proof. intros Hs Ha. specialize (Hs k). rewrite Ha in Hs. by destruct (sc !! k), (G !! k). Qed.

(** A transaction id no tuple of a table was written under is as good as not committed. *)
Lemma rows_of_fresh (c : gset N) (x : N) (g : tuples) : map_Forall (fun _ t => t.1 <> x) g -> rows_of ({[x]} ∪ c) g = rows_of c g.
Proof.
  intros Hg. unfold rows_of. apply visible_fresh, Forall_forall. intros t Ht.
  apply list_elem_of_fmap in Ht as ([k t'] & -> & Hin). apply elem_of_map_to_list in Hin. exact (Hg k t' Hin).
Qed.

(** A statement has written [g'] at [k]; for the other tables [c'] is as good as [c]. *)
Lemma shows_put c c' sc G a k schema rows g' rows' : shows c sc G a -> a !! k = Some (schema, rows) ->
  (forall k2 g2, k2 <> k -> G !! k2 = Some g2 -> rows_of c' g2 = rows_of c g2) -> rows' ≡ₚ rows_of c' g' ->
  shows c' sc (<[k := g']> G) (<[k := (schema, rows')]> a).
Proof.
  intros Hs Ha Hx Hr k2. destruct (shows_lookup c sc G a k schema rows Hs Ha) as [Hsc _]. destruct (decide (k2 = k)) as [->|Hne].
  - rewrite !lookup_insert_eq. by rewrite Hsc.
  - rewrite !lookup_insert_ne by done. specialize (Hs k2). destruct (a !! k2) as [[s2 r2]|], (sc !! k2); try done.
    destruct (G !! k2) as [g2|] eqn:Eg; [|done]. by rewrite (Hx k2 g2 Hne Eg).
Qed.

Lemma rows_of_perm (c : gset N) (g : tuples) ts : (map_to_list g).*2 ≡ₚ ts -> rows_of c g ≡ₚ visible c ts.
Proof. apply visible_perm. Qed.

Lemma inv_fresh db m G k g (x : N) : inv db m G -> G !! k = Some g -> Txn.next_xid (tx db) <= x -> map_Forall (fun _ t => t.1 <> x) g.
Proof.
  intros Hi Hg Hx. pose proof (in_tables _ _ _ Hi k) as Ht. rewrite Hg in Ht. destruct (tables (catalog db) !! k) as [e|]; [|done].
  eapply map_Forall_impl; [apply Ht|]. intros tid t [? _]. lia.
Qed.

Lemma next_uncommitted t : Txn.txn_ok t -> Txn.next_xid t ∉ Txn.committed t.
Proof. intros [_ Hids _ _ _] Hin. assert (1 <= Txn.next_xid t < Txn.next_xid t) by (apply Hids; auto). lia. Qed.

(** ** Statements *)

Lemma table_found db m G a t schema rows : inv db m G -> shows (Txn.committed (tx db)) (schemas db) G a -> a !! key t = Some (schema, rows) ->
  exists e g, table (to_lowercase t) db = (db, Ok e) /\ tables (catalog db) !! key t = Some e /\ columns e = schema /\ plain e /\
    schemas db !! key t = Some schema /\ G !! key t = Some g /\ rows ≡ₚ rows_of (Txn.committed (tx db)) g.
Proof.
  intros Hi Hs Ha. destruct (shows_lookup _ _ _ _ _ _ _ Hs Ha) as [Hsc (g & Hg & Hr)]. destruct (schema_entry db _ _ Hsc) as (e & Hk & Hc).
  destruct (inv_table db m G _ e Hi Hk) as (g2 & _ & Ht). exists e, g. split_and!; try done; [|apply Ht].
  unfold table, mbind, db_bind, get_db, get. fold (key t). by rewrite Hk.
Qed.

Lemma table_missing db m G a t : inv db m G -> shows (Txn.committed (tx db)) (schemas db) G a -> a !! key t = None ->
  table (to_lowercase t) db = (db, no_table (to_lowercase t)).
Proof.
  intros Hi Hs Ha. pose proof (shows_none _ _ _ _ _ Hs Ha) as Hn. unfold schemas in Hn. rewrite lookup_fmap in Hn.
  unfold table, mbind, db_bind, get_db, get. fold (key t). by destruct (tables (catalog db) !! key t).
Qed.

Lemma commit_flush db m G n x : inv db m G -> affords db n -> x ∈ Txn.active (tx db) ->
  exists db1 db2, commit crc32 now x db = (db1, Ok ()) /\ flush_wal db1 = (db2, Ok ()) /\ inv db2 m G /\ affords db2 n /\
    schemas db2 = schemas db /\ Txn.committed (tx db2) = {[x]} ∪ Txn.committed (tx db).
Proof.
  intros Hi Ha Hx. destruct (commit_step db m G n x Hi Ha Hx) as (db1 & Hc & Hi1 & Ha1 & Hs1 & Hc1).
  destruct (flush_step db1 m G n Hi1 Ha1) as (db2 & Hf & Hi2 & Ha2 & Hs2 & Ht2). exists db1, db2. split_and!; try done; [congruence|].
  by rewrite Ht2.
Qed.

Lemma insert_refines db a n t cols rss schema rows positions : represents db a -> a !! key t = Some (schema, rows) ->
  column_positions schema cols = Ok positions -> affords db (len rss + 1 + n) ->
  Forall (fun exprs => forall v, insert_values schema positions exprs = Ok v -> fits schema v) rss ->
  exists db' r, exec_insert crc32 fuel now (Ast.mkInsert t cols (Ast.Values rss)) db = (db', r) /\
    ((exists err, r = Err err /\ no_space err) \/
     match mapM (insert_values schema positions) rss with
     | Ok vs => r = Ok (done_with (text "INSERT 0 " ++ N_to_string (len rss)) (len rss)) /\
         represents db' (<[key t := (schema, rows ++ vs)]> a) /\ affords db' n
     | Err y => r = Err y /\ represents db' a /\ affords db' n
     | Panic => r = Panic
     end).
Proof.
  intros (m & G & Hi & Hs) Ha Hpos Haf Hfit.
  destruct (table_found db m G a t schema rows Hi Hs Ha) as (e & g & Htab & Hk & Hc & Hpl & Hsc & Hg & Hr).
  unfold exec_insert. cbn [Ast.insert_table Ast.source Ast.insert_columns]. unfold mbind, db_bind. rewrite Htab. unfold lift. rewrite Hc, Hpos, (pl_pk _ Hpl).
  destruct (begin_step db m G (len rss + n) Hi ltac:(by eapply affords_le; [|exact Haf]; lia))
    as (db1 & -> & Hi1 & Ha1 & Hs1 & _ & Hc1 & Hact & Hnx). set (x := Txn.next_xid (tx db)) in *.
  destruct (insert_rows_step rss db1 m G (to_lowercase t) schema g n x positions Hi1 Ha1) as (db2 & r & -> & Hres);
    [by rewrite Hs1|done|pose proof (Txn.ok_next _ (in_txn _ _ _ Hi)); lia|done|].
  destruct Hres as [(err & -> & Hno)|(m' & g' & new & vs & [Hi2 Ha2 Ht2 Hs2] & Hp & Hnew & Hres)];
    [eexists _, _; split; [done|]; left; by exists err|].
  fold (key t) in *. pose proof (next_uncommitted _ (in_txn _ _ _ Hi)) as Hun. fold x in Hun.
  assert (Hts : (map_to_list g').*2 ≡ₚ map (pair x) vs ++ (map_to_list g).*2) by (rewrite Hp, fmap_app; by rewrite Hnew).
  assert (Hfresh : forall k2 g2, G !! k2 = Some g2 -> rows_of ({[x]} ∪ Txn.committed (tx db)) g2 = rows_of (Txn.committed (tx db)) g2).
  { intros k2 g2 Hg2. apply rows_of_fresh. by eapply (inv_fresh db m G). }
  assert (Hfail : represents db2 a).
  { exists m', (<[key t := g']> G). split; [done|]. rewrite <- (insert_id a _ _ Ha), Ht2, Hs2, Hc1, Hs1. eapply shows_put; try done.
    rewrite (rows_of_perm _ _ _ Hts), visible_app, visible_none by done. done. }
  destruct (mapM (insert_values schema positions) rss) as [vs'|y|]; [|subst r; by eexists _, _; split; [done|]; right|subst r; by eexists _, _; split; [done|]; right].
  destruct Hres as [-> ->]. destruct (commit_flush db2 m' _ n x Hi2 Ha2) as (db3 & db4 & -> & -> & Hi4 & Ha4 & Hs4 & Hc4); [by rewrite Ht2|].
  eexists _, _. split; [done|]. right. split_and!; [done| |done].
  exists m', (<[key t := g']> G). split; [done|]. rewrite Hc4, Hs4, Ht2, Hs2, Hc1, Hs1. eapply shows_put; [done|done|by eauto|].
  rewrite (rows_of_perm _ _ _ Hts), visible_app, visible_all by set_solver. fold (rows_of ({[x]} ∪ Txn.committed (tx db)) g).
  rewrite (Hfresh _ _ Hg), <- Hr. apply Permutation_app_comm.
Qed.

(** A scan for a statement that writes: the tuples it selects, and the others. *)
Lemma select_for db m G a n t schema rows w sel : inv db m G -> shows (Txn.committed (tx db)) (schemas db) G a ->
  a !! key t = Some (schema, rows) -> affords db (n + 1) -> Forall (fun r => matches env0 w schema r = Ok (sel r)) rows ->
  exists e g db1 C R, table (to_lowercase t) db = (db, Ok e) /\ columns e = schema /\ pk_col_idx e = None /\
    scan_table e (matches (env db) w schema) db = (db1, Ok (found_item <$> C)) /\ moved db db1 m G n /\
    G !! key t = Some g /\ map_to_list g ≡ₚ C ++ R /\
    visible (Txn.committed (tx db)) C.*2 ≡ₚ List.filter sel rows /\
    C.*2.*2 ≡ₚ List.filter sel rows /\
    visible (Txn.committed (tx db)) R.*2 ≡ₚ List.filter (fun r => negb (sel r)) rows.
Proof.
  intros Hi Hs Ha Haf Hm. destruct (table_found db m G a t schema rows Hi Hs Ha) as (e & g & Htab & Hk & Hc & Hpl & Hsc & Hg & Hr).
  destruct (scan_step db m G (key t) e g n (matches (env db) w schema) Hi Haf Hk Hg) as (db1 & items & Hsn & Hmv & _ & Hp).
  set (c := Txn.committed (tx db)) in *. assert (Hv : visible c items.*2 ≡ₚ rows) by (rewrite Hr; apply visible_perm; by rewrite Hp).
  exists e, g, db1, (chosen c sel items), (others c sel items). split_and!; try done.
  - by apply Hpl.
  - rewrite Hsn, (in_env _ _ _ Hi), (keep_found_sel _ sel); [done|]. by rewrite Hv.
  - by rewrite <- Hp, <- chosen_others.
  - rewrite visible_chosen. by rewrite Hv.
  - rewrite <- Hv, <- visible_chosen. unfold visible, chosen. clear. induction items as [|it items IH]; [done|]. rewrite filter_cons.
    case_decide as Hd; [|done]. rewrite !fmap_cons, filter_cons, decide_True by apply Hd. rewrite fmap_cons. by f_equiv.
  - rewrite visible_others. by rewrite Hv.
Qed.

Lemma delete_refines db a n t al w schema rows sel : represents db a -> a !! key t = Some (schema, rows) ->
  Forall (fun r => matches env0 w schema r = Ok (sel r)) rows -> affords db (len rows + 2 + n) ->
  exists db', exec_delete crc32 now (Ast.mkDelete t al w) db =
      (db', Ok (done_with (text "DELETE " ++ N_to_string (len (List.filter sel rows))) (len (List.filter sel rows)))) /\
    represents db' (<[key t := (schema, List.filter (fun r => negb (sel r)) rows)]> a) /\ affords db' n.
Proof.
  intros (m & G & Hi & Hs) Ha Hm Haf.
  destruct (select_for db m G a (len rows + 1 + n) t schema rows w sel Hi Hs Ha ltac:(by eapply affords_le; [|exact Haf]; lia) Hm)
    as (e & g & db1 & C & R & Htab & Hc & _ & Hsc & [Hi1 Ha1 Ht1 Hs1] & Hg & Hp & _ & Hcr & Hvr).
  assert (Hlen : len (found_item <$> C) = len (List.filter sel rows)).
  { unfold len. rewrite length_fmap. f_equal. rewrite <- (Permutation_length Hcr). by rewrite !length_fmap. }
  assert (Hle : len C <= len rows).
  { unfold len in *. rewrite length_fmap in Hlen. rewrite Hlen. pose proof (List.filter_length_le sel rows). lia. }
  unfold exec_delete. cbn [Ast.delete_table Ast.delete_where]. unfold mbind, db_bind, get_db. rewrite Htab, Hc, Hsc.
  destruct (begin_step db1 m G (len C + n) Hi1 ltac:(by eapply affords_le; [|exact Ha1]; lia))
    as (db2 & -> & Hi2 & Ha2 & Hs2 & _ & Hc2 & Hact & Hnx). set (x := Txn.next_xid (tx db1)) in *.
  destruct (delete_tuples_step C R db2 m G (to_lowercase t) schema g n x Hi2 Ha2) as (db3 & m3 & g3 & -> & [Hi3 Ha3 Ht3 Hs3] & Hp3);
    [rewrite Hs2, Hs1; by apply (shows_lookup _ _ _ _ _ _ _ Hs Ha)|done|done|].
  destruct (commit_flush db3 m3 _ n x Hi3 Ha3) as (db4 & db5 & -> & -> & Hi5 & Ha5 & Hs5 & Hc5); [by rewrite Ht3|].
  eexists. rewrite Hlen. split_and!; [done| |done]. fold (key t) in *.
  exists m3, (<[key t := g3]> G). split; [done|]. rewrite Hc5, Hs5, Ht3, Hs3, Hc2, Hs2, Ht1, Hs1.
  assert (Hfresh : forall k2 g2, G !! k2 = Some g2 -> map_Forall (fun _ u => u.1 <> x) g2) by (intros k2 g2 Hg2; by eapply (inv_fresh db1 m G)).
  eapply shows_put; [done|done|intros k2 g2 _ Hg2; by apply rows_of_fresh, (Hfresh k2)|].
  rewrite (rows_of_perm _ _ R.*2) by (by rewrite Hp3). rewrite visible_fresh; [by rewrite Hvr|].
  apply Forall_forall. intros u [it [-> Hit]]%list_elem_of_fmap. assert (Hin : it ∈ map_to_list g) by (rewrite Hp; set_solver).
  destruct it as [k u']. apply elem_of_map_to_list in Hin. exact (Hfresh _ _ Hg k u' Hin).
Qed.

Definition updated (schema : list ColumnSchema) (assignments : list (list N * Ast.Expr)) (r : row) : row :=
  match assign_values env0 schema assignments r r with Ok v => v | _ => r end.

Lemma update_refines db a n t al assignments w schema rows sel ps : represents db a -> a !! key t = Some (schema, rows) ->
  mapM (fun x => column_position schema x.1) assignments = Ok ps ->
  Forall (fun r => matches env0 w schema r = Ok (sel r)) rows ->
  Forall (fun r => exists v, assign_values env0 schema assignments r r = Ok v /\ fits schema v) (List.filter sel rows) ->
  affords db (2 * len rows + 2 + n) ->
  exists db' r, exec_update crc32 fuel now (Ast.mkUpdate t al assignments w) db = (db', r) /\
    ((exists err, r = Err err /\ no_space err) \/
     (r = Ok (done_with (text "UPDATE " ++ N_to_string (len (List.filter sel rows))) (len (List.filter sel rows))) /\
      represents db' (<[key t := (schema, List.filter (fun r => negb (sel r)) rows ++ map (updated schema assignments) (List.filter sel rows))]> a) /\
      affords db' n)).
Proof.
  intros (m & G & Hi & Hs) Ha Hps Hm Hup Haf.
  destruct (select_for db m G a (2 * len rows + 1 + n) t schema rows w sel Hi Hs Ha ltac:(by eapply affords_le; [|exact Haf]; lia) Hm)
    as (e & g & db1 & C & R & Htab & Hc & Hpk & Hsc & [Hi1 Ha1 Ht1 Hs1] & Hg & Hp & _ & Hcr & Hvr).
  assert (Hlen : len (found_item <$> C) = len (List.filter sel rows)).
  { unfold len. rewrite length_fmap. f_equal. rewrite <- (Permutation_length Hcr). by rewrite !length_fmap. }
  assert (Hle : len C <= len rows).
  { unfold len in *. rewrite length_fmap in Hlen. rewrite Hlen. pose proof (List.filter_length_le sel rows). lia. }
  unfold exec_update. cbn [Ast.update_table Ast.update_where Ast.assignments]. unfold mbind, db_bind, get_db, lift.
  rewrite Htab, Hc, Hps, Hsc, Hpk.
  destruct (begin_step db1 m G (2 * len C + n) Hi1 ltac:(by eapply affords_le; [|exact Ha1]; lia))
    as (db2 & -> & Hi2 & Ha2 & Hs2 & _ & Hc2 & Hact & Hnx). set (x := Txn.next_xid (tx db1)) in *.
  destruct (update_rows_step C R db2 m G (to_lowercase t) schema g n x assignments Hi2 Ha2)
    with (vs := map (updated schema assignments) C.*2.*2)
    as [(db3 & m3 & g3 & new & -> & [Hi3 Ha3 Ht3 Hs3] & Hp3 & Hnew)|(db3 & err & -> & Hno)];
    [rewrite Hs2, Hs1; by apply (shows_lookup _ _ _ _ _ _ _ Hs Ha)|done|
     pose proof (Txn.ok_next _ (in_txn _ _ _ Hi1)); lia|done| | |eexists _, _; split; [done|]; left; by exists err].
  { rewrite <- Hcr in Hup. clear -Hup. induction C as [|it C IH]; [constructor|]. rewrite !fmap_cons in *.
    apply Forall_cons in Hup as [(v & Hv & Hf) Hup]. constructor; [|by apply IH]. unfold updated. by rewrite Hv. }
  destruct (commit_flush db3 m3 _ n x Hi3 Ha3) as (db4 & db5 & -> & -> & Hi5 & Ha5 & Hs5 & Hc5); [by rewrite Ht3|].
  eexists _, _. split; [done|]. right. rewrite Hlen. split_and!; [done| |done]. fold (key t) in *.
  exists m3, (<[key t := g3]> G). split; [done|]. rewrite Hc5, Hs5, Ht3, Hs3, Hc2, Hs2, Ht1, Hs1.
  assert (Hfresh : forall k2 g2, G !! k2 = Some g2 -> map_Forall (fun _ u => u.1 <> x) g2) by (intros k2 g2 Hg2; by eapply (inv_fresh db1 m G)).
  eapply shows_put; [done|done|intros k2 g2 _ Hg2; by apply rows_of_fresh, (Hfresh k2)|].
  rewrite (rows_of_perm _ _ (map (pair x) (map (updated schema assignments) C.*2.*2) ++ R.*2)) by (rewrite Hp3, fmap_app; by rewrite Hnew).
  rewrite visible_app, visible_all by set_solver. rewrite visible_fresh; [rewrite Hvr, <- Hcr; apply Permutation_app_comm|].
  apply Forall_forall. intros u [it [-> Hit]]%list_elem_of_fmap. assert (Hin : it ∈ map_to_list g) by (rewrite Hp; set_solver).
  destruct it as [k u']. apply elem_of_map_to_list in Hin. exact (Hfresh _ _ Hg k u' Hin).
Qed.
(** The first of a list that fails, when the others are made into tuples. *)
Lemma first_failure schema assignments (C : list item) :
  Forall (fun it => (exists v, assign_values env0 schema assignments it.2.2 it.2.2 = Ok v /\ fits schema v) \/
    exists y, rewritten schema assignments it.2.2 = Err y) C ->
  Exists (fun it => exists y, rewritten schema assignments it.2.2 = Err y) C ->
  exists C1 it C2 vs y, C = C1 ++ it :: C2 /\ rewritten schema assignments it.2.2 = Err y /\
    Forall2 (fun it v => assign_values env0 schema assignments it.2.2 it.2.2 = Ok v /\ fits schema v) C1 vs.
Proof.
  induction 1 as [|it C Hit _ IH]; intros Hex; [by apply Exists_nil in Hex|]. destruct Hit as [(v & Hv & Hf)|(y & Hy)].
  - assert (Exists (fun it => exists y, rewritten schema assignments it.2.2 = Err y) C) as Hex'.
    { apply Exists_cons in Hex as [(y & Hy)|?]; [|done]. unfold rewritten in Hy. rewrite Hv, bind_ok in Hy.
      destruct (enc_ok schema v [] (proj1 Hf)) as (He & _). by rewrite He in Hy. }
    destruct (IH Hex') as (C1 & it' & C2 & vs & y & -> & Hy & Hvs). exists (it :: C1), it', C2, (v :: vs), y. split_and!; [done|done|by constructor].
  - exists [], it, C, [], y. by split_and!.
Qed.

Lemma all_rewritten schema assignments (C : list item) vs :
  Forall2 (fun it v => assign_values env0 schema assignments it.2.2 it.2.2 = Ok v /\ fits schema v) C vs ->
  Forall (fun r => is_ok (rewritten schema assignments r) = true) C.*2.*2.
Proof.
  induction 1 as [|it v C vs [Hv Hf] _ IH]; [constructor|]. rewrite !fmap_cons. constructor; [|done].
  unfold rewritten. rewrite Hv, bind_ok. by destruct (enc_ok schema v [] (proj1 Hf)) as (-> & _).
Qed.

Lemma visible_full c (C : list item) : length (visible c C.*2) = length C -> Forall (fun it => it.2.1 ∈ c) C.
Proof.
  unfold visible. induction C as [|it C IH]; [done|]. rewrite !fmap_cons, filter_cons. destruct (decide _) as [Hd|Hd].
  - rewrite fmap_cons. cbn [length]. intros [= Hl]. constructor; [done|by apply IH].
  - rewrite length_fmap. pose proof (length_filter (fun t : N * row => t.1 ∈ c) C.*2) as Hle. rewrite length_fmap in Hle. cbn [length]. lia.
Qed.

Lemma visible_these c (C : list item) : Forall (fun it => it.2.1 ∈ c) C -> visible c C.*2 = C.*2.*2.
Proof.
  unfold visible. induction 1 as [|it C Hit _ IH]; [done|]. rewrite !fmap_cons, filter_cons, decide_True by done. by rewrite !fmap_cons, IH.
Qed.

End Spec.
End EngineSpec.
