(* ===== verification/SqlSession.v ===== *)
(** * Sessions over plain tables

    [next] and [answers] say what the statements mean on tables of rows: CREATE TABLE,
    INSERT, UPDATE, DELETE, queries of one table and the statements that touch no table.
    [engine_implements_tables] says that the engine, from an empty database, answers
    every session of such statements that way: over the pages of the buffer pool, the
    log, the transactions and the encoded tuples, until a page refuses a tuple. *)

From Stdlib Require Import Ascii String.
From stdpp Require Import gmap strings.
From S2P Require Import Prelude Bytes Strings Float64 StorageError StorageReplacer StorageDisk StoragePage StorageBufferPool StorageWal StorageTxn.
From S2P Require Import StorageHeap StorageHnsw StorageHnswIndex StorageGin SqlAst SqlValue SqlToken SqlParser SqlCodec SqlExpr SqlGroup SqlVectorized SqlCatalog SqlPlan SqlWindow SqlEngine.
From S2P Require Import SqlEngineSpec.

Module Session.
Import Value Expr Group Catalog Plan Window Engine EngineSpec.

Section Meaning.
Context `{SliceSort} `{UnicodeCase} `{DebugFormat} `{TableOrder}.

(** ** What the statements mean *)

Definition selected (w : option Ast.Expr) (schema : list ColumnSchema) (r : row) : bool :=
  match matches env0 w schema r with Ok b => b | _ => false end.

Definition inserted (schema : list ColumnSchema) (cols : list (list N)) (rss : list (list Ast.Expr)) : sql_result (list row) :=
  positions ← column_positions schema cols; mapM (insert_values schema positions) rss.

Definition created (ct : Ast.CreateTableStmt) : sql_result (list ColumnSchema) :=
  '(cols, _) ← table_columns (pk_column (Ast.constraints ct)) 0 (Ast.columns ct) None; Ok cols.

Definition assigned (schema : list ColumnSchema) (assignments : list (list N * Ast.Expr)) : sql_result (list nat) :=
  mapM (fun x => column_position schema x.1) assignments.

(** The tables after a statement. *)
Definition next (a : adb) (s : Ast.Statement) : adb :=
  match s with
  | Ast.CreateTable ct =>
      match a !! key (Ast.create_table ct), created ct with
      | None, Ok cols => <[key (Ast.create_table ct) := (cols, [])]> a
      | _, _ => a
      end
  | Ast.Insert (Ast.mkInsert t cols (Ast.Values rss)) =>
      match a !! key t with
      | Some (schema, rows) =>
          match inserted schema cols rss with
          | Ok vs => <[key t := (schema, rows ++ vs)]> a
          | _ => a
          end
      | None => a
      end
  | Ast.Delete (Ast.mkDelete t _ w) =>
      match a !! key t with
      | Some (schema, rows) => <[key t := (schema, List.filter (fun r => negb (selected w schema r)) rows)]> a
      | None => a
      end
  | Ast.Update (Ast.mkUpdate t _ assignments w) =>
      match a !! key t with
      | Some (schema, rows) =>
          match assigned schema assignments with
          | Ok _ =>
              let sel := selected w schema in
              <[key t := (schema, List.filter (fun r => negb (sel r)) rows ++ map (updated schema assignments) (List.filter sel rows))]> a
          | _ => a
          end
      | None => a
      end
  | _ => a
  end.

(** The answer to a query over the rows of its table. *)
Definition answer (q : Clauses) (schema : list ColumnSchema) (rows : list row) : sql_result QueryResult :=
  rows ← narrow env0 q schema rows;
  if is_grouped q then
    '(names, rows) ← apply_group_by env0 (group_by q) (select_cols q) (having q) schema rows;
    Ok (select_result names rows)
  else
    '(schema, rows) ← (if has_window_funcs (select_cols q) then apply_window_functions env0 schema rows (select_cols q)
                       else Ok (schema, rows));
    '(names, rows) ← project env0 (select_cols q) schema rows;
    Ok (select_result names rows).

Definition counted (word : string) (n : N) : QueryResult := done_with (text word ++ N_to_string n) n.

(** What a statement may answer: a query sees the rows of its table in some order, and
    its [LIMIT] cuts them before they are grouped. *)
Definition answers (a : adb) (s : Ast.Statement) (r : sql_result QueryResult) : Prop :=
  match s with
  | Ast.CreateTable ct =>
      match a !! key (Ast.create_table ct) with
      | Some _ => r = if Ast.if_not_exists ct then Ok (done_with (text "CREATE TABLE") 0)
                      else semantic "table '{}' already exists" [AText (to_lowercase (Ast.create_table ct))]
      | None => r = (_ ← created ct; Ok (done_with (text "CREATE TABLE") 0))
      end
  | Ast.Insert (Ast.mkInsert t cols (Ast.Values rss)) =>
      match a !! key t with
      | Some (schema, _) => r = (_ ← inserted schema cols rss; Ok (counted "INSERT 0 " (len rss)))
      | None => r = no_table (to_lowercase t)
      end
  | Ast.Delete (Ast.mkDelete t _ w) =>
      match a !! key t with
      | Some (schema, rows) => r = Ok (counted "DELETE " (len (List.filter (selected w schema) rows)))
      | None => r = no_table (to_lowercase t)
      end
  | Ast.Update (Ast.mkUpdate t _ assignments w) =>
      match a !! key t with
      | Some (schema, rows) => r = (_ ← assigned schema assignments; Ok (counted "UPDATE " (len (List.filter (selected w schema) rows))))
      | None => r = no_table (to_lowercase t)
      end
  | Ast.SelectStatement (Ast.mkSelect [] _ cols [Ast.mkTableRef t al None as f] w gb hv ob lim off) =>
      match a !! key t with
      | Some (schema, rows) => exists rows', rows' ≡ₚ rows /\ r = answer (mkClauses cols [f] w gb hv ob lim off) schema rows'
      | None => r = no_table (to_lowercase t)
      end
  | Ast.Begin => r = Ok (done_with (text "BEGIN") 0)
  | Ast.Commit => r = Ok (done_with (text "COMMIT") 0)
  | _ => False
  end.

(** ** The statements in question *)

#[local] Instance storage_layout_dec : EqDecision Ast.StorageLayout.
Proof. solve_decision. Defined.

(** No function that reads an edge table. *)
Fixpoint graph_free (e : Ast.Expr) : bool :=
  match e with
  | Ast.FunctionCall name _ _ =>
      negb (eq_ignore_ascii_case name (text "OIGRAP_SHORTEST_PATH") || eq_ignore_ascii_case name (text "OIGRAP_PAGERANK"))
  | Ast.BinaryOp _ l r => graph_free l && graph_free r
  | _ => true
  end.

Definition graph_free_column (c : Ast.SelectColumn) : bool :=
  match c with Ast.ColExpr e _ => graph_free e | Ast.ColStar => true end.

Definition fits_if_ok (schema : list ColumnSchema) (r : sql_result row) : Prop :=
  match r with Ok v => fits schema v | _ => True end.

#[local] Instance fits_if_ok_dec schema r : Decision (fits_if_ok schema r).
Proof. destruct r; cbn; apply _. Defined.

(** Tables without a primary key in the row layout; rows that fit on a page; conditions
    that evaluate; assignments that evaluate, on the rows they are for; queries of one
    table that is not shadowed by a view. *)
Definition in_scope (a : adb) (s : Ast.Statement) : Prop :=
  match s with
  | Ast.CreateTable ct =>
      Ast.storage ct = Ast.RowLayout /\
      match table_columns (pk_column (Ast.constraints ct)) 0 (Ast.columns ct) None with Ok (_, pk) => pk = None | _ => True end
  | Ast.Insert (Ast.mkInsert t cols (Ast.Values rss)) =>
      match a !! key t with
      | Some (schema, _) =>
          is_panic (inserted schema cols rss) = false /\
          match column_positions schema cols with
          | Ok positions => Forall (fun exprs => fits_if_ok schema (insert_values schema positions exprs)) rss
          | _ => True
          end
      | None => True
      end
  | Ast.Delete (Ast.mkDelete t _ w) =>
      match a !! key t with
      | Some (schema, rows) => Forall (fun r => is_ok (matches env0 w schema r) = true) rows
      | None => True
      end
  | Ast.Update (Ast.mkUpdate t _ assignments w) =>
      match a !! key t with
      | Some (schema, rows) =>
          Forall (fun r => is_ok (matches env0 w schema r) = true) rows /\
          Forall (fun r => is_ok (assign_values env0 schema assignments r r) = true /\ fits schema (updated schema assignments r))
            (List.filter (selected w schema) rows)
      | None => True
      end
  | Ast.SelectStatement (Ast.mkSelect [] false cols [Ast.mkTableRef t _ None] _ _ _ ob lim _) =>
      forallb graph_free_column cols = true /\
      virtual_catalog_rows Catalog.new (bare_name (to_lowercase t)) = None /\
      match a !! key t with
      | Some (schema, _) => is_panic (detect_vector_ann ob lim schema) = false
      | None => True
      end
  | Ast.Begin | Ast.Commit => True
  | _ => False
  end.

#[global] Instance in_scope_dec a s : Decision (in_scope a s).
Proof. unfold in_scope. repeat case_match; apply _. Defined.

(** The steps a statement takes of what [affords] counts. *)
Definition cost (a : adb) (s : Ast.Statement) : N :=
  let rows t := len (default ([], []) (a !! key t)).2 in
  match s with
  | Ast.Insert (Ast.mkInsert _ _ (Ast.Values rss)) => len rss + 1
  | Ast.Delete (Ast.mkDelete t _ _) => rows t + 2
  | Ast.Update (Ast.mkUpdate t _ _ _) => 2 * rows t + 2
  | Ast.SelectStatement _ | Ast.Commit => 1
  | _ => 0
  end.

(** A session: from its first refused tuple on nothing is said. *)
Inductive session : adb -> list (Ast.Statement * sql_result QueryResult) -> Prop :=
  | session_end a : session a []
  | session_refused a s x rest : no_space x -> session a ((s, Err x) :: rest)
  | session_step a s r rest : answers a s r -> session (next a s) rest -> session a ((s, r) :: rest).

Fixpoint scoped (a : adb) (ss : list Ast.Statement) : Prop :=
  match ss with
  | [] => True
  | s :: ss => in_scope a s /\ scoped (next a s) ss
  end.

#[global] Instance scoped_dec a ss : Decision (scoped a ss).
Proof. revert a. induction ss as [|s ss IH]; intros a; cbn [scoped]; apply _. Defined.

Fixpoint budget (a : adb) (ss : list Ast.Statement) : N :=
  match ss with
  | [] => 0
  | s :: ss => cost a s + budget (next a s) ss
  end.
End Meaning.

Lemma views_by_name `{UnicodeCase} `{TableOrder} c c' x : virtual_catalog_rows c x = None -> virtual_catalog_rows c' x = None.
Proof. unfold virtual_catalog_rows. repeat case_match; done. Qed.

Lemma assigned_no_panic schema assignments : assigned schema assignments <> Panic.
Proof.
  unfold assigned. induction assignments as [|x l IH]; [done|]. cbn [mapM].
  assert (Hc : column_position schema x.1 <> Panic) by (unfold column_position, ok_or; by case_match).
  destruct (column_position schema x.1); [rewrite bind_ok|done|done]. by destruct (mapM _ l).
Qed.

Section Engine.
Context {D : Type} `{PageStoreLaws D} `{SliceSort} `{UnicodeCase} `{DebugFormat} `{TableOrder}.
Context {Far : Hnsw.BinaryHeap Hnsw.cmp_far} {Near : Hnsw.BinaryHeap Hnsw.cmp_near}.
Context (crc32 : list N -> N) (ln : f64 -> f64) (fuel : nat) (now : N).
Implicit Types db : Db D.

(** A statement in scope: what it answers and leaves, unless a page refuses a tuple. *)
Definition does (op : db_op (D := D) QueryResult) (s : Ast.Statement) : Prop := forall db a n,
  represents db a -> in_scope a s -> affords db (cost a s + n) ->
  exists db' r, op db = (db', r) /\
    ((exists x, r = Err x /\ no_space x) \/ (answers a s r /\ represents db' (next a s) /\ affords db' n)).

Lemma collect_paths_free e db : graph_free e = true -> collect_shortest_path_edges e db = (db, Ok ()).
Proof.
  revert db. induction e; intros db Hf; try done; cbn [graph_free] in Hf.
  - apply andb_prop in Hf as [Hl Hr]. cbn [collect_shortest_path_edges]. unfold mbind, db_bind. rewrite IHe1 by done. by apply IHe2.
  - cbn [collect_shortest_path_edges]. apply negb_true_iff, orb_false_iff in Hf as [-> _]. done.
Qed.

Lemma collect_ranks_free e db : graph_free e = true -> collect_pagerank_edges e db = (db, Ok ()).
Proof.
  revert db. induction e; intros db Hf; try done; cbn [graph_free] in Hf.
  - apply andb_prop in Hf as [Hl Hr]. cbn [collect_pagerank_edges]. unfold mbind, db_bind. rewrite IHe1 by done. by apply IHe2.
  - cbn [collect_pagerank_edges]. apply negb_true_iff, orb_false_iff in Hf as [_ ->]. done.
Qed.

Lemma for_columns_free f cols db : (forall e db, graph_free e = true -> f e db = (db, Ok ())) -> forallb graph_free_column cols = true ->
  for_columns f cols db = (db, Ok ()).
Proof.
  intros Hf. induction cols as [|[|e al] cols IH]; [done|done|]. cbn [forallb graph_free_column]. intros [He Hc]%andb_prop.
  cbn [for_columns]. unfold mbind, db_bind. rewrite (Hf _ _ He). by apply IH.
Qed.

Lemma finish_answer q schema rows db : env db = env0 -> forallb graph_free_column (select_cols q) = true ->
  finish_select q schema rows db = (db, answer q schema rows).
Proof.
  intros He Hf. unfold finish_select, answer, preload_edge_tables_for_shortest_path, preload_pagerank.
  unfold mbind at 1, db_bind at 1, get_db. cbn beta iota. rewrite He.
  unfold mbind at 1, db_bind at 1, lift. destruct (narrow env0 q schema rows) as [rows'|x|]; [|done|done]. rewrite bind_ok.
  destruct (is_grouped q).
  - unfold mbind at 1, db_bind. by destruct (apply_group_by _ _ _ _ _ _) as [[names rs]|x|].
  - unfold mbind at 1, db_bind at 1. rewrite (for_columns_free _ _ _ collect_paths_free Hf).
    unfold mbind at 1, db_bind at 1. rewrite (for_columns_free _ _ _ collect_ranks_free Hf).
    unfold mbind at 1, db_bind at 1. rewrite He. unfold mbind at 1, db_bind at 1.
    destruct (if has_window_funcs _ then _ else _) as [[sch rs]|x|]; [|done|done]. rewrite bind_ok.
    unfold mbind at 1, db_bind at 1. destruct (project env0 (select_cols q) sch rs) as [[names rs']|x|]; [|done|done]. rewrite bind_ok.
    unfold mbind, db_bind, update_env, db_bind, get_db, set_env. destruct db as [c b w t v]. cbn in *. by subst v.
Qed.

(** A sequential scan, and a query whose table has no index. *)
Lemma seq_scan_rows db m G a n t schema rows e : inv db m G -> shows (Txn.committed (tx db)) (schemas db) G a ->
  a !! key t = Some (schema, rows) -> tables (catalog db) !! key t = Some e -> affords db (n + 1) ->
  exists db' rows', seq_scan e db = (db', Ok rows') /\ moved db db' m G n /\ rows' ≡ₚ rows.
Proof.
  intros Hi Hs Ha Hk Haf. destruct (shows_lookup _ _ _ _ _ _ _ Hs Ha) as [_ (g & Hg & Hr)].
  destruct (scan_step crc32 db m G (key t) e g n (fun _ => Ok true) Hi Haf Hk Hg) as (db1 & items & Hsn & Hmv & _ & Hp).
  exists db1, (found_of (Txn.committed (tx db)) items).*2. split_and!; [|done|].
  - unfold seq_scan, mbind, db_bind. by rewrite Hsn, keep_found_all.
  - rewrite found_rows, Hr. apply visible_perm. by rewrite Hp.
Qed.

Lemma plain_gin e w : gin_index e = None -> gin_plan e w = None.
Proof. intros Hg. unfold gin_plan. rewrite Hg. by destruct (detect_gin_query w (columns e)) as [[]|]. Qed.

Lemma plain_pk e w : pk_col_idx e = None -> pk_plan e w = Ok None.
Proof. intros Hp. unfold pk_plan, can_use_pk_lookup. rewrite Hp. by case_match. Qed.

Lemma plain_scan q e name db : plain e -> table name db = (db, Ok e) -> is_panic (detect_vector_ann (order_by q) (limit q) (columns e)) = false ->
  scan_base fuel q name db = match seq_scan e db with
                        | (db', Ok rows) => (db', Ok (inr (columns e, rows)))
                        | (db', Err x) => (db', Err x)
                        | (db', Panic) => (db', Panic)
                        end.
Proof.
  intros [Hpk Hcol Hvec Hgin] Ht Hann. unfold scan_base, mbind, db_bind, get_db, lift. rewrite Ht.
  assert (Hd : exists o, detect_vector_ann (order_by q) (limit q) (columns e) = Ok o).
  { revert Hann. unfold detect_vector_ann. repeat case_match; intros Hann; try done; eauto. }
  destruct Hd as [o ->]. rewrite Hvec, Hcol, plain_gin, plain_pk by done.
  by destruct o as [[[i v] k]|]; destruct (seq_scan e db) as [db' [rows|x|]].
Qed.

Lemma select_does cols f w gb hv ob lim off :
  does (exec_select fuel (Ast.mkSelect [] false cols [f] w gb hv ob lim off)) (Ast.SelectStatement (Ast.mkSelect [] false cols [f] w gb hv ob lim off)).
Proof.
  intros db a n (m & G & Hi & Hs) Hsc Haf. destruct f as [t al [j|]]; [done|]. destruct Hsc as (Hfree & Hview & Hann).
  cbn [next answers cost] in *. set (q := mkClauses cols [Ast.mkTableRef t al None] w gb hv ob lim off).
  assert (Hsel : exec_select fuel (Ast.mkSelect [] false cols [Ast.mkTableRef t al None] w gb hv ob lim off) db =
    match scan_base fuel q (to_lowercase t) db with
    | (db', Ok (inl ans)) => (db', Ok ans)
    | (db', Ok (inr (schema, rows))) => finish_select q schema rows db'
    | (db', Err x) => (db', Err x)
    | (db', Panic) => (db', Panic)
    end).
  { unfold exec_select. cbn [exec_select_with_cte]. unfold mbind, db_bind, mret, db_ret. cbn [select_body from q].
    unfold scan_single, mbind, db_bind, get_db. rewrite lookup_empty, (views_by_name _ (catalog db) _ Hview). fold q.
    by destruct (scan_base fuel q (to_lowercase t) db) as [db' [[ans|[schema rows]]|x|]]. }
  rewrite Hsel. clear Hsel. destruct (a !! key t) as [[schema rows]|] eqn:Ha.
  - destruct (table_found db m G a t schema rows Hi Hs Ha) as (e & g & Htab & Hk & Hc & Hpl & _).
    rewrite (plain_scan q e _ db Hpl Htab) by (by rewrite Hc).
    destruct (seq_scan_rows db m G a n t schema rows e Hi Hs Ha Hk) as (db1 & rows' & -> & [Hi1 Ha1 Ht1 Hs1] & Hp);
      [by eapply affords_le; [|exact Haf]; lia|].
    eexists db1, _. rewrite (finish_answer q _ _ _ (in_env _ _ _ Hi1) Hfree), Hc. split; [done|]. right.
    split_and!; [by exists rows'| |done]. exists m, G. by rewrite Ht1, Hs1.
  - eexists db, _. unfold scan_base, mbind, db_bind. rewrite (table_missing db m G a t Hi Hs Ha). split; [done|]. right.
    split_and!; [done|by exists m, G|by eapply affords_le; [|exact Haf]; lia].
Qed.

(** A new table has no page and no tuple. *)
Lemma new_table_ok limit m id cols : table_ok limit (mkTable id cols None (Heap.new id) None None None None None None None) m ∅.
Proof.
  destruct (Fsm.new_fsm_wf 64 0) as [Hw _]; [done|done|].
  split; cbn [Catalog.columns Catalog.heap]; [done|split; cbn; try done; constructor|done|done].
Qed.

Lemma create_inv db m G a k cols w id : inv db m G -> shows (Txn.committed (tx db)) (schemas db) G a -> a !! k = None ->
  Wal.flushed_lsn w < 2 ^ 64 ->
  let e := mkTable id cols None (Heap.new id) None None None None None None None in
  let db' := mkDb (mkCatalog (<[k := e]> (tables (catalog db))) (wadd 32 id 1)) (pool db) w (tx db) (env db) in
  inv db' m (<[k := ∅]> G) /\ shows (Txn.committed (tx db')) (schemas db') (<[k := ∅]> G) (<[k := (cols, [])]> a).
Proof.
  intros Hi Hs Ha Hw. cbn zeta. split.
  - split; cbn [pool wal env tx catalog tables]; try apply Hi; [done| |].
    + intros k2. destruct (decide (k2 = k)) as [->|Hne]; [rewrite !lookup_insert_eq; apply new_table_ok|].
      rewrite !lookup_insert_ne by done. apply Hi.
    + intros k1 k2 e1 e2 p Hne. destruct (decide (k1 = k)) as [->|H1'], (decide (k2 = k)) as [->|H2']; [done| | |];
        rewrite ?lookup_insert_eq, ?lookup_insert_ne by done; intros Hk1 Hk2; simplify_eq; cbn; [set_solver|set_solver|].
      by apply (in_disjoint _ _ _ Hi k1 k2).
  - intros k2. unfold schemas. cbn [catalog tables tx]. rewrite fmap_insert. destruct (decide (k2 = k)) as [->|Hne].
    + rewrite !lookup_insert_eq. done.
    + rewrite !lookup_insert_ne by done. apply Hs.
Qed.

Lemma create_does ct : does (exec_create_table ct) (Ast.CreateTable ct).
Proof.
  intros db a n (m & G & Hi & Hs) [Hrow Hpk] Haf. cbn [next answers cost] in *. set (k := key (Ast.create_table ct)) in *.
  assert (Hc : contains (catalog db) (to_lowercase (Ast.create_table ct)) = bool_decide (is_Some (a !! k))).
  { apply bool_decide_ext. unfold get. fold (key (Ast.create_table ct)) k. specialize (Hs k). unfold schemas in Hs. rewrite lookup_fmap in Hs.
    destruct (a !! k) as [[]|], (tables (catalog db) !! k); cbn in Hs; try done; repeat case_match; try done; by rewrite !is_Some_alt. }
  unfold exec_create_table, mbind, db_bind, get_db. rewrite Hc.
  assert (Hsame : represents db a /\ affords db n) by (split; [by exists m, G|exact Haf]).
  destruct (a !! k) as [x|] eqn:Ha; cbn [bool_decide].
  { rewrite bool_decide_eq_true_2 by by eexists. by destruct (Ast.if_not_exists ct); eexists db, _; (split; [reflexivity|]; right). }
  rewrite bool_decide_eq_false_2 by (by intros []). unfold created, lift in *.
  destruct (table_columns _ 0 (Ast.columns ct) None) as [[cols pk]|x|]; [subst pk; rewrite bind_ok|by eexists db, _; split; [done|]; right..].
  rewrite Hrow. unfold set_catalog, mret, db_ret. cbn [fmap option_fmap option_map]. unfold create_table. fold k.
  destruct (flush_ok (wal db) (in_lsn _ _ _ Hi)) as (w & j & Hf & Hw).
  unfold flush_wal. cbn [wal catalog pool tx env]. rewrite Hf. eexists _, _. split; [reflexivity|]. right. split; [done|].
  destruct (create_inv db m G a k cols w (next_table_id (catalog db)) Hi Hs Ha Hw) as [Hi' Hs'].
  split; [by exists m, (<[k := ∅]> G)|]. destruct Haf as [Hr Hx (P & HP & Hck)]. split; [done|done|]. exists P. split; [|done].
  cbn [catalog tables]. apply map_Forall_insert_2; [change (0 <= P); lia|done].
Qed.

Lemma insert_does t cols rss : does (exec_insert crc32 fuel now (Ast.mkInsert t cols (Ast.Values rss))) (Ast.Insert (Ast.mkInsert t cols (Ast.Values rss))).
Proof.
  intros db a n Hr Hsc Haf. cbn [next answers cost in_scope] in *.
  destruct (a !! key t) as [[schema rows]|] eqn:Ha.
  - destruct Hsc as [Hpan Hfit]. destruct (column_positions schema cols) as [ps|x|] eqn:Hp; unfold inserted in *; rewrite Hp in *; [|..|done].
    + rewrite bind_ok in *. destruct (insert_refines crc32 fuel now db a n t cols rss schema rows ps Hr Ha Hp Haf) as (db' & r & He & Hres).
      { eapply Forall_impl; [exact Hfit|]. intros exprs Hx v Hv. cbn beta in Hx. by rewrite Hv in Hx. }
      exists db', r. split; [done|]. destruct Hres as [Hres|Hres]; [by left|right].
      destruct (mapM (insert_values schema ps) rss) as [vs|x|]; [by rewrite bind_ok|done|done].
    + exists db, (Err x). destruct Hr as (m & G & Hi & Hs). destruct (table_found db m G a t schema rows Hi Hs Ha) as (e & g & Htab & _ & Hc & _).
      unfold exec_insert, mbind, db_bind, lift. cbn [Ast.insert_table Ast.source Ast.insert_columns]. rewrite Htab, Hc, Hp. split; [done|]. right.
      split_and!; [done|by exists m, G|by eapply affords_le; [|exact Haf]; lia].
  - destruct Hr as (m & G & Hi & Hs). exists db, (no_table (to_lowercase t)). unfold exec_insert, mbind, db_bind.
    cbn [Ast.insert_table]. rewrite (table_missing db m G a t Hi Hs Ha). split; [done|]. right.
    split_and!; [done|by exists m, G|by eapply affords_le; [|exact Haf]; lia].
Qed.

Lemma conditions_hold w schema rows : Forall (fun r => is_ok (matches env0 w schema r) = true) rows ->
  Forall (fun r => matches env0 w schema r = Ok (selected w schema r)) rows.
Proof. intros Hm. eapply Forall_impl; [exact Hm|]. intros r. unfold selected. by destruct (matches env0 w schema r). Qed.

Lemma delete_does t al w : does (exec_delete crc32 now (Ast.mkDelete t al w)) (Ast.Delete (Ast.mkDelete t al w)).
Proof.
  intros db a n Hr Hsc Haf. cbn [next answers cost in_scope] in *. destruct (a !! key t) as [[schema rows]|] eqn:Ha; cbn [default snd] in Haf.
  - apply conditions_hold in Hsc. destruct (delete_refines crc32 now db a n t al w schema rows (selected w schema) Hr Ha Hsc Haf) as (db' & He & Hres).
    eexists db', _. split; [done|]. by right.
  - destruct Hr as (m & G & Hi & Hs). exists db, (no_table (to_lowercase t)). unfold exec_delete, mbind, db_bind.
    cbn [Ast.delete_table]. rewrite (table_missing db m G a t Hi Hs Ha). split; [done|]. right.
    split_and!; [done|by exists m, G|by eapply affords_le; [|exact Haf]; lia].
Qed.

Lemma update_does t al asg w : does (exec_update crc32 fuel now (Ast.mkUpdate t al asg w)) (Ast.Update (Ast.mkUpdate t al asg w)).
Proof.
  intros db a n Hr Hsc Haf. cbn [next answers cost in_scope] in *. destruct (a !! key t) as [[schema rows]|] eqn:Ha; cbn [default snd] in Haf.
  - destruct Hsc as (Hm & Hfit). apply conditions_hold in Hm. pose proof (assigned_no_panic schema asg) as Hpan. unfold assigned in *.
    destruct (mapM (fun x => column_position schema x.1) asg) as [ps|x|] eqn:Hp; [rewrite bind_ok| |done].
    + destruct (update_refines crc32 fuel now db a n t al asg w schema rows (selected w schema) ps Hr Ha Hp Hm) as (db' & r & He & Hres); [|done|].
      { eapply Forall_impl; [exact Hfit|]. intros r. unfold updated. destruct (assign_values env0 schema asg r r) as [v| |]; intros [? ?]; [by exists v|done..]. }
      exists db', r. split; [done|]. destruct Hres as [Hres|Hres]; [by left|by right].
    + exists db, (Err x). destruct Hr as (m & G & Hi & Hs). destruct (table_found db m G a t schema rows Hi Hs Ha) as (e & g & Htab & _ & Hc & _).
      unfold exec_update, mbind, db_bind, lift, get_db. cbn [Ast.update_table Ast.assignments]. rewrite Htab, Hc, Hp. split; [done|]. right.
      split_and!; [done|by exists m, G|by eapply affords_le; [|exact Haf]; lia].
  - destruct Hr as (m & G & Hi & Hs). exists db, (no_table (to_lowercase t)). unfold exec_update, mbind, db_bind.
    cbn [Ast.update_table]. rewrite (table_missing db m G a t Hi Hs Ha). split; [done|]. right.
    split_and!; [done|by exists m, G|by eapply affords_le; [|exact Haf]; lia].
Qed.

Lemma commit_does : does (execute_stmt crc32 ln fuel now Ast.Commit) Ast.Commit.
Proof.
  intros db a n (m & G & Hi & Hs) _ Haf. cbn [next answers cost] in *.
  destruct (begin_step db m G n Hi) as (db1 & Hb & Hi1 & Ha1 & Hs1 & _ & Hc1 & Hact & _); [by eapply affords_le; [|exact Haf]; lia|].
  destruct (commit_step crc32 now db1 m G n _ Hi1 Ha1 Hact) as (db2 & Hc & Hi2 & Ha2 & Hs2 & Hc2).
  eexists db2, _. cbn [execute_stmt]. unfold mbind, db_bind. rewrite Hb, Hc. split; [reflexivity|]. right. split_and!; [done| |done].
  exists m, G. split; [done|]. rewrite Hc2, Hs2, Hs1, Hc1. intros k. specialize (Hs k). repeat case_match; try done.
  destruct Hs as [-> Hr]. split; [done|]. rewrite rows_of_fresh; [done|]. by eapply (inv_fresh db m G).
Qed.

Lemma execute_does s : does (execute_stmt crc32 ln fuel now s) s.
Proof.
  destruct s as [sel|[t cols [rss|sel]]|[t al asg w]|[t al w]|ct|dt| | | |s|t|t c|t c|t|v x|v];
    try (by intros db a n Hr Hsc Haf).
  - destruct sel as [[|] [|] cols [|f [|]] w gb hv ob lim off]; try (by intros db a n Hr Hsc Haf); [apply select_does|].
    by intros db a n Hr Hsc Haf; destruct f as [? ? []].
  - apply insert_does.
  - apply update_does.
  - apply delete_does.
  - apply create_does.
  - intros db a n Hr _ Haf. eexists db, _. split; [reflexivity|]. by right.
  - apply commit_does.
Qed.

(** ** Sessions *)

(** The texts of a session, one after the other; an error does not end it. *)
Fixpoint run (qs : list (list N)) : db_op (D := D) (list (sql_result QueryResult)) := fun db =>
  match qs with
  | [] => (db, Ok [])
  | q :: qs =>
      let '(db, r) := execute crc32 ln fuel now q db in
      let '(db, rs) := run qs db in
      (db, rs ← rs; Ok (r :: rs))
  end.

Lemma session_ok qs ss db a : Forall2 (fun q s => Parser.parse q = Ok s) qs ss -> represents db a -> scoped a ss ->
  affords db (budget a ss) -> exists db' rs, run qs db = (db', Ok rs) /\ length rs = length ss /\ session a (zip ss rs).
Proof.
  intros Hqs. revert db a. assert (Htot : forall qs db, exists db' rs, run qs db = (db', Ok rs) /\ length rs = length qs).
  { clear. induction qs as [|q qs IH]; intros db; [by eexists _, _|]. cbn [run]. destruct (execute crc32 ln fuel now q db) as [db1 r].
    destruct (IH db1) as (db2 & rs & -> & Hl). eexists _, _. split; [done|]. cbn. by rewrite Hl. }
  induction Hqs as [|q s qs ss Hp Hqs IH]; intros db a Hr Hsc Haf; [eexists _, []; split_and!; [done|done|constructor]|].
  destruct Hsc as [Hs Hsc]. destruct (execute_does s db a (budget (next a s) ss) Hr Hs Haf) as (db1 & r & He & Hres).
  cbn [run]. unfold execute, mbind at 1, db_bind, lift. rewrite Hp, He.
  destruct Hres as [(x & -> & Hx)|(Ha & Hr1 & Haf1)].
  - destruct (Htot qs db1) as (db2 & rs & -> & Hl). eexists _, _. split; [done|]. cbn [length zip]. split; [|by constructor].
    by rewrite Hl, (Forall2_length _ _ _ Hqs).
  - destruct (IH db1 (next a s) Hr1 Hsc Haf1) as (db2 & rs & -> & Hl & Hses). eexists _, _. split; [done|]. cbn [length zip]. split; [by rewrite Hl|].
    by constructor.
Qed.

(** A session without an error leaves the tables [next] makes. *)
Lemma session_leaves qs ss db a n db' rs : Forall2 (fun q s => Parser.parse q = Ok s) qs ss -> represents db a -> scoped a ss ->
  affords db (budget a ss + n) -> run qs db = (db', Ok rs) -> Forall (fun r => is_ok r = true) rs ->
  represents db' (foldl next a ss) /\ affords db' n.
Proof.
  intros Hqs. revert db a rs. induction Hqs as [|q s qs ss Hp Hqs IH]; intros db a rs Hr Hsc Haf Hrun Hok; [by injection Hrun as <- _|].
  cbn [scoped budget foldl run] in *. destruct Hsc as [Hs Hsc].
  destruct (execute_does s db a (budget (next a s) ss + n) Hr Hs) as (db1 & r & He & Hres); [by eapply affords_le; [|exact Haf]; lia|].
  unfold execute, mbind at 1, db_bind, lift in Hrun. rewrite Hp, He in Hrun. destruct (run qs db1) as [db2 [rs'|x|]] eqn:Er; [|done..].
  injection Hrun as <- <-. apply Forall_cons in Hok as [Hr1 Hok]. destruct Hres as [(x & -> & _)|(_ & Hr2 & Haf2)]; [done|]. by eapply IH.
Qed.

Definition fresh (b : Pool.BufferPool D) : Db D := mkDb Catalog.new b Wal.create Txn.new env0.

Lemma fresh_represents b m : Pool.represents b m -> represents (fresh b) ∅.
Proof.
  intros Hb. exists m, ∅. split; [|intros k; unfold schemas; cbn; by rewrite fmap_empty, !lookup_empty].
  split; cbn [fresh pool wal env tx catalog]; try done. apply Txn.new_ok.
Qed.

(** C9: The engine implements tables of rows.  From an empty database over any page store,
    every session of SQL texts in scope, CREATE TABLE, INSERT, UPDATE, DELETE, queries of
    one table, BEGIN and COMMIT, is answered statement by statement as [answers] says over
    the tables [next] leaves: errors included, through the parser, the row codec, heap
    pages, buffer pool, log and transaction visibility, until an insert is refused for
    want of space on a page whose class of free space does not tell. *)
Theorem engine_implements_tables b m qs ss : Pool.represents b m -> Forall2 (fun q s => Parser.parse q = Ok s) qs ss ->
  scoped ∅ ss -> affords (fresh b) (budget ∅ ss) ->
  exists db' rs, run qs (fresh b) = (db', Ok rs) /\ length rs = length ss /\ session ∅ (zip ss rs).
Proof. intros Hb Hqs Hsc Haf. apply session_ok; [done|by eapply fresh_represents|done|done]. Qed.
End Engine.

Section Sample.
#[local] Existing Instance list_slice_sort.
#[local] Existing Instance ascii_unicode.
#[local] Existing Instance code_debug.
#[local] Existing Instance HnswIndexSpec.far_list.
#[local] Existing Instance HnswIndexSpec.near_list.

(** A table is created, filled, changed and read; one statement names no table. *)
Definition sample_texts : list (list N) := map text [
  "CREATE TABLE t (a INT, b TEXT)"; "INSERT INTO t VALUES (1, 'x'), (2, 'y'), (3, 'z')"; "INSERT INTO u VALUES (1)";
  "UPDATE t SET b = 'w' WHERE a = 2"; "DELETE FROM t WHERE a < 2"; "SELECT b FROM t WHERE a = 2 ORDER BY b LIMIT 1"; "COMMIT"]%string.

Definition sample_stmts : list Ast.Statement :=
  omap (fun q => match Parser.parse q with Ok s => Some s | _ => None end) sample_texts.

Lemma engine_implements_tables_witness :
  exists db' rs, run (D := Disk.DiskManager) (fun _ => 0) (fun x => x) 10 0 sample_texts (fresh (Pool.new 8 Disk.create)) = (db', Ok rs) /\
    length rs = 7%nat /\ session ∅ (zip sample_stmts rs).
Proof.
  apply (engine_implements_tables (fun _ => 0) (fun x => x) 10 0 _ ∅ sample_texts sample_stmts).
  - by apply Pool.pool_over_new_file.
  - replace sample_stmts with (omap (fun q => match Parser.parse q with Ok s => Some s | _ => None end) sample_texts) by done.
    repeat (constructor; [by vm_compute|]). constructor.
  - by apply (bool_decide_unpack _).
  - split; [by vm_compute|by vm_compute|]. exists 0. split; [apply map_Forall_empty|by vm_compute].
Defined.
End Sample.
End Session.
