(* ===== verification/SqlEngineFlaws.v ===== *)
(** * Where sessions part from SQL

    What an UPDATE that fails half way leaves behind, and sessions of the engine,
    computed from an empty database, in which a statement loses rows, reads what was
    deleted, or undoes nothing. *)

From Stdlib Require Import Ascii String.
From stdpp Require Import gmap strings.
From S2P Require Import Prelude Bytes Strings Float64 StorageError StorageReplacer StorageDisk StorageBufferPool StorageWal StorageTxn StorageHnsw StorageHnswIndex.
From S2P Require Import SqlAst SqlValue SqlToken SqlParser SqlCodec SqlExpr SqlGroup SqlCatalog SqlEngine SqlEngineSpec SqlSession.

Module EngineFlaws.
Import Value Expr Group Catalog Engine EngineSpec Session.

Section FailedUpdate.
Context {D : Type} `{PageStoreLaws D} `{SliceSort} `{UnicodeCase} `{DebugFormat} `{TableOrder}.
Context {Far : Hnsw.BinaryHeap Hnsw.cmp_far} {Near : Hnsw.BinaryHeap Hnsw.cmp_near}.
Context (crc32 : list N -> N) (ln : f64 -> f64) (fuel : nat) (now : N).

(** C40: An UPDATE that fails on a row loses it, and every row it has changed before.  The
    rows are deleted one by one, each before its assignments are evaluated, and the
    new tuples belong to a transaction that the error leaves open.  So when the
    assignments of a selected row fail, those of the others giving rows that fit a
    page, the statement answers the error, and the database is one in which the
    selected rows up to the first that fails are gone and the rest of all tables is
    as before.  The tables are those the refinement covers, without primary keys and
    indexes; the other outcome is an insert refused for want of space. *)
Theorem failed_update_loses_rows (db : Db D) a n t al assignments w schema rows sel ps : represents db a -> a !! key t = Some (schema, rows) ->
  mapM (fun x => column_position schema x.1) assignments = Ok ps ->
  Forall (fun r => matches env0 w schema r = Ok (sel r)) rows ->
  Forall (fun r => (exists v, assign_values env0 schema assignments r r = Ok v /\ fits schema v) \/
    exists y, rewritten schema assignments r = Err y) (List.filter sel rows) ->
  Exists (fun r => exists y, rewritten schema assignments r = Err y) (List.filter sel rows) ->
  affords db (2 * len rows + 2 + n) ->
  exists db' err, exec_update crc32 fuel now (Ast.mkUpdate t al assignments w) db = (db', Err err) /\
    (no_space err \/
     exists before r kept, List.filter sel rows ≡ₚ before ++ r :: kept /\
       Forall (fun r => is_ok (rewritten schema assignments r) = true) before /\ rewritten schema assignments r = Err err /\
       represents db' (<[key t := (schema, kept ++ List.filter (fun r => negb (sel r)) rows)]> a)).
Proof.
  intros (m & G & Hi & Hs) Ha Hps Hm Hup Hex Haf.
  destruct (select_for crc32 db m G a (2 * len rows + 1 + n) t schema rows w sel Hi Hs Ha ltac:(by eapply affords_le; [|exact Haf]; lia) Hm)
    as (e & g & db1 & C & R & Htab & Hc & Hpk & Hsc & [Hi1 Ha1 Ht1 Hs1] & Hg & Hp & Hvc & Hcr & Hvr).
  assert (Hall : Forall (fun it => it.2.1 ∈ Txn.committed (tx db)) C).
  { apply visible_full. rewrite (Permutation_length Hvc), <- (Permutation_length Hcr). by rewrite !length_fmap. }
  assert (Hle : (length C <= length rows)%nat).
  { pose proof (Permutation_length Hcr) as Hl. rewrite !length_fmap in Hl. rewrite Hl. apply List.filter_length_le. }
  rewrite <- Hcr in Hup, Hex. rewrite !Forall_fmap in Hup. rewrite !Exists_fmap in Hex.
  destruct (first_failure schema assignments C Hup Hex) as (C1 & it & C2 & vs & err & -> & Herr & Hvs).
  rewrite length_app in Hle. cbn [length] in Hle.
  unfold exec_update. cbn [Ast.update_table Ast.update_where Ast.assignments]. unfold mbind, db_bind, get_db, lift.
  rewrite Htab, Hc, Hps, Hsc, Hpk.
  destruct (begin_step db1 m G (2 * len C1 + (1 + n)) Hi1 ltac:(eapply affords_le; [|exact Ha1]; unfold len; lia))
    as (db2 & -> & Hi2 & Ha2 & Hs2 & _ & Hc2 & Hact & Hnx). set (x := Txn.next_xid (tx db1)) in *.
  pose proof (proj1 (shows_lookup _ _ _ _ _ _ _ Hs Ha)) as Hschema.
  rewrite fmap_app, update_rows_app. rewrite <- app_assoc in Hp.
  destruct (update_rows_step crc32 fuel C1 ((it :: C2) ++ R) db2 m G (to_lowercase t) schema g (1 + n) x assignments Hi2 Ha2)
    with (vs := vs) as [(db3 & m3 & g3 & new & -> & Hm3 & Hp3 & Hnew)|(db3 & err' & -> & Hno)];
    [by rewrite Hs2, Hs1|done|pose proof (Txn.ok_next _ (in_txn _ _ _ Hi1)); lia|done|done| |by eexists _, _; split; [done|]; left].
  destruct (update_row_fails crc32 fuel db3 m3 _ (to_lowercase t) schema g3 n x assignments it (new ++ C2 ++ R) err (mv_inv _ _ _ _ _ Hm3)) as (db4 & m4 & g4 & Hrow & Hm4 & Hp4);
    [eapply affords_le; [|apply Hm3]; lia|by rewrite (mv_schemas _ _ _ _ _ Hm3), Hs2, Hs1|by rewrite lookup_insert_eq|
     rewrite Hp3; cbn [app]; symmetry; apply Permutation_middle|done|].
  rewrite fmap_cons. cbn [update_rows]. unfold mbind, db_bind. rewrite Hrow. exists db4, err. split; [done|]. right.
  exists C1.*2.*2, it.2.2, C2.*2.*2. split_and!; [rewrite <- Hcr, !fmap_app; done|by eapply all_rewritten|done|]. fold (key t) in *.
  rewrite insert_insert_eq in Hm4. destruct Hm3 as [_ _ Ht3 Hs3], Hm4 as [Hi4 _ Ht4 Hs4].
  exists m4, (<[key t := g4]> G). split; [done|]. rewrite Ht4, Ht3, Hs4, Hs3, Hc2, Hs2, Ht1, Hs1.
  eapply shows_put; [done|done|done|]. rewrite (rows_of_perm _ _ (map (pair x) vs ++ C2.*2 ++ R.*2)) by (rewrite Hp4, !fmap_app; by rewrite Hnew).
  assert (Hun : x ∉ Txn.committed (tx db)) by (unfold x; rewrite Ht1; apply next_uncommitted, (in_txn _ _ _ Hi)).
  rewrite !visible_app, visible_none, Hvr by done. rewrite visible_these; [done|].
  apply Forall_app in Hall as [_ Hall]. by apply Forall_cons in Hall as [_ Hall].
Qed.
End FailedUpdate.

#[local] Existing Instance list_slice_sort.
#[local] Existing Instance ascii_unicode.
#[local] Existing Instance code_debug.
#[local] Existing Instance HnswIndexSpec.far_list.
#[local] Existing Instance HnswIndexSpec.near_list.

(** The rows each statement of a session answers. *)
Definition rows_answered (qs : list string) : list (sql_result (list (list Value))) :=
  match run (D := Disk.DiskManager) (fun _ => 0) (fun x => x) 10 0 (map text qs) (fresh (Pool.new 16 Disk.create)) with
  | (_, Ok rs) => map (fun r => r ← r; Ok (result_rows r)) rs
  | _ => []
  end.

Definition str (s : string) : Value := Text (text s).

(** A table with a zero, and an assignment that divides by it. *)
Definition zero_texts : list (list N) := map text ["CREATE TABLE t (a INT)"; "INSERT INTO t VALUES (1), (0), (2)"]%string.
Definition zero_stmts : list Ast.Statement :=
  omap (fun q => match Parser.parse q with Ok s => Some s | _ => None end) zero_texts.
Definition zero_db : Db Disk.DiskManager :=
  (run (fun _ => 0) (fun x => x) 10 0 zero_texts (fresh (Pool.new 8 Disk.create))).1.
Definition dividing : list (list N * Ast.Expr) :=
  [(text "a", Ast.BinaryOp Ast.Div (Ast.IntLit 10) (Ast.ColumnRef None (text "a")))].

Lemma zero_represents : represents zero_db (foldl next ∅ zero_stmts) /\ affords zero_db 8.
Proof.
  destruct (run (fun _ => 0) (fun x => x) 10 0 zero_texts (fresh (Pool.new 8 Disk.create))) as [db [rs|x|]] eqn:Er.
  - replace zero_db with db by (unfold zero_db; by rewrite Er).
    eapply (session_leaves (fun _ => 0) (fun x => x) 10 0 zero_texts zero_stmts _ ∅); [| | | |exact Er|].
    + unfold zero_stmts. repeat (constructor; [by vm_compute|]). constructor.
    + eapply fresh_represents. by apply Pool.pool_over_new_file.
    + by apply (bool_decide_unpack _).
    + split; [by vm_compute|by vm_compute|]. exists 0. split; [apply map_Forall_empty|by vm_compute].
    + assert (Hok : match (run (fun _ => 0) (fun x => x) 10 0 zero_texts (fresh (Pool.new 8 Disk.create))).2 with Ok rs => forallb is_ok rs | _ => false end = true)
        by (vm_compute; reflexivity).
      rewrite Er in Hok. cbn [snd] in Hok. apply Forall_forall. intros r Hr. rewrite forallb_forall in Hok. by apply Hok, list_elem_of_In.
  - pose proof (f_equal is_ok (f_equal snd Er)) as Hx. vm_compute in Hx. discriminate Hx.
  - pose proof (f_equal is_ok (f_equal snd Er)) as Hx. vm_compute in Hx. discriminate Hx.
Qed.

Definition zero_schema : list ColumnSchema :=
  match foldl next ∅ zero_stmts !! key (text "t") with Some (schema, _) => schema | None => [] end.
Definition zero_rows : list row := [[Int64 1]; [Int64 0]; [Int64 2]].

Lemma zero_update_answer :
  match (exec_update (fun _ => 0) 10 0 (Ast.mkUpdate (text "t") None dividing None) zero_db).2 with
  | Err (StorageErr _) => true
  | _ => false
  end = false.
Proof. vm_compute. reflexivity. Qed.

Lemma failed_update_loses_rows_witness :
  exists db' err before r kept, exec_update (fun _ => 0) 10 0 (Ast.mkUpdate (text "t") None dividing None) zero_db = (db', Err err) /\
    zero_rows ≡ₚ before ++ r :: kept /\ rewritten zero_schema dividing r = Err err /\
    represents db' (<[key (text "t") := (zero_schema, kept)]> (foldl next ∅ zero_stmts)).
Proof.
  destruct zero_represents as [Hr Haf].
  destruct (failed_update_loses_rows (fun _ => 0) 10 0 zero_db (foldl next ∅ zero_stmts) 0 (text "t") None dividing None
    zero_schema zero_rows (fun _ => true) [0%nat] Hr) as (db' & err & He & [(k & f & -> & _)|(before & r & kept & Hp & _ & Hf & Hr')]).
  - vm_compute. reflexivity.
  - vm_compute. reflexivity.
  - repeat constructor.
  - cbn [List.filter zero_rows]. constructor; [left|constructor; [right; eexists; vm_compute; reflexivity|constructor; [left|constructor]]];
      (eexists; split; [vm_compute; reflexivity|apply (bool_decide_unpack _); vm_compute; reflexivity]).
  - right. left. eexists. vm_compute. reflexivity.
  - exact Haf.
  - pose proof zero_update_answer as Ha. rewrite He in Ha. discriminate Ha.
  - exists db', err, before, r, kept. split_and!; [exact He|exact Hp|exact Hf|]. rewrite app_nil_r in Hr'. exact Hr'.
Defined.

(** An index entry outlives its row: after DELETE, and after an UPDATE of another column,
    a query by primary key follows the first entry to an empty slot and fails, while a
    scan answers. *)
Theorem index_entry_outlives_row : exists x,
  rows_answered ["CREATE TABLE p (id INT PRIMARY KEY, b TEXT)"; "INSERT INTO p VALUES (1, 'x')"; "UPDATE p SET b = 'z'";
    "SELECT b FROM p"; "SELECT b FROM p WHERE id = 1"; "DELETE FROM p"; "SELECT b FROM p"; "SELECT b FROM p WHERE id = 1"] =
  [Ok []; Ok []; Ok []; Ok [[str "z"]]; Err (StorageErr x); Ok []; Ok []; Err (StorageErr x)].
Proof. eexists. vm_compute. reflexivity. Qed.

(** Two rows may have one primary key; a query by the key sees one of them. *)
Theorem duplicate_primary_key_accepted :
  rows_answered ["CREATE TABLE p (id INT PRIMARY KEY, b TEXT)"; "INSERT INTO p VALUES (1, 'x'), (1, 'y')";
    "SELECT b FROM p"; "SELECT b FROM p WHERE id = 1"] =
  [Ok []; Ok []; Ok [[str "x"]; [str "y"]]; Ok [[str "x"]]].
Proof. vm_compute. reflexivity. Qed.

(** ROLLBACK undoes nothing, DROP TABLE drops nothing, DISTINCT removes no row, and the
    constraint NOT NULL refuses nothing. *)
Theorem accepted_and_ignored :
  rows_answered ["CREATE TABLE t (a INT NOT NULL)"; "BEGIN"; "INSERT INTO t VALUES (1), (1), (NULL)"; "ROLLBACK";
    "SELECT DISTINCT a FROM t"; "DROP TABLE t"; "SELECT a FROM t WHERE a = 1"] =
  [Ok []; Ok []; Ok []; Ok []; Ok [[Int64 1]; [Int64 1]; [Null]]; Ok []; Ok [[Int64 1]; [Int64 1]]].
Proof. vm_compute. reflexivity. Qed.

(** The column store keeps what DELETE removes: the aggregate of an empty table counts
    the rows it had. *)
Theorem column_store_keeps_deleted_rows :
  rows_answered ["CREATE TABLE c (a INT) STORAGE COLUMNAR"; "INSERT INTO c VALUES (1), (2)"; "DELETE FROM c";
    "SELECT a FROM c"; "SELECT count(*) FROM c"] =
  [Ok []; Ok []; Ok []; Ok []; Ok [[Int64 2]]].
Proof. vm_compute. reflexivity. Qed.

(** A table named like a view of the catalog can be written and not read. *)
Theorem view_shadows_table :
  rows_answered ["CREATE TABLE views (a INT)"; "INSERT INTO views VALUES (7)"; "SELECT * FROM views"] = [Ok []; Ok []; Ok []].
Proof. vm_compute. reflexivity. Qed.

(** The right side of a UNION under WITH is dropped unless the expression is recursive. *)
Theorem with_drops_union :
  rows_answered ["WITH x AS (SELECT 1 AS n UNION ALL SELECT 2 AS n) SELECT n FROM x";
    "WITH RECURSIVE x AS (SELECT 1 AS n UNION ALL SELECT n + 1 AS n FROM x WHERE n < 3) SELECT n FROM x"] =
  [Ok [[Int64 1]]; Ok [[Int64 1]; [Int64 2]; [Int64 3]]].
Proof. vm_compute. reflexivity. Qed.
End EngineFlaws.
