(* ===== verification/ServerMd5.v ===== *)
(** * MD5

    Models [crates/server/src/md5.rs].  The code runs the 64 steps of a block in one
    loop that rotates the four words; RFC 1321 writes them as four rounds of sixteen
    assignments, each to the word whose turn it is, with the message words, shifts
    and constants listed.  The two are shown to agree. *)

From stdpp Require Import prelude strings.
From S2P Require Import Prelude Bytes Strings.

Module Md5.

(** ** The code *)

Definition S : list N :=
  [7; 12; 17; 22; 7; 12; 17; 22; 7; 12; 17; 22; 7; 12; 17; 22;
   5; 9; 14; 20; 5; 9; 14; 20; 5; 9; 14; 20; 5; 9; 14; 20;
   4; 11; 16; 23; 4; 11; 16; 23; 4; 11; 16; 23; 4; 11; 16; 23;
   6; 10; 15; 21; 6; 10; 15; 21; 6; 10; 15; 21; 6; 10; 15; 21].

Definition K : list N :=
  [0xd76aa478; 0xe8c7b756; 0x242070db; 0xc1bdceee; 0xf57c0faf; 0x4787c62a; 0xa8304613; 0xfd469501;
   0x698098d8; 0x8b44f7af; 0xffff5bb1; 0x895cd7be; 0x6b901122; 0xfd987193; 0xa679438e; 0x49b40821;
   0xf61e2562; 0xc040b340; 0x265e5a51; 0xe9b6c7aa; 0xd62f105d; 0x02441453; 0xd8a1e681; 0xe7d3fbc8;
   0x21e1cde6; 0xc33707d6; 0xf4d50d87; 0x455a14ed; 0xa9e3e905; 0xfcefa3f8; 0x676f02d9; 0x8d2a4c8a;
   0xfffa3942; 0x8771f681; 0x6d9d6122; 0xfde5380c; 0xa4beea44; 0x4bdecfa9; 0xf6bb4b60; 0xbebfbc70;
   0x289b7ec6; 0xeaa127fa; 0xd4ef3085; 0x04881d05; 0xd9d4d039; 0xe6db99e5; 0x1fa27cf8; 0xc4ac5665;
   0xf4292244; 0x432aff97; 0xab9423a7; 0xfc93a039; 0x655b59c3; 0x8f0ccc92; 0xffeff47d; 0x85845dd1;
   0x6fa87e4f; 0xfe2ce6e0; 0xa3014314; 0x4e0811a1; 0xf7537e82; 0xbd3af235; 0x2ad7d2bb; 0xeb86d391].

(** [!x], [x.wrapping_add(y)] and [x.rotate_left(s)] on u32. *)
Definition not32 (x : N) : N := N.lxor x (2 ^ 32 - 1).
Definition add32 (x y : N) : N := wadd 32 x y.
Definition rotate_left (x s : N) : N := N.lor (u32 (N.shiftl x s)) (N.shiftr x (32 - s)).

(** The words [a b c d]. *)
Definition words : Type := N * N * N * N.

(** The mix of [b c d] and the index of the message word in turn [i]. *)
Definition mix (i : nat) (b c d : N) : N * nat :=
  if (i <? 16)%nat then (N.lor (N.land b c) (N.land (not32 b) d), i)
  else if (i <? 32)%nat then (N.lor (N.land d b) (N.land (not32 d) c), ((5 * i + 1) mod 16)%nat)
  else if (i <? 48)%nat then (N.lxor (N.lxor b c) d, ((3 * i + 5) mod 16)%nat)
  else (N.lxor c (N.lor b (not32 d)), ((7 * i) mod 16)%nat).

(** One turn of the loop over [i]; an index out of range panics. *)
Definition round_step {E} (m : list N) (st : words) (i : nat) : outcome E words :=
  let '(a, b, c, d) := st in
  let '(f, g) := mix i b c d in
  k ← or_panic (K !! i);
  w ← or_panic (m !! g);
  s ← or_panic (S !! i);
  Ok (d, add32 b (rotate_left (add32 (add32 (add32 a f) k) w) s), b, c).

Fixpoint round_steps {E} (m : list N) (st : words) (turns : list nat) : outcome E words :=
  match turns with
  | [] => Ok st
  | i :: turns => st ← round_step m st i; round_steps m st turns
  end.

(** The sixteen words of a chunk. *)
Fixpoint chunk_words {E} (chunk : list N) (off : N) (n : nat) : outcome E (list N) :=
  match n with
  | O => Ok []
  | Datatypes.S n => w ← slice chunk off (off + 4); ws ← chunk_words chunk (off + 4) n; Ok (le_value w :: ws)
  end.

Definition process_chunk {E} (st : words) (chunk : list N) : outcome E words :=
  m ← chunk_words chunk 0 16;
  st' ← round_steps m st (seq 0 64);
  let '(a0, b0, c0, d0) := st in
  let '(a, b, c, d) := st' in
  Ok (add32 a0 a, add32 b0 b, add32 c0 c, add32 d0 d).

(** [msg.chunks(64)]: pieces of 64 bytes, the last one what is left. *)
Fixpoint process_chunks {E} (fuel : nat) (st : words) (msg : list N) : outcome E words :=
  match fuel, msg with
  | _, [] => Ok st
  | O, _ => Panic
  | Datatypes.S fuel, _ => st ← process_chunk st (take 64 msg); process_chunks fuel st (drop 64 msg)
  end.

(** [while msg.len() % 64 != 56 { msg.push(0) }] *)
Fixpoint push_zeros {E} (fuel : nat) (msg : list N) : outcome E (list N) :=
  if len msg mod 64 =? 56 then Ok msg
  else match fuel with
  | O => Panic
  | Datatypes.S fuel => push_zeros fuel (msg ++ [0])
  end.

Definition pad {E} (data : list N) : outcome E (list N) :=
  let bit_len := u64 (8 * len data) in
  msg ← push_zeros 64 (data ++ [128]);
  Ok (msg ++ le_bytes 8 bit_len).

Definition init : words := (0x67452301, 0xefcdab89, 0x98badcfe, 0x10325476).

Definition md5_digest {E} (data : list N) : outcome E (list N) :=
  msg ← pad data;
  st ← process_chunks (length msg) init msg;
  let '(a0, b0, c0, d0) := st in
  Ok (le_bytes 4 a0 ++ le_bytes 4 b0 ++ le_bytes 4 c0 ++ le_bytes 4 d0).

Definition hex_char (d : N) : N := if d <? 10 then 48 + d else 87 + d.
Definition md5_hex {E} (data : list N) : outcome E (list N) :=
  digest ← md5_digest data;
  Ok (concat (map (fun b => [hex_char (b / 16); hex_char (b mod 16)]) digest)).

(** ** RFC 1321 *)

Definition F (x y z : N) : N := N.lor (N.land x y) (N.land (not32 x) z).
Definition G (x y z : N) : N := N.lor (N.land x z) (N.land y (not32 z)).
Definition H (x y z : N) : N := N.lxor (N.lxor x y) z.
Definition I (x y z : N) : N := N.lxor y (N.lor x (not32 z)).

(** An operation [abcd k s i]: [a = b + ((a + f(b,c,d) + X[k] + T[i]) <<< s)]. *)
Definition rfc_op (f : N -> N -> N -> N) (X : N -> N) (a b c d : N) (k s i : N) : N :=
  add32 b (rotate_left (add32 (add32 (add32 a (f b c d)) i) (X k)) s).

(** A line of the RFC: [ABCD k s i] [DABC k s i] [CDAB k s i] [BCDA k s i]. *)
Definition rfc_line (X : N -> N) (st : words) (l : (N -> N -> N -> N) * list (N * N * N)) : words :=
  let '(a, b, c, d) := st in
  match l with
  | (f, [(k0, s0, t0); (k1, s1, t1); (k2, s2, t2); (k3, s3, t3)]) =>
      let a := rfc_op f X a b c d k0 s0 t0 in
      let d := rfc_op f X d a b c k1 s1 t1 in
      let c := rfc_op f X c d a b k2 s2 t2 in
      let b := rfc_op f X b c d a k3 s3 t3 in
      (a, b, c, d)
  | _ => st
  end.

(** The message word, the shift and the constant of each operation. *)
Definition rfc_lines : list ((N -> N -> N -> N) * list (N * N * N)) := [
  (F, [(0, 7, 0xd76aa478); (1, 12, 0xe8c7b756); (2, 17, 0x242070db); (3, 22, 0xc1bdceee)]);
  (F, [(4, 7, 0xf57c0faf); (5, 12, 0x4787c62a); (6, 17, 0xa8304613); (7, 22, 0xfd469501)]);
  (F, [(8, 7, 0x698098d8); (9, 12, 0x8b44f7af); (10, 17, 0xffff5bb1); (11, 22, 0x895cd7be)]);
  (F, [(12, 7, 0x6b901122); (13, 12, 0xfd987193); (14, 17, 0xa679438e); (15, 22, 0x49b40821)]);
  (G, [(1, 5, 0xf61e2562); (6, 9, 0xc040b340); (11, 14, 0x265e5a51); (0, 20, 0xe9b6c7aa)]);
  (G, [(5, 5, 0xd62f105d); (10, 9, 0x02441453); (15, 14, 0xd8a1e681); (4, 20, 0xe7d3fbc8)]);
  (G, [(9, 5, 0x21e1cde6); (14, 9, 0xc33707d6); (3, 14, 0xf4d50d87); (8, 20, 0x455a14ed)]);
  (G, [(13, 5, 0xa9e3e905); (2, 9, 0xfcefa3f8); (7, 14, 0x676f02d9); (12, 20, 0x8d2a4c8a)]);
  (H, [(5, 4, 0xfffa3942); (8, 11, 0x8771f681); (11, 16, 0x6d9d6122); (14, 23, 0xfde5380c)]);
  (H, [(1, 4, 0xa4beea44); (4, 11, 0x4bdecfa9); (7, 16, 0xf6bb4b60); (10, 23, 0xbebfbc70)]);
  (H, [(13, 4, 0x289b7ec6); (0, 11, 0xeaa127fa); (3, 16, 0xd4ef3085); (6, 23, 0x04881d05)]);
  (H, [(9, 4, 0xd9d4d039); (12, 11, 0xe6db99e5); (15, 16, 0x1fa27cf8); (2, 23, 0xc4ac5665)]);
  (I, [(0, 6, 0xf4292244); (7, 10, 0x432aff97); (14, 15, 0xab9423a7); (5, 21, 0xfc93a039)]);
  (I, [(12, 6, 0x655b59c3); (3, 10, 0x8f0ccc92); (10, 15, 0xffeff47d); (1, 21, 0x85845dd1)]);
  (I, [(8, 6, 0x6fa87e4f); (15, 10, 0xfe2ce6e0); (6, 15, 0xa3014314); (13, 21, 0x4e0811a1)]);
  (I, [(4, 6, 0xf7537e82); (11, 10, 0xbd3af235); (2, 15, 0x2ad7d2bb); (9, 21, 0xeb86d391)])].

Definition rfc_block (st : words) (block : list N) : words :=
  let X k := le_value block.[4 * k; 4] in
  let '(a0, b0, c0, d0) := st in
  let '(a, b, c, d) := foldl (rfc_line X) st rfc_lines in
  (add32 a0 a, add32 b0 b, add32 c0 c, add32 d0 d).

(** The padding: a one bit, zeros up to 448 modulo 512 bits, the length in bits. *)
Definition rfc_zeros (n : N) : N := (119 - n mod 64) mod 64.
Definition rfc_pad (data : list N) : list N :=
  data ++ 128 :: replicate (N.to_nat (rfc_zeros (len data))) 0 ++ le_bytes 8 (8 * len data).

Definition blocks (msg : list N) : list (list N) :=
  map (fun i => msg.[64 * N.of_nat i; 64]) (seq 0 (N.to_nat (len msg / 64))).

Definition rfc_digest (data : list N) : list N :=
  let '(a, b, c, d) := foldl rfc_block init (blocks (rfc_pad data)) in
  le_bytes 4 a ++ le_bytes 4 b ++ le_bytes 4 c ++ le_bytes 4 d.

(** ** Agreement *)

Section Block.
Context {E : Type} (m : list N) (X : N -> N).
Hypothesis Hm : forall k, k < 16 -> m !! N.to_nat k = Some (X k).

Lemma turn i (f : N -> N -> N -> N) k s t a b c d : K !! i = Some t -> S !! i = Some s -> k < 16 ->
  mix i b c d = (f b c d, N.to_nat k) -> @round_step E m (a, b, c, d) i = Ok (d, rfc_op f X a b c d k s t, b, c).
Proof. intros Ht Hs Hk Hx. unfold round_step. rewrite Hx, Ht, Hs, (Hm k Hk). done. Qed.

(** Four turns of the loop are a line. *)
Lemma four_turns st j f k0 s0 t0 k1 s1 t1 k2 s2 t2 k3 s3 t3 :
  (K !! j, K !! (1 + j)%nat, K !! (2 + j)%nat, K !! (3 + j)%nat) = (Some t0, Some t1, Some t2, Some t3) ->
  (S !! j, S !! (1 + j)%nat, S !! (2 + j)%nat, S !! (3 + j)%nat) = (Some s0, Some s1, Some s2, Some s3) ->
  (k0 < 16 /\ k1 < 16 /\ k2 < 16 /\ k3 < 16) ->
  (forall b c d, mix j b c d = (f b c d, N.to_nat k0)) -> (forall b c d, mix (1 + j) b c d = (f b c d, N.to_nat k1)) ->
  (forall b c d, mix (2 + j) b c d = (f b c d, N.to_nat k2)) -> (forall b c d, mix (3 + j) b c d = (f b c d, N.to_nat k3)) ->
  @round_steps E m st (seq j 4) = Ok (rfc_line X st (f, [(k0, s0, t0); (k1, s1, t1); (k2, s2, t2); (k3, s3, t3)])).
Proof.
  intros [= T0 T1 T2 T3] [= S0 S1 S2 S3] (H0 & H1 & H2 & H3) M0 M1 M2 M3. destruct st as [[[a b] c] d]. cbn [seq round_steps rfc_line].
  rewrite (turn j f k0 s0 t0), bind_ok by done. rewrite (turn (1 + j) f k1 s1 t1), bind_ok by done.
  rewrite (turn (2 + j) f k2 s2 t2), bind_ok by done. rewrite (turn (3 + j) f k3 s3 t3), bind_ok by done. done.
Qed.

Lemma round_steps_app st l r : @round_steps E m st (l ++ r) = st ← round_steps m st l; round_steps m st r.
Proof.
  revert st. induction l as [|i l IH]; intros st; cbn [app round_steps]; [done|].
  destruct (round_step m st i) as [st'| |]; [|done..]. rewrite !bind_ok. apply IH.
Qed.

Lemma mix_G i k b c d : (16 <= i < 32)%nat -> ((5 * i + 1) mod 16)%nat = N.to_nat k -> mix i b c d = (G b c d, N.to_nat k).
Proof.
  intros Hi <-. unfold mix, G. rewrite (proj2 (Nat.ltb_ge i 16)), (proj2 (Nat.ltb_lt i 32)) by lia.
  by rewrite (N.land_comm d b), (N.land_comm (not32 d) c).
Qed.

Lemma steps_are_rounds st : @round_steps E m st (seq 0 64) = Ok (foldl (rfc_line X) st rfc_lines).
Proof.
  change (seq 0 64) with (seq 0 4 ++ seq 4 4 ++ seq 8 4 ++ seq 12 4 ++ seq 16 4 ++ seq 20 4 ++ seq 24 4 ++ seq 28 4 ++
    seq 32 4 ++ seq 36 4 ++ seq 40 4 ++ seq 44 4 ++ seq 48 4 ++ seq 52 4 ++ seq 56 4 ++ seq 60 4).
  unfold rfc_lines. cbn [foldl].
  repeat first [rewrite round_steps_app|rewrite bind_ok|match goal with
  |- context [round_steps m ?u (seq ?j 4)] => match goal with
  |- context [rfc_line X u (?f, [(?k0, ?s0, ?t0); (?k1, ?s1, ?t1); (?k2, ?s2, ?t2); (?k3, ?s3, ?t3)])] =>
    rewrite (four_turns u j f k0 s0 t0 k1 s1 t1 k2 s2 t2 k3 s3 t3);
      [|reflexivity|reflexivity|done|intros; (reflexivity || (apply mix_G; [lia|reflexivity]))..] end end].
  done.
Qed.
End Block.

Lemma chunk_words_spec {E} chunk n off : off + 4 * N.of_nat n <= len chunk ->
  exists ws, @chunk_words E chunk off n = Ok ws /\ forall k, k < N.of_nat n -> ws !! N.to_nat k = Some (le_value chunk.[off + 4 * k; 4]).
Proof.
  revert off. induction n as [|n IH]; intros off Hl; [exists []; split; [done|lia]|]. cbn [chunk_words].
  destruct (IH (off + 4)) as (ws & Hw & Hk); [lia|]. rewrite slice_ok, bind_ok, Hw, bind_ok by lia.
  eexists. split; [done|]. intros k Hlt. destruct (N.eq_dec k 0) as [->|Hne].
  - cbn [lookup list_lookup N.to_nat]. by replace (off + 4 * 0) with off by lia; replace (off + 4 - off) with 4 by lia.
  - rewrite lookup_cons_ne_0 by lia. replace (pred (N.to_nat k)) with (N.to_nat (k - 1)) by lia.
    rewrite (Hk (k - 1)) by lia. by replace (off + 4 + 4 * (k - 1)) with (off + 4 * k) by lia.
Qed.

Lemma process_chunk_spec {E} st chunk : len chunk = 64 -> @process_chunk E st chunk = Ok (rfc_block st chunk).
Proof.
  intros Hl. unfold process_chunk. destruct (@chunk_words_spec E chunk 16 0) as (ws & Hw & Hk); [lia|].
  rewrite Hw, bind_ok. rewrite (steps_are_rounds ws (fun k => le_value chunk.[4 * k; 4])), bind_ok by (intros k Hlt; by rewrite Hk).
  unfold rfc_block. destruct st as [[[a0 b0] c0] d0]. by destruct (foldl _ _ _) as [[[a b] c] d].
Qed.

Lemma process_chunks_spec {E} q fuel st msg : len msg = 64 * N.of_nat q -> (q <= fuel)%nat ->
  @process_chunks E fuel st msg = Ok (foldl rfc_block st (blocks msg)).
Proof.
  revert fuel st msg. induction q as [|q IH]; intros fuel st msg Hl Hf.
  - destruct msg; [|rewrite len_cons in Hl; lia]. by destruct fuel.
  - destruct fuel as [|fuel]; [lia|]. cbn [process_chunks]. destruct msg as [|x msg']; [by rewrite len_nil in Hl; lia|].
    set (msg := x :: msg') in *. assert (Hlt : (length msg = 64 * Datatypes.S q)%nat) by (unfold len in Hl; lia).
    rewrite process_chunk_spec, bind_ok by (unfold len; rewrite length_take; lia).
    rewrite IH by (first [unfold len; rewrite length_drop; lia | lia]).
    unfold blocks. replace (len msg / 64) with (N.of_nat (Datatypes.S q)) by (rewrite Hl, N.mul_comm, N.div_mul; done).
    replace (len (drop 64 msg) / 64) with (N.of_nat q).
    2:{ unfold len. rewrite length_drop, Hlt. replace (N.of_nat (64 * Datatypes.S q - 64)) with (N.of_nat q * 64) by lia. by rewrite N.div_mul. }
    rewrite !Nat2N.id. cbn [seq map foldl]. rewrite <- seq_shift, map_map. do 2 f_equal.
    apply map_ext. intros i. unfold read_at. rewrite drop_drop. do 2 f_equal. lia.
Qed.

Lemma push_zeros_spec {E} z fuel msg : (z <= fuel)%nat -> (len msg + N.of_nat z) mod 64 = 56 ->
  (forall j, (j < z)%nat -> (len msg + N.of_nat j) mod 64 <> 56) -> @push_zeros E fuel msg = Ok (msg ++ replicate z 0).
Proof.
  revert fuel msg. induction z as [|z IH]; intros fuel msg Hf Hz Hn.
  - rewrite N.add_0_r in Hz. rewrite app_nil_r. destruct fuel; cbn [push_zeros]; by rewrite Hz.
  - destruct fuel as [|fuel]; [lia|]. cbn [push_zeros]. pose proof (Hn 0%nat ltac:(lia)) as H0. rewrite N.add_0_r in H0.
    rewrite (proj2 (N.eqb_neq _ _) H0), IH; [by rewrite <- app_assoc|lia| |].
    + rewrite len_app, len_cons, len_nil. rewrite <- Hz. f_equal. lia.
    + intros j Hj. rewrite len_app, len_cons, len_nil. pose proof (Hn (Datatypes.S j) ltac:(lia)) as Hj'. intros E1. apply Hj'. rewrite <- E1. f_equal. lia.
Qed.

Lemma le_bytes_mod n v : le_bytes n (v mod 256 ^ N.of_nat n) = le_bytes n v.
Proof.
  revert v. induction n as [|n IH]; intros v; [done|]. cbn [le_bytes]. rewrite pow256_succ.
  rewrite N.Div0.mod_mul_r. f_equal.
  - rewrite N.mul_comm, N.Div0.mod_add. by rewrite N.Div0.mod_mod.
  - rewrite N.mul_comm, N.div_add by lia. rewrite N.div_small by (apply N.mod_lt; lia). apply IH.
Qed.

#[local] Ltac Zify.zify_post_hook ::= Z.to_euclidean_division_equations.

Lemma pad_spec {E} data : @pad E data = Ok (rfc_pad data) /\ len (rfc_pad data) mod 64 = 0.
Proof.
  assert (Hz : rfc_zeros (len data) < 64) by (apply N.mod_lt; lia).
  assert (Hs : (len data + 1 + rfc_zeros (len data)) mod 64 = 56) by (unfold rfc_zeros; lia).
  split.
  - unfold pad. rewrite (push_zeros_spec (N.to_nat (rfc_zeros (len data)))), bind_ok.
    + unfold rfc_pad, u64, wrap. rewrite <- !app_assoc. cbn [app]. change (2 ^ 64) with (256 ^ N.of_nat 8). by rewrite (le_bytes_mod 8 (8 * len data)).
    + lia.
    + rewrite len_app, len_cons, len_nil, N2Nat.id. done.
    + intros j Hj. rewrite len_app, len_cons, len_nil. unfold rfc_zeros in *. lia.
  - unfold rfc_pad. autorewrite with lens. lia.
Qed.

(** The digest is the one of RFC 1321, for data of any length, and is 16 bytes long:
    the code neither panics nor runs out of the fuel its loops are given. *)
Theorem md5_follows_rfc1321 {E} data :
  @md5_digest E data = Ok (rfc_digest data) /\ len (rfc_digest data) = 16 /\ bytes_ok (rfc_digest data).
Proof.
  destruct (@pad_spec E data) as [Hp Hl]. split.
  - unfold md5_digest. rewrite Hp, bind_ok. rewrite (process_chunks_spec (N.to_nat (len (rfc_pad data) / 64))), bind_ok.
    + unfold rfc_digest. by destruct (foldl _ _ _) as [[[a b] c] d].
    + lia.
    + unfold len. lia.
  - unfold rfc_digest. destruct (foldl _ _ _) as [[[a b] c] d]. split; [by autorewrite with lens|].
    rewrite !Forall_app. auto using le_bytes_ok.
Qed.

(** The vectors of the RFC. *)
Example md5_empty : @md5_hex Empty_set [] = Ok (text "d41d8cd98f00b204e9800998ecf8427e").
Proof. vm_compute. reflexivity. Qed.

Example md5_alphabet : @md5_hex Empty_set (text "abcdefghijklmnopqrstuvwxyz") = Ok (text "c3fcd3d76192e4007dfb496cca67e13b").
Proof. vm_compute. reflexivity. Qed.

End Md5.
