(* ===== verification/ServerProto.v ===== *)
(** * The PostgreSQL wire protocol

    Models [crates/server/src/proto.rs].  The reader is the bytes the client has yet
    to send, the writer the bytes sent so far; strings are their UTF-8 bytes.  A
    slice out of range is a panic.  The messages a client sends are read back as
    they were, and what the server writes can be split into messages again. *)

From stdpp Require Import gmap strings.
From S2P Require Import Prelude Bytes Strings.

Module Proto.

Inductive ErrorKind : Type := UnexpectedEof | InvalidData | PermissionDenied | Other.
#[global] Instance ErrorKind_eq_dec : EqDecision ErrorKind.
Proof. solve_decision. Defined.

Record IoError : Type := mkIo { kind : ErrorKind; message : list N }.
Abbreviation io_result := (outcome IoError).

(** [read_exact] of [n] bytes. *)
Definition read_exact (n : N) (r : list N) : io_result (list N * list N) :=
  if len r <? n then Err (mkIo UnexpectedEof (text "failed to fill whole buffer"))
  else Ok (r.[0; n], drop (N.to_nat n) r).

(** [std::str::from_utf8(b)], or the empty string if that fails. *)
Definition utf8_or_empty (b : list N) : list N := if utf8_valid b then b else [].

(** ** Cursors *)

(** [while pos < data.len() && data[pos] != 0 { pos += 1 }] *)
Fixpoint find_nul (data : list N) (pos : N) : N :=
  match data with
  | [] => pos
  | b :: r => if b =? 0 then pos else find_nul r (pos + 1)
  end.

Definition read_cstr (data : list N) (pos : N) : io_result (list N * N) :=
  let stop := find_nul (drop (N.to_nat pos) data) pos in
  s ← slice data pos stop;
  Ok (utf8_or_empty s, if stop <? len data then stop + 1 else stop).

Definition cstr_from_payload (payload : list N) : list N :=
  utf8_or_empty (take (N.to_nat (find_nul payload 0)) payload).

Definition read_u16 (data : list N) (pos : N) : N * N :=
  if len data <? pos + 2 then (0, pos) else (be_value data.[pos; 2], pos + 2).

Definition read_i16 (data : list N) (pos : N) : Z * N :=
  if len data <? pos + 2 then (0%Z, pos) else (to_signed 16 (be_value data.[pos; 2]), pos + 2).

Definition read_i32 (data : list N) (pos : N) : Z * N :=
  if len data <? pos + 4 then ((-1)%Z, pos) else (to_signed 32 (be_value data.[pos; 4]), pos + 4).

(** ** Startup *)

Definition PROTOCOL_VERSION : N := 196608.
Definition SSL_REQUEST_CODE : N := 80877103.
Definition CANCEL_REQUEST_CODE : N := 80877102.

Record StartupMessage : Type := mkStartup { protocol_version : N; params : gmap (list N) (list N) }.

Fixpoint startup_params (fuel : nat) (payload : list N) (pos : N) (ps : gmap (list N) (list N))
    : io_result (gmap (list N) (list N)) :=
  if len payload <=? pos then Ok ps
  else match fuel with
  | O => Panic
  | S fuel =>
      '(key, pos) ← read_cstr payload pos;
      if decide (key = []) then Ok ps
      else
        '(val, pos) ← read_cstr payload pos;
        startup_params fuel payload pos (<[key := val]> ps)
  end.

Definition read_startup (r : list N) : io_result (StartupMessage * list N) :=
  '(len_buf, r) ← read_exact 4 r;
  let length := be_value len_buf in
  if length <? 8 then Err (mkIo InvalidData (text "startup message too short"))
  else
    '(payload, r) ← read_exact (length - 4) r;
    let version := be_value payload.[0; 4] in
    ps ← (if negb (version =? SSL_REQUEST_CODE) && negb (version =? CANCEL_REQUEST_CODE)
          then startup_params (S (List.length payload)) payload 4 ∅ else Ok ∅);
    Ok (mkStartup version ps, r).

(** ** Frontend messages *)

Inductive FrontendMsg : Type :=
| Query (sql : list N)
| Parse (name query : list N) (param_types : list N)
| Bind (portal statement : list N) (param_formats : list Z) (params : list (option (list N))) (result_formats : list Z)
| Execute (portal : list N) (max_rows : N)
| Describe (kind : N) (name : list N)
| Sync
| Flush
| Close (kind : N) (name : list N)
| Terminate
| CopyData (data : list N)
| CopyDone
| CopyFail (msg : list N)
| PasswordMessage (pw : list N).

(** The type list of [Parse] stops growing at the end of the payload. *)
Fixpoint read_types (n : nat) (payload : list N) (pos : N) : list N :=
  match n with
  | O => []
  | S n =>
      if pos + 4 <=? len payload then be_value payload.[pos; 4] :: read_types n payload (pos + 4)
      else read_types n payload pos
  end.

Fixpoint read_i16s (n : nat) (payload : list N) (pos : N) : list Z * N :=
  match n with
  | O => ([], pos)
  | S n =>
      let '(v, pos) := read_i16 payload pos in
      let '(vs, pos) := read_i16s n payload pos in (v :: vs, pos)
  end.

Fixpoint read_params (n : nat) (payload : list N) (pos : N) : io_result (list (option (list N)) * N) :=
  match n with
  | O => Ok ([], pos)
  | S n =>
      let '(plen, pos) := read_i32 payload pos in
      '(p, pos) ← (if (plen <? 0)%Z then Ok (None, pos)
                   else
                     let l := Z.to_N plen in
                     bytes ← slice payload pos (pos + l); Ok (Some bytes, pos + l));
      '(ps, pos) ← read_params n payload pos;
      Ok (p :: ps, pos)
  end.

Definition parse_parse (payload : list N) : io_result FrontendMsg :=
  '(name, pos) ← read_cstr payload 0;
  '(query, pos) ← read_cstr payload pos;
  let nparams := if pos + 2 <=? len payload then be_value payload.[pos; 2] else 0 in
  Ok (Parse name query (read_types (N.to_nat nparams) payload (pos + 2))).

Definition parse_bind (payload : list N) : io_result FrontendMsg :=
  '(portal, pos) ← read_cstr payload 0;
  '(statement, pos) ← read_cstr payload pos;
  let '(nfmt, pos) := read_u16 payload pos in
  let '(param_formats, pos) := read_i16s (N.to_nat nfmt) payload pos in
  let '(nparams, pos) := read_u16 payload pos in
  '(params, pos) ← read_params (N.to_nat nparams) payload pos;
  let '(nresult, pos) := read_u16 payload pos in
  let '(result_formats, pos) := read_i16s (N.to_nat nresult) payload pos in
  Ok (Bind portal statement param_formats params result_formats).

Definition parse_execute (payload : list N) : io_result FrontendMsg :=
  '(portal, pos) ← read_cstr payload 0;
  Ok (Execute portal (if pos + 4 <=? len payload then be_value payload.[pos; 4] else 0)).

(** Describe and Close: a kind and a name. *)
Definition parse_named (msg : N -> list N -> FrontendMsg) (payload : list N) : io_result FrontendMsg :=
  match payload with
  | [] => Ok (msg 0 [])
  | kind :: _ => '(name, _) ← read_cstr payload 1; Ok (msg kind name)
  end.

Definition parse_frontend_message (msg_type : N) (payload : list N) : io_result FrontendMsg :=
  if msg_type =? 81 then Ok (Query (cstr_from_payload payload))
  else if msg_type =? 80 then parse_parse payload
  else if msg_type =? 66 then parse_bind payload
  else if msg_type =? 69 then parse_execute payload
  else if msg_type =? 68 then parse_named Describe payload
  else if msg_type =? 83 then Ok Sync
  else if msg_type =? 72 then Ok Flush
  else if msg_type =? 67 then parse_named Close payload
  else if msg_type =? 88 then Ok Terminate
  else if msg_type =? 112 then Ok (PasswordMessage (cstr_from_payload payload))
  else if msg_type =? 100 then Ok (CopyData payload)
  else if msg_type =? 99 then Ok CopyDone
  else if msg_type =? 102 then Ok (CopyFail (cstr_from_payload payload))
  else Err (mkIo InvalidData (text "unknown frontend message type: " ++ latin1 msg_type)).

Definition read_message (r : list N) : io_result (FrontendMsg * list N) :=
  '(type_buf, r) ← read_exact 1 r;
  '(len_buf, r) ← read_exact 4 r;
  let length := be_value len_buf in
  if length <? 4 then Err (mkIo InvalidData (text "message length too short"))
  else
    '(payload, r) ← (if 0 <? length - 4 then read_exact (length - 4) r else Ok ([], r));
    m ← parse_frontend_message (be_value type_buf) payload;
    Ok (m, r).

(** ** Backend messages

    The bytes each writer appends. *)

Definition send_msg (msg_type : N) (body : list N) : list N :=
  [msg_type] ++ be_bytes 4 (u32 (len body + 4)) ++ body.

Definition write_field (code : N) (value : list N) : list N := [code] ++ value ++ [0].

Definition ssl_decline : list N := [78].
Definition auth_ok : list N := send_msg 82 (be_bytes 4 0).
Definition auth_md5_challenge (salt : list N) : list N := send_msg 82 (be_bytes 4 5 ++ salt).
Definition parameter_status (name value : list N) : list N := send_msg 83 (name ++ [0] ++ value ++ [0]).
Definition backend_key_data (pid secret_key : N) : list N := send_msg 75 (be_bytes 4 pid ++ be_bytes 4 secret_key).
Definition ready_for_query (status : N) : list N := send_msg 90 [status].

Definition type_size (type_oid : N) : Z :=
  if (type_oid =? 16) || (type_oid =? 18) then 1
  else if type_oid =? 20 then 8
  else if type_oid =? 23 then 4
  else if type_oid =? 700 then 4
  else if type_oid =? 701 then 8
  else -1.

Definition column_description (c : list N * N) : list N :=
  c.1 ++ [0] ++ be_bytes 4 0 ++ be_bytes 2 0 ++ be_bytes 4 c.2 ++ be_bytes 2 (of_signed 16 (type_size c.2)) ++
  be_bytes 4 (of_signed 32 (-1)) ++ be_bytes 2 0.

Definition row_description (columns : list (list N * N)) : list N :=
  send_msg 84 (be_bytes 2 (u16 (len columns)) ++ concat (map column_description columns)).

(** The values with their null flags, of which there must be one for each value. *)
Fixpoint data_values (values : list (list N)) (nulls : list bool) : io_result (list N) :=
  match values, nulls with
  | [], _ => Ok []
  | v :: values, null :: nulls =>
      rest ← data_values values nulls;
      Ok ((if (null : bool) then be_bytes 4 (of_signed 32 (-1)) else be_bytes 4 (u32 (len v)) ++ v) ++ rest)
  | _ :: _, [] => Panic
  end.

Definition data_row (values : list (list N)) (nulls : list bool) : io_result (list N) :=
  vs ← data_values values nulls;
  Ok (send_msg 68 (be_bytes 2 (u16 (len values)) ++ vs)).

Definition command_complete (tag : list N) : list N := send_msg 67 (tag ++ [0]).

Definition report (severity sqlstate msg : list N) : list N :=
  write_field 83 severity ++ write_field 86 severity ++ write_field 67 sqlstate ++ write_field 77 msg ++ [0].

Definition error_response (severity sqlstate msg : list N) : list N := send_msg 69 (report severity sqlstate msg).
Definition notice_response (msg : list N) : list N := send_msg 78 (report (text "NOTICE") (text "00000") msg).

Definition parse_complete : list N := send_msg 49 [].
Definition bind_complete : list N := send_msg 50 [].
Definition no_data : list N := send_msg 110 [].
Definition empty_query_response : list N := send_msg 73 [].
Definition close_complete : list N := send_msg 51 [].
Definition portal_suspended : list N := send_msg 115 [].
Definition parameter_description (param_types : list N) : list N :=
  send_msg 116 (be_bytes 2 (u16 (len param_types)) ++ concat (map (be_bytes 4) param_types)).

(** ** What a client sends *)

Definition cstr (s : list N) : list N := s ++ [0].
Definition frame (msg_type : N) (body : list N) : list N := msg_type :: be_bytes 4 (len body + 4) ++ body.

Definition param_bytes (p : option (list N)) : list N :=
  match p with
  | None => be_bytes 4 (of_signed 32 (-1))
  | Some b => be_bytes 4 (len b) ++ b
  end.

Definition i16_bytes (v : Z) : list N := be_bytes 2 (of_signed 16 v).

Definition frontend_body (m : FrontendMsg) : N * list N :=
  match m with
  | Query sql => (81, cstr sql)
  | Parse name query types => (80, cstr name ++ cstr query ++ be_bytes 2 (len types) ++ concat (map (be_bytes 4) types))
  | Bind portal statement pf ps rf =>
      (66, cstr portal ++ cstr statement ++ be_bytes 2 (len pf) ++ concat (map i16_bytes pf) ++
           be_bytes 2 (len ps) ++ concat (map param_bytes ps) ++ be_bytes 2 (len rf) ++ concat (map i16_bytes rf))
  | Execute portal max_rows => (69, cstr portal ++ be_bytes 4 max_rows)
  | Describe kind name => (68, kind :: cstr name)
  | Sync => (83, [])
  | Flush => (72, [])
  | Close kind name => (67, kind :: cstr name)
  | Terminate => (88, [])
  | CopyData data => (100, data)
  | CopyDone => (99, [])
  | CopyFail msg => (102, cstr msg)
  | PasswordMessage pw => (112, cstr pw)
  end.

Definition frontend_bytes (m : FrontendMsg) : list N := frame (frontend_body m).1 (frontend_body m).2.

(** A string without a zero byte, and the fields in the range of their types. *)
Definition cstr_ok (s : list N) : Prop := utf8_valid s = true /\ 0 ∉ s.
Definition i16_ok (v : Z) : Prop := (- 2 ^ 15 <= v < 2 ^ 15)%Z.
Definition param_ok (p : option (list N)) : Prop := match p with None => True | Some b => len b < 2 ^ 31 end.

Definition fields_ok (m : FrontendMsg) : Prop :=
  match m with
  | Query s | CopyFail s | PasswordMessage s => cstr_ok s
  | Parse name query types => cstr_ok name /\ cstr_ok query /\ len types < 2 ^ 16 /\ Forall (fun t => t < 2 ^ 32) types
  | Bind portal statement pf ps rf =>
      cstr_ok portal /\ cstr_ok statement /\ (len pf < 2 ^ 16 /\ Forall i16_ok pf) /\ (len ps < 2 ^ 16 /\ Forall param_ok ps) /\
      (len rf < 2 ^ 16 /\ Forall i16_ok rf)
  | Execute portal max_rows => cstr_ok portal /\ max_rows < 2 ^ 32
  | Describe kind name | Close kind name => kind < 256 /\ cstr_ok name
  | Sync | Flush | Terminate | CopyData _ | CopyDone => True
  end.

Definition frontend_ok (m : FrontendMsg) : Prop := fields_ok m /\ len (frontend_body m).2 + 4 < 2 ^ 32.

(** ** Reading it back *)

Lemma read_exact_chunk n r rest : len r = n -> read_exact n (r ++ rest) = Ok (r, rest).
Proof.
  intros <-. unfold read_exact. rewrite len_app. case_cmp; [lia|]. rewrite read_at_prefix, len_length, drop_app_length by done. done.
Qed.

Lemma find_nul_spec s rest pos : 0 ∉ s -> find_nul (s ++ 0 :: rest) pos = pos + len s.
Proof.
  revert pos. induction s as [|b s IH]; intros pos Hn; cbn [app find_nul]; [unfold len; cbn; lia|].
  apply not_elem_of_cons in Hn as [Hb Hn]. rewrite (proj2 (N.eqb_neq b 0)) by done. rewrite IH, len_cons by done. lia.
Qed.

Lemma read_cstr_at d pos s rest : cstr_ok s -> at_pos d pos (cstr s ++ rest) ->
  read_cstr d pos = Ok (s, pos + len s + 1) /\ at_pos d (pos + len s + 1) rest.
Proof.
  intros [Hu Hn] Hat. unfold cstr in Hat. rewrite <- app_assoc in Hat. destruct (at_chunk _ _ _ _ Hat) as (Hr & Hl & Hat1).
  destruct (at_chunk _ _ _ _ Hat1) as (_ & Hl1 & Hat2). rewrite len_cons, len_nil in *. split; [|done].
  unfold read_cstr. destruct Hat as [_ ->]. cbn [app]. rewrite find_nul_spec by done.
  rewrite slice_ok, bind_ok by lia. replace (pos + len s - pos) with (len s) by lia. rewrite Hr.
  unfold utf8_or_empty. rewrite Hu. case_cmp; [done|lia].
Qed.

Lemma cstr_from_payload_ok s : cstr_ok s -> cstr_from_payload (cstr s) = s.
Proof.
  intros [Hu Hn]. unfold cstr_from_payload, cstr. rewrite find_nul_spec by done.
  replace (N.to_nat (0 + len s)) with (length s) by (unfold len; lia). rewrite take_app_length. unfold utf8_or_empty. by rewrite Hu.
Qed.

Lemma be_at d pos n v rest : v < 256 ^ N.of_nat n -> at_pos d pos (be_bytes n v ++ rest) ->
  be_value d.[pos; N.of_nat n] = v /\ pos + N.of_nat n <= len d /\ at_pos d (pos + N.of_nat n) rest.
Proof.
  intros Hv Hat. destruct (at_chunk _ _ _ _ Hat) as (Hr & Hl & Hat1). rewrite len_be_bytes in *.
  rewrite Hr, be_value_be_bytes_small by done. done.
Qed.

Lemma read_u16_at d pos v rest : v < 2 ^ 16 -> at_pos d pos (be_bytes 2 v ++ rest) ->
  read_u16 d pos = (v, pos + 2) /\ at_pos d (pos + 2) rest.
Proof.
  intros Hv Hat. destruct (be_at d pos 2 v rest Hv Hat) as (Hr & Hl & Hat'). change (N.of_nat 2) with 2 in *.
  split; [|done]. unfold read_u16. case_cmp; [lia|]. by rewrite Hr.
Qed.

Lemma read_i16_at d pos v rest : i16_ok v -> at_pos d pos (i16_bytes v ++ rest) ->
  read_i16 d pos = (v, pos + 2) /\ at_pos d (pos + 2) rest.
Proof.
  intros Hv Hat. destruct (be_at d pos 2 _ rest (of_signed_lt 16 v) Hat) as (Hr & Hl & Hat'). change (N.of_nat 2) with 2 in *.
  split; [|done]. unfold read_i16. case_cmp; [lia|]. rewrite Hr, to_of_signed; [done|done|exact Hv].
Qed.

Lemma read_i16s_at d vs pos rest : Forall i16_ok vs -> at_pos d pos (concat (map i16_bytes vs) ++ rest) ->
  exists pos', read_i16s (length vs) d pos = (vs, pos') /\ at_pos d pos' rest.
Proof.
  intros Hvs. revert pos. induction Hvs as [|v vs Hv _ IH]; intros pos Hat; cbn [length read_i16s map concat] in *; [by exists pos|].
  rewrite <- app_assoc in Hat. apply read_i16_at in Hat as [-> Hat]; [|done]. destruct (IH _ Hat) as (pos' & -> & Hat'). by exists pos'.
Qed.

(** A counted list of 16-bit integers. *)
Lemma counted_i16s d vs pos rest : len vs < 2 ^ 16 -> Forall i16_ok vs ->
  at_pos d pos (be_bytes 2 (len vs) ++ concat (map i16_bytes vs) ++ rest) ->
  exists pos1 pos', read_u16 d pos = (len vs, pos1) /\ read_i16s (N.to_nat (len vs)) d pos1 = (vs, pos') /\ at_pos d pos' rest.
Proof.
  intros Hl Hvs Hat. apply read_u16_at in Hat as [-> Hat]; [|done]. rewrite len_length.
  destruct (read_i16s_at d vs _ rest Hvs Hat) as (pos' & Hr & Hat'). by exists (pos + 2), pos'.
Qed.

Lemma read_i32_at d pos v rest : (- 2 ^ 31 <= v < 2 ^ 31)%Z -> at_pos d pos (be_bytes 4 (of_signed 32 v) ++ rest) ->
  read_i32 d pos = (v, pos + 4) /\ at_pos d (pos + 4) rest.
Proof.
  intros Hv Hat. destruct (be_at d pos 4 _ rest (of_signed_lt 32 v) Hat) as (Hr & Hl & Hat'). change (N.of_nat 4) with 4 in *.
  split; [|done]. unfold read_i32. case_cmp; [lia|]. rewrite Hr, to_of_signed; [done|done|exact Hv].
Qed.

Lemma of_signed_pos w n : n < 2 ^ w -> of_signed w (Z.of_N n) = n.
Proof. intros Hn. unfold of_signed. rewrite Z.mod_small by lia. lia. Qed.

Lemma read_params_at d ps pos rest : Forall param_ok ps -> at_pos d pos (concat (map param_bytes ps) ++ rest) ->
  exists pos', read_params (length ps) d pos = Ok (ps, pos') /\ at_pos d pos' rest.
Proof.
  intros Hps. revert pos. induction Hps as [|p ps Hp _ IH]; intros pos Hat; cbn [length read_params map concat] in *; [by exists pos|].
  rewrite <- app_assoc in Hat. destruct p as [b|]; cbn [param_bytes param_ok] in *.
  - rewrite <- app_assoc, <- (of_signed_pos 32 (len b)) in Hat by lia. apply read_i32_at in Hat as [-> Hat]; [|lia].
    rewrite (proj2 (Z.ltb_ge _ _)) by lia. rewrite N2Z.id. destruct (at_chunk _ _ _ _ Hat) as (Hr & Hl & Hat').
    rewrite slice_ok, bind_ok by lia. replace (pos + 4 + len b - (pos + 4)) with (len b) by lia. rewrite Hr.
    destruct (IH _ Hat') as (pos' & Hi & Hat2). exists pos'. rewrite bind_ok, Hi, bind_ok. done.
  - apply read_i32_at in Hat as [-> Hat]; [|lia]. destruct (IH _ Hat) as (pos' & Hi & Hat2). exists pos'. cbn [Z.ltb Z.compare].
    rewrite bind_ok, Hi, bind_ok. done.
Qed.

Lemma read_types_at d ts pos : Forall (fun t => t < 2 ^ 32) ts -> at_pos d pos (concat (map (be_bytes 4) ts)) ->
  read_types (length ts) d pos = ts.
Proof.
  intros Hts. revert pos. induction Hts as [|t ts Ht _ IH]; intros pos Hat; cbn [length read_types map concat] in *; [done|].
  destruct (be_at d pos 4 t _ Ht Hat) as (Hr & Hl & Hat'). change (N.of_nat 4) with 4 in *. case_cmp; [|lia].
  by rewrite Hr, (IH _ Hat').
Qed.

Lemma parse_parse_ok name query types : cstr_ok name -> cstr_ok query -> len types < 2 ^ 16 -> Forall (fun t => t < 2 ^ 32) types ->
  parse_parse (frontend_body (Parse name query types)).2 = Ok (Parse name query types).
Proof.
  intros Hn Hq Hl Ht. cbn [frontend_body snd]. set (d := _ ++ _). pose proof (at_start d) as Hat. unfold d in Hat at 2.
  unfold parse_parse. apply read_cstr_at in Hat as [-> Hat]; [|done]. rewrite bind_ok.
  apply read_cstr_at in Hat as [-> Hat]; [|done]. rewrite bind_ok.
  destruct (be_at _ _ 2 _ _ Hl Hat) as (Hr & Hle & Hat'). change (N.of_nat 2) with 2 in *. case_cmp; [|lia].
  by rewrite Hr, len_length, (read_types_at _ _ _ Ht Hat').
Qed.

Lemma parse_bind_ok portal statement pf ps rf : fields_ok (Bind portal statement pf ps rf) ->
  parse_bind (frontend_body (Bind portal statement pf ps rf)).2 = Ok (Bind portal statement pf ps rf).
Proof.
  intros (Hp & Hs & [Hlf Hf] & [Hlp Hps] & [Hlr Hr]). cbn [frontend_body snd]. set (d := _ ++ _).
  pose proof (at_start d) as Hat. unfold d in Hat at 2. unfold parse_bind.
  apply read_cstr_at in Hat as [-> Hat]; [|done]. rewrite bind_ok. apply read_cstr_at in Hat as [-> Hat]; [|done]. rewrite bind_ok.
  apply counted_i16s in Hat as (p1 & p2 & -> & -> & Hat); [|done|done].
  apply read_u16_at in Hat as [-> Hat]; [|done]. rewrite len_length.
  apply read_params_at in Hat as (p3 & -> & Hat); [|done]. rewrite bind_ok.
  rewrite <- (app_nil_r (concat (map i16_bytes rf))) in Hat. by apply counted_i16s in Hat as (p4 & p5 & -> & -> & Hat).
Qed.

Lemma parse_execute_ok portal n : cstr_ok portal -> n < 2 ^ 32 ->
  parse_execute (frontend_body (Execute portal n)).2 = Ok (Execute portal n).
Proof.
  intros Hp Hn. cbn [frontend_body snd]. set (d := _ ++ _). pose proof (at_start d) as Hat. unfold d in Hat at 2.
  unfold parse_execute. apply read_cstr_at in Hat as [-> Hat]; [|done]. rewrite bind_ok.
  rewrite <- (app_nil_r (be_bytes 4 n)) in Hat. destruct (be_at _ _ 4 _ _ Hn Hat) as (Hr & Hle & _). change (N.of_nat 4) with 4 in *.
  case_cmp; [|lia]. by rewrite Hr.
Qed.

Lemma parse_named_ok msg kind name : cstr_ok name -> parse_named msg (kind :: cstr name) = Ok (msg kind name).
Proof.
  intros Hn. unfold parse_named. assert (Hat : at_pos (kind :: cstr name) 1 (cstr name ++ [])).
  { rewrite app_nil_r. split; [rewrite len_cons; lia|done]. }
  apply read_cstr_at in Hat as [-> _]; [|done]. done.
Qed.

Lemma parse_frontend_ok m : fields_ok m -> parse_frontend_message (frontend_body m).1 (frontend_body m).2 = Ok m.
Proof.
  intros Hm. unfold parse_frontend_message. destruct m; cbn [fst N.eqb Pos.eqb]; cbn [fields_ok] in Hm.
  all: try done; cbn [snd frontend_body]; rewrite ?cstr_from_payload_ok by done; try done.
  - destruct Hm as (? & ? & ? & ?). by apply parse_parse_ok.
  - by apply parse_bind_ok.
  - destruct Hm. by apply parse_execute_ok.
  - destruct Hm. by apply parse_named_ok.
  - destruct Hm. by apply parse_named_ok.
Qed.

Lemma read_message_ok m rest : frontend_ok m -> read_message (frontend_bytes m ++ rest) = Ok (m, rest).
Proof.
  intros [Hf Hl]. unfold frontend_bytes. destruct (frontend_body m) as [t body] eqn:Eb. cbn [fst snd] in *.
  unfold frame. unfold read_message. cbn [app]. change (t :: (be_bytes 4 (len body + 4) ++ body) ++ rest) with ([t] ++ (be_bytes 4 (len body + 4) ++ body) ++ rest).
  rewrite read_exact_chunk, bind_ok by done.
  rewrite <- app_assoc, read_exact_chunk, bind_ok, be_value_be_bytes_small by (done || by rewrite len_be_bytes).
  rewrite (proj2 (N.ltb_ge _ _)) by lia. replace (len body + 4 - 4) with (len body) by lia.
  assert (Hp : (if 0 <? len body then read_exact (len body) (body ++ rest) else Ok ([], body ++ rest)) = Ok (body, rest)).
  { case_cmp; [by apply read_exact_chunk|]. destruct body; [done|]. rewrite len_cons in *. lia. }
  rewrite Hp, bind_ok. change (be_value [t]) with (t + 256 * 0). rewrite N.add_0_r.
  pose proof (parse_frontend_ok m Hf) as Hpar. rewrite Eb in Hpar. cbn [fst snd] in Hpar. by rewrite Hpar, bind_ok.
Qed.

(** Every message a client sends is read back, and the reader stands at the next
    one: nothing of a message is lost, added or left in the stream. *)
Theorem read_message_roundtrip m rest : frontend_ok m -> read_message (frontend_bytes m ++ rest) = Ok (m, rest).
Proof. apply read_message_ok. Qed.

Lemma cstr_check s : utf8_valid s && forallb (fun b => negb (b =? 0)) s = true -> cstr_ok s.
Proof.
  intros [Hu Hf]%andb_true_iff. split; [done|]. rewrite forallb_forall in Hf. intros Hin%list_elem_of_In%Hf. done.
Qed.

Definition sample_bind : FrontendMsg := Bind [] (text "s1") [0%Z; 1%Z] [Some (text "42"); None] [(-1)%Z].

Lemma sample_bind_ok : frontend_ok sample_bind.
Proof.
  split; [|done]. cbn [sample_bind fields_ok]. split_and!.
  - by apply cstr_check.
  - by apply cstr_check.
  - done.
  - repeat constructor; unfold i16_ok; lia.
  - done.
  - by repeat constructor.
  - done.
  - repeat constructor; unfold i16_ok; lia.
Qed.

Lemma read_message_roundtrip_witness : read_message (frontend_bytes sample_bind ++ [83]) = Ok (sample_bind, [83]).
Proof. apply read_message_roundtrip. exact sample_bind_ok. Defined.

(** A Bind message whose parameter claims more bytes than the message has makes the
    reader panic. *)
Theorem bind_length_panics : read_message (frame 66 (cstr [] ++ cstr [] ++ be_bytes 2 0 ++ be_bytes 2 1 ++ be_bytes 4 100)) = Panic.
Proof. vm_compute. reflexivity. Qed.

(** ** The startup message *)

Definition startup_bytes (version : N) (kvs : list (list N * list N)) : list N :=
  let body := be_bytes 4 version ++ concat (map (fun kv => cstr kv.1 ++ cstr kv.2) kvs) ++ [0] in
  be_bytes 4 (len body + 4) ++ body.

Definition insert_params (ps : gmap (list N) (list N)) (kvs : list (list N * list N)) : gmap (list N) (list N) :=
  foldl (fun ps kv => <[kv.1 := kv.2]> ps) ps kvs.

Lemma startup_params_at d kvs fuel pos ps : Forall (fun kv => kv.1 <> [] /\ cstr_ok kv.1 /\ cstr_ok kv.2) kvs ->
  (length kvs < fuel)%nat -> at_pos d pos (concat (map (fun kv => cstr kv.1 ++ cstr kv.2) kvs) ++ [0]) ->
  startup_params fuel d pos ps = Ok (insert_params ps kvs).
Proof.
  intros Hk. revert fuel pos ps. induction Hk as [|[k v] kvs (Hne & Hck & Hcv) _ IH]; intros [|fuel] pos ps Hf Hat;
    [cbn in Hf; lia| |cbn in Hf; lia|]; cbn [startup_params insert_params foldl map concat app] in *.
  - destruct (at_chunk d pos [0] []) as (_ & Hl & _); [done|]. rewrite len_cons, len_nil in Hl. rewrite (proj2 (N.leb_gt _ _)) by lia.
    assert (Hat0 : at_pos d pos (cstr [] ++ [])) by exact Hat. apply read_cstr_at in Hat0 as [-> _]; [|split; [done|set_solver]].
    rewrite bind_ok. by rewrite decide_True.
  - destruct (at_chunk _ _ _ _ Hat) as (_ & Hl & _). unfold cstr in Hl at 1. rewrite !len_app, len_cons, len_nil in Hl.
    rewrite (proj2 (N.leb_gt _ _)) by lia. rewrite <- !app_assoc in Hat. cbn [fst snd] in *.
    apply read_cstr_at in Hat as [-> Hat]; [|done]. rewrite bind_ok, decide_False by done.
    apply read_cstr_at in Hat as [-> Hat]; [|done]. rewrite bind_ok. apply IH; [cbn in Hf; lia|done].
Qed.

Lemma read_startup_ok version kvs rest :
  version < 2 ^ 32 -> version <> SSL_REQUEST_CODE -> version <> CANCEL_REQUEST_CODE ->
  Forall (fun kv => kv.1 <> [] /\ cstr_ok kv.1 /\ cstr_ok kv.2) kvs ->
  len (startup_bytes version kvs) < 2 ^ 32 ->
  read_startup (startup_bytes version kvs ++ rest) = Ok (mkStartup version (insert_params ∅ kvs), rest).
Proof.
  intros Hv Hs Hc Hk Hl. unfold startup_bytes in *. set (body := be_bytes 4 version ++ _) in *.
  assert (Hb : len body >= 5) by (unfold body; rewrite !len_app, len_be_bytes, len_cons, len_nil; lia).
  rewrite len_app, len_be_bytes in Hl. unfold read_startup. rewrite <- app_assoc, read_exact_chunk, bind_ok by (by rewrite len_be_bytes).
  rewrite be_value_be_bytes_small by (change (256 ^ N.of_nat 4) with (2 ^ 32); lia).
  rewrite (proj2 (N.ltb_ge _ _)) by lia. rewrite read_exact_chunk, bind_ok by lia.
  assert (Hat : at_pos body 0 (be_bytes 4 version ++ concat (map (fun kv => cstr kv.1 ++ cstr kv.2) kvs) ++ [0])) by apply at_start.
  destruct (be_at _ _ 4 _ _ Hv Hat) as (Hr & _ & Hat'). change (N.of_nat 4) with 4 in *. rewrite Hr.
  rewrite (proj2 (N.eqb_neq _ _) Hs), (proj2 (N.eqb_neq _ _) Hc). cbn [negb andb].
  rewrite (startup_params_at body kvs); [done|done| |done].
  assert (Hlen : forall l : list (list N * list N), (length l <= length (concat (map (fun kv => cstr kv.1 ++ cstr kv.2) l)))%nat).
  { intros l. induction l as [|[k v] l IH]; [done|]. cbn [map concat length fst snd]. rewrite !length_app. unfold cstr at 1. rewrite length_app. cbn. lia. }
  specialize (Hlen kvs). unfold body. rewrite !length_app. lia.
Qed.

(** The startup message is read back with its parameters, the last value of a
    repeated one. *)
Theorem read_startup_roundtrip version kvs rest :
  version < 2 ^ 32 -> version <> SSL_REQUEST_CODE -> version <> CANCEL_REQUEST_CODE ->
  Forall (fun kv => kv.1 <> [] /\ cstr_ok kv.1 /\ cstr_ok kv.2) kvs ->
  len (startup_bytes version kvs) < 2 ^ 32 ->
  read_startup (startup_bytes version kvs ++ rest) = Ok (mkStartup version (insert_params ∅ kvs), rest).
Proof. apply read_startup_ok. Qed.

Lemma read_startup_roundtrip_witness :
  read_startup (startup_bytes PROTOCOL_VERSION [(text "user", text "ana")] ++ [1]) =
  Ok (mkStartup PROTOCOL_VERSION {[ text "user" := text "ana" ]}, [1]).
Proof.
  apply (read_startup_roundtrip PROTOCOL_VERSION [(text "user", text "ana")] [1]); [done..| |done].
  constructor; [|constructor]. split_and!; [done|by apply cstr_check..].
Defined.

(** ** What the client reads *)

(** A client splits the stream at the lengths. *)
Fixpoint split_messages (fuel : nat) (r : list N) : option (list (N * list N)) :=
  match fuel, r with
  | _, [] => Some []
  | O, _ => None
  | S fuel, t :: r =>
      let n := be_value r.[0; 4] in
      if (len r <? 4) || (n <? 4) || (len r <? n) then None
      else (cons (t, r.[4; n - 4])) <$> split_messages fuel (drop (N.to_nat n) r)
  end.

Lemma split_messages_app t body r fuel : len body + 4 < 2 ^ 32 ->
  split_messages (S fuel) (send_msg t body ++ r) = (cons (t, body)) <$> split_messages fuel r.
Proof.
  intros Hl. unfold send_msg, u32, wrap. rewrite N.mod_small, <- !app_assoc by done. cbn [app split_messages].
  assert (Hn : be_value (be_bytes 4 (len body + 4) ++ body ++ r).[0; 4] = len body + 4).
  { rewrite read_at_prefix by (by rewrite len_be_bytes). by apply be_value_be_bytes_small. }
  rewrite Hn, !len_app, len_be_bytes. change (N.of_nat 4) with 4.
  rewrite !(proj2 (N.ltb_ge _ _)) by lia. cbn [orb]. replace (len body + 4 - 4) with (len body) by lia.
  rewrite app_assoc, (read_at_app_l _ r) by (rewrite len_app, len_be_bytes; lia).
  rewrite read_at_app_r by (rewrite len_be_bytes; lia). rewrite len_be_bytes, read_at_all by lia.
  replace (N.to_nat (len body + 4)) with (length (be_bytes 4 (len body + 4) ++ body)) by
    (rewrite <- (Nat2N.id (length _)); fold (len (be_bytes 4 (len body + 4) ++ body)); rewrite len_app, len_be_bytes; lia).
  by rewrite drop_app_length.
Qed.

End Proto.
