(* ===== verification/ServerSession.v ===== *)
(** * Sessions: values on the wire and statement parameters

    Models [crates/server/src/session.rs] but for opening the files of a database:
    the text form of values, prepared statements and portals, and the substitution
    of parameters into the text of a statement.  Substituted into a statement made
    of tokens, a parameter becomes one literal token; inside a string literal of the
    statement it does not. *)

From stdpp Require Import gmap strings.
From Stdlib Require Import SpecFloat.
From S2P Require Import Prelude Bytes Strings Float64 SqlToken SqlLexer SqlTokenText SqlValue SqlExpr.

Module Session.
Import Value.

Record QueryResult : Type := mkQuery {
  columns : list (list N);
  rows : list (list Value);
  rows_affected : N;
  tag : list N
}.

Definition empty_result : QueryResult := mkQuery [] [] 0 [].

Record PreparedStmt : Type := mkStmt { name : list N; query : list N; param_types : list N }.

Record Portal : Type := mkPortal {
  stmt : PreparedStmt;
  params : list (option (list N));
  param_formats : list Z;
  result_formats : list Z;
  portal_result : option QueryResult;
  cursor : N
}.

(** ** Values *)

Definition value_type_oid (v : Value) : N :=
  match v with
  | Bool _ => 16
  | Int64 _ => 20
  | Float64 _ => 701
  | Text _ => 25
  | Null => 25
  end.

(** The text and whether the value is null. *)
Definition encode_value_text (v : Value) : list N * bool :=
  match v with
  | Null => ([], true)
  | Bool b => (text (if b then "t" else "f"), false)
  | Int64 n => (Z_to_string n, false)
  | Float64 f =>
      match f with
      | S754_nan => (text "NaN", false)
      | S754_infinity neg => (text (if neg then "-Infinity" else "Infinity"), false)
      | _ => (f64_to_string f, false)
      end
  | Text s => (s, false)
  end.

(** ** Parameters *)

(** [s.parse::<i64>().is_ok()] *)
Definition is_i64_text (s : list N) : bool :=
  let '(neg, ds) := match s with
                    | c :: r => if c =? 45 then (true, r) else if c =? 43 then (false, r) else (false, s)
                    | [] => (false, s)
                    end in
  match ds with
  | [] => false
  | _ => forallb is_digit ds && (digits_value ds <? (if (neg : bool) then 2 ^ 63 + 1 else 2 ^ 63))
  end.

(** The texts that go into the statement as they are. *)
Definition is_bare (s : list N) : bool :=
  is_i64_text s || bool_decide (is_Some (f64_from_str s)) ||
  bool_decide (s = text "t") || bool_decide (s = text "f") || bool_decide (s = text "true") || bool_decide (s = text "false").

(** [s.replace]: every single quote doubled. *)
Definition replace_quotes (s : list N) : list N := concat (map (fun c => if c =? 39 then [39; 39] else [c]) s).

Definition param_text (p : option (list N)) (format : Z) : list N :=
  match p with
  | None => text "NULL"
  | Some bytes =>
      if (format =? 1)%Z then
        if len bytes =? 8 then Z_to_string (to_signed 64 (be_value bytes)) else text "NULL"
      else
        let s := from_utf8_lossy bytes in
        if is_bare s then s else [39] ++ replace_quotes s ++ [39]
  end.

(** What the digits behind a dollar sign stand for. *)
Definition placeholder (ds : list N) (params : list (option (list N))) (formats : list Z) : option (list N) :=
  match ds with
  | [] => None
  | _ =>
      if digits_value ds <? 2 ^ 64 then
        if (1 <=? digits_value ds) && (digits_value ds <=? len params) then
          let i := N.to_nat (digits_value ds - 1) in
          p ← params !! i;
          Some (param_text p (default 0%Z (formats !! i)))
        else None
      else None
  end.

(** The loop over the bytes of the statement; [skip] bytes belong to a placeholder
    that has been replaced. *)
Fixpoint substitute_loop (skip : nat) (l : list N) (params : list (option (list N))) (formats : list Z) : list N :=
  match l with
  | [] => []
  | b :: r =>
      match skip with
      | S skip => substitute_loop skip r params formats
      | O =>
          let ds := (span is_digit r).1 in
          match (if b =? 36 then placeholder ds params formats else None) with
          | Some t => t ++ substitute_loop (length ds) r params formats
          | None => latin1 b ++ substitute_loop 0 r params formats
          end
      end
  end.

Definition substitute_params (sql : list N) (params : list (option (list N))) (formats : list Z) : list N :=
  match params with [] => sql | _ => substitute_loop 0 sql params formats end.

(** ** Statements with placeholders *)

Inductive piece : Type := Tok (t : Token) | Slot (i : N).

Definition piece_text (p : piece) : list N :=
  32 :: match p with Tok t => TokenText.print_token t | Slot i => 36 :: N_to_string i end.

Definition template (ps : list piece) : list N := concat (map piece_text ps).

(** The token a parameter becomes: NULL, a nonnegative integer in binary, or a text
    that does not look like a number or a truth value. *)
Definition param_token (p : option (list N)) (format : Z) : option Token :=
  match p with
  | None => Some KNull
  | Some bytes =>
      if (format =? 1)%Z then
        if len bytes =? 8 then
          let n := to_signed 64 (be_value bytes) in
          if (0 <=? n)%Z && (n <? 2 ^ 63)%Z then Some (IntLiteral n) else None
        else Some KNull
      else if is_ascii bytes && negb (is_bare bytes) then Some (StringLiteral bytes) else None
  end.

Definition slot_token (params : list (option (list N))) (formats : list Z) (i : N) : option Token :=
  if (1 <=? i) && (i <=? len params) then
    p ← params !! N.to_nat (i - 1); param_token p (default 0%Z (formats !! N.to_nat (i - 1)))
  else None.

Definition piece_token (params : list (option (list N))) (formats : list Z) (p : piece) : option Token :=
  match p with Tok t => Some t | Slot i => slot_token params formats i end.

Section Substitution.
Context `{UnicodeCase}.

Definition piece_ok (p : piece) : bool :=
  match p with
  | Tok t => TokenText.printable t && forallb (fun b => (b <? 128) && negb (b =? 36)) (TokenText.print_token t)
  | Slot _ => true
  end.

Lemma replace_quotes_escape s : replace_quotes s = TokenText.escape s.
Proof.
  induction s as [|c s IH]; [done|]. unfold replace_quotes in *. cbn [map concat TokenText.escape]. rewrite IH. by destruct (c =? 39).
Qed.

Lemma param_text_token p f t : param_token p f = Some t -> param_text p f = TokenText.print_token t /\ TokenText.printable t = true.
Proof.
  unfold param_token, param_text. destruct p as [bytes|]; [|by intros [= <-]].
  destruct (f =? 1)%Z.
  - destruct (len bytes =? 8); [|by intros [= <-]]. destruct (_ && _) eqn:E; [|done]. intros [= <-]. done.
  - destruct (is_ascii bytes) eqn:Ea; cbn [andb]; [|done]. destruct (is_bare bytes) eqn:Eb; cbn [negb]; [done|]. intros [= <-].
    rewrite (from_utf8_lossy_valid bytes (utf8_ascii _ Ea)), Eb. cbn [TokenText.print_token TokenText.printable app]. by rewrite replace_quotes_escape.
Qed.

Lemma substitute_plain a r ps fs : forallb (fun b => (b <? 128) && negb (b =? 36)) a = true ->
  substitute_loop 0 (a ++ r) ps fs = a ++ substitute_loop 0 r ps fs.
Proof.
  induction a as [|b a IH]; [done|]. cbn [forallb]. intros [[Hb Hd]%andb_true_iff Ha]%andb_true_iff. cbn [app substitute_loop].
  apply negb_true_iff in Hd. unfold latin1. rewrite Hd, Hb. cbn [app]. f_equal. by apply IH.
Qed.

Lemma substitute_skip ds r ps fs : substitute_loop (length ds) (ds ++ r) ps fs = substitute_loop 0 r ps fs.
Proof. induction ds as [|d ds IH]; [done|]. exact IH. Qed.

Lemma placeholder_slot i ps fs t : slot_token ps fs i = Some t -> i < 2 ^ 64 ->
  placeholder (N_to_string i) ps fs = Some (TokenText.print_token t) /\ TokenText.printable t = true.
Proof.
  unfold slot_token, placeholder. destruct (_ && _) eqn:E; [|done]. intros Ht Hi.
  destruct (N_to_string_spec i) as (Hv & _ & Hne). destruct (N_to_string i) as [|d ds]; [done|].
  rewrite Hv, (proj2 (N.ltb_lt _ _) Hi), E. destruct (ps !! N.to_nat (i - 1)) as [p|]; [|done]. cbn in Ht |- *.
  apply param_text_token in Ht as [-> ?]. done.
Qed.

Lemma substitute_template ps fs l ts : l <> [] -> Forall (fun p => piece_ok p = true) ps ->
  mapM (piece_token l fs) ps = Some ts -> len l < 2 ^ 64 ->
  substitute_loop 0 (template ps) l fs = TokenText.print_tokens ts /\ Forall (fun t => TokenText.printable t = true) ts.
Proof.
  intros Hne Hok Hm Hl. revert ts Hm. induction Hok as [|p ps Hp _ IH]; intros ts Hm.
  { injection Hm as <-. done. }
  cbn [mapM] in Hm. apply bind_Some in Hm as (t & Ht & Hm). apply bind_Some in Hm as (ts' & Hts & [= <-]).
  destruct (IH ts' Hts) as [He Hpr]. unfold template in *. cbn [map concat]. change (TokenText.print_tokens (t :: ts'))
    with ((32 :: TokenText.print_token t) ++ TokenText.print_tokens ts'). destruct p as [t'|i]; cbn [piece_token piece_ok piece_text] in *.
  - injection Ht as <-. apply andb_true_iff in Hp as [Hpt Hpl]. rewrite substitute_plain by exact Hpl.
    rewrite He. by split; [|constructor].
  - assert (Hi : i < 2 ^ 64).
    { unfold slot_token in Ht. destruct (_ && _) eqn:E; [|done]. apply andb_true_iff in E as [_ E%N.leb_le]. lia. }
    destruct (placeholder_slot i l fs t Ht Hi) as [Hpl Hpt].
    change (piece_text (Slot i)) with (32 :: 36 :: N_to_string i). cbn [app substitute_loop]. change (32 =? 36) with false. cbn iota.
    change (36 =? 36) with true. cbn iota. assert (Hsp : span is_digit (N_to_string i ++ concat (map piece_text ps)) = (N_to_string i, concat (map piece_text ps))).
    { apply TokenText.span_exact; [apply N_to_string_spec|done|]. by destruct ps. }
    rewrite Hsp. cbn [fst]. rewrite Hpl, substitute_skip, He. split; [|by constructor]. change (latin1 32) with [32]. done.
Qed.

(** C17: A parameter cannot change the structure of a statement.  The statement is made of
    tokens, each behind a space, in ASCII text without a dollar sign and without
    float literals, and of placeholders [$i] of parameters that were sent, at least
    one.  The parameters are NULL, ASCII
    texts that do not look like a number or a truth value, eight bytes in binary that are a
    non-negative integer, and binary values of other lengths, which count as NULL.  Then after the
    substitution the lexer reads the same tokens, with one literal for each
    placeholder: a string of exactly the parameter's text, quotes and all, NULL, or the integer.
    Texts that look like a number or a truth value are inserted bare, and non-ASCII
    ones are garbled by the lexer: both are outside, as is a placeholder inside a
    string literal. *)
Theorem parameters_are_literals ps fs l ts : l <> [] -> len l < 2 ^ 64 -> Forall (fun p => piece_ok p = true) ps ->
  mapM (piece_token l fs) ps = Some ts ->
  Lexer.tokenize (substitute_params (template ps) l fs) = Ok (ts ++ [EOF]).
Proof.
  intros Hne Hl Hok Hm. unfold substitute_params. destruct l as [|p l]; [done|].
  destruct (substitute_template ps fs (p :: l) ts Hne Hok Hm Hl) as [-> Hp]. by apply TokenText.tokenize_print.
Qed.

End Substitution.

#[local] Instance ascii_only : UnicodeCase := ascii_unicode.

(** [SELECT * FROM t WHERE name = $1 AND n = $2], with a hostile first parameter. *)
Definition hostile : list N := text "x' OR 'a' = 'a".
Definition by_name : list piece :=
  [Tok KSelect; Tok TStar; Tok KFrom; Tok (Ident (text "t")); Tok KWhere; Tok (Ident (text "nm")); Tok TEq; Slot 1;
   Tok KAnd; Tok (Ident (text "n")); Tok TEq; Slot 2].

Lemma parameters_are_literals_witness :
  Lexer.tokenize (substitute_params (template by_name) [Some hostile; Some (be_bytes 8 7)] [0%Z; 1%Z]) =
  Ok [KSelect; TStar; KFrom; Ident (text "t"); KWhere; Ident (text "nm"); TEq; StringLiteral hostile;
      KAnd; Ident (text "n"); TEq; IntLiteral 7; EOF].
Proof.
  apply (parameters_are_literals by_name [0%Z; 1%Z] [Some hostile; Some (be_bytes 8 7)]
    [KSelect; TStar; KFrom; Ident (text "t"); KWhere; Ident (text "nm"); TEq; StringLiteral hostile;
     KAnd; Ident (text "n"); TEq; IntLiteral 7]); [done|done|repeat constructor|by vm_compute].
Defined.

(** A placeholder inside a string literal is replaced as well, and the quotes of the
    parameter end the literal: the parameter becomes a part of the statement. *)
Theorem placeholder_in_literal_injects :
  Lexer.tokenize (substitute_params (text "SELECT 'cost: $1'") [Some (text ", secret FROM t --")] []) =
  Ok [KSelect; StringLiteral (text "cost: "); Comma; Ident (text "secret"); KFrom; Ident (text "t"); EOF].
Proof. vm_compute. reflexivity. Qed.

(** A text parameter [t] or [nan] becomes a column name. *)
Theorem bare_parameters_are_names :
  Lexer.tokenize (substitute_params (text "SELECT $1, $2") [Some (text "t"); Some (text "nan")] []) =
  Ok [KSelect; Ident (text "t"); Comma; Ident (text "nan"); EOF].
Proof. vm_compute. reflexivity. Qed.

End Session.
