(* ===== verification/ServerConnection.v ===== *)
(** * A client connection

    Models [crates/server/src/connection.rs] for connections without TLS: startup
    and authentication, the simple and the extended query protocol, the SQL-level
    PREPARE and EXECUTE, and the message loop.  The state of a connection has the
    bytes the client has yet to send and the messages written so far, of which a
    prefix has been flushed; writing to the socket does not fail.  The database is a
    parameter behind the mutex the connections share: a statement that panics while
    the mutex is locked poisons it. *)

From stdpp Require Import gmap strings.
From S2P Require Import Prelude Bytes Strings SqlValue ServerProto ServerSession.

Module Connection.
Import Proto Session.

(** [DbHandle::execute]: the result of a statement, or the text of an error. *)
Class Database (DB : Type) := { db_execute : list N -> DB -> DB * outcome (list N) QueryResult }.

Record Mutex (DB : Type) : Type := mkMutex { guarded : DB; poisoned : bool }.
Arguments mkMutex {DB} _ _. Arguments guarded {DB} _. Arguments poisoned {DB} _.

Record Connection : Type := mkConn {
  reader : list N;
  out : list (list N);
  flushed : nat;
  prepared : gmap (list N) PreparedStmt;
  portals : gmap (list N) Portal;
  pid : N;
  secret_key : N;
  tx_status : N;
  require_auth : bool
}.

(** ** Helpers *)

Definition pseudo_rand (seed : N) : N := wadd 32 (u32 (seed * 1664525)) 1013904223.

Definition new_with_auth (input : list N) (pid : N) (require_auth : bool) : Connection :=
  mkConn input [] 0 ∅ ∅ pid (pseudo_rand pid) 73 require_auth.

(** [s.contains(t)] and [s.find(t)], as the byte position. *)
Definition starts_with (p s : list N) : bool := bool_decide (is_Some (strip_prefix p s)).

Fixpoint find_text (t s : list N) : option N :=
  if starts_with t s then Some 0
  else match s with [] => None | _ :: r => N.succ <$> find_text t r end.

Definition contains (s t : list N) : bool := bool_decide (is_Some (find_text t s)).

(** [s.get(n..)] *)
Definition get_from (n : N) (s : list N) : option (list N) :=
  if (n <=? len s) && is_char_boundary s n then Some (drop (N.to_nat n) s) else None.

Definition trim_start_matches (c : N) (l : list N) : list N := (span (N.eqb c) l).2.
Definition trim_end_matches (c : N) (l : list N) : list N := reverse (trim_start_matches c (reverse l)).

(** The loop of [split_sql_args] over the text. *)
Fixpoint split_args_loop (s current : list N) (in_string : bool) (args : list (list N)) : list (list N) :=
  match s with
  | [] => if decide (trim current = []) then args else args ++ [trim current]
  | ch :: s =>
      if ch =? 39 then split_args_loop s (current ++ [ch]) (negb in_string) args
      else if (ch =? 44) && negb in_string then split_args_loop s [] in_string (args ++ [trim current])
      else split_args_loop s (current ++ [ch]) in_string args
  end.
Definition split_sql_args (s : list N) : list (list N) := split_args_loop s [] false [].

Definition columns_with_oids (r : QueryResult) : list (list N * N) :=
  imap (fun i name =>
    (name, match head (rows r) with
           | Some row => match row !! i with Some v => value_type_oid v | None => 25 end
           | None => 25
           end)) (columns r).

Definition does_not_exist (what name : list N) : list N :=
  what ++ [32; 34] ++ name ++ [34] ++ text " does not exist".

(** The rows as messages. *)
Definition row_message (row : list Value.Value) : io_result (list N) :=
  let cells := map encode_value_text row in
  data_row (map fst cells) (map snd cells).

Section Connection.
Context {DB : Type} `{Database DB} `{UnicodeCase}.

Definition sqlstate_for_error (msg : list N) : list N * list N :=
  let lower := to_lowercase msg in
  if contains lower (text "does not exist") || contains lower (text "no such table") then (text "42P01", text "ERROR")
  else if contains lower (text "already exists") then (text "42P07", text "ERROR")
  else if contains lower (text "syntax error") || contains lower (text "parse error") then (text "42601", text "ERROR")
  else if contains lower (text "column") && contains lower (text "unknown") then (text "42703", text "ERROR")
  else (text "XX000", text "ERROR").

(** ** The effects *)

Record State : Type := mkState { conn : Connection; db : Mutex DB }.

Definition serve (A : Type) : Type := State -> State * io_result A.

#[global] Instance serve_ret : MRet serve := fun A a s => (s, Ok a).
#[global] Instance serve_bind : MBind serve := fun A B k m s =>
  match m s with
  | (s, Ok a) => k a s
  | (s, Err e) => (s, Err e)
  | (s, Panic) => (s, Panic)
  end.

Definition lift {A} (r : io_result A) : serve A := fun s => (s, r).
Definition get {A} (f : Connection -> A) : serve A := fun s => (s, Ok (f (conn s))).
Definition modify (f : Connection -> Connection) : serve () := fun s => (mkState (f (conn s)) (db s), Ok ()).

Definition set_out (ms : list (list N)) (c : Connection) : Connection :=
  mkConn (reader c) ms (flushed c) (prepared c) (portals c) (pid c) (secret_key c) (tx_status c) (require_auth c).
Definition set_reader (r : list N) (c : Connection) : Connection :=
  mkConn r (out c) (flushed c) (prepared c) (portals c) (pid c) (secret_key c) (tx_status c) (require_auth c).
Definition set_flushed (n : nat) (c : Connection) : Connection :=
  mkConn (reader c) (out c) n (prepared c) (portals c) (pid c) (secret_key c) (tx_status c) (require_auth c).
Definition set_prepared (m : gmap (list N) PreparedStmt) (c : Connection) : Connection :=
  mkConn (reader c) (out c) (flushed c) m (portals c) (pid c) (secret_key c) (tx_status c) (require_auth c).
Definition set_portals (m : gmap (list N) Portal) (c : Connection) : Connection :=
  mkConn (reader c) (out c) (flushed c) (prepared c) m (pid c) (secret_key c) (tx_status c) (require_auth c).
Definition set_status (st : N) (c : Connection) : Connection :=
  mkConn (reader c) (out c) (flushed c) (prepared c) (portals c) (pid c) (secret_key c) st (require_auth c).

Definition write (m : list N) : serve () := modify (fun c => set_out (out c ++ [m]) c).
Definition flush : serve () := modify (fun c => set_flushed (length (out c)) c).

(** A read takes its bytes from the stream. *)
Definition read {A} (f : list N -> io_result (A * list N)) : serve A := fun s =>
  match f (reader (conn s)) with
  | Ok (a, r) => (mkState (set_reader r (conn s)) (db s), Ok a)
  | Err e => (s, Err e)
  | Panic => (s, Panic)
  end.

(** [self.db.lock().unwrap().execute(sql)]: locking a poisoned mutex panics, and a
    panic of the statement poisons it. *)
Definition execute (sql : list N) : serve (list N + QueryResult) := fun s =>
  if poisoned (db s) then (s, Panic)
  else
    match db_execute sql (guarded (db s)) with
    | (d, Ok r) => (mkState (conn s) (mkMutex d false), Ok (inr r))
    | (d, Err msg) => (mkState (conn s) (mkMutex d false), Ok (inl msg))
    | (d, Panic) => (mkState (conn s) (mkMutex d true), Panic)
    end.

Fixpoint write_rows (rs : list (list Value.Value)) : serve () :=
  match rs with
  | [] => mret ()
  | row :: rs => m ← lift (row_message row); _ ← write m; write_rows rs
  end.

Definition write_error (msg : list N) : serve () :=
  let '(code, sev) := sqlstate_for_error msg in write (error_response sev code msg).

(** ** The simple query protocol *)

Definition send_query_result (r : QueryResult) : serve () :=
  _ ← (if decide (columns r = []) then mret ()
       else _ ← write (row_description (columns_with_oids r)); write_rows (rows r));
  write (command_complete (if decide (tag r = []) then text "OK" else tag r)).

(** [PREPARE name [(types)] AS query]: whether it was understood. *)
Definition handle_prepare_sql (sql : list N) : serve bool :=
  match get_from 8 (trim sql) with
  | None => mret false
  | Some rest =>
      let rest := trim rest in
      match find_text (text " AS ") (to_uppercase rest) with
      | None => mret false
      | Some as_pos =>
          name_part ← lift (str_slice rest 0 as_pos);
          query ← lift (str_slice rest (as_pos + 4) (len rest));
          let name_part := trim name_part in
          let nm := match split_first 40 name_part with Some (a, _) => trim a | None => name_part end in
          _ ← modify (fun c => set_prepared (<[nm := mkStmt nm (trim query) []]> (prepared c)) c);
          mret true
      end
  end.

(** [EXECUTE name [(args)]] *)
Definition handle_execute_sql (sql : list N) : serve (list N + QueryResult) :=
  match get_from 8 (trim sql) with
  | None => mret (inl (text "invalid EXECUTE"))
  | Some rest =>
      let rest := trim rest in
      let '(nm, args) := match split_first 40 rest with Some (a, b) => (trim a, Some (40 :: b)) | None => (rest, None) end in
      ps ← get prepared;
      match ps !! nm with
      | None => mret (inl (does_not_exist (text "prepared statement") nm))
      | Some st =>
          let q := match args with
                   | Some args =>
                       let inner := trim_end_matches 41 (trim_start_matches 40 (trim args)) in
                       let vals := map Some (split_sql_args inner) in
                       substitute_params (query st) vals (replicate (length vals) 0%Z)
                   | None => query st
                   end in
          execute q
      end
  end.

Definition answer (r : list N + QueryResult) : serve () :=
  match r with
  | inr r => send_query_result r
  | inl msg => _ ← write_error msg; modify (set_status 69)
  end.

(** One statement of a batch. *)
Definition simple_statement (sql : list N) : serve () :=
  let upper := to_uppercase (trim sql) in
  if starts_with (text "SET ") upper then write (command_complete (text "SET"))
  else if starts_with (text "SHOW ") upper then
    _ ← write (row_description [(text "value", 25)]); write (command_complete (text "SHOW"))
  else if starts_with (text "DEALLOCATE") upper then write (command_complete (text "DEALLOCATE"))
  else if starts_with (text "DISCARD") upper then write (command_complete (text "DISCARD"))
  else if starts_with (text "PREPARE ") upper then
    ok ← handle_prepare_sql sql;
    if (ok : bool) then write (command_complete (text "PREPARE"))
    else write (error_response (text "ERROR") (text "42601") (text "invalid PREPARE syntax"))
  else if starts_with (text "EXECUTE ") upper then r ← handle_execute_sql sql; answer r
  else r ← execute sql; answer r.

Fixpoint simple_statements (stmts : list (list N)) : serve () :=
  match stmts with [] => mret () | s :: stmts => _ ← simple_statement s; simple_statements stmts end.

(** [sql.split(';').map(str::trim).filter(|s| !s.is_empty())] *)
Definition batch (sql : list N) : list (list N) :=
  List.filter (fun s => negb (bool_decide (s = []))) (map trim (split 59 sql)).

Definition handle_simple_query (sql : list N) : serve () :=
  let sql := trim sql in
  if decide (sql = []) then
    _ ← write empty_query_response;
    st ← get tx_status;
    _ ← write (ready_for_query st);
    flush
  else
    _ ← simple_statements (batch sql);
    st ← get tx_status;
    _ ← write (ready_for_query st);
    _ ← (if st =? 69 then modify (set_status 73) else mret ());
    flush.

(** ** The extended query protocol *)

Definition handle_parse (nm q : list N) (types : list N) : serve () :=
  _ ← modify (fun c => set_prepared (<[nm := mkStmt nm q types]> (prepared c)) c);
  write parse_complete.

Definition handle_bind (portal statement : list N) (pf : list Z) (ps : list (option (list N))) (rf : list Z) : serve () :=
  stmts ← get prepared;
  match stmts !! statement with
  | None => write (error_response (text "ERROR") (text "26000") (does_not_exist (text "prepared statement") statement))
  | Some st =>
      _ ← modify (fun c => set_portals (<[portal := mkPortal st ps pf rf None 0]> (portals c)) c);
      write bind_complete
  end.

Definition is_select (q : list N) : bool := starts_with (text "SELECT") (to_uppercase (trim q)).

(** The description of the rows a statement gives, by running it. *)
Definition describe_query (q : list N) (ps : list (option (list N))) (fs : list Z) : serve () :=
  if is_select q then
    r ← execute (substitute_params q ps fs);
    match r with
    | inr r => if decide (columns r = []) then write no_data else write (row_description (columns_with_oids r))
    | inl _ => write no_data
    end
  else write no_data.

Definition handle_describe (kind : N) (nm : list N) : serve () :=
  if kind =? 83 then
    stmts ← get prepared;
    match stmts !! nm with
    | None => write (error_response (text "ERROR") (text "26000") (does_not_exist (text "prepared statement") nm))
    | Some st =>
        _ ← write (parameter_description (param_types st));
        describe_query (query st) [] []
    end
  else
    ps ← get portals;
    match ps !! nm with
    | None => write (error_response (text "ERROR") (text "34000") (does_not_exist (text "portal") nm))
    | Some p => describe_query (query (stmt p)) (params p) (param_formats p)
    end.

Definition with_result (r : QueryResult) (p : Portal) : Portal :=
  mkPortal (stmt p) (params p) (param_formats p) (result_formats p) (Some r) 0.
Definition with_cursor (n : N) (p : Portal) : Portal :=
  mkPortal (stmt p) (params p) (param_formats p) (result_formats p) (portal_result p) n.

(** The result of a portal, run if it has not been. *)
Definition portal_run (portal : list N) (p : Portal) : serve bool :=
  match portal_result p with
  | Some _ => mret true
  | None =>
      let q := substitute_params (query (stmt p)) (params p) (param_formats p) in
      r ← (if starts_with (text "SET ") (to_uppercase (trim q)) then mret (inr (mkQuery [] [] 0 (text "SET")))
           else execute q);
      match r with
      | inr r => _ ← modify (fun c => set_portals (alter (with_result r) portal (portals c)) c); mret true
      | inl msg => _ ← write_error msg; mret false
      end
  end.

(** The next rows of a portal that has been run. *)
Definition portal_rows (portal : list N) (max_rows : N) : serve () :=
  ps ← get portals;
  p ← lift (or_panic (ps !! portal));
  r ← lift (or_panic (portal_result p));
  let total := len (rows r) in
  let limit := if max_rows =? 0 then total else max_rows in
  let start := cursor p in
  let stop := N.min (start + limit) total in
  rs ← lift (slice (rows r) start stop);
  _ ← modify (fun c => set_portals (<[portal := with_cursor stop p]> (portals c)) c);
  _ ← (if decide (columns r = []) then mret ()
       else if start =? 0 then write (row_description (columns_with_oids r)) else mret ());
  _ ← write_rows rs;
  if stop <? total then write portal_suspended else write (command_complete (tag r)).

Definition handle_execute (portal : list N) (max_rows : N) : serve () :=
  ps ← get portals;
  match ps !! portal with
  | None => write (error_response (text "ERROR") (text "34000") (does_not_exist (text "portal") portal))
  | Some p =>
      ok ← portal_run portal p;
      if (ok : bool) then portal_rows portal max_rows else mret ()
  end.

(** ** The message loop *)

(** One message; whether the loop goes on. *)
Definition handle_message (m : FrontendMsg) : serve bool :=
  match m with
  | Query sql => _ ← handle_simple_query sql; mret true
  | Parse nm q types => _ ← handle_parse nm q types; mret true
  | Bind portal statement pf ps rf => _ ← handle_bind portal statement pf ps rf; mret true
  | Execute portal max_rows => _ ← handle_execute portal max_rows; mret true
  | Describe kind nm => _ ← handle_describe kind nm; mret true
  | Sync => st ← get tx_status; _ ← write (ready_for_query st); _ ← flush; mret true
  | Flush => _ ← flush; mret true
  | Close kind nm =>
      _ ← modify (fun c => if kind =? 83 then set_prepared (delete nm (prepared c)) c else set_portals (delete nm (portals c)) c);
      _ ← write close_complete;
      mret true
  | Terminate => mret false
  | CopyData _ | CopyDone | CopyFail _ | PasswordMessage _ => mret true
  end.

(** Every message takes at least five bytes of the stream. *)
Fixpoint message_loop (fuel : nat) : serve () :=
  match fuel with
  | O => lift Panic
  | S fuel => fun s =>
      match read read_message s with
      | (s, Ok m) => (go ← handle_message m; if (go : bool) then message_loop fuel else mret ()) s
      | (s, Err e) => (s, if decide (kind e = UnexpectedEof) then Ok () else Err e)
      | (s, Panic) => (s, Panic)
      end
  end.

Definition serve_messages : serve () := fun s => message_loop (S (length (reader (conn s)))) s.

(** ** Startup *)

Definition handle_startup : serve StartupMessage :=
  m ← read read_startup;
  if protocol_version m =? SSL_REQUEST_CODE then
    _ ← write ssl_decline; _ ← flush; read read_startup
  else if protocol_version m =? CANCEL_REQUEST_CODE then lift (Err (mkIo Other (text "cancel request")))
  else if negb (protocol_version m =? PROTOCOL_VERSION) then
    lift (Err (mkIo InvalidData (text "unsupported protocol version: " ++ N_to_string (protocol_version m))))
  else mret m.

Definition deny (code msg : list N) : serve () :=
  _ ← write (error_response (text "FATAL") code msg);
  _ ← flush;
  lift (Err (mkIo PermissionDenied (text "auth failed"))).

Definition authenticate : serve () :=
  p ← get pid;
  k ← get secret_key;
  _ ← write (auth_md5_challenge (be_bytes 4 (N.lxor k (u32 (p * 0x9e3779b9)))));
  _ ← flush;
  m ← read read_message;
  match m with
  | PasswordMessage pw =>
      if starts_with (text "md5") pw && negb (bool_decide (pw = [])) then mret ()
      else deny (text "28P01") (text "password authentication failed")
  | _ => deny (text "28000") (text "expected PasswordMessage")
  end.

Definition greeting (p k : N) : list (list N) :=
  [auth_ok; parameter_status (text "server_version") (text "15.0"); parameter_status (text "client_encoding") (text "UTF8");
   parameter_status (text "DateStyle") (text "ISO, MDY"); parameter_status (text "TimeZone") (text "UTC");
   parameter_status (text "integer_datetimes") (text "on"); parameter_status (text "standard_conforming_strings") (text "on");
   backend_key_data p k; ready_for_query 73].

Fixpoint write_all (ms : list (list N)) : serve () :=
  match ms with [] => mret () | m :: ms => _ ← write m; write_all ms end.

(** Access granted: the greeting and the loop. *)
Definition admit_client : serve () :=
  p ← get pid;
  k ← get secret_key;
  _ ← write_all (greeting p k);
  _ ← flush;
  serve_messages.

Definition run : serve () :=
  _ ← handle_startup;
  auth ← get require_auth;
  _ ← (if (auth : bool) then authenticate else mret ());
  admit_client.

End Connection.
End Connection.
