(* ===== verification/ServerEngine.v ===== *)
(** * The engine behind the connections

    Models [DbHandle::new] and [DbHandle::execute] of [crates/server/src/session.rs]: the database a
    connection's statements run on is the engine of [SqlEngine], with the errors turned
    to text.  What [format!] makes of a message, with the [Debug] output it holds, is
    a parameter. *)

From Stdlib Require Import Ascii String.
From stdpp Require Import gmap strings.
From S2P Require Import Prelude Strings Float64 StorageError StorageDisk StorageBufferPool StorageWal StorageTxn StorageHnsw SqlValue SqlToken SqlExpr SqlGroup SqlCatalog SqlEngine.
From S2P Require Import ServerSession ServerConnection.

Module Handle.
Section Handle.
Context {D : Type} `{PageStore D} `{SliceSort} `{UnicodeCase} `{Value.DebugFormat} `{Catalog.TableOrder}.
Context {Far : Hnsw.BinaryHeap Hnsw.cmp_far} {Near : Hnsw.BinaryHeap Hnsw.cmp_near}.
Context (crc32 : list N -> N) (ln : f64 -> f64) (fuel : nat) (now : N).
Context (parse_text : Message -> list N) (format : Fmt -> list N) (storage_debug : StorageError -> list N).

(** The engine of a new server, on the empty file [disk]. *)
Definition new (disk : D) : Engine.Db D :=
  Engine.mkDb Catalog.new (Pool.new 256 disk) Wal.create Txn.new Group.env0.

Definition query_result (r : Engine.QueryResult) : Session.QueryResult :=
  Session.mkQuery (Engine.result_columns r) (Engine.result_rows r) (Engine.rows_affected r) (Engine.tag r).

Definition error_text (e : SqlError) : list N :=
  match e with
  | ParseErr pe => text "syntax error: " ++ parse_text (message pe)
  | Semantic s | Execution s => format s
  | StorageErr s => text "storage error: " ++ storage_debug s
  end.

Definition execute (sql : list N) (db : Engine.Db D) : Engine.Db D * outcome (list N) Session.QueryResult :=
  let '(db, r) := Engine.execute crc32 ln fuel now sql db in
  (db, match r with
       | Ok r => Ok (query_result r)
       | Err e => Err (error_text e)
       | Panic => Panic
       end).

Definition engine_database : Connection.Database (Engine.Db D) := {| Connection.db_execute := execute |}.
End Handle.
End Handle.
