(* ===== verification/ServerServing.v ===== *)
(** * Serving a client

    What [ServerConnection.v] does with a stream of messages.  Until a statement
    panics, every message is handled: each Query and each Sync is answered by exactly
    one ReadyForQuery, with everything before it flushed, and no other message is.  A
    statement that panics ends the session with the mutex poisoned.  A portal hands
    out each row of its result once, in order.  Without the right kind of password
    nothing is executed; with any text that begins like one everything is. *)

From stdpp Require Import gmap strings.
From S2P Require Import Prelude Bytes Strings StorageDisk StorageHnswIndex SqlValue SqlCatalog SqlEngine ServerProto ServerSession ServerConnection ServerEngine.

Module Serving.
Import Proto Session Connection.

(** The type of a message is its first byte. *)
Definition is_ready (m : list N) : bool := bool_decide (head m = Some 90).
Definition ready_count (ms : list (list N)) : nat := length (List.filter is_ready ms).

(** The messages that are answered by ReadyForQuery. *)
Definition wants_ready (m : FrontendMsg) : bool := match m with Query _ | Sync => true | _ => false end.

Section Serving.
Context {DB : Type} `{Database DB} `{UnicodeCase}.
Implicit Types s : State (DB := DB).

Definition portal_ok (p : Portal) : Prop :=
  match portal_result p with Some r => cursor p <= len (rows r) | None => True end.

Record good s : Prop := {
  gd_mutex : poisoned (db s) = false;
  gd_portals : map_Forall (fun _ => portal_ok) (portals (conn s));
  gd_status : tx_status (conn s) = 73 \/ tx_status (conn s) = 69
}.

(** What an operation has done that ends well: it has written no ReadyForQuery, and
    has kept the transaction status or, if [b], may have set it to failed. *)
Definition quiet (b : bool) s s' : Prop :=
  exists ms, good s' /\ out (conn s') = out (conn s) ++ ms /\
    Forall (fun m => is_ready m = false) ms /\ flushed (conn s') = flushed (conn s) /\ reader (conn s') = reader (conn s) /\
    (tx_status (conn s') = tx_status (conn s) \/ b = true /\ tx_status (conn s') = 69).

(** A statement has panicked: it has left the database as it is, the mutex is
    poisoned, and no ReadyForQuery has been written. *)
Definition halted s s' : Prop :=
  poisoned (db s') = true /\ (exists sql d, db_execute sql d = (guarded (db s'), Panic)) /\
  exists ms, out (conn s') = out (conn s) ++ ms /\ Forall (fun m => is_ready m = false) ms.

(** An operation that gives a result with [Q] without a ReadyForQuery, or panics in a
    statement. *)
Definition calm {A} (b : bool) (op : serve A) (Q : A -> Prop) : Prop := forall s, good s ->
  (exists s' a, op s = (s', Ok a) /\ Q a /\ quiet b s s') \/ (exists s', op s = (s', Panic) /\ halted s s').

Lemma quiet_refl b s : good s -> quiet b s s.
Proof. intros Hs. exists []. rewrite app_nil_r. split_and!; auto. Qed.

Lemma quiet_trans b s1 s2 s3 : quiet b s1 s2 -> quiet b s2 s3 -> quiet b s1 s3.
Proof.
  intros (ms1 & Hs1 & Eo1 & Hn1 & Ef1 & Er1 & Es1) (ms2 & Hs2 & Eo2 & Hn2 & Ef2 & Er2 & Es2).
  exists (ms1 ++ ms2). split_and!; [done|by rewrite Eo2, Eo1, app_assoc|by apply Forall_app|congruence|congruence|].
  destruct Es2 as [->|?]; [done|by right].
Qed.

Lemma quiet_halted b s1 s2 s3 : quiet b s1 s2 -> halted s2 s3 -> halted s1 s3.
Proof.
  intros (ms1 & _ & Eo1 & Hn1 & _) (Hp & Hd & ms2 & Eo2 & Hn2). split_and!; [done..|].
  exists (ms1 ++ ms2). split; [by rewrite Eo2, Eo1, app_assoc|by apply Forall_app].
Qed.

Lemma calm_bind {A B} b (op : serve A) (k : A -> serve B) Q R :
  calm b op Q -> (forall a, Q a -> calm b (k a) R) -> calm b (op ≫= k) R.
Proof.
  intros Ho Hk s Hs. unfold mbind, serve_bind. destruct (Ho s Hs) as [(s1 & a & -> & Ha & Hq)|(s1 & -> & Hh)]; [|right; by exists s1].
  assert (Hs1 : good s1) by by destruct Hq as (? & ? & _).
  destruct (Hk a Ha s1 Hs1) as [(s2 & c & E2 & Hc & Hq2)|(s2 & E2 & Hh)].
  - left. exists s2, c. split_and!; [done|done|by eapply quiet_trans].
  - right. exists s2. split; [done|by eapply quiet_halted].
Qed.

Lemma calm_ret {A} b (a : A) (Q : A -> Prop) : Q a -> calm b (mret a) Q.
Proof. intros Ha s Hs. left. exists s, a. split_and!; [done..|by apply quiet_refl]. Qed.

Lemma calm_lift {A} b (a : A) (r : io_result A) (Q : A -> Prop) : r = Ok a -> Q a -> calm b (lift r) Q.
Proof. intros -> Ha. by apply calm_ret. Qed.

Lemma calm_get {A} b (f : Connection -> A) : calm b (get f) (fun _ => True).
Proof. intros s Hs. left. exists s, (f (conn s)). split_and!; [done..|by apply quiet_refl]. Qed.

Lemma calm_write b m : is_ready m = false -> calm b (write m) (fun _ => True).
Proof.
  intros Hm s Hs. left. do 2 eexists. split; [done|]. split; [done|]. exists [m]. split_and!; try done; [by destruct Hs| |by left]. by constructor.
Qed.

Lemma calm_modify b f : (forall c, out (f c) = out c /\ flushed (f c) = flushed c /\ reader (f c) = reader c /\
    (tx_status (f c) = tx_status c \/ b = true /\ tx_status (f c) = 69)) ->
  (forall c, map_Forall (fun _ => portal_ok) (portals c) -> map_Forall (fun _ => portal_ok) (portals (f c))) ->
  calm b (modify f) (fun _ => True).
Proof.
  intros Hf Hp s [Hm Hpo Hst]. destruct (Hf (conn s)) as (Eo & Ef & Er & Es). left. exists (mkState (f (conn s)) (db s)), ().
  split; [done|]. split; [done|]. exists []. rewrite app_nil_r. split; [|split_and!; done].
  split; [done|by apply Hp|]. cbn. destruct Es as [->|[_ ->]]; [done|by right].
Qed.

Lemma calm_execute b sql : calm b (execute sql) (fun _ => True).
Proof.
  intros s [Hm Hpo Hst]. unfold execute. rewrite Hm. destruct (db_execute sql (guarded (db s))) as [d [r|e|]] eqn:Ed.
  3:{ right. eexists. split; [done|]. split_and!; [done|by exists sql, (guarded (db s))|]. exists []. by rewrite app_nil_r. }
  all: left; do 2 eexists; split; [done|]; split; [done|]; exists []; rewrite app_nil_r; split_and!; (done || by split || by left).
Qed.

(** *** The handlers *)

Ltac calm_step :=
  first [apply calm_write; done|apply calm_get|apply calm_ret; done|apply calm_execute; done|eapply calm_bind; [|intros]].

Lemma send_msg_ready t body : t <> 90 -> is_ready (send_msg t body) = false.
Proof. intros Ht. unfold is_ready. apply bool_decide_eq_false_2. cbn. congruence. Qed.

Lemma cells_written (cells : list (list N * bool)) : exists vs, data_values (map fst cells) (map snd cells) = Ok vs.
Proof. induction cells as [|[v n] cells [vs IH]]; [by eexists|]. cbn [map fst snd data_values]. rewrite IH, bind_ok. by eexists. Qed.

Lemma row_message_ok row : exists m, row_message row = Ok m /\ is_ready m = false.
Proof.
  unfold row_message, data_row. destruct (cells_written (map encode_value_text row)) as [vs ->]. rewrite bind_ok.
  eexists. split; [done|]. by apply send_msg_ready.
Qed.

Lemma calm_write_rows b rs : calm b (write_rows rs) (fun _ => True).
Proof.
  induction rs as [|row rs IH]; [by apply calm_ret|]. cbn [write_rows]. destruct (row_message_ok row) as (m & Em & Hm).
  eapply calm_bind; [by apply (calm_lift _ m _ (fun x => x = m))|]. intros x ->. calm_step; [by apply calm_write|]. done.
Qed.

Lemma calm_write_error b msg : calm b (write_error msg) (fun _ => True).
Proof. unfold write_error. destruct (sqlstate_for_error msg). apply calm_write. by apply send_msg_ready. Qed.

Lemma calm_send b r : calm b (send_query_result r) (fun _ => True).
Proof.
  unfold send_query_result. eapply (calm_bind _ _ _ (fun _ => True)); [|intros _ _; apply calm_write; by apply send_msg_ready].
  case_decide; [by apply calm_ret|]. calm_step; [apply calm_write; by apply send_msg_ready|apply calm_write_rows].
Qed.

Lemma calm_answer r : calm true (answer r) (fun _ => True).
Proof.
  destruct r as [msg|r]; cbn [answer]; [|apply calm_send]. calm_step; [apply calm_write_error|].
  apply calm_modify; [|done]. intros c. split_and!; [done..|]. by right.
Qed.

Lemma calm_set_prepared (b : bool) (f : Connection -> gmap (list N) PreparedStmt) : calm b (modify (fun c => set_prepared (f c) c)) (fun _ => True).
Proof. apply calm_modify; [|done]. intros c. split_and!; [done..|]. by left. Qed.

Lemma ascii_boundary l i : is_ascii l = true -> i <= len l -> is_char_boundary l i = true.
Proof.
  intros Ha Hi. unfold is_char_boundary. destruct (N.eqb_spec i (len l)) as [|Hne]; [done|]. cbn [orb].
  destruct (lookup_lt_is_Some_2 l (N.to_nat i)) as [x Hx]; [unfold len in *; lia|]. rewrite Hx.
  unfold is_ascii in Ha. rewrite forallb_forall in Ha. apply list_elem_of_lookup_2, list_elem_of_In, Ha, N.ltb_lt in Hx.
  unfold cont, in_rng. apply negb_true_iff, andb_false_iff. left. apply N.leb_gt. lia.
Qed.

Lemma str_slice_ascii {E} l a b : is_ascii l = true -> a <= b -> b <= len l -> exists r, @str_slice E l a b = Ok r.
Proof.
  intros Ha Hab Hb. unfold str_slice. rewrite !ascii_boundary by (done || lia). rewrite (proj2 (N.leb_le _ _) Hab). by eexists.
Qed.

Lemma find_text_bound t l n : find_text t l = Some n -> n + len t <= len l.
Proof.
  revert n. induction l as [|x l IH]; intros n; cbn [find_text]; unfold starts_with.
  - case_bool_decide as E; [|done]. intros [= <-]. destruct t; [done|]. by destruct E.
  - case_bool_decide as E.
    + intros [= <-]. destruct E as [r Hr]. clear IH.
      assert (Hp : forall t l r, strip_prefix t l = Some r -> len t <= len l).
      { clear. induction t as [|c t IH]; intros [|y l] r; cbn [strip_prefix]; rewrite ?len_cons, ?len_nil; try lia; [done|].
        destruct (c =? y); [|done]. intros Hr. apply IH in Hr. lia. }
      apply Hp in Hr. lia.
    + destruct (find_text t l) as [k|] eqn:Ek; [|done]. intros [= <-]. rewrite len_cons. specialize (IH k eq_refl). lia.
Qed.

Lemma suffix_trim_start n l : (length l <= n)%nat -> trim_start l `suffix_of` l.
Proof.
  revert l. induction n as [|n IH]; intros l Hl; [by destruct l; [|cbn in Hl; lia]|].
  destruct l as [|a r1]; [done|]. cbn [trim_start]. cbn in Hl. destruct (is_ws1 a); [apply suffix_cons_r, IH; lia|].
  destruct r1 as [|b r2]; [done|]. cbn in Hl. destruct (is_ws2 a b); [apply suffix_cons_r, suffix_cons_r, IH; lia|].
  destruct r2 as [|c r3]; [done|]. cbn in Hl. destruct (is_ws3 a b c); [apply suffix_cons_r, suffix_cons_r, suffix_cons_r, IH; lia|done].
Qed.

Lemma suffix_trim_rev n l : (length l <= n)%nat -> trim_rev l `suffix_of` l.
Proof.
  revert l. induction n as [|n IH]; intros l Hl; [by destruct l; [|cbn in Hl; lia]|].
  destruct l as [|a r1]; [done|]. cbn [trim_rev]. cbn in Hl. destruct (is_ws1 a); [apply suffix_cons_r, IH; lia|].
  destruct r1 as [|b r2]; [done|]. cbn in Hl. destruct (is_ws2 b a); [apply suffix_cons_r, suffix_cons_r, IH; lia|].
  destruct r2 as [|c r3]; [done|]. cbn in Hl. destruct (is_ws3 c b a); [apply suffix_cons_r, suffix_cons_r, suffix_cons_r, IH; lia|done].
Qed.

Lemma ascii_reverse l : is_ascii (reverse l) = is_ascii l.
Proof.
  unfold is_ascii. apply eq_bool_prop_intro. rewrite !Is_true_true, !forallb_forall. setoid_rewrite <- list_elem_of_In.
  setoid_rewrite elem_of_reverse. done.
Qed.

Lemma ascii_trim l : is_ascii l = true -> is_ascii (trim l) = true.
Proof.
  intros Ha. unfold trim, trim_end. rewrite ascii_reverse. eapply is_ascii_suffix; [by eapply suffix_trim_rev|].
  rewrite ascii_reverse. eapply is_ascii_suffix; [by eapply suffix_trim_start|done].
Qed.

Lemma calm_prepare_sql b sql : is_ascii sql = true -> calm b (handle_prepare_sql sql) (fun _ => True).
Proof.
  intros Ha. unfold handle_prepare_sql. destruct (get_from 8 (trim sql)) as [rest|] eqn:Eg; [|by apply calm_ret].
  assert (Har : is_ascii (trim rest) = true).
  { apply ascii_trim. unfold get_from in Eg. destruct (_ && _); [|done]. injection Eg as <-.
    eapply is_ascii_suffix; [apply suffix_drop|]. by apply ascii_trim. }
  destruct (find_text (text " AS ") (to_uppercase (trim rest))) as [p|] eqn:Ef; [|by apply calm_ret].
  apply find_text_bound in Ef. change (len (text " AS ")) with 4 in Ef. unfold to_uppercase in Ef. rewrite Har in Ef.
  unfold len in Ef at 1. rewrite length_fmap in Ef. fold (len (trim rest)) in Ef.
  destruct (@str_slice_ascii IoError (trim rest) 0 p Har) as [a Hsa]; [lia..|].
  destruct (@str_slice_ascii IoError (trim rest) (p + 4) (len (trim rest)) Har) as [q Hsq]; [lia..|].
  eapply calm_bind; [by apply (calm_lift _ a _ (fun _ => True))|]. intros a' _.
  eapply calm_bind; [by apply (calm_lift _ q _ (fun _ => True))|]. intros q' _.
  eapply calm_bind; [apply calm_set_prepared|]. intros _ _. by apply calm_ret.
Qed.

Lemma calm_execute_sql b sql : calm b (handle_execute_sql sql) (fun _ => True).
Proof.
  unfold handle_execute_sql. destruct (get_from 8 (trim sql)) as [rest|]; [|by apply calm_ret].
  destruct (match split_first 40 (trim rest) with Some (a, r) => (trim a, Some (40 :: r)) | None => (trim rest, None) end) as [nm args].
  eapply calm_bind; [apply calm_get|]. intros ps _. destruct (ps !! nm); [|by apply calm_ret]. by apply calm_execute.
Qed.

Lemma calm_simple_statement sql : is_ascii sql = true -> calm true (simple_statement sql) (fun _ => True).
Proof.
  intros Ha. unfold simple_statement. repeat case_match.
  all: try (apply calm_write; by apply send_msg_ready).
  - eapply calm_bind; [apply calm_write; by apply send_msg_ready|]. intros _ _. apply calm_write. by apply send_msg_ready.
  - eapply calm_bind; [by apply calm_prepare_sql|]. intros ok _. destruct ok; apply calm_write; by apply send_msg_ready.
  - eapply calm_bind; [by apply calm_execute_sql|]. intros r _. apply calm_answer.
  - eapply calm_bind; [by apply calm_execute|]. intros r _. apply calm_answer.
Qed.

Lemma calm_simple_statements stmts : Forall (fun sql => is_ascii sql = true) stmts -> calm true (simple_statements stmts) (fun _ => True).
Proof.
  induction 1 as [|sql stmts Ha _ IH]; [by apply calm_ret|]. cbn [simple_statements].
  eapply calm_bind; [by apply calm_simple_statement|]. intros _ _. exact IH.
Qed.

Lemma ascii_split c l cur : is_ascii cur = true -> is_ascii l = true -> Forall (fun x => is_ascii x = true) (split_on c cur l).
Proof.
  revert cur. induction l as [|x l IH]; intros cur Hc Hl; cbn [split_on]; [by constructor|].
  cbn [is_ascii forallb] in Hl. apply andb_true_iff in Hl as [Hx Hl]. destruct (x =? c).
  - constructor; [done|]. by apply IH.
  - apply IH; [|done]. rewrite is_ascii_app, Hc. cbn. by rewrite Hx.
Qed.

Lemma ascii_batch sql : is_ascii sql = true -> Forall (fun x => is_ascii x = true) (batch sql).
Proof.
  intros Ha. unfold batch. pose proof (ascii_split 59 sql [] eq_refl Ha) as Hs. apply List.Forall_forall. intros x Hx%filter_In.
  destruct Hx as [Hx _]. apply in_map_iff in Hx as (y & <- & Hy). apply ascii_trim. rewrite List.Forall_forall in Hs. by apply Hs.
Qed.

Lemma calm_parse b nm q types : calm b (handle_parse nm q types) (fun _ => True).
Proof. eapply calm_bind; [apply calm_set_prepared|]. intros _ _. apply calm_write. by apply send_msg_ready. Qed.

Lemma calm_set_portals (b : bool) (f : Connection -> gmap (list N) Portal) :
  (forall c, map_Forall (fun _ => portal_ok) (portals c) -> map_Forall (fun _ => portal_ok) (f c)) ->
  calm b (modify (fun c => set_portals (f c) c)) (fun _ => True).
Proof. intros Hf. apply calm_modify; [|exact Hf]. intros c. split_and!; [done..|]. by left. Qed.

Lemma calm_bind_portal b portal statement pf ps rf : calm b (handle_bind portal statement pf ps rf) (fun _ => True).
Proof.
  unfold handle_bind. eapply calm_bind; [apply calm_get|]. intros stmts _. destruct (stmts !! statement); [|apply calm_write; by apply send_msg_ready].
  eapply calm_bind; [|intros _ _; apply calm_write; by apply send_msg_ready]. apply calm_set_portals. intros c Hc. by apply map_Forall_insert_2.
Qed.

Lemma calm_describe_query b q ps fs : calm b (describe_query q ps fs) (fun _ => True).
Proof.
  unfold describe_query. destruct (is_select q); [|apply calm_write; by apply send_msg_ready].
  eapply calm_bind; [by apply calm_execute|]. intros r _. repeat case_match; apply calm_write; by apply send_msg_ready.
Qed.

Lemma calm_describe b kind nm : calm b (handle_describe kind nm) (fun _ => True).
Proof.
  unfold handle_describe. destruct (kind =? 83); (eapply calm_bind; [apply calm_get|]; intros m _; destruct (m !! nm) as [x|];
    [|apply calm_write; by apply send_msg_ready]).
  - eapply calm_bind; [apply calm_write; by apply send_msg_ready|]. intros _ _. by apply calm_describe_query.
  - by apply calm_describe_query.
Qed.

Lemma calm_portal_run b portal p : calm b (portal_run portal p) (fun _ => True).
Proof.
  unfold portal_run. destruct (portal_result p); [by apply calm_ret|].
  eapply (calm_bind _ _ _ (fun _ => True)).
  - destruct (starts_with _ _); [by apply calm_ret|by apply calm_execute].
  - intros [msg|r] _.
    + eapply calm_bind; [apply calm_write_error|]. intros _ _. by apply calm_ret.
    + eapply calm_bind; [|intros _ _; by apply calm_ret]. apply calm_set_portals. intros c Hc. intros k q Hk.
      destruct (decide (k = portal)) as [->|Hne].
      * rewrite lookup_alter_eq in Hk. apply fmap_Some in Hk as (q' & _ & ->). unfold portal_ok, with_result. cbn. lia.
      * rewrite lookup_alter_ne in Hk by done. by apply (Hc k).
Qed.

(** *** Portals *)

Definition row_msg (row : list Value.Value) : list N := match row_message row with Ok m => m | _ => [] end.

Lemma row_msg_ok row : row_message row = Ok (row_msg row) /\ is_ready (row_msg row) = false.
Proof. unfold row_msg. destruct (row_message_ok row) as (m & -> & Hm). done. Qed.

Lemma write_rows_spec rs s : write_rows rs s = (mkState (set_out (out (conn s) ++ map row_msg rs) (conn s)) (db s), Ok ()).
Proof.
  revert s. induction rs as [|row rs IH]; intros s; cbn [write_rows map].
  - rewrite app_nil_r. by destruct s as [[] ?].
  - unfold mbind, serve_bind, lift, write, modify. rewrite (proj1 (row_msg_ok row)). cbn. rewrite IH. cbn. by rewrite <- app_assoc.
Qed.

(** The rows an Execute hands out, and the messages it answers with. *)
Definition page_end (r : QueryResult) (start max_rows : N) : N :=
  N.min (start + (if max_rows =? 0 then len (rows r) else max_rows)) (len (rows r)).
Definition page_rows (r : QueryResult) (start max_rows : N) : list (list Value.Value) :=
  (rows r).[start; page_end r start max_rows - start].
Definition page (r : QueryResult) (start max_rows : N) : list (list N) :=
  (if decide (columns r = []) then [] else if start =? 0 then [row_description (columns_with_oids r)] else []) ++
  map row_msg (page_rows r start max_rows) ++
  [if page_end r start max_rows <? len (rows r) then portal_suspended else command_complete (tag r)].

Lemma portal_rows_spec s portal p r max_rows : portals (conn s) !! portal = Some p -> portal_result p = Some r -> cursor p <= len (rows r) ->
  portal_rows portal max_rows s =
    (mkState (set_out (out (conn s) ++ page r (cursor p) max_rows)
      (set_portals (<[portal := with_cursor (page_end r (cursor p) max_rows) p]> (portals (conn s))) (conn s))) (db s), Ok ()).
Proof.
  intros Hp Hr Hc. unfold portal_rows, mbind, serve_bind, get, lift, modify, or_panic. rewrite Hp, Hr. cbv zeta beta iota.
  fold (page_end r (cursor p) max_rows). unfold page, page_rows.
  assert (Hle : cursor p <= page_end r (cursor p) max_rows <= len (rows r)) by (unfold page_end; lia).
  generalize dependent (page_end r (cursor p) max_rows). intros e Hle. rewrite slice_ok by lia. cbn [conn].
  destruct (decide (columns r = [])) as [Ed|Ed]; cbn [app].
  - cbn [mret serve_ret]. rewrite write_rows_spec. cbn [conn db]. destruct (e <? len (rows r)); unfold write, modify; cbn -[send_msg]; by rewrite <- app_assoc.
  - destruct (cursor p =? 0); cbn [mret serve_ret write modify conn]; rewrite write_rows_spec; cbn [conn db];
      destruct (e <? len (rows r)); unfold write, modify; cbn -[send_msg]; by rewrite <- ?app_assoc.
Qed.

Lemma page_not_ready r start n : Forall (fun m => is_ready m = false) (page r start n).
Proof.
  unfold page. rewrite !Forall_app. split_and!.
  - case_decide; [constructor|]. destruct (start =? 0); constructor; [by apply send_msg_ready|constructor].
  - apply Forall_map, Forall_forall. intros row _. apply row_msg_ok.
  - constructor; [|constructor]. case_match; by apply send_msg_ready.
Qed.

Lemma quiet_portal_rows b s portal p r max_rows : good s -> portals (conn s) !! portal = Some p -> portal_result p = Some r ->
  exists s', portal_rows portal max_rows s = (s', Ok ()) /\ quiet b s s'.
Proof.
  intros [Hm Hpo Hst] Hp Hr. pose proof (Hpo portal p Hp) as Hc. unfold portal_ok in Hc. rewrite Hr in Hc.
  eexists. split; [by eapply portal_rows_spec|]. eexists. split_and!; [|done|apply page_not_ready|done|done|by left].
  split; [done| |done]. cbn. apply map_Forall_insert_2; [|done]. unfold portal_ok, with_cursor. cbn. rewrite Hr. unfold page_end. lia.
Qed.

(** A portal that has been run has a result. *)
Lemma portal_run_result s s1 portal p : portals (conn s) !! portal = Some p -> portal_run portal p s = (s1, Ok true) ->
  exists p' r, portals (conn s1) !! portal = Some p' /\ portal_result p' = Some r.
Proof.
  intros Hp E1. unfold portal_run, mbind, serve_bind in E1. destruct (portal_result p) as [r|] eqn:Er; [injection E1 as <-; by exists p, r|].
  destruct (starts_with _ _).
  - cbn in E1. injection E1 as <-. cbn. rewrite lookup_alter_eq, Hp. cbn. by do 2 eexists.
  - destruct (execute _ s) as [s2 [[msg|r]| |]] eqn:Ee; [| |done|done].
    + unfold write_error in E1. by destruct (sqlstate_for_error msg).
    + cbn in E1. injection E1 as <-. cbn. assert (conn s2 = conn s) as ->.
      { unfold execute in Ee. destruct (poisoned (db s)); [done|]. destruct (db_execute _ _) as [d [?|?|]]; by injection Ee as <- _. }
      rewrite lookup_alter_eq, Hp. cbn. by do 2 eexists.
Qed.

Lemma calm_handle_execute b portal max_rows : calm b (handle_execute portal max_rows) (fun _ => True).
Proof.
  intros s Hs. unfold handle_execute, mbind, serve_bind, get. destruct (portals (conn s) !! portal) as [p|] eqn:Hp.
  2:{ apply (calm_write b); [by apply send_msg_ready|done]. }
  destruct (calm_portal_run b portal p s Hs) as [(s1 & ok & E1 & _ & Hq)|(s1 & -> & Hh)]; [|right; by exists s1].
  rewrite E1. left. destruct ok; [|by exists s1, ()].
  destruct (portal_run_result s s1 portal p Hp E1) as (p' & r & Hp' & Hr').
  destruct (quiet_portal_rows b s1 portal p' r max_rows) as (s2 & E2 & Hq2); [by destruct Hq as (? & ? & _)|done..|].
  exists s2, (). split_and!; [done|done|by eapply quiet_trans].
Qed.

(** *** Messages *)

Lemma ready_count_app l r : ready_count (l ++ r) = (ready_count l + ready_count r)%nat.
Proof. unfold ready_count. by rewrite List.filter_app, length_app. Qed.

Lemma ready_count_none ms : Forall (fun m => is_ready m = false) ms -> ready_count ms = 0%nat.
Proof. induction 1 as [|m ms Hm _ IH]; [done|]. unfold ready_count in *. cbn. by rewrite Hm. Qed.

(** The text of a simple query is ASCII. *)
Definition plain_message (m : FrontendMsg) : Prop := match m with Query sql => is_ascii sql = true | _ => True end.

Record handled s s' (m : FrontendMsg) (ms : list (list N)) : Prop := {
  hl_good : good s';
  hl_status : tx_status (conn s') = 73;
  hl_reader : reader (conn s') = reader (conn s);
  hl_out : out (conn s') = out (conn s) ++ ms;
  hl_ready : ready_count ms = (if wants_ready m then 1 else 0)%nat;
  hl_flushed : wants_ready m = true -> flushed (conn s') = length (out (conn s'))
}.

Lemma handled_calm m (op : serve ()) s : wants_ready m = false -> good s -> tx_status (conn s) = 73 -> calm false op (fun _ => True) ->
  (exists s' ms, (_ ← op; mret true) s = (s', Ok true) /\ handled s s' m ms) \/
  (exists s', (_ ← op; mret true) s = (s', Panic) /\ halted s s').
Proof.
  intros Hw Hs H73 Hop. unfold mbind, serve_bind.
  destruct (Hop s Hs) as [(s1 & [] & -> & _ & ms & Hs1 & Eo1 & Hn1 & Ef1 & Er1 & [Es1|[? _]])|(s1 & -> & Hh)]; [|done|right; by exists s1].
  left. exists s1, ms. split; [done|]. split; [done|congruence|done|done| |by rewrite Hw]. by rewrite Hw, ready_count_none.
Qed.

Lemma query_handled sql s : is_ascii sql = true -> good s -> tx_status (conn s) = 73 ->
  (exists s' ms, handle_simple_query sql s = (s', Ok ()) /\ handled s s' (Query sql) ms) \/
  (exists s', handle_simple_query sql s = (s', Panic) /\ halted s s').
Proof.
  intros Ha Hs H73. unfold handle_simple_query. case_decide.
  - left. exists (mkState (set_flushed (length (out (conn s) ++ [empty_query_response; ready_for_query 73]))
      (set_out (out (conn s) ++ [empty_query_response; ready_for_query 73]) (conn s))) (db s)), [empty_query_response; ready_for_query 73].
    split; [unfold mbind, serve_bind, write, modify, get, flush; cbn -[send_msg ready_for_query]; rewrite H73, <- app_assoc; done|].
    split; try done. by destruct Hs.
  - unfold mbind, serve_bind. destruct (calm_simple_statements (batch (trim sql)) (ascii_batch _ (ascii_trim _ Ha)) s Hs)
      as [(s1 & [] & -> & _ & ms & [Hm1 Hp1 Hst1] & Eo1 & Hn1 & Ef1 & Er1 & _)|(s1 & -> & Hh)]; [|right; by exists s1].
    left. set (st := tx_status (conn s1)) in *. exists (mkState (set_flushed (length (out (conn s1) ++ [ready_for_query st])) (set_status 73
      (set_out (out (conn s1) ++ [ready_for_query st]) (conn s1)))) (db s1)), (ms ++ [ready_for_query st]). split.
    + unfold get, write, modify, flush. cbn -[ready_for_query]. fold st.
      destruct Hst1 as [E|E]; rewrite E; cbn -[ready_for_query]; [|done].
      unfold set_flushed, set_status, set_out. cbn -[ready_for_query]. fold st. by rewrite E.
    + split; try done; cbn -[ready_for_query].
      * split; [done|done|by left].
      * by rewrite Eo1, app_assoc.
      * rewrite ready_count_app, ready_count_none by done. unfold ready_count. cbn. done.
Qed.

Definition ends_session (m : FrontendMsg) : bool := match m with Terminate => true | _ => false end.

Lemma calm_close b kind nm : calm b (_ ← modify (fun c => if kind =? 83 then set_prepared (delete nm (prepared c)) c
  else set_portals (delete nm (portals c)) c); write close_complete) (fun _ => True).
Proof.
  eapply calm_bind; [|intros _ _; apply calm_write; by apply send_msg_ready]. apply calm_modify.
  - intros c. destruct (kind =? 83); split_and!; auto.
  - intros c Hc. destruct (kind =? 83); [done|]. cbn. by apply map_Forall_delete.
Qed.

Lemma idle_handled m b s : wants_ready m = false -> good s -> tx_status (conn s) = 73 ->
  exists s' ms, (s, Ok b) = (s', @Ok IoError bool b) /\ handled s s' m ms.
Proof.
  intros Hw Hs H73. exists s, []. split; [done|]. split; try done; [by rewrite app_nil_r|by rewrite Hw|by rewrite Hw].
Qed.

Lemma message_handled m s : plain_message m -> good s -> tx_status (conn s) = 73 ->
  (exists s' ms, handle_message m s = (s', Ok (negb (ends_session m))) /\ handled s s' m ms) \/
  (exists s', handle_message m s = (s', Panic) /\ halted s s').
Proof.
  intros Hpl Hs H73. destruct m as [sql| | | | | | |kd nm| |data| |msg|pw]; cbn [handle_message ends_session negb].
  9-13: left; by apply idle_handled.
  - unfold mbind, serve_bind. destruct (query_handled sql s Hpl Hs H73) as [(s' & ms & -> & Hh)|(s' & -> & Hh)]; [left; by exists s', ms|right; by exists s'].
  - apply handled_calm; [done..|apply calm_parse].
  - apply handled_calm; [done..|apply calm_bind_portal].
  - apply handled_calm; [done..|apply calm_handle_execute].
  - apply handled_calm; [done..|apply calm_describe].
  - left. exists (mkState (set_flushed (length (out (conn s) ++ [ready_for_query 73])) (set_out (out (conn s) ++ [ready_for_query 73]) (conn s))) (db s)), [ready_for_query 73].
    split; [unfold mbind, serve_bind, write, modify, get, flush; cbn -[ready_for_query]; by rewrite H73|]. split; try done. by destruct Hs.
  - left. exists (mkState (set_flushed (length (out (conn s))) (conn s)) (db s)), []. split; [done|]. split; try done; [by destruct Hs|].
    by rewrite app_nil_r.
  - destruct (handled_calm (Close kd nm) _ s eq_refl Hs H73 (calm_close false kd nm)) as [(s' & ms & E & Hh)|(s' & E & Hh)];
      [left; exists s', ms|right; exists s']; (split; [|done]); rewrite <- E; unfold mbind, serve_bind; done.
Qed.

(** How many messages up to the first Terminate are answered by ReadyForQuery. *)
Fixpoint answers_due (ms : list FrontendMsg) : nat :=
  match ms with
  | [] => 0
  | m :: ms => if ends_session m then 0 else (if wants_ready m then 1 else 0) + answers_due ms
  end.

Definition stream (ms : list FrontendMsg) : list N := concat (map frontend_bytes ms).

(** How a session ends that has written [n] ReadyForQuery and has [ms] before it. *)
Definition served (n : nat) (ms : list FrontendMsg) s' (r : io_result ()) : Prop :=
  (r = Ok () /\ poisoned (db s') = false /\ tx_status (conn s') = 73 /\ ready_count (out (conn s')) = (n + answers_due ms)%nat) \/
  (r = Panic /\ poisoned (db s') = true /\ (exists sql d, db_execute sql d = (guarded (db s'), Panic)) /\
   exists ms1 m ms2, ms = ms1 ++ m :: ms2 /\ Forall (fun m => ends_session m = false) (ms1 ++ [m]) /\
     ready_count (out (conn s')) = (n + answers_due ms1)%nat).

Lemma served_cons n m ms s r : ends_session m = false ->
  served (n + (if wants_ready m then 1 else 0)) ms s r -> served n (m :: ms) s r.
Proof.
  intros Hm [(-> & Hp & Hs & Hc)|(-> & Hp & Hd & ms1 & m' & ms2 & -> & Ht & Hc)].
  - left. cbn [answers_due]. rewrite Hm. split_and!; [done..|lia].
  - right. split_and!; [done..|]. exists (m :: ms1), m', ms2. cbn [answers_due app]. rewrite Hm. split_and!; [done|by constructor|lia].
Qed.

Lemma message_loop_ok ms fuel s : Forall (fun m => frontend_ok m /\ plain_message m) ms -> good s -> tx_status (conn s) = 73 ->
  reader (conn s) = stream ms -> (length ms < fuel)%nat ->
  exists s' r, message_loop fuel s = (s', r) /\ served (ready_count (out (conn s))) ms s' r.
Proof.
  intros Hms. revert fuel s. induction Hms as [|m ms [Hok Hpl] _ IH]; intros [|fuel] s Hs H73 Hr Hf; try (cbn in Hf; lia); cbn [message_loop].
  - unfold read. rewrite Hr. cbn. exists s, (Ok ()). split; [done|]. left. destruct Hs. rewrite Nat.add_0_r. done.
  - unfold read. rewrite Hr. change (stream (m :: ms)) with (frontend_bytes m ++ stream ms). rewrite (read_message_ok m (stream ms) Hok).
    set (s0 := mkState (set_reader (stream ms) (conn s)) (db s)). unfold mbind, serve_bind.
    destruct (message_handled m s0 Hpl) as [(s1 & msgs & -> & [Hg1 H73' Hr1 Ho1 Hn1 Hfl1])|(s1 & E & Hp & Hd & msgs & Eo & Hn)]; [by destruct Hs|done| |].
    + destruct (ends_session m) eqn:Et; cbn [negb].
      * exists s1, (Ok ()). split; [done|]. left. destruct Hg1. split_and!; [done..|]. rewrite Ho1, ready_count_app, Hn1. by destruct m.
      * destruct (IH fuel s1 Hg1 H73' Hr1) as (s2 & r & E2 & Hs2); [cbn in Hf; lia|]. exists s2, r. split; [done|].
        apply served_cons; [done|]. rewrite Ho1, ready_count_app, Hn1 in Hs2. exact Hs2.
    + rewrite E. exists s1, Panic. split; [done|]. right. split_and!; [done..|]. exists [], m, ms. split_and!; [done| |].
      * constructor; [|constructor]. by destruct m.
      * rewrite Eo, ready_count_app, (ready_count_none msgs) by done. done.
Qed.

Lemma stream_length ms : (length ms <= length (stream ms))%nat.
Proof. induction ms as [|m ms IH]; [done|]. unfold stream in *. cbn [map concat length]. rewrite length_app. cbn. lia. Qed.

(** *** Startup *)

Definition params_ok (kvs : list (list N * list N)) : Prop :=
  Forall (fun kv => kv.1 <> [] /\ cstr_ok kv.1 /\ cstr_ok kv.2) kvs /\ len (startup_bytes PROTOCOL_VERSION kvs) < 2 ^ 32.

(** A connection of which the client has sent [input]. *)
Definition initial (input : list N) (pid : N) (auth : bool) (d : DB) : State := mkState (new_with_auth input pid auth) (mkMutex d false).

Lemma startup_read kvs rest pid auth d : params_ok kvs ->
  exists m, handle_startup (initial (startup_bytes PROTOCOL_VERSION kvs ++ rest) pid auth d) = (initial rest pid auth d, Ok m).
Proof.
  intros [Hk Hl]. eexists. unfold handle_startup, mbind, serve_bind, read. cbn [conn initial new_with_auth reader].
  rewrite (read_startup_ok PROTOCOL_VERSION kvs rest) by done. done.
Qed.

Lemma write_all_spec ms s : write_all ms s = (mkState (set_out (out (conn s) ++ ms) (conn s)) (db s), Ok ()).
Proof.
  revert s. induction ms as [|m ms IH]; intros s; cbn [write_all].
  - rewrite app_nil_r. by destruct s as [[] ?].
  - unfold mbind, serve_bind, write, modify. rewrite IH. cbn. by rewrite <- app_assoc.
Qed.

(** The loop behind a greeting: the state it starts in and what it does. *)
Definition greeted s : State :=
  let o := out (conn s) ++ greeting (pid (conn s)) (secret_key (conn s)) in
  mkState (set_flushed (length o) (set_out o (conn s))) (db s).

Lemma admit_client_spec s : admit_client s = serve_messages (greeted s).
Proof. unfold admit_client, mbind, serve_bind, get, flush, modify. by rewrite write_all_spec. Qed.

Lemma greeted_serves ms s : Forall (fun m => frontend_ok m /\ plain_message m) ms -> good s -> tx_status (conn s) = 73 ->
  reader (conn s) = stream ms -> exists s' r, admit_client s = (s', r) /\ served (ready_count (out (conn s)) + 1) ms s' r.
Proof.
  intros Hms [Hm Hp Hst] H73 Hr. rewrite admit_client_spec. unfold serve_messages. cbn [greeted conn set_flushed set_out reader].
  destruct (message_loop_ok ms (S (length (reader (conn s)))) (greeted s) Hms) as (s' & r & E & Hs');
    [by split|done|done|rewrite Hr; pose proof (stream_length ms); lia|].
  exists s', r. split; [done|]. cbn [greeted conn set_flushed set_out out] in Hs'. by rewrite ready_count_app in Hs'.
Qed.

(** C16: A client that starts a session without a password and without TLS, and sends
    well-formed messages whose simple queries are ASCII text, is served to the end,
    whatever the database does.  Either the session ends with the stream or with
    Terminate, with the mutex of the database free and the transaction status idle,
    and the server has sent one ReadyForQuery at the start and exactly one for each
    Query and each Sync before that end.  Or a statement of the message [m] has
    panicked: then the messages before [m] have been answered so, [m] has not, the
    mutex is poisoned, and the database is as the statement has left it.  Nothing else ends a
    session, in particular no error of a statement. *)
Theorem session_answers_each_query kvs ms pid d : params_ok kvs ->
  Forall (fun m => frontend_ok m /\ plain_message m) ms ->
  exists s' r, run (initial (startup_bytes PROTOCOL_VERSION kvs ++ stream ms) pid false d) = (s', r) /\
    ((r = Ok () /\ poisoned (db s') = false /\ tx_status (conn s') = 73 /\
      ready_count (out (conn s')) = (1 + answers_due ms)%nat) \/
     (r = Panic /\ poisoned (db s') = true /\ (exists sql d, db_execute sql d = (guarded (db s'), Panic)) /\
      exists ms1 m ms2, ms = ms1 ++ m :: ms2 /\ Forall (fun m => ends_session m = false) (ms1 ++ [m]) /\
        ready_count (out (conn s')) = (1 + answers_due ms1)%nat)).
Proof.
  intros Hk Hms. destruct (startup_read kvs (stream ms) pid false d Hk) as [m Em].
  destruct (greeted_serves ms (initial (stream ms) pid false d) Hms) as (s' & r & E & Hs); [|done|done|].
  { split; [done|by apply map_Forall_empty|by left]. }
  exists s', r. unfold run, mbind, serve_bind. rewrite Em. cbn [get conn initial new_with_auth require_auth mret serve_ret]. split; [exact E|exact Hs].
Qed.

(** *** Authentication *)

Definition looks_like_md5 (m : FrontendMsg) : bool :=
  match m with PasswordMessage pw => starts_with (text "md5") pw | _ => false end.

Lemma denied_spec s code msg : exists s', (_ ← deny code msg; admit_client) s = (s', Err (mkIo PermissionDenied (text "auth failed"))) /\
  db s' = db s /\ out (conn s') = out (conn s) ++ [error_response (text "FATAL") code msg].
Proof. eexists. unfold deny, mbind, serve_bind, write, flush, modify, lift. split; [reflexivity|]. done. Qed.

(** The password is not checked: a client is let in, and served as without
    authentication, exactly if its first message is a password that begins with
    [md5]; the user and what follows do not matter.  Otherwise it is told off, and
    nothing is executed. *)
Theorem any_md5_password_accepted kvs m ms pid d : params_ok kvs -> frontend_ok m ->
  Forall (fun m => frontend_ok m /\ plain_message m) ms ->
  exists s' r, run (initial (startup_bytes PROTOCOL_VERSION kvs ++ stream (m :: ms)) pid true d) = (s', r) /\
    if looks_like_md5 m then served 1 ms s' r
    else r = Err (mkIo PermissionDenied (text "auth failed")) /\ db s' = mkMutex d false /\ ready_count (out (conn s')) = 0%nat.
Proof.
  intros Hk Hm Hms. destruct (startup_read kvs (stream (m :: ms)) pid true d Hk) as [sm Em].
  set (s1 := mkState (set_reader (stream ms) (set_flushed 1 (set_out [auth_md5_challenge (be_bytes 4 (N.lxor (pseudo_rand pid) (u32 (pid * 0x9e3779b9))))]
    (new_with_auth (stream (m :: ms)) pid true)))) (mkMutex d false)).
  assert (Ha : run (initial (startup_bytes PROTOCOL_VERSION kvs ++ stream (m :: ms)) pid true d) =
    (_ ← (match m with
          | PasswordMessage pw => if starts_with (text "md5") pw && negb (bool_decide (pw = [])) then mret ()
                                  else deny (text "28P01") (text "password authentication failed")
          | _ => deny (text "28000") (text "expected PasswordMessage")
          end); admit_client) s1).
  { unfold run. unfold mbind at 1, serve_bind at 1. rewrite Em. unfold get at 1, mbind at 1, serve_bind at 1. cbn [conn initial new_with_auth require_auth].
    unfold authenticate. unfold mbind at 1 2 3 4 5 6, serve_bind at 1 2 3 4 5 6. unfold get, write, flush, modify, read. cbn -[auth_md5_challenge read_message stream].
    change (stream (m :: ms)) with (frontend_bytes m ++ stream ms). rewrite (read_message_ok m (stream ms) Hm). done. }
  rewrite Ha. clear Ha Em.
  destruct (looks_like_md5 m) eqn:El.
  - destruct m as [| | | | | | | | | | | |pw]; try discriminate El. cbn [looks_like_md5] in El. rewrite El.
    destruct pw as [|c pw]; [discriminate El|]. rewrite bool_decide_eq_false_2 by done. cbn [andb negb].
    destruct (greeted_serves ms s1 Hms) as (s' & r & E & Hs); [split; [done|by apply map_Forall_empty|by left]|done|done|].
    exists s', r. split; [exact E|exact Hs].
  - destruct (denied_spec s1 (match m with PasswordMessage _ => text "28P01" | _ => text "28000" end)
      (match m with PasswordMessage _ => text "password authentication failed" | _ => text "expected PasswordMessage" end)) as (s' & E & Hdb & Ho).
    exists s', (Err (mkIo PermissionDenied (text "auth failed"))). split.
    + destruct m as [| | | | | | | | | | | |pw]; try exact E. cbn [looks_like_md5] in El. rewrite El. exact E.
    + split_and!; [done|by rewrite Hdb|]. rewrite Ho, ready_count_app. done.
Qed.

(** *** Paging *)

Fixpoint fetch_pages (k : nat) (portal : list N) (n : N) : serve () :=
  match k with O => mret () | S k => _ ← handle_execute portal n; fetch_pages k portal n end.

(** The start of the [i]th page. *)
Definition page_start (r : QueryResult) (n : N) (i : nat) : N := N.min (N.of_nat i * n) (len (rows r)).

Lemma page_start_next r n i : 0 < n -> page_end r (page_start r n i) n = page_start r n (S i).
Proof. intros Hn. unfold page_end, page_start. rewrite (proj2 (N.eqb_neq n 0)) by lia. lia. Qed.

Lemma fetch_pages_cached k i s portal p r n : 0 < n -> portals (conn s) !! portal = Some p -> portal_result p = Some r ->
  cursor p = page_start r n i ->
  exists s', fetch_pages k portal n s = (s', Ok ()) /\ db s' = db s /\
    out (conn s') = out (conn s) ++ concat (map (fun j => page r (page_start r n j) n) (seq i k)).
Proof.
  intros Hn. revert i s p. induction k as [|k IH]; intros i s p Hp Hr Hc.
  - exists s. cbn. by rewrite app_nil_r.
  - cbn [fetch_pages seq map concat]. unfold mbind at 1, serve_bind at 1.
    assert (E : handle_execute portal n s = portal_rows portal n s).
    { unfold handle_execute, mbind, serve_bind, get. rewrite Hp. unfold portal_run. by rewrite Hr. }
    rewrite E, (portal_rows_spec s portal p r n Hp Hr) by (rewrite Hc; unfold page_start; lia). rewrite Hc, page_start_next by done.
    set (s1 := mkState _ _). destruct (IH (S i) s1 (with_cursor (page_start r n (S i)) p)) as (s' & E' & Hd & Ho).
    { cbn. by rewrite lookup_insert_eq. } { done. } { done. }
    exists s'. split_and!; [exact E'|exact Hd|]. rewrite Ho. cbn. by rewrite <- app_assoc.
Qed.

Lemma pages_cover r n k : 0 < n -> concat (map (fun j => page_rows r (page_start r n j) n) (seq 0 k)) = take (N.to_nat (N.of_nat k * n)) (rows r).
Proof.
  intros Hn. induction k as [|k IH]; [done|]. rewrite seq_S, map_app, concat_app, IH. cbn [map concat]. rewrite app_nil_r. clear IH.
  unfold page_rows. rewrite page_start_next by done. cbn [Nat.add]. unfold read_at, page_start.
  replace (N.to_nat (N.of_nat (S k) * n)) with (N.to_nat (N.of_nat k * n) + N.to_nat n)%nat by lia.
  rewrite <- take_take_drop. f_equal. destruct (N.le_gt_cases (len (rows r)) (N.of_nat k * n)) as [Hge|Hlt].
  - rewrite !drop_ge by (unfold len in *; lia). by rewrite !take_nil.
  - replace (N.min (N.of_nat k * n) (len (rows r))) with (N.of_nat k * n) by lia.
    destruct (N.le_gt_cases (len (rows r)) (N.of_nat (S k) * n)) as [Hge'|Hlt'].
    + rewrite !take_ge; [done|rewrite length_drop; unfold len in *; lia..].
    + f_equal. lia.
Qed.

(** C38: A portal runs its statement once and hands its rows out in pages: fetching [n]
    rows [k] times, both positive, answers with the first [k * n] rows, each once and in order, with
    a row description before the first; an answer that does not reach the
    last row ends in PortalSuspended, one that does in CommandComplete.  The portal
    has not been run before, its statement is no SET and succeeds, and the mutex of
    the database is free. *)
Theorem portal_pages_result s portal p q d r n k : 0 < n -> (0 < k)%nat ->
  portals (conn s) !! portal = Some p -> portal_result p = None -> poisoned (db s) = false ->
  q = substitute_params (query (stmt p)) (params p) (param_formats p) -> starts_with (text "SET ") (to_uppercase (trim q)) = false ->
  db_execute q (guarded (db s)) = (d, Ok r) ->
  exists s', fetch_pages k portal n s = (s', Ok ()) /\ db s' = mkMutex d false /\
    out (conn s') = out (conn s) ++ concat (map (fun j => page r (page_start r n j) n) (seq 0 k)) /\
    concat (map (fun j => page_rows r (page_start r n j) n) (seq 0 k)) = take (N.to_nat (N.of_nat k * n)) (rows r).
Proof.
  intros Hn Hk Hp Hr Hm Hq Hset Hex. set (s0 := mkState (set_portals (<[portal := with_result r p]> (portals (conn s))) (conn s)) (mkMutex d false)).
  destruct (fetch_pages_cached k 0 s0 portal (with_result r p) r n Hn) as (s' & E & Hd & Ho).
  { cbn. by rewrite lookup_insert_eq. } { done. } { unfold page_start. cbn. lia. }
  exists s'. split_and!; [|done|done|by apply pages_cover]. rewrite <- E. destruct k as [|k]; [lia|]. cbn [fetch_pages].
  unfold mbind, serve_bind. assert (Eh : handle_execute portal n s = handle_execute portal n s0); [|by rewrite Eh].
  unfold handle_execute, mbind, serve_bind, get. rewrite Hp. cbn [conn s0 set_portals portals]. rewrite lookup_insert_eq.
  unfold portal_run, mbind, serve_bind. rewrite Hr. rewrite <- Hq, Hset. unfold execute. rewrite Hm, Hex. cbn [with_result portal_result].
  unfold modify. cbn [conn db mret serve_ret]. replace (alter (with_result r) portal (portals (conn s))) with (<[portal := with_result r p]> (portals (conn s))); [done|].
  apply map_eq. intros j. destruct (decide (j = portal)) as [->|Hne].
  - by rewrite lookup_insert_eq, lookup_alter_eq, Hp.
  - by rewrite lookup_insert_ne, lookup_alter_ne.
Qed.

End Serving.

(** ** A database that logs its statements *)

Definition three_rows : QueryResult := mkQuery [text "n"] [[Value.Int64 1]; [Value.Int64 2]; [Value.Int64 3]] 0 (text "SELECT 3").

Definition log_execute (sql : list N) (log : list (list N)) : list (list N) * outcome (list N) QueryResult :=
  (log ++ [sql], Ok three_rows).

#[local] Instance log_db : Database (list (list N)) := {| db_execute := log_execute |}.
#[local] Instance ascii_only : UnicodeCase := ascii_unicode.

Lemma user_params_ok : params_ok [(text "user", text "ana")].
Proof. split; [|done]. constructor; [|constructor]. split_and!; [done|by apply cstr_check..]. Qed.

Definition sample_messages : list FrontendMsg := [Query (text "SELECT 1; SELECT 2"); Parse [] (text "SELECT $1") []; Sync; Terminate].

Lemma sample_messages_ok : Forall (fun m => frontend_ok m /\ plain_message m) sample_messages.
Proof.
  repeat constructor; try done; try by apply cstr_check.
Qed.

(** ** The engine as the database *)

Section EngineSessions.
#[local] Existing Instance list_slice_sort.
#[local] Existing Instance Value.code_debug.
#[local] Existing Instance HnswIndexSpec.far_list.
#[local] Existing Instance HnswIndexSpec.near_list.

Definition on_engine : Database (Engine.Db Disk.DiskManager) :=
  Handle.engine_database (fun _ => 0) (fun x => x) 10 0 (fun _ => text "error") (fun _ => text "error") (fun _ => text "error").

Definition engine_messages : list FrontendMsg :=
  [Query (text "CREATE TABLE t (a INT); INSERT INTO t VALUES (1)"); Query (text "SELECT * FROM missing"); Sync; Terminate].

(** The second statement of the second query divides by zero. *)
Definition zero_messages : list FrontendMsg := [Query (text "SELECT 1"); Query (text "SELECT 2; SELECT 1 % 0"); Sync].

#[local] Abbreviation engine_session ms :=
  (@run _ on_engine _ (initial (startup_bytes PROTOCOL_VERSION [(text "user", text "ana")] ++ stream ms) 1 false (Handle.new Disk.create))).

Lemma engine_session_ends : (engine_session engine_messages).2 = Ok ().
Proof. vm_compute. reflexivity. Qed.

Lemma zero_session_panics : (engine_session zero_messages).2 = Panic.
Proof. vm_compute. reflexivity. Qed.

Lemma engine_messages_ok : Forall (fun m => frontend_ok m /\ plain_message m) (engine_messages ++ zero_messages).
Proof. repeat constructor; try done; try by apply cstr_check. Qed.

Lemma session_answers_each_query_witness :
  (exists s', engine_session engine_messages = (s', Ok ()) /\ poisoned (db s') = false /\ ready_count (out (conn s')) = 4%nat) /\
  (exists s', engine_session zero_messages = (s', Panic) /\ poisoned (db s') = true).
Proof.
  pose proof engine_messages_ok as [H1 H2]%Forall_app. pose proof engine_session_ends as Hv. pose proof zero_session_panics as Hz. split.
  - destruct (@session_answers_each_query _ on_engine _ [(text "user", text "ana")] engine_messages 1 (Handle.new Disk.create) user_params_ok H1)
      as (s' & r & E & [(Hr & Hp & _ & Hc)|(Hr & _)]); rewrite Hr in E; rewrite E in Hv; [|discriminate Hv].
    exists s'. split; [exact E|]. split; [exact Hp|exact Hc].
  - destruct (@session_answers_each_query _ on_engine _ [(text "user", text "ana")] zero_messages 1 (Handle.new Disk.create) user_params_ok H2)
      as (s' & r & E & [(Hr & _)|(Hr & Hp & _)]); rewrite Hr in E; rewrite E in Hz; [discriminate Hz|].
    exists s'. split; [exact E|exact Hp].
Defined.

End EngineSessions.

Lemma any_md5_password_accepted_witness :
  exists s' r, run (initial (startup_bytes PROTOCOL_VERSION [(text "user", text "ana")] ++ stream (PasswordMessage (text "md5 please") :: sample_messages)) 1 true []) = (s', r) /\
    served 1 sample_messages s' r.
Proof.
  apply (any_md5_password_accepted [(text "user", text "ana")] (PasswordMessage (text "md5 please")) sample_messages 1 [] user_params_ok);
    [|exact sample_messages_ok]. split; [by apply cstr_check|done].
Defined.

Definition one_portal : State (DB := list (list N)) :=
  mkState (set_portals {[ text "p" := mkPortal (mkStmt [] (text "SELECT n FROM t") []) [] [] [] None 0 ]} (new_with_auth [] 1 false)) (mkMutex [] false).

Lemma portal_pages_result_witness :
  exists s', fetch_pages 2 (text "p") 2 one_portal = (s', Ok ()) /\ db s' = mkMutex [text "SELECT n FROM t"] false /\
    length (out (conn s')) = 6%nat.
Proof.
  destruct (portal_pages_result one_portal (text "p") (mkPortal (mkStmt [] (text "SELECT n FROM t") []) [] [] [] None 0)
    (text "SELECT n FROM t") [text "SELECT n FROM t"] three_rows 2 2) as (s' & E & Hd & Ho & _); try done; [lia|].
  exists s'. split_and!; [exact E|exact Hd|]. rewrite Ho. vm_compute. reflexivity.
Defined.

End Serving.
